(* ===== verification/_CoqProject ===== *)
-Q . S2P
Prelude.v
Types.v
TransportFd.v
Fdevent.v
FdeventInv.v
LooperInv.v
DeferredClose.v
Weak.v
Blocking.v
BlockingInv.v
Strings.v
SocketSpec.v
Transport.v
Reconnect.v
ReconnectInv.v
ReconnectQueue.v
World.v
Io.v
FdConnection.v
HostService.v
Sockets.v
SocketInv.v
Listeners.v
Adb.v
AdbInv.v
Services.v
ServicesInv.v
Emulator.v
Requests.v
Libadb.v
EventBus.v
EventBusInv.v
Client.v
ClientInv.v
Workers.v
Device.v
DeviceInv.v
Operations.v
OperationsInv.v
Paths.v
Installer.v
InstallerInv.v
IncrementalUtils.v
IncrementalSig.v
Incremental.v
IncrementalClient.v
IncrementalInv.v
IncrementalServe.v
IncrementalEnd.v
IncrementalDemo.v
SyncWire.v
Codec.v
CodecInv.v
Sync.v
SyncInv.v
SyncFiles.v
SyncAcks.v
SyncErrors.v
SyncDemo.v
