(* ===== verification/Prelude.v ===== *)
(** * A verification library for adb and the libadb client library

    The program is a fork of the Android Debug Bridge that is built as a C++ library: the
    host side of adb (adb/*.cpp) runs inside the process, and libadb
    (include/libadb/libadb.h, adb/lib/src) puts connections, operations and events for
    many devices on top of it.  The development translates both halves into executable
    definitions and proves what makes them correct; where the code falls short of what it
    means to do, a theorem exhibits the behaviour.

    ** The program and the files that model it

    Data that everything else moves:
    - Types.v - adb/types.h and types.cpp: [Block] and the [IOVector] of blocks that holds
      packet data, with uninitialised memory, moved-from blocks and the partly consumed
      front block.
    - TransportFd.v - adb/transport_fd.cpp: [NonblockingFdConnection], the framing of
      packets over a descriptor with short reads and writes.
    - Fdevent.v, FdeventInv.v, LooperInv.v - adb/fdevent: the event loop over epoll with its
      fdevents, timeouts and queue of functions, the threads that use it, and the start
      and stop of the thread that runs it (lib/src/AdbManager.cpp).
    - DeferredClose.v - [deferred_close] of adb/sockets.cpp, as a client of the event loop.
    - Weak.v - the weak pointers of adb/types.h.
    - Blocking.v, BlockingInv.v - [BlockingConnectionAdapter] of adb/transport.cpp: the two
      threads around a connection that blocks.
    - Strings.v - libbase strings.cpp, parseint.h, parsenetaddress.cpp and the text helpers
      of adb_utils.cpp.
    - SocketSpec.v - adb/socket_spec.cpp: "tcp:host:port" and the other specifications.

    The adb server:
    - Transport.v - adb/transport.h and transport.cpp: transports with features, keys and
      state, the selection of a device, banners, packet headers, the reverse allow-list.
    - Reconnect.v, ReconnectInv.v, ReconnectQueue.v - the rest of transport.cpp that moves
      transports around: registration, loss, the thread of [ReconnectHandler], kicking and
      deletion, over the threads of the looper, the handler and the clients.
    - World.v - the state of the server (sockets, transports, trackers, listeners, the
      registrations with the event loop and the log of effects), the monad that threads
      it, and the interface [OS] for what the kernel answers.
    - Io.v - adb/adb_io.cpp, the shell protocol (shell_service_protocol.cpp) and the reader
      of a shell session (lib/src/AdbSession.cpp).
    - FdConnection.v - [FdConnection] of adb/transport.cpp and the read and write loops of
      adb/tls/tls_connection.cpp: packets over a blocking descriptor.
    - HostService.v - the request parser of adb/sockets.cpp.
    - Sockets.v, SocketInv.v - adb/sockets.cpp and the trackers of transport.cpp: local,
      remote and smart sockets with their function pointers; a heap of sockets in which a
      freed one is undefined to touch.
    - Listeners.v - adb/adb_listeners.cpp: forwards.
    - Adb.v, AdbInv.v - adb/adb.cpp and client/auth.cpp: every packet a device can send, the
      authentication exchange, connection errors and the deletion of a transport.
    - Services.v, ServicesInv.v, Requests.v - the requests of a client: the smart socket of
      adb/sockets.cpp, the host and forward requests of adb/adb.cpp, and the host services
      of adb/services.cpp with the thread that waits for a device.
    - Emulator.v - connecting to an emulator, from client/transport_local.cpp, with the map of
      the ports in use; it discharges the contract that the requests rely on.

    libadb:
    - Libadb.v - the enumerations, results and events of libadb.h, device addresses, and
      the texts that device.cpp builds and parses.
    - EventBus.v, EventBusInv.v - the first half of api/events.cpp: the bus with its queue
      and its dispatcher thread.
    - Client.v, ClientInv.v - api/client.cpp, AdbManager.cpp and Device::Impl::close:
      connection slots and the registry of connections.
    - Workers.v - [runOnDevices] of AdbManager.cpp: one task for each of many devices.
    - Device.v, DeviceInv.v - api/device.cpp: the connection listener, deadlines, the
      watchdog of an installation, and install with its retries.
    - Operations.v, OperationsInv.v - the second half of events.cpp, operation.cpp and
      start_async: progress, cancellation, and the asynchronous pool.
    - Installer.v, InstallerInv.v - lib/src/adb_install.cpp and AdbInstaller.cpp: the
      sessions of the package manager for split and for several packages, the choice of
      the way to install, uninstalling, and the unpacking of bundles.

    File transfer (adb/lib/src/file_sync_client.cpp and what it calls):
    - Paths.v - [Basename] and [Dirname] of libbase's file.cpp and [mkdirs] of adb_utils.cpp
      over a file system that is an argument.
    - SyncWire.v - adb/file_sync_protocol.h: the packed structures of the sync protocol,
      written and read as bytes.
    - Codec.v, CodecInv.v - adb/compression_utils.h: the encoders and decoders of file data,
      with the compression libraries as arguments; the classes [EncoderLaws] and
      [DecoderLaws] are what the sync client relies on, and the null codec and the LZ4
      encoder discharge them.
    - Sync.v - the whole of file_sync_client.cpp: connection, stat, list, send with its
      deferred acknowledgements, receive, and push and pull of files and directories, over
      a monad [SM] with the connection's state, the local file system and the answers of
      the device; [SyncEnv] is what the kernel and the device answer.
    - SyncInv.v (what a pull touches), SyncFiles.v (files sent and received), SyncAcks.v
      (the deferred acknowledgements), SyncErrors.v (the error paths), SyncDemo.v (concrete
      environments and runs).

    Incremental installation (adb/client/incremental*.cpp, which libadb links):
    - IncrementalUtils.v, IncrementalSig.v - incremental_utils.cpp: the hash trees, the
      headers of signatures, and the blocks of a package that come first.
    - Incremental.v - the whole of incremental_server.cpp over a monad [SV]; [reads] numbers
      the answers of [pread], and LZ4 is the class [LZ4] with its laws [LZ4Laws].
    - IncrementalClient.v - incremental.cpp: signatures, the command for the device, and the result.
    - IncrementalInv.v (what is written, and one block), IncrementalServe.v (the invariant
      of all turns), IncrementalEnd.v (the theorems), IncrementalDemo.v (opening the files, and runs).

    A file X.v holds the definitions of a component and, when they are short, its theorems;
    the longer proofs are in XInv.v.

    ** How the code is modelled

    Integers are [Z], with [u32], [u64] and [s32] where the code can wrap; bytes are
    [Byte.byte] and strings are lists of them.  A function that can abort, run into undefined
    behaviour or end the process returns in [res]; stateful code of the server is in the
    monad [M] of World.v, with the heap of sockets and transports explicit, so that a use
    after free is the outcome [Undef] and not a value.  Multithreaded code is a step
    function on a map from threads to program points; a step is one critical section, a
    condition variable is a program point at which the thread sleeps (or, in the pool, a
    step that is not enabled, so that notifications are not represented there), and the invariants hold of every state that an
    interleaving can reach.  What is not part of the sources (the kernel, RSA, protobuf, the package
    manager on the device) is an argument or a class such as [OS], [Auth] and [Protobuf],
    with laws where a theorem relies on them and instances that satisfy the laws.

    ** What the theorems show

    - Memory safety and invariants of the server: packets of a device, events on a socket,
      closing, and the two tasks after a failed connection keep the heap of sockets consistent
      ([handle_packet_safe], [local_socket_event_safe], [socket_close_safe],
      [HandleError_detaches]), and so do the requests of a client ([smart_socket_safe]);
      [close_all_sockets] ends and leaves nothing behind.  Each of these theorems names the
      inputs it excludes, and these are exactly where a theorem of the development shows the
      code to fail: an A_OPEN without a NUL, a readable event on a closing socket, a transport
      that is offline already, a serial of nothing but a vsock prefix, a port below the least
      integer.
    - The event loop: whatever its clients do it does not crash by itself ([loop_safe]), a turn
      hands out exactly the events it should ([collect_events_exact], [poll_duration_exact]), no
      wake-up is lost and queued functions run soon and in order ([no_lost_interrupt],
      [queued_function_runs], [run_in_order]); weak pointers never dangle
      ([weak_ptr_refines]) and sockets handed over for closing are closed
      ([deferred_close_closes]).
    - Connections and transports: a blocking connection stops in a bounded number of steps,
      writes in order, reports one error and is destroyed safely ([stop_completes],
      [stopped_is_final], [destruction_safe]); every transport has exactly one owner, so that the
      server's threads use none after it was deleted and delete none twice ([transports_have_one_owner]), and the reconnect handler
      wakes in time and gives up on devices that stay away ([reconnect_in_time],
      [unreachable_transports_removed]).
    - No data is lost, duplicated or reordered: [IOVector] against the byte string it stands
      for, packet framing under short reads and writes ([packet_roundtrip],
      [fd_read_exact], [fd_packets_roundtrip]), socket queues, protocol strings and
      shell sessions.
    - Requests: how a request is cut into pieces does not matter ([request_in_pieces]), and a
      client that waits is answered at the first turn that decides
      ([wait_service_answers]).
    - Contracts of text formats: host requests, socket specifications, banners, device
      addresses, quoting, integers with their bounds.
    - Refinement: the reverse allow-list implements a finite map, weak pointers a map that
      forgets deleted objects.
    - libadb under all interleavings: each dispatcher calls exactly the handlers it should, in
      order, and lost events are counted ([event_bus_fifo]), no wake-up is lost, slots are accounted for, one connection per address, a cancellation is seen,
      the pool finishes what it was given, a task for many devices is run once for each
      ([every_device_once]).
    - Installing: a session of the package manager is committed when all its files were
      acknowledged and abandoned otherwise, for one package and for many, and success means an
      acknowledged commit ([streamed_session], [multi_package_sessions]); the directories of unpacked bundles are removed after
      the installation ([bundles_removed]).
    - File transfer: what is sent arrives ([large_file_roundtrip], [small_file_roundtrip],
      [legacy_file_roundtrip], [lz4_file_sent]), a receive that fails leaves no file behind
      unless the removal fails too, a pull that returns has touched the destination only, the
      state machine that reads acknowledgements in arbitrary pieces equals a parser of the whole
      stream and keeps its buffer bounded.
    - Incremental installation: every file arrives whole and once before the end is announced
      if no write fails ([files_arrive]; a failed write is modelled, the server ignores it:
      [failed_write_announced]), hashes come before data ([hashes_precede_data]), everything asked for is
      sent in a bounded number of turns while the device is silent ([everything_is_sent]), the server is memory safe but
      for one request ([serving_safe], [serve_outcome]), requests are found in any pieces
      ([requests_in_pieces]), the client and the server agree about the files
      ([client_server_agree]), and the formats are read as they are written
      ([signature_headers], [priority_blocks_exact], [installation_result]).
    - Behaviours that the code does not intend, each with a run that shows it: see
      [auth_error_use_after_free], [packets_from_another_device], [stop_start_race],
      [throwing_error_handler_never_stops], [early_stop_never_returns], [stale_event_delivered],
      [lost_transport_blocks_address], [handler_stop_never_returns], [kick_during_reconnect_lost],
      [waiting_client_uses_freed_transport], [handshake_after_stop_aborts],
      [dropped_operation_never_finishes],
      [nested_operation_not_canceled], [install_stall_never_detected],
      [oversized_request_aborts], [bad_transport_id_never_answered], [forward_error_lost],
      [bundle_retry_ends_process], [bundle_name_runs_command], [file_name_runs_command],
      [failed_bundle_leaves_directories], [callers_directory_removed], [short_copy_unnoticed],
      [eocd_scan_never_ends], [unknown_file_prefetched], [signed_single_block],
      [failed_hash_forgotten], [text_passed_on_again], [zeros_at_the_end], [empty_field_dropped],
      [failed_write_announced], [file_number_wraps], [emulator_port_overflows],
      [emulator_port_lost], [failure_read_as_success], [directory_push_undefined], [truncated_stream_never_ends], [second_done_aborts] and
      others.

    ** Fuel

    Loops are structural recursion on the data they walk wherever that is possible.  The
    loops with fuel take it from the size of the state they work on (the number of
    sockets for [close_all_sockets], the length of the text for scanners, the unread bytes
    for the reader of a session, the queue of prefetches for [RunPrefetching]; the event loop is a step function and has none), and the theorems state
    that the result is [Ok], so that the fuel is enough.  The loops of the sync client end
    when the device or the kernel says so: their theorems give a bound and hold for every
    larger fuel, and non-termination is that no fuel is enough.  The search for the end record of an archive ends
    after 2^15 steps when there is one ([priority_blocks_exact]) and never otherwise; a turn of
    the incremental server that waits for the device has not finished.  [NoFuel] is an outcome of its
    own and never a result.

    ** Not modelled

    The command line tool (client/commandline.cpp and the files it drives, among them its
    own copy of the sync client and of the installer), fast deploy, the start of shell sessions, TLS, start-up and
    logging; the threads that look for emulators and retry their ports, and the threads that connect to and pair with
    devices, of which only the start is an event.  Where the theorems about packets and
    events mention a smart socket, they hold for any function in its place.  Of libadb, initialize, shutdown, the *_all wrappers and the wrappers of push,
    pull and shell around the sync client are missing.  The sync client's progress line
    (LinePrinter) is a log entry.  The vendored Android libraries are third-party code; only what
    the core uses of libbase is modelled.  Relaxed memory order is not modelled: an
    atomic access is a step.

    ** What could come next

    Sessions with push, pull and shell in libadb, which tie the sync client and the shell reader to
    the event loop; the threads that look for emulators; the command line client. *)

From stdpp Require Export base numbers list strings gmap.
From Stdlib Require Export ZArith Lia Strings.Byte.

#[global] Open Scope Z_scope.

(** ** Outcomes

    A C++ function either returns, or aborts the process ([CHECK] and
    [LOG(FATAL)]), or runs into undefined behaviour (an out-of-range access, a
    read through a null or dangling pointer), or ends the process with [exit(0)],
    or, in a fuelled loop of the model, has not finished yet.  The last four are
    kept apart, and every functional theorem states that the result is [Ok]. *)
Inductive res (A : Type) : Type :=
  | Ok (a : A)
  | Fatal
  | Undef
  | Exit
  | NoFuel.
Arguments Ok {A} a.
Arguments Fatal {A}.
Arguments Undef {A}.
Arguments Exit {A}.
Arguments NoFuel {A}.

#[global] Instance res_ret : MRet res := @Ok.
#[global] Instance res_bind : MBind res := λ A B f m,
  match m with
  | Ok a => f a
  | Fatal => Fatal
  | Undef => Undef
  | Exit => Exit
  | NoFuel => NoFuel
  end.

(** [CHECK(b)]: aborts the process when [b] does not hold. *)
Definition check (b : bool) : res unit := if b then Ok () else Fatal.

(** A dereference or an unchecked index: undefined when there is no object. *)
Definition deref {A} (o : option A) : res A :=
  match o with Some a => Ok a | None => Undef end.

Lemma bind_Ok_inv {A B} (m : res A) (f : A → res B) b :
  m ≫= f = Ok b → ∃ a, m = Ok a ∧ f a = Ok b.
Proof. destruct m; naive_solver. Qed.

Lemma check_true b : b = true → check b = Ok ().
Proof. by intros ->. Qed.

Lemma check_Ok_inv b u : check b = Ok u → b = true.
Proof. by destruct b. Qed.

(** ** Machine integers *)

Definition u8 (z : Z) : Z := z mod 2 ^ 8.
Definition u32 (z : Z) : Z := z mod 2 ^ 32.
Definition u64 (z : Z) : Z := z mod 2 ^ 64.

(** Two's complement reading of a 32-bit pattern. *)
Definition s32 (z : Z) : Z :=
  let w := u32 z in if w <? 2 ^ 31 then w else w - 2 ^ 32.

Lemma u64_small z : 0 ≤ z < 2 ^ 64 → u64 z = z.
Proof. apply Z.mod_small. Qed.
Lemma u32_small z : 0 ≤ z < 2 ^ 32 → u32 z = z.
Proof. apply Z.mod_small. Qed.
Lemma u64_range z : 0 ≤ u64 z < 2 ^ 64.
Proof. by apply Z.mod_pos_bound. Qed.
Lemma u32_range z : 0 ≤ u32 z < 2 ^ 32.
Proof. by apply Z.mod_pos_bound. Qed.

(** ** Bytes and text *)

Abbreviation bytes := (list byte).

#[global] Instance byte_eq_dec : EqDecision byte := Byte.byte_eq_dec.
#[global] Instance byte_countable : Countable byte := inj_countable Byte.to_N Byte.of_N Byte.of_to_N.

(** The unsigned value of a byte, and the byte of a (wrapped) number. *)
Definition bval (b : byte) : Z := Z.of_N (Byte.to_N b).
Definition zbyte (z : Z) : byte :=
  match Byte.of_N (Z.to_N (u8 z)) with Some b => b | None => x00 end.

(** A text literal of the source as its bytes. *)
Definition txt (s : String.string) : bytes := String.list_byte_of_string s.

Lemma bval_range b : 0 ≤ bval b < 2 ^ 8.
Proof. unfold bval. pose proof (Byte.to_N_bounded b). lia. Qed.

Lemma zbyte_bval b : zbyte (bval b) = b.
Proof. by destruct b. Qed.

Lemma bval_zbyte z : bval (zbyte z) = u8 z.
Proof.
  assert (0 ≤ u8 z < 256) as Hr by (unfold u8; apply Z.mod_pos_bound; lia).
  unfold zbyte, bval. destruct (Byte.of_N _) as [b|] eqn:E.
  - apply Byte.to_of_N in E. rewrite E. lia.
  - apply Byte.of_N_None_iff in E. lia.
Qed.

(** ** Lists indexed by machine integers *)

Definition llen {A} (l : list A) : Z := Z.of_nat (length l).
Definition ltake {A} (n : Z) (l : list A) : list A := take (Z.to_nat n) l.
Definition ldrop {A} (n : Z) (l : list A) : list A := drop (Z.to_nat n) l.

(** [l[i]], with no object for an index outside the list. *)
Definition lget {A} (l : list A) (i : Z) : option A :=
  if bool_decide (0 ≤ i) then l !! Z.to_nat i else None.
Definition lset {A} (i : Z) (x : A) (l : list A) : list A := <[Z.to_nat i := x]> l.

(** [memcpy(dst + off, src, |src|)] inside the buffer [dst]; the write is
    undefined when it leaves the buffer. *)
Definition blit {A} (dst : list A) (off : Z) (src : list A) : res (list A) :=
  if bool_decide (0 ≤ off ∧ off + llen src ≤ llen dst)
  then Ok (ltake off dst ++ src ++ ldrop (off + llen src) dst)
  else Undef.

#[global] Arguments llen : simpl never.
#[global] Arguments ltake : simpl never.
#[global] Arguments ldrop : simpl never.
#[global] Arguments lget : simpl never.
#[global] Arguments lset : simpl never.
#[global] Arguments blit : simpl never.
#[global] Arguments u8 : simpl never.
#[global] Arguments u32 : simpl never.
#[global] Arguments u64 : simpl never.
#[global] Arguments s32 : simpl never.

Section lists.
Context {A : Type}.
Implicit Types l k : list A.

Lemma llen_nonneg l : 0 ≤ llen l.
Proof. unfold llen. lia. Qed.
Lemma llen_nil : llen (@nil A) = 0.
Proof. done. Qed.
Lemma llen_cons x l : llen (x :: l) = 1 + llen l.
Proof. unfold llen. simpl length. lia. Qed.
Lemma llen_app l k : llen (l ++ k) = llen l + llen k.
Proof. unfold llen. rewrite length_app. lia. Qed.
Lemma llen_0 l : llen l = 0 → l = [].
Proof. unfold llen. destruct l; simpl; [done|lia]. Qed.
Lemma llen_ltake n l : 0 ≤ n ≤ llen l → llen (ltake n l) = n.
Proof. unfold llen, ltake. intros. rewrite length_take. lia. Qed.
Lemma llen_ldrop n l : 0 ≤ n ≤ llen l → llen (ldrop n l) = llen l - n.
Proof. unfold llen, ldrop. intros. rewrite length_drop. lia. Qed.
Lemma llen_ldrop_ge n l : llen l ≤ n → ldrop n l = [].
Proof. unfold llen, ldrop. intros. apply drop_ge. lia. Qed.
Lemma ltake_ge n l : llen l ≤ n → ltake n l = l.
Proof. unfold llen, ltake. intros. apply take_ge. lia. Qed.
Lemma ltake_0 l : ltake 0 l = [].
Proof. done. Qed.
Lemma ldrop_0 l : ldrop 0 l = l.
Proof. done. Qed.
Lemma ltake_ldrop n l : ltake n l ++ ldrop n l = l.
Proof. apply take_drop. Qed.
Lemma ltake_app_le n l k : n ≤ llen l → ltake n (l ++ k) = ltake n l.
Proof. unfold llen, ltake. intros. apply take_app_le. lia. Qed.
Lemma ltake_app_ge n l k :
  llen l ≤ n → ltake n (l ++ k) = l ++ ltake (n - llen l) k.
Proof.
  unfold llen, ltake. intros. rewrite take_app_ge by lia. do 2 f_equal. lia.
Qed.
Lemma ldrop_app_le n l k : n ≤ llen l → ldrop n (l ++ k) = ldrop n l ++ k.
Proof. unfold llen, ldrop. intros. apply drop_app_le. lia. Qed.
Lemma ldrop_app_ge n l k : llen l ≤ n → ldrop n (l ++ k) = ldrop (n - llen l) k.
Proof.
  unfold llen, ldrop. intros. rewrite drop_app_ge by lia. f_equal. lia.
Qed.
Lemma ldrop_ldrop n m l : 0 ≤ n → 0 ≤ m → ldrop n (ldrop m l) = ldrop (m + n) l.
Proof. unfold ldrop. intros. rewrite drop_drop. f_equal. lia. Qed.
Lemma ltake_ltake n m l : 0 ≤ n ≤ m → ltake n (ltake m l) = ltake n l.
Proof. unfold ltake. intros. rewrite take_take. f_equal. lia. Qed.
Lemma ldrop_ltake n m l :
  0 ≤ n ≤ m → ldrop n (ltake m l) = ltake (m - n) (ldrop n l).
Proof.
  unfold ldrop, ltake. intros. rewrite skipn_firstn_comm. f_equal. lia.
Qed.

Lemma lget_Some_range l i x : lget l i = Some x → 0 ≤ i < llen l.
Proof.
  unfold lget, llen. case_bool_decide; [|done].
  intros ?%lookup_lt_Some. lia.
Qed.
Lemma lget_is_Some l i : 0 ≤ i < llen l → ∃ x, lget l i = Some x.
Proof.
  unfold lget, llen. intros. rewrite bool_decide_eq_true_2 by lia.
  apply lookup_lt_is_Some_2. lia.
Qed.
Lemma ldrop_lget l i x : lget l i = Some x → ldrop i l = x :: ldrop (i + 1) l.
Proof.
  unfold lget, ldrop. case_bool_decide; [|done]. intros Hx.
  rewrite (drop_S _ _ _ Hx). do 2 f_equal. lia.
Qed.
Lemma lget_ldrop l i x k : 0 ≤ i → ldrop i l = x :: k → lget l i = Some x.
Proof.
  unfold lget, ldrop. intros Hi E. rewrite bool_decide_eq_true_2 by lia.
  rewrite <- (Nat.add_0_r (Z.to_nat i)), <- lookup_drop, E. done.
Qed.

Lemma ldrop_lset_gt i j x l : 0 ≤ i < j → ldrop j (lset i x l) = ldrop j l.
Proof. unfold ldrop, lset. intros. apply drop_insert_lt. lia. Qed.
Lemma ldrop_lset_eq i x y l :
  lget l i = Some y → ldrop i (lset i x l) = x :: ldrop (i + 1) l.
Proof.
  intros Hy. pose proof (lget_Some_range _ _ _ Hy) as Hr. unfold llen in Hr.
  unfold ldrop, lset. rewrite drop_insert_ge by lia.
  rewrite Nat.sub_diag. unfold lget in Hy. rewrite bool_decide_eq_true_2 in Hy by lia.
  rewrite (drop_S _ _ _ Hy). simpl. do 2 f_equal. lia.
Qed.
Lemma llen_lset i x l : llen (lset i x l) = llen l.
Proof. unfold llen, lset. by rewrite length_insert. Qed.

Lemma blit_Ok l off k :
  0 ≤ off → off + llen k ≤ llen l →
  blit l off k = Ok (ltake off l ++ k ++ ldrop (off + llen k) l).
Proof. intros. unfold blit. by rewrite bool_decide_eq_true_2. Qed.
Lemma llen_blit l off k l' : blit l off k = Ok l' → llen l' = llen l.
Proof.
  unfold blit. case_bool_decide as Hb; [|done]. intros [= <-].
  pose proof (llen_nonneg k).
  rewrite !llen_app, llen_ltake, llen_ldrop by lia. lia.
Qed.
End lists.

(** ** Filters that agree on a list *)

Lemma filter_ext_in {A} (P Q : A → Prop) `{∀ x, Decision (P x)} `{∀ x, Decision (Q x)} (l : list A) :
  (∀ x, x ∈ l → P x ↔ Q x) → filter P l = filter Q l.
Proof.
  induction l as [|x l IH]; intros Hl; [done|]. rewrite !filter_cons, IH by set_solver.
  specialize (Hl x ltac:(set_solver)). repeat case_decide; naive_solver.
Qed.

Lemma filter_true_in {A} (P : A → Prop) `{∀ x, Decision (P x)} (l : list A) :
  (∀ x, x ∈ l → P x) → filter P l = l.
Proof.
  induction l as [|x l IH]; intros Hl; [done|]. rewrite filter_cons_True by (apply Hl; set_solver).
  f_equal. apply IH. set_solver.
Qed.

Lemma filter_sublist_mono {A} (P : A → Prop) `{∀ x, Decision (P x)} (l k : list A) :
  sublist l k → sublist (filter P l) (filter P k).
Proof.
  induction 1 as [|x l k Hs IH|x l k Hs IH]; [done|..]; rewrite !filter_cons; case_decide; by try constructor.
Qed.

(** ** Counting the entries of a map

    [mcount P m] is how many entries of [m] satisfy [P]: threads at a kind of program
    point, objects that own a resource. *)

Definition mcount {A} (P : A → bool) (m : gmap nat A) : Z :=
  Z.of_nat (size (filter (λ kv, P kv.2 = true) m)).

Lemma mcount_nonneg {A} (P : A → bool) m : 0 ≤ mcount P m.
Proof. unfold mcount. lia. Qed.

Lemma mcount_empty {A} (P : A → bool) : mcount P ∅ = 0.
Proof. unfold mcount. by rewrite map_filter_empty, map_size_empty. Qed.

Lemma mcount_fresh {A} (P : A → bool) m t p :
  m !! t = None → mcount P (<[t := p]> m) = mcount P m + Z.b2z (P p).
Proof.
  intros Hm. unfold mcount. destruct (P p) eqn:E; cbn [Z.b2z].
  - rewrite map_filter_insert_True, map_size_insert_None by (done || by rewrite map_lookup_filter_None; left). lia.
  - rewrite map_filter_insert_False, delete_id by (done || cbn; congruence). lia.
Qed.

Lemma mcount_insert {A} (P : A → bool) m t p p' :
  m !! t = Some p → mcount P (<[t := p']> m) = mcount P m - Z.b2z (P p) + Z.b2z (P p').
Proof.
  intros Hm. rewrite <- (insert_id m t p Hm) at 2. rewrite <- (insert_delete_eq m t p), <- (insert_delete_eq m t p').
  rewrite !mcount_fresh by apply lookup_delete_eq. lia.
Qed.

Lemma mcount_pos {A} (P : A → bool) m t p : m !! t = Some p → P p = true → 0 < mcount P m.
Proof.
  intros Hm HP.
  unfold mcount. assert (filter (λ kv, P kv.2 = true) m !! t = Some p) as Hf by (by apply map_lookup_filter_Some).
  destruct (size (filter (λ kv, P kv.2 = true) m)) eqn:Es; [|lia].
  apply map_size_empty_inv in Es. rewrite Es in Hf. by rewrite lookup_empty in Hf.
Qed.

Lemma mcount_none {A} (P : A → bool) m : map_Forall (λ _ x, P x = false) m → mcount P m = 0.
Proof.
  induction m as [|t x m Hm IH] using map_ind; intros Hall; [apply mcount_empty|].
  apply map_Forall_insert in Hall as [Hx Hall]; [|done]. by rewrite mcount_fresh, Hx, IH.
Qed.

Lemma mcount_fmap {A B} (P : B → bool) (Q : A → bool) (f : A → B) (m : gmap nat A) :
  (∀ x, P (f x) = Q x) → mcount P (f <$> m) = mcount Q m.
Proof.
  intros Hf. induction m as [|t x m Hm IH] using map_ind; [by rewrite fmap_empty, !mcount_empty|].
  rewrite fmap_insert, !mcount_fresh, IH, Hf by (done || by rewrite lookup_fmap, Hm). done.
Qed.

(** ** Sums over the entries of a map *)

Definition msum {A} (f : A → Z) (m : gmap nat A) : Z := map_fold (λ _ x acc, f x + acc) 0 m.

Lemma msum_fresh {A} (f : A → Z) m t x : m !! t = None → msum f (<[t := x]> m) = f x + msum f m.
Proof. intros Hm. unfold msum. rewrite map_fold_insert_L; [done| |done]. intros; lia. Qed.

Lemma msum_insert {A} (f : A → Z) m t x y :
  m !! t = Some x → msum f (<[t := y]> m) = msum f m - f x + f y.
Proof.
  intros Hm. rewrite <- (insert_id m t x Hm) at 2. rewrite <- (insert_delete_eq m t x), <- (insert_delete_eq m t y).
  rewrite !msum_fresh by apply lookup_delete_eq. lia.
Qed.

Lemma msum_fmap_le {A} (f : A → Z) (g : A → A) (m : gmap nat A) :
  (∀ x, f (g x) ≤ f x) → msum f (g <$> m) ≤ msum f m.
Proof.
  intros Hg. induction m as [|t x m Hm IH] using map_ind; [by rewrite fmap_empty|].
  rewrite fmap_insert, !msum_fresh by (done || by rewrite lookup_fmap, Hm). specialize (Hg x). lia.
Qed.

Lemma msum_nonneg {A} (f : A → Z) (m : gmap nat A) : (∀ x, 0 ≤ f x) → 0 ≤ msum f m.
Proof.
  intros Hf. induction m as [|t x m Hm IH] using map_ind; [done|]. rewrite msum_fresh by done. specialize (Hf x). lia.
Qed.

(** ** Little-endian 32-bit fields *)

Definition le32 (z : Z) : bytes :=
  [zbyte z; zbyte (Z.shiftr z 8); zbyte (Z.shiftr z 16); zbyte (Z.shiftr z 24)].

(** [memcpy(&v, p, 4)] on a little-endian machine. *)
Definition of_le32 (l : bytes) : option Z :=
  match l with
  | b0 :: b1 :: b2 :: b3 :: _ =>
      Some (bval b0 + 2 ^ 8 * bval b1 + 2 ^ 16 * bval b2 + 2 ^ 24 * bval b3)
  | _ => None
  end.

Lemma of_le32_le32 z k : 0 ≤ z < 2 ^ 32 → of_le32 (le32 z ++ k) = Some z.
Proof.
  intros Hz. unfold le32, of_le32. cbn [app]. f_equal.
  rewrite !bval_zbyte. unfold u8. rewrite !Z.shiftr_div_pow2 by lia.
  change (2 ^ 8) with 256. change (2 ^ 16) with 65536. change (2 ^ 24) with 16777216.
  change (2 ^ 32) with 4294967296 in Hz. Z.div_mod_to_equations. lia.
Qed.

Lemma le32_of_le32 b0 b1 b2 b3 :
  le32 (bval b0 + 2 ^ 8 * bval b1 + 2 ^ 16 * bval b2 + 2 ^ 24 * bval b3) = [b0; b1; b2; b3].
Proof.
  assert (∀ z b, u8 z = bval b → zbyte z = b) as Hz.
  { intros z b Hz. rewrite <- (zbyte_bval b), <- Hz, <- bval_zbyte. by rewrite zbyte_bval. }
  pose proof (bval_range b0). pose proof (bval_range b1).
  pose proof (bval_range b2). pose proof (bval_range b3).
  unfold le32. repeat f_equal; apply Hz; unfold u8; rewrite ?Z.shiftr_div_pow2 by lia;
    change (2 ^ 8) with 256 in *; change (2 ^ 16) with 65536; change (2 ^ 24) with 16777216;
    Z.div_mod_to_equations; lia.
Qed.

Lemma llen_le32 z : llen (le32 z) = 4.
Proof. done. Qed.

Lemma of_le32_range l z : of_le32 l = Some z → 0 ≤ z < 2 ^ 32.
Proof.
  destruct l as [|b0 [|b1 [|b2 [|b3 ?]]]]; try done. cbn [of_le32]. intros [= <-].
  pose proof (bval_range b0). pose proof (bval_range b1).
  pose proof (bval_range b2). pose proof (bval_range b3). lia.
Qed.

(** ** Events of a descriptor (adb/fdevent/fdevent.h)

    The sockets ask for them and the event loop delivers them. *)

Definition FDE_READ : Z := 1.
Definition FDE_WRITE : Z := 2.
Definition FDE_ERROR : Z := 4.
Definition FDE_TIMEOUT : Z := 8.

(** ** Automation *)

Create HintDb adb.
#[export] Hint Resolve llen_nonneg bval_range u32_range u64_range : adb.
Create Rewrite HintDb adb.
#[export] Hint Rewrite @llen_app @llen_cons @llen_nil @llen_lset : adb.

(** Length facts of every list named in the goal, for [lia]. *)
Ltac lens :=
  repeat match goal with
  | |- context [llen ?l] =>
      lazymatch goal with
      | _ : 0 ≤ llen l |- _ => fail
      | _ => pose proof (llen_nonneg l)
      end
  | _ : context [llen ?l] |- _ =>
      lazymatch goal with
      | _ : 0 ≤ llen l |- _ => fail
      | _ => pose proof (llen_nonneg l)
      end
  end.
Ltac len_lia := autorewrite with adb in *; lens; lia.

(** Runs the binds whose first computation has returned. *)
Ltac rok :=
  repeat (match goal with
          | |- context [@mbind res res_bind ?A ?B ?f (Ok ?a)] =>
              change (@mbind res res_bind A B f (Ok a)) with (f a)
          end; cbv beta iota).

(** Inverts a chain of monadic binds that is known to return. *)
Ltac inv_res :=
  repeat match goal with
  | H : (_ ≫= _) = Ok _ |- _ =>
      let a := fresh "a" in let E := fresh "E" in
      apply bind_Ok_inv in H as (a & E & H); try simpl in H
  | H : check _ = Ok _ |- _ => apply check_Ok_inv in H
  | H : Ok _ = Ok _ |- _ => injection H as H; try subst
  | H : mret _ = Ok _ |- _ => injection H as H; try subst
  end.
