(* ===== verification/Types.v ===== *)
(** * Byte blocks and block chains

    Models adb/types.h and adb/types.cpp: [Block], the uninitialised heap buffer
    that carries packet payloads, and [IOVector], the chain of blocks that queues
    the bytes a socket or a transport has not consumed yet.

    [Block] keeps the three fields of the source; the buffer is the list of its
    [capacity_] bytes and [size_] says how many of them are in use.  [IOVector]
    keeps [chain_length_], [begin_offset_], [start_index_] and [chain_], with
    [size_t] arithmetic wrapped to 64 bits.  [std::move] of a block or a chain
    returns the moved value together with what is left behind.

    The abstract value of a chain is the byte string [view]; the theorems say
    that every operation is the corresponding operation on byte strings. *)

From S2P Require Import Prelude.

(** What [new char[n]] holds before it is written: some [n] bytes. *)
Class Uninit := {
  uninit : Z → bytes;
  llen_uninit : ∀ n, 0 ≤ n → llen (uninit n) = n
}.

(** One possible allocator, for evaluation. *)
Definition zero_heap : Uninit.
Proof.
  refine {| uninit n := replicate (Z.to_nat n) x00 |}.
  intros n Hn. unfold llen. rewrite length_replicate. lia.
Defined.

(** ** Block *)

Record Block := mkBlock {
  data_ : option bytes;
  capacity_ : Z;
  size_ : Z
}.

(** [Block()], also the state a moved-from block is left in. *)
Definition empty_block : Block := mkBlock None 0 0.

(** The bytes in use, [data()[0 .. size())]. *)
Definition contents (b : Block) : bytes :=
  match data_ b with Some d => ltake (size_ b) d | None => [] end.

Definition block_ok (b : Block) : Prop :=
  match data_ b with
  | None => capacity_ b = 0 ∧ size_ b = 0
  | Some d => llen d = capacity_ b ∧ 0 ≤ size_ b ≤ capacity_ b
  end.

Section Block.
Context `{Uninit}.

Definition allocate (b : Block) (size : Z) : res Block :=
  check (bool_decide (data_ b = None)) ;;
  check (0 =? capacity_ b) ;;
  check (0 =? size_ b) ;;
  if size =? 0 then Ok b else Ok (mkBlock (Some (uninit size)) size size).

Definition clear_block (b : Block) : Block := empty_block.

Definition resize (b : Block) (new_size : Z) : res Block :=
  match data_ b with
  | None => allocate b new_size
  | Some d => check (new_size <=? capacity_ b) ;; Ok (mkBlock (Some d) (capacity_ b) new_size)
  end.

(** [memcpy(b.data() + off, src, |src|)]. *)
Definition block_write (b : Block) (off : Z) (src : bytes) : res Block :=
  match data_ b with
  | None => if llen src =? 0 then Ok b else Undef
  | Some d => d' ← blit d off src; Ok (mkBlock (Some d') (capacity_ b) (size_ b))
  end.

(** The [n] bytes at [b.data() + off]. *)
Definition block_read (b : Block) (off n : Z) : res bytes :=
  match data_ b with
  | None => if n =? 0 then Ok [] else Undef
  | Some d =>
      if bool_decide (0 ≤ off ∧ 0 ≤ n ∧ off + n ≤ llen d)
      then Ok (ltake n (ldrop off d)) else Undef
  end.

(** [memmove(b.data(), b.data() + off, n)]. *)
Definition block_memmove (b : Block) (off n : Z) : res Block :=
  src ← block_read b off n; block_write b 0 src.

Definition assign (b : Block) (src : bytes) : res Block :=
  b' ← allocate (clear_block b) (llen src); block_write b' 0 src.

(** [Block(begin, end)]. *)
Definition block_of_range (src : bytes) : res Block :=
  b ← allocate empty_block (llen src); block_write b 0 src.

Definition block_eqb (a b : Block) : bool :=
  (size_ a =? size_ b) && bool_decide (contents a = contents b).
End Block.

(** ** IOVector *)

Record IOVector := mkIOV {
  chain_length_ : Z;
  begin_offset_ : Z;
  start_index_ : Z;
  chain_ : list Block
}.

Definition empty_iov : IOVector := mkIOV 0 0 0 [].

Definition size (v : IOVector) : Z := u64 (chain_length_ v - begin_offset_ v).
Definition empty (v : IOVector) : bool := size v =? 0.

(** The front block from [begin_offset_] on: the pointer [front_data] returns,
    as the bytes it may be used to read, and [front_size]. *)
Definition front_data (v : IOVector) : res (option bytes) :=
  match chain_ v with
  | [] => Ok None
  | _ => b ← deref (lget (chain_ v) (start_index_ v));
         Ok (Some (ldrop (begin_offset_ v) (contents b)))
  end.
Definition front_size (v : IOVector) : res Z :=
  match chain_ v with
  | [] => Ok 0
  | _ => b ← deref (lget (chain_ v) (start_index_ v));
         Ok (u64 (size_ b - begin_offset_ v))
  end.

(** Returns the last block, so that its capacity can be reused. *)
Definition clear (v : IOVector) : Block * IOVector :=
  (match last (chain_ v) with Some b => b | None => empty_block end, empty_iov).

(** [operator=(IOVector&& move)]: the new value, and what [move] becomes. *)
Definition move_assign (move : IOVector) : IOVector * IOVector :=
  (mkIOV (chain_length_ move) (begin_offset_ move) (start_index_ move) (chain_ move),
   snd (clear (mkIOV (chain_length_ move) (begin_offset_ move) (start_index_ move) []))).

Definition append (v : IOVector) (block : Block) : res IOVector :=
  if size_ block =? 0 then Ok v else
  check (negb (size_ block =? 0)) ;;
  Ok (mkIOV (u64 (chain_length_ v + size_ block)) (begin_offset_ v) (start_index_ v)
        (chain_ v ++ [block])).

Definition trim_chain_front (v : IOVector) : res IOVector :=
  if start_index_ v =? 0 then Ok v else
  if bool_decide (start_index_ v ≤ llen (chain_ v))
  then Ok (mkIOV (chain_length_ v) (begin_offset_ v) 0 (ldrop (start_index_ v) (chain_ v)))
  else Undef.

Definition pop_front_block (v : IOVector) : res IOVector :=
  b ← deref (lget (chain_ v) (start_index_ v));
  let v' := mkIOV (u64 (chain_length_ v - size_ b)) 0 (start_index_ v + 1)
              (lset (start_index_ v) (clear_block b) (chain_ v)) in
  if Z.max 4 (llen (chain_ v') / 2) <? start_index_ v' then trim_chain_front v' else Ok v'.

(** The loop of [drop_front]; [dropped] is a 32-bit counter ([auto dropped = 0u]). *)
Fixpoint drop_front_loop (fuel : nat) (len dropped : Z) (v : IOVector) : res IOVector :=
  match fuel with
  | O => NoFuel
  | S fuel =>
      if dropped <? len then
        b ← deref (lget (chain_ v) (start_index_ v));
        let next := u64 (size_ b - begin_offset_ v) in
        if u64 (dropped + next) <=? len then
          v' ← pop_front_block v;
          drop_front_loop fuel len (u32 (dropped + next)) v'
        else
          let taken := u64 (len - dropped) in
          Ok (mkIOV (chain_length_ v) (u64 (begin_offset_ v + taken)) (start_index_ v) (chain_ v))
      else Ok v
  end.

Definition drop_front (len : Z) (v : IOVector) : res IOVector :=
  if len =? 0 then Ok v else
  if len =? size v then Ok (snd (clear v)) else
  check (len <? size v) ;;
  drop_front_loop (S (length (chain_ v))) len 0 v.

(** The first loop of [take_front]: whole blocks move from [v] to [r]. *)
Fixpoint take_front_loop (fuel : nat) (len : Z) (v r : IOVector) : res (Z * IOVector * IOVector) :=
  match fuel with
  | O => NoFuel
  | S fuel =>
      b ← deref (lget (chain_ v) (start_index_ v));
      if u64 (size_ b - begin_offset_ v) <=? len then
        let cl := u64 (chain_length_ v - size_ b) in
        let len' := u64 (len - u64 (size_ b - begin_offset_ v)) in
        if begin_offset_ v <? size_ b then
          r1 ← append r b;
          let r2 := if begin_offset_ v =? 0 then r1
                    else mkIOV (chain_length_ r1) (begin_offset_ v) (start_index_ r1) (chain_ r1) in
          take_front_loop fuel len'
            (mkIOV cl 0 (start_index_ v + 1) (lset (start_index_ v) empty_block (chain_ v))) r2
        else
          take_front_loop fuel len' (mkIOV cl 0 (start_index_ v + 1) (chain_ v)) r
      else Ok (len, v, r)
  end.

Section IOVector.
Context `{Uninit}.

(** The block that is split between the result and what stays. *)
Definition take_front_split (len : Z) (v r : IOVector) : res (IOVector * IOVector) :=
  b ← deref (lget (chain_ v) (start_index_ v));
  if negb (begin_offset_ v =? 0) || (len <? size_ b / 2) then
    src ← block_read b (begin_offset_ v) len;
    blk ← block_of_range src;
    r' ← append r blk;
    Ok (r', mkIOV (chain_length_ v) (u64 (begin_offset_ v + len)) (start_index_ v) (chain_ v))
  else
    check (begin_offset_ v =? 0) ;;
    tl ← block_read b len (u64 (size_ b - len));
    blk ← block_of_range tl;
    b' ← resize b len;
    r' ← append r b';
    Ok (r', mkIOV (u64 (u64 (chain_length_ v - size_ b) + size_ blk)) (begin_offset_ v)
              (start_index_ v) (lset (start_index_ v) blk (chain_ v))).

(** Returns the first [len] bytes and the chain without them. *)
Definition take_front (len : Z) (v : IOVector) : res (IOVector * IOVector) :=
  if len =? 0 then Ok (empty_iov, v) else
  if len =? size v then Ok (move_assign v) else
  check (len <=? size v) ;;
  '(len', v', r) ← take_front_loop (S (length (chain_ v))) len v empty_iov;
  if 0 <? len' then take_front_split len' v' r else Ok (r, v').

Definition trim_front (v : IOVector) : res IOVector :=
  if ((begin_offset_ v =? 0) && (start_index_ v =? 0)) || bool_decide (chain_ v = [])
  then Ok v else
  first_block ← deref (lget (chain_ v) (start_index_ v));
  v' ← (if begin_offset_ v =? size_ first_block then
          Ok (mkIOV (chain_length_ v) (begin_offset_ v) (start_index_ v + 1) (chain_ v))
        else
          b1 ← block_memmove first_block (begin_offset_ v)
                 (u64 (size_ first_block - begin_offset_ v));
          b2 ← resize b1 (u64 (size_ first_block - begin_offset_ v));
          Ok (mkIOV (chain_length_ v) (begin_offset_ v) (start_index_ v)
                (lset (start_index_ v) b2 (chain_ v))));
  trim_chain_front
    (mkIOV (u64 (chain_length_ v' - begin_offset_ v')) 0 (start_index_ v') (chain_ v')).

(** The slices [iterate_blocks] hands to its callback, in order. *)
Fixpoint iterate_rest (bs : list Block) : res (list bytes) :=
  match bs with
  | [] => Ok []
  | b :: bs => s ← block_read b 0 (size_ b); ss ← iterate_rest bs; Ok (s :: ss)
  end.
Definition iterate_blocks (v : IOVector) : res (list bytes) :=
  if size v =? 0 then Ok [] else
  match ldrop (start_index_ v) (chain_ v) with
  | [] => Ok []
  | b :: bs =>
      check (begin_offset_ v <=? size_ b) ;;
      s ← block_read b (begin_offset_ v) (size_ b - begin_offset_ v);
      ss ← iterate_rest bs;
      Ok (s :: ss)
  end.

Definition iovecs (v : IOVector) : res (list bytes) := iterate_blocks v.

Fixpoint copy_slices (result : Block) (offset : Z) (ss : list bytes) : res Block :=
  match ss with
  | [] => Ok result
  | s :: ss => r ← block_write result offset s; copy_slices r (u64 (offset + llen s)) ss
  end.

(** [coalesce() const&]. *)
Definition coalesce (v : IOVector) : res Block :=
  if size v =? 0 then Ok empty_block else
  result ← resize empty_block (size v);
  ss ← iterate_blocks v;
  copy_slices result 0 ss.

(** The loop that gathers the remaining blocks behind the first one. *)
Fixpoint gather (r : Block) (sz : Z) (bs : list Block) : res (Block * Z) :=
  match bs with
  | [] => Ok (r, sz)
  | b :: bs =>
      s ← block_read b 0 (size_ b);
      r' ← block_write r sz s;
      gather r' (u64 (sz + size_ b)) bs
  end.

(** [coalesce() &&]. *)
Definition coalesce_move (v : IOVector) : res (Block * IOVector) :=
  if size v =? 0 then Ok (empty_block, v) else
  first ← deref (lget (chain_ v) (start_index_ v));
  bk ← deref (last (chain_ v));
  let popped := removelast (chain_ v) in
  if (begin_offset_ v =? size_ first) && (llen (chain_ v) =? start_index_ v + 2) then
    Ok (bk, mkIOV (u64 (chain_length_ v - size_ bk)) (begin_offset_ v) (start_index_ v) popped)
  else if llen (chain_ v) =? start_index_ v + 1 then
    let cl := u64 (chain_length_ v - size_ bk) in
    if begin_offset_ v =? 0 then Ok (bk, mkIOV cl 0 (start_index_ v) popped) else
    let n := u64 (size_ bk - begin_offset_ v) in
    b1 ← block_memmove bk (begin_offset_ v) n;
    b2 ← resize b1 n;
    Ok (b2, mkIOV cl 0 (start_index_ v) popped)
  else if size v <=? capacity_ first then
    let sz0 := size_ first in
    '(r0, sz) ← (if begin_offset_ v =? 0 then Ok (first, sz0) else
                   b1 ← block_memmove first (begin_offset_ v) (u64 (sz0 - begin_offset_ v));
                   Ok (b1, u64 (sz0 - begin_offset_ v)));
    '(r1, sz') ← gather r0 sz (ldrop (start_index_ v + 1) (chain_ v));
    r2 ← resize r1 sz';
    Ok (r2, mkIOV (u64 (chain_length_ v - sz0)) 0 (start_index_ v + 1)
              (lset (start_index_ v) empty_block (chain_ v)))
  else
    b ← coalesce v; Ok (b, v).

(** [coalesced(f)]: the bytes [f] is called with. *)
Definition coalesced (v : IOVector) : res bytes :=
  if llen (chain_ v) =? start_index_ v + 1 then
    b ← deref (lget (chain_ v) (start_index_ v));
    block_read b (begin_offset_ v) (size v)
  else
    b ← coalesce v; Ok (contents b).
End IOVector.

(** ** Packets *)

Record amessage := mkMsg {
  command : Z;
  arg0 : Z;
  arg1 : Z;
  data_length : Z;
  data_check : Z;
  magic : Z
}.

Record apacket := mkPacket {
  msg : amessage;
  payload : Block
}.

(** ** Lemmas on blocks *)

Lemma llen_contents b : block_ok b → llen (contents b) = size_ b.
Proof.
  unfold block_ok, contents. destruct (data_ b); [|naive_solver].
  intros [? ?]. rewrite llen_ltake; lia.
Qed.

Lemma block_ok_size b : block_ok b → 0 ≤ size_ b.
Proof. intros. rewrite <- llen_contents by done. apply llen_nonneg. Qed.

Lemma block_read_contents b off n :
  block_ok b → 0 ≤ off → 0 ≤ n → off + n ≤ size_ b →
  block_read b off n = Ok (ltake n (ldrop off (contents b))).
Proof.
  unfold block_ok, block_read, contents. intros Hb ???. destruct (data_ b) as [d|].
  - destruct Hb as [? ?]. rewrite bool_decide_eq_true_2 by lia. f_equal.
    rewrite ldrop_ltake by lia. rewrite ltake_ltake by lia. done.
  - assert (n = 0) as -> by lia. done.
Qed.

Lemma block_read_all b :
  block_ok b → block_read b 0 (size_ b) = Ok (contents b).
Proof.
  intros Hb. pose proof (block_ok_size _ Hb). rewrite block_read_contents by (done || lia).
  rewrite ldrop_0, ltake_ge; [done|]. rewrite llen_contents; [lia|done].
Qed.

Lemma block_read_suffix b off :
  block_ok b → 0 ≤ off ≤ size_ b →
  block_read b off (size_ b - off) = Ok (ldrop off (contents b)).
Proof.
  intros Hb ?. rewrite block_read_contents by (done || lia).
  rewrite ltake_ge; [done|]. rewrite llen_ldrop; rewrite llen_contents; (done || lia).
Qed.

Lemma block_write_data b d off src :
  data_ b = Some d → 0 ≤ off → off + llen src ≤ llen d →
  block_write b off src =
    Ok (mkBlock (Some (ltake off d ++ src ++ ldrop (off + llen src) d)) (capacity_ b) (size_ b)).
Proof. intros Hd ??. unfold block_write. rewrite Hd, blit_Ok by lia. done. Qed.

Section block_lemmas.
Context `{Uninit}.

Lemma resize_empty n :
  0 ≤ n → ∃ b, resize empty_block n = Ok b ∧ block_ok b ∧ size_ b = n ∧ capacity_ b = n ∧
               (n ≠ 0 → ∃ d, data_ b = Some d).
Proof.
  intros Hn. unfold resize, allocate; simpl. destruct (Z.eqb_spec n 0) as [->|].
  - by exists empty_block.
  - eexists; split; [done|]. unfold block_ok; simpl. rewrite llen_uninit by lia. naive_solver lia.
Qed.

Lemma block_of_range_spec src :
  ∃ b, block_of_range src = Ok b ∧ block_ok b ∧ contents b = src ∧ size_ b = llen src.
Proof.
  unfold block_of_range, allocate; simpl. destruct (Z.eqb_spec (llen src) 0) as [E|E].
  - apply llen_0 in E as ->. by exists empty_block.
  - pose proof (llen_nonneg src). simpl. unfold block_write; simpl.
    rewrite blit_Ok by (rewrite ?llen_uninit; lia). simpl.
    eexists; split; [done|]. unfold block_ok, contents; simpl.
    rewrite llen_ldrop_ge by (rewrite llen_uninit; lia).
    rewrite app_nil_r, ltake_ge by lia. naive_solver lia.
Qed.

Lemma resize_shrink b n :
  block_ok b → 0 ≤ n ≤ size_ b →
  ∃ b', resize b n = Ok b' ∧ block_ok b' ∧ size_ b' = n ∧ contents b' = ltake n (contents b).
Proof.
  unfold block_ok, resize. intros Hb Hn. destruct b as [[d|] c s]; simpl in *.
  - rewrite (proj2 (Z.leb_le _ _)) by lia. simpl. eexists; split; [done|]. simpl.
    unfold contents; simpl. rewrite ltake_ltake by lia. naive_solver lia.
  - destruct Hb as [-> ->]. assert (n = 0) as -> by lia. by exists empty_block.
Qed.

Lemma block_memmove_spec b off :
  block_ok b → 0 ≤ off ≤ size_ b →
  ∃ b', block_memmove b off (size_ b - off) = Ok b' ∧ block_ok b' ∧ size_ b' = size_ b ∧
    capacity_ b' = capacity_ b ∧ ltake (size_ b - off) (contents b') = ldrop off (contents b).
Proof.
  intros Hb Hoff. unfold block_memmove. rewrite block_read_suffix by done. simpl.
  assert (llen (ldrop off (contents b)) = size_ b - off) as Hl
    by (rewrite llen_ldrop; rewrite llen_contents; (done || lia)).
  destruct (data_ b) as [d|] eqn:Hd.
  - assert (llen d = capacity_ b ∧ 0 ≤ size_ b ≤ capacity_ b) as [? ?]
      by (unfold block_ok in Hb; by rewrite Hd in Hb).
    rewrite (block_write_data _ d) by (done || lia). eexists; split; [done|].
    generalize dependent (ldrop off (contents b)). intros src Hl.
    unfold block_ok, contents. cbn [data_ size_ capacity_]. rewrite ltake_0. cbn [app].
    rewrite llen_app, Hl, llen_ldrop by lia.
    split_and!; [lia|lia|lia|done|done|].
    rewrite ltake_ltake, ltake_app_le by lia. apply ltake_ge. lia.
  - assert (size_ b = 0) as E by (unfold block_ok in Hb; rewrite Hd in Hb; naive_solver).
    unfold block_write. rewrite Hd, Hl. rewrite (proj2 (Z.eqb_eq _ _)) by lia.
    exists b. split_and!; try done. assert (off = 0) as -> by lia.
    unfold contents. rewrite Hd, E. done.
Qed.

Lemma memmove_resize_spec b off :
  block_ok b → 0 ≤ off ≤ size_ b → size_ b < 2 ^ 64 →
  ∃ b1 b2, block_memmove b off (u64 (size_ b - off)) = Ok b1 ∧
    resize b1 (u64 (size_ b - off)) = Ok b2 ∧ block_ok b2 ∧
    size_ b2 = size_ b - off ∧ contents b2 = ldrop off (contents b).
Proof.
  intros Hb Ho Hs. rewrite u64_small by lia.
  destruct (block_memmove_spec b off) as (b1 & -> & ? & Es & _ & Ec); [done..|].
  destruct (resize_shrink b1 (size_ b - off)) as (b2 & E2 & ? & ? & Ec2); [done|lia|].
  exists b1, b2. rewrite E2, Ec2, Ec. naive_solver.
Qed.
End block_lemmas.

(** ** The abstract value of a chain *)

Definition bytes_of (bs : list Block) : bytes := concat (contents <$> bs).

(** The blocks not yet consumed. *)
Definition live (v : IOVector) : list Block := ldrop (start_index_ v) (chain_ v).

(** The bytes the chain stands for. *)
Definition view (v : IOVector) : bytes := ldrop (begin_offset_ v) (bytes_of (live v)).

Definition live_wf (cl bo : Z) (bs : list Block) : Prop :=
  Forall block_ok bs ∧ Forall (λ b, 0 < size_ b) bs ∧
  cl = llen (bytes_of bs) ∧ cl < 2 ^ 64 ∧
  match bs with [] => bo = 0 | b :: _ => 0 ≤ bo < size_ b end.

Definition iov_wf (v : IOVector) : Prop :=
  0 ≤ start_index_ v ≤ llen (chain_ v) ∧ live_wf (chain_length_ v) (begin_offset_ v) (live v).

(** A chain whose front may be accessed: no consumed block hides an empty tail. *)
Definition front_wf (v : IOVector) : Prop := iov_wf v ∧ (live v = [] → chain_ v = []).

Lemma bytes_of_cons b bs : bytes_of (b :: bs) = contents b ++ bytes_of bs.
Proof. done. Qed.

Lemma bytes_of_snoc bs b : bytes_of (bs ++ [b]) = bytes_of bs ++ contents b.
Proof. unfold bytes_of. rewrite fmap_app, concat_app. simpl. by rewrite app_nil_r. Qed.

Lemma bytes_of_nil_inv bs :
  Forall block_ok bs → Forall (λ b, 0 < size_ b) bs → llen (bytes_of bs) = 0 → bs = [].
Proof.
  destruct bs as [|b bs]; [done|]. rewrite !Forall_cons, bytes_of_cons, llen_app.
  intros [Hb _] [? _] E. rewrite llen_contents in E by done. pose proof (llen_nonneg (bytes_of bs)). lia.
Qed.

Lemma iov_wf_empty : iov_wf empty_iov.
Proof. unfold iov_wf, live_wf, live. simpl. naive_solver. Qed.

Lemma live_lget v b bs :
  iov_wf v → live v = b :: bs → lget (chain_ v) (start_index_ v) = Some b.
Proof. intros [? _] E. apply (lget_ldrop _ _ _ bs); [lia|done]. Qed.

Lemma live_chain v b bs : live v = b :: bs → chain_ v ≠ [].
Proof. unfold live, ldrop. intros E E'. rewrite E', drop_nil in E. done. Qed.

Lemma size_view v : iov_wf v → size v = llen (view v).
Proof.
  intros [_ (Hok & Hne & Hcl & Hlt & Hbo)]. unfold size, view.
  destruct (live v) as [|b bs] eqn:E.
  - rewrite Hcl, Hbo. done.
  - rewrite !Forall_cons in *. destruct Hok as [Hb _].
    rewrite bytes_of_cons, llen_app, llen_contents in * by done.
    pose proof (llen_nonneg (bytes_of bs)).
    rewrite u64_small, llen_ldrop by (rewrite ?llen_app, ?llen_contents by done; lia).
    rewrite llen_app, llen_contents by done. lia.
Qed.

Lemma view_cons v b bs :
  iov_wf v → live v = b :: bs →
  view v = ldrop (begin_offset_ v) (contents b) ++ bytes_of bs.
Proof.
  intros [_ (Hok & _ & _ & _ & Hbo)] E. unfold view. rewrite E in *.
  rewrite !Forall_cons in *. rewrite bytes_of_cons, ldrop_app_le; [done|].
  rewrite llen_contents by naive_solver. lia.
Qed.

(** What is known about the front block of a nonempty chain. *)
Lemma front_facts v b bs :
  iov_wf v → live v = b :: bs →
  block_ok b ∧ 0 ≤ begin_offset_ v < size_ b ∧ size_ b < 2 ^ 64 ∧
  chain_length_ v = size_ b + llen (bytes_of bs) ∧ chain_length_ v < 2 ^ 64 ∧
  llen (ldrop (begin_offset_ v) (contents b)) = size_ b - begin_offset_ v ∧
  live_wf (llen (bytes_of bs)) 0 bs ∧ 0 ≤ llen (bytes_of bs).
Proof.
  intros [_ (Hok & Hne & Hcl & Hlt & Hbo)] E. rewrite E in *. rewrite !Forall_cons in *.
  destruct Hok as [Hb Hok], Hne as [Hs Hne].
  rewrite bytes_of_cons, llen_app, llen_contents in Hcl by done.
  pose proof (llen_nonneg (bytes_of bs)).
  rewrite llen_ldrop by (rewrite llen_contents by done; lia). rewrite llen_contents by done.
  split_and!; try done; try lia. unfold live_wf. split_and!; try done; try lia.
  destruct bs; [done|]. rewrite !Forall_cons in *. naive_solver lia.
Qed.

Lemma view_nil_live v : iov_wf v → view v = [] → live v = [].
Proof.
  intros Hv E. destruct (live v) as [|b bs] eqn:El; [done|].
  destruct (front_facts v b bs Hv El) as (_ & ? & _ & _ & _ & Hl & _ & ?).
  rewrite (view_cons v b bs Hv El) in E. apply (f_equal llen) in E.
  rewrite llen_app, Hl, llen_nil in E. lia.
Qed.

Lemma live_nil_view v : live v = [] → view v = [].
Proof. unfold view. intros ->. unfold ldrop. apply drop_nil. Qed.

Lemma append_wf v b :
  iov_wf v → block_ok b → chain_length_ v + size_ b < 2 ^ 64 →
  ∃ v', append v b = Ok v' ∧ iov_wf v' ∧ view v' = view v ++ contents b ∧
        chain_length_ v' = chain_length_ v + size_ b ∧
        start_index_ v' = start_index_ v ∧ begin_offset_ v' = begin_offset_ v ∧
        (0 < size_ b → live v' = live v ++ [b]) ∧ (front_wf v → front_wf v').
Proof.
  intros Hv Hb Hlt. pose proof (block_ok_size _ Hb). unfold append.
  destruct (Z.eqb_spec (size_ b) 0) as [E|E].
  { exists v. assert (contents b = []) as -> by (apply llen_0; by rewrite llen_contents).
    rewrite app_nil_r. naive_solver lia. }
  cbn. destruct Hv as [Hst (Hok & Hne & Hcl & Hl & Hbo)].
  assert (0 ≤ chain_length_ v) by (rewrite Hcl; apply llen_nonneg).
  rewrite u64_small by lia. eexists; split; [done|].
  set (v' := mkIOV _ _ _ _).
  assert (live v' = live v ++ [b]) as HL
    by (unfold live; cbn; rewrite ldrop_app_le; [done|lia]).
  assert (begin_offset_ v ≤ llen (bytes_of (live v))) as Hbl.
  { destruct (live v) as [|b0 bs]; [rewrite Hbo; done|]. rewrite Forall_cons in Hok.
    rewrite bytes_of_cons, llen_app, llen_contents by naive_solver. lens. lia. }
  assert (iov_wf v') as HW.
  { unfold iov_wf, live_wf. rewrite HL. cbn. rewrite llen_app.
    rewrite !Forall_app, !Forall_singleton, bytes_of_snoc, llen_app, llen_contents by done.
    lens. split_and!; try done; try lia. destruct (live v) as [|b0 bs]; cbn; [|done].
    rewrite Hbo. lia. }
  split_and!; try done.
  - unfold view. rewrite HL, bytes_of_snoc. cbn. by rewrite ldrop_app_le.
  - intros _. split; [done|]. rewrite HL. by destruct (live v).
Qed.

Lemma trim_chain_front_wf v :
  iov_wf v → ∃ v', trim_chain_front v = Ok v' ∧ iov_wf v' ∧ live v' = live v ∧
    begin_offset_ v' = begin_offset_ v ∧ chain_length_ v' = chain_length_ v ∧
    start_index_ v' = 0 ∧ (chain_ v' = live v).
Proof.
  intros [Hst Hl]. unfold trim_chain_front. destruct (Z.eqb_spec (start_index_ v) 0) as [E|E].
  - exists v. unfold iov_wf, live. rewrite E, ldrop_0. unfold live in Hl. rewrite E in Hl.
    split_and!; done || lia.
  - rewrite bool_decide_eq_true_2 by lia. eexists; split; [done|].
    unfold iov_wf, live. cbn. rewrite ldrop_0. split_and!; try done. lens. lia.
Qed.

Lemma pop_front_block_wf v b bs :
  iov_wf v → live v = b :: bs →
  ∃ v', pop_front_block v = Ok v' ∧ iov_wf v' ∧ live v' = bs ∧ begin_offset_ v' = 0 ∧
        (bs ≠ [] → front_wf v').
Proof.
  intros Hv E. pose proof (front_facts v b bs Hv E) as (Hb & ? & ? & Hcl & ? & _ & Hbs & ?).
  pose proof (live_lget v b bs Hv E) as Hg. unfold pop_front_block. rewrite Hg. cbn.
  rewrite u64_small by lia. rewrite Hcl, Z.add_simpl_l.
  set (v' := mkIOV _ _ _ _).
  assert (live v' = bs) as HL.
  { unfold live, v'; cbn. rewrite ldrop_lset_gt by (destruct Hv; lia).
    unfold live in E. rewrite (ldrop_lget _ _ _ Hg) in E. naive_solver. }
  assert (iov_wf v') as HW.
  { split; [|by rewrite HL]. cbn. rewrite llen_lset.
    pose proof (lget_Some_range _ _ _ Hg). lia. }
  case_match.
  - destruct (trim_chain_front_wf v' HW) as (v2 & -> & ? & HL2 & Hb2 & _). exists v2.
    rewrite HL2, HL, Hb2. split_and!; try done. intros ?. split; [done|]. by rewrite HL2, HL.
  - exists v'. split_and!; try done. intros ?. split; [done|]. by rewrite HL.
Qed.

(** Moving the start of the first block forward by [n] bytes. *)
Lemma advance_wf v b bs n :
  iov_wf v → live v = b :: bs → 0 ≤ n → begin_offset_ v + n < size_ b →
  iov_wf (mkIOV (chain_length_ v) (begin_offset_ v + n) (start_index_ v) (chain_ v)) ∧
  view (mkIOV (chain_length_ v) (begin_offset_ v + n) (start_index_ v) (chain_ v)) =
    ldrop n (view v).
Proof.
  intros Hv E Hn Hlt. pose proof (front_facts v b bs Hv E) as (? & ? & _).
  split.
  - destruct Hv as [? (? & ? & ? & ? & _)]. unfold iov_wf, live_wf, live. cbn.
    unfold live in *. rewrite E in *. split_and!; done || lia.
  - unfold view, live. cbn. rewrite ldrop_ldrop by lia. done.
Qed.

Lemma drop_front_loop_spec fuel : ∀ v len dropped,
  iov_wf v → (length (live v) < fuel)%nat → 0 ≤ dropped ≤ len → len < 2 ^ 32 →
  len - dropped < llen (view v) → dropped + llen (view v) < 2 ^ 64 →
  ∃ v', drop_front_loop fuel len dropped v = Ok v' ∧ iov_wf v' ∧
        view v' = ldrop (len - dropped) (view v) ∧ live v' ≠ [] ∧ chain_length_ v' ≤ chain_length_ v.
Proof.
  induction fuel as [|fuel IH]; intros v len dropped Hv Hf Hd Hl Hs Hw; [lia|]. cbn.
  destruct (live v) as [|b bs] eqn:E.
  { rewrite live_nil_view in Hs by done. rewrite llen_nil in Hs. lia. }
  pose proof (front_facts v b bs Hv E) as (Hb & ? & ? & ? & ? & Hfl & _ & ?).
  pose proof (view_cons v b bs Hv E) as HV.
  assert (llen (view v) = size_ b - begin_offset_ v + llen (bytes_of bs)) as HVl
    by (rewrite HV, llen_app, Hfl; done).
  case_match eqn:Hlt; [apply Z.ltb_lt in Hlt | apply Z.ltb_ge in Hlt].
  2: { exists v. replace (len - dropped) with 0 by lia. rewrite ldrop_0, E. naive_solver lia. }
  rewrite (live_lget v b bs Hv E). cbn. rewrite (u64_small (size_ b - _)) by lia.
  rewrite u64_small by lia.
  case_match eqn:Hle; [apply Z.leb_le in Hle | apply Z.leb_gt in Hle].
  - destruct (pop_front_block_wf v b bs Hv E) as (v1 & -> & Hv1 & HL1 & Hbo & _). cbn.
    assert (view v1 = bytes_of bs) as HV1 by (unfold view; rewrite Hbo, HL1; done).
    rewrite u32_small by lia.
    assert (chain_length_ v1 = llen (bytes_of bs)) as Hcl1 by (destruct Hv1 as [_ (_ & _ & Hcl1 & _)]; by rewrite <- HL1).
    destruct (IH v1 len (dropped + (size_ b - begin_offset_ v))) as (v2 & -> & ? & HV2 & ? & ?);
      try done; rewrite ?HL1, ?HV1; try lia.
    { cbn in Hf. lia. }
    exists v2. split_and!; try done; [|lia]. rewrite HV2, HV1, HV, ldrop_app_ge by lia. f_equal. lia.
  - rewrite (u64_small (len - dropped)), u64_small by lia.
    destruct (advance_wf v b bs (len - dropped) Hv E) as [? ?]; [lia..|].
    eexists; split; [done|]. split_and!; try done. unfold live in *. cbn. by rewrite E.
Qed.

Lemma length_live v : (length (live v) ≤ length (chain_ v))%nat.
Proof. unfold live, ldrop. rewrite length_drop. lia. Qed.

Lemma drop_front_spec v len :
  front_wf v → 0 ≤ len ≤ llen (view v) → len < 2 ^ 32 →
  ∃ v', drop_front len v = Ok v' ∧ front_wf v' ∧ view v' = ldrop len (view v) ∧
    chain_length_ v' ≤ chain_length_ v.
Proof.
  intros [Hv Hf] Hl H32. unfold drop_front. rewrite (size_view v Hv).
  destruct (Z.eqb_spec len 0) as [->|]; [exists v; by split_and!|].
  destruct (Z.eqb_spec len (llen (view v))) as [->|].
  { eexists; split; [done|]. rewrite llen_ldrop_ge by lia. split; [split; [apply iov_wf_empty|done]|].
    split; [done|]. cbn. destruct Hv as [_ (_ & _ & -> & _)]. apply llen_nonneg. }
  rewrite (proj2 (Z.ltb_lt _ _)) by lia. cbn -[drop_front_loop].
  pose proof (length_live v).
  destruct (drop_front_loop_spec (S (length (chain_ v))) v len 0) as (v' & -> & ? & HV & ? & ?);
    try done; try lia.
  { rewrite <- (size_view v Hv). apply u64_range. }
  exists v'. rewrite HV, Z.sub_0_r. split_and!; try done.
Qed.

(** The block a loop step of [take_front] moves into the result. *)
Lemma take_block_wf r b bo :
  front_wf r → (bo = 0 ∨ r = empty_iov) → block_ok b → 0 ≤ bo < size_ b →
  chain_length_ r + size_ b < 2 ^ 64 →
  ∃ r1, append r b = Ok r1 ∧
    let r2 := if bo =? 0 then r1
              else mkIOV (chain_length_ r1) bo (start_index_ r1) (chain_ r1) in
    front_wf r2 ∧ view r2 = view r ++ ldrop bo (contents b) ∧
    chain_length_ r2 = chain_length_ r + size_ b.
Proof.
  intros Hr Hor Hb Hbo Hlt.
  destruct (append_wf r b) as (r1 & Ha & Hw1 & HV & Hcl & _ & _ & Hl & Hf); [apply Hr|done..|].
  exists r1. split; [done|]. cbn zeta. destruct (Z.eqb_spec bo 0) as [->|Hne].
  { rewrite ldrop_0. auto. }
  destruct Hor as [Hz | -> ]; [done|].
  specialize (Hl ltac:(lia)). cbn in Hl. specialize (Hf Hr).
  destruct (advance_wf r1 b [] bo Hw1) as [Hw2 HV2].
  { rewrite Hl. done. }
  { lia. }
  { unfold append in Ha. case_match; [lia|]. cbn in Ha. injection Ha as <-. cbn. lia. }
  assert (begin_offset_ r1 = 0) as Hb0.
  { unfold append in Ha. case_match; [lia|]. cbn in Ha. injection Ha as <-. done. }
  rewrite Hb0, Z.add_0_l in *. split_and!; [split; [done|]|by rewrite HV2, HV|done].
  unfold live in *. cbn. rewrite Hl. done.
Qed.

(** The chain after its front block is moved out. *)
Lemma moved_front_wf v b bs :
  iov_wf v → live v = b :: bs →
  let v' := mkIOV (llen (bytes_of bs)) 0 (start_index_ v + 1)
              (lset (start_index_ v) empty_block (chain_ v)) in
  iov_wf v' ∧ live v' = bs ∧ view v' = bytes_of bs.
Proof.
  intros Hv E v'. pose proof (front_facts v b bs Hv E) as (_ & _ & _ & _ & _ & _ & Hbs & _).
  pose proof (live_lget v b bs Hv E) as Hg. pose proof (lget_Some_range _ _ _ Hg).
  assert (live v' = bs) as HL.
  { unfold live, v'. cbn. rewrite ldrop_lset_gt by (destruct Hv; lia).
    unfold live in E. rewrite (ldrop_lget _ _ _ Hg) in E. naive_solver. }
  split_and!; [split|done|].
  - cbn. rewrite llen_lset. lia.
  - by rewrite HL.
  - unfold view. rewrite HL. done.
Qed.

Lemma take_front_loop_spec fuel : ∀ len v r,
  iov_wf v → front_wf r → (begin_offset_ v = 0 ∨ r = empty_iov) →
  (length (live v) < fuel)%nat → 0 ≤ len < llen (view v) →
  chain_length_ r + chain_length_ v < 2 ^ 64 →
  ∃ len' v' r' b bs, take_front_loop fuel len v r = Ok (len', v', r') ∧
    iov_wf v' ∧ live v' = b :: bs ∧ front_wf r' ∧ 0 ≤ len' ≤ len ∧
    len' < size_ b - begin_offset_ v' ∧ view r' = view r ++ ltake (len - len') (view v) ∧
    view v' = ldrop (len - len') (view v) ∧
    chain_length_ r' + chain_length_ v' ≤ chain_length_ r + chain_length_ v.
Proof.
  induction fuel as [|fuel IH]; intros len v r Hv Hr Hor Hf Hl Hw; [lia|]. cbn [take_front_loop].
  destruct (live v) as [|b bs] eqn:E.
  { rewrite (live_nil_view v E) in Hl. change (llen (@nil byte)) with 0 in Hl. lia. }
  pose proof (front_facts v b bs Hv E) as (Hb & Hbo & ? & Hcl & ? & Hfl & Hbs & ?).
  pose proof (view_cons v b bs Hv E) as HV.
  assert (llen (view v) = size_ b - begin_offset_ v + llen (bytes_of bs)) as HVl
    by (rewrite HV, llen_app, Hfl; done).
  rewrite (live_lget v b bs Hv E). cbn -[take_front_loop]. rewrite (u64_small (size_ b - _)) by lia.
  case_match eqn:Hle; [apply Z.leb_le in Hle | apply Z.leb_gt in Hle].
  2: { exists len, v, r, b, bs. rewrite Z.sub_diag, ltake_0, ldrop_0, app_nil_r.
       split_and!; (done || lia). }
  rewrite (proj2 (Z.ltb_lt _ _)) by lia. rewrite !u64_small by lia.
  destruct (take_block_wf r b (begin_offset_ v)) as (r1 & -> & Hr2); [done..|lia|].
  cbn -[take_front_loop]. cbn zeta in Hr2. destruct Hr2 as (Hr2 & HVr & Hclr).
  replace (chain_length_ v - size_ b) with (llen (bytes_of bs)) by lia.
  destruct (moved_front_wf v b bs Hv E) as (Hv1 & HL1 & HV1).
  destruct (IH (len - (size_ b - begin_offset_ v)) _ _ Hv1 Hr2 (or_introl eq_refl))
    as (len' & v' & r' & b' & bs' & -> & ? & ? & ? & ? & ? & Hr' & Hv' & ?).
  { rewrite HL1. cbn in Hf. lia. }
  { rewrite HV1. lia. }
  { rewrite Hclr. cbn. lia. }
  exists len', v', r', b', bs'. split_and!; try done; try lia.
  - rewrite Hr', HVr, HV1, HV, ltake_app_ge by lia. rewrite <- app_assoc. do 3 f_equal. lia.
  - rewrite Hv', HV1, HV, ldrop_app_ge by lia. f_equal. lia.
  - rewrite Hclr in *. cbn in *. lia.
Qed.

Section take.
Context `{Uninit}.

(** [take_front_split] when the bytes are copied out. *)
Lemma take_split_copy v r b bs len :
  iov_wf v → live v = b :: bs → front_wf r → 0 < len < size_ b - begin_offset_ v →
  chain_length_ r + len < 2 ^ 64 →
  ∃ blk r', block_read b (begin_offset_ v) len = Ok (ltake len (ldrop (begin_offset_ v) (contents b)))
    ∧ block_of_range (ltake len (ldrop (begin_offset_ v) (contents b))) = Ok blk
    ∧ append r blk = Ok r' ∧ front_wf r' ∧ view r' = view r ++ ltake len (view v).
Proof.
  intros Hv E Hr Hl Hw. pose proof (front_facts v b bs Hv E) as (Hb & Hbo & ? & Hcl & ? & Hfl & _ & ?).
  destruct (block_of_range_spec (ltake len (ldrop (begin_offset_ v) (contents b))))
    as (blk & Hblk & ? & Hc & Hsz).
  rewrite llen_ltake in Hsz by lia.
  destruct (append_wf r blk) as (r' & Ha & _ & HV & _ & _ & _ & _ & Hf); [apply Hr|done|lia|].
  exists blk, r'. split_and!; try done.
  - apply block_read_contents; [done|lia..].
  - by apply Hf.
  - rewrite HV, Hc, (view_cons v b bs Hv E), ltake_app_le by lia. done.
Qed.

(** Replacing the front block by its tail from [n] on. *)
Lemma replace_front_wf v b bs blk n :
  iov_wf v → live v = b :: bs → 0 ≤ n < size_ b → block_ok blk →
  contents blk = ldrop n (contents b) →
  let v' := mkIOV (chain_length_ v - n) 0 (start_index_ v) (lset (start_index_ v) blk (chain_ v)) in
  front_wf v' ∧ live v' = blk :: bs ∧ view v' = ldrop n (bytes_of (live v)).
Proof.
  intros Hv E Hl Hblk Hc v'.
  pose proof (front_facts v b bs Hv E) as (Hb & _ & ? & Hcl & ? & _ & (Hok & Hne & _ & _ & _) & ?).
  assert (llen (contents blk) = size_ b - n) as Hs
    by (rewrite Hc, llen_ldrop; rewrite llen_contents; (done || lia)).
  rewrite llen_contents in Hs by done.
  pose proof (live_lget v b bs Hv E) as Hg.
  assert (live v' = blk :: bs) as HL.
  { unfold live, v'. cbn. rewrite (ldrop_lset_eq _ _ b) by done.
    unfold live in E. rewrite (ldrop_lget _ _ _ Hg) in E. naive_solver. }
  split_and!; [split; [split|by rewrite HL]|done|].
  - cbn. rewrite llen_lset. apply Hv.
  - rewrite HL. cbn. split_and!; rewrite ?Forall_cons; try done; try lia; [naive_solver lia|].
    rewrite bytes_of_cons, llen_app, llen_contents by done. lia.
  - unfold view. rewrite HL. cbn. rewrite E, !bytes_of_cons, !ldrop_0, Hc.
    rewrite ldrop_app_le; [done|]. rewrite llen_contents; (done || lia).
Qed.

Lemma take_front_split_spec v r b bs len :
  iov_wf v → live v = b :: bs → front_wf r → 0 < len < size_ b - begin_offset_ v →
  chain_length_ r + chain_length_ v < 2 ^ 64 →
  ∃ r' v', take_front_split len v r = Ok (r', v') ∧ front_wf r' ∧ front_wf v' ∧
    view r' = view r ++ ltake len (view v) ∧ view v' = ldrop len (view v) ∧ chain_length_ v' ≤ chain_length_ v.
Proof.
  intros Hv E Hr Hl Hw.
  pose proof (front_facts v b bs Hv E) as (Hb & Hbo & ? & Hcl & ? & Hfl & _ & ?).
  unfold take_front_split. rewrite (live_lget v b bs Hv E). cbn [deref]. rok.
  case_match eqn:Hc.
  - destruct (take_split_copy v r b bs len) as (blk & r' & -> & Hblk & Ha & Hr' & HV); [done..|lia|].
    rok. rewrite Hblk. rok. rewrite Ha. rok. rewrite u64_small by lia.
    destruct (advance_wf v b bs len Hv E) as [Hw' HV']; [lia..|].
    do 2 eexists. split; [done|]. split_and!; try done. split; [done|].
    unfold live in *. cbn. by rewrite E.
  - apply orb_false_iff in Hc as [Hc0 _]. apply negb_false_iff, Z.eqb_eq in Hc0. rewrite Hc0. cbn [Z.eqb check]. rok.
    rewrite (u64_small (size_ b - len)) by lia. rewrite block_read_suffix by (done || lia). rok.
    destruct (block_of_range_spec (ldrop len (contents b))) as (blk & -> & ? & Hcb & Hsb). rok.
    rewrite llen_ldrop, llen_contents in Hsb by (rewrite ?llen_contents; (done || lia)).
    destruct (resize_shrink b len) as (b' & -> & ? & ? & Hcb'); [done|lia|]. rok.
    destruct (append_wf r b') as (r' & -> & _ & HV & _ & _ & _ & _ & Hf); [apply Hr|done|lia|]. rok.
    destruct (replace_front_wf v b bs blk len) as (Hv' & _ & HV'); [done..|lia|done|done|].
    rewrite (u64_small (chain_length_ v - size_ b)), u64_small by lia.
    replace (chain_length_ v - size_ b + size_ blk) with (chain_length_ v - len) by lia.
    do 2 eexists. split; [done|]. split_and!; try done; [by apply Hf| |unfold view; by rewrite Hc0, ldrop_0|cbn; lia].
    rewrite HV, Hcb', (view_cons v b bs Hv E), Hc0, ldrop_0, ltake_app_le; [done|].
    rewrite llen_contents; (done || lia).
Qed.

(** The length of the chain does not grow. *)
Lemma take_front_chain_spec v len :
  front_wf v → 0 ≤ len ≤ llen (view v) →
  ∃ r v', take_front len v = Ok (r, v') ∧ front_wf r ∧ front_wf v' ∧
    view r = ltake len (view v) ∧ view v' = ldrop len (view v) ∧ chain_length_ v' ≤ chain_length_ v.
Proof.
  intros [Hv Hf] Hl. unfold take_front. rewrite (size_view v Hv).
  assert (front_wf empty_iov) as Hempty by (split; [apply iov_wf_empty|done]).
  destruct (Z.eqb_spec len 0) as [->|]; [by exists empty_iov, v|].
  destruct (Z.eqb_spec len (llen (view v))) as [->|].
  { do 2 eexists. split; [done|]. rewrite ltake_ge, llen_ldrop_ge by lia.
    pose proof (llen_nonneg (bytes_of (live v))) as Hn. destruct Hv as [? (? & ? & Hcl & ?)]. destruct v.
    split_and!; try done. cbn in *. lia. }
  rewrite (proj2 (Z.leb_le _ _)) by lia. cbn -[take_front_loop].
  pose proof (length_live v).
  destruct (take_front_loop_spec (S (length (chain_ v))) len v empty_iov)
    as (len' & v' & r & b & bs & -> & Hv' & E & Hr & ? & ? & HVr & HVv & ?); try done; try lia.
  { by right. }
  { destruct Hv as [_ (_ & _ & ? & ? & _)]. cbn. lia. }
  cbn. change (view empty_iov) with (@nil byte) in HVr. cbn [app] in HVr.
  case_match eqn:Hpos; [apply Z.ltb_lt in Hpos|apply Z.ltb_ge in Hpos].
  - destruct (take_front_split_spec v' r b bs len') as (r' & v2 & -> & ? & ? & HV1 & HV2 & Hc2); try done.
    { destruct Hv as [_ (_ & _ & ? & ? & _)]. cbn in *. lia. }
    pose proof (llen_nonneg (bytes_of (live r))). destruct Hr as [[_ (_ & _ & Hcr & _)] _]. cbn in *.
    exists r', v2. split_and!; try done; [| |lia].
    + rewrite HV1, HVr, HVv. unfold ltake, ldrop. rewrite take_take_drop. f_equal. lia.
    + rewrite HV2, HVv, ldrop_ldrop by lia. f_equal. lia.
  - exists r, v'. replace (len - len') with len in * by lia. split_and!; try done.
    + split; [done|]. by rewrite E.
    + pose proof (llen_nonneg (bytes_of (live r))). destruct Hr as [[_ (_ & _ & Hcr & _)] _]. cbn in *. lia.
Qed.

Lemma take_front_spec v len :
  front_wf v → 0 ≤ len ≤ llen (view v) →
  ∃ r v', take_front len v = Ok (r, v') ∧ front_wf r ∧ front_wf v' ∧
    view r = ltake len (view v) ∧ view v' = ldrop len (view v).
Proof. intros Hv Hl. destruct (take_front_chain_spec v len Hv Hl) as (r & v' & ? & ? & ? & ? & ? & _). eauto 10. Qed.

End take.

Lemma iterate_rest_spec bs :
  Forall block_ok bs → iterate_rest bs = Ok (contents <$> bs).
Proof.
  induction bs as [|b bs IH]; [done|]. rewrite Forall_cons. intros [Hb Hbs]. cbn [iterate_rest].
  rewrite block_read_all by done. rok. rewrite IH by done. done.
Qed.

Lemma iovecs_spec v :
  iov_wf v → ∃ ss, iovecs v = Ok ss ∧ concat ss = view v.
Proof.
  intros Hv. unfold iovecs, iterate_blocks. rewrite (size_view v Hv).
  destruct (Z.eqb_spec (llen (view v)) 0) as [E0|E0].
  { apply llen_0 in E0. rewrite E0. by exists []. }
  fold (live v). destruct (live v) as [|b bs] eqn:E.
  { by rewrite live_nil_view in E0. }
  pose proof (front_facts v b bs Hv E) as (Hb & ? & _ & _ & _ & _ & (Hbs & _) & _).
  rewrite (proj2 (Z.leb_le _ _)) by lia. cbn [check]. rok.
  rewrite block_read_suffix by (done || lia). rok. rewrite iterate_rest_spec by done. rok.
  eexists; split; [done|]. by rewrite (view_cons v b bs Hv E).
Qed.

(** [memcpy] of consecutive slices into a buffer. *)
Lemma copy_slices_spec ss : ∀ r d off,
  data_ r = Some d → 0 ≤ off → off + llen (concat ss) ≤ llen d →
  off + llen (concat ss) < 2 ^ 64 →
  copy_slices r off ss =
    Ok (mkBlock (Some (ltake off d ++ concat ss ++ ldrop (off + llen (concat ss)) d))
          (capacity_ r) (size_ r)).
Proof.
  induction ss as [|s ss IH]; intros r d off Hd Ho Hl Hw; cbn [copy_slices concat].
  - cbn [app]. rewrite llen_nil, Z.add_0_r, ltake_ldrop. destruct r. cbn in *. by subst.
  - cbn [concat] in *. rewrite llen_app in *. lens.
    rewrite (block_write_data r d) by (done || lia). rok.
    rewrite u64_small by lia. set (d1 := ltake off d ++ s ++ ldrop (off + llen s) d).
    assert (llen d1 = llen d) as Hd1.
    { unfold d1. rewrite !llen_app, llen_ltake, llen_ldrop by lia. lia. }
    rewrite (IH _ d1) by (done || lia). cbn [capacity_ size_]. do 3 f_equal.
    assert (ltake (off + llen s) d1 = ltake off d ++ s) as ->.
    { unfold d1. rewrite app_assoc, ltake_app_le
        by (rewrite llen_app, llen_ltake by lia; lia).
      apply ltake_ge. rewrite llen_app, llen_ltake by lia. lia. }
    assert (ldrop (off + llen s + llen (concat ss)) d1 = ldrop (off + (llen s + llen (concat ss))) d) as ->.
    { unfold d1. rewrite app_assoc, ldrop_app_ge by (rewrite llen_app, llen_ltake by lia; lia).
      rewrite llen_app, llen_ltake, ldrop_ldrop by lia. f_equal. lia. }
    by rewrite <- !app_assoc.
Qed.

Section coalesce.
Context `{Uninit}.

Lemma coalesce_spec v :
  iov_wf v → ∃ b, coalesce v = Ok b ∧ block_ok b ∧ contents b = view v.
Proof.
  intros Hv. unfold coalesce. pose proof (u64_range (chain_length_ v - begin_offset_ v)) as Hr.
  change (u64 (chain_length_ v - begin_offset_ v)) with (size v) in Hr.
  rewrite (size_view v Hv) in *.
  destruct (Z.eqb_spec (llen (view v)) 0) as [E0|E0].
  { apply llen_0 in E0. rewrite E0. by exists empty_block. }
  destruct (resize_empty (llen (view v))) as (b & -> & Hb & Hs & Hc & Hd); [lia|]. rok.
  destruct (Hd E0) as [d Hd']. destruct (iovecs_spec v Hv) as (ss & Hss & HV).
  unfold iovecs in Hss. rewrite Hss. rok.
  assert (llen d = capacity_ b ∧ 0 ≤ size_ b ≤ capacity_ b) as [Hdl ?]
    by (unfold block_ok in Hb; by rewrite Hd' in Hb).
  rewrite (copy_slices_spec ss b d) by (rewrite ?HV; done || lia).
  eexists; split; [done|]. rewrite HV. unfold block_ok, contents. cbn [data_ size_ capacity_].
  rewrite ltake_0, Z.add_0_l, llen_ldrop_ge by lia. rewrite app_nil_r. cbn [app].
  rewrite ltake_ge by lia. naive_solver lia.
Qed.
End coalesce.

(** The end of a list whose tail from [i] on is one element. *)
Lemma ldrop_singleton {A} (l : list A) i x :
  0 ≤ i → ldrop i l = [x] → l = ltake i l ++ [x] ∧ llen (ltake i l) = i.
Proof.
  intros Hi E. rewrite <- E, ltake_ldrop. split; [done|]. apply llen_ltake.
  pose proof (lget_Some_range _ _ _ (lget_ldrop _ _ _ _ Hi E)). lia.
Qed.

Lemma gather_spec bs : ∀ r d sz,
  Forall block_ok bs → data_ r = Some d → 0 ≤ sz → sz + llen (bytes_of bs) ≤ llen d →
  sz + llen (bytes_of bs) < 2 ^ 64 →
  gather r sz bs =
    Ok (mkBlock (Some (ltake sz d ++ bytes_of bs ++ ldrop (sz + llen (bytes_of bs)) d))
          (capacity_ r) (size_ r), sz + llen (bytes_of bs)).
Proof.
  intros r d sz Hok. revert r d sz. induction bs as [|b bs IH]; intros r d sz Hd Hs Hl Hw.
  - cbn. rewrite Z.add_0_r, ltake_ldrop. destruct r. cbn in *. by subst.
  - rewrite Forall_cons in Hok. destruct Hok as [Hb Hbs]. cbn [gather].
    rewrite bytes_of_cons, llen_app in *. lens.
    rewrite block_read_all by done. rok. rewrite (block_write_data r d) by (done || lia). rok.
    rewrite <- (llen_contents b Hb). rewrite u64_small by lia.
    set (d1 := ltake sz d ++ contents b ++ ldrop (sz + llen (contents b)) d).
    assert (llen d1 = llen d) as Hd1.
    { unfold d1. rewrite !llen_app, llen_ltake, llen_ldrop by lia. lia. }
    rewrite (IH Hbs _ d1) by (done || lia). cbn [capacity_ size_].
    assert (ltake (sz + llen (contents b)) d1 = ltake sz d ++ contents b) as ->.
    { unfold d1. rewrite app_assoc, ltake_app_le by (rewrite llen_app, llen_ltake by lia; lia).
      apply ltake_ge. rewrite llen_app, llen_ltake by lia. lia. }
    assert (ldrop (sz + llen (contents b) + llen (bytes_of bs)) d1
            = ldrop (sz + (llen (contents b) + llen (bytes_of bs))) d) as ->.
    { unfold d1. rewrite app_assoc, ldrop_app_ge by (rewrite llen_app, llen_ltake by lia; lia).
      rewrite llen_app, llen_ltake, ldrop_ldrop by lia. f_equal. lia. }
    rewrite <- !app_assoc. do 2 f_equal. lia.
Qed.

Section coalesce_move.
Context `{Uninit}.

(** The branch of [coalesce() &&] that reuses the only block. *)
Lemma coalesce_single v b :
  iov_wf v → live v = [b] →
  ∃ r v', coalesce_move v = Ok (r, v') ∧ block_ok r ∧ contents r = view v ∧
    iov_wf v' ∧ view v' = [] ∧ start_index_ v' = start_index_ v ∧
    chain_ v' = ltake (start_index_ v) (chain_ v).
Proof.
  intros Hv E. pose proof (front_facts v b [] Hv E) as (Hb & Hbo & ? & Hcl & ? & Hfl & _ & _).
  pose proof (view_cons v b [] Hv E) as HV. change (bytes_of []) with (@nil byte) in *.
  rewrite app_nil_r in HV. rewrite llen_nil in Hcl.
  destruct (ldrop_singleton (chain_ v) (start_index_ v) b) as [Hch Hlt]; [apply Hv|done|].
  assert (llen (chain_ v) = start_index_ v + 1) as Hlen
    by (rewrite Hch, llen_app, Hlt; done).
  unfold coalesce_move. rewrite (size_view v Hv), HV, Hfl.
  rewrite (proj2 (Z.eqb_neq _ _)) by lia. rewrite (live_lget v b [] Hv E). cbn [deref]. rok.
  assert (last (chain_ v) = Some b) as -> by (rewrite Hch; apply last_snoc). cbn [deref]. rok.
  rewrite (proj2 (Z.eqb_neq (begin_offset_ v) (size_ b))) by lia. cbn [andb].
  rewrite Hlen, Z.eqb_refl.
  assert (removelast (chain_ v) = ltake (start_index_ v) (chain_ v)) as ->
    by (rewrite Hch at 1; apply removelast_last).
  rewrite Hcl, Z.add_0_r, Z.sub_diag. change (u64 0) with 0.
  set (v' := mkIOV 0 0 (start_index_ v) (ltake (start_index_ v) (chain_ v))).
  assert (live v' = []) as HL by (unfold live; cbn; apply llen_ldrop_ge; lia).
  assert (iov_wf v') as HW.
  { split; [cbn; rewrite Hlt; destruct Hv; lia|]. rewrite HL. done. }
  pose proof (live_nil_view v' HL).
  destruct (Z.eqb_spec (begin_offset_ v) 0) as [E0|E0].
  - exists b, v'. rewrite E0, ldrop_0. split_and!; done.
  - destruct (memmove_resize_spec b (begin_offset_ v)) as (b1 & b2 & -> & Hb2 & ? & ? & ?);
      [done|lia|lia|]. rok. rewrite Hb2. rok. exists b2, v'. split_and!; done.
Qed.

(** The branch that gathers everything in the first block's spare capacity. *)
Lemma gather_first v b bs :
  iov_wf v → live v = b :: bs → llen (view v) ≤ capacity_ b →
  ∃ r0 sz r1 r2,
    (if begin_offset_ v =? 0 then Ok (b, size_ b) else
       b1 ← block_memmove b (begin_offset_ v) (u64 (size_ b - begin_offset_ v));
       Ok (b1, u64 (size_ b - begin_offset_ v))) = Ok (r0, sz) ∧
    gather r0 sz bs = Ok (r1, llen (view v)) ∧ resize r1 (llen (view v)) = Ok r2 ∧
    block_ok r2 ∧ contents r2 = view v.
Proof.
  intros Hv E Hcap.
  pose proof (front_facts v b bs Hv E) as (Hb & Hbo & ? & Hcl & Hw & Hfl & (Hbs & _) & ?).
  pose proof (view_cons v b bs Hv E) as HV.
  assert (llen (view v) = size_ b - begin_offset_ v + llen (bytes_of bs)) as HVl
    by (rewrite HV, llen_app, Hfl; done).
  assert (∃ r0, (if begin_offset_ v =? 0 then Ok (b, size_ b) else
       b1 ← block_memmove b (begin_offset_ v) (u64 (size_ b - begin_offset_ v));
       Ok (b1, u64 (size_ b - begin_offset_ v))) = Ok (r0, size_ b - begin_offset_ v) ∧
       block_ok r0 ∧ capacity_ r0 = capacity_ b ∧ size_ r0 = size_ b ∧
       ltake (size_ b - begin_offset_ v) (contents r0) = ldrop (begin_offset_ v) (contents b))
    as (r0 & Hr0 & Hok0 & Hc0 & Hs0 & Hct).
  { destruct (Z.eqb_spec (begin_offset_ v) 0) as [E0|E0].
    - exists b. rewrite E0, Z.sub_0_r, ldrop_0. split_and!; try done.
      apply ltake_ge. rewrite llen_contents; (done || lia).
    - rewrite u64_small by lia.
      destruct (block_memmove_spec b (begin_offset_ v)) as (b1 & -> & ? & ? & ? & ?); [done|lia|].
      by exists b1. }
  destruct (data_ r0) as [d|] eqn:Hd; [|unfold block_ok in Hok0; rewrite Hd in Hok0; lia].
  assert (llen d = capacity_ r0 ∧ 0 ≤ size_ r0 ≤ capacity_ r0) as [Hdl ?]
    by (unfold block_ok in Hok0; by rewrite Hd in Hok0).
  assert (ltake (size_ b - begin_offset_ v) d = ldrop (begin_offset_ v) (contents b)) as Hpre.
  { rewrite <- Hct. unfold contents. rewrite Hd, ltake_ltake by lia. done. }
  pose proof (gather_spec bs r0 d (size_ b - begin_offset_ v) Hbs Hd) as Hga.
  rewrite <- HVl, Hpre, app_assoc, <- HV in Hga.
  set (d1 := view v ++ ldrop (llen (view v)) d) in *.
  assert (llen d1 = llen d) as Hd1 by (unfold d1; rewrite llen_app, llen_ldrop by lia; lia).
  do 4 eexists. split; [exact Hr0|]. split; [apply Hga; lia|].
  unfold resize. cbn [data_ capacity_]. rewrite (proj2 (Z.leb_le _ _)) by lia. cbn [check]. rok.
  split; [done|]. unfold block_ok, contents; cbn [data_ size_ capacity_]. split_and!.
  - lia.
  - lens. lia.
  - lens. lia.
  - unfold d1. rewrite ltake_app_le by lia. apply ltake_ge. lia.
Qed.

Lemma coalesce_move_spec v :
  iov_wf v → ∃ b v', coalesce_move v = Ok (b, v') ∧ block_ok b ∧ contents b = view v ∧ iov_wf v'.
Proof.
  intros Hv. destruct (live v) as [|b bs] eqn:E.
  { unfold coalesce_move. rewrite (size_view v Hv), (live_nil_view v E).
    change (llen [] =? 0) with true. by exists empty_block, v. }
  destruct (decide (bs = [])) as [->|Hbs].
  { destruct (coalesce_single v b Hv E) as (r & v' & ? & ? & ? & ? & _). by exists r, v'. }
  pose proof (front_facts v b bs Hv E) as (Hb & Hbo & ? & Hcl & ? & Hfl & _ & ?).
  pose proof (live_lget v b bs Hv E) as Hg.
  assert (ldrop (start_index_ v + 1) (chain_ v) = bs) as Hrest.
  { unfold live in E. rewrite (ldrop_lget _ _ _ Hg) in E. naive_solver. }
  assert (llen (chain_ v) ≠ start_index_ v + 1) as Hne.
  { intros Hl. apply Hbs. rewrite <- Hrest. apply llen_ldrop_ge. lia. }
  assert (0 < llen (view v)) as Hpos
    by (rewrite (view_cons v b bs Hv E), llen_app, Hfl; lia).
  unfold coalesce_move. rewrite (size_view v Hv).
  rewrite (proj2 (Z.eqb_neq (llen (view v)) 0)) by lia. rewrite Hg. cbn [deref]. rok.
  destruct (last (chain_ v)) as [bk|] eqn:Hlast;
    [|apply last_None in Hlast; by apply live_chain in E].
  cbn [deref]. rok. rewrite (proj2 (Z.eqb_neq (begin_offset_ v) (size_ b))) by lia. cbn [andb].
  rewrite (proj2 (Z.eqb_neq (llen (chain_ v)) _)) by done.
  case_match eqn:Hc; [apply Z.leb_le in Hc|].
  - destruct (gather_first v b bs Hv E Hc) as (r0 & sz & r1 & r2 & -> & Hga & Hr2 & ? & ?).
    rok. rewrite Hrest, Hga. rok. rewrite Hr2. rok.
    destruct (moved_front_wf v b bs Hv E) as (HW & _).
    rewrite Hcl, Z.add_simpl_l, u64_small by lia. do 2 eexists. split; [done|]. done.
  - destruct (coalesce_spec v Hv) as (r & -> & ? & ?). rok. by exists r, v.
Qed.
End coalesce_move.

Section trim.
Context `{Uninit}.

Lemma trim_front_spec v :
  front_wf v → ∃ v', trim_front v = Ok v' ∧ front_wf v' ∧ view v' = view v ∧
    begin_offset_ v' = 0 ∧ start_index_ v' = 0.
Proof.
  intros [Hv Hf]. unfold trim_front. case_match eqn:Hc.
  { exists v. split_and!; try done; apply orb_true_iff in Hc as [Hc|Hc].
    - apply andb_true_iff in Hc as [Hc _]. by apply Z.eqb_eq in Hc.
    - apply bool_decide_eq_true in Hc. destruct Hv as [_ (_ & _ & _ & _ & Hbo)].
      unfold live, ldrop in Hbo. rewrite Hc, drop_nil in Hbo. done.
    - apply andb_true_iff in Hc as [_ Hc]. by apply Z.eqb_eq in Hc.
    - apply bool_decide_eq_true in Hc. destruct Hv as [Hst _]. rewrite Hc in Hst. change (llen (@nil Block)) with 0 in Hst. lia. }
  apply orb_false_iff in Hc as [_ Hc]. apply bool_decide_eq_false in Hc.
  destruct (live v) as [|b bs] eqn:E; [by specialize (Hf eq_refl)|].
  pose proof (front_facts v b bs Hv E) as (Hb & Hbo & ? & Hcl & ? & _ & _ & ?).
  rewrite (live_lget v b bs Hv E). cbn [deref]. rok.
  rewrite (proj2 (Z.eqb_neq _ _)) by lia.
  destruct (memmove_resize_spec b (begin_offset_ v)) as (b1 & b2 & -> & Hb2 & ? & ? & ?);
    [done|lia|lia|]. rok. rewrite Hb2. rok. cbn [chain_length_ begin_offset_ start_index_ chain_].
  rewrite u64_small by lia.
  destruct (replace_front_wf v b bs b2 (begin_offset_ v)) as ([HW _] & HL & HV); [done..|].
  destruct (trim_chain_front_wf _ HW) as (v' & -> & HW' & HL' & Hb' & _ & ? & Hc').
  exists v'. split_and!; try done; [split; [done|by rewrite HL', HL]|].
  unfold view in *. cbn [begin_offset_] in *. by rewrite HL', Hb', HV, E.
Qed.
End trim.

(** ** The claims *)

(** On a well-formed chain, [IOVector::drop_front(len)] with [len] at most the
    number of queued bytes (and below the 32-bit range of its counter) returns
    normally, keeps the chain well formed with an accessible front, and the bytes
    left are exactly the queued bytes without their first [len]. *)
Theorem drop_front_correct v len :
  front_wf v → 0 ≤ len ≤ llen (view v) → len < 2 ^ 32 →
  ∃ v', drop_front len v = Ok v' ∧ front_wf v' ∧ view v' = ldrop len (view v).
Proof. intros ???. destruct (drop_front_spec v len) as (v' & ? & ? & ? & _); eauto. Qed.

(** On a well-formed chain, [IOVector::take_front(len)] with [len] at most the
    number of queued bytes returns two well-formed chains: the first holds the
    first [len] queued bytes and the object keeps the rest, whichever of the
    move, copy and split branches is taken; asking for more aborts the process. *)
Theorem take_front_correct `{Uninit} v len :
  front_wf v → 0 ≤ len →
  if decide (len ≤ llen (view v)) then
    ∃ r v', take_front len v = Ok (r, v') ∧ front_wf r ∧ front_wf v' ∧
      view r = ltake len (view v) ∧ view v' = ldrop len (view v)
  else take_front len v = Fatal.
Proof.
  intros Hv Hl. case_decide as Hd; [by apply take_front_spec|].
  unfold take_front. rewrite (size_view v) by apply Hv.
  pose proof (llen_nonneg (view v)).
  rewrite !(proj2 (Z.eqb_neq _ _)) by lia. by rewrite (proj2 (Z.leb_gt _ _)) by lia.
Qed.

(** The destructive [IOVector::coalesce() &&] returns one block holding all
    queued bytes, whichever of its reuse-the-last-block, reuse-the-first-block or
    copy branches is taken, and leaves a well-formed chain behind. *)
Theorem coalesce_move_correct `{Uninit} v :
  iov_wf v → ∃ b v', coalesce_move v = Ok (b, v') ∧ block_ok b ∧ contents b = view v ∧ iov_wf v'.
Proof. apply coalesce_move_spec. Qed.

(** The [iovec] list that [IOVector::iovecs] hands to [writev] spells out
    exactly the queued bytes, in order, also after blocks have been appended. *)
Theorem iovecs_append_correct v b :
  iov_wf v → block_ok b → chain_length_ v + size_ b < 2 ^ 64 →
  ∃ v' ss, append v b = Ok v' ∧ iovecs v' = Ok ss ∧ concat ss = view v ++ contents b.
Proof.
  intros Hv Hb Hlt. destruct (append_wf v b) as (v' & Ha & Hv' & HV & _); [done..|].
  destruct (iovecs_spec v' Hv') as (ss & Hss & Hc). exists v', ss. by rewrite Hc, HV.
Qed.

(** After the destructive [coalesce() &&] of a chain whose first block had been
    consumed, the chain is empty but [front_size], [front_data] and [trim_front] read
    [chain_[start_index_]] outside the vector. *)
Theorem coalesce_then_front_undefined `{Uninit} :
  ∃ v b v', front_wf v ∧ coalesce_move v = Ok (b, v') ∧ empty v' = true ∧
    front_size v' = Undef ∧ front_data v' = Undef ∧ trim_front v' = Undef.
Proof.
  set (b1 := mkBlock (Some [x41; x42]) 2 2).
  exists (mkIOV 2 0 1 [empty_block; b1]), b1, (mkIOV 0 0 1 [empty_block]).
  split_and!; try done. split; [split; [done|]|done].
  split_and!; repeat constructor; done.
Qed.

(** A two-block chain for the witnesses. *)
Definition demo_chain : IOVector :=
  mkIOV 5 1 0 [mkBlock (Some (txt "abc")) 3 3; mkBlock (Some (txt "de--")) 4 2].

Lemma demo_chain_wf : front_wf demo_chain.
Proof.
  split; [split; [done|]|done]. split_and!; repeat constructor; done.
Qed.

Lemma drop_front_correct_witness :
  ∃ v', drop_front 3 demo_chain = Ok v' ∧ front_wf v' ∧ view v' = txt "e".
Proof.
  destruct (drop_front_correct demo_chain 3) as (v' & ? & ? & HV);
    [apply demo_chain_wf|vm_compute; split; congruence|done|].
  exists v'. rewrite HV. done.
Defined.

Lemma take_front_correct_witness :
  ∃ r v', @take_front zero_heap 3 demo_chain = Ok (r, v') ∧ view r = txt "bcd" ∧ view v' = txt "e".
Proof.
  pose proof (@take_front_correct zero_heap demo_chain 3 demo_chain_wf ltac:(done)) as Ht.
  rewrite decide_True in Ht by (vm_compute; congruence).
  destruct Ht as (r & v' & ? & _ & _ & HV & HV'). exists r, v'. rewrite HV, HV'. done.
Defined.

Lemma coalesce_move_correct_witness :
  ∃ b v', @coalesce_move zero_heap demo_chain = Ok (b, v') ∧ contents b = txt "bcde".
Proof.
  destruct (@coalesce_move_correct zero_heap demo_chain) as (b & v' & ? & _ & Hc & _);
    [apply demo_chain_wf|].
  exists b, v'. by rewrite Hc.
Defined.

Lemma iovecs_append_correct_witness :
  ∃ v' ss, append demo_chain (mkBlock (Some (txt "fg")) 2 2) = Ok v' ∧ iovecs v' = Ok ss ∧
           concat ss = txt "bcdefg".
Proof.
  destruct (iovecs_append_correct demo_chain (mkBlock (Some (txt "fg")) 2 2))
    as (v' & ss & ? & ? & Hc); [apply demo_chain_wf|done|done|].
  exists v', ss. rewrite Hc. done.
Defined.
