(* ===== verification/TransportFd.v ===== *)
(** * The framing layer of a connection

    Models adb/transport_fd.cpp: [NonblockingFdConnection], which cuts the byte
    stream of a transport's descriptor into packets and queues outgoing packets.

    [on_pollin] is the [POLLIN] branch of [Run] (after [adb_read]), [DispatchWrites]
    and [Write] are the functions of that name; what the operating system answers to
    [adb_read] and [adb_writev] is an argument.  [run_write_step] interleaves the
    [Run] thread with a caller of [Write] at the granularity of [write_mutex_].

    The abstract view of the reading side is the byte string [pending] not delivered
    yet; of the writing side, the bytes still queued. *)

From S2P Require Import Prelude Types.

Definition MAX_PAYLOAD : Z := 1024 * 1024.

(** [sizeof(amessage)]. *)
Definition sizeof_amessage : Z := 24.

(** The object representation of [amessage] on a little-endian host. *)
Definition msg_bytes (m : amessage) : bytes :=
  le32 (command m) ++ le32 (arg0 m) ++ le32 (arg1 m) ++
  le32 (data_length m) ++ le32 (data_check m) ++ le32 (magic m).

(** [memcpy(&m, l, sizeof(amessage))]. *)
Definition msg_of_bytes (l : bytes) : option amessage :=
  c ← of_le32 l; a0 ← of_le32 (drop 4 l); a1 ← of_le32 (drop 8 l);
  n ← of_le32 (drop 12 l); k ← of_le32 (drop 16 l); g ← of_le32 (drop 20 l);
  Some (mkMsg c a0 a1 n k g).

Record connection := mkConn {
  read_header_ : option amessage;
  read_buffer_ : IOVector;
  writable_ : bool;
  write_buffer_ : IOVector
}.

(** The connection as constructed. *)
Definition new_connection : connection := mkConn None empty_iov true empty_iov.

Inductive ReadOutcome := ReadError | ReadEof | ReadData (data : bytes).
Inductive WriteOutcome := WriteEAGAIN | WriteErrno | Written (rc : Z).
Inductive WriteResult := Error | Completed | TryAgain.

Section connection.
Context `{Uninit}.

(** Parses the header, once enough bytes are queued for it. *)
Definition read_header (c : connection) : res connection :=
  match read_header_ c with
  | Some _ => Ok c
  | None =>
      if sizeof_amessage <=? size (read_buffer_ c) then
        '(h, rest) ← take_front sizeof_amessage (read_buffer_ c);
        '(header_buf, _) ← coalesce_move h;
        check (sizeof_amessage =? size_ header_buf) ;;
        m ← deref (msg_of_bytes (contents header_buf));
        Ok (mkConn (Some m) rest (writable_ c) (write_buffer_ c))
      else Ok c
  end.

(** Hands over one packet, once its payload is queued. *)
Definition read_payload (c : connection) : res (connection * list apacket) :=
  match read_header_ c with
  | Some m =>
      if data_length m <=? size (read_buffer_ c) then
        '(data_chain, rest) ← take_front (data_length m) (read_buffer_ c);
        '(pl, _) ← coalesce_move data_chain;
        Ok (mkConn None rest (writable_ c) (write_buffer_ c), [mkPacket m pl])
      else Ok (c, [])
  | None => Ok (c, [])
  end.

(** The [POLLIN] branch of [Run]: [inl] is the error the thread exits with, [inr] the
    new state with the packets passed to [HandleRead]. *)
Definition on_pollin (rd : ReadOutcome) (c : connection) :
    res (String.string + connection * list apacket) :=
  match rd with
  | ReadError => Ok (inl "read failed"%string)
  | ReadEof => Ok (inl "read failed: EOF"%string)
  | ReadData data =>
      b0 ← allocate empty_block MAX_PAYLOAD;
      b1 ← block_write b0 0 data;
      b2 ← resize b1 (llen data);
      rb ← append (read_buffer_ c) b2;
      c1 ← read_header (mkConn (read_header_ c) rb (writable_ c) (write_buffer_ c));
      r ← read_payload c1;
      Ok (inr r)
  end.

Definition DispatchWrites (w : WriteOutcome) (c : connection) : res (WriteResult * connection) :=
  check (negb (empty (write_buffer_ c))) ;;
  iovs ← iovecs (write_buffer_ c);
  match w with
  | WriteEAGAIN =>
      Ok (TryAgain, mkConn (read_header_ c) (read_buffer_ c) false (write_buffer_ c))
  | WriteErrno => Ok (Error, c)
  | Written rc =>
      if rc =? 0 then Ok (Error, c) else
      wb ← drop_front rc (write_buffer_ c);
      Ok (if empty wb then Completed else TryAgain,
          mkConn (read_header_ c) (read_buffer_ c) (empty wb) wb)
  end.

(** [Write(packet)]: the result, the state, and whether the [Run] thread is woken. *)
Definition Write (p : apacket) (w : WriteOutcome) (c : connection) : res (bool * bool * connection) :=
  header_block ← block_of_range (msg_bytes (msg p));
  wb1 ← append (write_buffer_ c) header_block;
  wb2 ← (if size_ (payload p) =? 0 then Ok wb1 else append wb1 (payload p));
  '(result, c') ← DispatchWrites w (mkConn (read_header_ c) (read_buffer_ c) (writable_ c) wb2);
  Ok (match result with Error => false | _ => true end,
      match result with TryAgain => true | _ => false end, c').

End connection.

(** ** The two threads that share the write side

    [Run] holds [write_mutex_] while it looks at [writable_] and again while it calls
    [DispatchWrites], but not while it waits in [adb_poll]; [Write] holds it from
    start to end. *)
Inductive run_pc :=
  | Idle                 (** about to take the mutex and read [writable_] *)
  | Polling (pollout : bool)  (** in [adb_poll], asking for [POLLOUT] or not *)
  | Ready (pollout : bool)    (** [adb_poll] returned; the bit says whether [POLLOUT] is set *)
  | Aborted.             (** a [CHECK] failed *)

Inductive run_write_step `{Uninit} : run_pc * connection → run_pc * connection → Prop :=
  | step_events c : run_write_step (Idle, c) (Polling (negb (writable_ c)), c)
  | step_poll c po rev : (rev = true → po = true) → run_write_step (Polling po, c) (Ready rev, c)
  | step_no_pollout c : run_write_step (Ready false, c) (Idle, c)
  | step_dispatch c w r c' :
      DispatchWrites w c = Ok (r, c') → r ≠ Error → run_write_step (Ready true, c) (Idle, c')
  | step_dispatch_abort c w : DispatchWrites w c = Fatal → run_write_step (Ready true, c) (Aborted, c)
  | step_write pc c p w r woken c' :
      pc ≠ Aborted → Write p w c = Ok (r, woken, c') → run_write_step (pc, c) (pc, c').

(** ** Headers *)

Lemma llen_msg_bytes m : llen (msg_bytes m) = sizeof_amessage.
Proof. done. Qed.

Lemma msg_bytes_of_bytes l :
  llen l = sizeof_amessage → ∃ m, msg_of_bytes l = Some m ∧ msg_bytes m = l ∧ 0 ≤ data_length m < 2 ^ 32.
Proof.
  unfold llen, sizeof_amessage. intros Hl. assert (length l = 24%nat) as Hl' by lia. clear Hl.
  do 24 (destruct l as [|? l]; [done|]). destruct l; [|done]. clear Hl'.
  unfold msg_of_bytes. cbn [drop of_le32 mbind option_bind]. eexists. split; [done|].
  unfold msg_bytes. cbn [command arg0 arg1 data_length data_check magic]. rewrite !le32_of_le32.
  split; [done|].
  repeat match goal with |- context [bval ?b] =>
    lazymatch goal with H : 0 ≤ bval b < _ |- _ => fail | _ => pose proof (bval_range b) end end.
  lia.
Qed.

Definition msg_range (m : amessage) : Prop :=
  0 ≤ command m < 2 ^ 32 ∧ 0 ≤ arg0 m < 2 ^ 32 ∧ 0 ≤ arg1 m < 2 ^ 32 ∧
  0 ≤ data_length m < 2 ^ 32 ∧ 0 ≤ data_check m < 2 ^ 32 ∧ 0 ≤ magic m < 2 ^ 32.

Lemma msg_of_msg_bytes m : msg_range m → msg_of_bytes (msg_bytes m) = Some m.
Proof.
  intros (H0 & H1 & H2 & H3 & H4 & H5). unfold msg_of_bytes.
  set (t5 := le32 (magic m)). set (t4 := le32 (data_check m) ++ t5).
  set (t3 := le32 (data_length m) ++ t4). set (t2 := le32 (arg1 m) ++ t3).
  assert (of_le32 (msg_bytes m) = Some (command m)) as -> by exact (of_le32_le32 _ (le32 (arg0 m) ++ t2) H0).
  assert (of_le32 (drop 4 (msg_bytes m)) = Some (arg0 m)) as -> by exact (of_le32_le32 _ t2 H1).
  assert (of_le32 (drop 8 (msg_bytes m)) = Some (arg1 m)) as -> by exact (of_le32_le32 _ t3 H2).
  assert (of_le32 (drop 12 (msg_bytes m)) = Some (data_length m)) as -> by exact (of_le32_le32 _ t4 H3).
  assert (of_le32 (drop 16 (msg_bytes m)) = Some (data_check m)) as -> by exact (of_le32_le32 _ t5 H4).
  assert (of_le32 (drop 20 (msg_bytes m)) = Some (magic m)) as -> by exact (of_le32_le32 _ [] H5).
  cbn. by destruct m.
Qed.

(** ** The reading side *)

(** Received bytes not delivered yet. *)
Definition pending (c : connection) : bytes :=
  match read_header_ c with Some m => msg_bytes m | None => [] end ++ view (read_buffer_ c).

(** What a packet looks like on the wire. *)
Definition packet_bytes (p : apacket) : bytes := msg_bytes (msg p) ++ contents (payload p).

Definition conn_wf (c : connection) : Prop :=
  front_wf (read_buffer_ c) ∧ front_wf (write_buffer_ c) ∧
  (∀ m, read_header_ c = Some m → 0 ≤ data_length m).

Definition packet_ok (p : apacket) : Prop :=
  block_ok (payload p) ∧ data_length (msg p) = size_ (payload p).

Lemma conn_wf_new : conn_wf new_connection.
Proof. split_and!; try done; split; try apply iov_wf_empty; done. Qed.

Section reading.
Context `{Uninit}.

(** [read_header] with a complete header queued. *)
Lemma read_header_take c :
  conn_wf c → read_header_ c = None → sizeof_amessage ≤ llen (view (read_buffer_ c)) →
  ∃ m rb, read_header c = Ok (mkConn (Some m) rb (writable_ c) (write_buffer_ c)) ∧
    msg_of_bytes (ltake sizeof_amessage (view (read_buffer_ c))) = Some m ∧
    msg_bytes m = ltake sizeof_amessage (view (read_buffer_ c)) ∧
    0 ≤ data_length m ∧ front_wf rb ∧ view rb = ldrop sizeof_amessage (view (read_buffer_ c)).
Proof.
  intros (Hr & Hw & _) Hnone Hlen. unfold read_header. rewrite Hnone, size_view by apply Hr.
  rewrite (proj2 (Z.leb_le _ _)) by done.
  destruct (take_front_spec (read_buffer_ c) sizeof_amessage Hr) as (h & rb & -> & Hh & ? & HVh & ?);
    [by split|]. rok.
  destruct (coalesce_move_spec h) as (b & h' & -> & Hb & Hc & _); [apply Hh|]. rok.
  assert (llen (contents b) = sizeof_amessage) as Hl by (rewrite Hc, HVh, llen_ltake; done).
  rewrite llen_contents in Hl by done. rewrite Hl, Z.eqb_refl. cbn [check]. rok.
  rewrite Hc, HVh. destruct (msg_bytes_of_bytes (ltake sizeof_amessage (view (read_buffer_ c))))
    as (m & Hm & ? & ?); [by rewrite llen_ltake|].
  exists m, rb. rewrite Hm. cbn [deref]. rok. split_and!; (done || lia).
Qed.

Lemma read_header_spec c :
  conn_wf c → ∃ c', read_header c = Ok c' ∧ conn_wf c' ∧ pending c' = pending c ∧
    write_buffer_ c' = write_buffer_ c.
Proof.
  intros Hc. destruct (read_header_ c) as [m|] eqn:Hh.
  { unfold read_header. rewrite Hh. by exists c. }
  destruct (decide (sizeof_amessage ≤ llen (view (read_buffer_ c)))) as [Hle|Hgt].
  - destruct (read_header_take c Hc Hh Hle) as (m & rb & -> & _ & Hm & ? & ? & HV).
    eexists; split; [done|]. destruct Hc as (_ & ? & _).
    split; [|split; [|done]].
    + split; [done|]. split; [done|]. by intros ? [= <-].
    + unfold pending. cbn [read_header_ read_buffer_ app]. rewrite Hh, Hm, HV, ltake_ldrop. done.
  - unfold read_header. rewrite Hh, size_view by apply Hc.
    rewrite (proj2 (Z.leb_gt _ _)) by lia. by exists c.
Qed.

(** [read_payload] with a complete payload queued. *)
Lemma read_payload_take c m :
  conn_wf c → read_header_ c = Some m → data_length m ≤ llen (view (read_buffer_ c)) →
  ∃ b rb, read_payload c = Ok (mkConn None rb (writable_ c) (write_buffer_ c), [mkPacket m b]) ∧
    packet_ok (mkPacket m b) ∧ contents b = ltake (data_length m) (view (read_buffer_ c)) ∧
    front_wf rb ∧ view rb = ldrop (data_length m) (view (read_buffer_ c)).
Proof.
  intros (Hr & Hw & Hm) Hh Hlen. specialize (Hm m Hh). unfold read_payload.
  rewrite Hh, size_view by apply Hr. rewrite (proj2 (Z.leb_le _ _)) by done.
  destruct (take_front_spec (read_buffer_ c) (data_length m) Hr) as (h & rb & -> & Hf & ? & HVh & ?);
    [by split|]. rok.
  destruct (coalesce_move_spec h) as (b & h' & -> & Hb & Hc & _); [apply Hf|]. rok.
  rewrite HVh in Hc. exists b, rb. split; [done|]. split; [|done]. split; [done|].
  cbn [msg payload]. rewrite <- (llen_contents b Hb), Hc. symmetry. by apply llen_ltake.
Qed.

Lemma read_payload_spec c :
  conn_wf c → ∃ c' ps, read_payload c = Ok (c', ps) ∧ conn_wf c' ∧
    pending c = concat (packet_bytes <$> ps) ++ pending c' ∧ Forall packet_ok ps ∧
    (length ps ≤ 1)%nat ∧ write_buffer_ c' = write_buffer_ c.
Proof.
  intros Hc. destruct (read_header_ c) as [m|] eqn:Hh.
  2: { unfold read_payload. rewrite Hh. exists c, []. split_and!; (done || (cbn; lia)). }
  destruct (decide (data_length m ≤ llen (view (read_buffer_ c)))) as [Hle|Hgt].
  - destruct (read_payload_take c m Hc Hh Hle) as (b & rb & -> & Hp & Hb & ? & HV).
    do 2 eexists; split; [done|]. destruct Hc as (_ & ? & _).
    split; [by split_and!|]. split; [|by split_and!; [constructor| |]].
    unfold pending, packet_bytes.
    cbn [read_header_ read_buffer_ fmap list_fmap concat msg payload app].
    by rewrite Hh, Hb, HV, app_nil_r, <- app_assoc, ltake_ldrop.
  - unfold read_payload. rewrite Hh, size_view by apply Hc.
    rewrite (proj2 (Z.leb_gt _ _)) by lia. exists c, []. split_and!; (done || (cbn; lia)).
Qed.

(** The block [Run] reads into. *)
Lemma read_block_spec data :
  0 < llen data ≤ MAX_PAYLOAD →
  ∃ b0 b1 b2, allocate empty_block MAX_PAYLOAD = Ok b0 ∧ block_write b0 0 data = Ok b1 ∧
    resize b1 (llen data) = Ok b2 ∧ block_ok b2 ∧ contents b2 = data ∧ size_ b2 = llen data.
Proof.
  intros Hd. unfold allocate. cbn [data_ capacity_ size_ empty_block].
  assert (llen (uninit MAX_PAYLOAD) = MAX_PAYLOAD) as Hu by (apply llen_uninit; done).
  rewrite bool_decide_eq_true_2 by done. cbn [check Z.eqb]. rok.
  eexists _, _, _. split; [done|].
  split; [apply (block_write_data _ (uninit MAX_PAYLOAD)); [done|lia|lia]|].
  unfold resize. cbn [data_ capacity_]. rewrite (proj2 (Z.leb_le _ _)) by lia. cbn [check]. rok.
  split; [done|]. unfold block_ok, contents. cbn [data_ size_ capacity_].
  rewrite ltake_0, Z.add_0_l. cbn [app]. rewrite llen_app, llen_ldrop by lia.
  split_and!; try lia. rewrite ltake_app_le by lia. apply ltake_ge. lia.
Qed.

(** One successful read queues its bytes. *)
Lemma on_pollin_queue c data :
  conn_wf c → 0 < llen data ≤ MAX_PAYLOAD →
  chain_length_ (read_buffer_ c) + MAX_PAYLOAD < 2 ^ 64 →
  ∃ rb, front_wf rb ∧ view rb = view (read_buffer_ c) ++ data ∧
    on_pollin (ReadData data) c =
      (c1 ← read_header (mkConn (read_header_ c) rb (writable_ c) (write_buffer_ c));
       r ← read_payload c1; Ok (inr r)).
Proof.
  intros (Hr & Hw & Hm) Hd Hlt.
  destruct (read_block_spec data Hd) as (b0 & b1 & b2 & E0 & E1 & E2 & Hb & Hc & Hs).
  destruct (append_wf (read_buffer_ c) b2) as (rb & Ha & _ & HV & _ & _ & _ & _ & Hf);
    [apply Hr|done|lia|].
  exists rb. split_and!; [by apply Hf|by rewrite HV, Hc|].
  unfold on_pollin. rewrite E0. rok. rewrite E1. rok. rewrite E2. rok. rewrite Ha. done.
Qed.

Lemma on_pollin_spec c data :
  conn_wf c → 0 < llen data ≤ MAX_PAYLOAD →
  chain_length_ (read_buffer_ c) + MAX_PAYLOAD < 2 ^ 64 →
  ∃ c' ps, on_pollin (ReadData data) c = Ok (inr (c', ps)) ∧ conn_wf c' ∧
    pending c ++ data = concat (packet_bytes <$> ps) ++ pending c' ∧
    Forall packet_ok ps ∧ (length ps ≤ 1)%nat ∧ write_buffer_ c' = write_buffer_ c.
Proof.
  intros Hc Hd Hlt. destruct (on_pollin_queue c data Hc Hd Hlt) as (rb & Hrb & HV & ->).
  destruct Hc as (Hr & Hw & Hm).
  destruct (read_header_spec (mkConn (read_header_ c) rb (writable_ c) (write_buffer_ c)))
    as (c1 & -> & Hc1 & Hp1 & Hw1); [done|]. rok.
  destruct (read_payload_spec c1 Hc1) as (c2 & ps & -> & Hc2 & Hp2 & ? & ? & Hw2). rok.
  exists c2, ps. split_and!; try done; [|by rewrite Hw2, Hw1].
  rewrite <- Hp2, Hp1. unfold pending. cbn [read_header_ read_buffer_].
  by rewrite HV, app_assoc.
Qed.

(** A read that starts with a complete packet on an idle connection delivers it. *)
Lemma on_pollin_packet p rest :
  msg_range (msg p) → packet_ok p → llen (packet_bytes p ++ rest) ≤ MAX_PAYLOAD →
  ∃ c' b, on_pollin (ReadData (packet_bytes p ++ rest)) new_connection
            = Ok (inr (c', [mkPacket (msg p) b])) ∧
    contents b = contents (payload p) ∧ pending c' = rest ∧ read_header_ c' = None.
Proof.
  intros Hm [Hb Hdl] Hlen.
  assert (llen (packet_bytes p) = sizeof_amessage + llen (contents (payload p))) as Hpl
    by (unfold packet_bytes; by rewrite llen_app, llen_msg_bytes).
  assert (llen (contents (payload p)) = data_length (msg p)) as Hcl
    by (by rewrite llen_contents).
  pose proof (llen_nonneg (contents (payload p))). pose proof (llen_nonneg rest).
  unfold sizeof_amessage in *. rewrite llen_app in Hlen.
  destruct (on_pollin_queue new_connection (packet_bytes p ++ rest)) as (rb & Hrb & HV & ->);
    [apply conn_wf_new|rewrite llen_app; lia|done|].
  cbn [read_header_ read_buffer_ new_connection app] in *.
  change (view empty_iov) with (@nil byte) in HV. cbn [app] in HV.
  set (c0 := mkConn None rb _ _).
  assert (conn_wf c0) as Hc0 by (split_and!; try done; apply conn_wf_new).
  destruct (read_header_take c0 Hc0 eq_refl) as (m & rb1 & -> & Hmb & _ & ? & ? & HV1).
  { cbn. rewrite HV, llen_app. unfold sizeof_amessage. lia. }
  rok. cbn [read_buffer_ c0] in *. rewrite HV in *.
  assert (m = msg p) as ->.
  { unfold packet_bytes in Hmb. rewrite <- app_assoc, ltake_app_le in Hmb by done.
    rewrite ltake_ge in Hmb by done. rewrite msg_of_msg_bytes in Hmb by done. naive_solver. }
  assert (view rb1 = contents (payload p) ++ rest) as HV2.
  { rewrite HV1. unfold packet_bytes. rewrite <- app_assoc, ldrop_app_ge by done. done. }
  destruct (read_payload_take (mkConn (Some (msg p)) rb1 (writable_ c0) (write_buffer_ c0)) (msg p))
    as (b & rb2 & -> & _ & Hcb & ? & HV3); cbn [read_buffer_ read_header_].
  { split_and!; [done|apply conn_wf_new|by intros ? [= <-]]. }
  { done. }
  { rewrite HV2, llen_app. lia. }
  rok. do 2 eexists. split; [done|]. cbn [read_buffer_] in *. rewrite HV2 in *.
  split_and!; [..|done].
  - rewrite Hcb, ltake_app_le by lia. apply ltake_ge. lia.
  - unfold pending. cbn [read_header_ read_buffer_ app]. rewrite HV3, ldrop_app_ge by lia. rewrite Hcl, Z.sub_diag. apply ldrop_0.
Qed.
End reading.

(** ** The writing side *)

Section writing.
Context `{Uninit}.

(** [Write] queues the wire form of the packet behind what is queued already. *)
Lemma Write_queue p w c :
  conn_wf c → packet_ok p →
  chain_length_ (write_buffer_ c) + sizeof_amessage + size_ (payload p) < 2 ^ 64 →
  ∃ wb, front_wf wb ∧ view wb = view (write_buffer_ c) ++ packet_bytes p ∧
    chain_length_ wb = chain_length_ (write_buffer_ c) + sizeof_amessage + size_ (payload p) ∧
    Write p w c =
      ('(result, c') ← DispatchWrites w (mkConn (read_header_ c) (read_buffer_ c) (writable_ c) wb);
       Ok (match result with Error => false | _ => true end,
           match result with TryAgain => true | _ => false end, c')).
Proof.
  intros (_ & Hw & _) [Hb _] Hlt. pose proof (block_ok_size _ Hb).
  destruct (block_of_range_spec (msg_bytes (msg p))) as (hb & E0 & Hhb & Hch & Hsh).
  rewrite llen_msg_bytes in Hsh.
  destruct (append_wf (write_buffer_ c) hb) as (wb1 & E1 & Hw1 & HV1 & Hcl1 & _ & _ & _ & Hf1);
    [apply Hw|done|lia|].
  destruct (append_wf wb1 (payload p)) as (wb2 & E2 & _ & HV2 & Hcl2 & _ & _ & _ & Hf2);
    [done|done|lia|].
  exists wb2. split_and!; [by apply Hf2, Hf1| |lia|].
  - unfold packet_bytes. by rewrite HV2, HV1, Hch, app_assoc.
  - unfold Write. rewrite E0. rok. rewrite E1. rok.
    destruct (Z.eqb_spec (size_ (payload p)) 0) as [Ez|_]; [|by rewrite E2; rok].
    unfold append in E2. rewrite Ez in E2. cbn in E2. injection E2 as <-. done.
Qed.

Lemma DispatchWrites_spec rc c :
  conn_wf c → 0 < rc ≤ llen (view (write_buffer_ c)) → rc < 2 ^ 32 →
  ∃ r c', DispatchWrites (Written rc) c = Ok (r, c') ∧ conn_wf c' ∧
    view (write_buffer_ c') = ldrop rc (view (write_buffer_ c)) ∧
    r = (if rc =? llen (view (write_buffer_ c)) then Completed else TryAgain) ∧
    writable_ c' = (rc =? llen (view (write_buffer_ c))) ∧
    read_header_ c' = read_header_ c ∧ read_buffer_ c' = read_buffer_ c.
Proof.
  intros (Hr & Hw & Hm) Hrc H32. unfold DispatchWrites, empty. rewrite size_view by apply Hw.
  rewrite (proj2 (Z.eqb_neq (llen _) 0)) by lia. cbn [negb check]. rok.
  destruct (iovecs_spec (write_buffer_ c)) as (ss & -> & _); [apply Hw|]. rok.
  rewrite (proj2 (Z.eqb_neq rc 0)) by lia.
  destruct (drop_front_spec (write_buffer_ c) rc) as (wb & -> & Hwb & HV & _); [done|lia|done|]. rok.
  assert ((size wb =? 0) = (rc =? llen (view (write_buffer_ c)))) as ->.
  { rewrite size_view by apply Hwb. rewrite HV, llen_ldrop by lia.
    apply Bool.eq_iff_eq_true. rewrite !Z.eqb_eq. lia. }
  by do 2 eexists.
Qed.

Lemma DispatchWrites_again c :
  conn_wf c → view (write_buffer_ c) ≠ [] →
  DispatchWrites WriteEAGAIN c =
    Ok (TryAgain, mkConn (read_header_ c) (read_buffer_ c) false (write_buffer_ c)).
Proof.
  intros (_ & Hw & _) Hne. unfold DispatchWrites, empty. rewrite size_view by apply Hw.
  rewrite (proj2 (Z.eqb_neq (llen _) 0)) by (intros E; by apply Hne, llen_0). cbn [negb check]. rok.
  destruct (iovecs_spec (write_buffer_ c)) as (ss & -> & _); [apply Hw|]. done.
Qed.
End writing.

(** ** The claims *)

(** Framing conserves the stream: whatever [POLLIN] delivers, the bytes pending
    before plus the bytes read are the wire form of the packets handed to [HandleRead]
    followed by the bytes still pending; every packet carries as many payload bytes
    as its header announces, and the connection stays well formed. *)
Theorem on_pollin_conserves `{Uninit} c data :
  conn_wf c → 0 < llen data ≤ MAX_PAYLOAD →
  chain_length_ (read_buffer_ c) + MAX_PAYLOAD < 2 ^ 64 →
  ∃ c' ps, on_pollin (ReadData data) c = Ok (inr (c', ps)) ∧ conn_wf c' ∧
    pending c ++ data = concat (packet_bytes <$> ps) ++ pending c' ∧ Forall packet_ok ps.
Proof.
  intros Hc Hd Hlt. destruct (on_pollin_spec c data Hc Hd Hlt) as (c' & ps & ? & ? & ? & ? & _).
  by exists c', ps.
Qed.

(** Wire round trip: the bytes [Write] puts on the wire for a packet, read back
    on an idle connection, hand over a packet with the same header and payload, and
    whatever follows them in the same read stays pending, even when it is a complete
    packet: the [POLLIN] branch of [Run] hands over at most one packet per read. *)
Theorem packet_roundtrip `{Uninit} p rest :
  msg_range (msg p) → packet_ok p → llen (packet_bytes p ++ rest) ≤ MAX_PAYLOAD →
  ∃ c' b, on_pollin (ReadData (packet_bytes p ++ rest)) new_connection
            = Ok (inr (c', [mkPacket (msg p) b])) ∧
    contents b = contents (payload p) ∧ pending c' = rest ∧ read_header_ c' = None.
Proof. apply on_pollin_packet. Qed.

(** [Write] of a packet of which the kernel accepts [rc] bytes succeeds, and the
    bytes written followed by the bytes still queued are the queue before followed by
    the wire form of the packet: nothing is lost, duplicated or reordered; [Run] is
    woken exactly when bytes are left, and then [writable_] is false. *)
Theorem Write_conserves `{Uninit} p rc c :
  conn_wf c → packet_ok p →
  chain_length_ (write_buffer_ c) + sizeof_amessage + size_ (payload p) < 2 ^ 64 →
  let queue := view (write_buffer_ c) ++ packet_bytes p in
  0 < rc ≤ llen queue → rc < 2 ^ 32 →
  ∃ woken c', Write p (Written rc) c = Ok (true, woken, c') ∧ conn_wf c' ∧
    ltake rc queue ++ view (write_buffer_ c') = queue ∧
    woken = negb (rc =? llen queue) ∧ writable_ c' = negb woken.
Proof.
  intros Hc Hp Hlt queue Hrc H32. destruct (Write_queue p (Written rc) c Hc Hp Hlt) as (wb & Hwb & HV & _ & ->).
  fold queue in HV. destruct Hc as (? & _ & ?).
  destruct (DispatchWrites_spec rc (mkConn (read_header_ c) (read_buffer_ c) (writable_ c) wb))
    as (r & c' & -> & Hc' & HVc & -> & Hwr & _); [done|by cbn [write_buffer_]; rewrite HV|done|]. rok.
  cbn [write_buffer_] in *. rewrite HV in *. exists (negb (rc =? llen queue)), c'.
  split; [by destruct (rc =? llen queue)|].
  rewrite HVc, ltake_ldrop, Hwr, negb_involutive. done.
Qed.

(** The [Run] thread and a caller of [Write] can abort the process: [Run] sees
    [writable_ == false] and polls for [POLLOUT]; before it takes the mutex again a
    [Write] drains the whole queue; [DispatchWrites] then fails its
    [CHECK(!write_buffer_.empty())]. *)
Theorem run_write_race `{Uninit} :
  ∃ c, rtc run_write_step (Idle, new_connection) (Aborted, c).
Proof.
  set (p := mkPacket (mkMsg 0 0 0 0 0 0) empty_block).
  assert (packet_ok p) as Hp by done.
  destruct (Write_queue p WriteEAGAIN new_connection) as (wb & Hwb & HV & Hcl & HW);
    [apply conn_wf_new|done..|].
  change (view (write_buffer_ new_connection)) with (@nil byte) in HV.
  rewrite DispatchWrites_again in HW; [|by split_and!; try apply conn_wf_new|].
  2: { cbn [write_buffer_]. rewrite HV. done. }
  set (c2 := mkConn None empty_iov false wb).
  change (Write p WriteEAGAIN new_connection = Ok (true, true, c2)) in HW.
  assert (conn_wf c2) as Hc2 by (split_and!; try done; apply conn_wf_new).
  destruct (Write_queue p (Written 48) c2 Hc2 Hp) as (wb2 & Hwb2 & HV2 & _ & HW2);
    [cbn [c2 write_buffer_]; rewrite Hcl; done|].
  cbn [c2 write_buffer_] in HV2. rewrite HV in HV2.
  destruct (DispatchWrites_spec 48 (mkConn None empty_iov false wb2))
    as (r & c3 & HD & Hc3 & HV3 & Hr & _).
  { split_and!; try done; apply conn_wf_new. }
  { cbn [write_buffer_]. by rewrite HV2. }
  { done. }
  cbn [write_buffer_] in *. rewrite HV2 in *. cbn in Hr. subst r.
  cbn [c2 read_header_ read_buffer_ writable_] in HW2. rewrite HD in HW2.
  change (Write p (Written 48) c2 = Ok (true, false, c3)) in HW2.
  assert (DispatchWrites (Written 1) c3 = Fatal) as Habort.
  { unfold DispatchWrites, empty. rewrite size_view by apply Hc3. by rewrite HV3. }
  exists c3. apply rtc_l with (Idle, c2); [by eapply step_write|].
  apply rtc_l with (Polling true, c2); [apply (step_events c2)|].
  apply rtc_l with (Ready true, c2); [by apply step_poll|].
  apply rtc_l with (Ready true, c3); [by eapply step_write|].
  apply rtc_once. by eapply step_dispatch_abort.
Qed.

(** A CLSE packet with a two-byte payload, for the witnesses. *)
Definition demo_packet : apacket :=
  mkPacket (mkMsg 0x45534c43 1 2 2 0 0xbaacb3bc) (mkBlock (Some (txt "hi")) 2 2).

Lemma on_pollin_conserves_witness :
  ∃ c' ps, @on_pollin zero_heap (ReadData (txt "abc")) new_connection = Ok (inr (c', ps)) ∧
    txt "abc" = concat (packet_bytes <$> ps) ++ pending c'.
Proof.
  destruct (@on_pollin_conserves zero_heap new_connection (txt "abc"))
    as (c' & ps & Ho & _ & Hp & _); [apply conn_wf_new|done|done|].
  exists c', ps. split; [exact Ho|exact Hp].
Defined.

Lemma packet_roundtrip_witness :
  ∃ c' b, @on_pollin zero_heap (ReadData (packet_bytes demo_packet ++ packet_bytes demo_packet))
            new_connection = Ok (inr (c', [mkPacket (msg demo_packet) b])) ∧
    contents b = txt "hi" ∧ pending c' = packet_bytes demo_packet.
Proof.
  destruct (@packet_roundtrip zero_heap demo_packet (packet_bytes demo_packet))
    as (c' & b & Ho & Hc & Hp & _); [done|done|done|].
  exists c', b. split; [exact Ho|]. split; [rewrite Hc; reflexivity|exact Hp].
Defined.

Lemma Write_conserves_witness :
  ∃ woken c', @Write zero_heap demo_packet (Written 20) new_connection = Ok (true, woken, c') ∧
    woken = true ∧ view (write_buffer_ c') = ldrop 20 (packet_bytes demo_packet).
Proof.
  destruct (@Write_conserves zero_heap demo_packet 20 new_connection)
    as (woken & c' & Ho & _ & Hq & Hw & _); [apply conn_wf_new|done|done|done|done|].
  exists woken, c'. split; [exact Ho|]. split; [by rewrite Hw|].
  rewrite <- (ltake_ldrop 20 (view (write_buffer_ new_connection) ++ packet_bytes demo_packet)) in Hq.
  by apply app_inv_head in Hq.
Defined.
