(* ===== verification/Fdevent.v ===== *)
(** * The event loop

    Models adb/fdevent (fdevent.cpp, fdevent.h and the epoll back end of
    fdevent_epoll.cpp) and the thread that runs the loop (AdbManager::start, stop and
    eventLoopThread of adb/lib/src/AdbManager.cpp).

    An [fdevent] lives in a node of the map [installed_fdevents_]; a pointer to one is an
    address in [heap], and a use of an address that is not there is [Undef].  The function
    [malloc] picks the address of a new node; it may give out an address again that was
    freed.  The kernel's part of [ctx] is [interest], the interest list of the epoll
    instance, and [counter], the value of the eventfd behind the interrupt; what
    epoll_wait may answer for them is [epoll_wait_ok], after epoll(7) and eventfd(2).

    Threads interleave freely; [step] is what one thread does next.  A handler or a queued
    function is a program point at which the client may make any call of the interface
    and then returns.  A crash remembers who caused it.  [submitted] and [ran] are
    histories of the functions passed to [Run] and of those the loop called.

    Times are in nanoseconds of the steady clock, timeouts in milliseconds. *)

From stdpp Require Import sorting.
From S2P Require Import Prelude.

Abbreviation addr := nat (only parsing).

Definition EPOLLIN : Z := 1.
Definition EPOLLOUT : Z := 4.
Definition EPOLLERR : Z := 8.
Definition EPOLLHUP : Z := 16.
Definition EPOLLRDHUP : Z := 8192.

Definition has (events bit : Z) : bool := negb (Z.land events bit =? 0).

Section fdevent.
Context {F T : Type}.
Context (malloc : gset addr → addr).

(** ** Data *)

Inductive fn := fdevent_interrupt_fn | client_fn (f : F).
(** std::variant<fd_func, fd_func2> *)
Inductive fn_variant := fd_func (f : fn) | fd_func2 (f : fn).

Record fdevent := mkFde {
  fde_id : Z;
  fde_fd : Z;
  fde_state : Z;
  fde_timeout : option Z;
  last_active : Z;
  fde_func : fn_variant;
  fde_arg : Z
}.
Definition set_state v f :=
  mkFde (fde_id f) (fde_fd f) v (fde_timeout f) (last_active f) (fde_func f) (fde_arg f).
Definition set_times t now f :=
  mkFde (fde_id f) (fde_fd f) (fde_state f) t now (fde_func f) (fde_arg f).

Record ctx := mkCtx {
  heap : gmap addr fdevent;
  installed_fdevents : gmap Z addr;
  fdevent_set : gset addr;
  fdevent_id : Z;
  looper_thread_id : option nat;
  terminate_loop : bool;
  run_queue : list T;
  interest : gmap Z (Z * addr);
  interrupt_fd : Z;
  counter : Z
}.
Definition set_nodes h i s n c :=
  mkCtx h i s n (looper_thread_id c) (terminate_loop c) (run_queue c) (interest c) (interrupt_fd c) (counter c).
Definition set_fde a f c :=
  set_nodes (<[a := f]> (heap c)) (installed_fdevents c) (fdevent_set c) (fdevent_id c) c.
Definition set_interest i c :=
  mkCtx (heap c) (installed_fdevents c) (fdevent_set c) (fdevent_id c) (looper_thread_id c)
    (terminate_loop c) (run_queue c) i (interrupt_fd c) (counter c).
Definition set_looper l b c :=
  mkCtx (heap c) (installed_fdevents c) (fdevent_set c) (fdevent_id c) l b (run_queue c) (interest c)
    (interrupt_fd c) (counter c).
Definition set_run_queue q c :=
  mkCtx (heap c) (installed_fdevents c) (fdevent_set c) (fdevent_id c) (looper_thread_id c)
    (terminate_loop c) q (interest c) (interrupt_fd c) (counter c).
Definition set_counter n c :=
  mkCtx (heap c) (installed_fdevents c) (fdevent_set c) (fdevent_id c) (looper_thread_id c)
    (terminate_loop c) (run_queue c) (interest c) (interrupt_fd c) n.

(** ** Registration with epoll (fdevent_epoll.cpp) *)

Definition calculate_epoll_event (state : Z) : Z :=
  Z.lor (Z.lor (Z.lor (if has state FDE_READ then EPOLLIN else 0)
                      (if has state FDE_WRITE then EPOLLOUT else 0))
               (if has state FDE_ERROR then EPOLLERR else 0))
        EPOLLRDHUP.

(** [accepted] is whether the kernel lets the descriptor be watched; one that is
    already watched is refused (EEXIST). *)
Definition Register (a : addr) (accepted : bool) (c : ctx) : res ctx :=
  f ← deref (heap c !! a);
  _ ← check (accepted && bool_decide (interest c !! fde_fd f = None));
  Ok (set_interest (<[fde_fd f := (calculate_epoll_event (fde_state f), a)]> (interest c)) c).

Definition Unregister (a : addr) (c : ctx) : res ctx :=
  f ← deref (heap c !! a);
  _ ← check (bool_decide (is_Some (interest c !! fde_fd f)));
  Ok (set_interest (delete (fde_fd f) (interest c)) c).

Definition Set_ (a : addr) (events : Z) (c : ctx) : res ctx :=
  f ← deref (heap c !! a);
  let c := set_fde a (set_state (events mod 2 ^ 16) f) c in
  if Z.ldiff (fde_state f) FDE_TIMEOUT =? Z.ldiff events FDE_TIMEOUT then Ok c else
  _ ← check (bool_decide (is_Some (interest c !! fde_fd f)));
  Ok (set_interest (<[fde_fd f := (calculate_epoll_event (events mod 2 ^ 16), a)]> (interest c)) c).

(** ** The operations of fdevent.cpp *)

Definition on_looper (t : nat) (c : ctx) : bool :=
  match looper_thread_id c with Some l => bool_decide (l = t) | None => true end.
Definition CheckLooperThread (t : nat) (c : ctx) : res unit := check (on_looper t c).

Definition Create (t : nat) (fd : Z) (func : fn_variant) (arg : Z) (accepted : bool) (c : ctx) :
    res (addr * ctx) :=
  _ ← CheckLooperThread t c;
  _ ← check (0 <=? fd);
  _ ← check (bool_decide (installed_fdevents c !! fd = None));
  let a := malloc (dom (heap c)) in
  let f := mkFde (fdevent_id c) fd 0 None 0 func arg in
  let c := set_nodes (<[a := f]> (heap c)) (<[fd := a]> (installed_fdevents c)) ({[a]} ∪ fdevent_set c)
             (u64 (fdevent_id c + 1)) c in
  c ← Register a accepted c;
  Ok (a, c).

(** [Destroy]; the result is the descriptor, which goes to the caller. *)
Definition Destroy (t : nat) (p : option addr) (c : ctx) : res (option Z * ctx) :=
  _ ← CheckLooperThread t c;
  match p with
  | None => Ok (None, c)
  | Some a =>
      c ← Unregister a c;
      f ← deref (heap c !! a);
      node ← (match installed_fdevents c !! fde_fd f with Some n => Ok n | None => Fatal end);
      _ ← check (bool_decide (a ∈ fdevent_set c));
      Ok (Some (fde_fd f),
          set_nodes (delete node (heap c)) (delete (fde_fd f) (installed_fdevents c))
            (fdevent_set c ∖ {[a]}) (fdevent_id c) c)
  end.

Definition Add (a : addr) (events : Z) (c : ctx) : res ctx :=
  _ ← check (negb (has events FDE_TIMEOUT));
  f ← deref (heap c !! a);
  Set_ a (Z.lor (fde_state f) events) c.

Definition Del (a : addr) (events : Z) (c : ctx) : res ctx :=
  _ ← check (negb (has events FDE_TIMEOUT));
  f ← deref (heap c !! a);
  Set_ a (Z.ldiff (fde_state f) events) c.

Definition SetTimeout (t : nat) (a : addr) (timeout : option Z) (now : Z) (c : ctx) : res ctx :=
  _ ← CheckLooperThread t c;
  f ← deref (heap c !! a);
  Ok (set_fde a (set_times timeout now f) c).

Definition InstalledCount (c : ctx) : Z := Z.of_nat (size (installed_fdevents c)) - 1.

(** The order in which std::map<int, fdevent> is walked. *)
Definition by_fd (p q : Z * addr) : Prop := p.1 ≤ q.1.
#[global] Instance by_fd_dec p q : Decision (by_fd p q).
Proof. unfold by_fd. apply _. Defined.
Definition in_order (m : gmap Z addr) : list (Z * addr) := merge_sort by_fd (map_to_list m).

Definition ms : Z := 1000000.
Definition deadline (f : fdevent) (timeout : Z) : Z := last_active f + timeout * ms.

(** The time left, in whole milliseconds: duration_cast truncates. *)
Definition time_left (f : fdevent) (timeout now : Z) : Z :=
  let left := Z.quot (deadline f timeout - now) ms in if left <? 0 then 0 else left.

Fixpoint poll_duration (l : list (Z * addr)) (now : Z) (c : ctx) (result : option Z) : res (option Z) :=
  match l with
  | [] => Ok result
  | (_, a) :: l =>
      f ← deref (heap c !! a);
      poll_duration l now c
        (match fde_timeout f with
         | Some timeout =>
             let left := time_left f timeout now in
             Some (match result with Some r => Z.min r left | None => left end)
         | None => result
         end)
  end.
Definition CalculatePollDuration (t : nat) (now : Z) (c : ctx) : res (option Z) :=
  _ ← CheckLooperThread t c;
  poll_duration (in_order (installed_fdevents c)) now c None.

(** ** One turn of the loop: from the answer of epoll_wait to the events to handle *)

(** [event_map] points into [fde_events], whose capacity is [reserved] at least: the
    pointers are lost when it has to grow past that. *)
Definition emplace_back (reserved : Z) (e : addr * Z) (fde_events : list (addr * Z)) : res (list (addr * Z)) :=
  if llen fde_events <? reserved then Ok (fde_events ++ [e]) else Undef.

Definition translate_events (ev : Z) : Z :=
  Z.lor (Z.lor (if has ev EPOLLIN then FDE_READ else 0) (if has ev EPOLLOUT then FDE_WRITE else 0))
        (if has ev (Z.lor (Z.lor EPOLLERR EPOLLHUP) EPOLLRDHUP) then Z.lor FDE_READ FDE_ERROR else 0).

Fixpoint polled_events (reserved : Z) (answer : list (Z * addr)) (post_poll : Z)
    (fde_events : list (addr * Z)) (event_map : gmap addr nat) (c : ctx) :
    res (list (addr * Z) * gmap addr nat * ctx) :=
  match answer with
  | [] => Ok (fde_events, event_map, c)
  | (ev, a) :: answer =>
      f ← deref (heap c !! a);
      _ ← check (negb (has ev EPOLLIN) || has (fde_state f) FDE_READ);
      _ ← check (negb (has ev EPOLLOUT) || has (fde_state f) FDE_WRITE);
      evs ← emplace_back reserved (a, translate_events ev) fde_events;
      polled_events reserved answer post_poll evs (<[a := length fde_events]> event_map)
        (set_fde a (set_times (fde_timeout f) post_poll f) c)
  end.

Fixpoint timed_out_events (reserved : Z) (l : list (Z * addr)) (post_poll : Z)
    (fde_events : list (addr * Z)) (event_map : gmap addr nat) (c : ctx) :
    res (list (addr * Z) * ctx) :=
  match l with
  | [] => Ok (fde_events, c)
  | (_, a) :: l =>
      f ← deref (heap c !! a);
      events ← (match event_map !! a with
                | Some i => e ← deref (fde_events !! i); Ok e.2
                | None => Ok 0
                end);
      match (if events =? 0 then fde_timeout f else None) with
      | Some timeout =>
          if deadline f timeout <? post_poll then
            evs ← emplace_back reserved (a, FDE_TIMEOUT) fde_events;
            timed_out_events reserved l post_poll evs event_map
              (set_fde a (set_times (fde_timeout f) post_poll f) c)
          else timed_out_events reserved l post_poll fde_events event_map c
      | None => timed_out_events reserved l post_poll fde_events event_map c
      end
  end.

Definition collect_events (answer : list (Z * addr)) (post_poll : Z) (c : ctx) :
    res (list (addr * Z) * ctx) :=
  let reserved := Z.of_nat (size (installed_fdevents c)) in
  '(evs, event_map, c) ← polled_events reserved answer post_poll [] ∅ c;
  timed_out_events reserved (in_order (installed_fdevents c)) post_poll evs event_map c.

(** ** What the kernel may answer

    An answer is a list of watched descriptors with the events that are ready; the
    kernel fills in the pointer that was registered with each. *)

(** Events that were asked for, or an error or hang-up; the eventfd is readable while its
    counter is not zero, and nothing else. *)
Definition entry_ok (c : ctx) (e : Z * Z) : bool :=
  match interest c !! e.1 with
  | Some (mask, _) =>
      negb (e.2 =? 0) &&
      (Z.land e.2 (Z.lor mask (Z.lor EPOLLERR EPOLLHUP)) =? e.2) &&
      (negb (e.1 =? interrupt_fd c) || ((e.2 =? EPOLLIN) && (0 <? counter c)))
  | None => false
  end.
Definition interrupt_ready (c : ctx) : bool :=
  (0 <? counter c) &&
  match interest c !! interrupt_fd c with Some (mask, _) => has mask EPOLLIN | None => false end.

Definition epoll_wait_ok (maxevents timeout : Z) (l : list (Z * Z)) (c : ctx) : bool :=
  bool_decide (NoDup l.*1) && (llen l <=? maxevents) && forallb (entry_ok c) l &&
  (negb (timeout =? -1) || negb (bool_decide (l = []))) &&
  (negb (interrupt_ready c) || (llen l =? maxevents) || bool_decide (interrupt_fd c ∈ l.*1)).

Definition with_pointers (c : ctx) (l : list (Z * Z)) : list (Z * addr) :=
  omap (λ e, match interest c !! e.1 with Some (_, a) => Some (e.2, a) | None => None end) l.

(** ** The context *)

(** The constructor of fdevent_context_epoll, on the descriptor [fd] of a new eventfd;
    [interrupt_fde_] is left null. *)
Definition fdevent_context_epoll (t : nat) (fd : Z) : res ctx :=
  '(a, c) ← Create t fd (fd_func fdevent_interrupt_fn) 0 true
     (mkCtx ∅ ∅ ∅ 0 None false [] ∅ fd 0);
  Add a FDE_READ c.
Definition interrupt_fde : option addr := None.
Definition fdevent_context_epoll_destructor (t : nat) (c : ctx) : res ctx :=
  '(_, c) ← Destroy t interrupt_fde c; Ok c.

(** ** Threads *)

(** What a call through the function pointer of an fdevent passes. *)
Inductive invocation :=
  | call_fd (f : fn) (fd : Z) (events : Z) (arg : Z)
  | call_fde (f : fn) (a : addr) (events : Z) (arg : Z).
Definition invoke_fde (a : addr) (f : fdevent) (events : Z) : invocation :=
  match fde_func f with
  | fd_func g => call_fd g (fde_fd f) events (fde_arg f)
  | fd_func2 g => call_fde g a events (fde_arg f)
  end.
Definition callee (i : invocation) : fn :=
  match i with call_fd g _ _ _ => g | call_fde g _ _ _ => g end.

Inductive api :=
  | ACreate (fd : Z) (two : bool) (f : F) (arg : Z) (accepted : bool)
  | ADestroy (p : option addr)
  | ASet (a : addr) (events : Z)
  | AAdd (a : addr) (events : Z)
  | ADel (a : addr) (events : Z)
  | ASetTimeout (a : addr) (timeout : option Z) (now : Z)
  | ARun (task : T)
  | ATerminate
  | AStart
  | AStop.

(** [n] is the size of the loop's buffer [epoll_events]; [k] is where a thread goes on
    when a call returns. *)
Inductive pc :=
  | Idle
  | Interrupting (k : pc)
  | LEnter
  | LTop (n : Z)
  | LPoll (n : Z)
  | LWait (n timeout : Z)
  | LDispatch (n : Z) (events : list (addr * Z))
  | LHandler (n : Z) (i : invocation) (events : list (addr * Z))
  | LFlush (n : Z)
  | LTask (n : Z) (task : T)
  | StartSpawn
  | StopClosing
  | StopTerminate
  | StopJoin
  | Exited.

(** [by_client]: the process aborts or is undefined because of the arguments of a call,
    the thread it is made on, or two managers' calls at once; [eventfd_full]: 2^64 - 2
    interrupts before the loop reads one. *)
Inductive culprit := by_client | by_loop | eventfd_full.

Record sys := mkSys {
  the_ctx : ctx;
  threads : gmap nat pc;
  next_tid : nat;
  is_running : bool;
  event_thread : option nat;
  crash : option culprit;
  submitted : list T;
  ran : list T
}.
Definition at_pc t p c st :=
  mkSys c (<[t := p]> (threads st)) (next_tid st) (is_running st) (event_thread st) (crash st)
    (submitted st) (ran st).
Definition crashed w st :=
  mkSys (the_ctx st) (threads st) (next_tid st) (is_running st) (event_thread st) (Some w)
    (submitted st) (ran st).

(** Goes to [p] with the state of a computation that returns. *)
Definition proceed {A} (w : culprit) (t : nat) (r : res A) (p : A → pc) (c : A → ctx) (st : sys) : sys :=
  match r with
  | Ok a => at_pc t (p a) (c a) st
  | _ => crashed w st
  end.

(** The calls that work on fdevents. *)
Definition touch (t : nat) (a : api) (c : ctx) : option (res ctx) :=
  match a with
  | ACreate fd two f arg accepted =>
      Some ('(_, c) ← Create t fd (if two : bool then fd_func2 (client_fn f) else fd_func (client_fn f))
                        arg accepted c; Ok c)
  | ADestroy p => Some ('(_, c) ← Destroy t p c; Ok c)
  | ASet a events => Some (Set_ a events c)
  | AAdd a events => Some (Add a events c)
  | ADel a events => Some (Del a events c)
  | ASetTimeout a timeout now => Some (SetTimeout t a timeout now c)
  | ARun _ | ATerminate | AStart | AStop => None
  end.

(** A call by a client at the program point [k].  While the loop runs, only its thread may
    touch fdevents: on another thread, [CheckLooperThread] aborts, and [Set] is a race.
    [Run] goes up to the end of its critical section, [TerminateLoop] up to its call of
    [Interrupt], and the manager's [start] and [stop] up to their first look at [is_running_]. *)
Definition begin_call (t : nat) (a : api) (k : pc) (st : sys) : option sys :=
  let c := the_ctx st in
  match touch t a c, a with
  | Some r, _ => Some (proceed by_client t (if on_looper t c then r else Fatal) (λ _, k) id st)
  | None, ARun task =>
      Some (mkSys (set_run_queue (run_queue c ++ [task]) c) (<[t := Interrupting k]> (threads st))
              (next_tid st) (is_running st) (event_thread st) (crash st) (submitted st ++ [task]) (ran st))
  | None, ATerminate => Some (at_pc t (Interrupting k) (set_looper (looper_thread_id c) true c) st)
  | None, AStart =>
      match k with
      | Idle => Some (at_pc t (if is_running st then Idle else StartSpawn) c st)
      | _ => None
      end
  | None, AStop =>
      match k with
      | Idle => Some (at_pc t (if is_running st then StopClosing else Idle) c st)
      | _ => None
      end
  | None, _ => None
  end.

Inductive action :=
  | Call (a : api)                              (** a client makes a call *)
  | Return                                      (** a handler or a queued function returns *)
  | Go (now : Z)                                (** the next step of the code *)
  | Answer (l : list (Z * Z)) (now : Z)         (** epoll_wait returns *)
  | Eintr.                                      (** epoll_wait is interrupted by a signal *)

(** A client may not name the interrupt's fdevent: the pointer is in a private field. *)
Definition names (a : api) : option addr :=
  match a with
  | ADestroy p => p
  | ASet a _ | AAdd a _ | ADel a _ | ASetTimeout a _ _ => Some a
  | _ => None
  end.
Definition interrupt_addr (c : ctx) : option addr := installed_fdevents c !! interrupt_fd c.
Definition may_name (a : api) (c : ctx) : bool :=
  match names a, interrupt_addr c with
  | Some x, Some y => negb (bool_decide (x = y))
  | _, _ => true
  end.

Definition Interrupt (t : nat) (k : pc) (st : sys) : sys :=
  let c := the_ctx st in
  if counter c + 1 <? 2 ^ 64 - 1 then at_pc t k (set_counter (counter c + 1) c) st
  else crashed eventfd_full st.

(** HandleEvents: the next event, if its fdevent is still installed. *)
Definition handle_next (t : nat) (n : Z) (events : list (addr * Z)) (st : sys) : sys :=
  let c := the_ctx st in
  match events with
  | [] => at_pc t (LFlush n) c st
  | (a, ev) :: events =>
      if bool_decide (a ∈ fdevent_set c)
      then proceed by_loop t (deref (heap c !! a)) (λ f, LHandler n (invoke_fde a f ev) events) (λ _, c) st
      else at_pc t (LDispatch n events) c st
  end.

(** [fdevent_interrupt] reads the eventfd, which resets it; there is nothing to read (EAGAIN)
    when the counter is zero, and that is fatal. *)
Definition fdevent_interrupt (t : nat) (n : Z) (events : list (addr * Z)) (st : sys) : sys :=
  let c := the_ctx st in
  if counter c =? 0 then crashed by_loop st else at_pc t (LDispatch n events) (set_counter 0 c) st.

(** FlushRunQueue takes one function under the lock. *)
Definition flush_next (t : nat) (n : Z) (st : sys) : sys :=
  let c := the_ctx st in
  match run_queue c with
  | [] => at_pc t (LTop n) c st
  | task :: q =>
      mkSys (set_run_queue q c) (<[t := LTask n task]> (threads st)) (next_tid st) (is_running st)
        (event_thread st) (crash st) (submitted st) (ran st ++ [task])
  end.

(** The start of a turn: the loop ends, or its buffer grows to the number of fdevents. *)
Definition loop_top (t : nat) (n : Z) (st : sys) : sys :=
  let c := the_ctx st in
  if terminate_loop c then at_pc t Exited (set_looper None true c) st
  else at_pc t (LPoll (Z.max n (Z.of_nat (size (installed_fdevents c))))) c st.

Definition timeout_ms (d : option Z) : Z := match d with Some d => s32 d | None => -1 end.

(** The end of AdbManager::start: the event thread is created.  Assigning to a std::thread that is
    still joinable ends the process. *)
Definition AdbManager_spawn (t : nat) (st : sys) : sys :=
  match event_thread st with
  | Some _ => crashed by_client st
  | None =>
      mkSys (the_ctx st) (<[t := Idle]> (<[next_tid st := LEnter]> (threads st))) (S (next_tid st)) true
        (Some (next_tid st)) (crash st) (submitted st) (ran st)
  end.

(** The end of AdbManager::stop, which waits until the event thread has ended. *)
Definition AdbManager_join (t : nat) (st : sys) : option sys :=
  match event_thread st with
  | None => Some (at_pc t Idle (the_ctx st) st)
  | Some w =>
      match threads st !! w with
      | Some Exited =>
          Some (mkSys (the_ctx st) (<[t := Idle]> (threads st)) (next_tid st) (is_running st) None
                  (crash st) (submitted st) (ran st))
      | _ => None
      end
  end.

(** The next step of the code at [p].  In AdbManager::stop, the closing of the devices (what
    the client does at [StopClosing]) is followed by is_running_ = false, TerminateLoop and the join. *)
Definition go (t : nat) (p : pc) (now : Z) (st : sys) : option sys :=
  let c := the_ctx st in
  match p with
  | Interrupting k => Some (Interrupt t k st)
  | LEnter =>
      Some (match looper_thread_id c with
            | Some _ => crashed by_client st
            | None => at_pc t (LTop 0) (set_looper (Some t) false c) st
            end)
  | LTop n => Some (loop_top t n st)
  | LPoll n =>
      Some (proceed by_loop t (CalculatePollDuration t now c) (λ d, LWait n (timeout_ms d)) (λ _, c) st)
  | LWait n _ => if n <=? 0 then Some (crashed by_loop st) else None
  | LDispatch n events => Some (handle_next t n events st)
  | LHandler n i events =>
      match callee i with
      | fdevent_interrupt_fn => Some (fdevent_interrupt t n events st)
      | client_fn _ => None
      end
  | LFlush n => Some (flush_next t n st)
  | StartSpawn => Some (AdbManager_spawn t st)
  | StopClosing =>
      Some (mkSys c (<[t := StopTerminate]> (threads st)) (next_tid st) false (event_thread st)
              (crash st) (submitted st) (ran st))
  | StopTerminate => Some (at_pc t (Interrupting StopJoin) (set_looper (looper_thread_id c) true c) st)
  | StopJoin => AdbManager_join t st
  | Idle | LTask _ _ | Exited => None
  end.

Definition client_at (p : pc) : bool :=
  match p with
  | Idle | StopClosing | LTask _ _ => true
  | LHandler _ i _ => match callee i with client_fn _ => true | fdevent_interrupt_fn => false end
  | _ => false
  end.

Definition step (t : nat) (a : action) (st : sys) : option sys :=
  match crash st, threads st !! t with
  | None, Some p =>
      match a with
      | Call x => if client_at p && may_name x (the_ctx st) then begin_call t x p st else None
      | Return =>
          match p with
          | LHandler n i events => if client_at p then Some (at_pc t (LDispatch n events) (the_ctx st) st) else None
          | LTask n _ => Some (at_pc t (LFlush n) (the_ctx st) st)
          | _ => None
          end
      | Go now => go t p now st
      | Answer l now =>
          match p with
          | LWait n timeout =>
              let c := the_ctx st in
              if (0 <? n) && epoll_wait_ok n timeout l c then
                Some (proceed by_loop t (collect_events (with_pointers c l) now c)
                        (λ r, LDispatch n r.1) (λ r, r.2) st)
              else None
          | _ => None
          end
      | Eintr => match p with LWait n _ => if 0 <? n then Some (at_pc t (LPoll n) (the_ctx st) st) else None
                 | _ => None end
      end
  | _, _ => None
  end.

Fixpoint run_trace (tr : list (nat * action)) (st : sys) : option sys :=
  match tr with
  | [] => Some st
  | (t, a) :: tr => st' ← step t a st; run_trace tr st'
  end.

(** A process whose first use of the loop created the context, with [n] client threads. *)
Definition init (n : nat) (c : ctx) : sys :=
  mkSys c (list_to_map ((λ t, (t, Idle)) <$> seq 0 n)) n false None None [] [].

Inductive reachable (n : nat) : sys → Prop :=
  | reach_init fd c : fdevent_context_epoll 0 fd = Ok c → reachable n (init n c)
  | reach_step st st' t a : reachable n st → step t a st = Some st' → reachable n st'.

End fdevent.
