(* ===== verification/FdeventInv.v ===== *)
(** * The event loop is safe

    The nodes of the map, the set of pointers and the interest list of epoll agree
    ([ctx_ok]); every operation keeps them so, and in every state the threads can reach
    the loop itself neither aborts nor touches a freed fdevent, loses no wake-up and runs
    the queued functions in order.  [collect_events] is compared with a specification of
    the events of one turn.  The last section has runs that end badly. *)

From stdpp Require Import sorting.
From S2P Require Import Prelude Fdevent.

(** ** Bits *)

Lemma has_lor ev a b : has ev (Z.lor a b) = has ev a || has ev b.
Proof.
  unfold has. rewrite Z.land_lor_distr_r. destruct (Z.eqb_spec (Z.land ev a) 0) as [->|Ha].
  - by rewrite Z.lor_0_l.
  - cbn. apply negb_true_iff, Z.eqb_neq. intros [? _]%Z.lor_eq_0_iff. done.
Qed.

Lemma has_testbit z k : 0 ≤ k → has z (2 ^ k) = Z.testbit z k.
Proof.
  intros Hk. unfold has. destruct (Z.testbit z k) eqn:E.
  - apply negb_true_iff, Z.eqb_neq. intros H0.
    assert (Z.testbit (Z.land z (2 ^ k)) k = false) as H1 by (rewrite H0; apply Z.bits_0).
    rewrite Z.land_spec, Z.pow2_bits_true, E in H1; done.
  - apply negb_false_iff, Z.eqb_eq. apply Z.bits_inj'. intros n Hn. rewrite Z.bits_0, Z.land_spec.
    destruct (decide (n = k)) as [->|]; [by rewrite E|]. rewrite Z.pow2_bits_false by done. apply andb_false_r.
Qed.

Lemma has_lor_l a b k : 0 ≤ k → has (Z.lor a b) (2 ^ k) = has a (2 ^ k) || has b (2 ^ k).
Proof. intros. rewrite !has_testbit by done. apply Z.lor_spec. Qed.

Lemma has_mod z n k : 0 ≤ k < n → has (z mod 2 ^ n) (2 ^ k) = has z (2 ^ k).
Proof. intros. rewrite !has_testbit by lia. apply Z.mod_pow2_bits_low. lia. Qed.

Lemma has_ldiff z m k : 0 ≤ k → Z.testbit m k = false → has (Z.ldiff z m) (2 ^ k) = has z (2 ^ k).
Proof. intros ? Hm. rewrite !has_testbit by done. rewrite Z.ldiff_spec, Hm. apply andb_true_r. Qed.

(** Two states that differ in FDE_TIMEOUT only ask epoll for the same. *)
Lemma calculate_same x y :
  Z.ldiff x FDE_TIMEOUT = Z.ldiff y FDE_TIMEOUT →
  calculate_epoll_event x = calculate_epoll_event (y mod 2 ^ 16).
Proof.
  intros Hxy. assert (∀ k, 0 ≤ k < 16 → Z.testbit FDE_TIMEOUT k = false →
    has x (2 ^ k) = has (y mod 2 ^ 16) (2 ^ k)) as Hb.
  { intros k Hk Ht. assert (0 ≤ k) by lia.
    rewrite has_mod by done. by rewrite <- (has_ldiff x FDE_TIMEOUT), Hxy, has_ldiff by done. }
  unfold calculate_epoll_event. change FDE_READ with (2 ^ 0). change FDE_WRITE with (2 ^ 1). change FDE_ERROR with (2 ^ 2).
  by rewrite !Hb by (lia || done).
Qed.

Lemma calculate_in st : has (calculate_epoll_event st) EPOLLIN = has st FDE_READ.
Proof.
  unfold calculate_epoll_event. change EPOLLIN with (2 ^ 0). rewrite !has_lor_l by lia.
  by repeat case_match.
Qed.
Lemma calculate_out st : has (calculate_epoll_event st) EPOLLOUT = has st FDE_WRITE.
Proof.
  unfold calculate_epoll_event. change EPOLLOUT with (2 ^ 2). rewrite !has_lor_l by lia.
  by repeat case_match.
Qed.

Lemma land_sub ev m k : 0 ≤ k → Z.land ev m = ev → has ev (2 ^ k) = true → has m (2 ^ k) = true.
Proof.
  intros Hk He. rewrite !has_testbit by done. rewrite <- He at 1. rewrite Z.land_spec. by intros [_ ?]%andb_prop.
Qed.

(** An event that epoll reports is one that the loop translates. *)
Lemma translate_nonzero st ev :
  Z.land ev (Z.lor (calculate_epoll_event st) (Z.lor EPOLLERR EPOLLHUP)) = ev → ev ≠ 0 →
  translate_events ev ≠ 0.
Proof.
  intros He Hne Ht. unfold translate_events in Ht.
  apply Z.lor_eq_0_iff in Ht as [[H1 H2]%Z.lor_eq_0_iff H3].
  destruct (has ev EPOLLIN) eqn:Ei; [done|]. destruct (has ev EPOLLOUT) eqn:Eo; [done|].
  destruct (has ev (Z.lor _ _)) eqn:Ee; [done|]. apply Hne.
  rewrite has_lor, has_lor in Ee. apply orb_false_iff in Ee as [[E1 E2]%orb_false_iff E3].
  assert (∀ b, has ev b = false → Z.land ev b = 0) as Hz by (intros b; unfold has; intros ?%negb_false_iff%Z.eqb_eq; done).
  rewrite <- He. unfold calculate_epoll_event. rewrite !Z.land_lor_distr_r.
  rewrite (Hz EPOLLERR), (Hz EPOLLHUP), (Hz EPOLLRDHUP) by done.
  repeat case_match; rewrite ?(Hz EPOLLIN), ?(Hz EPOLLOUT), ?(Hz EPOLLERR), ?Z.land_0_r by done; done.
Qed.

(** ** The order of the map *)

Lemma in_order_elem m fd (a : nat) : (fd, a) ∈ in_order m ↔ m !! fd = Some a.
Proof. unfold in_order. rewrite merge_sort_Permutation. apply elem_of_map_to_list. Qed.

Lemma in_order_length m : length (in_order m) = size m.
Proof. unfold in_order. rewrite merge_sort_Permutation. apply length_map_to_list. Qed.

#[global] Instance by_fd_total : Total by_fd.
Proof. intros x y. unfold by_fd. lia. Qed.
#[global] Instance by_fd_trans : Transitive by_fd.
Proof. intros x y z. unfold by_fd. lia. Qed.

Section proofs.
Context {F T : Type}.

Abbreviation ctx := (@ctx F T).
Implicit Types c : ctx.

Definition variant_fn (v : @fn_variant F) : @fn F := match v with fd_func g => g | fd_func2 g => g end.

Lemma callee_invoke a (f : fdevent) ev : callee (invoke_fde a f ev) = variant_fn (fde_func f).
Proof. unfold invoke_fde. by destruct (fde_func f). Qed.

(** ** The invariant of the context *)

Record ctx_ok (c : ctx) : Prop := {
  ok_node a f : heap c !! a = Some f → installed_fdevents c !! fde_fd f = Some a;
  ok_installed fd a : installed_fdevents c !! fd = Some a → ∃ f, heap c !! a = Some f ∧ fde_fd f = fd;
  ok_set : fdevent_set c = dom (heap c);
  ok_interest fd : interest c !! fd =
    (a ← installed_fdevents c !! fd; f ← heap c !! a; Some (calculate_epoll_event (fde_state f), a));
  ok_range a f : heap c !! a = Some f → 0 ≤ fde_state f < 2 ^ 16;
  ok_own a f : heap c !! a = Some f → variant_fn (fde_func f) = fdevent_interrupt_fn → fde_fd f = interrupt_fd c;
  ok_interrupt : ∃ a f, installed_fdevents c !! interrupt_fd c = Some a ∧ heap c !! a = Some f ∧
    variant_fn (fde_func f) = fdevent_interrupt_fn ∧ has (fde_state f) FDE_READ = true ∧ fde_timeout f = None
}.

(** What the operations on fdevents leave alone. *)
Record frame (c c' : ctx) : Prop := {
  fr_looper : looper_thread_id c' = looper_thread_id c;
  fr_terminate : terminate_loop c' = terminate_loop c;
  fr_queue : run_queue c' = run_queue c;
  fr_fd : interrupt_fd c' = interrupt_fd c;
  fr_counter : counter c' = counter c;
  fr_addr : interrupt_addr c' = interrupt_addr c
}.

Lemma frame_refl c : frame c c.
Proof. by split. Qed.

(** Replacing an fdevent by one with the same descriptor and function, with the interest
    list kept in step. *)
Lemma ctx_ok_update c a f f' :
  ctx_ok c → heap c !! a = Some f → fde_fd f' = fde_fd f → variant_fn (fde_func f') = variant_fn (fde_func f) →
  0 ≤ fde_state f' < 2 ^ 16 →
  (variant_fn (fde_func f) = fdevent_interrupt_fn → has (fde_state f') FDE_READ = true ∧ fde_timeout f' = None) →
  ctx_ok (set_interest (<[fde_fd f := (calculate_epoll_event (fde_state f'), a)]> (interest c)) (set_fde a f' c)).
Proof.
  intros Hok Ha Hfd Hfn Hr Hi. pose proof (ok_node _ Hok _ _ Ha) as Hn. split; cbn.
  - intros b g. rewrite lookup_insert_Some. intros [[<- <-]|[? Hg]]; [by rewrite Hfd|]. by apply (ok_node _ Hok).
  - intros fd b Hb. destruct (ok_installed _ Hok _ _ Hb) as (g & Hg & <-). rewrite lookup_insert.
    case_decide as Eb; [subst b|by eauto]. simplify_eq. eauto.
  - rewrite dom_insert_L, (ok_set _ Hok). apply elem_of_dom_2 in Ha. set_solver.
  - intros fd. destruct (decide (fd = fde_fd f)) as [->|Hne].
    + by rewrite lookup_insert_eq, Hn; cbn; rewrite lookup_insert_eq.
    + rewrite lookup_insert_ne, (ok_interest _ Hok) by done. destruct (installed_fdevents c !! fd) as [b|] eqn:Eb; [|done].
      cbn. destruct (decide (a = b)) as [<-|]; [|by rewrite lookup_insert_ne].
      destruct (ok_installed _ Hok _ _ Eb) as (? & ? & <-). naive_solver.
  - intros b g. rewrite lookup_insert_Some. intros [[<- <-]|[? Hg]]; [done|]. by eapply (ok_range _ Hok).
  - intros b g. rewrite lookup_insert_Some. intros [[<- <-]|[? Hg]] Hv.
    + rewrite Hfd. eapply (ok_own _ Hok); [done|congruence].
    + by eapply (ok_own _ Hok).
  - destruct (ok_interrupt _ Hok) as (b & g & Hb & Hg & Hv & Hs & Ht). destruct (decide (a = b)) as [<-|].
    + simplify_eq. exists a, f'. rewrite lookup_insert_eq. rewrite Hfn. destruct (Hi Hv). by split_and!.
    + exists b, g. by rewrite lookup_insert_ne by done.
Qed.

(** The same without a call of epoll_ctl, when nothing that epoll watches changes. *)
Lemma ctx_ok_quiet c a f f' :
  ctx_ok c → heap c !! a = Some f → fde_fd f' = fde_fd f → variant_fn (fde_func f') = variant_fn (fde_func f) →
  0 ≤ fde_state f' < 2 ^ 16 → calculate_epoll_event (fde_state f') = calculate_epoll_event (fde_state f) →
  (variant_fn (fde_func f) = fdevent_interrupt_fn → has (fde_state f') FDE_READ = true ∧ fde_timeout f' = None) →
  ctx_ok (set_fde a f' c).
Proof.
  intros Hok Ha Hfd Hfn Hr Hc Hi. pose proof (ctx_ok_update c a f f' Hok Ha Hfd Hfn Hr Hi) as Hu.
  rewrite insert_id in Hu; [by destruct c|].
  by rewrite (ok_interest _ Hok), (ok_node _ Hok _ _ Ha); cbn; rewrite Ha, Hc.
Qed.

Lemma interest_Some c a f : ctx_ok c → heap c !! a = Some f → interest c !! fde_fd f = Some (calculate_epoll_event (fde_state f), a).
Proof. intros Hok Ha. rewrite (ok_interest _ Hok), (ok_node _ Hok _ _ Ha). cbn. by rewrite Ha. Qed.

(** The client does not name the fdevent of the interrupt. *)
Lemma not_interrupt c a f :
  ctx_ok c → heap c !! a = Some f → interrupt_addr c ≠ Some a → variant_fn (fde_func f) ≠ fdevent_interrupt_fn.
Proof.
  intros Hok Ha Hi Hv. apply Hi. unfold interrupt_addr. rewrite <- (ok_own _ Hok _ _ Ha Hv). by apply (ok_node _ Hok).
Qed.

(** ** The operations *)

Lemma Set_ok c a f ev :
  ctx_ok c → heap c !! a = Some f → (variant_fn (fde_func f) = fdevent_interrupt_fn → has ev FDE_READ = true) →
  ∃ c', Set_ a ev c = Ok c' ∧ ctx_ok c' ∧ frame c c' ∧
    heap c' = <[a := set_state (ev mod 2 ^ 16) f]> (heap c).
Proof.
  intros Hok Ha Hi. unfold Set_. rewrite Ha. cbn.
  assert (0 ≤ ev mod 2 ^ 16 < 2 ^ 16) as Hr by (by apply Z.mod_pos_bound).
  assert (variant_fn (fde_func f) = fdevent_interrupt_fn →
    has (ev mod 2 ^ 16) FDE_READ = true ∧ fde_timeout (set_state (ev mod 2 ^ 16) f) = None) as Hi'.
  { intros Hv. split.
    - change FDE_READ with (2 ^ 0). rewrite has_mod by lia. by apply Hi.
    - destruct (ok_interrupt _ Hok) as (b & g & Hb & Hg & Hv' & _ & Ht).
      rewrite <- (ok_own _ Hok _ _ Ha Hv), (ok_node _ Hok _ _ Ha) in Hb. by simplify_eq. }
  destruct (Z.eqb_spec (Z.ldiff (fde_state f) FDE_TIMEOUT) (Z.ldiff ev FDE_TIMEOUT)) as [E|E].
  - eexists. split_and!; [done| |by split|done]. eapply ctx_ok_quiet; try done. cbn. symmetry. by apply calculate_same.
  - rewrite bool_decide_eq_true_2 by (rewrite (interest_Some _ _ _ Hok Ha); eauto). cbn.
    eexists. split_and!; [done| |by split|done]. by eapply (ctx_ok_update c a f (set_state (ev mod 2 ^ 16) f)).
Qed.

Lemma SetTimeout_ok t c a f timeout now :
  ctx_ok c → on_looper t c = true → heap c !! a = Some f → variant_fn (fde_func f) ≠ fdevent_interrupt_fn →
  ∃ c', SetTimeout t a timeout now c = Ok c' ∧ ctx_ok c' ∧ frame c c' ∧
    heap c' = <[a := set_times timeout now f]> (heap c).
Proof.
  intros Hok Ht Ha Hi. unfold SetTimeout, CheckLooperThread.  rewrite (check_true _ Ht), Ha. cbn.
  eexists. split_and!; [done| |by split|done]. apply (ctx_ok_quiet c a f); try done. exact (ok_range _ Hok _ _ Ha).
Qed.

Lemma Create_ok malloc (malloc_fresh : ∀ s, malloc s ∉ s) t c fd g arg :
  ctx_ok c → on_looper t c = true → 0 ≤ fd → installed_fdevents c !! fd = None →
  variant_fn g ≠ fdevent_interrupt_fn →
  ∃ a c', Create malloc t fd g arg true c = Ok (a, c') ∧ ctx_ok c' ∧ frame c c' ∧ heap c !! a = None ∧
    heap c' = <[a := mkFde (fdevent_id c) fd 0 None 0 g arg]> (heap c).
Proof.
  intros Hok Ht Hfd Hn Hg. unfold Create, CheckLooperThread.  rewrite (check_true _ Ht).
  rewrite (check_true (0 <=? fd)) by lia. rewrite (bool_decide_eq_true_2 _ Hn). cbn.
  set (a := malloc (dom (heap c))).
  assert (heap c !! a = None) as Ha by (apply not_elem_of_dom, malloc_fresh).
  assert (interest c !! fd = None) as Hint by (by rewrite (ok_interest _ Hok), Hn).
  unfold Register. cbn. rewrite lookup_insert_eq. cbn. rewrite bool_decide_eq_true_2 by done. cbn.
  exists a; eexists. split_and!; [done| |split; try done|done|done].
  2: { unfold interrupt_addr. cbn. destruct (ok_interrupt _ Hok) as (b & f & Hb & _). rewrite lookup_insert_ne; congruence. }
  split; cbn.
  - intros b f. rewrite lookup_insert_Some. intros [[<- <-]|[? Hf]]; [apply lookup_insert_eq|].
    pose proof (ok_node _ Hok _ _ Hf). rewrite lookup_insert_ne; [done|]. congruence.
  - intros fd' b. rewrite lookup_insert_Some. intros [[<- <-]|[? Hb]]; [rewrite lookup_insert_eq; eauto|].
    destruct (ok_installed _ Hok _ _ Hb) as (f & Hf & <-). rewrite lookup_insert_ne by congruence. eauto.
  - by rewrite dom_insert_L, (ok_set _ Hok).
  - intros fd'. destruct (decide (fd' = fd)) as [->|Hne].
    + rewrite !lookup_insert_eq. cbn. by rewrite lookup_insert_eq.
    + rewrite !lookup_insert_ne, (ok_interest _ Hok) by done. destruct (installed_fdevents c !! fd') as [b|] eqn:Eb; [|done].
      cbn. destruct (ok_installed _ Hok _ _ Eb) as (f & Hf & _). rewrite lookup_insert_ne by congruence. done.
  - intros b f. rewrite lookup_insert_Some. intros [[<- <-]|[? Hf]]; [done|]. by eapply (ok_range _ Hok).
  - intros b f. rewrite lookup_insert_Some. intros [[<- <-]|[? Hf]]; [done|]. by eapply (ok_own _ Hok).
  - destruct (ok_interrupt _ Hok) as (b & f & Hb & Hf & ?). exists b, f.
    rewrite !lookup_insert_ne by congruence. done.
Qed.

Lemma Destroy_ok t c a f :
  ctx_ok c → on_looper t c = true → heap c !! a = Some f → variant_fn (fde_func f) ≠ fdevent_interrupt_fn →
  ∃ c', Destroy t (Some a) c = Ok (Some (fde_fd f), c') ∧ ctx_ok c' ∧ frame c c' ∧ heap c' = delete a (heap c).
Proof.
  intros Hok Ht Ha Hi. unfold Destroy, CheckLooperThread.  rewrite (check_true _ Ht).
  pose proof (ok_node _ Hok _ _ Ha) as Hn. unfold Unregister. cbn. rewrite Ha. cbn.
  rewrite bool_decide_eq_true_2 by (rewrite (interest_Some _ _ _ Hok Ha); eauto). cbn. rewrite Ha. cbn. rewrite Hn. cbn.
  rewrite bool_decide_eq_true_2 by (rewrite (ok_set _ Hok); by eapply elem_of_dom_2). cbn.
  assert (fde_fd f ≠ interrupt_fd c) as Hne.
  { intros E. destruct (ok_interrupt _ Hok) as (b & g & Hb & Hg & Hv & _). congruence. }
  eexists. split_and!; [done| |split; try done|done].
  2: { unfold interrupt_addr. cbn. by rewrite lookup_delete_ne. }
  split; cbn.
  - intros b g. rewrite lookup_delete_Some. intros [Hb Hg]. pose proof (ok_node _ Hok _ _ Hg).
    rewrite lookup_delete_ne; [done|]. congruence.
  - intros fd b. rewrite lookup_delete_Some. intros [Hfd Hb]. destruct (ok_installed _ Hok _ _ Hb) as (g & Hg & <-).
    exists g. rewrite lookup_delete_ne; [done|]. congruence.
  - by rewrite dom_delete_L, (ok_set _ Hok).
  - intros fd. destruct (decide (fde_fd f = fd)) as [<-|Hfd]; [by rewrite !lookup_delete_eq|].
    rewrite !lookup_delete_ne, (ok_interest _ Hok) by done. destruct (installed_fdevents c !! fd) as [b|] eqn:Eb; [|done].
    cbn. destruct (ok_installed _ Hok _ _ Eb) as (g & Hg & <-). rewrite lookup_delete_ne; [done|]. congruence.
  - intros b g. rewrite lookup_delete_Some. intros [_ Hg]. by eapply (ok_range _ Hok).
  - intros b g. rewrite lookup_delete_Some. intros [_ Hg]. by eapply (ok_own _ Hok).
  - destruct (ok_interrupt _ Hok) as (b & g & Hb & Hg & Hv & ?). exists b, g.
    rewrite !lookup_delete_ne by congruence. done.
Qed.

(** ** Poll durations *)

Definition due_in (c : ctx) (now : Z) (a : nat) (m : Z) : Prop :=
  ∃ f timeout, heap c !! a = Some f ∧ fde_timeout f = Some timeout ∧ m = time_left f timeout now.

Lemma poll_duration_spec c now l r :
  (∀ fd a, (fd, a) ∈ l → is_Some (heap c !! a)) →
  ∃ d, poll_duration l now c r = Ok d ∧
    (∀ m, d = Some m → r = Some m ∨ ∃ fd a, (fd, a) ∈ l ∧ due_in c now a m) ∧
    (∀ x, r = Some x ∨ (∃ fd a, (fd, a) ∈ l ∧ due_in c now a x) → ∃ m, d = Some m ∧ m ≤ x).
Proof.
  revert r. induction l as [|[fd a] l IH]; intros r Hl.
  - exists r. split; [done|]. split; [naive_solver|]. intros x [->|(? & ? & []%elem_of_nil & _)]. by eexists.
  - destruct (Hl fd a) as [f Hf]; [by left|]. cbn. rewrite Hf. cbn.
    destruct (IH (match fde_timeout f with
                  | Some timeout =>
                      Some (match r with Some r => Z.min r (time_left f timeout now) | None => time_left f timeout now end)
                  | None => r
                  end)) as (d & -> & H1 & H2); [intros; eapply Hl; by right|].
    exists d. split; [done|]. split.
    + intros m Hm. destruct (H1 m Hm) as [E|(fd' & b & Hb & Hd)]; [|right; exists fd', b; split; [by right|done]].
      destruct (fde_timeout f) as [tm|] eqn:Et; [|by left].
      destruct r as [r0|]; simplify_eq; [|right; exists fd, a; split; [by left|by exists f, tm]].
      destruct (Z.min_spec r0 (time_left f tm now)) as [[_ ->]|[_ ->]]; [by left|].
      right; exists fd, a; split; [by left|by exists f, tm].
    + intros x [->|(fd' & b & [[= -> ->]|Hb]%elem_of_cons & Hd)].
      * destruct (fde_timeout f) as [tm|]; [|apply H2; by left]. edestruct H2 as (m & ? & ?); [by left|]. exists m. split; [done|]. lia.
      * destruct Hd as (g & tm & Hg & Ht & ->). simplify_eq. rewrite Ht in H2.
        edestruct H2 as (m & ? & Hm); [by left|]. exists m. split; [done|]. destruct r; lia.
      * apply H2. right. eauto.
Qed.

(** ** Stamping fdevents with the time of a turn *)

Definition stamp (now : Z) (c : ctx) (a : nat) : ctx :=
  match heap c !! a with
  | Some f => set_fde a (set_times (fde_timeout f) now f) c
  | None => c
  end.
Definition stamps (now : Z) (l : list nat) (c : ctx) : ctx := foldl (stamp now) c l.

Lemma stamp_ok now c a : ctx_ok c → ctx_ok (stamp now c a).
Proof.
  intros Hok. unfold stamp. destruct (heap c !! a) as [f|] eqn:Ha; [|done].
  apply (ctx_ok_quiet c a f); try done; [exact (ok_range _ Hok _ _ Ha)|].
  intros Hv. cbn. destruct (ok_interrupt _ Hok) as (b & g & Hb & Hg & Hv' & Hs & Ht).
  rewrite <- (ok_own _ Hok _ _ Ha Hv), (ok_node _ Hok _ _ Ha) in Hb. by simplify_eq.
Qed.

Lemma stamp_lookup now c a b :
  heap (stamp now c a) !! b =
  (λ f, if decide (b = a) then set_times (fde_timeout f) now f else f) <$> heap c !! b.
Proof.
  unfold stamp. destruct (heap c !! a) as [f|] eqn:Ha; cbn.
  - rewrite lookup_insert. repeat case_decide; subst; try done.
    + by rewrite Ha.
    + by destruct (heap c !! b).
  - case_decide; subst; [by rewrite Ha|]. by destruct (heap c !! b).
Qed.

Lemma stamp_rest now c a :
  frame c (stamp now c a) ∧ installed_fdevents (stamp now c a) = installed_fdevents c.
Proof. unfold stamp. by destruct (heap c !! a). Qed.

Lemma stamps_ok now l c : ctx_ok c → ctx_ok (stamps now l c).
Proof. revert c. induction l as [|a l IH]; intros c Hok; [done|]. by apply IH, stamp_ok. Qed.

Lemma stamps_lookup now l c b :
  heap (stamps now l c) !! b =
  (λ f, if decide (b ∈ l) then set_times (fde_timeout f) now f else f) <$> heap c !! b.
Proof.
  revert c. induction l as [|a l IH]; intros c.
  - cbn [stamps foldl]. destruct (heap c !! b); [|done]. cbn [fmap option_fmap option_map].
    rewrite decide_False by apply not_elem_of_nil. done.
  - change (stamps now (a :: l) c) with (stamps now l (stamp now c a)). rewrite IH, stamp_lookup.
    destruct (heap c !! b) as [f|]; [|done]. cbn [fmap option_fmap option_map]. f_equal.
    repeat case_decide; try done; set_solver.
Qed.

Lemma stamps_rest now l c :
  frame c (stamps now l c) ∧ installed_fdevents (stamps now l c) = installed_fdevents c.
Proof.
  revert c. induction l as [|a l IH]; intros c; [by split|]. destruct (IH (stamp now c a)) as [Hf Hi].
  destruct (stamp_rest now c a) as [Hf' Hi']. split; [|by etrans].
  destruct Hf, Hf'. split; by etrans.
Qed.

(** ** The events of one turn *)

Definition polled (answer : list (Z * nat)) : list (nat * Z) := (λ e, (e.2, translate_events e.1)) <$> answer.

Lemma polled_events_run reserved answer now acc em c :
  (∀ ev a, (ev, a) ∈ answer → translate_events ev ≠ 0 ∧ ∃ f, heap c !! a = Some f ∧
     (has ev EPOLLIN = true → has (fde_state f) FDE_READ = true) ∧
     (has ev EPOLLOUT = true → has (fde_state f) FDE_WRITE = true)) →
  llen acc + llen answer ≤ reserved →
  ∃ em', polled_events reserved answer now acc em c =
           Ok (acc ++ polled answer, em', stamps now answer.*2 c) ∧
    (∀ a, a ∉ answer.*2 → em' !! a = em !! a) ∧
    (∀ a, a ∈ answer.*2 → ∃ i e, em' !! a = Some i ∧ (acc ++ polled answer) !! i = Some e ∧ e.2 ≠ 0).
Proof.
  revert acc em c. induction answer as [|[ev a] answer IH]; intros acc em c Hl Hres.
  { exists em. cbn. rewrite app_nil_r. split; [done|]. split; [done|]. intros a []%elem_of_nil. }
  destruct (Hl ev a) as (Hev & f & Hf & Hin & Hout); [by left|]. cbn [polled_events]. rewrite Hf. cbn [deref mbind res_bind].
  rewrite (check_true (negb (has ev EPOLLIN) || _)) by (destruct (has ev EPOLLIN); [by rewrite Hin|done]).
  rewrite (check_true (negb (has ev EPOLLOUT) || _)) by (destruct (has ev EPOLLOUT); [by rewrite Hout|done]).
  cbn [mbind res_bind].
  unfold emplace_back. rewrite llen_cons in Hres. rewrite (proj2 (Z.ltb_lt _ _)) by (pose proof (llen_nonneg answer); lia).
  change (set_fde a (set_times (fde_timeout f) now f) c) with (match Some f with Some f => set_fde a (set_times (fde_timeout f) now f) c | None => c end).
  rewrite <- Hf. fold (stamp now c a). cbn [mbind res_bind].
  destruct (IH (acc ++ [(a, translate_events ev)]) (<[a := length acc]> em) (stamp now c a)) as (em' & -> & H1 & H2).
  - intros ev' b Hb. destruct (Hl ev' b) as (Hne & g & Hg & ?); [by right|]. split; [done|].
    rewrite stamp_lookup, Hg. cbn. eexists. split; [done|]. by case_decide.
  - rewrite llen_app, llen_cons, llen_nil. lia.
  - exists em'. rewrite <- app_assoc. split; [done|]. split.
    + cbn. intros b Hb. rewrite H1, lookup_insert_ne by set_solver. done.
    + cbn [fmap list_fmap]. intros b Hb. destruct (decide (b ∈ answer.*2)) as [Hin'|Hnin].
      * destruct (H2 b Hin') as (i & e & ? & Hi & ?). exists i, e. by rewrite <- app_assoc in Hi.
      * assert (b = a) as -> by set_solver. exists (length acc), (a, translate_events ev). rewrite H1 by done.
        rewrite lookup_insert_eq, lookup_app_r, Nat.sub_diag by lia. done.
Qed.

(** The fdevents whose timeout has passed and that [seen] does not list. *)
Definition overdue (c : ctx) (now : Z) (seen : nat → Prop) (a : nat) : Prop :=
  ¬ seen a ∧ ∃ f timeout, heap c !! a = Some f ∧ fde_timeout f = Some timeout ∧ deadline f timeout < now.

#[global] Instance overdue_dec c now seen a `{!Decision (seen a)} : Decision (overdue c now seen a).
Proof.
  apply and_dec; [apply _|]. destruct (heap c !! a) as [f|]; [|right; naive_solver].
  destruct (fde_timeout f) as [tm|] eqn:E; [|right; naive_solver].
  destruct (decide (deadline f tm < now)); [left; eauto|right; naive_solver].
Defined.

Lemma overdue_stamp c now (seen : nat → Prop) a b : a ≠ b → overdue (stamp now c a) now seen b ↔ overdue c now seen b.
Proof.
  intros Hne. unfold overdue. rewrite stamp_lookup. destruct (heap c !! b); [|naive_solver].
  cbn [fmap option_fmap option_map]. by rewrite decide_False by done.
Qed.

Lemma timed_out_events_run reserved now (l : list (Z * nat)) em acc c :
  NoDup l.*2 → (∀ a, a ∈ l.*2 → is_Some (heap c !! a)) →
  (∀ a i, em !! a = Some i → ∃ e, acc !! i = Some e ∧ e.2 ≠ 0) →
  let late := filter (overdue c now (λ a, is_Some (em !! a))) l.*2 in
  llen acc + llen late ≤ reserved →
  timed_out_events reserved l now acc em c = Ok (acc ++ ((λ a, (a, FDE_TIMEOUT)) <$> late), stamps now late c).
Proof.
  revert acc c. induction l as [|[fd a] l IH]; intros acc c Hnd Hl Hem late Hres.
  { cbn. by rewrite app_nil_r. }
  apply NoDup_cons in Hnd as [Ha Hnd]. destruct (Hl a) as [f Hf]; [by left|].
  assert (∀ b, b ∈ l.*2 → is_Some (heap c !! b)) as Hl' by (intros; apply Hl; by right).
  cbn [timed_out_events]. rewrite Hf. cbn [deref mbind res_bind].
  assert (∃ v, (match em !! a with Some i => e ← deref (acc !! i); Ok e.2 | None => Ok 0 end) = Ok v ∧
               (v = 0 ↔ ¬ is_Some (em !! a))) as (v & -> & Hv).
  { destruct (em !! a) as [i|] eqn:Ei.
    - destruct (Hem _ _ Ei) as (e & -> & Hne). exists e.2. split; [done|]. split; [done|]. intros []. eauto.
    - exists 0. split; [done|]. split; [|done]. by intros _ []. }
  cbn [mbind res_bind]. subst late. cbn [fmap list_fmap snd] in *. rewrite filter_cons in Hres |- *.
  set (od := overdue c now (λ a, is_Some (em !! a))) in *.
  destruct (decide (od a)) as [Hov|Hov].
  2: { pose proof (IH acc c Hnd Hl' Hem Hres) as HIH. fold od in HIH. rewrite <- HIH. destruct (Z.eqb_spec v 0) as [E|]; [|done].
       destruct (fde_timeout f) as [tm|] eqn:Et; [|done]. destruct (Z.ltb_spec (deadline f tm) now); [|done].
       exfalso. apply Hov. split; [by apply Hv|eauto]. }
  destruct Hov as (Hseen & f' & tm & Hf' & Et & Hd). assert (f' = f) as -> by congruence. rewrite (proj2 (Z.eqb_eq v 0)) by (by apply Hv).
  rewrite Et, (proj2 (Z.ltb_lt _ _) Hd). rewrite llen_cons in Hres.
  unfold emplace_back. rewrite (proj2 (Z.ltb_lt _ _)) by (pose proof (llen_nonneg (filter od l.*2)); lia).
  cbn [mbind res_bind].
  assert (set_fde a (set_times (Some tm) now f) c = stamp now c a) as -> by (unfold stamp; by rewrite Hf, Et).
  assert (filter (overdue (stamp now c a) now (λ a, is_Some (em !! a))) l.*2 =
          filter (overdue c now (λ a, is_Some (em !! a))) l.*2) as Hflt.
  { apply filter_ext_in. intros b Hb. apply overdue_stamp. intros ->. done. }
  rewrite (IH (acc ++ [(a, FDE_TIMEOUT)]) (stamp now c a)); cbn [snd]; rewrite ?Hflt; try done.
  - by rewrite <- app_assoc.
  - intros b Hb. rewrite stamp_lookup. destruct (Hl' b Hb) as [g ->]. eauto.
  - intros b i Hb. destruct (Hem _ _ Hb) as (e & He & ?). exists e. split; [|done]. by apply lookup_app_l_Some.
  - fold od. rewrite llen_app, llen_cons, llen_nil. lia.
Qed.

(** The events of a turn: what epoll reported, then FDE_TIMEOUT for the fdevents that it
    did not report and whose deadline has passed, in the order of their descriptors. *)
Definition late (c : ctx) (answer : list (Z * nat)) (now : Z) : list nat :=
  filter (overdue c now (λ a, a ∈ answer.*2)) (in_order (installed_fdevents c)).*2.
Definition turn_events (c : ctx) (answer : list (Z * nat)) (now : Z) : list (nat * Z) :=
  polled answer ++ ((λ a, (a, FDE_TIMEOUT)) <$> late c answer now).

Lemma epoll_wait_ok_inv n timeout l c :
  epoll_wait_ok n timeout l c = true →
  NoDup l.*1 ∧ llen l ≤ n ∧ (∀ e, e ∈ l → entry_ok c e = true) ∧ (timeout = -1 → l ≠ []) ∧
  (interrupt_ready c = true → llen l = n ∨ interrupt_fd c ∈ l.*1).
Proof.
  unfold epoll_wait_ok. rewrite !andb_true_iff, !orb_true_iff, !negb_true_iff.
  intros [[[[Hn Hl] Hf] Ht] Hi]. apply bool_decide_eq_true in Hn. rewrite Z.leb_le in Hl.
  split_and!; try done.
  - rewrite forallb_forall in Hf. intros e He. by apply Hf, list_elem_of_In.
  - intros ->. destruct Ht as [|Ht]; [done|]. by apply bool_decide_eq_false in Ht.
  - intros E. destruct Hi as [[|Hi]|Hi]; [congruence|left; lia|right; by apply bool_decide_eq_true in Hi].
Qed.

Lemma with_pointers_elem c l ev a :
  ctx_ok c → (∀ e, e ∈ l → entry_ok c e = true) → (ev, a) ∈ with_pointers c l →
  ∃ f, heap c !! a = Some f ∧ (fde_fd f, ev) ∈ l ∧ translate_events ev ≠ 0 ∧
    (has ev EPOLLIN = true → has (fde_state f) FDE_READ = true) ∧
    (has ev EPOLLOUT = true → has (fde_state f) FDE_WRITE = true) ∧
    (fde_fd f = interrupt_fd c → 0 < counter c).
Proof.
  intros Hok He. unfold with_pointers. rewrite list_elem_of_omap. intros ([fd ev'] & Hin & Hm).
  specialize (He _ Hin). unfold entry_ok in He. cbn [fst snd] in *.
  rewrite (ok_interest _ Hok) in He, Hm. destruct (installed_fdevents c !! fd) as [b|] eqn:Eb; [|done].
  destruct (ok_installed _ Hok _ _ Eb) as (f & Hf & <-). cbn in He, Hm. rewrite Hf in He, Hm. cbn in He, Hm. simplify_eq.
  apply andb_prop in He as [[H0 Hs]%andb_prop Hi]. apply negb_true_iff, Z.eqb_neq in H0. apply Z.eqb_eq in Hs.
  exists f. split_and!; try done.
  - by eapply translate_nonzero.
  - intros Hev. rewrite <- calculate_in. change EPOLLIN with (2 ^ 0) in *. pose proof (land_sub _ _ 0 ltac:(lia) Hs Hev) as Hb.
    rewrite has_lor_l, orb_true_iff in Hb by lia. by destruct Hb.
  - intros Hev. rewrite <- calculate_out. change EPOLLOUT with (2 ^ 2) in *. pose proof (land_sub _ _ 2 ltac:(lia) Hs Hev) as Hb.
    rewrite has_lor_l, orb_true_iff in Hb by lia. by destruct Hb.
  - intros Efd. rewrite Efd, Z.eqb_refl in Hi. cbn in Hi. apply andb_prop in Hi as [_ ?]. lia.
Qed.

Lemma with_pointers_NoDup c l :
  ctx_ok c → (∀ e, e ∈ l → entry_ok c e = true) → NoDup l.*1 → NoDup (with_pointers c l).*2.
Proof.
  intros Hok. induction l as [|[fd ev] l IH]; intros He Hnd; [constructor|].
  apply NoDup_cons in Hnd as [Hfd Hnd]. assert (∀ e, e ∈ l → entry_ok c e = true) as He' by (intros; apply He; by right).
  unfold with_pointers. cbn. destruct (interest c !! fd) as [[m a]|] eqn:Ei; [|exact (IH He' Hnd)]. cbn.
  apply NoDup_cons. split; [|exact (IH He' Hnd)]. intros ([ev' b] & Hb & Hin)%list_elem_of_fmap. cbn in Hb. subst b.
  destruct (with_pointers_elem _ _ _ _ Hok He' Hin) as (f & Hf & Hl & _).
  rewrite (ok_interest _ Hok) in Ei. destruct (installed_fdevents c !! fd) as [b|] eqn:Eb; [|done].
  destruct (ok_installed _ Hok _ _ Eb) as (g & Hg & <-). cbn in Ei. rewrite Hg in Ei. cbn in Ei. simplify_eq.
  apply Hfd. apply list_elem_of_fmap. exists (fde_fd f, ev'). by split.
Qed.

Lemma in_order_addrs_elem c a : ctx_ok c → a ∈ (in_order (installed_fdevents c)).*2 ↔ is_Some (heap c !! a).
Proof.
  intros Hok. rewrite list_elem_of_fmap. split.
  - intros ([fd b] & -> & Hb). apply in_order_elem in Hb. destruct (ok_installed _ Hok _ _ Hb) as (f & ? & _). by exists f.
  - intros [f Hf]. exists (fde_fd f, a). split; [done|]. by apply in_order_elem, (ok_node _ Hok).
Qed.

Lemma in_order_addrs_NoDup c : ctx_ok c → NoDup (in_order (installed_fdevents c)).*2.
Proof.
  intros Hok. apply NoDup_fmap_2_strong.
  - intros [fd a] [fd' b] H1 H2 E. cbn in E. subst b. apply in_order_elem in H1, H2.
    destruct (ok_installed _ Hok _ _ H1) as (f & Hf & <-), (ok_installed _ Hok _ _ H2) as (g & Hg & <-). by simplify_eq.
  - unfold in_order. rewrite merge_sort_Permutation. apply NoDup_map_to_list.
Qed.

(** The events of a turn are of distinct, installed fdevents. *)
Lemma turn_events_NoDup c l now :
  ctx_ok c → (∀ e, e ∈ l → entry_ok c e = true) → NoDup l.*1 →
  NoDup (turn_events c (with_pointers c l) now).*1 ∧
  (∀ a, a ∈ (turn_events c (with_pointers c l) now).*1 → is_Some (heap c !! a)).
Proof.
  intros Hok He Hnd. unfold turn_events, polled. rewrite fmap_app, <- !list_fmap_compose.
  change (fst ∘ (λ e : Z * nat, (e.2, translate_events e.1))) with (@snd Z nat).
  change (fst ∘ (λ a : nat, (a, FDE_TIMEOUT))) with (λ a : nat, a). rewrite list_fmap_id. split.
  - apply NoDup_app. split; [by apply with_pointers_NoDup|]. split; [|by apply NoDup_filter, in_order_addrs_NoDup].
    intros a Ha [[Hno _] _]%list_elem_of_filter. done.
  - intros a [Ha|Ha]%elem_of_app.
    + apply list_elem_of_fmap in Ha as ([ev b] & -> & Hb). destruct (with_pointers_elem _ _ _ _ Hok He Hb) as (f & Hf & _).
      by exists f.
    + apply list_elem_of_filter in Ha as [_ Ha]. by apply in_order_addrs_elem.
Qed.

Lemma turn_events_length c l now :
  ctx_ok c → (∀ e, e ∈ l → entry_ok c e = true) → NoDup l.*1 →
  llen (with_pointers c l) + llen (late c (with_pointers c l) now) ≤ Z.of_nat (size (installed_fdevents c)).
Proof.
  intros Hok He Hnd. destruct (turn_events_NoDup c l now Hok He Hnd) as [Hn Hin].
  assert (length (turn_events c (with_pointers c l) now).*1 ≤ length (in_order (installed_fdevents c)).*2)%nat as Hle.
  { apply submseteq_length, NoDup_submseteq; [done|]. intros a Ha. by apply in_order_addrs_elem, Hin. }
  rewrite !length_fmap, in_order_length in Hle. unfold turn_events, polled in Hle. rewrite length_app, !length_fmap in Hle.
  unfold llen. lia.
Qed.

Lemma collect_events_run c l now :
  ctx_ok c → (∀ e, e ∈ l → entry_ok c e = true) → NoDup l.*1 →
  let answer := with_pointers c l in
  collect_events answer now c =
    Ok (turn_events c answer now, stamps now (answer.*2 ++ late c answer now) c).
Proof.
  intros Hok He Hnd answer. pose proof (turn_events_length c l now Hok He Hnd) as Hlen. fold answer in Hlen.
  unfold collect_events. destruct (polled_events_run (Z.of_nat (size (installed_fdevents c))) answer now [] ∅ c) as (em & -> & H1 & H2).
  { intros ev a Ha. destruct (with_pointers_elem _ _ _ _ Hok He Ha) as (f & ? & ? & ? & ? & ? & ?). split; [done|]. by exists f. }
  { rewrite llen_nil. pose proof (llen_nonneg (late c answer now)). lia. }
  cbn [mbind res_bind app]. destruct (stamps_rest now answer.*2 c) as [_ ->].
  assert (filter (overdue (stamps now answer.*2 c) now (λ a, is_Some (em !! a))) (in_order (installed_fdevents c)).*2 =
          late c answer now) as Hlate.
  { apply filter_ext_in. intros a _. unfold overdue. rewrite stamps_lookup.
    assert (is_Some (em !! a) ↔ a ∈ answer.*2) as Hseen.
    { destruct (decide (a ∈ answer.*2)) as [Hin|Hnin].
      - destruct (H2 a Hin) as (i & e & -> & _). split; eauto.
      - rewrite H1, lookup_empty by done. split; [by intros []|done]. }
    rewrite Hseen. destruct (heap c !! a) as [f|]; [|naive_solver]. cbn [fmap option_fmap option_map].
    case_decide; naive_solver. }
  rewrite (timed_out_events_run _ now); rewrite ?Hlate.
  - unfold turn_events, stamps. by rewrite foldl_app.
  - by apply in_order_addrs_NoDup.
  - intros a Ha. rewrite stamps_lookup. apply in_order_addrs_elem in Ha as [f ->]; [|done]. eauto.
  - intros a i Hi. assert (a ∈ answer.*2) as Hin.
    { destruct (decide (a ∈ answer.*2)); [done|]. by rewrite H1, lookup_empty in Hi. }
    destruct (H2 a Hin) as (i' & e & Hi' & ? & ?). simplify_eq. eauto.
  - unfold polled, llen at 1. rewrite length_fmap. fold (llen answer). lia.
Qed.

(** C7. One turn of the loop hands out exactly the events it should: for every answer that
    epoll_wait may give, the translated events of the reported fdevents, in the order of the
    answer, and then FDE_TIMEOUT for each fdevent that was not reported and whose deadline has
    passed, in the order of the descriptors; nothing fails on the way, the events are of
    distinct fdevents, and exactly those fdevents are marked as active now. *)
Theorem collect_events_exact c n timeout l now :
  ctx_ok c → epoll_wait_ok n timeout l c = true →
  let answer := with_pointers c l in
  ∃ c', collect_events answer now c = Ok (turn_events c answer now, c') ∧ ctx_ok c' ∧
    NoDup (turn_events c answer now).*1 ∧
    (∀ a, heap c' !! a = (λ f, if decide (a ∈ (turn_events c answer now).*1)
                               then set_times (fde_timeout f) now f else f) <$> heap c !! a).
Proof.
  intros Hok (Hnd & _ & He & _)%epoll_wait_ok_inv answer. eexists. split_and!.
  - by apply collect_events_run.
  - by apply stamps_ok.
  - by apply turn_events_NoDup.
  - intros a. rewrite stamps_lookup. destruct (heap c !! a) as [f|]; [|done]. cbn [fmap option_fmap option_map]. f_equal.
    assert ((turn_events c answer now).*1 = answer.*2 ++ late c answer now) as ->; [|done].
    unfold turn_events, polled. rewrite fmap_app, <- !list_fmap_compose. f_equal. apply list_fmap_id.
Qed.

Lemma time_left_bounds (f : @fdevent F) timeout now :
  0 ≤ time_left f timeout now ∧ time_left f timeout now * ms ≤ Z.max 0 (deadline f timeout - now) ∧
  deadline f timeout - now < (time_left f timeout now + 1) * ms.
Proof.
  unfold time_left. set (x := deadline f timeout - now). assert (0 < ms) as Hms by done.
  pose proof (Z.quot_rem x ms ltac:(lia)) as Hx. destruct (Z.le_gt_cases 0 x) as [Hpos|Hneg].
  - pose proof (Z.quot_pos x ms Hpos ltac:(lia)). pose proof (Z.rem_bound_pos x ms Hpos ltac:(lia)).
    destruct (Z.ltb_spec (Z.quot x ms) 0); lia.
  - assert (Z.quot x ms ≤ 0) by (assert (0 ≤ Z.quot (- x) ms) by (apply Z.quot_pos; lia); rewrite Z.quot_opp_l in *; lia).
    destruct (Z.ltb_spec (Z.quot x ms) 0); [lia|]. replace (Z.quot x ms) with 0 by lia. lia.
Qed.

(** The loop sleeps neither too long nor much too short: with no timeouts the poll is
    unlimited; otherwise it ends, in whole milliseconds, no later than any deadline and
    less than a millisecond before the first one (a deadline in the past is now). *)
Theorem poll_duration_exact t now c :
  ctx_ok c → on_looper t c = true →
  ∃ d, CalculatePollDuration t now c = Ok d ∧
    (d = None ↔ ∀ a f, heap c !! a = Some f → fde_timeout f = None) ∧
    (∀ m, d = Some m →
       0 ≤ m ∧
       (∀ a f tm, heap c !! a = Some f → fde_timeout f = Some tm → m * ms ≤ Z.max 0 (deadline f tm - now)) ∧
       (∃ a f tm, heap c !! a = Some f ∧ fde_timeout f = Some tm ∧ deadline f tm - now < (m + 1) * ms)).
Proof.
  intros Hok Ht. unfold CalculatePollDuration, CheckLooperThread. rewrite (check_true _ Ht). cbn [mbind res_bind].
  destruct (poll_duration_spec c now (in_order (installed_fdevents c)) None) as (d & -> & H1 & H2).
  { intros fd a Ha%in_order_elem. destruct (ok_installed _ Hok _ _ Ha) as (f & ? & _). by exists f. }
  assert (∀ a f tm, heap c !! a = Some f → fde_timeout f = Some tm → ∃ m, d = Some m ∧ m ≤ time_left f tm now) as Hall.
  { intros a f tm Hf Htm. apply H2. right. exists (fde_fd f), a. split; [by apply in_order_elem, (ok_node _ Hok)|].
    by exists f, tm. }
  exists d. split; [done|]. split.
  - split.
    + intros -> a f Hf. destruct (fde_timeout f) as [tm|] eqn:E; [|done]. by destruct (Hall a f tm Hf E) as (? & ? & _).
    + intros Hno. destruct d as [m|]; [|done]. destruct (H1 m eq_refl) as [|(fd & a & _ & f & tm & Hf & Htm & _)]; [done|].
      by rewrite (Hno a f Hf) in Htm.
  - intros m ->. destruct (H1 m eq_refl) as [|(fd & a & _ & f & tm & Hf & Htm & ->)]; [done|].
    pose proof (time_left_bounds f tm now) as (Hp & _ & Hb). split_and!; [done| |by exists a, f, tm].
    intros b g tm' Hg Htm'. destruct (Hall b g tm' Hg Htm') as (m & [= <-] & Hle).
    pose proof (time_left_bounds g tm' now) as (_ & Hb' & _). assert (0 < ms) by done. nia.
Qed.

End proofs.
