(* ===== verification/LooperInv.v ===== *)
(** * The threads of the event loop

    The invariant of every state that the client threads, the manager and the loop can
    reach: whatever clients do, the loop itself never crashes; queued functions run once
    and in order; a queued function or a request to stop never leaves the loop asleep.
    Then the runs that end badly. *)

From S2P Require Import Prelude Fdevent FdeventInv.

Section proofs.
Context {F T : Type}.
Context (malloc : gset nat → nat).
Hypothesis malloc_fresh : ∀ s, malloc s ∉ s.

Abbreviation ctx := (@ctx F T).
Abbreviation sys := (@sys F T).
Abbreviation pc := (@pc F T).
Implicit Types (c : ctx) (st : sys) (p q k : pc).

(** ** Kinds of program points *)

Fixpoint in_loop p : bool :=
  match p with
  | Interrupting k => in_loop k
  | LTop _ | LPoll _ | LWait _ _ | LDispatch _ _ | LHandler _ _ _ | LFlush _ | LTask _ _ => true
  | _ => false
  end.
Definition interrupting p : bool := match p with Interrupting _ => true | _ => false end.
(** On the way to FlushRunQueue. *)
Definition flushing p : bool :=
  match p with LDispatch _ _ | LHandler _ _ _ | LFlush _ | LTask _ _ => true | _ => false end.
Definition polling p : bool := match p with LPoll _ | LWait _ _ => true | _ => false end.
Definition busy p : bool := interrupting p || flushing p.

Definition installed_count c : Z := Z.of_nat (size (installed_fdevents c)).

(** The interrupt's event is in a list of events only while the eventfd can be read. *)
Definition events_ok c (events : list (nat * Z)) : Prop :=
  NoDup events.*1 ∧ (∀ a, interrupt_addr c = Some a → a ∈ events.*1 → 0 < counter c).

Fixpoint pc_ok c p : Prop :=
  match p with
  | Interrupting k => pc_ok c k ∧ interrupting k = false ∧ polling k = false
  | LPoll n | LWait n _ => installed_count c ≤ n
  | LDispatch _ events => events_ok c events
  | LHandler _ i events =>
      events_ok c events ∧
      (callee i = fdevent_interrupt_fn → 0 < counter c ∧ ∀ a, interrupt_addr c = Some a → a ∉ events.*1)
  | _ => True
  end.

(** A queued function will be noticed: the loop is on its way to the queue, or something
    ends its sleep. *)
Definition noticed c (th : gmap nat pc) : Prop :=
  0 < counter c ∨ ∃ t p, th !! t = Some p ∧ busy p = true.
(** A request to stop will be noticed. *)
Definition heeded c (th : gmap nat pc) : Prop :=
  0 < counter c ∨ (∃ t p, th !! t = Some p ∧ interrupting p = true) ∨
  (∀ t p, th !! t = Some p → polling p = false).

Record inv st : Prop := {
  i_ctx : ctx_ok (the_ctx st);
  i_counter : 0 ≤ counter (the_ctx st);
  i_crash : crash st ≠ Some by_loop;
  i_fresh t : (next_tid st ≤ t)%nat → threads st !! t = None;
  i_looper t p : threads st !! t = Some p → in_loop p = true ↔ looper_thread_id (the_ctx st) = Some t;
  i_thread t : looper_thread_id (the_ctx st) = Some t → is_Some (threads st !! t);
  i_pc t p : threads st !! t = Some p → pc_ok (the_ctx st) p;
  i_hist : submitted st = ran st ++ run_queue (the_ctx st);
  i_noticed : run_queue (the_ctx st) ≠ [] → noticed (the_ctx st) (threads st);
  i_heeded : terminate_loop (the_ctx st) = true → heeded (the_ctx st) (threads st)
}.

Lemma inv_crashed w st : inv st → w ≠ by_loop → inv (crashed w st).
Proof. intros Hi Hw. destruct Hi. split; cbn; try done. by intros [= ->]. Qed.

Lemma pc_ok_outside c p : in_loop p = false → pc_ok c p ∨ interrupting p = true.
Proof. destruct p; cbn; auto. Qed.

(** Program points outside the loop do not depend on the context. *)
Lemma pc_ok_stable c c' p : in_loop p = false → pc_ok c p → pc_ok c' p.
Proof.
  induction p as [|k IH| | | | | | | | | | | | |]; cbn; try done. intros Hl (Hk & ? & ?). split_and!; auto.
Qed.

Lemma events_ok_mono c c' events :
  interrupt_addr c' = interrupt_addr c → counter c ≤ counter c' → events_ok c events → events_ok c' events.
Proof. intros Ha Hc [Hn He]. split; [done|]. intros a. rewrite Ha. intros H1 H2. specialize (He a H1 H2). lia. Qed.

Lemma pc_ok_mono c c' p :
  interrupt_addr c' = interrupt_addr c → counter c ≤ counter c' → installed_count c' = installed_count c →
  pc_ok c p → pc_ok c' p.
Proof.
  intros Ha Hc Hn. induction p as [|k IH| | | | | | | | | | | | |]; cbn; try done.
  - intros (Hk & ? & ?). split_and!; auto.
  - by rewrite Hn.
  - by rewrite Hn.
  - by apply events_ok_mono.
  - intros [He Hi]. split; [by eapply events_ok_mono|]. intros E. destruct (Hi E) as [? Hnot]. split; [lia|]. by rewrite Ha.
Qed.

Lemma noticed_keep c c' th t p p' :
  noticed c th → th !! t = Some p → counter c ≤ counter c' → (busy p = true → busy p' = true ∨ 0 < counter c') →
  noticed c' (<[t := p']> th).
Proof.
  intros [H0|(u & q & Hu & Hq)] Ht Hc Hb; [left; lia|]. destruct (decide (u = t)) as [->|Hne].
  - simplify_eq. destruct (Hb Hq); [|by left]. right. exists t, p'. by rewrite lookup_insert_eq.
  - right. exists u, q. by rewrite lookup_insert_ne.
Qed.
Lemma noticed_busy c th t p' : busy p' = true → noticed c (<[t := p']> th).
Proof. intros. right. exists t, p'. by rewrite lookup_insert_eq. Qed.

Lemma heeded_keep c c' th t p p' :
  heeded c th → th !! t = Some p → counter c ≤ counter c' →
  (interrupting p = true → 0 < counter c') → (polling p' = true → polling p = true) →
  heeded c' (<[t := p']> th).
Proof.
  intros [H0|[(u & q & Hu & Hq)|Hno]] Ht Hc Hb Hp; [left; lia| |].
  - destruct (decide (u = t)) as [->|Hne]; [simplify_eq; left; auto|].
    right; left. exists u, q. by rewrite lookup_insert_ne.
  - right; right. intros u q. rewrite lookup_insert_Some. intros [[<- <-]|[_ Hu]]; [|by eapply Hno].
    destruct (polling p') eqn:E; [|done]. specialize (Hno _ _ Ht). by rewrite Hp in Hno.
Qed.

(** The one step of the proof: thread [t] moves from [p] to [p'] and the context from [c] to
    [c'], both inside or both outside the loop. *)
Lemma inv_move st t p p' c' r e s' rn :
  inv st → threads st !! t = Some p → ctx_ok c' → 0 ≤ counter c' →
  looper_thread_id c' = looper_thread_id (the_ctx st) → in_loop p' = in_loop p → pc_ok c' p' →
  (∀ u q, u ≠ t → threads st !! u = Some q → pc_ok c' q) →
  s' = rn ++ run_queue c' →
  (run_queue c' ≠ [] → noticed c' (<[t := p']> (threads st))) →
  (terminate_loop c' = true → heeded c' (<[t := p']> (threads st))) →
  inv (mkSys c' (<[t := p']> (threads st)) (next_tid st) r e (crash st) s' rn).
Proof.
  intros Hi Ht Hok Hc Hl Hin Hpc Hoth Hh Hn He. split; cbn; try done.
  - apply (i_crash _ Hi).
  - intros u Hu. rewrite lookup_insert_ne by (intros <-; rewrite (i_fresh _ Hi) in Ht; done). by apply (i_fresh _ Hi).
  - intros u q. rewrite lookup_insert_Some, Hl. intros [[<- <-]|[_ Hu]]; [rewrite Hin|]; by apply (i_looper _ Hi).
  - intros u. rewrite Hl. intros Hu. apply lookup_insert_is_Some'. right. by apply (i_thread _ Hi).
  - intros u q. rewrite lookup_insert_Some. intros [[<- <-]|[? Hu]]; [done|]. by eapply Hoth.
Qed.

(** Threads other than the one that touches fdevents are outside the loop. *)
Lemma others_outside st t u q :
  inv st → on_looper t (the_ctx st) = true → u ≠ t → threads st !! u = Some q → in_loop q = false.
Proof.
  intros Hi Ho Hne Hu. destruct (in_loop q) eqn:E; [|done]. apply (i_looper _ Hi _ _ Hu) in E.
  unfold on_looper in Ho. rewrite E in Ho. apply bool_decide_eq_true in Ho. done.
Qed.

Lemma looper_on st t p : inv st → threads st !! t = Some p → in_loop p = true → on_looper t (the_ctx st) = true.
Proof.
  intros Hi Ht Hl. apply (i_looper _ Hi _ _ Ht) in Hl. unfold on_looper. rewrite Hl. by apply bool_decide_eq_true_2.
Qed.

(** ** Calls of clients *)

Lemma touch_ok t a c c' :
  ctx_ok c → on_looper t c = true → may_name a c = true → touch malloc t a c = Some (Ok c') → ctx_ok c' ∧ frame c c'.
Proof using malloc_fresh.
  intros Hok Ht Hname. unfold may_name in Hname.
  assert (∀ x, names a = Some x → ∀ f, heap c !! x = Some f → variant_fn (fde_func f) ≠ fdevent_interrupt_fn) as Hx.
  { intros x Hn f Hf. eapply not_interrupt; try done. rewrite Hn in Hname. intros E. rewrite E in Hname.
    rewrite bool_decide_eq_true_2 in Hname; done. }
  destruct a as [fd two f arg accepted|[x|]|x ev|x ev|x ev|x tm now|x| | |]; cbn; intros [= E]; try done.
  - assert (∃ a, Create malloc t fd (if two then fd_func2 (client_fn f) else fd_func (client_fn f)) arg accepted c = Ok (a, c')) as [a Hc].
    { destruct (Create _ _ _ _ _ _ _) as [[a c1]| | | |]; cbn in E; try done. exists a. congruence. }
    clear E. pose proof Hc as Hc'. unfold Create in Hc'. inv_res.
    destruct accepted; [|unfold Register in *; cbn in *; by rewrite lookup_insert_eq in *].
    destruct (Create_ok malloc malloc_fresh t c fd (if two then fd_func2 (client_fn f) else fd_func (client_fn f)) arg)
      as (a' & c1 & Hr & ? & ? & _); try done; [lia|by eapply bool_decide_eq_true|by destruct two|].
    rewrite Hr in Hc. by simplify_eq.
  - destruct (heap c !! x) as [g|] eqn:Hg.
    2: { unfold Destroy, Unregister, CheckLooperThread in E. rewrite (check_true _ Ht) in E. cbn in E. by rewrite Hg in E. }
    destruct (Destroy_ok t c x g Hok Ht Hg (Hx x eq_refl g Hg)) as (c1 & Hr & ? & ? & _). rewrite Hr in E. cbn in E. by simplify_eq.
  - unfold Destroy, CheckLooperThread in E. rewrite (check_true _ Ht) in E. cbn in E. simplify_eq. split; [done|apply frame_refl].
  - destruct (heap c !! x) as [g|] eqn:Hg; [|unfold Set_ in E; by rewrite Hg in E].
    destruct (Set_ok c x g ev Hok Hg) as (c1 & Hr & ? & ? & _); [by intros ?%(Hx x eq_refl g Hg)|]. rewrite Hr in E. by simplify_eq.
  - unfold Add in E. destruct (check _); cbn in E; try done. destruct (heap c !! x) as [g|] eqn:Hg; [|done]. cbn in E.
    destruct (Set_ok c x g (Z.lor (fde_state g) ev) Hok Hg) as (c1 & Hr & ? & ? & _); [by intros ?%(Hx x eq_refl g Hg)|].
    rewrite Hr in E. by simplify_eq.
  - unfold Del in E. destruct (check _); cbn in E; try done. destruct (heap c !! x) as [g|] eqn:Hg; [|done]. cbn in E.
    destruct (Set_ok c x g (Z.ldiff (fde_state g) ev) Hok Hg) as (c1 & Hr & ? & ? & _); [by intros ?%(Hx x eq_refl g Hg)|].
    rewrite Hr in E. by simplify_eq.
  - destruct (heap c !! x) as [g|] eqn:Hg.
    2: { unfold SetTimeout in E. destruct (CheckLooperThread t c); cbn in E; try done. by rewrite Hg in E. }
    destruct (SetTimeout_ok t c x g tm now Hok Ht Hg (Hx x eq_refl g Hg)) as (c1 & Hr & ? & ? & _). rewrite Hr in E. by simplify_eq.
Qed.

Lemma heeded_interrupting c th t k : heeded c (<[t := Interrupting k]> th).
Proof. right; left. exists t, (Interrupting k). by rewrite lookup_insert_eq. Qed.

Lemma polling_in_loop p : polling p = true → in_loop p = true.
Proof. by destruct p. Qed.

(** The loop's thread is the only one that can be polling. *)
Lemma heeded_looper st t p p' c' :
  inv st → threads st !! t = Some p → in_loop p = true → polling p' = false → heeded c' (<[t := p']> (threads st)).
Proof.
  intros Hi Ht Hl Hp. right; right. intros u q. rewrite lookup_insert_Some. intros [[<- <-]|[Hne Hu]]; [done|].
  destruct (polling q) eqn:E; [|done]. apply polling_in_loop in E.
  rewrite (others_outside st t u q Hi) in E; try done. by eapply looper_on.
Qed.

Lemma others_stable st t u q c' :
  inv st → on_looper t (the_ctx st) = true → u ≠ t → threads st !! u = Some q → pc_ok c' q.
Proof.
  intros Hi Ho Hne Hu. eapply pc_ok_stable; [by eapply others_outside|]. by apply (i_pc _ Hi _ _ Hu).
Qed.

Lemma client_at_ok p : client_at p = true → interrupting p = false ∧ polling p = false.
Proof. by destruct p. Qed.

(** A client's program point after a change that frames the loop's state. *)
Lemma client_pc_ok c c' p : client_at p = true → frame c c' → pc_ok c p → pc_ok c' p.
Proof.
  intros Hp [_ _ _ _ Hc Ha]. destruct p; cbn in *; try done. intros [He Hi]. split; [by eapply events_ok_mono; [| |done]; [done|lia]|].
  intros E. by rewrite E in Hp.
Qed.

(** A step outside the loop that leaves the context alone. *)
Lemma inv_outside st t p p' r e :
  inv st → threads st !! t = Some p → in_loop p = false → interrupting p = false →
  in_loop p' = false → interrupting p' = false →
  inv (mkSys (the_ctx st) (<[t := p']> (threads st)) (next_tid st) r e (crash st) (submitted st) (ran st)).
Proof.
  intros Hi Ht Hl Hn Hl' Hn'. eapply inv_move; try done; try apply Hi.
  - by rewrite Hl, Hl'.
  - by destruct p'.
  - intros u q _ Hu. by apply (i_pc _ Hi _ _ Hu).
  - intros Hq. eapply noticed_keep; [by apply (i_noticed _ Hi)|done|lia|]. unfold busy. rewrite Hn. by destruct p.
  - intros Htm. eapply heeded_keep; [by apply (i_heeded _ Hi)|done|lia|by rewrite Hn|by destruct p'].
Qed.

Lemma begin_call_inv st t a p st' :
  inv st → threads st !! t = Some p → client_at p = true → may_name a (the_ctx st) = true →
  begin_call malloc t a p st = Some st' → inv st'.
Proof using malloc_fresh.
  intros Hi Ht Hp Hname. destruct (client_at_ok _ Hp) as [Hni Hnp]. pose proof (i_pc _ Hi _ _ Ht) as Hpc. unfold begin_call.
  destruct (touch malloc t a (the_ctx st)) as [r|] eqn:Et.
  - intros [= <-]. destruct (on_looper t (the_ctx st)) eqn:Ho; [|by apply inv_crashed].
    destruct r as [c'| | | |]; try by apply inv_crashed.
    destruct (touch_ok t a (the_ctx st) c') as [Hok Hf]; try done; [apply (i_ctx _ Hi)|].
    pose proof Hf as [Hl Htm Hq Hfd Hc Ha]. cbn. unfold at_pc, id. eapply inv_move; try done.
    + rewrite Hc. apply (i_counter _ Hi).
    + by eapply client_pc_ok.
    + intros. by eapply others_stable.
    + rewrite Hq. apply (i_hist _ Hi).
    + rewrite Hq. intros Hne. eapply noticed_keep; [by apply (i_noticed _ Hi)|done|lia|by left].
    + rewrite Htm. intros Hne. eapply heeded_keep; [by apply (i_heeded _ Hi)|done|lia| |done]. by rewrite Hni.
  - destruct a; try done.
    + intros [= <-]. eapply inv_move; try done; try apply Hi.
      * by destruct (i_ctx _ Hi).
      * cbn. split_and!; try done. by eapply pc_ok_mono; [| | |done].
      * intros u q _ Hu. eapply pc_ok_mono; [..|by apply (i_pc _ Hi _ _ Hu)]; done.
      * cbn. by rewrite (i_hist _ Hi), <- app_assoc.
      * intros _. by apply noticed_busy.
      * intros _. apply heeded_interrupting.
    + intros [= <-]. unfold at_pc. eapply inv_move; try done; try apply Hi.
      * by destruct (i_ctx _ Hi).
      * cbn. split_and!; try done. by eapply pc_ok_mono; [| | |done].
      * intros u q _ Hu. eapply pc_ok_mono; [..|by apply (i_pc _ Hi _ _ Hu)]; done.
      * intros _. by apply noticed_busy.
      * intros _. apply heeded_interrupting.
    + destruct p; try done. intros [= <-]. eapply inv_outside; try done; by case_match.
    + destruct p; try done. intros [= <-]. eapply inv_outside; try done; by case_match.
Qed.

(** ** Steps of the loop *)

Lemma installed_pos c : ctx_ok c → 0 < installed_count c.
Proof.
  intros Hok. destruct (ok_interrupt _ Hok) as (a & f & Ha & _). unfold installed_count.
  assert (size (installed_fdevents c) ≠ 0%nat); [|lia]. intros E%map_size_empty_inv. by rewrite E, lookup_empty in Ha.
Qed.

(** The loop's thread goes on in the loop, without polling. *)
Lemma inv_loop st t p p' c' r e s' rn :
  inv st → threads st !! t = Some p → in_loop p = true → ctx_ok c' → 0 ≤ counter c' →
  looper_thread_id c' = looper_thread_id (the_ctx st) → in_loop p' = true → polling p' = false → pc_ok c' p' →
  s' = rn ++ run_queue c' → (run_queue c' ≠ [] → noticed c' (<[t := p']> (threads st))) →
  inv (mkSys c' (<[t := p']> (threads st)) (next_tid st) r e (crash st) s' rn).
Proof.
  intros Hi Ht Hl ? ? ? Hl' Hp ? ? ?. pose proof (looper_on _ _ _ Hi Ht Hl). eapply inv_move; try done.
  - by rewrite Hl, Hl'.
  - intros. by eapply others_stable.
  - intros _. by eapply heeded_looper.
Qed.

Lemma interrupt_fde_node c a f : ctx_ok c → heap c !! a = Some f →
  variant_fn (fde_func f) = fdevent_interrupt_fn → interrupt_addr c = Some a.
Proof. intros Hok Ha Hv. unfold interrupt_addr. rewrite <- (ok_own _ Hok _ _ Ha Hv). by apply (ok_node _ Hok). Qed.

Lemma events_ok_tail c a ev events : events_ok c ((a, ev) :: events) → events_ok c events ∧ a ∉ events.*1.
Proof.
  intros [Hn He]. cbn in Hn, He. apply NoDup_cons in Hn as [Ha Hn]. split; [|done]. split; [done|]. intros b ? ?.
  apply (He b); [done|by right].
Qed.

Lemma handle_next_inv st t n events :
  inv st → threads st !! t = Some (LDispatch n events) → inv (handle_next t n events st).
Proof.
  intros Hi Ht. pose proof (i_ctx _ Hi) as Hok. pose proof (i_pc _ Hi _ _ Ht) as Hpc. cbn in Hpc. unfold handle_next.
  destruct events as [|[a ev] events].
  { eapply inv_loop; try done; try apply Hi. intros _. by apply noticed_busy. }
  destruct (events_ok_tail _ _ _ _ Hpc) as [Htl Hnot]. case_bool_decide as Hset.
  - rewrite (ok_set _ Hok), elem_of_dom in Hset. destruct Hset as [f Hf]. rewrite Hf. cbn.
    eapply inv_loop; try done; try apply Hi; [|intros _; by apply noticed_busy].
    cbn. split; [done|]. rewrite callee_invoke. intros Hv. pose proof (interrupt_fde_node _ _ _ Hok Hf Hv) as Ha. split.
    + apply (proj2 Hpc a Ha). cbn. by left.
    + intros b Hb. by simplify_eq.
  - eapply inv_loop; try done; try apply Hi. intros _. by apply noticed_busy.
Qed.

Lemma fdevent_interrupt_inv st t n i events :
  inv st → threads st !! t = Some (LHandler n i events) → callee i = fdevent_interrupt_fn →
  inv (fdevent_interrupt t n events st).
Proof.
  intros Hi Ht Hc. destruct (i_pc _ Hi _ _ Ht) as [[Hn He] Hint]. destruct (Hint Hc) as [Hpos Hnot].
  unfold fdevent_interrupt. rewrite (proj2 (Z.eqb_neq _ _)) by lia.
  eapply inv_loop; try done; try apply Hi.
  - by destruct (i_ctx _ Hi).
  - cbn. split; [done|]. intros a Ha. by apply Hnot in Ha.
  - intros _. by apply noticed_busy.
Qed.

Lemma flush_next_inv st t n : inv st → threads st !! t = Some (LFlush n) → inv (flush_next t n st).
Proof.
  intros Hi Ht. unfold flush_next. destruct (run_queue (the_ctx st)) as [|task q] eqn:Eq.
  - eapply inv_loop; try done; try apply Hi.
  - eapply inv_loop; try done; try apply Hi; [by destruct (i_ctx _ Hi)| |intros _; by apply noticed_busy].
    cbn. by rewrite (i_hist _ Hi), Eq, <- app_assoc.
Qed.

Lemma loop_top_inv st t n : inv st → threads st !! t = Some (LTop n) → inv (loop_top t n st).
Proof.
  intros Hi Ht. pose proof (looper_on _ _ _ Hi Ht eq_refl) as Ho. unfold loop_top.
  destruct (terminate_loop (the_ctx st)) eqn:Etm.
  - split; cbn; try apply Hi.
    + by destruct (i_ctx _ Hi).
    + intros u Hu. rewrite lookup_insert_ne by (intros <-; by rewrite (i_fresh _ Hi) in Ht). by apply (i_fresh _ Hi).
    + intros u q. rewrite lookup_insert_Some. intros [[<- <-]|[Hne Hu]]; [done|].
      by rewrite (others_outside st t u q Hi Ho) by done.
    + done.
    + intros u q. rewrite lookup_insert_Some. intros [[<- <-]|[Hne Hu]]; [done|]. by eapply others_stable.
    + intros Hq. eapply noticed_keep; [by apply (i_noticed _ Hi)|done|cbn; lia|done].
    + intros _. by eapply heeded_looper.
  - eapply inv_move; try done; try apply Hi.
    + cbn. unfold installed_count. lia.
    + intros u q ? Hu. by apply (i_pc _ Hi _ _ Hu).
    + intros Hq. eapply noticed_keep; [by apply (i_noticed _ Hi)|done|lia|done].
    + by rewrite Etm.
Qed.

Lemma poll_inv st t n now :
  inv st → threads st !! t = Some (LPoll n) →
  inv (proceed by_loop t (CalculatePollDuration t now (the_ctx st)) (λ d, LWait n (timeout_ms d)) (λ _, the_ctx st) st).
Proof.
  intros Hi Ht. pose proof (looper_on _ _ _ Hi Ht eq_refl) as Ho. unfold CalculatePollDuration, CheckLooperThread.
  rewrite (check_true _ Ho). cbn [mbind res_bind].
  destruct (poll_duration_spec (the_ctx st) now (in_order (installed_fdevents (the_ctx st))) None) as (d & -> & _).
  { intros fd a Ha%in_order_elem. destruct (ok_installed _ (i_ctx _ Hi) _ _ Ha) as (f & ? & _). by exists f. }
  cbn. eapply inv_move; try done; try apply Hi.
  - exact (i_pc _ Hi _ _ Ht).
  - intros u q ? Hu. by apply (i_pc _ Hi _ _ Hu).
  - intros Hq. eapply noticed_keep; [by apply (i_noticed _ Hi)|done|lia|done].
  - intros Htm. by eapply heeded_keep; [by apply (i_heeded _ Hi)|done|lia| |].
Qed.

Lemma answer_inv st t n timeout l now :
  inv st → threads st !! t = Some (LWait n timeout) → epoll_wait_ok n timeout l (the_ctx st) = true →
  inv (proceed by_loop t (collect_events (with_pointers (the_ctx st) l) now (the_ctx st))
         (λ r, LDispatch n r.1) (λ r, r.2) st).
Proof.
  intros Hi Ht (Hnd & Hlen & He & _)%epoll_wait_ok_inv. pose proof (i_ctx _ Hi) as Hok.
  rewrite (collect_events_run _ _ _ Hok He Hnd). cbn.
  set (c' := stamps _ _ _). assert (frame (the_ctx st) c') as Hf by apply stamps_rest.
  pose proof Hf as [Hl Htm Hq Hfd Hc Ha].
  eapply inv_loop; try done.
  - by apply stamps_ok.
  - rewrite Hc. apply Hi.
  - cbn. destruct (turn_events_NoDup (the_ctx st) l now Hok He Hnd) as [Hn _]. split; [done|].
    intros a. rewrite Ha, Hc. intros Hia. unfold turn_events, polled. rewrite fmap_app, <- !list_fmap_compose.
    destruct (ok_interrupt _ Hok) as (b & f & Hb & Hf' & Hv & Hs & Hto). unfold interrupt_addr in Hia.
    assert (b = a) as -> by congruence.
    intros [Hin|Hin]%elem_of_app; apply list_elem_of_fmap in Hin as (e & -> & Hin); cbn in *.
    + destruct e as [ev a]. destruct (with_pointers_elem _ _ _ _ Hok He Hin) as (g & Hg & _ & _ & _ & _ & Hpos).
      cbn in *. apply Hpos. simplify_eq. by apply (ok_own _ Hok _ _ Hf').
    + apply list_elem_of_filter in Hin as [(_ & g & tm & Hg & Htm' & _) _]. cbn in *. congruence.
  - rewrite Hq. apply Hi.
  - intros _. by apply noticed_busy.
Qed.

Lemma interrupt_inv st t k :
  inv st → threads st !! t = Some (Interrupting k) → inv (Interrupt t k st).
Proof.
  intros Hi Ht. destruct (i_pc _ Hi _ _ Ht) as (Hk & Hni & Hnp). pose proof (i_counter _ Hi). unfold Interrupt.
  destruct (_ <? _); [|by apply inv_crashed]. eapply inv_move; try done; try apply Hi.
  - by destruct (i_ctx _ Hi).
  - cbn. lia.
  - by eapply pc_ok_mono; [| | |exact Hk]; [done|cbn; lia|done].
  - intros u q _ Hu. eapply pc_ok_mono; [..|by apply (i_pc _ Hi _ _ Hu)]; [done|cbn; lia|done].
  - intros _. left. cbn. lia.
  - intros _. left. cbn. lia.
Qed.

Lemma enter_inv st t :
  inv st → threads st !! t = Some LEnter → looper_thread_id (the_ctx st) = None →
  inv (at_pc t (LTop 0) (set_looper (Some t) false (the_ctx st)) st).
Proof.
  intros Hi Ht Hno. split; cbn; try apply Hi; try done.
  - by destruct (i_ctx _ Hi).
  - intros u Hu. rewrite lookup_insert_ne by (intros <-; by rewrite (i_fresh _ Hi) in Ht). by apply (i_fresh _ Hi).
  - intros u q. rewrite lookup_insert_Some. intros [[<- <-]|[Hne Hu]]; [done|].
    pose proof (i_looper _ Hi _ _ Hu) as Hl. rewrite Hno in Hl. split; [intros E%Hl; done|congruence].
  - intros u [= <-]. by rewrite lookup_insert_eq.
  - intros u q. rewrite lookup_insert_Some. intros [[<- <-]|[Hne Hu]]; [done|].
    eapply (others_stable st t); try done. unfold on_looper. by rewrite Hno.
  - intros Hq. eapply noticed_keep; [by apply (i_noticed _ Hi)|done|cbn; lia|done].
Qed.

Lemma spawn_inv st t w :
  inv st → threads st !! t = Some StartSpawn → w = next_tid st →
  inv (mkSys (the_ctx st) (<[t := Idle]> (<[w := LEnter]> (threads st))) (S w) true (Some w)
         (crash st) (submitted st) (ran st)).
Proof.
  intros Hi Ht ->. pose proof (i_fresh _ Hi (next_tid st) (Nat.le_refl _)) as Hf.
  assert (t ≠ next_tid st) as Hne by (intros ->; congruence). split; cbn; try apply Hi.
  - intros u Hu. assert (t ≠ u). { intros ->. rewrite (i_fresh _ Hi u) in Ht; [done|lia]. }
    rewrite !lookup_insert_ne by lia. apply (i_fresh _ Hi). lia.
  - intros u q. rewrite !lookup_insert_Some. intros [[<- <-]|[Hu [[<- <-]|[Hu' Hq]]]].
    + by apply (i_looper _ Hi _ _ Ht).
    + split; [done|]. intros [p Hp]%(i_thread _ Hi). congruence.
    + by apply (i_looper _ Hi _ _ Hq).
  - intros u Hu%(i_thread _ Hi). apply lookup_insert_is_Some'. right. apply lookup_insert_is_Some'. by right.
  - intros u q. rewrite !lookup_insert_Some. intros [[<- <-]|[Hu [[<- <-]|[Hu' Hq]]]]; try done. by apply (i_pc _ Hi _ _ Hq).
  - intros Hq. eapply noticed_keep; [|by rewrite lookup_insert_ne|done|done].
    destruct (i_noticed _ Hi Hq) as [?|(u & q & Hu & ?)]; [by left|]. right. exists u, q.
    rewrite lookup_insert_ne; [done|]. congruence.
  - intros Htm. eapply heeded_keep; [|by rewrite lookup_insert_ne|done|done|done].
    destruct (i_heeded _ Hi Htm) as [?|[(u & q & Hu & ?)|Hall]]; [by left|right; left|right; right].
    + exists u, q. rewrite lookup_insert_ne; [done|]. congruence.
    + intros u q. rewrite lookup_insert_Some. intros [[<- <-]|[_ Hu]]; [done|]. by eapply Hall.
Qed.

Lemma go_inv st t p now st' :
  inv st → threads st !! t = Some p → go t p now st = Some st' → inv st'.
Proof.
  intros Hi Ht. destruct p as [|k| |n|n|n tm|n ev|n i ev|n|n x| | | | |]; cbn [go]; unfold AdbManager_spawn, AdbManager_join; intros E; try done.
  - injection E as <-. by apply interrupt_inv.
  - injection E as <-. destruct (looper_thread_id (the_ctx st)) eqn:El; [by apply inv_crashed|]. by apply enter_inv.
  - injection E as <-. by apply loop_top_inv.
  - injection E as <-. by apply poll_inv.
  - pose proof (i_pc _ Hi _ _ Ht) as Hn. cbn in Hn. pose proof (installed_pos _ (i_ctx _ Hi)).
    destruct (Z.leb_spec n 0); [lia|done].
  - injection E as <-. by apply handle_next_inv.
  - destruct (callee i) eqn:Ec; [|done]. injection E as <-. by eapply fdevent_interrupt_inv.
  - injection E as <-. by apply flush_next_inv.
  - injection E as <-. destruct (event_thread st); [by apply inv_crashed|]. by apply spawn_inv.
  - injection E as <-. by eapply inv_outside.
  - injection E as <-. unfold at_pc. eapply inv_move; try done; try apply Hi.
    + by destruct (i_ctx _ Hi).
    + intros u q _ Hu. eapply pc_ok_mono; [..|by apply (i_pc _ Hi _ _ Hu)]; done.
    + intros _. by apply noticed_busy.
    + intros _. apply heeded_interrupting.
  - destruct (event_thread st) as [w|]; [|injection E as <-; by eapply inv_outside].
    destruct (threads st !! w) as [[]|]; try done. injection E as <-. by eapply inv_outside.
Qed.

Lemma step_inv st t a st' : inv st → step malloc t a st = Some st' → inv st'.
Proof using malloc_fresh.
  intros Hi. unfold step. destruct (crash st); [done|]. destruct (threads st !! t) as [p|] eqn:Ht; [|done].
  destruct a as [x| |now|l now|].
  - destruct (client_at p && may_name x (the_ctx st)) eqn:E; [|done]. apply andb_prop in E as [Hc Hn].
    by eapply begin_call_inv.
  - pose proof (i_pc _ Hi _ _ Ht) as Hpc. destruct p; try done.
    + destruct (client_at _); [|done]. intros [= <-]. eapply inv_loop; try done; try apply Hi; [apply Hpc|].
      intros _. by apply noticed_busy.
    + intros [= <-]. eapply inv_loop; try done; try apply Hi. intros _. by apply noticed_busy.
  - by apply go_inv.
  - destruct p as [| | | | |n tm| | | | | | | | |]; try done. destruct (0 <? n); [|done].
    destruct (epoll_wait_ok _ _ _ _) eqn:Ew; [|done]. intros [= <-]. by eapply answer_inv.
  - pose proof (i_pc _ Hi _ _ Ht) as Hpc. destruct p as [| | | | |n tm| | | | | | | | |]; try done. destruct (0 <? n); [|done].
    intros [= <-]. eapply inv_move; try done; try apply Hi.
    + intros u q ? Hu. by apply (i_pc _ Hi _ _ Hu).
    + intros Hq. eapply noticed_keep; [by apply (i_noticed _ Hi)|done|lia|done].
    + intros Htm. by eapply heeded_keep; [by apply (i_heeded _ Hi)|done|lia| |].
Qed.

Lemma context_ok fd c :
  fdevent_context_epoll malloc 0 fd = Ok c →
  ctx_ok c ∧ looper_thread_id c = None ∧ counter c = 0 ∧ run_queue c = [] ∧ terminate_loop c = false.
Proof.
  unfold fdevent_context_epoll, Create, CheckLooperThread, Add, Set_, Register. cbn.
  destruct (Z.leb_spec 0 fd) as [Hfd|Hfd]; [|done]. cbn. set (a := malloc _).
  rewrite bool_decide_eq_true_2 by apply lookup_empty. cbn. rewrite lookup_insert_eq. cbn.
  rewrite bool_decide_eq_true_2 by apply lookup_empty. cbn. repeat (rewrite !lookup_insert_eq; cbn). intros [= <-].
  split; [|done]. split; cbn [heap installed_fdevents fdevent_set interest interrupt_fd set_interest set_fde set_nodes];
    rewrite ?insert_insert_eq.
  - intros b f. rewrite lookup_insert_Some, lookup_empty. intros [[<- <-]|[_ ?]]; [apply lookup_insert_eq|done].
  - intros fd' b. rewrite lookup_insert_Some, lookup_empty. intros [[<- <-]|[_ ?]]; [|done]. rewrite lookup_insert_eq. eauto.
  - by rewrite dom_insert_L, dom_empty_L.
  - intros fd'. destruct (decide (fd' = fd)) as [->|]; [by rewrite !lookup_insert_eq; cbn; rewrite lookup_insert_eq|].
    by rewrite !lookup_insert_ne by done.
  - intros b f. rewrite lookup_insert_Some, lookup_empty. by intros [[<- <-]|[_ ?]].
  - intros b f. rewrite lookup_insert_Some, lookup_empty. by intros [[<- <-]|[_ ?]].
  - exists a. eexists. rewrite !lookup_insert_eq. by split_and!.
Qed.

Lemma loop_reachable_inv n st : reachable malloc n st → inv st.
Proof using malloc_fresh.
  induction 1 as [fd c Hc|st st' t a _ IH Hs]; [|by eapply step_inv].
  apply context_ok in Hc as (Hok & Hl & Hct & Hq & Htm).
  assert (∀ t p, threads (init n c) !! t = Some p → p = Idle) as Hidle.
  { intros t p. cbn. intros Hp%elem_of_list_to_map_2. apply list_elem_of_fmap in Hp as (? & [= -> ->] & _). done. }
  split; cbn [init the_ctx crash next_tid submitted ran]; try done.
  - lia.
  - intros t Ht. apply not_elem_of_list_to_map_1. rewrite <- list_fmap_compose. intros (x & -> & Hx)%list_elem_of_fmap.
    apply elem_of_seq in Hx. cbn in *. lia.
  - intros t p ->%Hidle. rewrite Hl. done.
  - by rewrite Hl.
  - by intros t p ->%Hidle.
  - by rewrite Htm.
Qed.

(** ** What the loop promises *)

(** C6. Whatever the clients of the event loop do, on whatever threads and in whatever order,
    the loop itself never aborts and never touches a freed fdevent: a handler is only
    called through an installed fdevent, no CHECK of the loop fails, the pointers into the
    vector of events stay valid, epoll_wait gets room for an event and the interrupt
    handler always has something to read; and the map, the set of pointers and the
    interest list of epoll agree. *)
Theorem loop_safe n st : reachable malloc n st → crash st ≠ Some by_loop ∧ ctx_ok (the_ctx st).
Proof using malloc_fresh. intros Hi%loop_reachable_inv. split; apply Hi. Qed.

(** The functions passed to Run are called once each, in the order in which they were
    passed, by whichever threads: those called so far, followed by the queue, are those
    passed so far. *)
Theorem run_in_order n st :
  reachable malloc n st → submitted st = ran st ++ run_queue (the_ctx st).
Proof using malloc_fresh. intros Hi%loop_reachable_inv. apply Hi. Qed.

Lemma looper_awake st t n tm :
  inv st → threads st !! t = Some (LWait n tm) →
  run_queue (the_ctx st) ≠ [] ∨ terminate_loop (the_ctx st) = true →
  (∀ u p, threads st !! u = Some p → interrupting p = false) →
  0 < counter (the_ctx st).
Proof.
  intros Hi Ht [Hq|Htm] Hno.
  - destruct (i_noticed _ Hi Hq) as [?|(u & p & Hu & Hb)]; [done|]. unfold busy in Hb. rewrite (Hno u p Hu) in Hb.
    assert (in_loop p = true) as Hl by (by destruct p). apply (i_looper _ Hi _ _ Hu) in Hl.
    assert (looper_thread_id (the_ctx st) = Some t) as Hl' by (by apply (i_looper _ Hi _ _ Ht)). by simplify_eq.
  - destruct (i_heeded _ Hi Htm) as [?|[(u & p & Hu & Hb)|Hall]]; [done| |].
    + by rewrite (Hno u p Hu) in Hb.
    + by specialize (Hall _ _ Ht).
Qed.

Lemma full_answer c n l :
  ctx_ok c → installed_count c ≤ n → (∀ e, e ∈ l → entry_ok c e = true) → NoDup l.*1 → llen l = n →
  interrupt_fd c ∈ l.*1.
Proof.
  intros Hok Hn He Hnd Hl.
  assert (∀ fd, fd ∈ l.*1 → fd ∈ elements (dom (installed_fdevents c))) as Hsub.
  { intros fd (e & -> & Hin)%list_elem_of_fmap. apply elem_of_elements, elem_of_dom. specialize (He e Hin).
    unfold entry_ok in He. rewrite (ok_interest _ Hok) in He. destruct (installed_fdevents c !! e.1); [eauto|done]. }
  assert (elements (dom (installed_fdevents c)) ⊆+ l.*1) as Hs.
  { apply NoDup_submseteq in Hsub; [|done]. apply submseteq_length_Permutation in Hsub; [by rewrite Hsub|].
    rewrite length_fmap. pose proof (size_dom (D:=gset Z) (installed_fdevents c)).
    unfold installed_count, llen in *. unfold size, set_size in *. cbn in *. lia. }
  eapply elem_of_submseteq; [|done]. apply elem_of_elements, elem_of_dom.
  destruct (ok_interrupt _ Hok) as (a & f & Ha & _). by exists a.
Qed.

(** C8. No wake-up is lost: while a function is queued, or the loop is asked to stop, and
    nobody is about to interrupt it, a loop that waits in epoll_wait is woken: the
    interrupt descriptor is ready, so that epoll_wait has an answer, and every answer it
    may give reports the interrupt. *)
Theorem no_lost_interrupt n st t m tm :
  reachable malloc n st → threads st !! t = Some (LWait m tm) →
  run_queue (the_ctx st) ≠ [] ∨ terminate_loop (the_ctx st) = true →
  (∀ u p, threads st !! u = Some p → interrupting p = false) →
  interrupt_ready (the_ctx st) = true ∧
  (∃ l, epoll_wait_ok m tm l (the_ctx st) = true) ∧
  (∀ l, epoll_wait_ok m tm l (the_ctx st) = true → interrupt_fd (the_ctx st) ∈ l.*1).
Proof using malloc_fresh.
  intros Hi%loop_reachable_inv Ht Hw Hno. pose proof (looper_awake _ _ _ _ Hi Ht Hw Hno) as Hpos.
  pose proof (i_ctx _ Hi) as Hok. pose proof (i_pc _ Hi _ _ Ht) as Hn. cbn in Hn. pose proof (installed_pos _ Hok) as Hsz.
  destruct (ok_interrupt _ Hok) as (a & f & Ha & Hf & Hv & Hs & Hto).
  assert (interest (the_ctx st) !! interrupt_fd (the_ctx st) = Some (calculate_epoll_event (fde_state f), a)) as Hint.
  { rewrite (ok_interest _ Hok), Ha. cbn. by rewrite Hf. }
  assert (interrupt_ready (the_ctx st) = true) as Hr.
  { unfold interrupt_ready. rewrite Hint, calculate_in, Hs. rewrite (proj2 (Z.ltb_lt _ _) Hpos). done. }
  split_and!; [done| |].
  - exists [(interrupt_fd (the_ctx st), EPOLLIN)]. unfold epoll_wait_ok. rewrite Hr.
    assert (entry_ok (the_ctx st) (interrupt_fd (the_ctx st), EPOLLIN) = true) as He.
    { unfold entry_ok. cbn [fst snd]. rewrite Hint, Z.eqb_refl, (proj2 (Z.ltb_lt _ _) Hpos).
      unfold calculate_epoll_event. rewrite Hs. by repeat case_match. }
    cbn [forallb fmap list_fmap fst]. rewrite He.
    rewrite (bool_decide_eq_true_2 (NoDup _)) by apply NoDup_singleton.
    rewrite (bool_decide_eq_true_2 (_ ∈ [_])) by (by apply list_elem_of_singleton).
    rewrite (proj2 (Z.leb_le _ _)) by (change (llen _) with 1; lia). rewrite bool_decide_eq_false_2 by done.
    by rewrite !orb_true_r.
  - intros l (Hnd & Hlen & He & _ & Hfull)%epoll_wait_ok_inv. destruct (Hfull Hr) as [E|E]; [|done].
    by eapply full_answer.
Qed.

(** ** A queued function is called soon *)

(** How many steps of its own the loop needs at most to get to the queue. *)
Definition distance c p : Z :=
  match p with
  | LFlush _ => 0
  | LTask _ _ => 1
  | LDispatch _ events => 1 + 2 * llen events
  | LHandler _ _ events => 2 + 2 * llen events
  | LWait _ _ => 2 + 2 * installed_count c
  | LPoll _ => 3 + 2 * installed_count c
  | LTop _ => 4 + 2 * installed_count c
  | _ => 0
  end.

(** A step of the loop's thread in which its handlers make no calls and no signal arrives. *)
Definition plain (a : @action F T) : bool := match a with Call _ | Eintr => false | _ => true end.
Definition own_steps (t : nat) (tr : list (nat * @action F T)) : Z := llen (filter (λ e, e.1 = t) tr).

(** Where the loop is on its way to the queued function [x]: [rn] are the functions that are
    called before it, those of the queue in front of it take two steps each. *)
Record on_the_way st t x d rn : Prop := {
  w_inv : inv st;
  w_at : ∃ p pre rest, threads st !! t = Some p ∧ in_loop p = true ∧ interrupting p = false ∧
    run_queue (the_ctx st) = pre ++ x :: rest ∧ ran st ++ pre = rn ∧ distance (the_ctx st) p + 2 * llen pre ≤ d
}.

Lemma on_the_way_own st t x d rn a st' :
  on_the_way st t x d rn → terminate_loop (the_ctx st) = false → plain a = true →
  step malloc t a st = Some st' → crash st' = None →
  ran st' = rn ++ [x] ∨ (on_the_way st' t x (d - 1) rn ∧ terminate_loop (the_ctx st') = false ∧ 0 < d).
Proof using malloc_fresh.
  intros [Hi (p & pre & q & Ht & Hl & Hni & Hq & Hr & Hd)] Htm Ha Hs Hcr. pose proof (step_inv _ _ _ _ Hi Hs) as Hi'.
  unfold step in Hs. destruct (crash st) eqn:Ecr; [done|]. rewrite Ht in Hs.
  assert (∀ p', inv (at_pc t p' (the_ctx st) st) → in_loop p' = true → interrupting p' = false →
    distance (the_ctx st) p' + 2 * llen pre ≤ d - 1 → 0 < d →
    on_the_way (at_pc t p' (the_ctx st) st) t x (d - 1) rn ∧
    terminate_loop (the_ctx (at_pc t p' (the_ctx st) st)) = false ∧ 0 < d) as Hgo.
  { intros p' Hinv Hl' Hni' Hd' Hpos. split; [|by split]. split; [done|].
    exists p', pre, q. cbn. by rewrite lookup_insert_eq. }
  pose proof (llen_nonneg pre) as Hpre.
  destruct a as [|  |now|l now|]; try done.
  - destruct p; try done.
    + destruct (client_at _); [|done]. injection Hs as <-. cbn in Hd. lens. right. apply Hgo; try done; cbn; lia.
    + injection Hs as <-. cbn in Hd. right. apply Hgo; try done; cbn; lia.
  - destruct p as [|k| |n|n|n tm|n ev|n i ev|n|n y| | | | |]; try done; cbn [go] in Hs; unfold AdbManager_spawn, AdbManager_join in Hs.
    + injection Hs as <-. unfold loop_top in *. rewrite Htm in *. right. cbn in Hd.
      apply Hgo; try done; cbn; pose proof (installed_pos _ (i_ctx _ Hi)); lia.
    + injection Hs as <-. destruct (CalculatePollDuration _ _ _); try done. right. cbn in Hd.
      apply Hgo; try done; cbn; pose proof (installed_pos _ (i_ctx _ Hi)); lia.
    + pose proof (i_pc _ Hi _ _ Ht) as Hn. cbn in Hn. pose proof (installed_pos _ (i_ctx _ Hi)).
      destruct (Z.leb_spec n 0); [lia|done].
    + injection Hs as <-. unfold handle_next in *. right. cbn in Hd. destruct ev as [|[b e] ev].
      * change (llen []) with 0 in Hd. apply Hgo; try done; cbn; lia.
      * rewrite llen_cons in Hd. lens. case_bool_decide.
        -- destruct (heap (the_ctx st) !! b); [|done]. apply Hgo; try done; cbn; lia.
        -- apply Hgo; try done; cbn; lia.
    + destruct (callee i); [|done]. injection Hs as <-. unfold fdevent_interrupt in *.
      destruct (_ =? 0); [done|]. cbn in Hd. lens. right. split; [|split; [done|lia]]. split; [done|].
      exists (LDispatch n ev), pre, q. cbn. rewrite lookup_insert_eq. split_and!; try done. lia.
    + injection Hs as <-. unfold flush_next in *. rewrite Hq in *. destruct pre as [|y pre]; cbn in *.
      { left. by rewrite <- Hr, app_nil_r. }
      right. rewrite llen_cons in Hd. lens. split; [|split; [done|lia]]. split; [done|].
      exists (LTask n y), pre, q. cbn. rewrite lookup_insert_eq. split_and!; try done; [by rewrite <- Hr, <- app_assoc|lia].
  - destruct p as [| | | | |n tm| | | | | | | | |]; try done. cbn in Hd. destruct (0 <? n); [|done].
    destruct (epoll_wait_ok _ _ _ _) eqn:Ew; [|done]. apply epoll_wait_ok_inv in Ew as (Hnd & _ & He & _).
    pose proof (i_ctx _ Hi) as Hok. cbn [andb] in Hs. rewrite (collect_events_run _ _ _ Hok He Hnd) in Hs. cbn in Hs.
    injection Hs as <-. right. destruct (stamps_rest now ((with_pointers (the_ctx st) l).*2 ++ late (the_ctx st) (with_pointers (the_ctx st) l) now) (the_ctx st)) as [Hf _].
    pose proof (installed_pos _ Hok). pose proof (turn_events_length (the_ctx st) l now Hok He Hnd) as Hlen.
    split; [|split; [|lia]]. 2: { cbn. by rewrite (fr_terminate _ _ Hf). }
    split; [done|].
    eexists _, pre, q. cbn. rewrite lookup_insert_eq, (fr_queue _ _ Hf). split_and!; try done. cbn. unfold turn_events, polled.
    rewrite llen_app. unfold llen in *. rewrite !length_fmap. unfold installed_count in *. lia.
Qed.

Lemma on_the_way_other st t x d rn u a st' :
  on_the_way st t x d rn → u ≠ t → step malloc u a st = Some st' → crash st' = None →
  on_the_way st' t x d rn ∧ (terminate_loop (the_ctx st') = false → terminate_loop (the_ctx st) = false).
Proof using malloc_fresh.
  intros [Hi (p & pre & q & Ht & Hl & Hni & Hq & Hr & Hd)] Hne Hs Hcr. pose proof (step_inv _ _ _ _ Hi Hs) as Hi'.
  assert (looper_thread_id (the_ctx st) = Some t) as Hlp by (by apply (i_looper _ Hi _ _ Ht)).
  unfold step in Hs. destruct (crash st) eqn:Ecr; [done|]. destruct (threads st !! u) as [pu|] eqn:Hu; [|done].
  assert (in_loop pu = false) as Hlu.
  { destruct (in_loop pu) eqn:E; [|done]. apply (i_looper _ Hi _ _ Hu) in E. congruence. }
  assert (threads st' !! t = Some p ∧ installed_count (the_ctx st') = installed_count (the_ctx st) ∧ ran st' = ran st ∧
    (∃ l, run_queue (the_ctx st') = run_queue (the_ctx st) ++ l) ∧
    (terminate_loop (the_ctx st') = false → terminate_loop (the_ctx st) = false)) as (Ht' & Hc & Hr' & (l & Hl') & Htm).
  { assert (∃ l, run_queue (the_ctx st) = run_queue (the_ctx st) ++ l) by (exists []; by rewrite app_nil_r).
    destruct a as [y| |now|l now|].
    - destruct (client_at pu && _); [|done]. unfold begin_call in Hs. destruct (touch malloc u y (the_ctx st)).
      { unfold on_looper in Hs. rewrite Hlp, bool_decide_eq_false_2 in Hs by congruence. by injection Hs as <-. }
      destruct y; try done; try (destruct pu; try done); injection Hs as <-; cbn; rewrite lookup_insert_ne by done; split_and!; try done; eauto.
    - destruct pu; done.
    - destruct pu as [|k| |n|n|n tm|n ev|n i ev|n|n z| | | | |]; try done; cbn [go] in Hs; unfold AdbManager_spawn, AdbManager_join in Hs.
      + injection Hs as <-. unfold Interrupt in *. destruct (_ <? _); [|done]. cbn. rewrite lookup_insert_ne by done. by split_and!.
      + rewrite Hlp in Hs. by injection Hs as <-.
      + destruct (event_thread st); [by injection Hs as <-|]. injection Hs as <-. cbn.
        rewrite !lookup_insert_ne; [by split_and!| |done]. intros E. rewrite (i_fresh _ Hi t) in Ht; [done|lia].
      + injection Hs as <-. cbn. rewrite lookup_insert_ne by done. by split_and!.
      + injection Hs as <-. cbn. rewrite lookup_insert_ne by done. by split_and!.
      + destruct (event_thread st) as [w|].
        * destruct (threads st !! w) as [[]|]; try done. injection Hs as <-. cbn. rewrite lookup_insert_ne by done. by split_and!.
        * injection Hs as <-. cbn. rewrite lookup_insert_ne by done. by split_and!.
    - destruct pu; done.
    - destruct pu; done. }
  split; [|done]. split; [done|]. exists p, pre, (q ++ l). rewrite Hl', Hq, Hr', <- app_assoc.
  split_and!; try done. by destruct p; cbn in *; rewrite ?Hc.
Qed.

Lemma ran_grows t a st st' : step malloc t a st = Some st' → ∃ l, ran st' = ran st ++ l.
Proof.
  assert (∃ l, ran st = ran st ++ l) by (exists []; by rewrite app_nil_r).
  unfold step. destruct (crash st); [done|]. destruct (threads st !! t) as [p|]; [|done].
  destruct a.
  - destruct (_ && _); [|done]. unfold begin_call, proceed. repeat case_match; try done; by intros [= <-].
  - destruct p; try done; repeat case_match; try done; by intros [= <-].
  - destruct p; try done; cbn [go]; unfold AdbManager_spawn, AdbManager_join, Interrupt, loop_top, proceed, handle_next, fdevent_interrupt, flush_next, proceed;
      repeat case_match; try done; intros [= <-]; eauto.
  - destruct p; try done. unfold proceed. repeat case_match; try done; by intros [= <-].
  - destruct p; try done. repeat case_match; try done; by intros [= <-].
Qed.

(** A run in which nobody asks the loop to stop. *)
Fixpoint run_on (tr : list (nat * @action F T)) st : option sys :=
  match tr with
  | [] => Some st
  | (t, a) :: tr => st' ← step malloc t a st; if terminate_loop (the_ctx st') then None else run_on tr st'
  end.

Lemma run_on_ran tr st st' : run_on tr st = Some st' → ∃ l, ran st' = ran st ++ l.
Proof.
  revert st. induction tr as [|[t a] tr IH]; intros st; cbn [run_on].
  - intros [= <-]. exists []. by rewrite app_nil_r.
  - destruct (step malloc t a st) as [st1|] eqn:Es; [|done]. cbn. destruct (terminate_loop _); [done|]. intros [l Hl]%IH.
    destruct (ran_grows _ _ _ _ Es) as [l0 Hl0]. exists (l0 ++ l). by rewrite Hl, Hl0, app_assoc.
Qed.

Lemma run_on_crash tr st st' : run_on tr st = Some st' → crash st' = None → crash st = None.
Proof. destruct tr as [|[t a] tr]; cbn [run_on]; [by intros [= <-]|]. unfold step. by destruct (crash st). Qed.

Lemma distance_nonneg c p : 0 ≤ distance c p.
Proof. destruct p; cbn; lens; unfold installed_count; lia. Qed.

Lemma on_the_way_trace tr st t x d rn st' :
  on_the_way st t x d rn → terminate_loop (the_ctx st) = false → run_on tr st = Some st' → crash st' = None →
  (∀ a, (t, a) ∈ tr → plain a = true) → d < own_steps t tr → ∃ l, ran st' = rn ++ x :: l.
Proof using malloc_fresh.
  revert st d. induction tr as [|[u a] tr IH]; intros st d Hw Htm Hrun Hcr Hplain Hlen.
  { destruct (w_at _ _ _ _ _ Hw) as (p & pre & _ & _ & _ & _ & _ & _ & Hd). pose proof (distance_nonneg (the_ctx st) p).
    pose proof (llen_nonneg pre). change (own_steps t []) with 0 in Hlen. lia. }
  cbn [run_on] in Hrun. destruct (step malloc u a st) as [st1|] eqn:Es; [|done]. cbn in Hrun.
  destruct (terminate_loop (the_ctx st1)) eqn:Htm1; [done|]. pose proof (run_on_crash _ _ _ Hrun Hcr) as Hc1.
  assert (∀ b, (t, b) ∈ tr → plain b = true) as Hplain' by (intros; apply Hplain; by right).
  unfold own_steps in Hlen. destruct (decide (u = t)) as [->|Hne].
  - rewrite filter_cons_True, llen_cons in Hlen by done.
    destruct (on_the_way_own st t x d rn a st1) as [Hran|(Hw' & _ & _)]; try done; [apply Hplain; by left| |].
    + destruct (run_on_ran _ _ _ Hrun) as [l ->]. exists l. by rewrite Hran, <- app_assoc.
    + apply (IH st1 (d - 1)); try done. unfold own_steps. lia.
  - rewrite filter_cons_False in Hlen by done.
    destruct (on_the_way_other st t x d rn u a st1) as [Hw' _]; try done. by apply (IH st1 d).
Qed.

(** C9. A function that is queued while the loop runs is called, after those in front of it
    in the queue and before all others, within a bounded number of steps of the loop's own
    thread: [distance], at most 5 + 2 * (number of fdevents) from anywhere outside a turn, and two
    more for each function in front of it.  Other threads may take any steps in between.  The
    run is one in which nobody asks the loop to stop ([run_on]), the process does not crash,
    the handlers and functions that the loop calls meanwhile return without making calls of
    their own, and no signal interrupts epoll_wait ([plain]). *)
Theorem queued_function_runs n st t p pre x rest tr st' :
  reachable malloc n st → threads st !! t = Some p → in_loop p = true → interrupting p = false →
  run_queue (the_ctx st) = pre ++ x :: rest → terminate_loop (the_ctx st) = false →
  run_on tr st = Some st' → crash st' = None → (∀ a, (t, a) ∈ tr → plain a = true) →
  distance (the_ctx st) p + 2 * llen pre < own_steps t tr →
  ∃ l, ran st' = ran st ++ pre ++ x :: l.
Proof using malloc_fresh.
  intros Hi%loop_reachable_inv Ht Hl Hni Hq Htm Hrun Hcr Hplain Hlen.
  assert (∃ l, ran st' = (ran st ++ pre) ++ x :: l) as [l ->]; [|exists l; by rewrite <- app_assoc].
  eapply on_the_way_trace; try done. split; [done|]. by exists p, pre, rest.
Qed.

End proofs.

(** ** Runs *)

Lemma reachable_trace {F T} malloc n tr (st st' : @sys F T) :
  reachable malloc n st → run_trace malloc tr st = Some st' → reachable malloc n st'.
Proof.
  revert st. induction tr as [|[t a] tr IH]; intros st Hr; cbn [run_trace]; [by intros [= <-]|].
  destruct (step malloc t a st) as [st1|] eqn:Es; [|done]. cbn. apply IH. by eapply reach_step.
Qed.

(** An allocator that gives out the address after the highest one in use. *)
Definition bump (s : gset nat) : nat := fresh s.
Lemma bump_fresh s : bump s ∉ s.
Proof. apply is_fresh. Qed.

Definition no_ctx : @ctx nat nat := mkCtx ∅ ∅ ∅ 0 None false [] ∅ 0 0.
Definition demo_ctx : @ctx nat nat :=
  match fdevent_context_epoll bump 0 3 with Ok c => c | _ => no_ctx end.
Definition demo (n : nat) (tr : list (nat * @action nat nat)) : @sys nat nat :=
  default (init n demo_ctx) (run_trace bump tr (init n demo_ctx)).

Lemma demo_reachable n tr : reachable bump n (demo n tr).
Proof.
  assert (reachable bump n (init n demo_ctx)) by (apply (reach_init _ _ 3); by vm_compute). unfold demo.
  destruct (run_trace bump tr (init n demo_ctx)) as [st|] eqn:E; [|done]. by eapply reachable_trace.
Qed.

(** [start] on thread 0, which makes thread 1 the event thread; thread 1 goes into epoll_wait. *)
Definition started : list (nat * @action nat nat) :=
  [(0%nat, Call AStart); (0%nat, Go 0); (1%nat, Go 0); (1%nat, Go 0); (1%nat, Go 0)].

(** Then a function is queued while the loop sleeps. *)
Definition queued : list (nat * @action nat nat) := started ++ [(0%nat, Call (ARun 7%nat)); (0%nat, Go 0)].
Definition woken : list (nat * @action nat nat) :=
  [(1%nat, Answer [(3, EPOLLIN)] 10); (1%nat, Go 0); (1%nat, Go 0); (1%nat, Go 0); (1%nat, Go 0)].

(** Two fdevents, at the addresses 1 and 2, become readable in the same turn; the handler of the first
    destroys the second and creates one for another descriptor. *)
Definition reused : list (nat * @action nat nat) :=
  [(0%nat, Call (ACreate 5 false 50%nat 0 true)); (0%nat, Call (AAdd 1 FDE_READ));
   (0%nat, Call (ACreate 6 false 60%nat 0 true)); (0%nat, Call (AAdd 2 FDE_READ))] ++ started ++
  [(1%nat, Answer [(5, EPOLLIN); (6, EPOLLIN)] 10); (1%nat, Go 0);
   (1%nat, Call (ADestroy (Some 2%nat))); (1%nat, Call (ACreate 7 false 70%nat 0 true)); (1%nat, Return); (1%nat, Go 0)].

(** [start] and at once [stop], before the event thread gets to run. *)
Definition stopped_early : list (nat * @action nat nat) :=
  [(0%nat, Call AStart); (0%nat, Go 0); (0%nat, Call AStop); (0%nat, Go 0); (0%nat, Go 0); (0%nat, Go 0); (1%nat, Go 0)].

(** ** A loop that missed the request to stop *)

Section lost.
Context {F T : Type}.
Context (malloc : gset nat → nat).
Hypothesis malloc_fresh : ∀ s, malloc s ∉ s.

(** Thread 0 joins the event thread 1, which is in the loop and does not know that it is to
    stop. *)
Record lost (st : @sys F T) : Prop := {
  l_join : threads st !! 0%nat = Some StopJoin;
  l_thread : event_thread st = Some 1%nat;
  l_loop : ∃ p, threads st !! 1%nat = Some p ∧ in_loop p = true;
  l_flag : terminate_loop (the_ctx st) = false;
  l_only t : t ≠ 0%nat → t ≠ 1%nat → threads st !! t = None
}.

Lemma lost_move (st : @sys F T) p' c' s' rn cr :
  lost st → in_loop p' = true → terminate_loop c' = false →
  lost (mkSys c' (<[1%nat := p']> (threads st)) (next_tid st) (is_running st) (event_thread st) cr s' rn).
Proof.
  intros [Hj He _ _ Ho] Hl Hf. split; cbn; try done.
  - by rewrite lookup_insert_ne.
  - exists p'. by rewrite lookup_insert_eq.
  - intros t H0 H1. rewrite lookup_insert_ne by done. by apply Ho.
Qed.

Lemma lost_crashed w (st : @sys F T) : lost st → lost (crashed w st).
Proof. by intros []. Qed.

Lemma lost_proceed {A} w (r : res A) p c (st : @sys F T) :
  lost st → (∀ a, r = Ok a → in_loop (p a) = true ∧ terminate_loop (c a) = false) → lost (proceed w 1 r p c st).
Proof.
  intros Hl Hr. unfold proceed. destruct r; try by apply lost_crashed. destruct (Hr a eq_refl). by apply lost_move.
Qed.

Lemma lost_step (st : @sys F T) t a st' :
  inv st → lost st → a ≠ Call ATerminate → step malloc t a st = Some st' → lost st'.
Proof using malloc_fresh.
  intros Hi Hl Ha Hs. pose proof Hl as [Hj He (p & Hp & Hin) Hf Ho]. unfold step in Hs.
  destruct (crash st) eqn:Ecr; [done|].
  destruct (decide (t = 0%nat)) as [->|H0].
  { rewrite Hj in Hs. destruct a; try done. cbn in Hs. unfold AdbManager_join in Hs. rewrite He, Hp in Hs. by destruct p. }
  destruct (decide (t = 1%nat)) as [->|H1]; [|by rewrite Ho in Hs]. rewrite Hp in Hs.
  destruct a as [y| |now|l now|].
  - destruct (client_at p) eqn:Hc; [|done]. destruct (may_name y (the_ctx st)) eqn:Hn; [|done]. cbn [andb] in Hs. unfold begin_call in Hs.
    destruct (touch malloc 1 y (the_ctx st)) as [r|] eqn:Et.
    + injection Hs as <-. apply lost_proceed; [done|]. intros c' Hr. split; [done|].
      destruct (on_looper 1 (the_ctx st)) eqn:Hon; [|done]. subst r.
      destruct (touch_ok malloc malloc_fresh 1 y (the_ctx st) c') as [_ Hfr]; try done; [apply Hi|]. unfold id.
      by rewrite (fr_terminate _ _ Hfr).
    + destruct y; try done; try (by destruct p). injection Hs as <-. by apply lost_move.
  - destruct p; try done; [destruct (client_at _); [|done]|]; injection Hs as <-; by apply lost_move.
  - destruct p as [|k| |n|n|n tm|n ev|n i ev|n|n x| | | | |]; try done; cbn [go] in Hs; unfold AdbManager_spawn, AdbManager_join in Hs.
    + injection Hs as <-. unfold Interrupt. destruct (_ <? _); [by apply lost_move|by apply lost_crashed].
    + injection Hs as <-. unfold loop_top. rewrite Hf. by apply lost_move.
    + injection Hs as <-. by apply lost_proceed.
    + destruct (n <=? 0); [|done]. injection Hs as <-. by apply lost_crashed.
    + injection Hs as <-. unfold handle_next. destruct ev as [|[b e] ev]; [by apply lost_move|].
      case_bool_decide; [by apply lost_proceed|by apply lost_move].
    + destruct (callee i); [|done]. injection Hs as <-. unfold fdevent_interrupt.
      destruct (_ =? 0); [by apply lost_crashed|by apply lost_move].
    + injection Hs as <-. unfold flush_next. destruct (run_queue _); by apply lost_move.
  - destruct p as [| | | | |n tm| | | | | | | | |]; try done. destruct (0 <? n); [|done].
    destruct (epoll_wait_ok _ _ _ _) eqn:Ew; [|done]. apply epoll_wait_ok_inv in Ew as (Hnd & _ & Hen & _).
    injection Hs as <-. apply lost_proceed; [done|]. intros r. rewrite (collect_events_run _ _ _ (i_ctx _ Hi) Hen Hnd).
    intros [= <-]. cbn. split; [done|].
    destruct (stamps_rest now ((with_pointers (the_ctx st) l).*2 ++ late (the_ctx st) (with_pointers (the_ctx st) l) now) (the_ctx st)) as [Hfr _].
    by rewrite (fr_terminate _ _ Hfr).
  - destruct p as [| | | | |n tm| | | | | | | | |]; try done. destruct (0 <? n); [|done]. injection Hs as <-. by apply lost_move.
Qed.

Lemma lost_trace tr (st st' : @sys F T) :
  inv st → lost st → (∀ t, (t, Call ATerminate) ∉ tr) → run_trace malloc tr st = Some st' → lost st'.
Proof using malloc_fresh.
  revert st. induction tr as [|[t a] tr IH]; intros st Hi Hl Hno; cbn [run_trace]; [by intros [= <-]|].
  destruct (step malloc t a st) as [st1|] eqn:Es; [|done]. cbn. apply IH; [by eapply step_inv| |set_solver].
  eapply lost_step; try done. intros ->. apply (Hno t). by left.
Qed.
End lost.

(** A stop that comes before the event thread has entered the loop is lost, because Loop
    clears terminate_loop_ when it begins: after start and stop in a row on one thread,
    the stop is waiting for the event thread, and it goes on waiting however the event
    thread runs, unless some handler stops the loop itself. *)
Theorem early_stop_never_returns :
  threads (demo 1 stopped_early) !! 0%nat = Some StopJoin ∧
  ∀ tr st, run_trace bump tr (demo 1 stopped_early) = Some st → (∀ t, (t, Call ATerminate) ∉ tr) →
  threads st !! 0%nat = Some StopJoin.
Proof.
  split; [by vm_compute|]. intros tr st Hrun Hno.
  pose proof (loop_reachable_inv bump bump_fresh _ _ (demo_reachable 1 stopped_early)) as Hi.
  apply (lost_trace bump bump_fresh tr (demo 1 stopped_early)); try done.
  split; [by vm_compute|by vm_compute|exists (LTop 0); split; by vm_compute|by vm_compute|].
  intros t H0 H1. apply (i_fresh _ Hi). change (next_tid (demo 1 stopped_early)) with 2%nat. lia.
Qed.

(** HandleEvents tells fdevents apart by their address: when a handler destroys an fdevent
    whose event is still to be handled, and an fdevent created afterwards gets its
    address, the event is delivered to the new one, although it has asked for no events and
    epoll has never reported its descriptor. *)
Theorem stale_event_delivered :
  let st := demo 1 reused in
  threads st !! 1%nat = Some (LHandler 3 (call_fd (client_fn 70%nat) 7 FDE_READ 0) []) ∧
  (∃ f, heap (the_ctx st) !! 2%nat = Some f ∧ fde_fd f = 7 ∧ fde_state f = 0) ∧
  (∀ t l now, (t, Answer l now) ∈ reused → 7 ∉ l.*1).
Proof.
  split; [by vm_compute|]. split; [eexists; split; [by vm_compute|done]|].
  intros t l now Hin. unfold reused, started in Hin. cbn [app] in Hin.
  repeat (apply elem_of_cons in Hin as [Hin|Hin]; [try discriminate Hin|]); [|by apply elem_of_nil in Hin].
  injection Hin as -> -> ->. set_solver.
Qed.

(** ** Witnesses *)

(** A turn of the loop with a handler that runs. *)
Lemma loop_safe_witness :
  crash (demo 1 reused) ≠ Some by_loop ∧ ctx_ok (the_ctx (demo 1 reused)).
Proof. apply (loop_safe bump bump_fresh 1). apply demo_reachable. Defined.

(** One function has run. *)
Lemma run_in_order_witness :
  [7%nat] = submitted (demo 1 (queued ++ woken)) ∧
  submitted (demo 1 (queued ++ woken)) = ran (demo 1 (queued ++ woken)) ++ run_queue (the_ctx (demo 1 (queued ++ woken))).
Proof. split; [by vm_compute|]. apply (run_in_order bump bump_fresh 1). apply demo_reachable. Defined.

(** A function is queued and the loop sleeps without a timeout. *)
Lemma no_lost_interrupt_witness :
  interrupt_ready (the_ctx (demo 1 queued)) = true.
Proof.
  refine (proj1 (no_lost_interrupt bump bump_fresh 1 (demo 1 queued) 1 1 (-1) (demo_reachable 1 queued) _ _ _)).
  - by vm_compute.
  - left. by vm_compute.
  - intros u p Hu. assert (map_Forall (λ _ p, interrupting p = false) (threads (demo 1 queued))) as Hall; [|by apply (Hall u p)].
    apply (bool_decide_unpack _). by vm_compute.
Defined.

(** It takes the five steps of [woken]. *)
Lemma queued_function_runs_witness : ∃ l, ran (demo 1 (queued ++ woken)) = [] ++ 7%nat :: l.
Proof.
  apply (queued_function_runs bump bump_fresh 1 (demo 1 queued) 1 (LWait 1 (-1)) [] 7%nat [] woken);
    try (by vm_compute); [apply demo_reachable|].
  intros a Ha. unfold woken in Ha. repeat (apply elem_of_cons in Ha as [Ha|Ha]; [by injection Ha as ->|]). by apply elem_of_nil in Ha.
Defined.

(** Two descriptors, of which one has a timeout that has passed and the other is readable. *)
Definition two_fdes : list (nat * @action nat nat) :=
  [(0%nat, Call (ACreate 5 false 50%nat 0 true)); (0%nat, Call (AAdd 1 FDE_READ));
   (0%nat, Call (ACreate 6 false 60%nat 0 true)); (0%nat, Call (ASetTimeout 2 (Some 1000) 0))] ++ started.

Lemma collect_events_exact_witness :
  turn_events (the_ctx (demo 1 two_fdes)) [(EPOLLIN, 1%nat)] (2000 * ms) = [(1%nat, FDE_READ); (2%nat, FDE_TIMEOUT)] ∧
  ∃ c', collect_events [(EPOLLIN, 1%nat)] (2000 * ms) (the_ctx (demo 1 two_fdes)) =
    Ok (turn_events (the_ctx (demo 1 two_fdes)) [(EPOLLIN, 1%nat)] (2000 * ms), c') ∧ ctx_ok c'.
Proof.
  split; [by vm_compute|].
  destruct (collect_events_exact (the_ctx (demo 1 two_fdes)) 3 1000 [(5, EPOLLIN)] (2000 * ms)) as (c' & Hc & Hok & _).
  - apply (i_ctx _ (loop_reachable_inv bump bump_fresh _ _ (demo_reachable 1 two_fdes))).
  - by vm_compute.
  - exists c'. split; [|done]. assert (with_pointers (the_ctx (demo 1 two_fdes)) [(5, EPOLLIN)] = [(EPOLLIN, 1%nat)]) as E by (by vm_compute).
    by rewrite E in Hc.
Defined.

Lemma poll_duration_exact_witness :
  ∃ d, CalculatePollDuration 1 (400 * ms) (the_ctx (demo 1 two_fdes)) = Ok d ∧ d = Some 600.
Proof.
  destruct (poll_duration_exact 1 (400 * ms) (the_ctx (demo 1 two_fdes))) as (d & Hd & _).
  - apply (i_ctx _ (loop_reachable_inv bump bump_fresh _ _ (demo_reachable 1 two_fdes))).
  - by vm_compute.
  - exists d. split; [done|]. assert (CalculatePollDuration 1 (400 * ms) (the_ctx (demo 1 two_fdes)) = Ok (Some 600)) as E by (by vm_compute).
    congruence.
Defined.
