(* ===== verification/DeferredClose.v ===== *)
(** * Closing a socket without losing data

    Models [deferred_close] of adb/sockets.cpp, the client of the event loop that closes the
    descriptors of local sockets: the sending direction is shut down, and the descriptor is
    watched, and what arrives thrown away, until the other side closes, an error occurs or
    a second has passed.

    [begin] of a [ClosingSocket] is what the [arg] of the fdevent points to; [reads] are the
    results of the successive adb_read calls of one invocation. *)

From S2P Require Import Prelude Fdevent FdeventInv LooperInv.

(** The result of one adb_read: some bytes, the end of the stream, EAGAIN or another error. *)
Inductive read_result := got (n : Z) | at_end | again | failed.

Record ClosingSocket := mkClosing { begin : Z }.

Definition one_second : Z := 1000 * ms.

(** The loop that throws the input away; [NoFuel] when [reads] does not reach its end. *)
Fixpoint drain (reads : list read_result) : res read_result :=
  match reads with
  | [] => NoFuel
  | got n :: reads => if 0 <? n then drain reads else Ok at_end
  | r :: _ => Ok r
  end.

Section deferred.
Context {F T : Type}.
Context (malloc : gset nat → nat).
Abbreviation ctx := (@ctx F T).
Implicit Types c : ctx.

(** The lambda [callback]: whether it destroyed its fdevent, and the descriptor it closed. *)
Definition closing_callback (t : nat) (a : nat) (event : Z) (reads : list read_result) (now : Z)
    (socket_info : ClosingSocket) (c : ctx) : res (option Z * ctx) :=
  keep ← (if has event FDE_READ then
            rc ← drain reads;
            Ok (match rc with
                | again => negb (one_second <? now - begin socket_info)
                | _ => false
                end)
          else Ok false);
  if (keep : bool) then Ok (None, c) else Destroy t (Some a) c.

Definition deferred_close (t : nat) (fd : Z) (callback : F) (arg : Z) (accepted : bool) (now : Z) (c : ctx) :
    res (nat * ClosingSocket * ctx) :=
  '(a, c) ← Create malloc t fd (fd_func2 (client_fn callback)) arg accepted c;
  c ← Add a FDE_READ c;
  c ← SetTimeout t a (Some 1000) now c;
  Ok (a, mkClosing now, c).

(** ** Properties *)

(** The fdevent of a closing socket. *)
Definition closing_fde c (a : nat) (fd : Z) (f : @fdevent F) : Prop :=
  heap c !! a = Some f ∧ fde_fd f = fd ∧ fde_timeout f = Some 1000 ∧ has (fde_state f) FDE_READ = true ∧
  variant_fn (fde_func f) ≠ fdevent_interrupt_fn.

Hypothesis malloc_fresh : ∀ s, malloc s ∉ s.

Lemma deferred_close_ok t fd callback arg now c :
  ctx_ok c → on_looper t c = true → 0 ≤ fd → installed_fdevents c !! fd = None →
  ∃ a c' f, deferred_close t fd callback arg true now c = Ok (a, mkClosing now, c') ∧ ctx_ok c' ∧ frame c c' ∧
    closing_fde c' a fd f ∧ last_active f = now.
Proof using malloc_fresh.
  intros Hok Ht Hfd Hn. unfold deferred_close.
  destruct (Create_ok malloc malloc_fresh t c fd (fd_func2 (client_fn callback)) arg) as (a & c1 & -> & Hok1 & Hf1 & _ & Hh1); try done.
  cbn [mbind res_bind]. set (f := mkFde _ _ _ _ _ _ _) in Hh1.
  assert (heap c1 !! a = Some f) as Ha by (rewrite Hh1; apply lookup_insert_eq).
  unfold Add. rewrite (check_true (negb (has FDE_READ FDE_TIMEOUT))) by done. cbn [mbind res_bind].
  rewrite Ha. cbn [deref mbind res_bind].
  destruct (Set_ok c1 a f (Z.lor (fde_state f) FDE_READ) Hok1 Ha) as (c2 & -> & Hok2 & Hf2 & Hh2); [done|].
  cbn [mbind res_bind]. set (f2 := set_state _ f) in Hh2.
  assert (heap c2 !! a = Some f2) as Ha2 by (rewrite Hh2; apply lookup_insert_eq).
  assert (frame c c2) as Hf by (destruct Hf1, Hf2; split; by etrans).
  destruct (SetTimeout_ok t c2 a f2 (Some 1000) now Hok2) as (c3 & -> & Hok3 & Hf3 & Hh3); try done.
  { unfold on_looper. rewrite (fr_looper _ _ Hf). exact Ht. }
  exists a, c3, (set_times (Some 1000) now f2). split_and!; try done.
  - destruct Hf, Hf3; split; by etrans.
  - split_and!; try done. rewrite Hh3. apply lookup_insert_eq.
Qed.

(** What one event does to a closing socket. *)
Lemma closing_callback_run t a fd f event reads now s c r :
  ctx_ok c → on_looper t c = true → closing_fde c a fd f → (has event FDE_READ = true → drain reads = Ok r) →
  if has event FDE_READ && (match r with again => true | _ => false end) && (now - begin s <=? one_second)
  then closing_callback t a event reads now s c = Ok (None, c)
  else ∃ c', closing_callback t a event reads now s c = Ok (Some fd, c') ∧ ctx_ok c' ∧ heap c' = delete a (heap c).
Proof.
  intros Hok Ht (Ha & <- & _ & _ & Hv) Hr. destruct (Destroy_ok t c a f Hok Ht Ha Hv) as (c' & Hd & Hok' & _ & Hh).
  unfold closing_callback. destruct (has event FDE_READ); [|by exists c'].
  rewrite (Hr eq_refl). cbn [andb mbind res_bind]. destruct r; cbn [andb]; try by exists c'.
  destruct (Z.leb_spec (now - begin s) one_second), (Z.ltb_spec one_second (now - begin s)); try lia; [done|by exists c'].
Qed.

(** A descriptor handed to deferred_close is closed: it is watched with a timeout of a
    second; in every turn of the loop a second or more after its last event, the events contain
    one for it, and any event later than a second after [begin], and any at which the input
    has ended or failed, removes its fdevent and closes the descriptor; earlier, it is kept
    only while its input is merely empty. *)
Theorem deferred_close_closes t fd callback arg now c :
  ctx_ok c → on_looper t c = true → 0 ≤ fd → installed_fdevents c !! fd = None →
  ∃ a c1 f, deferred_close t fd callback arg true now c = Ok (a, mkClosing now, c1) ∧ ctx_ok c1 ∧
    closing_fde c1 a fd f ∧ last_active f = now ∧
    (* later, in any context in which it is still installed *)
    ∀ c2 g, ctx_ok c2 → on_looper t c2 = true → closing_fde c2 a fd g →
      (∀ n timeout l later, epoll_wait_ok n timeout l c2 = true → last_active g + one_second < later →
         a ∈ (turn_events c2 (with_pointers c2 l) later).*1) ∧
      (∀ event reads r later, (has event FDE_READ = true → drain reads = Ok r) →
         (has event FDE_READ = true → r = again → one_second < later - now) →
         ∃ c3, closing_callback t a event reads later (mkClosing now) c2 = Ok (Some fd, c3) ∧
           ctx_ok c3 ∧ heap c3 !! a = None).
Proof using malloc_fresh.
  intros Hok Ht Hfd Hn. destruct (deferred_close_ok t fd callback arg now c Hok Ht Hfd Hn) as (a & c1 & f & H1 & Hok1 & _ & Hf & Hl).
  exists a, c1, f. split_and!; try done. intros c2 g Hok2 Ht2 Hg. split.
  - intros n timeout l later (Hnd & _ & He & _)%epoll_wait_ok_inv Hlate. unfold turn_events, polled.
    rewrite fmap_app, <- !list_fmap_compose. change (fst ∘ (λ e : Z * nat, (e.2, translate_events e.1))) with (@snd Z nat).
    change (fst ∘ (λ a : nat, (a, FDE_TIMEOUT))) with (λ a : nat, a). rewrite list_fmap_id.
    destruct (decide (a ∈ (with_pointers c2 l).*2)) as [Hin|Hnin]; apply elem_of_app; [by left|right].
    destruct Hg as (Hh & _ & Htm & _). apply list_elem_of_filter. split; [|by apply in_order_addrs_elem].
    split; [done|]. exists g, 1000. split_and!; try done.
  - intros event reads r later Hr Hagain.
    pose proof (closing_callback_run t a fd g event reads later (mkClosing now) c2 r Hok2 Ht2 Hg Hr) as Hrun.
    destruct (has event FDE_READ && _ && _) eqn:E.
    + exfalso. apply andb_prop in E as [[Hev Hrr]%andb_prop Hle]. destruct r; try done.
      specialize (Hagain Hev eq_refl). cbn in Hle. lia.
    + destruct Hrun as (c3 & ? & ? & Hh). exists c3. split_and!; try done. rewrite Hh. apply lookup_delete_eq.
Qed.

End deferred.

(** The context of a new loop; the event thread is thread 1. *)
Lemma deferred_close_closes_witness :
  ∃ a c1, deferred_close bump 1 9 5%nat 0 true 100 (the_ctx (demo 1 started)) = Ok (a, mkClosing 100, c1) ∧ ctx_ok c1.
Proof.
  destruct (deferred_close_closes bump bump_fresh 1 9 5%nat 0 100 (the_ctx (demo 1 started))) as (a & c1 & f & H & Hok & _).
  - apply (i_ctx _ (loop_reachable_inv bump bump_fresh _ _ (demo_reachable 1 started))).
  - by vm_compute.
  - done.
  - by vm_compute.
  - by exists a, c1.
Defined.
