(* ===== verification/Weak.v ===== *)
(** * Weak pointers of the event loop

    Models [weak_ptr] and [enable_weak_from_this] of adb/types.h.  An object keeps the list
    [weak_ptrs_] of the weak pointers to it, and its destructor clears them.  Both sides are
    addresses: [objects] maps a live object to its list, [weaks] a live weak pointer to its
    [ptr_].  A dereference of something that is not live is [Undef].

    The specification [spec] has no lists: a weak pointer points to an object until the
    object is deleted.  [weak_ptr_refines] shows that the bookkeeping implements it. *)

From S2P Require Import Prelude.

Record weak_heap := mkWeak { objects : gmap nat (list nat); weaks : gmap nat (option nat) }.
Definition set_objects o h := mkWeak o (weaks h).
Definition set_weaks w h := mkWeak (objects h) w.

(** [v.erase(std::remove(v.begin(), v.end(), x))], which erases a single element: after
    [std::remove], the elements to keep are followed by the old contents of the remaining
    places; erasing at the end is undefined. *)
Definition erase_remove (x : nat) (v : list nat) : res (list nat) :=
  let kept := filter (λ y, y ≠ x) v in
  if bool_decide (length kept < length v)%nat then Ok (kept ++ drop (S (length kept)) v) else Undef.

(** [on_loop] is whether [fdevent_check_looper] passes. *)
Section operations.
Context (on_loop : bool).

Definition get (w : nat) (h : weak_heap) : res (option nat) :=
  _ ← check on_loop; deref (weaks h !! w).

Definition reset (w : nat) (ptr : option nat) (h : weak_heap) : res weak_heap :=
  _ ← check on_loop;
  cur ← deref (weaks h !! w);
  if bool_decide (ptr = cur) then Ok h else
  h ← (match cur with
       | Some o => l ← deref (objects h !! o); l' ← erase_remove w l; Ok (set_objects (<[o := l']> (objects h)) h)
       | None => Ok h
       end);
  let h := set_weaks (<[w := ptr]> (weaks h)) h in
  match ptr with
  | Some o => l ← deref (objects h !! o); Ok (set_objects (<[o := l ++ [w]]> (objects h)) h)
  | None => Ok h
  end.

(** The constructors: the new pointer is null first. *)
Definition weak_ptr_default (w : nat) (h : weak_heap) : weak_heap := set_weaks (<[w := None]> (weaks h)) h.
Definition weak_ptr_of (w : nat) (ptr : option nat) (h : weak_heap) : res weak_heap :=
  reset w ptr (weak_ptr_default w h).
Definition weak_ptr_copy (w copy : nat) (h : weak_heap) : res weak_heap :=
  let h := weak_ptr_default w h in p ← get copy h; reset w p h.
Definition weak_ptr_move (w move : nat) (h : weak_heap) : res weak_heap :=
  let h := weak_ptr_default w h in p ← get move h; h ← reset w p h; reset move None h.
Definition weak_ptr_destructor (w : nat) (h : weak_heap) : res weak_heap :=
  h ← reset w None h; Ok (set_weaks (delete w (weaks h)) h).

Definition assign_copy (w copy : nat) (h : weak_heap) : res weak_heap :=
  if bool_decide (copy = w) then Ok h else p ← get copy h; reset w p h.
Definition assign_move (w move : nat) (h : weak_heap) : res weak_heap :=
  if bool_decide (move = w) then Ok h else p ← get move h; h ← reset w p h; reset move None h.

(** [weak->ptr_ = nullptr] for each element. *)
Fixpoint clear_all (l : list nat) (h : weak_heap) : res weak_heap :=
  match l with
  | [] => Ok h
  | w :: l => _ ← deref (weaks h !! w); clear_all l (set_weaks (<[w := None]> (weaks h)) h)
  end.
Definition enable_weak_destructor (o : nat) (h : weak_heap) : res weak_heap :=
  l ← deref (objects h !! o);
  h ← (if bool_decide (l = []) then Ok h else _ ← check on_loop; clear_all l h);
  Ok (set_objects (delete o (objects h)) h).

(** [weak()]: a pointer to the object itself. *)
Definition weak (o w : nat) (h : weak_heap) : res weak_heap := weak_ptr_of w (Some o) h.
End operations.

Inductive op :=
  | NewObject (o : nat)
  | DeleteObject (o : nat)
  | Weak (o w : nat)
  | Construct (w : nat) (ptr : option nat)
  | Copy (w copy : nat)
  | Move (w move : nat)
  | AssignCopy (w copy : nat)
  | AssignMove (w move : nat)
  | Reset (w : nat) (ptr : option nat)
  | Destruct (w : nat).

(** [schedule_deletion]: a [delete] queued to run on the looper thread. *)
Definition schedule_deletion (o : nat) (run_queue : list op) : list op := run_queue ++ [DeleteObject o].

Definition exec (on_loop : bool) (x : op) (h : weak_heap) : res weak_heap :=
  match x with
  | NewObject o => Ok (set_objects (<[o := []]> (objects h)) h)
  | DeleteObject o => enable_weak_destructor on_loop o h
  | Weak o w => weak on_loop o w h
  | Construct w p => weak_ptr_of on_loop w p h
  | Copy w v => weak_ptr_copy on_loop w v h
  | Move w v => weak_ptr_move on_loop w v h
  | AssignCopy w v => assign_copy on_loop w v h
  | AssignMove w v => assign_move on_loop w v h
  | Reset w p => reset on_loop w p h
  | Destruct w => weak_ptr_destructor on_loop w h
  end.
Fixpoint exec_all (on_loop : bool) (l : list op) (h : weak_heap) : res weak_heap :=
  match l with
  | [] => Ok h
  | x :: l => h ← exec on_loop x h; exec_all on_loop l h
  end.

(** ** Specification *)

Record spec := mkSpec { alive : gset nat; points : gmap nat (option nat) }.

Definition forget (o : nat) (p : option nat) : option nat := if bool_decide (p = Some o) then None else p.
Definition target_ok (p : option nat) (s : spec) : bool :=
  match p with Some o => bool_decide (o ∈ alive s) | None => true end.
Definition point (w : nat) (p : option nat) (s : spec) : spec := mkSpec (alive s) (<[w := p]> (points s)).

(** [None]: the operation is not allowed, because it names something that is not live, or
    puts a new object at an address in use. *)
Definition allowed (b : bool) (s : spec) : option spec := if b then Some s else None.
Definition spec_exec (x : op) (s : spec) : option spec :=
  match x with
  | NewObject o => allowed (bool_decide (o ∉ alive s)) (mkSpec ({[o]} ∪ alive s) (points s))
  | DeleteObject o => allowed (bool_decide (o ∈ alive s)) (mkSpec (alive s ∖ {[o]}) (forget o <$> points s))
  | Weak o w => allowed (bool_decide (points s !! w = None) && target_ok (Some o) s) (point w (Some o) s)
  | Construct w p => allowed (bool_decide (points s !! w = None) && target_ok p s) (point w p s)
  | Copy w v => p ← points s !! v; allowed (bool_decide (points s !! w = None)) (point w p s)
  | Move w v => p ← points s !! v; allowed (bool_decide (points s !! w = None)) (point v None (point w p s))
  | AssignCopy w v =>
      p ← points s !! v; q ← points s !! w; Some (if bool_decide (v = w) then s else point w p s)
  | AssignMove w v =>
      p ← points s !! v; q ← points s !! w; Some (if bool_decide (v = w) then s else point v None (point w p s))
  | Reset w p => q ← points s !! w; allowed (target_ok p s) (point w p s)
  | Destruct w => q ← points s !! w; Some (mkSpec (alive s) (delete w (points s)))
  end.
Fixpoint spec_exec_all (l : list op) (s : spec) : option spec :=
  match l with
  | [] => Some s
  | x :: l => s ← spec_exec x s; spec_exec_all l s
  end.

(** ** Refinement *)

(** The lists hold exactly the weak pointers to each object, once each. *)
Record refines (h : weak_heap) (s : spec) : Prop := {
  r_alive : dom (objects h) = alive s;
  r_points : weaks h = points s;
  r_nodup o l : objects h !! o = Some l → NoDup l;
  r_listed o l w : objects h !! o = Some l → w ∈ l ↔ weaks h !! w = Some (Some o);
  r_target w o : weaks h !! w = Some (Some o) → is_Some (objects h !! o)
}.

Lemma filter_one x (l : list nat) : NoDup l → x ∈ l → S (length (filter (λ y, y ≠ x) l)) = length l.
Proof.
  induction 1 as [|y l Hy Hnd IH]; intros Hx; [by apply elem_of_nil in Hx|].
  apply elem_of_cons in Hx as [->|Hx].
  - rewrite filter_cons_False by naive_solver. rewrite filter_true_in; [done|]. intros z Hz ->. done.
  - rewrite filter_cons_True by (intros ->; done). cbn. by rewrite IH.
Qed.

Lemma erase_remove_once x l :
  NoDup l → x ∈ l → erase_remove x l = Ok (filter (λ y, y ≠ x) l).
Proof.
  intros Hnd Hx. unfold erase_remove. pose proof (filter_one x l Hnd Hx).
  rewrite bool_decide_eq_true_2 by lia. rewrite drop_ge by lia. by rewrite app_nil_r.
Qed.

Lemma reset_refines h s w p q :
  refines h s → points s !! w = Some q → target_ok p s = true →
  ∃ h', reset true w p h = Ok h' ∧ refines h' (point w p s).
Proof.
  intros [Ha Hp Hn Hl Ht] Hw Hok. unfold reset. cbn [check mbind res_bind]. rewrite Hp, Hw. cbn [deref mbind res_bind].
  case_bool_decide as Epq.
  { subst q. exists h. split; [done|]. unfold point. rewrite insert_id by done. by destruct s. }
  (* the old object forgets w *)
  set (h1 := match q with
             | Some o => set_objects (<[o := filter (λ y, y ≠ w) (default [] (objects h !! o))]> (objects h)) h
             | None => h end).
  assert ((match q with
           | Some o => l ← deref (objects h !! o); l' ← erase_remove w l; Ok (set_objects (<[o := l']> (objects h)) h)
           | None => Ok h end) = Ok h1) as ->.
  { destruct q as [o|]; [|done]. destruct (Ht w o) as [l El]; [by rewrite Hp|]. subst h1. rewrite El. cbn.
    rewrite erase_remove_once; [done|by eapply Hn|]. eapply Hl; [done|by rewrite Hp]. }
  cbn [mbind res_bind]. assert (weaks h1 = points s) as Hw1 by (by destruct q).
  assert (dom (objects h1) = alive s) as Hd1.
  { destruct q as [o|]; [|done]. cbn. rewrite dom_insert_L. destruct (Ht w o) as [l El]; [by rewrite Hp|].
    apply elem_of_dom_2 in El. set_solver. }
  assert (∀ o l, objects h1 !! o = Some l → NoDup l ∧ ∀ v, v ∈ l ↔ v ≠ w ∧ points s !! v = Some (Some o)) as Hl1.
  { intros o l. subst h1. destruct q as [o'|]; cbn.
    - rewrite lookup_insert_Some. intros [[<- <-]|[Hne El]].
      + destruct (Ht w o') as [l El]; [by rewrite Hp|]. rewrite El. cbn. split; [by apply NoDup_filter, (Hn o')|].
        intros v. rewrite list_elem_of_filter, (Hl o' l v El), Hp. done.
      + split; [by eapply Hn|]. intros v. rewrite (Hl o l v El), Hp. split; [|naive_solver]. intros Hv. split; [|done].
        intros ->. congruence.
    - intros El. split; [by eapply Hn|]. intros v. rewrite (Hl o l v El), Hp. split; [|naive_solver]. intros Hv. split; [|done].
      intros ->. congruence. }
  destruct p as [o|]; cbn [objects set_weaks weaks].
  - cbn in Hok. apply bool_decide_eq_true in Hok. rewrite <- Hd1 in Hok. apply elem_of_dom in Hok as [l El].
    rewrite El. cbn. eexists. split; [done|]. split; cbn; rewrite ?Hw1.
    + rewrite dom_insert_L. apply elem_of_dom_2 in El. set_solver.
    + done.
    + intros o' l'. rewrite lookup_insert_Some. intros [[<- <-]|[Hne El']]; [|by apply (Hl1 o')].
      destruct (Hl1 o l El) as [Hnd Hin]. apply NoDup_app. split_and!; [done| |apply NoDup_singleton].
      intros v Hv ->%list_elem_of_singleton. by apply Hin in Hv as [? _].
    + intros o' l' v. rewrite lookup_insert_Some. rewrite (lookup_insert_Some (points s)). intros [[<- <-]|[Hne El']].
      * rewrite elem_of_app, list_elem_of_singleton. rewrite (proj2 (Hl1 o l El) v). naive_solver.
      * rewrite (proj2 (Hl1 o' l' El') v). naive_solver.
    + intros v o'. rewrite lookup_insert_Some. intros [[<- [= <-]]|[Hne Hv]]; [by rewrite lookup_insert_eq|].
      apply lookup_insert_is_Some'. right. apply elem_of_dom. rewrite Hd1, <- Ha. apply elem_of_dom. eapply Ht. by rewrite Hp.
  - eexists. split; [done|]. split; cbn; rewrite ?Hw1; try done.
    + intros o l El. by apply (Hl1 o).
    + intros o l v El. rewrite (lookup_insert_Some (points s)), (proj2 (Hl1 o l El) v). naive_solver.
    + intros v o'. rewrite lookup_insert_Some. intros [[<- ?]|[Hne Hv]]; [done|].
      apply elem_of_dom. rewrite Hd1, <- Ha. apply elem_of_dom. eapply Ht. by rewrite Hp.
Qed.

Lemma default_refines h s w : refines h s → points s !! w = None → refines (weak_ptr_default w h) (point w None s).
Proof.
  intros [Ha Hp Hn Hl Ht] Hw. split; cbn; try done.
  - by rewrite Hp.
  - intros o l v El. rewrite (Hl o l v El), (lookup_insert_Some (weaks h)). split; [|naive_solver]. intros Hv. right.
    split; [|done]. intros ->. rewrite Hp in Hv. congruence.
  - intros v o. rewrite lookup_insert_Some. intros [[_ ?]|[_ Hv]]; [done|by apply Ht in Hv].
Qed.

Lemma point_point w p q s : point w p (point w q s) = point w p s.
Proof. unfold point. cbn. by rewrite insert_insert_eq. Qed.

Lemma target_live h s w p : refines h s → points s !! w = Some p → target_ok p s = true.
Proof.
  intros [Ha Hp Hn Hl Ht] Hw. destruct p as [o|]; [|done]. apply bool_decide_eq_true_2. rewrite <- Ha. apply elem_of_dom, (Ht w).
  by rewrite Hp.
Qed.

Lemma construct_refines h s w p :
  refines h s → points s !! w = None → target_ok p s = true →
  ∃ h', weak_ptr_of true w p h = Ok h' ∧ refines h' (point w p s).
Proof.
  intros Hr Hw Hp. destruct (reset_refines (weak_ptr_default w h) (point w None s) w p None) as (h' & ? & Hr').
  - by apply default_refines.
  - apply lookup_insert_eq.
  - done.
  - exists h'. split; [done|]. by rewrite point_point in Hr'.
Qed.

(** Moving: the source is reset after the target was set. *)
Lemma move_refines h s w v p q :
  refines h s → v ≠ w → points s !! v = Some p → points s !! w = Some q →
  ∃ h', (p ← get true v h; h ← reset true w p h; reset true v None h) = Ok h' ∧
    refines h' (point v None (point w p s)).
Proof.
  intros Hr Hne Hv Hw. pose proof (target_live _ _ _ _ Hr Hv) as Ht. unfold get. rewrite (r_points _ _ Hr), Hv.
  cbn [check deref mbind res_bind]. destruct (reset_refines h s w p q Hr Hw Ht) as (h1 & -> & Hr1). cbn [mbind res_bind].
  apply (reset_refines h1 (point w p s) v None p Hr1); [|done]. cbn. by rewrite lookup_insert_ne.
Qed.

Lemma clear_all_run l h :
  (∀ w, w ∈ l → is_Some (weaks h !! w)) →
  ∃ h', clear_all l h = Ok h' ∧ objects h' = objects h ∧
    ∀ v, weaks h' !! v = if decide (v ∈ l) then Some None else weaks h !! v.
Proof.
  revert h. induction l as [|w l IH]; intros h Hl; [exists h; split_and!; try done; intros; by rewrite decide_False by set_solver|].
  cbn [clear_all]. destruct (Hl w) as [p Hp]; [by left|]. rewrite Hp. cbn [deref mbind res_bind].
  destruct (IH (set_weaks (<[w := None]> (weaks h)) h)) as (h' & Hc & Ho & Hw).
  { intros v Hv. cbn. apply lookup_insert_is_Some'. right. apply Hl. by right. }
  exists h'. split_and!; try done. intros v. rewrite Hw. cbn [weaks set_weaks]. destruct (decide (v = w)) as [->|Hne].
  - rewrite lookup_insert_eq, (decide_True (P := w ∈ w :: l)) by (by left). by case_decide.
  - rewrite lookup_insert_ne by done. repeat case_decide; try done; set_solver.
Qed.

Lemma delete_refines h s o :
  refines h s → o ∈ alive s →
  ∃ h', enable_weak_destructor true o h = Ok h' ∧ refines h' (mkSpec (alive s ∖ {[o]}) (forget o <$> points s)).
Proof.
  intros [Ha Hp Hn Hl Ht] Ho. rewrite <- Ha in Ho. apply elem_of_dom in Ho as [l El].
  assert (∃ h1, (if bool_decide (l = []) then Ok h else _ ← check true; clear_all l h) = Ok h1 ∧
    objects h1 = objects h ∧ weaks h1 = (forget o <$> points s)) as (h1 & Hc & Ho1 & Hw1).
  { destruct (clear_all_run l h) as (h1 & Hc & Ho1 & Hw1); [intros w Hw%(Hl o l w El); by eauto|].
    exists h1. split_and!; [|done|].
    - case_bool_decide as E; [|done]. subst l. injection Hc as ->. done.
    - apply map_eq. intros v. rewrite Hw1, lookup_fmap, Hp. case_decide as Hin.
      + apply (Hl o l v El) in Hin. rewrite <- Hp, Hin. cbn. unfold forget. by rewrite bool_decide_eq_true_2.
      + destruct (points s !! v) as [p|] eqn:Ev; [|done]. cbn. unfold forget. rewrite bool_decide_eq_false_2; [done|].
        intros ->. apply Hin, (Hl o l v El). by rewrite Hp. }
  unfold enable_weak_destructor. rewrite El. cbn [deref mbind res_bind]. rewrite Hc. cbn [mbind res_bind].
  eexists. split; [done|].
  assert (∀ v o', (forget o <$> points s) !! v = Some (Some o') ↔ o' ≠ o ∧ weaks h !! v = Some (Some o')) as Hfg.
  { intros v o'. rewrite lookup_fmap, Hp. destruct (points s !! v) as [p|]; [|cbn; naive_solver].
    cbn [fmap option_fmap option_map]. unfold forget.
    destruct (bool_decide_reflect (p = Some o)) as [->|E].
    - split; [done|]. intros [Hne [= ->]]. done.
    - split; [intros [= ->]; split; [congruence|done]|by intros [_ ?]]. }
  split; cbn; rewrite ?Ho1, ?Hw1.
  - by rewrite dom_delete_L, Ha.
  - done.
  - intros o' l'. rewrite lookup_delete_Some. intros [_ ?]. by eapply Hn.
  - intros o' l' w. rewrite lookup_delete_Some. intros [Hne El']. rewrite Hfg, (Hl o' l' w El'). naive_solver.
  - intros w o'. rewrite Hfg. intros [Hne Hw]. rewrite lookup_delete_ne by done. by eapply Ht.
Qed.

Lemma destruct_refines h s w q :
  refines h s → points s !! w = Some q →
  ∃ h', weak_ptr_destructor true w h = Ok h' ∧ refines h' (mkSpec (alive s) (delete w (points s))).
Proof.
  intros Hr Hw. unfold weak_ptr_destructor. destruct (reset_refines h s w None q Hr Hw eq_refl) as (h1 & -> & [Ha Hp Hn Hl Ht]).
  cbn [mbind res_bind]. eexists. split; [done|].
  assert (∀ v o, delete w (weaks h1) !! v = Some (Some o) ↔ weaks h1 !! v = Some (Some o)) as Hd.
  { intros v o. rewrite lookup_delete_Some, Hp. cbn. split; [naive_solver|]. intros Hv. split; [|done].
    intros ->. by rewrite lookup_insert_eq in Hv. }
  split; cbn; try done.
  - rewrite Hp. cbn. apply delete_insert_eq.
  - intros o l v El. rewrite Hd. by apply Hl.
  - intros v o. rewrite Hd. apply Ht.
Qed.

Lemma exec_refines x h s s' :
  refines h s → spec_exec x s = Some s' → ∃ h', exec true x h = Ok h' ∧ refines h' s'.
Proof.
  intros Hr Hx. destruct x as [o|o|o w|w p|w v|w v|w v|w v|w p|w]; cbn [exec]; cbn in Hx; unfold allowed in Hx.
  - case_bool_decide as Ho; [|done]. injection Hx as <-. eexists. split; [done|]. destruct Hr as [Ha Hp Hn Hl Ht].
    rewrite <- Ha in Ho. apply not_elem_of_dom in Ho. split; cbn.
    + by rewrite dom_insert_L, Ha.
    + done.
    + intros o' l. rewrite lookup_insert_Some. intros [[<- <-]|[_ El]]; [constructor|by eapply Hn].
    + intros o' l w. rewrite lookup_insert_Some. intros [[<- <-]|[_ El]]; [|by apply Hl].
      split; [by intros ?%elem_of_nil|]. intros [l Hl']%Ht. congruence.
    + intros w o' Hw%Ht. apply lookup_insert_is_Some'. by right.
  - case_bool_decide as Ho; [|done]. injection Hx as <-. by apply delete_refines.
  - case_bool_decide as Hw; [|done]. cbn in Hx. case_bool_decide as Ho; [|done]. injection Hx as <-.
    apply construct_refines; try done. by apply bool_decide_eq_true_2.
  - case_bool_decide as Hw; [|done]. destruct (target_ok p s) eqn:Ho; [|done]. injection Hx as <-. by apply construct_refines.
  - destruct (points s !! v) as [p|] eqn:Hv; [|done]. cbn in Hx. case_bool_decide as Hw; [|done]. injection Hx as <-.
    assert (v ≠ w) by congruence. unfold weak_ptr_copy, get. cbn [check mbind res_bind weak_ptr_default weaks set_weaks].
    rewrite lookup_insert_ne, (r_points _ _ Hr), Hv by done. cbn [deref mbind res_bind]. eapply (construct_refines h); try done.
    by eapply target_live.
  - destruct (points s !! v) as [p|] eqn:Hv; [|done]. cbn in Hx. case_bool_decide as Hw; [|done]. injection Hx as <-.
    assert (v ≠ w) by congruence. unfold weak_ptr_move. rewrite <- (point_point w p None s).
    apply (move_refines _ (point w None s) w v p None); try done; [by apply default_refines| |apply lookup_insert_eq].
    cbn. by rewrite lookup_insert_ne.
  - destruct (points s !! v) as [p|] eqn:Hv; [|done]. destruct (points s !! w) as [q|] eqn:Hw; [|done]. cbn in Hx.
    injection Hx as <-. unfold assign_copy. case_bool_decide as E; [by exists h|].
    unfold get. cbn [check mbind res_bind]. rewrite (r_points _ _ Hr), Hv. cbn [deref mbind res_bind].
    apply (reset_refines h s w p q); try done. by eapply target_live.
  - destruct (points s !! v) as [p|] eqn:Hv; [|done]. destruct (points s !! w) as [q|] eqn:Hw; [|done]. cbn in Hx.
    injection Hx as <-. unfold assign_move. case_bool_decide as E; [by exists h|]. by eapply move_refines.
  - destruct (points s !! w) as [q|] eqn:Hw; [|done]. cbn in Hx. destruct (target_ok p s) eqn:Ho; [|done]. injection Hx as <-.
    by eapply reset_refines.
  - destruct (points s !! w) as [q|] eqn:Hw; [|done]. cbn in Hx. injection Hx as <-. by eapply destruct_refines.
Qed.

(** C38. Weak pointers never dangle: on the looper thread, every sequence of operations that
    the specification allows runs without failure on the bookkeeping lists, and afterwards
    each weak pointer reads as the specification says: the object it was last pointed at, or
    null once that object is deleted. *)
Theorem weak_ptr_refines l s :
  spec_exec_all l (mkSpec ∅ ∅) = Some s →
  ∃ h, exec_all true l (mkWeak ∅ ∅) = Ok h ∧ refines h s ∧
    ∀ w p, points s !! w = Some p → get true w h = Ok p ∧ (∀ o, p = Some o → is_Some (objects h !! o)).
Proof.
  assert (∀ h s0, refines h s0 → spec_exec_all l s0 = Some s → ∃ h', exec_all true l h = Ok h' ∧ refines h' s) as Hrun.
  { induction l as [|x l IH]; intros h s0 Hr; cbn [spec_exec_all exec_all]; [intros [= <-]; by exists h|].
    destruct (spec_exec x s0) as [s1|] eqn:Ex; [|done]. cbn. intros Hs.
    destruct (exec_refines _ _ _ _ Hr Ex) as (h1 & -> & Hr1). cbn [mbind res_bind]. by apply (IH h1 s1). }
  intros Hs. destruct (Hrun (mkWeak ∅ ∅) (mkSpec ∅ ∅)) as (h & Hh & Hr); [|done|].
  - split; cbn; try done; intros *; rewrite lookup_empty; done.
  - exists h. split_and!; try done. intros w p Hw. unfold get. rewrite (r_points _ _ Hr), Hw. split; [done|].
    intros o ->. apply (r_target _ _ Hr w). by rewrite (r_points _ _ Hr).
Qed.

(** Two weak pointers to an object that is deleted, and one to another. *)
Definition weak_demo : list op :=
  [NewObject 1; NewObject 2; Weak 1 10; Copy 11 10; Construct 12 None; Move 13 10; Reset 12 (Some 2%nat);
   AssignCopy 10 13; DeleteObject 1; Destruct 13].
Lemma weak_ptr_refines_witness :
  ∃ h, exec_all true weak_demo (mkWeak ∅ ∅) = Ok h ∧ get true 10 h = Ok None ∧ get true 12 h = Ok (Some 2%nat).
Proof.
  destruct (spec_exec_all weak_demo (mkSpec ∅ ∅)) as [s|] eqn:E; [|by vm_compute in E].
  destruct (weak_ptr_refines weak_demo s E) as (h & Hh & _ & Hg). exists h. split; [done|].
  vm_compute in E. injection E as <-. split; by eapply Hg.
Defined.
