(* ===== verification/Blocking.v ===== *)
(** * Blocking connections

    Models [BlockingConnectionAdapter] of adb/transport.h and transport.cpp, which gives a
    connection that can only block ([BlockingConnection]: a socket, an emulator) the
    interface of one that does not: a read thread hands packets to the transport, a write
    thread takes them from a queue, and the first error is reported to the transport once.

    A thread is at one of the program points of [pc]; a critical section on [mutex_] is one
    step, except in [DoTlsHandshake], which keeps the mutex while it joins the read thread
    and shakes hands: [lock] is its owner then, and other critical sections wait.  The
    write thread sleeps on [cv_] at [WSleep] until it is notified, or wakes spuriously.
    What the underlying connection answers is chosen by the environment, subject to what its
    interface asks for: after [Close], reads fail, and writes and handshakes return.

    [delivered], [submitted] and [handed] are histories: the packets given to
    [HandleRead], put into [write_queue_], and given to the underlying [Write]; [phase] tells how far
    the call of [Stop] that stops the connection has got. *)

From S2P Require Import Prelude.

(** The reasons that [HandleError] is called with. *)
Inductive cause := read_failed | write_failed | requested_stop.

(** Who ends the process: a client that starts a connection twice, or shakes hands before the
    start, or uses a connection that it is destroying, or the adapter: a join of a thread that is not there, a thread object that
    is overwritten or destroyed while its thread runs, the use of a freed adapter. *)
Inductive culprit := by_client | by_adapter.

Section blocking.
Context {P : Type} (is_stls : P → bool).

Record adapter := mkAdapter {
  started : bool;
  stopped : bool;
  write_queue : list P;
  read_thread : option nat;
  write_thread : option nat;
  error_flag : bool;
  lock : option nat;
  closed : bool;
  freed : bool
}.
Definition set_started r w a :=
  mkAdapter true (stopped a) (write_queue a) r w (error_flag a) (lock a) (closed a) (freed a).
Definition set_stopped a :=
  mkAdapter (started a) true (write_queue a) (read_thread a) (write_thread a) (error_flag a) (lock a) (closed a) (freed a).
Definition set_write_queue q a :=
  mkAdapter (started a) (stopped a) q (read_thread a) (write_thread a) (error_flag a) (lock a) (closed a) (freed a).
Definition set_handles r w a :=
  mkAdapter (started a) (stopped a) (write_queue a) r w (error_flag a) (lock a) (closed a) (freed a).
Definition set_error a :=
  mkAdapter (started a) (stopped a) (write_queue a) (read_thread a) (write_thread a) true (lock a) (closed a) (freed a).
Definition set_lock l a :=
  mkAdapter (started a) (stopped a) (write_queue a) (read_thread a) (write_thread a) (error_flag a) l (closed a) (freed a).
Definition set_closed a :=
  mkAdapter (started a) (stopped a) (write_queue a) (read_thread a) (write_thread a) (error_flag a) (lock a) true (freed a).
Definition set_freed a :=
  mkAdapter (started a) (stopped a) (write_queue a) (read_thread a) (write_thread a) (error_flag a) (lock a) (closed a) true.

Definition new_adapter : adapter := mkAdapter false false [] None None false None false false.

(** [d] is whether [Stop] is called by the destructor; [r] and [w] are the threads that it
    moved into its local variables. *)
Inductive pc :=
  | Idle
  | WriteNotify
  | StopEnter (d : bool)
  | StopClose (d : bool)
  | StopNotify (d : bool)
  | StopMove (d : bool)
  | StopJoinR (d : bool) (r w : option nat)
  | StopJoinW (d : bool) (w : option nat)
  | StopError (d : bool)
  | Members
  | ResetEnter
  | ResetUnderlying
  | TLock
  | TJoin
  | THandshake
  | TRestart
  | RRead
  | RHandle (p : P)
  | RError
  | WTop
  | WSleep
  | WWrite (p : P)
  | WError
  | Exited.

(** The thread that stops the connection, and the threads it has still to join. *)
Inductive stop_phase :=
  | Running
  | Stopping (s : nat)
  | Moved (s : nat) (r w : option nat)
  | Joined (s : nat)
  | Done.

Record sys := mkSys {
  conn : adapter;
  threads : gmap nat pc;
  next_tid : nat;
  destroying : option nat;
  crash : option culprit;
  reported : list cause;
  delivered : list P;
  submitted : list P;
  handed : list P;
  phase : stop_phase
}.
Definition at_pc t p a st :=
  mkSys a (<[t := p]> (threads st)) (next_tid st) (destroying st) (crash st) (reported st) (delivered st)
    (submitted st) (handed st) (phase st).
Definition crashed w st :=
  mkSys (conn st) (threads st) (next_tid st) (destroying st) (Some w) (reported st) (delivered st)
    (submitted st) (handed st) (phase st).
Definition set_destroying t st :=
  mkSys (conn st) (threads st) (next_tid st) (Some t) (crash st) (reported st) (delivered st)
    (submitted st) (handed st) (phase st).
Definition set_phase ph st :=
  mkSys (conn st) (threads st) (next_tid st) (destroying st) (crash st) (reported st) (delivered st)
    (submitted st) (handed st) ph.

(** [std::call_once(error_flag_, HandleError)]. *)
Definition report (c : cause) (st : sys) : sys :=
  let a := conn st in
  if error_flag a then st else
  mkSys (set_error a) (threads st) (next_tid st) (destroying st) (crash st) (reported st ++ [c]) (delivered st)
    (submitted st) (handed st) (phase st).

Definition wake (p : pc) : pc := match p with WSleep => WTop | p => p end.
(** [cv_.notify_one()]: nobody but the write thread waits on [cv_]. *)
Definition notify (st : sys) : sys :=
  mkSys (conn st) (wake <$> threads st) (next_tid st) (destroying st) (crash st) (reported st) (delivered st)
    (submitted st) (handed st) (phase st).

(** [Start], with its two threads; the read thread is there already when a client shook hands
    before. *)
Definition Start (t : nat) (st : sys) : sys :=
  let a := conn st in
  if started a || bool_decide (is_Some (read_thread a)) then crashed by_client st else
  let r := next_tid st in
  let w := S r in
  mkSys (set_started (Some r) (Some w) a) (<[w := WTop]> (<[r := RRead]> (threads st))) (S w) (destroying st)
    (crash st) (reported st) (delivered st) (submitted st) (handed st) (phase st).

(** The critical section of [Write]. *)
Definition Write (t : nat) (p : P) (st : sys) : sys :=
  let a := conn st in
  mkSys (set_write_queue (write_queue a ++ [p]) a) (<[t := WriteNotify]> (threads st)) (next_tid st) (destroying st)
    (crash st) (reported st) (delivered st) (submitted st ++ [p]) (handed st) (phase st).

(** Where [Stop] returns to: to the client, or to the destructor, which destroys the members. *)
Definition after (d : bool) : pc := if d then Members else Idle.

Definition stop_enter (t : nat) (d : bool) (st : sys) : sys :=
  let a := conn st in
  if negb (started a) || stopped a then at_pc t (after d) a st
  else at_pc t (StopClose d) (set_stopped a) (set_phase (Stopping t) st).

(** The threads are moved out of the members. *)
Definition stop_move (t : nat) (d : bool) (st : sys) : sys :=
  let a := conn st in
  at_pc t (StopJoinR d (read_thread a) (write_thread a)) (set_handles None None a)
    (set_phase (Moved t (read_thread a) (write_thread a)) st).

Definition exited (st : sys) (u : nat) : bool :=
  match threads st !! u with Some Exited => true | _ => false end.

(** [std::thread::join]: not enabled while the thread runs; on an empty object it throws. *)
Definition join (h : option nat) (go : sys) (st : sys) : option sys :=
  match h with
  | None => Some (crashed by_adapter st)
  | Some u => if exited st u then Some go else None
  end.

Definition stop_error (t : nat) (d : bool) (st : sys) : sys :=
  let st := report requested_stop st in at_pc t (after d) (conn st) (set_phase Done st).

(** The members are destroyed; a std::thread that is joinable ends the process. *)
Definition destroy_members (t : nat) (st : sys) : sys :=
  let a := conn st in
  match read_thread a, write_thread a with
  | None, None => at_pc t Idle (set_freed a) st
  | _, _ => crashed by_adapter st
  end.

Definition reset_enter (t : nat) (st : sys) : sys :=
  let a := conn st in
  at_pc t (if negb (started a) || stopped a then Idle else ResetUnderlying) a st.

(** [StartReadThread] at the end of [DoTlsHandshake], and the release of the mutex. *)
Definition tls_restart (t : nat) (st : sys) : sys :=
  let a := conn st in
  match read_thread a with
  | Some _ => crashed by_adapter st
  | None =>
      let r := next_tid st in
      mkSys (set_lock None (set_handles (Some r) (write_thread a) a)) (<[t := Idle]> (<[r := RRead]> (threads st)))
        (S r) (destroying st) (crash st) (reported st) (delivered st) (submitted st) (handed st) (phase st)
  end.

(** The read thread after a packet. *)
Definition read_handle (t : nat) (p : P) (st : sys) : sys :=
  mkSys (conn st) (<[t := if is_stls p then Exited else RRead]> (threads st)) (next_tid st) (destroying st)
    (crash st) (reported st) (delivered st ++ [p]) (submitted st) (handed st) (phase st).

(** The write thread holds the mutex and has looked at its predicate. *)
Definition write_top (t : nat) (st : sys) : sys :=
  let a := conn st in
  if stopped a then at_pc t Exited a st else
  match write_queue a with
  | [] => at_pc t WSleep a st
  | p :: q =>
      mkSys (set_write_queue q a) (<[t := WWrite p]> (threads st)) (next_tid st) (destroying st) (crash st)
        (reported st) (delivered st) (submitted st) (handed st ++ [p]) (phase st)
  end.

(** ** Steps *)

Inductive api := AStart | AWrite (p : P) | AStop | AReset | ATls | ADestroy.

Inductive answer :=
  | Packet (p : P)         (** the underlying [Read] returns a packet *)
  | Success                (** a [Write] or a handshake succeeds *)
  | Failure.               (** a [Read], a [Write] or a handshake fails *)

Inductive action :=
  | Call (c : api)         (** a client calls the adapter *)
  | Go                     (** the next step of the code *)
  | Reply (r : answer)     (** the underlying connection returns *)
  | Wake.                  (** a spurious wake-up *)

(** Nobody owns the mutex. *)
Definition unlocked (st : sys) : bool := match lock (conn st) with None => true | _ => false end.

Definition in_call (p : pc) : bool :=
  match p with
  | Idle | RRead | RHandle _ | RError | WTop | WSleep | WWrite _ | WError | Exited => false
  | _ => true
  end.
(** The owner destroys an adapter when no call of a client is in progress. *)
Definition quiescent (st : sys) : bool := bool_decide (map_Forall (λ _ p, in_call p = false) (threads st)).

Definition begin_call (t : nat) (c : api) (st : sys) : option sys :=
  if bool_decide (is_Some (destroying st)) then Some (crashed by_client st) else
  match c with
  | AStart => if unlocked st then Some (Start t st) else None
  | AWrite p => if unlocked st then Some (Write t p st) else None
  | AStop => Some (at_pc t (StopEnter false) (conn st) st)
  | AReset => Some (at_pc t ResetEnter (conn st) st)
  | ATls => Some (at_pc t TLock (conn st) st)
  | ADestroy =>
      Some (if quiescent st then at_pc t (StopEnter true) (conn st) (set_destroying t st) else crashed by_client st)
  end.

Definition go (t : nat) (p : pc) (st : sys) : option sys :=
  let a := conn st in
  let locked s := if unlocked st then Some s else None in
  match p with
  | WriteNotify => Some (at_pc t Idle a (notify st))
  | StopEnter d => locked (stop_enter t d st)
  | StopClose d => Some (at_pc t (StopNotify d) (set_closed a) st)
  | StopNotify d => Some (at_pc t (StopMove d) a (notify st))
  | StopMove d => locked (stop_move t d st)
  | StopJoinR d r w => join r (at_pc t (StopJoinW d w) a (set_phase (Moved t None w) st)) st
  | StopJoinW d w => join w (at_pc t (StopError d) a (set_phase (Joined t) st)) st
  | StopError d => Some (stop_error t d st)
  | Members => Some (destroy_members t st)
  | ResetEnter => locked (reset_enter t st)
  | ResetUnderlying => Some (at_pc t (StopEnter false) (set_closed a) st)
  | TLock => locked (at_pc t TJoin (set_lock (Some t) a) st)
  | TJoin =>
      match read_thread a with
      | None => Some (at_pc t THandshake a st)
      | Some r => if exited st r then Some (at_pc t THandshake (set_handles None (write_thread a) a) st) else None
      end
  | TRestart => Some (tls_restart t st)
  | RHandle p => Some (read_handle t p st)
  | RError => Some (at_pc t Exited (conn (report read_failed st)) (report read_failed st))
  | WTop => locked (write_top t st)
  | WError => Some (at_pc t Exited (conn (report write_failed st)) (report write_failed st))
  | Idle | THandshake | RRead | WSleep | WWrite _ | Exited => None
  end.

Definition reply (t : nat) (p : pc) (r : answer) (st : sys) : option sys :=
  let a := conn st in
  match p, r with
  | RRead, Packet x => if closed a then None else Some (at_pc t (RHandle x) a st)
  | RRead, Failure => Some (at_pc t RError a st)
  | WWrite _, Success => Some (at_pc t WTop a st)
  | WWrite _, Failure => Some (at_pc t WError a st)
  | THandshake, (Success | Failure) => Some (at_pc t TRestart a st)
  | _, _ => None
  end.

(** After the adapter is freed, any step of a thread that is in it is a use after free. *)
Definition step (t : nat) (x : action) (st : sys) : option sys :=
  match crash st, threads st !! t with
  | None, Some p =>
      let r := match x with
               | Call c => match p with Idle => begin_call t c st | _ => None end
               | Go => go t p st
               | Reply r => reply t p r st
               | Wake => match p with WSleep => Some (at_pc t WTop (conn st) st) | _ => None end
               end in
      match r, p with
      | Some st', Idle => Some st'
      | Some st', _ => Some (if freed (conn st) then crashed by_adapter st else st')
      | None, _ => None
      end
  | _, _ => None
  end.

Fixpoint run_trace (tr : list (nat * action)) (st : sys) : option sys :=
  match tr with
  | [] => Some st
  | (t, a) :: tr => st' ← step t a st; run_trace tr st'
  end.

(** [n] client threads and a connection that has not been started. *)
Definition init (n : nat) : sys :=
  mkSys new_adapter (list_to_map ((λ t, (t, Idle)) <$> seq 0 n)) n None None [] [] [] [] Running.

(** [tls] is whether clients may call [DoTlsHandshake]. *)
Inductive reachable (tls : bool) (n : nat) : sys → Prop :=
  | reach_init : reachable tls n (init n)
  | reach_step st st' t x : reachable tls n st → (tls = false → x ≠ Call ATls) →
      step t x st = Some st' → reachable tls n st'.

End blocking.
