(* ===== verification/BlockingInv.v ===== *)
(** * Blocking connections: safety and the end of Stop

    The invariant of a [BlockingConnectionAdapter] under all interleavings of its clients and
    its two threads, and what follows: packets are written in order and none after a
    [Stop], the first error is reported exactly once, no wake-up of the write thread is
    lost, [Stop] always comes to an end, and an adapter is destroyed safely unless a TLS
    handshake comes after [Stop], for which the last section has a run. *)

From S2P Require Import Prelude Blocking.

Section proofs.
Context {P : Type} (is_stls : P → bool).
Abbreviation sys := (@sys P).
Abbreviation pc := (@pc P).
Implicit Types (st : sys) (p q : pc) (ph : stop_phase).

(** ** The invariant *)

Definition rkind p : bool := match p with RRead | RHandle _ | RError => true | _ => false end.
Definition wkind p : bool := match p with WTop | WSleep | WWrite _ | WError => true | _ => false end.
Definition calm p : bool := match p with Idle | Exited => true | _ => false end.
Definition owns p : bool := match p with TJoin | THandshake | TRestart => true | _ => false end.
Definition handshaking p : bool := match p with TLock | TJoin | THandshake | TRestart => true | _ => false end.
Definition before_move ph : bool := match ph with Running | Stopping _ => true | _ => false end.

(** [d]: the call is made by the destructor. *)
Definition called (d : bool) (t : nat) st : Prop := destroying st = if d then Some t else None.

(** What holds of a thread at a program point. *)
Definition pc_ok st (t : nat) p : Prop :=
  match p with
  | Idle | Exited => True
  | WriteNotify | ResetEnter | ResetUnderlying | TLock => destroying st = None
  | StopEnter d => called d t st
  | StopClose d => called d t st ∧ phase st = Stopping t
  | StopNotify d | StopMove d => called d t st ∧ phase st = Stopping t ∧ closed (conn st) = true
  | StopJoinR d r w => called d t st ∧ phase st = Moved t r w ∧ is_Some r ∧ is_Some w
  | StopJoinW d w => called d t st ∧ phase st = Moved t None w ∧ is_Some w
  | StopError d => called d t st ∧ phase st = Joined t
  | Members => destroying st = Some t ∧ (started (conn st) = true → phase st = Done)
  | TJoin => destroying st = None ∧ lock (conn st) = Some t
  | THandshake | TRestart => destroying st = None ∧ lock (conn st) = Some t ∧ read_thread (conn st) = None
  | RRead | RHandle _ | RError => read_thread (conn st) = Some t ∨ ∃ s w, phase st = Moved s (Some t) w
  | WTop | WSleep | WWrite _ | WError => write_thread (conn st) = Some t ∨ ∃ s r, phase st = Moved s r (Some t)
  end.

(** A thread whose handle somebody holds. *)
Definition r_held st (r : nat) : Prop := read_thread (conn st) = Some r ∨ ∃ s w, phase st = Moved s (Some r) w.
Definition w_held st (w : nat) : Prop := write_thread (conn st) = Some w ∨ ∃ s r, phase st = Moved s r (Some w).

Definition stopper ph : option nat :=
  match ph with Stopping s | Moved s _ _ | Joined s => Some s | Running | Done => None end.

Record inv (tls : bool) st : Prop := {
  v_fresh t : (next_tid st ≤ t)%nat → threads st !! t = None;
  v_pc t p : threads st !! t = Some p → pc_ok st t p;
  v_calm t p : threads st !! t = Some p → freed (conn st) = true → calm p = true;
  v_freed : freed (conn st) = true → destroying st ≠ None;
  v_tls t p : threads st !! t = Some p → tls = false → handshaking p = false;
  v_order : submitted st = handed st ++ write_queue (conn st);
  v_error : length (reported st) = if error_flag (conn st) then 1%nat else 0%nat;
  v_done : phase st = Done → error_flag (conn st) = true;
  v_running : stopped (conn st) = false ↔ phase st = Running;
  v_unstarted : started (conn st) = false → phase st = Running ∧ write_thread (conn st) = None;
  v_moved : before_move (phase st) = false → closed (conn st) = true ∧ write_thread (conn st) = None;
  v_threads : started (conn st) = true → before_move (phase st) = true →
    is_Some (write_thread (conn st)) ∧ (is_Some (read_thread (conn st)) ∨ is_Some (lock (conn st)));
  v_lock t : lock (conn st) = Some t → ∃ p, threads st !! t = Some p ∧ owns p = true;
  v_reader r : r_held st r → ∃ p, threads st !! r = Some p ∧ (rkind p = true ∨ p = Exited);
  v_writer w : w_held st w → ∃ p, threads st !! w = Some p ∧ (wkind p = true ∨ p = Exited);
  v_stopper s : stopper (phase st) = Some s →
    ∃ p, threads st !! s = Some p ∧ match p with
                                    | StopClose _ | StopNotify _ | StopMove _ | StopJoinR _ _ _
                                    | StopJoinW _ _ | StopError _ => True
                                    | _ => False
                                    end;
  v_free_tls : tls = false → lock (conn st) = None ∧
    (started (conn st) = false ∨ before_move (phase st) = false → read_thread (conn st) = None);
  v_crash : tls = false → crash st ≠ Some by_adapter
}.

Lemma adapter_inv_crashed tls st : inv tls st → inv tls (crashed by_client st).
Proof. intros [ ]. split; try done. Qed.

(** ** Preservation

    [look] splits a lookup in the updated threads; [held] finds a thread that an invariant
    promises, whether or not it is the one that moved; [frame] shows that the facts of another
    thread are untouched. *)
Ltac look :=
  repeat match goal with
  | H : <[_ := _]> _ !! _ = Some _ |- _ => apply lookup_insert_Some in H as [[? ?]|[? H]]; subst
  end.
Ltac destruct_ors :=
  repeat match goal with
  | H : _ ∨ _ |- _ => destruct H
  | H : ∃ _, _ |- _ => destruct H
  | H : _ ∧ _ |- _ => destruct H
  end.
Ltac use X := let Y := fresh in pose proof X as Y; cbn in *; solve [intuition congruence].
Ltac same_phase :=
  simplify_eq; try match goal with H1 : phase ?s = _, H2 : phase ?s = _ |- _ => rewrite H1 in H2; simplify_eq end.
Ltac frame Hi :=
  match goal with
  | H : threads _ !! ?u = Some ?q |- pc_ok _ ?u ?q =>
      let X := fresh in pose proof (v_pc _ _ Hi _ _ H) as X; destruct q; cbn in X |- *; unfold called in *; cbn in *;
      try exact X; destruct_ors; first [congruence | solve [eauto 8] | solve [intuition congruence] | solve [same_phase; eauto 8]]
  end.
Ltac held Ht :=
  match goal with
  | X : ∃ p, threads _ !! ?u = Some p ∧ _ |- ∃ p, <[?t := _]> _ !! ?u = Some p ∧ _ =>
      let q := fresh "q" in let Hu := fresh "Hu" in let Hq := fresh "Hq" in
      destruct X as (q & Hu & Hq); destruct (decide (t = u)) as [->|];
      [rewrite Ht in Hu; injection Hu as <-; eexists; rewrite lookup_insert_eq; split; [reflexivity|]
      |exists q; rewrite lookup_insert_ne by assumption; done]
  end.

(** The skeleton of a proof that a step of thread [t], which was at the program point of [Ht],
    keeps the invariant; what it cannot do is left. *)
Ltac mv Hi Ht :=
  let Hp := fresh "Hp" in
  let st := match type of Hi with inv _ ?st => st end in
  pose proof (v_pc _ _ Hi _ _ Ht) as Hp; cbn in Hp; unfold called in Hp;
  split; cbn;
  [ try (intros ? ?; rewrite lookup_insert_ne by (intros <-; rewrite (v_fresh _ _ Hi) in Ht; done); by apply (v_fresh _ _ Hi))
  | try (intros ? ? ?; look; [try (cbn; unfold called; cbn; naive_solver)|try frame Hi])
  | try (intros ? ? Hu Hf; look; [by pose proof (v_calm _ _ Hi _ _ Ht Hf)|by apply (v_calm _ _ Hi _ _ Hu)])
  | try apply Hi
  | try (intros ? ? Hu Hf; look; [first [done|by pose proof (v_tls _ _ Hi _ _ Ht eq_refl)]|by apply (v_tls _ _ Hi _ _ Hu)])
  | try apply Hi
  | try apply Hi
  | try first [apply Hi | use (v_done _ _ Hi)]
  | try first [apply Hi | use (v_running _ _ Hi)]
  | try first [apply Hi | use (v_unstarted _ _ Hi)]
  | try first [apply Hi | use (v_moved _ _ Hi) | intros _; apply (v_moved _ _ Hi); match goal with H : phase _ = _ |- _ => rewrite H; done end]
  | try first [apply Hi | use (v_threads _ _ Hi)]
  | try (intros ? Hs%(v_lock _ _ Hi); held Ht; naive_solver)
  | try (intros u Hs; assert (r_held st u) as Hs' by (unfold r_held in *; cbn in *; naive_solver);
         apply (v_reader _ _ Hi) in Hs'; held Ht; cbn in *; naive_solver)
  | try (intros u Hs; assert (w_held st u) as Hs' by (unfold w_held in *; cbn in *; naive_solver);
         apply (v_writer _ _ Hi) in Hs'; held Ht; cbn in *; naive_solver)
  | try first [intros ? Hs%(v_stopper _ _ Hi); held Ht; cbn in *; naive_solver
              | intros ? [= <-]; eexists; rewrite lookup_insert_eq; done]
  | try first [apply Hi | use (v_free_tls _ _ Hi)
              | intros E; split; [by apply (v_free_tls _ _ Hi E)|intros _; apply (v_free_tls _ _ Hi E); right;
                  match goal with H : phase _ = _ |- _ => rewrite H; done end]]
  | try apply Hi ].

Lemma move_StopClose tls st t d :
  inv tls st → threads st !! t = Some (StopClose d) → inv tls (at_pc t (StopNotify d) (set_closed (conn st)) st).
Proof. intros Hi Ht. mv Hi Ht. Qed.

Lemma move_ResetUnderlying tls st t :
  inv tls st → threads st !! t = Some ResetUnderlying → inv tls (at_pc t (StopEnter false) (set_closed (conn st)) st).
Proof. intros Hi Ht. mv Hi Ht. Qed.

Lemma move_ResetEnter tls st t :
  inv tls st → threads st !! t = Some ResetEnter → inv tls (reset_enter t st).
Proof. intros Hi Ht. unfold reset_enter. destruct (_ || _); mv Hi Ht. Qed.

(** The calls that only enter. *)
Lemma move_Call tls st t p' :
  inv tls st → threads st !! t = Some Idle → destroying st = None → freed (conn st) = false →
  p' = StopEnter false ∨ p' = ResetEnter ∨ (p' = TLock ∧ tls = true) → inv tls (at_pc t p' (conn st) st).
Proof.
  intros Hi Ht Hd Hfr Hp'. mv Hi Ht.
  - intros ? ? Hu Hf'. congruence.
  - intros ? ? Hu ->. look; [|by apply (v_tls _ _ Hi _ _ Hu)]. destruct Hp' as [->|[->|[_ ?]]]; done.
Qed.

(** The destructor finds a connection that was never started or has been stopped for good. *)
Lemma stopped_done tls st t :
  inv tls st → threads st !! t = Some (StopEnter true) → stopped (conn st) = true → phase st = Done.
Proof.
  intros Hi Ht Hs. pose proof (v_pc _ _ Hi _ _ Ht) as Hd. cbn in Hd. unfold called in Hd.
  assert (phase st ≠ Running) as Hr by (intros E%(v_running _ _ Hi); congruence).
  assert (∀ s, stopper (phase st) = Some s → False) as Hno.
  { intros s Hst. destruct (v_stopper _ _ Hi _ Hst) as (p & Hp & Hm). pose proof (v_pc _ _ Hi _ _ Hp) as Hc.
    destruct p as [| | |d|d|d|d r w|d w|d| | | | | | | | | | | | | | |]; try done; cbn in Hc; unfold called in Hc;
      destruct d; naive_solver. }
  destruct (phase st); try done; exfalso; by eapply Hno.
Qed.

Lemma move_StopEnter tls st t d :
  inv tls st → threads st !! t = Some (StopEnter d) → freed (conn st) = false → inv tls (stop_enter t d st).
Proof.
  intros Hi Ht Hfr. unfold stop_enter. destruct (started (conn st)) eqn:Es; [destruct (stopped (conn st)) eqn:Est|]; cbn.
  - pose proof (stopped_done tls st t Hi). destruct d; mv Hi Ht.
  - assert (phase st = Running) as Hr by (by apply (v_running _ _ Hi)). mv Hi Ht.
    + intros _ _. apply (v_threads _ _ Hi); [done|]. by rewrite Hr.
  - destruct d; mv Hi Ht. split; [done|]. cbn. congruence.
Qed.

Lemma started_phase tls st : inv tls st → phase st ≠ Running → started (conn st) = true.
Proof. intros Hi Hph. destruct (started (conn st)) eqn:E; [done|]. by apply (v_unstarted _ _ Hi) in E as [? _]. Qed.

Lemma move_StopMove tls st t d :
  inv tls st → threads st !! t = Some (StopMove d) → lock (conn st) = None → inv tls (stop_move t d st).
Proof.
  intros Hi Ht Hlk. pose proof (v_pc _ _ Hi _ _ Ht) as (Hd & Hph & Hcl). unfold stop_move.
  pose proof (started_phase _ _ Hi ltac:(congruence)) as Hst.
  destruct (v_threads _ _ Hi Hst) as [[w Hw] [[r Hr]|[? ?]]]; [by rewrite Hph| |congruence]. rewrite Hr, Hw.
  mv Hi Ht.
Qed.

Lemma exited_inv st u : exited st u = true → threads st !! u = Some Exited.
Proof. unfold exited. destruct (threads st !! u) as [[]|]; done. Qed.

Lemma move_StopJoinR tls st t d r w :
  inv tls st → threads st !! t = Some (StopJoinR d (Some r) w) → exited st r = true →
  inv tls (at_pc t (StopJoinW d w) (conn st) (set_phase (Moved t None w) st)).
Proof.
  intros Hi Ht Hr%exited_inv. pose proof (v_pc _ _ Hi _ _ Ht) as (Hd & Hph & _ & Hw).
  pose proof (started_phase _ _ Hi ltac:(congruence)) as Hst. mv Hi Ht.
Qed.

Lemma move_StopJoinW tls st t d w :
  inv tls st → threads st !! t = Some (StopJoinW d (Some w)) → exited st w = true →
  inv tls (at_pc t (StopError d) (conn st) (set_phase (Joined t) st)).
Proof.
  intros Hi Ht Hr%exited_inv. pose proof (v_pc _ _ Hi _ _ Ht) as (Hd & Hph & Hw).
  pose proof (started_phase _ _ Hi ltac:(congruence)) as Hst. mv Hi Ht.
Qed.

Lemma report_inv tls st c : inv tls st → inv tls (report c st).
Proof.
  intros Hi. unfold report. destruct (error_flag (conn st)) eqn:E; [done|]. pose proof (v_error _ _ Hi) as He. rewrite E in He.
  destruct Hi. split; cbn; try done. rewrite length_app, He. done.
Qed.

Lemma move_StopError tls st t d :
  inv tls st → threads st !! t = Some (StopError d) → error_flag (conn st) = true →
  inv tls (at_pc t (after d) (conn st) (set_phase Done st)).
Proof.
  intros Hi Ht He. pose proof (v_pc _ _ Hi _ _ Ht) as (Hd & Hph).
  destruct d; mv Hi Ht.
Qed.

Lemma wake_facts p :
  rkind (wake p) = rkind p ∧ wkind (wake p) = wkind p ∧ calm (wake p) = calm p ∧ owns (wake p) = owns p ∧
  handshaking (wake p) = handshaking p ∧ in_call (wake p) = in_call p.
Proof. by destruct p. Qed.

Lemma notify_inv tls st : inv tls st → inv tls (notify st).
Proof.
  intros Hi.
  assert (∀ t p, wake <$> threads st !! t = Some p → ∃ q, threads st !! t = Some q ∧ p = wake q) as Hl.
  { intros t p. destruct (threads st !! t) as [q|]; [|done]. intros [= <-]. eauto. }
  assert (∀ t q, threads st !! t = Some q → wake <$> threads st !! t = Some (wake q)) as Hr by (by intros t q ->).
  split; cbn; setoid_rewrite lookup_fmap || idtac.
  - intros t Ht. by rewrite (v_fresh _ _ Hi).
  - intros t p (q & Hq & ->)%Hl. pose proof (v_pc _ _ Hi _ _ Hq). by destruct q.
  - intros t p (q & Hq & ->)%Hl. destruct (wake_facts q) as (_ & _ & -> & _). by apply (v_calm _ _ Hi _ _ Hq).
  - apply Hi.
  - intros t p (q & Hq & ->)%Hl. destruct (wake_facts q) as (_ & _ & _ & _ & -> & _). by apply (v_tls _ _ Hi _ _ Hq).
  - apply Hi.
  - apply Hi.
  - apply Hi.
  - apply Hi.
  - apply Hi.
  - apply Hi.
  - apply Hi.
  - intros t (q & Hq & Ho)%(v_lock _ _ Hi). exists (wake q). rewrite (Hr _ _ Hq). split; [done|]. by destruct q.
  - intros t (q & Hq & Ho)%(v_reader _ _ Hi). exists (wake q). rewrite (Hr _ _ Hq). split; [done|]. destruct q; naive_solver.
  - intros t (q & Hq & Ho)%(v_writer _ _ Hi). exists (wake q). rewrite (Hr _ _ Hq). split; [done|]. destruct q; naive_solver.
  - intros t (q & Hq & Ho)%(v_stopper _ _ Hi). exists (wake q). rewrite (Hr _ _ Hq). split; [done|]. by destruct q.
  - apply Hi.
  - apply Hi.
Qed.

Lemma notify_at st t p : threads st !! t = Some p → wake p = p → threads (notify st) !! t = Some p.
Proof. intros Ht Hw. cbn. by rewrite lookup_fmap, Ht; cbn; rewrite Hw. Qed.

Lemma move_WriteNotify tls st t :
  inv tls st → threads st !! t = Some WriteNotify → inv tls (at_pc t Idle (conn st) st).
Proof. intros Hi Ht. mv Hi Ht. Qed.

Lemma move_StopNotify tls st t d :
  inv tls st → threads st !! t = Some (StopNotify d) → inv tls (at_pc t (StopMove d) (conn st) st).
Proof. intros Hi Ht. mv Hi Ht. Qed.

Lemma handshake_tls tls st t p : inv tls st → threads st !! t = Some p → handshaking p = true → tls = true.
Proof. intros Hi Ht Hp. destruct tls; [done|]. by rewrite (v_tls _ _ Hi _ _ Ht) in Hp. Qed.

Lemma move_TLock tls st t :
  inv tls st → threads st !! t = Some TLock → lock (conn st) = None →
  inv tls (at_pc t TJoin (set_lock (Some t) (conn st)) st).
Proof.
  intros Hi Ht Hlk. pose proof (handshake_tls _ _ _ _ Hi Ht eq_refl) as ->. mv Hi Ht.
  - intros Hs Hb. destruct (v_threads _ _ Hi Hs Hb). split; [done|]. right. eauto.
  - intros ? [= <-]. exists TJoin. by rewrite lookup_insert_eq.
Qed.

Lemma move_TJoin tls st t :
  inv tls st → threads st !! t = Some TJoin → (∀ u, read_thread (conn st) = Some u → exited st u = true) →
  inv tls (at_pc t THandshake (set_handles None (write_thread (conn st)) (conn st)) st).
Proof.
  intros Hi Ht Hex. pose proof (handshake_tls _ _ _ _ Hi Ht eq_refl) as ->.
  assert (∀ u q, threads st !! u = Some q → read_thread (conn st) = Some u → q = Exited) as Hq.
  { intros u q Hu Hr%Hex%exited_inv. congruence. }
  mv Hi Ht.
  - match goal with H : threads _ !! ?u = Some ?q |- _ =>
      pose proof (Hq u q H); pose proof (v_pc _ _ Hi _ _ H); destruct q; try solve [frame Hi]; cbn in *; naive_solver
    end.
  - intros Hs Hb. destruct (v_threads _ _ Hi Hs Hb). split; [done|]. right. destruct Hp as [_ ->]. eauto.
Qed.

Lemma move_THandshake tls st t :
  inv tls st → threads st !! t = Some THandshake → inv tls (at_pc t TRestart (conn st) st).
Proof. intros Hi Ht. pose proof (handshake_tls _ _ _ _ Hi Ht eq_refl) as ->. mv Hi Ht. Qed.

(** The two threads, while they do not touch the adapter. *)
Inductive thread_move : pc → pc → Prop :=
  | tm_packet x : thread_move RRead (RHandle x)
  | tm_read_fails : thread_move RRead RError
  | tm_handled x : thread_move (RHandle x) RRead
  | tm_stls x : thread_move (RHandle x) Exited
  | tm_read_end : thread_move RError Exited
  | tm_write_stop : thread_move WTop Exited
  | tm_sleep : thread_move WTop WSleep
  | tm_wake : thread_move WSleep WTop
  | tm_written x : thread_move (WWrite x) WTop
  | tm_write_fails x : thread_move (WWrite x) WError
  | tm_write_end : thread_move WError Exited.

Lemma move_thread tls st t p p' :
  inv tls st → threads st !! t = Some p → thread_move p p' → inv tls (at_pc t p' (conn st) st).
Proof. intros Hi Ht Hm. destruct Hm; mv Hi Ht. Qed.

Lemma move_write tls st t x (rest : list P) :
  inv tls st → threads st !! t = Some WTop → write_queue (conn st) = x :: rest →
  inv tls (mkSys (set_write_queue rest (conn st)) (<[t := WWrite x]> (threads st)) (next_tid st) (destroying st) (crash st)
             (reported st) (delivered st) (submitted st) (handed st ++ [x]) (phase st)).
Proof. intros Hi Ht Hq. mv Hi Ht. by rewrite (v_order _ _ Hi), Hq, <- app_assoc. Qed.

Lemma move_push tls st t x :
  inv tls st → threads st !! t = Some Idle → destroying st = None → freed (conn st) = false → inv tls (Write t x st).
Proof.
  intros Hi Ht Hd Hfr. unfold Write. mv Hi Ht.
  - intros ? ? ? ?. congruence.
  - by rewrite (v_order _ _ Hi), <- app_assoc.
Qed.

Lemma move_Destroy tls st t :
  inv tls st → threads st !! t = Some Idle → destroying st = None → freed (conn st) = false → quiescent st = true →
  inv tls (at_pc t (StopEnter true) (conn st) (set_destroying t st)).
Proof.
  intros Hi Ht Hd Hfr Hq. apply bool_decide_eq_true in Hq.
  mv Hi Ht. 
  - match goal with H : threads _ !! ?u = Some ?q |- _ =>
      pose proof (Hq u q H); pose proof (v_pc _ _ Hi _ _ H); destruct q; try done end.
  - intros ? ? ? ?. congruence.
  - done.
Qed.

(** Nobody else is in the adapter when its members are destroyed. *)
Lemma members_alone tls st t u q :
  inv tls st → threads st !! t = Some Members → read_thread (conn st) = None → write_thread (conn st) = None →
  u ≠ t → threads st !! u = Some q → calm q = true.
Proof.
  intros Hi Ht Hr Hw Hne Hu. pose proof (v_pc _ _ Hi _ _ Ht) as [Hd Hdone]. pose proof (v_pc _ _ Hi _ _ Hu) as Hq.
  assert (∀ s a b, phase st ≠ Moved s a b) as Hm.
  { intros s a b E. rewrite (started_phase _ _ Hi), E in Hdone by congruence. by specialize (Hdone eq_refl). }
  destruct q as [| |d|d|d|d|d ? ?|d ?|d| | | | | | | | | | | | | | |]; try done; cbn in Hq; unfold called in Hq;
    try destruct d; naive_solver.
Qed.

Lemma move_Members tls st t :
  inv tls st → threads st !! t = Some Members → inv tls (destroy_members t st).
Proof.
  intros Hi Ht. pose proof (v_pc _ _ Hi _ _ Ht) as [Hd Hdone]. unfold destroy_members.
  assert (tls = false → read_thread (conn st) = None ∧ write_thread (conn st) = None) as Hnone.
  { intros E. destruct (started (conn st)) eqn:Es.
    - specialize (Hdone eq_refl). destruct (v_moved _ _ Hi) as [_ Hw]; [by rewrite Hdone|].
      split; [|done]. apply (v_free_tls _ _ Hi E). right. by rewrite Hdone.
    - split; [by apply (v_free_tls _ _ Hi E); left|by apply (v_unstarted _ _ Hi)]. }
  assert (inv tls (crashed by_adapter st) ∨ tls = false) as Hcr.
  { destruct tls; [left|by right]. destruct Hi. split; done. }
  destruct (read_thread (conn st)) as [r|] eqn:Er.
  { destruct Hcr as [|E]; [done|]. by destruct (Hnone E). }
  destruct (write_thread (conn st)) as [w|] eqn:Ew.
  { destruct Hcr as [|E]; [done|]. by destruct (Hnone E). }
  pose proof (members_alone tls st t) as Halone. mv Hi Ht.
  - intros u q Hu _. look; [done|]. by eapply Halone.
  - by rewrite Hd.
Qed.

(** Threads that are created: [Start] and the end of [DoTlsHandshake]. *)
Lemma move_Start tls st t :
  inv tls st → threads st !! t = Some Idle → destroying st = None → freed (conn st) = false → lock (conn st) = None →
  inv tls (Start t st).
Proof.
  intros Hi Ht Hd Hfr Hlk. unfold Start. destruct (started (conn st)) eqn:Es; [by apply adapter_inv_crashed|].
  destruct (read_thread (conn st)) as [r|] eqn:Er; cbn [orb]; [by rewrite bool_decide_eq_true_2 by eauto; apply adapter_inv_crashed|].
  rewrite bool_decide_eq_false_2 by (by intros []). destruct (v_unstarted _ _ Hi Es) as [Hph Hw].
  assert (∀ u p, threads st !! u = Some p → next_tid st ≠ u ∧ S (next_tid st) ≠ u) as Hn.
  { intros u p Hu. split; intros <-; rewrite (v_fresh _ _ Hi) in Hu; done || lia. }
  assert (∀ (u : nat) (Q : pc → Prop), (∃ p, threads st !! u = Some p ∧ Q p) →
    ∃ p, <[S (next_tid st) := WTop]> (<[next_tid st := RRead]> (threads st)) !! u = Some p ∧ Q p) as Hold.
  { intros u Q (p & Hu & HQ). exists p. destruct (Hn u p Hu). by rewrite !lookup_insert_ne by done. }
  split; cbn; try apply Hi; rewrite ?Hph.
  - intros u Hu. rewrite !lookup_insert_ne by lia. apply (v_fresh _ _ Hi). lia.
  - intros u p Hu. look; [by left|by left|]. pose proof (v_pc _ _ Hi _ _ Hu) as Hp.
    destruct p; cbn in *; unfold called in *; cbn in *; try exact Hp; destruct_ors; intuition congruence.
  - intros u p Hu Hf. congruence.
  - intros u p Hu E. look; [done|done|]. by apply (v_tls _ _ Hi _ _ Hu).
  - done.
  - done.
  - intros _ _. split; [|left]; eauto.
  - intros u Hl. apply Hold. by apply (v_lock _ _ Hi).
  - intros u [[= <-]|(? & ? & [=])]. exists RRead. rewrite lookup_insert_ne, lookup_insert_eq by lia. auto.
  - intros u [[= <-]|(? & ? & [=])]. exists WTop. rewrite lookup_insert_eq. auto.
  - done.
  - intros E. split; [by apply (v_free_tls _ _ Hi E)|]. by intros [|].
Qed.

Lemma move_TRestart tls st t :
  inv tls st → threads st !! t = Some TRestart → freed (conn st) = false → inv tls (tls_restart t st).
Proof.
  intros Hi Ht Hfr. pose proof (handshake_tls _ _ _ _ Hi Ht eq_refl) as ->.
  pose proof (v_pc _ _ Hi _ _ Ht) as (Hd & Hl & Hr). unfold tls_restart. rewrite Hr.
  assert (∀ u p, threads st !! u = Some p → next_tid st ≠ u) as Hn.
  { intros u p Hu <-. by rewrite (v_fresh _ _ Hi) in Hu. }
  pose proof (Hn _ _ Ht) as Hnt.
  assert (∀ (u : nat) (Q : pc → Prop), ¬ Q TRestart → (∃ p, threads st !! u = Some p ∧ Q p) →
    ∃ p, <[t := Idle]> (<[next_tid st := RRead]> (threads st)) !! u = Some p ∧ Q p) as Hold.
  { intros u Q HnQ (p & Hu & HQ). exists p. rewrite !lookup_insert_ne; [done|by eapply Hn|]. intros <-. congruence. }
  split; cbn; try apply Hi.
  - intros u Hu. rewrite !lookup_insert_ne; [apply (v_fresh _ _ Hi); lia|lia|]. intros <-.
    rewrite (v_fresh _ _ Hi) in Ht; [done|lia].
  - intros u p Hu. look; [done|by left|]. pose proof (v_pc _ _ Hi _ _ Hu) as Hp.
    destruct p; cbn in *; unfold called in *; cbn in *; try exact Hp; destruct_ors; first [congruence | solve [eauto 8]].
  - intros u p Hu Hf. congruence.
  - done.
  - intros Hs Hb. destruct (v_threads _ _ Hi Hs Hb). split; [done|]. left. eauto.
  - done.
  - intros u [[= <-]|Hm]; [exists RRead; rewrite lookup_insert_ne, lookup_insert_eq by done; auto|].
    apply Hold; [naive_solver|]. apply (v_reader _ _ Hi). by right.
  - intros u Hw. apply Hold; [naive_solver|]. by apply (v_writer _ _ Hi).
  - intros u Hs. apply Hold; [naive_solver|]. by apply (v_stopper _ _ Hi).
  - done.
Qed.

Lemma unlocked_inv st : unlocked st = true → lock (conn st) = None.
Proof. unfold unlocked. by destruct (lock (conn st)). Qed.

Lemma call_inv tls st t c st' :
  inv tls st → threads st !! t = Some Idle → (tls = false → c ≠ ATls) → begin_call t c st = Some st' → inv tls st'.
Proof.
  intros Hi Ht Htls. unfold begin_call. case_bool_decide as Hd; [intros [= <-]; by apply adapter_inv_crashed|].
  assert (destroying st = None) as Hdn by (destruct (destroying st); [exfalso; apply Hd; eauto|done]).
  assert (freed (conn st) = false) as Hfr.
  { destruct (freed (conn st)) eqn:E; [|done]. by apply (v_freed _ _ Hi) in E. }
  destruct c.
  - destruct (unlocked st) eqn:Hu; [|done]. intros [= <-]. apply move_Start; try done. by apply unlocked_inv.
  - destruct (unlocked st); [|done]. intros [= <-]. by apply move_push.
  - intros [= <-]. apply move_Call; auto.
  - intros [= <-]. apply move_Call; auto.
  - intros [= <-]. apply move_Call; auto. right; right. split; [done|]. destruct tls; [done|]. by destruct (Htls eq_refl).
  - destruct (quiescent st) eqn:Hq; intros [= <-]; [by apply move_Destroy|by apply adapter_inv_crashed].
Qed.

Lemma inv_delivered tls st l :
  inv tls st →
  inv tls (mkSys (conn st) (threads st) (next_tid st) (destroying st) (crash st) (reported st) l (submitted st)
             (handed st) (phase st)).
Proof. intros [ ]. split; done. Qed.

Lemma report_at c st : threads (report c st) = threads st ∧ phase (report c st) = phase st ∧ error_flag (conn (report c st)) = true.
Proof. unfold report. by destruct (error_flag (conn st)) eqn:E. Qed.

Lemma adapter_go_inv tls st t p st' :
  inv tls st → threads st !! t = Some p → freed (conn st) = false → go is_stls t p st = Some st' → inv tls st'.
Proof.
  intros Hi Ht Hfr. destruct p as [| |d|d|d|d|d r w|d w|d| | | | | | | | |x| | | |x| |]; cbn [go]; try done; intros E.
  - injection E as <-. apply (move_WriteNotify tls (notify st)); [by apply notify_inv|by apply notify_at].
  - destruct (unlocked st); [|done]. injection E as <-. by apply move_StopEnter.
  - injection E as <-. by apply move_StopClose.
  - injection E as <-. apply (move_StopNotify tls (notify st)); [by apply notify_inv|by apply notify_at].
  - destruct (unlocked st) eqn:Hu; [|done]. injection E as <-. apply move_StopMove; try done. by apply unlocked_inv.
  - pose proof (v_pc _ _ Hi _ _ Ht) as (_ & _ & [u ->] & _). cbn in E. destruct (exited st u) eqn:Hx; [|done].
    injection E as <-. by eapply move_StopJoinR.
  - pose proof (v_pc _ _ Hi _ _ Ht) as (_ & _ & [u ->]). cbn in E. destruct (exited st u) eqn:Hx; [|done].
    injection E as <-. by eapply move_StopJoinW.
  - injection E as <-. unfold stop_error. destruct (report_at requested_stop st) as (Hth & _ & He).
    apply (move_StopError tls (report requested_stop st)); [by apply report_inv|by rewrite Hth|done].
  - injection E as <-. by apply move_Members.
  - destruct (unlocked st); [|done]. injection E as <-. by apply move_ResetEnter.
  - injection E as <-. by apply move_ResetUnderlying.
  - destruct (unlocked st) eqn:Hu; [|done]. injection E as <-. apply move_TLock; try done. by apply unlocked_inv.
  - destruct (read_thread (conn st)) as [r|] eqn:Hr.
    + destruct (exited st r) eqn:Hx; [|done]. injection E as <-. apply move_TJoin; try done. naive_solver.
    + injection E as <-. pose proof (move_TJoin tls st t Hi Ht) as Hm.
      replace (conn st) with (set_handles None (write_thread (conn st)) (conn st)) at 1; [apply Hm; naive_solver|].
      rewrite <- Hr. by destruct (conn st).
  - injection E as <-. by apply move_TRestart.
  - injection E as <-. unfold read_handle. destruct (is_stls x).
    + apply (inv_delivered tls (at_pc t Exited (conn st) st)). eapply move_thread; try done. constructor.
    + apply (inv_delivered tls (at_pc t RRead (conn st) st)). eapply move_thread; try done. constructor.
  - injection E as <-. destruct (report_at read_failed st) as (Hth & _ & _).
    eapply (move_thread tls (report read_failed st)); [by apply report_inv|by rewrite Hth|constructor].
  - destruct (unlocked st); [|done]. injection E as <-. unfold write_top. destruct (stopped (conn st)).
    + eapply move_thread; try done. constructor.
    + destruct (write_queue (conn st)) as [|x rest] eqn:Eq; [eapply move_thread; try done; constructor|]. by apply move_write.
  - injection E as <-. destruct (report_at write_failed st) as (Hth & _ & _).
    eapply (move_thread tls (report write_failed st)); [by apply report_inv|by rewrite Hth|constructor].
Qed.

Lemma adapter_step_inv tls st t x st' :
  inv tls st → (tls = false → x ≠ Call ATls) → step is_stls t x st = Some st' → inv tls st'.
Proof.
  intros Hi Htls. unfold step. destruct (crash st) eqn:Ecr; [done|]. destruct (threads st !! t) as [p|] eqn:Ht; [|done].
  destruct (freed (conn st)) eqn:Hfr.
  { (* only idle and exited threads are left *)
    pose proof (v_calm _ _ Hi _ _ Ht Hfr) as Hc. destruct p; try done.
    - destruct x; try done. destruct (begin_call t c st) eqn:E; [|done]. intros [= <-]. eapply call_inv; try done. naive_solver.
    - by destruct x as [| |r|]. }
  destruct x as [c| |r|].
  - destruct p; try done. destruct (begin_call t c st) eqn:E; [|done]. intros [= <-]. eapply call_inv; try done. naive_solver.
  - destruct (go is_stls t p st) as [s|] eqn:E; [|done]. intros Hs. assert (s = st') as <- by (by destruct p; injection Hs).
    by eapply adapter_go_inv.
  - destruct p, r; try done; cbn [reply].
    + intros [= <-]. by apply move_THandshake.
    + intros [= <-]. by apply move_THandshake.
    + destruct (closed (conn st)); [done|]. intros [= <-]. eapply move_thread; try done. constructor.
    + intros [= <-]. eapply move_thread; try done. constructor.
    + intros [= <-]. eapply move_thread; try done. constructor.
    + intros [= <-]. eapply move_thread; try done. constructor.
  - destruct p; try done. intros [= <-]. eapply move_thread; try done. constructor.
Qed.

Lemma init_inv tls n : inv tls (init n).
Proof.
  assert (∀ t p, threads (@init P n) !! t = Some p → p = Idle) as Hidle.
  { intros t p. cbn. intros Hp%elem_of_list_to_map_2. apply list_elem_of_fmap in Hp as (? & [= -> ->] & _). done. }
  split; try done; cbn [init conn new_adapter phase next_tid].
  - intros t Ht. apply not_elem_of_list_to_map_1. rewrite <- list_fmap_compose. intros (x & -> & Hx)%list_elem_of_fmap.
    apply elem_of_seq in Hx. cbn in *. lia.
  - by intros t p ->%Hidle.
  - by intros t p ->%Hidle.
  - intros r [|(? & ? & [=])]; done.
  - intros r [|(? & ? & [=])]; done.
Qed.

Lemma blocking_reachable_inv tls n st : reachable is_stls tls n st → inv tls st.
Proof. induction 1 as [|st st' t x _ IH Hx Hs]; [apply init_inv|by eapply adapter_step_inv]. Qed.

(** ** The write thread hears of its work *)

Definition notifier p : bool := match p with WriteNotify | StopClose _ | StopNotify _ => true | _ => false end.
Definition work st : Prop := write_queue (conn st) ≠ [] ∨ stopped (conn st) = true.
Definition heard st : Prop :=
  ∀ t, threads st !! t = Some WSleep → work st → ∃ u q, threads st !! u = Some q ∧ notifier q = true.

Lemma heard_keep st st' t p p' :
  heard st → threads st !! t = Some p → threads st' = <[t := p']> (threads st) → (work st' → work st) →
  notifier p = false ∨ notifier p' = true → p' ≠ WSleep ∨ ¬ work st' → heard st'.
Proof.
  intros Hh Ht Hth Hw Hn Hs u. rewrite Hth, lookup_insert_Some. intros [[<- ->]|[Hne Hu]] Hwk; [by destruct Hs|].
  destruct (Hh u Hu (Hw Hwk)) as (v & q & Hv & Hq). destruct (decide (t = v)) as [->|].
  - exists v, p'. rewrite lookup_insert_eq. split; [done|]. destruct Hn; congruence.
  - exists v, q. by rewrite lookup_insert_ne.
Qed.

Lemma heard_notifier st t p' th :
  threads st = <[t := p']> th → notifier p' = true → heard st.
Proof. intros Hth Hp u _ _. exists t, p'. by rewrite Hth, lookup_insert_eq. Qed.

Lemma heard_awake st : (∀ t, threads st !! t ≠ Some WSleep) → heard st.
Proof. intros Hn t Ht. by apply Hn in Ht. Qed.

Lemma heard_fresh st st' u q :
  heard st → threads st !! u = None → threads st' = <[u := q]> (threads st) → q ≠ WSleep → (work st' → work st) → heard st'.
Proof.
  intros Hh Hu Hth Hq Hw t. rewrite Hth, lookup_insert_Some. intros [[<- ->]|[Hne Ht]] Hwk; [done|].
  destruct (Hh t Ht (Hw Hwk)) as (v & p & Hv & Hp). exists v, p. rewrite lookup_insert_ne; [done|congruence].
Qed.

Lemma report_conn c st :
  threads (report c st) = threads st ∧ write_queue (conn (report c st)) = write_queue (conn st) ∧
  stopped (conn (report c st)) = stopped (conn st) ∧ started (conn (report c st)) = started (conn st) ∧
  closed (conn (report c st)) = closed (conn st) ∧ freed (conn (report c st)) = freed (conn st).
Proof. unfold report. by destruct (error_flag (conn st)). Qed.

Lemma notify_heard st t p' a :
  threads st !! t ≠ Some WSleep → p' ≠ WSleep → heard (at_pc t p' a (notify st)).
Proof.
  intros Ht Hp. apply heard_awake. intros u. cbn. rewrite lookup_insert_Some, lookup_fmap. intros [[_ ?]|[_ Hu]]; [done|].
  destruct (threads st !! u) as [[]|]; done.
Qed.

Ltac keep Hh Ht := eapply heard_keep; [exact Hh|exact Ht|reflexivity| |auto|auto]; cbn; try done; auto.

Lemma report_heard c st t p p' (f : sys → sys) :
  heard st → threads st !! t = Some p → notifier p = false → p' ≠ WSleep → (∀ s, threads (f s) = threads s) →
  heard (at_pc t p' (conn (report c st)) (f (report c st))).
Proof.
  intros Hh Ht Hp Hp' Hf. destruct (report_conn c st) as (Hth & Hq & Hst & _).
  eapply (heard_keep st _ t _ p'); [done|done|cbn; by rewrite Hf, Hth| |by left|by left].
  unfold work. cbn. by rewrite Hq, Hst.
Qed.

Lemma call_heard tls st t c s :
  inv tls st → heard st → threads st !! t = Some Idle → begin_call t c st = Some s → heard s.
Proof.
  intros Hi Hh Ht Hx. assert (heard (crashed by_client st)) as Hcc by exact Hh.
  unfold begin_call in Hx. case_bool_decide; [by injection Hx as <-|]. destruct c.
  - destruct (unlocked st); [|done]. injection Hx as <-. unfold Start. destruct (_ || _); [done|].
    eapply (heard_fresh (mkSys (conn st) (<[next_tid st := RRead]> (threads st)) 0 None None [] [] [] [] Running));
      [|cbn|cbn; reflexivity|done|done].
    + eapply (heard_fresh st); [done|by apply (v_fresh _ _ Hi)|reflexivity|done|done].
    + rewrite lookup_insert_ne by lia. apply (v_fresh _ _ Hi). lia.
  - destruct (unlocked st); [|done]. injection Hx as <-. by eapply heard_notifier.
  - injection Hx as <-. keep Hh Ht.
  - injection Hx as <-. keep Hh Ht.
  - injection Hx as <-. keep Hh Ht.
  - destruct (quiescent st); injection Hx as <-; [|done]. keep Hh Ht.
Qed.

Lemma go_heard tls st t p s :
  inv tls st → heard st → threads st !! t = Some p → go is_stls t p st = Some s → heard s.
Proof.
  intros Hi Hh Ht Hx. assert (heard (crashed by_adapter st)) as Hca by exact Hh.
  destruct p as [| |d|d|d|d|d r w|d w|d| | | | | | | | |y| | | |y| |]; cbn [go] in Hx; try done.
  - injection Hx as <-. apply notify_heard; [by rewrite Ht|done].
  - destruct (unlocked st); [|done]. injection Hx as <-. unfold stop_enter. destruct (_ || _); [destruct d; keep Hh Ht|].
    by eapply heard_notifier.
  - injection Hx as <-. by eapply heard_notifier.
  - injection Hx as <-. apply notify_heard; [by rewrite Ht|done].
  - destruct (unlocked st); [|done]. injection Hx as <-. keep Hh Ht.
  - destruct r as [r|]; cbn in Hx; [destruct (exited st r); [|done]|]; injection Hx as <-; [keep Hh Ht|done].
  - destruct w as [w|]; cbn in Hx; [destruct (exited st w); [|done]|]; injection Hx as <-; [keep Hh Ht|done].
  - injection Hx as <-. unfold stop_error. apply (report_heard _ _ _ _ (after d) (set_phase Done) Hh Ht); by destruct d.
  - injection Hx as <-. unfold destroy_members. repeat case_match; try done. keep Hh Ht.
  - destruct (unlocked st); [|done]. injection Hx as <-. unfold reset_enter. destruct (_ || _); keep Hh Ht.
  - injection Hx as <-. keep Hh Ht.
  - destruct (unlocked st); [|done]. injection Hx as <-. keep Hh Ht.
  - destruct (read_thread (conn st)); [destruct (exited st n); [|done]|]; injection Hx as <-; keep Hh Ht.
  - injection Hx as <-. unfold tls_restart. destruct (read_thread (conn st)); [done|].
    assert (next_tid st ≠ t) by (intros E; rewrite (v_fresh _ _ Hi t) in Ht; [done|lia]).
    eapply (heard_keep (mkSys (conn st) (<[next_tid st := RRead]> (threads st)) 0 None None [] [] [] [] Running) _ t TRestart Idle);
      [|cbn; by rewrite lookup_insert_ne|reflexivity|done|by left|by left].
    eapply (heard_fresh st); [done|by apply (v_fresh _ _ Hi)|reflexivity|done|done].
  - injection Hx as <-. unfold read_handle. destruct (is_stls y); keep Hh Ht.
  - injection Hx as <-. by apply (report_heard _ _ _ _ _ id Hh Ht).
  - destruct (unlocked st); [|done]. injection Hx as <-. unfold write_top.
    destruct (stopped (conn st)) eqn:Est; [keep Hh Ht|]. destruct (write_queue (conn st)) eqn:Eq.
    + eapply heard_keep; [exact Hh|exact Ht|reflexivity|done|by left|]. right. unfold work. cbn. rewrite Eq, Est. naive_solver.
    + eapply heard_keep; [exact Hh|exact Ht|reflexivity| |by left|by left]. unfold work. rewrite Eq. naive_solver.
  - injection Hx as <-. by apply (report_heard _ _ _ _ _ id Hh Ht).
Qed.

Lemma step_heard tls st t x st' : inv tls st → heard st → step is_stls t x st = Some st' → heard st'.
Proof.
  intros Hi Hh. unfold step. destruct (crash st) eqn:Ecr; [done|]. destruct (threads st !! t) as [p|] eqn:Ht; [|done].
  assert (heard (crashed by_adapter st)) as Hca by exact Hh.
  destruct (match x with Call _ => _ | _ => _ end) as [s|] eqn:Hx; [|done]. intros Hs.
  assert (st' = s ∨ st' = crashed by_adapter st) as [-> | ->]; [|clear Hs|done].
  { destruct p; injection Hs as <-; destruct (freed (conn st)); auto. }
  destruct x as [c| |r|].
  - destruct p; try done. by eapply call_heard.
  - by eapply go_heard.
  - destruct p, r; try done; cbn [reply] in Hx; try (destruct (closed (conn st)); [done|]); injection Hx as <-; keep Hh Ht.
  - destruct p; try done. injection Hx as <-. keep Hh Ht.
Qed.

(** ** The end of Stop *)

(** How many steps a thread can still take once the connection is stopped and closed. *)
Definition rank p : Z :=
  match p with
  | Idle | Exited => 0
  | WriteNotify | Members | RError | WError | WTop => 1
  | StopError _ | RRead | WSleep => 2
  | StopJoinW _ _ | RHandle _ | WWrite _ | TRestart => 3
  | StopJoinR _ _ _ | THandshake => 4
  | StopMove _ | TJoin => 5
  | StopNotify _ | TLock => 6
  | StopClose _ => 7
  | StopEnter _ => 8
  | ResetUnderlying => 9
  | ResetEnter => 10
  end.
Definition total st : Z := msum rank (threads st).

Lemma total_nonneg st : 0 ≤ total st.
Proof. apply msum_nonneg. by intros []. Qed.

Lemma total_move st st' t p p' :
  threads st !! t = Some p → threads st' = <[t := p']> (threads st) → rank p' < rank p → total st' < total st.
Proof. intros Ht Hth Hr. unfold total. rewrite Hth, (msum_insert rank _ t p p' Ht). lia. Qed.

Lemma total_notify st t p p' a :
  threads st !! t = Some p → wake p = p → rank p' < rank p → total (at_pc t p' a (notify st)) < total st.
Proof.
  intros Ht Hw Hr. pose proof (total_move (notify st) (at_pc t p' a (notify st)) t p p') as Hm.
  specialize (Hm (notify_at _ _ _ Ht Hw) eq_refl Hr). assert (total (notify st) ≤ total st); [|lia].
  apply msum_fmap_le. by intros [].
Qed.

Definition no_call (x : @action P) : bool := match x with Call _ => false | _ => true end.

(** Stopped, with the underlying connection closed. *)
Definition winding_down st : Prop := stopped (conn st) = true ∧ closed (conn st) = true.

Ltac down Ht := split; [eapply (total_move _ _ _ _ _ Ht); [reflexivity|cbn; lia]|split; done].

Lemma step_down tls st t x st' :
  inv tls st → winding_down st → no_call x = true → step is_stls t x st = Some st' →
  crash st' = None → total st' < total st ∧ winding_down st'.
Proof.
  intros Hi [Hsp Hcl] Hx Hs Hcr. unfold step in Hs. destruct (crash st) eqn:Ecr; [done|].
  destruct (threads st !! t) as [p|] eqn:Ht; [|done]. unfold winding_down.
  assert (∀ r, (match r, p with
                | Some st', Idle => Some st'
                | Some st', _ => Some (if freed (conn st) then crashed by_adapter st else st')
                | None, _ => None
                end) = Some st' → r = Some st') as Hun.
  { intros [s|] Hr; [|by destruct p]. destruct p, (freed (conn st)); injection Hr as <-; done. }
  apply Hun in Hs as Hs'.
  clear Hs Hun. destruct x as [c| |r|]; [done|..].
  - destruct p as [| |d|d|d|d|d r w|d w|d| | | | | | | | |y| | | |y| |]; cbn [go] in Hs'; try done.
    + injection Hs' as <-. split; [by eapply total_notify|done].
    + destruct (unlocked st); [|done]. injection Hs' as <-. unfold stop_enter. rewrite Hsp, orb_true_r. destruct d; down Ht.
    + injection Hs' as <-. down Ht.
    + injection Hs' as <-. split; [by eapply total_notify|done].
    + destruct (unlocked st); [|done]. injection Hs' as <-. down Ht.
    + destruct r as [r|]; cbn in Hs'; [destruct (exited st r); [|done]|]; injection Hs' as <-; [down Ht|done].
    + destruct w as [w|]; cbn in Hs'; [destruct (exited st w); [|done]|]; injection Hs' as <-; [down Ht|done].
    + injection Hs' as <-. destruct (report_conn requested_stop st) as (Hth & _ & Hst & _ & Hc & _). unfold stop_error. cbn.
      rewrite Hst, Hc. split; [|done]. eapply (total_move _ _ _ _ (after d) Ht); [cbn; by rewrite Hth|destruct d; cbn; lia].
    + injection Hs' as <-. unfold destroy_members in *.
      destruct (read_thread (conn st)); [done|]. destruct (write_thread (conn st)); [done|]. down Ht.
    + destruct (unlocked st); [|done]. injection Hs' as <-. unfold reset_enter. rewrite Hsp, orb_true_r. down Ht.
    + injection Hs' as <-. down Ht.
    + destruct (unlocked st); [|done]. injection Hs' as <-. down Ht.
    + destruct (read_thread (conn st)); [destruct (exited st n); [|done]|]; injection Hs' as <-; down Ht.
    + injection Hs' as <-. unfold tls_restart in *. destruct (read_thread (conn st)); [done|]. split; [|done].
      assert (next_tid st ≠ t) by (intros E; rewrite (v_fresh _ _ Hi t) in Ht; [done|lia]).
      unfold total. cbn. rewrite (msum_insert rank _ t TRestart) by (by rewrite lookup_insert_ne).
      rewrite msum_fresh by (by apply (v_fresh _ _ Hi)). cbn. lia.
    + injection Hs' as <-. unfold read_handle. destruct (is_stls y); down Ht.
    + injection Hs' as <-. destruct (report_conn read_failed st) as (Hth & _ & Hst & _ & Hc & _). cbn.
      rewrite Hst, Hc. split; [|done]. eapply (total_move _ _ _ _ Exited Ht); [cbn; by rewrite Hth|cbn; lia].
    + destruct (unlocked st); [|done]. injection Hs' as <-. unfold write_top. rewrite Hsp. down Ht.
    + injection Hs' as <-. destruct (report_conn write_failed st) as (Hth & _ & Hst & _ & Hc & _). cbn.
      rewrite Hst, Hc. split; [|done]. eapply (total_move _ _ _ _ Exited Ht); [cbn; by rewrite Hth|cbn; lia].
  - destruct p, r; try done; cbn [reply] in Hs'; rewrite ?Hcl in Hs'; try done; injection Hs' as <-; down Ht.
  - destruct p; try done. injection Hs' as <-. down Ht.
Qed.

(** Some thread can go on without a call of a client or a spurious wake-up. *)
Definition enabled st : Prop :=
  ∃ t x st', no_call x = true ∧ x ≠ Wake ∧ step is_stls t x st = Some st'.

Lemma go_enabled st t p s :
  crash st = None → threads st !! t = Some p → go is_stls t p st = Some s → enabled st.
Proof.
  intros Hc Ht Hg. exists t, Go. unfold step. rewrite Hc, Ht, Hg. destruct p; eexists; split_and!; done.
Qed.
Lemma reply_enabled st t p r s :
  crash st = None → threads st !! t = Some p → reply t p r st = Some s → enabled st.
Proof.
  intros Hc Ht Hg. exists t, (Reply r). unfold step. rewrite Hc, Ht, Hg. destruct p; eexists; split_and!; done.
Qed.

Lemma reader_enabled st t p : crash st = None → threads st !! t = Some p → rkind p = true → enabled st.
Proof.
  intros Hc Ht Hp. destruct p; try done; [by eapply (reply_enabled _ _ _ Failure)|by eapply go_enabled..].
Qed.

(** A mutex that is taken is released again. *)
Lemma lock_enabled tls st u : inv tls st → crash st = None → lock (conn st) = Some u → enabled st.
Proof.
  intros Hi Hc Hl. destruct (v_lock _ _ Hi _ Hl) as (p & Hp & Ho). destruct p; try done.
  - destruct (read_thread (conn st)) as [r|] eqn:Er.
    + destruct (v_reader _ _ Hi r) as (q & Hq & [Hk|E]); [by left|by eapply reader_enabled|]. subst q.
      eapply (go_enabled _ _ _ _ Hc Hp). cbn. rewrite Er. unfold exited. by rewrite Hq.
    + eapply (go_enabled _ _ _ _ Hc Hp). cbn. by rewrite Er.
  - by eapply (reply_enabled _ _ _ Failure).
  - by eapply go_enabled.
Qed.

Lemma locked_enabled tls st t p s :
  inv tls st → crash st = None → threads st !! t = Some p →
  go is_stls t p st = (if unlocked st then Some s else None) → enabled st.
Proof.
  intros Hi Hc Ht Hg. unfold unlocked in Hg. destruct (lock (conn st)) eqn:El; [by eapply lock_enabled|by eapply go_enabled].
Qed.

Lemma writer_enabled tls st t p :
  inv tls st → heard st → winding_down st → crash st = None → threads st !! t = Some p → wkind p = true → enabled st.
Proof.
  intros Hi Hh [Hsp Hcl] Hc Ht Hp. destruct p; try done.
  - by eapply locked_enabled.
  - destruct (Hh _ Ht) as (u & q & Hu & Hq); [by right|]. destruct q; try done; by eapply go_enabled.
  - by eapply (reply_enabled _ _ _ Failure).
  - by eapply go_enabled.
Qed.

Lemma progress tls st t p :
  inv tls st → heard st → winding_down st → crash st = None → threads st !! t = Some p → calm p = false → enabled st.
Proof.
  intros Hi Hh Hw Hc Ht Hp. pose proof (v_pc _ _ Hi _ _ Ht) as Hpc.
  destruct p as [| |d|d|d|d|d r w|d w|d| | | | | | | | |y| | | |y| |]; try done;
    try (by eapply go_enabled); try (by eapply locked_enabled); try (by eapply reader_enabled); try (by eapply writer_enabled).
  - destruct Hpc as (_ & Hph & [r' ->] & _). destruct (v_reader _ _ Hi r') as (q & Hq & [Hk|E]); [by right; eauto|by eapply reader_enabled|].
    subst q. eapply (go_enabled _ _ _ _ Hc Ht). cbn. unfold exited. by rewrite Hq.
  - destruct Hpc as (_ & Hph & [w' ->]). destruct (v_writer _ _ Hi w') as (q & Hq & [Hk|E]); [by right; eauto|by eapply writer_enabled|].
    subst q. eapply (go_enabled _ _ _ _ Hc Ht). cbn. unfold exited. by rewrite Hq.
  - destruct (read_thread (conn st)) eqn:Er; [|by eapply (go_enabled _ _ _ _ Hc Ht); cbn; rewrite Er].
    eapply lock_enabled; [done|done|apply Hpc].
  - by eapply (reply_enabled _ _ _ Failure).
Qed.

Lemma report_again c st : error_flag (conn st) = true → report c st = st.
Proof. intros He. unfold report. by rewrite He. Qed.

(** What a finished [Stop] leaves behind. *)
Definition same_end st st' : Prop := phase st' = Done ∧ handed st' = handed st ∧ reported st' = reported st.

Lemma done_step tls st t x st' :
  inv tls st → phase st = Done → step is_stls t x st = Some st' → same_end st st'.
Proof.
  intros Hi Hd Hs. unfold step in Hs. destruct (crash st); [done|]. destruct (threads st !! t) as [p|] eqn:Ht; [|done].
  pose proof (v_done _ _ Hi Hd) as He. pose proof (v_pc _ _ Hi _ _ Ht) as Hp.
  assert (stopped (conn st) = true) as Hsp.
  { destruct (stopped (conn st)) eqn:E; [done|]. apply (v_running _ _ Hi) in E. congruence. }
  assert (write_thread (conn st) = None) as Hw by (apply (v_moved _ _ Hi); by rewrite Hd).
  assert (same_end st (crashed by_adapter st) ∧ same_end st (crashed by_client st)) as [Hca Hcc] by (by split; split).
  assert (∀ r, (∀ s, r = Some s → same_end st s) → (match r, p with
                | Some st', Idle => Some st'
                | Some st', _ => Some (if freed (conn st) then crashed by_adapter st else st')
                | None, _ => None
                end) = Some st' → same_end st st') as Hun.
  { intros [s|] Hr E; [|by destruct p]. specialize (Hr s eq_refl). destruct p, (freed (conn st)); by injection E as <-. }
  apply Hun in Hs; [done|]. clear Hs Hun. intros s. destruct x as [c| |r|].
  - destruct p; try done. unfold begin_call. case_bool_decide; [by intros [= <-]|]. unfold Start, Write.
    destruct c; repeat case_match; intros [= <-]; done.
  - destruct p as [| |d|d|d|d|d r w|d w|d| | | | | | | | |y| | | |y| |]; cbn [go]; cbn in Hp; destruct_ors; try congruence; try done.
    + by intros [= <-].
    + destruct (unlocked st); [|done]. unfold stop_enter. rewrite Hsp, orb_true_r. by intros [= <-].
    + unfold destroy_members. repeat case_match; by intros [= <-].
    + destruct (unlocked st); [|done]. by intros [= <-].
    + by intros [= <-].
    + destruct (unlocked st); [|done]. by intros [= <-].
    + repeat case_match; try done; by intros [= <-].
    + unfold tls_restart. repeat case_match; by intros [= <-].
    + by intros [= <-].
    + rewrite report_again by done. by intros [= <-].
  - destruct p, r; try done; cbn [reply]; cbn in Hp; destruct_ors; try congruence; try (case_match; [done|]); by intros [= <-].
  - destruct p; try done. cbn in Hp. destruct_ors; congruence.
Qed.

(** ** What the adapter promises *)

Lemma trace_inv tls n tr st st' :
  reachable is_stls tls n st → (tls = false → ∀ t, (t, Call ATls) ∉ tr) → run_trace is_stls tr st = Some st' →
  reachable is_stls tls n st'.
Proof.
  revert st. induction tr as [|[t x] tr IH]; intros st Hr Hno; cbn [run_trace]; [by intros [= <-]|].
  destruct (step is_stls t x st) as [st1|] eqn:Es; [|done]. cbn. apply IH.
  - eapply reach_step; [done| |done]. intros E ->. apply (Hno E t). by left.
  - intros E u Hu. apply (Hno E u). by right.
Qed.

Lemma reachable_heard tls n st : reachable is_stls tls n st → heard st.
Proof.
  induction 1 as [|st st' t x Hr IH Hx Hs].
  - intros t Ht. cbn in Ht. apply elem_of_list_to_map_2, list_elem_of_fmap in Ht as (? & [=] & _).
  - eapply step_heard; [by eapply blocking_reachable_inv|done|done].
Qed.

Lemma trace_down tls n tr st st' :
  reachable is_stls tls n st → winding_down st → (∀ t x, (t, x) ∈ tr → no_call x = true) →
  run_trace is_stls tr st = Some st' → crash st' = None →
  total st' + llen tr ≤ total st ∧ winding_down st'.
Proof.
  revert st. induction tr as [|[t x] tr IH]; intros st Hr Hw Hno; cbn [run_trace].
  { intros [= <-] _. rewrite llen_nil. split; [lia|done]. }
  destruct (step is_stls t x st) as [st1|] eqn:Es; [|done]. cbn. intros Hrun Hcr.
  assert (crash st1 = None) as Hc1.
  { destruct tr as [|[u y] tr]; cbn [run_trace] in Hrun; [by injection Hrun as ->|]. unfold step in Hrun.
    destruct (crash st1); done. }
  assert (no_call x = true) as Hx by (apply (Hno t); by left).
  destruct (step_down tls st t x st1) as [Hlt Hw1]; try done; [by eapply blocking_reachable_inv|].
  destruct (IH st1) as [Hle Hw']; try done.
  - eapply reach_step; [done| |done]. intros _ ->. done.
  - intros u y Hy. apply (Hno u). by right.
  - split; [|done]. rewrite llen_cons. lia.
Qed.

(** C10. Stop always comes to an end: once the connection is marked as stopped and the underlying
    connection is closed, the threads can take only a bounded number of steps ([total]), however
    they interleave, unless clients make further calls; and they come to rest only
    when every call has returned, both threads have ended and the error has been
    reported.  In particular no wake-up of the write thread is lost, and the mutex that a TLS
    handshake holds while it waits for the read thread cannot block them. *)
Theorem stop_completes tls n st tr st' :
  reachable is_stls tls n st → winding_down st →
  (∀ t x, (t, x) ∈ tr → no_call x = true) → run_trace is_stls tr st = Some st' → crash st' = None →
  llen tr ≤ total st ∧
  (enabled st' ∨ ((∀ t p, threads st' !! t = Some p → calm p = true) ∧ phase st' = Done ∧ length (reported st') = 1%nat)).
Proof.
  intros Hr Hw Hno Hrun Hcr. destruct (trace_down _ _ _ _ _ Hr Hw Hno Hrun Hcr) as [Hle Hw'].
  pose proof (total_nonneg st'). split; [lia|].
  assert (reachable is_stls tls n st') as Hr' by (eapply trace_inv; [done| |done]; intros _ u Hu; by apply Hno in Hu).
  pose proof (blocking_reachable_inv _ _ _ Hr') as Hi. pose proof (reachable_heard _ _ _ Hr') as Hh.
  destruct (decide (map_Forall (λ _ p, calm p = true) (threads st'))) as [Hall|Hnot].
  - right. split; [exact Hall|]. assert (phase st' = Done) as Hd.
    { destruct (phase st') eqn:E; try done; exfalso.
      - apply (v_running _ _ Hi) in E. destruct Hw'. congruence.
      - destruct (v_stopper _ _ Hi s) as (p & Hp & Hm); [by rewrite E|]. apply Hall in Hp. by destruct p.
      - destruct (v_stopper _ _ Hi s) as (p & Hp & Hm); [by rewrite E|]. apply Hall in Hp. by destruct p.
      - destruct (v_stopper _ _ Hi s) as (p & Hp & Hm); [by rewrite E|]. apply Hall in Hp. by destruct p. }
    split; [done|]. by rewrite (v_error _ _ Hi), (v_done _ _ Hi Hd).
  - left. apply map_not_Forall in Hnot as (t & p & Hp & Hc); [|apply _]. eapply progress; try done. by destruct (calm p).
Qed.

(** C11. Packets go out in order, and a stopped connection is final: the packets given to the
    underlying connection, followed by the queue, are those passed to Write; once Stop is
    done, exactly one error has been reported to the transport, and in any continuation
    neither another packet is written nor another error reported. *)
Theorem stopped_is_final tls n st tr st' :
  reachable is_stls tls n st → (tls = false → ∀ t, (t, Call ATls) ∉ tr) → run_trace is_stls tr st = Some st' →
  submitted st' = handed st' ++ write_queue (conn st') ∧ (length (reported st') ≤ 1)%nat ∧
  (phase st = Done → length (reported st) = 1%nat ∧ handed st' = handed st ∧ reported st' = reported st).
Proof.
  intros Hr Hno Hrun. assert (inv tls st' ∧ (phase st = Done → same_end st st')) as [Hi Hend].
  { apply blocking_reachable_inv in Hr as Hi. clear Hr. revert st Hi Hrun.
    induction tr as [|[t x] tr IH]; intros st Hi; cbn [run_trace]; [intros [= <-]; split; [done|by split]|].
    destruct (step is_stls t x st) as [st1|] eqn:Es; [|done]. cbn. intros Hrun.
    assert (inv tls st1) as Hi1. { eapply adapter_step_inv; try done. intros E ->. apply (Hno E t). by left. }
    destruct (IH ltac:(intros E u Hu; apply (Hno E u); by right) st1 Hi1 Hrun) as [Hi' Hend']. split; [done|].
    intros Hd. destruct (done_step _ _ _ _ _ Hi Hd Es) as (H1 & H2 & H3). destruct (Hend' H1) as (E1 & E2 & E3).
    split_and!; congruence. }
  apply blocking_reachable_inv in Hr. split; [apply Hi|]. split.
  - rewrite (v_error _ _ Hi). destruct (error_flag _); lia.
  - intros Hd. rewrite (v_error _ _ Hr), (v_done _ _ Hr Hd). split; [done|]. by apply Hend.
Qed.

(** C12. An adapter is destroyed safely: as long as no TLS handshake is made, whatever the clients
    do otherwise, the adapter never joins a thread that is not there, never destroys or overwrites the
    handle of a running thread and is never used after it was freed; a client that
    starts it twice or uses it while destroying it is to blame for every crash. *)
Theorem destruction_safe n st : reachable is_stls false n st → crash st ≠ Some by_adapter.
Proof. intros Hi%blocking_reachable_inv. by apply Hi. Qed.

End proofs.

(** ** Runs *)

(** Packets are numbers, and 0 is an A_STLS packet. *)
Definition zero_stls (n : nat) : bool := bool_decide (n = 0%nat).
Definition run_demo (n : nat) (tr : list (nat * @action nat)) : @sys nat :=
  default (init n) (run_trace zero_stls tr (init n)).

Lemma run_demo_reachable tls n tr :
  (tls = false → ∀ t, (t, Call ATls) ∉ tr) → reachable zero_stls tls n (run_demo n tr).
Proof.
  unfold run_demo. destruct (run_trace zero_stls tr (init n)) as [st|] eqn:E; [|intros; apply reach_init].
  intros Hno. by eapply trace_inv; [apply reach_init|done|done].
Qed.

(** Of the client threads 0 and 1, the first starts a connection, with the threads 2 and 3, and
    writes a packet, which thread 3 takes; then it stops the connection, up to the point where
    the underlying connection is closed. *)
Definition start_write : list (nat * @action nat) :=
  [(0%nat, Call AStart); (0%nat, Call (AWrite 5%nat)); (0%nat, Go); (3%nat, Go)].
Definition stop_begun : list (nat * @action nat) :=
  start_write ++ [(0%nat, Call AStop); (0%nat, Go); (0%nat, Go)].
(** The rest of Stop, with the threads that end. *)
Definition stop_rest : list (nat * @action nat) :=
  [(3%nat, Reply Success); (0%nat, Go); (0%nat, Go); (2%nat, Reply Failure); (2%nat, Go); (3%nat, Go); (0%nat, Go);
   (0%nat, Go); (0%nat, Go)].

(** A handshake that gets the mutex after Stop, and then the destructor. *)
Definition late_handshake : list (nat * @action nat) :=
  [(1%nat, Call ATls); (1%nat, Go); (1%nat, Go); (1%nat, Reply Failure); (1%nat, Go); (0%nat, Call ADestroy);
   (0%nat, Go); (0%nat, Go)].

Lemma stop_completes_witness :
  llen stop_rest ≤ total (run_demo 2 stop_begun) ∧
  (enabled zero_stls (run_demo 2 (stop_begun ++ stop_rest)) ∨
   ((∀ t p, threads (run_demo 2 (stop_begun ++ stop_rest)) !! t = Some p → calm p = true) ∧
    phase (run_demo 2 (stop_begun ++ stop_rest)) = Done ∧
    length (reported (run_demo 2 (stop_begun ++ stop_rest))) = 1%nat)).
Proof.
  apply (stop_completes zero_stls true 2).
  - by apply run_demo_reachable.
  - by vm_compute.
  - intros t x Hx. unfold stop_rest in Hx. rewrite !elem_of_cons, elem_of_nil in Hx. naive_solver.
  - by vm_compute.
  - by vm_compute.
Defined.

Lemma stopped_is_final_witness :
  let st := run_demo 2 (stop_begun ++ stop_rest) in
  let st' := default st (run_trace zero_stls [(1%nat, Call (AWrite 7%nat)); (1%nat, Go)] st) in
  submitted st' = handed st' ++ write_queue (conn st') ∧ (length (reported st') ≤ 1)%nat ∧
  (phase st = Done → length (reported st) = 1%nat ∧ handed st' = handed st ∧ reported st' = reported st).
Proof.
  intros st st'. apply (stopped_is_final zero_stls true 2 st [(1%nat, Call (AWrite 7%nat)); (1%nat, Go)] st').
  - by apply run_demo_reachable.
  - done.
  - by vm_compute.
Defined.

Lemma destruction_safe_witness : crash (run_demo 2 (stop_begun ++ stop_rest ++ [(0%nat, Call ADestroy); (0%nat, Go); (0%nat, Go)])) ≠ Some by_adapter.
Proof.
  apply (destruction_safe zero_stls 2), run_demo_reachable. intros _ t Ht.
  unfold stop_begun, start_write, stop_rest in Ht. cbn [app] in Ht. rewrite !elem_of_cons, elem_of_nil in Ht. naive_solver.
Defined.

(** A TLS handshake that gets the mutex after the connection was stopped ends the process:
    DoTlsHandshake does not look at stopped_ and starts a read thread, and since Stop was done before,
    nobody joins that thread: when the adapter is destroyed, with no call in
    progress, Stop returns at once and the member read_thread_ is destroyed while joinable. *)
Theorem handshake_after_stop_aborts :
  ∃ st st', run_trace zero_stls (stop_begun ++ stop_rest) (init 2) = Some st ∧ phase st = Done ∧
    run_trace zero_stls late_handshake st = Some st' ∧ crash st' = Some by_adapter.
Proof. eexists _, _. split_and!; vm_compute; reflexivity. Qed.
