(* ===== verification/Strings.v ===== *)
(** * Text utilities

    Models system/libbase/strings.cpp with its header, the integer parsers of
    android-base/parseint.h, parsenetaddress.cpp, and the text helpers of
    adb/adb_utils.cpp and adb/adb_utils.h.

    A [std::string] is the list of its bytes; positions are [nat], with [None] for
    [npos].  The C library functions the code calls on text ([isspace], [strtoull],
    [strtoll], [sscanf("%d")], [strncasecmp]) are modelled in the "C" locale. *)

From S2P Require Import Prelude.

(** ** Characters *)

Definition isspace (b : byte) : bool :=
  let c := bval b in (c =? 32) || ((9 <=? c) && (c <=? 13)).
Definition isdigit (b : byte) : bool := (48 <=? bval b) && (bval b <=? 57).
Definition tolower (b : byte) : byte :=
  if (65 <=? bval b) && (bval b <=? 90) then zbyte (bval b + 32) else b.

(** The value of a digit in base 10 or 16. *)
Definition digit_val (base : Z) (b : byte) : option Z :=
  let c := bval b in
  let v := if isdigit b then c - 48
           else if (97 <=? c) && (c <=? 102) then c - 87
           else if (65 <=? c) && (c <=? 70) then c - 55 else 99 in
  if v <? base then Some v else None.

(** [s.c_str()] as its reader sees it: up to the first NUL. *)
Fixpoint c_str (s : bytes) : bytes :=
  match s with
  | [] => []
  | b :: s => if bool_decide (b = x00) then [] else b :: c_str s
  end.

(** ** Searching ([std::string] and [std::string_view] members) *)

Definition find_first_of (s ds : bytes) (base : nat) : option nat :=
  (λ p, (base + p.1)%nat) <$> list_find (λ b, b ∈ ds) (drop base s).
Definition find_first_not_of (s ds : bytes) (base : nat) : option nat :=
  (λ p, (base + p.1)%nat) <$> list_find (λ b, b ∉ ds) (drop base s).

(** [s.substr(base, end - base)], with [end = npos] for the rest of the string. *)
Definition substr_to (s : bytes) (base : nat) (fin : option nat) : bytes :=
  match fin with
  | Some e => take (e - base) (drop base s)
  | None => drop base s
  end.

Definition starts_with (s prefix : bytes) : bool :=
  bool_decide (take (length prefix) s = prefix).

(** The first, and the last, position at or after [base] where [pat] occurs. *)
Fixpoint find_from (fuel : nat) (s pat : bytes) (base : nat) : option nat :=
  match fuel with
  | O => None
  | S fuel =>
      if bool_decide (length s < base + length pat)%nat then None
      else if starts_with (drop base s) pat then Some base
      else find_from fuel s pat (S base)
  end.
Definition find (s pat : bytes) (base : nat) : option nat :=
  find_from (S (length s)) s pat base.
Fixpoint rfind_upto (s pat : bytes) (n : nat) : option nat :=
  if starts_with (drop n s) pat && bool_decide (n + length pat ≤ length s)%nat then Some n else
  match n with O => None | S n => rfind_upto s pat n end.
Definition rfind (s pat : bytes) : option nat := rfind_upto s pat (length s).

(** ** android-base/strings *)

Fixpoint split_loop (fuel : nat) (s ds : bytes) (base : nat) : list bytes :=
  match fuel with
  | O => []
  | S fuel =>
      let found := find_first_of s ds base in
      substr_to s base found ::
      match found with None => [] | Some f => split_loop fuel s ds (S f) end
  end.

(** [Split]; an empty delimiter list aborts. *)
Definition Split (s ds : bytes) : res (list bytes) :=
  check (negb (bool_decide (length ds = 0%nat))) ;;
  Ok (split_loop (S (length s)) s ds 0).

Fixpoint tokenize_loop (fuel : nat) (s ds : bytes) (fin : option nat) : list bytes :=
  match fuel with
  | O => []
  | S fuel =>
      match fin with
      | None => []
      | Some e =>
          match find_first_not_of s ds e with
          | None => []
          | Some base =>
              let e' := find_first_of s ds base in
              substr_to s base e' :: tokenize_loop fuel s ds e'
          end
      end
  end.
Definition Tokenize (s ds : bytes) : res (list bytes) :=
  check (negb (bool_decide (length ds = 0%nat))) ;;
  Ok (tokenize_loop (S (length s)) s ds (Some 0%nat)).

Fixpoint drop_while_space (s : bytes) : bytes :=
  match s with
  | [] => []
  | b :: s' => if isspace b then drop_while_space s' else s
  end.
Definition Trim (s : bytes) : bytes :=
  reverse (drop_while_space (reverse (drop_while_space s))).

Definition Join (things : list bytes) (separator : bytes) : bytes :=
  match things with
  | [] => []
  | t :: ts => t ++ concat ((λ x, separator ++ x) <$> ts)
  end.

Definition StartsWith (s prefix : bytes) : bool := bool_decide (take (length prefix) s = prefix).
Definition EndsWith (s suffix : bytes) : bool :=
  bool_decide (length suffix ≤ length s)%nat &&
  bool_decide (take (length suffix) (drop (length s - length suffix) s) = suffix).

(** [strncasecmp(a, b, n) == 0] for buffers of at least [n] bytes: comparison stops
    at a NUL that both have. *)
Fixpoint strncaseeq (a b : bytes) : bool :=
  match a, b with
  | x :: a, y :: b =>
      bool_decide (tolower x = tolower y) && (bool_decide (x = x00) || strncaseeq a b)
  | _, _ => true
  end.
Definition StartsWithIgnoreCase (s prefix : bytes) : bool :=
  bool_decide (length prefix ≤ length s)%nat && strncaseeq (take (length prefix) s) prefix.
Definition EndsWithIgnoreCase (s suffix : bytes) : bool :=
  bool_decide (length suffix ≤ length s)%nat &&
  strncaseeq (drop (length s - length suffix) s) suffix.
Definition EqualsIgnoreCase (lhs rhs : bytes) : bool :=
  bool_decide (length lhs = length rhs) && strncaseeq lhs rhs.

(** The remaining string when the prefix (suffix) was present. *)
Definition ConsumePrefix (s prefix : bytes) : option bytes :=
  if StartsWith s prefix then Some (drop (length prefix) s) else None.
Definition ConsumeSuffix (s suffix : bytes) : option bytes :=
  if EndsWith s suffix then Some (take (length s - length suffix) s) else None.

Fixpoint replace_loop (fuel : nat) (s from to : bytes) (all : bool) (start_pos : nat) : bytes :=
  match fuel with
  | O => drop start_pos s
  | S fuel =>
      match find s from start_pos with
      | None => drop start_pos s
      | Some pos =>
          take (pos - start_pos) (drop start_pos s) ++ to ++
          (if all then replace_loop fuel s from to all (pos + length from)
           else drop (pos + length from) s)
      end
  end.
Definition StringReplace (s from to : bytes) (all : bool) : bytes :=
  match from with [] => s | _ => replace_loop (S (length s)) s from to all 0 end.

(** ** android-base/parseint.h *)

(** Digits from the front: their value on top of [acc], and the rest. *)
Fixpoint scan_digits (base acc : Z) (s : bytes) : Z * bytes :=
  match s with
  | [] => (acc, [])
  | b :: s' =>
      match digit_val base b with
      | Some v => scan_digits base (acc * base + v) s'
      | None => (acc, s)
      end
  end.

(** [strtoull]/[strtoll] on text that does not start with white space: sign, value and
    rest; [None] when there is no digit ([end == s]). *)
Definition strto (base : Z) (s : bytes) : option (bool * Z * bytes) :=
  let '(neg, s1) := match s with
                    | x2d :: s' => (true, s')
                    | x2b :: s' => (false, s')
                    | _ => (false, s)
                    end in
  let s2 := match s1 with
            | x30 :: x :: d :: s' =>
                if (base =? 16) && (bool_decide (x = x78) || bool_decide (x = x58)) &&
                   bool_decide (is_Some (digit_val 16 d))
                then d :: s' else s1
            | _ => s1
            end in
  match s2 with
  | d :: _ => match digit_val base d with
              | Some _ => let '(v, rest) := scan_digits base 0 s2 in Some (neg, v, rest)
              | None => None
              end
  | [] => None
  end.

Definition parse_base (s : bytes) : Z :=
  match s with
  | x30 :: x78 :: _ => 16
  | x30 :: x58 :: _ => 16
  | _ => 10
  end.

Inductive errno := EINVAL | ERANGE.

Definition suffixes : bytes := txt "bkmgtpe".

(** [ParseUint(s, &out, max, allow_suffixes)]. *)
Definition ParseUint (s0 : bytes) (max : Z) (allow_suffixes : bool) : errno + Z :=
  let s := drop_while_space (c_str s0) in
  match s with
  | x2d :: _ => inl EINVAL
  | _ =>
      match strto (parse_base s) s with
      | None => inl EINVAL
      | Some (_, v, rest) =>
          if 2 ^ 64 - 1 <? v then inl ERANGE else
          match rest with
          | [] => if max <? v then inl ERANGE else inr v
          | e :: _ =>
              if negb allow_suffixes then inl EINVAL else
              match list_find (λ b, b = tolower e) suffixes with
              | None => inl EINVAL
              | Some (k, _) =>
                  let v' := v * 2 ^ (10 * Z.of_nat k) in
                  if 2 ^ 64 - 1 <? v' then inl EINVAL
                  else if max <? v' then inl ERANGE else inr v'
              end
          end
      end
  end.

Definition ParseByteCount (s : bytes) (max : Z) : errno + Z := ParseUint s max true.

(** [ParseInt(s, &out, min, max)]. *)
Definition ParseInt (s0 : bytes) (min max : Z) : errno + Z :=
  let s := drop_while_space (c_str s0) in
  match strto (parse_base s) s with
  | None => inl EINVAL
  | Some (neg, v, rest) =>
      let r := if neg : bool then - v else v in
      if (r <? - 2 ^ 63) || (2 ^ 63 - 1 <? r) then inl ERANGE else
      match rest with
      | _ :: _ => inl EINVAL
      | [] => if (r <? min) || (max <? r) then inl ERANGE else inr r
      end
  end.

(** ** Numbers in text *)

(** ["%d"] and [std::to_string] of a nonnegative number (at most 40 digits). *)
Fixpoint dec_loop (fuel : nat) (n : Z) (acc : bytes) : bytes :=
  match fuel with
  | O => acc
  | S fuel =>
      let acc' := zbyte (48 + n mod 10) :: acc in
      if n / 10 =? 0 then acc' else dec_loop fuel (n / 10) acc'
  end.
Definition dec (n : Z) : bytes :=
  if n <? 0 then x2d :: dec_loop 40 (- n) [] else dec_loop 40 n [].

(** [sscanf(s, "%d", &port)]: the value stored, when one is. *)
Definition sscanf_d (s0 : bytes) : option Z :=
  match strto 10 (drop_while_space (c_str s0)) with
  | Some (neg, v, _) =>
      let r := if neg : bool then - v else v in
      Some (s32 (Z.max (- 2 ^ 63) (Z.min (2 ^ 63 - 1) r)))
  | None => None
  end.

(** ** parsenetaddress.cpp *)

Record NetAddress := mkNet { host : bytes; port : Z; canonical_address : bytes }.

Definition count (c : byte) (s : bytes) : nat := length (filter (λ b, b = c) s).

Definition sq (s : bytes) : bytes := txt "'" ++ c_str s ++ txt "'".

(** [inl] is the error text; [port0] is the caller's default port. *)
Definition ParseNetAddress (address : bytes) (port0 : Z) : bytes + NetAddress :=
  let colons := count x3a address in
  let dots := count x2e address in
  (* the host, the port text when one was seen, and whether it is an IPv6 address *)
  let parsed : bytes + bytes * option bytes * bool :=
    match address with
    | x5b :: _ =>
        match rfind address (txt "]:"), find address (txt "]:") 0 with
        | Some r, Some f =>
            inr (take (f - 1) (drop 1 address), Some (drop (r + 2) address), true)
        | _, _ => inl (txt "bad IPv6 address " ++ sq address)
        end
    | _ =>
        if (dots =? 0)%nat && (2 <=? colons)%nat && (colons <=? 7)%nat then
          inr (address, None, true)
        else if (colons <=? 1)%nat then
          match split_loop (S (length address)) address (txt ":") 0 with
          | h :: p :: _ => inr (h, Some p, false)
          | h :: [] => inr (h, None, false)
          | [] => inr ([], None, false)
          end
        else inr ([], None, true)
    end in
  match parsed with
  | inl error => inl error
  | inr (host, port_str, ipv6) =>
      if bool_decide (host = []) then inl (txt "no host in " ++ sq address) else
      let port :=
        match port_str with
        | None => Some port0
        | Some ps =>
            match sscanf_d ps with
            | Some p => if (p <=? 0) || (65535 <? p) then None else Some p
            | None => None
            end
        end in
      match port with
      | None =>
          inl (txt "bad port number " ++ sq (default [] port_str) ++ txt " in " ++ sq address)
      | Some p =>
          inr (mkNet host p
                 (if ipv6 : bool then txt "[" ++ c_str host ++ txt "]:" ++ dec p
                  else c_str host ++ txt ":" ++ dec p))
      end
  end.

(** ** adb_utils *)

Fixpoint escape_loop (fuel : nat) (s : bytes) (base : nat) : bytes :=
  match fuel with
  | O => []
  | S fuel =>
      let found := find_first_of s [x27] base in
      substr_to s base found ++
      match found with
      | None => []
      | Some f => [x27; x5c; x27; x27] ++ escape_loop fuel s (S f)
      end
  end.
Definition escape_arg (s : bytes) : bytes := [x27] ++ escape_loop (S (length s)) s 0 ++ [x27].

Fixpoint count_leading_nuls (s : bytes) : nat :=
  match s with x00 :: s => S (count_leading_nuls s) | _ => 0%nat end.
Definition StripTrailingNulls (s : bytes) : bytes :=
  take (length s - count_leading_nuls (reverse s)) s.

(** adb_utils.h [ParseUint] over [std::from_chars]: the value and the rest. *)
Definition ParseUint_sv (max : Z) (s : bytes) : option (Z * bytes) :=
  match s with
  | d :: _ =>
      match digit_val 10 d with
      | Some _ => let '(v, rest) := scan_digits 10 0 s in
                  if max <? v then None else Some (v, rest)
      | None => None
      end
  | [] => None
  end.

Definition INT_MIN : Z := - 2 ^ 31.
Definition INT_MAX : Z := 2 ^ 31 - 1.

(** [None]: valid; [Some e]: the error text. *)
Definition forward_targets_are_valid (source dest : bytes) : option bytes :=
  let bad_source :=
    StartsWith source (txt "tcp:") &&
    match ParseInt (drop 4 source) INT_MIN INT_MAX with inr p => p <? 0 | inl _ => true end in
  let bad_dest :=
    StartsWith dest (txt "tcp:") &&
    match ParseInt (drop 4 dest) INT_MIN INT_MAX with inr p => p <=? 0 | inl _ => true end in
  if bad_source then Some (txt "Invalid source port: " ++ sq (drop 4 source))
  else if bad_dest then Some (txt "Invalid destination port: " ++ sq (drop 4 dest))
  else None.

Definition hex_digit (v : Z) : byte := if v <? 10 then zbyte (48 + v) else zbyte (87 + v).
Definition isprint (b : byte) : bool := (32 <=? bval b) && (bval b <=? 126).
Definition dump_hex (data : bytes) : bytes :=
  let truncated := bool_decide (16 < length data)%nat in
  let p := if truncated then take 16 data else data in
  concat ((λ b, [hex_digit (bval b / 16); hex_digit (bval b mod 16)]) <$> p) ++
  txt " " ++ ((λ b, if isprint b then b else x2e) <$> p) ++
  (if truncated then txt " [truncated]" else []).

(** ** Splitting *)

(** The reference definition of splitting: one pass over the text. *)
Fixpoint split_ref (ds s : bytes) : list bytes :=
  match s with
  | [] => [[]]
  | b :: s =>
      if bool_decide (b ∈ ds) then [] :: split_ref ds s
      else match split_ref ds s with p :: ps => (b :: p) :: ps | [] => [] end
  end.

Lemma split_ref_nonempty ds s : split_ref ds s ≠ [].
Proof. induction s as [|b s IH]; simpl; [done|]. case_bool_decide; [done|]. by destruct (split_ref ds s). Qed.

Lemma split_ref_no_delim ds s : Forall (λ b, b ∉ ds) s → split_ref ds s = [s].
Proof.
  induction 1 as [|b s Hb Hs IH]; [done|]. simpl. rewrite bool_decide_eq_false_2 by done. by rewrite IH.
Qed.

Lemma split_ref_app ds pre x post :
  Forall (λ b, b ∉ ds) pre → x ∈ ds →
  split_ref ds (pre ++ x :: post) = pre :: split_ref ds post.
Proof.
  intros Hpre Hx. induction Hpre as [|b pre Hb Hs IH]; simpl.
  - by rewrite bool_decide_eq_true_2.
  - rewrite bool_decide_eq_false_2 by done. by rewrite IH.
Qed.

(** What [find_first_of] found, or that there is nothing to find. *)
Lemma find_first_of_spec s ds base :
  match find_first_of s ds base with
  | Some f => ∃ x, (base ≤ f)%nat ∧ x ∈ ds ∧ Forall (λ b, b ∉ ds) (substr_to s base (Some f)) ∧
      drop base s = substr_to s base (Some f) ++ x :: drop (S f) s ∧ (f < length s)%nat
  | None => Forall (λ b, b ∉ ds) (drop base s)
  end.
Proof.
  unfold find_first_of. destruct (list_find _ (drop base s)) as [[i x]|] eqn:E; simpl.
  - apply list_find_Some in E as (Hl & Hx & Hlt). exists x.
    assert (base + i < length s)%nat as Hlen.
    { apply lookup_lt_Some in Hl. rewrite length_drop in Hl. lia. }
    replace (base + i - base)%nat with i by lia. split_and!; try done; [lia|..].
    + apply Forall_lookup. intros j y Hy. apply lookup_take_Some in Hy as [Hy ?]. by eapply Hlt.
    + rewrite <- (take_drop_middle (drop base s) i x) at 1 by done. rewrite drop_drop.
      do 3 f_equal. lia.
  - apply list_find_None in E. done.
Qed.

Lemma split_loop_ref fuel : ∀ s ds base,
  (base ≤ length s)%nat → (length s - base < fuel)%nat →
  split_loop fuel s ds base = split_ref ds (drop base s).
Proof.
  induction fuel as [|fuel IH]; intros s ds base Hb Hf; [lia|]. cbn [split_loop].
  pose proof (find_first_of_spec s ds base) as Hfind.
  destruct (find_first_of s ds base) as [f|].
  - destruct Hfind as (x & ? & Hx & Hpre & Hd & ?). rewrite Hd.
    rewrite split_ref_app by done. by rewrite IH by lia.
  - cbn [substr_to]. by rewrite split_ref_no_delim.
Qed.

Lemma Split_ref s ds : ds ≠ [] → Split s ds = Ok (split_ref ds s).
Proof.
  intros Hds. unfold Split. rewrite bool_decide_eq_false_2 by (destruct ds; simpl; [done|lia]).
  cbn [negb check]. rok. rewrite split_loop_ref by lia. done.
Qed.

Lemma Join_cons t ts sep : ts ≠ [] → Join (t :: ts) sep = t ++ sep ++ Join ts sep.
Proof. destruct ts as [|u ts]; [done|]. intros _. simpl. by rewrite <- app_assoc. Qed.

Lemma Join_split_ref d s : Join (split_ref [d] s) [d] = s.
Proof.
  induction s as [|b s IH]; [done|]. cbn [split_ref]. pose proof (split_ref_nonempty [d] s).
  case_bool_decide as Hb.
  - apply list_elem_of_singleton in Hb as ->. rewrite Join_cons, IH by done. done.
  - destruct (split_ref [d] s) as [|p ps]; [done|]. by rewrite <- IH.
Qed.

Lemma split_ref_Join d ps :
  ps ≠ [] → Forall (λ p, d ∉ p) ps → split_ref [d] (Join ps [d]) = ps.
Proof.
  assert (∀ p : bytes, d ∉ p → Forall (λ b, b ∉ [d]) p) as Hp.
  { intros p Hd. apply Forall_forall. set_solver. }
  intros Hne. induction 1 as [|p ps Hd Hps IH]; [done|].
  destruct ps as [|q ps]; [cbn; rewrite app_nil_r; by apply split_ref_no_delim, Hp|].
  rewrite Join_cons by done. cbn [app].
  rewrite split_ref_app by (by apply Hp || set_solver). by rewrite IH.
Qed.

(** ** Numbers *)

Lemma isdigit_dec_digit v : 0 ≤ v < 10 → isdigit (zbyte (48 + v)) = true ∧ bval (zbyte (48 + v)) = 48 + v.
Proof.
  intros. unfold isdigit. rewrite bval_zbyte. unfold u8. rewrite Z.mod_small by lia. lia.
Qed.

Lemma digit_val_dec v : 0 ≤ v < 10 → digit_val 10 (zbyte (48 + v)) = Some v.
Proof.
  intros. unfold digit_val. destruct (isdigit_dec_digit v) as [-> ->]; [done|].
  rewrite (proj2 (Z.ltb_lt _ _)) by lia. f_equal. lia.
Qed.

Lemma scan_dec_loop fuel : ∀ n acc,
  0 ≤ n < 10 ^ Z.of_nat fuel → (0 < fuel)%nat →
  scan_digits 10 0 (dec_loop fuel n acc) = scan_digits 10 n acc.
Proof.
  induction fuel as [|fuel IH]; intros n acc Hn Hf; [lia|]. cbn [dec_loop].
  pose proof (Z.mod_pos_bound n 10). pose proof (Z.div_mod n 10).
  destruct (Z.eqb_spec (n / 10) 0) as [E|E].
  - cbn [scan_digits]. rewrite digit_val_dec by lia. f_equal. lia.
  - destruct fuel as [|fuel]; [change (10 ^ Z.of_nat 1) with 10 in Hn; lia|].
    rewrite Nat2Z.inj_succ, Z.pow_succ_r in Hn by lia.
    rewrite IH by lia. cbn [scan_digits]. rewrite digit_val_dec by lia. f_equal. lia.
Qed.

Lemma dec_loop_digits fuel : ∀ n acc,
  Forall (λ b, isdigit b = true) acc → Forall (λ b, isdigit b = true) (dec_loop fuel n acc).
Proof.
  induction fuel as [|fuel IH]; intros n acc Ha; [done|]. cbn [dec_loop].
  assert (Forall (λ b, isdigit b = true) (zbyte (48 + n mod 10) :: acc)).
  { constructor; [|done]. apply isdigit_dec_digit. by apply Z.mod_pos_bound. }
  case_match; [done|by apply IH].
Qed.

Lemma dec_loop_cons fuel n acc : ∃ b l, dec_loop (S fuel) n acc = b :: l ++ acc.
Proof.
  revert n acc. induction fuel as [|fuel IH]; intros n acc; cbn [dec_loop].
  - case_match; by exists (zbyte (48 + n mod 10)), [].
  - case_match; [by exists (zbyte (48 + n mod 10)), []|].
    destruct (IH (n / 10) (zbyte (48 + n mod 10) :: acc)) as (b & l & E).
    cbn [dec_loop] in E. rewrite E. exists b, (l ++ [zbyte (48 + n mod 10)]). by rewrite <- app_assoc.
Qed.

Lemma dec_digits n : 0 ≤ n → Forall (λ b, isdigit b = true) (dec n).
Proof. intros. unfold dec. rewrite (proj2 (Z.ltb_ge _ _)) by lia. by apply dec_loop_digits. Qed.

Lemma dec_cons n : 0 ≤ n → ∃ b l, dec n = b :: l.
Proof.
  intros. unfold dec. rewrite (proj2 (Z.ltb_ge _ _)) by lia.
  destruct (dec_loop_cons 39 n []) as (b & l & ->). by eexists _, _.
Qed.

(** Digits followed by something that is not a digit. *)
Definition ends_number (rest : bytes) : Prop :=
  match rest with [] => True | b :: _ => digit_val 10 b = None end.

Lemma scan_digits_app acc l rest :
  Forall (λ b, isdigit b = true) l → ends_number rest →
  scan_digits 10 acc (l ++ rest) = ((scan_digits 10 acc l).1, rest) ∧ (scan_digits 10 acc l).2 = [].
Proof.
  intros Hl Hr. revert acc. induction Hl as [|b l Hb Hl IH]; intros acc; cbn [app scan_digits].
  - destruct rest; [done|]. cbn. unfold ends_number in Hr. by rewrite Hr.
  - assert (∃ v, digit_val 10 b = Some v) as [v ->]; [|apply IH].
    unfold digit_val, isdigit in *. rewrite Hb. exists (bval b - 48).
    rewrite (proj2 (Z.ltb_lt _ _)) by lia. done.
Qed.

Lemma scan_dec n rest :
  0 ≤ n < 10 ^ 40 → ends_number rest → scan_digits 10 0 (dec n ++ rest) = (n, rest).
Proof.
  intros Hn Hr. destruct (scan_digits_app 0 (dec n) rest) as [-> _]; [apply dec_digits; lia|done|].
  unfold dec. rewrite (proj2 (Z.ltb_ge _ _)) by lia. rewrite scan_dec_loop by (done || lia). done.
Qed.

Ltac byte_cases b := destruct b; try done.

(** Neither a sign, nor white space, nor NUL starts a number. *)
Lemma digit_plain b :
  isdigit b = true → isspace b = false ∧ b ≠ x00 ∧ b ≠ x2d ∧ b ≠ x2b ∧ b ≠ x78 ∧ b ≠ x58 ∧ b ≠ x3a
    ∧ b ≠ x5d ∧ is_Some (digit_val 10 b).
Proof. byte_cases b. Qed.

Lemma c_str_id s : x00 ∉ s → c_str s = s.
Proof.
  induction s as [|b s IH]; [done|]. intros Hn. cbn. rewrite bool_decide_eq_false_2 by set_solver.
  rewrite IH by set_solver. done.
Qed.

Lemma digits_no_nul s : Forall (λ b, isdigit b = true) s → x00 ∉ s.
Proof. rewrite Forall_forall. intros Hs Hin. by specialize (Hs _ Hin). Qed.

Lemma strto_dec n rest :
  0 ≤ n < 10 ^ 40 → ends_number rest → strto 10 (dec n ++ rest) = Some (false, n, rest).
Proof.
  intros Hn Hr. pose proof (scan_dec n rest Hn Hr) as Hs.
  destruct (dec_cons n) as (b & l & E); [lia|].
  pose proof (dec_digits n ltac:(lia)) as Hd. rewrite E in Hd, Hs |- *. rewrite Forall_cons in Hd.
  destruct Hd as [Hb _]. cbn [app] in *. generalize dependent (l ++ rest). intros t Hs.
  byte_cases b; unfold strto; cbn -[scan_digits];
    try (destruct t as [|? [|? ?]]; cbn -[scan_digits]); by rewrite Hs.
Qed.

Lemma drop_while_space_dec n rest : 0 ≤ n → drop_while_space (dec n ++ rest) = dec n ++ rest.
Proof.
  intros Hn. destruct (dec_cons n Hn) as (b & l & E). pose proof (dec_digits n Hn) as Hd.
  rewrite E in *. rewrite Forall_cons in Hd. cbn. by destruct (digit_plain b (proj1 Hd)) as [-> _].
Qed.

Lemma parse_base_dec n : 0 ≤ n → parse_base (dec n) = 10.
Proof.
  intros Hn. pose proof (dec_digits n Hn) as Hd. destruct (dec n) as [|b [|b' l]]; [done|by byte_cases b|].
  rewrite !Forall_cons in Hd. destruct Hd as (_ & Hb' & _).
  destruct (digit_plain b') as (_ & _ & _ & _ & ? & ? & _); [done|].
  unfold parse_base. byte_cases b. byte_cases b'.
Qed.

Lemma c_str_dec n : 0 ≤ n → c_str (dec n) = dec n.
Proof. intros. by apply c_str_id, digits_no_nul, dec_digits. Qed.

Lemma c_str_app s t : x00 ∉ s → c_str (s ++ t) = s ++ c_str t.
Proof.
  induction s as [|b s IH]; [done|]. intros Hn. cbn. rewrite bool_decide_eq_false_2 by set_solver.
  rewrite IH by set_solver. done.
Qed.

Lemma sscanf_dec n rest : 0 ≤ n < 2 ^ 31 → ends_number (c_str rest) → sscanf_d (dec n ++ rest) = Some n.
Proof.
  intros Hn Hr. unfold sscanf_d.
  rewrite c_str_app by (by apply digits_no_nul, dec_digits; lia).
  rewrite drop_while_space_dec by lia. rewrite strto_dec by (lia || done). unfold s32, u32.
  rewrite Z.min_r, Z.max_r, Z.mod_small by lia. by rewrite (proj2 (Z.ltb_lt _ _)) by lia.
Qed.

(** ** Network addresses *)

Lemma count_app c s t : count c (s ++ t) = (count c s + count c t)%nat.
Proof. unfold count. by rewrite filter_app, length_app. Qed.

Lemma count_cons c b s : count c (b :: s) = ((if bool_decide (b = c) then 1 else 0) + count c s)%nat.
Proof. unfold count. rewrite filter_cons. case_bool_decide; by case_decide. Qed.

Lemma count_none c s : c ∉ s → count c s = 0%nat.
Proof.
  intros Hc. unfold count. induction s as [|b s IH]; [done|]. rewrite filter_cons.
  rewrite decide_False by set_solver. apply IH. set_solver.
Qed.

Lemma digits_no c s : Forall (λ b, isdigit b = true) s → isdigit c = false → c ∉ s.
Proof. rewrite Forall_forall. intros Hs Hc Hin. rewrite (Hs _ Hin) in Hc. done. Qed.

Lemma split_host_port h p :
  x3a ∉ h → x3a ∉ p →
  split_loop (S (length (h ++ x3a :: p))) (h ++ x3a :: p) (txt ":") 0 = [h; p].
Proof.
  intros Hh Hp. rewrite split_loop_ref by lia. change (drop 0 ?s) with s.
  change (txt ":") with [x3a].
  assert (∀ q : bytes, x3a ∉ q → Forall (λ b, b ∉ [x3a]) q) as Hq
    by (intros q Hq; apply Forall_forall; set_solver).
  rewrite split_ref_app by (by apply Hq || set_solver). by rewrite split_ref_no_delim by (by apply Hq).
Qed.

(** A host name or an IPv4 address: no colon, no opening bracket, no NUL. *)
Definition plain_host (h : bytes) : Prop :=
  h ≠ [] ∧ x3a ∉ h ∧ x5b ∉ h ∧ x00 ∉ h.

Lemma parse_plain h p rest port0 :
  plain_host h → 0 < p ≤ 65535 → x3a ∉ rest → ends_number (c_str rest) →
  ParseNetAddress (h ++ txt ":" ++ dec p ++ rest) port0 =
    inr (mkNet h p (h ++ txt ":" ++ dec p)).
Proof.
  intros (Hne & Hc & Hb & H0) Hp Hcr Hr. pose proof (dec_digits p ltac:(lia)) as Hd.
  assert (x3a ∉ dec p ++ rest) as Hcd.
  { intros [Hin|Hin]%elem_of_app; [by apply (digits_no x3a) in Hd|done]. }
  change (txt ":" ++ dec p ++ rest) with (x3a :: (dec p ++ rest)) in *.
  assert (count x3a (h ++ x3a :: (dec p ++ rest)) = 1%nat) as Hcount.
  { rewrite count_app, count_cons, !count_none by done. done. }
  unfold ParseNetAddress. rewrite Hcount.
  rewrite (Bool.andb_false_intro1 _ (1 <=? 7)%nat) by (by rewrite andb_false_r).
  change (1 <=? 1)%nat with true. cbv iota.
  rewrite split_host_port by done.
  destruct h as [|b h]; [done|]. cbn [app] in *.
  assert (b ≠ x5b) as Hb5 by set_solver.
  byte_cases b; cbv iota beta zeta; rewrite bool_decide_eq_false_2 by done;
    rewrite sscanf_dec by (lia || done); cbv iota beta zeta;
    rewrite (proj2 (Z.leb_gt p 0)), (proj2 (Z.ltb_ge 65535 p)) by lia; cbn [orb]; cbv iota;
    by rewrite c_str_id.
Qed.

Lemma starts_with_lookup n c (s pat : bytes) :
  starts_with (drop n s) (c :: pat) = true → s !! n = Some c.
Proof.
  unfold starts_with. rewrite bool_decide_eq_true. intros E.
  rewrite <- (Nat.add_0_r n), <- lookup_drop. destruct (drop n s); [done|]. by injection E as -> _.
Qed.

Lemma find_from_first fuel : ∀ (s pat : bytes) c base k,
  (base ≤ k)%nat → (k - base < fuel)%nat → (k + S (length pat) ≤ length s)%nat →
  starts_with (drop k s) (c :: pat) = true →
  (∀ j, (base ≤ j < k)%nat → s !! j ≠ Some c) →
  find_from fuel s (c :: pat) base = Some k.
Proof.
  induction fuel as [|fuel IH]; intros s pat c base k Hb Hf Hl Hk Hj; [lia|]. cbn [find_from].
  rewrite bool_decide_eq_false_2 by (simpl; lia).
  destruct (decide (base = k)) as [->|Hne]; [by rewrite Hk|].
  destruct (starts_with (drop base s) (c :: pat)) eqn:E.
  - apply starts_with_lookup in E. by apply Hj in E; [|lia].
  - apply IH; try done; [lia..|]. intros j Hj'. apply Hj. lia.
Qed.

Lemma rfind_upto_last (s pat : bytes) c k n :
  (k ≤ n)%nat → (k + S (length pat) ≤ length s)%nat →
  starts_with (drop k s) (c :: pat) = true →
  (∀ j, (k < j ≤ n)%nat → s !! j ≠ Some c) → rfind_upto s (c :: pat) n = Some k.
Proof.
  induction n as [|n IH]; intros Hk Hl Hs Hj.
  - assert (k = 0%nat) as -> by lia. cbn [rfind_upto]. rewrite Hs.
    by rewrite bool_decide_eq_true_2 by (simpl; lia).
  - cbn [rfind_upto]. destruct (decide (k = S n)) as [->|Hne].
    { rewrite Hs. by rewrite bool_decide_eq_true_2 by (simpl; lia). }
    destruct (starts_with (drop (S n) s) (c :: pat)) eqn:E; cbn [andb].
    + apply starts_with_lookup in E. by apply Hj in E; [|lia].
    + apply IH; try done; [lia|]. intros j Hj'. apply Hj. lia.
Qed.

(** The text of an IPv6 address: no closing bracket, no NUL. *)
Definition ipv6_host (h : bytes) : Prop := h ≠ [] ∧ x5d ∉ h ∧ x00 ∉ h.

Lemma parse_ipv6 h p port0 :
  ipv6_host h → 0 < p ≤ 65535 →
  ParseNetAddress (txt "[" ++ h ++ txt "]:" ++ dec p) port0 =
    inr (mkNet h p (txt "[" ++ h ++ txt "]:" ++ dec p)).
Proof.
  intros (Hne & Hb & H0) Hp. pose proof (dec_digits p ltac:(lia)) as Hd.
  assert (x5d ∉ dec p) as Hbd by (by apply digits_no).
  change (txt "[" ++ h ++ txt "]:" ++ dec p) with (x5b :: (h ++ x5d :: x3a :: dec p)).
  set (a := x5b :: (h ++ x5d :: x3a :: dec p)).
  assert (∀ j, a !! j = Some x5d → j = S (length h)) as Huniq.
  { intros [|j] Hj; [done|]. f_equal. cbn in Hj. apply lookup_app_Some in Hj as [Hj|[Hge Hj]].
    - apply list_elem_of_lookup_2 in Hj. done.
    - destruct (j - length h)%nat as [|[|i]] eqn:E; [lia|done|].
      cbn in Hj. apply list_elem_of_lookup_2 in Hj. done. }
  assert (drop (S (length h)) a = x5d :: x3a :: dec p) as Hdr.
  { unfold a. cbn. by rewrite drop_app_length. }
  assert (S (length h) + 2 ≤ length a)%nat as Hlen.
  { unfold a. cbn. rewrite length_app. cbn. lia. }
  assert (starts_with (drop (S (length h)) a) [x5d; x3a] = true) as Hsw by (by rewrite Hdr).
  assert (find a (txt "]:") 0 = Some (S (length h))) as Hfind.
  { unfold find. change (txt "]:") with [x5d; x3a].
    apply find_from_first; [lia|lia|cbn [length]; lia|done|]. intros j Hj Hs%Huniq. lia. }
  assert (rfind a (txt "]:") = Some (S (length h))) as Hrfind.
  { unfold rfind. change (txt "]:") with [x5d; x3a].
    apply rfind_upto_last; [lia|cbn [length]; lia|done|]. intros j Hj Hs%Huniq. lia. }
  assert (take (S (length h) - 1) (drop 1 a) = h) as Hhost.
  { unfold a. cbn. rewrite Nat.sub_0_r. apply take_app_length. }
  assert (drop (S (length h) + 2) a = dec p) as Hport.
  { rewrite <- drop_drop, Hdr. done. }
  unfold ParseNetAddress. subst a. cbv iota beta zeta. rewrite Hrfind, Hfind. cbv iota beta zeta.
  rewrite Hhost, Hport, bool_decide_eq_false_2 by done.
  rewrite <- (app_nil_r (dec p)) at 1. rewrite sscanf_dec by (lia || done). cbv iota beta zeta.
  rewrite (proj2 (Z.leb_gt p 0)), (proj2 (Z.ltb_ge 65535 p)) by lia. cbn [orb]. cbv iota.
  by rewrite c_str_id.
Qed.

(** ** Quoting *)

Fixpoint escape_ref (s : bytes) : bytes :=
  match s with
  | [] => []
  | b :: s => (if bool_decide (b = x27) then [x27; x5c; x27; x27] else [b]) ++ escape_ref s
  end.

Lemma escape_ref_plain s : Forall (λ b, b ∉ [x27]) s → escape_ref s = s.
Proof.
  induction 1 as [|b s Hb Hs IH]; [done|]. cbn. rewrite bool_decide_eq_false_2 by set_solver.
  cbn. by rewrite IH.
Qed.

Lemma escape_ref_app s t : escape_ref (s ++ t) = escape_ref s ++ escape_ref t.
Proof. induction s as [|b s IH]; [done|]. cbn [app escape_ref]. by rewrite IH, app_assoc. Qed.

Lemma escape_loop_ref fuel : ∀ s base,
  (base ≤ length s)%nat → (length s - base < fuel)%nat →
  escape_loop fuel s base = escape_ref (drop base s).
Proof.
  induction fuel as [|fuel IH]; intros s base Hb Hf; [lia|]. cbn [escape_loop].
  pose proof (find_first_of_spec s [x27] base) as Hfind.
  destruct (find_first_of s [x27] base) as [f|].
  - destruct Hfind as (x & ? & Hx & Hpre & Hd & ?). rewrite Hd, escape_ref_app.
    apply list_elem_of_singleton in Hx as ->. rewrite escape_ref_plain by done.
    rewrite IH by lia. done.
  - cbn [substr_to]. by rewrite escape_ref_plain, app_nil_r.
Qed.

(** How a POSIX shell reads back one word: single-quoted text is literal, a backslash
    outside quotes escapes the next character.  Anything else outside quotes could be
    special to the shell and is refused here. *)
Fixpoint sh_word (quoted : bool) (s : bytes) : option bytes :=
  match s with
  | [] => if quoted then None else Some []
  | b :: s =>
      if quoted then
        if bool_decide (b = x27) then sh_word false s else cons b <$> sh_word true s
      else if bool_decide (b = x27) then sh_word true s
      else if bool_decide (b = x5c) then
        match s with [] => None | c :: s => cons c <$> sh_word false s end
      else None
  end.

Lemma sh_word_escape_ref s : sh_word true (escape_ref s ++ [x27]) = Some s.
Proof.
  induction s as [|b s IH]; [done|]. cbn [escape_ref]. rewrite <- app_assoc.
  case_bool_decide as Hb; cbn [app sh_word].
  - subst. cbn [app sh_word bool_decide]. rewrite IH. done.
  - rewrite bool_decide_eq_false_2 by done. by rewrite IH.
Qed.

(** ** Tokens *)

Lemma split_ref_delims ds pre t :
  Forall (λ b, b ∈ ds) pre →
  filter (λ p, p ≠ []) (split_ref ds (pre ++ t)) = filter (λ p, p ≠ []) (split_ref ds t).
Proof.
  induction 1 as [|b pre Hb Hpre IH]; [done|]. cbn. rewrite bool_decide_eq_true_2 by done.
  rewrite filter_cons_False by naive_solver. apply IH.
Qed.

Lemma find_first_not_of_spec s ds e :
  match find_first_not_of s ds e with
  | Some b => ∃ x, (e ≤ b)%nat ∧ x ∉ ds ∧ Forall (λ c, c ∈ ds) (take (b - e) (drop e s)) ∧
      drop e s = take (b - e) (drop e s) ++ drop b s ∧ drop b s = x :: drop (S b) s ∧ (b < length s)%nat
  | None => Forall (λ c, c ∈ ds) (drop e s)
  end.
Proof.
  unfold find_first_not_of. destruct (list_find _ (drop e s)) as [[i x]|] eqn:E; simpl.
  - apply list_find_Some in E as (Hl & Hx & Hlt). exists x.
    assert (e + i < length s)%nat as Hlen.
    { apply lookup_lt_Some in Hl. rewrite length_drop in Hl. lia. }
    replace (e + i - e)%nat with i by lia. rewrite lookup_drop in Hl.
    split_and!; try done; [lia|..].
    + apply Forall_lookup. intros j y Hy. apply lookup_take_Some in Hy as [Hy ?].
      apply dec_stable. by eapply Hlt.
    + by rewrite <- drop_drop, take_drop.
    + by apply drop_S.
  - apply list_find_None in E. eapply Forall_impl; [done|]. intros c Hc. by apply dec_stable.
Qed.

Lemma tokenize_loop_ref fuel : ∀ s ds e,
  (e ≤ length s)%nat → (length s - e < fuel)%nat →
  tokenize_loop fuel s ds (Some e) = filter (λ p, p ≠ []) (split_ref ds (drop e s)).
Proof.
  induction fuel as [|fuel IH]; intros s ds e He Hf; [lia|]. cbn [tokenize_loop].
  pose proof (find_first_not_of_spec s ds e) as Hn.
  destruct (find_first_not_of s ds e) as [b|].
  - destruct Hn as (x & ? & Hx & Hpre & Hd & Hb & ?). rewrite Hd, split_ref_delims by done.
    pose proof (find_first_of_spec s ds b) as Hfind. destruct (find_first_of s ds b) as [f|].
    + destruct Hfind as (y & ? & Hy & Hp & Hdb & ?).
      assert (substr_to s b (Some f) ≠ []) as Hne.
      { intros E. rewrite E, Hb in Hdb. cbn in Hdb. naive_solver. }
      assert (b < f)%nat as Hbf.
      { destruct (decide (b = f)) as [->|]; [|lia]. destruct Hne. cbn. by rewrite Nat.sub_diag. }
      rewrite IH by lia. rewrite Hdb, split_ref_app by done.
      rewrite filter_cons_True by done. f_equal.
      assert (drop f s = y :: drop (S f) s) as ->.
      { apply drop_S. apply (f_equal (drop (f - b))) in Hdb. rewrite drop_drop in Hdb.
        replace (b + (f - b))%nat with f in Hdb by lia. cbn [substr_to] in Hdb.
        rewrite drop_app_length' in Hdb by (rewrite length_take, length_drop; lia).
        rewrite <- (Nat.add_0_r f), <- lookup_drop, Hdb. done. }
      cbn [split_ref]. rewrite bool_decide_eq_true_2 by done.
      by rewrite filter_cons_False by naive_solver.
    + cbn [substr_to]. rewrite split_ref_no_delim by done.
      rewrite filter_cons_True by (by rewrite Hb). by destruct fuel.
  - rewrite <- (app_nil_r (drop e s)), split_ref_delims by done. done.
Qed.

(** ** Bounds of parsed numbers *)

Lemma digit_val_nonneg base b v : digit_val base b = Some v → 0 ≤ v.
Proof.
  unfold digit_val, isdigit. intros E. pose proof (bval_range b).
  repeat case_match; simplify_eq; lia.
Qed.

Lemma scan_digits_nonneg base s : ∀ acc v rest,
  0 ≤ base → 0 ≤ acc → scan_digits base acc s = (v, rest) → 0 ≤ v.
Proof.
  induction s as [|b s IH]; intros acc v rest Hb Ha E; cbn in E; [naive_solver|].
  destruct (digit_val base b) as [d|] eqn:Ed; [|naive_solver].
  apply digit_val_nonneg in Ed. eapply IH; [..|done]; nia.
Qed.

Lemma strto_nonneg base s neg v rest : 0 ≤ base → strto base s = Some (neg, v, rest) → 0 ≤ v.
Proof.
  unfold strto. intros Hb. destruct (match s with x2d :: s' => _ | _ => _ end) as [ng s1].
  set (s2 := match s1 with x30 :: x :: d :: s' => _ | _ => _ end). clearbody s2.
  destruct s2 as [|d s2]; [done|]. destruct (digit_val base d); [|done].
  destruct (scan_digits base 0 (d :: s2)) as [v' r] eqn:E. intros [= -> -> ->].
  by eapply scan_digits_nonneg in E.
Qed.

Lemma parse_base_nonneg s : 0 ≤ parse_base s.
Proof. unfold parse_base. repeat case_match; lia. Qed.

(** ** The claims *)

(** [Split] at one delimiter and [Join] are inverse: joining the pieces gives back
    the text, and splitting a joined nonempty list of pieces that do not contain the
    delimiter gives back the pieces. *)
Theorem Split_Join_roundtrip d :
  (∀ s, ∃ ps, Split s [d] = Ok ps ∧ Join ps [d] = s) ∧
  (∀ ps, ps ≠ [] → Forall (λ p, d ∉ p) ps → Split (Join ps [d]) [d] = Ok ps).
Proof.
  split.
  - intros s. exists (split_ref [d] s). split; [by apply Split_ref|apply Join_split_ref].
  - intros ps Hne Hps. rewrite Split_ref by done. by rewrite split_ref_Join.
Qed.

(** [Tokenize] returns exactly the nonempty pieces of [Split], in order. *)
Theorem Tokenize_is_nonempty_Split s ds :
  ds ≠ [] → ∃ ps, Split s ds = Ok ps ∧ Tokenize s ds = Ok (filter (λ p, p ≠ []) ps).
Proof.
  intros Hds. exists (split_ref ds s). split; [by apply Split_ref|].
  unfold Tokenize. rewrite bool_decide_eq_false_2 by (destruct ds; simpl; [done|lia]).
  cbn [negb check]. rok. by rewrite tokenize_loop_ref by lia.
Qed.

(** [ParseUint] is exact on decimal text within the bound, and whatever text it
    accepts, with or without a byte-count suffix, the value is within [0, max]. *)
Theorem ParseUint_exact_and_bounded max allow :
  0 ≤ max < 2 ^ 64 →
  (∀ n, 0 ≤ n ≤ max → ParseUint (dec n) max allow = inr n) ∧
  (∀ s v, ParseUint s max allow = inr v → 0 ≤ v ≤ max).
Proof.
  intros Hmax. split.
  - intros n Hn. unfold ParseUint. rewrite c_str_dec by lia.
    rewrite <- (app_nil_r (dec n)), drop_while_space_dec, app_nil_r by lia.
    rewrite parse_base_dec by lia. rewrite <- (app_nil_r (dec n)), strto_dec, app_nil_r by (lia || done).
    rewrite (proj2 (Z.ltb_ge (2 ^ 64 - 1) n)), (proj2 (Z.ltb_ge max n)) by lia.
    pose proof (dec_digits n ltac:(lia)) as Hd. destruct (dec n) as [|b l]; [done|].
    rewrite Forall_cons in Hd. destruct Hd as [Hb _]. byte_cases b.
  - intros s v. unfold ParseUint. generalize (drop_while_space (c_str s)). clear s. intros s E.
    assert (∀ r, match s with x2d :: _ => inl EINVAL | _ => r end = inr v → r = inr v) as Hm.
    { intros r. destruct s as [|b l]; [done|]. byte_cases b. }
    apply Hm in E. clear Hm.
    destruct (strto (parse_base s) s) as [[[neg w] rest]|] eqn:Es; [|done].
    apply strto_nonneg in Es; [|apply parse_base_nonneg].
    repeat case_match; simplify_eq; lia.
Qed.

(** [ParseByteCount] ignores whatever follows the suffix letter, although [ParseUint]
    rejects any other trailing text. *)
Theorem ParseByteCount_ignores_garbage rest :
  x00 ∉ rest →
  ParseByteCount (txt "1k" ++ rest) (2 ^ 64 - 1) = inr 1024 ∧
  (rest ≠ [] → ParseUint (txt "1" ++ x7a :: rest) (2 ^ 64 - 1) true = inl EINVAL).
Proof.
  intros Hr. unfold ParseByteCount, ParseUint. split.
  - rewrite c_str_id; [done|]. cbn. set_solver.
  - intros _. rewrite c_str_id; [done|]. cbn. set_solver.
Qed.

(** The canonical form [ParseNetAddress] produces is stable: for a host name or
    IPv4 address, and for a bracketed IPv6 address, parsing "host:port" gives that host
    and port back, and the canonical form is the very text that was parsed. *)
Theorem ParseNetAddress_canonical h p port0 :
  0 < p ≤ 65535 →
  (plain_host h →
   ParseNetAddress (h ++ txt ":" ++ dec p) port0 = inr (mkNet h p (h ++ txt ":" ++ dec p))) ∧
  (ipv6_host h →
   ParseNetAddress (txt "[" ++ h ++ txt "]:" ++ dec p) port0
   = inr (mkNet h p (txt "[" ++ h ++ txt "]:" ++ dec p))).
Proof.
  intros Hp. split; intros Hh; [|by apply parse_ipv6].
  pose proof (parse_plain h p [] port0 Hh Hp) as E. rewrite app_nil_r in E. apply E; [set_solver|done].
Qed.

(** [ParseNetAddress] accepts a port followed by other text: ["%d"] stops at the
    first character that is not a digit, so "a:80xyz" is taken as port 80, whatever
    the text after the digits is. *)
Theorem ParseNetAddress_port_garbage h p rest port0 :
  plain_host h → 0 < p ≤ 65535 → x3a ∉ rest → ends_number (c_str rest) →
  ParseNetAddress (h ++ txt ":" ++ dec p ++ rest) port0 = inr (mkNet h p (h ++ txt ":" ++ dec p)).
Proof. apply parse_plain. Qed.

(** [escape_arg] is safe: the shell reads the quoted text back as one word that is
    exactly the original argument, with no character outside quotes but the escaped
    quote. *)
Theorem escape_arg_roundtrip s : sh_word false (escape_arg s) = Some s.
Proof.
  unfold escape_arg. rewrite escape_loop_ref by lia. change (drop 0 s) with s.
  cbn [app sh_word]. rewrite bool_decide_eq_true_2 by done. apply sh_word_escape_ref.
Qed.

Lemma Tokenize_is_nonempty_Split_witness :
  ∃ ps, Split (txt " a  b") (txt " ") = Ok ps ∧
        Tokenize (txt " a  b") (txt " ") = Ok (filter (λ p, p ≠ []) ps).
Proof. apply (Tokenize_is_nonempty_Split (txt " a  b") (txt " ")). done. Defined.

Lemma ParseUint_exact_and_bounded_witness : ParseUint (dec 255) 255 false = inr 255.
Proof. apply (ParseUint_exact_and_bounded 255 false); lia. Defined.

Lemma ParseByteCount_ignores_garbage_witness :
  ParseByteCount (txt "1k" ++ txt "!!") (2 ^ 64 - 1) = inr 1024.
Proof. apply (ParseByteCount_ignores_garbage (txt "!!")). vm_compute. set_solver. Defined.

Lemma ParseNetAddress_canonical_witness :
  ParseNetAddress (txt "h" ++ txt ":" ++ dec 5555) 0
  = inr (mkNet (txt "h") 5555 (txt "h" ++ txt ":" ++ dec 5555)).
Proof.
  apply (ParseNetAddress_canonical (txt "h") 5555 0); [lia|].
  split_and!; [done| | |]; vm_compute; set_solver.
Defined.

Lemma ParseNetAddress_port_garbage_witness :
  ParseNetAddress (txt "a" ++ txt ":" ++ dec 80 ++ txt "xyz") 5555
  = inr (mkNet (txt "a") 80 (txt "a" ++ txt ":" ++ dec 80)).
Proof.
  apply (ParseNetAddress_port_garbage (txt "a") 80 (txt "xyz") 5555); [|lia| |done].
  - split_and!; [done| | |]; vm_compute; set_solver.
  - vm_compute. set_solver.
Defined.
