(* ===== verification/SocketSpec.v ===== *)
(** * Socket specifications

    Models adb/socket_spec.cpp: what a specification such as [tcp:5037],
    [tcp:host:port], [vsock:cid:port] or [localabstract:name] stands for.

    [socket_spec_connect] and [socket_spec_listen] decide which socket to open and then
    call the system; the decision is [connect_plan] and [listen_plan], the system's part
    is an argument of the users (the interface [OS] of World).  A [std::string_view] is
    taken to be followed by a NUL where the code passes a pointer into it to a function
    that reads a C string. *)

From S2P Require Import Prelude Strings.

Definition DEFAULT_ADB_LOCAL_TRANSPORT_PORT : Z := 5555.

(** [ANDROID_SOCKET_NAMESPACE_...]. *)
Inductive socket_namespace := NsFilesystem | NsReserved | NsAbstract.

(** [kLocalSocketTypes]: name, namespace, available in a Linux host build. *)
Definition kLocalSocketTypes : list (bytes * socket_namespace * bool) :=
  [(txt "local", NsFilesystem, true); (txt "localreserved", NsReserved, false);
   (txt "localabstract", NsAbstract, true); (txt "localfilesystem", NsFilesystem, true)].

(** The entry whose name, with a colon, starts the specification. *)
Definition local_socket_type (spec : bytes) : option (bytes * socket_namespace * bool) :=
  head (filter (λ e, starts_with spec (e.1.1 ++ txt ":") = true) kLocalSocketTypes).

(** Host name, port, and the serial [ParseNetAddress] stores for a host address. *)
Definition parse_tcp_socket_spec (spec : bytes) : bytes + bytes * Z * option bytes :=
  if negb (starts_with spec (txt "tcp:")) then inl (txt "specification is not tcp: " ++ spec) else
  match ParseInt (drop 4 spec) INT_MIN INT_MAX with
  | inr port_value =>
      if (port_value <? 0) || (65535 <? port_value)
      then inl (txt "bad port number '" ++ dec port_value ++ txt "'")
      else inr ([], port_value, None)
  | inl _ =>
      match ParseNetAddress (drop 4 spec) DEFAULT_ADB_LOCAL_TRANSPORT_PORT with
      | inl error => inl error
      | inr a => inr (host a, port a, Some (canonical_address a))
      end
  end.

(** The port, or the error ([-1]). *)
Definition get_host_socket_spec_port (spec : bytes) : res (bytes + Z) :=
  if starts_with spec (txt "tcp:") then
    Ok match parse_tcp_socket_spec spec with inl e => inl e | inr (_, port, _) => inr port end
  else if starts_with spec (txt "vsock:") then
    fragments ← Split spec (txt ":");
    Ok match fragments with
       | [_; p] =>
           match ParseInt p INT_MIN INT_MAX with
           | inl _ => inl (txt "could not parse vsock port")
           | inr port => if port <? 0 then inl (txt "vsock port was negative.") else inr port
           end
       | _ => inl (txt "given vsock server socket string was invalid")
       end
  else Ok (inl (txt "given socket spec string was invalid")).

Definition tcp_host_is_local (hostname : bytes) : bool :=
  bool_decide (hostname = []) || bool_decide (hostname = txt "localhost").

Definition is_socket_spec (spec : bytes) : bool :=
  match local_socket_type spec with
  | Some _ => true
  | None => starts_with spec (txt "tcp:") || starts_with spec (txt "acceptfd:") || starts_with spec (txt "vsock:")
  end.

Definition is_local_socket_spec (spec : bytes) : bool :=
  match local_socket_type spec with
  | Some _ => true
  | None =>
      match parse_tcp_socket_spec spec with
      | inl _ => false
      | inr (hostname, _, _) => tcp_host_is_local hostname
      end
  end.

(** ** Connecting *)

Inductive connect_target :=
  | TcpLoopback (port : Z)
  | TcpHost (hostname : bytes) (port : Z)
  | VsockTo (cid port : Z)
  | LocalTo (name : bytes) (ns : socket_namespace).

(** The decision of [socket_spec_connect]: an error, or what to connect to with the serial
    number it reports.  [port0] is the caller's [*port], when it passes one. *)
Definition connect_plan (address : bytes) (port0 : option Z) : res (bytes + connect_target * option bytes) :=
  if starts_with address (txt "tcp:") then
    Ok match parse_tcp_socket_spec address with
       | inl e => inl e
       | inr (hostname, port_value, serial) =>
           inr (if tcp_host_is_local hostname then TcpLoopback port_value else TcpHost hostname port_value, serial)
       end
  else if starts_with address (txt "vsock:") then
    fragments ← Split address (txt ":");
    let expected := txt "expected vsock:cid or vsock:cid:port in '" ++ c_str address ++ txt "'" in
    Ok match fragments with
       | _ :: c :: rest =>
           if (2 <=? length rest)%nat then inl expected else
           match ParseUint c (2 ^ 32 - 1) false with
           | inl _ => inl (txt "could not parse vsock cid in '" ++ c_str address ++ txt "'")
           | inr cid =>
               match (match rest with [] => inr (u32 (default 0 port0)) | p :: _ => ParseUint p (2 ^ 32 - 1) false end) with
               | inl _ => inl (txt "could not parse vsock port in '" ++ c_str address ++ txt "'")
               | inr port_value =>
                   if port_value =? 0 then inl (txt "vsock port was not provided.")
                   else inr (VsockTo cid port_value,
                             Some (txt "vsock:" ++ dec cid ++ txt ":" ++ dec (s32 port_value)))
               end
           end
       | _ => inl expected
       end
  else if starts_with address (txt "acceptfd:") then Ok (inl (txt "cannot connect to acceptfd"))
  else Ok match local_socket_type address with
          | Some (name, ns, available) =>
              if available : bool then inr (LocalTo (c_str (drop (S (length name)) address)) ns, Some address)
              else inl (txt "socket type " ++ name ++ txt " is unavailable on this platform")
          | None => inl (txt "unknown socket specification: " ++ address)
          end.

(** ** Listening *)

Inductive listen_target :=
  | ListenAny (port : Z)
  | ListenLoopback (port : Z) (ipv4 : bool)
  | ListenVsock (port : Z)
  | ListenFd (fd : Z)
  | ListenLocal (name : bytes) (ns : socket_namespace).

Definition listen_plan (gListenAll : bool) (spec : bytes) : res (bytes + listen_target) :=
  if starts_with spec (txt "tcp:") then
    Ok match parse_tcp_socket_spec spec with
       | inl e => inl e
       | inr (hostname, port, _) =>
           if bool_decide (hostname = []) && gListenAll then inr (ListenAny port)
           else if tcp_host_is_local hostname then inr (ListenLoopback port true)
           else if bool_decide (hostname = txt "::1") then inr (ListenLoopback port false)
           else inl (txt "listening on specified hostname currently unsupported")
       end
  else if starts_with spec (txt "vsock:") then
    fragments ← Split spec (txt ":");
    Ok match fragments with
       | [_; p] =>
           match ParseInt p INT_MIN INT_MAX with
           | inl _ => inl (txt "could not parse vsock port")
           | inr port => if port <? 0 then inl (txt "vsock port was negative.") else inr (ListenVsock port)
           end
       | _ => inl (txt "given vsock server socket string was invalid")
       end
  else match ConsumePrefix spec (txt "acceptfd:") with
       | Some rest =>
           Ok match ParseUint_sv (2 ^ 32 - 1) rest with
              | Some (fd_u, []) => if INT_MAX <? fd_u then inl (txt "invalid fd") else inr (ListenFd fd_u)
              | _ => inl (txt "invalid fd")
              end
       | None =>
           Ok match local_socket_type spec with
              | Some (name, ns, available) =>
                  if available : bool then inr (ListenLocal (c_str (drop (S (length name)) spec)) ns)
                  else inl (txt "attempted to listen on unavailable socket type: " ++ spec)
              | None => inl (txt "unknown socket specification:" ++ spec)
              end
       end.

(** ** Facts *)

Lemma ParseNetAddress_port_bound s port0 a :
  0 ≤ port0 ≤ 65535 → ParseNetAddress s port0 = inr a → 0 ≤ port a ≤ 65535.
Proof.
  intros Hp0. unfold ParseNetAddress. match goal with |- context [match ?x with inl _ => _ | inr _ => _ end = _] =>
    generalize x end. intros [e|[[h ps] v6]]; [done|]. case_bool_decide; [done|].
  destruct ps as [ps|]; [|by intros [= <-]]. destruct (sscanf_d ps) as [p|]; [|done].
  destruct (Z.leb_spec p 0), (Z.ltb_spec 65535 p); cbn [orb]; try done. intros [= <-]. cbn. lia.
Qed.

Lemma parse_tcp_port_bound spec h p ser :
  parse_tcp_socket_spec spec = inr (h, p, ser) → 0 ≤ p ≤ 65535.
Proof.
  unfold parse_tcp_socket_spec. case_match; [done|]. destruct (ParseInt _ _ _) as [e|v].
  - destruct (ParseNetAddress _ _) as [|a] eqn:E; [done|]. intros [= <- <- <-].
    eapply ParseNetAddress_port_bound; [|exact E]. unfold DEFAULT_ADB_LOCAL_TRANSPORT_PORT. lia.
  - destruct (Z.ltb_spec v 0), (Z.ltb_spec 65535 v); cbn [orb]; try done. intros [= <- <- <-]. lia.
Qed.

(** A colon stops every number. *)
Lemma scan_digits_colon base s : ∀ acc v rest,
  base ≤ 16 → x3a ∈ s → scan_digits base acc s = (v, rest) → x3a ∈ rest.
Proof.
  induction s as [|b s IH]; intros acc v rest Hb Hin E; cbn in E; [by apply elem_of_nil in Hin|].
  destruct (digit_val base b) as [d|] eqn:Ed; [|by injection E as <- <-].
  apply elem_of_cons in Hin as [<- |Hin]; [|by eapply IH].
  unfold digit_val in Ed. change (isdigit x3a) with false in Ed. cbn in Ed.
  by rewrite (proj2 (Z.ltb_ge 99 base)) in Ed by lia.
Qed.

Lemma strto_colon base s neg v rest :
  base ≤ 16 → x3a ∈ s → strto base s = Some (neg, v, rest) → x3a ∈ rest.
Proof.
  unfold strto. intros Hb Hin. destruct (match s with x2d :: s' => _ | _ => _ end) as [ng s1] eqn:E1.
  assert (x3a ∈ s1) as H1.
  { destruct s as [|b t]; [by apply elem_of_nil in Hin|].
    destruct (decide (b = x2d ∨ b = x2b)) as [Hs|Hs].
    - destruct Hs as [-> | ->]; injection E1 as <- <-; by apply elem_of_cons in Hin as [?|?].
    - assert ((false, b :: t) = (ng, s1)) as [= <- <-]; [|done].
      rewrite <- E1. destruct b; try done; naive_solver. }
  clear E1. set (s2 := match s1 with x30 :: x :: d :: s' => _ | _ => _ end).
  assert (x3a ∈ s2) as H2.
  { unfold s2. destruct s1 as [|b [|x [|d t]]]; [done| | |].
    - by destruct b.
    - by destruct b.
    - destruct (decide (b = x30)) as [-> |Hb0]; [|by destruct b].
      case_match eqn:Ec; [|done]. apply andb_true_iff in Ec as [[_ Hx]%andb_true_iff _].
      apply orb_true_iff in Hx as [Hx%bool_decide_eq_true|Hx%bool_decide_eq_true]; subst;
        (apply elem_of_cons in H1 as [?|H1]; [done|]; apply elem_of_cons in H1 as [?|H1]; [done|]; exact H1). }
  clearbody s2. destruct s2 as [|d s2]; [done|]. destruct (digit_val base d); [|done].
  destruct (scan_digits base 0 (d :: s2)) as [v' r] eqn:E. intros [= <- <- <-].
  by eapply scan_digits_colon.
Qed.

Lemma drop_while_space_colon s : x3a ∈ s → x3a ∈ drop_while_space s.
Proof.
  induction s as [|b s IH]; [done|]. cbn. intros Hin. destruct (isspace b) eqn:E; [|done].
  apply IH. by apply elem_of_cons in Hin as [<- |?].
Qed.

Lemma ParseInt_colon s mn mx : x00 ∉ s → x3a ∈ s → ∃ e, ParseInt s mn mx = inl e.
Proof.
  intros H0 Hc. unfold ParseInt. rewrite c_str_id by done. set (t := drop_while_space s).
  assert (x3a ∈ t) as Ht by by apply drop_while_space_colon.
  destruct (strto (parse_base t) t) as [[[ng v] rest]|] eqn:E; [|by eexists].
  apply strto_colon in E; [| |done].
  - destruct rest as [|b rest]; [by apply elem_of_nil in E|]. case_match; by eexists.
  - unfold parse_base. repeat case_match; lia.
Qed.

(** ** Claims *)

(** [parse_tcp_socket_spec] reads back what is written: a bare port from 0 to 65535 has
    no host, [tcp:host:port] gives the host, the port and the canonical serial; and no
    specification gives a port outside 0 to 65535. *)
Theorem parse_tcp_socket_spec_correct spec h p :
  0 < p ≤ 65535 → plain_host h →
  parse_tcp_socket_spec (txt "tcp:" ++ dec p) = inr ([], p, None) ∧
  parse_tcp_socket_spec (txt "tcp:" ++ h ++ txt ":" ++ dec p) = inr (h, p, Some (h ++ txt ":" ++ dec p)) ∧
  (∀ h' p' ser, parse_tcp_socket_spec spec = inr (h', p', ser) → 0 ≤ p' ≤ 65535).
Proof.
  intros Hp Hh. split_and!; [..|apply parse_tcp_port_bound].
  - unfold parse_tcp_socket_spec. change (starts_with (txt "tcp:" ++ dec p) (txt "tcp:")) with true. cbn [negb].
    change (drop 4 (txt "tcp:" ++ dec p)) with (dec p). unfold ParseInt.
    pose proof (drop_while_space_dec p [] ltac:(lia)) as Hd. rewrite app_nil_r in Hd.
    rewrite c_str_dec, Hd, parse_base_dec by lia.
    pose proof (strto_dec p [] ltac:(lia) I) as Hs. rewrite app_nil_r in Hs. rewrite Hs.
    rewrite (proj2 (Z.ltb_ge p (- 2 ^ 63))), (proj2 (Z.ltb_ge (2 ^ 63 - 1) p)) by lia. cbn [orb].
    unfold INT_MIN, INT_MAX. rewrite (proj2 (Z.ltb_ge p (- 2 ^ 31))), (proj2 (Z.ltb_ge (2 ^ 31 - 1) p)) by lia. cbn [orb].
    by rewrite (proj2 (Z.ltb_ge p 0)), (proj2 (Z.ltb_ge 65535 p)) by lia.
  - unfold parse_tcp_socket_spec. set (a := h ++ txt ":" ++ dec p).
    change (starts_with (txt "tcp:" ++ a) (txt "tcp:")) with true. cbn [negb].
    change (drop 4 (txt "tcp:" ++ a)) with a.
    destruct (ParseInt_colon a INT_MIN INT_MAX) as [e ->].
    + unfold a. destruct Hh as (_ & _ & _ & H0). rewrite !not_elem_of_app. split_and!; [done|by vm_compute; set_solver|].
      by apply digits_no_nul, dec_digits; lia.
    + unfold a. rewrite !elem_of_app. right. left. by apply (bool_decide_unpack _).
    + pose proof (parse_plain h p [] DEFAULT_ADB_LOCAL_TRANSPORT_PORT Hh Hp) as E.
      rewrite app_nil_r in E. unfold a. rewrite E; [done|set_solver|done].
Qed.

Lemma parse_tcp_socket_spec_correct_witness :
  parse_tcp_socket_spec (txt "tcp:" ++ dec 5037) = inr ([], 5037, None).
Proof.
  apply (parse_tcp_socket_spec_correct [] (txt "h") 5037); [lia|]. split_and!; [done| | |]; vm_compute; set_solver.
Defined.
