(* ===== verification/Transport.v ===== *)
(** * Transports

    Models the [atransport] object of adb/transport.h and adb/transport.cpp, one per
    connected device, and the functions that work on one transport or on the list of
    transports: version and feature negotiation, target matching and selection, the
    allow-list of reverse forwards, the authentication key queue and header checks.
    Also the parts of adb/adb.cpp that only read or write one transport (the packet
    checksum, the connection banner) and the help texts of
    system/core/diagnose_usb/diagnose_usb.cpp.

    [atransport] keeps the fields these functions use.  The connection object is
    reduced to what a transport does to it ([Stop], [Reset]); the framing of a
    connection is modelled in TransportFd.  Pointers to transports and to listeners
    are numbers of the type [ptr]. *)

From S2P Require Import Prelude Types TransportFd Strings.

#[global] Instance byte_countable : Countable byte :=
  inj_countable Byte.to_N Byte.of_N Byte.of_to_N.

(** An object's address. *)
Abbreviation ptr := positive.

(** ** What the code asks the system *)

Class Host := {
  getgrnam_plugdev : option Z;      (** the gid of the group plugdev *)
  getgroups : option (list Z);
  getegid : Z;
  user_name : option bytes;         (** [getpwuid(getuid())->pw_name] *)
  getenv_vendor_keys : option bytes (** [getenv("ADB_VENDOR_KEYS")] *)
}.

(** A machine without the plugdev group, for evaluation. *)
Definition plain_host : Host :=
  {| getgrnam_plugdev := None; getgroups := Some []; getegid := 0;
     user_name := None; getenv_vendor_keys := None |}.

(** ** adb.h *)

Definition A_SYNC : Z := 0x434e5953.
Definition A_CNXN : Z := 0x4e584e43.
Definition A_OPEN : Z := 0x4e45504f.
Definition A_OKAY : Z := 0x59414b4f.
Definition A_CLSE : Z := 0x45534c43.
Definition A_WRTE : Z := 0x45545257.
Definition A_AUTH : Z := 0x48545541.
Definition A_STLS : Z := 0x534C5453.

Definition A_VERSION_MIN : Z := 0x01000000.
Definition A_VERSION_SKIP_CHECKSUM : Z := 0x01000001.
Definition A_VERSION : Z := 0x01000001.
Definition A_STLS_VERSION : Z := 0x01000000.
Definition MAX_PAYLOAD_V1 : Z := 4 * 1024.

Inductive TransportType := kTransportUsb | kTransportLocal | kTransportAny | kTransportHost.

Inductive ConnectionState :=
  | kCsAny | kCsConnecting | kCsAuthorizing | kCsUnauthorized | kCsNoPerm | kCsDetached
  | kCsOffline | kCsBootloader | kCsDevice | kCsHost | kCsRecovery | kCsSideload | kCsRescue.

#[global] Instance TransportType_eq_dec : EqDecision TransportType.
Proof. solve_decision. Defined.
#[global] Instance ConnectionState_eq_dec : EqDecision ConnectionState.
Proof. solve_decision. Defined.

Definition ConnectionStateIsOnline (state : ConnectionState) : bool :=
  match state with
  | kCsBootloader | kCsDevice | kCsHost | kCsRecovery | kCsSideload | kCsRescue => true
  | _ => false
  end.

(** ** diagnose_usb.cpp *)

Section diagnose_usb.
Context `{Host}.

Definition kPermissionsHelpUrl : bytes := txt "http://developer.android.com/tools/device.html".

Definition GetUdevProblem : bytes :=
  match getgrnam_plugdev, getgroups with
  | Some gid, Some groups =>
      if bool_decide (gid ∈ groups) || (getegid =? gid)
      then txt "missing udev rules? user is in the plugdev group"
      else txt "user " ++ default (txt "?") user_name ++ txt " is not in the plugdev group"
  | _, _ => []
  end.

Definition UsbNoPermissionsShortHelpText : bytes :=
  let help_text := txt "no permissions" ++
    match GetUdevProblem with [] => [] | problem => txt " (" ++ problem ++ txt ")" end in
  c_str help_text ++ txt "; see [" ++ kPermissionsHelpUrl ++ txt "]".

Definition UsbNoPermissionsLongHelpText : bytes :=
  let header := txt "insufficient permissions for device" ++
    match GetUdevProblem with [] => [] | problem => txt ": " ++ problem end in
  c_str header ++ [x0a] ++ txt "See [" ++ kPermissionsHelpUrl ++ txt "] for more information".

Definition to_string (state : ConnectionState) : bytes :=
  match state with
  | kCsOffline => txt "offline"
  | kCsBootloader => txt "bootloader"
  | kCsDevice => txt "device"
  | kCsHost => txt "host"
  | kCsRecovery => txt "recovery"
  | kCsRescue => txt "rescue"
  | kCsNoPerm => UsbNoPermissionsShortHelpText
  | kCsSideload => txt "sideload"
  | kCsUnauthorized => txt "unauthorized"
  | kCsAuthorizing => txt "authorizing"
  | kCsConnecting => txt "connecting"
  | _ => txt "unknown"
  end.
End diagnose_usb.

(** ** The transport object *)

(** What has been done to a transport's connection object. *)
Record conn_status := mkConnStatus { conn_stopped : bool; conn_reset : bool }.

(** [ConnectionWaitable]. *)
Record ConnectionWaitable := mkWaitable {
  connection_established_ : bool;
  connection_established_ready_ : bool
}.

Record atransport := mkTransport {
  id : Z;
  online : bool;
  type : TransportType;
  serial : bytes;
  product : bytes;
  model : bytes;
  device : bytes;
  devpath : bytes;
  use_tls : bool;
  kicked_ : bool;
  features_ : list bytes;
  protocol_version : Z;
  max_payload : Z;
  disconnects_ : list ptr;
  connection_state_ : ConnectionState;
  keys_ : list (option bytes);
  connection_waitable_ : ConnectionWaitable;
  connection_ : option conn_status;
  delayed_ack_ : bool;
  reverse_forwards_ : gmap bytes bytes
}.

(** Assignments to one field of a transport. *)
Definition set_online b t :=
  mkTransport (id t) b (type t) (serial t) (product t) (model t) (device t) (devpath t) (use_tls
    t) (kicked_ t) (features_ t) (protocol_version t) (max_payload t) (disconnects_ t)
    (connection_state_ t) (keys_ t) (connection_waitable_ t) (connection_ t) (delayed_ack_ t)
    (reverse_forwards_ t).
Definition set_type b t :=
  mkTransport (id t) (online t) b (serial t) (product t) (model t) (device t) (devpath t)
    (use_tls t) (kicked_ t) (features_ t) (protocol_version t) (max_payload t) (disconnects_ t)
    (connection_state_ t) (keys_ t) (connection_waitable_ t) (connection_ t) (delayed_ack_ t)
    (reverse_forwards_ t).
Definition set_serial b t :=
  mkTransport (id t) (online t) (type t) b (product t) (model t) (device t) (devpath t) (use_tls
    t) (kicked_ t) (features_ t) (protocol_version t) (max_payload t) (disconnects_ t)
    (connection_state_ t) (keys_ t) (connection_waitable_ t) (connection_ t) (delayed_ack_ t)
    (reverse_forwards_ t).
Definition set_product b t :=
  mkTransport (id t) (online t) (type t) (serial t) b (model t) (device t) (devpath t) (use_tls
    t) (kicked_ t) (features_ t) (protocol_version t) (max_payload t) (disconnects_ t)
    (connection_state_ t) (keys_ t) (connection_waitable_ t) (connection_ t) (delayed_ack_ t)
    (reverse_forwards_ t).
Definition set_model b t :=
  mkTransport (id t) (online t) (type t) (serial t) (product t) b (device t) (devpath t)
    (use_tls t) (kicked_ t) (features_ t) (protocol_version t) (max_payload t) (disconnects_ t)
    (connection_state_ t) (keys_ t) (connection_waitable_ t) (connection_ t) (delayed_ack_ t)
    (reverse_forwards_ t).
Definition set_device b t :=
  mkTransport (id t) (online t) (type t) (serial t) (product t) (model t) b (devpath t) (use_tls
    t) (kicked_ t) (features_ t) (protocol_version t) (max_payload t) (disconnects_ t)
    (connection_state_ t) (keys_ t) (connection_waitable_ t) (connection_ t) (delayed_ack_ t)
    (reverse_forwards_ t).
Definition set_devpath b t :=
  mkTransport (id t) (online t) (type t) (serial t) (product t) (model t) (device t) b (use_tls
    t) (kicked_ t) (features_ t) (protocol_version t) (max_payload t) (disconnects_ t)
    (connection_state_ t) (keys_ t) (connection_waitable_ t) (connection_ t) (delayed_ack_ t)
    (reverse_forwards_ t).
Definition set_use_tls b t :=
  mkTransport (id t) (online t) (type t) (serial t) (product t) (model t) (device t) (devpath t)
    b (kicked_ t) (features_ t) (protocol_version t) (max_payload t) (disconnects_ t)
    (connection_state_ t) (keys_ t) (connection_waitable_ t) (connection_ t) (delayed_ack_ t)
    (reverse_forwards_ t).
Definition set_kicked b t :=
  mkTransport (id t) (online t) (type t) (serial t) (product t) (model t) (device t) (devpath t)
    (use_tls t) b (features_ t) (protocol_version t) (max_payload t) (disconnects_ t)
    (connection_state_ t) (keys_ t) (connection_waitable_ t) (connection_ t) (delayed_ack_ t)
    (reverse_forwards_ t).
Definition set_features b t :=
  mkTransport (id t) (online t) (type t) (serial t) (product t) (model t) (device t) (devpath t)
    (use_tls t) (kicked_ t) b (protocol_version t) (max_payload t) (disconnects_ t)
    (connection_state_ t) (keys_ t) (connection_waitable_ t) (connection_ t) (delayed_ack_ t)
    (reverse_forwards_ t).
Definition set_version v m t :=
  mkTransport (id t) (online t) (type t) (serial t) (product t) (model t) (device t) (devpath t)
    (use_tls t) (kicked_ t) (features_ t) v m (disconnects_ t) (connection_state_ t) (keys_ t)
    (connection_waitable_ t) (connection_ t) (delayed_ack_ t) (reverse_forwards_ t).
Definition set_disconnects b t :=
  mkTransport (id t) (online t) (type t) (serial t) (product t) (model t) (device t) (devpath t)
    (use_tls t) (kicked_ t) (features_ t) (protocol_version t) (max_payload t) b
    (connection_state_ t) (keys_ t) (connection_waitable_ t) (connection_ t) (delayed_ack_ t)
    (reverse_forwards_ t).
Definition set_connection_state b t :=
  mkTransport (id t) (online t) (type t) (serial t) (product t) (model t) (device t) (devpath t)
    (use_tls t) (kicked_ t) (features_ t) (protocol_version t) (max_payload t) (disconnects_ t)
    b (keys_ t) (connection_waitable_ t) (connection_ t) (delayed_ack_ t) (reverse_forwards_ t).
Definition set_keys b t :=
  mkTransport (id t) (online t) (type t) (serial t) (product t) (model t) (device t) (devpath t)
    (use_tls t) (kicked_ t) (features_ t) (protocol_version t) (max_payload t) (disconnects_ t)
    (connection_state_ t) b (connection_waitable_ t) (connection_ t) (delayed_ack_ t)
    (reverse_forwards_ t).
Definition set_waitable b t :=
  mkTransport (id t) (online t) (type t) (serial t) (product t) (model t) (device t) (devpath t)
    (use_tls t) (kicked_ t) (features_ t) (protocol_version t) (max_payload t) (disconnects_ t)
    (connection_state_ t) (keys_ t) b (connection_ t) (delayed_ack_ t) (reverse_forwards_ t).
Definition set_connection b t :=
  mkTransport (id t) (online t) (type t) (serial t) (product t) (model t) (device t) (devpath t)
    (use_tls t) (kicked_ t) (features_ t) (protocol_version t) (max_payload t) (disconnects_ t)
    (connection_state_ t) (keys_ t) (connection_waitable_ t) b (delayed_ack_ t)
    (reverse_forwards_ t).
Definition set_delayed_ack b t :=
  mkTransport (id t) (online t) (type t) (serial t) (product t) (model t) (device t) (devpath t)
    (use_tls t) (kicked_ t) (features_ t) (protocol_version t) (max_payload t) (disconnects_ t)
    (connection_state_ t) (keys_ t) (connection_waitable_ t) (connection_ t) b
    (reverse_forwards_ t).
Definition set_reverse b t :=
  mkTransport (id t) (online t) (type t) (serial t) (product t) (model t) (device t) (devpath t)
    (use_tls t) (kicked_ t) (features_ t) (protocol_version t) (max_payload t) (disconnects_ t)
    (connection_state_ t) (keys_ t) (connection_waitable_ t) (connection_ t) (delayed_ack_ t) b.

(** The constructor, with the id drawn from [NextTransportId]. *)
Definition new_transport (next_id : Z) (state : ConnectionState) : atransport :=
  mkTransport next_id false kTransportAny [] [] [] [] [] false false []
    A_VERSION_MIN MAX_PAYLOAD [] state [] (mkWaitable false false) None false ∅.

Definition IsTcpDevice (t : atransport) : bool := bool_decide (type t = kTransportLocal).
Definition serial_name (t : atransport) : bytes :=
  match serial t with [] => txt "<unknown>" | s => s end.

(** ** Version, payload size and features *)

Definition update_version (version payload : Z) (t : atransport) : atransport :=
  set_version (Z.min version A_VERSION) (Z.min payload MAX_PAYLOAD) t.

Definition kFeatureDelayedAck : bytes := txt "delayed_ack".

(** The feature list of a host build, in the order it is sent. *)
Definition supported_features : list bytes :=
  txt <$> ["shell_v2"; "cmd"; "stat_v2"; "ls_v2"; "fixed_push_mkdir"; "apex"; "abb";
    "fixed_push_symlink_timestamp"; "abb_exec"; "remount_shell"; "track_app"; "sendrecv_v2";
    "sendrecv_v2_brotli"; "sendrecv_v2_lz4"; "sendrecv_v2_zstd"; "sendrecv_v2_dry_run_send";
    "openscreen_mdns"; "devicetracker_proto_format"; "devraw"; "app_info"; "delayed_ack"]%string.

Definition FeatureSetToString (features : list bytes) : bytes := Join features (txt ",").
Definition StringToFeatureSet (features_string : bytes) : res (list bytes) :=
  match features_string with [] => Ok [] | _ => Split features_string (txt ",") end.

Definition contains (r : list bytes) (v : bytes) : bool := bool_decide (v ∈ r).
Definition CanUseFeature (feature_set : list bytes) (feature : bytes) : bool :=
  contains feature_set feature && contains supported_features feature.
Definition has_feature (feature : bytes) (t : atransport) : bool := contains (features_ t) feature.

Definition SetFeatures (features_string : bytes) (t : atransport) : res atransport :=
  fs ← StringToFeatureSet features_string;
  Ok (set_delayed_ack (CanUseFeature fs kFeatureDelayedAck) (set_features fs t)).

(** ** Disconnect callbacks, connection, keys *)

Definition AddDisconnect (d : ptr) (t : atransport) : atransport :=
  set_disconnects (disconnects_ t ++ [d]) t.
Definition RemoveDisconnect (d : ptr) (t : atransport) : atransport :=
  set_disconnects (filter (λ x, x ≠ d) (disconnects_ t)) t.

Definition SetConnectionEstablished (success : bool) (t : atransport) : atransport :=
  if connection_established_ready_ (connection_waitable_ t) then t
  else set_waitable (mkWaitable success true) t.

(** [Stop] and [Reset] on the connection, once: [kicked_] is exchanged first. *)
Definition Kick (t : atransport) : res atransport :=
  if kicked_ t then Ok t else
  c ← deref (connection_ t);
  Ok (set_connection (Some (mkConnStatus true (conn_reset c))) (set_kicked true t)).
Definition Reset (t : atransport) : res atransport :=
  if kicked_ t then Ok t else
  c ← deref (connection_ t);
  Ok (set_connection (Some (mkConnStatus true true)) (set_kicked true t)).

(** [Key()]; a null key is both "no key" and the sentinel at the end of the queue. *)
Definition Key (t : atransport) : option bytes :=
  match keys_ t with [] => None | k :: _ => k end.

(** The known private keys, and the sentinel. *)
Definition adb_auth_get_private_keys (g_keys : list bytes) : list (option bytes) :=
  (Some <$> g_keys) ++ [None].

Definition NextKey (g_keys : list bytes) (t : atransport) : res (option bytes * atransport) :=
  t' ← match keys_ t with
       | [] =>
           let keys := adb_auth_get_private_keys g_keys in
           check (negb (bool_decide (keys = []))) ;; Ok (set_keys keys t)
       | _ :: ks => Ok (set_keys ks t)
       end;
  Ok (Key t', t').
Definition ResetKeys (t : atransport) : atransport := set_keys [] t.

(** ** Headers and the checksum *)

Definition check_header (p : apacket) (t : atransport) : bool :=
  (magic (msg p) =? Z.lxor (command (msg p)) 0xffffffff) && (data_length (msg p) <=? max_payload t).

Fixpoint checksum_loop (payload : bytes) (sum : Z) : Z :=
  match payload with
  | [] => sum
  | b :: l => checksum_loop l (u32 (sum + bval b))
  end.
(** Reads [data_length] bytes from the payload's buffer. *)
Definition calculate_apacket_checksum (p : apacket) : res Z :=
  data ← block_read (payload p) 0 (data_length (msg p));
  Ok (checksum_loop data 0).

(** The header [send_packet] completes before the packet is written. *)
Definition finish_packet (p : apacket) (t : atransport) : res apacket :=
  k ← (if A_VERSION_SKIP_CHECKSUM <=? protocol_version t then Ok 0 else calculate_apacket_checksum p);
  let m := msg p in
  Ok (mkPacket (mkMsg (command m) (arg0 m) (arg1 m) (data_length m) k
                      (Z.lxor (command m) 0xffffffff)) (payload p)).

(** ** The connection banner *)

Definition adb_device_banner : bytes := txt "host".
Definition get_connection_string : bytes :=
  let connection_properties := [txt "features=" ++ c_str (FeatureSetToString supported_features)] in
  adb_device_banner ++ txt "::" ++ c_str (Join connection_properties (txt ";")).

(** One [key=value] property of a banner. *)
Definition parse_banner_prop (prop : bytes) (t : atransport) : res atransport :=
  match prop with
  | [] => Ok t
  | _ =>
      key_value ← Split prop (txt "=");
      match key_value with
      | [key; value] =>
          if bool_decide (key = txt "ro.product.name") then Ok (set_product value t)
          else if bool_decide (key = txt "ro.product.model") then Ok (set_model value t)
          else if bool_decide (key = txt "ro.product.device") then Ok (set_device value t)
          else if bool_decide (key = txt "features") then SetFeatures value t
          else Ok t
      | _ => Ok t
      end
  end.
Fixpoint parse_banner_props (props : list bytes) (t : atransport) : res atransport :=
  match props with
  | [] => Ok t
  | prop :: props => t' ← parse_banner_prop prop t; parse_banner_props props t'
  end.

Definition banner_state (type : bytes) : ConnectionState :=
  if bool_decide (type = txt "bootloader") then kCsBootloader
  else if bool_decide (type = txt "device") then kCsDevice
  else if bool_decide (type = txt "recovery") then kCsRecovery
  else if bool_decide (type = txt "sideload") then kCsSideload
  else if bool_decide (type = txt "rescue") then kCsRescue
  else kCsHost.

(** What [parse_banner] stores in the transport, and the state it then sets. *)
Definition parse_banner (banner : bytes) (t : atransport) : res (ConnectionState * atransport) :=
  pieces ← Split banner (txt ":");
  t ← SetFeatures [] t;
  t ← match pieces with
      | _ :: _ :: props :: _ => ps ← Split props (txt ";"); parse_banner_props ps t
      | _ => Ok t
      end;
  type ← deref (head pieces);
  Ok (banner_state type, t).

(** ** Matching and selecting a transport *)

Definition isalnum (b : byte) : bool :=
  isdigit b || ((65 <=? bval b) && (bval b <=? 90)) || ((97 <=? bval b) && (bval b <=? 122)).

(** Compares [cs] with what [ptr] points to, character by character: [None] when one
    differs, the advanced pointer otherwise.  [ptr] is the rest of a NUL-terminated
    buffer, so reading at [[]] is past its end. *)
Fixpoint match_chars (cs ptr : bytes) : res (option bytes) :=
  match cs with
  | [] => Ok (Some ptr)
  | c :: cs =>
      match ptr with
      | [] => Undef
      | p :: ptr => if bool_decide (c = p) then match_chars cs ptr else Ok None
      end
  end.

Definition qual_match (to_test prefix qual : bytes) (sanitize_qual : bool) : res bool :=
  match to_test, qual with
  | [], _ => Ok (bool_decide (qual = []))
  | _, [] => Ok false
  | _, _ =>
      p1 ← match_chars prefix (to_test ++ [x00]);
      match p1 with
      | None => Ok false
      | Some ptr =>
          p2 ← match_chars ((λ ch, if sanitize_qual && negb (isalnum ch) then x5f else ch) <$> qual) ptr;
          match p2 with
          | None => Ok false
          | Some ptr => b ← deref (head ptr); Ok (bool_decide (b = x00))
          end
      end
  end.

(** The [tcp:|udp:]host[:port] rule of local transports. *)
Definition matches_local_target (target serial : bytes) : bool :=
  let c_target := c_str target in
  let local_target := if StartsWith target (txt "tcp:") || StartsWith target (txt "udp:")
                      then drop 4 c_target else c_target in
  match ParseNetAddress serial (-1) with
  | inl _ => false
  | inr a =>
      match ParseNetAddress local_target (port a) with
      | inl _ => false
      | inr b => bool_decide (host a = host b) && (port a =? port b)
      end
  end.

Definition MatchesTarget (target : bytes) (t : atransport) : res bool :=
  if negb (bool_decide (serial t = [])) &&
     (bool_decide (target = serial t) || (IsTcpDevice t && matches_local_target target (serial t)))
  then Ok true
  else if bool_decide (target = devpath t) then Ok true
  else
    b1 ← qual_match target (txt "product:") (product t) false;
    if b1 : bool then Ok true else
    b2 ← qual_match target (txt "model:") (model t) true;
    if b2 : bool then Ok true else
    qual_match target (txt "device:") (device t) false.

(** [__transport_server_one_device]. *)
Definition transport_server_owns_device (one_device : option bytes) (serial : bytes) : bool :=
  match one_device with None => true | Some d => bool_decide (serial = d) end.
Definition transport_server_owns_device_path (one_device : option bytes) (dev_path serial : bytes) : bool :=
  match one_device with
  | None => true
  | Some d => bool_decide (serial = d) || bool_decide (dev_path = d)
  end.

(** What a caller asks [acquire_one_transport] for: the first set of id, serial, type. *)
Section acquire.
Context `{Host}.
Context (ty : TransportType) (want_serial : option bytes) (transport_id : Z).

Definition acquire_no_device : bytes :=
  if negb (transport_id =? 0) then txt "no device with transport id '" ++ dec transport_id ++ txt "'"
  else match want_serial with
       | Some s => txt "device '" ++ c_str s ++ txt "' not found"
       | None =>
           match ty with
           | kTransportLocal => txt "no emulators found"
           | kTransportAny => txt "no devices/emulators found"
           | _ => txt "no devices found"
           end
       end.

(** Does [t] fit the request, and what is said when a second one does?  A request by
    serial reads the C string the caller passed. *)
Definition acquire_matches (t : atransport) : res bool :=
  match want_serial with
  | Some s => MatchesTarget (c_str s) t
  | None =>
      Ok match ty with
         | kTransportUsb => bool_decide (type t = kTransportUsb)
         | kTransportLocal => bool_decide (type t = kTransportLocal)
         | kTransportAny => true
         | kTransportHost => false
         end
  end.
Definition acquire_ambiguous : bytes :=
  match want_serial with
  | Some s => txt "more than one device with serial " ++ c_str s
  | None =>
      match ty with
      | kTransportUsb => txt "more than one USB device"
      | kTransportLocal => txt "more than one emulator"
      | _ => txt "more than one device/emulator"
      end
  end.

(** The scan of [transport_list]: the candidate, the message, whether it was ambiguous. *)
Fixpoint acquire_loop (l : list (ptr * atransport)) (result : option (ptr * atransport)) (error : bytes) :
    res (option (ptr * atransport) * bytes * bool) :=
  match l with
  | [] => Ok (result, error, false)
  | (a, t) :: l =>
      if bool_decide (connection_state_ t = kCsNoPerm)
      then acquire_loop l result UsbNoPermissionsLongHelpText
      else if negb (transport_id =? 0) then
        if id t =? transport_id then Ok (Some (a, t), error, false) else acquire_loop l result error
      else
        m ← acquire_matches t;
        if m : bool then
          match result with
          | Some _ => Ok (None, acquire_ambiguous, true)
          | None => acquire_loop l (Some (a, t)) error
          end
        else acquire_loop l result error
  end.

(** The message for a transport that is not usable yet. *)
Definition acquire_state_error (s : ConnectionState) : option bytes :=
  match s with
  | kCsConnecting => Some (txt "device still connecting")
  | kCsAuthorizing => Some (txt "device still authorizing")
  | kCsUnauthorized =>
      Some (txt "device unauthorized." ++ [x0a] ++ txt "This adb server's $ADB_VENDOR_KEYS is " ++
            default (txt "not set") getenv_vendor_keys ++ [x0a] ++
            txt "Try 'adb kill-server' if that seems wrong." ++ [x0a] ++
            txt "Otherwise check for a confirmation dialog on your device.")
  | kCsOffline => Some (txt "device offline")
  | _ => None
  end.

(** The transport, [*error_out], and [*is_ambiguous]. *)
Definition acquire_one_transport (transport_list : list (ptr * atransport)) (accept_any_state : bool) :
    res (option ptr * bytes * bool) :=
  '(result, error, amb) ← acquire_loop transport_list None acquire_no_device;
  Ok match result with
     | None => (None, error, amb)
     | Some (a, t) =>
         match (if accept_any_state then None else acquire_state_error (connection_state_ t)) with
         | Some e => (None, e, amb)
         | None => (Some a, txt "success", amb)
         end
     end.
End acquire.

(** ** The reverse-forward allow-list *)

Definition UpdateReverseConfig (service_addr : bytes) (t : atransport) : res atransport :=
  match ConsumePrefix service_addr (txt "reverse:") with
  | None => Ok t
  | Some addr =>
      match ConsumePrefix addr (txt "forward:") with
      | Some fwd =>
          let '(norebind, spec) :=
            match ConsumePrefix fwd (txt "norebind:") with Some r => (true, r) | None => (false, fwd) end in
          match find spec (txt ";") 0 with
          | None => Ok t
          | Some it =>
              let remote := take it spec in
              if norebind && bool_decide (is_Some (reverse_forwards_ t !! remote)) then Ok t
              else Ok (set_reverse (<[remote := drop (S it) spec]> (reverse_forwards_ t)) t)
          end
      | None =>
          match ConsumePrefix addr (txt "killforward:") with
          | Some rm =>
              match find rm (txt ";") 0 with
              | Some _ => Ok t
              | None => Ok (set_reverse (delete rm (reverse_forwards_ t)) t)
              end
          | None =>
              if bool_decide (addr = txt "killforward-all") then Ok (set_reverse ∅ t)
              else if bool_decide (addr = txt "list-forward") then Ok t
              else Fatal
          end
      end
  end.

Definition IsReverseConfigured (local_addr : bytes) (t : atransport) : bool :=
  existsb (λ p, bool_decide (p.2 = local_addr)) (map_to_list (reverse_forwards_ t)).

(** ** Listing *)

Inductive TrackerOutputType := SHORT_TEXT | LONG_TEXT | PROTOBUF | TEXT_PROTOBUF.

Definition sanitize (str : bytes) (alphanumeric : bool) : bytes :=
  (λ c, if (if alphanumeric then negb (isalnum c) else bool_decide (c = x0a)) then x5f else c) <$> str.

Definition append_transport_info (key value : bytes) (alphanumeric : bool) : bytes :=
  match value with [] => [] | _ => [x20] ++ key ++ sanitize value alphanumeric end.

(** The [%-22s] of a string. *)
Definition pad22 (s : bytes) : bytes := s ++ replicate (22 - length s) x20.

Definition append_transport `{Host} (t : atransport) (long_listing : bool) : bytes :=
  let serial := match serial t with [] => txt "(no serial number)" | s => s end in
  (if long_listing then
     pad22 (c_str serial) ++ [x20] ++ c_str (to_string (connection_state_ t)) ++
     append_transport_info [] (devpath t) false ++
     append_transport_info (txt "product:") (product t) false ++
     append_transport_info (txt "model:") (model t) true ++
     append_transport_info (txt "device:") (device t) false ++
     txt " transport_id:" ++ dec (id t)
   else serial ++ [x09] ++ to_string (connection_state_ t)) ++ [x0a].

Definition transportListToText `{Host} (l : list atransport) (long_listing : bool) : bytes :=
  concat ((λ t, append_transport t long_listing) <$> l).

(** [operator<] on the enumeration and on strings (bytes compared unsigned). *)
Definition type_rank (ty : TransportType) : Z :=
  match ty with kTransportUsb => 0 | kTransportLocal => 1 | kTransportAny => 2 | kTransportHost => 3 end.
Fixpoint bytes_lt (a b : bytes) : bool :=
  match a, b with
  | _, [] => false
  | [], _ => true
  | x :: a, y :: b => (bval x <? bval y) || ((bval x =? bval y) && bytes_lt a b)
  end.
Definition transport_lt (x y : atransport) : bool :=
  if bool_decide (type x = type y) then bytes_lt (serial x) (serial y)
  else type_rank (type x) <? type_rank (type y).

(** [std::list::sort], which is stable: equal elements keep their order. *)
Fixpoint insert_transport (t : atransport) (l : list atransport) : list atransport :=
  match l with
  | [] => [t]
  | u :: l' => if transport_lt u t then u :: insert_transport t l' else t :: l
  end.
Definition sort_transports (l : list atransport) : list atransport := foldr insert_transport [] l.

(** The device message a listing in a protobuf format is made of: the fields in the
    order they are set.  The speeds are those of [Connection], whose default is 0. *)
Record proto_device := mkProtoDevice {
  proto_serial : bytes; proto_usb : bool; proto_state : ConnectionState; proto_bus_address : bytes;
  proto_product : bytes; proto_model : bytes; proto_device_name : bytes;
  proto_negotiated_speed : Z; proto_max_speed : Z; proto_transport_id : Z
}.
Definition transport_to_proto (t : atransport) : proto_device :=
  mkProtoDevice (c_str (serial t)) (bool_decide (type t = kTransportUsb)) (connection_state_ t)
    (sanitize (devpath t) false) (sanitize (product t) false) (sanitize (model t) true)
    (sanitize (device t) false) 0 0 (id t).

(** The protobuf library's serialisers (binary and text) are not part of the program. *)
Class Protobuf := { proto_print : bool → list proto_device → bytes }.

Definition list_transports `{Host} `{Protobuf} (transport_list : list atransport)
    (outputType : TrackerOutputType) : bytes :=
  let sorted := sort_transports transport_list in
  match outputType with
  | SHORT_TEXT => transportListToText sorted false
  | LONG_TEXT => transportListToText sorted true
  | PROTOBUF => proto_print false (transport_to_proto <$> sorted)
  | TEXT_PROTOBUF => proto_print true (transport_to_proto <$> sorted)
  end.

Fixpoint find_transport (target : bytes) (l : list (ptr * atransport)) : option ptr :=
  match l with
  | [] => None
  | (a, t) :: l => if bool_decide (c_str target = c_str (serial t)) then Some a else find_transport target l
  end.

(** ** Facts about feature sets and banners *)

(** Text without the separators of a banner. *)
Definition plain (seps s : bytes) : Prop := Forall (λ b, b ∉ seps) s.
#[global] Instance plain_dec seps s : Decision (plain seps s).
Proof. unfold plain. apply _. Defined.

Lemma plain_app seps s t : plain seps s → plain seps t → plain seps (s ++ t).
Proof. intros. by apply Forall_app_2. Qed.
Lemma plain_sub seps seps' s : seps' ⊆ seps → plain seps s → plain seps' s.
Proof. intros Hs Hp. eapply Forall_impl; [exact Hp|]. set_solver. Qed.
Lemma plain_notin seps s d : plain seps s → d ∈ seps → d ∉ s.
Proof. unfold plain. rewrite Forall_forall. set_solver. Qed.
Lemma plain_Join seps ps sep :
  plain seps sep → Forall (plain seps) ps → plain seps (Join ps sep).
Proof.
  intros Hs Hps. destruct Hps as [|p ps Hp Hps]; [apply Forall_nil_2|]. apply plain_app; [done|].
  induction Hps as [|q qs Hq Hqs IH]; [apply Forall_nil_2|]. rewrite fmap_cons. cbn [concat].
  apply plain_app; [|exact IH]. by apply plain_app.
Qed.

(** Inclusion of concrete separator lists. *)
Ltac sub_seps := apply (bool_decide_unpack _); vm_compute; exact I.

Lemma StringToFeatureSet_ToString fs :
  Forall (λ f, x2c ∉ f) fs → fs ≠ [[]] → StringToFeatureSet (FeatureSetToString fs) = Ok fs.
Proof.
  intros Hf Hne. unfold StringToFeatureSet, FeatureSetToString. change (txt ",") with [x2c].
  destruct fs as [|f fs]; [done|]. rewrite Split_ref by done. rewrite split_ref_Join by done.
  destruct (Join (f :: fs) [x2c]) as [|b l] eqn:E; [|done].
  destruct f; [|done]. destruct fs; [done|]. by rewrite Join_cons in E.
Qed.

Lemma split_ref_sep d (s : bytes) : split_ref [d] (d :: s) = [] :: split_ref [d] s.
Proof. cbn. by rewrite bool_decide_eq_true_2 by set_solver. Qed.

Lemma split_pair d (a b : bytes) :
  plain [d] a → plain [d] b → split_ref [d] (a ++ d :: b) = [a; b].
Proof. intros. rewrite split_ref_app by (done || set_solver). by rewrite split_ref_no_delim. Qed.

(** A property of a banner is stored under its key. *)
Lemma parse_banner_prop_kv k v t :
  plain [x3d] k → plain [x3d] v →
  parse_banner_prop (k ++ x3d :: v) t =
    if bool_decide (k = txt "ro.product.name") then Ok (set_product v t)
    else if bool_decide (k = txt "ro.product.model") then Ok (set_model v t)
    else if bool_decide (k = txt "ro.product.device") then Ok (set_device v t)
    else if bool_decide (k = txt "features") then SetFeatures v t
    else Ok t.
Proof.
  intros Hk Hv. unfold parse_banner_prop. change (txt "=") with [x3d].
  rewrite Split_ref, split_pair by done. by destruct k.
Qed.

(** The banner a device sends. *)
Definition device_banner (ty : bytes) (props : list (bytes * bytes)) : bytes :=
  ty ++ txt "::" ++ Join ((λ kv, kv.1 ++ txt "=" ++ kv.2) <$> props) (txt ";").

Lemma split_device_banner ty props :
  plain (txt ":;=") ty → Forall (λ kv, plain (txt ":;=") kv.1 ∧ plain (txt ":;=") kv.2) props →
  props ≠ [] →
  split_ref [x3a] (device_banner ty props) =
    [ty; []; Join ((λ kv, kv.1 ++ txt "=" ++ kv.2) <$> props) (txt ";")] ∧
  split_ref [x3b] (Join ((λ kv, kv.1 ++ txt "=" ++ kv.2) <$> props) (txt ";")) =
    (λ kv, kv.1 ++ txt "=" ++ kv.2) <$> props.
Proof.
  intros Hty Hps Hne.
  assert (Forall (plain [x3a; x3b]) ((λ kv : bytes * bytes, kv.1 ++ txt "=" ++ kv.2) <$> props)) as Hk.
  { apply Forall_fmap. eapply Forall_impl; [exact Hps|]. intros [k v] [Hk Hv]. cbn.
    apply plain_app; [|apply (plain_app _ [x3d])];
      [by eapply plain_sub; [|exact Hk]; sub_seps|by apply (bool_decide_unpack _)|
       by eapply plain_sub; [|exact Hv]; sub_seps]. }
  split.
  - unfold device_banner. change (txt "::") with [x3a; x3a]. cbn [app].
    rewrite split_ref_app; [| |set_solver]; [|by eapply plain_sub; [|exact Hty]; sub_seps].
    rewrite split_ref_sep.
    rewrite split_ref_no_delim; [done|].
    apply plain_Join; [by apply (bool_decide_unpack _)|].
    eapply Forall_impl; [exact Hk|]. intros p Hp. by eapply plain_sub; [|exact Hp]; sub_seps.
  - apply split_ref_Join; [by destruct props|]. eapply Forall_impl; [exact Hk|].
    intros p Hp. eapply plain_notin; [exact Hp|]. set_solver.
Qed.

Lemma parse_banner_device_banner ty props t t0 :
  plain (txt ":;=") ty → Forall (λ kv, plain (txt ":;=") kv.1 ∧ plain (txt ":;=") kv.2) props →
  props ≠ [] → SetFeatures [] t = Ok t0 →
  parse_banner (device_banner ty props) t =
    t' ← parse_banner_props ((λ kv, kv.1 ++ txt "=" ++ kv.2) <$> props) t0; Ok (banner_state ty, t').
Proof.
  intros Hty Hps Hne Ht. destruct (split_device_banner ty props) as [H1 H2]; [done..|].
  unfold parse_banner. change (txt ":") with [x3a]. rewrite Split_ref, H1 by done. rok.
  rewrite Ht. rok. change (Split ?s (txt ";")) with (Split s [x3b]). rewrite Split_ref, H2 by done. rok.
  by destruct (parse_banner_props _ _).
Qed.

Lemma finish_packet_ok p t :
  packet_ok p → ∃ k, finish_packet p t =
    Ok (mkPacket (mkMsg (command (msg p)) (arg0 (msg p)) (arg1 (msg p)) (data_length (msg p)) k
                        (Z.lxor (command (msg p)) 0xffffffff)) (payload p)) ∧
    k = if A_VERSION_SKIP_CHECKSUM <=? protocol_version t then 0
        else checksum_loop (contents (payload p)) 0.
Proof.
  intros [Hb Hl]. unfold finish_packet. case_match; [by eexists|].
  unfold calculate_apacket_checksum, block_read, contents. rewrite Hl. unfold block_ok in Hb.
  destruct (data_ (payload p)) as [d|].
  - rewrite bool_decide_eq_true_2 by lia. rok. rewrite ldrop_0. by eexists.
  - destruct Hb as [_ ->]. by eexists.
Qed.

(** The sum of the bytes, without wrap-around. *)
Definition byte_sum (l : bytes) : Z := foldr (λ b a, bval b + a) 0 l.

Lemma checksum_loop_sum l : ∀ s, checksum_loop l (u32 s) = u32 (s + byte_sum l).
Proof.
  induction l as [|b l IH]; intros s; cbn; [by rewrite Z.add_0_r|].
  replace (u32 (u32 s + bval b)) with (u32 (s + bval b)).
  - rewrite IH. f_equal. unfold byte_sum. lia.
  - unfold u32. by rewrite Zplus_mod_idemp_l.
Qed.

Lemma lxor_ones_range c : 0 ≤ c < 2 ^ 32 → 0 ≤ Z.lxor c 0xffffffff < 2 ^ 32.
Proof.
  intros [Hc1 Hc2]. assert (0 ≤ Z.lxor c 0xffffffff) as H0 by (apply Z.lxor_nonneg; lia).
  split; [done|]. destruct (decide (Z.lxor c 0xffffffff = 0)) as [-> |]; [lia|].
  apply Z.log2_lt_pow2; [lia|]. eapply Z.le_lt_trans; [apply Z.log2_lxor; lia|].
  apply Z.max_lub_lt; [|done]. destruct (decide (c = 0)) as [-> |]; [done|].
  apply Z.log2_lt_pow2; lia.
Qed.

(** ** Facts about matching *)

Lemma match_chars_app cs : ∀ s, x00 ∉ cs → x00 ∉ s →
  match_chars cs (s ++ [x00]) =
    Ok (if bool_decide (take (length cs) s = cs) then Some (drop (length cs) s ++ [x00]) else None).
Proof.
  induction cs as [|c cs IH]; intros s Hc Hs; [done|]. cbn [match_chars length].
  apply not_elem_of_cons in Hc as [Hc0 Hcs].
  destruct s as [|b s]; cbn [app take drop].
  - rewrite !bool_decide_eq_false_2 by congruence. done.
  - apply not_elem_of_cons in Hs as [_ Hs]. case_bool_decide as E.
    + subst. rewrite IH by done. do 2 case_bool_decide; try done; congruence.
    + by rewrite bool_decide_eq_false_2 by congruence.
Qed.

(** On text without NULs, [qual_match] is equality with the prefixed qualifier. *)
Lemma qual_match_eq to_test prefix qual sanitize_qual :
  x00 ∉ to_test → x00 ∉ prefix → x00 ∉ qual → to_test ≠ [] → qual ≠ [] →
  qual_match to_test prefix qual sanitize_qual =
    Ok (bool_decide (to_test = prefix ++
      ((λ ch, if sanitize_qual && negb (isalnum ch) then x5f else ch) <$> qual))).
Proof.
  intros Ht Hp Hq Hne Hqe. set (q := _ <$> qual). assert (x00 ∉ q) as Hq'.
  { intros (ch & Hch & ?)%list_elem_of_fmap. destruct (sanitize_qual && negb (isalnum ch)); congruence. }
  assert (q ≠ []) as Hqn by (unfold q; by destruct qual).
  unfold qual_match. destruct to_test as [|x s] eqn:E; [done|]. destruct qual as [|y qs]; [done|].
  rewrite <- E in *. fold q. clearbody q. rewrite match_chars_app by done. rok.
  case_bool_decide as Hpre.
  - assert (x00 ∉ drop (length prefix) to_test) as Hd.
    { intros Hin. apply Ht. rewrite <- (take_drop (length prefix) to_test). set_solver. }
    rewrite match_chars_app by done. rok.
    assert (to_test = prefix ++ drop (length prefix) to_test) as Hs.
    { rewrite <- Hpre at 1. by rewrite take_drop. }
    destruct (drop (length prefix) to_test) as [|d ds] eqn:Ed; case_bool_decide as Hq2.
    + by rewrite take_nil in Hq2.
    + rewrite bool_decide_eq_false_2; [done|]. rewrite Hs. by intros <-%app_inv_head.
    + pose proof (take_drop (length q) (d :: ds)) as Htd. rewrite Hq2 in Htd.
      destruct (drop (length q) (d :: ds)) as [|z zs] eqn:Ez; cbn [app head deref]; rok.
      * rewrite bool_decide_eq_true_2 by done. rewrite bool_decide_eq_true_2; [done|].
        rewrite Hs, <- Htd. by rewrite app_nil_r.
      * rewrite bool_decide_eq_false_2 by (intros ->; apply Hd; rewrite <- Htd; set_solver).
        rewrite bool_decide_eq_false_2; [done|].
        rewrite Hs, <- Htd. intros E2%app_inv_head. rewrite <- (app_nil_r q) in E2 at 2.
        by apply app_inv_head in E2.
    + rewrite bool_decide_eq_false_2; [done|]. rewrite Hs. intros E2%app_inv_head.
      apply Hq2. rewrite E2. by rewrite firstn_all.
  - rewrite bool_decide_eq_false_2; [done|]. intros ->. apply Hpre. by rewrite take_app_length.
Qed.

(** A qualifier with an embedded NUL is compared past the end of the target. *)
Lemma qual_match_overread prefix q c rest :
  x00 ∉ prefix → x00 ∉ q → q ≠ [] →
  qual_match (prefix ++ q) prefix (q ++ [x00; c] ++ rest) false = Undef.
Proof.
  intros Hp Hq Hne. unfold qual_match. destruct (prefix ++ q) as [|x s] eqn:E.
  { by apply app_eq_nil in E as [_ ->]. }
  rewrite <- E. destruct (q ++ _) as [|y qs] eqn:Eq; [by destruct q|]. rewrite <- Eq.
  assert (∀ cs s1, match_chars cs (cs ++ s1) = Ok (Some s1)) as Hself.
  { induction cs as [|b cs IH]; intros s1; [done|]. cbn. by rewrite bool_decide_eq_true_2 by done. }
  rewrite <- app_assoc, Hself. rok. cbn [andb].
  assert (∀ l : bytes, (λ ch : byte, ch) <$> l = l) as -> by apply list_fmap_id.
  assert (∀ cs l2, match_chars (cs ++ [x00; c] ++ l2) (cs ++ [x00]) = Undef) as ->; [|done].
  induction cs as [|b cs IH]; intros l2; [done|]. cbn. rewrite bool_decide_eq_true_2 by done. apply IH.
Qed.

(** ** Facts about selection *)

Section acquire_spec.
Context `{Host}.
Implicit Types l : list (ptr * atransport).

(** The transports a request by serial or type may select. *)
Definition candidates (m : atransport → bool) l : list (ptr * atransport) :=
  filter (λ p, m p.2 = true ∧ connection_state_ p.2 ≠ kCsNoPerm) l.

Lemma acquire_loop_candidates ty s m l : ∀ result error,
  (∀ p, p ∈ l → acquire_matches ty s p.2 = Ok (m p.2)) →
  ∃ error', acquire_loop ty s 0 l result error =
    Ok match result, candidates m l with
       | Some _, [] => (result, error', false)
       | None, [] => (None, error', false)
       | None, [p] => (Some p, error', false)
       | _, _ => (None, acquire_ambiguous ty s, true)
       end.
Proof.
  induction l as [|[a t] l IH]; intros result error Hm; [exists error; by destruct result|].
  cbn [acquire_loop]. rewrite Z.eqb_refl. cbn [negb]. case_bool_decide as Hst.
  { destruct (IH result UsbNoPermissionsLongHelpText) as [e He]; [set_solver|].
    exists e. rewrite He. unfold candidates. by rewrite filter_cons_False by (cbn; intros [? ?]; congruence). }
  assert (acquire_matches ty s t = Ok (m t)) as -> by (apply (Hm (a, t)); set_solver). rok.
  destruct (m t) eqn:Et.
  - unfold candidates. rewrite filter_cons_True by done. fold (candidates m l).
    destruct result as [r|]; [by exists []|].
    destruct (IH (Some (a, t)) error) as [e He]; [set_solver|]. exists e. rewrite He.
    by destruct (candidates m l).
  - destruct (IH result error) as [e He]; [set_solver|]. exists e. rewrite He.
    unfold candidates. by rewrite filter_cons_False by (cbn; intros [? ?]; congruence).
Qed.

Lemma acquire_loop_id ty s tid l : ∀ error,
  tid ≠ 0 →
  ∃ error', acquire_loop ty s tid l None error =
    Ok (head (filter (λ p, id p.2 = tid ∧ connection_state_ p.2 ≠ kCsNoPerm) l), error', false).
Proof.
  intros error Htid. revert error. induction l as [|[a t] l IH]; intros error; [by exists error|].
  cbn [acquire_loop]. rewrite (proj2 (Z.eqb_neq tid 0) Htid). cbn [negb]. case_bool_decide as Hst.
  { rewrite filter_cons_False by (cbn; intros [? ?]; congruence). apply IH. }
  destruct (Z.eqb_spec (id t) tid).
  - rewrite filter_cons_True by done. by exists error.
  - rewrite filter_cons_False by (cbn; intros [? ?]; congruence). apply IH.
Qed.
End acquire_spec.

(** ** Facts about reverse forwards *)

Lemma IsReverseConfigured_spec a t :
  IsReverseConfigured a t = true ↔ ∃ r, reverse_forwards_ t !! r = Some a.
Proof.
  unfold IsReverseConfigured. rewrite existsb_exists. split.
  - intros ([r l] & Hin & Hl%bool_decide_eq_true_1). cbn in Hl. subst. exists r.
    by apply elem_of_map_to_list, list_elem_of_In.
  - intros [r Hr]. exists (r, a). split; [|by apply bool_decide_eq_true_2].
    by apply list_elem_of_In, elem_of_map_to_list.
Qed.

Lemma ConsumePrefix_app p s : ConsumePrefix (p ++ s) p = Some s.
Proof.
  unfold ConsumePrefix, StartsWith. rewrite take_app_length, bool_decide_eq_true_2 by done.
  by rewrite drop_app_length.
Qed.

Lemma find_char_first (s t : bytes) c : c ∉ s → find (s ++ c :: t) [c] 0 = Some (length s).
Proof.
  intros Hs. unfold find. apply find_from_first; try (rewrite ?length_app; simpl; lia).
  - unfold starts_with. rewrite drop_app_length. by apply bool_decide_eq_true_2.
  - intros j Hj. rewrite lookup_app_l by lia. intros Hl. by apply list_elem_of_lookup_2 in Hl.
Qed.

Lemma find_char_none (s : bytes) c : c ∉ s → find s [c] 0 = None.
Proof.
  intros Hs. unfold find. generalize (S (length s)), 0%nat.
  induction n as [|n IH]; intros base; [done|]. cbn [find_from]. case_bool_decide; [done|].
  destruct (starts_with _ _) eqn:E; [|apply IH].
  apply starts_with_lookup in E. by apply list_elem_of_lookup_2 in E.
Qed.

(** The four requests, on the map of a transport. *)
Lemma UpdateReverseConfig_forward remote local t :
  x3b ∉ remote → StartsWith (remote ++ x3b :: local) (txt "norebind:") = false →
  UpdateReverseConfig (txt "reverse:forward:" ++ remote ++ x3b :: local) t =
    Ok (set_reverse (<[remote := local]> (reverse_forwards_ t)) t).
Proof.
  intros Hr Hn. unfold UpdateReverseConfig.
  change (txt "reverse:forward:") with (txt "reverse:" ++ txt "forward:").
  rewrite <- app_assoc, !ConsumePrefix_app. unfold ConsumePrefix. rewrite Hn.
  change (txt ";") with [x3b]. rewrite find_char_first by done. cbn [andb].
  rewrite take_app_length. do 4 f_equal. change (S (length remote)) with (1 + length remote)%nat.
  rewrite Nat.add_comm, <- drop_drop, drop_app_length. done.
Qed.

Lemma UpdateReverseConfig_norebind remote local t :
  x3b ∉ remote →
  UpdateReverseConfig (txt "reverse:forward:norebind:" ++ remote ++ x3b :: local) t =
    Ok (match reverse_forwards_ t !! remote with
        | Some _ => t
        | None => set_reverse (<[remote := local]> (reverse_forwards_ t)) t
        end).
Proof.
  intros Hr. unfold UpdateReverseConfig.
  change (txt "reverse:forward:norebind:") with (txt "reverse:" ++ txt "forward:" ++ txt "norebind:").
  rewrite <- !app_assoc, !ConsumePrefix_app.
  change (txt ";") with [x3b]. rewrite find_char_first by done. cbn [andb].
  rewrite take_app_length. destruct (reverse_forwards_ t !! remote) eqn:E.
  - by rewrite bool_decide_eq_true_2 by done.
  - rewrite bool_decide_eq_false_2 by (intros [? ?]; congruence). do 4 f_equal.
    change (S (length remote)) with (1 + length remote)%nat.
    rewrite Nat.add_comm, <- drop_drop, drop_app_length. done.
Qed.

Lemma UpdateReverseConfig_kill remote t :
  x3b ∉ remote →
  UpdateReverseConfig (txt "reverse:killforward:" ++ remote) t =
    Ok (set_reverse (delete remote (reverse_forwards_ t)) t).
Proof.
  intros Hr. unfold UpdateReverseConfig.
  change (txt "reverse:killforward:") with (txt "reverse:" ++ txt "killforward:").
  rewrite <- app_assoc, ConsumePrefix_app.
  change (ConsumePrefix (txt "killforward:" ++ remote) (txt "forward:")) with (@None bytes).
  rewrite ConsumePrefix_app. change (txt ";") with [x3b]. by rewrite find_char_none.
Qed.

(** What a sequence of requests leaves in the allow-list. *)
Inductive reverse_request :=
  | RevForward (remote local : bytes)
  | RevForwardNoRebind (remote local : bytes)
  | RevKill (remote : bytes)
  | RevKillAll
  | RevList.

(** The text a client sends for a request. *)
Definition reverse_text (r : reverse_request) : bytes :=
  match r with
  | RevForward remote local => txt "reverse:forward:" ++ remote ++ x3b :: local
  | RevForwardNoRebind remote local => txt "reverse:forward:norebind:" ++ remote ++ x3b :: local
  | RevKill remote => txt "reverse:killforward:" ++ remote
  | RevKillAll => txt "reverse:killforward-all"
  | RevList => txt "reverse:list-forward"
  end.

(** What the device does with it, as a map from its addresses to the host's. *)
Definition reverse_effect (r : reverse_request) (m : gmap bytes bytes) : gmap bytes bytes :=
  match r with
  | RevForward remote local => <[remote := local]> m
  | RevForwardNoRebind remote local => match m !! remote with Some _ => m | None => <[remote := local]> m end
  | RevKill remote => delete remote m
  | RevKillAll => ∅
  | RevList => m
  end.

(** A device address has no [;], and does not look like the [norebind:] flag. *)
Definition reverse_request_ok (r : reverse_request) : Prop :=
  match r with
  | RevForward remote local => (x3b ∉ remote) ∧ StartsWith (remote ++ (x3b :: local)) (txt "norebind:") = false
  | RevForwardNoRebind remote _ | RevKill remote => x3b ∉ remote
  | _ => True
  end.

Fixpoint UpdateReverseConfigs (rs : list reverse_request) (t : atransport) : res atransport :=
  match rs with
  | [] => Ok t
  | r :: rs => t' ← UpdateReverseConfig (reverse_text r) t; UpdateReverseConfigs rs t'
  end.

Lemma UpdateReverseConfig_effect r t :
  reverse_request_ok r →
  ∃ t', UpdateReverseConfig (reverse_text r) t = Ok t' ∧
    reverse_forwards_ t' = reverse_effect r (reverse_forwards_ t).
Proof.
  destruct r as [remote local|remote local|remote| |]; cbn [reverse_text reverse_effect reverse_request_ok].
  - intros [? ?]. rewrite UpdateReverseConfig_forward by done. by eexists.
  - intros ?. rewrite UpdateReverseConfig_norebind by done.
    destruct (reverse_forwards_ t !! remote); by eexists.
  - intros ?. rewrite UpdateReverseConfig_kill by done. by eexists.
  - intros _. by eexists.
  - intros _. by eexists.
Qed.

Lemma UpdateReverseConfigs_effect rs : ∀ t,
  Forall reverse_request_ok rs →
  ∃ t', UpdateReverseConfigs rs t = Ok t' ∧
    reverse_forwards_ t' = foldl (λ m r, reverse_effect r m) (reverse_forwards_ t) rs.
Proof.
  induction rs as [|r rs IH]; intros t Hrs; [by exists t|]. apply Forall_cons in Hrs as [Hr Hrs].
  destruct (UpdateReverseConfig_effect r t Hr) as (t1 & E1 & F1).
  destruct (IH t1 Hrs) as (t2 & E2 & F2). exists t2. cbn [UpdateReverseConfigs foldl].
  rewrite E1. rok. by rewrite E2, F2, F1.
Qed.

(** ** Claims *)

(** A device's banner is read back: from [type::ro.product.name=n;ro.product.model=m;
    ro.product.device=d;features=f1,f2,...] (with no separator inside the parts) the
    transport takes exactly these values and features, [delayed_ack_] is set iff both ends
    support it, and the new state is the one the type names.  In particular the banner this
    program sends announces exactly [supported_features]. *)
Theorem parse_banner_correct ty n m d fs t :
  plain (txt ":;=") ty → plain (txt ":;=") n → plain (txt ":;=") m → plain (txt ":;=") d →
  Forall (plain (txt ":;=,")) fs → fs ≠ [[]] →
  parse_banner (device_banner ty [(txt "ro.product.name", n); (txt "ro.product.model", m);
      (txt "ro.product.device", d); (txt "features", FeatureSetToString fs)]) t =
    Ok (banner_state ty,
        set_delayed_ack (CanUseFeature fs kFeatureDelayedAck) (set_features fs
          (set_device d (set_model m (set_product n t))))) ∧
  parse_banner get_connection_string t =
    Ok (kCsHost, set_delayed_ack true (set_features supported_features t)).
Proof.
  intros Hty Hn Hm Hd Hfs Hne. split.
  - assert (plain (txt ":;=") (FeatureSetToString fs)) as Hf.
    { apply plain_Join; [by apply (bool_decide_unpack _)|].
      eapply Forall_impl; [exact Hfs|]. intros f Hf. by eapply plain_sub; [|exact Hf]; sub_seps. }
    assert (∀ s, plain (txt ":;=") s → plain [x3d] s) as Hsub.
    { intros s Hs. by eapply plain_sub; [|exact Hs]; sub_seps. }
    erewrite parse_banner_device_banner; [|done| |done|reflexivity].
    2:{ repeat apply Forall_cons_2; try apply Forall_nil_2; split; try done;
        by apply (bool_decide_unpack _). }
    rewrite !fmap_cons, fmap_nil. cbn [fst snd]. change (txt "=") with [x3d]. cbn [parse_banner_props app].
    do 4 (rewrite parse_banner_prop_kv; [|by apply (bool_decide_unpack _)|by apply Hsub];
      repeat (match goal with |- context [bool_decide (txt ?a = txt ?b)] =>
        first [rewrite (bool_decide_eq_true_2 (txt a = txt b)) by done
              |rewrite (bool_decide_eq_false_2 (txt a = txt b)) by done] end; rok)).
    unfold SetFeatures. rewrite StringToFeatureSet_ToString; [done| |done].
    eapply Forall_impl; [exact Hfs|]. intros f ?. eapply plain_notin; [done|]. by apply (bool_decide_unpack _).
  - vm_compute. by destruct t.
Qed.

(** The header [send_packet] writes is the one a receiver accepts: the magic matches,
    so [check_header] only compares the length with the receiver's limit (at most
    [MAX_PAYLOAD] whatever the other side announced); the checksum is the byte sum
    modulo 2^32 for the old protocol and 0 from [A_VERSION_SKIP_CHECKSUM] on; and every
    field stays a 32-bit number. *)
Theorem finish_packet_accepted p t r version limit :
  packet_ok p → msg_range (msg p) →
  ∃ p', finish_packet p t = Ok p' ∧ payload p' = payload p ∧ data_length (msg p') = data_length (msg p) ∧
    msg_range (msg p') ∧
    data_check (msg p') = (if A_VERSION_SKIP_CHECKSUM <=? protocol_version t then 0
                           else u32 (byte_sum (contents (payload p)))) ∧
    check_header p' r = (data_length (msg p) <=? max_payload r) ∧
    (check_header p' (update_version version limit r) = true → data_length (msg p) ≤ MAX_PAYLOAD).
Proof.
  intros Hp (Hc & H0 & H1 & Hl & Hk & Hg). destruct (finish_packet_ok p t Hp) as (k & E & Ek).
  assert (k = if A_VERSION_SKIP_CHECKSUM <=? protocol_version t then 0
              else u32 (byte_sum (contents (payload p)))) as Hke.
  { rewrite Ek. case_match; [done|]. apply (checksum_loop_sum _ 0). }
  eexists. split; [exact E|]. cbn [msg payload data_length command arg0 arg1 data_check magic].
  split_and!; try done.
  - repeat (split; [done|]). cbn [data_check magic]. split; [|by apply lxor_ones_range].
    rewrite Hke. case_match; [lia|]. apply u32_range.
  - unfold check_header. cbn [msg magic command data_length]. by rewrite Z.eqb_refl.
  - unfold check_header, update_version, set_version. cbn [msg magic command data_length max_payload].
    rewrite Z.eqb_refl, andb_true_l, Z.leb_le. lia.
Qed.

(** [acquire_one_transport] selects exactly when the choice is unique.  By serial or
    type: no match gives nothing, one match is returned if its state is usable (with the
    state's message otherwise), several matches give the ambiguity message and flag;
    transports without permission never count.  By id: the first transport with that id. *)
Theorem acquire_one_transport_spec `{Host} ty s m l any :
  (∀ p, p ∈ l → acquire_matches ty s p.2 = Ok (m p.2)) →
  (∃ error, acquire_one_transport ty s 0 l any =
    Ok match candidates m l with
       | [] => (None, error, false)
       | [(a, t)] =>
           match (if any then None else acquire_state_error (connection_state_ t)) with
           | Some e => (None, e, false)
           | None => (Some a, txt "success", false)
           end
       | _ => (None, acquire_ambiguous ty s, true)
       end) ∧
  (∀ tid, tid ≠ 0 → ∃ error, acquire_one_transport ty s tid l true =
    Ok match head (filter (λ p, id p.2 = tid ∧ connection_state_ p.2 ≠ kCsNoPerm) l) with
       | Some (a, _) => (Some a, txt "success", false)
       | None => (None, error, false)
       end).
Proof.
  intros Hm. split.
  - destruct (acquire_loop_candidates ty s m l None (acquire_no_device ty s 0) Hm) as [e He].
    exists e. unfold acquire_one_transport. rewrite He.
    destruct (candidates m l) as [|[a t] [|]]; [done| |done]. rok. by repeat case_match.
  - intros tid Htid. destruct (acquire_loop_id ty s tid l (acquire_no_device ty s tid) Htid) as [e He].
    exists e. unfold acquire_one_transport. rewrite He. rok. by destruct (head _) as [[a t]|].
Qed.

(** Matching a qualifier ([product:], [model:], [device:]) is equality of the target with
    the prefixed value when neither contains a NUL; but a value with an embedded NUL, which
    a device may put in its banner, makes the comparison read past the end of the target. *)
Theorem qual_match_exact_or_overread to_test prefix qual sanitize_qual c rest :
  x00 ∉ prefix → x00 ∉ qual → qual ≠ [] → x00 ∉ to_test → to_test ≠ [] →
  qual_match to_test prefix qual sanitize_qual =
    Ok (bool_decide (to_test = prefix ++
      ((λ ch, if sanitize_qual && negb (isalnum ch) then x5f else ch) <$> qual))) ∧
  qual_match (prefix ++ qual) prefix (qual ++ [x00; c] ++ rest) false = Undef.
Proof. intros. split; [by apply qual_match_eq|by apply qual_match_overread]. Qed.

(** C37. The allow-list follows the requests a client sends: after any sequence of reverse
    requests, a local address is accepted from the device iff the device, applying the same
    requests to its table, maps some address to it.  Any other [reverse:] request aborts
    the server. *)
Theorem reverse_allow_list_refines rs t a junk :
  Forall reverse_request_ok rs →
  (∃ t', UpdateReverseConfigs rs t = Ok t' ∧
    (IsReverseConfigured a t' = true ↔
     ∃ r, foldl (λ m r, reverse_effect r m) (reverse_forwards_ t) rs !! r = Some a)) ∧
  UpdateReverseConfig (txt "reverse:x" ++ junk) t = Fatal.
Proof.
  intros Hrs. split; [|done]. destruct (UpdateReverseConfigs_effect rs t Hrs) as (t' & E & F).
  exists t'. split; [done|]. rewrite IsReverseConfigured_spec. by rewrite F.
Qed.

(** ** Witnesses *)

Lemma parse_banner_correct_witness :
  parse_banner (txt "device::ro.product.name=oriole;ro.product.model=Pixel_6;ro.product.device=oriole;features=shell_v2,delayed_ack")
    (new_transport 1 kCsOffline) =
  Ok (kCsDevice, set_delayed_ack true (set_features [txt "shell_v2"; txt "delayed_ack"]
    (set_device (txt "oriole") (set_model (txt "Pixel_6") (set_product (txt "oriole")
      (new_transport 1 kCsOffline)))))).
Proof.
  refine (proj1 (parse_banner_correct (txt "device") (txt "oriole") (txt "Pixel_6") (txt "oriole")
    [txt "shell_v2"; txt "delayed_ack"] _ _ _ _ _ _ _)); by apply (bool_decide_unpack _).
Defined.

(** A packet, as one side prepares it. *)
Definition sample_packet : apacket := mkPacket (mkMsg A_WRTE 1 2 3 0 0) (mkBlock (Some (txt "abc")) 3 3).

Lemma finish_packet_accepted_witness :
  ∃ p', finish_packet sample_packet (new_transport 1 kCsOffline) = Ok p' ∧
    data_check (msg p') = 294 ∧ check_header p' (new_transport 2 kCsOffline) = true.
Proof.
  destruct (finish_packet_accepted sample_packet (new_transport 1 kCsOffline) (new_transport 2 kCsOffline)
    A_VERSION MAX_PAYLOAD) as (p' & E & _ & _ & _ & Hk & Hc & _); [split; [split; [reflexivity|cbn; lia]|reflexivity]| |].
  - repeat split; cbn; unfold A_WRTE; lia.
  - exists p'. split; [exact E|]. split; [exact Hk|exact Hc].
Defined.

Lemma acquire_one_transport_spec_witness :
  let a := set_serial (txt "a") (set_connection_state kCsDevice (new_transport 1 kCsOffline)) in
  let b := set_serial (txt "b") (set_connection_state kCsDevice (new_transport 2 kCsOffline)) in
  ∃ error, @acquire_one_transport plain_host kTransportAny (Some (txt "b")) 0 [(1%positive, a); (2%positive, b)] false =
    Ok (Some 2%positive, error, false).
Proof.
  intros a b.
  destruct (proj1 (@acquire_one_transport_spec plain_host kTransportAny (Some (txt "b"))
    (λ t, bool_decide (serial t = txt "b")) [(1%positive, a); (2%positive, b)] false
    ltac:(intros p Hp; apply elem_of_cons in Hp as [-> | Hp]; [reflexivity|];
          apply elem_of_cons in Hp as [-> | Hp]; [reflexivity|]; by apply not_elem_of_nil in Hp))) as [e He].
  exists (txt "success"). rewrite He. reflexivity.
Defined.

Lemma qual_match_exact_or_overread_witness :
  qual_match (txt "product:a") (txt "product:") (txt "a") false = Ok true ∧
  qual_match (txt "product:a") (txt "product:") (txt "a" ++ [x00; x62] ++ []) false = Undef.
Proof.
  destruct (qual_match_exact_or_overread (txt "product:a") (txt "product:") (txt "a") false x62 [])
    as [E1 E2]; try (by apply (bool_decide_unpack _)).
  split; [rewrite E1; reflexivity|exact E2].
Defined.

Lemma reverse_allow_list_refines_witness :
  ∃ t', UpdateReverseConfigs [RevForward (txt "tcp:80") (txt "tcp:8080")] (new_transport 1 kCsDevice) = Ok t' ∧
    IsReverseConfigured (txt "tcp:8080") t' = true.
Proof.
  destruct (proj1 (reverse_allow_list_refines [RevForward (txt "tcp:80") (txt "tcp:8080")]
    (new_transport 1 kCsDevice) (txt "tcp:8080") []
    ltac:(repeat constructor; by apply (bool_decide_unpack _)))) as (t' & E & H).
  exists t'. split; [exact E|]. apply H. exists (txt "tcp:80"). reflexivity.
Defined.
