(* ===== verification/Reconnect.v ===== *)
(** * Socket transports: registration, loss and reconnection

    Models the life of the transports of network devices and emulators in adb/transport.cpp, for
    all of which [IsTcpDevice] holds:
    [register_socket_transport] on a client's thread, [fdevent_register_transport],
    [transport_destroy] and [fdevent_unregister_transport] on the thread of the event loop
    (the looper), the thread of [ReconnectHandler], and [kick_transport] from anywhere;
    and what [connect_device] and a device of libadb make of the outcome.

    A step is one critical section, or the code between two.  [run_queue] holds the functions
    passed to [fdevent_run_on_looper] (Fdevent.v shows that each is run once and in order).  A
    connection is a [BlockingConnectionAdapter], of which BlockingInv.v shows what is used here:
    [Stop] before [Start] does nothing, and a started connection calls [HandleError] once.
    Times are nanoseconds of the steady clock; a transport is its address.

    [tracked] and [tried] are histories: the transports given to the handler and the calls of
    [Reconnect]; [forgotten] are those given to the handler after it was stopped. *)

From S2P Require Import Prelude Strings.

(** The connection of a transport: not started, started, told to stop, and with its error
    reported. *)
Inductive conn_state := Fresh | Up | Closing | Down.

Record rtransport := mkTransport {
  serial : bytes;
  emulator : bool;
  kicked : bool;
  rconn : conn_state
}.
Definition set_rconn c r := mkTransport (serial r) (emulator r) (kicked r) c.

(** [Stop] of the connection. *)
Definition stop_conn (c : conn_state) : conn_state := match c with Up => Closing | c => c end.

(** [atransport::Kick], and [Reset]. *)
Definition Kick (r : rtransport) : rtransport :=
  if kicked r then r else mkTransport (serial r) (emulator r) true (stop_conn (rconn r)).

(** ** The queue of attempts *)

Record ReconnectAttempt := mkAttempt { transport : nat; reconnect_time : Z; attempts_left : Z }.

Definition attempt_lt (a b : ReconnectAttempt) : bool :=
  if reconnect_time a =? reconnect_time b then (transport a <? transport b)%nat
  else reconnect_time a <? reconnect_time b.

Definition kDefaultTimeout : Z := 3000000000.
Definition kMaxAttempts : Z := 20.
(** The time that TrackTransport gives adbd to get ready. *)
Definition track_delay : Z := 250000000.

(** [std::set::emplace]. *)
Fixpoint emplace (a : ReconnectAttempt) (q : list ReconnectAttempt) : list ReconnectAttempt :=
  match q with
  | [] => [a]
  | b :: q' => if attempt_lt a b then a :: q else if attempt_lt b a then b :: emplace a q' else q
  end.

(** ** The state *)

Inductive task := TRegister (t : nat) | TUnregister (t : nat) | TError (t : nat).
Definition task_of (k : task) : nat := match k with TRegister t | TUnregister t | TError t => t end.

(** The handler's thread: not there; before the wait; asleep, for ever or until a time;
    woken; in [Reconnect]; with the answers of it. *)
Inductive hpc :=
  | HNone
  | HTop
  | HWait (until : option Z)
  | HAwake
  | HTry (a : ReconnectAttempt)
  | HRetry (a : ReconnectAttempt)
  | HGiveUp (t : nat)
  | HRegister (t : nat)
  | HExited.

Inductive lpc := LIdle | LTrackNotify | LStopNotify | LStopJoin | LStopDrain | LKickAll.

Inductive cpc := CIdle | CPush (t : nat) | CWait (t : nat) (s : bytes) | CNotify.

Inductive answer := Registered | Failed | EALREADY | ETIMEDOUT | EPERM.

(** Who ends the process: the use of a freed transport by a client that waited for it, a
    caller that starts the handler twice or stops it before the start, or anything else. *)
Inductive culprit := by_waiter | by_caller | by_server.

Record sys := mkSys {
  transports : gmap nat rtransport;
  next_ptr : nat;
  waitables : gmap nat bool;
  transport_list : list nat;
  pending_list : list nat;
  run_queue : list task;
  running : bool;
  handler : hpc;
  queue : list ReconnectAttempt;
  looper : lpc;
  clients : gmap nat cpc;
  clock : Z;
  crash : option culprit;
  answers : list (bytes * answer);
  tracked : list nat;
  tried : list nat;
  forgotten : list nat
}.

Definition set_transports v st :=
  mkSys v (next_ptr st) (waitables st) (transport_list st) (pending_list st) (run_queue st) (running st) (handler st)
    (queue st) (looper st) (clients st) (clock st) (crash st) (answers st) (tracked st) (tried st) (forgotten st).
Definition set_waitables v st :=
  mkSys (transports st) (next_ptr st) v (transport_list st) (pending_list st) (run_queue st) (running st) (handler st)
    (queue st) (looper st) (clients st) (clock st) (crash st) (answers st) (tracked st) (tried st) (forgotten st).
Definition set_lists v v' st :=
  mkSys (transports st) (next_ptr st) (waitables st) v v' (run_queue st) (running st) (handler st)
    (queue st) (looper st) (clients st) (clock st) (crash st) (answers st) (tracked st) (tried st) (forgotten st).
Definition set_run_queue v st :=
  mkSys (transports st) (next_ptr st) (waitables st) (transport_list st) (pending_list st) v (running st) (handler st)
    (queue st) (looper st) (clients st) (clock st) (crash st) (answers st) (tracked st) (tried st) (forgotten st).
Definition set_running v st :=
  mkSys (transports st) (next_ptr st) (waitables st) (transport_list st) (pending_list st) (run_queue st) v (handler st)
    (queue st) (looper st) (clients st) (clock st) (crash st) (answers st) (tracked st) (tried st) (forgotten st).
Definition set_handler v st :=
  mkSys (transports st) (next_ptr st) (waitables st) (transport_list st) (pending_list st) (run_queue st) (running st) v
    (queue st) (looper st) (clients st) (clock st) (crash st) (answers st) (tracked st) (tried st) (forgotten st).
Definition set_queue v st :=
  mkSys (transports st) (next_ptr st) (waitables st) (transport_list st) (pending_list st) (run_queue st) (running st)
    (handler st) v (looper st) (clients st) (clock st) (crash st) (answers st) (tracked st) (tried st) (forgotten st).
Definition set_looper v st :=
  mkSys (transports st) (next_ptr st) (waitables st) (transport_list st) (pending_list st) (run_queue st) (running st)
    (handler st) (queue st) v (clients st) (clock st) (crash st) (answers st) (tracked st) (tried st) (forgotten st).
Definition set_client c v st :=
  mkSys (transports st) (next_ptr st) (waitables st) (transport_list st) (pending_list st) (run_queue st) (running st)
    (handler st) (queue st) (looper st) (<[c := v]> (clients st)) (clock st) (crash st) (answers st) (tracked st)
    (tried st) (forgotten st).
Definition set_clock v st :=
  mkSys (transports st) (next_ptr st) (waitables st) (transport_list st) (pending_list st) (run_queue st) (running st)
    (handler st) (queue st) (looper st) (clients st) v (crash st) (answers st) (tracked st) (tried st) (forgotten st).
Definition crashed v st :=
  mkSys (transports st) (next_ptr st) (waitables st) (transport_list st) (pending_list st) (run_queue st) (running st)
    (handler st) (queue st) (looper st) (clients st) (clock st) (Some v) (answers st) (tracked st) (tried st) (forgotten st).
Definition answered s v st :=
  mkSys (transports st) (next_ptr st) (waitables st) (transport_list st) (pending_list st) (run_queue st) (running st)
    (handler st) (queue st) (looper st) (clients st) (clock st) (crash st) (answers st ++ [(s, v)]) (tracked st)
    (tried st) (forgotten st).
Definition set_history v1 v2 v3 st :=
  mkSys (transports st) (next_ptr st) (waitables st) (transport_list st) (pending_list st) (run_queue st) (running st)
    (handler st) (queue st) (looper st) (clients st) (clock st) (crash st) (answers st) v1 v2 v3.

(** The transport behind a pointer that the server uses. *)
Definition look (t : nat) (st : sys) (f : rtransport → sys) : sys :=
  match transports st !! t with Some r => f r | None => crashed by_server st end.

Definition update (t : nat) (r : rtransport) (st : sys) : sys := set_transports (<[t := r]> (transports st)) st.
(** [fdevent_run_on_looper]. *)
Definition push (k : task) (st : sys) : sys := set_run_queue (run_queue st ++ [k]) st.
(** [reconnect_cv_.notify_one]. *)
Definition notify (st : sys) : sys :=
  set_handler (match handler st with HWait _ => HAwake | h => h end) st.

(** [ConnectionWaitable::SetConnectionEstablished]: only the first call counts. *)
Definition SetConnectionEstablished (t : nat) (success : bool) (st : sys) : sys :=
  match waitables st !! t with
  | Some _ => st
  | None => set_waitables (<[t := success]> (waitables st)) st
  end.

(** ** The looper *)

(** Start of the connection and the move between the lists; starting a connection twice is
    fatal. *)
Definition fdevent_register_transport (t : nat) (st : sys) : sys :=
  look t st (λ r,
    match rconn r with
    | Fresh =>
        let st := update t (set_rconn Up r) st in
        if bool_decide (t ∈ pending_list st)
        then set_lists (t :: transport_list st) (filter (λ x, x ≠ t) (pending_list st)) st
        else st
    | _ => crashed by_server st
    end).

Definition fdevent_unregister_transport (t : nat) (st : sys) : sys :=
  look t st (λ _,
    let st := set_lists (filter (λ x, x ≠ t) (transport_list st)) (pending_list st) st in
    let st := SetConnectionEstablished t false st in
    set_transports (delete t (transports st)) st).

(** [ReconnectHandler::TrackTransport], up to the notification. *)
Definition TrackTransport (t : nat) (st : sys) : sys :=
  if running st then
    set_looper LTrackNotify
      (set_history (tracked st ++ [t]) (tried st) (forgotten st)
        (set_queue (emplace (mkAttempt t (clock st + track_delay) kMaxAttempts) (queue st)) st))
  else set_history (tracked st) (tried st) (forgotten st ++ [t]) st.

(** [transport_destroy], after [handle_offline] in [HandleError]. *)
Definition transport_destroy (t : nat) (st : sys) : sys :=
  look t st (λ r,
    let st := update t (set_rconn (stop_conn (rconn r)) r) st in
    if negb (kicked r) then TrackTransport t st else push (TUnregister t) st).

Definition run_task (st : sys) : option sys :=
  match run_queue st with
  | [] => None
  | k :: q =>
      let st := set_run_queue q st in
      Some (match k with
            | TRegister t => fdevent_register_transport t st
            | TUnregister t => fdevent_unregister_transport t st
            | TError t => transport_destroy t st
            end)
  end.

(** [ReconnectHandler::Start]: assigning to a joinable thread ends the process. *)
Definition Start (st : sys) : sys :=
  match handler st with HNone => set_handler HTop st | _ => crashed by_caller st end.

(** A transport of the list is kicked. *)
Definition kick_in_list (t : nat) (st : sys) : sys :=
  if bool_decide (t ∈ transport_list st) then look t st (λ r, update t (Kick r) st) else st.

Fixpoint kick_all (l : list nat) (st : sys) : sys :=
  match l with
  | [] => st
  | t :: l => kick_all l (look t st (λ r, update t (Kick r) st))
  end.

(** The steps of [Stop], and the rest of [kick_all_transports]. *)
Definition looper_go (st : sys) : option sys :=
  match looper st with
  | LIdle => None
  | LTrackNotify => Some (set_looper LIdle (notify st))
  | LStopNotify => Some (set_looper LStopJoin (notify st))
  | LStopJoin =>
      match handler st with
      | HExited => Some (set_looper LStopDrain (set_handler HNone st))
      | HNone => Some (crashed by_caller st)
      | _ => None
      end
  | LStopDrain =>
      Some (match queue st with
            | a :: q => push (TUnregister (transport a)) (set_queue q st)
            | [] => set_looper LKickAll st
            end)
  | LKickAll => Some (set_looper LIdle (kick_all (transport_list st) st))
  end.

(** ** The handler *)

(** The scan for kicked transports: those to remove and those that stay. *)
Fixpoint scan (m : gmap nat rtransport) (q : list ReconnectAttempt) : option (list nat * list ReconnectAttempt) :=
  match q with
  | [] => Some ([], [])
  | a :: q =>
      r ← m !! transport a;
      '(gone, kept) ← scan m q;
      Some (if kicked r then (transport a :: gone, kept) else (gone, a :: kept))
  end.

(** The critical section after the wait. *)
Definition handler_awake (st : sys) : sys :=
  if negb (running st) then set_handler HExited st else
  match scan (transports st) (queue st) with
  | None => crashed by_server st
  | Some (gone, kept) =>
      let st := set_run_queue (run_queue st ++ (TUnregister <$> gone)) (set_queue kept st) in
      match kept with
      | [] => set_handler HTop st
      | a :: q =>
          if clock st <? reconnect_time a then set_handler HTop st
          else set_handler (HTry a) (set_history (tracked st) (tried st ++ [transport a]) (forgotten st) (set_queue q st))
      end
  end.

Inductive ReconnectResult := Retry | Success | Abort.

(** The result of [Reconnect]; when it succeeds, the transport has a new connection. *)
Definition reconnected (r : ReconnectResult) (a : ReconnectAttempt) (st : sys) : sys :=
  match r with
  | Retry => set_handler (if attempts_left a =? 0 then HGiveUp (transport a) else HRetry a) st
  | Success =>
      look (transport a) st (λ x, set_handler (HRegister (transport a)) (update (transport a) (set_rconn Fresh x) st))
  | Abort => set_handler (HGiveUp (transport a)) st
  end.

Definition handler_go (st : sys) : option sys :=
  match handler st with
  | HTop => Some (set_handler (HWait (reconnect_time <$> head (queue st))) st)
  | HAwake => Some (handler_awake st)
  | HRetry a =>
      Some (set_handler HTop
              (set_queue (emplace (mkAttempt (transport a) (clock st + kDefaultTimeout) (attempts_left a - 1)) (queue st)) st))
  | HGiveUp t => Some (set_handler HTop (push (TUnregister t) st))
  | HRegister t => Some (set_handler HTop (push (TRegister t) st))
  | HNone | HWait _ | HTry _ | HExited => None
  end.

(** ** Clients *)

Definition has_serial (s : bytes) (st : sys) (t : nat) : bool :=
  match transports st !! t with Some r => bool_decide (serial r = s) | None => false end.

(** [register_socket_transport] up to [register_transport]: [init] is whether
    [init_socket_transport] succeeds. *)
Definition register_socket_transport (c : nat) (s : bytes) (local init : bool) (st : sys) : sys :=
  if negb init then answered s Failed st else
  if existsb (has_serial s st) (pending_list st ++ transport_list st) then answered s EALREADY st else
  let t := next_ptr st in
  mkSys (<[t := mkTransport s local false Fresh]> (transports st)) (S t) (waitables st) (transport_list st)
    (t :: pending_list st) (run_queue st) (running st) (handler st) (queue st) (looper st) (<[c := CPush t]> (clients st))
    (clock st) (crash st) (answers st) (tracked st) (tried st) (forgotten st).

(** After [register_transport] the client waits, for an emulator it does not. *)
Definition register_push (c t : nat) (st : sys) : sys :=
  let st := push (TRegister t) st in
  match transports st !! t with
  | Some r => if emulator r then set_client c CIdle (answered (serial r) Registered st) else set_client c (CWait t (serial r)) st
  | None => crashed by_server st
  end.

(** The end of [WaitForConnection]: the state of the transport is read when the connection was
    established. *)
Definition wait_done (c t : nat) (s : bytes) (expired unauthorized : bool) (st : sys) : option sys :=
  match waitables st !! t with
  | Some true =>
      Some (match transports st !! t with
            | None => crashed by_waiter st
            | Some _ => set_client c CIdle (answered s (if unauthorized then EPERM else Registered) st)
            end)
  | Some false => Some (set_client c CIdle (answered s ETIMEDOUT st))
  | None => if expired then Some (set_client c CIdle (answered s ETIMEDOUT st)) else None
  end.

Inductive call :=
  | CallRegister (s : bytes) (local init : bool)
  | CallKick (t : nat)
  | CallKickTcp.

Definition client_call (c : nat) (x : call) (st : sys) : option sys :=
  match clients st !! c with
  | Some CIdle =>
      Some (match x with
            | CallRegister s local init => register_socket_transport c s local init st
            | CallKick t => set_client c CNotify (kick_in_list t st)
            | CallKickTcp => set_client c CNotify (kick_all (transport_list st) st)
            end)
  | _ => None
  end.

Definition client_go (c : nat) (expired unauthorized : bool) (st : sys) : option sys :=
  match clients st !! c with
  | Some (CPush t) => Some (register_push c t st)
  | Some (CWait t s) => wait_done c t s expired unauthorized st
  | Some CNotify => Some (set_client c CIdle (notify st))
  | _ => None
  end.

(** ** Steps *)

Inductive action :=
  | LRun                              (** the looper runs the next function *)
  | LStart                            (** [init_reconnect_handler] *)
  | LStop                             (** [kick_all_transports], with [Stop] *)
  | LGo
  | LKick (t : nat)                   (** the looper kicks a transport by itself *)
  | LOnline (t : nat)                 (** [handle_online], for a packet of an open connection *)
  | HGo
  | HWake (spurious : bool)
  | HResult (r : ReconnectResult)
  | Call (c : nat) (x : call)
  | ClientGo (c : nat) (expired unauthorized : bool)
  | Fail (t : nat)                    (** a connection reports its error *)
  | Tick (d : Z).

Definition idle_looper (st : sys) : bool := match looper st with LIdle => true | _ => false end.
Definition busy (c : conn_state) : bool := match c with Up | Closing => true | _ => false end.

Definition step (x : action) (st : sys) : option sys :=
  match crash st with
  | Some _ => None
  | None =>
      match x with
      | LRun => if idle_looper st then run_task st else None
      | LStart => if idle_looper st then Some (Start st) else None
      | LStop => if idle_looper st then Some (set_looper LStopNotify (set_running false st)) else None
      | LGo => looper_go st
      | LKick t => if idle_looper st then Some (kick_in_list t st) else None
      | LOnline t =>
          r ← transports st !! t;
          if idle_looper st && busy (rconn r) then Some (SetConnectionEstablished t true st) else None
      | HGo => handler_go st
      | HWake spurious =>
          match handler st with
          | HWait until =>
              if spurious || match until with Some d => d <=? clock st | None => false end
              then Some (set_handler HAwake st) else None
          | _ => None
          end
      | HResult r => match handler st with HTry a => Some (reconnected r a st) | _ => None end
      | Call c x => client_call c x st
      | ClientGo c e u => client_go c e u st
      | Fail t =>
          r ← transports st !! t;
          if busy (rconn r) then Some (push (TError t) (update t (set_rconn Down r) st)) else None
      | Tick d => if 0 <=? d then Some (set_clock (clock st + d) st) else None
      end
  end.

Fixpoint run_trace (tr : list action) (st : sys) : option sys :=
  match tr with
  | [] => Some st
  | x :: tr => st' ← step x st; run_trace tr st'
  end.

(** [n] client threads, and no transport. *)
Definition init (n : nat) : sys :=
  mkSys ∅ 0 ∅ [] [] [] true HNone [] LIdle (list_to_map ((λ c, (c, CIdle)) <$> seq 0 n)) 0 None [] [] [] [].

Inductive reachable (n : nat) : sys → Prop :=
  | reach_init : reachable n (init n)
  | reach_step st st' x : reachable n st → step x st = Some st' → reachable n st'.

(** ** What a client is told *)

(** The response of [connect_device]. *)
Definition connect_response (s : bytes) (a : answer) : bytes :=
  match a with
  | Registered => txt "connected to " ++ s
  | EALREADY => txt "already connected to " ++ s
  | EPERM => txt "failed to authenticate to " ++ s
  | Failed | ETIMEDOUT => txt "failed to connect to " ++ s
  end.

(** Whether [AdbDevice::initiateConnection] takes the device for connected, and its serial. *)
Definition connected_serial (response : bytes) : option bytes :=
  if StartsWith response (txt "connected to ") then Some (Trim (drop 13 response))
  else if StartsWith response (txt "already connected to ") then Some (Trim (drop 21 response))
  else None.
