(* ===== verification/ReconnectInv.v ===== *)
(** * The ownership of socket transports

    Proofs about Reconnect.v.  Every transport that exists has exactly one owner: a function in the
    queue of the looper, an entry in the queue of the reconnect handler, the handler's
    thread, its open connection, or the client that is registering it. *)

From Stdlib Require Import Sorting.Sorted.
From S2P Require Import Prelude Strings Reconnect.

(** ** Counting *)

Fixpoint cnt (t : nat) (l : list nat) : Z :=
  match l with [] => 0 | u :: l => Z.b2z (bool_decide (u = t)) + cnt t l end.

Lemma cnt_app t l l' : cnt t (l ++ l') = cnt t l + cnt t l'.
Proof. induction l; cbn; lia. Qed.
Lemma cnt_nonneg t l : 0 ≤ cnt t l.
Proof. induction l; cbn; [done|]. case_bool_decide; cbn; lia. Qed.
Lemma cnt_pos t l : t ∈ l → 1 ≤ cnt t l.
Proof.
  induction 1 as [u l|t u l H IH]; cbn; pose proof (cnt_nonneg u l); [by rewrite bool_decide_true by done; cbn; lia|].
  case_bool_decide; cbn; lia.
Qed.
Lemma cnt_perm t l l' : l ≡ₚ l' → cnt t l = cnt t l'.
Proof. induction 1; cbn; lia. Qed.

Definition held (h : hpc) : list nat :=
  match h with HTry a | HRetry a => [transport a] | HGiveUp t | HRegister t => [t] | _ => [] end.
Definition pushing (t : nat) (c : cpc) : Z := match c with CPush u => Z.b2z (bool_decide (u = t)) | _ => 0 end.
Definition open_at (t : nat) (m : gmap nat rtransport) : Z :=
  match m !! t with Some r => Z.b2z (busy (rconn r)) | None => 0 end.

Definition owners (st : sys) (t : nat) : Z :=
  cnt t (task_of <$> run_queue st) + cnt t (transport <$> queue st) + cnt t (held (handler st)) +
  open_at t (transports st) + msum (pushing t) (clients st) + cnt t (forgotten st).

Definition live (st : sys) (t : nat) : Z := if decide (is_Some (transports st !! t)) then 1 else 0.

(** The transport is about to be registered. *)
Definition registering (st : sys) (t : nat) : Prop :=
  TRegister t ∈ run_queue st ∨ handler st = HRegister t ∨ ∃ c, clients st !! c = Some (CPush t).

Record own (st : sys) : Prop := {
  o_one : ∀ t, owners st t = live st t;
  o_fresh : ∀ t, registering st t → ∃ r, transports st !! t = Some r ∧ rconn r = Fresh;
  o_next : ∀ t, (next_ptr st ≤ t)%nat → transports st !! t = None;
  o_listed : ∀ t, is_Some (transports st !! t) ↔ t ∈ transport_list st ++ pending_list st;
  o_nodup : NoDup (transport_list st ++ pending_list st);
  o_pending : ∀ t, t ∈ pending_list st → registering st t ∧ handler st ≠ HRegister t;
  o_serial : ∀ t u r r', transports st !! t = Some r → transports st !! u = Some r' → serial r = serial r' → t = u;
  o_crash : crash st ≠ Some by_server
}.

Lemma pushing_nonneg t m : 0 ≤ msum (pushing t) m.
Proof. apply msum_nonneg. intros []; cbn; try lia. case_bool_decide; cbn; lia. Qed.
Lemma pushing_pos t m c : m !! c = Some (CPush t) → 1 ≤ msum (pushing t) m.
Proof.
  intros Hc. rewrite <- (insert_delete_id m c _ Hc), msum_fresh by apply lookup_delete_eq.
  pose proof (pushing_nonneg t (delete c m)). cbn. rewrite bool_decide_true by done. cbn. lia.
Qed.
Lemma open_nonneg t m : 0 ≤ open_at t m.
Proof. unfold open_at. case_match; [|done]. destruct (busy _); done. Qed.

(** Every part of [owners] is at least 0. *)
Ltac parts st t :=
  pose proof (cnt_nonneg t (task_of <$> run_queue st)); pose proof (cnt_nonneg t (transport <$> queue st));
  pose proof (cnt_nonneg t (held (handler st))); pose proof (open_nonneg t (transports st));
  pose proof (pushing_nonneg t (clients st)); pose proof (cnt_nonneg t (forgotten st)).

Lemma live_le st t : live st t ≤ 1.
Proof. unfold live. case_decide; lia. Qed.

Lemma owned_exists st t : own st → 1 ≤ owners st t → ∃ r, transports st !! t = Some r.
Proof. intros Hi Ho. rewrite (o_one _ Hi) in Ho. unfold live in Ho. case_decide as E; [exact E|lia]. Qed.

Lemma task_exists st k : own st → k ∈ run_queue st → ∃ r, transports st !! task_of k = Some r.
Proof.
  intros Hi Hk. apply (owned_exists _ _ Hi). parts st (task_of k). unfold owners.
  pose proof (cnt_pos (task_of k) (task_of <$> run_queue st)). enough (task_of k ∈ task_of <$> run_queue st) by (specialize (H5 H6); lia).
  by apply list_elem_of_fmap_2.
Qed.

(** ** The transports change, not their owners *)

Lemma open_insert t r m u :
  open_at u (<[t := r]> m) = if decide (u = t) then Z.b2z (busy (rconn r)) else open_at u m.
Proof. unfold open_at. case_decide; subst; by rewrite ?lookup_insert_eq, ?lookup_insert_ne by done. Qed.

(** The connection of a transport changes, and the queue of the looper and the handler with it. *)
Lemma own_change st st' t r c k s :
  own st → transports st !! t = Some r → transports st' = <[t := mkTransport (serial r) (emulator r) k c]> (transports st) →
  next_ptr st' = next_ptr st → transport_list st' = transport_list st → pending_list st' = pending_list st →
  clients st' = clients st → crash st' = crash st ∨ crash st' = Some s → s ≠ by_server →
  (∀ u, owners st' u = owners st u) →
  (∀ u, registering st' u → registering st u ∧ (u = t → rconn r = Fresh → c = Fresh) ∨ u = t ∧ c = Fresh) →
  (∀ u, u ∈ pending_list st → registering st u → registering st' u) →
  (∀ u, handler st' = HRegister u → handler st = HRegister u ∨ u ∉ pending_list st) → own st'.
Proof.
  intros Hi Ht Htr Hn Hl Hp Hc Hcr Hs Ho Hr Hr' Hh. split.
  - intros u. rewrite Ho, (o_one _ Hi). unfold live. rewrite Htr. destruct (decide (u = t)) as [->|].
    + by rewrite lookup_insert_eq, !decide_True by eauto.
    + by rewrite lookup_insert_ne.
  - intros u Hu. rewrite Htr. destruct (Hr u Hu) as [[Hu' Hf]|[-> ->]]; [|rewrite lookup_insert_eq; eauto].
    destruct (o_fresh _ Hi u Hu') as (r' & Hr1 & Hr2). destruct (decide (u = t)) as [->|]; [|rewrite lookup_insert_ne; eauto].
    rewrite lookup_insert_eq. eexists; split; [done|]. simplify_eq. by apply Hf.
  - intros u Hu. rewrite Htr, Hn in *. rewrite lookup_insert_ne; [by apply (o_next _ Hi)|]. intros ->.
    rewrite (o_next _ Hi u Hu) in Ht. done.
  - intros u. rewrite Htr, Hl, Hp, <- (o_listed _ Hi u). destruct (decide (u = t)) as [->|]; [|by rewrite lookup_insert_ne].
    rewrite lookup_insert_eq, Ht. by split; eauto.
  - rewrite Hl, Hp. apply Hi.
  - intros u Hu. rewrite Hp in Hu. destruct (o_pending _ Hi u Hu) as [H1 H2]. split; [by apply Hr'|].
    intros E. by destruct (Hh u E).
  - intros u v x y. rewrite Htr, !lookup_insert_Some. intros [[<- <-]|[_ Hx]] [[<- <-]|[_ Hy]] E; [done| | |].
    + by apply (o_serial _ Hi _ _ _ _ Ht Hy).
    + by apply (o_serial _ Hi _ _ _ _ Hx Ht).
    + by apply (o_serial _ Hi _ _ _ _ Hx Hy).
  - destruct Hcr as [-> | ->]; [apply Hi|congruence].
Qed.

Lemma own_update st t r k c :
  own st → transports st !! t = Some r → busy c = busy (rconn r) → (rconn r = Fresh → c = Fresh) →
  own (update t (mkTransport (serial r) (emulator r) k c) st).
Proof.
  intros Hi Ht Hb Hf. eapply (own_change st _ t r c k by_waiter); try done; auto.
  intros u. unfold owners. cbn. rewrite open_insert. case_decide; [subst|done]. unfold open_at. rewrite Ht. cbn. by rewrite Hb.
Qed.

Lemma own_kick st t r : own st → transports st !! t = Some r → own (update t (Kick r) st).
Proof.
  intros Hi Ht. unfold Kick. destruct (kicked r) eqn:E.
  - destruct r as [s tc k c]. cbn in E. subst k. by apply (own_update _ _ _ true c Hi Ht).
  - apply (own_update _ _ r true (stop_conn (rconn r)) Hi Ht); by destruct (rconn r).
Qed.

Lemma listed_exists st t : own st → t ∈ transport_list st → is_Some (transports st !! t).
Proof. intros Hi Ht. apply (o_listed _ Hi). by apply elem_of_app; left. Qed.

Lemma own_kick_in_list st t : own st → own (kick_in_list t st).
Proof.
  intros Hi. unfold kick_in_list. case_bool_decide as Hin; [|done]. destruct (listed_exists _ _ Hi Hin) as [r Hr].
  unfold look. rewrite Hr. by apply own_kick.
Qed.

Lemma own_kick_all l st : own st → (∀ t, t ∈ l → is_Some (transports st !! t)) → own (kick_all l st).
Proof.
  revert st. induction l as [|t l IH]; intros st Hi Hl; [done|]. cbn [kick_all].
  destruct (Hl t) as [r Hr]; [by left|]. unfold look. rewrite Hr. apply IH; [by apply own_kick|].
  intros u Hu. cbn. destruct (decide (u = t)) as [->|]; [by rewrite lookup_insert_eq|].
  rewrite lookup_insert_ne by done. apply Hl. by right.
Qed.

(** ** The owners change, not the transports *)

Lemma own_same st st' s :
  own st → transports st' = transports st → next_ptr st' = next_ptr st → transport_list st' = transport_list st →
  pending_list st' = pending_list st → crash st' = crash st ∨ crash st' = Some s → s ≠ by_server →
  (∀ u, owners st' u = owners st u) → (∀ u, registering st' u ↔ registering st u) →
  (∀ u, handler st' = HRegister u → handler st = HRegister u) → own st'.
Proof.
  intros Hi Htr Hn Hl Hp Hcr Hs Ho Hr Hh. split.
  - intros u. rewrite Ho, (o_one _ Hi). unfold live. by rewrite Htr.
  - intros u Hu. rewrite Htr. by apply (o_fresh _ Hi), Hr.
  - intros u. rewrite Htr, Hn. apply (o_next _ Hi).
  - intros u. rewrite Htr, Hl, Hp. apply Hi.
  - rewrite Hl, Hp. apply Hi.
  - intros u. rewrite Hp. intros Hu. destruct (o_pending _ Hi u Hu) as [H1 H2]. split; [by apply Hr|]. naive_solver.
  - intros u v x y. rewrite Htr. apply (o_serial _ Hi).
  - destruct Hcr as [-> | ->]; [apply Hi|congruence].
Qed.

(** ** The tasks of the looper *)

Lemma registering_owner st t :
  registering st t → 1 ≤ cnt t (task_of <$> run_queue st) + cnt t (held (handler st)) + msum (pushing t) (clients st).
Proof.
  parts st t. intros [Hq|[Hh|[c Hc]]].
  - pose proof (cnt_pos t (task_of <$> run_queue st)) as Hp. enough (t ∈ task_of <$> run_queue st) by (specialize (Hp ltac:(done)); lia).
    by apply list_elem_of_fmap_2' with (TRegister t).
  - rewrite Hh in *. cbn in *. rewrite bool_decide_true in * by done. cbn in *. lia.
  - pose proof (pushing_pos t _ c Hc). lia.
Qed.

(** A transport whose owner is a given task is not about to be registered otherwise. *)
Lemma task_only st k q :
  own st → run_queue st = k :: q → ¬ registering (set_run_queue q st) (task_of k) ∧
  (∀ r, transports st !! task_of k = Some r → busy (rconn r) = false) ∧
  cnt (task_of k) (task_of <$> q) = 0 ∧ cnt (task_of k) (transport <$> queue st) = 0.
Proof.
  intros Hi Hq. pose proof (o_one _ Hi (task_of k)) as Ho. pose proof (live_le st (task_of k)) as Hl.
  unfold owners in Ho. rewrite Hq in Ho. cbn in Ho. rewrite bool_decide_true in Ho by done. cbn in Ho.
  parts st (task_of k). pose proof (cnt_nonneg (task_of k) (task_of <$> q)). split_and!; [| |lia|lia].
  - intros Hr%registering_owner. cbn in Hr. lia.
  - intros r Hr. unfold open_at in *. rewrite Hr in *. destruct (busy (rconn r)); cbn in *; [lia|done].
Qed.

Lemma own_move st t :
  own st → t ∈ pending_list st →
  own (set_lists (t :: transport_list st) (filter (λ x, x ≠ t) (pending_list st)) st).
Proof.
  intros Hi Ht. pose proof (o_nodup _ Hi) as Hnd. apply NoDup_app in Hnd as (H1 & H2 & H3).
  assert (∀ u, u ∈ t :: transport_list st ++ filter (λ x, x ≠ t) (pending_list st) ↔ u ∈ transport_list st ++ pending_list st) as Hm.
  { intros u. rewrite elem_of_cons, !elem_of_app, list_elem_of_filter. destruct (decide (u = t)); naive_solver. }
  split; cbn; try apply Hi.
  - intros u. rewrite (o_listed _ Hi u), <- (Hm u). done.
  - constructor.
    + rewrite elem_of_app, list_elem_of_filter. intros [Hin|[? _]]; [by apply (H2 _ Hin)|done].
    + apply NoDup_app. split_and!; [done| |by apply NoDup_filter]. intros u Hu. rewrite list_elem_of_filter. naive_solver.
  - intros u [_ Hu]%list_elem_of_filter. by apply (o_pending _ Hi).
Qed.

Lemma own_start st t q r :
  own st → run_queue st = TRegister t :: q → t ∉ pending_list st → transports st !! t = Some r →
  own (update t (set_rconn Up r) (set_run_queue q st)).
Proof.
  intros Hi Hq Hp Hr. destruct (task_only _ _ _ Hi Hq) as (Hno & Hb & _). cbn in Hno, Hb.
  eapply (own_change st _ t r Up (kicked r) by_waiter); try done; auto.
  - intros u. unfold owners. cbn. rewrite open_insert, Hq. cbn. unfold open_at. case_decide as E.
    + subst u. rewrite bool_decide_true, Hr, (Hb r Hr) by done. cbn. lia.
    + rewrite bool_decide_false by congruence. cbn. lia.
  - intros u Hu. left. split.
    + destruct Hu as [Hu|Hu]; [left; rewrite Hq; by right|by right].
    + intros -> _. by destruct Hno.
  - intros u Hu [Hin|Hin]; [|by right]. left. cbn. rewrite Hq, elem_of_cons in Hin. destruct Hin as [[= ->]|]; done.
Qed.

Lemma own_register_task st t q :
  own st → run_queue st = TRegister t :: q → own (fdevent_register_transport t (set_run_queue q st)).
Proof.
  intros Hi Hq. destruct (o_fresh _ Hi t) as (r & Hr & Hf). { left. rewrite Hq. by left. }
  unfold fdevent_register_transport, look. cbn. rewrite Hr, Hf. cbn. case_bool_decide as Hp; [|by apply own_start].
  apply (own_start (set_lists (t :: transport_list st) (filter (λ x, x ≠ t) (pending_list st)) st)); [by apply own_move|done| |done].
  cbn. rewrite list_elem_of_filter. naive_solver.
Qed.

Lemma own_established st t b : own st → own (SetConnectionEstablished t b st).
Proof. intros Hi. unfold SetConnectionEstablished. case_match; [done|]. by eapply (own_same st _ by_waiter); auto. Qed.

Lemma own_unregister_task st t q :
  own st → run_queue st = TUnregister t :: q → own (fdevent_unregister_transport t (set_run_queue q st)).
Proof.
  intros Hi Hq. destruct (task_only _ _ _ Hi Hq) as (Hno & Hb & _). cbn [task_of] in Hno, Hb.
  destruct (task_exists st (TUnregister t) Hi) as [r Hr]; [rewrite Hq; by left|]. cbn in Hr.
  assert (∀ u, registering (set_run_queue q st) u ↔ registering st u) as Hreg.
  { intros u. unfold registering. cbn. rewrite Hq, elem_of_cons. naive_solver. }
  assert (t ∉ pending_list st) as Hp. { intros Hp. by apply Hno, Hreg, (o_pending _ Hi). }
  unfold fdevent_unregister_transport, look. cbn [set_run_queue transports]. rewrite Hr.
  assert (own (set_transports (delete t (transports st)) (set_lists (filter (λ x, x ≠ t) (transport_list st)) (pending_list st)
    (set_run_queue q st)))) as Ho.
  { split; cbn.
    - intros u. pose proof (o_one _ Hi u) as Ho. unfold owners, live, open_at in *. cbn. rewrite Hq in Ho. cbn in Ho.
      destruct (decide (u = t)) as [->|].
      + rewrite lookup_delete_eq, decide_False by by intros []. rewrite bool_decide_true, Hr, decide_True in Ho by eauto.
        rewrite (Hb r Hr) in Ho. cbn in Ho. lia.
      + rewrite lookup_delete_ne by done. rewrite bool_decide_false in Ho by congruence. cbn in Ho. lia.
    - intros u Hu. apply Hreg in Hu as Hu'. destruct (o_fresh _ Hi u Hu') as (x & Hx & Hf).
      exists x. rewrite lookup_delete_ne; [done|]. by intros ->.
    - intros u Hu. apply lookup_delete_None. right. by apply (o_next _ Hi).
    - intros u. rewrite elem_of_app, list_elem_of_filter. pose proof (o_listed _ Hi u) as Hl. rewrite elem_of_app in Hl.
      destruct (decide (u = t)) as [->|]; [rewrite lookup_delete_eq; split; [by intros []|naive_solver]|].
      rewrite lookup_delete_ne by done. naive_solver.
    - pose proof (o_nodup _ Hi) as Hnd. apply NoDup_app in Hnd as (H1 & H2 & H3). apply NoDup_app.
      split_and!; [by apply NoDup_filter| |done]. intros u [_ Hu]%list_elem_of_filter. by apply H2.
    - intros u Hu. destruct (o_pending _ Hi u Hu) as [H1 H2]. split; [by apply Hreg|done].
    - intros u v x y [_ Hx]%lookup_delete_Some [_ Hy]%lookup_delete_Some. by apply (o_serial _ Hi).
    - apply Hi. }
  pose proof (own_established _ t false Ho) as He. unfold SetConnectionEstablished in *. cbn in *.
  by destruct (waitables st !! t).
Qed.

Lemma emplace_perm a q : transport a ∉ transport <$> q → emplace a q ≡ₚ a :: q.
Proof.
  induction q as [|b q IH]; cbn; [done|]. rewrite not_elem_of_cons. intros [Hne Hq].
  destruct (attempt_lt a b) eqn:E1; [done|]. destruct (attempt_lt b a) eqn:E2.
  - rewrite (IH Hq). by constructor.
  - exfalso. unfold attempt_lt in *. rewrite (Z.eqb_sym (reconnect_time b)) in E2.
    destruct (Z.eqb_spec (reconnect_time a) (reconnect_time b)).
    + apply Nat.ltb_ge in E1, E2. lia.
    + apply Z.ltb_ge in E1, E2. lia.
Qed.

Lemma cnt_emplace t a q :
  cnt (transport a) (transport <$> q) = 0 →
  cnt t (transport <$> emplace a q) = Z.b2z (bool_decide (transport a = t)) + cnt t (transport <$> q).
Proof.
  intros Hq. rewrite (cnt_perm _ _ (transport <$> (a :: q))); [done|]. apply fmap_Permutation, emplace_perm.
  intros Hin%cnt_pos. lia.
Qed.

Lemma stop_idle r : busy (rconn r) = false → set_rconn (stop_conn (rconn r)) r = r.
Proof. by destruct r as [s tc k []]. Qed.

Lemma own_error_task st t q :
  own st → run_queue st = TError t :: q → own (transport_destroy t (set_run_queue q st)).
Proof.
  intros Hi Hq. destruct (task_only _ _ _ Hi Hq) as (_ & Hb & Hc1 & Hc2). cbn [task_of] in *.
  destruct (task_exists st (TError t) Hi) as [r Hr]; [rewrite Hq; by left|]. cbn in Hr.
  unfold transport_destroy, look. cbn [set_run_queue transports]. rewrite Hr, stop_idle by auto.
  assert (∀ u, u ∈ q ∨ u = TError t ↔ u ∈ run_queue st) as Hin by (intros u; rewrite Hq, elem_of_cons; naive_solver).
  assert (<[t := r]> (transports st) = transports st) as Htr by by apply insert_id.
  destruct (negb (kicked r)); [unfold TrackTransport; cbn; destruct (running st)|].
  - eapply (own_same st _ by_waiter); auto; cbn.
    + intros u. unfold owners. cbn. rewrite Htr, cnt_emplace, Hq by done. cbn. lia.
    + intros u. unfold registering. cbn. rewrite <- (Hin (TRegister u)). naive_solver.
  - eapply (own_same st _ by_waiter); auto; cbn.
    + intros u. unfold owners. cbn. rewrite Htr, cnt_app, Hq. cbn. lia.
    + intros u. unfold registering. cbn. rewrite <- (Hin (TRegister u)). naive_solver.
  - eapply (own_same st _ by_waiter); auto; cbn.
    + intros u. unfold owners. cbn. rewrite Htr, fmap_app, cnt_app, Hq. cbn. lia.
    + intros u. unfold registering. cbn. rewrite elem_of_app, list_elem_of_singleton, <- (Hin (TRegister u)). naive_solver.
Qed.

(** ** The handler *)

Lemma scan_total m q :
  (∀ a, a ∈ q → is_Some (m !! transport a)) → ∃ gone kept, scan m q = Some (gone, kept).
Proof.
  induction q as [|a q IH]; cbn; [eauto|]. intros Hq. destruct (Hq a) as [r Hr]; [by left|].
  destruct IH as (gone & kept & Hs); [intros b Hb; apply Hq; by right|]. rewrite Hr, Hs. cbn. destruct (kicked r); eauto.
Qed.

Lemma scan_cnt m q gone kept t :
  scan m q = Some (gone, kept) → cnt t gone + cnt t (transport <$> kept) = cnt t (transport <$> q).
Proof.
  revert gone kept. induction q as [|a q IH]; cbn; [by intros ?? [= <- <-]|]. intros gone kept.
  destruct (m !! transport a) as [r|]; [|done]. cbn. destruct (scan m q) as [[g k]|]; [|done]. cbn.
  specialize (IH g k eq_refl). destruct (kicked r); intros [= <- <-]; cbn; lia.
Qed.

Lemma queued_exists st a : own st → a ∈ queue st → is_Some (transports st !! transport a).
Proof.
  intros Hi Ha. apply (owned_exists _ _ Hi). unfold owners. parts st (transport a).
  pose proof (cnt_pos (transport a) (transport <$> queue st) ltac:(by apply list_elem_of_fmap_2)). lia.
Qed.

Lemma cnt_unregister t l : cnt t (task_of <$> (TUnregister <$> l)) = cnt t l.
Proof. induction l; cbn; [done|]. by rewrite IHl. Qed.

Definition quiet (h : hpc) : bool := match held h with [] => true | _ => false end.
Lemma quiet_not_registering h t : quiet h = true → h ≠ HRegister t.
Proof. by intros Hq ->. Qed.
Lemma quiet_held h : quiet h = true → held h = [].
Proof. unfold quiet. by destruct (held h). Qed.

Lemma own_handler st h : own st → quiet (handler st) = true → quiet h = true → own (set_handler h st).
Proof.
  intros Hi H1 H2. eapply (own_same st _ by_waiter); auto; cbn.
  - intros u. unfold owners. cbn. by rewrite !quiet_held.
  - intros u. unfold registering. cbn. pose proof (quiet_not_registering _ u H1). pose proof (quiet_not_registering _ u H2). naive_solver.
  - intros u E. by apply (quiet_not_registering _ u) in H2.
Qed.

Lemma own_notify st : own st → own (notify st).
Proof.
  intros Hi. unfold notify. destruct (handler st) eqn:E; try (by apply own_handler; rewrite ?E);
    destruct st; cbn in *; subst; done.
Qed.

Lemma own_awake st : own st → handler st = HAwake → own (handler_awake st).
Proof.
  intros Hi Hh. unfold handler_awake. destruct (running st) eqn:Er; [|by apply own_handler; rewrite ?Hh]. cbn [negb].
  destruct (scan_total (transports st) (queue st)) as (gone & kept & Hs); [by intros; apply queued_exists|]. rewrite Hs.
  pose proof (λ t, scan_cnt _ _ _ _ t Hs) as Hc.
  assert (own (set_handler HTop (set_run_queue (run_queue st ++ (TUnregister <$> gone)) (set_queue kept st)))) as Ho.
  { eapply (own_same st _ by_waiter); auto; cbn; [..|done].
    - intros u. unfold owners. cbn. rewrite fmap_app, cnt_app, cnt_unregister, Hh. specialize (Hc u). cbn. lia.
    - intros u. unfold registering. cbn. rewrite elem_of_app, list_elem_of_fmap, Hh. naive_solver. }
  destruct kept as [|a q]; [done|]. case_match; [done|].
  eapply (own_same _ _ by_waiter Ho); auto; cbn; [..|done].
  - intros u. unfold owners. cbn. lia.
  - intros u. unfold registering. cbn. naive_solver.
Qed.

Lemma held_only st a :
  own st → handler st = HTry a → (∃ r, transports st !! transport a = Some r ∧ busy (rconn r) = false) ∧
  ¬ registering st (transport a) ∧ transport a ∉ pending_list st.
Proof.
  intros Hi Hh. pose proof (o_one _ Hi (transport a)) as Ho. pose proof (live_le st (transport a)) as Hl.
  assert (cnt (transport a) (held (handler st)) = 1) as Hc. { rewrite Hh. cbn. by rewrite bool_decide_true by done. }
  parts st (transport a). unfold owners in Ho.
  assert (¬ registering st (transport a)) as Hn.
  { intros [Hin|[E|[c Hc']]]; [|by rewrite Hh in E|].
    - pose proof (cnt_pos (transport a) (task_of <$> run_queue st) ltac:(by apply list_elem_of_fmap_2' with (TRegister (transport a)))). lia.
    - pose proof (pushing_pos _ _ _ Hc'). lia. }
  split_and!; [|done|intros Hp; by apply Hn, (o_pending _ Hi)].
  destruct (owned_exists st (transport a) Hi) as [r Hr]; [unfold owners; lia|]. exists r. split; [done|].
  unfold open_at in *. rewrite Hr in *. destruct (busy (rconn r)); cbn in *; [lia|done].
Qed.

Lemma own_reconnected st a res : own st → handler st = HTry a → own (reconnected res a st).
Proof.
  intros Hi Hh. destruct (held_only _ _ Hi Hh) as ((r & Hr & Hb) & Hn & Hp).
  assert (∀ h, held h = [transport a] → (∀ t, h ≠ HRegister t) → own (set_handler h st)) as Hsame.
  { intros h Hhe Hnr. eapply (own_same st _ by_waiter); auto; cbn.
    - intros u. unfold owners. cbn. by rewrite Hhe, Hh.
    - intros u. unfold registering. cbn. rewrite Hh. pose proof (Hnr u). naive_solver.
    - intros u E. by apply Hnr in E. }
  destruct res; cbn [reconnected]; [by case_match; apply Hsame| |by apply Hsame].
  unfold look. rewrite Hr. eapply (own_change st _ (transport a) r Fresh (kicked r) by_waiter); auto; try done; cbn.
  - intros u. unfold owners. cbn. rewrite Hh, open_insert. case_decide as E; [|done]. subst u.
    unfold open_at. by rewrite Hr, Hb.
  - intros u [Hu|[[= <-]|Hu]]; [left|by right|left]; (split; [|intros; congruence]); [by left|by right; right].
  - intros u _ [Hu|[E|Hu]]; [by left|congruence|by right; right].
  - intros u [= <-]. by right.
Qed.

Lemma held_not_queued st a : own st → held (handler st) = [transport a] → cnt (transport a) (transport <$> queue st) = 0.
Proof.
  intros Hi Hh. pose proof (o_one _ Hi (transport a)) as Ho. pose proof (live_le st (transport a)). parts st (transport a).
  unfold owners in Ho. rewrite Hh in Ho. cbn in Ho. rewrite bool_decide_true in Ho by done. cbn in Ho. lia.
Qed.

Lemma own_handler_go st st' : own st → handler_go st = Some st' → own st'.
Proof.
  intros Hi. unfold handler_go. destruct (handler st) as [| | | |a|a|t|t|] eqn:Hh; try done; intros [= <-].
  - by apply own_handler; rewrite ?Hh.
  - by apply own_awake.
  - assert (cnt (transport a) (transport <$> queue st) = 0) as Hc by (apply held_not_queued; by rewrite ?Hh).
    eapply (own_same st _ by_waiter); auto; cbn; [| |done].
    + intros u. unfold owners. cbn. rewrite cnt_emplace, Hh by done. cbn. lia.
    + intros u. unfold registering. cbn. rewrite Hh. naive_solver.
  - eapply (own_same st _ by_waiter); auto; cbn; [| |done].
    + intros u. unfold owners. cbn. rewrite fmap_app, cnt_app, Hh. cbn. lia.
    + intros u. unfold registering. cbn. rewrite elem_of_app, list_elem_of_singleton, Hh. naive_solver.
  - eapply (own_same st _ by_waiter); auto; cbn; [| |done].
    + intros u. unfold owners. cbn. rewrite fmap_app, cnt_app, Hh. cbn. lia.
    + intros u. unfold registering. cbn. rewrite elem_of_app, list_elem_of_singleton, Hh. naive_solver.
Qed.

(** ** Clients, and every step *)

Lemma own_client st c p p' :
  own st → clients st !! c = Some p → (∀ t, p ≠ CPush t) → (∀ t, p' ≠ CPush t) → own (set_client c p' st).
Proof.
  intros Hi Hc Hp Hp'. eapply (own_same st _ by_waiter); auto; cbn.
  - intros u. unfold owners. cbn. rewrite (msum_insert _ _ _ _ _ Hc).
    assert (pushing u p = 0) as -> by (destruct p; naive_solver). assert (pushing u p' = 0) as -> by (destruct p'; naive_solver). lia.
  - intros u. unfold registering. cbn. split; (intros [Hu|[Hu|[d Hd]]]; [by left|by right; left|]).
    + apply lookup_insert_Some in Hd as [[_ E]|[_ Hd]]; [by apply Hp' in E|eauto].
    + right; right. exists d. rewrite lookup_insert_ne; [done|]. intros ->. rewrite Hc in Hd. injection Hd as ->. by apply (Hp u).
Qed.

Lemma own_answered st s a : own st → own (answered s a st).
Proof. intros Hi. by eapply (own_same st _ by_waiter); auto. Qed.

Lemma has_serial_none s st :
  own st → existsb (has_serial s st) (pending_list st ++ transport_list st) = false →
  ∀ t r, transports st !! t = Some r → serial r ≠ s.
Proof.
  intros Hi Hex t r Hr E. assert (existsb (has_serial s st) (pending_list st ++ transport_list st) = true) as Ht; [|congruence].
  apply existsb_exists. exists t. split.
  - apply list_elem_of_In. assert (is_Some (transports st !! t)) as Hl by eauto. apply (o_listed _ Hi) in Hl. set_solver.
  - unfold has_serial. rewrite Hr. by apply bool_decide_eq_true.
Qed.

Lemma own_register st c s local ok : own st → clients st !! c = Some CIdle → own (register_socket_transport c s local ok st).
Proof.
  intros Hi Hc. unfold register_socket_transport. destruct ok; [|by apply own_answered]. cbn [negb].
  destruct (existsb _ _) eqn:Hex; [by apply own_answered|]. pose proof (has_serial_none _ _ Hi Hex) as Hs.
  pose proof (o_next _ Hi (next_ptr st) ltac:(lia)) as Hnew.
  assert (∀ t, registering st t → t ≠ next_ptr st) as Hre. { intros t Ht ->. destruct (o_fresh _ Hi _ Ht) as (r & Hr & _). congruence. }
  split; cbn.
  - intros u. pose proof (o_one _ Hi u) as Ho. unfold owners, live in *. cbn. rewrite open_insert, (msum_insert _ _ _ _ _ Hc).
    cbn. unfold open_at in *. destruct (decide (u = next_ptr st)) as [->|].
    + rewrite lookup_insert_eq, bool_decide_true, decide_True by eauto. rewrite Hnew, decide_False in Ho by by intros []. cbn. lia.
    + rewrite lookup_insert_ne, bool_decide_false by congruence. cbn. lia.
  - intros u [Hu|[Hu|[d Hd]]]; cbn in *.
    + pose proof (Hre u (or_introl Hu)). rewrite lookup_insert_ne by done. apply (o_fresh _ Hi). by left.
    + pose proof (Hre u (or_intror (or_introl Hu))). rewrite lookup_insert_ne by done. apply (o_fresh _ Hi). by right; left.
    + apply lookup_insert_Some in Hd as [[_ [= <-]]|[_ Hd]]; [rewrite lookup_insert_eq; eauto|].
      assert (registering st u) as Hu by (right; right; eauto). pose proof (Hre u Hu). rewrite lookup_insert_ne by done. by apply (o_fresh _ Hi).
  - intros u Hu. rewrite lookup_insert_ne by lia. apply (o_next _ Hi). lia.
  - intros u. pose proof (o_listed _ Hi u) as Hl. rewrite elem_of_app, elem_of_cons. rewrite elem_of_app in Hl.
    destruct (decide (u = next_ptr st)) as [->|]; [rewrite lookup_insert_eq; split; [by right; left|by eauto]|].
    rewrite lookup_insert_ne by done. naive_solver.
  - pose proof (o_nodup _ Hi) as Hnd. apply NoDup_app in Hnd as (H1 & H2 & H3).
    assert (next_ptr st ∉ transport_list st ++ pending_list st) as Hni. { rewrite <- (o_listed _ Hi), Hnew. by intros []. }
    apply not_elem_of_app in Hni as [Hn1 Hn2]. apply NoDup_app. split_and!; [done| |by constructor]. set_solver.
  - intros u Hu. unfold registering. cbn. apply elem_of_cons in Hu as [->|Hu].
    + split; [right; right; exists c; by rewrite lookup_insert_eq|]. intros Hh. by apply (Hre (next_ptr st)); [right; left|].
    + destruct (o_pending _ Hi u Hu) as [[H1|[H1|[d H1]]] H2]; (split; [|done]); [by left|by right; left|right; right].
      exists d. rewrite lookup_insert_ne; [done|]. intros ->. congruence.
  - intros u v x y [[<- <-]|[_ Hx]]%lookup_insert_Some [[<- <-]|[_ Hy]]%lookup_insert_Some; cbn; [done| | |by apply (o_serial _ Hi)];
      intros E; exfalso; [by apply (Hs _ _ Hy)|by apply (Hs _ _ Hx)].
  - apply Hi.
Qed.

Lemma own_push st c t : own st → clients st !! c = Some (CPush t) → own (register_push c t st).
Proof.
  intros Hi Hc. destruct (o_fresh _ Hi t) as (r & Hr & _); [right; right; eauto|].
  assert (∀ p, (∀ u, p ≠ CPush u) → own (set_client c p (push (TRegister t) st))) as Hown.
  { intros p Hp. eapply (own_same st _ by_waiter); auto; cbn.
    - intros u. unfold owners. cbn. rewrite fmap_app, cnt_app, (msum_insert _ _ _ _ _ Hc). cbn.
      assert (pushing u p = 0) as -> by (destruct p; naive_solver). lia.
    - intros u. unfold registering. cbn. rewrite elem_of_app, list_elem_of_singleton. split.
      + intros [[Hu|[= ->]]|[Hu|[d Hd]]]; [by left|right; right; eauto|by right; left|].
        apply lookup_insert_Some in Hd as [[_ E]|[_ Hd]]; [by apply Hp in E|right; right; eauto].
      + intros [Hu|[Hu|[d Hd]]]; [by left; left|by right; left|]. destruct (decide (c = d)) as [->|].
        * rewrite Hc in Hd. injection Hd as ->. left. by right.
        * right; right. exists d. by rewrite lookup_insert_ne. }
  unfold register_push. cbn. rewrite Hr. destruct (emulator r); [|by apply Hown].
  apply (own_answered (set_client c CIdle (push (TRegister t) st))). by apply Hown.
Qed.

Lemma clients_kick_all l st : clients (kick_all l st) = clients st.
Proof. revert st. induction l as [|t l IH]; intros st; [done|]. cbn. rewrite IH. unfold look. repeat case_match; done. Qed.
Lemma clients_kick t st : clients (kick_in_list t st) = clients st.
Proof. unfold kick_in_list, look. repeat case_match; done. Qed.

Lemma own_call st c x st' : own st → client_call c x st = Some st' → own st'.
Proof.
  intros Hi. unfold client_call. destruct (clients st !! c) as [[]|] eqn:Hc; try done. intros [= <-]. destruct x.
  - by apply own_register.
  - eapply own_client; [by apply own_kick_in_list|rewrite clients_kick; exact Hc|done|done].
  - eapply own_client; [apply own_kick_all; [done|intros; by apply listed_exists]|rewrite clients_kick_all; exact Hc|done|done].
Qed.

Lemma own_client_go st c e u st' : own st → client_go c e u st = Some st' → own st'.
Proof.
  intros Hi. unfold client_go. destruct (clients st !! c) as [[]|] eqn:Hc; try done.
  - intros [= <-]. by apply own_push.
  - assert (∀ a, own (set_client c CIdle (answered s a st))) as Ha.
    { intros a. eapply own_client; [by apply own_answered|exact Hc|done|done]. }
    unfold wait_done. destruct (waitables st !! t) as [[]|].
    + destruct (transports st !! t); intros [= <-]; [apply Ha|]. by eapply (own_same st _ by_waiter); auto.
    + intros [= <-]. apply Ha.
    + destruct e; [|done]. intros [= <-]. apply Ha.
  - intros [= <-]. by apply (own_client (notify st) c CNotify); [apply own_notify|..].
Qed.

Lemma own_set_looper st l : own st → own (set_looper l st).
Proof. intros Hi. by eapply (own_same st _ by_waiter); auto. Qed.

Lemma own_looper_go st st' : own st → looper_go st = Some st' → own st'.
Proof.
  intros Hi. unfold looper_go. destruct (looper st); try done.
  - intros [= <-]. by apply own_set_looper, own_notify.
  - intros [= <-]. by apply own_set_looper, own_notify.
  - destruct (handler st) eqn:Hh; try done; intros [= <-]; [by eapply (own_same st _ by_caller); auto|].
    apply own_set_looper, own_handler; [done|by rewrite Hh|done].
  - intros [= <-]. destruct (queue st) as [|a q] eqn:Hq; [by apply own_set_looper|].
    eapply (own_same st _ by_waiter); auto; cbn.
    + intros u. unfold owners. cbn. rewrite fmap_app, cnt_app, Hq. cbn. lia.
    + intros u. unfold registering. cbn. rewrite elem_of_app, list_elem_of_singleton. naive_solver.
  - intros [= <-]. apply own_set_looper, own_kick_all; [done|]. intros t. by apply listed_exists.
Qed.

Lemma own_fail st t r :
  own st → transports st !! t = Some r → busy (rconn r) = true → own (push (TError t) (update t (set_rconn Down r) st)).
Proof.
  intros Hi Hr Hb. eapply (own_change st _ t r Down (kicked r) by_waiter); auto; try done; cbn.
  - intros u. unfold owners. cbn. rewrite fmap_app, cnt_app, open_insert. cbn. unfold open_at. case_decide as E.
    + subst u. rewrite Hr, Hb, bool_decide_true by done. cbn. lia.
    + rewrite bool_decide_false by congruence. cbn. lia.
  - intros u [Hu|Hu]; left; (split; [|intros _ E; by rewrite E in Hb]); [|by right].
    cbn in Hu. rewrite elem_of_app, list_elem_of_singleton in Hu. destruct Hu as [Hu|]; [by left|done].
  - intros u _ [Hu|Hu]; [|by right]. left. cbn. apply elem_of_app. by left.
Qed.

Lemma step_own x st st' : own st → step x st = Some st' → own st'.
Proof.
  intros Hi. unfold step. destruct (crash st); [done|]. destruct x; cbn.
  - destruct (idle_looper st); [|done]. unfold run_task. destruct (run_queue st) as [|[] q] eqn:Hq; intros [= <-].
    + by apply own_register_task.
    + by apply own_unregister_task.
    + by apply own_error_task.
  - destruct (idle_looper st); [|done]. intros [= <-]. unfold Start.
    destruct (handler st) eqn:Hh; try (by eapply (own_same st _ by_caller); auto). by apply own_handler; rewrite ?Hh.
  - destruct (idle_looper st); [|done]. intros [= <-]. by eapply (own_same st _ by_waiter); auto.
  - apply own_looper_go; done.
  - destruct (idle_looper st); [|done]. intros [= <-]. by apply own_kick_in_list.
  - destruct (transports st !! t); [|done]. cbn. case_match; [|done]. intros [= <-]. by apply own_established.
  - by apply own_handler_go.
  - destruct (handler st) eqn:Hh; try done. case_match; [|done]. intros [= <-]. by apply own_handler; rewrite ?Hh.
  - destruct (handler st) eqn:Hh; try done. intros [= <-]. by apply own_reconnected.
  - by apply own_call.
  - by apply own_client_go.
  - destruct (transports st !! t) as [r|] eqn:Hr; [|done]. cbn. destruct (busy (rconn r)) eqn:Hb; [|done]. intros [= <-]. by apply own_fail.
  - case_match; [|done]. intros [= <-]. by eapply (own_same st _ by_waiter); auto.
Qed.

Lemma msum_zero {A} (f : A → Z) (m : gmap nat A) : map_Forall (λ _ x, f x = 0) m → msum f m = 0.
Proof.
  induction m as [|t x m Hm IH] using map_ind; [done|]. intros Hall.
  apply map_Forall_insert in Hall as [Hx Hall]; [|done]. rewrite msum_fresh, Hx, IH by done. done.
Qed.

Lemma init_client n c p : clients (init n) !! c = Some p → p = CIdle.
Proof. cbn. intros Hc%elem_of_list_to_map_2. apply list_elem_of_fmap in Hc as (? & [= -> ->] & _). done. Qed.

Lemma own_init n : own (init n).
Proof.
  split; try done.
  - intros t. unfold owners, live. cbn [init clients]. rewrite msum_zero; [done|]. intros c p Hc.
    by rewrite (init_client n c p Hc).
  - intros t [Hu|[Hu|[c Hc]]]; [by apply elem_of_nil in Hu|done|by apply init_client in Hc].
  - intros t. cbn. rewrite lookup_empty, elem_of_nil. split; [by intros []|done].
  - constructor.
  - intros t Ht. by apply elem_of_nil in Ht.
Qed.

Lemma reachable_own n st : reachable n st → own st.
Proof. induction 1; [apply own_init|by eapply step_own]. Qed.

(** ** The queue of the handler *)

Definition before (a b : ReconnectAttempt) : Prop := attempt_lt a b = true.

Lemma before_trans a b c : before a b → before b c → before a c.
Proof.
  unfold before, attempt_lt. destruct (Z.eqb_spec (reconnect_time a) (reconnect_time b)), (Z.eqb_spec (reconnect_time b) (reconnect_time c)),
    (Z.eqb_spec (reconnect_time a) (reconnect_time c)); rewrite ?Nat.ltb_lt, ?Z.ltb_lt; lia.
Qed.
Lemma before_time a b : before a b → reconnect_time a ≤ reconnect_time b.
Proof. unfold before, attempt_lt. destruct (Z.eqb_spec (reconnect_time a) (reconnect_time b)); rewrite ?Z.ltb_lt; lia. Qed.

Lemma emplace_in a q b : b ∈ emplace a q → b = a ∨ b ∈ q.
Proof.
  induction q as [|c q IH]; cbn; [rewrite list_elem_of_singleton; auto|].
  destruct (attempt_lt a c); [rewrite elem_of_cons; tauto|]. destruct (attempt_lt c a); [|tauto].
  rewrite !elem_of_cons. tauto.
Qed.
Lemma emplace_keeps a q b : b ∈ q → b ∈ emplace a q.
Proof.
  induction q as [|c q IH]; cbn; [by intros ?%elem_of_nil|]. intros Hb.
  destruct (attempt_lt a c); [by right|]. destruct (attempt_lt c a); [|done].
  apply elem_of_cons in Hb as [->|Hb]; [by left|right; auto].
Qed.

Lemma emplace_sorted a q : StronglySorted before q → StronglySorted before (emplace a q).
Proof.
  induction 1 as [|b q Hs IH Hb]; cbn; [by repeat constructor|]. destruct (attempt_lt a b) eqn:E.
  - constructor; [by constructor|]. constructor; [done|]. eapply Forall_impl; [done|]. intros c Hc. by eapply before_trans.
  - destruct (attempt_lt b a) eqn:E2; [|by constructor]. constructor; [done|]. apply Forall_forall. intros c [->|Hc]%emplace_in; [done|].
    rewrite Forall_forall in Hb. auto.
Qed.

Lemma scan_kept m q gone kept :
  scan m q = Some (gone, kept) → kept `sublist_of` q.
Proof.
  revert gone kept. induction q as [|a q IH]; cbn; [by intros ?? [= <- <-]|]. intros gone kept.
  destruct (m !! transport a) as [r|]; [|done]. cbn. destruct (scan m q) as [[g k]|]; [|done]. cbn.
  specialize (IH g k eq_refl). destruct (kicked r); intros [= <- <-]; by constructor.
Qed.

Lemma sorted_sublist q k : k `sublist_of` q → StronglySorted before q → StronglySorted before k.
Proof.
  induction 1 as [|x l k Hs IH|x l k Hs IH]; [done| |]; intros Hq; apply StronglySorted_inv in Hq as [H1 H2]; [|auto].
  constructor; [auto|]. apply Forall_forall. intros y Hy. rewrite Forall_forall in H2. by eapply H2, sublist_subseteq.
Qed.

(** The attempts a transport has left: those in the queue and of the handler's thread. *)
Fixpoint budget (t : nat) (q : list ReconnectAttempt) : Z :=
  match q with
  | [] => 0
  | a :: q => (if bool_decide (transport a = t) then attempts_left a + 1 else 0) + budget t q
  end.
Definition held_budget (t : nat) (h : hpc) : Z :=
  match h with HTry a | HRetry a => if bool_decide (transport a = t) then attempts_left a else 0 | _ => 0 end.

Definition left_ok (a : ReconnectAttempt) : Prop := 0 ≤ attempts_left a ≤ kMaxAttempts.

Lemma budget_nonneg t q : Forall left_ok q → 0 ≤ budget t q.
Proof. induction 1 as [|a q [H _] _ IH]; cbn; [done|]. case_bool_decide; lia. Qed.
Lemma budget_perm t q q' : q ≡ₚ q' → budget t q = budget t q'.
Proof. induction 1; cbn; lia. Qed.
Lemma budget_emplace t a q :
  cnt (transport a) (transport <$> q) = 0 →
  budget t (emplace a q) = (if bool_decide (transport a = t) then attempts_left a + 1 else 0) + budget t q.
Proof.
  intros Hq. rewrite (budget_perm _ _ (a :: q)); [done|]. apply emplace_perm. intros Hin%cnt_pos. lia.
Qed.
Lemma budget_sublist t q k : k `sublist_of` q → Forall left_ok q → budget t k ≤ budget t q.
Proof.
  induction 1 as [|x l k Hs IH|x l k Hs IH]; [done| |]; cbn; intros [[Hx _] Hq]%Forall_cons; specialize (IH Hq); [lia|].
  case_bool_decide; lia.
Qed.
