(* ===== verification/ReconnectQueue.v ===== *)
(** * The reconnect handler at work

    Theorems about Reconnect.v: the schedule of the handler, what it does to a transport that
    stays unreachable, and the runs in which a transport is lost or a thread waits for ever. *)

From Stdlib Require Import Sorting.Sorted.
From S2P Require Import Prelude Strings Reconnect ReconnectInv.

Record sched (st : sys) : Prop := {
  q_sorted : StronglySorted before (queue st);
  q_left : Forall left_ok (queue st);
  q_try : ∀ a, handler st = HTry a → left_ok a;
  q_retry : ∀ a, handler st = HRetry a → left_ok a ∧ attempts_left a ≠ 0;
  q_budget : ∀ t, cnt t (tried st) + budget t (queue st) + held_budget t (handler st) ≤ (kMaxAttempts + 1) * cnt t (tracked st);
  q_wait : ∀ until, handler st = HWait until → looper st = LTrackNotify ∨ until = reconnect_time <$> head (queue st);
  q_drain : looper st = LStopDrain ∨ looper st = LKickAll → handler st = HNone
}.

(** Steps that leave the handler's part of the state alone. *)
Definition same_handler (st st' : sys) : Prop :=
  queue st' = queue st ∧ handler st' = handler st ∧ looper st' = looper st ∧ tried st' = tried st ∧ tracked st' = tracked st.

Lemma same_handler_trans st1 st2 st3 : same_handler st1 st2 → same_handler st2 st3 → same_handler st1 st3.
Proof. intros (?&?&?&?&?) (?&?&?&?&?). split_and!; congruence. Qed.

Lemma sched_same st st' : same_handler st st' → sched st → sched st'.
Proof.
  intros (Hq & Hh & Hl & Ht & Hk) Hs. split; rewrite ?Hq, ?Hh, ?Hl, ?Ht, ?Hk; apply Hs.
Qed.

Lemma look_same st t f : (∀ r, same_handler st (f r)) → same_handler st (look t st f).
Proof. intros Hf. unfold look. by case_match. Qed.
Lemma kick_same st t : same_handler st (kick_in_list t st).
Proof. unfold kick_in_list. case_bool_decide; [|done]. by apply look_same. Qed.
Lemma kick_all_same l st : same_handler st (kick_all l st).
Proof.
  revert st. induction l as [|t l IH]; intros st; [done|]. cbn. eapply same_handler_trans; [|apply IH].
  by apply look_same.
Qed.
Lemma established_same st t b : same_handler st (SetConnectionEstablished t b st).
Proof. unfold SetConnectionEstablished. by case_match. Qed.
Lemma register_task_same st t : same_handler st (fdevent_register_transport t st).
Proof. apply look_same. intros r. destruct (rconn r); [cbn; by case_bool_decide|done..]. Qed.
Lemma unregister_task_same st t : same_handler st (fdevent_unregister_transport t st).
Proof. apply look_same. intros r. unfold SetConnectionEstablished. cbn. by case_match. Qed.

Lemma call_same st c x st' : client_call c x st = Some st' → same_handler st st'.
Proof.
  unfold client_call. destruct (clients st !! c) as [[]|]; try done. intros [= <-]. destruct x.
  - unfold register_socket_transport. repeat case_match; done.
  - apply (kick_same st t).
  - apply (kick_all_same (transport_list st) st).
Qed.

(** A handler that does not wait and holds nothing. *)
Lemma sched_notify st l :
  sched st → l = LIdle ∨ l = looper st ∨ l = LStopJoin → sched (set_looper l (notify st)).
Proof.
  intros Hs Hl. assert (∀ h, handler (notify st) = h → (∀ u, h ≠ HWait u) ∧ (h = handler st ∨ h = HAwake ∧ ∃ u, handler st = HWait u)) as Hh.
  { intros h <-. unfold notify. cbn. destruct (handler st); naive_solver. }
  destruct (Hh _ eq_refl) as [Hw [E|[E [u Hu]]]]; split; cbn in *; rewrite ?E in *; try apply Hs; try done.
  - intros u Hu. by apply Hw in Hu.
  - destruct Hl as [->|[->| ->]]; [by intros []|apply Hs|by intros []].
  - intros t. pose proof (q_budget _ Hs t) as Hb. by rewrite Hu in Hb.
  - destruct Hl as [->|[->| ->]]; [by intros []| |by intros []]. intros Hd%(q_drain _ Hs). congruence.
Qed.

Lemma cnt_queue_task st t q :
  own st → run_queue st = TError t :: q → cnt t (transport <$> queue st) = 0.
Proof. intros Hi Hq. by apply (task_only _ _ _ Hi Hq). Qed.

Lemma sched_track st t :
  sched st → looper st = LIdle → cnt t (transport <$> queue st) = 0 → sched (TrackTransport t st).
Proof.
  intros Hs Hl Hc. unfold TrackTransport. destruct (running st); [|by apply (sched_same st)]. split; cbn; try apply Hs.
  - apply emplace_sorted, Hs.
  - apply Forall_forall. intros b [->|Hb]%emplace_in; [done|]. pose proof (q_left _ Hs) as Hf. rewrite Forall_forall in Hf. auto.
  - intros u. rewrite cnt_app, budget_emplace by done. pose proof (q_budget _ Hs u). cbn. unfold kMaxAttempts in *. case_bool_decide; cbn; lia.
  - by left.
  - by intros [].
Qed.

Lemma sched_run st st' : own st → sched st → looper st = LIdle → run_task st = Some st' → sched st'.
Proof.
  intros Hi Hs Hl. unfold run_task. destruct (run_queue st) as [|[t|t|t] q] eqn:Hq; intros [= <-].
  - apply (sched_same (set_run_queue q st)); [apply register_task_same|by apply (sched_same st)].
  - apply (sched_same (set_run_queue q st)); [apply unregister_task_same|by apply (sched_same st)].
  - unfold transport_destroy, look. cbn. destruct (transports st !! t) as [r|]; [|by apply (sched_same st)].
    destruct (negb (kicked r)); [|by apply (sched_same st)].
    apply sched_track; [by apply (sched_same st)|done|]. exact (cnt_queue_task st t q Hi Hq).
Qed.

Lemma sched_awake st : sched st → handler st = HAwake → sched (handler_awake st).
Proof.
  intros Hs Hh. assert (¬ (looper st = LStopDrain ∨ looper st = LKickAll)) as Hl.
  { intros E%(q_drain _ Hs). congruence. }
  pose proof (λ t, q_budget _ Hs t) as Hb. rewrite Hh in Hb. cbn in Hb.
  assert (∀ h q rq, q `sublist_of` queue st → quiet h = true → (∀ u, h ≠ HWait u) → h ≠ HNone →
    sched (set_handler h (set_run_queue rq (set_queue q st)))) as Hk.
  { intros h q rq Hq Hh1 Hh2 Hh3. split; cbn; try (by intros a ->); [|..|done].
    - by eapply sorted_sublist, Hs.
    - apply Forall_forall. intros a Ha. pose proof (q_left _ Hs) as Hf. rewrite Forall_forall in Hf. by eapply Hf, sublist_subseteq.
    - intros t. specialize (Hb t). pose proof (budget_sublist t _ _ Hq (q_left _ Hs)).
      assert (held_budget t h = 0) as -> by (destruct h; done). lia.
    - intros u E. by apply Hh2 in E. }
  unfold handler_awake. destruct (running st); cbn [negb]; [|by apply (Hk HExited (queue st) (run_queue st))].
  destruct (scan _ _) as [[gone kept]|] eqn:Hsc; [|by apply (sched_same st)]. apply scan_kept in Hsc as Hsub.
  pose proof (Hk HTop kept (run_queue st ++ (TUnregister <$> gone)) Hsub eq_refl ltac:(done) ltac:(done)) as Ht.
  destruct kept as [|a q]; [done|]. case_match; [done|].
  pose proof (q_sorted _ Ht) as Hso. pose proof (q_left _ Ht) as Hle. cbn in Hso, Hle.
  apply StronglySorted_inv in Hso as [Hso _]. apply Forall_cons in Hle as [Ha Hle]. split; cbn; try done.
  - by intros b [= <-].
  - intros t. pose proof (q_budget _ Ht t) as Hbt. cbn in Hbt. rewrite cnt_app. cbn. case_bool_decide; cbn; lia.
Qed.

Lemma sched_handler_go st st' : own st → sched st → handler_go st = Some st' → sched st'.
Proof.
  intros Hi Hs. unfold handler_go. destruct (handler st) as [| | | |a|a|t|t|] eqn:Hh; try done; intros [= <-];
    try (assert (¬ (looper st = LStopDrain ∨ looper st = LKickAll)) as Hl by (intros E%(q_drain _ Hs); congruence));
    pose proof (λ t, q_budget _ Hs t) as Hb; rewrite Hh in Hb; cbn in Hb.
  - split; cbn; try done; try apply Hs. intros u [= <-]. by right.
  - by apply sched_awake.
  - destruct (q_retry _ Hs a Hh) as [[H1 H2] H3].
    assert (cnt (transport a) (transport <$> queue st) = 0) as Hc by (apply held_not_queued; by rewrite ?Hh).
    split; cbn; try done.
    + apply emplace_sorted, Hs.
    + apply Forall_forall. intros b [->|Hin]%emplace_in; [split; cbn; lia|].
      pose proof (q_left _ Hs) as Hf. rewrite Forall_forall in Hf. auto.
    + intros u. rewrite budget_emplace by done. specialize (Hb u). cbn. case_bool_decide; lia.
  - split; cbn; try done; apply Hs.
  - split; cbn; try done; apply Hs.
Qed.

Lemma sched_reconnected st a r : sched st → handler st = HTry a → sched (reconnected r a st).
Proof.
  intros Hs Hh. assert (¬ (looper st = LStopDrain ∨ looper st = LKickAll)) as Hl by (intros E%(q_drain _ Hs); congruence).
  pose proof (λ t, q_budget _ Hs t) as Hb. rewrite Hh in Hb. cbn in Hb. pose proof (q_try _ Hs a Hh) as Hok.
  assert (∀ t m, sched (set_handler (HGiveUp t) (set_transports m st)) ∧ sched (set_handler (HRegister t) (set_transports m st))) as Hg.
  { intros t m. split; split; cbn; try done; try apply Hs; intros u; specialize (Hb u); destruct Hok; case_bool_decide; lia. }
  destruct r; cbn [reconnected].
  - destruct (Z.eqb_spec (attempts_left a) 0); [apply (Hg (transport a) (transports st))|].
    split; cbn; try done; try apply Hs. by intros b [= <-].
  - unfold look. case_match; [apply Hg|by apply (sched_same st)].
  - apply (Hg (transport a) (transports st)).
Qed.

Lemma sched_looper_go st st' : sched st → looper_go st = Some st' → sched st'.
Proof.
  intros Hs. unfold looper_go. destruct (looper st) eqn:El; try done.
  - intros [= <-]. apply sched_notify; auto.
  - intros [= <-]. apply sched_notify; auto.
  - destruct (handler st) eqn:Hh; try done; intros [= <-]; [by apply (sched_same st)|].
    split; cbn; try done; try apply Hs. intros t. pose proof (q_budget _ Hs t) as Hb. by rewrite Hh in Hb.
  - intros [= <-]. pose proof (q_drain _ Hs (or_introl El)) as Hh. destruct (queue st) as [|a q] eqn:Hq.
    + split; cbn; rewrite ?Hq; try done; try apply Hs; rewrite ?Hh; try done; [constructor|]. intros t. pose proof (q_budget _ Hs t) as Hb. by rewrite Hq, Hh in Hb.
    + pose proof (q_sorted _ Hs) as Hso. pose proof (q_left _ Hs) as Hle. rewrite Hq in Hso, Hle.
      apply StronglySorted_inv in Hso as [Hso _]. apply Forall_cons in Hle as [[Ha _] Hle].
      split; cbn; rewrite ?Hh; try done. intros t. pose proof (q_budget _ Hs t) as Hb. rewrite Hq, Hh in Hb. cbn in *. case_bool_decide; lia.
  - intros [= <-]. destruct (kick_all_same (transport_list st) st) as (H1 & H2 & H3 & H4 & H5).
    split; cbn; rewrite ?H1, ?H2, ?H4, ?H5; try apply Hs; [|by intros []].
    rewrite (q_drain _ Hs (or_intror El)). done.
Qed.

Lemma step_sched x st st' : own st → sched st → step x st = Some st' → sched st'.
Proof.
  intros Hi Hs. unfold step. destruct (crash st); [done|]. destruct x; cbn.
  - unfold idle_looper. destruct (looper st) eqn:El; try done. by apply sched_run.
  - unfold idle_looper. destruct (looper st) eqn:El; try done. intros [= <-]. unfold Start.
    destruct (handler st) eqn:Hh; try (by apply (sched_same st)). split; cbn; try done; try apply Hs.
    + intros t. pose proof (q_budget _ Hs t) as Hb. by rewrite Hh in Hb.
    + rewrite El. by intros [].
  - unfold idle_looper. destruct (looper st) eqn:El; try done. intros [= <-].
    split; cbn; try apply Hs; [|by intros []]. intros u Hu. destruct (q_wait _ Hs u Hu); [congruence|by right].
  - by apply sched_looper_go.
  - case_match; [|done]. intros [= <-]. by eapply sched_same, Hs; apply kick_same.
  - destruct (transports st !! t); [|done]. cbn. case_match; [|done]. intros [= <-]. eapply sched_same, Hs. apply established_same.
  - by apply sched_handler_go.
  - destruct (handler st) eqn:Hh; try done. case_match; [|done]. intros [= <-].
    assert (set_handler HAwake st = set_looper (looper st) (notify st)) as ->.
    { unfold notify. rewrite Hh. by destruct st. }
    apply sched_notify; auto.
  - destruct (handler st) eqn:Hh; try done. intros [= <-]. by apply sched_reconnected.
  - intros H%call_same. by eapply sched_same.
  - unfold client_go. destruct (clients st !! c) as [[]|]; try done.
    + intros [= <-]. eapply sched_same, Hs. unfold register_push. repeat case_match; done.
    + unfold wait_done. intros H. eapply sched_same, Hs. destruct (waitables st !! t) as [[]|];
        [destruct (transports st !! t)| |destruct expired]; by inversion H.
    + intros [= <-]. apply (sched_same (set_looper (looper st) (notify st))); [done|]. apply sched_notify; auto.
  - destruct (transports st !! t); [|done]. cbn. case_match; [|done]. intros [= <-]. by apply (sched_same st).
  - case_match; [|done]. intros [= <-]. by apply (sched_same st).
Qed.

Lemma reachable_sched n st : reachable n st → sched st.
Proof.
  induction 1 as [|st st' x Hr IH Hx]; [|eapply step_sched; [by eapply reachable_own|done|done]].
  split; cbn; try done; try constructor.
Qed.

(** ** What the server promises *)

(** Nothing but a lost connection after the stop makes the server forget a transport. *)
Definition remembers (st st' : sys) : Prop := running st' = true → running st = true ∧ forgotten st' = forgotten st.
Definition same_memory (st st' : sys) : Prop := running st' = running st ∧ forgotten st' = forgotten st.

Lemma memory_remembers st st' : same_memory st st' → remembers st st'.
Proof. by intros [E1 E2] Hr; rewrite <- E1. Qed.
Lemma look_memory st t f : (∀ r, same_memory st (f r)) → same_memory st (look t st f).
Proof. intros Hf. unfold look. by case_match. Qed.
Lemma kick_memory t st : same_memory st (kick_in_list t st).
Proof. unfold kick_in_list. case_bool_decide; [|done]. by apply look_memory. Qed.
Lemma kick_all_memory l st : same_memory st (kick_all l st).
Proof.
  revert st. induction l as [|t l IH]; intros st; [done|]. cbn. destruct (IH (look t st (λ r, update t (Kick r) st))) as [E1 E2].
  destruct (look_memory st t (λ r, update t (Kick r) st)) as [E3 E4]; [done|]. split; congruence.
Qed.

Lemma task_remembers st st' : run_task st = Some st' → remembers st st'.
Proof.
  unfold run_task. destruct (run_queue st) as [|[t|t|t] q]; intros [= <-].
  - apply (memory_remembers (set_run_queue q st)), look_memory. intros r. destruct (rconn r); [cbn; by case_bool_decide|done..].
  - apply (memory_remembers (set_run_queue q st)), look_memory. intros r. unfold SetConnectionEstablished. cbn. by case_match.
  - unfold remembers, transport_destroy, look. cbn. case_match; [|done]. case_match; [|done]. unfold TrackTransport. cbn.
    destruct (running st) eqn:E; [done|]. cbn. by rewrite E.
Qed.

Lemma step_remembers x st st' : step x st = Some st' → remembers st st'.
Proof.
  unfold step. destruct (crash st); [done|]. destruct x; cbn.
  - case_match; [|done]. apply task_remembers.
  - case_match; [|done]. intros [= <-]. unfold Start. by destruct (handler st).
  - case_match; [|done]. by intros [= <-].
  - unfold looper_go. destruct (looper st); try done; [..|intros [= <-]; apply memory_remembers, (kick_all_memory (transport_list st) st)].
    1,2: by intros [= <-].
    + destruct (handler st); try done; by intros [= <-].
    + destruct (queue st); by intros [= <-].
  - case_match; [|done]. intros [= <-]. apply memory_remembers, kick_memory.
  - destruct (transports st !! t); [|done]. cbn. case_match; [|done]. intros [= <-]. unfold SetConnectionEstablished. by case_match.
  - unfold handler_go. destruct (handler st); try done; intros [= <-]; try done. unfold handler_awake. repeat case_match; done.
  - destruct (handler st); try done. case_match; [|done]. by intros [= <-].
  - destruct (handler st); try done. intros [= <-]. destruct r; cbn; try done. unfold look. by case_match.
  - unfold client_call. destruct (clients st !! c) as [[]|]; try done. intros [= <-]. apply memory_remembers. destruct x.
    + unfold register_socket_transport. repeat case_match; done.
    + apply (kick_memory t st).
    + apply (kick_all_memory (transport_list st) st).
  - unfold client_go. destruct (clients st !! c) as [[]|]; try done; [| |by intros [= <-]].
    + intros [= <-]. unfold register_push. repeat case_match; done.
    + unfold wait_done. repeat case_match; try done; by intros [= <-].
  - destruct (transports st !! t); [|done]. cbn. case_match; [|done]. by intros [= <-].
  - case_match; [|done]. by intros [= <-].
Qed.

(** The handler is stopped once and for all, and only then are lost transports forgotten. *)
Lemma forgotten_after_stop n st : reachable n st → running st = true → forgotten st = [].
Proof.
  induction 1 as [|st st' x Hr IH Hx]; [done|]. intros Hrun. destruct (step_remembers _ _ _ Hx Hrun) as [? ->]. auto.
Qed.


(** C15. A lost transport is not left waiting: the attempts are kept in order of time, and when the
    handler sleeps, it wakes no later than the time of any queued attempt, or a
    notification is on its way; and since a transport was given to the handler, at most
    21 attempts to reconnect it have been made. *)
Theorem reconnect_in_time n st :
  reachable n st →
  (∀ until a, handler st = HWait until → a ∈ queue st →
     looper st = LTrackNotify ∨ ∃ d, until = Some d ∧ d ≤ reconnect_time a) ∧
  (∀ t, cnt t (tried st) ≤ (kMaxAttempts + 1) * cnt t (tracked st)).
Proof.
  intros Hs%reachable_sched. split.
  - intros d a Hh Ha. destruct (q_wait _ Hs d Hh) as [? | ->]; [by left|right]. pose proof (q_sorted _ Hs) as Hso.
    destruct (queue st) as [|b q]; [by apply elem_of_nil in Ha|]. exists (reconnect_time b). split; [done|].
    apply StronglySorted_inv in Hso as [_ Hb]. rewrite Forall_forall in Hb.
    apply elem_of_cons in Ha as [->|Ha]; [done|]. by apply before_time, Hb.
  - intros t. pose proof (q_budget _ Hs t). pose proof (budget_nonneg t _ (q_left _ Hs)).
    assert (0 ≤ held_budget t (handler st)); [|lia].
    destruct (handler st) as [| | | |a|a| | |] eqn:Hh; cbn; try done; case_bool_decide; try done.
    + apply (q_try _ Hs a Hh).
    + apply (q_retry _ Hs a Hh).
Qed.

(** ** Giving up *)

(** The attempts left in the queue, over all transports. *)
Fixpoint todo (q : list ReconnectAttempt) : Z :=
  match q with [] => 0 | a :: q => attempts_left a + 1 + todo q end.

Lemma todo_nonneg q : Forall left_ok q → 0 ≤ todo q.
Proof. induction 1 as [|a q [H _] _ IH]; cbn; lia. Qed.
Lemma todo_emplace a q : transport a ∉ transport <$> q → todo (emplace a q) = attempts_left a + 1 + todo q.
Proof. intros Hq. assert (∀ l l', l ≡ₚ l' → todo l = todo l') as Hp by (induction 1; cbn; lia). by rewrite (Hp _ _ (emplace_perm a q Hq)). Qed.
Lemma todo_sublist q k : k `sublist_of` q → Forall left_ok q → todo k ≤ todo q.
Proof.
  induction 1 as [|x l k Hs IH|x l k Hs IH]; [done| |]; cbn; intros [[Hx _] Hq]%Forall_cons; specialize (IH Hq); lia.
Qed.
Lemma cnt_elem t l : 1 ≤ cnt t l → t ∈ l.
Proof. induction l as [|u l IH]; cbn; [lia|]. case_bool_decide; [subst; by left|]. cbn. intros. right. apply IH. lia. Qed.

(** The handler alone, while no attempt to reconnect succeeds and time passes. *)
Definition unanswered (x : action) : bool :=
  match x with HGo | HWake false | HResult Retry | HResult Abort | Tick _ => true | _ => false end.
Definition is_tick (x : action) : bool := match x with Tick _ => true | _ => false end.

(** How many steps of its own the handler still takes at most: five for an attempt. *)
Definition rank (st : sys) : Z :=
  match handler st with
  | HTry a => 5 * attempts_left a + 3
  | HRetry a => 5 * attempts_left a + 2
  | HGiveUp _ | HRegister _ => 2
  | HTop => 1
  | HAwake => match queue st with a :: _ => if reconnect_time a <=? clock st then -1 else 2 | [] => 2 end
  | HNone | HWait _ | HExited => 0
  end.
Definition steps_left (st : sys) : Z := 5 * todo (queue st) + rank st.

(** The thread of the handler runs, and when it sleeps, it is until the first attempt. *)
Record working (st : sys) : Prop := {
  wk_own : own st;
  wk_sched : sched st;
  wk_running : running st = true ∧ crash st = None ∧ looper st ≠ LTrackNotify;
  wk_thread : handler st ≠ HNone ∧ handler st ≠ HExited
}.

Lemma steps_left_nonneg st : working st → 0 ≤ steps_left st.
Proof.
  intros [_ Hs _ _]. pose proof (todo_nonneg _ (q_left _ Hs)) as Ht. pose proof (q_left _ Hs) as Hle.
  unfold steps_left, rank. destruct (handler st) as [| | | |a|a| | |] eqn:Hh; try lia.
  - destruct (queue st) as [|b q]; [lia|]. apply Forall_cons in Hle as [[Hb _] Hle]. pose proof (todo_nonneg _ Hle).
    cbn in *. destruct (_ <=? _); lia.
  - destruct (q_try _ Hs a Hh). lia.
  - destruct (q_retry _ Hs a Hh) as [[] _]. lia.
Qed.

(** The transports whose reconnection is pending. *)
Definition waiting (st : sys) : list nat :=
  (transport <$> queue st) ++ match handler st with HTry a | HRetry a => [transport a] | HGiveUp t => [t] | _ => [] end.

(** Every waiting transport goes on to wait, or a task to remove it is queued. *)
Definition kept_or_removed (st st' : sys) : Prop :=
  (∀ k, k ∈ run_queue st → k ∈ run_queue st') ∧
  ∀ t, t ∈ waiting st → t ∈ waiting st' ∨ TUnregister t ∈ run_queue st'.

Lemma kept_trans st1 st2 st3 : kept_or_removed st1 st2 → kept_or_removed st2 st3 → kept_or_removed st1 st3.
Proof. intros [H1 H2] [H3 H4]. split; [auto|]. intros t [Ht|Ht]%H2; auto. Qed.

Lemma run_trace_inv tr st st' : own st → sched st → run_trace tr st = Some st' → own st' ∧ sched st'.
Proof.
  revert st. induction tr as [|x tr IH]; intros st Hi Hs; cbn; [by intros [= <-]|].
  destruct (step x st) as [st1|] eqn:Hx; [|done]. cbn. apply IH; [by eapply step_own|by eapply step_sched].
Qed.

Lemma scan_gone m q gone kept t :
  scan m q = Some (gone, kept) → t ∈ transport <$> q → t ∈ transport <$> kept ∨ t ∈ gone.
Proof.
  intros Hs%(λ H, scan_cnt m q gone kept t H) Ht%cnt_pos. destruct (decide (1 ≤ cnt t gone)); [right; by apply cnt_elem|].
  left. apply cnt_elem. lia.
Qed.

(** What one step of the handler has to show besides the invariants. *)
Definition advanced (st st' : sys) : Prop :=
  (running st' = true ∧ crash st' = None ∧ looper st' ≠ LTrackNotify) ∧ (handler st' ≠ HNone ∧ handler st' ≠ HExited) ∧
  steps_left st' + 1 ≤ steps_left st ∧ kept_or_removed st st'.

(** The critical section after the wait. *)
Lemma awake_advances st : working st → handler st = HAwake → advanced st (handler_awake st).
Proof.
  intros [Hi Hs (Hrun & Hcr & Hl) _] Hh. pose proof (q_left _ Hs) as Hle.
  destruct (scan_total (transports st) (queue st)) as (gone & kept & Hsc); [by intros; apply queued_exists|].
  pose proof (scan_kept _ _ _ _ Hsc) as Hsub. pose proof (todo_sublist _ _ Hsub Hle) as Hto.
  assert (∀ t, t ∈ waiting st → t ∈ transport <$> kept ∨ TUnregister t ∈ run_queue st ++ (TUnregister <$> gone)) as Hw.
  { intros t. unfold waiting. rewrite Hh, app_nil_r. intros [Hk|Hg]%(scan_gone _ _ _ _ t Hsc); [by left|right].
    apply elem_of_app. right. by apply list_elem_of_fmap_2. }
  unfold handler_awake. rewrite Hrun, Hsc. cbn [negb]. unfold advanced, kept_or_removed, steps_left, rank. rewrite Hh.
  destruct kept as [|b k].
  - cbn. split_and!; try done; [|intros x Hx; apply elem_of_app; by left].
    destruct (queue st) as [|a q]; [cbn; lia|]. apply Forall_cons in Hle as [[Ha _] Hle]. pose proof (todo_nonneg _ Hle). cbn. case_match; lia.
  - cbn [clock set_run_queue set_queue]. destruct (Z.ltb_spec (clock st) (reconnect_time b)) as [Hlt|Hge]; cbn.
    + split_and!; try done; [|intros x Hx; apply elem_of_app; by left|unfold waiting; cbn; rewrite app_nil_r; done].
      destruct (queue st) as [|a q]; [by apply sublist_nil_r in Hsub|]. apply Forall_cons in Hle as [[Ha _] Hle].
      destruct (Z.leb_spec (reconnect_time a) (clock st)); [|cbn in *; lia].
      apply sublist_cons_r in Hsub as [Hsub|(k' & [= <- <-] & _)]; [|lia].
      pose proof (todo_sublist _ _ Hsub Hle). cbn in *. lia.
    + split_and!; try done; [|intros x Hx; apply elem_of_app; by left|].
      * destruct (queue st) as [|a q] eqn:Hq; [by apply sublist_nil_r in Hsub|]. pose proof (q_sorted _ Hs) as Hso.
        rewrite Hq in Hso. apply StronglySorted_inv in Hso as [_ Hso]. rewrite Forall_forall in Hso.
        assert (reconnect_time a ≤ reconnect_time b) as Hab.
        { pose proof (sublist_subseteq _ _ Hsub b ltac:(by left)) as [->|Hb]%elem_of_cons; [done|]. by apply before_time, Hso. }
        rewrite (proj2 (Z.leb_le _ _)) by lia. cbn in *. lia.
      * intros t Ht. unfold waiting. cbn. rewrite elem_of_app, list_elem_of_singleton.
        destruct (Hw t Ht) as [[->|?]%elem_of_cons|?]; auto.
Qed.

Lemma handler_advances st st' x :
  working st → unanswered x = true → is_tick x = false → step x st = Some st' → advanced st st'.
Proof.
  intros Hw Hx Hti. pose proof Hw as [Hi Hs (Hrun & Hcr & Hl) _]. unfold step. rewrite Hcr. destruct x; try done.
  - unfold handler_go. destruct (handler st) as [| | | |a|a|t|t|] eqn:Hh; try done; intros [= <-]; [|by apply awake_advances|..].
    all: unfold advanced, kept_or_removed, steps_left, rank, waiting; rewrite Hh; cbn; split_and!; try done; try lia; auto.
    + assert (cnt (transport a) (transport <$> queue st) = 0) as Hc by (apply held_not_queued; by rewrite ?Hh).
      assert (transport a ∉ transport <$> queue st) as Hni by (intros Hin%cnt_pos; lia).
      rewrite todo_emplace by done. cbn. lia.
    + assert (cnt (transport a) (transport <$> queue st) = 0) as Hc by (apply held_not_queued; by rewrite ?Hh).
      assert (transport a ∉ transport <$> queue st) as Hni by (intros Hin%cnt_pos; lia).
      intros t Ht. left. rewrite app_nil_r. rewrite (fmap_Permutation transport _ _ (emplace_perm (mkAttempt (transport a) (clock st + kDefaultTimeout) (attempts_left a - 1)) (queue st) Hni)). cbn.
      rewrite elem_of_app, list_elem_of_singleton in Ht. rewrite elem_of_cons. tauto.
    + intros k Hk. apply elem_of_app. by left.
    + intros u. rewrite !elem_of_app, list_elem_of_singleton. intros [Hu| ->]; [by left; left|right]. right. by left.
    + intros k Hk. apply elem_of_app. by left.
  - destruct (handler st) as [| |u| | | | | |] eqn:Hh; try done. case_match eqn:Hd; [|done]. intros [= <-].
    destruct (q_wait _ Hs u Hh) as [?| ->]; [done|]. unfold advanced, kept_or_removed, steps_left, rank, waiting. rewrite Hh.
    cbn. split_and!; try done; auto. destruct spurious; [done|]. destruct (queue st); [done|]. cbn in *. rewrite Hd. lia.
  - destruct (handler st) as [| | | |a| | | |] eqn:Hh; try done. intros [= <-]. destruct (q_try _ Hs a Hh) as [H1 H2].
    unfold advanced, kept_or_removed, steps_left, rank, waiting. rewrite Hh.
    destruct r; try done; cbn; [destruct (Z.eqb_spec (attempts_left a) 0)|]; cbn; split_and!; try done; try lia; auto.
Qed.

Lemma unanswered_step st st' x :
  working st → unanswered x = true → step x st = Some st' →
  working st' ∧ steps_left st' + Z.b2z (negb (is_tick x)) ≤ steps_left st ∧ kept_or_removed st st'.
Proof.
  intros Hw Hx Hst. pose proof Hw as [Hi Hs Hr Ht]. pose proof (step_own _ _ _ Hi Hst). pose proof (step_sched _ _ _ Hi Hs Hst).
  destruct (is_tick x) eqn:Hti.
  - destruct x as [| | | | | | | | | | | |d]; try done. unfold step in Hst. destruct (crash st) eqn:Hcr; [done|].
    destruct (Z.leb_spec 0 d); [|done]. injection Hst as <-. split; [by destruct Hr as (? & _ & ?); split|]. split; [|by split; auto].
    unfold steps_left, rank. cbn. destruct (handler st); try lia. destruct (queue st) as [|b q]; [lia|]. cbn.
    destruct (Z.leb_spec (reconnect_time b) (clock st)), (Z.leb_spec (reconnect_time b) (clock st + d)); lia.
  - destruct (handler_advances _ _ _ Hw Hx Hti Hst) as (? & ? & ? & ?). split; [by split|]. cbn. split; [lia|done].
Qed.

Definition own_steps (tr : list action) : Z := llen (filter (λ x, is_tick x = false) tr).

Lemma unanswered_run tr st st' :
  working st → forallb unanswered tr = true → run_trace tr st = Some st' →
  working st' ∧ steps_left st' + own_steps tr ≤ steps_left st ∧ kept_or_removed st st'.
Proof.
  revert st. induction tr as [|x tr IH]; intros st Hw; cbn.
  { intros _ [= <-]. split; [done|]. change (own_steps []) with 0. split; [lia|by split; auto]. }
  intros [Hx Htr]%andb_prop. destruct (step x st) as [st1|] eqn:Hst; [|done]. cbn. intros Hrun.
  destruct (unanswered_step _ _ _ Hw Hx Hst) as (Hw1 & Hle1 & Hk1). destruct (IH st1 Hw1 Htr Hrun) as (Hw2 & Hle2 & Hk2).
  split; [done|]. split; [|by eapply kept_trans]. unfold own_steps in *. rewrite filter_cons. destruct (is_tick x); cbn in *.
  - rewrite decide_False by done. lia.
  - rewrite decide_True by done. rewrite llen_cons. lia.
Qed.

(** A handler that is not done can take a step when enough time has passed. *)
Lemma handler_can_step st :
  working st → handler st ≠ HWait None →
  ∃ d x st', 0 ≤ d ∧ unanswered x = true ∧ is_tick x = false ∧ run_trace [Tick d; x] st = Some st'.
Proof.
  intros [Hi Hs (Hrun & Hcr & Hl) [Hn He]] Hw.
  assert (∀ x st', unanswered x = true → is_tick x = false → step x (set_clock (clock st + 0) st) = Some st' →
    ∃ d x st', 0 ≤ d ∧ unanswered x = true ∧ is_tick x = false ∧ run_trace [Tick d; x] st = Some st') as Hgo.
  { intros x st' Hx Ht Hst. exists 0, x, st'. split_and!; try done. cbn [run_trace].
    assert (step (Tick 0) st = Some (set_clock (clock st + 0) st)) as -> by (unfold step; by rewrite Hcr). cbn [mbind option_bind]. by rewrite Hst. }
  assert (∀ st', handler_go (set_clock (clock st + 0) st) = Some st' →
    ∃ d x st', 0 ≤ d ∧ unanswered x = true ∧ is_tick x = false ∧ run_trace [Tick d; x] st = Some st') as Hh.
  { intros st' Hst. apply (Hgo HGo st'); [done..|]. unfold step. cbn. by rewrite Hcr. }
  unfold handler_go in Hh. cbn in Hh. destruct (handler st) as [| |[u|]| |a|a|t|t|] eqn:Ha; try done; try by eapply Hh.
  - set (d := Z.max 0 (u - clock st)). exists d, (HWake false). eexists. split_and!; [lia|done..|].
    cbn. unfold step. rewrite Hcr. rewrite (proj2 (Z.leb_le 0 d)) by lia. cbn. rewrite Hcr, Ha, (proj2 (Z.leb_le _ _)) by lia. done.
  - eapply (Hgo (HResult Retry)); [done..|]. unfold step. cbn. by rewrite Hcr, Ha.
Qed.

(** C14. Transports that stay unreachable are given up.  Take any state in which the handler's
    thread runs and no notification for it is under way, and any run from there in which only
    the handler moves and time passes, and no attempt to reconnect succeeds (each fails or is
    aborted; spurious wake-ups are left out).  The handler takes a bounded number of steps in
    it ([steps_left]: at most five for each attempt that is left, and a few); no waiting
    transport is dropped; and as long as the handler is not at rest it can take another step
    when enough time has passed.  So it comes to rest, and then its queue is empty and for
    every transport that was waiting the task that removes it is queued for the looper. *)
Theorem unreachable_transports_removed n st tr st' :
  reachable n st → running st = true → crash st = None → looper st ≠ LTrackNotify →
  handler st ≠ HNone → handler st ≠ HExited → forallb unanswered tr = true → run_trace tr st = Some st' →
  own_steps tr ≤ steps_left st ∧
  (∀ t, t ∈ waiting st → t ∈ waiting st' ∨ TUnregister t ∈ run_queue st') ∧
  ((handler st' = HWait None ∧ queue st' = [] ∧ ∀ t, t ∈ waiting st → TUnregister t ∈ run_queue st') ∨
   ∃ d x st'', 0 ≤ d ∧ unanswered x = true ∧ is_tick x = false ∧ run_trace [Tick d; x] st' = Some st'').
Proof.
  intros Hr Hrun Hcr Hl Hn He Hun Htr. assert (working st) as Hw.
  { split; [by eapply reachable_own|by eapply reachable_sched|done..]. }
  destruct (unanswered_run _ _ _ Hw Hun Htr) as (Hw' & Hle & _ & Hk). pose proof (steps_left_nonneg _ Hw').
  split; [lia|]. split; [done|]. assert (handler st' = HWait None ∨ handler st' ≠ HWait None) as [Hd|Hd].
  { destruct (handler st') as [| |[]| | | | | |]; auto. }
  - left. destruct Hw' as [_ Hs' (_ & _ & Hl') _]. destruct (q_wait _ Hs' None Hd) as [?|Hq]; [done|].
    assert (queue st' = []) as Hq' by by destruct (queue st'). split_and!; try done. intros t [Ht|Ht]%Hk; [|done].
    unfold waiting in Ht. rewrite Hq', Hd in Ht. by apply elem_of_nil in Ht.
  - right. by apply handler_can_step.
Qed.

(** ** Without the handler's thread *)

(** The program never starts or stops the handler: libadb does neither. *)
Definition no_handler (x : action) : bool := match x with LStart | LStop => false | _ => true end.

Definition threadless (st : sys) : Prop := handler st = HNone ∧ (looper st = LIdle ∨ looper st = LTrackNotify).

Lemma same_threadless st st' : same_handler st st' → threadless st → threadless st' ∧ ∀ a, a ∈ queue st → a ∈ queue st'.
Proof. intros (Hq & Hh & Hl & _) [H1 H2]. unfold threadless. rewrite Hq, Hh, Hl. auto. Qed.

Lemma threadless_notify st l :
  threadless st → l = LIdle ∨ l = looper st → threadless (set_looper l (notify st)) ∧ ∀ a, a ∈ queue st → a ∈ queue (notify st).
Proof. intros [Hh Hl] [->| ->]; unfold threadless, notify; cbn; rewrite Hh; auto. Qed.

Lemma threadless_step x st st' :
  threadless st → no_handler x = true → step x st = Some st' → threadless st' ∧ ∀ a, a ∈ queue st → a ∈ queue st'.
Proof.
  intros [Hh Hl] Hx. assert (threadless st) as Ht by by split. unfold step. destruct (crash st); [done|].
  destruct x; cbn; try done; rewrite ?Hh; try done.
  - unfold idle_looper. destruct (looper st) eqn:El; try done. unfold run_task.
    destruct (run_queue st) as [|[t|t|t] q]; intros [= <-].
    + apply (same_threadless st); [|done]. apply (register_task_same (set_run_queue q st)).
    + apply (same_threadless st); [|done]. apply (unregister_task_same (set_run_queue q st)).
    + unfold transport_destroy, look. cbn. destruct (transports st !! t) as [r|]; [|by apply (same_threadless st)].
      destruct (negb (kicked r)); [|by apply (same_threadless st)]. unfold TrackTransport. cbn.
      destruct (running st); [|by apply (same_threadless st)]. split; [by split; [|right]|]. cbn. intros a. apply emplace_keeps.
  - unfold looper_go. destruct Hl as [-> | ->]; [done|]. intros [= <-]. apply threadless_notify; auto.
  - case_match; [|done]. intros [= <-]. apply (same_threadless st); [apply kick_same|done].
  - destruct (transports st !! t); [|done]. cbn. case_match; [|done]. intros [= <-]. apply (same_threadless st); [apply established_same|done].
  - unfold handler_go. by rewrite Hh.
  - intros H%call_same. by eapply same_threadless.
  - unfold client_go. destruct (clients st !! c) as [[]|]; try done.
    + intros [= <-]. apply (same_threadless st); [|done]. unfold register_push. repeat case_match; done.
    + unfold wait_done. intros H. apply (same_threadless st); [|done]. destruct (waitables st !! t) as [[]|];
        [destruct (transports st !! t)| |destruct expired]; by inversion H.
    + intros [= <-]. destruct (threadless_notify st (looper st) Ht) as [[H1 H2] H3]; [auto|]. by split; [split|].
  - destruct (transports st !! t); [|done]. cbn. case_match; [|done]. intros [= <-]. by apply (same_threadless st).
  - case_match; [|done]. intros [= <-]. by apply (same_threadless st).
Qed.

Lemma threadless_run tr st st' :
  threadless st → forallb no_handler tr = true → run_trace tr st = Some st' → threadless st' ∧ ∀ a, a ∈ queue st → a ∈ queue st'.
Proof.
  revert st. induction tr as [|x tr IH]; intros st Ht; cbn; [by intros _ [= <-]|]. intros [Hx Htr]%andb_prop.
  destruct (step x st) as [st1|] eqn:Hs; [|done]. cbn. intros Hr. destruct (threadless_step _ _ _ Ht Hx Hs) as [Ht1 Hq1].
  destruct (IH st1 Ht1 Htr Hr). split; auto.
Qed.

(** The serial of a transport does not change. *)
Definition serial_kept (st st' : sys) : Prop :=
  ∀ t r, transports st !! t = Some r → transports st' !! t = None ∨ ∃ r', transports st' !! t = Some r' ∧ serial r' = serial r.

Lemma serial_same st st' : transports st' = transports st → serial_kept st st'.
Proof. intros E t r Hr. rewrite E. eauto. Qed.
Lemma serial_update st st' t r r' :
  transports st !! t = Some r → transports st' = <[t := r']> (transports st) → serial r' = serial r → serial_kept st st'.
Proof.
  intros Hr E Hs u x Hx. rewrite E. destruct (decide (u = t)) as [->|]; [rewrite lookup_insert_eq; right; eexists; split; [done|congruence]|].
  rewrite lookup_insert_ne by done. eauto.
Qed.
Lemma Kick_serial r : serial (Kick r) = serial r.
Proof. unfold Kick. by destruct (kicked r). Qed.
Lemma kick_all_serial l st : serial_kept st (kick_all l st) ∧ ∀ t, transports st !! t = None → transports (kick_all l st) !! t = None.
Proof.
  revert st. induction l as [|t l IH]; intros st; cbn; [split; [by apply serial_same|done]|].
  unfold look. destruct (transports st !! t) as [r|] eqn:Hr; [|apply (IH (crashed by_server st))].
  destruct (IH (update t (Kick r) st)) as [H1 H2]. split.
  - intros u x Hx. destruct (serial_update st (update t (Kick r) st) t r _ Hr eq_refl (Kick_serial r) u x Hx) as [Hn|(y & Hy & Hs)].
    + left. by apply H2.
    + destruct (H1 u y Hy) as [|(z & Hz & E)]; [by left|right]. exists z. split; [done|congruence].
  - intros u Hu. apply H2. cbn. rewrite lookup_insert_ne; [done|congruence].
Qed.

Lemma task_serial st st' : run_task st = Some st' → serial_kept st st'.
Proof.
  unfold run_task. destruct (run_queue st) as [|[t|t|t] q]; intros [= <-].
  - unfold fdevent_register_transport, look. cbn. destruct (transports st !! t) as [r|] eqn:Hr; [|by apply serial_same].
    destruct (rconn r); [|by apply serial_same..]. cbn. case_bool_decide; by eapply (serial_update _ _ t r).
  - unfold fdevent_unregister_transport, look. cbn. destruct (transports st !! t) as [r|] eqn:Hr; [|by apply serial_same].
    intros u x Hx. unfold SetConnectionEstablished. cbn. destruct (waitables st !! t); cbn;
      (destruct (decide (u = t)) as [->|]; [left; apply lookup_delete_eq|right; exists x; by rewrite lookup_delete_ne]).
  - unfold transport_destroy, look. cbn. destruct (transports st !! t) as [r|] eqn:Hr; [|by apply serial_same].
    unfold TrackTransport. cbn. destruct (negb (kicked r)); [destruct (running st)|]; by eapply (serial_update _ _ t r).
Qed.

Lemma kick_serial st t : serial_kept st (kick_in_list t st).
Proof.
  unfold kick_in_list, look. case_bool_decide; [|by apply serial_same].
  destruct (transports st !! t) as [r|] eqn:Hr; [|by apply serial_same]. eapply (serial_update _ _ t r); [done..|apply Kick_serial].
Qed.

Lemma call_serial st c x st' : own st → client_call c x st = Some st' → serial_kept st st'.
Proof.
  intros Hi. unfold client_call. destruct (clients st !! c) as [[]|]; try done. intros [= <-]. destruct x.
  - unfold register_socket_transport. do 2 (case_match; [by apply serial_same|]). intros u x Hx. cbn. right. exists x.
    rewrite lookup_insert_ne; [done|]. intros <-. by rewrite (o_next _ Hi) in Hx.
  - apply (kick_serial st t).
  - apply (kick_all_serial (transport_list st) st).
Qed.

Lemma step_serial x st st' : own st → step x st = Some st' → serial_kept st st'.
Proof.
  intros Hi. unfold step. destruct (crash st); [done|]. destruct x; cbn.
  - case_match; [|done]. by apply task_serial.
  - case_match; [|done]. intros [= <-]. apply serial_same. unfold Start. by destruct (handler st).
  - case_match; [|done]. by intros [= <-]; apply serial_same.
  - unfold looper_go. destruct (looper st); try done; [..|intros [= <-]; apply (kick_all_serial (transport_list st) st)].
    + by intros [= <-]; apply serial_same.
    + by intros [= <-]; apply serial_same.
    + destruct (handler st); try done; by intros [= <-]; apply serial_same.
    + destruct (queue st); by intros [= <-]; apply serial_same.
  - case_match; [|done]. intros [= <-]. apply kick_serial.
  - destruct (transports st !! t); [|done]. cbn. case_match; [|done]. intros [= <-]. apply serial_same.
    unfold SetConnectionEstablished. by case_match.
  - unfold handler_go. destruct (handler st); try done; intros [= <-]; apply serial_same; try done.
    unfold handler_awake. repeat case_match; done.
  - destruct (handler st); try done. case_match; [|done]. by intros [= <-]; apply serial_same.
  - destruct (handler st) as [| | | |a| | | |]; try done. intros [= <-]. destruct r; cbn; [by apply serial_same| |by apply serial_same].
    unfold look. destruct (transports st !! transport a) as [y|] eqn:Hy; [|by apply serial_same]. by eapply (serial_update _ _ (transport a) y).
  - by apply call_serial.
  - unfold client_go. intros H. apply serial_same. destruct (clients st !! c) as [[]|]; try done; [..|by injection H as <-].
    + injection H as <-. unfold register_push. repeat case_match; done.
    + unfold wait_done in H. destruct (waitables st !! t) as [[]|]; [destruct (transports st !! t)| |destruct expired]; by inversion H.
  - destruct (transports st !! t) as [r|] eqn:Hr; [|done]. cbn. case_match; [|done]. intros [= <-]. by eapply (serial_update _ _ t r).
  - case_match; [|done]. by intros [= <-]; apply serial_same.
Qed.

(** A transport in the queue exists and has no open connection. *)
Lemma queued_closed st a : own st → a ∈ queue st → ∃ r, transports st !! transport a = Some r ∧ busy (rconn r) = false.
Proof.
  intros Hi Ha. destruct (queued_exists st a Hi Ha) as [r Hr]. exists r. split; [done|].
  pose proof (o_one _ Hi (transport a)) as Ho. pose proof (live_le st (transport a)). parts st (transport a). unfold owners in Ho.
  pose proof (cnt_pos (transport a) (transport <$> queue st) ltac:(by apply list_elem_of_fmap_2)).
  unfold open_at in *. rewrite Hr in *. destruct (busy (rconn r)); cbn in *; [lia|done].
Qed.

Lemma serial_run tr st st' a r :
  own st → threadless st → forallb no_handler tr = true → run_trace tr st = Some st' → a ∈ queue st → transports st !! transport a = Some r →
  own st' ∧ ∃ r', transports st' !! transport a = Some r' ∧ serial r' = serial r.
Proof.
  revert st r. induction tr as [|x tr IH]; intros st r Hi Ht; cbn; [intros _ [= <-]; eauto|]. intros [Hx Htr]%andb_prop.
  destruct (step x st) as [st1|] eqn:Hs; [|done]. cbn. intros Hrun Ha Hr. pose proof (step_own _ _ _ Hi Hs) as Hi1.
  destruct (threadless_step _ _ _ Ht Hx Hs) as [Ht1 Hq1]. destruct (queued_closed st1 a Hi1 (Hq1 a Ha)) as (y & Hy & _).
  destruct (step_serial _ _ _ Hi Hs _ _ Hr) as [E|(r1 & Hr1 & E)]; [congruence|].
  destruct (IH st1 r1 Hi1 Ht1 Htr Hrun (Hq1 a Ha) Hr1) as (Hi' & r' & Hr' & E'). split; [done|]. exists r'. split; [done|congruence].
Qed.

(** A device that was lost cannot be connected again by libadb: libadb never starts the reconnect
    handler, so a network transport whose connection fails stays in the handler's queue and in the list of
    transports for ever, without a connection, whatever clients do (kicking it included); every
    later attempt to connect to its address is refused as "already connected to", which
    the device of libadb takes for success. *)
Theorem lost_transport_blocks_address n tr st a r tr' st' :
  run_trace tr (init n) = Some st → run_trace tr' st = Some st' → forallb no_handler (tr ++ tr') = true →
  a ∈ queue st → transports st !! transport a = Some r →
  (∃ r', transports st' !! transport a = Some r' ∧ serial r' = serial r ∧ busy (rconn r') = false) ∧
  (∀ c local, register_socket_transport c (serial r) local true st' = answered (serial r) EALREADY st') ∧
  connected_serial (connect_response (serial r) EALREADY) = Some (Trim (serial r)).
Proof.
  intros H1 H2 Hno Ha Hr. rewrite forallb_app in Hno. apply andb_prop in Hno as [Hn1 Hn2]. assert (threadless (init n)) as Ht0 by (split; auto).
  destruct (threadless_run _ _ _ Ht0 Hn1 H1) as [Ht _]. assert (own st ∧ sched st) as [Hi _].
  { eapply run_trace_inv; [apply own_init|eapply reachable_sched, (reach_init n)|exact H1]. }
  destruct (serial_run _ _ _ _ _ Hi Ht Hn2 H2 Ha Hr) as (Hi' & r' & Hr' & E).
  destruct (threadless_run _ _ _ Ht Hn2 H2) as [_ Hq]. destruct (queued_closed st' a Hi' (Hq a Ha)) as (y & Hy & Hb). split_and!.
  - exists r'. split_and!; [done..|congruence].
  - intros c local. unfold register_socket_transport. cbn [negb].
    destruct (existsb _ _) eqn:Hex; [done|]. by destruct (has_serial_none _ _ Hi' Hex _ _ Hr').
  - done.
Qed.

(** ** Runs *)

Definition demo_serial : bytes := txt "10.0.0.7:5555".

(** Client 0 registers a device, whose connection is started and gets online. *)
Definition connects : list action :=
  [Call 0 (CallRegister demo_serial false true); ClientGo 0 false false; LRun; LOnline 0].
(** Its connection fails, and the handler gets to know. *)
Definition loses : list action := [Fail 0; LRun; LGo].
(** The handler, which was asleep and is woken, tries to reconnect when the time has come. *)
Definition tries : list action := [HGo; HGo; Tick track_delay; HWake false; HGo].
Definition reconnecting : list action := [LStart; HGo] ++ connects ++ [ClientGo 0 false false] ++ loses ++ tries.

Definition run_demo (tr : list action) : sys := default (init 2) (run_trace tr (init 2)).

Lemma life_reachable n tr st st' : reachable n st → run_trace tr st = Some st' → reachable n st'.
Proof.
  revert st. induction tr as [|x tr IH]; intros st Hr; cbn; [by intros [= <-]|].
  destruct (step x st) as [st1|] eqn:Hx; [|done]. cbn. apply IH. by eapply reach_step.
Qed.
Lemma run_demo_reached tr : reachable 2 (run_demo tr).
Proof.
  unfold run_demo. destruct (run_trace tr (init 2)) as [st|] eqn:E; [|apply reach_init].
  by eapply life_reachable; [apply reach_init|].
Qed.


Lemma reconnect_in_time_witness :
  let st := run_demo ([LStart; HGo] ++ connects ++ loses ++ [HGo; HGo]) in
  (∀ until a, handler st = HWait until → a ∈ queue st →
     looper st = LTrackNotify ∨ ∃ d, until = Some d ∧ d ≤ reconnect_time a) ∧
  (∀ t, cnt t (tried st) ≤ (kMaxAttempts + 1) * cnt t (tracked st)).
Proof. apply (reconnect_in_time 2), run_demo_reached. Defined.

(** All 21 attempts fail, ten seconds apart. *)
Definition fails : list action :=
  [Tick track_delay] ++ mjoin (replicate 21 [HWake false; HGo; HResult Retry; HGo; HGo; Tick kDefaultTimeout]).

Lemma unreachable_transports_removed_witness :
  let st := run_demo ([LStart; HGo] ++ connects ++ loses ++ [HGo; HGo]) in
  ∃ st', run_trace fails st = Some st' ∧ own_steps fails ≤ steps_left st ∧ waiting st = [0%nat] ∧
    queue st' = [] ∧ TUnregister 0 ∈ run_queue st'.
Proof.
  intros st. destruct (run_trace fails st) as [st'|] eqn:E; [|vm_compute in E; discriminate E]. exists st'.
  destruct (unreachable_transports_removed 2 st fails st' (run_demo_reached _) eq_refl eq_refl ltac:(vm_compute; discriminate)
    ltac:(vm_compute; discriminate) ltac:(vm_compute; discriminate) ltac:(vm_compute; reflexivity) E) as (H1 & _ & H2).
  assert (waiting st = [0%nat]) as Hw by (vm_compute; reflexivity).
  split; [reflexivity|]. split; [exact H1|]. split; [exact Hw|]. vm_compute in E. injection E as <-.
  destruct H2 as [(_ & Hq & Ht)|(d & x & st'' & _ & Hu & Hti & Hr)].
  - split; [exact Hq|]. apply Ht. rewrite Hw. left.
  - split; [reflexivity|]. left.
Defined.

Lemma lost_queue : queue (run_demo (connects ++ loses)) = [mkAttempt 0 track_delay kMaxAttempts].
Proof. vm_compute. reflexivity. Qed.

Lemma lost_transport_blocks_address_witness :
  let st := run_demo (connects ++ loses) in
  let st' := default st (run_trace [Call 1 (CallKick 0); ClientGo 1 false false] st) in
  (∃ r', transports st' !! 0%nat = Some r' ∧ serial r' = demo_serial ∧ busy (rconn r') = false) ∧
  (∀ c local, register_socket_transport c demo_serial local true st' = answered demo_serial EALREADY st') ∧
  connected_serial (connect_response demo_serial EALREADY) = Some (Trim demo_serial).
Proof.
  intros st st'.
  apply (lost_transport_blocks_address 2 (connects ++ loses) st (mkAttempt 0 track_delay kMaxAttempts)
           (mkTransport demo_serial false false Down) [Call 1 (CallKick 0); ClientGo 1 false false] st');
    [vm_compute; reflexivity..|unfold st; rewrite lost_queue; by left|vm_compute; reflexivity].
Defined.

(** What can wake a handler that sleeps for ever: a spurious wake-up, or a client that kicks. *)
Definition disturbs (x : action) : bool :=
  match x with HWake true | Call _ (CallKick _) | Call _ CallKickTcp => true | _ => false end.

Definition stuck (st : sys) : Prop :=
  handler st = HWait None ∧ looper st = LStopJoin ∧ ∀ c, clients st !! c ≠ Some CNotify.

Lemma stuck_client st st' c p :
  stuck st → p ≠ CNotify → handler st' = handler st → looper st' = looper st → clients st' = <[c := p]> (clients st) → stuck st'.
Proof.
  intros (Hh & Hl & Hc) Hp E1 E2 E3. unfold stuck. rewrite E1, E2, E3. split_and!; [done..|].
  intros d [[_ E]|[_ Hd]]%lookup_insert_Some; [done|by apply Hc in Hd].
Qed.

Lemma stuck_step x st st' : stuck st → disturbs x = false → step x st = Some st' → stuck st'.
Proof.
  intros Hst Hx. pose proof Hst as (Hh & Hl & Hc). unfold step, idle_looper, looper_go, handler_go. rewrite Hh, Hl. destruct (crash st); [done|].
  destruct x as [| | | | | | |sp| |c y|c e u|t|d]; cbn; try done.
  - by destruct (transports st !! t).
  - destruct sp; done.
  - destruct y; try done. unfold client_call. destruct (clients st !! c) as [[]|]; try done. intros [= <-].
    unfold register_socket_transport. do 2 (case_match; [exact Hst|]). by eapply (stuck_client st _ c (CPush (next_ptr st))).
  - unfold client_go. destruct (clients st !! c) as [[]|] eqn:Ec; try done; [| |by apply Hc in Ec].
    + intros [= <-]. unfold register_push. cbn. destruct (transports st !! t) as [r|]; [|done].
      destruct (emulator r); [by apply (stuck_client st _ c CIdle)|by apply (stuck_client st _ c (CWait t (serial r)))].
    + unfold wait_done. intros H. destruct (waitables st !! t) as [[]|]; [destruct (transports st !! t)| |destruct e]; try done;
        injection H as <-; first [exact Hst|by apply (stuck_client st _ c CIdle)].
  - destruct (transports st !! t); [|done]. cbn. case_match; [|done]. by intros [= <-].
  - case_match; [|done]. by intros [= <-].
Qed.

Lemma stop_lost : stuck (run_demo (reconnecting ++ [LStop; LGo; HResult Abort; HGo; HGo])).
Proof.
  split_and!; [vm_compute; reflexivity..|]. intros c. assert (clients (run_demo (reconnecting ++ [LStop; LGo; HResult Abort; HGo; HGo])) =
    {[ 0%nat := CIdle; 1%nat := CIdle ]}) as -> by (vm_compute; reflexivity).
  rewrite lookup_insert_Some, lookup_singleton_Some. naive_solver.
Qed.

(** Stopping the reconnect handler can wait for ever: Run does not look at running_ before it waits, so a
    stop that comes while the handler reconnects its only transport is forgotten: the
    notification is lost, the handler then waits without a time limit, and the looper
    waits in join until another thread kicks a transport. *)
Theorem handler_stop_never_returns :
  ∃ st, run_trace (reconnecting ++ [LStop; LGo; HResult Abort; HGo; HGo]) (init 2) = Some st ∧ running st = false ∧
    ∀ tr st', forallb (λ x, negb (disturbs x)) tr = true → run_trace tr st = Some st' → looper st' = LStopJoin ∧ handler st' = HWait None.
Proof.
  exists (run_demo (reconnecting ++ [LStop; LGo; HResult Abort; HGo; HGo])).
  split_and!; [vm_compute; reflexivity..|]. intros tr st'. generalize stop_lost. generalize (run_demo (reconnecting ++ [LStop; LGo; HResult Abort; HGo; HGo])).
  intros st Hst. revert st Hst. induction tr as [|x tr IH]; intros st Hst; cbn; [by intros _ [= <-]; destruct Hst as (? & ? & _)|].
  intros [Hx Htr]%andb_prop. destruct (step x st) as [st1|] eqn:Hs; [|done]. cbn. apply IH; [|done].
  eapply stuck_step; [done| |done]. by apply negb_true_iff.
Qed.

(** A disconnection can be lost: when a transport is kicked while the handler reconnects it and the attempt
    succeeds, it is registered again with an open connection; and since it counts as
    kicked already, kicking it again never closes that connection. *)
Theorem kick_during_reconnect_lost :
  ∃ st r, run_trace (reconnecting ++ [Call 1 (CallKick 0); ClientGo 1 false false; HResult Success; HGo; LRun]) (init 2) = Some st ∧
    transports st !! 0%nat = Some r ∧ kicked r = true ∧ rconn r = Up ∧
    ∀ c st', client_call c (CallKick 0) st = Some st' → transports st' = transports st.
Proof.
  exists (run_demo (reconnecting ++ [Call 1 (CallKick 0); ClientGo 1 false false; HResult Success; HGo; LRun])),
    (mkTransport demo_serial false true Up).
  assert (transports (run_demo (reconnecting ++ [Call 1 (CallKick 0); ClientGo 1 false false; HResult Success; HGo; LRun])) !! 0%nat =
    Some (mkTransport demo_serial false true Up)) as Hr by (vm_compute; reflexivity).
  split_and!; [vm_compute; reflexivity|exact Hr|done..|]. revert Hr. generalize (run_demo (reconnecting ++ [Call 1 (CallKick 0); ClientGo 1 false false; HResult Success; HGo; LRun])).
  intros st Hr c st'. unfold client_call. destruct (clients st !! c) as [[]|]; try done. intros [= <-]. cbn.
  unfold kick_in_list, look. rewrite Hr. case_bool_decide; [|done]. cbn. by apply insert_id.
Qed.

(** A client that waits for its connection can use a freed transport: register_socket_transport reads the
    state of the transport after WaitForConnection has told it that the connection was established, but by
    then another thread may have kicked the transport and the looper deleted it.
    The ConnectionWaitable, which outlives the transport for this reason, does not protect the read. *)
Theorem waiting_client_uses_freed_transport :
  ∃ st st', run_trace (connects ++ [Call 1 (CallKick 0); ClientGo 1 false false; Fail 0; LRun; LRun]) (init 2) = Some st ∧
    transports st !! 0%nat = None ∧ clients st !! 0%nat = Some (CWait 0 demo_serial) ∧
    step (ClientGo 0 false false) st = Some st' ∧ crash st' = Some by_waiter.
Proof.
  exists (run_demo (connects ++ [Call 1 (CallKick 0); ClientGo 1 false false; Fail 0; LRun; LRun])),
    (run_demo (connects ++ [Call 1 (CallKick 0); ClientGo 1 false false; Fail 0; LRun; LRun; ClientGo 0 false false])).
  split_and!; vm_compute; reflexivity.
Qed.
