(* ===== verification/World.v ===== *)
(** * The looper thread's state

    Sockets, transports, device trackers and listeners of the adb server live in one
    address space and are only touched by the looper thread.  This file has that state
    ([world]), the state-and-outcome monad [M] the socket code is written in, the
    interface [OS] of what the code asks the system, and the primitives shared by the
    components: heap access, [fdevent_add]/[fdevent_del], replies to a client
    (adb/adb_io.cpp) and [send_packet] (adb/transport.cpp).

    Sockets and transports are heap objects: a pointer is looked up in the heap at each
    use, [delete] removes it, and a use of a pointer that is not there is [Undef].
    Function pointers of [asocket] are enumerations of the functions assigned to them.

    Every call to the system appends an [event] to [trace]; [clock] counts the calls, so
    that an [OS] may answer the same call differently each time. *)

From S2P Require Import Prelude Types TransportFd Strings SocketSpec Transport.

(** ** Sockets (adb/socket.h) *)

Inductive enqueue_fn :=
  | local_socket_enqueue_fn | remote_socket_enqueue_fn | smart_socket_enqueue_fn | device_tracker_enqueue_fn.
Inductive ready_fn :=
  | local_socket_ready_fn | local_socket_ready_notify_fn | remote_socket_ready_fn
  | smart_socket_ready_fn | device_tracker_ready_fn.
Inductive shutdown_fn := remote_socket_shutdown_fn.
Inductive close_fn :=
  | local_socket_close_fn | local_socket_close_notify_fn | remote_socket_close_fn
  | smart_socket_close_fn | device_tracker_close_fn.

#[global] Instance close_fn_eq_dec : EqDecision close_fn.
Proof. solve_decision. Defined.
#[global] Instance enqueue_fn_eq_dec : EqDecision enqueue_fn.
Proof. solve_decision. Defined.

(** [fde] is the event mask of the socket's fdevent; [tracker] the fields a
    [device_tracker] adds to its socket. *)
Record asocket := mkSocket {
  s_id : Z;
  closing : bool;
  has_write_error : bool;
  exit_on_close : Z;
  peer : option ptr;
  enqueue : enqueue_fn;
  ready : ready_fn;
  shutdown : option shutdown_fn;
  close : close_fn;
  transport : option ptr;
  fde : option Z;
  fd : Z;
  packet_queue : IOVector;
  available_send_bytes : option Z;
  smart_socket_data : bytes;
  tracker : option (bool * TrackerOutputType)
}.

(** [new asocket()] with its function pointers assigned. *)
Definition new_socket (e : enqueue_fn) (r : ready_fn) (sh : option shutdown_fn) (c : close_fn) : asocket :=
  mkSocket 0 false false 0 None e r sh c None None (-1) empty_iov None [] None.

Definition set_id v s :=
  mkSocket v (closing s) (has_write_error s) (exit_on_close s) (peer s) (enqueue s) (ready s)
    (shutdown s) (close s) (transport s) (fde s) (fd s) (packet_queue s) (available_send_bytes
    s) (smart_socket_data s) (tracker s).
Definition set_closing v s :=
  mkSocket (s_id s) v (has_write_error s) (exit_on_close s) (peer s) (enqueue s) (ready s)
    (shutdown s) (close s) (transport s) (fde s) (fd s) (packet_queue s) (available_send_bytes
    s) (smart_socket_data s) (tracker s).
Definition set_write_error v s :=
  mkSocket (s_id s) (closing s) v (exit_on_close s) (peer s) (enqueue s) (ready s) (shutdown s)
    (close s) (transport s) (fde s) (fd s) (packet_queue s) (available_send_bytes s)
    (smart_socket_data s) (tracker s).
Definition set_peer v s :=
  mkSocket (s_id s) (closing s) (has_write_error s) (exit_on_close s) v (enqueue s) (ready s)
    (shutdown s) (close s) (transport s) (fde s) (fd s) (packet_queue s) (available_send_bytes
    s) (smart_socket_data s) (tracker s).
Definition set_fns r sh c s :=
  mkSocket (s_id s) (closing s) (has_write_error s) (exit_on_close s) (peer s) (enqueue s) r sh
    c (transport s) (fde s) (fd s) (packet_queue s) (available_send_bytes s) (smart_socket_data
    s) (tracker s).
Definition set_transport v s :=
  mkSocket (s_id s) (closing s) (has_write_error s) (exit_on_close s) (peer s) (enqueue s)
    (ready s) (shutdown s) (close s) v (fde s) (fd s) (packet_queue s) (available_send_bytes s)
    (smart_socket_data s) (tracker s).
Definition set_fde v s :=
  mkSocket (s_id s) (closing s) (has_write_error s) (exit_on_close s) (peer s) (enqueue s)
    (ready s) (shutdown s) (close s) (transport s) v (fd s) (packet_queue s)
    (available_send_bytes s) (smart_socket_data s) (tracker s).
Definition set_fd v s :=
  mkSocket (s_id s) (closing s) (has_write_error s) (exit_on_close s) (peer s) (enqueue s)
    (ready s) (shutdown s) (close s) (transport s) (fde s) v (packet_queue s)
    (available_send_bytes s) (smart_socket_data s) (tracker s).
Definition set_queue v s :=
  mkSocket (s_id s) (closing s) (has_write_error s) (exit_on_close s) (peer s) (enqueue s)
    (ready s) (shutdown s) (close s) (transport s) (fde s) (fd s) v (available_send_bytes s)
    (smart_socket_data s) (tracker s).
Definition set_available v s :=
  mkSocket (s_id s) (closing s) (has_write_error s) (exit_on_close s) (peer s) (enqueue s)
    (ready s) (shutdown s) (close s) (transport s) (fde s) (fd s) (packet_queue s) v
    (smart_socket_data s) (tracker s).
Definition set_smart_data v s :=
  mkSocket (s_id s) (closing s) (has_write_error s) (exit_on_close s) (peer s) (enqueue s)
    (ready s) (shutdown s) (close s) (transport s) (fde s) (fd s) (packet_queue s)
    (available_send_bytes s) v (tracker s).
Definition set_tracker v s :=
  mkSocket (s_id s) (closing s) (has_write_error s) (exit_on_close s) (peer s) (enqueue s)
    (ready s) (shutdown s) (close s) (transport s) (fde s) (fd s) (packet_queue s)
    (available_send_bytes s) (smart_socket_data s) v.

(** ** Listeners (adb/adb_listeners.cpp) *)

(** [l_fde] is the event mask of the listener's fdevent. *)
Record alistener := mkListener {
  l_ptr : ptr;
  l_fd : Z;
  l_fde : Z;
  local_name : bytes;
  connect_to : bytes;
  l_transport : option ptr
}.

(** ** Events and the state *)

(** The service threads of adb/services.cpp, with the arguments they are bound to. *)
Inductive service_thread :=
  | wait_service_thread (serial : bytes) (transport_id : Z) (spec : bytes)
  | connect_service_thread (host : bytes)
  | pair_service_thread (host password : bytes).

Inductive event :=
  | EvPacket (t : ptr) (p : apacket)           (** handed to a transport's connection *)
  | EvWritev (fd : Z) (data : bytes)           (** offered to [adb_writev] *)
  | EvRead (fd : Z) (data : bytes)             (** what [adb_read] returned *)
  | EvReply (fd : Z) (data : bytes)            (** [WriteFdExactly] *)
  | EvDeferredClose (fd : Z)
  | EvConnect (target : connect_target)
  | EvListen (target : listen_target)
  | EvAccept (fd : Z)
  | EvClose (fd : Z)
  | EvThread (service : bytes)                 (** a thread was started *)
  | EvService (fd : Z) (s : service_thread)    (** a service thread on the other end of [fd] *)
  | EvWake                                     (** a waiting thread was notified *)
  | EvRegister (t : ptr).                      (** [register_transport]: a task for the looper *)

Record world := mkWorld {
  socks : gmap ptr asocket;
  next_ptr : ptr;
  local_socket_list : list ptr;
  local_socket_closing_list : list ptr;
  local_socket_next_id : Z;
  g_delayed_ack_bytes : Z;
  transports : gmap ptr atransport;
  transport_list : list ptr;
  pending_list : list ptr;
  device_tracker_list : list ptr;
  listener_list : list alistener;
  local_transports : gmap Z ptr;
  next_transport_id : Z;
  transports_ready : bool;
  device_scan_complete : bool;
  clock : nat;
  trace : list event
}.

Definition set_socks v w :=
  mkWorld v (next_ptr w) (local_socket_list w) (local_socket_closing_list w)
    (local_socket_next_id w) (g_delayed_ack_bytes w) (transports w) (transport_list w)
    (pending_list w) (device_tracker_list w) (listener_list w) (local_transports w) (next_transport_id w) (transports_ready w)
    (device_scan_complete w) (clock w) (trace w).
Definition set_next_ptr v w :=
  mkWorld (socks w) v (local_socket_list w) (local_socket_closing_list w) (local_socket_next_id
    w) (g_delayed_ack_bytes w) (transports w) (transport_list w) (pending_list w)
    (device_tracker_list w) (listener_list w) (local_transports w) (next_transport_id w) (transports_ready w) (device_scan_complete w)
    (clock w) (trace w).
Definition set_lists v1 v2 w :=
  mkWorld (socks w) (next_ptr w) v1 v2 (local_socket_next_id w) (g_delayed_ack_bytes w)
    (transports w) (transport_list w) (pending_list w) (device_tracker_list w) (listener_list w) (local_transports w) (next_transport_id w)
    (transports_ready w) (device_scan_complete w) (clock w) (trace w).
Definition set_next_id v w :=
  mkWorld (socks w) (next_ptr w) (local_socket_list w) (local_socket_closing_list w) v
    (g_delayed_ack_bytes w) (transports w) (transport_list w) (pending_list w)
    (device_tracker_list w) (listener_list w) (local_transports w) (next_transport_id w) (transports_ready w) (device_scan_complete w)
    (clock w) (trace w).
Definition set_transports v w :=
  mkWorld (socks w) (next_ptr w) (local_socket_list w) (local_socket_closing_list w)
    (local_socket_next_id w) (g_delayed_ack_bytes w) v (transport_list w) (pending_list w)
    (device_tracker_list w) (listener_list w) (local_transports w) (next_transport_id w) (transports_ready w) (device_scan_complete w)
    (clock w) (trace w).
Definition set_transport_lists v1 v2 w :=
  mkWorld (socks w) (next_ptr w) (local_socket_list w) (local_socket_closing_list w)
    (local_socket_next_id w) (g_delayed_ack_bytes w) (transports w) v1 v2 (device_tracker_list
    w) (listener_list w) (local_transports w) (next_transport_id w) (transports_ready w) (device_scan_complete w) (clock w) (trace w).
Definition set_trackers v w :=
  mkWorld (socks w) (next_ptr w) (local_socket_list w) (local_socket_closing_list w)
    (local_socket_next_id w) (g_delayed_ack_bytes w) (transports w) (transport_list w)
    (pending_list w) v (listener_list w) (local_transports w) (next_transport_id w) (transports_ready w) (device_scan_complete w) (clock w)
    (trace w).
Definition set_listeners v w :=
  mkWorld (socks w) (next_ptr w) (local_socket_list w) (local_socket_closing_list w)
    (local_socket_next_id w) (g_delayed_ack_bytes w) (transports w) (transport_list w)
    (pending_list w) (device_tracker_list w) v (local_transports w) (next_transport_id w) (transports_ready w) (device_scan_complete w)
    (clock w) (trace w).
Definition set_ready_flag v w :=
  mkWorld (socks w) (next_ptr w) (local_socket_list w) (local_socket_closing_list w)
    (local_socket_next_id w) (g_delayed_ack_bytes w) (transports w) (transport_list w)
    (pending_list w) (device_tracker_list w) (listener_list w) (local_transports w) (next_transport_id w) v (device_scan_complete w) (clock
    w) (trace w).
Definition set_log v1 v2 w :=
  mkWorld (socks w) (next_ptr w) (local_socket_list w) (local_socket_closing_list w)
    (local_socket_next_id w) (g_delayed_ack_bytes w) (transports w) (transport_list w)
    (pending_list w) (device_tracker_list w) (listener_list w) (local_transports w) (next_transport_id w) (transports_ready w)
    (device_scan_complete w) v1 v2.
Definition set_emulators v1 v2 w :=
  mkWorld (socks w) (next_ptr w) (local_socket_list w) (local_socket_closing_list w)
    (local_socket_next_id w) (g_delayed_ack_bytes w) (transports w) (transport_list w)
    (pending_list w) (device_tracker_list w) (listener_list w) v1 v2 (transports_ready w)
    (device_scan_complete w) (clock w) (trace w).

(** ** The monad *)

Definition M (A : Type) : Type := world → res (A * world).

#[global] Instance M_ret : MRet M := λ A a w, Ok (a, w).
#[global] Instance M_bind : MBind M := λ A B f m w,
  match m w with
  | Ok (a, w') => f a w'
  | Fatal => Fatal
  | Undef => Undef
  | Exit => Exit
  | NoFuel => NoFuel
  end.

Definition lift {A} (r : res A) : M A := λ w,
  match r with
  | Ok a => Ok (a, w)
  | Fatal => Fatal
  | Undef => Undef
  | Exit => Exit
  | NoFuel => NoFuel
  end.
Definition gets {A} (f : world → A) : M A := λ w, Ok (f w, w).
Definition modify (f : world → world) : M unit := λ w, Ok ((), f w).
Definition when (b : bool) (m : M unit) : M unit := if b then m else mret ().

(** ** The heap *)

(** [p->...]: the object, which must be there. *)
Definition sget (p : ptr) : M asocket := λ w,
  match socks w !! p with Some s => Ok (s, w) | None => Undef end.
Definition supd (p : ptr) (f : asocket → asocket) : M unit :=
  s ← sget p; modify (λ w, set_socks (<[p := f s]> (socks w)) w).
(** [delete p]. *)
Definition sfree (p : ptr) : M unit :=
  _ ← sget p; modify (λ w, set_socks (delete p (socks w)) w).
Definition snew (s : asocket) : M ptr := λ w,
  Ok (next_ptr w, set_next_ptr (Pos.succ (next_ptr w)) (set_socks (<[next_ptr w := s]> (socks w)) w)).

Definition tget (t : ptr) : M atransport := λ w,
  match transports w !! t with Some tr => Ok (tr, w) | None => Undef end.
Definition tput (t : ptr) (tr : atransport) : M unit :=
  modify (λ w, set_transports (<[t := tr]> (transports w)) w).
Definition tupd (t : ptr) (f : atransport → res atransport) : M unit :=
  tr ← tget t; tr' ← lift (f tr); tput t tr'.

(** ** The system *)

Inductive read_answer := RdEAGAIN | RdError | RdData (data : bytes).

Class OS := {
  os_writev : nat → Z → bytes → WriteOutcome;
  os_read : nat → Z → Z → read_answer;
  (** Does [WriteFdExactly] succeed? *)
  os_write_exactly : nat → Z → bytes → bool;
  (** Does the transport's connection take the packet? *)
  os_conn_write : nat → ptr → apacket → bool;
  (** the system's part of [socket_spec_connect] and [socket_spec_listen] (the error, or
      the descriptor and the port of a tcp or vsock socket, 0 for others),
      [adb_socketpair], [accept]: the new descriptor *)
  os_connect : nat → connect_target → option Z;
  os_listen : nat → listen_target → bytes + (Z * Z);
  os_socketpair : nat → option Z;
  os_accept : nat → Z → option Z
}.

(** writev(2) and read(2): no more bytes than were offered or asked for (Linux
    transfers at most 0x7ffff000 bytes a call).  A descriptor is not negative. *)
Class OSLaws `{OS} := {
  os_writev_le : ∀ n fd data rc, os_writev n fd data = Written rc →
    0 ≤ rc ≤ llen data ∧ rc ≤ 0x7ffff000;
  os_read_le : ∀ n fd len data, os_read n fd len = RdData data → llen data ≤ len;
  os_connect_fd : ∀ n target fd, os_connect n target = Some fd → 0 ≤ fd;
  os_accept_fd : ∀ n l fd, os_accept n l = Some fd → 0 ≤ fd;
  os_socketpair_fd : ∀ n fd, os_socketpair n = Some fd → 0 ≤ fd
}.

Section primitives.
Context `{OS}.

(** Logs a call and advances the clock. *)
Definition emit (e : event) : M nat := λ w,
  Ok (clock w, set_log (S (clock w)) (trace w ++ [e]) w).

(** ** fdevent *)

Definition fdevent_add (p : ptr) (events : Z) : M unit :=
  s ← sget p; st ← lift (deref (fde s)); supd p (set_fde (Some (Z.lor st events))).
Definition fdevent_del (p : ptr) (events : Z) : M unit :=
  s ← sget p; st ← lift (deref (fde s)); supd p (set_fde (Some (Z.ldiff st events))).

Definition adb_read (fd len : Z) : M read_answer :=
  n ← gets clock;
  let r := os_read n fd len in
  _ ← emit (EvRead fd match r with RdData data => data | _ => [] end);
  mret r.

(** ** Replies to a client (adb/adb_io.cpp) *)

Definition WriteFdExactly (fd : Z) (data : bytes) : M bool :=
  n ← emit (EvReply fd data); mret (os_write_exactly n fd data).

Fixpoint hex_loop (fuel : nat) (n : Z) (acc : bytes) : bytes :=
  match fuel with
  | O => acc
  | S fuel => if n =? 0 then acc else hex_loop fuel (n / 16) (hex_digit (n mod 16) :: acc)
  end.
(** [%04x] of an unsigned int. *)
Definition fmt_04x (n : Z) : bytes :=
  let ds := hex_loop 8 n [] in replicate (4 - length ds) x30 ++ ds.

(** The bytes [SendProtocolString] writes, unless the string is too long. *)
Definition protocol_string (s : bytes) : option bytes :=
  let length := u32 (llen s) in
  if MAX_PAYLOAD - 4 <? length then None else Some (fmt_04x length ++ s).
Definition SendProtocolString (fd : Z) (s : bytes) : M bool :=
  match protocol_string s with
  | None => mret false
  | Some str => WriteFdExactly fd str
  end.
Definition SendOkay (fd : Z) : M bool := WriteFdExactly fd (txt "OKAY").
Definition SendFail (fd : Z) (reason : bytes) : M bool :=
  ok ← WriteFdExactly fd (txt "FAIL");
  if ok : bool then SendProtocolString fd reason else mret false.

(** ** Packets *)

Definition get_apacket : apacket := mkPacket (mkMsg 0 0 0 0 0 0) empty_block.
(** A packet without payload. *)
Definition bare_packet (command arg0 arg1 : Z) : apacket :=
  mkPacket (mkMsg command arg0 arg1 0 0 0) empty_block.

Definition atransport_Write (t : ptr) (p : apacket) : M bool :=
  tr ← tget t;
  _ ← lift (deref (connection_ tr));
  n ← emit (EvPacket t p);
  mret (os_conn_write n t p).

Definition send_packet (p : apacket) (t : ptr) : M unit :=
  tr ← tget t;
  p' ← lift (finish_packet p tr);
  ok ← atransport_Write t p';
  when (negb ok) (tupd t Kick).

Definition send_ready `{Uninit} (local remote : Z) (t : ptr) (ack_bytes : Z) : M unit :=
  tr ← tget t;
  if delayed_ack_ tr then
    payload ← lift (block_of_range (le32 ack_bytes));
    send_packet (mkPacket (mkMsg A_OKAY local remote 4 0 0) payload) t
  else send_packet (bare_packet A_OKAY local remote) t.

Definition send_close (local remote : Z) (t : ptr) : M unit :=
  send_packet (bare_packet A_CLSE local remote) t.
End primitives.

(** ** Reasoning about the monad

    [wp F m Q w]: run from [w], [m] returns a result and a state that satisfy [Q], or it
    aborts and [F] says that this may happen.  It is never undefined, never exits and
    never runs out of fuel. *)
Definition wp {A} (F : Prop) (m : M A) (Q : A → world → Prop) (w : world) : Prop :=
  match m w with
  | Ok (a, w') => Q a w'
  | Fatal => F
  | Undef | Exit | NoFuel => False
  end.

Section wp.
Context {F : Prop}.

Lemma wp_ret {A} (a : A) Q w : Q a w → wp F (mret a) Q w.
Proof. done. Qed.
Lemma wp_bind {A B} (m : M A) (f : A → M B) Q w :
  wp F m (λ a, wp F (f a) Q) w → wp F (m ≫= f) Q w.
Proof. unfold wp, mbind, M_bind. by destruct (m w) as [[a w']| | | |]. Qed.
Lemma wp_bind_inv {A B} (m : M A) (f : A → M B) Q w :
  wp F (m ≫= f) Q w → wp F m (λ a, wp F (f a) Q) w.
Proof. unfold wp, mbind, M_bind. by destruct (m w) as [[a w']| | | |]. Qed.
Lemma wp_mono {A} (m : M A) (Q Q' : A → world → Prop) w :
  wp F m Q w → (∀ a w', Q a w' → Q' a w') → wp F m Q' w.
Proof. unfold wp. destruct (m w) as [[a w']| | | |]; naive_solver. Qed.
Lemma wp_weaken {A} (F' : Prop) (m : M A) Q w : wp F' m Q w → (F' → F) → wp F m Q w.
Proof. unfold wp. destruct (m w) as [[a w']| | | |]; naive_solver. Qed.
Lemma wp_lift {A} (r : res A) a Q w : r = Ok a → Q a w → wp F (lift r) Q w.
Proof. intros ->. done. Qed.
Lemma wp_gets {A} (f : world → A) (Q : A → world → Prop) w : Q (f w) w → wp F (gets f) Q w.
Proof. done. Qed.
Lemma wp_modify f (Q : unit → world → Prop) w : Q () (f w) → wp F (modify f) Q w.
Proof. done. Qed.
Lemma wp_sget p s (Q : asocket → world → Prop) w :
  socks w !! p = Some s → Q s w → wp F (sget p) Q w.
Proof. unfold wp, sget. by intros ->. Qed.
Lemma wp_supd p s f (Q : unit → world → Prop) w :
  socks w !! p = Some s → Q () (set_socks (<[p := f s]> (socks w)) w) → wp F (supd p f) Q w.
Proof. intros Hs HQ. unfold supd. eapply wp_bind, wp_sget; [done|]. done. Qed.
Lemma wp_sfree p s (Q : unit → world → Prop) w :
  socks w !! p = Some s → Q () (set_socks (delete p (socks w)) w) → wp F (sfree p) Q w.
Proof. intros Hs HQ. unfold sfree. eapply wp_bind, wp_sget; [done|]. done. Qed.
Lemma wp_tget t tr (Q : atransport → world → Prop) w :
  transports w !! t = Some tr → Q tr w → wp F (tget t) Q w.
Proof. unfold wp, tget. by intros ->. Qed.
Lemma wp_when (b : bool) m (Q : unit → world → Prop) w :
  (b = true → wp F m Q w) → (b = false → Q () w) → wp F (when b m) Q w.
Proof. destruct b; [auto|]. intros _ HQ. by apply HQ. Qed.
Lemma wp_emit e (Q : nat → world → Prop) w :
  Q (clock w) (set_log (S (clock w)) (trace w ++ [e]) w) → wp F (emit e) Q w.
Proof. done. Qed.
End wp.

(** Runs one step whose operands are known. *)
Ltac wstep :=
  lazymatch goal with
  | |- wp _ (mbind _ _) _ _ => apply wp_bind
  | |- wp _ (mret _) _ _ => apply wp_ret
  | |- wp _ (gets _) _ _ => apply wp_gets; cbv beta
  | |- wp _ (modify _) _ _ => apply wp_modify; cbv beta
  | |- wp _ (emit _) _ _ => apply wp_emit
  | |- wp _ (lift (Ok _)) _ _ => eapply wp_lift; [reflexivity|]
  | |- wp _ (sget _) _ _ => eapply wp_sget; [eassumption|]
  | |- wp _ (supd _ _) _ _ => eapply wp_supd; [eassumption|]
  | |- wp _ (sfree _) _ _ => eapply wp_sfree; [eassumption|]
  | |- wp _ (tget _) _ _ => eapply wp_tget; [eassumption|]
  end.

(** Reduces projections of assignments, and nothing else. *)
Ltac wcbn :=
  cbn [socks next_ptr local_socket_list local_socket_closing_list local_socket_next_id
       g_delayed_ack_bytes transports transport_list pending_list device_tracker_list listener_list
       local_transports next_transport_id set_emulators
       transports_ready device_scan_complete clock trace
       set_socks set_next_ptr set_lists set_next_id set_transports set_transport_lists set_trackers
       set_listeners set_ready_flag set_log
       s_id closing has_write_error exit_on_close peer enqueue ready shutdown close transport fde fd
       packet_queue available_send_bytes smart_socket_data tracker
       set_id set_closing set_write_error set_peer set_fns set_transport set_fde set_fd set_queue
       set_available set_smart_data set_tracker] in *.

(** ** A system and a state, for evaluation *)

(** Descriptors take everything at once, have nothing to read, and connections work. *)
Definition quiet_os : OS := {|
  os_writev _ _ data := Written (Z.min (llen data) 0x7ffff000);
  os_read _ _ _ := RdEAGAIN;
  os_write_exactly _ _ _ := true;
  os_conn_write _ _ _ := true;
  os_connect _ _ := Some 40;
  os_listen _ target := match target with ListenLoopback p _ => inr (50, p) | _ => inr (50, 0) end;
  os_socketpair _ := Some 41;
  os_accept _ _ := Some 42
|}.

Lemma quiet_os_laws : @OSLaws quiet_os.
Proof.
  split.
  - intros n fd data rc [= <-]. pose proof (llen_nonneg data). lia.
  - intros n fd len data [=].
  - by intros n target fd [= <-].
  - by intros n l fd [= <-].
  - by intros n fd [= <-].
Qed.

(** The state of a server that has just started. *)
Definition empty_world : world :=
  mkWorld ∅ 1 [] [] 1 (1024 * 1024) ∅ [] [] [] [] ∅ 1 false false 0 [].

(** A connected transport. *)
Definition online_transport (id : Z) (ser : bytes) : atransport :=
  set_connection (Some (mkConnStatus false false))
    (set_online true (set_connection_state kCsDevice (set_serial ser (new_transport id kCsOffline)))).

(** One transport, at address 1. *)
Definition one_transport : world :=
  set_next_ptr 2 (set_transport_lists [1%positive] [] (set_transports {[1%positive := online_transport 1 (txt "dev")]} empty_world)).
