(* ===== verification/Io.v ===== *)
(** * Exact reads and writes, protocol strings, and the shell protocol

    Models adb/adb_io.cpp ([ReadFdExactly], [WriteFdExactly], [ReadProtocolString],
    [ReadOrderlyShutdown]), adb/shell_protocol.h with shell_service_protocol.cpp
    ([ShellProtocol]) and the reader of a shell session, [AdbSession::readerThread] of
    adb/lib/src/AdbSession.cpp.

    A descriptor that is read from is the list of the pieces in which the kernel hands out
    its bytes: one [read] returns at most one piece, and what does not fit stays for the next
    call.  An empty piece is an end of file.  A descriptor that is written to is the list
    of the kernel's answers. *)

From S2P Require Import Prelude Types TransportFd Strings SocketSpec Transport World.

(** ** adb_io.cpp *)

(** What has been read so far is the second part, also when the read fails. *)
Fixpoint ReadFdExactly (len : Z) (fd : list bytes) : bool * bytes * list bytes :=
  if len <=? 0 then (true, [], fd) else
  match fd with
  | [] => (false, [], [])
  | c :: cs =>
      if llen c =? 0 then (false, [], cs) else
      if llen c <=? len then
        let '(ok, data, cs') := ReadFdExactly (len - llen c) cs in (ok, c ++ data, cs')
      else (true, ltake len c, ldrop len c :: cs)
  end.

Inductive write_answer := WTook (n : Z) | WAgain | WError.

(** [None] when the answers end before the call does: the writer is blocked. *)
Fixpoint WriteFdExactly_loop (data : bytes) (answers : list write_answer) : option bool * bytes :=
  match data with
  | [] => (Some true, [])
  | _ =>
      match answers with
      | [] => (None, [])
      | WAgain :: answers => WriteFdExactly_loop data answers
      | WError :: _ => (Some false, [])
      | WTook n :: answers =>
          let '(ok, out) := WriteFdExactly_loop (ldrop n data) answers in (ok, ltake n data ++ out)
      end
  end.

(** [strtoul(buf, nullptr, 16)] *)
Definition strtoul16 (buf : bytes) : Z :=
  match strto 16 (drop_while_space (c_str buf)) with
  | Some (neg, v, _) => if neg : bool then u64 (- v) else v
  | None => 0
  end.

(** The result is the string, or [None] with an error.  [std::string::resize] throws for a
    length above [max_size()], which nothing catches. *)
Definition ReadProtocolString (fd : list bytes) : res (option bytes * list bytes) :=
  match ReadFdExactly 4 fd with
  | (false, _, fd) => Ok (None, fd)
  | (true, buf, fd) =>
      let len := strtoul16 buf in
      if 2 ^ 63 - 1 <? len then Fatal else
      match ReadFdExactly len fd with
      | (false, _, fd) => Ok (None, fd)
      | (true, s, fd) => Ok (Some s, fd)
      end
  end.

(** The three outcomes of one [adb_read] of 16 bytes; [RdEAGAIN] aborts.  The second part
    tells whether the socket is shut down. *)
Definition ReadOrderlyShutdown (answer : read_answer) : res (bool * bool) :=
  match answer with
  | RdEAGAIN => Fatal
  | RdError => Ok (false, false)
  | RdData [] => Ok (true, false)
  | RdData _ => Ok (false, true)
  end.

(** ** ShellProtocol *)

Definition kIdStdin : Z := 0.
Definition kIdStdout : Z := 1.
Definition kIdStderr : Z := 2.
Definition kIdExit : Z := 3.
Definition kIdCloseStdin : Z := 4.
Definition kIdWindowSizeChange : Z := 5.
Definition kIdInvalid : Z := 255.
Definition kHeaderSize : Z := 5.

(** [buffer_] as far as it has been written: a place that was not is [None], and so is
    everything after the end of the list. *)
Record ShellProtocol := mkShell {
  buffer_ : list (option byte); data_length_ : Z; bytes_left_ : Z
}.
Definition new_ShellProtocol : ShellProtocol := mkShell [Some (zbyte kIdInvalid)] 0 0.

(** Copying into the buffer at an offset. *)
Definition overlay (off : Z) (d : bytes) (buf : list (option byte)) : list (option byte) :=
  ltake off (buf ++ replicate (Z.to_nat off) None) ++ (Some <$> d) ++ ldrop (off + llen d) buf.

(** [buffer_[0]] is a (signed) [char]. *)
Definition shell_id (p : ShellProtocol) : Z :=
  match buffer_ p with
  | Some b :: _ => if bval b <? 128 then bval b else bval b - 256
  | _ => 0
  end.
(** [data()[i]] *)
Definition shell_data_at (p : ShellProtocol) (i : Z) : res byte :=
  match lget (ldrop kHeaderSize (buffer_ p)) i with Some (Some b) => Ok b | _ => Undef end.
(** The first [data_length()] bytes of [data()]. *)
Definition shell_data (p : ShellProtocol) : bytes :=
  omap (λ x, x) (ltake (data_length_ p) (ldrop kHeaderSize (buffer_ p))).

(** [memcpy(&packet_length, &buffer_[1], 4)] *)
Definition packet_length (buf : list (option byte)) : Z :=
  match of_le32 (omap (λ x, x) (ltake 4 (ldrop 1 buf))) with Some n => n | None => 0 end.

(** The part of [Read] after the header; [capacity] is [data_capacity()]. *)
Definition read_data (capacity : Z) (p : ShellProtocol) (fd : list bytes) : bool * ShellProtocol * list bytes :=
  let read_length := Z.min (bytes_left_ p) capacity in
  let '(ok, d, fd) := ReadFdExactly read_length fd in
  let buf := overlay kHeaderSize d (buffer_ p) in
  if ok then (true, mkShell buf read_length (bytes_left_ p - read_length), fd)
  else (false, mkShell buf (data_length_ p) (bytes_left_ p), fd).

Definition shell_Read (capacity : Z) (p : ShellProtocol) (fd : list bytes) : bool * ShellProtocol * list bytes :=
  if bytes_left_ p =? 0 then
    let '(ok, h, fd) := ReadFdExactly kHeaderSize fd in
    let buf := overlay 0 h (buffer_ p) in
    if ok then read_data capacity (mkShell buf 0 (packet_length buf)) fd
    else (false, mkShell buf (data_length_ p) (bytes_left_ p), fd)
  else read_data capacity p fd.

(** What [Write] sends when [data] is in the buffer. *)
Definition shell_packet (id : byte) (data : bytes) : bytes := id :: le32 (u32 (llen data)) ++ data.

(** ** AdbSession::readerThread *)

(** What the listener is told: [is_stderr] and the data. *)
Definition shell_output : Type := bool * bytes.

(** One turn of the loop after a successful [Read]. *)
Definition on_shell_packet (p : ShellProtocol) (out : list shell_output) (exit_code : Z) : res (list shell_output * Z) :=
  if shell_id p =? kIdStdout then Ok (out ++ [(false, shell_data p)], exit_code)
  else if shell_id p =? kIdStderr then Ok (out ++ [(true, shell_data p)], exit_code)
  else if shell_id p =? kIdExit then b ← shell_data_at p 0; Ok (out, bval b)
  else Ok (out, exit_code).

Fixpoint shell_v2_loop (fuel : nat) (capacity : Z) (p : ShellProtocol) (fd : list bytes)
    (out : list shell_output) (exit_code : Z) : res (list shell_output * Z) :=
  match fuel with
  | O => NoFuel
  | S fuel =>
      let '(ok, p', fd') := shell_Read capacity p fd in
      if ok : bool then
        '(out', code) ← on_shell_packet p' out exit_code;
        shell_v2_loop fuel capacity p' fd' out' code
      else Ok (out, exit_code)
  end.

(** The plain mode: every piece up to 4096 bytes is output, until the end or [is_aborted_]
    (one answer per turn). *)
Fixpoint legacy_loop (fuel : nat) (aborted : list bool) (fd : list bytes) (out : list shell_output) : res (list shell_output) :=
  match fuel with
  | O => NoFuel
  | S fuel =>
      if default false (head aborted) then Ok out else
      match fd with
      | [] | [] :: _ => Ok out
      | c :: cs =>
          legacy_loop fuel (tail aborted) (if llen c <=? 4096 then cs else ldrop 4096 c :: cs)
            (out ++ [(false, ltake 4096 c)])
      end
  end.

(** The fuel of the loops: each turn takes at least one byte from the descriptor. *)
Definition fd_fuel (fd : list bytes) : nat := S (length (concat fd)).

Definition kBufferSize : Z := MAX_PAYLOAD.
Definition readerThread (use_shell_v2 : bool) (aborted : list bool) (fd : list bytes) : res (list shell_output * Z) :=
  if use_shell_v2 then shell_v2_loop (fd_fuel fd) (kBufferSize - kHeaderSize) new_ShellProtocol fd [] 255
  else out ← legacy_loop (fd_fuel fd) aborted fd []; Ok (out, 255).

(** ** Exact reads *)

Definition pieces_ok (fd : list bytes) : Prop := Forall (λ c, c ≠ []) fd.

Lemma ReadFdExactly_ok fd : ∀ n,
  pieces_ok fd → 0 ≤ n ≤ llen (concat fd) →
  ∃ fd', ReadFdExactly n fd = (true, ltake n (concat fd), fd') ∧ concat fd' = ldrop n (concat fd) ∧ pieces_ok fd'.
Proof.
  induction fd as [|c cs IH]; intros n Hok Hn.
  - change (llen (concat [])) with 0 in Hn. assert (n = 0) as -> by lia. by exists [].
  - cbn [ReadFdExactly concat] in *. destruct (Z.leb_spec n 0).
    { assert (n = 0) as -> by lia. exists (c :: cs). by rewrite ltake_0, ldrop_0. }
    apply Forall_cons in Hok as [Hc Hcs]. rewrite llen_app in Hn.
    destruct (Z.eqb_spec (llen c) 0) as [E|_]; [by apply llen_0 in E|].
    pose proof (llen_nonneg c). destruct (Z.leb_spec (llen c) n).
    + destruct (IH (n - llen c)) as (fd' & -> & Hcat & Hok'); [done|lia|]. exists fd'.
      rewrite ltake_app_ge, ldrop_app_ge by lia. done.
    + exists (ldrop n c :: cs). rewrite ltake_app_le, ldrop_app_le by lia. split; [done|]. split; [done|].
      constructor; [|done]. intros E. pose proof (llen_ldrop n c ltac:(lia)) as Hl. rewrite E, llen_nil in Hl. lia.
Qed.

Lemma ReadFdExactly_short fd : ∀ n,
  pieces_ok fd → llen (concat fd) < n → ReadFdExactly n fd = (false, concat fd, []).
Proof.
  induction fd as [|c cs IH]; intros n Hok Hn; cbn [ReadFdExactly concat] in *.
  - change (llen []) with 0 in Hn. destruct (Z.leb_spec n 0); [lia|done].
  - apply Forall_cons in Hok as [Hc Hcs]. rewrite llen_app in Hn. pose proof (llen_nonneg c).
    pose proof (llen_nonneg (concat cs)). destruct (Z.leb_spec n 0); [lia|].
    destruct (Z.eqb_spec (llen c) 0) as [E|_]; [by apply llen_0 in E|].
    destruct (Z.leb_spec (llen c) n); [|lia]. rewrite IH by (done || lia). done.
Qed.

(** ** Exact writes *)

Definition answers_ok (answers : list write_answer) : Prop :=
  Forall (λ a, match a with WTook n => 0 ≤ n | _ => True end) answers.

(** [WriteFdExactly] sends a prefix of its data in order; it succeeds exactly when that is
    everything, and fails only after an error other than EAGAIN. *)
Theorem WriteFdExactly_prefix answers : ∀ data,
  answers_ok answers →
  let '(ok, out) := WriteFdExactly_loop data answers in
  ∃ rest, data = out ++ rest ∧
    match ok with
    | Some true => rest = []
    | Some false => WError ∈ answers
    | None => rest ≠ []
    end.
Proof.
  induction answers as [|a answers IH]; intros data Hok.
  - destruct data as [|b data]; [by exists []|by exists (b :: data)].
  - apply Forall_cons in Hok as [Ha Hok]. destruct data as [|b data]; [by exists []|].
    cbn [WriteFdExactly_loop]. destruct a as [n| |].
    + specialize (IH (ldrop n (b :: data)) Hok).
      destruct (WriteFdExactly_loop (ldrop n (b :: data)) answers) as [ok out].
      destruct IH as (rest & Hr & Hm). exists rest. split; [|destruct ok as [[]|]; try done; set_solver].
      rewrite <- app_assoc, <- Hr. by rewrite ltake_ldrop.
    + specialize (IH (b :: data) Hok). destruct (WriteFdExactly_loop (b :: data) answers) as [ok out].
      destruct IH as (rest & Hr & Hm). exists rest. split; [done|]. destruct ok as [[]|]; try done; set_solver.
    + exists (b :: data). set_solver.
Qed.

(** ** Protocol strings *)

Lemma hex_digit_val d : 0 ≤ d < 16 →
  digit_val 16 (hex_digit d) = Some d ∧ isspace (hex_digit d) = false ∧ hex_digit d ≠ x00 ∧
  hex_digit d ≠ x2d ∧ hex_digit d ≠ x2b ∧ hex_digit d ≠ x78 ∧ hex_digit d ≠ x58.
Proof.
  intros Hd. assert (d ∈ [0;1;2;3;4;5;6;7;8;9;10;11;12;13;14;15]) as Hin.
  { repeat (rewrite elem_of_cons). lia. }
  repeat (apply elem_of_cons in Hin as [->|Hin]; [by vm_compute|]). by apply elem_of_nil in Hin.
Qed.

Definition hexadecimal (b : byte) : Prop := ∃ d, 0 ≤ d < 16 ∧ b = hex_digit d.

Lemma hex_loop_spec fuel : ∀ n acc,
  0 ≤ n < 16 ^ Z.of_nat fuel → Forall hexadecimal acc →
  Forall hexadecimal (hex_loop fuel n acc) ∧
  scan_digits 16 0 (hex_loop fuel n acc) = scan_digits 16 n acc.
Proof.
  induction fuel as [|fuel IH]; intros n acc Hn Hacc; cbn [hex_loop].
  { assert (n = 0) as -> by lia. done. }
  destruct (Z.eqb_spec n 0) as [->|]; [done|].
  pose proof (Z.mod_pos_bound n 16). pose proof (Z.div_mod n 16).
  rewrite Nat2Z.inj_succ, Z.pow_succ_r in Hn by lia.
  destruct (IH (n / 16) (hex_digit (n mod 16) :: acc)) as [H1 H2].
  - split; [apply Z.div_pos; lia | apply Z.div_lt_upper_bound; lia].
  - constructor; [|done]. exists (n mod 16). split; [lia|done].
  - split; [done|]. rewrite H2. cbn [scan_digits]. destruct (hex_digit_val (n mod 16)) as [-> _]; [lia|]. f_equal. lia.
Qed.

Lemma hex_loop_length k : ∀ fuel n acc,
  (k < fuel)%nat → 16 ^ Z.of_nat k ≤ n < 16 ^ Z.of_nat (S k) →
  length (hex_loop fuel n acc) = (S k + length acc)%nat.
Proof.
  induction k as [|k IH]; intros [|fuel] n acc Hf Hn; try lia; cbn [hex_loop].
  - change (16 ^ Z.of_nat 0) with 1 in Hn. change (16 ^ Z.of_nat 1) with 16 in Hn.
    destruct (Z.eqb_spec n 0); [lia|]. rewrite Z.div_small by lia. destruct fuel; cbn [hex_loop]; [done|].
    done.
  - assert (0 < 16 ^ Z.of_nat (S k)) by (apply Z.pow_pos_nonneg; lia). destruct (Z.eqb_spec n 0); [lia|].
    rewrite IH; [cbn; lia|lia|].
    rewrite !Nat2Z.inj_succ, !Z.pow_succ_r in * by lia.
    split; [apply Z.div_le_lower_bound; lia | apply Z.div_lt_upper_bound; lia].
Qed.

Lemma hex_loop_app fuel : ∀ n acc, hex_loop fuel n acc = hex_loop fuel n [] ++ acc.
Proof.
  induction fuel as [|fuel IH]; intros n acc; cbn [hex_loop]; [done|].
  destruct (n =? 0); [done|]. rewrite (IH _ (_ :: acc)), (IH _ [_]). by rewrite <- app_assoc.
Qed.

Lemma scan_zeros k l : scan_digits 16 0 (replicate k x30 ++ l) = scan_digits 16 0 l.
Proof. induction k as [|k IH]; [done|]. cbn [replicate app scan_digits]. exact IH. Qed.

Lemma zeros_hexadecimal k : Forall hexadecimal (replicate k x30).
Proof. apply Forall_replicate. by exists 0. Qed.

Lemma strtoul16_hex l : Forall hexadecimal l → strtoul16 l = (scan_digits 16 0 l).1.
Proof.
  intros Hl. unfold strtoul16. rewrite c_str_id.
  2:{ rewrite Forall_forall in Hl. intros Hin. destruct (Hl _ Hin) as (d & Hd & E).
      by destruct (hex_digit_val d Hd) as (_ & _ & Hn & _). }
  destruct l as [|b l]; [done|]. apply Forall_cons in Hl as [(d & Hd & ->) Hl].
  destruct (hex_digit_val d Hd) as (Hv & Hs & _ & Hm & Hp & _). cbn [drop_while_space]. rewrite Hs.
  unfold strto.
  replace (match hex_digit d :: l with x2d :: s' => (true, s') | x2b :: s' => (false, s') | _ => (false, hex_digit d :: l) end)
    with (false, hex_digit d :: l) by (by destruct (hex_digit d)).
  replace (match hex_digit d :: l with
           | x30 :: x :: d0 :: s' => if (16 =? 16) && (bool_decide (x = x78) || bool_decide (x = x58)) &&
               bool_decide (is_Some (digit_val 16 d0)) then d0 :: s' else hex_digit d :: l
           | _ => hex_digit d :: l end) with (hex_digit d :: l).
  2:{ destruct l as [|x [|d0 l]]; [by destruct (hex_digit d)..|].
      apply Forall_cons in Hl as [(dx & Hdx & ->) _]. destruct (hex_digit_val dx Hdx) as (_ & _ & _ & _ & _ & H1 & H2).
      rewrite !bool_decide_eq_false_2 by done. by destruct (hex_digit d). }
  rewrite Hv. by destruct (scan_digits 16 0 (hex_digit d :: l)).
Qed.

(** Up to [ffff] the length field has four digits that read back as the length. *)
Lemma fmt_04x_short n :
  0 ≤ n < 65536 → llen (fmt_04x n) = 4 ∧ strtoul16 (fmt_04x n) = n.
Proof.
  intros Hn. unfold fmt_04x. destruct (hex_loop_spec 8 n []) as [Hh Hs]; [lia|done|].
  assert (length (hex_loop 8 n []) ≤ 4)%nat as Hl.
  { destruct (decide (n = 0)) as [->|]; [cbn; lia|].
    destruct (decide (n < 16)); [rewrite (hex_loop_length 0) by lia; cbn; lia|].
    destruct (decide (n < 256)); [rewrite (hex_loop_length 1) by lia; cbn; lia|].
    destruct (decide (n < 4096)); [rewrite (hex_loop_length 2) by lia; cbn; lia|].
    rewrite (hex_loop_length 3) by lia. cbn; lia. }
  split.
  - unfold llen. rewrite length_app, length_replicate. lia.
  - rewrite strtoul16_hex; [|apply Forall_app; split; [apply zeros_hexadecimal|done]].
    by rewrite scan_zeros, Hs.
Qed.

(** Above it has five, and the first four are the length without its last digit. *)
Lemma fmt_04x_long n :
  65536 ≤ n < 1048576 →
  ∃ l, fmt_04x n = l ++ [hex_digit (n mod 16)] ∧ llen l = 4 ∧ strtoul16 l = n / 16.
Proof.
  intros Hn. unfold fmt_04x. pose proof (hex_loop_length 4 8 n [] ltac:(lia) ltac:(lia)) as Hl. rewrite Hl. cbn [replicate Nat.sub app length Nat.add].
  exists (hex_loop 7 (n / 16) []).
  assert (4096 ≤ n / 16 < 65536) as Hd by (split; [apply Z.div_le_lower_bound | apply Z.div_lt_upper_bound]; lia).
  destruct (hex_loop_spec 7 (n / 16) []) as [Hh Hs]; [lia|done|]. split_and!.
  - cbn [hex_loop]. destruct (Z.eqb_spec n 0); [lia|]. exact (hex_loop_app 7 (n / 16) [hex_digit (n mod 16)]).
  - unfold llen. rewrite (hex_loop_length 3) by lia. done.
  - by rewrite strtoul16_hex, Hs.
Qed.

Lemma ReadProtocolString_field fd l d rest :
  pieces_ok fd → concat fd = l ++ d ++ rest → llen l = 4 → strtoul16 l = llen d → llen d < 2 ^ 63 →
  ∃ fd', ReadProtocolString fd = Ok (Some d, fd') ∧ concat fd' = rest ∧ pieces_ok fd'.
Proof.
  intros Hok Hc Hl Hd Hmax. unfold ReadProtocolString. pose proof (llen_nonneg (d ++ rest)). pose proof (llen_nonneg rest).
  destruct (ReadFdExactly_ok fd 4) as (fd1 & -> & Hc1 & Hok1); [done|rewrite Hc, llen_app; lia|].
  rewrite Hc in Hc1 |- *. rewrite ltake_app_le, ltake_ge, Hd by lia.
  rewrite ldrop_app_ge in Hc1 by lia. replace (4 - llen l) with 0 in Hc1 by lia. rewrite ldrop_0 in Hc1.
  destruct (Z.ltb_spec (2 ^ 63 - 1) (llen d)); [lia|].
  destruct (ReadFdExactly_ok fd1 (llen d)) as (fd2 & -> & Hc2 & Hok2).
  { done. }
  { rewrite Hc1, llen_app. pose proof (llen_nonneg d). lia. }
  exists fd2. rewrite Hc1, ltake_app_le, ltake_ge by lia. split; [done|]. split; [|done].
  rewrite Hc2, Hc1, ldrop_app_ge by lia. replace (llen d - llen d) with 0 by lia. apply ldrop_0.
Qed.

(** A string that [SendProtocolString] writes is read back by [ReadProtocolString],
    whatever the pieces in which it arrives, and what follows it stays unread - as long as
    it is shorter than 64 KiB.  From 64 KiB on (the limit that is checked is 1 MiB) the length has five digits
    where the reader takes four: it returns a sixteenth of the string, behind the last
    digit of the length. *)
Theorem protocol_string_roundtrip s str fd rest :
  protocol_string s = Some str → llen s < 2 ^ 32 → pieces_ok fd → concat fd = str ++ rest →
  (llen s < 65536 → ∃ fd', ReadProtocolString fd = Ok (Some s, fd') ∧ concat fd' = rest) ∧
  (65536 ≤ llen s → ∃ fd', ReadProtocolString fd =
     Ok (Some (hex_digit (llen s mod 16) :: ltake (llen s / 16 - 1) s), fd')).
Proof.
  intros Hs Hmax Hok Hc. unfold protocol_string in Hs. pose proof (llen_nonneg s). rewrite u32_small in Hs by lia.
  destruct (Z.ltb_spec (MAX_PAYLOAD - 4) (llen s)); [done|]. injection Hs as <-. unfold MAX_PAYLOAD in *. split; intros Hl.
  - destruct (fmt_04x_short (llen s)) as [H4 Hv]; [lia|].
    destruct (ReadProtocolString_field fd (fmt_04x (llen s)) s rest) as (fd' & ? & ? & _); try done; [|lia|by exists fd'].
    by rewrite Hc, <- app_assoc.
  - destruct (fmt_04x_long (llen s)) as (l & E & H4 & Hv); [lia|].
    assert (4096 ≤ llen s / 16 ≤ llen s) by (split; [apply Z.div_le_lower_bound | apply Z.div_le_upper_bound]; lia).
    destruct (ReadProtocolString_field fd l (hex_digit (llen s mod 16) :: ltake (llen s / 16 - 1) s)
      (ldrop (llen s / 16 - 1) s ++ rest)) as (fd' & Hr & _); [done|..|by exists fd'].
    + rewrite Hc, E, <- !app_assoc. cbn [app]. by rewrite (app_assoc (ltake _ _)), ltake_ldrop.
    + done.
    + rewrite Hv, llen_cons, llen_ltake by lia. lia.
    + rewrite llen_cons, llen_ltake by lia. lia.
Qed.

Lemma protocol_string_roundtrip_witness :
  protocol_string (txt "device offline") = Some (txt "000edevice offline") ∧
  ∃ fd', ReadProtocolString [txt "00"; txt "0edevi"; txt "ce offlineOKAY"] = Ok (Some (txt "device offline"), fd') ∧
    concat fd' = txt "OKAY".
Proof.
  split; [reflexivity|].
  destruct (protocol_string_roundtrip (txt "device offline") (txt "000edevice offline")
    [txt "00"; txt "0edevi"; txt "ce offlineOKAY"] (txt "OKAY")) as [H _].
  - reflexivity.
  - reflexivity.
  - by repeat constructor.
  - reflexivity.
  - apply H. reflexivity.
Defined.

(** ** The shell protocol *)

Lemma omap_Some (d : bytes) : omap (λ x, x) (Some <$> d) = d.
Proof. induction d as [|b d IH]; [done|]. cbn. by f_equal. Qed.

Lemma overlay_header h buf : overlay 0 h buf = (Some <$> h) ++ ldrop (llen h) buf.
Proof. unfold overlay. by rewrite ltake_0. Qed.

Lemma overlay_data h d junk :
  llen h = kHeaderSize → overlay kHeaderSize d (h ++ junk) = h ++ (Some <$> d) ++ ldrop (llen d) junk.
Proof.
  intros Hh. pose proof (llen_nonneg d). unfold overlay. rewrite <- app_assoc, ltake_app_le, ltake_ge by lia.
  f_equal. f_equal. rewrite ldrop_app_ge by lia. f_equal. lia.
Qed.

(** The header in the buffer is that of a packet with id [i]. *)
Definition has_header (i : byte) (p : ShellProtocol) : Prop :=
  ∃ l junk, buffer_ p = (Some i :: (Some <$> l)) ++ junk ∧ llen l = 4.

Definition char_of (i : byte) : Z := if bval i <? 128 then bval i else bval i - 256.

Lemma has_header_id i p : has_header i p → shell_id p = char_of i.
Proof. intros (l & junk & E & _). unfold shell_id. by rewrite E. Qed.

Lemma llen_header i (l : bytes) : llen l = 4 → llen (Some i :: (Some <$> l)) = kHeaderSize.
Proof. intros H. rewrite llen_cons. unfold llen in *. rewrite length_fmap. unfold kHeaderSize. lia. Qed.

(** One piece of a packet: [d] is what is left of it. *)
Lemma read_data_spec cap i d rest p fd :
  0 < cap → has_header i p → bytes_left_ p = llen d → pieces_ok fd → concat fd = d ++ rest →
  ∃ p' fd', read_data cap p fd = (true, p', fd') ∧ has_header i p' ∧ shell_data p' = ltake cap d ∧
    bytes_left_ p' = llen (ldrop cap d) ∧ concat fd' = ldrop cap d ++ rest ∧ pieces_ok fd' ∧
    (d ≠ [] → lget (shell_data p') 0 = lget d 0 ∧ ∀ b, lget d 0 = Some b → shell_data_at p' 0 = Ok b).
Proof.
  intros Hcap (l & junk & Eb & Hl) Hleft Hok Hc. pose proof (llen_nonneg d). pose proof (llen_nonneg rest).
  unfold read_data. rewrite Hleft. set (n := Z.min (llen d) cap).
  assert (ltake n d = ltake cap d) as Et.
  { unfold n. destruct (Z.min_spec (llen d) cap) as [[? ->]|[? ->]]; [|done]. by rewrite !ltake_ge by lia. }
  assert (ldrop n d = ldrop cap d) as Ed.
  { unfold n. destruct (Z.min_spec (llen d) cap) as [[? ->]|[? ->]]; [|done]. by rewrite !llen_ldrop_ge by lia. }
  assert (llen (ltake n d) = n) as Hn by (apply llen_ltake; lia).
  destruct (ReadFdExactly_ok fd n) as (fd' & -> & Hc' & Hok'); [done|rewrite Hc, llen_app; lia|].
  rewrite Hc in Hc' |- *. rewrite ltake_app_le by lia. rewrite ldrop_app_le in Hc' by lia.
  eexists _, fd'. split; [reflexivity|]. rewrite Eb, overlay_data by (by apply llen_header).
  unfold has_header, shell_data, shell_data_at. cbn [buffer_ data_length_ bytes_left_].
  rewrite ldrop_app_ge by (rewrite llen_header; [lia|done]). rewrite llen_header, Z.sub_diag, ldrop_0 by done.
  assert (ltake n ((Some <$> ltake n d) ++ ldrop (llen (ltake n d)) junk) = Some <$> ltake n d) as Htk.
  { assert (llen (Some <$> ltake n d) = n) by (unfold llen in *; by rewrite length_fmap).
    rewrite ltake_app_le, ltake_ge by lia. done. }
  split_and!.
  - exists l, ((Some <$> ltake n d) ++ ldrop (llen (ltake n d)) junk). done.
  - by rewrite Htk, omap_Some.
  - rewrite <- Ed, llen_ldrop by lia. done.
  - by rewrite Hc', Ed.
  - done.
  - intros Hd. rewrite Htk, omap_Some, Et. destruct d as [|b d]; [done|].
    assert (ltake cap (b :: d) = b :: ltake (cap - 1) d) as E1.
    { unfold ltake. destruct (Z.to_nat cap) as [|k] eqn:Ek; [lia|]. cbn [take]. do 2 f_equal. lia. }
    rewrite E1. split; [done|]. intros b' Hb. change (lget (b :: d) 0) with (Some b) in Hb. by injection Hb as ->.
Qed.

(** The header of a packet whose length is given as [n]. *)
Lemma shell_Read_header cap i n d p fd :
  0 ≤ n < 2 ^ 32 → bytes_left_ p = 0 → pieces_ok fd → concat fd = (i :: le32 n) ++ d →
  ∃ p' fd', shell_Read cap p fd = read_data cap p' fd' ∧ has_header i p' ∧ bytes_left_ p' = n ∧ concat fd' = d ∧ pieces_ok fd'.
Proof.
  intros Hn Hleft Hok Hc. unfold shell_Read. rewrite Hleft. cbn [Z.eqb]. pose proof (llen_nonneg d).
  set (h := i :: le32 n) in *. assert (llen h = kHeaderSize) as Hh by (unfold h; rewrite llen_cons, llen_le32; done).
  destruct (ReadFdExactly_ok fd kHeaderSize) as (fd1 & -> & Hc1 & Hok1); [done|rewrite Hc, llen_app; unfold kHeaderSize in *; lia|].
  rewrite Hc in Hc1 |- *. rewrite ltake_app_le, ltake_ge by lia.
  rewrite ldrop_app_ge, Hh, Z.sub_diag, ldrop_0 in Hc1 by lia.
  rewrite overlay_header. eexists _, fd1. split; [reflexivity|]. split_and!; [|cbn [bytes_left_]|done..].
  - exists (le32 n), (ldrop (llen h) (buffer_ p)). split; [done|apply llen_le32].
  - unfold packet_length, h. cbn [fmap list_fmap app]. change (ldrop 1 (Some i :: ?x)) with x.
    rewrite ltake_app_le, ltake_ge, omap_Some by (pose proof (llen_le32 n); unfold llen in *; rewrite length_fmap; lia).
    pose proof (of_le32_le32 n [] ltac:(lia)) as E. rewrite app_nil_r in E. by rewrite E.
Qed.

(** The header and the first piece. *)
Lemma shell_Read_packet cap i d rest p fd :
  0 < cap → llen d < 2 ^ 32 → bytes_left_ p = 0 → pieces_ok fd → concat fd = (i :: le32 (u32 (llen d)) ++ d) ++ rest →
  ∃ p' fd', shell_Read cap p fd = (true, p', fd') ∧ has_header i p' ∧ shell_data p' = ltake cap d ∧
    bytes_left_ p' = llen (ldrop cap d) ∧ concat fd' = ldrop cap d ++ rest ∧ pieces_ok fd' ∧
    (d ≠ [] → lget (shell_data p') 0 = lget d 0 ∧ ∀ b, lget d 0 = Some b → shell_data_at p' 0 = Ok b).
Proof.
  intros Hcap Hd Hleft Hok Hc. pose proof (llen_nonneg d). rewrite u32_small in Hc by lia.
  destruct (shell_Read_header cap i (llen d) (d ++ rest) p fd) as (p1 & fd1 & -> & Hh & Hl & Hc1 & Hok1); [lia|done..| |].
  { rewrite Hc. exact (eq_sym (app_assoc (i :: le32 (llen d)) d rest)). }
  by apply read_data_spec.
Qed.

(** A full piece of a packet of which only [d] arrives. *)
Lemma read_data_more cap i d n p fd :
  0 < cap → has_header i p → bytes_left_ p = n → cap ≤ llen d < n → pieces_ok fd → concat fd = d →
  ∃ p' fd', read_data cap p fd = (true, p', fd') ∧ has_header i p' ∧ shell_data p' = ltake cap d ∧
    bytes_left_ p' = n - cap ∧ concat fd' = ldrop cap d ∧ pieces_ok fd'.
Proof.
  intros Hcap Hh Hn Hd Hok Hc.
  destruct (read_data_spec cap i d [] (mkShell (buffer_ p) (data_length_ p) (llen d)) fd)
    as (p' & fd' & E & Hh' & Hd' & _ & Hc' & Hok' & _); [done|exact Hh|done..|by rewrite app_nil_r|].
  unfold read_data in E |- *. cbn [buffer_ data_length_ bytes_left_] in E. rewrite Hn, !Z.min_r in * by lia.
  destruct (ReadFdExactly cap fd) as [[[] b] fd0]; [|done]. injection E as <- <-. rewrite app_nil_r in Hc'.
  by eexists _, fd0.
Qed.

(** ** The reader of a session *)

(** The output byte by byte, each with the stream it belongs to. *)
Definition tag (e : bool) (d : bytes) : list (bool * byte) := (λ b, (e, b)) <$> d.
Definition tagged (out : list shell_output) : list (bool * byte) := concat ((λ o, tag o.1 o.2) <$> out).

Definition packet_output (i : byte) (d : bytes) : list (bool * byte) :=
  if char_of i =? kIdStdout then tag false d else if char_of i =? kIdStderr then tag true d else [].
Definition packet_code (code : Z) (p : byte * bytes) : Z :=
  if char_of p.1 =? kIdExit then match p.2 with b :: _ => bval b | [] => code end else code.
(** Data of any length; an exit packet carries its code in one piece. *)
Definition shell_packet_ok (cap : Z) (p : byte * bytes) : Prop :=
  llen p.2 < 2 ^ 32 ∧ (char_of p.1 = kIdExit → 0 < llen p.2 ≤ cap).

Lemma tag_app e d1 d2 : tag e (d1 ++ d2) = tag e d1 ++ tag e d2.
Proof. apply fmap_app. Qed.
Lemma tagged_snoc out e d : tagged (out ++ [(e, d)]) = tagged out ++ tag e d.
Proof. unfold tagged. rewrite fmap_app, concat_app. cbn. by rewrite app_nil_r. Qed.
Lemma packet_output_app i d1 d2 : packet_output i (d1 ++ d2) = packet_output i d1 ++ packet_output i d2.
Proof. unfold packet_output. destruct (_ =? _); [apply tag_app|]. destruct (_ =? _); [apply tag_app|done]. Qed.

Lemma on_shell_packet_data i p out code :
  has_header i p → char_of i ≠ kIdExit →
  ∃ out', on_shell_packet p out code = Ok (out', code) ∧ tagged out' = tagged out ++ packet_output i (shell_data p).
Proof.
  intros Hh Hne. unfold on_shell_packet, packet_output. rewrite (has_header_id i p Hh).
  destruct (char_of i =? kIdStdout); [eexists; split; [done|apply tagged_snoc]|].
  destruct (char_of i =? kIdStderr); [eexists; split; [done|apply tagged_snoc]|].
  destruct (Z.eqb_spec (char_of i) kIdExit); [done|]. eexists. split; [done|]. by rewrite app_nil_r.
Qed.

Lemma on_shell_packet_exit i b p out code :
  has_header i p → char_of i = kIdExit → shell_data_at p 0 = Ok b → on_shell_packet p out code = Ok (out, bval b).
Proof. intros Hh He Hb. unfold on_shell_packet. rewrite (has_header_id i p Hh), He. cbn. by rewrite Hb. Qed.

(** The loop has read a packet to its end: where it goes on from. *)
Definition at_boundary (rest : bytes) (fuel : nat) (p : ShellProtocol) (fd : list bytes) : Prop :=
  bytes_left_ p = 0 ∧ concat fd = rest ∧ pieces_ok fd ∧ (length rest < fuel)%nat.

Lemma loop_rest cap i rest code n : ∀ d p fd fuel out,
  0 < cap → char_of i ≠ kIdExit → (length d ≤ n)%nat →
  has_header i p → bytes_left_ p = llen d → concat fd = d ++ rest → pieces_ok fd → (length (d ++ rest) < fuel)%nat →
  ∃ fuel' p' fd' out', shell_v2_loop fuel cap p fd out code = shell_v2_loop fuel' cap p' fd' out' code ∧
    tagged out' = tagged out ++ packet_output i d ∧ at_boundary rest fuel' p' fd'.
Proof.
  induction n as [|n IH]; intros d p fd fuel out Hcap Hne Hn Hh Hleft Hc Hok Hf.
  - destruct d; [|cbn in Hn; lia]. exists fuel, p, fd, out. split; [done|]. split; [|done].
    unfold packet_output, tag. repeat destruct (_ =? _); by rewrite app_nil_r.
  - destruct (decide (d = [])) as [->|Hd].
    { exists fuel, p, fd, out. split; [done|]. split; [|done].
      unfold packet_output, tag. repeat destruct (_ =? _); by rewrite app_nil_r. }
    assert (0 < llen d) as Hpos by (pose proof (llen_nonneg d); destruct (Z.eq_dec (llen d) 0) as [E|]; [by apply llen_0 in E|lia]).
    destruct fuel as [|fuel]; [lia|].
    destruct (read_data_spec cap i d rest p fd) as (p1 & fd1 & Er & Hh1 & Hd1 & Hl1 & Hc1 & Hok1 & _); try done.
    destruct (on_shell_packet_data i p1 out code Hh1 Hne) as (out1 & Eo & Ht1).
    assert (length (ldrop cap d) < length d)%nat as Hlt by (unfold ldrop; rewrite length_drop; unfold llen in Hpos; lia).
    destruct (IH (ldrop cap d) p1 fd1 fuel out1) as (fuel' & p' & fd' & out' & El & Ht' & Hb); try done; [lia| |].
    { rewrite length_app in *. lia. }
    exists fuel', p', fd', out'. split_and!; [|..|done].
    + cbn [shell_v2_loop]. unfold shell_Read. rewrite Hleft. destruct (Z.eqb_spec (llen d) 0); [lia|].
      rewrite Er, Eo. exact El.
    + rewrite Ht', Ht1, Hd1, <- app_assoc, <- packet_output_app, ltake_ldrop. done.
Qed.

Lemma loop_packet cap i d rest code p fd fuel out :
  0 < cap → shell_packet_ok cap (i, d) →
  at_boundary ((i :: le32 (u32 (llen d)) ++ d) ++ rest) fuel p fd →
  ∃ fuel' p' fd' out',
    shell_v2_loop fuel cap p fd out code = shell_v2_loop fuel' cap p' fd' out' (packet_code code (i, d)) ∧
    tagged out' = tagged out ++ packet_output i d ∧ at_boundary rest fuel' p' fd'.
Proof.
  intros Hcap [Hmax Hex] (Hleft & Hc & Hok & Hf). cbn [fst snd] in *. destruct fuel as [|fuel]; [lia|].
  destruct (shell_Read_packet cap i d rest p fd) as (p1 & fd1 & Er & Hh & Hd & Hl & Hc1 & Hok1 & Hfst); try done.
  assert (length (ldrop cap d ++ rest) < fuel)%nat as Hf1.
  { cbn in Hf. rewrite !length_app in *. unfold ldrop. rewrite length_drop. lia. }
  unfold packet_code. cbn [fst snd shell_v2_loop]. rewrite Er. destruct (Z.eqb_spec (char_of i) kIdExit) as [E|E].
  - specialize (Hex E). destruct d as [|b d]; [change (llen []) with 0 in Hex; lia|].
    destruct Hfst as [_ Hb]; [done|]. rewrite (on_shell_packet_exit i b) by (done || by apply Hb). cbn [mbind res_bind].
    rewrite llen_ldrop_ge in * by lia. exists fuel, p1, fd1, out. split; [done|]. split.
    + unfold packet_output. rewrite E. cbn. by rewrite app_nil_r.
    + split_and!; try done.
  - destruct (on_shell_packet_data i p1 out code Hh E) as (out1 & Eo & Ht1). rewrite Eo. cbn [mbind res_bind].
    destruct (loop_rest cap i rest code (length (ldrop cap d)) (ldrop cap d) p1 fd1 fuel out1)
      as (fuel' & p' & fd' & out' & El & Ht' & Hb); try done.
    exists fuel', p', fd', out'. split; [exact El|]. split; [|done].
    rewrite Ht', Ht1, Hd, <- app_assoc, <- packet_output_app, ltake_ldrop. done.
Qed.

Definition wire (p : byte * bytes) : bytes := shell_packet p.1 p.2.

(** Where a stream can end: within a header, or within the data of a packet that
    announced [n] bytes, of which [d] arrived; and what is passed on of this end: the data is read in pieces of [cap], and
    an incomplete piece is lost. *)
Inductive ending (cap : Z) : bytes → list (bool * byte) → Prop :=
  | in_header h : llen h < kHeaderSize → ending cap h []
  | in_data i n d : llen d < n < 2 ^ 32 → (char_of i = kIdExit → n ≤ cap) →
      ending cap ((i :: le32 n) ++ d) (packet_output i (ltake (cap * (llen d / cap)) d)).

Lemma ltake_split n m (l : bytes) : 0 ≤ n → 0 ≤ m → ltake n l ++ ltake m (ldrop n l) = ltake (n + m) l.
Proof. intros. unfold ltake, ldrop. rewrite Z2Nat.inj_add by done. by rewrite take_take_drop. Qed.

Lemma packet_output_nil i : packet_output i [] = [].
Proof. unfold packet_output. by repeat destruct (_ =? _). Qed.

Lemma loop_cut cap i code n : ∀ d left p fd fuel out,
  0 < cap → (char_of i = kIdExit → left ≤ cap) → llen d < left → (length d ≤ n)%nat →
  has_header i p → bytes_left_ p = left → concat fd = d → pieces_ok fd → (length d < fuel)%nat →
  ∃ out', shell_v2_loop fuel cap p fd out code = Ok (out', code) ∧
    tagged out' = tagged out ++ packet_output i (ltake (cap * (llen d / cap)) d).
Proof.
  induction n as [n IH] using lt_wf_ind; intros d left p fd fuel out Hcap Hex Hd Hn Hh Hleft Hc Hok Hf.
  destruct fuel as [|fuel]; [lia|]. pose proof (llen_nonneg d). cbn [shell_v2_loop]. unfold shell_Read. rewrite Hleft.
  destruct (Z.eqb_spec left 0); [lia|]. destruct (Z.ltb_spec (llen d) cap) as [Hlt|Hge].
  - unfold read_data. rewrite ReadFdExactly_short by (rewrite ?Hc; done || lia). exists out. split; [done|].
    by rewrite Z.div_small, Z.mul_0_r, ltake_0, packet_output_nil, app_nil_r by lia.
  - destruct (read_data_more cap i d left p fd) as (p1 & fd1 & -> & Hh1 & Hd1 & Hl1 & Hc1 & Hok1); try done.
    destruct (on_shell_packet_data i p1 out code Hh1) as (out1 & -> & Ht1); [intros E; specialize (Hex E); lia|]. cbn [mbind res_bind].
    assert (llen (ldrop cap d) = llen d - cap) as Hld by (apply llen_ldrop; lia).
    assert (length (ldrop cap d) < length d)%nat as Hlt by (unfold llen in *; lia).
    destruct (IH (length (ldrop cap d)) ltac:(lia) (ldrop cap d) (left - cap) p1 fd1 fuel out1) as (out' & -> & Ht');
      [done|intros E; specialize (Hex E); lia|lia|done..|lia|].
    exists out'. split; [done|]. rewrite Ht', Ht1, Hd1, <- app_assoc, <- packet_output_app, Hld. do 2 f_equal.
    replace (llen d) with (llen d - cap + 1 * cap) at 2 by lia. rewrite Z.div_add by lia. set (k := (llen d - cap) / cap).
    assert (0 ≤ k) by (apply Z.div_pos; lia). replace (cap * (k + 1)) with (cap + cap * k) by lia. apply ltake_split; nia.
Qed.

Lemma loop_ending cap e o p fd fuel out code :
  0 < cap → ending cap e o → at_boundary e fuel p fd →
  ∃ out', shell_v2_loop fuel cap p fd out code = Ok (out', code) ∧ tagged out' = tagged out ++ o.
Proof.
  intros Hcap He (Hleft & Hc & Hok & Hf). destruct fuel as [|fuel]; [lia|]. destruct He as [h Hh|i n d Hn Hex].
  - exists out. rewrite app_nil_r. split; [|done]. cbn [shell_v2_loop]. unfold shell_Read. rewrite Hleft. cbn [Z.eqb].
    by rewrite ReadFdExactly_short by (rewrite ?Hc; done).
  - pose proof (llen_nonneg d). destruct (shell_Read_header cap i n d p fd) as (p1 & fd1 & E & Hh1 & Hl1 & Hc1 & Hok1); [lia|done..|].
    destruct (loop_cut cap i code (length d) d n p1 fd1 (S fuel) out) as (out' & Eo & Ht); try done; [lia|rewrite length_app in Hf; lia|].
    exists out'. split; [|done]. rewrite <- Eo. cbn [shell_v2_loop]. rewrite E. unfold shell_Read. rewrite Hl1.
    by destruct (Z.eqb_spec n 0); [lia|].
Qed.

Lemma loop_packets cap e o ps : ∀ p fd fuel out code,
  0 < cap → Forall (shell_packet_ok cap) ps → ending cap e o →
  at_boundary (concat (wire <$> ps) ++ e) fuel p fd →
  ∃ out', shell_v2_loop fuel cap p fd out code = Ok (out', fold_left packet_code ps code) ∧
    tagged out' = tagged out ++ concat ((λ q, packet_output q.1 q.2) <$> ps) ++ o.
Proof.
  induction ps as [|[i d] ps IH]; intros p fd fuel out code Hcap Hps He Hb; [by eapply loop_ending|].
  apply Forall_cons in Hps as [Hp Hps]. cbn [fmap list_fmap concat] in Hb. rewrite <- app_assoc in Hb.
  destruct (loop_packet cap i d (concat (wire <$> ps) ++ e) code p fd fuel out Hcap Hp Hb)
    as (fuel' & p' & fd' & out1 & El & Ht1 & Hb1).
  destruct (IH p' fd' fuel' out1 (packet_code code (i, d)) Hcap Hps He Hb1) as (out' & Eo & Ht').
  exists out'. rewrite El. split; [exact Eo|]. rewrite Ht', Ht1. cbn. by rewrite <- !app_assoc.
Qed.

(** C34. A shell session delivers exactly what the device sent.  The stream is any sequence of
    packets, of which the exit packets carry at least one byte and fit the buffer (an exit
    packet without a byte: [empty_exit_packet_stale]), and an end at any place: between
    packets, within a header, or within the data of a packet (for an exit packet, one that
    fits the buffer).  It arrives in any pieces.  Then the thread ends; the listener is given every
    byte of the complete stdout and stderr packets once, in order and under the right
    stream, however often a packet had to be split, and of a packet that is cut off the full
    buffers that arrived; the exit code is the first byte of the last complete exit packet, or 255
    when there was none. *)
Theorem shell_session_delivers ps e o aborted fd :
  Forall (shell_packet_ok (kBufferSize - kHeaderSize)) ps → ending (kBufferSize - kHeaderSize) e o →
  pieces_ok fd → concat fd = concat (wire <$> ps) ++ e →
  ∃ out, readerThread true aborted fd = Ok (out, fold_left packet_code ps 255) ∧
    tagged out = concat ((λ q, packet_output q.1 q.2) <$> ps) ++ o.
Proof.
  intros Hps He Hok Hc. unfold readerThread.
  destruct (loop_packets (kBufferSize - kHeaderSize) e o ps new_ShellProtocol fd (fd_fuel fd) [] 255)
    as (out & Eo & Ht); try done; [|by exists out].
  split; [done|]. split; [done|]. split; [done|]. unfold fd_fuel. rewrite Hc. lia.
Qed.

Lemma shell_session_delivers_witness :
  ∃ out, readerThread true [] [wire (x01, txt "one"); take 3 (wire (x03, [x07])); drop 3 (wire (x03, [x07])) ++ (x02 :: le32 9) ++ txt "cut"] =
      Ok (out, 7) ∧ tagged out = tag false (txt "one").
Proof.
  apply (shell_session_delivers [(x01, txt "one"); (x03, [x07])] ((x02 :: le32 9) ++ txt "cut")
    (packet_output x02 (ltake ((kBufferSize - kHeaderSize) * (llen (txt "cut") / (kBufferSize - kHeaderSize))) (txt "cut"))) []).
  - repeat constructor; cbn; done.
  - by apply in_data.
  - by repeat constructor.
  - reflexivity.
Defined.

(** An exit packet without a code: the session reports the first byte of the packet before
    it, or reads a byte of the buffer that was never written. *)
Theorem empty_exit_packet_stale :
  readerThread true [] [wire (x01, txt "A"); wire (x03, [])] = Ok ([(false, txt "A")], 65) ∧
  readerThread true [] [wire (x03, [])] = Undef.
Proof. split; by vm_compute. Qed.

(** [id()] sign-extends, so a protocol that has not read a packet is not [kIdInvalid]. *)
Theorem fresh_id_is_not_invalid : shell_id new_ShellProtocol = -1 ∧ shell_id new_ShellProtocol ≠ kIdInvalid.
Proof. split; by vm_compute. Qed.

(** The plain mode passes every byte on as stdout. *)
Lemma legacy_loop_all fuel : ∀ fd out aborted,
  pieces_ok fd → Forall (λ a, a = false) aborted → (length (concat fd) < fuel)%nat →
  ∃ out', legacy_loop fuel aborted fd out = Ok out' ∧ tagged out' = tagged out ++ tag false (concat fd).
Proof.
  induction fuel as [|fuel IH]; intros fd out aborted Hok Ha Hf; [lia|]. cbn [legacy_loop].
  replace (default false (head aborted)) with false by (destruct Ha as [|? ? ->]; done).
  assert (Forall (λ a, a = false) (tail aborted)) as Ha' by (by destruct Ha).
  destruct fd as [|c cs]; [exists out; cbn; by rewrite app_nil_r|].
  apply Forall_cons in Hok as [Hc Hcs]. destruct c as [|b c]; [done|]. set (c0 := b :: c) in *.
  pose proof (llen_nonneg c0). assert (0 < length c0)%nat by (unfold c0; cbn; lia).
  cbn [concat] in *. rewrite length_app in Hf.
  destruct (Z.leb_spec (llen c0) 4096) as [Hl|Hl].
  - destruct (IH cs (out ++ [(false, ltake 4096 c0)]) (tail aborted)) as (out' & Eo & Ht); try done; [lia|].
    exists out'. split; [exact Eo|]. rewrite Ht, tagged_snoc, ltake_ge, tag_app by lia. by rewrite <- app_assoc.
  - assert (ldrop 4096 c0 ≠ []) as Hne.
    { intros E. pose proof (llen_ldrop 4096 c0 ltac:(lia)) as Hd. rewrite E, llen_nil in Hd. lia. }
    destruct (IH (ldrop 4096 c0 :: cs) (out ++ [(false, ltake 4096 c0)]) (tail aborted)) as (out' & Eo & Ht); try done.
    + by constructor.
    + cbn [concat]. rewrite length_app. unfold ldrop. rewrite length_drop. lia.
    + exists out'. split; [exact Eo|]. rewrite Ht, tagged_snoc. cbn [concat].
      rewrite <- app_assoc, <- tag_app, app_assoc, ltake_ldrop. done.
Qed.
