(* ===== verification/FdConnection.v ===== *)
(** * Packets over a blocking descriptor

    Models [FdConnection] of adb/transport.cpp, the connection under the adapter of Blocking.v,
    and the loops [ReadFully] and [WriteFully] of adb/tls/tls_connection.cpp that it uses after a
    TLS handshake.

    What can be read is the list of pieces that the kernel, or [SSL_read], returns one at a
    time, as in Io.v; what is written goes to the kernel, or [SSL_write], which answer how
    much they took. *)

From S2P Require Import Prelude Types TransportFd Io.

(** [tls_] is null, or a TLS connection, whose [ssl_] may be null. *)
Record fd_conn := mkFdConn { fd_in : list bytes; tls_ : option (option (list bytes)) }.

(** [TlsConnectionImpl::ReadFully]: [SSL_read] returns at most what it is asked for; a piece that is
    empty is an error. *)
Definition ReadFully (size : Z) (ssl_ : option (list bytes)) : res (bool * bytes * option (list bytes)) :=
  check (0 <? size) ;;
  match ssl_ with
  | None => Ok (false, [], None)
  | Some s => let '(ok, d, s') := ReadFdExactly size s in Ok (ok, d, Some s')
  end.

Definition DispatchRead (len : Z) (c : fd_conn) : res (bool * bytes * fd_conn) :=
  match tls_ c with
  | Some ssl_ =>
      if len =? 0 then Ok (true, [], c) else
      '(ok, d, ssl') ← ReadFully len ssl_; Ok (ok, d, mkFdConn (fd_in c) (Some ssl'))
  | None => let '(ok, d, fd') := ReadFdExactly len (fd_in c) in Ok (ok, d, mkFdConn fd' None)
  end.

(** The loop of [TlsConnectionImpl::WriteFully], over the results of [SSL_write]. *)
Fixpoint WriteFully_loop (data : bytes) (answers : list Z) : option bool * bytes :=
  match data with
  | [] => (Some true, [])
  | _ =>
      match answers with
      | [] => (None, [])
      | n :: answers =>
          if n <=? 0 then (Some false, [])
          else let '(ok, out) := WriteFully_loop (ldrop n data) answers in (ok, ltake n data ++ out)
      end
  end.

Definition WriteFully (ssl_ : bool) (data : bytes) (answers : list Z) : res (option bool * bytes) :=
  check (negb (llen data =? 0)) ;;
  Ok (if ssl_ then WriteFully_loop data answers else (Some false, [])).

(** What the descriptor and [SSL_write] answer during one call. *)
Inductive sink := SFd (answers : list write_answer) | STls (ssl_ : bool) (answers : list Z).

Definition DispatchWrite (data : bytes) (s : sink) : res (option bool * bytes) :=
  match s with
  | STls ssl_ answers => if llen data =? 0 then Ok (Some true, []) else WriteFully ssl_ data answers
  | SFd answers => Ok (WriteFdExactly_loop data answers)
  end.

Section connection.
Context `{Uninit}.

(** [FdConnection::Read] into a new packet. *)
Definition fd_Read (c : fd_conn) : res (option apacket * fd_conn) :=
  '(ok, h, c) ← DispatchRead sizeof_amessage c;
  if negb ok then Ok (None, c) else
  m ← deref (msg_of_bytes h);
  if MAX_PAYLOAD <? data_length m then Ok (None, c) else
  payload ← resize empty_block (data_length m);
  '(ok, d, c) ← DispatchRead (size_ payload) c;
  payload ← block_write payload 0 d;
  Ok (if negb ok then None else Some (mkPacket m payload), c).

(** [FdConnection::Write]: the bytes that were taken; the second part of the answers is for the
    payload. *)
Definition fd_Write (p : apacket) (s s' : sink) : res (option bool * bytes) :=
  '(ok, out) ← DispatchWrite (msg_bytes (msg p)) s;
  match ok with
  | Some true =>
      if data_length (msg p) =? 0 then Ok (Some true, out) else
      d ← block_read (payload p) 0 (data_length (msg p));
      '(ok, out') ← DispatchWrite d s'; Ok (ok, out ++ out')
  | _ => Ok (ok, out)
  end.

(** The read thread of Blocking.v: packets until a read fails. *)
Fixpoint fd_reads (n : nat) (c : fd_conn) : res (list apacket * fd_conn) :=
  match n with
  | O => Ok ([], c)
  | S n =>
      '(p, c) ← fd_Read c;
      match p with
      | None => Ok ([], c)
      | Some p => '(ps, c) ← fd_reads n c; Ok (p :: ps, c)
      end
  end.
End connection.

(** ** Reading *)

(** What is left to read. *)
Definition stream (c : fd_conn) : list bytes :=
  match tls_ c with None => fd_in c | Some ssl_ => default [] ssl_ end.

Lemma DispatchRead_ok n c :
  pieces_ok (stream c) → 0 ≤ n ≤ llen (concat (stream c)) →
  ∃ c', DispatchRead n c = Ok (true, ltake n (concat (stream c)), c') ∧
    concat (stream c') = ldrop n (concat (stream c)) ∧ pieces_ok (stream c').
Proof.
  unfold DispatchRead, stream, ReadFully. destruct c as [fd [[s|]|]]; cbn; intros Hok Hn.
  - destruct (Z.eqb_spec n 0) as [->|]; [exists (mkFdConn fd (Some (Some s))); by rewrite ltake_0, ldrop_0|].
    rewrite (proj2 (Z.ltb_lt 0 n)) by lia. cbn. destruct (ReadFdExactly_ok s n Hok Hn) as (s' & -> & Hc & Hok'). cbn. eauto.
  - change (llen []) with 0 in Hn. assert (n = 0) as -> by lia. cbn. eauto.
  - destruct (ReadFdExactly_ok fd n Hok Hn) as (fd' & -> & Hc & Hok'). cbn. eauto.
Qed.

Lemma DispatchRead_short n c :
  pieces_ok (stream c) → llen (concat (stream c)) < n →
  ∃ d c', DispatchRead n c = Ok (false, d, c') ∧ llen d < n.
Proof.
  unfold DispatchRead, stream, ReadFully. destruct c as [fd [[s|]|]]; cbn; intros Hok Hn.
  - pose proof (llen_nonneg (concat s)). destruct (Z.eqb_spec n 0); [lia|]. rewrite (proj2 (Z.ltb_lt 0 n)) by lia. cbn.
    rewrite (ReadFdExactly_short s n Hok Hn). cbn. eauto.
  - change (llen []) with 0 in Hn. destruct (Z.eqb_spec n 0); [lia|]. rewrite (proj2 (Z.ltb_lt 0 n)) by lia. cbn. eauto.
  - rewrite (ReadFdExactly_short fd n Hok Hn). eauto.
Qed.

Section reading.
Context `{Uninit}.

Lemma payload_filled n d :
  0 ≤ n → llen d = n → ∃ b b', resize empty_block n = Ok b ∧ size_ b = n ∧ block_write b 0 d = Ok b' ∧ block_ok b' ∧ contents b' = d ∧ size_ b' = n.
Proof.
  intros Hn Hd. destruct (block_of_range_spec d) as (b' & Hb & Hok & Hc & Hs). unfold block_of_range in Hb.
  destruct (resize_empty n Hn) as (b & Hr & _ & Hsz & _). exists b, b'.
  change (allocate empty_block n = Ok b) in Hr. rewrite Hd, Hr in Hb. cbn in Hb. split_and!; try done. lia.
Qed.

Lemma payload_partial n d :
  llen d < n → ∃ b b', resize empty_block n = Ok b ∧ size_ b = n ∧ block_write b 0 d = Ok b'.
Proof.
  intros Hd. pose proof (llen_nonneg d). destruct (resize_empty n) as (b & Hr & Hok & Hsz & Hcap & Hdata); [lia|].
  destruct Hdata as [x Hx]; [lia|]. exists b. unfold block_ok in Hok. rewrite Hx in Hok. eexists. split_and!; try done.
  apply (block_write_data _ x); [done|lia|]. destruct Hok. lia.
Qed.

Lemma fd_Read_spec c :
  pieces_ok (stream c) →
  ∃ o c', fd_Read c = Ok (o, c') ∧
    match o with
    | Some p =>
        packet_ok p ∧ data_length (msg p) ≤ MAX_PAYLOAD ∧ pieces_ok (stream c') ∧
        msg_of_bytes (msg_bytes (msg p)) = Some (msg p) ∧
        concat (stream c) = packet_bytes p ++ concat (stream c')
    | None =>
        llen (concat (stream c)) < sizeof_amessage ∨
        ∃ m, msg_of_bytes (ltake sizeof_amessage (concat (stream c))) = Some m ∧
          (MAX_PAYLOAD < data_length m ∨ llen (concat (stream c)) < sizeof_amessage + data_length m)
    end.
Proof.
  intros Hok. unfold fd_Read. destruct (decide (sizeof_amessage ≤ llen (concat (stream c)))) as [Hh|Hh].
  2: { destruct (DispatchRead_short sizeof_amessage c Hok) as (d & c' & -> & _); [lia|]. cbn. eexists _, _. split; [done|]. left. lia. }
  destruct (DispatchRead_ok sizeof_amessage c Hok) as (c1 & -> & Hs1 & Hok1); [done|]. cbn [mbind res_bind negb].
  destruct (msg_bytes_of_bytes (ltake sizeof_amessage (concat (stream c)))) as (m & Hm & Hb & Hr); [by rewrite llen_ltake by done|].
  rewrite Hm. cbn [deref mbind res_bind]. destruct (Z.ltb_spec MAX_PAYLOAD (data_length m)) as [Hbig|Hfit].
  { eexists _, _. split; [done|]. right. exists m. by split; [|left]. }
  assert (llen (concat (stream c1)) = llen (concat (stream c)) - sizeof_amessage) as Hl1 by (rewrite Hs1; by apply llen_ldrop).
  destruct (decide (data_length m ≤ llen (concat (stream c1)))) as [Hd|Hd].
  - destruct (DispatchRead_ok (data_length m) c1 Hok1) as (c2 & Hr2 & Hs2 & Hok2); [lia|].
    destruct (payload_filled (data_length m) (ltake (data_length m) (concat (stream c1)))) as (b & b' & -> & Hsz & Hw & Hbok & Hc & Hsz');
      [lia|by rewrite llen_ltake by lia|]. cbn [mbind res_bind]. rewrite Hsz, Hr2. cbn [mbind res_bind]. rewrite Hw. cbn [mbind res_bind negb]. eexists _, _. split; [done|].
    split_and!; try done; [cbn [msg]; by rewrite Hb|]. unfold packet_bytes. cbn [msg payload]. rewrite Hb, Hc, Hs2, Hs1, <- app_assoc. by rewrite !ltake_ldrop.
  - destruct (DispatchRead_short (data_length m) c1 Hok1) as (d & c2 & Hr2 & Hld); [lia|].
    destruct (payload_partial (data_length m) d Hld) as (b & b' & -> & Hsz & Hw). cbn [mbind res_bind]. rewrite Hsz, Hr2. cbn [mbind res_bind]. rewrite Hw. cbn [mbind res_bind negb].
    eexists _, _. split; [done|]. right. exists m. split; [done|]. right. lia.
Qed.

(** Reading is exact on every input: Read of a blocking connection, over a descriptor or over TLS, never
    aborts; it returns a packet exactly when a whole packet of at most MAX_PAYLOAD bytes of data comes next, that
    packet, and leaves what follows it; otherwise the input ends before the header or
    before the data, or the header announces too much. *)
Theorem fd_read_exact c :
  pieces_ok (stream c) →
  ∃ o c', fd_Read c = Ok (o, c') ∧
    match o with
    | Some p =>
        packet_ok p ∧ data_length (msg p) ≤ MAX_PAYLOAD ∧ pieces_ok (stream c') ∧
        msg_of_bytes (msg_bytes (msg p)) = Some (msg p) ∧
        concat (stream c) = packet_bytes p ++ concat (stream c')
    | None =>
        llen (concat (stream c)) < sizeof_amessage ∨
        ∃ m, msg_of_bytes (ltake sizeof_amessage (concat (stream c))) = Some m ∧
          (MAX_PAYLOAD < data_length m ∨ llen (concat (stream c)) < sizeof_amessage + data_length m)
    end.
Proof. apply fd_Read_spec. Qed.
End reading.

(** ** Writing *)

(** What comes out of a write is a beginning of the data, all of it when the write succeeds. *)
Lemma WriteFully_prefix answers : ∀ data ok out,
  WriteFully_loop data answers = (ok, out) → ∃ rest, data = out ++ rest ∧ (ok = Some true → rest = []).
Proof.
  induction answers as [|n answers IH]; intros [|b data] ok out; cbn [WriteFully_loop]; try (intros [= <- <-]; eexists; by split).
  destruct (n <=? 0); [intros [= <- <-]; eexists; by split|].
  destruct (WriteFully_loop (ldrop n (b :: data)) answers) as [ok' out'] eqn:E. intros [= <- <-].
  destruct (IH _ _ _ E) as (rest & Hr & Hok). exists rest. split; [|done]. rewrite <- app_assoc, <- Hr. by rewrite ltake_ldrop.
Qed.

Definition sink_ok (s : sink) : Prop := match s with SFd answers => answers_ok answers | STls _ _ => True end.

Lemma DispatchWrite_prefix data s :
  sink_ok s → ∃ ok out rest, DispatchWrite data s = Ok (ok, out) ∧ data = out ++ rest ∧ (ok = Some true → rest = []).
Proof.
  destruct s as [answers|ssl_ answers]; cbn [DispatchWrite sink_ok]; intros Hok.
  - pose proof (WriteFdExactly_prefix answers data Hok) as Hp. destruct (WriteFdExactly_loop data answers) as [ok out].
    destruct Hp as (rest & Hd & Hm). exists ok, out, rest. split_and!; [done..|]. by intros ->.
  - destruct (Z.eqb_spec (llen data) 0) as [E|E]; [exists (Some true), [], data; split_and!; [done..|]; by apply llen_0 in E|].
    unfold WriteFully. rewrite (proj2 (Z.eqb_neq _ _) E). cbn. destruct ssl_; [|by exists (Some false), [], data].
    destruct (WriteFully_loop data answers) as [ok out] eqn:El. destruct (WriteFully_prefix _ _ _ _ El) as (rest & Hd & Hr).
    by exists ok, out, rest.
Qed.

Section roundtrip.
Context `{Uninit}.

Lemma payload_read p : packet_ok p → block_read (payload p) 0 (data_length (msg p)) = Ok (contents (payload p)).
Proof.
  intros [Hb Hd]. unfold block_read, contents, block_ok in *. rewrite Hd. destruct (data_ (payload p)) as [d|].
  - rewrite bool_decide_true by lia. by rewrite ldrop_0.
  - by destruct Hb as [_ ->].
Qed.

(** Write sends the wire form of its packet: for any answers of the kernel or of the TLS library, what goes out
    is a beginning of it, and all of it when Write succeeds. *)
Theorem fd_write_exact p s s' :
  packet_ok p → sink_ok s → sink_ok s' →
  ∃ ok out rest, fd_Write p s s' = Ok (ok, out) ∧ packet_bytes p = out ++ rest ∧ (ok = Some true → rest = []).
Proof.
  intros Hp Hs Hs'. unfold fd_Write, packet_bytes. destruct (DispatchWrite_prefix (msg_bytes (msg p)) s Hs) as (ok & out & rest & -> & -> & Hr).
  cbn [mbind res_bind]. assert (∃ ok' out' rest', (ok', out') = (ok, out) ∧ (out ++ rest) ++ contents (payload p) = out' ++ rest' ∧
    (ok ≠ Some true → ok' = Some true → rest' = [])) as Hearly.
  { exists ok, out, (rest ++ contents (payload p)). by rewrite <- app_assoc. }
  destruct ok as [[]|]; [|destruct Hearly as (? & ? & ? & [= -> ->] & ? & ?); eexists _, _, _; split_and!; naive_solver..].
  rewrite (Hr eq_refl), app_nil_r. destruct (Z.eqb_spec (data_length (msg p)) 0) as [E|E].
  - exists (Some true), out, []. split; [done|]. split; [|done]. destruct Hp as [Hb Hd]. f_equal.
    apply llen_0. rewrite llen_contents by done. lia.
  - rewrite (payload_read _ Hp). cbn [mbind res_bind].
    destruct (DispatchWrite_prefix (contents (payload p)) s' Hs') as (ok' & out' & rest' & -> & Hc & Hr'). cbn [mbind res_bind].
    exists ok', (out ++ out'), rest'. split; [done|]. split; [|done]. by rewrite Hc, app_assoc.
Qed.

Definition same_packet (p q : apacket) : Prop := msg p = msg q ∧ contents (payload p) = contents (payload q).

Definition sendable (p : apacket) : Prop := msg_range (msg p) ∧ packet_ok p ∧ data_length (msg p) ≤ MAX_PAYLOAD.

Lemma packet_bytes_inj p q r r' :
  msg_of_bytes (msg_bytes (msg p)) = Some (msg p) → packet_ok p → sendable q →
  packet_bytes p ++ r = packet_bytes q ++ r' → same_packet p q ∧ r = r'.
Proof.
  intros H1 Hpo (Hq & Hqo & _). unfold packet_bytes. rewrite <- !app_assoc. intros E.
  apply app_inj_1 in E as [Em E]; [|done]. rewrite Em, (msg_of_msg_bytes _ Hq) in H1.
  injection H1 as Hm. destruct Hpo as [Hb1 Hd1], Hqo as [Hb2 Hd2].
  assert (length (contents (payload p)) = length (contents (payload q))) as Hlen.
  { pose proof (llen_contents _ Hb1). pose proof (llen_contents _ Hb2). unfold llen in *. rewrite Hm in Hd2. lia. }
  by apply app_inj_1 in E as [Ec Er].
Qed.

Lemma llen_packet_bytes p : packet_ok p → llen (packet_bytes p) = sizeof_amessage + data_length (msg p).
Proof. intros [Hb Hd]. unfold packet_bytes. rewrite llen_app, llen_msg_bytes, llen_contents by done. lia. Qed.

Lemma fd_read_sent p c rest :
  pieces_ok (stream c) → sendable p → concat (stream c) = packet_bytes p ++ rest →
  ∃ q c', fd_Read c = Ok (Some q, c') ∧ same_packet q p ∧ concat (stream c') = rest ∧ pieces_ok (stream c').
Proof.
  intros Hok Hs E. pose proof Hs as (Hm & Hp & Hmax). destruct (fd_Read_spec c Hok) as ([q|] & c' & Hr & Ho).
  - destruct Ho as (Hq & _ & Hok' & Hmq & E'). exists q, c'. rewrite E in E'. symmetry in E'.
    destruct (packet_bytes_inj _ _ _ _ Hmq Hq Hs E') as [Hsame ->]. done.
  - exfalso. pose proof (llen_packet_bytes p Hp) as Hl. pose proof (llen_nonneg rest). rewrite E, llen_app, Hl in Ho. destruct Hp as [Hb Hd].
    pose proof (block_ok_size _ Hb). destruct Ho as [Ho|(m & Hmm & Ho)]; [lia|].
    unfold packet_bytes in Hmm. rewrite <- app_assoc, ltake_app_le in Hmm by done. change (ltake sizeof_amessage (msg_bytes (msg p))) with (msg_bytes (msg p)) in Hmm.
    rewrite (msg_of_msg_bytes _ Hm) in Hmm. injection Hmm as <-. lia.
Qed.

(** C32. Packets over a blocking connection arrive as they were sent: reading a stream that begins with the wire forms of
    some packets, cut into pieces in any way, with or without TLS, gives these
    packets in order and leaves the rest of the stream. *)
Theorem fd_packets_roundtrip ps c rest :
  Forall sendable ps → pieces_ok (stream c) → concat (stream c) = concat (packet_bytes <$> ps) ++ rest →
  ∃ qs c', fd_reads (length ps) c = Ok (qs, c') ∧ Forall2 same_packet qs ps ∧ concat (stream c') = rest.
Proof.
  intros Hps. revert c. induction Hps as [|p ps Hp _ IH]; intros c Hok E; [by exists [], c|].
  cbn [fmap list_fmap concat] in E. rewrite <- app_assoc in E.
  destruct (fd_read_sent p c _ Hok Hp E) as (q & c1 & Hr & Hq & E1 & Hok1). destruct (IH c1 Hok1 E1) as (qs & c' & Hrs & Hqs & Hrest).
  exists (q :: qs), c'. cbn [length fd_reads]. rewrite Hr. cbn [mbind res_bind]. rewrite Hrs. cbn [mbind res_bind]. by split_and!; [|constructor|].
Qed.
End roundtrip.

(** ** Runs *)

#[local] Instance demo_memory : Uninit := zero_heap.

Definition demo_packet : apacket := mkPacket (mkMsg 1 2 3 2 0 4294967294) (mkBlock (Some [x61; x62]) 2 2).
(** The packet and a byte more, in two pieces. *)
Definition demo_pieces : list bytes := [take 10 (packet_bytes demo_packet); drop 10 (packet_bytes demo_packet) ++ [x7a]].

Lemma demo_sendable : sendable demo_packet.
Proof. unfold sendable, msg_range, packet_ok, block_ok, MAX_PAYLOAD. cbn. repeat split; lia. Qed.
Lemma demo_pieces_ok : pieces_ok demo_pieces.
Proof. by repeat constructor. Qed.

Lemma fd_read_exact_witness :
  ∃ o c', fd_Read (mkFdConn [] (Some (Some demo_pieces))) = Ok (o, c') ∧
    match o with
    | Some p =>
        packet_ok p ∧ data_length (msg p) ≤ MAX_PAYLOAD ∧ pieces_ok (stream c') ∧
        msg_of_bytes (msg_bytes (msg p)) = Some (msg p) ∧ concat demo_pieces = packet_bytes p ++ concat (stream c')
    | None =>
        llen (concat demo_pieces) < sizeof_amessage ∨
        ∃ m, msg_of_bytes (ltake sizeof_amessage (concat demo_pieces)) = Some m ∧
          (MAX_PAYLOAD < data_length m ∨ llen (concat demo_pieces) < sizeof_amessage + data_length m)
    end.
Proof. apply (fd_read_exact (mkFdConn [] (Some (Some demo_pieces)))), demo_pieces_ok. Defined.

Lemma fd_write_exact_witness :
  ∃ ok out rest, fd_Write demo_packet (SFd [WTook 5; WAgain; WTook 100]) (SFd [WTook 1; WError]) = Ok (ok, out) ∧
    packet_bytes demo_packet = out ++ rest ∧ (ok = Some true → rest = []).
Proof. apply fd_write_exact; [apply demo_sendable|by repeat constructor..]. Defined.

Lemma fd_packets_roundtrip_witness :
  ∃ qs c', fd_reads 1 (mkFdConn demo_pieces None) = Ok (qs, c') ∧ Forall2 same_packet qs [demo_packet] ∧ concat (stream c') = [x7a].
Proof.
  apply (fd_packets_roundtrip [demo_packet] (mkFdConn demo_pieces None) [x7a]); [repeat constructor; apply demo_sendable|apply demo_pieces_ok|done].
Defined.
