(* ===== verification/HostService.v ===== *)
(** * Requests of local clients: the parser

    Models [unhex] and [parse_host_service] of adb/sockets.cpp, which take apart what a
    client writes to the smart socket: a length in hexadecimal, and a service that may
    start with the serial number of a device. *)

From S2P Require Import Prelude Types TransportFd Strings SocketSpec Transport World.

(** ** The parser *)

(** [unhex]; [c] is an unsigned int, [n] wraps. *)
Fixpoint unhex_loop (s : bytes) (n : Z) : Z :=
  match s with
  | [] => n
  | b :: s =>
      let c := bval b in
      let d := if (48 <=? c) && (c <=? 57) then Some (c - 48)
               else if (97 <=? c) && (c <=? 102) then Some (c - 87)
               else if (65 <=? c) && (c <=? 70) then Some (c - 55) else None in
      match d with
      | None => 0xffffffff
      | Some v => unhex_loop s (Z.lor (u32 (Z.shiftl n 4)) v)
      end
  end.
Definition unhex (s : bytes) (len : nat) : Z := unhex_loop (take len s) 0.

(** [consume] of [parse_host_service]: the views [serial] and [command] are adjacent, so
    moving bytes is appending to one what leaves the other. *)
Definition consume (count : nat) (sc : bytes * bytes) : res (bytes * bytes) :=
  check (bool_decide (count ≤ length sc.2)%nat) ;;
  Ok (sc.1 ++ take count sc.2, drop count sc.2).

(** [finish]: the serial without its colon, and the command. *)
Definition finish (sc : bytes * bytes) : res (option (bytes * bytes)) :=
  match sc.1, sc.2 with
  | [], _ | _, [] => Ok None
  | _, _ =>
      check (bool_decide (last sc.1 = Some x3a)) ;;
      Ok (Some (removelast sc.1, sc.2))
  end.

Definition colon (s : bytes) : option nat := find_first_of s [x3a] 0.

(** The first of [usb:], [product:], ... that the service starts with: its length. *)
Definition serial_prefix (command : bytes) : option nat :=
  length <$> head (filter (λ p, starts_with command p = true)
    (txt <$> ["usb:"; "product:"; "model:"; "device:"; "localfilesystem:"]%string)).

(** Reads up to and including the next colon. *)
Definition consume_colon (sc : bytes * bytes) : res (option (bytes * bytes)) :=
  match colon sc.2 with
  | None => Ok None
  | Some offset => sc' ← consume (S offset) sc; Ok (Some sc')
  end.

(** The bracketed address: [inl false] when parsing fails, [inl true] when there is none,
    [inr] the text behind it. *)
Definition consume_ipv6 (sc : bytes * bytes) : res (bool + bytes * bytes) :=
  match sc.2 with
  | x5b :: _ =>
      match find_first_of sc.2 [x5d] 0 with
      | None => Ok (inl true)
      | Some ipv6_end =>
          sc' ← consume (S ipv6_end) sc;
          match sc'.2 with
          | x3a :: _ => sc'' ← consume 1 sc'; Ok (inr sc'')
          | _ => Ok (inl false)
          end
      end
  | [] => Undef
  | _ => Ok (inl true)
  end.

(** A port between colons belongs to the serial. *)
Definition consume_port (sc : bytes * bytes) : res (option (bytes * bytes)) :=
  match colon sc.2 with
  | None => finish sc
  | Some next_colon =>
      if forallb isdigit (take next_colon sc.2)
      then sc' ← consume (S next_colon) sc; finish sc'
      else finish sc
  end.

(** The serial and the command of a host service, when it parses. *)
Definition parse_host_service (full_service : bytes) : res (option (bytes * bytes)) :=
  match full_service with
  | [] => Ok None
  | _ =>
      match serial_prefix full_service with
      | Some n =>
          sc ← consume n ([], full_service);
          o ← consume_colon sc;
          match o with None => Ok None | Some sc => finish sc end
      | None =>
          sc ← (if starts_with full_service (txt "tcp:") || starts_with full_service (txt "udp:")
                then consume 4 ([], full_service) else Ok ([], full_service));
          if bool_decide (sc.2 = []) then Ok None else
          o ← (if starts_with sc.2 (txt "vsock:") then consume_colon sc else Ok (Some sc));
          match o with
          | None => Ok None
          | Some sc =>
              a ← consume_ipv6 sc;
              o ← match a with
                  | inl false => Ok None
                  | inl true => consume_colon sc
                  | inr sc => Ok (Some sc)
                  end;
              match o with None => Ok None | Some sc => consume_port sc end
          end
      end
  end.

(** ** What the parser guarantees *)

(** The views are adjacent parts of [s], and the serial is empty or ends with a colon. *)
Definition parsing (s : bytes) (sc : bytes * bytes) : Prop :=
  sc.1 ++ sc.2 = s ∧ (sc.1 = [] ∨ last sc.1 = Some x3a).

(** A result puts the service together again. *)
Definition parsed (s : bytes) (o : option (bytes * bytes)) : Prop :=
  match o with Some (serial, command) => s = serial ++ x3a :: command ∧ command ≠ [] | None => True end.

Lemma consume_Ok n sc :
  (n ≤ length sc.2)%nat → consume n sc = Ok (sc.1 ++ take n sc.2, drop n sc.2).
Proof. intros Hn. unfold consume. by rewrite bool_decide_eq_true_2. Qed.

Lemma find_byte_Some (s : bytes) (b : byte) n :
  find_first_of s [b] 0 = Some n → (S n ≤ length s)%nat ∧ last (take (S n) s) = Some b.
Proof.
  unfold find_first_of. rewrite drop_0. destruct (list_find _ s) as [[i x]|] eqn:E; [|done]. intros [= <-].
  apply list_find_Some in E as (Hi & Hx%list_elem_of_singleton & _). subst x. pose proof (lookup_lt_Some _ _ _ Hi).
  split; [lia|]. cbn [fst Nat.add]. by rewrite (take_S_r _ _ _ Hi), last_snoc.
Qed.

(** Moving bytes up to a colon keeps [parsing]. *)
Lemma consume_parsing s sc n :
  parsing s sc → (n ≤ length sc.2)%nat → last (take n sc.2) = Some x3a →
  consume n sc = Ok (sc.1 ++ take n sc.2, drop n sc.2) ∧ parsing s (sc.1 ++ take n sc.2, drop n sc.2).
Proof.
  intros [Hs _] Hn Hl. split; [by apply consume_Ok|]. split; cbn [fst snd].
  - by rewrite <- app_assoc, take_drop.
  - right. by rewrite last_app, Hl.
Qed.

Lemma consume_colon_parsing s sc :
  parsing s sc → ∃ o, consume_colon sc = Ok o ∧
    match o with Some sc' => parsing s sc' ∧ (∃ n, colon sc.2 = Some n ∧ sc'.2 = drop (S n) sc.2) | None => True end.
Proof.
  intros Hp. unfold consume_colon. destruct (colon sc.2) as [n|] eqn:E; [|by eexists].
  pose proof (find_byte_Some _ _ _ E) as [Hn Hl]. destruct (consume_parsing s sc (S n) Hp Hn Hl) as [-> ?].
  rok. eexists. split; [done|]. split; [done|by eexists].
Qed.

Lemma finish_parsing s sc : parsing s sc → ∃ o, finish sc = Ok o ∧ parsed s o.
Proof.
  intros [Hs Hl]. unfold finish. destruct sc as [serial command]. cbn [fst snd] in *.
  destruct serial as [|b serial]; [by exists None|]. destruct command as [|c command]; [by exists None|].
  destruct Hl as [|Hl]; [done|]. rewrite bool_decide_eq_true_2 by done. cbn [check]. rok.
  eexists. split; [done|]. split; [|done]. rewrite <- Hs. apply last_Some in Hl as [l ->].
  by rewrite removelast_last, <- app_assoc.
Qed.

Lemma consume_port_parsing s sc : parsing s sc → ∃ o, consume_port sc = Ok o ∧ parsed s o.
Proof.
  intros Hp. unfold consume_port. destruct (colon sc.2) as [n|] eqn:E; [|by apply finish_parsing].
  case_match; [|by apply finish_parsing]. pose proof (find_byte_Some _ _ _ E) as [Hn Hl].
  destruct (consume_parsing s sc (S n) Hp Hn Hl) as [-> ?]. rok. by apply finish_parsing.
Qed.

(** From the address on. *)
Lemma address_parsing s sc :
  parsing s sc → sc.2 ≠ [] →
  ∃ o, (a ← consume_ipv6 sc;
        o ← match a with inl false => Ok None | inl true => consume_colon sc | inr sc => Ok (Some sc) end;
        match o with None => Ok None | Some sc => consume_port sc end) = Ok o ∧ parsed s o.
Proof.
  intros Hp Hne.
  assert (∃ o, (o ← consume_colon sc; match o with None => Ok None | Some sc => consume_port sc end) = Ok o ∧ parsed s o) as Hcolon.
  { destruct (consume_colon_parsing s sc Hp) as ([sc'|] & -> & Hsc); rok; [|by exists None].
    apply consume_port_parsing, Hsc. }
  unfold consume_ipv6. destruct (sc.2) as [|b rest] eqn:E2; [done|]. rewrite <- E2.
  destruct (decide (b = x5b)) as [-> |Hb].
  2:{ destruct b; try (rok; exact Hcolon). done. }
  destruct (find_first_of sc.2 [x5d] 0) as [e|] eqn:E; [|rok; exact Hcolon].
  pose proof (find_byte_Some _ _ _ E) as [Hn _]. rewrite consume_Ok by done. rok. cbn [fst snd].
  destruct (drop (S e) sc.2) as [|c rest'] eqn:Ed; [rok; by exists None|].
  destruct (decide (c = x3a)) as [-> |Hc]; [|destruct c; try (rok; by exists None); done].
  rewrite consume_Ok by (cbn; lia). rok. cbn [fst snd take drop]. rok. apply consume_port_parsing. split; cbn [fst snd].
  - destruct Hp as [<- _]. rewrite <- !app_assoc. f_equal.
    rewrite <- (take_drop (S e) sc.2) at 2. rewrite Ed. by rewrite drop_0.
  - right. by rewrite !last_app.
Qed.

(** The services on which the parser reads [command[0]] of an empty command. *)
Definition vsock_only (s : bytes) : Prop :=
  s = txt "vsock:" ∨ s = txt "tcp:vsock:" ∨ s = txt "udp:vsock:".

Lemma starts_with_app (s p : bytes) : starts_with s p = true → s = p ++ drop (length p) s.
Proof. unfold starts_with. rewrite bool_decide_eq_true. intros E. rewrite <- E at 1. by rewrite take_drop. Qed.

Lemma prefix_parsing (s p : bytes) :
  starts_with s p = true → last p = Some x3a →
  consume (length p) ([], s) = Ok (p, drop (length p) s) ∧ parsing s (p, drop (length p) s).
Proof.
  intros E%starts_with_app Hl. rewrite consume_Ok by (cbn; rewrite E, length_app; lia). cbn [fst snd app].
  replace (take (length p) s) with p by (rewrite E, take_app_length; done). split; [done|].
  split; [by cbn; rewrite <- E|by right].
Qed.

Lemma serial_prefix_Some (s : bytes) n :
  serial_prefix s = Some n → ∃ p, n = length p ∧ starts_with s p = true ∧ last p = Some x3a.
Proof.
  unfold serial_prefix. destruct (head _) as [p|] eqn:E; [|done]. intros [= <-]. exists p.
  apply head_Some_elem_of in E. apply list_elem_of_filter in E as [? (x & -> & Hx)%list_elem_of_fmap]. split_and!; [done..|].
  repeat (apply elem_of_cons in Hx as [-> |Hx]; [done|]). by apply elem_of_nil in Hx.
Qed.

(** The optional protocol prefix, then the optional [vsock:] prefix. *)
Lemma vsock_parsing s sc :
  parsing s sc → sc.2 ≠ [] →
  ∃ r, (o ← (if starts_with sc.2 (txt "vsock:") then consume_colon sc else Ok (Some sc));
        match o with
        | None => Ok None
        | Some sc =>
            a ← consume_ipv6 sc;
            o ← match a with inl false => Ok None | inl true => consume_colon sc | inr sc => Ok (Some sc) end;
            match o with None => Ok None | Some sc => consume_port sc end
        end) = r ∧
    if decide (sc.2 = txt "vsock:") then r = Undef else ∃ o, r = Ok o ∧ parsed s o.
Proof.
  intros Hp Hne. eexists. split; [reflexivity|]. destruct (starts_with sc.2 (txt "vsock:")) eqn:Ev.
  - apply starts_with_app in Ev. set (rest := drop (length (txt "vsock:")) sc.2) in Ev.
    assert (colon sc.2 = Some 5%nat) as Hc by by rewrite Ev.
    assert (∃ sc', consume_colon sc = Ok (Some sc') ∧ parsing s sc' ∧ sc'.2 = rest) as (sc' & -> & Hp' & E2).
    { destruct (consume_colon_parsing s sc Hp) as (o & Eo & Ho). unfold consume_colon in Eo. rewrite Hc in Eo.
      apply bind_Ok_inv in Eo as (sc' & Ec & [= <-]). exists sc'. unfold consume_colon. rewrite Hc, Ec. split; [done|].
      destruct Ho as [Hp' (n & Hn & E)]. split; [done|]. by rewrite E, (inj Some _ _ (eq_trans (eq_sym Hn) Hc)). }
    rok. destruct rest as [|b rest].
    + rewrite decide_True by (by rewrite Ev). unfold consume_ipv6. by rewrite E2.
    + rewrite decide_False by (rewrite Ev; done). apply address_parsing; [done|]. by rewrite E2.
  - rewrite decide_False by (intros E; by rewrite E in Ev). rok. by apply address_parsing.
Qed.

Lemma vsock_only_prefix s : vsock_only s → serial_prefix s = None.
Proof. by intros [-> |[-> | ->]]. Qed.

Lemma parse_host_service_result s :
  if decide (vsock_only s) then parse_host_service s = Undef else ∃ o, parse_host_service s = Ok o ∧ parsed s o.
Proof.
  assert (∀ sc, sc.2 ≠ [] → parsing s sc → (vsock_only s ↔ sc.2 = txt "vsock:") → s ≠ [] → serial_prefix s = None →
    (if starts_with s (txt "tcp:") || starts_with s (txt "udp:") then consume 4 ([], s) else Ok ([], s)) = Ok sc →
    if decide (vsock_only s) then parse_host_service s = Undef else ∃ o, parse_host_service s = Ok o ∧ parsed s o) as Hmain.
  { intros sc Hne Hp Hv Hs Hpre E. destruct (vsock_parsing s sc Hp Hne) as (r & Er & Hr).
    assert (parse_host_service s = r) as ->.
    { rewrite <- Er. unfold parse_host_service. destruct s as [|b s']; [done|]. rewrite Hpre, E. rok.
      by rewrite bool_decide_eq_false_2. }
    destruct (decide (vsock_only s)) as [Hvs|Hvs]; [rewrite decide_True in Hr by by apply Hv|rewrite decide_False in Hr by by rewrite <- Hv]; done. }
  destruct (decide (s = [])) as [-> |Hs].
  { rewrite decide_False by by intros [|[|]]. by exists None. }
  destruct (serial_prefix s) as [n|] eqn:Epre.
  { rewrite decide_False by (intros ?%vsock_only_prefix; congruence).
    unfold parse_host_service. destruct s as [|b s']; [done|]. rewrite Epre.
    apply serial_prefix_Some in Epre as (p & -> & E & Hl). destruct (prefix_parsing _ p E Hl) as [-> Hp]. rok.
    destruct (consume_colon_parsing _ _ Hp) as ([sc|] & -> & Hsc); rok; [|by exists None].
    apply finish_parsing, Hsc. }
  destruct (starts_with s (txt "tcp:") || starts_with s (txt "udp:")) eqn:Epr.
  - assert (∃ p, length p = 4%nat ∧ starts_with s p = true ∧ last p = Some x3a ∧ (p = txt "tcp:" ∨ p = txt "udp:")) as (p & Hlen & E & Hl & Hp4).
    { apply orb_true_iff in Epr as [E|E]; [exists (txt "tcp:")|exists (txt "udp:")]; split_and!; try done; auto. }
    destruct (prefix_parsing s p E Hl) as [Ec Hp]. rewrite Hlen in Ec, Hp. apply starts_with_app in E. rewrite Hlen in E.
    assert (vsock_only s ↔ drop 4 s = txt "vsock:") as Hv.
    { split; [intros [Es|[Es|Es]]; rewrite Es in *; [discriminate Epr|done..]|]. intros Ed. rewrite Ed in E.
      unfold vsock_only. destruct Hp4 as [-> | ->]; auto. }
    destruct (decide (drop 4 s = [])) as [Ed|Hd].
    + rewrite decide_False by (rewrite Hv, Ed; done). exists None. split; [|done]. unfold parse_host_service.
      destruct s as [|b s']; [done|]. rewrite Epre, Epr, Ec. rok. by rewrite bool_decide_eq_true_2.
    + by apply (Hmain (p, drop 4 s)); rewrite ?Epr.
  - apply (Hmain ([], s)); rewrite ?Epr; try done; [by split; [|left]|]. split; [|by left].
    by intros [-> |[-> | ->]].
Qed.

(** Splitting a host request into serial and command: no [CHECK] ever fails, and whenever a
    result is reported the two parts with the colon between them are the request, so nothing
    is lost or invented.  Exactly for the three requests that end behind a [vsock:] prefix
    the parser reads the first character of an empty view. *)
Theorem parse_host_service_splits s :
  if decide (vsock_only s) then parse_host_service s = Undef
  else ∃ o, parse_host_service s = Ok o ∧
    ∀ serial command, o = Some (serial, command) → s = serial ++ x3a :: command ∧ command ≠ [].
Proof.
  pose proof (parse_host_service_result s) as E. destruct (decide (vsock_only s)); [done|].
  destruct E as (o & E & Ho). exists o. split; [done|]. by intros serial command ->.
Qed.
