(* ===== verification/Sockets.v ===== *)
(** * Sockets

    Models adb/sockets.cpp: local sockets (a file descriptor with a queue), remote
    sockets (a stream inside a transport), and the device trackers of adb/transport.cpp,
    which are sockets too.

    Sockets call each other through their function pointers.  [call_close] dispatches
    [s->close(s)]; its recursion has fuel, and SocketInv shows that [close_fuel] is enough
    in every well-formed state.  Functions that may reach [peer->enqueue] take it as an
    argument [enq]; the smart socket's [enqueue] is the entry point of the host services
    and is an argument too.  The invariant and the theorems are in SocketInv. *)

From S2P Require Import Prelude Types TransportFd Strings SocketSpec Transport World.

Section sockets.
Context `{OS} `{Uninit}.

(** ** Lists *)

Fixpoint find_local_socket_loop (l : list ptr) (local_id peer_id : Z) : M (option ptr) :=
  match l with
  | [] => mret None
  | p :: l =>
      s ← sget p;
      if negb (s_id s =? local_id) then find_local_socket_loop l local_id peer_id
      else if peer_id =? 0 then mret (Some p)
      else match peer s with
           | None => mret None
           | Some q => sq ← sget q; mret (if s_id sq =? peer_id then Some p else None)
           end
  end.
Definition find_local_socket (local_id peer_id : Z) : M (option ptr) :=
  l ← gets local_socket_list; find_local_socket_loop l local_id peer_id.

Definition install_local_socket (p : ptr) : M unit :=
  n ← gets local_socket_next_id;
  supd p (set_id n) ;;
  modify (set_next_id (u32 (n + 1))) ;;
  lift (check (negb (u32 (n + 1) =? 0))) ;;
  modify (λ w, set_lists (local_socket_list w ++ [p]) (local_socket_closing_list w) w).

Definition remove_socket (p : ptr) : M unit :=
  modify (λ w, set_lists (filter (λ x, x ≠ p) (local_socket_list w))
                         (filter (λ x, x ≠ p) (local_socket_closing_list w)) w).

(** ** Closing *)

Definition remote_socket_shutdown (p : ptr) : M unit :=
  s ← sget p;
  a0 ← match peer s with Some q => sq ← sget q; mret (s_id sq) | None => mret 0 end;
  t ← lift (deref (transport s));
  send_packet (bare_packet A_CLSE a0 (s_id s)) t.

Definition local_socket_destroy (p : ptr) : M unit :=
  s ← sget p;
  _ ← lift (deref (fde s));
  _ ← emit (EvDeferredClose (fd s));
  remove_socket p ;;
  sfree p ;;
  if exit_on_close s =? 0 then mret () else lift Exit.

(** The second half of [local_socket_close]: destroyed now, or once the queue is written. *)
Definition local_socket_retire (p : ptr) : M unit :=
  s ← sget p;
  if closing s || has_write_error s || empty (packet_queue s) then local_socket_destroy p
  else
    supd p (set_closing true) ;;
    fdevent_del p FDE_READ ;;
    remove_socket p ;;
    modify (λ w, set_lists (local_socket_list w) (local_socket_closing_list w ++ [p]) w) ;;
    s ← sget p;
    st ← lift (deref (fde s));
    lift (check (FDE_WRITE =? Z.land st FDE_WRITE)).

Section close.
Context (cc : ptr → M unit).

Definition local_socket_close (p : ptr) : M unit :=
  s ← sget p;
  match peer s with
  | Some q =>
      sq ← sget q;
      match shutdown sq with Some remote_socket_shutdown_fn => remote_socket_shutdown q | None => mret () end ;;
      supd q (set_peer None) ;;
      cc q ;;
      supd p (set_peer None)
  | None => mret ()
  end ;;
  local_socket_retire p.

(** [local_socket_close_notify]: [s->close] is [local_socket_close] when it is called. *)
Definition local_socket_close_notify (p : ptr) : M unit :=
  supd p (set_fns local_socket_ready_fn None local_socket_close_fn) ;;
  s ← sget p;
  _ ← SendFail (fd s) (txt "closed");
  cc p.

Definition remote_socket_close (p : ptr) : M unit :=
  s ← sget p;
  match peer s with
  | Some q => supd q (set_peer None) ;; cc q
  | None => mret ()
  end ;;
  sfree p.

Definition smart_socket_close (p : ptr) : M unit :=
  s ← sget p;
  match peer s with
  | Some q => supd q (set_peer None) ;; cc q ;; supd p (set_peer None)
  | None => mret ()
  end ;;
  sfree p.

Definition device_tracker_remove (p : ptr) : M unit :=
  modify (λ w, set_trackers (filter (λ x, x ≠ p) (device_tracker_list w)) w).

Definition device_tracker_close (p : ptr) : M unit :=
  s ← sget p;
  match peer s with
  | Some q => supd q (set_peer None) ;; cc q
  | None => mret ()
  end ;;
  device_tracker_remove p ;;
  sfree p.
End close.

(** [s->close(s)]. *)
Fixpoint call_close (fuel : nat) (p : ptr) : M unit :=
  match fuel with
  | O => lift NoFuel
  | S fuel =>
      s ← sget p;
      match close s with
      | local_socket_close_fn => local_socket_close (call_close fuel) p
      | local_socket_close_notify_fn => local_socket_close_notify (call_close fuel) p
      | remote_socket_close_fn => remote_socket_close (call_close fuel) p
      | smart_socket_close_fn => smart_socket_close (call_close fuel) p
      | device_tracker_close_fn => device_tracker_close (call_close fuel) p
      end
  end.

(** A socket, its peer, and a [local_socket_close_notify] on each. *)
Definition close_fuel : nat := 4.
Definition socket_close (p : ptr) : M unit := call_close close_fuel p.

(** The first socket of the list that belongs to transport [t], itself or by its peer. *)
Fixpoint find_transport_socket (l : list ptr) (t : ptr) : M (option ptr) :=
  match l with
  | [] => mret None
  | p :: l =>
      s ← sget p;
      if bool_decide (transport s = Some t) then mret (Some p) else
      match peer s with
      | None => find_transport_socket l t
      | Some q =>
          sq ← sget q;
          if bool_decide (transport sq = Some t) then mret (Some p) else find_transport_socket l t
      end
  end.
Fixpoint close_all_loop (fuel : nat) (t : ptr) : M unit :=
  match fuel with
  | O => lift NoFuel
  | S fuel =>
      l ← gets local_socket_list;
      r ← find_transport_socket l t;
      match r with
      | None => mret ()
      | Some p => socket_close p ;; close_all_loop fuel t
      end
  end.
Definition close_all_sockets (t : ptr) : M unit :=
  l ← gets local_socket_list; close_all_loop (S (length l)) t.

(** ** Moving data *)

Inductive SocketFlushResult := Destroyed | FlushTryAgain | FlushCompleted.

(** The [adb_writev] of the queue: the bytes that were flushed. *)
Definition flush_queue (p : ptr) : M Z :=
  s ← sget p;
  if empty (packet_queue s) then mret 0 else
  iov ← lift (iovecs (packet_queue s));
  n ← emit (EvWritev (fd s) (concat iov));
  match os_writev n (fd s) (concat iov) with
  | Written rc =>
      if 0 <? rc then
        q ← (if rc =? size (packet_queue s) then mret (snd (clear (packet_queue s)))
             else lift (drop_front rc (packet_queue s)));
        supd p (set_queue q) ;; mret (u32 rc)
      else supd p (set_write_error true) ;; mret 0
  | WriteEAGAIN => mret 0
  | WriteErrno => supd p (set_write_error true) ;; mret 0
  end.

(** The acknowledgement the other side is owed for [bytes_flushed]. *)
Definition flush_ack (p : ptr) (bytes_flushed : Z) : M unit :=
  s ← sget p;
  match transport s, peer s with
  | Some t, Some q =>
      sq ← sget q;
      match available_send_bytes s with
      | Some _ => send_ready (s_id s) (s_id sq) t bytes_flushed
      | None =>
          when (negb (bytes_flushed =? 0) && (size (packet_queue s) <? MAX_PAYLOAD))
            (send_ready (s_id s) (s_id sq) t 0)
      end
  | _, _ => mret ()
  end.

Definition local_socket_flush_incoming (p : ptr) : M SocketFlushResult :=
  bytes_flushed ← flush_queue p;
  s ← sget p;
  let fd_full := negb (empty (packet_queue s)) && negb (has_write_error s) in
  flush_ack p bytes_flushed ;;
  if closing s && negb fd_full then socket_close p ;; mret Destroyed
  else if fd_full then fdevent_add p FDE_WRITE ;; mret FlushTryAgain
  else fdevent_del p FDE_WRITE ;; mret FlushCompleted.

Definition local_socket_enqueue (p : ptr) (data : Block) : M Z :=
  s ← sget p;
  q ← lift (append (packet_queue s) data);
  supd p (set_queue q) ;;
  r ← local_socket_flush_incoming p;
  mret match r with Destroyed => -1 | FlushTryAgain => 1 | FlushCompleted => 0 end.

Definition remote_socket_enqueue (p : ptr) (data : Block) : M Z :=
  s ← sget p;
  q ← lift (deref (peer s));
  sq ← sget q;
  if MAX_PAYLOAD <? size_ data then mret (-1) else
  t ← lift (deref (transport s));
  send_packet (mkPacket (mkMsg A_WRTE (s_id sq) (s_id s) (u32 (size_ data)) 0 0) data) t ;;
  mret 1.

(** [s->enqueue(s, data)], with the smart socket's function as an argument. *)
Definition call_enqueue (smart : ptr → Block → M Z) (p : ptr) (data : Block) : M Z :=
  s ← sget p;
  match enqueue s with
  | local_socket_enqueue_fn => local_socket_enqueue p data
  | remote_socket_enqueue_fn => remote_socket_enqueue p data
  | smart_socket_enqueue_fn => smart p data
  | device_tracker_enqueue_fn => device_tracker_close socket_close p ;; mret (-1)
  end.

Definition get_max_payload (p : ptr) : M Z :=
  s ← sget p;
  m1 ← match transport s with
       | Some t => tr ← tget t; mret (Z.min MAX_PAYLOAD (max_payload tr))
       | None => mret MAX_PAYLOAD
       end;
  match peer s with
  | None => mret m1
  | Some q =>
      sq ← sget q;
      match transport sq with
      | Some t => tr ← tget t; mret (Z.min m1 (max_payload tr))
      | None => mret m1
      end
  end.

(** The [adb_read] loop: the buffer, what is left of it, and [is_eof]. *)
Fixpoint read_loop (fuel : nat) (fd : Z) (data : Block) (x avail : Z) : M (Block * Z * bool) :=
  match fuel with
  | O => lift NoFuel
  | S fuel =>
      if 0 <? avail then
        r ← adb_read fd avail;
        match r with
        | RdEAGAIN => mret (data, avail, false)
        | RdError | RdData [] => mret (data, avail, true)
        | RdData l =>
            data' ← lift (block_write data x l);
            read_loop fuel fd data' (x + llen l) (avail - llen l)
        end
      else mret (data, avail, false)
  end.

Definition local_socket_flush_outgoing (enq : ptr → Block → M Z) (p : ptr) : M bool :=
  max_payload ← get_max_payload p;
  data0 ← lift (resize empty_block max_payload);
  s ← sget p;
  '(data, avail, is_eof) ← read_loop (S (Z.to_nat max_payload)) (fd s) data0 0 max_payload;
  gone ← match peer s with
         | Some q =>
             if avail =? max_payload then mret false else
             data ← lift (resize data (max_payload - avail));
             match available_send_bytes s with
             | Some a => supd p (set_available (Some (a - size_ data)))
             | None => mret ()
             end ;;
             r ← enq q data;
             if r <? 0 then mret true else
             (if 0 <? r then
                s ← sget p;
                match available_send_bytes s with
                | Some a => when (a <=? 0) (fdevent_del p FDE_READ)
                | None => fdevent_del p FDE_READ
                end
              else mret ()) ;;
             mret false
         | None => mret false
         end;
  if gone : bool then mret false
  else if is_eof : bool then socket_close p ;; mret false
  else mret true.

Definition local_socket_event_func (enq : ptr → Block → M Z) (ev : Z) (p : ptr) : M unit :=
  destroyed ← (if negb (Z.land ev FDE_WRITE =? 0) then
                 r ← local_socket_flush_incoming p;
                 mret match r with Destroyed => true | _ => false end
               else mret false);
  if destroyed : bool then mret ()
  else if negb (Z.land ev FDE_READ =? 0) then
    _ ← local_socket_flush_outgoing enq p; mret ()
  else mret ().

(** ** Device trackers *)

(** [snprintf(buf, 5, "%04x", n)] keeps four characters. *)
Definition tracker_header (n : Z) : bytes := take 4 (fmt_04x (u32 n)).

Definition device_tracker_send (enq : ptr → Block → M Z) (p : ptr) (string : bytes) : M Z :=
  s ← sget p;
  data0 ← lift (resize empty_block (4 + llen string));
  data1 ← lift (block_write data0 0 (tracker_header (llen string)));
  data2 ← lift (block_write data1 4 string);
  q ← lift (deref (peer s));
  enq q data2.

Section listing.
Context `{Host} `{Protobuf}.
Context (enq : ptr → Block → M Z).

(** The transports of a list, in its order. *)
Definition list_transport_objects (l : list ptr) : M (list (ptr * atransport)) := λ w,
  match mapM (λ t, tr ← transports w !! t; Some (t, tr)) l with
  | Some ts => Ok (ts, w)
  | None => Undef
  end.

Definition current_listing (output_type : TrackerOutputType) : M bytes :=
  l ← gets transport_list;
  ts ← list_transport_objects l;
  mret (list_transports (snd <$> ts) output_type).

Definition device_tracker_ready (p : ptr) : M unit :=
  s ← sget p;
  match tracker s with
  | Some (true, output_type) =>
      supd p (set_tracker (Some (false, output_type))) ;;
      listing ← current_listing output_type;
      _ ← device_tracker_send enq p listing;
      mret ()
  | _ => mret ()
  end.

Definition create_device_tracker (output_type : TrackerOutputType) : M ptr :=
  p ← snew (set_tracker (Some (true, output_type))
             (new_socket device_tracker_enqueue_fn device_tracker_ready_fn None device_tracker_close_fn));
  modify (λ w, set_trackers (p :: device_tracker_list w) w) ;;
  mret p.

(** ** Ready and acknowledgements *)

Definition local_socket_ready (p : ptr) : M unit := fdevent_add p FDE_READ.

Definition remote_socket_ready (p : ptr) : M unit :=
  s ← sget p;
  q ← lift (deref (peer s));
  sq ← sget q;
  t ← lift (deref (transport s));
  send_packet (bare_packet A_OKAY (s_id sq) (s_id s)) t.

(** [local_socket_ready_notify]: [s->ready] is [local_socket_ready] when it is called. *)
Definition local_socket_ready_notify (p : ptr) : M unit :=
  supd p (set_fns local_socket_ready_fn None local_socket_close_fn) ;;
  s ← sget p;
  _ ← SendOkay (fd s);
  local_socket_ready p.

(** [s->ready(s)]. *)
Definition call_ready (p : ptr) : M unit :=
  s ← sget p;
  match ready s with
  | local_socket_ready_fn => local_socket_ready p
  | local_socket_ready_notify_fn => local_socket_ready_notify p
  | remote_socket_ready_fn => remote_socket_ready p
  | smart_socket_ready_fn => mret ()
  | device_tracker_ready_fn => device_tracker_ready p
  end.

Definition local_socket_ack (p : ptr) (acked_bytes : option Z) : M unit :=
  s ← sget p;
  match available_send_bytes s, acked_bytes with
  | Some a, Some k =>
      window ← gets g_delayed_ack_bytes;
      supd p (set_available (Some (Z.min (a + k) window))) ;;
      when (0 <? Z.min (a + k) window) (call_ready p)
  | None, None => call_ready p
  | _, _ => mret ()
  end.
End listing.

(** ** Creating sockets *)

Definition create_local_socket (fd : Z) : M ptr :=
  p ← snew (set_fd fd (new_socket local_socket_enqueue_fn local_socket_ready_fn None local_socket_close_fn));
  install_local_socket p ;;
  lift (check (0 <=? fd)) ;;
  supd p (set_fde (Some 0)) ;;
  mret p.

(** [create_local_service_socket], given the descriptor [service_to_fd] returned. *)
Definition create_local_service_socket (service_fd : option Z) (t : ptr) : M (option ptr) :=
  match service_fd with
  | None => mret None
  | Some fd => p ← create_local_socket fd; supd p (set_transport (Some t)) ;; mret (Some p)
  end.

Definition create_remote_socket (id : Z) (t : ptr) : M ptr :=
  lift (check (negb (id =? 0))) ;;
  snew (set_transport (Some t) (set_id id
    (new_socket remote_socket_enqueue_fn remote_socket_ready_fn (Some remote_socket_shutdown_fn)
       remote_socket_close_fn))).

Definition connect_to_remote (p : ptr) (destination : bytes) : M unit :=
  s ← sget p;
  t ← lift (deref (transport s));
  tupd t (UpdateReverseConfig destination) ;;
  tr ← tget t;
  arg1 ← (if delayed_ack_ tr then
            window ← gets g_delayed_ack_bytes;
            supd p (set_available (Some 0)) ;;
            mret (u32 window)
          else mret 0);
  payload ← lift (block_of_range (destination ++ [x00]));
  limit ← get_max_payload p;
  lift (check (u32 (size_ payload) <=? limit)) ;;
  send_packet (mkPacket (mkMsg A_OPEN (s_id s) arg1 (u32 (size_ payload)) 0 0) payload) t.

Definition create_smart_socket : M ptr :=
  snew (new_socket smart_socket_enqueue_fn smart_socket_ready_fn None smart_socket_close_fn).

(** [connect_to_smartsocket] of a socket whose [ready] is [local_socket_ready]. *)
Definition connect_to_smartsocket `{Host} `{Protobuf} (enq : ptr → Block → M Z) (p : ptr) : M unit :=
  ss ← create_smart_socket;
  supd p (set_peer (Some ss)) ;;
  supd ss (set_peer (Some p)) ;;
  call_ready enq p.
End sockets.
