(* ===== verification/SocketInv.v ===== *)
(** * The socket invariant

    [wf] describes the states between two events of the looper; [wfx X] the states in
    the middle of a close, where the sockets in [X] may still point at a peer that no
    longer points back.  The lemmas named [..._safe] show that an operation started in
    such a state returns (no use of a freed socket, no null pointer, no failed [CHECK],
    enough fuel), and what it leaves. *)

From S2P Require Import Prelude Types TransportFd Strings SocketSpec Transport World Sockets.

(** ** The invariant *)

Definition is_local (s : asocket) : Prop :=
  close s = local_socket_close_fn ∨ close s = local_socket_close_notify_fn.

(** Data that is queued and can be written is waited for. *)
Definition write_armed (s : asocket) : Prop :=
  ∃ st, fde s = Some st ∧
    (empty (packet_queue s) = false → has_write_error s = false → Z.land st FDE_WRITE = FDE_WRITE).

(** The function pointers of a socket agree, with the fields they rely on. *)
Definition kind_ok (s : asocket) : Prop :=
  exit_on_close s = 0 ∧
  match close s with
  | local_socket_close_fn | local_socket_close_notify_fn =>
      enqueue s = local_socket_enqueue_fn ∧
      (ready s = local_socket_ready_fn ∨ ready s = local_socket_ready_notify_fn) ∧
      shutdown s = None ∧ front_wf (packet_queue s) ∧ write_armed s
  | remote_socket_close_fn =>
      enqueue s = remote_socket_enqueue_fn ∧ ready s = remote_socket_ready_fn ∧
      shutdown s = Some remote_socket_shutdown_fn ∧ is_Some (transport s)
  | smart_socket_close_fn =>
      enqueue s = smart_socket_enqueue_fn ∧ ready s = smart_socket_ready_fn ∧ shutdown s = None
  | device_tracker_close_fn =>
      enqueue s = device_tracker_enqueue_fn ∧ ready s = device_tracker_ready_fn ∧ shutdown s = None
  end.

(** A transport in use: it has a connection, and its payload limit is a size. *)
Definition tr_ok (tr : atransport) : Prop := is_Some (connection_ tr) ∧ 0 ≤ max_payload tr.

(** A local socket that is only kept until its queue is written. *)
Definition retiring (s : asocket) : Prop := is_local s ∧ closing s = true.

Record wfx (X : gset ptr) (w : world) : Prop := {
  wf_kind p s : socks w !! p = Some s → kind_ok s;
  wf_transport p s t : socks w !! p = Some s → ¬ retiring s → transport s = Some t → is_Some (transports w !! t);
  wf_conn t tr : transports w !! t = Some tr → tr_ok tr;
  wf_peer p s q : p ∉ X → socks w !! p = Some s → peer s = Some q →
    p ≠ q ∧ ∃ sq, socks w !! q = Some sq ∧ peer sq = Some p;
  wf_nonlocal_peer p s : p ∉ X → socks w !! p = Some s → ¬ is_local s →
    ∃ q sq, peer s = Some q ∧ socks w !! q = Some sq ∧ is_local sq;
  wf_closing p s : socks w !! p = Some s → is_local s → closing s = true → peer s = None;
  wf_list p : p ∈ local_socket_list w ↔ ∃ s, socks w !! p = Some s ∧ is_local s ∧ closing s = false;
  wf_closing_list p :
    p ∈ local_socket_closing_list w ↔ ∃ s, socks w !! p = Some s ∧ is_local s ∧ closing s = true;
  wf_trackers p :
    p ∈ device_tracker_list w ↔ ∃ s, socks w !! p = Some s ∧ close s = device_tracker_close_fn;
  wf_nodup : NoDup (local_socket_list w);
  wf_id p s : socks w !! p = Some s → is_local s → 0 < s_id s < local_socket_next_id w;
  wf_id_inj p q s s' : socks w !! p = Some s → socks w !! q = Some s' →
    is_local s → is_local s' → s_id s = s_id s' → p = q;
  wf_next_id : 0 < local_socket_next_id w < 2 ^ 32;
  wf_fresh p s : socks w !! p = Some s → (p < next_ptr w)%positive
}.
Abbreviation wf := (wfx ∅).

(** ** What sending packets and replies changes *)

(** A transport whose connection may have been stopped. *)
Definition tr_like (tr tr' : atransport) : Prop :=
  set_kicked true (set_connection None tr) = set_kicked true (set_connection None tr') ∧
  (is_Some (connection_ tr) → is_Some (connection_ tr')).

(** Only the log moved on, and some connections were stopped. *)
Definition sent (w w' : world) : Prop :=
  ∃ c l T, w' = set_log c l (set_transports T w) ∧ ∀ t, option_Forall2 tr_like (transports w !! t) (T !! t).

#[global] Instance tr_like_refl : Reflexive tr_like.
Proof. intros tr. done. Qed.
#[global] Instance tr_like_trans : Transitive tr_like.
Proof. intros a b c [E1 H1] [E2 H2]. split; [by rewrite E1|auto]. Qed.
#[global] Instance sent_refl : Reflexive sent.
Proof. intros w. exists (clock w), (trace w), (transports w). split; [by destruct w|]. intros t. reflexivity. Qed.
#[global] Instance sent_trans : Transitive sent.
Proof.
  intros w1 w2 w3 (c1 & l1 & T1 & -> & H1) (c2 & l2 & T2 & -> & H2). exists c2, l2, T2.
  split; [by destruct w1|]. intros t. etrans; [apply H1|apply H2].
Qed.

Lemma sent_log c l w : sent w (set_log c l w).
Proof. exists c, l, (transports w). split; [by destruct w|]. intros t. reflexivity. Qed.

Lemma wfx_sent X w w' : wfx X w → sent w w' → wfx X w'.
Proof.
  intros Hw (c & l & T & -> & HT). destruct Hw. split; try done.
  - intros p s t Hs Hret Ht. destruct (wf_transport0 p s t Hs Hret Ht) as [tr Htr].
    specialize (HT t). rewrite Htr in HT. by inversion HT as [? tr' Hl E|]; subst.
  - intros t tr Htr. specialize (HT t). cbn in Htr. rewrite Htr in HT.
    inversion HT as [tr0 ? [Hl1 Hl2] E|]; subst. destruct (wf_conn0 t tr0) as [? ?]; [done|]. split; [auto|].
    apply (f_equal max_payload) in Hl1. cbn in Hl1. lia.
Qed.

(** What no socket operation changes: the transports' lists and the listeners; device
    trackers only go. *)
Record frame (w w' : world) : Prop := {
  fr_transports : transport_list w' = transport_list w;
  fr_pending : pending_list w' = pending_list w;
  fr_listeners : listener_list w' = listener_list w;
  fr_trackers : device_tracker_list w' ⊆ device_tracker_list w;
  fr_window : g_delayed_ack_bytes w' = g_delayed_ack_bytes w
}.

#[global] Instance frame_refl : Reflexive frame.
Proof. by split. Qed.
#[global] Instance frame_trans : Transitive frame.
Proof. intros w1 w2 w3 [] []. split; [congruence..|set_solver|congruence]. Qed.

Lemma frame_socks m w w' : frame (set_socks m w) w' → frame w w'.
Proof. intros []. by split. Qed.
Lemma frame_socks_r m w w' : frame w w' → frame w (set_socks m w').
Proof. intros []. by split. Qed.
Lemma sent_frame w w' : sent w w' → frame w w'.
Proof. intros (c & l & T & -> & _). by split. Qed.

(** A socket with a peer is in use, and so is its transport. *)
Lemma peered_transport X w p s q t :
  wfx X w → socks w !! p = Some s → peer s = Some q → transport s = Some t → is_Some (transports w !! t).
Proof.
  intros Hw Hs Hp. eapply wf_transport; [done..|]. intros [Hl Hc].
  by rewrite (wf_closing _ _ Hw p s Hs Hl Hc) in Hp.
Qed.

Section ops.
Context `{OS} `{!OSLaws} `{Uninit}.

(** ** Sending *)

Lemma Kick_like tr : is_Some (connection_ tr) → ∃ tr', Kick tr = Ok tr' ∧ tr_like tr tr'.
Proof.
  intros [c Hc]. unfold Kick. destruct (kicked_ tr); [by exists tr|]. rewrite Hc. cbn [deref]. rok.
  eexists. split; [done|]. split; [done|]. by eexists.
Qed.

Definition connected (w : world) : Prop := ∀ t tr, transports w !! t = Some tr → tr_ok tr.

Lemma wp_send_packet F p t (Q : unit → world → Prop) w :
  connected w → is_Some (transports w !! t) → packet_ok p → (∀ w', sent w w' → Q () w') →
  wp F (send_packet p t) Q w.
Proof.
  intros Hw [tr Htr] Hp HQ. destruct (Hw t tr Htr) as [[c Hc] _].
  destruct (finish_packet_ok p tr Hp) as (k & E & _).
  unfold send_packet. do 2 wstep. wstep. eapply wp_lift; [exact E|]. wstep.
  unfold atransport_Write. do 2 wstep. wstep. eapply wp_lift; [by rewrite Hc|]. wstep. do 2 wstep.
  apply wp_when; intros _; [|apply HQ, sent_log].
  unfold tupd. destruct (Kick_like tr) as (tr' & EK & HK); [by rewrite Hc|].
  do 2 wstep. wstep. eapply wp_lift; [exact EK|]. unfold tput. wstep. apply HQ.
  exists (S (clock w)), (trace w ++ [EvPacket t (mkPacket (mkMsg (command (msg p)) (arg0 (msg p))
    (arg1 (msg p)) (data_length (msg p)) k (Z.lxor (command (msg p)) 0xffffffff)) (payload p))]),
    (<[t := tr']> (transports w)). split; [reflexivity|]. intros t'. wcbn. destruct (decide (t = t')) as [<-|].
  - rewrite lookup_insert_eq, Htr. by constructor.
  - by rewrite lookup_insert_ne.
Qed.

Lemma packet_ok_bare c a0 a1 : packet_ok (bare_packet c a0 a1).
Proof. by split. Qed.

Lemma wp_send_ready F a b t k (Q : unit → world → Prop) w :
  connected w → is_Some (transports w !! t) → (∀ w', sent w w' → Q () w') →
  wp F (send_ready a b t k) Q w.
Proof.
  intros Hw Ht HQ. destruct (Ht) as [tr Htr]. unfold send_ready. do 2 wstep. case_match.
  - wstep. destruct (block_of_range_spec (le32 k)) as (blk & E & Hb & _ & Hs).
    eapply wp_lift; [exact E|]. eapply wp_send_packet; [done|done| |done]. by split.
  - eapply wp_send_packet; [done..| |done]. apply packet_ok_bare.
Qed.

Lemma wp_WriteFdExactly F fd data (Q : bool → world → Prop) w :
  (∀ b w', sent w w' → Q b w') → wp F (WriteFdExactly fd data) Q w.
Proof. intros HQ. unfold WriteFdExactly. do 3 wstep. apply HQ, sent_log. Qed.

Lemma wp_SendFail F fd data (Q : bool → world → Prop) w :
  (∀ b w', sent w w' → Q b w') → wp F (SendFail fd data) Q w.
Proof.
  intros HQ. unfold SendFail. wstep. apply wp_WriteFdExactly. intros [] w1 Hs1; [|by apply HQ].
  unfold SendProtocolString. case_match; [|by apply HQ].
  apply wp_WriteFdExactly. intros b w2 Hs2. apply HQ. by etrans.
Qed.

Lemma wp_SendOkay F fd (Q : bool → world → Prop) w :
  (∀ b w', sent w w' → Q b w') → wp F (SendOkay fd) Q w.
Proof. apply wp_WriteFdExactly. Qed.

(** ** Closing a socket that has no peer *)

(** What closing [p] leaves alone. *)
Record closed (p : ptr) (w w' : world) : Prop := {
  closed_socks q : q ≠ p → socks w' !! q = socks w !! q;
  closed_transports t : option_Forall2 tr_like (transports w !! t) (transports w' !! t);
  closed_local : p ∉ local_socket_list w' ∧ local_socket_list w' ⊆ local_socket_list w;
  closed_next : next_ptr w' = next_ptr w ∧ local_socket_next_id w' = local_socket_next_id w;
  closed_frame : frame w w'
}.

Definition is_tracker (s : asocket) : Prop := close s = device_tracker_close_fn.

(** No socket outside [X] has [p] as its peer. *)
Definition unpointed (X : gset ptr) (w : world) (p : ptr) : Prop :=
  ∀ q sq, q ∉ X → socks w !! q = Some sq → peer sq ≠ Some p.

Lemma peerless_unpointed X w p s :
  wfx X w → socks w !! p = Some s → peer s = None → unpointed X w p.
Proof.
  intros Hw Hs Hp q sq Hq Hsq Hqp. destruct (wf_peer _ _ Hw q sq p Hq Hsq Hqp) as (_ & s' & Hs' & Hp').
  congruence.
Qed.
Lemma peered_unpointed X w p s q :
  wfx X w → socks w !! p = Some s → peer s = Some q → q ∈ X → unpointed X w p.
Proof.
  intros Hw Hs Hp HqX r sr Hr Hsr Hrp. destruct (wf_peer _ _ Hw r sr p Hr Hsr Hrp) as (_ & s' & Hs' & Hp').
  simplify_eq. done.
Qed.

(** Freeing a socket nobody points at, and taking it off its list. *)
Lemma wfx_delete X w w' p :
  wfx X w → unpointed X w p →
  socks w' = delete p (socks w) → transports w' = transports w →
  (∀ q, q ∈ local_socket_list w' ↔ q ≠ p ∧ q ∈ local_socket_list w) →
  (∀ q, q ∈ local_socket_closing_list w' ↔ q ≠ p ∧ q ∈ local_socket_closing_list w) →
  (∀ q, q ∈ device_tracker_list w' ↔ q ≠ p ∧ q ∈ device_tracker_list w) →
  NoDup (local_socket_list w') →
  next_ptr w' = next_ptr w → local_socket_next_id w' = local_socket_next_id w →
  wfx X w'.
Proof.
  intros Hw Hun Es Et El Ec Ek Hnd En Ei.
  assert (∀ q sq, socks w' !! q = Some sq ↔ q ≠ p ∧ socks w !! q = Some sq) as Hl.
  { intros q sq. rewrite Es, lookup_delete_Some. naive_solver. }
  split.
  - intros q sq [? ?]%Hl. by eapply wf_kind.
  - intros q sq t [? ?]%Hl. rewrite Et. by eapply wf_transport.
  - intros t tr. rewrite Et. by eapply wf_conn.
  - intros q sq r HX [? Hq]%Hl Hr. destruct (wf_peer _ _ Hw q sq r HX Hq Hr) as (? & sr & Hsr & Hpr).
    split; [done|]. exists sr. rewrite Hl. split; [|done]. split; [|done]. intros ->. by eapply Hun.
  - intros q sq HX [? Hq]%Hl Hn. destruct (wf_nonlocal_peer _ _ Hw q sq HX Hq Hn) as (r & sr & ? & ? & ?).
    exists r, sr. split_and!; try done. apply Hl. split; [|done]. intros ->. by eapply Hun.
  - intros q sq [? ?]%Hl. by eapply wf_closing.
  - intros q. rewrite El, (wf_list _ _ Hw q). setoid_rewrite Hl. naive_solver.
  - intros q. rewrite Ec, (wf_closing_list _ _ Hw q). setoid_rewrite Hl. naive_solver.
  - intros q. rewrite Ek, (wf_trackers _ _ Hw q). setoid_rewrite Hl. naive_solver.
  - done.
  - intros q sq [? ?]%Hl. rewrite Ei. by eapply wf_id.
  - intros q r sq sr [? ?]%Hl [? ?]%Hl. by eapply wf_id_inj.
  - rewrite Ei. apply Hw.
  - intros q sq [? ?]%Hl. rewrite En. by eapply wf_fresh.
Qed.

(** Assigning to fields that the invariant sees only through [kind_ok], and to the transport. *)
Lemma wfx_assign X w p s s' :
  wfx X w → socks w !! p = Some s → kind_ok s' →
  (is_local s' ↔ is_local s) → (is_tracker s' ↔ is_tracker s) → closing s' = closing s →
  s_id s' = s_id s → peer s' = peer s →
  (∀ t, ¬ retiring s' → transport s' = Some t → is_Some (transports w !! t)) →
  wfx X (set_socks (<[p := s']> (socks w)) w).
Proof.
  intros Hw Hs Hk Hloc Htr Hcl Hid Hpe Htp.
  assert (∀ q sq, <[p := s']> (socks w) !! q = Some sq →
    ∃ s0, socks w !! q = Some s0 ∧ kind_ok sq ∧ (is_local sq ↔ is_local s0) ∧ (is_tracker sq ↔ is_tracker s0) ∧
      closing sq = closing s0 ∧ s_id sq = s_id s0 ∧ peer sq = peer s0 ∧
      (∀ t, ¬ retiring sq → transport sq = Some t → is_Some (transports w !! t))) as Hl.
  { intros q sq. rewrite lookup_insert_Some. intros [[<- <-]|[? Hq]]; [by exists s|].
    exists sq. split_and!; try done; [by eapply wf_kind|]. intros t Hr. by eapply wf_transport. }
  assert (∀ q s0, socks w !! q = Some s0 → ∃ sq, <[p := s']> (socks w) !! q = Some sq ∧
    (is_local sq ↔ is_local s0) ∧ (is_tracker sq ↔ is_tracker s0) ∧ closing sq = closing s0 ∧ peer sq = peer s0) as Hr.
  { intros q s0 Hq. destruct (decide (p = q)) as [<-|]; [|by exists s0; rewrite lookup_insert_ne].
    exists s'. rewrite lookup_insert_eq. simplify_eq. done. }
  split; wcbn; try apply Hw.
  - intros q sq (s0 & ? & ? & _)%Hl. done.
  - intros q sq t (s0 & ? & _ & _ & _ & _ & _ & _ & Ht)%Hl. apply Ht.
  - intros q sq r HX (s0 & Hq & _ & _ & _ & _ & _ & -> & _)%Hl Hpr.
    destruct (wf_peer _ _ Hw q s0 r HX Hq Hpr) as (? & sr & (sr' & ? & _ & _ & _ & Hpq)%Hr & Hrp).
    split; [done|]. exists sr'. by rewrite Hpq.
  - intros q sq HX (s0 & Hq & _ & Hlo & _ & _ & _ & -> & _)%Hl Hn.
    destruct (wf_nonlocal_peer _ _ Hw q s0 HX Hq) as (r & sr & ? & (sr' & ? & Hlo' & _)%Hr & ?); [by rewrite <- Hlo|].
    exists r, sr'. by rewrite Hlo'.
  - intros q sq (s0 & Hq & _ & Hlo & _ & -> & _ & -> & _)%Hl ?%Hlo. by eapply wf_closing.
  - intros q. rewrite (wf_list _ _ Hw q). split.
    + intros (s0 & Hq & ? & ?). destruct (Hr _ _ Hq) as (sq & ? & Hlo & _ & Ec & _).
      exists sq. by rewrite Hlo, Ec.
    + intros (sq & Hq & ? & ?). destruct (Hl _ _ Hq) as (s0 & ? & _ & Hlo & _ & Ec & _).
      exists s0. by rewrite <- Hlo, <- Ec.
  - intros q. rewrite (wf_closing_list _ _ Hw q). split.
    + intros (s0 & Hq & ? & ?). destruct (Hr _ _ Hq) as (sq & ? & Hlo & _ & Ec & _).
      exists sq. by rewrite Hlo, Ec.
    + intros (sq & Hq & ? & ?). destruct (Hl _ _ Hq) as (s0 & ? & _ & Hlo & _ & Ec & _).
      exists s0. by rewrite <- Hlo, <- Ec.
  - intros q. rewrite (wf_trackers _ _ Hw q). split.
    + intros (s0 & (sq & Hq & _ & Ht & _)%Hr & ?). exists sq. split; [done|]. by apply Ht.
    + intros (sq & (s0 & ? & _ & _ & Ht & _)%Hl & ?). exists s0. split; [done|]. by apply Ht.
  - intros q sq (s0 & ? & _ & Hlo & _ & _ & -> & _)%Hl ?%Hlo. by eapply wf_id.
  - intros q r sq sr (s0 & ? & _ & Hlo & _ & _ & -> & _)%Hl (s1 & ? & _ & Hlo' & _ & _ & -> & _)%Hl ?%Hlo ?%Hlo'.
    by eapply wf_id_inj.
  - intros q sq (s0 & ? & _)%Hl. by eapply wf_fresh.
Qed.

Lemma wfx_update X w p s s' :
  wfx X w → socks w !! p = Some s → kind_ok s' →
  (is_local s' ↔ is_local s) → (is_tracker s' ↔ is_tracker s) → closing s' = closing s →
  s_id s' = s_id s → peer s' = peer s → transport s' = transport s →
  wfx X (set_socks (<[p := s']> (socks w)) w).
Proof.
  intros Hw Hs Hk Hloc Htr Hcl Hid Hpe Htp. eapply wfx_assign; try done. intros t Hr. rewrite Htp.
  eapply wf_transport; [done..|]. unfold retiring in *. by rewrite <- Hloc, <- Hcl.
Qed.

Lemma wfx_shrink X X' w :
  wfx X w →
  (∀ p s, p ∈ X → p ∉ X' → socks w !! p = Some s → peer s = None ∧ is_local s) → wfx X' w.
Proof.
  intros Hw Hsh. destruct Hw. split; try done.
  - intros p s q HX Hs Hp. destruct (decide (p ∈ X)); [|eauto].
    destruct (Hsh p s) as [? _]; [done..|congruence].
  - intros p s HX Hs Hk. destruct (decide (p ∈ X)); [|eauto]. by destruct (Hsh p s).
Qed.

Lemma wfx_grow X X' w : wfx X w → X ⊆ X' → wfx X' w.
Proof.
  intros Hw HX. destruct Hw. split; try done.
  - intros p s q ?. apply wf_peer0. set_solver.
  - intros p s ?. apply wf_nonlocal_peer0. set_solver.
Qed.

(** [s->peer->peer = nullptr]: the socket and its peer are now in between. *)
Lemma wfx_unpeer X w p s q sq :
  wfx X w → socks w !! p = Some s → peer s = Some q → socks w !! q = Some sq → peer sq = Some p →
  wfx (X ∪ {[p; q]}) (set_socks (<[q := set_peer None sq]> (socks w)) w).
Proof.
  intros Hw Hs Hp Hq Hqp.
  assert (∀ r sr, <[q := set_peer None sq]> (socks w) !! r = Some sr →
    (r = q ∧ sr = set_peer None sq) ∨ (r ≠ q ∧ socks w !! r = Some sr)) as Hl.
  { intros r sr. rewrite lookup_insert_Some. naive_solver. }
  assert (∀ r, r ≠ q → <[q := set_peer None sq]> (socks w) !! r = socks w !! r) as Hr.
  { intros r ?. by rewrite lookup_insert_ne. }
  assert (∀ P : asocket → Prop, (P (set_peer None sq) ↔ P sq) →
    ∀ r, (∃ sr, <[q := set_peer None sq]> (socks w) !! r = Some sr ∧ P sr) ↔ (∃ sr, socks w !! r = Some sr ∧ P sr)) as HP.
  { intros P HPq r. destruct (decide (r = q)) as [->|Hrq]; [|by setoid_rewrite Hr].
    rewrite lookup_insert_eq. naive_solver. }
  split; wcbn; try apply Hw.
  - intros r sr [[-> ->]|[? Hr']]%Hl; [|by eapply wf_kind]. exact (wf_kind _ _ Hw q sq Hq).
  - intros r sr t [[-> ->]|[? Hr']]%Hl; [exact (wf_transport _ _ Hw q sq t Hq)|by eapply wf_transport].
  - intros r sr r' HX [[-> ->]|[? Hr']]%Hl Hpr; [set_solver|].
    destruct (wf_peer _ _ Hw r sr r') as (? & sr' & Hsr' & Hpr'); [set_solver|done..|].
    split; [done|]. exists sr'. rewrite Hr; [done|]. intros ->. simplify_eq. set_solver.
  - intros r sr HX [[-> ->]|[? Hr']]%Hl Hn; [set_solver|].
    destruct (wf_nonlocal_peer _ _ Hw r sr) as (r' & sr' & ? & ? & ?); [set_solver|done..|].
    destruct (proj2 (HP is_local (iff_refl _) r')) as (sr'' & ? & ?); [by exists sr'|]. by exists r', sr''.
  - intros r sr [[-> ->]|[? Hr']]%Hl; [done|]. by eapply wf_closing.
  - intros r. rewrite (HP (λ sr, is_local sr ∧ closing sr = false)) by done. apply Hw.
  - intros r. rewrite (HP (λ sr, is_local sr ∧ closing sr = true)) by done. apply Hw.
  - intros r. rewrite (HP (λ sr, close sr = device_tracker_close_fn)) by done. apply Hw.
  - intros r sr [[-> ->]|[? Hr']]%Hl; [exact (wf_id _ _ Hw q sq Hq)|by eapply wf_id].
  - intros r r' sr sr' [[-> ->]|[? Hr1]]%Hl [[-> ->]|[? Hr2]]%Hl; [done|..].
    + exact (wf_id_inj _ _ Hw q r' sq sr' Hq Hr2).
    + exact (wf_id_inj _ _ Hw r q sr sq Hr1 Hq).
    + by eapply wf_id_inj.
  - intros r sr [[-> ->]|[? Hr']]%Hl; [exact (wf_fresh _ _ Hw q sq Hq)|by eapply wf_fresh].
Qed.

Lemma elem_of_filter_ne (p q : ptr) (l : list ptr) : q ∈ filter (λ x, x ≠ p) l ↔ q ≠ p ∧ q ∈ l.
Proof. by rewrite list_elem_of_filter. Qed.

Lemma local_kind s : is_local s → kind_ok s →
  exit_on_close s = 0 ∧ enqueue s = local_socket_enqueue_fn ∧
  (ready s = local_socket_ready_fn ∨ ready s = local_socket_ready_notify_fn) ∧
  shutdown s = None ∧ front_wf (packet_queue s) ∧ write_armed s.
Proof. unfold kind_ok. intros [E|E] [? Hk]; rewrite E in Hk; done. Qed.

Lemma local_not_tracker s : is_local s → ¬ is_tracker s.
Proof. unfold is_local, is_tracker. intros [E|E] ?; congruence. Qed.

(** [local_socket_destroy] of a local socket without peer. *)
Lemma wp_local_socket_destroy F X w p s :
  wfx X w → socks w !! p = Some s → is_local s → peer s = None →
  wp F (local_socket_destroy p) (λ _ w', wfx X w' ∧ closed p w w' ∧ socks w' !! p = None) w.
Proof.
  intros Hw Hs Hl Hp. destruct (local_kind s Hl) as (He & _ & _ & _ & _ & st & Hst & _);
    [by eapply wf_kind|].
  unfold local_socket_destroy. do 2 wstep. wstep. eapply wp_lift; [by rewrite Hst|].
  do 2 wstep. wstep. unfold remove_socket. wstep. wstep.
  eapply (wp_sfree p s); [done|]. rewrite He. cbn [Z.eqb]. wstep.
  assert (∀ k, p ∈ device_tracker_list w → k = true) as Hnt.
  { intros k (s' & Hs' & Hk)%(wf_trackers _ _ Hw p). simplify_eq. by destruct Hl; congruence. }
  split_and!.
  - eapply (wfx_delete X w _ p); wcbn; try done; try (intros q; apply elem_of_filter_ne).
    + by eapply peerless_unpointed.
    + intros q. split; [|naive_solver]. intros Hq. split; [|done]. intros ->. by specialize (Hnt false Hq).
    + apply NoDup_filter, Hw.
  - split; wcbn; try done.
    + intros q ?. by rewrite lookup_delete_ne.
    + split; [|intros q; rewrite elem_of_filter_ne; naive_solver]. rewrite elem_of_filter_ne. naive_solver.
  - wcbn. apply lookup_delete_eq.
Qed.

(** ** Event masks *)

Lemma del_read_write st : Z.land (Z.ldiff st FDE_READ) FDE_WRITE = Z.land st FDE_WRITE.
Proof. rewrite Z.ldiff_land, <- Z.land_assoc. done. Qed.
Lemma add_write_write st : Z.land (Z.lor st FDE_WRITE) FDE_WRITE = FDE_WRITE.
Proof. apply Z.bits_inj'. intros n _. rewrite Z.land_spec, Z.lor_spec. by destruct (Z.testbit st n), (Z.testbit _ n). Qed.
Lemma add_read_write st : Z.land (Z.lor st FDE_READ) FDE_WRITE = Z.land st FDE_WRITE.
Proof. rewrite Z.land_lor_distr_l. change (Z.land FDE_READ FDE_WRITE) with 0. apply Z.lor_0_r. Qed.

(** The socket that goes to the closing list. *)
Definition to_closing (s : asocket) (st : Z) : asocket :=
  set_fde (Some (Z.ldiff st FDE_READ)) (set_closing true s).

Lemma wfx_to_closing X w w' p s st :
  wfx X w → socks w !! p = Some s → is_local s → peer s = None → fde s = Some st →
  closing s = false → write_armed s →
  socks w' = <[p := to_closing s st]> (socks w) → transports w' = transports w →
  (∀ q, q ∈ local_socket_list w' ↔ q ≠ p ∧ q ∈ local_socket_list w) →
  (∀ q, q ∈ local_socket_closing_list w' ↔ q = p ∨ q ∈ local_socket_closing_list w) →
  device_tracker_list w' = device_tracker_list w → NoDup (local_socket_list w') →
  next_ptr w' = next_ptr w → local_socket_next_id w' = local_socket_next_id w →
  wfx X w'.
Proof.
  intros Hw Hs Hl Hp Hst Hcl (st' & Hst' & Harm) Es Et El Ec Ek Hnd En Ei.
  assert (∀ q sq, socks w' !! q = Some sq → (q = p ∧ sq = to_closing s st) ∨ (q ≠ p ∧ socks w !! q = Some sq)) as Hl1.
  { intros q sq. rewrite Es, lookup_insert_Some. naive_solver. }
  assert (∀ q, q ≠ p → socks w' !! q = socks w !! q) as Hl2.
  { intros q ?. by rewrite Es, lookup_insert_ne. }
  assert (socks w' !! p = Some (to_closing s st)) as Hl3 by (rewrite Es; apply lookup_insert_eq).
  assert (kind_ok (to_closing s st)) as Hk.
  { pose proof (wf_kind _ _ Hw p s Hs) as [He Hk]. split; [done|]. cbn.
    destruct Hl as [E|E]; rewrite E in *; destruct Hk as (? & ? & ? & ? & _); split_and!; try done;
      (eexists; split; [done|]); cbn; intros; rewrite del_read_write; simplify_eq; auto. }
  split.
  - intros q sq [[-> ->]|[? Hq]]%Hl1; [done|by eapply wf_kind].
  - intros q sq t [[-> ->]|[? Hq]]%Hl1; rewrite Et; [by intros []|by eapply wf_transport].
  - intros t tr. rewrite Et. apply Hw.
  - intros q sq r HX [[-> ->]|[? Hq]]%Hl1 Hr; [cbn in Hr; congruence|].
    destruct (wf_peer _ _ Hw q sq r HX Hq Hr) as (? & sr & Hsr & Hpr). split; [done|].
    exists sr. rewrite Hl2; [done|]. intros ->. congruence.
  - intros q sq HX [[-> ->]|[? Hq]]%Hl1 Hn; [by destruct Hn|].
    destruct (wf_nonlocal_peer _ _ Hw q sq HX Hq Hn) as (r & sr & ? & Hsr & ?).
    destruct (decide (r = p)) as [-> |]; [by exists p, (to_closing s st)|]. exists r, sr. by rewrite Hl2.
  - intros q sq [[-> ->]|[? Hq]]%Hl1; [done|by eapply wf_closing].
  - intros q. rewrite El, (wf_list _ _ Hw q). destruct (decide (q = p)) as [->|Hne].
    + rewrite Hl3. split; [naive_solver|]. by intros (? & [= <-] & _ & ?).
    + rewrite (Hl2 q Hne). naive_solver.
  - intros q. rewrite Ec, (wf_closing_list _ _ Hw q). destruct (decide (q = p)) as [->|Hne].
    + rewrite Hl3. split; [|by left]. intros _. by eexists.
    + rewrite (Hl2 q Hne). naive_solver.
  - intros q. rewrite Ek, (wf_trackers _ _ Hw q). destruct (decide (q = p)) as [->|Hne].
    + rewrite Hl3, Hs. split; intros (? & [= <-] & Hk'); by eexists.
    + by rewrite (Hl2 q Hne).
  - done.
  - intros q sq [[-> ->]|[? Hq]]%Hl1; rewrite Ei; [exact (wf_id _ _ Hw p s Hs)|by eapply wf_id].
  - intros q r sq sr [[-> ->]|[? Hq]]%Hl1 [[-> ->]|[? Hr]]%Hl1; [done|..].
    + exact (wf_id_inj _ _ Hw p r s sr Hs Hr).
    + exact (wf_id_inj _ _ Hw q p sq s Hq Hs).
    + by eapply wf_id_inj.
  - rewrite Ei. apply Hw.
  - intros q sq [[-> ->]|[? Hq]]%Hl1; rewrite En; [exact (wf_fresh _ _ Hw p s Hs)|by eapply wf_fresh].
Qed.

(** What is left of a closed socket: nothing, or a socket on the closing list. *)
Definition retired (p : ptr) (w : world) : Prop :=
  ∀ s, socks w !! p = Some s → peer s = None ∧ is_local s.

Lemma wp_local_socket_retire F X w p s :
  wfx X w → socks w !! p = Some s → is_local s → peer s = None →
  wp F (local_socket_retire p) (λ _ w', wfx X w' ∧ closed p w w' ∧ retired p w') w.
Proof.
  intros Hw Hs Hl Hp. unfold local_socket_retire. do 2 wstep.
  destruct (closing s || has_write_error s || empty (packet_queue s)) eqn:Ec.
  { eapply wp_mono; [by eapply wp_local_socket_destroy|]. intros _ w' (? & ? & E). split_and!; try done.
    intros s'. congruence. }
  apply orb_false_iff in Ec as [[Hcl Hwe]%orb_false_iff Hem].
  destruct (local_kind s Hl) as (_ & _ & _ & _ & _ & Harm); [by eapply wf_kind|].
  pose proof Harm as (st & Hst & Hw2).
  do 2 wstep. wstep. unfold fdevent_del. wstep. eapply wp_sget; [apply lookup_insert_eq|].
  wstep. wcbn. eapply wp_lift; [by rewrite Hst|]. eapply wp_supd; [apply lookup_insert_eq|].
  wstep. unfold remove_socket. wstep. wstep. wstep. wcbn. rewrite insert_insert_eq.
  wstep. eapply wp_sget; [apply lookup_insert_eq|]. wstep. wcbn.
  eapply wp_lift; [reflexivity|]. eapply wp_lift.
  { rewrite del_read_write, Hw2 by done. reflexivity. }
  split_and!.
  - eapply (wfx_to_closing X w _ p s st); wcbn; try done.
    + intros q. apply elem_of_filter_ne.
    + intros q. rewrite elem_of_app, elem_of_filter_ne, list_elem_of_singleton.
      destruct (decide (q = p)); naive_solver.
    + apply NoDup_filter, Hw.
  - split; wcbn; try done.
    + intros q ?. by rewrite lookup_insert_ne.
    + split; [|intros q; rewrite elem_of_filter_ne; naive_solver]. rewrite elem_of_filter_ne. naive_solver.
  - intros s'. wcbn. rewrite lookup_insert_eq. intros [= <-]. wcbn. split; [done|].
    exact Hl.
Qed.

Lemma closed_sent p w w1 w2 : sent w w1 → closed p w1 w2 → closed p w w2.
Proof.
  intros Hw [Hs Ht Hc Hn Hf]. pose proof (sent_frame _ _ Hw). destruct Hw as (c & l & T & -> & HT).
  split; try done; [|by etrans]. intros t. etrans; [apply HT|apply Ht].
Qed.

(** Freeing a socket that is on no socket list. *)
Lemma free_other X w p s trackers :
  wfx X w → socks w !! p = Some s → unpointed X w p → ¬ is_local s →
  (∀ q, q ∈ trackers ↔ q ≠ p ∧ q ∈ device_tracker_list w) →
  let w' := set_socks (delete p (socks w)) (set_trackers trackers w) in
  wfx X w' ∧ closed p w w' ∧ retired p w'.
Proof.
  intros Hw Hs Hp Hl Ht w'.
  assert (p ∉ local_socket_list w) as H1' by (rewrite (wf_list _ _ Hw p); naive_solver).
  assert (p ∉ local_socket_closing_list w) as H2' by (rewrite (wf_closing_list _ _ Hw p); naive_solver).
  split_and!.
  - eapply (wfx_delete X w w' p); try done; try (unfold w'; wcbn; set_solver). apply Hw.
  - split; unfold w'; wcbn; try done; [|split; wcbn; try done; set_solver].
    intros q ?. by rewrite lookup_delete_ne.
  - intros s'. unfold w'. wcbn. by rewrite lookup_delete_eq.
Qed.

Lemma set_trackers_id w : set_trackers (device_tracker_list w) w = w.
Proof. by destruct w. Qed.

Lemma untracked X w p s q :
  wfx X w → socks w !! p = Some s → ¬ is_tracker s → q ∈ device_tracker_list w ↔ q ≠ p ∧ q ∈ device_tracker_list w.
Proof.
  intros Hw Hs Ht. split; [|naive_solver]. intros Hq. split; [|done]. intros ->.
  apply (wf_trackers _ _ Hw p) in Hq as (? & ? & ?). simplify_eq. done.
Qed.

(** A local socket that is made ordinary again ([local_socket_ready_notify] and
    [local_socket_close_notify]). *)
Lemma wfx_set_fns X w p s :
  wfx X w → socks w !! p = Some s → is_local s →
  wfx X (set_socks (<[p := set_fns local_socket_ready_fn None local_socket_close_fn s]> (socks w)) w).
Proof.
  intros Hw Hs Hl. eapply wfx_update; try done.
  - destruct (local_kind s Hl) as (? & ? & _ & _ & ? & ?); [by eapply wf_kind|].
    split; [done|]. split_and!; try done. by left.
  - split; [done|]. intros _. by left.
  - split; [by intros Ht|]. intros Ht. by destruct (local_not_tracker s Hl).
Qed.

(** Closing a socket without peer takes two calls at most. *)
Lemma wp_close_peerless F X w p s fuel :
  wfx X w → socks w !! p = Some s → peer s = None → (2 ≤ fuel)%nat →
  wp F (call_close fuel p) (λ _ w', wfx X w' ∧ closed p w w' ∧ retired p w') w.
Proof.
  intros Hw Hs Hp Hf. destruct fuel as [|[|fuel]]; [lia..|].
  remember (S fuel) as n. cbn [call_close]. do 2 wstep.
  destruct (close s) eqn:Ek.
  - unfold local_socket_close. do 3 wstep. rewrite Hp. wstep.
    eapply wp_local_socket_retire; try done. by left.
  - assert (is_local s) as Hl by by right.
    unfold local_socket_close_notify. do 2 wstep. wstep. eapply wp_sget; [apply lookup_insert_eq|].
    wstep. apply wp_SendFail. intros b w1 Hw1. wcbn.
    set (s1 := set_fns local_socket_ready_fn None local_socket_close_fn s) in *.
    pose proof (wfx_set_fns X w p s Hw Hs Hl) as Hu.
    pose proof (wfx_sent _ _ _ Hu Hw1) as Hw1'.
    assert (socks w1 !! p = Some s1) as Hs1.
    { destruct Hw1 as (? & ? & ? & -> & _). wcbn. apply lookup_insert_eq. }
    subst n. cbn [call_close]. wstep. eapply wp_sget; [exact Hs1|]. unfold s1 at 1. wcbn.
    unfold local_socket_close. wstep. wstep. wstep. cbn [s1]. unfold s1 at 1. wcbn. rewrite Hp. wstep.
    eapply wp_mono; [eapply wp_local_socket_retire; try done; by left|].
    intros _ w2 (? & Hc & ?). split_and!; try done.
    eapply closed_sent in Hc; [|exact Hw1]. destruct Hc as [Hc1 Hc2 Hc3 Hc4 Hc5]. split; try done; [|by eapply frame_socks].
    intros q ?. rewrite Hc1 by done. wcbn. by rewrite lookup_insert_ne.
  - unfold remote_socket_close. do 3 wstep. rewrite Hp. wstep. wstep.
    rewrite <- (set_trackers_id w) at 2. eapply free_other; [done|done|by eapply peerless_unpointed| |].
    + unfold is_local. rewrite Ek. naive_solver.
    + intros q. eapply untracked; [done..|]. unfold is_tracker. congruence.
  - unfold smart_socket_close. do 3 wstep. rewrite Hp. wstep. wstep.
    rewrite <- (set_trackers_id w) at 2. eapply free_other; [done|done|by eapply peerless_unpointed| |].
    + unfold is_local. rewrite Ek. naive_solver.
    + intros q. eapply untracked; [done..|]. unfold is_tracker. congruence.
  - unfold device_tracker_close, device_tracker_remove. do 3 wstep. rewrite Hp. wstep. wstep. wstep.
    eapply wp_sfree; [done|]. apply (free_other X w p s (filter (λ x, x ≠ p) (device_tracker_list w)));
      [done|done|by eapply peerless_unpointed| |].
    + unfold is_local. rewrite Ek. naive_solver.
    + intros q. apply elem_of_filter_ne.
Qed.

(** ** Closing any socket *)

Lemma wfx_drop_peer X w p s :
  wfx X w → p ∈ X → socks w !! p = Some s → unpointed X w p →
  wfx X (set_socks (<[p := set_peer None s]> (socks w)) w).
Proof.
  intros Hw HpX Hs Hun.
  assert (∀ r sr, <[p := set_peer None s]> (socks w) !! r = Some sr →
    (r = p ∧ sr = set_peer None s) ∨ (r ≠ p ∧ socks w !! r = Some sr)) as Hl.
  { intros r sr. rewrite lookup_insert_Some. naive_solver. }
  assert (∀ P : asocket → Prop, (P (set_peer None s) ↔ P s) →
    ∀ r, (∃ sr, <[p := set_peer None s]> (socks w) !! r = Some sr ∧ P sr) ↔ (∃ sr, socks w !! r = Some sr ∧ P sr)) as HP.
  { intros P HPq r. destruct (decide (r = p)) as [->|Hrq].
    - rewrite lookup_insert_eq. naive_solver.
    - by setoid_rewrite lookup_insert_ne. }
  split; wcbn; try apply Hw.
  - intros r sr [[-> ->]|[? Hr']]%Hl; [exact (wf_kind _ _ Hw p s Hs)|by eapply wf_kind].
  - intros r sr t [[-> ->]|[? Hr']]%Hl; [exact (wf_transport _ _ Hw p s t Hs)|by eapply wf_transport].
  - intros r sr r' HX [[-> ->]|[? Hr']]%Hl Hpr; [done|].
    destruct (wf_peer _ _ Hw r sr r') as (? & sr' & Hsr' & Hpr'); [done..|].
    split; [done|]. exists sr'. rewrite lookup_insert_ne; [done|]. intros ->. by eapply Hun.
  - intros r sr HX [[-> ->]|[? Hr']]%Hl Hn; [done|].
    destruct (wf_nonlocal_peer _ _ Hw r sr HX Hr' Hn) as (r' & sr' & ? & ? & ?).
    destruct (proj2 (HP is_local (iff_refl _) r')) as (sr'' & ? & ?); [by exists sr'|]. by exists r', sr''.
  - intros r sr [[-> ->]|[? Hr']]%Hl; [done|]. by eapply wf_closing.
  - intros r. rewrite (HP (λ sr, is_local sr ∧ closing sr = false)) by done. apply Hw.
  - intros r. rewrite (HP (λ sr, is_local sr ∧ closing sr = true)) by done. apply Hw.
  - intros r. rewrite (HP (λ sr, close sr = device_tracker_close_fn)) by done. apply Hw.
  - intros r sr [[-> ->]|[? Hr']]%Hl; [exact (wf_id _ _ Hw p s Hs)|by eapply wf_id].
  - intros r r' sr sr' [[-> ->]|[? Hr1]]%Hl [[-> ->]|[? Hr2]]%Hl; [done|..].
    + exact (wf_id_inj _ _ Hw p r' s sr' Hs Hr2).
    + exact (wf_id_inj _ _ Hw r p sr s Hr1 Hs).
    + by eapply wf_id_inj.
  - intros r sr [[-> ->]|[? Hr']]%Hl; [exact (wf_fresh _ _ Hw p s Hs)|by eapply wf_fresh].
Qed.

(** [s->peer->peer = nullptr; s->peer->close(s->peer)]. *)
Lemma wp_detach F X w p s q fuel :
  wfx X w → p ∉ X → socks w !! p = Some s → peer s = Some q → (2 ≤ fuel)%nat →
  wp F (supd q (set_peer None) ;; call_close fuel q)
    (λ _ w', wfx (X ∪ {[p; q]}) w' ∧ p ≠ q ∧ socks w' !! p = Some s ∧ closed q w w' ∧ retired q w') w.
Proof.
  intros Hw HpX Hs Hp Hf. destruct (wf_peer _ _ Hw p s q HpX Hs Hp) as (Hne & sq & Hq & Hqp).
  wstep. eapply wp_supd; [exact Hq|].
  pose proof (wfx_unpeer X w p s q sq Hw Hs Hp Hq Hqp) as Hu.
  eapply wp_mono; [eapply wp_close_peerless; [exact Hu|apply lookup_insert_eq|done|done]|].
  intros _ w' (? & [Hc1 Hc2 Hc3 Hc4 Hc5] & ?). wcbn. split_and!; try done.
  - rewrite Hc1 by done. by rewrite lookup_insert_ne.
  - split; try done; [|by eapply frame_socks]. intros r ?. rewrite Hc1 by done. by rewrite lookup_insert_ne.
Qed.

Lemma shutdown_transport s f : kind_ok s → shutdown s = Some f → is_Some (transport s).
Proof. intros [_ Hk] Hs. destruct (close s); naive_solver. Qed.

Lemma wp_remote_socket_shutdown F X w q sq p s f (Q : unit → world → Prop) :
  wfx X w → socks w !! q = Some sq → shutdown sq = Some f → peer sq = Some p → socks w !! p = Some s →
  (∀ w', sent w w' → Q () w') → wp F (remote_socket_shutdown q) Q w.
Proof.
  intros Hw Hq Hsh Hp Hs HQ. destruct (shutdown_transport sq f) as [t Ht]; [by eapply wf_kind|done|].
  unfold remote_socket_shutdown. do 2 wstep. rewrite Hp. do 5 wstep.
  eapply wp_lift; [by rewrite Ht|]. eapply wp_send_packet; [exact (wf_conn _ _ Hw)| |apply packet_ok_bare|done].
  exact (peered_transport _ _ _ _ _ _ Hw Hq Hp Ht).
Qed.

(** What closing [p], whose peer was [o], leaves alone. *)
Record closed_pair (p : ptr) (o : option ptr) (w w' : world) : Prop := {
  cp_socks q : q ≠ p → Some q ≠ o → socks w' !! q = socks w !! q;
  cp_transports t : option_Forall2 tr_like (transports w !! t) (transports w' !! t);
  cp_local : p ∉ local_socket_list w' ∧ local_socket_list w' ⊆ local_socket_list w;
  cp_next : next_ptr w' = next_ptr w ∧ local_socket_next_id w' = local_socket_next_id w;
  cp_retired : retired p w';
  cp_frame : frame w w'
}.

Lemma closed_pair_intro p q w w1 w2 :
  p ≠ q → closed q w w1 → closed p w1 w2 → retired p w2 → closed_pair p (Some q) w w2.
Proof.
  intros Hne [Hs1 Ht1 Hl1 Hn1 Hf1] [Hs2 Ht2 Hl2 Hn2 Hf2] Hr. split; try done.
  - intros r ? Hrq. rewrite Hs2 by done. apply Hs1. congruence.
  - intros t. etrans; [apply Ht1|apply Ht2].
  - destruct Hl1, Hl2. split; [done|]. set_solver.
  - destruct Hn1, Hn2. split; congruence.
  - by etrans.
Qed.

Lemma retired_pair_shrink X w p q : wfx (X ∪ {[p; q]}) w → retired p w → retired q w → wfx X w.
Proof. intros Hw Hp Hq. eapply wfx_shrink; [exact Hw|]. intros r s Hr HX Hs.
  rewrite elem_of_union, elem_of_union, !elem_of_singleton in Hr. destruct Hr as [?|[-> | ->]]; auto. done.
Qed.

(** The first half of [local_socket_close]. *)
Lemma wp_local_close_peer F X w p s q fuel (Q : unit → world → Prop) :
  wfx X w → p ∉ X → socks w !! p = Some s → peer s = Some q → (2 ≤ fuel)%nat →
  (∀ w', wfx (X ∪ {[p; q]}) w' → p ≠ q → socks w' !! p = Some (set_peer None s) → closed q w (set_socks (<[p := s]> (socks w')) w') →
     retired q w' → Q () w') →
  wp F (sq ← sget q;
        match shutdown sq with Some remote_socket_shutdown_fn => remote_socket_shutdown q | None => mret () end ;;
        supd q (set_peer None) ;; call_close fuel q ;; supd p (set_peer None)) Q w.
Proof.
  intros Hw HpX Hs Hp Hf HQ. destruct (wf_peer _ _ Hw p s q HpX Hs Hp) as (Hne & sq & Hq & Hqp).
  do 2 wstep. wstep.
  assert (∀ w1, sent w w1 → wp F (supd q (set_peer None) ;; call_close fuel q ;; supd p (set_peer None)) Q w1) as Hrest.
  { intros w1 Hw1. pose proof (wfx_sent _ _ _ Hw Hw1) as Hwf1.
    assert (socks w1 = socks w) as Es by by destruct Hw1 as (? & ? & ? & -> & _).
    pose proof (wp_detach F X w1 p s q fuel Hwf1 HpX ltac:(by rewrite Es) Hp Hf) as D0.
    apply wp_bind_inv in D0. wstep. eapply wp_mono; [exact D0|]. clear D0. intros [] w2 D. wstep. eapply wp_mono; [exact D|]. clear D. intros [] w3 (Hw3 & _ & Hs3 & Hc3 & Hr3).
    wstep. apply HQ; wcbn.
    - eapply wfx_drop_peer; [done|set_solver|done|]. eapply peered_unpointed; [done..|set_solver].
    - done.
    - apply lookup_insert_eq.
    - rewrite insert_insert_eq, insert_id by done. eapply closed_sent; [exact Hw1|]. by destruct w3.
    - intros s'. wcbn. rewrite lookup_insert_ne by done. apply Hr3. }
  destruct (shutdown sq) as [[]|] eqn:Hsh; [|by apply Hrest, sent_refl].
  eapply wp_remote_socket_shutdown; try done.
Qed.

Lemma closed_pair_peerless p w w' : closed p w w' → retired p w' → closed_pair p None w w'.
Proof. intros [? ? ? ? ?] ?. split; auto. Qed.

Lemma wp_local_socket_close F X w p s fuel :
  wfx X w → p ∉ X → socks w !! p = Some s → is_local s → (2 ≤ fuel)%nat →
  wp F (local_socket_close (call_close fuel) p) (λ _ w', wfx X w' ∧ closed_pair p (peer s) w w') w.
Proof.
  intros Hw HpX Hs Hl Hf. unfold local_socket_close. do 3 wstep. destruct (peer s) as [q|] eqn:Hp.
  - eapply wp_local_close_peer; try done. intros w1 Hw1 Hne Hs1 Hc1 Hr1.
    eapply wp_mono; [by eapply wp_local_socket_retire|]. intros _ w2 (Hw2 & Hc2 & Hr2). split.
    + eapply retired_pair_shrink; [exact Hw2|done|]. intros s'. rewrite (closed_socks _ _ _ Hc2) by done. apply Hr1.
    + eapply closed_pair_intro; [exact Hne|exact Hc1| |done].
      destruct Hc2 as [Hc Ht Hlo Hn Hfr]. split; wcbn; try done; [|destruct Hfr; by split].
      intros r ?. rewrite Hc by done. by rewrite lookup_insert_ne.
  - wstep. eapply wp_mono; [by eapply wp_local_socket_retire|]. intros _ w2 (Hw2 & Hc2 & Hr2).
    split; [done|]. by apply closed_pair_peerless.
Qed.

Lemma closed_pair_pre p o w w1 w2 :
  (∀ q, q ≠ p → socks w1 !! q = socks w !! q) → (∀ t, option_Forall2 tr_like (transports w !! t) (transports w1 !! t)) →
  local_socket_list w1 = local_socket_list w → next_ptr w1 = next_ptr w →
  local_socket_next_id w1 = local_socket_next_id w → frame w w1 →
  closed_pair p o w1 w2 → closed_pair p o w w2.
Proof.
  intros Hs Ht Hl Hn Hi Hf [Hs2 Ht2 Hl2 Hn2 Hr2 Hf2]. split; try done; [..|by etrans].
  - intros q ? ?. by rewrite Hs2, Hs.
  - intros t. etrans; [apply Ht|apply Ht2].
  - by rewrite <- Hl.
  - by rewrite <- Hn, <- Hi.
Qed.

(** The end of the other close functions, once the peer is closed. *)
Lemma detached_free X w w1 p s q trackers :
  wfx (X ∪ {[p; q]}) w1 → p ≠ q → socks w1 !! p = Some s → peer s = Some q → ¬ is_local s →
  (∀ r, r ∈ trackers ↔ r ≠ p ∧ r ∈ device_tracker_list w1) → closed q w w1 → retired q w1 →
  let w2 := set_socks (delete p (socks w1)) (set_trackers trackers w1) in
  wfx X w2 ∧ closed_pair p (Some q) w w2.
Proof.
  intros Hw1 Hne Hs1 Hp Hl Ht Hc Hr w2.
  destruct (free_other (X ∪ {[p; q]}) w1 p s trackers) as (Hw2 & Hc2 & Hr2); [done|done| |done..|].
  { eapply peered_unpointed; [done..|set_solver]. }
  split.
  - eapply retired_pair_shrink; [exact Hw2|done|]. intros s'. rewrite (closed_socks _ _ _ Hc2) by done. apply Hr.
  - by eapply closed_pair_intro.
Qed.

Lemma wp_local_socket_close_notify F X w p s fuel :
  wfx X w → p ∉ X → socks w !! p = Some s → is_local s → (3 ≤ fuel)%nat →
  wp F (local_socket_close_notify (call_close fuel) p) (λ _ w', wfx X w' ∧ closed_pair p (peer s) w w') w.
Proof.
  intros Hw HpX Hs Hl Hf. pose proof (wfx_set_fns X w p s Hw Hs Hl) as Hu.
  unfold local_socket_close_notify. do 2 wstep. wstep. eapply wp_sget; [apply lookup_insert_eq|].
  wstep. apply wp_SendFail. intros b w1 Hw1. wcbn. set (s1 := set_fns _ _ _ s) in *.
  assert (socks w1 !! p = Some s1) as Hs1.
  { destruct Hw1 as (? & ? & ? & -> & _). wcbn. apply lookup_insert_eq. }
  destruct fuel as [|fuel]; [lia|]. cbn [call_close]. wstep. eapply wp_sget; [exact Hs1|].
  change (close s1) with local_socket_close_fn. cbv iota.
  eapply wp_mono; [eapply (wp_local_socket_close F X w1 p s1); [|done|done|by left|lia]|].
  { by eapply wfx_sent. }
  change (peer s1) with (peer s). intros _ w2 [? Hc]. split; [done|].
  destruct Hw1 as (c & l & T & -> & HT). eapply closed_pair_pre; [| | | | | |exact Hc]; try done.
  intros r ?. wcbn. by rewrite lookup_insert_ne.
Qed.

(** Closing any socket: it returns, keeps the invariant, and touches the socket and its
    peer only. *)
Lemma wp_call_close F X w p s fuel :
  wfx X w → p ∉ X → socks w !! p = Some s → (4 ≤ fuel)%nat →
  wp F (call_close fuel p) (λ _ w', wfx X w' ∧ closed_pair p (peer s) w w') w.
Proof.
  intros Hw HpX Hs Hf. destruct (peer s) as [q|] eqn:Hp.
  2:{ eapply wp_mono; [eapply wp_close_peerless; try done; lia|]. intros _ w' (? & ? & ?).
      split; [done|]. by apply closed_pair_peerless. }
  destruct fuel as [|fuel]; [lia|]. cbn [call_close]. do 2 wstep.
  pose proof (wp_detach F X w p s q fuel Hw HpX Hs Hp ltac:(lia)) as D.
  destruct (close s) eqn:Ek.
  - rewrite <- Hp. eapply wp_local_socket_close; try done; [by left|lia].
  - rewrite <- Hp. eapply wp_local_socket_close_notify; try done; [by right|lia].
  - unfold remote_socket_close. do 3 wstep. rewrite Hp. eapply wp_mono; [exact D|].
    intros [] w1 (Hw1 & Hne & Hs1 & Hc1 & Hr1). wstep. rewrite <- (set_trackers_id w1) at 2.
    eapply detached_free; try done; [|intros r; eapply untracked; [done..|]];
      unfold is_local, is_tracker; rewrite Ek; naive_solver.
  - unfold smart_socket_close. do 3 wstep. rewrite Hp. apply wp_bind_inv in D. wstep.
    eapply wp_mono; [exact D|]. clear D. intros [] w0 D. wstep. eapply wp_mono; [exact D|].
    intros [] w1 (Hw1 & Hne & Hs1 & Hc1 & Hr1). wstep. eapply wp_sfree; [apply lookup_insert_eq|]. wcbn.
    rewrite delete_insert_eq. rewrite <- (set_trackers_id w1) at 2.
    eapply detached_free; try done; [|intros r; eapply untracked; [done..|]];
      unfold is_local, is_tracker; rewrite Ek; naive_solver.
  - unfold device_tracker_close, device_tracker_remove. do 3 wstep. rewrite Hp. eapply wp_mono; [exact D|].
    intros [] w1 (Hw1 & Hne & Hs1 & Hc1 & Hr1). do 2 wstep. eapply wp_sfree; [done|].
    apply (detached_free X w w1 p s q (filter (λ x, x ≠ p) (device_tracker_list w1))); try done.
    + unfold is_local. rewrite Ek. naive_solver.
    + intros r. apply elem_of_filter_ne.
Qed.

(** ** Closing the sockets of a transport *)

(** A socket belongs to a transport itself or by its peer. *)
Definition belongs (w : world) (s : asocket) (t : ptr) : Prop :=
  transport s = Some t ∨ ∃ q sq, peer s = Some q ∧ socks w !! q = Some sq ∧ transport sq = Some t.

Lemma wp_find_transport_socket F X w t (Q : option ptr → world → Prop) l :
  wfx X w → (∀ p, p ∈ l → p ∉ X ∧ is_Some (socks w !! p)) →
  (∀ r, match r with
        | Some p => p ∈ l
        | None => ∀ p s, p ∈ l → socks w !! p = Some s → ¬ belongs w s t
        end → Q r w) →
  wp F (find_transport_socket l t) Q w.
Proof.
  intros Hw. revert Q. induction l as [|p l IH]; intros Q Hl HQ; cbn [find_transport_socket].
  { wstep. apply HQ. intros p s Hp. by apply elem_of_nil in Hp. }
  destruct (Hl p) as [HpX [s Hs]]; [set_solver|]. do 2 wstep. case_bool_decide as Ht.
  { wstep. apply HQ. set_solver. }
  assert (¬ belongs w s t → wp F (find_transport_socket l t) Q w) as Hrest.
  { intros Hb. apply IH; [set_solver|]. intros r Hr. apply HQ. destruct r as [p'|]; [set_solver|].
    intros p' s' [-> |Hp']%elem_of_cons Hs'; [by simplify_eq|]. by eapply Hr. }
  destruct (peer s) as [q|] eqn:Hp.
  - destruct (wf_peer _ _ Hw p s q HpX Hs Hp) as (_ & sq & Hq & _). do 2 wstep. case_bool_decide as Htq.
    + wstep. apply HQ. set_solver.
    + apply Hrest. intros [?|(q' & sq' & ? & ? & ?)]; simplify_eq.
  - apply Hrest. intros [?|(q' & sq' & ? & ? & ?)]; simplify_eq.
Qed.

Lemma wf_listed w p : wf w → p ∈ local_socket_list w → p ∉ (∅ : gset ptr) ∧ is_Some (socks w !! p).
Proof. intros Hw (s & Hs & _)%(wf_list _ _ Hw p). by rewrite Hs. Qed.

Lemma wp_close_all_loop F w t fuel :
  wf w → (length (local_socket_list w) < fuel)%nat →
  wp F (close_all_loop fuel t)
    (λ _ w', wf w' ∧ (∀ u, option_Forall2 tr_like (transports w !! u) (transports w' !! u)) ∧
       next_ptr w' = next_ptr w ∧ frame w w' ∧
       ∀ p s, p ∈ local_socket_list w' → socks w' !! p = Some s → ¬ belongs w' s t) w.
Proof.
  revert w. induction fuel as [|fuel IH]; intros w Hw Hf; [lia|]. cbn [close_all_loop]. do 3 wstep.
  eapply wp_find_transport_socket; [done|intros p; by apply wf_listed|]. intros [p|] Hr.
  - destruct (wf_listed w p Hw Hr) as [_ [s Hs]]. wstep.
    eapply wp_mono; [eapply wp_call_close; [done|set_solver|done|unfold close_fuel; lia]|].
    intros [] w1 [Hw1 [_ Ht1 [Hp1 Hsub] [Hn1 _] _ Hf1]].
    eapply wp_mono; [apply IH; [done|]|].
    + assert (length (p :: local_socket_list w1) ≤ length (local_socket_list w))%nat; [|cbn in *; lia].
      apply submseteq_length, NoDup_submseteq.
      * apply NoDup_cons. split; [done|apply Hw1].
      * intros q [-> | ?]%elem_of_cons; [done|by apply Hsub].
    + intros [] w2 (? & Ht2 & Hn2 & Hf2 & ?). split_and!; try done; [|congruence|by etrans].
      intros u. etrans; [apply Ht1|apply Ht2].
  - wstep. by split_and!.
Qed.

(** ** Writing to the descriptor *)

(** What an operation on [p] leaves alone when it does not close anything. *)
Record touched (p : ptr) (w w' : world) : Prop := {
  touched_socks q : q ≠ p → socks w' !! q = socks w !! q;
  touched_transports t : option_Forall2 tr_like (transports w !! t) (transports w' !! t);
  touched_lists : local_socket_list w' = local_socket_list w;
  touched_next : next_ptr w' = next_ptr w ∧ local_socket_next_id w' = local_socket_next_id w;
  touched_frame : frame w w'
}.

Lemma size_empty v : front_wf v → empty v = bool_decide (view v = []).
Proof.
  intros [Hv _]. unfold empty. rewrite (size_view v Hv). case_bool_decide as E; [by rewrite E|].
  apply Z.eqb_neq. intros E0. by apply llen_0 in E0.
Qed.

(** What one [adb_writev] of [data] at time [n] takes, and whether it fails; nothing is
    offered to the system when there is no data. *)
Definition writev_taken (n : nat) (fd : Z) (data : bytes) : Z :=
  if bool_decide (data = []) then 0
  else match os_writev n fd data with Written rc => rc | _ => 0 end.
Definition writev_failed (n : nat) (fd : Z) (data : bytes) : bool :=
  if bool_decide (data = []) then false
  else match os_writev n fd data with Written rc => rc <=? 0 | WriteEAGAIN => false | WriteErrno => true end.

Lemma writev_taken_bounds n fd data : 0 ≤ writev_taken n fd data ≤ llen data.
Proof.
  pose proof (llen_nonneg data). unfold writev_taken. case_bool_decide; [lia|].
  destruct (os_writev n fd data) eqn:E; try lia. apply os_writev_le in E. lia.
Qed.

(** [flush_queue] drops from the queue what the system took, and notes a failure. *)
Lemma wp_flush_queue F w p s (Q : Z → world → Prop) :
  socks w !! p = Some s → front_wf (packet_queue s) →
  let out := view (packet_queue s) in
  let n := writev_taken (clock w) (fd s) out in
  let e := has_write_error s || writev_failed (clock w) (fd s) out in
  (∀ q c l, front_wf q → view q = ldrop n out → chain_length_ q ≤ chain_length_ (packet_queue s) →
     Q n (set_log c l (set_socks (<[p := set_write_error e (set_queue q s)]> (socks w)) w))) →
  wp F (flush_queue p) Q w.
Proof.
  intros Hs Hq out n e HQ.
  assert (∀ e' c l, n = 0 → e' = e → Q 0 (set_log c l (set_socks (<[p := set_write_error e' s]> (socks w)) w))) as HQ0.
  { intros e' c l Hn ->. replace (set_write_error e s) with (set_write_error e (set_queue (packet_queue s) s)) by by destruct s.
    rewrite <- Hn at 1. apply HQ; try done. by rewrite Hn. }
  assert (set_write_error (has_write_error s) s = s) as Hid by by destruct s.
  assert (∀ c l, set_log c l (set_socks (<[p := set_write_error (has_write_error s) s]> (socks w)) w) = set_log c l w) as Hid'.
  { intros c l. rewrite Hid, insert_id by done. by destruct w. }
  unfold flush_queue. do 2 wstep. rewrite size_empty by done. unfold n, e, writev_taken, writev_failed in HQ, HQ0.
  fold out. case_bool_decide as E.
  { wstep. replace w with (set_log (clock w) (trace w) w) by by destruct w. rewrite <- Hid'. apply HQ0; [done|by rewrite orb_false_r]. }
  destruct (iovecs_spec (packet_queue s)) as (ss & Ei & Ec); [apply Hq|]. wstep.
  eapply wp_lift; [exact Ei|]. wstep. wstep. rewrite Ec. fold out.
  destruct (os_writev _ _ _) as [| |rc] eqn:Ew.
  - wstep. rewrite <- Hid'. apply HQ0; [done|by rewrite orb_false_r].
  - wstep. eapply wp_supd; [done|]. wstep. wcbn. apply (HQ0 true); [done|by rewrite orb_true_r].
  - apply os_writev_le in Ew as [Hrc Hrc2]. destruct (Z.ltb_spec 0 rc).
    + wstep. rewrite (size_view (packet_queue s)) by apply Hq.
      assert (∀ v, front_wf v ∧ view v = ldrop rc out ∧ chain_length_ v ≤ chain_length_ (packet_queue s) →
        wp F (supd p (set_queue v) ;; mret (u32 rc)) Q
          (set_log (S (clock w)) (trace w ++ [EvWritev (fd s) out]) w)) as Hv.
      { intros v (Hv1 & Hv2 & Hv3). wstep. eapply wp_supd; [done|]. wstep. wcbn. rewrite u32_small by lia.
        replace (set_queue v s) with (set_write_error (has_write_error s || (rc <=? 0)) (set_queue v s))
          by (rewrite (proj2 (Z.leb_gt rc 0)), orb_false_r by lia; by destruct s).
        by apply HQ. }
      fold out. destruct (Z.eqb_spec rc (llen out)).
      * wstep. apply Hv. rewrite llen_ldrop_ge by lia. split; [split; [apply iov_wf_empty|done]|].
        split; [done|]. cbn. destruct Hq as [[_ (_ & _ & -> & _)] _]. apply llen_nonneg.
      * destruct (drop_front_spec (packet_queue s) rc) as (v' & Ed & ? & ? & ?); [done|unfold out in *; lia|unfold out in *; lia|].
        eapply wp_lift; [exact Ed|]. by apply Hv.
    + assert (rc = 0) as -> by lia. wstep. eapply wp_supd; [done|]. wstep. wcbn. apply (HQ0 true); [done|by rewrite orb_true_r].
Qed.

Lemma wp_flush_ack F w p s n (Q : unit → world → Prop) :
  socks w !! p = Some s → connected w →
  (∀ t q, transport s = Some t → peer s = Some q → is_Some (transports w !! t)) →
  (∀ q, peer s = Some q → is_Some (socks w !! q)) →
  (∀ w', sent w w' → Q () w') → wp F (flush_ack p n) Q w.
Proof.
  intros Hs Hc Ht Hp HQ. unfold flush_ack. do 2 wstep.
  destruct (transport s) as [t|]; [|wstep; by apply HQ].
  destruct (peer s) as [q|]; [|wstep; by apply HQ].
  destruct (Hp q) as [sq Hq]; [done|]. do 2 wstep. case_match.
  - eapply wp_send_ready; eauto.
  - apply wp_when; intros _; [eapply wp_send_ready; eauto|by apply HQ].
Qed.

(** Socket [p] has new contents for its queue, error flag and event mask. *)
Definition refilled (q : IOVector) (e : bool) (st : Z) (s : asocket) : asocket :=
  set_fde (Some st) (set_write_error e (set_queue q s)).

Lemma wfx_refilled X w p s q e st :
  wfx X w → socks w !! p = Some s → is_local s → front_wf q →
  (empty q = false → e = false → Z.land st FDE_WRITE = FDE_WRITE) →
  wfx X (set_socks (<[p := refilled q e st s]> (socks w)) w).
Proof.
  intros Hw Hs Hl Hq Harm. eapply wfx_update; try done.
  destruct (local_kind s Hl) as (? & ? & ? & ? & _ & _); [by eapply wf_kind|].
  unfold kind_ok. wcbn. destruct Hl as [E|E]; cbn; rewrite E; split_and!; try done; eexists; split; done.
Qed.

Definition flush_post (X : gset ptr) (w0 : world) (p : ptr) (s0 : asocket) (q0 : IOVector)
    (r : SocketFlushResult) (w' : world) : Prop :=
  wfx X w' ∧
  let left := ldrop (writev_taken (clock w0) (fd s0) (view q0)) (view q0) in
  let e := has_write_error s0 || writev_failed (clock w0) (fd s0) (view q0) in
  match r with
  | Destroyed => closing s0 = true ∧ closed_pair p (peer s0) w0 w' ∧ (left = [] ∨ e = true)
  | _ => touched p w0 w' ∧ ∃ q st, socks w' !! p = Some (refilled q e st s0) ∧
           view q = left ∧ chain_length_ q ≤ chain_length_ q0 ∧ (r = FlushCompleted ↔ left = [] ∨ e = true)
  end.

Lemma sent_touched p w w' : sent w w' → touched p w w'.
Proof. intros (c & l & T & -> & HT). by split. Qed.

(** [local_socket_flush_incoming], started after [q0] was put in the queue. *)
Lemma wp_flush_incoming F X w p s q0 :
  wfx X w → p ∉ X → socks w !! p = Some s → is_local s → front_wf q0 →
  wp F (local_socket_flush_incoming p) (flush_post X w p s q0)
    (set_socks (<[p := set_queue q0 s]> (socks w)) w).
Proof.
  intros Hw HpX Hs Hl Hq0. unfold local_socket_flush_incoming. wstep.
  destruct (local_kind s Hl) as (_ & _ & _ & _ & _ & st & Hst & _); [by eapply wf_kind|].
  eapply wp_flush_queue; [apply lookup_insert_eq|done|].
  set (n := writev_taken _ _ _). set (e := has_write_error _ || writev_failed _ _ _).
  intros q c l Hq Hv Hcl. wcbn. rewrite insert_insert_eq. set (s1 := set_write_error e _).
  assert (n = writev_taken (clock w) (fd s) (view q0)) as En by done.
  assert (e = has_write_error s || writev_failed (clock w) (fd s) (view q0)) as Ee by done.
  unfold flush_post. rewrite <- En, <- Ee, <- Hv. clearbody e n. clear En Ee.
  wstep. eapply wp_sget; [apply lookup_insert_eq|]. wstep.
  eapply wp_flush_ack; [apply lookup_insert_eq|exact (wf_conn _ _ Hw)| | |].
  { intros t q' Ht Hq'. exact (peered_transport _ _ _ _ _ _ Hw Hs Hq' Ht). }
  { intros q' Hq'. destruct (wf_peer _ _ Hw p s q' HpX Hs Hq') as (? & sq & Hsq & _). wcbn.
    rewrite lookup_insert_ne by done. by rewrite Hsq. }
  intros w1 (c1 & l1 & T1 & -> & HT). wcbn.
  assert (∀ st', (empty q = false → e = false → Z.land st' FDE_WRITE = FDE_WRITE) →
    wfx X (set_log c1 l1 (set_transports T1 (set_socks (<[p := refilled q e st' s]> (socks w)) w)))) as Hwf.
  { intros st' Harm. eapply wfx_sent; [by apply (wfx_refilled X w p s q e st')|].
    exists c1, l1, T1. split; [by destruct w|]. exact HT. }
  change (packet_queue s1) with q. change (has_write_error s1) with e. change (closing s1) with (closing s).
  rewrite (size_empty q Hq).
  assert (empty q = bool_decide (view q = [])) as Hem by by apply size_empty.
  destruct (negb (bool_decide (view q = [])) && negb e) eqn:Efull.
  - apply andb_true_iff in Efull as [Ev%negb_true_iff Ee%negb_true_iff]. subst e.
    rewrite andb_false_r. unfold fdevent_add. wstep. wstep. eapply wp_sget; [apply lookup_insert_eq|].
    wstep. eapply wp_lift; [unfold s1; wcbn; by rewrite Hst|]. eapply wp_supd; [apply lookup_insert_eq|]. wstep. wcbn.
    rewrite insert_insert_eq. split.
    + apply (Hwf (Z.lor st FDE_WRITE)). intros _ _. apply add_write_write.
    + split; [split; wcbn; try done; intros r ?; by rewrite lookup_insert_ne|].
      exists q, (Z.lor st FDE_WRITE). wcbn. rewrite lookup_insert_eq. split_and!; try done.
      apply bool_decide_eq_false in Ev. naive_solver.
  - assert (∀ st', empty q = false → e = false → Z.land st' FDE_WRITE = FDE_WRITE) as Harm.
    { intros st'. rewrite Hem. intros Ev Ee. by rewrite Ev, Ee in Efull. }
    rewrite andb_true_r. destruct (closing s) eqn:Ecl.
    + assert (view q = [] ∨ e = true) as Hend.
      { apply andb_false_iff in Efull as [Ev%negb_false_iff%bool_decide_eq_true|Ee%negb_false_iff]; auto. }
      wstep. assert (s1 = refilled q e st s) as Es1 by (unfold s1, refilled; rewrite <- Hst; by destruct s).
      rewrite Es1. eapply wp_mono; [eapply (wp_call_close F X); [by apply Hwf, Harm|done|apply lookup_insert_eq|unfold close_fuel; lia]|].
      intros [] w2 [Hw2 Hc2]. wstep. split; [done|]. split; [done|]. split; [|done].
      eapply closed_pair_pre; [| | | | | |exact Hc2]; wcbn; try done. intros r ?. by rewrite lookup_insert_ne.
    + unfold fdevent_del. wstep. wstep. eapply wp_sget; [apply lookup_insert_eq|].
      wstep. eapply wp_lift; [unfold s1; wcbn; by rewrite Hst|]. eapply wp_supd; [apply lookup_insert_eq|]. wstep. wcbn.
      rewrite insert_insert_eq. split; [by apply (Hwf (Z.ldiff st FDE_WRITE)), Harm|].
      split; [split; wcbn; try done; intros r ?; by rewrite lookup_insert_ne|].
      exists q, (Z.ldiff st FDE_WRITE). wcbn. rewrite lookup_insert_eq. split_and!; try done.
      apply andb_false_iff in Efull as [Ev%negb_false_iff|Ee%negb_false_iff]; [|naive_solver].
      apply bool_decide_eq_true in Ev. naive_solver.
Qed.

(** ** Enqueueing *)

(** No queue is near the limit of a 64-bit length. *)
Definition queue_room (w : world) : Prop :=
  ∀ p s, socks w !! p = Some s → chain_length_ (packet_queue s) + 2 ^ 33 < 2 ^ 64.

Lemma wp_local_socket_enqueue F X w p s data :
  wfx X w → p ∉ X → socks w !! p = Some s → is_local s → block_ok data → size_ data < 2 ^ 33 → queue_room w →
  wp F (local_socket_enqueue p data)
    (λ r w', let out := view (packet_queue s) ++ contents data in
       let left := ldrop (writev_taken (clock w) (fd s) out) out in
       let e := has_write_error s || writev_failed (clock w) (fd s) out in
       wfx X w' ∧ ((r = -1 ∧ closing s = true ∧ closed_pair p (peer s) w w' ∧ (left = [] ∨ e = true)) ∨
       (r = 0 ∨ r = 1) ∧ touched p w w' ∧ ∃ q st, socks w' !! p = Some (refilled q e st s) ∧
         view q = left ∧ (r = 0 ↔ left = [] ∨ e = true))) w.
Proof.
  intros Hw HpX Hs Hl Hb Hsz Hroom. specialize (Hroom p s Hs).
  destruct (local_kind s Hl) as (_ & _ & _ & _ & Hq & _); [by eapply wf_kind|].
  destruct (append_wf (packet_queue s) data) as (q0 & E & _ & Hv & _ & _ & _ & _ & Hf); [apply Hq|done|lia|].
  unfold local_socket_enqueue. do 2 wstep. wstep. eapply wp_lift; [exact E|]. wstep. wstep. wstep.
  eapply wp_mono; [by apply wp_flush_incoming; auto|]. intros r w' [Hw' Hr]. wstep. split; [done|].
  rewrite Hv in Hr.
  destruct r; [left; naive_solver|right|right]; destruct Hr as (? & q & st & ? & ? & _ & Hi);
    (split; [naive_solver|]; split; [done|]; exists q, st; split_and!; [done..|naive_solver]).
Qed.

Lemma wp_remote_socket_enqueue F X w p s q sq data :
  wfx X w → socks w !! p = Some s → close s = remote_socket_close_fn → peer s = Some q → socks w !! q = Some sq →
  block_ok data →
  wp F (remote_socket_enqueue p data) (λ r w', (r = 1 ∨ r = -1) ∧ sent w w') w.
Proof.
  intros Hw Hs Hk Hp Hq Hb. destruct (wf_kind _ _ Hw p s Hs) as [_ Hk']. rewrite Hk in Hk'.
  destruct Hk' as (_ & _ & _ & [t Ht]). unfold remote_socket_enqueue. do 2 wstep. wstep.
  eapply wp_lift; [by rewrite Hp|]. do 2 wstep. destruct (Z.ltb_spec MAX_PAYLOAD (size_ data)) as [|Hsz].
  { wstep. split; [by right|done]. }
  pose proof (block_ok_size _ Hb). wstep. eapply wp_lift; [by rewrite Ht|]. wstep.
  eapply wp_send_packet; [exact (wf_conn _ _ Hw)|exact (peered_transport _ _ _ _ _ _ Hw Hs Hp Ht)| |].
  - split; [done|]. cbn. apply u32_small. unfold MAX_PAYLOAD in Hsz. lia.
  - intros w' Hsent. wstep. split; [by left|done].
Qed.

Lemma sent_queue_room w w' : queue_room w → sent w w' → queue_room w'.
Proof. by intros Hr (? & ? & ? & -> & _). Qed.

(** What a caller of [peer->enqueue] relies on: the call keeps the invariant, and if the
    result is not negative the caller's socket is still there. *)
Class EnqueueSpec (F : Prop) (enq : ptr → Block → M Z) : Prop := enqueue_spec : ∀ w q sq p sp data,
  wf w → queue_room w → socks w !! q = Some sq → peer sq = Some p → socks w !! p = Some sp → is_local sp →
  block_ok data → size_ data < 2 ^ 33 →
  wp F (enq q data) (λ r w', wf w' ∧ (0 ≤ r → ∃ sp', socks w' !! p = Some sp' ∧ is_local sp')) w.

(** The same contract, for the smart socket's function on smart sockets. *)
Class SmartEnqueueSpec (F : Prop) (smart : ptr → Block → M Z) : Prop := smart_enqueue_spec : ∀ w q sq p sp data,
  wf w → queue_room w → socks w !! q = Some sq → close sq = smart_socket_close_fn →
  peer sq = Some p → socks w !! p = Some sp → is_local sp → block_ok data → size_ data < 2 ^ 33 →
  wp F (smart q data) (λ r w', wf w' ∧ (0 ≤ r → ∃ sp', socks w' !! p = Some sp' ∧ is_local sp')) w.

#[global] Instance call_enqueue_spec F smart : SmartEnqueueSpec F smart → EnqueueSpec F (call_enqueue smart).
Proof.
  intros Hsm w q sq p sp data Hw Hroom Hq Hqp Hp Hl Hb Hsz.
  assert (q ∉ (∅ : gset ptr)) as HqX by set_solver.
  destruct (wf_peer _ _ Hw q sq p HqX Hq Hqp) as (Hne & sp' & Hsp & Hpq). simplify_eq.
  destruct (wf_kind _ _ Hw q sq Hq) as [_ Hk]. unfold call_enqueue. do 2 wstep.
  destruct (close sq) eqn:Ek.
  1,2: destruct Hk as (-> & _);
    (eapply wp_mono; [eapply wp_local_socket_enqueue; try done; unfold is_local; by rewrite Ek; auto|]);
    intros r w' [Hw' [(_ & Hc & _)|(_ & Ht & _)]];
    [by rewrite (wf_closing _ _ Hw q sq Hq) in Hqp by (unfold is_local; auto)|
     split; [done|]; intros _; exists sp; by rewrite (touched_socks _ _ _ Ht) by done].
  - destruct Hk as (-> & _). eapply wp_mono; [by eapply wp_remote_socket_enqueue|].
    intros r w' [_ Hs]. split; [by eapply wfx_sent|]. intros _. exists sp.
    destruct Hs as (? & ? & ? & -> & _). done.
  - destruct Hk as (-> & _). by eapply smart_enqueue_spec.
  - destruct Hk as (-> & _). wstep.
    pose proof (wp_call_close F ∅ w q sq 5 Hw HqX Hq ltac:(lia)) as Hcl. cbn [call_close] in Hcl.
    apply wp_bind_inv in Hcl. unfold wp at 1, sget in Hcl. rewrite Hq, Ek in Hcl.
    eapply wp_mono; [exact Hcl|]. intros [] w' [Hw' _]. wstep. split; [done|lia].
Qed.

(** ** Reading from the descriptor *)

Lemma wp_get_max_payload F X w p s (Q : Z → world → Prop) :
  wfx X w → p ∉ X → socks w !! p = Some s → ¬ retiring s →
  (∀ m, 0 ≤ m ≤ MAX_PAYLOAD → Q m w) → wp F (get_max_payload p) Q w.
Proof.
  intros Hw HpX Hs Hret HQ. unfold get_max_payload.
  assert (∀ t tr, transports w !! t = Some tr → 0 ≤ max_payload tr) as Hm.
  { intros t tr Ht. by destruct (wf_conn _ _ Hw t tr Ht). }
  assert (0 ≤ MAX_PAYLOAD) by done.
  assert (∀ m1, 0 ≤ m1 ≤ MAX_PAYLOAD → wp F match peer s with
      | None => mret m1
      | Some q => sq ← sget q; match transport sq with
          | Some t => tr ← tget t; mret (Z.min m1 (max_payload tr)) | None => mret m1 end end Q w) as Hrest.
  { intros m1 Hm1. destruct (peer s) as [q|] eqn:Hp; [|wstep; auto].
    destruct (wf_peer _ _ Hw p s q HpX Hs Hp) as (_ & sq & Hq & Hqp). do 2 wstep.
    destruct (transport sq) as [t|] eqn:Ht; [|wstep; auto].
    destruct (peered_transport _ _ _ _ _ _ Hw Hq Hqp Ht) as [tr Htr]. do 3 wstep. apply HQ.
    specialize (Hm t tr Htr). lia. }
  do 3 wstep. destruct (transport s) as [t|] eqn:Ht; [|wstep; apply Hrest; lia].
  destruct (wf_transport _ _ Hw p s t Hs Hret Ht) as [tr Htr]. do 3 wstep. apply Hrest.
  specialize (Hm t tr Htr). lia.
Qed.

(** The bytes a part of the trace read. *)
Definition read_bytes (evs : list event) : bytes :=
  concat ((λ e, match e with EvRead _ data => data | _ => [] end) <$> evs).

(** The read loop fills the buffer from the front with what was read, and ends. *)
Lemma wp_read_loop F fuel : ∀ fd data x avail w (Q : Block * Z * bool → world → Prop),
  block_ok data → 0 ≤ x → 0 ≤ avail → x + avail = size_ data → (Z.to_nat avail < fuel)%nat →
  (∀ data' avail' eof evs c, block_ok data' → size_ data' = size_ data → 0 ≤ avail' ≤ avail →
     ltake (size_ data - avail') (contents data') = ltake x (contents data) ++ read_bytes evs →
     Q (data', avail', eof) (set_log c (trace w ++ evs) w)) →
  wp F (read_loop fuel fd data x avail) Q w.
Proof.
  induction fuel as [|fuel IH]; intros fd data x avail w Q Hb Hx Ha Hsz Hf HQ; [lia|].
  cbn [read_loop]. destruct (Z.ltb_spec 0 avail) as [Hlt|].
  2:{ wstep. replace w with (set_log (clock w) (trace w ++ []) w) by (rewrite app_nil_r; by destruct w).
      apply HQ; try done; try lia. rewrite app_nil_r. f_equal. lia. }
  assert (∀ eof e c, (match e with EvRead _ d => d | _ => [] end = []) →
    Q (data, avail, eof) (set_log c (trace w ++ [e]) w)) as Hstop.
  { intros eof e c He. apply HQ; try done; try lia. unfold read_bytes. cbn. rewrite He. cbn.
    rewrite app_nil_r. f_equal. lia. }
  unfold adb_read. do 6 wstep. destruct (os_read _ fd avail) as [| |l] eqn:Er.
  - wstep. by apply Hstop.
  - wstep. by apply Hstop.
  - apply os_read_le in Er. destruct l as [|b l']; [wstep; by apply Hstop|]. set (l := b :: l') in *.
    assert (0 < llen l) by (unfold l; rewrite llen_cons; pose proof (llen_nonneg l'); lia).
    destruct (data_ data) as [d|] eqn:Hd; unfold block_ok in Hb; rewrite Hd in Hb; [|lia].
    wstep. eapply wp_lift; [exact (block_write_data data d x l Hd ltac:(lia) ltac:(lia))|].
    set (data1 := mkBlock _ _ _).
    assert (llen (ltake x d ++ l ++ ldrop (x + llen l) d) = llen d) as Hlen.
    { rewrite !llen_app, llen_ltake, llen_ldrop by lia. lia. }
    assert (block_ok data1) as Hb1 by exact (conj (eq_trans Hlen (proj1 Hb)) (proj2 Hb)).
    assert (ltake (x + llen l) (contents data1) = ltake x (contents data) ++ l) as Hpre.
    { unfold contents, data1. cbn [data_ size_]. rewrite Hd, !ltake_ltake by lia.
      assert (llen (ltake x d ++ l) = x + llen l) as Hxl by (rewrite llen_app, llen_ltake; lia).
      rewrite app_assoc, ltake_app_le by lia. apply ltake_ge. lia. }
    change (size_ data1) with (size_ data) in *.
    apply IH; try done; try (change (size_ data1) with (size_ data); lia).
    intros data' avail' eof evs c ? Hs' ? E. wcbn. rewrite <- app_assoc. cbn [app].
    apply HQ; [done|exact Hs'|lia|].
    change (size_ data1) with (size_ data) in E. rewrite E, Hpre, <- app_assoc. done.
Qed.

Lemma local_wf_update w p s s' :
  wf w → socks w !! p = Some s → is_local s → close s' = close s → enqueue s' = enqueue s →
  ready s' = ready s → shutdown s' = shutdown s → exit_on_close s' = exit_on_close s →
  packet_queue s' = packet_queue s → has_write_error s' = has_write_error s →
  (∀ st, fde s = Some st → ∃ st', fde s' = Some st' ∧ Z.land st' FDE_WRITE = Z.land st FDE_WRITE) →
  closing s' = closing s → s_id s' = s_id s → peer s' = peer s → transport s' = transport s →
  wf (set_socks (<[p := s']> (socks w)) w) ∧ is_local s'.
Proof.
  intros Hw Hs Hl Ec Ee Er Eh Ex Eq Ew Ef Ecl Ei Ep Et.
  assert (is_local s') as Hl' by (unfold is_local in *; congruence). split; [|done].
  destruct (local_kind s Hl) as (? & ? & ? & ? & ? & st & Hst & Harm); [by eapply wf_kind|].
  eapply wfx_update; try done.
  - destruct (Ef st Hst) as (st' & Hst' & Ew'). unfold kind_ok.
    assert (write_armed s'). { exists st'. split; [done|]. rewrite Eq, Ew, Ew'. exact Harm. }
    destruct Hl' as [E'|E']; rewrite E'; rewrite Ex, Ee, Er, Eh, Eq; done.
  - by unfold is_tracker; rewrite Ec.
Qed.

Lemma wp_fdevent_del_read F w p s (Q : unit → world → Prop) :
  wf w → socks w !! p = Some s → is_local s →
  (∀ w' s', wf w' → socks w' !! p = Some s' → is_local s' → Q () w') → wp F (fdevent_del p FDE_READ) Q w.
Proof.
  intros Hw Hs Hl HQ. destruct (local_kind s Hl) as (_ & _ & _ & _ & _ & st & Hst & _); [by eapply wf_kind|].
  unfold fdevent_del. do 2 wstep. wstep. eapply wp_lift; [by rewrite Hst|]. wstep.
  edestruct (local_wf_update w p s) as [Hw' Hl']; [exact Hw|exact Hs|exact Hl| | | | | | | | | | | | |
    eapply HQ; [exact Hw'|apply lookup_insert_eq|exact Hl']]; try done.
  intros st0 E. simplify_eq. eexists. split; [done|]. by rewrite del_read_write.
Qed.

(** [local_socket_flush_outgoing]: the socket is still there when it returns true. *)
Lemma wp_flush_outgoing F enq `{!EnqueueSpec F enq} w p s :
  wf w → queue_room w → socks w !! p = Some s → is_local s → closing s = false →
  wp F (local_socket_flush_outgoing enq p)
    (λ r w', wf w' ∧ (r = true → ∃ s', socks w' !! p = Some s' ∧ is_local s')) w.
Proof.
  intros Hw Hroom Hs Hl Hcl. assert (p ∉ (∅ : gset ptr)) as HpX by set_solver.
  assert (¬ retiring s) by (intros []; congruence).
  unfold local_socket_flush_outgoing. wstep. eapply wp_get_max_payload; [done..|]. intros m Hm.
  destruct (resize_empty m) as (data0 & E0 & Hb0 & Hs0 & _); [lia|].
  wstep. eapply wp_lift; [exact E0|]. do 2 wstep. wstep.
  eapply wp_read_loop; [done|lia|lia|lia|lia|].
  intros data avail eof evs c Hb Hsz Hav _. set (w1 := set_log _ _ _).
  assert (wf w1) as Hw1 by (eapply wfx_sent; [exact Hw|apply sent_log]).
  (* the end of the function, from any state that still has the socket *)
  assert (∀ w2 s2, wf w2 → socks w2 !! p = Some s2 → is_local s2 →
    wp F (if eof then socket_close p ;; mret false else mret true)
      (λ r w', wf w' ∧ (r = true → ∃ s', socks w' !! p = Some s' ∧ is_local s')) w2) as Hend.
  { intros w2 s2 Hw2 Hs2 Hl2. destruct eof.
    - wstep. eapply wp_mono; [eapply (wp_call_close F ∅); [done..|unfold close_fuel; lia]|].
      intros [] w3 [Hw3 _]. by wstep.
    - wstep. split; [done|]. intros _. by exists s2. }
  wstep. destruct (peer s) as [q|] eqn:Hp; [|wstep; by eapply Hend].
  destruct (Z.eqb_spec avail m); [wstep; by eapply Hend|].
  destruct (resize_shrink data (m - avail)) as (data' & Er & Hb' & Hs' & _); [done|lia|].
  wstep. eapply wp_lift; [exact Er|].
  assert (∀ w2 s2, wf w2 → socks w2 !! p = Some s2 → is_local s2 → peer s2 = Some q → queue_room w2 →
    wp F (r ← enq q data'; if r <? 0 then mret true else
      (if 0 <? r then s3 ← sget p; match available_send_bytes s3 with
         | Some a => when (a <=? 0) (fdevent_del p FDE_READ) | None => fdevent_del p FDE_READ end
       else mret ()) ;; mret false)
      (λ (gone : bool), wp F (if gone then mret false else if eof then socket_close p ;; mret false else mret true)
        (λ r w', wf w' ∧ (r = true → ∃ s', socks w' !! p = Some s' ∧ is_local s'))) w2) as Henq.
  { intros w2 s2 Hw2 Hs2 Hl2 Hp2 Hroom2.
    destruct (wf_peer _ _ Hw2 p s2 q HpX Hs2 Hp2) as (_ & sq & Hq & Hqp). wstep.
    eapply wp_mono; [eapply (EnqueueSpec0 w2 q sq p s2 data'); try done|].
    { unfold MAX_PAYLOAD in Hm. lia. }
    intros r w3 [Hw3 Hlive]. destruct (Z.ltb_spec r 0); [wstep; by wstep|].
    destruct Hlive as (s3 & Hs3 & Hl3); [lia|]. wstep.
    assert (∀ w4 s4, wf w4 → socks w4 !! p = Some s4 → is_local s4 →
      wp F (mret false : M bool) (λ (gone : bool), wp F (if gone then mret false else if eof then socket_close p ;; mret false else mret true)
        (λ r w', wf w' ∧ (r = true → ∃ s', socks w' !! p = Some s' ∧ is_local s'))) w4) as Hk.
    { intros w4 s4 ???. wstep. by eapply Hend. }
    destruct (Z.ltb_spec 0 r); [|wstep; by eapply Hk]. do 2 wstep. destruct (available_send_bytes s3).
    - apply wp_when; intros _; [|by eapply Hk]. by eapply wp_fdevent_del_read.
    - by eapply wp_fdevent_del_read. }
  wstep. destruct (available_send_bytes s) as [a|]; [|wstep; by eapply Henq].
  wstep. destruct (local_wf_update w1 p s (set_available (Some (a - size_ data')) s)) as [Hw2 Hl2]; try done.
  { intros st Hst. by exists st. }
  eapply Henq; [exact Hw2|apply lookup_insert_eq|done|done|].
  intros r sr. wcbn. destruct (decide (p = r)) as [<-|]; [rewrite lookup_insert_eq; intros [= <-]; exact (Hroom p s Hs)|].
  rewrite lookup_insert_ne by done. apply Hroom.
Qed.

(** An event on a local socket. *)
Lemma wp_local_socket_event F enq `{!EnqueueSpec F enq} w p s ev :
  wf w → queue_room w → socks w !! p = Some s → is_local s →
  (Z.land ev FDE_READ ≠ 0 → closing s = false) →
  wp F (local_socket_event_func enq ev p) (λ _ w', wf w') w.
Proof.
  intros Hw Hroom Hs Hl Hev. unfold local_socket_event_func. wstep.
  assert (∀ w1 s1, wf w1 → queue_room w1 → socks w1 !! p = Some s1 → is_local s1 → closing s1 = closing s →
    wp F (if negb (Z.land ev FDE_READ =? 0) then _ ← local_socket_flush_outgoing enq p; mret () else mret ())
      (λ _ w', wf w') w1) as Hread.
  { intros w1 s1 Hw1 Hr1 Hs1 Hl1 Hc1. destruct (Z.eqb_spec (Z.land ev FDE_READ) 0); [cbn [negb]; by wstep|]. cbn [negb]. wstep.
    eapply wp_mono; [eapply wp_flush_outgoing; try done; rewrite Hc1; auto|]. intros b w2 [? _]. by wstep. }
  destruct (negb (Z.land ev FDE_WRITE =? 0)); [|wstep; by eapply Hread].
  destruct (local_kind s Hl) as (_ & _ & _ & _ & Hq & _); [by eapply wf_kind|].
  pose proof (wp_flush_incoming F ∅ w p s (packet_queue s) Hw ltac:(set_solver) Hs Hl Hq) as Hfl.
  assert (set_socks (<[p := set_queue (packet_queue s) s]> (socks w)) w = w) as Hid.
  { replace (set_queue (packet_queue s) s) with s by by destruct s. rewrite insert_id by done. by destruct w. }
  rewrite Hid in Hfl. wstep. eapply wp_mono; [exact Hfl|]. intros r w1 [Hw1 Hr]. wstep.
  destruct r; [by wstep|..];
    (destruct Hr as (Ht & q & st & Hs1 & _ & Hcl & _);
     eapply (Hread w1); [done| |exact Hs1|exact Hl|done]; intros r sr Hr; destruct (decide (r = p)) as [->|];
     [rewrite Hs1 in Hr; injection Hr as <-; cbn; specialize (Hroom p s Hs); lia|
      rewrite (touched_socks _ _ _ Ht) in Hr by done; by eapply Hroom]).
Qed.
End ops.

(** ** Claims *)

Section claims.
Context `{OS} `{!OSLaws} `{Uninit}.

(** C3. Closing a socket, whatever its kind and its peer's, always returns: no freed socket is
    used, no [CHECK] fails and the mutual recursion of the close functions ends.  The
    invariant holds afterwards, the socket is off the list of live sockets (it is gone, or
    waits for its queue without a peer), and only the socket and its peer changed. *)
Theorem socket_close_safe w p s :
  wf w → socks w !! p = Some s →
  wp False (socket_close p) (λ _ w', wf w' ∧ p ∉ local_socket_list w' ∧
    (∀ s', socks w' !! p = Some s' → peer s' = None ∧ is_local s') ∧
    (∀ q, q ≠ p → Some q ≠ peer s → socks w' !! q = socks w !! q)) w.
Proof.
  intros Hw Hs. eapply wp_mono; [eapply (wp_call_close False ∅); [done|set_solver|done|unfold close_fuel; lia]|].
  intros [] w' [? [? ? [? ?] ? ? ?]]. done.
Qed.

Lemma wp_close_all_sockets F w t :
  wf w → wp F (close_all_sockets t) (λ _ w', wf w' ∧
    (∀ u, option_Forall2 tr_like (transports w !! u) (transports w' !! u)) ∧
    next_ptr w' = next_ptr w ∧ frame w w' ∧
    ∀ p s, socks w' !! p = Some s → transport s = Some t → retiring s) w.
Proof.
  intros Hw. unfold close_all_sockets. do 2 wstep. eapply wp_mono; [apply wp_close_all_loop; [done|lia]|].
  intros [] w' (Hw' & ? & ? & ? & Hno). split_and!; try done. intros p s Hs Ht.
  destruct (decide (close s = local_socket_close_fn ∨ close s = local_socket_close_notify_fn)) as [Hl|Hl].
  - split; [done|]. destruct (closing s) eqn:Hc; [done|]. exfalso. eapply Hno; [|done|by left].
    apply (wf_list _ _ Hw' p). by exists s.
  - destruct (wf_nonlocal_peer _ _ Hw' p s) as (q & sq & Hp & Hq & Hlq); [set_solver|done..|].
    destruct (wf_peer _ _ Hw' p s q) as (_ & sq' & Hq' & Hqp); [set_solver|done..|].
    assert (sq' = sq) as -> by congruence.
    exfalso. eapply (Hno q sq); [|done|right; by exists p, s]. apply (wf_list _ _ Hw' q). exists sq.
    split_and!; try done. destruct (closing sq) eqn:Hc; [|done].
    by rewrite (wf_closing _ _ Hw' q sq Hq Hlq Hc) in Hqp.
Qed.

(** C4. [close_all_sockets] restarts its search after every close; it ends, and then the only
    sockets that still name the transport are closed ones that wait for their queue. *)
Theorem close_all_sockets_complete w t :
  wf w → wp False (close_all_sockets t) (λ _ w', wf w' ∧
    ∀ p s, socks w' !! p = Some s → transport s = Some t → is_local s ∧ closing s = true ∧ peer s = None) w.
Proof.
  intros Hw. eapply wp_mono; [by apply wp_close_all_sockets|]. intros [] w' (Hw' & _ & _ & _ & Hret).
  split; [done|]. intros p s Hs Ht. destruct (Hret p s Hs Ht) as [Hl Hc]. split_and!; try done.
  by eapply wf_closing.
Qed.


End claims.

(** ** Witnesses *)

(** A stream to the device: the local socket 2 and its peer, the remote socket 3. *)
Definition stream_local (q : IOVector) : asocket :=
  set_queue q (set_transport (Some 1%positive) (set_fde (Some 3) (set_peer (Some 3%positive) (set_id 1 (set_fd 10
    (new_socket local_socket_enqueue_fn local_socket_ready_fn None local_socket_close_fn)))))).
Definition stream_remote : asocket :=
  set_peer (Some 2%positive) (set_transport (Some 1%positive) (set_id 77
    (new_socket remote_socket_enqueue_fn remote_socket_ready_fn (Some remote_socket_shutdown_fn) remote_socket_close_fn))).
Definition one_stream (q : IOVector) : world :=
  set_lists [2%positive] [] (set_next_id 2 (set_next_ptr 4
    (set_socks {[2%positive := stream_local q; 3%positive := stream_remote]} one_transport))).

Lemma one_stream_socks q p s : socks (one_stream q) !! p = Some s →
  (p = 2%positive ∧ s = stream_local q) ∨ (p = 3%positive ∧ s = stream_remote).
Proof. cbn. rewrite lookup_insert_Some, lookup_singleton_Some. naive_solver. Qed.

Lemma one_stream_wf q : front_wf q → wf (one_stream q).
Proof.
  intros Hq. assert (is_local (stream_local q)) as Hl by by left.
  assert (¬ is_local stream_remote) as Hr by by intros [].
  split.
  - intros p s [[-> ->]|[-> ->]]%one_stream_socks; [|done]. split; [done|]. split_and!; try done; [by left|].
    exists 3. done.
  - intros p s t [[-> ->]|[-> ->]]%one_stream_socks _ [= <-]; by eexists.
  - intros t tr. cbn. rewrite lookup_singleton_Some. intros [_ <-]. split; [by eexists|done].
  - intros p s r _ [[-> ->]|[-> ->]]%one_stream_socks [= <-]; (split; [done|]); by eexists.
  - intros p s _ [[-> ->]|[-> ->]]%one_stream_socks Hn; [done|]. by exists 2%positive, (stream_local q).
  - by intros p s [[-> ->]|[-> ->]]%one_stream_socks.
  - intros p. cbn [local_socket_list one_stream set_lists]. rewrite list_elem_of_singleton. split.
    + intros ->. by exists (stream_local q).
    + by intros (s & [[-> ->]|[-> ->]]%one_stream_socks & ? & ?).
  - intros p. split; [by intros ?%elem_of_nil|]. by intros (s & [[-> ->]|[-> ->]]%one_stream_socks & ? & ?).
  - intros p. split; [by intros ?%elem_of_nil|]. by intros (s & [[-> ->]|[-> ->]]%one_stream_socks & ?).
  - apply NoDup_singleton.
  - by intros p s [[-> ->]|[-> ->]]%one_stream_socks.
  - by intros p r s s' [[-> ->]|[-> ->]]%one_stream_socks [[-> ->]|[-> ->]]%one_stream_socks.
  - done.
  - by intros p s [[-> ->]|[-> ->]]%one_stream_socks.
Qed.

Lemma one_stream_room q : front_wf q → chain_length_ q < 2 ^ 40 → queue_room (one_stream q).
Proof. intros _ Hlt p s [[-> ->]|[-> ->]]%one_stream_socks; cbn; lia. Qed.

Lemma empty_front_wf : front_wf empty_iov.
Proof. split; [apply iov_wf_empty|done]. Qed.

(** A smart socket that closes the connection on any data. *)
Definition refuse `{OS} (p : ptr) (data : Block) : M Z := socket_close p ;; mret (-1).

#[global] Instance refuse_spec `{OS} `{!OSLaws} F : SmartEnqueueSpec F refuse.
Proof.
  intros w q sq p sp data Hw _ Hq _ _ _ _ _ _. unfold refuse. wstep.
  eapply wp_mono; [eapply (wp_call_close F ∅); [done|set_solver|done|unfold close_fuel; lia]|].
  intros [] w' [? _]. wstep. split; [done|lia].
Qed.

Lemma socket_close_safe_witness :
  ∃ w', @socket_close quiet_os 2%positive (one_stream empty_iov) = Ok ((), w') ∧ wf w' ∧ socks w' !! 3%positive = None.
Proof.
  pose proof (@socket_close_safe quiet_os quiet_os_laws (one_stream empty_iov) 2 (stream_local empty_iov)
    (one_stream_wf _ empty_front_wf) eq_refl) as E.
  unfold wp in E. destruct (@socket_close quiet_os 2%positive (one_stream empty_iov)) as [[[] w']| | | |] eqn:R; try contradiction.
  exists w'. split; [reflexivity|]. split; [exact (proj1 E)|]. vm_compute in R. injection R as <-. reflexivity.
Defined.

Lemma close_all_sockets_complete_witness :
  ∃ w', @close_all_sockets quiet_os 1%positive (one_stream empty_iov) = Ok ((), w') ∧ wf w' ∧ local_socket_list w' = [].
Proof.
  pose proof (@close_all_sockets_complete quiet_os quiet_os_laws (one_stream empty_iov) 1
    (one_stream_wf _ empty_front_wf)) as E.
  unfold wp in E. destruct (@close_all_sockets quiet_os 1%positive (one_stream empty_iov)) as [[[] w']| | | |] eqn:R; try contradiction.
  exists w'. split; [reflexivity|]. split; [exact (proj1 E)|]. vm_compute in R. injection R as <-. reflexivity.
Defined.

Definition hello : Block := mkBlock (Some (txt "hello")) 5 5.


