(* ===== verification/Listeners.v ===== *)
(** * Listeners

    Models adb/adb_listeners.cpp: the sockets the server listens on, for its clients
    (the smart socket) and for port forwards.  A forward belongs to a transport and is
    registered with it, so that it goes away when the transport disconnects.

    [listener_list] of [world] owns the listeners; taking one off the list runs its
    destructor ([destroy_listener]).  The invariant [listeners_ok] says that names are
    unique and that a transport's [disconnects_] are exactly its listeners. *)

From S2P Require Import Prelude Types TransportFd Strings SocketSpec Transport World Sockets.

Inductive InstallStatus :=
  | INSTALL_STATUS_OK
  | INSTALL_STATUS_INTERNAL_ERROR
  | INSTALL_STATUS_CANNOT_BIND
  | INSTALL_STATUS_CANNOT_REBIND
  | INSTALL_STATUS_LISTENER_NOT_FOUND.

Definition INSTALL_LISTENER_NO_REBIND : Z := 1.
Definition INSTALL_LISTENER_DISABLED : Z := 2.

Definition kSmartSocketConnectTo : bytes := txt "*smartsocket*".
Definition isSmartSocket (l : alistener) : bool := bool_decide (connect_to l = kSmartSocketConnectTo).

Definition set_l_transport (t : option ptr) (l : alistener) : alistener :=
  mkListener (l_ptr l) (l_fd l) (l_fde l) (local_name l) (connect_to l) t.
Definition set_l_connect_to (c : bytes) (l : alistener) : alistener :=
  mkListener (l_ptr l) (l_fd l) (l_fde l) (local_name l) c (l_transport l).
Definition set_l_fde (st : Z) (l : alistener) : alistener :=
  mkListener (l_ptr l) (l_fd l) st (local_name l) (connect_to l) (l_transport l).

Section listeners.
Context `{OS} `{Uninit}.

(** [~alistener]. *)
Definition destroy_listener (l : alistener) : M unit :=
  _ ← emit (EvClose (l_fd l));
  match l_transport l with
  | Some t => tupd t (λ tr, Ok (RemoveDisconnect (l_ptr l) tr))
  | None => mret ()
  end.

(** [listener_disconnect(arg, t)]. *)
Definition listener_disconnect (arg : ptr) : M unit :=
  l ← gets listener_list;
  match list_find (λ x, l_ptr x = arg) l with
  | None => mret ()
  | Some (i, x) =>
      modify (set_listeners (delete i l)) ;;
      destroy_listener (set_l_transport None x)
  end.

(** The callbacks of a transport, all of which are listeners. *)
Definition RunDisconnects (t : ptr) : M unit :=
  tr ← tget t;
  foldr (λ d k, listener_disconnect d ;; k) (mret ()) (disconnects_ tr) ;;
  tupd t (λ tr, Ok (set_disconnects [] tr)).

(** One line of [format_listeners]. *)
Fixpoint format_listeners_loop (l : list alistener) : M bytes :=
  match l with
  | [] => mret []
  | x :: l =>
      if isSmartSocket x then format_listeners_loop l else
      t ← lift (deref (l_transport x));
      tr ← tget t;
      rest ← format_listeners_loop l;
      let serial := match serial tr with [] => txt "(reverse)" | s => c_str s end in
      mret (serial ++ [x20] ++ c_str (local_name x) ++ [x20] ++ c_str (connect_to x) ++ [x0a] ++ rest)
  end.
Definition format_listeners : M bytes := l ← gets listener_list; format_listeners_loop l.

(** The [transport] argument of the source is not used there either. *)
Definition remove_listener (name : bytes) : M InstallStatus :=
  l ← gets listener_list;
  match list_find (λ x, local_name x = name) l with
  | None => mret INSTALL_STATUS_LISTENER_NOT_FOUND
  | Some (i, x) =>
      modify (set_listeners (delete i l)) ;;
      destroy_listener x ;;
      mret INSTALL_STATUS_OK
  end.

(** Keeps the listeners [keep] holds of and destroys the others, in order. *)
Fixpoint erase_listeners (keep : alistener → bool) (l : list alistener) : M unit :=
  match l with
  | [] => mret ()
  | x :: l =>
      if keep x then erase_listeners keep l else
      modify (λ w, set_listeners (filter (λ y, l_ptr y ≠ l_ptr x) (listener_list w)) w) ;;
      destroy_listener x ;;
      erase_listeners keep l
  end.

(** A listener whose [connect_to] starts with a star is kept. *)
Definition remove_all_listeners : M unit :=
  l ← gets listener_list;
  erase_listeners (λ x, match connect_to x with x2a :: _ => true | _ => false end) l.

Definition enable_server_sockets : M unit :=
  modify (λ w, set_listeners ((λ x, if isSmartSocket x then set_l_fde FDE_READ x else x) <$> listener_list w) w).

Definition close_smartsockets : M unit :=
  l ← gets listener_list; erase_listeners (λ x, negb (isSmartSocket x)) l.

(** [socket_spec_listen]: descriptor and resolved port, or the error. *)
Definition socket_spec_listen (gListenAll : bool) (spec : bytes) : M (bytes + Z * Z) :=
  plan ← lift (listen_plan gListenAll spec);
  match plan with
  | inl error => mret (inl error)
  | inr target => n ← emit (EvListen target); mret (os_listen n target)
  end.

(** Status, [*resolved_tcp_port], [*error]. *)
Definition install_listener (gListenAll : bool) (name connect_to0 : bytes) (t : option ptr) (flags : Z) :
    M (InstallStatus * Z * bytes) :=
  l ← gets listener_list;
  match list_find (λ x, local_name x = name) l with
  | Some (i, x) =>
      if isSmartSocket x then mret (INSTALL_STATUS_INTERNAL_ERROR, 0, txt "cannot repurpose smartsocket")
      else if negb (Z.land flags INSTALL_LISTENER_NO_REBIND =? 0)
      then mret (INSTALL_STATUS_CANNOT_REBIND, 0, txt "cannot rebind")
      else
        modify (set_listeners (<[i := set_l_connect_to connect_to0 x]> l)) ;;
        (if bool_decide (l_transport x = t) then mret () else
           old ← lift (deref (l_transport x));
           tupd old (λ tr, Ok (RemoveDisconnect (l_ptr x) tr)) ;;
           modify (set_listeners (<[i := set_l_transport t (set_l_connect_to connect_to0 x)]> l)) ;;
           new ← lift (deref t);
           tupd new (λ tr, Ok (AddDisconnect (l_ptr x) tr))) ;;
        mret (INSTALL_STATUS_OK, 0, [])
  | None =>
      r ← socket_spec_listen gListenAll name;
      match r with
      | inl error => mret (INSTALL_STATUS_CANNOT_BIND, 0, error)
      | inr (fd, resolved) =>
          let name' := if resolved =? 0 then name else txt "tcp:" ++ dec resolved in
          p ← gets next_ptr;
          modify (λ w, set_next_ptr (Pos.succ (next_ptr w)) w) ;;
          (* the fdevent: ss_listener_event_func for the smart socket, listener_event_func otherwise *)
          let st := if Z.land flags INSTALL_LISTENER_DISABLED =? 0 then FDE_READ else 0 in
          match t with
          | Some t' => tupd t' (λ tr, Ok (AddDisconnect p tr))
          | None => mret ()
          end ;;
          modify (λ w, set_listeners (listener_list w ++ [mkListener p fd st name' connect_to0 t]) w) ;;
          mret (INSTALL_STATUS_OK, resolved, [])
      end
  end.

(** ** Events on a listening socket *)

Definition adb_socket_accept (fd : Z) : M (option Z) :=
  n ← emit (EvAccept fd); mret (os_accept n fd).

Definition ss_listener_event_func `{Host} `{Protobuf} (enq : ptr → Block → M Z) (l : alistener) (ev : Z) : M unit :=
  if Z.land ev FDE_READ =? 0 then mret () else
  r ← adb_socket_accept (l_fd l);
  match r with
  | None => mret ()
  | Some fd => p ← create_local_socket fd; connect_to_smartsocket enq p
  end.

Definition listener_event_func (l : alistener) (ev : Z) : M unit :=
  if Z.land ev FDE_READ =? 0 then mret () else
  r ← adb_socket_accept (l_fd l);
  match r with
  | None => mret ()
  | Some fd =>
      p ← create_local_socket fd;
      supd p (set_transport (l_transport l)) ;;
      connect_to_remote p (connect_to l)
  end.
End listeners.

(** ** The invariant *)

Record listeners_ok (w : world) : Prop := {
  lo_nodup : NoDup (l_ptr <$> listener_list w);
  lo_transport l t : l ∈ listener_list w → l_transport l = Some t → is_Some (transports w !! t);
  lo_registered t tr p : transports w !! t = Some tr →
    p ∈ disconnects_ tr ↔ ∃ l, l ∈ listener_list w ∧ l_ptr l = p ∧ l_transport l = Some t;
  lo_fresh l : l ∈ listener_list w → (l_ptr l < next_ptr w)%positive;
  lo_forward l : l ∈ listener_list w → isSmartSocket l = false → is_Some (l_transport l)
}.

Lemma l_ptr_inj w l l' :
  listeners_ok w → l ∈ listener_list w → l' ∈ listener_list w → l_ptr l = l_ptr l' → l = l'.
Proof.
  intros Hw [i Hi]%list_elem_of_lookup [j Hj]%list_elem_of_lookup E.
  assert (i = j) as ->; [|congruence].
  eapply (NoDup_lookup (l_ptr <$> listener_list w)); [apply Hw|..]; rewrite list_lookup_fmap.
  - by rewrite Hi.
  - rewrite Hj. cbn. by rewrite E.
Qed.

(** Taking the listener at [i] off a list of distinct listeners. *)
Lemma delete_listener w i x :
  listeners_ok w → listener_list w !! i = Some x →
  ∀ l, l ∈ delete i (listener_list w) ↔ l ∈ listener_list w ∧ l_ptr l ≠ l_ptr x.
Proof.
  intros Hw Hi l. rewrite !list_elem_of_lookup. split.
  - intros [j Hj]. destruct (decide (j < i)%nat).
    + rewrite list_lookup_delete_lt in Hj by done. split; [by exists j|]. intros E.
      assert (j = i); [|lia]. eapply (NoDup_lookup (l_ptr <$> listener_list w)); [apply Hw|..];
        rewrite list_lookup_fmap; [by rewrite Hj|rewrite Hi; cbn; by rewrite E].
    + rewrite list_lookup_delete_ge in Hj by lia. split; [by eexists|]. intros E.
      assert (S j = i); [|lia]. eapply (NoDup_lookup (l_ptr <$> listener_list w)); [apply Hw|..];
        rewrite list_lookup_fmap; [by rewrite Hj|rewrite Hi; cbn; by rewrite E].
  - intros [[j Hj] Hne]. destruct (decide (j < i)%nat).
    + exists j. by rewrite list_lookup_delete_lt.
    + destruct (decide (j = i)) as [->|]; [congruence|]. exists (j - 1)%nat.
      rewrite list_lookup_delete_ge by lia. by replace (S (j - 1)) with j by lia.
Qed.

Lemma delete_NoDup w i : listeners_ok w → NoDup (l_ptr <$> delete i (listener_list w)).
Proof.
  intros Hw. eapply sublist_NoDup; [apply (lo_nodup _ Hw)|]. apply fmap_sublist, sublist_delete.
Qed.

(** A listener that has left the list and its transport. *)
Definition without (x : alistener) (w w' : world) : Prop :=
  listeners_ok w' ∧ (∀ l, l ∈ listener_list w' ↔ l ∈ listener_list w ∧ l_ptr l ≠ l_ptr x) ∧
  socks w' = socks w ∧ next_ptr w' = next_ptr w ∧
  (∀ t, t ∈ dom (transports w') ↔ t ∈ dom (transports w)).

Section listener_ops.
Context `{OS} `{Uninit}.

Lemma wp_remove_at F w i x :
  listeners_ok w → listener_list w !! i = Some x →
  wp F (modify (set_listeners (delete i (listener_list w))) ;; destroy_listener x) (λ _ w', without x w w') w.
Proof.
  intros Hw Hi. pose proof (delete_listener w i x Hw Hi) as Hd. pose proof (delete_NoDup w i Hw) as Hnd.
  assert (x ∈ listener_list w) as Hx by by eapply list_elem_of_lookup_2.
  unfold destroy_listener. do 4 wstep. destruct (l_transport x) as [t|] eqn:Ht.
  - destruct (lo_transport _ Hw x t Hx Ht) as [tr Htr]. unfold tupd, tput. do 3 wstep.
    wstep. wstep. wcbn. split_and!; try done.
    2:{ intros u. wcbn. rewrite dom_insert, elem_of_union, elem_of_singleton.
        split; [|by right]. intros [-> |?]; [by apply elem_of_dom|done]. }
    split; wcbn; try done.
    + intros l u [Hl _]%Hd Hu. destruct (decide (t = u)) as [<-|]; [by rewrite lookup_insert_eq|].
      rewrite lookup_insert_ne by done. by eapply lo_transport.
    + intros u tu p. destruct (decide (t = u)) as [<-|Hne].
      * rewrite lookup_insert_eq. intros [= <-]. cbn. rewrite list_elem_of_filter, (lo_registered _ Hw t tr p Htr).
        setoid_rewrite Hd. naive_solver.
      * rewrite lookup_insert_ne by done. intros Hu. rewrite (lo_registered _ Hw u tu p Hu). setoid_rewrite Hd.
        split; [|naive_solver]. intros (l & Hl & Hp & Hlu). exists l. split_and!; try done. intros E.
        assert (l = x) as -> by by eapply l_ptr_inj. congruence.
    + intros l [Hl _]%Hd. by eapply lo_fresh.
    + intros l [Hl _]%Hd. by eapply lo_forward.
  - wstep. wcbn. split_and!; try done. split; wcbn; try done.
    + intros l u [Hl _]%Hd Hu. by eapply lo_transport.
    + intros u tu p Hu. rewrite (lo_registered _ Hw u tu p Hu). setoid_rewrite Hd.
      split; [|naive_solver]. intros (l & Hl & Hp & Hlu). exists l. split_and!; try done. intros E.
      assert (l = x) as -> by by eapply l_ptr_inj. congruence.
    + intros l [Hl _]%Hd. by eapply lo_fresh.
    + intros l [Hl _]%Hd. by eapply lo_forward.
Qed.

Lemma delete_filter (d : ptr) (l : list alistener) i x :
  NoDup (l_ptr <$> l) → list_find (λ y, l_ptr y = d) l = Some (i, x) →
  delete i l = filter (λ y, l_ptr y ≠ d) l.
Proof.
  revert i. induction l as [|y l IH]; intros i Hnd E; [done|].
  apply NoDup_cons in Hnd as [Hy Hnd]. cbn in E. destruct (decide (l_ptr y = d)) as [Hd|Hd].
  - injection E as <- <-. rewrite filter_cons_False by naive_solver. cbn. symmetry. apply filter_true_in.
    intros z Hz Ez. apply Hy. rewrite Hd, <- Ez. by apply list_elem_of_fmap_2.
  - destruct (list_find _ l) as [[j z]|] eqn:Ej; [|done]. cbn in E. injection E as <- <-.
    rewrite filter_cons_True by done. cbn. f_equal. by apply IH.
Qed.

Lemma wp_listener_disconnect F w d (Q : unit → world → Prop) :
  NoDup (l_ptr <$> listener_list w) →
  (∀ c l, Q () (set_log c l (set_listeners (filter (λ y, l_ptr y ≠ d) (listener_list w)) w))) →
  wp F (listener_disconnect d) Q w.
Proof.
  intros Hnd HQ. unfold listener_disconnect. do 2 wstep. destruct (list_find _ _) as [[i x]|] eqn:E.
  - apply delete_filter in E; [|done]. rewrite E. unfold destroy_listener. do 4 wstep. cbn [l_transport set_l_transport].
    wstep. apply HQ.
  - apply list_find_None in E. wstep. replace w with (set_log (clock w) (trace w) (set_listeners (listener_list w) w)) by by destruct w.
    rewrite <- (filter_true_in (λ y, l_ptr y ≠ d) (listener_list w)) at 1; [apply HQ|]. by rewrite <- Forall_forall.
Qed.

Lemma filter_fmap_NoDup (P : alistener → Prop) `{∀ x, Decision (P x)} (l : list alistener) :
  NoDup (l_ptr <$> l) → NoDup (l_ptr <$> filter P l).
Proof. intros Hnd. eapply sublist_NoDup; [exact Hnd|]. apply fmap_sublist, sublist_filter. Qed.

Lemma wp_disconnects_loop F ds : ∀ w (Q : unit → world → Prop),
  NoDup (l_ptr <$> listener_list w) →
  (∀ c l, Q () (set_log c l (set_listeners (filter (λ y, l_ptr y ∉ ds) (listener_list w)) w))) →
  wp F (foldr (λ d k, listener_disconnect d ;; k) (mret ()) ds) Q w.
Proof.
  induction ds as [|d ds IH]; intros w Q Hnd HQ; cbn [foldr].
  - wstep. replace w with (set_log (clock w) (trace w) (set_listeners (listener_list w) w)) by by destruct w.
    rewrite <- (filter_true_in (λ y, l_ptr y ∉ []) (listener_list w)) at 1; [apply HQ|]. set_solver.
  - wstep. apply wp_listener_disconnect; [done|]. intros c l. apply IH; [by apply filter_fmap_NoDup|].
    intros c' l'. wcbn. rewrite list_filter_filter.
    erewrite list_filter_iff; [apply HQ|]. intros y. rewrite not_elem_of_cons. naive_solver.
Qed.

(** Running a transport's callbacks removes its listeners, and no others. *)
Lemma wp_RunDisconnects F w t tr :
  listeners_ok w → transports w !! t = Some tr →
  wp F (RunDisconnects t) (λ _ w', listeners_ok w' ∧
    listener_list w' = filter (λ l, l_transport l ≠ Some t) (listener_list w) ∧
    transports w' = <[t := set_disconnects [] tr]> (transports w) ∧ socks w' = socks w ∧
    local_socket_list w' = local_socket_list w ∧ next_ptr w' = next_ptr w ∧
    ∃ c l, w' = set_log c l (set_transports (transports w') (set_listeners (listener_list w') w))) w.
Proof.
  intros Hw Htr. unfold RunDisconnects. do 3 wstep. apply wp_disconnects_loop; [apply Hw|]. intros c l.
  assert (filter (λ y, l_ptr y ∉ disconnects_ tr) (listener_list w) =
          filter (λ l, l_transport l ≠ Some t) (listener_list w)) as Ef.
  { apply filter_ext_in. intros y Hy. rewrite (lo_registered _ Hw t tr _ Htr). split.
    - intros Hn Ht. apply Hn. by exists y.
    - intros Hn (y' & Hy' & Hp & Ht). assert (y' = y) as -> by by eapply l_ptr_inj. done. }
  unfold tupd, tput. do 2 wstep. wstep. wstep. wstep. wcbn. rewrite Ef.
  assert (∀ l0, l0 ∈ filter (λ l, l_transport l ≠ Some t) (listener_list w) →
    l_transport l0 ≠ Some t ∧ l0 ∈ listener_list w) as Hin by (intros l0; by rewrite list_elem_of_filter).
  split_and!; try done; [|by eexists _, _].
  split; wcbn; [apply filter_fmap_NoDup, Hw| | | |].
  - intros l0 u [? Hl]%Hin Hu. rewrite lookup_insert_ne by congruence. by eapply lo_transport.
  - intros u tu p. destruct (decide (t = u)) as [<-|Hne].
    + rewrite lookup_insert_eq. intros [= <-]. cbn. split; [set_solver|]. intros (l0 & [? _]%Hin & _ & ?). done.
    + rewrite lookup_insert_ne by done. intros Hu. rewrite (lo_registered _ Hw u tu p Hu).
      split; intros (l0 & Hl0 & ? & ?); exists l0.
      * rewrite list_elem_of_filter. split_and!; try done. congruence.
      * apply Hin in Hl0 as [? ?]. done.
  - intros l0 [? Hl]%Hin. by eapply lo_fresh.
  - intros l0 [? Hl]%Hin. by eapply lo_forward.
Qed.

Lemma disconnects_add d tr p : p ∈ disconnects_ (AddDisconnect d tr) ↔ p ∈ disconnects_ tr ∨ p = d.
Proof. cbn. rewrite elem_of_app, list_elem_of_singleton. done. Qed.
Lemma disconnects_remove d tr p : p ∈ disconnects_ (RemoveDisconnect d tr) ↔ p ≠ d ∧ p ∈ disconnects_ tr.
Proof. cbn. by rewrite list_elem_of_filter. Qed.

Lemma insert_listener_in (l : list alistener) i x x' y :
  l !! i = Some x → NoDup (l_ptr <$> l) → l_ptr x' = l_ptr x →
  y ∈ <[i := x']> l ↔ y = x' ∨ (y ∈ l ∧ l_ptr y ≠ l_ptr x).
Proof.
  intros Hi Hnd Hp. pose proof (lookup_lt_Some _ _ _ Hi) as Hlt. rewrite !list_elem_of_lookup. split.
  - intros [j Hj]. destruct (decide (i = j)) as [<-|Hne].
    + rewrite list_lookup_insert_eq in Hj by done. left. congruence.
    + rewrite list_lookup_insert_ne in Hj by done. right. split; [by exists j|]. intros E. apply Hne.
      eapply (NoDup_lookup (l_ptr <$> l)); [done|..]; rewrite list_lookup_fmap; [by rewrite Hi|rewrite Hj; cbn; by rewrite E].
  - intros [-> |[[j Hj] Hne]]; [exists i; by rewrite list_lookup_insert_eq|].
    exists j. rewrite list_lookup_insert_ne; [done|]. intros ->. congruence.
Qed.

Lemma insert_listener_NoDup (l : list alistener) i x x' :
  l !! i = Some x → NoDup (l_ptr <$> l) → l_ptr x' = l_ptr x → NoDup (l_ptr <$> <[i := x']> l).
Proof.
  intros Hi Hnd Hp. rewrite list_fmap_insert, Hp, list_insert_id; [done|]. by rewrite list_lookup_fmap, Hi.
Qed.

(** Rebinding a forward: the new target and the new transport. *)
Lemma rebind_ok w i x c t t0 tr tr0 :
  listeners_ok w → listener_list w !! i = Some x → l_transport x = Some t0 → t0 ≠ t →
  transports w !! t0 = Some tr0 → transports w !! t = Some tr →
  let x' := set_l_transport (Some t) (set_l_connect_to c x) in
  listeners_ok (set_transports (<[t := AddDisconnect (l_ptr x) tr]> (<[t0 := RemoveDisconnect (l_ptr x) tr0]> (transports w)))
    (set_listeners (<[i := x']> (listener_list w)) w)).
Proof.
  intros Hw Hi Ht0 Hne Htr0 Htr x'. assert (x ∈ listener_list w) as Hx by by eapply list_elem_of_lookup_2.
  assert (∀ y, y ∈ <[i := x']> (listener_list w) ↔ y = x' ∨ (y ∈ listener_list w ∧ l_ptr y ≠ l_ptr x)) as Hin.
  { intros y. by eapply insert_listener_in; [done|apply Hw|]. }
  split; wcbn.
  - by eapply insert_listener_NoDup; [done|apply Hw|].
  - intros l u [-> |[Hl _]]%Hin Hu.
    + injection Hu as <-. by rewrite lookup_insert_eq.
    + destruct (decide (t = u)) as [<-|]; [by rewrite lookup_insert_eq|rewrite lookup_insert_ne by done].
      destruct (decide (t0 = u)) as [<-|]; [by rewrite lookup_insert_eq|rewrite lookup_insert_ne by done].
      by eapply lo_transport.
  - intros u tu p. setoid_rewrite Hin. destruct (decide (t = u)) as [<-|Hu].
    + rewrite lookup_insert_eq. intros [= <-]. rewrite disconnects_add, (lo_registered _ Hw t tr p Htr). split.
      * intros [(l & Hl & Hp & Hlt)| ->]; [|by exists x'; naive_solver].
        exists l. split_and!; try done. right. split; [done|]. intros E.
        assert (l = x) as -> by by eapply l_ptr_inj. congruence.
      * intros (l & [-> |[Hl _]] & Hp & Hlt); [by right|left; by exists l].
    + rewrite lookup_insert_ne by done. destruct (decide (t0 = u)) as [<-|Hu0].
      * rewrite lookup_insert_eq. intros [= <-]. rewrite disconnects_remove, (lo_registered _ Hw t0 tr0 p Htr0). split.
        -- intros [Hp (l & Hl & Hlp & Hlt)]. exists l. split_and!; try done. right. split; [done|]. congruence.
        -- intros (l & [-> |[Hl Hlx]] & Hp & Hlt); [cbn in Hlt; congruence|]. split; [congruence|]. by exists l.
      * rewrite lookup_insert_ne by done. intros Htu. rewrite (lo_registered _ Hw u tu p Htu). split.
        -- intros (l & Hl & Hp & Hlt). exists l. split_and!; try done. right. split; [done|]. intros E.
           assert (l = x) as -> by by eapply l_ptr_inj. congruence.
        -- intros (l & [-> |[Hl _]] & Hp & Hlt); [cbn in Hlt; congruence|by exists l].
  - intros l [-> |[Hl _]]%Hin; [exact (lo_fresh _ Hw x Hx)|by eapply lo_fresh].
  - intros l [-> |[Hl _]]%Hin; [done|by eapply lo_forward].
Qed.

(** Only the target of a listener changes. *)
Lemma retarget_ok w i x c :
  listeners_ok w → listener_list w !! i = Some x → is_Some (l_transport x) →
  listeners_ok (set_listeners (<[i := set_l_connect_to c x]> (listener_list w)) w).
Proof.
  intros Hw Hi Ht. assert (x ∈ listener_list w) as Hx by by eapply list_elem_of_lookup_2. set (x' := set_l_connect_to c x).
  assert (∀ y, y ∈ <[i := x']> (listener_list w) ↔ y = x' ∨ (y ∈ listener_list w ∧ l_ptr y ≠ l_ptr x)) as Hin.
  { intros y. by eapply insert_listener_in; [done|apply Hw|]. }
  split; wcbn.
  - by eapply insert_listener_NoDup; [done|apply Hw|].
  - intros l u [-> |[Hl _]]%Hin Hu; [exact (lo_transport _ Hw x u Hx Hu)|by eapply lo_transport].
  - intros u tu p Hu. rewrite (lo_registered _ Hw u tu p Hu). setoid_rewrite Hin. split.
    + intros (l & Hl & Hp & Hlt). destruct (decide (l_ptr l = l_ptr x)) as [E|]; [|exists l; naive_solver].
      assert (l = x) as -> by by eapply l_ptr_inj. exists x'. naive_solver.
    + intros (l & [-> |[Hl _]] & Hp & Hlt); [by exists x|by exists l].
  - intros l [-> |[Hl _]]%Hin; [exact (lo_fresh _ Hw x Hx)|by eapply lo_fresh].
  - intros l [-> |[Hl _]]%Hin; [done|by eapply lo_forward].
Qed.

Lemma listen_plan_total g spec : ∃ r, listen_plan g spec = Ok r.
Proof.
  unfold listen_plan. change (txt ":") with [x3a]. rewrite Split_ref by done. rok.
  repeat case_match; by eexists.
Qed.

(** A new listener of transport [t]. *)
Lemma append_listener_ok w t tr l :
  listeners_ok w → transports w !! t = Some tr → l_ptr l = next_ptr w → l_transport l = Some t →
  listeners_ok (set_listeners (listener_list w ++ [l])
    (set_transports (<[t := AddDisconnect (next_ptr w) tr]> (transports w)) (set_next_ptr (Pos.succ (next_ptr w)) w))).
Proof.
  intros Hw Htr Hp Ht. split; wcbn.
  - rewrite fmap_app, NoDup_app. split_and!; [apply Hw| |apply NoDup_singleton].
    intros p (l' & -> & Hl')%list_elem_of_fmap Hin. cbn in Hin. apply list_elem_of_singleton in Hin.
    pose proof (lo_fresh _ Hw l' Hl'). lia.
  - intros l' u [Hl'| ->%list_elem_of_singleton]%elem_of_app Hu.
    + destruct (decide (t = u)) as [<-|]; [by rewrite lookup_insert_eq|rewrite lookup_insert_ne by done].
      by eapply lo_transport.
    + simplify_eq. by rewrite lookup_insert_eq.
  - intros u tu p. setoid_rewrite elem_of_app. setoid_rewrite list_elem_of_singleton.
    destruct (decide (t = u)) as [<-|Hu].
    + rewrite lookup_insert_eq. intros [= <-]. rewrite disconnects_add, (lo_registered _ Hw t tr p Htr). split.
      * intros [(l' & ? & ? & ?)| ->]; [exists l'; naive_solver|exists l; naive_solver].
      * intros (l' & [?| ->] & ? & ?); [left; by exists l'|right; congruence].
    + rewrite lookup_insert_ne by done. intros Htu. rewrite (lo_registered _ Hw u tu p Htu). split.
      * intros (l' & ? & ? & ?). exists l'. naive_solver.
      * intros (l' & [?| ->] & ? & ?); [by exists l'|congruence].
  - intros l' [Hl'| ->%list_elem_of_singleton]%elem_of_app; [|rewrite Hp; lia].
    pose proof (lo_fresh _ Hw l' Hl'). lia.
  - intros l' [Hl'| ->%list_elem_of_singleton]%elem_of_app; [by eapply lo_forward|by rewrite Ht].
Qed.

Lemma listeners_ok_log w c l : listeners_ok w → listeners_ok (set_log c l w).
Proof. intros [? ? ? ? ?]. by split. Qed.

Lemma wp_install_listener F w g name c t tr flags :
  listeners_ok w → transports w !! t = Some tr →
  wp F (install_listener g name c (Some t) flags) (λ r w',
    listeners_ok w' ∧
    match r.1.1 with
    | INSTALL_STATUS_OK => ∃ l, l ∈ listener_list w' ∧ connect_to l = c ∧ l_transport l = Some t ∧
        local_name l = if r.1.2 =? 0 then name else txt "tcp:" ++ dec r.1.2
    | _ => listener_list w' = listener_list w
    end) w.
Proof.
  intros Hw Htr. unfold install_listener. do 2 wstep.
  destruct (list_find _ _) as [[i x]|] eqn:E.
  - apply list_find_Some in E as (Hi & Hn & _). assert (x ∈ listener_list w) as Hx by by eapply list_elem_of_lookup_2.
    destruct (isSmartSocket x) eqn:Esm; [by wstep|]. destruct (negb _); [by wstep|].
    destruct (lo_forward _ Hw x Hx Esm) as [t0 Ht0]. do 3 wstep. wcbn.
    pose proof (lookup_lt_Some _ _ _ Hi) as Hlt. case_bool_decide as Ht.
    + repeat wstep. cbn. split; [eapply retarget_ok; [done..|by rewrite Ht]|].
      exists (set_l_connect_to c x). split_and!; try done. apply list_elem_of_insert. done.
    + assert (t0 ≠ t) as Hne by congruence. destruct (lo_transport _ Hw x t0 Hx Ht0) as [tr0 Htr0].
      rewrite Ht0. unfold tupd, tput. cbn [deref]. repeat wstep. eapply (wp_tget t tr).
      { wcbn. by rewrite lookup_insert_ne. }
      repeat wstep. wcbn. cbn [fst snd]. split; [exact (rebind_ok w i x c t t0 tr tr0 Hw Hi Ht0 Hne Htr0 Htr)|].
      exists (set_l_transport (Some t) (set_l_connect_to c x)). split_and!; try done. by apply list_elem_of_insert.
  - unfold socket_spec_listen. destruct (listen_plan_total g name) as [plan Hp]. do 2 wstep.
    eapply wp_lift; [exact Hp|]. destruct plan as [e|target]; [do 2 wstep; by cbn|].
    do 3 wstep. destruct (os_listen _ _) as [e|[fd resolved]]; [wstep; cbn; split; [by apply listeners_ok_log|done]|].
    unfold tupd, tput. repeat wstep. wcbn. cbn [fst snd].
    split; [|eexists; split; [apply elem_of_app; right; apply list_elem_of_singleton; reflexivity|done]].
    apply (listeners_ok_log _ (S (clock w)) (trace w ++ [EvListen target])) in Hw.
    by apply (append_listener_ok _ t tr (mkListener (next_ptr w) fd _ _ c (Some t)) Hw).
Qed.
End listener_ops.

(** ** Claims *)

Section claims.
Context `{OS} `{Uninit}.

(** Installing a forward keeps the registration invariant (each transport's disconnect
    callbacks are exactly its listeners, no two listeners share an address, every forward has
    a live transport); on success there is a listener with the requested target and transport,
    under the requested name or, when the system resolved a tcp port, under [tcp:port]; on
    failure the list is unchanged. *)
Theorem install_listener_registers w g name c t tr flags :
  listeners_ok w → transports w !! t = Some tr →
  wp False (install_listener g name c (Some t) flags) (λ r w',
    listeners_ok w' ∧
    match r.1.1 with
    | INSTALL_STATUS_OK => ∃ l, l ∈ listener_list w' ∧ connect_to l = c ∧ l_transport l = Some t ∧
        local_name l = if r.1.2 =? 0 then name else txt "tcp:" ++ dec r.1.2
    | _ => listener_list w' = listener_list w
    end) w.
Proof. apply wp_install_listener. Qed.

(** When a transport disconnects, its callbacks remove exactly its own listeners: every
    other listener stays, in order, and the transport has no callback left. *)
Theorem RunDisconnects_removes_own w t tr :
  listeners_ok w → transports w !! t = Some tr →
  wp False (RunDisconnects t) (λ _ w', listeners_ok w' ∧
    listener_list w' = filter (λ l, l_transport l ≠ Some t) (listener_list w) ∧
    transports w' = <[t := set_disconnects [] tr]> (transports w) ∧ socks w' = socks w) w.
Proof.
  intros Hw Htr. eapply wp_mono; [by eapply wp_RunDisconnects|]. intros _ w' (? & ? & ? & ? & _). done.
Qed.

(** [remove_listener] removes the first listener of that name, whatever it is: unlike
    [remove_all_listeners], it also removes the smart socket, and it ignores which transport
    the request was made for. *)
Theorem remove_listener_first w name :
  listeners_ok w →
  wp False (remove_listener name) (λ r w', listeners_ok w' ∧
    match list_find (λ x, local_name x = name) (listener_list w) with
    | None => r = INSTALL_STATUS_LISTENER_NOT_FOUND ∧ listener_list w' = listener_list w
    | Some (_, x) => r = INSTALL_STATUS_OK ∧
        ∀ l, l ∈ listener_list w' ↔ l ∈ listener_list w ∧ l_ptr l ≠ l_ptr x
    end) w.
Proof.
  intros Hw. unfold remove_listener. do 2 wstep. destruct (list_find _ _) as [[i x]|] eqn:E; [|by wstep].
  apply list_find_Some in E as (Hi & _). pose proof (wp_remove_at False w i x Hw Hi) as D.
  apply wp_bind_inv in D. wstep. eapply wp_mono; [exact D|]. clear D. intros [] w1 D.
  wstep. eapply wp_mono; [exact D|]. intros [] w2 (? & ? & _). by wstep.
Qed.
End claims.

(** ** Witnesses *)

Lemma listeners_ok_one : listeners_ok one_transport.
Proof.
  split; cbn; try (intros; set_solver).
  - constructor.
  - intros t tr p Ht. apply lookup_singleton_Some in Ht as [<- <-]. cbn. set_solver.
Qed.

(** One transport and its forward. *)
Definition one_forward : world :=
  set_listeners [mkListener 2 50 FDE_READ (txt "tcp:8080") (txt "tcp:80") (Some 1%positive)]
    (set_next_ptr 3 (set_transports {[1%positive := AddDisconnect 2 (online_transport 1 (txt "dev"))]} one_transport)).

Lemma listeners_ok_forward : listeners_ok one_forward.
Proof.
  split; cbn.
  - apply NoDup_singleton.
  - intros l t ->%list_elem_of_singleton [= <-]. by rewrite lookup_singleton_eq.
  - intros t tr p Ht. apply lookup_singleton_Some in Ht as [<- <-]. cbn. rewrite list_elem_of_singleton. split.
    + intros ->. eexists. split; [by apply list_elem_of_singleton|done].
    + intros (l & ->%list_elem_of_singleton & <- & _). done.
  - intros l ->%list_elem_of_singleton. done.
  - intros l ->%list_elem_of_singleton _. done.
Qed.

Lemma install_listener_registers_witness :
  ∃ w', @install_listener quiet_os false (txt "tcp:8080") (txt "tcp:80") (Some 1%positive) 0 one_transport =
    Ok (INSTALL_STATUS_OK, 8080, [], w') ∧ listeners_ok w'.
Proof.
  pose proof (@install_listener_registers quiet_os one_transport false (txt "tcp:8080") (txt "tcp:80") 1
    (online_transport 1 (txt "dev")) 0 listeners_ok_one (lookup_singleton_eq _ _)) as E.
  unfold wp in E.
  destruct (@install_listener quiet_os false (txt "tcp:8080") (txt "tcp:80") (Some 1%positive) 0 one_transport)
    as [[r w']| | | |] eqn:R; try contradiction.
  exists w'. split; [|exact (proj1 E)]. vm_compute in R. injection R as <- <-. reflexivity.
Defined.

Lemma RunDisconnects_removes_own_witness :
  ∃ w', RunDisconnects 1 one_forward = Ok ((), w') ∧ listener_list w' = [].
Proof.
  pose proof (RunDisconnects_removes_own one_forward 1 _ listeners_ok_forward (lookup_singleton_eq _ _)) as E.
  unfold wp in E. destruct (RunDisconnects 1 one_forward) as [[[] w']| | | |]; try contradiction.
  exists w'. split; [reflexivity|]. destruct E as (_ & E & _). rewrite E. reflexivity.
Defined.

(** Stopping the forward [tcp:5037] stops the server's own socket. *)
Definition smart_listener : world :=
  set_listeners [mkListener 2 50 FDE_READ (txt "tcp:5037") kSmartSocketConnectTo None] (set_next_ptr 3 one_transport).

Lemma listeners_ok_smart : listeners_ok smart_listener.
Proof.
  split; cbn.
  - apply NoDup_singleton.
  - by intros l t ->%list_elem_of_singleton [=].
  - intros t tr p Ht. apply lookup_singleton_Some in Ht as [<- <-]. cbn. split; [set_solver|].
    intros (l & ->%list_elem_of_singleton & _ & [=]).
  - intros l ->%list_elem_of_singleton. done.
  - intros l ->%list_elem_of_singleton [=].
Qed.

Lemma remove_listener_first_witness :
  ∃ w', remove_listener (txt "tcp:5037") smart_listener = Ok (INSTALL_STATUS_OK, w') ∧
    ∀ l, l ∉ listener_list w'.
Proof.
  pose proof (remove_listener_first smart_listener (txt "tcp:5037") listeners_ok_smart) as E.
  unfold wp in E. destruct (remove_listener (txt "tcp:5037") smart_listener) as [[r w']| | | |]; try contradiction.
  exists w'. destruct E as (_ & E). cbn in E. destruct E as [-> E]. split; [reflexivity|].
  intros l Hl. apply E in Hl as [Hl%list_elem_of_singleton Hne]. subst l. contradiction.
Defined.
