(* ===== verification/Adb.v ===== *)
(** * Packets from a device

    Models the packet handling of adb/adb.cpp with the functions of adb/transport.cpp and
    adb/client/auth.cpp it calls: connection and authentication, opening, acknowledging,
    closing and writing streams, and what happens when a transport goes away.

    [smart] is the smart socket's [enqueue] function (a request of a local client), which a
    packet can only reach through a device tracker's client.  The RSA operations are the
    interface [Auth]. *)

From S2P Require Import Prelude Types TransportFd Strings SocketSpec Transport World Sockets Listeners.

(** ** Keys (adb/adb_auth.h) *)

Definition ADB_AUTH_TOKEN : Z := 1.
Definition ADB_AUTH_SIGNATURE : Z := 2.
Definition ADB_AUTH_RSAPUBLICKEY : Z := 3.
Definition TOKEN_SIZE : Z := 20.

Class Auth := {
  g_keys : list bytes;                 (** the private keys, in the order of the key map *)
  rsa_sign : bytes → bytes → bytes;    (** [RSA_sign] with a key: empty when it fails *)
  user_pubkey : bytes                  (** [adb_auth_get_userkey()] *)
}.

(** A signature is as long as the key's modulus. *)
Class AuthLaws `{Auth} := { rsa_sign_len : ∀ key token, llen (rsa_sign key token) ≤ MAX_PAYLOAD_V1 }.

Definition adb_auth_sign `{Auth} (key token : bytes) : bytes :=
  if llen token =? TOKEN_SIZE then rsa_sign key token else [].

Section adb.
Context `{OS} `{Uninit} `{Host} `{Protobuf} `{Auth}.
Context (smart : ptr → Block → M Z).

Definition enq : ptr → Block → M Z := call_enqueue smart.

(** ** Notifying about transports *)

Definition update_transport_status : M unit :=
  tl ← gets transport_list;
  pl ← gets pending_list;
  ts ← list_transport_objects (tl ++ pl);
  let result := forallb (λ p, negb (bool_decide (type p.2 = kTransportUsb) && negb (online p.2))) ts in
  modify (set_ready_flag result) ;;
  scan ← gets device_scan_complete;
  if result && scan then _ ← emit EvWake; mret () else mret ().

(** The element behind [p] in the tracker list. *)
Fixpoint next_tracker (p : ptr) (l : list ptr) : option ptr :=
  match l with
  | [] => None
  | q :: l => if bool_decide (p = q) then head l else next_tracker p l
  end.

(** [next] is read before the tracker may be destroyed. *)
Fixpoint notify_trackers (fuel : nat) (cur : option ptr) : M unit :=
  match cur with
  | None => mret ()
  | Some p =>
      match fuel with
      | O => lift NoFuel
      | S fuel =>
          next ← gets (λ w, next_tracker p (device_tracker_list w));
          s ← sget p;
          let output_type := match tracker s with Some (_, o) => o | None => SHORT_TEXT end in
          listing ← current_listing output_type;
          _ ← device_tracker_send enq p listing;
          notify_trackers fuel next
      end
  end.

Definition update_transports : M unit :=
  update_transport_status ;;
  l ← gets device_tracker_list;
  notify_trackers (length l) (head l).

Definition SetConnectionState (t : ptr) (state : ConnectionState) : M unit :=
  tupd t (λ tr, Ok (set_connection_state state tr)) ;;
  update_transports.

(** ** A transport comes and goes *)

Definition handle_online (t : ptr) : M unit :=
  tupd t (λ tr, Ok (SetConnectionEstablished true (set_online true tr))).

Definition handle_offline (t : ptr) : M unit :=
  tr ← tget t;
  if bool_decide (connection_state_ tr = kCsOffline) then mret ()
  else
    SetConnectionState t kCsOffline ;;
    tupd t (λ tr, Ok (set_online false tr)) ;;
    close_all_sockets t ;;
    RunDisconnects t.

Definition adb_parse_banner (banner : bytes) (t : ptr) : M unit :=
  tr ← tget t;
  '(state, tr') ← lift (parse_banner banner tr);
  tput t tr' ;;
  SetConnectionState t state.

Definition handle_new_connection (t : ptr) (p : apacket) : M unit :=
  handle_offline t ;;
  tupd t (λ tr, Ok (update_version (s32 (arg0 (msg p))) (arg1 (msg p)) tr)) ;;
  adb_parse_banner (contents (payload p)) t ;;
  handle_online t.

(** ** Authentication *)

Definition send_tls_request (t : ptr) : M unit := send_packet (bare_packet A_STLS A_STLS_VERSION 0) t.

Definition send_connect (t : ptr) : M unit :=
  tr ← tget t;
  lift (check (llen get_connection_string <=? MAX_PAYLOAD_V1)) ;;
  payload ← lift (block_of_range get_connection_string);
  send_packet (mkPacket (mkMsg A_CNXN A_VERSION (u32 (max_payload tr)) (size_ payload) 0 0) payload) t.

Definition send_auth_publickey (t : ptr) : M unit :=
  match user_pubkey with
  | [] => mret ()
  | key =>
      if MAX_PAYLOAD_V1 <=? llen key then mret () else
      payload ← lift (block_of_range (key ++ [x00]));
      send_packet (mkPacket (mkMsg A_AUTH ADB_AUTH_RSAPUBLICKEY 0 (size_ payload) 0 0) payload) t
  end.

Definition send_auth_response (token : bytes) (t : ptr) : M unit :=
  tr ← tget t;
  '(key, tr') ← lift (NextKey g_keys tr);
  tput t tr' ;;
  match key with
  | None =>
      SetConnectionState t kCsUnauthorized ;;
      tupd t (λ tr, Ok (SetConnectionEstablished true tr)) ;;
      send_auth_publickey t
  | Some k =>
      match adb_auth_sign k token with
      | [] => mret ()
      | result =>
          payload ← lift (block_of_range result);
          send_packet (mkPacket (mkMsg A_AUTH ADB_AUTH_SIGNATURE 0 (u32 (size_ payload)) 0 0) payload) t
      end
  end.

(** The handshake runs in a thread of its own. *)
Definition adb_auth_tls_handshake (t : ptr) : M unit := _ ← emit (EvThread (txt "tls")); mret ().

(** ** Streams *)

(** [std::string(p)] for a pointer to the start of a block's buffer: it is read up to the
    first NUL, and past the end of the buffer when it has none. *)
Definition cstring_of_block (b : Block) : res bytes :=
  match data_ b with
  | None => Undef
  | Some d => if bool_decide (x00 ∈ d) then Ok (c_str d) else Undef
  end.

(** [service_to_fd]: only socket specifications are services of the host. *)
Definition service_to_fd (name : bytes) : M (option Z) :=
  if is_socket_spec name then
    plan ← lift (connect_plan name None);
    match plan with
    | inl _ => mret None
    | inr (target, _) => n ← emit (EvConnect target); mret (os_connect n target)
    end
  else mret None.

Definition handle_open (p : apacket) (t : ptr) : M unit :=
  tr ← tget t;
  if negb (online tr) || (arg0 (msg p) =? 0) then mret () else
  let send_bytes := arg1 (msg p) in
  if negb (Bool.eqb (delayed_ack_ tr) (negb (send_bytes =? 0))) then send_close 0 (arg0 (msg p)) t else
  let address := StripTrailingNulls (contents (payload p)) in
  checked ← lift (cstring_of_block (payload p));
  lift (check (IsReverseConfigured checked tr)) ;;
  fd ← service_to_fd address;
  r ← create_local_service_socket fd t;
  match r with
  | None => send_close 0 (arg0 (msg p)) t
  | Some s =>
      q ← create_remote_socket (arg0 (msg p)) t;
      supd s (set_peer (Some q)) ;;
      supd q (set_peer (Some s)) ;;
      tr ← tget t;
      so ← sget s;
      (if delayed_ack_ tr then
         supd s (set_available (Some send_bytes)) ;;
         window ← gets g_delayed_ack_bytes;
         send_ready (s_id so) (arg0 (msg p)) t (u32 window)
       else send_ready (s_id so) (arg0 (msg p)) t 0) ;;
      call_ready enq s
  end.

(** The acknowledged bytes of an A_OKAY: [None] for a payload of the wrong size. *)
Definition acked_bytes (p : apacket) : option (option Z) :=
  if size_ (payload p) =? 4 then (λ v, Some (s32 v)) <$> of_le32 (contents (payload p))
  else if size_ (payload p) =? 0 then Some None else None.

Definition handle_okay (p : apacket) (t : ptr) : M unit :=
  tr ← tget t;
  if negb (online tr && negb (arg0 (msg p) =? 0) && negb (arg1 (msg p) =? 0)) then mret () else
  r ← find_local_socket (arg1 (msg p)) 0;
  match r with
  | None => send_close (arg1 (msg p)) (arg0 (msg p)) t
  | Some s =>
      match acked_bytes p with
      | None => mret ()
      | Some acked =>
          so ← sget s;
          match peer so with
          | None =>
              q ← create_remote_socket (arg0 (msg p)) t;
              supd s (set_peer (Some q)) ;;
              supd q (set_peer (Some s)) ;;
              local_socket_ack enq s acked ;;
              call_ready enq s
          | Some q =>
              sq ← sget q;
              if s_id sq =? arg0 (msg p) then local_socket_ack enq s acked else mret ()
          end
      end
  end.

Definition handle_clse (p : apacket) (t : ptr) : M unit :=
  tr ← tget t;
  if negb (online tr && negb (arg1 (msg p) =? 0)) then mret () else
  r ← find_local_socket (arg1 (msg p)) (arg0 (msg p));
  match r with
  | None => mret ()
  | Some s =>
      so ← sget s;
      other ← (match peer so with
               | Some q =>
                   if arg0 (msg p) =? 0 then
                     sq ← sget q; mret (negb (bool_decide (transport sq = Some t)))
                   else mret false
               | None => mret false
               end);
      if other : bool then mret () else socket_close s
  end.

Definition handle_wrte (p : apacket) (t : ptr) : M unit :=
  tr ← tget t;
  if negb (online tr && negb (arg0 (msg p) =? 0) && negb (arg1 (msg p) =? 0)) then mret () else
  r ← find_local_socket (arg1 (msg p)) (arg0 (msg p));
  match r with
  | None => mret ()
  | Some s => _ ← enq s (payload p); mret ()
  end.

Definition handle_auth (p : apacket) (t : ptr) : M unit :=
  tr ← tget t;
  if use_tls tr then mret ()
  else if arg0 (msg p) =? ADB_AUTH_TOKEN then
    (if bool_decide (connection_state_ tr = kCsAuthorizing) then mret () else SetConnectionState t kCsAuthorizing) ;;
    token ← lift (block_read (payload p) 0 (data_length (msg p)));
    send_auth_response token t
  else
    SetConnectionState t kCsOffline ;;
    handle_offline t.

Definition handle_packet (p : apacket) (t : ptr) : M unit :=
  lift (check (size_ (payload p) =? data_length (msg p))) ;;
  let c := command (msg p) in
  if c =? A_CNXN then handle_new_connection t p
  else if c =? A_STLS then
    tupd t (λ tr, Ok (set_use_tls true tr)) ;;
    send_tls_request t ;;
    adb_auth_tls_handshake t
  else if c =? A_AUTH then handle_auth p t
  else if c =? A_OPEN then handle_open p t
  else if c =? A_OKAY then handle_okay p t
  else if c =? A_CLSE then handle_clse p t
  else if c =? A_WRTE then handle_wrte p t
  else mret ().

(** ** Registering and removing transports (adb/transport.cpp) *)

(** [fdevent_unregister_transport]: the transport object is deleted. *)
Definition fdevent_unregister_transport (t : ptr) : M unit :=
  _ ← tget t;
  modify (λ w, set_transport_lists (filter (λ x, x ≠ t) (transport_list w)) (pending_list w) w) ;;
  modify (λ w, set_transports (delete t (transports w)) w) ;;
  update_transports.

(** [transport_destroy]: a tcp transport that was not kicked goes to the reconnect handler
    (result true), any other is passed to [remove_transport] (result false). *)
Definition transport_destroy (t : ptr) : M bool :=
  tr ← tget t;
  c ← lift (deref (connection_ tr));
  tupd t (λ tr, Ok (set_connection (Some (mkConnStatus true (conn_reset c))) tr)) ;;
  if IsTcpDevice tr && negb (kicked_ tr) then
    tupd t (λ tr, Ok (ResetKeys tr)) ;; mret true
  else mret false.

(** The task that [HandleError] puts on the looper.  When the result is false,
    [remove_transport] has put a second task behind it, [fdevent_unregister_transport t],
    and the looper may run other tasks and events before it reaches that one. *)
Definition HandleError (t : ptr) : M bool :=
  handle_offline t ;;
  transport_destroy t.

(** [HandleRead] of a packet whose header is valid. *)
Definition HandleRead (p : apacket) (t : ptr) : M bool :=
  tr ← tget t;
  if check_header p tr then handle_packet p t ;; mret true else mret false.
End adb.
