(* ===== verification/AdbInv.v ===== *)
(** * The server's invariant, and packets

    [server_ok] is the invariant of the whole state between two events of the looper:
    the socket invariant [wf], the listeners' registration invariant [listeners_ok], and
    that the transport lists name live transports.  The theorems show that every packet a
    device can send keeps it, that tearing a transport down leaves nothing in use that
    names it, and where the code falls short of that. *)

From S2P Require Import Prelude Types TransportFd Strings SocketSpec Transport World Sockets SocketInv Listeners Adb.

(** No client tracks devices: the sends to trackers are not part of these theorems. *)
Record server_ok (w : world) : Prop := {
  sv_wf : wf w;
  sv_listeners : listeners_ok w;
  sv_lists t : t ∈ transport_list w ++ pending_list w → is_Some (transports w !! t);
  sv_untracked : device_tracker_list w = []
}.

(** ** Changes of transports *)

(** The new transport still has a connection, a payload limit and the same callbacks. *)
Definition core (tr tr' : atransport) : Prop :=
  (is_Some (connection_ tr) → is_Some (connection_ tr')) ∧ (0 ≤ max_payload tr → 0 ≤ max_payload tr') ∧
  disconnects_ tr' = disconnects_ tr.

#[global] Instance core_refl : Reflexive core.
Proof. by intros tr. Qed.
#[global] Instance core_trans : Transitive core.
Proof. intros a b c (? & ? & ?) (? & ? & ?). split_and!; [auto..|congruence]. Qed.

Lemma tr_like_core tr tr' : tr_like tr tr' → core tr tr'.
Proof.
  intros [E Hc]. split_and!; [done|..].
  - apply (f_equal max_payload) in E. cbn in E. lia.
  - by apply (f_equal disconnects_) in E.
Qed.

Lemma wfx_transports X w T :
  wfx X w → (∀ p s t, socks w !! p = Some s → ¬ retiring s → transport s = Some t → is_Some (T !! t)) →
  (∀ t tr, T !! t = Some tr → tr_ok tr) → wfx X (set_transports T w).
Proof. intros [] HT Hok. by split. Qed.

Lemma listeners_ok_core w w' :
  listeners_ok w → listener_list w' = listener_list w → (next_ptr w ≤ next_ptr w')%positive →
  (∀ t, option_Forall2 core (transports w !! t) (transports w' !! t)) → listeners_ok w'.
Proof.
  intros [Hnd Ht Hr Hf Hfw] El Hn HT. split; rewrite ?El; try done.
  - intros l t Hl Hlt. destruct (Ht l t Hl Hlt) as [tr Htr]. specialize (HT t). rewrite Htr in HT.
    by inversion HT as [? ? _ E|].
  - intros t tr' p Htr'. rewrite ?El. specialize (HT t). rewrite Htr' in HT. inversion HT as [tr ? (_ & _ & Hd) E|].
    subst. rewrite Hd. by apply Hr.
  - intros l Hl. specialize (Hf l Hl). lia.
Qed.

(** A step of the sockets. *)
Lemma server_ok_frame w w' :
  server_ok w → wf w' → frame w w' → (next_ptr w ≤ next_ptr w')%positive →
  (∀ t, option_Forall2 core (transports w !! t) (transports w' !! t)) → server_ok w'.
Proof.
  intros [Hw Hl Ht Hn] Hw' [E1 E2 E3 E4 _] Hp HT. split; try done.
  - by eapply listeners_ok_core.
  - intros t. rewrite E1, E2. intros [tr Htr]%Ht. specialize (HT t). rewrite Htr in HT. by inversion HT as [? ? _ E|].
  - rewrite Hn in E4. destruct (device_tracker_list w') as [|x l]; [done|]. by specialize (E4 x (list_elem_of_here _ _)) as ?%elem_of_nil.
Qed.

Lemma core_all w w' : (∀ t, option_Forall2 tr_like (transports w !! t) (transports w' !! t)) →
  ∀ t, option_Forall2 core (transports w !! t) (transports w' !! t).
Proof. intros HT t. destruct (HT t); constructor. by apply tr_like_core. Qed.

Lemma server_ok_touched w w' p : server_ok w → wf w' → touched p w w' → server_ok w'.
Proof.
  intros Hs Hw' [_ Ht _ [Hn _] Hf]. eapply server_ok_frame; try done; [lia|by apply core_all].
Qed.
Lemma server_ok_closed w w' p o : server_ok w → wf w' → closed_pair p o w w' → server_ok w'.
Proof.
  intros Hs Hw' [_ Ht _ [Hn _] _ Hf]. eapply server_ok_frame; try done; [lia|by apply core_all].
Qed.
Lemma server_ok_sent w w' : server_ok w → sent w w' → server_ok w'.
Proof.
  intros Hs Hsent. eapply (server_ok_touched w w' 1); [done| |by apply sent_touched]. by eapply wfx_sent; [apply Hs|].
Qed.

Lemma server_ok_tput w t tr tr' :
  server_ok w → transports w !! t = Some tr → core tr tr' →
  server_ok (set_transports (<[t := tr']> (transports w)) w).
Proof.
  intros Hs Htr Hc.
  assert (∀ u, option_Forall2 core (transports w !! u) (<[t := tr']> (transports w) !! u)) as HT.
  { intros u. destruct (decide (t = u)) as [<-|]; [rewrite lookup_insert_eq, Htr; by constructor|by rewrite lookup_insert_ne]. }
  eapply server_ok_frame; [done| |by split|done|exact HT].
  apply wfx_transports; [apply Hs|..].
  - intros p s u ? ? ?. destruct (wf_transport _ _ (sv_wf _ Hs) p s u) as [tu Htu]; [done..|].
    specialize (HT u). rewrite Htu in HT. by inversion HT as [? ? _ E|].
  - intros u tu Hu. specialize (HT u). rewrite Hu in HT. inversion HT as [tu0 ? (Hc1 & Hc2 & _) E|]. subst.
    destruct (wf_conn _ _ (sv_wf _ Hs) u tu0) as [? ?]; [done|]. split; auto.
Qed.

Lemma server_ok_log w c l : server_ok w → server_ok (set_log c l w).
Proof. intros Hs. eapply server_ok_sent; [done|apply sent_log]. Qed.
Lemma server_ok_flag w b : server_ok w → server_ok (set_ready_flag b w).
Proof. intros [[] [] ? ?]. split; [by split|by split|done..]. Qed.

Lemma wp_tupd F t tr f tr' (Q : unit → world → Prop) w :
  transports w !! t = Some tr → f tr = Ok tr' →
  Q () (set_transports (<[t := tr']> (transports w)) w) → wp F (tupd t f) Q w.
Proof. intros Htr Hf HQ. unfold tupd, tput. do 2 wstep. wstep. eapply wp_lift; [exact Hf|]. by wstep. Qed.

(** A socket whose transport is gone cannot be read from. *)
Lemma event_without_transport `{OS} `{Uninit} enq w q s t :
  socks w !! q = Some s → transport s = Some t → transports w !! t = None →
  local_socket_event_func enq FDE_READ q w = Undef.
Proof.
  intros Hq Ht Hd. assert (get_max_payload q w = Undef) as E.
  { unfold get_max_payload, mbind, M_bind at 1, sget at 1. rewrite Hq, Ht. cbv beta iota.
    unfold M_bind at 1, M_bind at 1, tget at 1. by rewrite Hd. }
  unfold local_socket_event_func, local_socket_flush_outgoing. change (Z.land FDE_READ FDE_WRITE) with 0.
  change (Z.land FDE_READ FDE_READ) with 1. cbn [Z.eqb negb]. unfold mbind, M_bind, mret, M_ret. cbv beta iota.
  by rewrite E.
Qed.

Section server.
Context `{OS} `{!OSLaws} `{Uninit} `{Host} `{Protobuf} `{Auth}.
Context (smart : ptr → Block → M Z).

(** ** Notifying *)

Lemma wp_list_transport_objects F w l (Q : list (ptr * atransport) → world → Prop) :
  (∀ t, t ∈ l → is_Some (transports w !! t)) → (∀ ts, Q ts w) → wp F (list_transport_objects l) Q w.
Proof.
  intros Hl HQ. unfold wp, list_transport_objects.
  destruct (mapM_is_Some_2 (λ t, tr ← transports w !! t; Some (t, tr)) l) as [ts ->]; [|apply HQ].
  apply Forall_forall. intros t [tr Ht]%Hl. cbn. by rewrite Ht.
Qed.

Lemma wp_update_transports_listed F w (Q : unit → world → Prop) :
  (∀ t, t ∈ transport_list w ++ pending_list w → is_Some (transports w !! t)) → device_tracker_list w = [] →
  (∀ b c l, Q () (set_log c l (set_ready_flag b w))) → wp F (update_transports smart) Q w.
Proof.
  intros Hl Hun HQ. unfold update_transports, update_transport_status. do 6 wstep.
  apply wp_list_transport_objects; [apply Hl|]. intros ts. set (b := forallb _ ts). do 3 wstep. wstep.
  assert (∀ c l, wp F (l0 ← gets device_tracker_list; notify_trackers smart (length l0) (head l0)) Q
    (set_log c l (set_ready_flag b w))) as Hend.
  { intros c l. do 2 wstep. wcbn. rewrite Hun. cbn [length head notify_trackers]. wstep. apply HQ. }
  destruct (b && _).
  - do 4 wstep. apply Hend.
  - wstep. specialize (Hend (clock w) (trace w)). by destruct w.
Qed.

Lemma wp_update_transports F w (Q : unit → world → Prop) :
  server_ok w → (∀ b c l, Q () (set_log c l (set_ready_flag b w))) → wp F (update_transports smart) Q w.
Proof. intros Hs. apply wp_update_transports_listed; apply Hs. Qed.

(** The transport was replaced by one that [core] allows, and someone was told. *)
Lemma wp_SetConnectionState F w t tr state (Q : unit → world → Prop) :
  server_ok w → transports w !! t = Some tr →
  (∀ b c l, let w' := set_log c l (set_ready_flag b
     (set_transports (<[t := set_connection_state state tr]> (transports w)) w)) in server_ok w' → Q () w') →
  wp F (SetConnectionState smart t state) Q w.
Proof.
  intros Hs Htr HQ. unfold SetConnectionState. wstep. eapply wp_tupd; [done..|].
  assert (server_ok (set_transports (<[t := set_connection_state state tr]> (transports w)) w)) as Hs1
    by by eapply server_ok_tput.
  apply wp_update_transports; [done|]. intros b c l. apply HQ. by apply server_ok_log, server_ok_flag.
Qed.

(** ** Going offline *)

(** After [handle_offline] of a transport that was not offline, only closed sockets that
    still write their queue, and no listener, name it. *)
Definition detached (w : world) (t : ptr) : Prop :=
  (∀ p s, socks w !! p = Some s → transport s = Some t → retiring s) ∧
  (∀ l, l ∈ listener_list w → l_transport l ≠ Some t).

Lemma wp_handle_offline F w t tr :
  server_ok w → transports w !! t = Some tr →
  wp F (handle_offline smart t) (λ _ w', server_ok w' ∧ pending_list w' = pending_list w ∧
    (∃ tr', transports w' !! t = Some tr' ∧ connection_state_ tr' = kCsOffline) ∧
    (connection_state_ tr ≠ kCsOffline → detached w' t)) w.
Proof.
  intros Hs Htr. unfold handle_offline. do 2 wstep. case_bool_decide as Hoff.
  { wstep. split_and!; try done. by exists tr. }
  wstep. eapply wp_SetConnectionState; [done..|]. intros b c l w1 Hs1. wstep.
  eapply wp_tupd; [apply lookup_insert_eq|done|]. set (tr1 := set_online false _). set (w2 := set_transports _ _).
  assert (server_ok w2) as Hs2 by (eapply server_ok_tput; [done|apply lookup_insert_eq|done]).
  wstep. eapply wp_mono; [apply wp_close_all_sockets, Hs2|]. intros [] w3 (Hw3 & HT & Hn & Hf & Hret).
  assert (server_ok w3) as Hs3 by (eapply server_ok_frame; try done; [lia|by apply core_all]).
  assert (∃ tr3, transports w3 !! t = Some tr3 ∧ tr_like tr1 tr3) as (tr3 & Htr3 & Hlike).
  { specialize (HT t). unfold w2 in HT. wcbn. rewrite lookup_insert_eq in HT.
    inversion HT as [? tr3 ? E1 E2|]; subst. by exists tr3. }
  eapply wp_mono; [by apply wp_RunDisconnects; [apply Hs3|]|].
  intros [] w4 (Hl4 & Ell & ET & Es & _ & _ & c4 & l4 & Ew4).
  assert (detached w4 t) as Hdet.
  { split; [rewrite Es; exact Hret|]. rewrite Ell. intros l0 [? _]%list_elem_of_filter. done. }
  split_and!; [|rewrite Ew4; apply Hf| |done].
  - split; [|done| |rewrite Ew4; apply Hs3].
    + rewrite Ew4. eapply wfx_sent; [|apply sent_log]. apply wfx_transports.
      * by destruct Hw3; split.
      * wcbn. intros p s u ? ? ?. rewrite ET. destruct (wf_transport _ _ Hw3 p s u) as [tu Htu]; [done..|].
        destruct (decide (t = u)) as [<-|]; [by rewrite lookup_insert_eq|rewrite lookup_insert_ne by done; by rewrite Htu].
      * intros u tu. rewrite ET. destruct (decide (t = u)) as [<-|]; [|rewrite lookup_insert_ne by done; apply Hw3].
        rewrite lookup_insert_eq. intros [= <-]. by destruct (wf_conn _ _ Hw3 t tr3).
    + intros u Hu. rewrite ET. destruct (decide (t = u)) as [<-|]; [by rewrite lookup_insert_eq|].
      rewrite lookup_insert_ne by done. apply Hs3. by rewrite Ew4 in Hu.
  - exists (set_disconnects [] tr3). rewrite ET, lookup_insert_eq. split; [done|].
    destruct Hlike as [E _]. apply (f_equal connection_state_) in E. by cbn in E.
Qed.

(** ** Connecting *)

Lemma SetFeatures_core fs tr : ∃ tr', SetFeatures fs tr = Ok tr' ∧ core tr tr'.
Proof.
  unfold SetFeatures, StringToFeatureSet. destruct fs as [|b fs]; [by eexists|].
  change (txt ",") with [x2c]. rewrite Split_ref by done. rok. by eexists.
Qed.

Lemma parse_banner_props_core props : ∀ tr, ∃ tr', parse_banner_props props tr = Ok tr' ∧ core tr tr'.
Proof.
  induction props as [|prop props IH]; intros tr; [by eexists|]. cbn [parse_banner_props].
  assert (∃ tr1, parse_banner_prop prop tr = Ok tr1 ∧ core tr tr1) as (tr1 & -> & Hc).
  { unfold parse_banner_prop. destruct prop as [|b prop]; [by eexists|].
    change (txt "=") with [x3d]. rewrite Split_ref by done. rok.
    repeat case_match; try by eexists. apply SetFeatures_core. }
  rok. destruct (IH tr1) as (tr' & -> & ?). exists tr'. split; [done|by etrans].
Qed.

Lemma parse_banner_total banner tr : ∃ r, parse_banner banner tr = Ok r ∧ core tr r.2.
Proof.
  unfold parse_banner. change (txt ":") with [x3a]. rewrite Split_ref by done. rok.
  destruct (SetFeatures_core [] tr) as (tr1 & -> & Hc1). rok.
  assert (∃ x l, split_ref [x3a] banner = x :: l) as (x & l & ->).
  { pose proof (split_ref_nonempty [x3a] banner). destruct (split_ref [x3a] banner) as [|x l]; [done|by exists x, l]. }
  change (txt ";") with [x3b]. cbn [head deref].
  destruct l as [|y [|props l]]; rok; [by eexists..|]. rewrite Split_ref by done. rok.
  destruct (parse_banner_props_core (split_ref [x3b] props) tr1) as (tr2 & -> & Hc2). rok.
  eexists. split; [done|]. by etrans.
Qed.

(** What a handler leaves behind. *)
Definition handled (w : world) (t : ptr) (w' : world) : Prop :=
  server_ok w' ∧ pending_list w' = pending_list w ∧ is_Some (transports w' !! t).

Lemma wp_handle_online F w t tr (Q : unit → world → Prop) :
  server_ok w → transports w !! t = Some tr → (∀ w', handled w t w' → Q () w') → wp F (handle_online t) Q w.
Proof.
  intros Hs Htr HQ. eapply wp_tupd; [done..|]. apply HQ. split_and!; [|done|wcbn; by rewrite lookup_insert_eq].
  eapply server_ok_tput; [done..|]. unfold SetConnectionEstablished. by case_match.
Qed.

Lemma wp_handle_new_connection F w t tr p :
  server_ok w → transports w !! t = Some tr → 0 ≤ arg1 (msg p) →
  wp F (handle_new_connection smart t p) (λ _ w', handled w t w') w.
Proof.
  intros Hs Htr Ha. unfold handle_new_connection. wstep. eapply wp_mono; [by eapply wp_handle_offline|].
  intros [] w1 (Hs1 & Hp1 & (tr1 & Htr1 & _) & _). wstep. eapply wp_tupd; [done..|].
  set (tr2 := update_version _ _ _). set (w2 := set_transports _ _).
  assert (server_ok w2) as Hs2.
  { eapply server_ok_tput; [done..|]. split_and!; try done. intros _. cbn. unfold MAX_PAYLOAD. lia. }
  destruct (parse_banner_total (contents (payload p)) tr2) as ([state tr3] & Epb & Hc3).
  unfold adb_parse_banner. wstep. wstep. eapply wp_tget; [apply lookup_insert_eq|]. wstep.
  eapply wp_lift; [exact Epb|]. cbv beta iota. wstep. unfold tput. wstep. set (w3 := set_transports _ w2).
  assert (server_ok w3) as Hs3 by (eapply server_ok_tput; [done|apply lookup_insert_eq|done]).
  eapply wp_SetConnectionState; [done|apply lookup_insert_eq|]. intros b c l w4 Hs4.
  eapply wp_handle_online; [done|apply lookup_insert_eq|]. intros w5 (? & E & ?). split_and!; try done.
  by rewrite E.
Qed.

(** ** Authentication *)

Lemma wp_send_auth_publickey F w t (Q : unit → world → Prop) :
  server_ok w → is_Some (transports w !! t) → (∀ w', sent w w' → Q () w') → wp F (send_auth_publickey t) Q w.
Proof.
  intros Hs Ht HQ. unfold send_auth_publickey. destruct user_pubkey as [|b key] eqn:Ek; [wstep; by apply HQ|].
  case_match; [wstep; by apply HQ|]. wstep.
  destruct (block_of_range_spec ((b :: key) ++ [x00])) as (blk & E & Hb & Hc & Hsz). eapply wp_lift; [exact E|].
  eapply wp_send_packet; [exact (wf_conn _ _ (sv_wf _ Hs))|done| |done]. by split.
Qed.

Lemma handled_sent w w1 w2 t : handled w t w1 → sent w1 w2 → handled w t w2.
Proof.
  intros (Hs & Hp & [tr Ht]) Hsent. split_and!; [by eapply server_ok_sent|..];
    destruct Hsent as (c & l & T & -> & HT); [done|].
  specialize (HT t). rewrite Ht in HT. wcbn. by inversion HT as [? ? _ E|].
Qed.

Lemma NextKey_core tr : ∃ k tr', NextKey g_keys tr = Ok (k, tr') ∧ core tr tr'.
Proof.
  unfold NextKey. destruct (keys_ tr) as [|k ks]; [|by eexists _, _].
  unfold adb_auth_get_private_keys. rewrite bool_decide_eq_false_2 by (by destruct g_keys).
  by eexists _, _.
Qed.

Lemma wp_send_auth_response F w t tr token :
  AuthLaws → server_ok w → transports w !! t = Some tr →
  wp F (send_auth_response smart token t) (λ _ w', handled w t w') w.
Proof.
  intros Ha Hs Htr. destruct (NextKey_core tr) as (k & tr1 & Ek & Hc). unfold send_auth_response. do 2 wstep.
  wstep. eapply wp_lift; [exact Ek|]. cbv beta iota. wstep. unfold tput. wstep. set (w1 := set_transports _ _).
  assert (server_ok w1) as Hs1 by by eapply server_ok_tput.
  assert (transports w1 !! t = Some tr1) as Htr1 by apply lookup_insert_eq.
  destruct k as [k|].
  - unfold adb_auth_sign. destruct (llen token =? TOKEN_SIZE).
    2:{ wstep. by split_and!. }
    destruct (rsa_sign k token) as [|b sig] eqn:Esig; [wstep; by split_and!|]. wstep.
    destruct (block_of_range_spec (b :: sig)) as (blk & E & Hb & Hbc & Hsz). eapply wp_lift; [exact E|].
    eapply wp_send_packet; [exact (wf_conn _ _ (sv_wf _ Hs1))|done| |].
    + split; [done|]. cbn. apply u32_small. pose proof (rsa_sign_len k token) as Hlen. rewrite Esig in Hlen.
      pose proof (llen_nonneg (b :: sig)). unfold MAX_PAYLOAD_V1 in Hlen. lia.
    + intros w2 Hw2. eapply handled_sent; [|exact Hw2]. by split_and!.
  - wstep. eapply wp_SetConnectionState; [done..|]. intros b c l w2 Hs2. wstep.
    eapply wp_tupd; [apply lookup_insert_eq|done|]. set (w3 := set_transports _ w2).
    assert (server_ok w3) as Hs3.
    { eapply server_ok_tput; [done|apply lookup_insert_eq|]. unfold SetConnectionEstablished. by case_match. }
    assert (handled w t w3) as Hh by (split_and!; [done|done|unfold w3; wcbn; by rewrite lookup_insert_eq]).
    eapply wp_send_auth_publickey; [done|apply Hh|]. intros w4 Hw4. by eapply handled_sent.
Qed.

Lemma wp_handle_auth F w t tr p :
  AuthLaws → server_ok w → transports w !! t = Some tr → packet_ok p →
  wp F (handle_auth smart p t) (λ _ w', handled w t w') w.
Proof.
  intros Ha Hs Htr [Hb Hl]. unfold handle_auth. do 2 wstep. destruct (use_tls tr); [wstep; by split_and!|].
  destruct (arg0 (msg p) =? ADB_AUTH_TOKEN).
  - assert (∀ w1 tr1, handled w t w1 → transports w1 !! t = Some tr1 →
      wp F (token ← lift (block_read (payload p) 0 (data_length (msg p))); send_auth_response smart token t)
        (λ _ w', handled w t w') w1) as Hrest.
    { intros w1 tr1 (Hs1 & Hp1 & _) Htr1. wstep. rewrite Hl. eapply wp_lift; [by apply block_read_all|].
      eapply wp_mono; [by eapply wp_send_auth_response|]. intros [] w2 (? & E & ?). split_and!; try done.
      by rewrite E. }
    wstep. case_bool_decide.
    + wstep. eapply Hrest; [by split_and!|done].
    + eapply wp_SetConnectionState; [done..|]. intros b c l w1 Hs1. eapply Hrest; [|apply lookup_insert_eq].
      split_and!; [done..|]. unfold w1. wcbn. by rewrite lookup_insert_eq.
  - wstep. eapply wp_SetConnectionState; [done..|]. intros b c l w1 Hs1.
    eapply wp_mono; [eapply wp_handle_offline; [done|apply lookup_insert_eq]|].
    intros [] w2 (? & E & (tr2 & Htr2 & _) & _). split_and!; [done|by rewrite E|by rewrite Htr2].
Qed.

(** ** Finding, creating and linking sockets *)

Lemma wp_find_local_socket F w a b (Q : option ptr → world → Prop) :
  wf w →
  (∀ r, match r with
        | Some p => ∃ s, socks w !! p = Some s ∧ is_local s ∧ closing s = false ∧ s_id s = a ∧
            (b ≠ 0 → ∃ q sq, peer s = Some q ∧ socks w !! q = Some sq ∧ s_id sq = b)
        | None => True
        end → Q r w) →
  wp F (find_local_socket a b) Q w.
Proof.
  intros Hw HQ. unfold find_local_socket. do 2 wstep.
  assert (∀ p, p ∈ local_socket_list w → ∃ s, socks w !! p = Some s ∧ is_local s ∧ closing s = false) as Hin.
  { intros p. apply (wf_list _ _ Hw p). }
  induction (local_socket_list w) as [|p l IH]; cbn [find_local_socket_loop]; [wstep; by apply HQ|].
  destruct (Hin p) as (s & Hs & Hl & Hc); [set_solver|]. do 2 wstep.
  destruct (Z.eqb_spec (s_id s) a) as [Ea|]; cbn [negb]; [|apply IH; set_solver].
  destruct (Z.eqb_spec b 0) as [Eb|]; [wstep; apply HQ; exists s; naive_solver|].
  destruct (peer s) as [q|] eqn:Hp; [|wstep; by apply HQ].
  destruct (wf_peer _ _ Hw p s q) as (_ & sq & Hq & _); [set_solver|done..|]. do 3 wstep. apply HQ.
  destruct (Z.eqb_spec (s_id sq) b); [|done]. exists s. split_and!; try done. intros _. by exists q, sq.
Qed.

(** A new local socket. *)
Definition fresh_local (fd id : Z) (t : option ptr) : asocket :=
  set_transport t (set_fde (Some 0) (set_id id (set_fd fd
    (new_socket local_socket_enqueue_fn local_socket_ready_fn None local_socket_close_fn)))).
Definition add_local (fd : Z) (t : option ptr) (w : world) : world :=
  set_lists (local_socket_list w ++ [next_ptr w]) (local_socket_closing_list w)
    (set_next_id (local_socket_next_id w + 1) (set_next_ptr (Pos.succ (next_ptr w))
      (set_socks (<[next_ptr w := fresh_local fd (local_socket_next_id w) t]> (socks w)) w))).

Lemma fresh_lookup w p s s' :
  wf w → <[next_ptr w := s]> (socks w) !! p = Some s' →
  (p = next_ptr w ∧ s' = s) ∨ (p ≠ next_ptr w ∧ socks w !! p = Some s').
Proof. clear. intros Hw. rewrite lookup_insert_Some. naive_solver. Qed.

Lemma fresh_ne w p s : wf w → socks w !! p = Some s → p ≠ next_ptr w.
Proof. intros Hw Hp. pose proof (wf_fresh _ _ Hw p s Hp). lia. Qed.

Lemma add_local_wf w fd t :
  wf w → local_socket_next_id w + 1 < 2 ^ 32 → (∀ u, t = Some u → is_Some (transports w !! u)) →
  wf (add_local fd t w).
Proof. clear.
  intros Hw Hid Ht. set (n := local_socket_next_id w) in *. set (s0 := fresh_local fd n t).
  pose proof (wf_next_id _ _ Hw) as Hn. fold n in Hn.
  assert (is_local s0) as Hl0 by by left.
  assert (∀ p s, socks (add_local fd t w) !! p = Some s →
    (p = next_ptr w ∧ s = s0) ∨ (p ≠ next_ptr w ∧ socks w !! p = Some s)) as Hin.
  { intros p s. by apply fresh_lookup. }
  assert (socks (add_local fd t w) !! next_ptr w = Some s0) as Hnew by apply lookup_insert_eq.
  assert (∀ p s, socks w !! p = Some s → socks (add_local fd t w) !! p = Some s) as Hold.
  { intros p s Hp. unfold add_local. wcbn. rewrite lookup_insert_ne; [done|]. symmetry. by eapply fresh_ne. }
  split.
  - intros p s [[-> ->]|[_ Hp]]%Hin; [|by eapply wf_kind]. split; [done|]. split_and!; try done; [by left|].
    by exists 0.
  - intros p s u [[-> ->]|[_ Hp]]%Hin Hret Hu; [by apply Ht|exact (wf_transport _ _ Hw p s u Hp Hret Hu)].
  - apply Hw.
  - intros p s q _ [[-> ->]|[_ Hp]]%Hin Hpq; [done|].
    destruct (wf_peer _ _ Hw p s q) as (? & sq & Hq & ?); [set_solver|done..|]. split; [done|]. exists sq.
    split; [by apply Hold|done].
  - intros p s _ [[-> ->]|[_ Hp]]%Hin Hnl; [done|].
    destruct (wf_nonlocal_peer _ _ Hw p s) as (q & sq & ? & ? & ?); [set_solver|done..|]. eauto 10.
  - intros p s [[-> ->]|[_ Hp]]%Hin; [done|by eapply wf_closing].
  - intros p. unfold add_local at 1. wcbn. rewrite elem_of_app, list_elem_of_singleton, (wf_list _ _ Hw p). split.
    + intros [(s & Hp & ? & ?)| ->]; [exists s; split; [by apply Hold|done]|by exists s0].
    + intros (s & [[-> ->]|[_ Hp]]%Hin & ? & ?); [by right|left; by exists s].
  - intros p. unfold add_local at 1. wcbn. rewrite (wf_closing_list _ _ Hw p). split.
    + intros (s & Hp & ? & ?). exists s. split; [by apply Hold|done].
    + intros (s & [[-> ->]|[_ Hp]]%Hin & ? & ?); [done|by exists s].
  - intros p. unfold add_local at 1. wcbn. rewrite (wf_trackers _ _ Hw p). split.
    + intros (s & Hp & ?). exists s. split; [by apply Hold|done].
    + intros (s & [[-> ->]|[_ Hp]]%Hin & ?); [done|by exists s].
  - unfold add_local. wcbn. apply NoDup_app. split_and!; [apply Hw| |apply NoDup_singleton].
    intros p (s & Hp & _)%(wf_list _ _ Hw p) ->%list_elem_of_singleton. by apply (fresh_ne w (next_ptr w) s).
  - intros p s [[-> ->]|[_ Hp]]%Hin Hl; unfold add_local; wcbn; fold n; [cbn; lia|].
    pose proof (wf_id _ _ Hw p s Hp Hl) as Hid'. fold n in Hid'. lia.
  - intros p q s s' [[-> ->]|[_ Hp]]%Hin [[-> ->]|[_ Hq]]%Hin Hl Hl' E; [done|..|by eapply wf_id_inj].
    + pose proof (wf_id _ _ Hw q s' Hq Hl') as Hid'. fold n in Hid'. cbn in E. lia.
    + pose proof (wf_id _ _ Hw p s Hp Hl) as Hid'. fold n in Hid'. cbn in E. lia.
  - unfold add_local. wcbn. fold n. lia.
  - intros p s [[-> ->]|[_ Hp]]%Hin; unfold add_local; wcbn; [lia|]. pose proof (wf_fresh _ _ Hw p s Hp). lia.
Qed.

Lemma wp_create_local_socket (F : Prop) w fd (Q : ptr → world → Prop) :
  wf w → (local_socket_next_id w = 2 ^ 32 - 1 → F) → (fd < 0 → F) →
  (0 ≤ fd → local_socket_next_id w + 1 < 2 ^ 32 → Q (next_ptr w) (add_local fd None w)) →
  wp F (create_local_socket fd) Q w.
Proof.
  intros Hw HF HF' HQ. pose proof (wf_next_id _ _ Hw) as Hn.
  unfold create_local_socket, snew, install_local_socket. wstep.
  unfold wp at 1. do 3 wstep. wcbn. wstep. eapply wp_supd; [apply lookup_insert_eq|]. do 3 wstep.
  destruct (decide (local_socket_next_id w = 2 ^ 32 - 1)) as [Emax|Hne].
  { rewrite Emax. exact (HF Emax). }
  rewrite (u32_small (local_socket_next_id w + 1)) by lia. wcbn.
  eapply wp_lift; [apply check_true; apply negb_true_iff, Z.eqb_neq; lia|]. do 2 wstep.
  destruct (Z.leb_spec 0 fd) as [Hfd|Hfd]; [|by apply HF'].
  eapply wp_lift; [reflexivity|]. wstep. eapply wp_supd; [wcbn; apply lookup_insert_eq|]. wstep.
  wcbn. rewrite !insert_insert_eq. apply HQ; [done|lia].
Qed.

Lemma wp_create_local_service_socket (F : Prop) w fd t (Q : option ptr → world → Prop) :
  wf w → 0 ≤ fd → is_Some (transports w !! t) → (local_socket_next_id w = 2 ^ 32 - 1 → F) →
  (wf (add_local fd (Some t) w) → Q (Some (next_ptr w)) (add_local fd (Some t) w)) →
  wp F (create_local_service_socket (Some fd) t) Q w.
Proof.
  intros Hw Hfd Ht HF HQ. unfold create_local_service_socket. wstep. apply wp_create_local_socket; [done|done|lia|].
  intros _ Hid. wstep. eapply wp_supd; [apply lookup_insert_eq|]. wstep. unfold add_local at 1. wcbn. rewrite insert_insert_eq.
  apply HQ. apply add_local_wf; [done|lia|]. by intros u [= <-].
Qed.

(** A new remote socket as the peer of [p]. *)
Definition fresh_remote (id : Z) (t p : ptr) : asocket :=
  set_peer (Some p) (set_transport (Some t) (set_id id
    (new_socket remote_socket_enqueue_fn remote_socket_ready_fn (Some remote_socket_shutdown_fn) remote_socket_close_fn))).
Definition link_remote (id : Z) (t p : ptr) (s : asocket) (w : world) : world :=
  set_next_ptr (Pos.succ (next_ptr w))
    (set_socks (<[next_ptr w := fresh_remote id t p]> (<[p := set_peer (Some (next_ptr w)) s]> (socks w))) w).

(** Any new socket that is not local, with the trackers it makes. *)
Definition link_fresh (trk : list ptr) (sq : asocket) (p : ptr) (s : asocket) (w : world) : world :=
  set_trackers trk (set_next_ptr (Pos.succ (next_ptr w))
    (set_socks (<[next_ptr w := sq]> (<[p := set_peer (Some (next_ptr w)) s]> (socks w))) w)).

Lemma link_fresh_wf w trk sq p s :
  wf w → kind_ok sq → ¬ is_local sq → peer sq = Some p →
  (∀ t, transport sq = Some t → is_Some (transports w !! t)) →
  (∀ r, r ∈ trk ↔ r ∈ device_tracker_list w ∨ r = next_ptr w ∧ is_tracker sq) →
  socks w !! p = Some s → is_local s → closing s = false → peer s = None →
  wf (link_fresh trk sq p s w).
Proof. clear.
  intros Hw Hkq Hlq Hpq0 Ht Htrk Hp Hl Hc Hpe. set (q := next_ptr w) in *. set (s' := set_peer (Some q) s).
  assert (p ≠ q) as Hpq by by eapply fresh_ne.
  assert (is_local s') as Hl' by done.
  assert (∀ r sr, socks (link_fresh trk sq p s w) !! r = Some sr →
    (r = q ∧ sr = sq) ∨ (r = p ∧ sr = s') ∨ (r ≠ q ∧ r ≠ p ∧ socks w !! r = Some sr)) as Hin.
  { intros r sr. unfold link_fresh. wcbn. rewrite !lookup_insert_Some. naive_solver. }
  assert (socks (link_fresh trk sq p s w) !! q = Some sq) as Hq' by apply lookup_insert_eq.
  assert (socks (link_fresh trk sq p s w) !! p = Some s') as Hp'.
  { unfold link_fresh. wcbn. rewrite lookup_insert_ne by done. apply lookup_insert_eq. }
  assert (∀ r sr, socks w !! r = Some sr → r ≠ p → socks (link_fresh trk sq p s w) !! r = Some sr) as Hold.
  { intros r sr Hr Hne. pose proof (fresh_ne w r sr Hw Hr). unfold link_fresh. wcbn.
    rewrite !lookup_insert_ne by done. done. }
  assert (∀ P : asocket → Prop, (P s' ↔ P s) → ¬ P sq →
    ∀ r, (∃ sr, socks (link_fresh trk sq p s w) !! r = Some sr ∧ P sr) ↔ (∃ sr, socks w !! r = Some sr ∧ P sr)) as HP.
  { intros P HPs HPq r. split.
    - intros (sr & [[-> ->]|[[-> ->]|(? & ? & ?)]]%Hin & ?); [done|exists s; naive_solver|by exists sr].
    - intros (sr & Hr & ?). destruct (decide (r = p)) as [-> |]; [exists s'; naive_solver|exists sr; split; [by apply Hold|done]]. }
  split.
  - intros r sr [[-> ->]|[[-> ->]|(_ & _ & Hr)]]%Hin; [done|exact (wf_kind _ _ Hw p s Hp)|by eapply wf_kind].
  - intros r sr u [[-> ->]|[[-> ->]|(_ & _ & Hr)]]%Hin Hret Hu; [by apply Ht|..];
      [exact (wf_transport _ _ Hw p s u Hp Hret Hu)|exact (wf_transport _ _ Hw r sr u Hr Hret Hu)].
  - apply Hw.
  - intros r sr r' _ [[-> ->]|[[-> ->]|(Hrq & Hrp & Hr)]]%Hin Hpr; [|injection Hpr as <-|].
    + rewrite Hpq0 in Hpr. injection Hpr as <-. split; [done|]. by exists s'.
    + split; [done|]. by exists sq.
    + destruct (wf_peer _ _ Hw r sr r') as (? & sr' & Hr' & Hpr'); [set_solver|done..|]. split; [done|]. exists sr'.
      split; [|done]. apply Hold; [done|]. intros ->. congruence.
  - intros r sr _ [[-> ->]|[[-> ->]|(_ & _ & Hr)]]%Hin Hnl; [by exists p, s'|done|].
    destruct (wf_nonlocal_peer _ _ Hw r sr) as (r' & sr' & ? & ? & ?); [set_solver|done..|].
    exists r'. destruct (proj2 (HP is_local (iff_refl _) Hlq r')) as (s'' & ? & ?); [by exists sr'|]. by exists s''.
  - intros r sr [[-> ->]|[[-> ->]|(_ & _ & Hr)]]%Hin ? Hcl; [done|cbn in Hcl; congruence|by eapply wf_closing].
  - intros r. rewrite (HP (λ sr, is_local sr ∧ closing sr = false)) by naive_solver. apply Hw.
  - intros r. rewrite (HP (λ sr, is_local sr ∧ closing sr = true)) by naive_solver. apply Hw.
  - intros r. unfold link_fresh at 1. wcbn. rewrite Htrk, (wf_trackers _ _ Hw r). split.
    + intros [(sr & Hr & Hk)|[-> ?]]; [|by exists sq]. exists sr. split; [|done]. apply Hold; [done|]. intros ->.
      simplify_eq. by apply (local_not_tracker s).
    + intros (sr & [[-> ->]|[[-> ->]|(_ & _ & Hr)]]%Hin & Hk); [by right| |left; by exists sr].
      by apply (local_not_tracker s') in Hl'.
  - apply Hw.
  - intros r sr [[-> ->]|[[-> ->]|(_ & _ & Hr)]]%Hin Hlr; [done|exact (wf_id _ _ Hw p s Hp Hl)|exact (wf_id _ _ Hw r sr Hr Hlr)].
  - intros r r' sr sr' [[-> ->]|[[-> ->]|(_ & ? & Hr)]]%Hin [[-> ->]|[[-> ->]|(_ & ? & Hr')]]%Hin ? ? E; try done.
    + by rewrite (wf_id_inj _ _ Hw p r' s sr' Hp Hr').
    + by rewrite (wf_id_inj _ _ Hw r p sr s Hr Hp).
    + by eapply wf_id_inj.
  - apply Hw.
  - intros r sr [[-> ->]|[[-> ->]|(_ & _ & Hr)]]%Hin; unfold link_fresh; wcbn; fold q; [lia|..].
    + pose proof (wf_fresh _ _ Hw p s Hp). lia.
    + pose proof (wf_fresh _ _ Hw r sr Hr). lia.
Qed.

Lemma link_remote_wf w id t p s :
  wf w → is_Some (transports w !! t) → socks w !! p = Some s → is_local s → closing s = false → peer s = None →
  wf (link_remote id t p s w).
Proof. clear.
  intros Hw Ht **. change (link_remote id t p s w) with (link_fresh (device_tracker_list w) (fresh_remote id t p) p s w).
  apply link_fresh_wf; try done; [by intros []|by intros u [= <-]|].
  intros r. split; [by left|]. by intros [?|[_ ?]].
Qed.

Lemma server_ok_link w id t p s :
  server_ok w → is_Some (transports w !! t) → socks w !! p = Some s → is_local s → closing s = false → peer s = None →
  server_ok (link_remote id t p s w).
Proof.
  intros Hs **. eapply server_ok_frame; [done| |by split|unfold link_remote; wcbn; lia|intros u; reflexivity].
  apply link_remote_wf; try done. apply Hs.
Qed.

(** Linking, in the order of the source; [k] is what follows. *)
Lemma wp_link F w id t p s (k : ptr → M unit) (Q : unit → world → Prop) :
  wf w → id ≠ 0 → socks w !! p = Some s →
  wp F (k (next_ptr w)) Q (link_remote id t p s w) →
  wp F (q ← create_remote_socket id t; supd p (set_peer (Some q)) ;; supd q (set_peer (Some p)) ;; k q) Q w.
Proof.
  intros Hw Hid Hp Hk. assert (p ≠ next_ptr w) as Hne by by eapply fresh_ne.
  unfold create_remote_socket. wstep. wstep.
  eapply wp_lift; [apply check_true; by apply negb_true_iff, Z.eqb_neq|]. unfold snew, wp at 1. wstep.
  eapply wp_supd; [wcbn; rewrite lookup_insert_ne by done; exact Hp|]. wstep.
  eapply wp_supd; [wcbn; rewrite lookup_insert_ne by done; apply lookup_insert_eq|]. wcbn.
  unfold link_remote in Hk. replace (<[next_ptr w:=_]> (<[p:=_]> (<[next_ptr w:=_]> (socks w)))) with
    (<[next_ptr w := fresh_remote id t p]> (<[p := set_peer (Some (next_ptr w)) s]> (socks w))); [exact Hk|].
  rewrite (insert_insert_ne _ p (next_ptr w)) by done. by rewrite insert_insert_eq.
Qed.

(** ** Ready and acknowledgements *)

Lemma touched_insert w p s : touched p w (set_socks (<[p := s]> (socks w)) w).
Proof. split; try done. intros q ?. wcbn. by rewrite lookup_insert_ne. Qed.
Lemma touched_trans p w1 w2 w3 : touched p w1 w2 → touched p w2 w3 → touched p w1 w3.
Proof.
  intros [Hs1 Ht1 Hl1 [Hn1 Hi1] Hf1] [Hs2 Ht2 Hl2 [Hn2 Hi2] Hf2]. split; [| |congruence|split; congruence|by etrans].
  - intros q ?. by rewrite Hs2, Hs1.
  - intros t. etrans; [apply Ht1|apply Ht2].
Qed.

(** The socket is there, changed, and nothing else is. *)
Definition kept_local (p : ptr) (w w' : world) : Prop :=
  wf w' ∧ touched p w w' ∧ ∃ s', socks w' !! p = Some s' ∧ is_local s'.

Lemma wp_local_socket_ready F w p s (Q : unit → world → Prop) :
  wf w → socks w !! p = Some s → is_local s → (∀ w', kept_local p w w' → Q () w') →
  wp F (local_socket_ready p) Q w.
Proof.
  intros Hw Hs Hl HQ. destruct (local_kind s Hl) as (_ & _ & _ & _ & _ & st & Hst & _); [by eapply wf_kind|].
  unfold local_socket_ready, fdevent_add. do 2 wstep. wstep. eapply wp_lift; [by rewrite Hst|].
  eapply wp_supd; [done|]. edestruct (local_wf_update w p s) as [Hw' Hl']; [exact Hw|exact Hs|exact Hl| | | | | | | | | | | | |
    apply HQ; split_and!; [exact Hw'|apply touched_insert|eexists; split; [apply lookup_insert_eq|exact Hl']]]; try done.
  intros st0 E. simplify_eq. eexists. split; [done|]. apply add_read_write.
Qed.

Lemma kept_local_trans p w w1 w2 : touched p w w1 → kept_local p w1 w2 → kept_local p w w2.
Proof. intros Ht (? & ? & ?). split_and!; [done|by eapply touched_trans|done]. Qed.

Lemma wp_call_ready F enq' w p s (Q : unit → world → Prop) :
  wf w → socks w !! p = Some s → is_local s → (∀ w', kept_local p w w' → Q () w') →
  wp F (call_ready enq' p) Q w.
Proof.
  intros Hw Hs Hl HQ. destruct (local_kind s Hl) as (_ & _ & Hr & _); [by eapply wf_kind|].
  unfold call_ready. do 2 wstep. destruct Hr as [-> | ->]; [by eapply wp_local_socket_ready|].
  unfold local_socket_ready_notify. do 2 wstep. wstep. eapply wp_sget; [apply lookup_insert_eq|]. wstep.
  apply wp_SendOkay. intros b w2 Hw2. pose proof (wfx_set_fns ∅ w p s Hw Hs Hl) as Hw1.
  eapply (wp_local_socket_ready F w2 p (set_fns local_socket_ready_fn None local_socket_close_fn s));
    [by eapply wfx_sent| |by left|].
  { destruct Hw2 as (? & ? & ? & -> & _). wcbn. apply lookup_insert_eq. }
  intros w3 Hk3. apply HQ. eapply kept_local_trans; [|exact Hk3].
  eapply touched_trans; [apply touched_insert|exact (sent_touched p _ _ Hw2)].
Qed.

Lemma set_available_wf w p s v :
  wf w → socks w !! p = Some s → is_local s →
  wf (set_socks (<[p := set_available v s]> (socks w)) w) ∧ is_local (set_available v s).
Proof. intros. apply (local_wf_update w p s); try done. intros st E. by exists st. Qed.

Lemma wp_local_socket_ack F enq' w p s acked (Q : unit → world → Prop) :
  wf w → socks w !! p = Some s → is_local s → (∀ w', kept_local p w w' → Q () w') →
  wp F (local_socket_ack enq' p acked) Q w.
Proof.
  intros Hw Hs Hl HQ. assert (kept_local p w w) as Hk0 by (split_and!; [done|by split|by exists s]).
  unfold local_socket_ack. do 2 wstep.
  destruct (available_send_bytes s) as [a|], acked as [k|]; [|wstep; by apply HQ..|by eapply wp_call_ready].
  do 3 wstep. wstep. destruct (set_available_wf w p s (Some (Z.min (a + k) (g_delayed_ack_bytes w)))) as [Hw1 Hl1]; [done..|].
  apply wp_when; intros _.
  - eapply wp_call_ready; [done|apply lookup_insert_eq|done|]. intros w2 Hk. apply HQ.
    eapply kept_local_trans; [apply touched_insert|done].
  - apply HQ. split_and!; [done|apply touched_insert|]. eexists. split; [apply lookup_insert_eq|done].
Qed.

(** ** The handlers of stream packets *)

Lemma handled_here w t : server_ok w → is_Some (transports w !! t) → handled w t w.
Proof. done. Qed.

Lemma handled_step w t w1 w2 :
  handled w t w1 → wf w2 → frame w1 w2 → next_ptr w2 = next_ptr w1 →
  (∀ u, option_Forall2 tr_like (transports w1 !! u) (transports w2 !! u)) → handled w t w2.
Proof.
  intros (Hs & Hp & [tr Ht]) Hw2 Hf Hn HT. split_and!.
  - eapply server_ok_frame; try done; [lia|by apply core_all].
  - by rewrite (fr_pending _ _ Hf).
  - specialize (HT t). rewrite Ht in HT. by inversion HT as [? ? _ E|].
Qed.
Lemma handled_kept w t w1 w2 p : handled w t w1 → kept_local p w1 w2 → handled w t w2.
Proof. intros Hh (Hw & [_ HT _ [? _] Hf] & _). by eapply handled_step. Qed.
Lemma handled_closed w t w1 w2 p o : handled w t w1 → wf w2 → closed_pair p o w1 w2 → handled w t w2.
Proof. intros Hh Hw [_ HT _ [? _] _ Hf]. by eapply handled_step. Qed.

Lemma wp_send_close F w a b t (Q : unit → world → Prop) :
  server_ok w → is_Some (transports w !! t) → (∀ w', sent w w' → Q () w') → wp F (send_close a b t) Q w.
Proof.
  intros Hs Ht HQ. eapply wp_send_packet; [exact (wf_conn _ _ (sv_wf _ Hs))|done|apply packet_ok_bare|done].
Qed.

Lemma handled_link w t w1 id p s :
  handled w t w1 → socks w1 !! p = Some s → is_local s → closing s = false → peer s = None →
  handled w t (link_remote id t p s w1).
Proof. intros (Hs & Hp & Ht) **. split_and!; [by apply server_ok_link|exact Hp|exact Ht]. Qed.

Lemma link_lookup id t p s w : p ≠ next_ptr w → socks (link_remote id t p s w) !! p = Some (set_peer (Some (next_ptr w)) s).
Proof. intros Hne. unfold link_remote. wcbn. rewrite lookup_insert_ne by done. apply lookup_insert_eq. Qed.

Lemma wp_handle_okay F w t tr p :
  server_ok w → transports w !! t = Some tr → wp F (handle_okay smart p t) (λ _ w', handled w t w') w.
Proof.
  intros Hs Htr. assert (is_Some (transports w !! t)) as Ht by by rewrite Htr.
  pose proof (handled_here w t Hs Ht) as H0'. pose proof (sv_wf _ Hs) as Hw. unfold handle_okay. do 2 wstep.
  destruct (online tr && _ && _) eqn:Eg; cbn [negb]; [|by wstep].
  apply andb_true_iff in Eg as [[_ Ha0%negb_true_iff]%andb_true_iff _]. apply Z.eqb_neq in Ha0.
  wstep. apply wp_find_local_socket; [done|]. intros [q|] Hr.
  2:{ eapply wp_send_close; [done..|]. intros w' ?. by eapply handled_sent. }
  destruct Hr as (s & Hq & Hl & Hc & _ & _). destruct (acked_bytes p) as [acked|]; [|by wstep]. do 2 wstep.
  destruct (peer s) as [r|] eqn:Hp.
  - destruct (wf_peer _ _ Hw q s r) as (_ & sr & Hr & _); [set_solver|done..|]. do 2 wstep. case_match; [|by wstep].
    eapply wp_local_socket_ack; [done..|]. intros w' ?. by eapply handled_kept.
  - eapply wp_link; [done..|]. pose proof (fresh_ne w q s Hw Hq) as Hne.
    assert (handled w t (link_remote (arg0 (msg p)) t q s w)) as H1' by by apply handled_link.
    wstep. eapply wp_local_socket_ack; [apply H1'|by apply link_lookup|exact Hl|].
    intros w2 Hk2. pose proof (handled_kept _ _ _ _ _ H1' Hk2) as H2'. destruct Hk2 as (Hw2 & _ & s2 & Hs2 & Hl2).
    eapply wp_call_ready; [done..|]. intros w3 Hk3. by eapply handled_kept.
Qed.

Lemma wp_handle_clse F w t tr p :
  server_ok w → transports w !! t = Some tr → wp F (handle_clse p t) (λ _ w', handled w t w') w.
Proof.
  intros Hs Htr. assert (is_Some (transports w !! t)) as Ht by by rewrite Htr.
  pose proof (handled_here w t Hs Ht) as H0'. pose proof (sv_wf _ Hs) as Hw. unfold handle_clse. do 2 wstep.
  destruct (online tr && _); cbn [negb]; [|by wstep]. wstep. apply wp_find_local_socket; [done|].
  intros [q|] Hr; [|by wstep]. destruct Hr as (s & Hq & Hl & Hc & _ & _). do 2 wstep. wstep.
  assert (∀ b : bool, wp F (if b then mret () else socket_close q) (λ _ w', handled w t w') w) as Hend.
  { intros []; [by wstep|]. eapply wp_mono; [eapply (wp_call_close F ∅); [done|set_solver|done|unfold close_fuel; lia]|].
    intros [] w' [Hw' Hcp]. by eapply handled_closed. }
  destruct (peer s) as [r|] eqn:Hp; [|wstep; exact (Hend false)].
  destruct (wf_peer _ _ Hw q s r) as (_ & sr & Hr & _); [set_solver|done..|].
  case_match; [do 3 wstep; apply Hend|wstep; exact (Hend false)].
Qed.

Lemma wp_handle_wrte F w t tr p :
  server_ok w → queue_room w → transports w !! t = Some tr → packet_ok p → size_ (payload p) < 2 ^ 33 →
  wp F (handle_wrte smart p t) (λ _ w', handled w t w') w.
Proof.
  intros Hs Hroom Htr [Hb _] Hsz. assert (is_Some (transports w !! t)) as Ht by by rewrite Htr.
  pose proof (handled_here w t Hs Ht) as H0'. pose proof (sv_wf _ Hs) as Hw. unfold handle_wrte. do 2 wstep.
  destruct (online tr && _ && _); cbn [negb]; [|by wstep]. wstep. apply wp_find_local_socket; [done|].
  intros [q|] Hr; [|by wstep]. destruct Hr as (s & Hq & Hl & Hc & _ & _). wstep. unfold enq, call_enqueue. do 2 wstep.
  destruct (local_kind s Hl) as (_ & -> & _); [by eapply wf_kind|].
  eapply wp_mono; [eapply (wp_local_socket_enqueue F ∅); try done; set_solver|].
  intros r w' [Hw' [(_ & Hcl & _)|(_ & [_ HT _ [? _] Hf] & _)]]; [congruence|]. wstep. by eapply handled_step.
Qed.

Lemma connect_plan_total a p : ∃ r, connect_plan a p = Ok r.
Proof.
  unfold connect_plan. change (txt ":") with [x3a]. rewrite Split_ref by done. rok. repeat case_match; by eexists.
Qed.

Lemma wp_service_to_fd F w name (Q : option Z → world → Prop) :
  (∀ o c l, (∀ fd, o = Some fd → 0 ≤ fd) → Q o (set_log c l w)) → wp F (service_to_fd name) Q w.
Proof.
  intros HQ. assert (Q None w) as HN by (specialize (HQ None (clock w) (trace w)); destruct w; by apply HQ).
  unfold service_to_fd. destruct (is_socket_spec name); [|by wstep].
  destruct (connect_plan_total name None) as [r E]. wstep. eapply wp_lift; [exact E|].
  destruct r as [e|[target ser]]; [by wstep|]. do 3 wstep. apply HQ. intros fd. apply os_connect_fd.
Qed.

(** What makes an A_OPEN abort the server. *)
Definition open_aborts (w : world) (tr : atransport) (p : apacket) : Prop :=
  (∃ a, cstring_of_block (payload p) = Ok a ∧ IsReverseConfigured a tr = false) ∨
  local_socket_next_id w = 2 ^ 32 - 1.

Lemma wp_handle_open w t tr p :
  server_ok w → transports w !! t = Some tr → (∃ a, cstring_of_block (payload p) = Ok a) →
  wp (open_aborts w tr p) (handle_open smart p t) (λ _ w', handled w t w') w.
Proof.
  intros Hs Htr [a Ea]. assert (is_Some (transports w !! t)) as Ht by by rewrite Htr.
  pose proof (handled_here w t Hs Ht) as H0'. pose proof (sv_wf _ Hs) as Hw. unfold handle_open. do 2 wstep.
  destruct (negb (online tr) || _) eqn:Eg; [by wstep|].
  apply orb_false_iff in Eg as [_ Ha0]. apply Z.eqb_neq in Ha0.
  case_match. { eapply wp_send_close; [done..|]. intros w' ?. by eapply handled_sent. }
  wstep. eapply wp_lift; [exact Ea|]. wstep. destruct (IsReverseConfigured a tr) eqn:Er; cbn [check].
  2:{ unfold wp, lift. left. by exists a. }
  wstep. wstep. apply wp_service_to_fd. intros o c l Ho.
  assert (handled w t (set_log c l w)) as H1' by (eapply handled_sent; [exact H0'|apply sent_log]).
  destruct o as [fd|]; wstep.
  2:{ unfold create_local_service_socket. wstep. eapply wp_send_close; [apply H1'|done|]. intros w' ?. by eapply handled_sent. }
  apply wp_create_local_service_socket; [apply H1'|auto|done|by right|]. intros Hw1. set (w1 := add_local _ _ _) in *.
  assert (server_ok w1) as Hs1.
  { eapply server_ok_frame; [apply H1'|done|by split|unfold w1, add_local; wcbn; lia|intros u; reflexivity]. }
  assert (handled w t w1) as H2' by by split_and!. set (q := next_ptr (set_log c l w)).
  set (s1 := fresh_local fd (local_socket_next_id w) (Some t)).
  assert (socks w1 !! q = Some s1) as Hq by apply lookup_insert_eq.
  eapply wp_link; [done..|]. pose proof (fresh_ne w1 q s1 Hw1 Hq) as Hne.
  set (w2 := link_remote _ _ _ _ _). assert (handled w t w2) as H3' by (apply handled_link; try done; by left).
  pose proof (link_lookup (arg0 (msg p)) t q s1 w1 Hne) as Hq2. fold w2 in Hq2.
  wstep. eapply wp_tget; [exact Htr|]. wstep. eapply wp_sget; [exact Hq2|].
  assert (∀ w3 s3 w4, wf w3 → handled w t w3 → socks w3 !! q = Some s3 → is_local s3 → sent w3 w4 →
    wp (open_aborts w tr p) (call_ready (enq smart) q) (λ _ w', handled w t w') w4) as Hend.
  { intros w3 s3 w4 Hw3 Hh3 Hs3 Hl3 Hs4. eapply (wp_call_ready _ _ w4 q s3); [by eapply wfx_sent| |done|].
    - by destruct Hs4 as (? & ? & ? & -> & _).
    - intros w5 Hk. eapply handled_kept; [|exact Hk]. by eapply handled_sent. }
  wstep. destruct (delayed_ack_ tr).
  - wstep. eapply wp_supd; [exact Hq2|]. do 2 wstep.
    destruct (set_available_wf w2 q _ (Some (arg1 (msg p))) (proj1 (conj (sv_wf _ (proj1 H3')) I)) Hq2) as [Hw3 Hl3]; [by left|].
    set (w3 := set_socks _ w2) in *.
    assert (handled w t w3) as H4' by (eapply handled_step; [exact H3'|done|by split|done|intros u; reflexivity]).
    eapply wp_send_ready; [exact (wf_conn _ _ Hw3)|done|]. intros w4 Hs4.
    eapply (Hend w3); [done..|apply lookup_insert_eq|done|done].
  - eapply wp_send_ready; [exact (wf_conn _ _ (sv_wf _ (proj1 H3')))|done|]. intros w4 Hs4.
    eapply (Hend w2); [apply H3'|done|exact Hq2|by left|done].
Qed.

(** ** Any packet *)

(** A packet as it comes from the wire: the payload has the announced size, and the header's
    fields are 32-bit numbers. *)
Definition wire_packet (p : apacket) : Prop :=
  packet_ok p ∧ 0 ≤ arg1 (msg p) ∧ data_length (msg p) < 2 ^ 32.

Lemma wp_handle_packet w t tr p :
  AuthLaws → server_ok w → queue_room w → transports w !! t = Some tr → wire_packet p →
  (command (msg p) = A_OPEN → ∃ a, cstring_of_block (payload p) = Ok a) →
  wp (command (msg p) = A_OPEN ∧ open_aborts w tr p) (handle_packet smart p t) (λ _ w', handled w t w') w.
Proof.
  intros Ha Hs Hroom Htr ((Hb & Hlen) & Harg & Hdl) Hopen. assert (is_Some (transports w !! t)) as Ht by by rewrite Htr.
  unfold handle_packet. wstep. eapply wp_lift; [apply check_true; by apply Z.eqb_eq|]. cbv zeta.
  destruct (command (msg p) =? A_CNXN); [by eapply wp_handle_new_connection|].
  destruct (command (msg p) =? A_STLS).
  { wstep. eapply wp_tupd; [done..|]. set (w1 := set_transports _ _).
    assert (server_ok w1) as Hs1 by by eapply server_ok_tput.
    assert (handled w t w1) as Hh by (split_and!; [done|done|unfold w1; wcbn; by rewrite lookup_insert_eq]).
    wstep. eapply wp_send_packet; [exact (wf_conn _ _ (sv_wf _ Hs1))|apply Hh|apply packet_ok_bare|].
    intros w2 Hw2. unfold adb_auth_tls_handshake. do 3 wstep. eapply handled_sent; [|apply sent_log].
    by eapply handled_sent. }
  destruct (command (msg p) =? A_AUTH); [by eapply wp_handle_auth|].
  destruct (Z.eqb_spec (command (msg p)) A_OPEN) as [Ho|].
  { eapply wp_weaken; [eapply wp_handle_open; [done..|by apply Hopen]|]. done. }
  destruct (command (msg p) =? A_OKAY); [by eapply wp_handle_okay|].
  destruct (command (msg p) =? A_CLSE); [by eapply wp_handle_clse|].
  destruct (command (msg p) =? A_WRTE); [eapply wp_handle_wrte; try done; lia|].
  wstep. by apply handled_here.
Qed.

(** ** Losing a transport *)

(** The lists without [t] name live transports when those of [w] do. *)
Lemma lists_delete w t :
  (∀ u, u ∈ transport_list w ++ pending_list w → is_Some (transports w !! u)) → t ∉ pending_list w →
  ∀ u, u ∈ filter (λ x, x ≠ t) (transport_list w) ++ pending_list w → is_Some (delete t (transports w) !! u).
Proof.
  intros Hli Hp u. rewrite elem_of_app, elem_of_filter_ne. intros Hu.
  assert (u ≠ t) as Hne by (destruct Hu as [[? _]|?]; [done|]; by intros ->).
  rewrite lookup_delete_ne by done. apply Hli. rewrite elem_of_app. naive_solver.
Qed.

(** Without its transport [t], to which nothing in use refers. *)
Lemma server_ok_delete w t :
  server_ok w → detached w t → t ∉ pending_list w →
  server_ok (set_transports (delete t (transports w))
    (set_transport_lists (filter (λ x, x ≠ t) (transport_list w)) (pending_list w) w)).
Proof.
  intros [Hw [Hnd Hlt Hlr Hlf Hlw] Hli Hun] [Hds Hdl] Hp. split; [| | |done].
  - apply (wfx_transports ∅ (set_transport_lists _ _ w)).
    + by destruct Hw; split.
    + intros p s u Hs Hret Hu. rewrite lookup_delete_ne; [by eapply wf_transport|]. intros <-. by apply Hret, (Hds p).
    + intros u tr [_ Htr]%lookup_delete_Some. by eapply wf_conn.
  - split; wcbn; try done.
    + intros l u Hl Hu. rewrite lookup_delete_ne; [by eapply Hlt|]. intros <-. by apply (Hdl l).
    + intros u tr p [_ Htr]%lookup_delete_Some. by apply Hlr.
  - exact (lists_delete w t Hli Hp).
Qed.

(** What the task of [HandleError] leaves behind. *)
Definition torn_down (t : ptr) (kept : bool) (w : world) : Prop :=
  server_ok w ∧ t ∉ pending_list w ∧
  ∃ tr, transports w !! t = Some tr ∧ connection_state_ tr = kCsOffline ∧
    if kept then IsTcpDevice tr = true ∧ kicked_ tr = false ∧ keys_ tr = []
    else IsTcpDevice tr && negb (kicked_ tr) = false.

Lemma wp_transport_destroy F w t tr :
  server_ok w → transports w !! t = Some tr → connection_state_ tr = kCsOffline → t ∉ pending_list w →
  wp F (transport_destroy t) (λ kept w', torn_down t kept w' ∧ socks w' = socks w ∧
    listener_list w' = listener_list w ∧ kept = IsTcpDevice tr && negb (kicked_ tr)) w.
Proof.
  intros Hs Htr Hoff Hp. destruct (wf_conn _ _ (sv_wf _ Hs) t tr Htr) as [[c Hc] _].
  unfold transport_destroy. do 3 wstep. eapply wp_lift; [by rewrite Hc|]. wstep. eapply wp_tupd; [done..|].
  set (tr2 := set_connection _ tr). set (w2 := set_transports _ _).
  assert (server_ok w2) as Hs2 by by eapply server_ok_tput.
  assert (transports w2 !! t = Some tr2) as Htr2 by apply lookup_insert_eq.
  destruct (IsTcpDevice tr && negb (kicked_ tr)) eqn:Ek.
  - pose proof Ek as [Etcp Ekick%negb_true_iff]%andb_true_iff. wstep. eapply wp_tupd; [done..|]. wstep.
    split_and!; try done. split_and!; [by eapply server_ok_tput|done|]. eexists. wcbn. by rewrite lookup_insert_eq.
  - wstep. split_and!; try done. split_and!; [done..|]. by exists tr2.
Qed.

Lemma wp_HandleError F w t tr :
  server_ok w → transports w !! t = Some tr → connection_state_ tr ≠ kCsOffline → t ∉ pending_list w →
  wp F (HandleError smart t) (λ kept w', torn_down t kept w' ∧ detached w' t) w.
Proof.
  intros Hs Htr Hon Hp. unfold HandleError. wstep. eapply wp_mono; [by eapply wp_handle_offline|].
  intros [] w1 (Hs1 & Hp1 & (tr1 & Htr1 & Hoff) & Hdet). specialize (Hdet Hon). rewrite <- Hp1 in Hp.
  eapply wp_mono; [by eapply wp_transport_destroy|]. intros kept w2 (Hd & Hso & Hli & _). split; [done|].
  unfold detached. by rewrite Hso, Hli.
Qed.

Lemma wp_fdevent_unregister_transport F w t tr (Q : unit → world → Prop) :
  transports w !! t = Some tr → t ∉ pending_list w → device_tracker_list w = [] →
  (∀ u, u ∈ transport_list w ++ pending_list w → is_Some (transports w !! u)) →
  (∀ b c l, Q () (set_log c l (set_ready_flag b (set_transports (delete t (transports w))
    (set_transport_lists (filter (λ x, x ≠ t) (transport_list w)) (pending_list w) w))))) →
  wp F (fdevent_unregister_transport smart t) Q w.
Proof.
  intros Htr Hp Hun Hl HQ. unfold fdevent_unregister_transport. do 6 wstep.
  apply wp_update_transports_listed; [exact (lists_delete w t Hl Hp)|done|]. exact HQ.
Qed.

(** The second task, in any state in which nothing in use refers to the transport. *)
Lemma wp_unregister_detached F w t :
  server_ok w → is_Some (transports w !! t) → detached w t → t ∉ pending_list w →
  wp F (fdevent_unregister_transport smart t)
    (λ _ w', server_ok w' ∧ transports w' = delete t (transports w) ∧ t ∉ transport_list w' ∧ socks w' = socks w) w.
Proof.
  intros Hs [tr Htr] Hdet Hp. eapply wp_fdevent_unregister_transport; [done..|apply Hs|apply Hs|]. intros b c l.
  split; [by apply server_ok_log, server_ok_flag, server_ok_delete|]. split_and!; [done| |done]. wcbn.
  rewrite elem_of_filter_ne. naive_solver.
Qed.

(** ** A refused authentication *)

(** A non-token A_AUTH changes the transport's state and nothing else. *)
Lemma wp_auth_refused F w t tr p (Q : unit → world → Prop) :
  server_ok w → transports w !! t = Some tr → use_tls tr = false →
  command (msg p) = A_AUTH → arg0 (msg p) ≠ ADB_AUTH_TOKEN → size_ (payload p) = data_length (msg p) →
  (∀ w', server_ok w' → socks w' = socks w → pending_list w' = pending_list w →
    transports w' !! t = Some (set_connection_state kCsOffline tr) → Q () w') →
  wp F (handle_packet smart p t) Q w.
Proof.
  intros Hs Htr Htls Hc Ha%Z.eqb_neq Hsz HQ. unfold handle_packet. wstep.
  eapply wp_lift; [apply check_true; by apply Z.eqb_eq|]. cbv zeta. rewrite Hc.
  cbn [Z.eqb A_CNXN A_STLS A_AUTH Pos.eqb]. unfold handle_auth. do 2 wstep. rewrite Htls, Ha. wstep.
  eapply wp_SetConnectionState; [done..|]. intros b c l w1 Hs1. assert (transports w1 !! t = Some (set_connection_state kCsOffline tr)) as Htr1 by apply lookup_insert_eq.
  unfold handle_offline. do 2 wstep. rewrite bool_decide_eq_true_2 by done. wstep. by apply HQ.
Qed.
End server.

(** ** Claims *)

Section claims.
Context `{OS} `{!OSLaws} `{Uninit} `{Host} `{Protobuf} `{Auth} `{!AuthLaws}.

(** C1. The server handles every packet that it accepts from a device (connect, TLS,
    authentication, open, okay, close, write or an unknown command, in any state of the
    connection): no freed socket or transport is used, no [CHECK] fails and the invariant
    holds afterwards.  The conditions are these.  The packet came through the framing
    ([wire_packet]: the payload has the announced length, fields fit their widths), and the
    payload of an A_OPEN contains a NUL (without one the server reads past its end, see
    [open_without_nul_undefined]).  The invariant [server_ok] holds before, which includes
    that no client tracks devices; and no socket has so much data queued, within 2^33 bytes of
    2^64, that its length would overflow ([queue_room]).  The one packet that can end the
    server is A_OPEN ([open_aborts]), because the device asked for an address that was not
    configured with [adb reverse], which is fatal on purpose, or because 2^32 - 1 socket ids
    were used up. *)
Theorem handle_packet_safe smart w t tr p :
  server_ok w → queue_room w → transports w !! t = Some tr → wire_packet p →
  (command (msg p) = A_OPEN → ∃ a, cstring_of_block (payload p) = Ok a) →
  wp (command (msg p) = A_OPEN ∧ open_aborts w tr p) (handle_packet smart p t)
    (λ _ w', server_ok w' ∧ is_Some (transports w' !! t)) w.
Proof. intros. eapply wp_mono; [by apply wp_handle_packet|]. intros [] w' (? & _ & ?). done. Qed.

(** C2. A transport that was not already offline, is not pending, and whose connection
    fails while no client tracks devices, is torn down in two tasks of the looper.  After the
    first its sockets are closed and its listeners removed, so that nothing in use names it
    ([detached]: only closed sockets that still write their queue may), the invariant holds,
    and the transport still exists, offline: either a tcp transport that was not kicked, with
    its keys reset, for the reconnect handler, or one to be removed.  The second task, run in
    whatever state other tasks have made of it by then, deletes the transport and nothing
    else and keeps the invariant, provided that nothing in use names the transport again.
    For a transport that is offline already see [auth_error_use_after_free]. *)
Theorem HandleError_detaches smart w t tr :
  server_ok w → transports w !! t = Some tr → connection_state_ tr ≠ kCsOffline → t ∉ pending_list w →
  wp False (HandleError smart t) (λ kept w', torn_down t kept w' ∧ detached w' t) w ∧
  (∀ w', server_ok w' → is_Some (transports w' !! t) → detached w' t → t ∉ pending_list w' →
    wp False (fdevent_unregister_transport smart t) (λ _ w'', server_ok w'' ∧
      transports w'' = delete t (transports w') ∧ t ∉ transport_list w'' ∧ socks w'' = socks w') w').
Proof. intros. split; [by eapply wp_HandleError|]. intros. by apply wp_unregister_detached. Qed.

(** C40. An A_AUTH packet that is not a token sets the state to offline first, so that
    [handle_offline] returns at once: not one socket is closed or changed.  When the
    connection then fails, [HandleError] takes the same early return, and the transport, if it
    is not one that is kept for reconnection, is deleted: every socket of it is still there
    and still points to it, and the next readable event of such a socket uses the deleted
    transport. *)
Theorem auth_error_use_after_free smart w t tr p :
  server_ok w → transports w !! t = Some tr → use_tls tr = false → t ∉ pending_list w →
  IsTcpDevice tr && negb (kicked_ tr) = false →
  command (msg p) = A_AUTH → arg0 (msg p) ≠ ADB_AUTH_TOKEN → size_ (payload p) = data_length (msg p) →
  wp False (handle_packet smart p t ;; kept ← HandleError smart t;
            if kept : bool then mret () else fdevent_unregister_transport smart t)
    (λ _ w', transports w' !! t = None ∧ socks w' = socks w ∧
      ∀ q s, socks w !! q = Some s → transport s = Some t →
        local_socket_event_func (enq smart) FDE_READ q w' = Undef) w.
Proof.
  intros Hs Htr Htls Hp Hk Hc Ha Hsz. wstep. eapply wp_auth_refused; [done..|]. intros w1 Hs1 Hso1 Hp1 Htr1.
  rewrite <- Hp1 in Hp. wstep. unfold HandleError. wstep. unfold handle_offline. do 2 wstep. rewrite bool_decide_eq_true_2 by done. wstep.
  eapply wp_mono; [by eapply wp_transport_destroy|]. intros kept w2 ((Hs2 & Hp2 & tr2 & Htr2 & _) & Hso2 & _ & ->).
  change (wp False (if IsTcpDevice tr && negb (kicked_ tr) then mret () else fdevent_unregister_transport smart t)
    (λ _ w', transports w' !! t = None ∧ socks w' = socks w ∧ ∀ q s, socks w !! q = Some s → transport s = Some t →
      local_socket_event_func (enq smart) FDE_READ q w' = Undef) w2). rewrite Hk.
  eapply wp_fdevent_unregister_transport; [done..|apply Hs2|apply Hs2|]. intros b c l. wcbn.
  rewrite lookup_delete_eq, Hso2, Hso1. split_and!; [done..|]. intros q s Hq Ht.
  apply (event_without_transport _ _ _ s t); wcbn; [by rewrite Hso2, Hso1|done|by rewrite lookup_delete_eq].
Qed.

(** An A_OPEN whose payload has no NUL byte makes the server read past the end of the
    payload: the address is passed to [IsReverseConfigured] as a C string. *)
Theorem open_without_nul_undefined smart w t tr p d :
  transports w !! t = Some tr → online tr = true → command (msg p) = A_OPEN → arg0 (msg p) ≠ 0 →
  delayed_ack_ tr = negb (arg1 (msg p) =? 0) → size_ (payload p) = data_length (msg p) →
  data_ (payload p) = Some d → x00 ∉ d →
  handle_packet smart p t w = Undef.
Proof.
  intros Htr Hon Hc Ha0 Hda Hsz Hd Hnul. unfold handle_packet. unfold mbind, M_bind at 1, lift at 1.
  rewrite check_true by by apply Z.eqb_eq. cbv zeta. rewrite Hc. cbn [Z.eqb A_OPEN A_CNXN A_STLS A_AUTH Pos.eqb].
  unfold handle_open. unfold mbind, M_bind at 1, tget at 1. rewrite Htr, Hon. cbn [negb orb].
  rewrite (proj2 (Z.eqb_neq _ _) Ha0), Hda, Bool.eqb_reflx. cbn [negb].
  unfold M_bind at 1, lift at 1, cstring_of_block. rewrite Hd, bool_decide_eq_false_2 by done. done.
Qed.
End claims.

(** ** Where the code falls short *)

(** A stream whose client has not read what was sent to it. *)
Definition unread : IOVector := mkIOV 5 0 0 [hello].

(** Interfaces for evaluation: nothing to print, no keys. *)
Definition no_proto : Protobuf := {| proto_print _ _ := [] |}.
Definition no_keys : Auth := {| g_keys := []; rsa_sign _ _ := []; user_pubkey := [] |}.

(** A closed socket that still has data for its client keeps its pointer to the transport,
    also when the transport is deleted.  The event loop reports a hang-up of the client as
    readable even though the socket stopped waiting for that, and the read then asks the
    deleted transport for its payload limit. *)
Theorem closing_socket_hangup_undefined :
  let smart := @refuse quiet_os in
  (_ ← @HandleError quiet_os zero_heap plain_host no_proto smart 1;
   @fdevent_unregister_transport quiet_os zero_heap plain_host no_proto smart 1 ;;
   @local_socket_event_func quiet_os zero_heap (@enq quiet_os zero_heap smart) (Z.lor FDE_READ FDE_ERROR) 2)
    (one_stream unread) = Undef.
Proof. vm_compute. reflexivity. Qed.

(** Two devices, at 1 and 4; the stream belongs to device 1. *)
Definition two_devices : world :=
  set_next_ptr 5 (set_transport_lists [4%positive; 1%positive] []
    (set_transports {[1%positive := online_transport 1 (txt "dev"); 4%positive := online_transport 2 (txt "evil")]}
      (one_stream empty_iov))).
Definition data_packet (command arg0 arg1 : Z) (data : bytes) : apacket :=
  mkPacket (mkMsg command arg0 arg1 (llen data) 0 0) (mkBlock (Some data) (llen data) (llen data)).

(** The ids of a stream are all a device needs: a write, an acknowledgement or a close with
    both ids is carried out also when it comes from another device than the one the stream
    belongs to.  Here device 4 writes into the client of device 1, and closes its stream. *)
Theorem packets_from_another_device :
  let hp p := @handle_packet quiet_os zero_heap plain_host no_proto no_keys (@refuse quiet_os) p 4 in
  (∃ w, hp (data_packet A_WRTE 77 1 (txt "hello")) two_devices = Ok ((), w) ∧ EvWritev 10 (txt "hello") ∈ trace w) ∧
  (∃ w, hp (bare_packet A_CLSE 77 1) two_devices = Ok ((), w) ∧ socks w = ∅).
Proof.
  split; eexists; (split; [vm_compute; reflexivity|]); [|vm_compute; reflexivity].
  vm_compute. apply list_elem_of_here.
Qed.

(** The device at 1 may connect to [tcp:localhost]. *)
Definition localhost_transport : atransport :=
  set_reverse {[txt "tcp:7000" := txt "tcp:localhost"]} (online_transport 1 (txt "dev")).
Definition reverse_localhost : world := set_transports {[1%positive := localhost_transport]} one_transport.

(** The allow-list is asked about the address up to its first NUL, the connection is made
    with the whole address.  A device that may connect to [tcp:localhost], which means the
    default port, can put a NUL and another port behind it and is connected to that port. *)
Theorem open_nul_escapes_allow_list :
  let address := txt "tcp:localhost" ++ [x00] ++ txt ":22" in
  IsReverseConfigured (txt "tcp:localhost:22") localhost_transport = false ∧
  ∃ w, @handle_packet quiet_os zero_heap plain_host no_proto no_keys (@refuse quiet_os)
      (data_packet A_OPEN 5 0 address) 1 reverse_localhost = Ok ((), w) ∧
    EvConnect (TcpHost (txt "localhost" ++ [x00]) 22) ∈ trace w.
Proof.
  split; [vm_compute; reflexivity|]. eexists. split; [vm_compute; reflexivity|]. vm_compute. apply list_elem_of_here.
Qed.

(** ** Witnesses *)

Lemma one_stream_server q : front_wf q → server_ok (one_stream q).
Proof.
  intros Hq. split; [by apply one_stream_wf| | |done].
  - eapply (listeners_ok_core one_transport); [apply listeners_ok_one|done|done|]. intros t. reflexivity.
  - intros t Ht. cbn in Ht. apply list_elem_of_singleton in Ht as ->. by eexists.
Qed.

Lemma no_keys_laws : @AuthLaws no_keys.
Proof. by split. Qed.

Lemma handle_packet_safe_witness :
  ∃ w', @handle_packet quiet_os zero_heap plain_host no_proto no_keys (@refuse quiet_os)
    (data_packet A_WRTE 77 1 (txt "hello")) 1 (one_stream empty_iov) = Ok ((), w') ∧ server_ok w'.
Proof.
  assert (wire_packet (data_packet A_WRTE 77 1 (txt "hello"))) as Hp by done.
  pose proof (@handle_packet_safe quiet_os quiet_os_laws zero_heap plain_host no_proto no_keys no_keys_laws (@refuse quiet_os)
    (one_stream empty_iov) 1 (online_transport 1 (txt "dev")) (data_packet A_WRTE 77 1 (txt "hello"))
    (one_stream_server _ empty_front_wf) (one_stream_room _ empty_front_wf eq_refl) eq_refl Hp ltac:(by intros [=])) as E.
  unfold wp in E. destruct (@handle_packet _ _ _ _ _ _ _ _ _) as [[[] w']| | | |] eqn:R; try contradiction.
  - exists w'. split; [reflexivity|exact (proj1 E)].
  - destruct E as [E _]. discriminate E.
Defined.


Lemma HandleError_detaches_witness :
  ∃ w' w'', @HandleError quiet_os zero_heap plain_host no_proto (@refuse quiet_os) 1 (one_stream unread) = Ok (false, w') ∧
    @fdevent_unregister_transport quiet_os zero_heap plain_host no_proto (@refuse quiet_os) 1 w' = Ok ((), w'') ∧
    is_Some (transports w' !! 1%positive) ∧ server_ok w'' ∧ transports w'' !! 1%positive = None.
Proof.
  assert (front_wf unread) as Hq by (split; [split; [done|]|done]; split_and!; repeat constructor; done).
  pose proof (@HandleError_detaches quiet_os quiet_os_laws zero_heap plain_host no_proto (@refuse quiet_os)
    (one_stream unread) 1 (online_transport 1 (txt "dev")) (one_stream_server _ Hq) eq_refl ltac:(done) ltac:(vm_compute; set_solver)) as [E E2].
  unfold wp in E at 1. destruct (@HandleError _ _ _ _ _ _ _) as [[kept w']| | | |] eqn:R; try contradiction.
  destruct E as [(Hs & Hp & tr & Htr & _) Hdet]. specialize (E2 w' Hs (ex_intro _ tr Htr) Hdet Hp). unfold wp in E2.
  destruct (@fdevent_unregister_transport _ _ _ _ _ _ _) as [[[] w'']| | | |] eqn:R2; try contradiction.
  destruct E2 as (Hs2 & E2 & _). assert (kept = false) as -> by (vm_compute in R; injection R as <- _; reflexivity).
  exists w', w''. split; [reflexivity|]. split; [exact R2|]. split; [exists tr; exact Htr|]. split; [exact Hs2|].
  rewrite E2. apply lookup_delete_eq.
Defined.

Lemma open_without_nul_undefined_witness :
  @handle_packet quiet_os zero_heap plain_host no_proto no_keys (@refuse quiet_os)
    (data_packet A_OPEN 5 0 (txt "tcp:80")) 1 one_transport = Undef.
Proof.
  apply (@open_without_nul_undefined quiet_os zero_heap plain_host no_proto no_keys (@refuse quiet_os) one_transport 1
    (online_transport 1 (txt "dev")) (data_packet A_OPEN 5 0 (txt "tcp:80")) (txt "tcp:80"));
    try reflexivity; [discriminate|]. vm_compute. intros E. repeat (apply elem_of_cons in E as [E|E]; [discriminate E|]).
  by apply elem_of_nil in E.
Defined.

Lemma auth_error_use_after_free_witness :
  ∃ w', (@handle_packet quiet_os zero_heap plain_host no_proto no_keys (@refuse quiet_os) (bare_packet A_AUTH 3 0) 1 ;;
      kept ← @HandleError quiet_os zero_heap plain_host no_proto (@refuse quiet_os) 1;
      if kept : bool then mret ()
      else @fdevent_unregister_transport quiet_os zero_heap plain_host no_proto (@refuse quiet_os) 1) (one_stream empty_iov) = Ok ((), w') ∧
    is_Some (socks w' !! 2%positive) ∧
    @local_socket_event_func quiet_os zero_heap (@enq quiet_os zero_heap (@refuse quiet_os)) FDE_READ 2 w' = Undef.
Proof.
  pose proof (@auth_error_use_after_free quiet_os zero_heap plain_host no_proto no_keys (@refuse quiet_os)
    (one_stream empty_iov) 1 (online_transport 1 (txt "dev")) (bare_packet A_AUTH 3 0) (one_stream_server _ empty_front_wf)
    eq_refl eq_refl ltac:(vm_compute; set_solver) eq_refl eq_refl ltac:(done) eq_refl) as E.
  unfold wp in E. match type of E with match ?r with _ => _ end => destruct r as [[[] w']| | | |]; try contradiction end.
  destruct E as (_ & Hso & Hev). exists w'. split; [reflexivity|].
  split; [rewrite Hso; vm_compute; eexists; reflexivity|]. exact (Hev 2%positive _ eq_refl eq_refl).
Defined.
