(* ===== verification/Services.v ===== *)
(** * Requests of a client

    Models the services of the adb server: [smart_socket_enqueue] of adb/sockets.cpp, which
    collects a request of a client and decides what becomes of the connection,
    [handle_host_request] and [handle_forward_request] of adb/adb.cpp, the host services of
    adb/services.cpp, and the functions of adb/transport.cpp they call on transports.

    The threads that adb/services.cpp starts are events; the loop of the one that waits for
    a device is [wait_service].  [smart] stands for [smart_socket_enqueue] where a request
    calls back into the sockets, and [smart_socket] ties the knot.  [local_connect] is the
    emulator component of client/transport_local.cpp, with the contract [EmulatorSpec] of
    ServicesInv, which Emulator.v proves.  The proofs are in ServicesInv. *)

From S2P Require Import Prelude Types TransportFd Strings SocketSpec Transport World HostService Sockets Listeners Adb.

Definition ADB_SERVER_VERSION : Z := 41.
Definition kFeaturePushSync : bytes := txt "push_sync".
Definition kFeatureLibusb : bytes := txt "libusb".

(** client/usb.h: the build has no libusb. *)
Definition should_use_libusb : bool := false.

Inductive HostRequestResult := Handled | SwitchedTransport | Unhandled.

Section services.
Context `{OS} `{Uninit} `{Host} `{Protobuf}.
Context (gListenAll g_reject_kill_server : bool) (local_connect : Z → M bool).
Context (smart : ptr → Block → M Z).

(** ** Transports (adb/transport.cpp) *)

(** The notification wakes the reconnect handler. *)
Definition kick_transport (t : ptr) (reset : bool) : M unit :=
  l ← gets transport_list;
  when (bool_decide (t ∈ l)) (tupd t (if reset then Reset else Kick)) ;;
  _ ← emit EvWake;
  mret ().

(** [close_usb_devices] from the list on: the transports the predicate held of. *)
Fixpoint close_usb_loop (predicate : atransport → bool) (reset : bool) (l : list ptr) : M (list atransport) :=
  match l with
  | [] => mret []
  | t :: l =>
      tr ← tget t;
      if predicate tr then
        tupd t (if reset then Reset else Kick) ;;
        rest ← close_usb_loop predicate reset l;
        mret (tr :: rest)
      else close_usb_loop predicate reset l
  end.
Definition close_usb_devices (predicate : atransport → bool) (reset : bool) : M (list atransport) :=
  l ← gets transport_list; close_usb_loop predicate reset l.

Definition kick_all_tcp_devices : M unit :=
  l ← gets transport_list;
  _ ← close_usb_loop IsTcpDevice false l;
  _ ← emit EvWake;
  mret ().

(** [Connection::Attach] and [Connection::Detach], which no connection of the build overrides. *)
Definition Connection_Attach : bool * bytes := (false, txt "transport type doesn't support attach").
Definition Connection_Detach : bool * bytes := (false, txt "transport type doesn't support detach").

(** The result and [*error]. *)
Definition Attach (t : ptr) : M (bool * bytes) :=
  if negb should_use_libusb then mret (false, txt "attach/detach only implemented for libusb backend") else
  tr ← tget t;
  if negb (bool_decide (connection_state_ tr = kCsDetached))
  then mret (false, txt "transport " ++ c_str (serial tr) ++ txt " is not detached") else
  tupd t (λ tr, Ok (ResetKeys tr)) ;;
  if negb Connection_Attach.1 then mret Connection_Attach else
  send_connect t ;;
  mret (true, []).
Definition Detach (t : ptr) : M (bool * bytes) :=
  if negb should_use_libusb then mret (false, txt "attach/detach only implemented for libusb backend") else
  tr ← tget t;
  if bool_decide (connection_state_ tr = kCsDetached)
  then mret (false, txt "transport " ++ c_str (serial tr) ++ txt " is already detached") else
  handle_offline smart t ;;
  if negb Connection_Detach.1 then mret Connection_Detach else
  SetConnectionState smart t kCsDetached ;;
  mret (true, []).

(** [acquire_one_transport] over the current list: the transport and [*error_out]. *)
Definition acquire (ty : TransportType) (serial : option bytes) (transport_id : Z) (accept_any_state : bool) :
    M (option ptr * bytes) :=
  l ← gets transport_list;
  ts ← list_transport_objects l;
  r ← lift (acquire_one_transport ty serial transport_id ts accept_any_state);
  mret (r.1.1, r.1.2).

Definition find_transport_now (serial : bytes) : M (option ptr) :=
  l ← gets transport_list;
  ts ← list_transport_objects l;
  mret (find_transport serial ts).

(** ** Forwarding (adb/adb.cpp) *)

Definition forward_message (r : InstallStatus) (error service : bytes) : bytes :=
  match r with
  | INSTALL_STATUS_OK => txt "success (!)"
  | INSTALL_STATUS_INTERNAL_ERROR => txt "internal error"
  | INSTALL_STATUS_CANNOT_BIND => txt "cannot bind listener: " ++ c_str error
  | INSTALL_STATUS_CANNOT_REBIND => txt "cannot rebind existing socket"
  | INSTALL_STATUS_LISTENER_NOT_FOUND => txt "listener '" ++ service ++ txt "' not found"
  end.

(** What is asked for behind [killforward:] or [forward:]: kill, norebind and the text. *)
Definition forward_mode (service : bytes) : bool * bool * bytes :=
  match ConsumePrefix service (txt "killforward:") with
  | Some rest => (true, false, rest)
  | None =>
      let rest := drop 8 service in
      match ConsumePrefix rest (txt "norebind:") with
      | Some rest => (false, true, rest)
      | None => (false, false, rest)
      end
  end.

Definition forward_pieces_ok (kill_forward : bool) (pieces : list bytes) : bool :=
  if kill_forward then match pieces with [_ :: _] => true | _ => false end
  else match pieces with [_ :: _; b :: _] => negb (bool_decide (b = x2a)) | _ => false end.

(** [service] is a C string; the acquirer returns the transport and what it stored in
    [*error]. *)
Definition handle_forward_request (service : bytes) (transport_acquirer : M (option ptr * bytes)) (reply_fd : Z) :
    M bool :=
  if bool_decide (service = txt "list-forward") then
    listeners ← format_listeners;
    _ ← SendOkay reply_fd;
    _ ← SendProtocolString reply_fd listeners;
    mret true
  else if bool_decide (service = txt "killforward-all") then
    remove_all_listeners ;;
    _ ← SendOkay reply_fd;
    _ ← SendOkay reply_fd;
    mret true
  else if StartsWith service (txt "forward:") || StartsWith service (txt "killforward:") then
    '(t, error) ← transport_acquirer;
    match t with
    | None => _ ← SendFail reply_fd error; mret true
    | Some t =>
        let '(kill_forward, no_rebind, service) := forward_mode service in
        pieces ← lift (Split service (txt ";"));
        if negb (forward_pieces_ok kill_forward pieces) then
          _ ← SendFail reply_fd ((if kill_forward then txt "bad killforward: " else txt "bad forward: ") ++ service);
          mret true
        else
          '(r, resolved_tcp_port, error) ←
            (if kill_forward : bool
             then r ← remove_listener (default [] (pieces !! 0%nat)); mret (r, 0, [])
             else install_listener gListenAll (default [] (pieces !! 0%nat)) (default [] (pieces !! 1%nat)) (Some t)
                    (if no_rebind then INSTALL_LISTENER_NO_REBIND else 0));
          match r with
          | INSTALL_STATUS_OK =>
              _ ← SendOkay reply_fd;
              _ ← SendOkay reply_fd;
              (if resolved_tcp_port =? 0 then mret ()
               else _ ← SendProtocolString reply_fd (dec resolved_tcp_port); mret ()) ;;
              mret true
          | _ => _ ← SendFail reply_fd (forward_message r error service); mret true
          end
    end
  else mret false.

(** ** Host requests (adb/adb.cpp) *)

(** [SendOkay(fd, s)]. *)
Definition SendOkayString (fd : Z) (s : bytes) : M unit :=
  _ ← SendOkay fd; _ ← SendProtocolString fd s; mret ().

Definition handle_mdns_request (service : bytes) (reply_fd : Z) : M bool := mret false.

(** How a [transport...] or [tport:] request selects: type, serial, id and whether it is the
    old protocol; [None] for a transport id that does not parse. *)
Definition transport_selection (service : bytes) (serial : option bytes) (transport_id : Z) :
    option (TransportType * option bytes * Z * bool) :=
  match ConsumePrefix service (txt "tport:") with
  | Some service =>
      Some match ConsumePrefix service (txt "serial:") with
           | Some s => (kTransportAny, Some s, transport_id, false)
           | None =>
               (if bool_decide (service = txt "usb") then kTransportUsb
                else if bool_decide (service = txt "local") then kTransportLocal else kTransportAny,
                serial, transport_id, false)
           end
  | None =>
      match ConsumePrefix service (txt "transport-id:") with
      | Some service =>
          match ParseUint_sv (2 ^ 64 - 1) service with
          | Some (id, []) => Some (kTransportAny, serial, id, true)
          | _ => None
          end
      | None =>
          Some (if bool_decide (service = txt "transport-usb") then (kTransportUsb, serial, transport_id, true)
                else if bool_decide (service = txt "transport-local") then (kTransportLocal, serial, transport_id, true)
                else match ConsumePrefix service (txt "transport:") with
                     | Some s => (kTransportAny, Some s, transport_id, true)
                     | None => (kTransportAny, serial, transport_id, true)
                     end)
      end
  end.

(** The eight bytes of [t->id]. *)
Definition transport_id_bytes (id : Z) : bytes := le32 (id mod 2 ^ 32) ++ le32 (id / 2 ^ 32).

Section host_request.
Context (ty : TransportType) (serial : option bytes) (transport_id reply_fd : Z) (s : ptr).

(** [s->transport ? s->transport : acquire_one_transport(type, serial, transport_id, ...)]. *)
Definition own_or_acquire (accept_any_state : bool) : M (option ptr * bytes) :=
  so ← sget s;
  match transport so with
  | Some t => mret (Some t, [])
  | None => acquire ty serial transport_id accept_any_state
  end.

Definition select_transport (service : bytes) : M HostRequestResult :=
  match transport_selection service serial transport_id with
  | None => _ ← SendFail reply_fd (txt "invalid transport id"); mret Handled
  | Some (ty', serial', transport_id', legacy) =>
      '(t, error) ← acquire ty' serial' transport_id' false;
      match t with
      | Some t =>
          supd s (set_transport (Some t)) ;;
          _ ← SendOkay reply_fd;
          (if legacy : bool then mret () else
             tr ← tget t; _ ← WriteFdExactly reply_fd (transport_id_bytes (id tr)); mret ()) ;;
          mret SwitchedTransport
      | None => _ ← SendFail reply_fd error; mret Handled
      end
  end.

(** Answers with a text of the transport, or with the error. *)
Definition report (f : atransport → bytes) : M HostRequestResult :=
  '(t, error) ← own_or_acquire false;
  match t with
  | Some t => tr ← tget t; SendOkayString reply_fd (f tr) ;; mret Handled
  | None => _ ← SendFail reply_fd error; mret Handled
  end.

Definition reconnect_offline : M HostRequestResult :=
  ts ← close_usb_devices (λ t, negb (ConnectionStateIsOnline (connection_state_ t))) true;
  let response := concat ((λ t, txt "reconnecting " ++ serial_name t ++ [x0a]) <$> ts) in
  SendOkayString reply_fd (removelast response) ;;
  mret Handled.

Definition disconnect (address : bytes) : M HostRequestResult :=
  let done_text := txt "disconnected " ++ c_str address in
  match address with
  | [] => kick_all_tcp_devices ;; SendOkayString reply_fd (txt "disconnected everything") ;; mret Handled
  | _ =>
      t ← find_transport_now address;
      match t with
      | Some t => kick_transport t false ;; SendOkayString reply_fd done_text ;; mret Handled
      | None =>
          let parsed :=
            if starts_with address (txt "vsock:") || starts_with address (txt "localfilesystem:") then inr address
            else match ParseNetAddress address DEFAULT_ADB_LOCAL_TRANSPORT_PORT with
                 | inl error => inl (txt "couldn't parse '" ++ c_str address ++ txt "': " ++ c_str error)
                 | inr a => inr (canonical_address a)
                 end in
          match parsed with
          | inl message => _ ← SendFail reply_fd message; mret Handled
          | inr serial =>
              t ← find_transport_now serial;
              match t with
              | None => _ ← SendFail reply_fd (txt "no such device '" ++ c_str serial ++ txt "'"); mret Handled
              | Some t => kick_transport t false ;; SendOkayString reply_fd done_text ;; mret Handled
              end
          end
      end
  end.

Definition reconnect : M HostRequestResult :=
  '(t, error) ← own_or_acquire true;
  response ← match t with
             | Some t =>
                 kick_transport t true ;;
                 tr ← tget t;
                 mret (txt "reconnecting " ++ serial_name tr ++ txt " [" ++ to_string (connection_state_ tr) ++
                       txt "]" ++ [x0a])
             | None => mret error
             end;
  SendOkayString reply_fd response ;;
  mret Handled.

Definition attach_request : M HostRequestResult :=
  '(t, error) ← own_or_acquire true;
  match t with
  | None => _ ← SendFail reply_fd error; mret Handled
  | Some t =>
      '(ok, error) ← Attach t;
      (if ok : bool then tr ← tget t; SendOkayString reply_fd (c_str (serial_name tr) ++ txt " attached")
       else _ ← SendFail reply_fd error; mret ()) ;;
      mret Handled
  end.
Definition detach_request : M HostRequestResult :=
  '(t, error) ← own_or_acquire true;
  match t with
  | None => _ ← SendFail reply_fd error; mret Handled
  | Some t =>
      supd s (set_transport None) ;;
      '(ok, error) ← Detach t;
      (if ok : bool then tr ← tget t; SendOkayString reply_fd (c_str (serial_name tr) ++ txt " detached")
       else _ ← SendFail reply_fd error; mret ()) ;;
      mret Handled
  end.

(** The lambda of the source stores the error of the lookup in a variable of its own. *)
Definition transport_acquirer : M (option ptr * bytes) :=
  '(t, _) ← own_or_acquire false; mret (t, []).

(** The requests behind the transport selection, in the order of the source. *)
Definition other_request (service : bytes) : M HostRequestResult :=
  if bool_decide (service = txt "devices") || bool_decide (service = txt "devices-l") then
    listing ← current_listing (if bool_decide (service = txt "devices-l") then LONG_TEXT else SHORT_TEXT);
    SendOkayString reply_fd listing ;; mret Handled
  else if bool_decide (service = txt "reconnect-offline") then reconnect_offline
  else if bool_decide (service = txt "features") then report (λ t, FeatureSetToString (features_ t))
  else if bool_decide (service = txt "host-features") then
    SendOkayString reply_fd (FeatureSetToString
      (supported_features ++ (if should_use_libusb then [kFeatureLibusb] else []) ++ [kFeaturePushSync])) ;;
    mret Handled
  else match ConsumePrefix service (txt "disconnect:") with Some address => disconnect address | None =>
  if bool_decide (service = txt "version") then
    SendOkayString reply_fd (fmt_04x ADB_SERVER_VERSION) ;; mret Handled
  else if bool_decide (service = txt "get-serialno") then
    report (λ t, match Transport.serial t with [] => txt "unknown" | sn => sn end)
  else if bool_decide (service = txt "get-devpath") then
    report (λ t, match devpath t with [] => txt "unknown" | d => d end)
  else if bool_decide (service = txt "get-state") then report (λ t, to_string (connection_state_ t))
  else match ConsumePrefix service (txt "emulator:") with
  | Some port =>
      match ParseUint_sv (2 ^ 32 - 1) port with
      | Some (p, []) => local_connect (s32 p) ;; mret Handled
      | _ => mret Handled
      end
  | None =>
  if bool_decide (service = txt "reconnect") then reconnect
  else if bool_decide (service = txt "attach") then attach_request
  else if bool_decide (service = txt "detach") then detach_request
  else
    forwarded ← handle_forward_request (c_str service) transport_acquirer reply_fd;
    if forwarded : bool then mret Handled else
    mdns ← handle_mdns_request service reply_fd;
    mret (if mdns : bool then Handled else Unhandled)
  end end.

(** A [kill] that is rejected goes on as any other request. *)
Definition handle_host_request (service : bytes) : M HostRequestResult :=
  (if bool_decide (service = txt "kill") then
     if g_reject_kill_server then
       _ ← SendFail reply_fd (txt "kill-server rejected by remote server"); mret ()
     else _ ← SendOkay reply_fd; lift Exit
   else mret ()) ;;
  if starts_with service (txt "transport") || starts_with service (txt "tport:")
  then select_transport service
  else other_request service.
End host_request.

(** ** Host services (adb/services.cpp) *)

(** [create_service_thread]: the descriptor, or -1. *)
Definition create_service_thread (body : service_thread) : M Z :=
  n ← gets clock;
  match os_socketpair n with
  | None => mret (-1)
  | Some fd => _ ← emit (EvService fd body); mret fd
  end.

(** The part before and behind the first colon of a C string. *)
Fixpoint split_colon (s : bytes) : option (bytes * bytes) :=
  match s with
  | [] => None
  | b :: s =>
      if bool_decide (b = x3a) then Some ([], s)
      else '(x, y) ← split_colon s; Some (b :: x, y)
  end.

Definition some_socket (m : M ptr) : M (option ptr) := p ← m; mret (Some p).

Definition host_service_to_socket (name serial : bytes) (transport_id : Z) : M (option ptr) :=
  if bool_decide (name = txt "track-devices") then some_socket (create_device_tracker SHORT_TEXT)
  else if bool_decide (name = txt "track-devices-l") then some_socket (create_device_tracker LONG_TEXT)
  else if bool_decide (name = txt "track-devices-proto-binary") then some_socket (create_device_tracker PROTOBUF)
  else if bool_decide (name = txt "track-devices-proto-text") then some_socket (create_device_tracker TEXT_PROTOBUF)
  else match ConsumePrefix name (txt "wait-for-") with
  | Some spec =>
      fd ← create_service_thread (wait_service_thread serial transport_id spec);
      some_socket (create_local_socket fd)
  | None =>
  match ConsumePrefix name (txt "connect:") with
  | Some host =>
      fd ← create_service_thread (connect_service_thread host);
      some_socket (create_local_socket fd)
  | None =>
  match ConsumePrefix name (txt "pair:") with
  | Some name =>
      match split_colon (c_str name) with
      | None => mret None
      | Some (password, host) =>
          fd ← create_service_thread (pair_service_thread host password);
          some_socket (create_local_socket fd)
      end
  | None => mret None
  end end end.

(** ** The smart socket (adb/sockets.cpp) *)

(** What the prefix of a request makes of it: closed, ignored, a host service (with its
    serial, id and type), or a service of the device. *)
Inductive smart_request :=
  | ReqFail
  | ReqIgnored
  | ReqHost (service serial : bytes) (transport_id : Z) (ty : TransportType)
  | ReqDevice.

Definition parse_smart_request (service : bytes) : res smart_request :=
  match ConsumePrefix service (txt "host-serial:") with
  | Some service =>
      o ← parse_host_service service;
      Ok match o with
         | None => ReqFail
         | Some (serial, command) => ReqHost command serial 0 kTransportAny
         end
  | None =>
      Ok match ConsumePrefix service (txt "host-transport-id:") with
         | Some service =>
             match ParseUint_sv (2 ^ 64 - 1) service with
             | None => ReqIgnored
             | Some (id, service) =>
                 match ConsumePrefix service (txt ":") with
                 | None => ReqIgnored
                 | Some service => ReqHost service [] id kTransportAny
                 end
             end
         | None =>
             match ConsumePrefix service (txt "host-usb:") with
             | Some service => ReqHost service [] 0 kTransportUsb
             | None =>
                 match ConsumePrefix service (txt "host-local:") with
                 | Some service => ReqHost service [] 0 kTransportLocal
                 | None =>
                     match ConsumePrefix service (txt "host:") with
                     | Some service => ReqHost service [] 0 kTransportAny
                     | None => ReqDevice
                     end
                 end
             end
         end
  end.

(** The label [fail]. *)
Definition smart_fail (p : ptr) : M Z := socket_close p ;; mret (-1).

(** A host service that no request handler took. *)
Definition smart_service (p q : ptr) (service serial : bytes) (transport_id : Z) : M Z :=
  s2 ← host_service_to_socket service serial transport_id;
  sq ← sget q;
  match s2 with
  | None => _ ← SendFail (fd sq) (txt "unknown host service '" ++ service ++ txt "'"); smart_fail p
  | Some s2 =>
      _ ← SendOkay (fd sq);
      supd q (set_fns local_socket_ready_fn None local_socket_close_fn) ;;
      supd q (set_peer (Some s2)) ;;
      supd s2 (set_peer (Some q)) ;;
      supd p (set_peer None) ;;
      socket_close p ;;
      call_ready (call_enqueue smart) s2 ;;
      mret 0
  end.

(** A service of the device that the client has selected. *)
Definition smart_remote (p q : ptr) : M Z :=
  s ← sget p;
  sq ← sget q;
  match transport s with
  | None => _ ← SendFail (fd sq) (txt "device offline (no transport)"); smart_fail p
  | Some t =>
      tr ← tget t;
      if negb (ConnectionStateIsOnline (connection_state_ tr)) then
        _ ← SendFail (fd sq) (txt "device offline (transport offline)"); smart_fail p
      else
        supd q (set_fns local_socket_ready_notify_fn None local_socket_close_notify_fn) ;;
        supd q (set_peer None) ;;
        supd q (set_transport (Some t)) ;;
        connect_to_remote q (drop 4 (smart_socket_data s)) ;;
        supd p (set_peer None) ;;
        socket_close p ;;
        mret 1
  end.

(** [smart_socket_enqueue] once the data has been appended to what the socket holds. *)
Definition smart_process (p : ptr) : M Z :=
  s ← sget p;
  if llen (smart_socket_data s) <? 4 then mret 0 else
  let len := unhex (smart_socket_data s) 4 in
  if (len =? 0) || (MAX_PAYLOAD <? len) then smart_fail p else
  if llen (smart_socket_data s) <? len + 4 then mret 0 else
  supd p (λ s, set_smart_data (<[Z.to_nat (len + 4) := x00]> (smart_socket_data s)) s) ;;
  s ← sget p;
  r ← lift (parse_smart_request (drop 4 (smart_socket_data s)));
  match r with
  | ReqFail => smart_fail p
  | ReqIgnored => mret (-1)
  | ReqHost ((_ :: _) as service) serial transport_id ty =>
      q ← lift (deref (peer s));
      sq ← sget q;
      result ← handle_host_request ty (match serial with [] => None | _ => Some serial end) transport_id (fd sq) p service;
      match result with
      | Handled => smart_fail p
      | SwitchedTransport => supd p (set_smart_data []) ;; mret 0
      | Unhandled => smart_service p q service serial transport_id
      end
  | _ => q ← lift (deref (peer s)); smart_remote p q
  end.

Definition smart_socket_enqueue (p : ptr) (data : Block) : M Z :=
  supd p (λ s, set_smart_data (smart_socket_data s ++ contents data) s) ;;
  smart_process p.
End services.

(** The smart socket's own function, for as many nested calls as [fuel]. *)
Fixpoint smart_socket `{OS} `{Uninit} `{Host} `{Protobuf} (gListenAll g_reject_kill_server : bool)
    (local_connect : Z → M bool) (fuel : nat) (p : ptr) (data : Block) : M Z :=
  match fuel with
  | O => lift NoFuel
  | S fuel =>
      smart_socket_enqueue gListenAll g_reject_kill_server local_connect
        (smart_socket gListenAll g_reject_kill_server local_connect fuel) p data
  end.

(** ** Waiting for a device (adb/services.cpp) *)

Section wait.
Context `{Host}.

Inductive wait_reply := WaitOkay | WaitFail (reason : bytes).

Definition wait_type (component : bytes) : option TransportType :=
  if bool_decide (component = txt "local") then Some kTransportLocal
  else if bool_decide (component = txt "usb") then Some kTransportUsb
  else if bool_decide (component = txt "any") then Some kTransportAny
  else None.
Definition wait_state (component : bytes) : option ConnectionState :=
  if bool_decide (component = txt "device") then Some kCsDevice
  else if bool_decide (component = txt "recovery") then Some kCsRecovery
  else if bool_decide (component = txt "rescue") then Some kCsRescue
  else if bool_decide (component = txt "sideload") then Some kCsSideload
  else if bool_decide (component = txt "bootloader") then Some kCsBootloader
  else if bool_decide (component = txt "any") then Some kCsAny
  else if bool_decide (component = txt "disconnect") then Some kCsOffline
  else None.

(** The specification behind [wait-for-]: the reason of the failure, or type and states. *)
Definition parse_wait_spec (spec : bytes) : res (bytes + TransportType * list ConnectionState) :=
  components ← Split spec (txt "-");
  Ok match components with
     | ty :: ((_ :: _) as states) =>
         match wait_type ty with
         | None => inl (txt "bad wait-for- transport: " ++ spec)
         | Some ty =>
             match mapM wait_state states with
             | None => inl (txt "bad wait-for- state: " ++ spec)
             | Some states => inr (ty, states)
             end
         end
     | _ => inl (txt "short wait-for-: " ++ spec)
     end.

(** Is a state reached, given the transport that was found? *)
Definition wait_reached (t : option atransport) (state : ConnectionState) : bool :=
  if bool_decide (state = kCsOffline) then bool_decide (t = None)
  else match t with
       | Some tr => bool_decide (state = kCsAny) || bool_decide (state = connection_state_ tr)
       | None => false
       end.

(** One turn of the loop on the transports of the moment: the reply, or the error that is
    sent if the client hangs up. *)
Definition wait_turn (ty : TransportType) (serial : bytes) (transport_id : Z) (states : list ConnectionState)
    (ts : list (ptr * atransport)) : res (wait_reply + bytes) :=
  '(t, error, is_ambiguous) ← acquire_one_transport ty (match serial with [] => None | _ => Some serial end)
    transport_id ts false;
  if is_ambiguous : bool then Ok (inl (WaitFail error)) else
  let tr := t ≫= λ a, snd <$> head (filter (λ p, p.1 = a) ts) in
  Ok (if existsb (wait_reached tr) states then inl WaitOkay else inr error).

(** [snap n] are the transports at the n-th turn, [hung_up n] says that the poll behind it
    found the client gone. *)
Fixpoint wait_loop (fuel : nat) (snap : nat → list (ptr * atransport)) (hung_up : nat → bool) (n : nat)
    (ty : TransportType) (serial : bytes) (transport_id : Z) (states : list ConnectionState) : res wait_reply :=
  match fuel with
  | O => NoFuel
  | S fuel =>
      r ← wait_turn ty serial transport_id states (snap n);
      match r with
      | inl reply => Ok reply
      | inr error => if hung_up n then Ok (WaitFail error)
                     else wait_loop fuel snap hung_up (S n) ty serial transport_id states
      end
  end.
Definition wait_service (fuel : nat) (snap : nat → list (ptr * atransport)) (hung_up : nat → bool)
    (serial : bytes) (transport_id : Z) (spec : bytes) : res wait_reply :=
  p ← parse_wait_spec spec;
  match p with
  | inl reason => Ok (WaitFail reason)
  | inr (ty, states) => wait_loop fuel snap hung_up 0 ty serial transport_id states
  end.
End wait.
