(* ===== verification/ServicesInv.v ===== *)
(** * Requests of a client: invariants and theorems

    [hub_ok] is the invariant of the server as a request sees it: the socket invariant, the
    listeners' registration invariant, live transports in the lists, and banner properties
    without NUL bytes.  The first part shows what the request handlers keep, the second what
    the smart socket does with a connection, the third has the theorems. *)

From S2P Require Import Prelude Types TransportFd Strings SocketSpec Transport World HostService Sockets SocketInv Listeners Adb AdbInv Services.

(** ** Functions that leave things alone *)

(** Every run that returns relates the states before and after by [R]. *)
Definition keeps {A} (R : relation world) (m : M A) : Prop := ∀ w a w', m w = Ok (a, w') → R w w'.

Section keeps.
Context (R : relation world) `{!Reflexive R} `{!Transitive R}.

Lemma leaves_ret {A} (a : A) : keeps R (mret a).
Proof. intros w b w' [= <- <-]. reflexivity. Qed.
Lemma leaves_bind {A B} (m : M A) (f : A → M B) : keeps R m → (∀ a, keeps R (f a)) → keeps R (m ≫= f).
Proof.
  intros Hm Hf w b w'. unfold mbind, M_bind. destruct (m w) as [[a w1]| | | |] eqn:E; try done.
  intros Eb. etrans; [by eapply Hm|by eapply Hf].
Qed.
Lemma leaves_lift {A} (r : res A) : keeps R (lift r).
Proof. intros w b w'. unfold lift. destruct r; try done. intros [= <- <-]. reflexivity. Qed.
Lemma keeps_gets {A} (f : world → A) : keeps R (gets f).
Proof. intros w b w' [= <- <-]. reflexivity. Qed.
Lemma keeps_tget t : keeps R (tget t).
Proof. intros w b w'. unfold tget. destruct (_ !! _); [|done]. intros [= <- <-]. reflexivity. Qed.
Lemma keeps_when b m : keeps R m → keeps R (when b m).
Proof. destruct b; [done|]. intros _. apply leaves_ret. Qed.
End keeps.

Lemma wp_keeps {A} F (m : M A) R (Q : A → world → Prop) w :
  wp F m Q w → keeps R m → wp F m (λ a w', Q a w' ∧ R w w') w.
Proof. unfold wp, keeps. intros HQ Hk. destruct (m w) as [[a w']| | | |] eqn:E; eauto. Qed.

(** A transport of which only the callbacks changed, or whose connection was stopped. *)
Definition kin (tr tr' : atransport) : Prop :=
  set_disconnects [] (set_kicked true (set_connection None tr)) =
    set_disconnects [] (set_kicked true (set_connection None tr')) ∧
  (is_Some (connection_ tr) → is_Some (connection_ tr')).

(** No socket changed, and no transport came or went. *)
Record calm (w w' : world) : Prop := {
  calm_socks : socks w' = socks w;
  calm_lists : local_socket_list w' = local_socket_list w ∧
    local_socket_closing_list w' = local_socket_closing_list w ∧ device_tracker_list w' = device_tracker_list w;
  calm_ids : local_socket_next_id w' = local_socket_next_id w ∧ (next_ptr w ≤ next_ptr w')%positive;
  calm_transport_lists : transport_list w' = transport_list w ∧ pending_list w' = pending_list w;
  calm_transports t : option_Forall2 kin (transports w !! t) (transports w' !! t)
}.

#[global] Instance kin_refl : Reflexive kin.
Proof. intros tr. done. Qed.
#[global] Instance kin_trans : Transitive kin.
Proof. intros a b c [E1 H1] [E2 H2]. split; [by rewrite E1|auto]. Qed.
#[global] Instance calm_refl : Reflexive calm.
Proof. intros w. by split. Qed.
#[global] Instance calm_trans : Transitive calm.
Proof.
  intros w1 w2 w3 [E1 (L1 & C1 & D1) [I1 P1] [T1 Q1] K1] [E2 (L2 & C2 & D2) [I2 P2] [T2 Q2] K2].
  split; [congruence|split_and!; congruence|split; [congruence|lia]|split; congruence|].
  intros t. etrans; [apply K1|apply K2].
Qed.

Lemma tr_like_kin tr tr' : tr_like tr tr' → kin tr tr'.
Proof. intros [E Hc]. split; [|done]. by apply (f_equal (set_disconnects [])) in E. Qed.
Lemma sent_calm w w' : sent w w' → calm w w'.
Proof.
  intros (c & l & T & -> & HT). split; wcbn; try done. intros t. destruct (HT t); constructor. by apply tr_like_kin.
Qed.

(** ** The invariant *)

Definition plain_props (tr : atransport) : Prop := x00 ∉ product tr ∧ x00 ∉ model tr ∧ x00 ∉ device tr.

Record hub_ok (w : world) : Prop := {
  hub_wf : wf w;
  hub_listeners : listeners_ok w;
  hub_lists t : t ∈ transport_list w ++ pending_list w → is_Some (transports w !! t);
  hub_props t tr : transports w !! t = Some tr → plain_props tr
}.

Lemma wf_calm w w' : wf w → calm w w' → wf w'.
Proof.
  intros Hw [Es (El & Ec & Ed) [Ei Hn] _ HT]. destruct Hw. split; rewrite ?Es, ?El, ?Ec, ?Ed, ?Ei; try done.
  - intros p s t Hp Hr Ht. destruct (wf_transport p s t Hp Hr Ht) as [tr Htr]. specialize (HT t). rewrite Htr in HT.
    by inversion HT as [? ? _ E|].
  - intros t tr' Htr. specialize (HT t). rewrite Htr in HT. inversion HT as [tr ? [E Hc] E'|]; subst.
    destruct (wf_conn t tr) as [? ?]; [done|]. split; [auto|]. apply (f_equal max_payload) in E. cbn in E. lia.
  - intros p s Hp. specialize (wf_fresh p s Hp). lia.
Qed.

Lemma hub_ok_calm w w' : hub_ok w → calm w w' → listeners_ok w' → hub_ok w'.
Proof.
  intros [Hw _ Hl Hp] Hc Hl'. pose proof (wf_calm w w' Hw Hc). destruct Hc as [_ _ _ [Et Ep] HT]. split; try done.
  - intros t. rewrite Et, Ep. intros [tr Htr]%Hl. specialize (HT t). rewrite Htr in HT. by inversion HT as [? ? _ E|].
  - intros t tr' Htr. specialize (HT t). rewrite Htr in HT. inversion HT as [tr ? [E _] E'|]; subst.
    destruct (Hp t tr) as (? & ? & ?); [done|]. unfold plain_props.
    pose proof (f_equal product E). pose proof (f_equal model E). pose proof (f_equal device E). cbn in *. by split_and!; congruence.
Qed.

Lemma listeners_ok_sent w w' : listeners_ok w → sent w w' → listeners_ok w'.
Proof.
  intros Hl (c & l & T & -> & HT). eapply listeners_ok_core; [exact Hl|done|done|]. intros t. wcbn.
  destruct (HT t); constructor. by apply tr_like_core.
Qed.
Lemma hub_ok_sent w w' : hub_ok w → sent w w' → hub_ok w'.
Proof.
  intros Hw Hs. eapply hub_ok_calm; [done|by apply sent_calm|]. eapply listeners_ok_sent; [apply Hw|done].
Qed.

Lemma c_str_no_nul s : x00 ∉ c_str s.
Proof.
  induction s as [|b s IH]; cbn [c_str]; [by intros ?%elem_of_nil|]. destruct b; try set_solver.
Qed.

Section requests.
Context `{OS} `{!OSLaws} `{Uninit} `{Host} `{Protobuf}.

(** ** Replies and transports *)

Lemma wp_SendProtocolString F fd s (Q : bool → world → Prop) w :
  (∀ b w', sent w w' → Q b w') → wp F (SendProtocolString fd s) Q w.
Proof.
  intros HQ. unfold SendProtocolString. destruct (protocol_string s); [by apply wp_WriteFdExactly|].
  wstep. by apply HQ.
Qed.
Lemma wp_SendOkayString F fd s (Q : unit → world → Prop) w :
  (∀ w', sent w w' → Q () w') → wp F (SendOkayString fd s) Q w.
Proof.
  intros HQ. unfold SendOkayString. wstep. apply wp_SendOkay. intros _ w1 S1. wstep. apply wp_SendProtocolString.
  intros _ w2 S2. wstep. apply HQ. by etrans.
Qed.

Lemma Reset_like tr : is_Some (connection_ tr) → ∃ tr', Reset tr = Ok tr' ∧ tr_like tr tr'.
Proof.
  intros [c Hc]. unfold Reset. destruct (kicked_ tr); [by exists tr|]. rewrite Hc. cbn [deref]. rok.
  eexists. split; [done|]. split; [done|]. by eexists.
Qed.

(** Stopping the connection of a transport. *)
Lemma wp_stop F w t tr (reset : bool) (Q : unit → world → Prop) :
  connected w → transports w !! t = Some tr → (∀ w', sent w w' → Q () w') →
  wp F (tupd t (if reset then Reset else Kick)) Q w.
Proof.
  intros Hw Htr HQ. destruct (Hw t tr Htr) as [Hc _].
  assert (∃ tr', (if reset then Reset else Kick) tr = Ok tr' ∧ tr_like tr tr') as (tr' & E & Hlike).
  { destruct reset; [by apply Reset_like|by apply Kick_like]. }
  eapply wp_tupd; [exact Htr|by destruct reset|]. apply HQ. exists (clock w), (trace w), (<[t := tr']> (transports w)).
  split; [by destruct w|]. intros u. destruct (decide (t = u)) as [<-|]; [rewrite lookup_insert_eq, Htr; by constructor|].
  rewrite lookup_insert_ne by done. reflexivity.
Qed.

Lemma wp_wake F (Q : unit → world → Prop) w :
  (∀ w', sent w w' → Q () w') → wp F (_ ← emit EvWake; mret ()) Q w.
Proof. intros HQ. do 3 wstep. apply HQ, sent_log. Qed.

Lemma wp_kick_transport F w t tr reset (Q : unit → world → Prop) :
  connected w → transports w !! t = Some tr → (∀ w', sent w w' → Q () w') → wp F (kick_transport t reset) Q w.
Proof.
  intros Hw Htr HQ. unfold kick_transport. do 3 wstep. apply wp_when; intros _.
  - eapply wp_stop; [done..|]. intros w1 S1. apply wp_wake. intros w2 S2. apply HQ. by etrans.
  - by apply wp_wake.
Qed.

Lemma connected_sent w w' : connected w → sent w w' → connected w'.
Proof.
  intros Hw (c & l & T & -> & HT) t tr' Htr. specialize (HT t). cbn in Htr. rewrite Htr in HT.
  inversion HT as [tr ? [E Hc] E'|]; subst. destruct (Hw t tr) as [? ?]; [done|]. split; [auto|].
  apply (f_equal max_payload) in E. cbn in E. lia.
Qed.

Lemma wp_close_usb_loop F pred reset l : ∀ w (Q : list atransport → world → Prop),
  connected w → (∀ t, t ∈ l → is_Some (transports w !! t)) → (∀ ts w', sent w w' → Q ts w') →
  wp F (close_usb_loop pred reset l) Q w.
Proof.
  induction l as [|t l IH]; intros w Q Hw Hl HQ; cbn [close_usb_loop]; [wstep; by apply HQ|].
  destruct (Hl t) as [tr Htr]; [by left|]. do 2 wstep.
  assert (∀ w', sent w w' → ∀ u, u ∈ l → is_Some (transports w' !! u)) as Hl'.
  { intros w' (c & e & T & -> & HT) u Hu. destruct (Hl u) as [tu Htu]; [by right|]. specialize (HT u).
    wcbn. rewrite Htu in HT. by inversion HT as [? ? _ E|]. }
  destruct (pred tr).
  - wstep. eapply wp_stop; [done..|]. intros w1 S1. wstep.
    apply IH; [by eapply connected_sent|by apply Hl'|]. intros ts w2 S2. wstep. apply HQ. by etrans.
  - apply IH; [done|by apply Hl'|]. done.
Qed.

(** Reading the transports of the list. *)
Lemma wp_with_transports_full {A} F w (k : list (ptr * atransport) → M A) (Q : A → world → Prop) :
  hub_ok w →
  (∀ ts, mapM (λ t, tr ← transports w !! t; Some (t, tr)) (transport_list w) = Some ts → wp F (k ts) Q w) →
  wp F (l ← gets transport_list; ts ← list_transport_objects l; k ts) Q w.
Proof.
  intros Hw HQ. do 3 wstep. unfold wp at 1, list_transport_objects.
  destruct (mapM_is_Some_2 (λ t, tr ← transports w !! t; Some (t, tr)) (transport_list w)) as [ts Hts].
  { apply Forall_forall. intros t Ht. destruct (hub_lists _ Hw t) as [tr Htr]; [apply elem_of_app; by left|].
    cbn. by rewrite Htr. }
  rewrite Hts. by apply HQ.
Qed.
Lemma wp_with_transports {A} F w (k : list (ptr * atransport) → M A) (Q : A → world → Prop) :
  hub_ok w →
  (∀ ts, (∀ t tr, (t, tr) ∈ ts → transports w !! t = Some tr) → wp F (k ts) Q w) →
  wp F (l ← gets transport_list; ts ← list_transport_objects l; k ts) Q w.
Proof.
  intros Hw HQ. apply wp_with_transports_full; [done|]. intros ts Hts. apply HQ.
  intros t tr Hin. apply mapM_Some in Hts. apply list_elem_of_lookup in Hin as [i Hi].
  destruct (Forall2_lookup_r _ _ _ _ _ Hts Hi) as (u & _ & Hu). cbn in Hu.
  destruct (transports w !! u) as [tr'|] eqn:E; [|done]. cbn in Hu. by simplify_eq.
Qed.

Lemma qual_match_total to_test prefix qual b :
  x00 ∉ to_test → x00 ∉ prefix → x00 ∉ qual → ∃ r, qual_match to_test prefix qual b = Ok r.
Proof.
  intros. destruct to_test; [by eexists|]. destruct qual; [by eexists|]. rewrite qual_match_eq by done. by eexists.
Qed.
Lemma MatchesTarget_total target tr : x00 ∉ target → plain_props tr → ∃ b, MatchesTarget target tr = Ok b.
Proof.
  intros Ht (Hp & Hm & Hd). unfold MatchesTarget. destruct (_ && _); [by eexists|]. case_bool_decide; [by eexists|].
  destruct (qual_match_total target (txt "product:") (product tr) false) as [b1 ->]; [done|by vm_compute; set_solver|done|].
  rok. destruct b1; [by eexists|].
  destruct (qual_match_total target (txt "model:") (model tr) true) as [b2 ->]; [done|by vm_compute; set_solver|done|].
  rok. destruct b2; [by eexists|]. apply qual_match_total; [done|by vm_compute; set_solver|done].
Qed.

Lemma acquire_matches_total ty s tr : plain_props tr → ∃ b, acquire_matches ty s tr = Ok b.
Proof.
  intros Hp. unfold acquire_matches. destruct s; [|by eexists]. apply MatchesTarget_total; [|done]. apply c_str_no_nul.
Qed.

Lemma acquire_loop_total ty s tid l : ∀ result error,
  (∀ a tr, (a, tr) ∈ l → plain_props tr) →
  ∃ result' error' amb, acquire_loop ty s tid l result error = Ok (result', error', amb) ∧
    ∀ p, result' = Some p → p ∈ l ∨ result = Some p.
Proof.
  induction l as [|[a tr] l IH]; intros result error Hl; cbn [acquire_loop]; [by eexists _, _, _; split; [done|]; auto|].
  assert (∀ result' error', ∃ r e amb, acquire_loop ty s tid l result' error' = Ok (r, e, amb) ∧
    ∀ p, r = Some p → p ∈ l ∨ result' = Some p) as IH'.
  { intros. apply IH. intros ? ? ?. eapply Hl. by right. }
  assert (∀ result' error', (∀ p, result' = Some p → p = (a, tr) ∨ result = Some p) →
    ∃ r e amb, acquire_loop ty s tid l result' error' = Ok (r, e, amb) ∧
      ∀ p, r = Some p → p ∈ (a, tr) :: l ∨ result = Some p) as Hrec.
  { intros result' error' Hr. destruct (IH' result' error') as (r & e & amb & E & Hp). exists r, e, amb.
    split; [done|]. intros p [?|[-> |?]%Hr]%Hp; [left; by right|left; by left|by right]. }
  case_bool_decide; [by apply Hrec; auto|]. destruct (negb (tid =? 0)).
  - destruct (id tr =? tid); [|by apply Hrec; auto]. eexists _, _, _. split; [done|]. intros p [= <-]. left. by left.
  - destruct (acquire_matches_total ty s tr) as [b ->]; [eapply Hl; by left|]. rok.
    destruct b; [|by apply Hrec; auto]. destruct result as [r|]; [by eexists _, _, _|].
    apply Hrec. intros p [= <-]. by left.
Qed.

Lemma wp_acquire F w ty s tid any (Q : option ptr * bytes → world → Prop) :
  hub_ok w → (∀ o e, (∀ t, o = Some t → is_Some (transports w !! t)) → Q (o, e) w) →
  wp F (acquire ty s tid any) Q w.
Proof.
  intros Hw HQ. unfold acquire. apply wp_with_transports; [done|]. intros ts Hts. wstep.
    destruct (acquire_loop_total ty s tid ts None (acquire_no_device ty s tid)) as (r & e & amb & E & Hr).
    { intros a tr Hin. eapply hub_props; [done|by apply Hts]. }
    assert (∃ o e', acquire_one_transport ty s tid ts any = Ok (o, e', amb) ∧ (∀ t, o = Some t → is_Some (transports w !! t))) as (o & e' & Eo & Ho).
    { unfold acquire_one_transport. rewrite E. rok. destruct r as [[a tr]|]; [|by eexists _, _].
      destruct (Hr (a, tr)) as [Hin|]; [done| |done]. assert (is_Some (transports w !! a)) by (eexists; by apply Hts).
      destruct (if any then None else _); eexists _, _; split; try done. by intros t [= <-]. }
    eapply wp_lift; [exact Eo|]. wstep. by apply HQ.
Qed.

Lemma wp_find_transport F w s (Q : option ptr → world → Prop) :
  hub_ok w → (∀ o, (∀ t, o = Some t → is_Some (transports w !! t)) → Q o w) →
  wp F (find_transport_now s) Q w.
Proof.
  intros Hw HQ. unfold find_transport_now. apply wp_with_transports; [done|]. intros ts Hts. wstep. apply HQ. intros t E. assert (∃ tr, (t, tr) ∈ ts) as [tr Hin].
    { clear -E. induction ts as [|[a tr] ts IH]; [done|]. cbn in E. case_bool_decide.
      - injection E as ->. exists tr. by left.
      - destruct (IH E) as [tr' ?]. exists tr'. by right. }
    eexists. by apply Hts.
Qed.

Lemma wp_current_listing F w o (Q : bytes → world → Prop) :
  hub_ok w → (∀ listing, Q listing w) → wp F (current_listing o) Q w.
Proof.
  intros Hw HQ. unfold current_listing. apply wp_with_transports; [done|]. intros ts Hts. wstep. apply HQ.
Qed.

(** ** Listeners *)

Lemma keeps_calm_emit e : keeps calm (emit e).
Proof. intros w n w' [= <- <-]. apply sent_calm, sent_log. Qed.
Lemma keeps_calm_listeners f : keeps calm (modify (λ w, set_listeners (f w) w)).
Proof. intros w [] w' [= <-]. by split. Qed.
Lemma keeps_calm_next : keeps calm (modify (λ w, set_next_ptr (Pos.succ (next_ptr w)) w)).
Proof. intros w [] w' [= <-]. split; wcbn; try done. split; [done|lia]. Qed.
Lemma keeps_calm_tupd t f : (∀ tr tr', f tr = Ok tr' → kin tr tr') → keeps calm (tupd t f).
Proof.
  intros Hf w [] w'. unfold tupd, tput, tget, modify, mbind, M_bind. destruct (transports w !! t) as [tr|] eqn:Htr; [|done].
  unfold lift. destruct (f tr) as [tr'| | | |] eqn:E; try done. intros [= <-]. split; wcbn; try done.
  intros u. destruct (decide (t = u)) as [<-|]; [|by rewrite lookup_insert_ne].
  rewrite lookup_insert_eq, Htr. constructor. by apply Hf.
Qed.
End requests.

#[global] Hint Resolve keeps_calm_emit keeps_calm_next : keeps.

(** Walks through a function whose steps all keep [calm]. *)
Ltac keep_calm :=
  repeat first
    [ done | apply leaves_ret | apply leaves_lift | apply keeps_gets | apply keeps_tget
    | apply keeps_calm_emit | apply keeps_calm_next | apply keeps_calm_listeners
    | apply keeps_calm_tupd; intros ? ? [= <-]; done
    | apply leaves_bind; [apply calm_trans| |intros ?]
    | case_match ].

Section forwarding.
Context `{OS} `{!OSLaws} `{Uninit} `{Host} `{Protobuf}.

Lemma install_listener_calm g name c t flags : keeps calm (install_listener g name c t flags).
Proof. unfold install_listener, socket_spec_listen. keep_calm. Qed.
Lemma destroy_listener_calm l : keeps calm (destroy_listener l).
Proof. unfold destroy_listener. keep_calm. Qed.

(** What a listener operation keeps, given what it does to the registrations. *)
Lemma wp_calm {A} F (m : M A) (Q : A → world → Prop) w :
  hub_ok w → keeps calm m → wp F m (λ a w', listeners_ok w' ∧ Q a w') w →
  wp F m (λ a w', hub_ok w' ∧ calm w w' ∧ Q a w') w.
Proof.
  intros Hw Hk HQ. eapply wp_mono; [by eapply wp_keeps|]. intros a w' [[Hl Ha] Hc].
  split_and!; try done. by eapply hub_ok_calm.
Qed.

Lemma wp_remove_at_calm F w i x :
  hub_ok w → listener_list w !! i = Some x →
  wp F (modify (set_listeners (delete i (listener_list w))) ;; destroy_listener x)
    (λ _ w', hub_ok w' ∧ calm w w' ∧ ∀ l, l ∈ listener_list w' ↔ l ∈ listener_list w ∧ l_ptr l ≠ l_ptr x) w.
Proof.
  intros Hw Hi. apply wp_calm; [done| |].
  - apply leaves_bind; [apply calm_trans|apply (keeps_calm_listeners (λ _, _))|intros []; apply destroy_listener_calm].
  - eapply wp_mono; [apply wp_remove_at; [apply Hw|done]|]. intros [] w' (? & ? & _). done.
Qed.

Lemma wp_remove_listener F w name (Q : InstallStatus → world → Prop) :
  hub_ok w → (∀ r w', hub_ok w' → calm w w' → Q r w') → wp F (remove_listener name) Q w.
Proof.
  intros Hw HQ. unfold remove_listener. do 2 wstep. destruct (list_find _ _) as [[i x]|] eqn:E; [|wstep; by apply HQ].
  apply list_find_Some in E as (Hi & _). pose proof (wp_remove_at_calm F w i x Hw Hi) as D.
  apply wp_bind_inv in D. wstep. eapply wp_mono; [exact D|]. clear D. intros [] w1 D.
  wstep. eapply wp_mono; [exact D|]. intros [] w2 (? & ? & _). wstep. by apply HQ.
Qed.

Lemma wp_erase_listeners F keep l : ∀ w (Q : unit → world → Prop),
  hub_ok w → NoDup (l_ptr <$> l) → (∀ x, x ∈ l → x ∈ listener_list w) →
  (∀ w', hub_ok w' → calm w w' → Q () w') → wp F (erase_listeners keep l) Q w.
Proof.
  induction l as [|x l IH]; intros w Q Hw Hnd Hl HQ; cbn [erase_listeners]; [wstep; by apply HQ|].
  apply NoDup_cons in Hnd as [Hx Hnd]. destruct (keep x); [apply IH; try done; intros; apply Hl; by right|].
  assert (∃ i, list_find (λ y, l_ptr y = l_ptr x) (listener_list w) = Some (i, x)) as [i Ei].
  { destruct (list_find_elem_of (λ y, l_ptr y = l_ptr x) (listener_list w) x) as [[i y] Ei]; [apply Hl; by left|done|].
    exists i. rewrite Ei. do 2 f_equal. apply list_find_Some in Ei as (Hi & Ey & _).
    eapply l_ptr_inj; [apply Hw|by eapply list_elem_of_lookup_2|apply Hl; by left|done]. }
  pose proof (delete_filter _ _ _ _ (lo_nodup _ (hub_listeners _ Hw)) Ei) as Ed.
  apply list_find_Some in Ei as (Hi & _). pose proof (wp_remove_at_calm F w i x Hw Hi) as D. rewrite Ed in D.
  apply wp_bind_inv in D. do 2 wstep. wstep.
  eapply wp_mono; [exact D|]. intros [] w2 (Hw2 & Hc & Hin).
  apply IH; [done|done| |intros w' ? ?; apply HQ; [done|by etrans]].
  intros y Hy. apply Hin. split; [apply Hl; by right|]. intros E. apply Hx. rewrite <- E. by apply list_elem_of_fmap_2.
Qed.

Lemma wp_format_listeners F w l (Q : bytes → world → Prop) :
  hub_ok w → (∀ x, x ∈ l → x ∈ listener_list w) → (∀ s, Q s w) → wp F (format_listeners_loop l) Q w.
Proof.
  intros Hw. revert Q. induction l as [|x l IH]; intros Q Hl HQ; cbn [format_listeners_loop]; [by wstep|].
  assert (x ∈ listener_list w) as Hx by (apply Hl; by left).
  assert (∀ y, y ∈ l → y ∈ listener_list w) as Hl' by (intros; apply Hl; by right).
  destruct (isSmartSocket x) eqn:E; [by apply IH|].
  destruct (lo_forward _ (hub_listeners _ Hw) x Hx E) as [t Ht].
  destruct (lo_transport _ (hub_listeners _ Hw) x t Hx Ht) as [tr Htr].
  wstep. eapply wp_lift; [by rewrite Ht|]. do 3 wstep. apply IH; [done|]. intros rest. by wstep.
Qed.

(** ** Requests *)

(** A request changes no socket, but for the transport that the smart socket has selected. *)
Definition requested (p : ptr) (s : asocket) (w w' : world) : Prop :=
  hub_ok w' ∧ (∃ t, socks w' = <[p := set_transport t s]> (socks w)) ∧
  local_socket_next_id w' = local_socket_next_id w.

Lemma requested_same p s w w' :
  socks w !! p = Some s → hub_ok w' → socks w' = socks w → local_socket_next_id w' = local_socket_next_id w →
  requested p s w w'.
Proof.
  intros Hs Hw' Es Ei. split_and!; try done. exists (transport s).
  replace (set_transport (transport s) s) with s by by destruct s. by rewrite insert_id.
Qed.

Lemma hub_ok_socks w m : hub_ok w → wf (set_socks m w) → hub_ok (set_socks m w).
Proof. intros [_ [] Hl Hp] Hw. by split; [|split| |]. Qed.

Definition is_smart (w : world) (p : ptr) (s : asocket) (q : ptr) : Prop :=
  socks w !! p = Some s ∧ close s = smart_socket_close_fn ∧ peer s = Some q.

Lemma smart_kind w p s q s' :
  wf w → is_smart w p s q → close s' = close s → enqueue s' = enqueue s → ready s' = ready s →
  shutdown s' = shutdown s → exit_on_close s' = exit_on_close s → kind_ok s'.
Proof.
  intros Hw (Hs & Hc & _) Ec Ee Er Es Ex. pose proof (wf_kind _ _ Hw p s Hs) as Hk. unfold kind_ok in *.
  rewrite Ec, Hc in *. by rewrite Ee, Er, Es, Ex.
Qed.

Lemma set_smart_transport w p s q t :
  hub_ok w → is_smart w p s q → (∀ u, t = Some u → is_Some (transports w !! u)) →
  hub_ok (set_socks (<[p := set_transport t s]> (socks w)) w).
Proof.
  intros Hw Hs Ht. apply hub_ok_socks; [done|]. eapply wfx_assign; try apply Hs; try done; [apply Hw| |by intros ? _; apply Ht].
  eapply smart_kind; [apply Hw|done..].
Qed.

Definition served (w w' : world) : Prop := hub_ok w' ∧ calm w w'.

Lemma served_here w : hub_ok w → served w w.
Proof. by split. Qed.
Lemma served_sent w w1 w2 : served w w1 → sent w1 w2 → served w w2.
Proof. intros [? ?] ?. split; [by eapply hub_ok_sent|]. etrans; [done|by apply sent_calm]. Qed.
Lemma served_trans w w1 w2 : served w w1 → served w1 w2 → served w w2.
Proof. intros [? ?] [? ?]. split; [done|by etrans]. Qed.
Lemma served_live w w' t : served w w' → is_Some (transports w !! t) → is_Some (transports w' !! t).
Proof. intros [_ Hc] [tr Htr]. pose proof (calm_transports _ _ Hc t) as HT. rewrite Htr in HT. by inversion HT as [? ? _ E|]. Qed.
Lemma served_smart w w' p s q : served w w' → is_smart w p s q → is_smart w' p s q.
Proof. intros [_ Hc] (? & ?). split; [by rewrite (calm_socks _ _ Hc)|done]. Qed.
Lemma served_requested p s w w' : socks w !! p = Some s → served w w' → requested p s w w'.
Proof. intros ? [? [? _ [? _] _ _]]. by apply requested_same. Qed.

(** Runs a reply, from a state that [w] was served to. *)
Ltac reply :=
  wstep; first [apply wp_SendOkayString | apply wp_SendOkay | apply wp_SendFail | apply wp_SendProtocolString];
  let w' := fresh "w" in let Hs := fresh "Hs" in first [intros _ w' Hs | intros w' Hs];
  repeat lazymatch goal with
  | Hw : served ?w ?w1 |- _ =>
      match type of Hs with sent w1 w' =>
        let Hw' := fresh "Hw" in pose proof (served_sent w w1 w' Hw Hs) as Hw'; clear Hs end
  end.

Lemma Split_total s d : d ≠ [] → ∃ l, Split s d = Ok l.
Proof. intros Hd. rewrite Split_ref by done. by eexists. Qed.

Lemma wp_handle_forward_request F g w service acquirer reply_fd :
  hub_ok w →
  wp F acquirer (λ r w', served w w' ∧ ∀ t, r.1 = Some t → is_Some (transports w' !! t)) w →
  wp F (handle_forward_request g service acquirer reply_fd) (λ b w', served w w' ∧ (b = false → w' = w)) w.
Proof.
  intros Hw Hacq. pose proof (served_here w Hw) as Hw0. unfold handle_forward_request.
  case_bool_decide.
  { unfold format_listeners. do 2 wstep. wstep. apply wp_format_listeners; [done|done|]. intros l. reply. reply. by wstep. }
  case_bool_decide.
  { unfold remove_all_listeners. do 3 wstep. apply wp_erase_listeners; [done|apply Hw|done|]. intros w1 ? ?.
    assert (served w w1) by done. reply. reply. by wstep. }
  destruct (_ || _); [|by wstep]. wstep. eapply wp_mono; [exact Hacq|]. intros [[t|] error] w1 [Hw1 Ht]; [|reply; by wstep].
  destruct (Ht t eq_refl) as [tr Htr]. destruct (forward_mode service) as [[kill norebind] text].
  destruct (Split_total text (txt ";")) as [pieces Ep]; [done|]. wstep. eapply wp_lift; [exact Ep|].
  destruct (forward_pieces_ok kill pieces); [|cbn [negb]; reply; by wstep]. cbn [negb].
  assert (∀ r w2, served w w2 → wp F (let '(r, resolved, error) := r in
    match r with
    | INSTALL_STATUS_OK =>
        _ ← SendOkay reply_fd; _ ← SendOkay reply_fd;
        (if resolved =? 0 then mret () else _ ← SendProtocolString reply_fd (dec resolved); mret ()) ;; mret true
    | _ => _ ← SendFail reply_fd (forward_message r error text); mret true
    end) (λ b w', served w w' ∧ (b = false → w' = w)) w2) as Hend.
  { intros [[r resolved] e] w2 Hw2. destruct r; try (reply; by wstep). reply. reply. wstep.
    destruct (resolved =? 0); [wstep; by wstep|]. reply. wstep. by wstep. }
  wstep. destruct kill.
  - wstep. apply wp_remove_listener; [apply Hw1|]. intros r w2 ? ?. wstep. apply (Hend (r, 0, [])). by eapply served_trans.
  - eapply wp_mono; [eapply (wp_calm F _ (λ _ _, True)); [apply Hw1|apply install_listener_calm|]|].
    + eapply wp_mono; [eapply wp_install_listener; [apply Hw1|exact Htr]|]. intros r w2 [? _]. done.
    + intros r w2 (? & ? & _). apply Hend. by eapply served_trans.
Qed.

(** What a request for an emulator relies on: connecting to one registers at most a new
    transport and leaves the sockets alone.  The port below the given one is an [int], too. *)
Class EmulatorSpec (local_connect : Z → M bool) : Prop := emulator_spec : ∀ F w port,
  hub_ok w → - 2 ^ 31 < port → wp F (local_connect port) (λ _ w', hub_ok w' ∧ socks w' = socks w ∧
    local_socket_next_id w' = local_socket_next_id w) w.

(** The request names port 2^31, which is the least [int] when it is passed on. *)
Definition emulator_overflow (service : bytes) : Prop :=
  ∃ port v, ConsumePrefix service (txt "emulator:") = Some port ∧
    ParseUint_sv (2 ^ 32 - 1) port = Some (v, []) ∧ s32 v = - 2 ^ 31.

Lemma s32_lower x : - 2 ^ 31 ≤ s32 x.
Proof. unfold s32, u32. pose proof (Z.mod_pos_bound x (2 ^ 32)). case_match; lia. Qed.

Section host_request.
Context (gListenAll g_reject_kill_server : bool) (local_connect : Z → M bool) `{!EmulatorSpec local_connect}.
Context (smart : ptr → Block → M Z).
Context (ty : TransportType) (serial : option bytes) (transport_id reply_fd : Z) (p q : ptr) (s : asocket).

Lemma wp_own_or_acquire F w any (Q : option ptr * bytes → world → Prop) :
  hub_ok w → is_smart w p s q → (∀ o e, (∀ t, o = Some t → is_Some (transports w !! t)) → Q (o, e) w) →
  wp F (own_or_acquire ty serial transport_id p any) Q w.
Proof.
  intros Hw Hs HQ. destruct Hs as (Hs & Hc & Hp). unfold own_or_acquire. wstep. eapply wp_sget; [exact Hs|].
  destruct (transport s) as [t|] eqn:Et; [|by apply wp_acquire].
  wstep. apply HQ. intros u [= <-]. eapply peered_transport; [apply Hw|done..].
Qed.

(** A request that ends with one of two replies. *)
Lemma wp_report F w f :
  hub_ok w → is_smart w p s q →
  wp F (report ty serial transport_id reply_fd p f) (λ r w', r = Handled ∧ served w w') w.
Proof.
  intros Hw Hs. pose proof (served_here w Hw) as Hw0. unfold report. wstep. apply wp_own_or_acquire; [done..|].
  intros [t|] e Ht; [|reply; by wstep]. destruct (Ht t eq_refl) as [tr Htr]. do 2 wstep. reply. by wstep.
Qed.

Lemma wp_kick_live F w w1 t reset (Q : unit → world → Prop) :
  served w w1 → is_Some (transports w1 !! t) →
  (∀ w2, served w w2 → is_Some (transports w2 !! t) → Q () w2) → wp F (kick_transport t reset) Q w1.
Proof.
  intros Hw [tr Htr] HQ. eapply wp_kick_transport; [exact (wf_conn _ _ (hub_wf _ (proj1 Hw)))|exact Htr|].
  intros w2 Hs. apply HQ; [by eapply served_sent|]. eapply served_live; [|by exists tr].
  eapply served_sent; [|exact Hs]. by apply served_here, Hw.
Qed.

Lemma wp_reconnect_offline F w :
  hub_ok w → wp F (reconnect_offline reply_fd) (λ r w', r = Handled ∧ served w w') w.
Proof.
  intros Hw. pose proof (served_here w Hw) as Hw0. unfold reconnect_offline, close_usb_devices. do 3 wstep.
  apply wp_close_usb_loop; [exact (wf_conn _ _ (hub_wf _ Hw))|intros t Ht; apply Hw, elem_of_app; by left|].
  intros ts w1 S1. pose proof (served_sent _ _ _ Hw0 S1) as Hw1. reply. by wstep.
Qed.

Lemma wp_disconnect F w address :
  hub_ok w → wp F (disconnect reply_fd address) (λ r w', r = Handled ∧ served w w') w.
Proof.
  intros Hw. pose proof (served_here w Hw) as Hw0. unfold disconnect. cbv zeta.
  assert (∀ t text, is_Some (transports w !! t) → wp F (kick_transport t false ;; SendOkayString reply_fd text ;; mret Handled)
    (λ r w', r = Handled ∧ served w w') w) as Hkick.
  { intros t text Ht. wstep. eapply wp_kick_live; [done..|]. intros w1 Hw1 _. reply. by wstep. }
  destruct address as [|b address'].
  { unfold kick_all_tcp_devices. do 3 wstep. wstep. apply wp_close_usb_loop;
      [exact (wf_conn _ _ (hub_wf _ Hw))|intros t Ht; apply Hw, elem_of_app; by left|].
    intros ts w1 S1. apply wp_wake. intros w2 S2.
    assert (served w w2) by (eapply served_sent; [by eapply served_sent|done]). reply. by wstep. }
  wstep. apply wp_find_transport; [done|]. intros [t|] Ht; [by apply Hkick; auto|].
  destruct (if _ || _ then _ else _) as [message|ser]; [reply; by wstep|].
  wstep. apply wp_find_transport; [done|]. intros [u|] Hu; [by apply Hkick; auto|reply; by wstep].
Qed.

Lemma wp_reconnect F w :
  hub_ok w → is_smart w p s q →
  wp F (reconnect ty serial transport_id reply_fd p) (λ r w', r = Handled ∧ served w w') w.
Proof.
  intros Hw Hs. pose proof (served_here w Hw) as Hw0. unfold reconnect. wstep. apply wp_own_or_acquire; [done..|].
  intros [t|] e Ht; [|do 2 wstep; reply; by wstep]. do 2 wstep.
  eapply wp_kick_live; [done|by apply Ht|]. intros w1 Hw1 [tr Htr]. do 3 wstep. reply. by wstep.
Qed.

Lemma wp_attach_request F w :
  hub_ok w → is_smart w p s q →
  wp F (attach_request ty serial transport_id reply_fd p) (λ r w', r = Handled ∧ served w w') w.
Proof.
  intros Hw Hs. pose proof (served_here w Hw) as Hw0. unfold attach_request, Attach. wstep. apply wp_own_or_acquire; [done..|].
  cbn [negb should_use_libusb]. intros [t|] e Ht; [|reply; by wstep]. do 3 wstep. reply. wstep. by wstep.
Qed.

Lemma wp_detach_request F w :
  hub_ok w → is_smart w p s q →
  wp F (detach_request smart ty serial transport_id reply_fd p) (λ r w', r = Handled ∧ requested p s w w') w.
Proof.
  intros Hw Hs. pose proof (served_here w Hw) as Hw0. unfold detach_request, Detach. wstep. apply wp_own_or_acquire; [done..|].
  cbn [negb should_use_libusb]. intros [t|] e Ht; [|reply; wstep; split; [done|]; apply served_requested; [apply Hs|done]].
  wstep. eapply wp_supd; [apply Hs|]. do 3 wstep. wstep. apply wp_SendFail. intros _ w1 S1. do 2 wstep. split; [done|].
  pose proof (set_smart_transport w p s q None Hw Hs ltac:(done)) as Hw1. split_and!.
  - by eapply hub_ok_sent.
  - exists None. by destruct S1 as (? & ? & ? & -> & _).
  - by destruct S1 as (? & ? & ? & -> & _).
Qed.

Lemma wp_select_transport F w service :
  hub_ok w → is_smart w p s q →
  wp F (select_transport serial transport_id reply_fd p service)
    (λ r w', requested p s w w' ∧ r ≠ Unhandled) w.
Proof.
  intros Hw Hs. pose proof (served_here w Hw) as Hw0. unfold select_transport.
  assert (∀ text, wp F (_ ← SendFail reply_fd text; mret Handled) (λ r w', requested p s w w' ∧ r ≠ Unhandled) w) as Hfail.
  { intros text. reply. wstep. split; [|done]. apply served_requested; [apply Hs|done]. }
  destruct (transport_selection service serial transport_id) as [[[[ty' serial'] tid'] legacy]|]; [|apply Hfail].
  wstep. apply wp_acquire; [done|]. intros [t|] e Ht; [|apply Hfail].
  pose proof (set_smart_transport w p s q (Some t) Hw Hs) as Hw1. specialize (Hw1 ltac:(intros u [= <-]; by apply Ht)).
  set (w1 := set_socks _ w) in Hw1. wstep. eapply wp_supd; [apply Hs|]. fold w1.
  assert (∀ w2, sent w1 w2 → requested p s w w2 ∧ is_Some (transports w2 !! t)) as Hend.
  { intros w2 S2. split; [split_and!|].
    - by eapply hub_ok_sent.
    - exists (Some t). by destruct S2 as (? & ? & ? & -> & _).
    - by destruct S2 as (? & ? & ? & -> & _).
    - destruct (Ht t eq_refl) as [tr Htr]. destruct S2 as (c & l & T & -> & HT). specialize (HT t). wcbn.
      unfold w1 in HT. wcbn. rewrite Htr in HT. by inversion HT as [? ? _ E|]. }
  wstep. apply wp_SendOkay. intros _ w2 S2. destruct (Hend w2 S2) as [? [tr Htr]]. wstep. destruct legacy.
  - do 2 wstep. done.
  - do 2 wstep. wstep. apply wp_WriteFdExactly. intros _ w3 S3. do 2 wstep. split; [|done]. apply Hend. by etrans.
Qed.

Lemma wp_transport_acquirer F w :
  hub_ok w → is_smart w p s q →
  wp F (transport_acquirer ty serial transport_id p)
    (λ r w', served w w' ∧ ∀ t, r.1 = Some t → is_Some (transports w' !! t)) w.
Proof.
  intros Hw Hs. unfold transport_acquirer. wstep. apply wp_own_or_acquire; [done..|]. intros o e Ho. wstep.
  split; [by apply served_here|done].
Qed.

Lemma wp_other_request F w service :
  hub_ok w → is_smart w p s q → ¬ emulator_overflow service →
  wp F (other_request gListenAll local_connect smart ty serial transport_id reply_fd p service)
    (λ r w', requested p s w w' ∧ (r = Unhandled → w' = w) ∧ r ≠ SwitchedTransport) w.
Proof.
  intros Hw Hs Hov. pose proof (served_here w Hw) as Hw0. pose proof (proj1 Hs) as Hsp.
  assert (∀ m, wp F m (λ r w', r = Handled ∧ served w w') w →
    wp F m (λ r w', requested p s w w' ∧ (r = Unhandled → w' = w) ∧ r ≠ SwitchedTransport) w) as Hh.
  { intros m Hm. eapply wp_mono; [exact Hm|]. intros r w' [-> ?]. split_and!; try done. by apply served_requested. }
  assert (∀ text, wp F (SendOkayString reply_fd text ;; mret Handled) (λ r w', r = Handled ∧ served w w') w) as Hok.
  { intros text. reply. by wstep. }
  unfold other_request. destruct (_ || _).
  { wstep. apply wp_current_listing; [done|]. intros listing. apply Hh, Hok. }
  case_bool_decide; [by apply Hh, wp_reconnect_offline|]. case_bool_decide; [by apply Hh, wp_report|].
  case_bool_decide; [by apply Hh, Hok|]. destruct (ConsumePrefix service (txt "disconnect:")); [by apply Hh, wp_disconnect|].
  case_bool_decide; [by apply Hh, Hok|]. do 3 (case_bool_decide; [by apply Hh, wp_report|]).
  destruct (ConsumePrefix service (txt "emulator:")) as [port|] eqn:Eport.
  { destruct (ParseUint_sv _ port) as [[v [|]]|] eqn:Ev; [|wstep; split_and!; try done; by apply served_requested..].
    assert (- 2 ^ 31 < s32 v) as Hv.
    { pose proof (s32_lower v). destruct (Z.eq_dec (s32 v) (- 2 ^ 31)); [|lia]. destruct Hov. by exists port, v. }
    wstep. eapply wp_mono; [by apply emulator_spec|]. intros b w1 (? & ? & ?). wstep.
    split_and!; try done. by apply requested_same. }
  case_bool_decide; [by apply Hh, wp_reconnect|]. case_bool_decide; [by apply Hh, wp_attach_request|].
  case_bool_decide.
  { eapply wp_mono; [by apply wp_detach_request|]. intros r w1 [-> ?]. by split_and!. }
  wstep. eapply wp_mono; [apply wp_handle_forward_request; [done|by apply wp_transport_acquirer]|].
  intros [|] w1 [Hw1 Hsame]; [wstep; split_and!; try done; by apply served_requested|]. unfold handle_mdns_request.
  do 2 wstep. wstep. split_and!; [by apply served_requested|by intros; apply Hsame|done].
Qed.

(** Every request but a [kill] that ends the server. *)
Lemma wp_handle_host_request F w service :
  hub_ok w → is_smart w p s q → (service = txt "kill" → g_reject_kill_server = true) → ¬ emulator_overflow service →
  wp F (handle_host_request gListenAll g_reject_kill_server local_connect smart ty serial transport_id reply_fd p service)
    (λ r w', requested p s w w' ∧ (r = Unhandled → service ≠ txt "kill" → w' = w)) w.
Proof.
  intros Hw Hs Hkill Hov. unfold handle_host_request. wstep.
  assert (∀ w1, served w w1 → (service ≠ txt "kill" → w1 = w) → wp F
    (if starts_with service (txt "transport") || starts_with service (txt "tport:")
     then select_transport serial transport_id reply_fd p service
     else other_request gListenAll local_connect smart ty serial transport_id reply_fd p service)
    (λ r w', requested p s w w' ∧ (r = Unhandled → service ≠ txt "kill" → w' = w)) w1) as Hrest.
  { intros w1 Hw1 Hsame. pose proof (served_smart _ _ _ _ _ Hw1 Hs) as Hs1.
    assert (∀ w', requested p s w1 w' → requested p s w w') as Hreq.
    { intros w' (? & [t Et] & Ei). destruct Hw1 as [_ [Es _ [En _] _ _]]. split_and!; [done| |congruence].
      exists t. by rewrite Et, Es. }
    destruct (_ || _); (eapply wp_mono; [first [by apply wp_select_transport; [apply Hw1|]|by apply wp_other_request; [apply Hw1|..]]|]).
    - intros r w2 [? ?]. split; [by apply Hreq|done].
    - intros r w2 (? & Hu & _). split; [by apply Hreq|]. intros Er Hk. rewrite (Hu Er). by apply Hsame. }
  case_bool_decide as Hk; [|wstep; apply Hrest; [by apply served_here|done]].
  rewrite (Hkill Hk). pose proof (served_here w Hw) as Hw0. reply. wstep. apply Hrest; [done|]. done.
Qed.
End host_request.
End forwarding.

(** ** The sockets of a request *)

Section smart.
Context `{OS} `{!OSLaws} `{Uninit} `{Host} `{Protobuf}.

Lemma hub_ok_frame w w' :
  hub_ok w → wf w' → listener_list w' = listener_list w → transport_list w' = transport_list w →
  pending_list w' = pending_list w → (next_ptr w ≤ next_ptr w')%positive →
  (∀ t, option_Forall2 tr_like (transports w !! t) (transports w' !! t)) → hub_ok w'.
Proof.
  intros [_ Hl Ht Hp] Hw' El Et Ep Hn HT. split; [done| | |].
  - eapply listeners_ok_core; [exact Hl|done|done|]. intros t. destruct (HT t); constructor. by apply tr_like_core.
  - intros t. rewrite Et, Ep. intros [tr Htr]%Ht. specialize (HT t). rewrite Htr in HT. by inversion HT as [? ? _ E|].
  - intros t tr' Htr. specialize (HT t). rewrite Htr in HT. inversion HT as [tr ? [E _] E'|]; subst.
    destruct (Hp t tr) as (? & ? & ?); [done|]. unfold plain_props.
    pose proof (f_equal product E). pose proof (f_equal model E). pose proof (f_equal device E). cbn in *. by split_and!; congruence.
Qed.
Lemma hub_ok_closed w w' p o : hub_ok w → wf w' → closed_pair p o w w' → hub_ok w'.
Proof. intros Hw Hw' [_ Ht _ [Hn _] _ []]. eapply hub_ok_frame; try done. lia. Qed.
Lemma hub_ok_touched w w' p : hub_ok w → wf w' → touched p w w' → hub_ok w'.
Proof. intros Hw Hw' [_ Ht _ [Hn _] []]. eapply hub_ok_frame; try done. lia. Qed.

(** The smart socket is gone and its client has no peer. *)
Definition without_smart (p q : ptr) (sq : asocket) (w : world) : world :=
  set_socks (delete p (<[q := set_peer None sq]> (socks w))) w.

Lemma smart_peer w p s q :
  wf w → is_smart w p s q → p ≠ q ∧ ∃ sq, socks w !! q = Some sq ∧ peer sq = Some p ∧ is_local sq ∧ closing sq = false.
Proof.
  intros Hw (Hs & Hc & Hp). destruct (wf_peer _ _ Hw p s q) as (Hne & sq & Hq & Hqp); [set_solver|done..|].
  split; [done|]. exists sq. destruct (wf_nonlocal_peer _ _ Hw p s) as (q' & sq' & ? & ? & Hl); [set_solver|done| |].
  { unfold is_local. rewrite Hc. naive_solver. }
  simplify_eq. split_and!; try done. destruct (closing sq) eqn:Ec; [|done].
  by rewrite (wf_closing _ _ Hw q sq Hq Hl Ec) in Hqp.
Qed.

Lemma without_smart_wf w p s q sq :
  wf w → is_smart w p s q → socks w !! q = Some sq → wf (without_smart p q sq w).
Proof.
  intros Hw Hsm Hq. destruct (smart_peer w p s q Hw Hsm) as (Hne & sq' & Hq' & Hqp & Hl & _). simplify_eq.
  destruct Hsm as (Hs & Hc & Hp). pose proof (wfx_unpeer ∅ w p s q sq Hw Hs Hp Hq Hqp) as Hu.
  set (w1 := set_socks _ w) in Hu.
  assert (socks w1 !! p = Some s) as Hs1 by (unfold w1; wcbn; by rewrite lookup_insert_ne).
  destruct (free_other (∅ ∪ {[p; q]}) w1 p s (device_tracker_list w1)) as (Hw2 & Hcl & Hr2); [done|done| | | |].
  - eapply peered_unpointed; [done..|set_solver].
  - unfold is_local. rewrite Hc. naive_solver.
  - intros r. eapply untracked; [done..|]. unfold is_tracker. by rewrite Hc.
  - rewrite set_trackers_id in Hw2, Hr2. eapply retired_pair_shrink; [exact Hw2|exact Hr2|]. intros s'.
    unfold without_smart. wcbn. rewrite lookup_delete_ne, lookup_insert_eq by done. by intros [= <-].
Qed.

(** Two local sockets become each other's peers. *)
Definition link_locals (a : ptr) (sa : asocket) (b : ptr) (sb : asocket) (w : world) : world :=
  set_socks (<[a := set_peer (Some b) sa]> (<[b := set_peer (Some a) sb]> (socks w))) w.

Lemma link_locals_wf w a sa b sb :
  wf w → a ≠ b → socks w !! a = Some sa → socks w !! b = Some sb → is_local sa → is_local sb →
  closing sa = false → closing sb = false → peer sa = None → peer sb = None → wf (link_locals a sa b sb w).
Proof.
  intros Hw Hne Ha Hb Hla Hlb Hca Hcb Hpa Hpb. set (sa' := set_peer (Some b) sa). set (sb' := set_peer (Some a) sb).
  assert (∀ r sr, socks (link_locals a sa b sb w) !! r = Some sr →
    (r = a ∧ sr = sa') ∨ (r = b ∧ sr = sb') ∨ (r ≠ a ∧ r ≠ b ∧ socks w !! r = Some sr)) as Hin.
  { intros r sr. unfold link_locals. wcbn. rewrite !lookup_insert_Some. naive_solver. }
  assert (socks (link_locals a sa b sb w) !! a = Some sa') as Ha' by apply lookup_insert_eq.
  assert (socks (link_locals a sa b sb w) !! b = Some sb') as Hb'.
  { unfold link_locals. wcbn. rewrite lookup_insert_ne by done. apply lookup_insert_eq. }
  assert (∀ r sr, socks w !! r = Some sr → ∃ sr', socks (link_locals a sa b sb w) !! r = Some sr' ∧
    (is_local sr' ↔ is_local sr) ∧ closing sr' = closing sr ∧ close sr' = close sr ∧ (r ≠ a → r ≠ b → sr' = sr)) as Hold.
  { intros r sr Hr. destruct (decide (r = a)) as [->|]; [exists sa'; simplify_eq; by split_and!|].
    destruct (decide (r = b)) as [->|]; [exists sb'; simplify_eq; by split_and!|].
    exists sr. unfold link_locals. wcbn. rewrite !lookup_insert_ne by done. by split_and!. }
  assert (∀ P : asocket → Prop, (P sa' ↔ P sa) → (P sb' ↔ P sb) →
    ∀ r, (∃ sr, socks (link_locals a sa b sb w) !! r = Some sr ∧ P sr) ↔ (∃ sr, socks w !! r = Some sr ∧ P sr)) as HP.
  { intros P HPa HPb r. split.
    - intros (sr & [[-> ->]|[[-> ->]|(? & ? & ?)]]%Hin & ?); [exists sa; naive_solver|exists sb; naive_solver|by exists sr].
    - intros (sr & Hr & ?). destruct (decide (r = a)) as [->|]; [exists sa'; naive_solver|].
      destruct (decide (r = b)) as [->|]; [exists sb'; naive_solver|]. destruct (Hold r sr Hr) as (sr' & ? & _ & _ & _ & E).
      exists sr'. rewrite E in * by done. done. }
  split.
  - intros r sr [[-> ->]|[[-> ->]|(_ & _ & Hr)]]%Hin; [exact (wf_kind _ _ Hw a sa Ha)|exact (wf_kind _ _ Hw b sb Hb)|by eapply wf_kind].
  - intros r sr t [[-> ->]|[[-> ->]|(_ & _ & Hr)]]%Hin; [exact (wf_transport _ _ Hw a sa t Ha)|exact (wf_transport _ _ Hw b sb t Hb)|exact (wf_transport _ _ Hw r sr t Hr)].
  - apply Hw.
  - intros r sr r' _ [[-> ->]|[[-> ->]|(? & ? & Hr)]]%Hin Hpr; [injection Hpr as <-..|].
    + split; [done|]. by exists sb'.
    + split; [done|]. by exists sa'.
    + destruct (wf_peer _ _ Hw r sr r') as (? & sr' & Hr' & Hpr'); [set_solver|done..|]. split; [done|].
      destruct (Hold r' sr' Hr') as (sr'' & ? & _ & _ & _ & E). exists sr''. split; [done|]. rewrite E; [done|..]; intros ->; congruence.
  - intros r sr _ [[-> ->]|[[-> ->]|(? & ? & Hr)]]%Hin Hn; [done|done|].
    destruct (wf_nonlocal_peer _ _ Hw r sr) as (r' & sr' & ? & (sr'' & ? & Hloc & _)%Hold & ?); [set_solver|done..|].
    exists r', sr''. by rewrite Hloc.
  - intros r sr [[-> ->]|[[-> ->]|(? & ? & Hr)]]%Hin ? Hcl; [cbn in Hcl; congruence..|by eapply wf_closing].
  - intros r. rewrite (HP (λ sr, is_local sr ∧ closing sr = false)) by done. apply Hw.
  - intros r. rewrite (HP (λ sr, is_local sr ∧ closing sr = true)) by done. apply Hw.
  - intros r. rewrite (HP (λ sr, close sr = device_tracker_close_fn)) by done. apply Hw.
  - apply Hw.
  - intros r sr [[-> ->]|[[-> ->]|(_ & _ & Hr)]]%Hin Hl; [exact (wf_id _ _ Hw a sa Ha Hla)|exact (wf_id _ _ Hw b sb Hb Hlb)|exact (wf_id _ _ Hw r sr Hr Hl)].
  - assert (∀ r sr, socks (link_locals a sa b sb w) !! r = Some sr →
      ∃ s0, socks w !! r = Some s0 ∧ s_id sr = s_id s0 ∧ (is_local sr ↔ is_local s0)) as Hid.
    { intros r sr [[-> ->]|[[-> ->]|(_ & _ & Hr)]]%Hin; [by exists sa|by exists sb|by exists sr]. }
    intros r r' sr sr' (s1 & ? & -> & Hl1)%Hid (s2 & ? & -> & Hl2)%Hid ?%Hl1 ?%Hl2. by eapply wf_id_inj.
  - apply Hw.
  - intros r sr [[-> ->]|[[-> ->]|(_ & _ & Hr)]]%Hin; [exact (wf_fresh _ _ Hw a sa Ha)|exact (wf_fresh _ _ Hw b sb Hb)|exact (wf_fresh _ _ Hw r sr Hr)].
Qed.

Lemma wp_smart_fail F w p s :
  hub_ok w → socks w !! p = Some s → wp F (smart_fail p) (λ r w', r = -1 ∧ hub_ok w') w.
Proof.
  intros Hw Hs. unfold smart_fail. wstep.
  eapply wp_mono; [eapply (wp_call_close F ∅); [apply Hw|set_solver|done|unfold close_fuel; lia]|].
  intros [] w' [Hw' Hc]. wstep. split; [done|by eapply hub_ok_closed].
Qed.

(** [s->peer = nullptr; s->close(s)]. *)
Lemma wp_close_smart F w p s (Q : unit → world → Prop) :
  socks w !! p = Some s → close s = smart_socket_close_fn → Q () (set_socks (delete p (socks w)) w) →
  wp F (supd p (set_peer None) ;; socket_close p) Q w.
Proof.
  intros Hs Hc HQ. wstep. eapply wp_supd; [exact Hs|]. unfold socket_close, close_fuel. cbn [call_close]. wstep.
  eapply wp_sget; [apply lookup_insert_eq|]. cbn [close set_peer]. rewrite Hc. unfold smart_socket_close.
  wstep. eapply wp_sget; [apply lookup_insert_eq|]. cbn [peer set_peer]. do 2 wstep.
  eapply wp_sfree; [apply lookup_insert_eq|]. wcbn. by rewrite delete_insert_eq.
Qed.

Lemma sent_socks m w w' : sent w w' → sent (set_socks m w) (set_socks m w').
Proof. intros (c & l & T & -> & HT). by exists c, l, T. Qed.

Lemma hub_ok_tput w t tr tr' :
  hub_ok w → transports w !! t = Some tr → core tr tr' → plain_props tr' →
  hub_ok (set_transports (<[t := tr']> (transports w)) w).
Proof.
  intros Hw Htr Hc Hpp.
  assert (∀ u, option_Forall2 core (transports w !! u) (<[t := tr']> (transports w) !! u)) as HT.
  { intros u. destruct (decide (t = u)) as [<-|]; [rewrite lookup_insert_eq, Htr; by constructor|by rewrite lookup_insert_ne]. }
  assert (∀ u, is_Some (transports w !! u) → is_Some (<[t := tr']> (transports w) !! u)) as Hlive.
  { intros u [tu Hu]. specialize (HT u). rewrite Hu in HT. by inversion HT as [? ? _ E|]. }
  split; wcbn.
  - apply wfx_transports; [apply Hw|..].
    + intros r sr u ? ? ?. apply Hlive. by eapply wf_transport; [apply Hw|..].
    + intros u tu Hu. specialize (HT u). rewrite Hu in HT. inversion HT as [tu0 ? (Hc1 & Hc2 & _) E|]. subst.
      destruct (wf_conn _ _ (hub_wf _ Hw) u tu0) as [? ?]; [done|]. split; auto.
  - eapply listeners_ok_core; [apply Hw|done|done|done].
  - intros u Hu. by apply Hlive, Hw.
  - intros u tu. rewrite lookup_insert_Some. intros [[<- <-]|[_ ?]]; [done|by eapply hub_props].
Qed.

Lemma UpdateReverseConfig_core dest tr tr' :
  UpdateReverseConfig dest tr = Ok tr' → core tr tr' ∧ (plain_props tr → plain_props tr') ∧ max_payload tr' = max_payload tr.
Proof. unfold UpdateReverseConfig. repeat case_match; intros [= <-]; done. Qed.
Lemma UpdateReverseConfig_result dest tr : (∃ tr', UpdateReverseConfig dest tr = Ok tr') ∨ UpdateReverseConfig dest tr = Fatal.
Proof. unfold UpdateReverseConfig. repeat case_match; eauto. Qed.

(** What makes opening a stream abort the server: a [reverse:] request it does not know, and
    a name that does not fit into a packet of the device. *)
Definition connect_aborts (tr : atransport) (dest : bytes) : Prop :=
  UpdateReverseConfig dest tr = Fatal ∨ Z.min MAX_PAYLOAD (max_payload tr) < llen dest + 1.

Lemma wp_connect_to_remote (F : Prop) w q sq t tr dest (Q : unit → world → Prop) :
  connected w → socks w !! q = Some sq → transport sq = Some t → peer sq = None → transports w !! t = Some tr →
  llen dest + 1 < 2 ^ 32 → (connect_aborts tr dest → F) →
  (∀ tr' a w', core tr tr' → (plain_props tr → plain_props tr') →
     sent (set_socks (<[q := set_available a sq]> (socks w)) (set_transports (<[t := tr']> (transports w)) w)) w' → Q () w') →
  wp F (connect_to_remote q dest) Q w.
Proof.
  intros Hconn Hq Ht Hp Htr Hlen HF HQ. unfold connect_to_remote. do 2 wstep. wstep. eapply wp_lift; [by rewrite Ht|]. wstep.
  destruct (UpdateReverseConfig_result dest tr) as [[tr1 E]|E].
  2:{ unfold wp, tupd, tget, mbind, M_bind. rewrite Htr. unfold lift. rewrite E. apply HF. by left. }
  destruct (UpdateReverseConfig_core dest tr tr1 E) as (Hc & Hpp & Hm).
  eapply wp_tupd; [exact Htr|exact E|]. set (w1 := set_transports _ w). wstep.
  eapply wp_tget; [unfold w1; wcbn; apply lookup_insert_eq|]. wstep.
  assert (connected w1) as Hconn1.
  { intros u tu. unfold w1. wcbn. rewrite lookup_insert_Some. intros [[<- <-]|[_ Hu]]; [|by apply (Hconn u)].
    destruct (Hconn t tr Htr) as [? ?]. destruct Hc as (? & ? & _). split; auto. }
  assert (∀ a arg1, wp F (payload ← lift (block_of_range (dest ++ [x00])); limit ← get_max_payload q;
      lift (check (u32 (size_ payload) <=? limit)) ;;
      send_packet (mkPacket (mkMsg A_OPEN (s_id sq) arg1 (u32 (size_ payload)) 0 0) payload) t) Q
      (set_socks (<[q := set_available a sq]> (socks w1)) w1)) as Hrest.
  { intros a arg1. destruct (block_of_range_spec (dest ++ [x00])) as (b & Eb & Hb & _ & Hsz).
    assert (llen (dest ++ [x00]) = llen dest + 1) as El by (rewrite llen_app; done). rewrite El in Hsz.
    pose proof (llen_nonneg dest). wstep. eapply wp_lift; [exact Eb|]. wstep. unfold get_max_payload. wstep.
    eapply wp_sget; [apply lookup_insert_eq|]. wcbn. rewrite Ht, Hp. do 2 wstep.
    eapply wp_tget; [unfold w1; wcbn; apply lookup_insert_eq|]. do 3 wstep. rewrite Hm, u32_small by lia.
    destruct (Z.leb_spec (size_ b) (Z.min MAX_PAYLOAD (max_payload tr))).
    - eapply wp_lift; [reflexivity|]. eapply wp_send_packet; [exact Hconn1|unfold w1; wcbn; rewrite lookup_insert_eq; by eexists| |].
      + by split.
      + intros w' Hs. eapply HQ; [exact Hc|exact Hpp|exact Hs].
    - apply HF. right. lia. }
  destruct (delayed_ack_ tr1).
  - do 2 wstep. wstep. eapply wp_supd; [exact Hq|]. wstep. apply Hrest.
  - wstep. specialize (Hrest (available_send_bytes sq) 0).
    replace (set_available (available_send_bytes sq) sq) with sq in Hrest by by destruct sq.
    unfold w1 in Hrest at 2. wcbn. rewrite insert_id in Hrest by done.
    replace (set_socks (socks w) w1) with w1 in Hrest by by destruct w. exact Hrest.
Qed.

(** The client's socket is still there. *)
Definition lives (w : world) (q : ptr) : Prop := ∃ sq, socks w !! q = Some sq ∧ is_local sq.

Lemma wp_refuse F w p s fd text :
  hub_ok w → socks w !! p = Some s →
  wp F (_ ← SendFail fd text; smart_fail p) (λ r w', r = -1 ∧ hub_ok w') w.
Proof.
  intros Hw Hs. wstep. apply wp_SendFail. intros _ w1 S1. eapply (wp_smart_fail F w1 p s); [by eapply hub_ok_sent|].
  by destruct S1 as (? & ? & ? & -> & _).
Qed.

(** The client of a request for the device: it waits for the answer, and has no peer. *)
Definition waiting_client (t : ptr) (a : option Z) (sq : asocket) : asocket :=
  set_available a (set_transport (Some t) (set_peer None
    (set_fns local_socket_ready_notify_fn None local_socket_close_notify_fn sq))).

Lemma waiting_client_wf w p s q sq t a :
  wf w → is_smart w p s q → socks w !! q = Some sq → is_Some (transports w !! t) →
  wf (set_socks (delete p (<[q := waiting_client t a sq]> (socks w))) w).
Proof.
  intros Hw Hsm Hq Ht. destruct (smart_peer w p s q Hw Hsm) as (Hne & sq' & Hq' & _ & Hl & Hc). simplify_eq.
  pose proof (without_smart_wf w p s q sq Hw Hsm Hq) as Hw1.
  pose proof (wfx_assign ∅ (without_smart p q sq w) q (set_peer None sq) (waiting_client t a sq) Hw1) as Hw2.
  replace (<[q := waiting_client t a sq]> (socks (without_smart p q sq w)))
    with (delete p (<[q := waiting_client t a sq]> (socks w))) in Hw2.
  2:{ unfold without_smart. wcbn. by rewrite !delete_insert_ne, insert_insert_eq by done. }
  apply Hw2; try done.
  - unfold without_smart. wcbn. rewrite lookup_delete_ne by done. apply lookup_insert_eq.
  - destruct (local_kind sq Hl) as (Hex & Hen & _ & _ & Hfr & Har); [exact (wf_kind _ _ Hw q sq Hq)|]. split; [exact Hex|].
    split; [exact Hen|]. split; [by right|]. split; [done|]. split; [exact Hfr|exact Har].
  - split; [done|]. by right.
  - unfold is_tracker. destruct Hl as [E|E]; cbn; rewrite E; done.
  - intros u _ [= <-]. done.
Qed.

Lemma wp_smart_remote (F : Prop) w p s q :
  hub_ok w → is_smart w p s q → llen (drop 4 (smart_socket_data s)) + 1 < 2 ^ 32 →
  (∀ t tr, transport s = Some t → transports w !! t = Some tr → connect_aborts tr (drop 4 (smart_socket_data s)) → F) →
  wp F (smart_remote p q) (λ r w', hub_ok w' ∧ (0 ≤ r → lives w' q)) w.
Proof.
  intros Hw Hsm Hlen HF. pose proof Hsm as (Hs & Hc & Hp).
  destruct (smart_peer w p s q (hub_wf _ Hw) Hsm) as (Hne & sq & Hq & Hqp & Hl & Hcl).
  assert (∀ fd text, wp F (_ ← SendFail fd text; smart_fail p) (λ r w', hub_ok w' ∧ (0 ≤ r → lives w' q)) w) as Hfail.
  { intros fd text. eapply wp_mono; [by eapply wp_refuse|]. intros r w' [-> ?]. split; [done|lia]. }
  unfold smart_remote. do 4 wstep. destruct (transport s) as [t|] eqn:Et; [|apply Hfail].
  destruct (peered_transport _ _ _ _ _ _ (hub_wf _ Hw) Hs Hp Et) as [tr Htr]. do 2 wstep.
  destruct (ConnectionStateIsOnline _); [|apply Hfail]. cbn [negb].
  wstep. eapply wp_supd; [exact Hq|]. wstep. eapply wp_supd; [apply lookup_insert_eq|]. wcbn. wstep.
  eapply wp_supd; [apply lookup_insert_eq|]. wcbn. rewrite !insert_insert_eq. wstep.
  eapply wp_connect_to_remote; [exact (wf_conn _ _ (hub_wf _ Hw))|apply lookup_insert_eq|done|done|exact Htr|done|by eapply HF|].
  intros tr' a w1 Hcore Hpp S1. wcbn. rewrite insert_insert_eq in S1. fold (waiting_client t a sq) in S1.
  assert (socks w1 !! p = Some s) as Hs1.
  { destruct S1 as (? & ? & ? & -> & _). wcbn. by rewrite lookup_insert_ne. }
  wstep. pose proof (wp_close_smart F w1 p s (λ _, wp F (mret 1) (λ r w', hub_ok w' ∧ (0 ≤ r → lives w' q))) Hs1 Hc) as D.
  apply wp_bind_inv in D; [eapply wp_mono; [exact D|]; clear D; intros [] w2 D; wstep; exact D|]. clear D. wstep. split.
  - set (m := <[q := waiting_client t a sq]> (socks w)) in *.
    assert (socks w1 = m) as Em by by destruct S1 as (? & ? & ? & -> & _). rewrite Em.
    eapply hub_ok_sent; [|apply sent_socks; exact S1].
    change (hub_ok (set_transports (<[t := tr']> (transports (set_socks (delete p m) w))) (set_socks (delete p m) w))).
    apply (hub_ok_tput (set_socks (delete p m) w) t tr tr'); [|done|done|apply Hpp; by eapply hub_props].
    apply hub_ok_socks; [done|]. eapply waiting_client_wf; [apply Hw|done..|by eexists].
  - intros _. exists (waiting_client t a sq). split; [|by right]. wcbn. rewrite lookup_delete_ne by done.
    destruct S1 as (? & ? & ? & -> & _). wcbn. apply lookup_insert_eq.
Qed.

(** ** The socket of a host service *)

Definition fresh_tracker (o : TrackerOutputType) : asocket :=
  set_tracker (Some (true, o)) (new_socket device_tracker_enqueue_fn device_tracker_ready_fn None device_tracker_close_fn).
Definition add_tracker (o : TrackerOutputType) (w : world) : world :=
  set_trackers (next_ptr w :: device_tracker_list w)
    (set_next_ptr (Pos.succ (next_ptr w)) (set_socks (<[next_ptr w := fresh_tracker o]> (socks w)) w)).

(** No id is left, or the system has no more descriptors. *)
Definition service_aborts (w : world) : Prop :=
  local_socket_next_id w = 2 ^ 32 - 1 ∨ ∃ n, os_socketpair n = None.

Lemma wp_host_service_to_socket (F : Prop) w name ser tid (Q : option ptr → world → Prop) :
  wf w → (service_aborts w → F) → Q None w → (∀ o, Q (Some (next_ptr w)) (add_tracker o w)) →
  (∀ fd c l, local_socket_next_id w + 1 < 2 ^ 32 → Q (Some (next_ptr w)) (add_local fd None (set_log c l w))) →
  wp F (host_service_to_socket name ser tid) Q w.
Proof.
  intros Hw HF HN HT HL.
  assert (∀ o, wp F (some_socket (create_device_tracker o)) Q w) as Htrk.
  { intros o. unfold some_socket, create_device_tracker, snew. do 2 wstep. unfold wp at 1. do 3 wstep. wstep. apply HT. }
  assert (∀ body, wp F (fd ← create_service_thread body; some_socket (create_local_socket fd)) Q w) as Hth.
  { intros body. unfold create_service_thread. wstep. do 2 wstep. destruct (os_socketpair (clock w)) as [fd|] eqn:E.
    - do 3 wstep. unfold some_socket. wstep. apply wp_create_local_socket.
      + by eapply wfx_sent; [|apply sent_log].
      + intros ?. apply HF. by left.
      + pose proof (os_socketpair_fd _ _ E). lia.
      + intros _ ?. wstep. by apply HL.
    - wstep. unfold some_socket. wstep. apply wp_create_local_socket; [done| | |lia].
      + intros ?. apply HF. by left.
      + intros _. apply HF. right. by eexists. }
  unfold host_service_to_socket. do 4 (case_bool_decide; [apply Htrk|]).
  destruct (ConsumePrefix name (txt "wait-for-")); [apply Hth|].
  destruct (ConsumePrefix name (txt "connect:")); [apply Hth|].
  destruct (ConsumePrefix name (txt "pair:")) as [rest|]; [|by wstep].
  destruct (split_colon (c_str rest)) as [[? ?]|]; [apply Hth|by wstep].
Qed.

(** The client of a host service, an ordinary local socket again, before it gets its peer. *)
Definition idle_client (sq : asocket) : asocket :=
  set_peer None (set_fns local_socket_ready_fn None local_socket_close_fn sq).
Definition with_idle_client (p q : ptr) (sq : asocket) (w : world) : world :=
  set_socks (delete p (<[q := idle_client sq]> (socks w))) w.

Lemma idle_client_wf w p s q sq :
  wf w → is_smart w p s q → socks w !! q = Some sq → wf (with_idle_client p q sq w).
Proof.
  intros Hw Hsm Hq. destruct (smart_peer w p s q Hw Hsm) as (Hne & sq' & Hq' & _ & Hl & Hc). simplify_eq.
  pose proof (without_smart_wf w p s q sq Hw Hsm Hq) as Hw1.
  pose proof (wfx_set_fns ∅ (without_smart p q sq w) q (set_peer None sq) Hw1) as Hw2.
  replace (<[q := _]> (socks (without_smart p q sq w))) with (delete p (<[q := idle_client sq]> (socks w))) in Hw2.
  2:{ unfold without_smart. wcbn. by rewrite !delete_insert_ne, insert_insert_eq by done. }
  apply Hw2; [|done]. unfold without_smart. wcbn. rewrite lookup_delete_ne by done. apply lookup_insert_eq.
Qed.

(** What a new peer of the client looks like, in the state before the smart socket is freed. *)
Definition serving (p q s2 : ptr) (so : asocket) (sq : asocket) (w w' : world) : Prop :=
  wf w' ∧ s2 ≠ p ∧ s2 ≠ q ∧
  socks w' = delete p (<[s2 := set_peer (Some q) so]> (<[q := set_peer (Some s2) (idle_client sq)]> (socks w))) ∧
  hub_ok w'.

Lemma serving_tracker w p s q sq o :
  hub_ok w → is_smart w p s q → socks w !! q = Some sq →
  let w1 := add_tracker o w in let np := next_ptr w in
  serving p q np (fresh_tracker o) sq w
    (set_socks (delete p (<[np := set_peer (Some q) (fresh_tracker o)]> (<[q := set_peer (Some np) (idle_client sq)]> (socks w1)))) w1).
Proof.
  intros Hw Hsm Hq w1 np. destruct (smart_peer w p s q (hub_wf _ Hw) Hsm) as (Hne & sq' & Hq' & _ & Hl & Hc). simplify_eq.
  assert (p ≠ np ∧ q ≠ np) as [Hpn Hqn].
  { split; eapply fresh_ne; [apply Hw|apply Hsm|apply Hw|exact Hq]. }
  pose proof (idle_client_wf w p s q sq (hub_wf _ Hw) Hsm Hq) as Hi. set (wi := with_idle_client p q sq w) in *.
  pose proof (link_fresh_wf wi (np :: device_tracker_list w) (set_peer (Some q) (fresh_tracker o)) q (idle_client sq) Hi) as Hf.
  assert (socks wi !! q = Some (idle_client sq)) as Hqi.
  { unfold wi, with_idle_client. wcbn. rewrite lookup_delete_ne by done. apply lookup_insert_eq. }
  specialize (Hf ltac:(done) ltac:(by intros []) ltac:(done) ltac:(done)).
  specialize (Hf ltac:(intros r; rewrite elem_of_cons; change (next_ptr wi) with np; change (device_tracker_list wi) with (device_tracker_list w); split; [intros [-> |?]; [by right|by left]|by intros [?|[-> _]]; [right|left]])).
  specialize (Hf Hqi ltac:(by left) Hc ltac:(done)).
  set (m := delete p _).
  assert (m = delete p (<[np := set_peer (Some q) (fresh_tracker o)]> (<[q := set_peer (Some np) (idle_client sq)]> (socks w)))) as Em.
  { unfold m, w1, add_tracker. wcbn. f_equal. fold np.
    rewrite (insert_insert_ne _ q np) by done. by rewrite insert_insert_eq. }
  assert (link_fresh (np :: device_tracker_list w) (set_peer (Some q) (fresh_tracker o)) q (idle_client sq) wi = set_socks m w1) as E.
  { unfold link_fresh, wi, with_idle_client. wcbn. change (next_ptr w) with np. rewrite Em.
    rewrite !(delete_insert_ne _ p) by done. by rewrite insert_insert_eq. }
  rewrite E in Hf. split_and!; try done.
  eapply hub_ok_frame; [exact Hw|exact Hf|done|done|done|unfold w1, add_tracker; wcbn; lia|]. intros t. reflexivity.
Qed.

Lemma serving_local w p s q sq fd :
  hub_ok w → is_smart w p s q → socks w !! q = Some sq → local_socket_next_id w + 1 < 2 ^ 32 →
  let w1 := add_local fd None w in let np := next_ptr w in let so := fresh_local fd (local_socket_next_id w) None in
  serving p q np so sq w
    (set_socks (delete p (<[np := set_peer (Some q) so]> (<[q := set_peer (Some np) (idle_client sq)]> (socks w1)))) w1).
Proof.
  intros Hw Hsm Hq Hid w1 np so. destruct (smart_peer w p s q (hub_wf _ Hw) Hsm) as (Hne & sq' & Hq' & _ & Hl & Hc). simplify_eq.
  assert (p ≠ np ∧ q ≠ np) as [Hpn Hqn].
  { split; eapply fresh_ne; [apply Hw|apply Hsm|apply Hw|exact Hq]. }
  pose proof (idle_client_wf w p s q sq (hub_wf _ Hw) Hsm Hq) as Hi. set (wi := with_idle_client p q sq w) in *.
  pose proof (add_local_wf wi fd None Hi Hid ltac:(done)) as Ha.
  pose proof (link_locals_wf (add_local fd None wi) np so q (idle_client sq) Ha) as Hf.
  assert (socks (add_local fd None wi) = <[np := so]> (delete p (<[q := idle_client sq]> (socks w)))) as Es by done.
  rewrite Es in Hf. specialize (Hf ltac:(done) ltac:(apply lookup_insert_eq)).
  specialize (Hf ltac:(rewrite lookup_insert_ne, lookup_delete_ne by done; apply lookup_insert_eq)).
  specialize (Hf ltac:(by left) ltac:(by left) ltac:(done) Hc ltac:(done) ltac:(done)).
  set (m := delete p _).
  assert (m = delete p (<[np := set_peer (Some q) so]> (<[q := set_peer (Some np) (idle_client sq)]> (socks w)))) as Em.
  { unfold m, w1, add_local. wcbn. f_equal. fold np. rewrite (insert_insert_ne _ q np) by done. by rewrite insert_insert_eq. }
  assert (link_locals np so q (idle_client sq) (add_local fd None wi) = set_socks m w1) as E.
  { unfold link_locals. rewrite Es, Em. unfold wi, with_idle_client, add_local. wcbn.
    rewrite (insert_insert_ne _ q np), insert_insert_eq, !(delete_insert_ne _ p), insert_insert_eq by done. done. }
  rewrite E in Hf. split_and!; try done.
  eapply hub_ok_frame; [exact Hw|exact Hf|done|done|done|unfold w1, add_local; wcbn; lia|]. intros t. reflexivity.
Qed.

(** The client gets its new peer and the smart socket is freed; [k] is what follows. *)
Lemma wp_serve {A} F w p s q sq s2 so fd (k : M A) (Q : A → world → Prop) :
  socks w !! p = Some s → close s = smart_socket_close_fn → socks w !! q = Some sq → socks w !! s2 = Some so →
  p ≠ q → s2 ≠ p → s2 ≠ q →
  (∀ c l, wp F k Q (set_log c l (set_socks
     (delete p (<[s2 := set_peer (Some q) so]> (<[q := set_peer (Some s2) (idle_client sq)]> (socks w)))) w))) →
  wp F (_ ← SendOkay fd;
        supd q (set_fns local_socket_ready_fn None local_socket_close_fn) ;; supd q (set_peer (Some s2)) ;;
        supd s2 (set_peer (Some q)) ;; supd p (set_peer None) ;; socket_close p ;; k) Q w.
Proof.
  intros Hp Hc Hq Hs2 Hpq H2p H2q Hk. unfold SendOkay, WriteFdExactly. do 4 wstep.
  wstep. eapply wp_supd; [exact Hq|]. wstep. eapply wp_supd; [apply lookup_insert_eq|]. wcbn. rewrite insert_insert_eq. wstep.
  eapply wp_supd; [wcbn; rewrite lookup_insert_ne by done; exact Hs2|]. wcbn.
  set (m := <[s2 := _]> _). set (w2 := set_socks m _). wstep.
  pose proof (wp_close_smart F w2 p s (λ _, wp F k Q)) as D. apply wp_bind_inv in D.
  - eapply wp_mono; [exact D|]. clear D. intros [] w3 D. wstep. exact D.
  - unfold w2, m. wcbn. rewrite !lookup_insert_ne by done. exact Hp.
  - done.
  - apply Hk.
Qed.

(** No listing is too long for a packet queue. *)
Definition listings_fit (w : world) : Prop := ∀ o ts,
  mapM (λ t, tr ← transports w !! t; Some (t, tr)) (transport_list w) = Some ts →
  4 + llen (list_transports (snd <$> ts) o) < 2 ^ 33.

Lemma block_write_ok b d off src :
  block_ok b → data_ b = Some d → 0 ≤ off → off + llen src ≤ capacity_ b →
  ∃ d', block_write b off src = Ok (mkBlock (Some d') (capacity_ b) (size_ b)) ∧
    block_ok (mkBlock (Some d') (capacity_ b) (size_ b)).
Proof.
  unfold block_ok. intros Hb Hd. rewrite Hd in Hb. intros ? ?. pose proof (llen_nonneg src).
  rewrite (block_write_data b d off src) by (done || lia). eexists. split; [done|]. cbn.
  rewrite !llen_app, llen_ltake, llen_ldrop by lia. lia.
Qed.

Lemma tracker_header_len n : llen (tracker_header n) ≤ 4.
Proof. unfold tracker_header, llen. rewrite length_take. lia. Qed.

(** [s2->ready(s2)] of a new tracker: the first listing goes to the client's queue. *)
Lemma wp_ready_tracker F smart w s2 o q sq :
  hub_ok w → queue_room w → listings_fit w → socks w !! s2 = Some (set_peer (Some q) (fresh_tracker o)) →
  socks w !! q = Some sq → is_local sq → closing sq = false →
  wp F (call_ready (call_enqueue smart) s2) (λ _ w', hub_ok w' ∧ lives w' q) w.
Proof.
  intros Hw Hroom Hfit Hs Hq Hl Hc. assert (s2 ≠ q) as Hne.
  { intros ->. simplify_eq. by destruct Hl. }
  unfold call_ready. wstep. eapply wp_sget; [exact Hs|]. cbn [ready set_peer fresh_tracker set_tracker new_socket].
  unfold device_tracker_ready. wstep. eapply wp_sget; [exact Hs|]. cbn [tracker set_peer fresh_tracker set_tracker].
  wstep. eapply wp_supd; [exact Hs|]. set (s2' := set_tracker _ _). set (w1 := set_socks _ w).
  assert (hub_ok w1) as Hw1.
  { apply hub_ok_socks; [done|]. eapply wfx_update; [apply Hw|exact Hs|by split|by split|done..]. }
  wstep. unfold current_listing. apply wp_with_transports_full; [done|]. intros ts Ets. wstep.
  pose proof (Hfit o ts Ets) as Hsz. set (listing := list_transports _ o) in *. pose proof (llen_nonneg listing).
  unfold device_tracker_send. do 2 wstep. eapply wp_sget; [apply lookup_insert_eq|].
  destruct (resize_empty (4 + llen listing)) as (b0 & E0 & Hb0 & Hz0 & Hcap0 & Hd0); [lia|]. destruct Hd0 as [d0 Hd0]; [lia|].
  pose proof (tracker_header_len (llen listing)).
  destruct (block_write_ok b0 d0 0 (tracker_header (llen listing))) as (d1 & E1 & Hb1); [done..|lia|].
  destruct (block_write_ok _ d1 4 listing Hb1) as (d2 & E2 & Hb2); [done|done|cbn; lia|]. cbn in E2, Hb2.
  wstep. eapply wp_lift; [exact E0|]. wstep. eapply wp_lift; [exact E1|]. wstep. eapply wp_lift; [exact E2|].
  wstep. eapply wp_lift; [done|]. assert (socks w1 !! q = Some sq) as Hq1 by (unfold w1; wcbn; by rewrite lookup_insert_ne).
  unfold call_enqueue. wstep. eapply wp_sget; [exact Hq1|].
  destruct (local_kind sq Hl) as (_ & -> & _); [exact (wf_kind _ _ (hub_wf _ Hw) q sq Hq)|].
  eapply wp_mono; [eapply (wp_local_socket_enqueue F ∅ w1 q sq); [apply Hw1|set_solver|done|done|done|cbn; lia|]|].
  - intros r sr. unfold w1. wcbn. rewrite lookup_insert_Some. intros [[<- <-]|[_ Hr]]; [|by eapply Hroom].
    exact (Hroom s2 _ Hs).
  - intros r w2 [Hw2 [(_ & Hcl & _)|(_ & Ht & q' & e & st & n & Hq2 & _)]]; [congruence|]. wstep. split.
    + by eapply hub_ok_touched.
    + by eexists.
Qed.

(** The rooms of a state that was reached by serving. *)
Lemma serving_room w w' p q s2 so sq :
  queue_room w → socks w !! q = Some sq → chain_length_ (packet_queue so) = 0 → serving p q s2 so sq w w' → queue_room w'.
Proof.
  intros Hroom Hq Hso (_ & _ & _ & Es & _) r sr. rewrite Es, lookup_delete_Some, !lookup_insert_Some.
  pose proof (Hroom q sq Hq). intros [_ [[_ <-]|[_ [[_ <-]|[_ Hr]]]]]; [cbn; lia|done|by eapply Hroom].
Qed.

Lemma serving_lookup w w' p q s2 so sq :
  p ≠ q → serving p q s2 so sq w w' →
  socks w' !! s2 = Some (set_peer (Some q) so) ∧ socks w' !! q = Some (set_peer (Some s2) (idle_client sq)).
Proof.
  intros Hpq (_ & H2p & H2q & Es & _). rewrite Es, !lookup_delete_ne by done. split; [apply lookup_insert_eq|].
  rewrite lookup_insert_ne by done. apply lookup_insert_eq.
Qed.

Lemma serving_log w w' p q s2 so sq c l : serving p q s2 so sq w w' → serving p q s2 so sq w (set_log c l w').
Proof.
  intros (? & ? & ? & ? & ?). split_and!; try done; [by eapply wfx_sent; [|apply sent_log]|by eapply hub_ok_sent; [|apply sent_log]].
Qed.

Lemma wp_smart_service (F : Prop) smart w p s q service ser tid :
  hub_ok w → queue_room w → listings_fit w → is_smart w p s q → (service_aborts w → F) →
  wp F (smart_service smart p q service ser tid) (λ r w', hub_ok w' ∧ (0 ≤ r → lives w' q)) w.
Proof.
  intros Hw Hroom Hfit Hsm HF. destruct (smart_peer w p s q (hub_wf _ Hw) Hsm) as (Hne & sq & Hq & _ & Hl & Hc).
  pose proof Hsm as (Hs & Hcs & _).
  assert (p ≠ next_ptr w ∧ q ≠ next_ptr w) as [Hpn Hqn] by (split; eapply fresh_ne; [apply Hw|done|apply Hw|done]).
  unfold smart_service. wstep. apply wp_host_service_to_socket; [apply Hw|done|..].
  - do 2 wstep. eapply wp_mono; [by eapply wp_refuse|]. intros r w' [-> ?]. split; [done|lia].
  - intros o. wstep. eapply wp_sget; [unfold add_tracker; wcbn; rewrite lookup_insert_ne by done; exact Hq|].
    eapply wp_serve; [unfold add_tracker; wcbn; rewrite lookup_insert_ne by done; exact Hs|done|
      unfold add_tracker; wcbn; rewrite lookup_insert_ne by done; exact Hq|apply lookup_insert_eq|done..|].
    intros c l. pose proof (serving_log _ _ _ _ _ _ _ c l (serving_tracker w p s q sq o Hw Hsm Hq)) as Hsv. set (w2 := set_log _ _ _) in *.
    destruct (serving_lookup _ _ _ _ _ _ _ Hne Hsv) as [E2 Eq]. wstep.
    eapply wp_mono; [eapply (wp_ready_tracker F smart w2); [apply Hsv|eapply (serving_room w w2); [exact Hroom|exact Hq| |exact Hsv]; done|exact Hfit|exact E2|exact Eq|by left|done]|].
    intros [] w3 [? ?]. by wstep.
  - intros fd c l Hid. set (w0 := set_log c l w). assert (hub_ok w0) as Hw0 by (eapply hub_ok_sent; [done|apply sent_log]).
    wstep. eapply wp_sget; [unfold add_local; wcbn; rewrite lookup_insert_ne by done; exact Hq|].
    eapply wp_serve; [unfold add_local; wcbn; rewrite lookup_insert_ne by done; exact Hs|done|
      unfold add_local; wcbn; rewrite lookup_insert_ne by done; exact Hq|apply lookup_insert_eq|done..|].
    intros c2 l2. pose proof (serving_log _ _ _ _ _ _ _ c2 l2 (serving_local w0 p s q sq fd Hw0 Hsm Hq Hid)) as Hsv. set (w2 := set_log _ _ _) in *.
    destruct (serving_lookup _ _ _ _ _ _ _ Hne Hsv) as [E2 Eq]. wstep.
    eapply wp_call_ready; [apply Hsv|exact E2|by left|]. intros w3 (Hw3 & Ht & _). wstep. split.
    + eapply hub_ok_touched; [apply Hsv|done|done].
    + intros _. eexists. rewrite (touched_socks _ _ _ Ht) by done. split; [exact Eq|by left].
Qed.

(** ** The smart socket *)

(** The text of a complete request. *)
Definition smart_text (d : bytes) : bytes := drop 4 (<[Z.to_nat (unhex d 4 + 4) := x00]> d).

(** The three ways a request can abort the server. *)
Definition smart_aborts (w : world) (s : asocket) (d : bytes) : Prop :=
  service_aborts w ∨
  ∃ t tr, transport s = Some t ∧ transports w !! t = Some tr ∧ connect_aborts tr (smart_text d).

Lemma parse_smart_request_total text :
  (∀ rest, text = txt "host-serial:" ++ rest → ¬ vsock_only rest) → ∃ r, parse_smart_request text = Ok r.
Proof.
  intros Hv. unfold parse_smart_request. destruct (ConsumePrefix text (txt "host-serial:")) as [rest|] eqn:E; [|by eexists].
  pose proof (parse_host_service_result rest) as Hr. rewrite decide_False in Hr.
  - destruct Hr as (o & -> & _). rok. by eexists.
  - apply Hv. unfold ConsumePrefix, StartsWith in E. case_bool_decide as Et; [|done]. injection E as <-.
    rewrite <- Et at 1. by rewrite take_drop.
Qed.

Lemma set_smart_data_ok w p s q v :
  hub_ok w → queue_room w → is_smart w p s q →
  let w' := set_socks (<[p := set_smart_data v s]> (socks w)) w in
  hub_ok w' ∧ queue_room w' ∧ is_smart w' p (set_smart_data v s) q.
Proof.
  intros Hw Hroom Hsm w'. pose proof Hsm as (Hs & Hc & Hp). split_and!.
  - apply hub_ok_socks; [done|]. eapply wfx_update; [apply Hw|exact Hs| |done..]. eapply smart_kind; [apply Hw|done..].
  - intros r sr. unfold w'. wcbn. rewrite lookup_insert_Some. intros [[<- <-]|[_ Hr]]; [exact (Hroom p s Hs)|by eapply Hroom].
  - split; [apply lookup_insert_eq|done].
Qed.

Lemma kill_is_no_service ser tid : host_service_to_socket (txt "kill") ser tid = mret None.
Proof. reflexivity. Qed.

Lemma requested_smart w w' p s q : requested p s w w' → is_smart w p s q → ∃ s', is_smart w' p s' q.
Proof.
  intros (_ & [t E] & _) (Hs & Hc & Hp). exists (set_transport t s). unfold is_smart. rewrite E, lookup_insert_eq. done.
Qed.

Section enqueue.
Context (gListenAll g_reject_kill_server : bool) (local_connect : Z → M bool) `{!EmulatorSpec local_connect}.
Context (smart : ptr → Block → M Z).

Lemma wp_smart_host (F : Prop) w p s q sq service ser tid ty :
  hub_ok w → queue_room w → listings_fit w → is_smart w p s q → socks w !! q = Some sq →
  (service = txt "kill" → g_reject_kill_server = true) → ¬ emulator_overflow service → (service_aborts w → F) →
  wp F (result ← handle_host_request gListenAll g_reject_kill_server local_connect smart ty
          (match ser with [] => None | _ => Some ser end) tid (fd sq) p service;
        match result with
        | Handled => smart_fail p
        | SwitchedTransport => supd p (set_smart_data []) ;; mret 0
        | Unhandled => smart_service smart p q service ser tid
        end) (λ r w', hub_ok w' ∧ (0 ≤ r → lives w' q)) w.
Proof.
  intros Hw Hroom Hfit Hsm Hq Hkill Hov HF. destruct (smart_peer w p s q (hub_wf _ Hw) Hsm) as (Hne & sq' & Hq' & _ & Hl & Hc).
  simplify_eq. wstep. eapply wp_mono; [by eapply wp_handle_host_request|]. intros r w1 [Hreq Hsame].
  destruct (requested_smart _ _ _ _ _ Hreq Hsm) as [s1 Hsm1]. pose proof Hreq as (Hw1 & [t Et] & _).
  assert (socks w1 !! q = Some sq) as Hq1 by (rewrite Et, lookup_insert_ne by done; done).
  destruct r.
  - eapply wp_mono; [eapply wp_smart_fail; [done|apply Hsm1]|]. intros r w2 [-> ?]. split; [done|lia].
  - wstep. eapply wp_supd; [apply Hsm1|]. wstep. split.
    + apply hub_ok_socks; [done|]. eapply wfx_update; [apply Hw1|apply Hsm1| |done..]. eapply smart_kind; [apply Hw1|done..].
    + intros _. exists sq. wcbn. by rewrite lookup_insert_ne.
  - destruct (decide (service = txt "kill")) as [->|Hk].
    + unfold smart_service. rewrite kill_is_no_service. do 4 wstep.
      eapply wp_mono; [eapply wp_refuse; [done|apply Hsm1]|]. intros r w2 [-> ?]. split; [done|lia].
    + rewrite (Hsame eq_refl Hk) in *. by eapply wp_smart_service.
Qed.

Lemma wp_smart_socket_enqueue w p s q data :
  let d := smart_socket_data s ++ contents data in
  hub_ok w → queue_room w → listings_fit w → is_smart w p s q → llen d < 2 ^ 32 →
  (∀ rest, smart_text d = txt "host-serial:" ++ rest → ¬ vsock_only rest) →
  (∀ ser tid ty, parse_smart_request (smart_text d) = Ok (ReqHost (txt "kill") ser tid ty) → g_reject_kill_server = true) →
  (∀ service ser tid ty, parse_smart_request (smart_text d) = Ok (ReqHost service ser tid ty) → ¬ emulator_overflow service) →
  wp (smart_aborts w s d) (smart_socket_enqueue gListenAll g_reject_kill_server local_connect smart p data)
    (λ r w', hub_ok w' ∧ (0 ≤ r → lives w' q)) w.
Proof.
  intros d Hw Hroom Hfit Hsm Hlen Hv Hkill Hov. pose proof Hsm as (Hs & Hc & Hp).
  destruct (smart_peer w p s q (hub_wf _ Hw) Hsm) as (Hne & sq & Hq & _ & Hl & Hcl).
  unfold smart_socket_enqueue, smart_process. wstep. eapply wp_supd; [exact Hs|]. fold d.
  destruct (set_smart_data_ok w p s q d Hw Hroom Hsm) as (Hw1 & Hroom1 & Hsm1). set (w1 := set_socks _ w) in *.
  set (s1 := set_smart_data d s) in *. wstep. eapply wp_sget; [apply Hsm1|]. cbn [smart_socket_data s1 set_smart_data].
  assert (∀ w' m, socks w' = <[p := m]> (socks w) → lives w' q) as Hlive.
  { intros w' m E. exists sq. rewrite E. by rewrite lookup_insert_ne. }
  destruct (Z.ltb_spec (llen d) 4); [wstep; split; [done|intros _; by eapply Hlive]|]. cbv zeta.
  destruct (_ || _).
  { eapply wp_mono; [eapply wp_smart_fail; [done|apply Hsm1]|]. intros r w2 [-> ?]. split; [done|lia]. }
  destruct (_ <? _); [wstep; split; [done|intros _; by eapply Hlive]|].
  wstep. eapply wp_supd; [apply Hsm1|]. cbn [smart_socket_data s1 set_smart_data].
  set (d2 := <[Z.to_nat (unhex d 4 + 4) := x00]> d).
  destruct (set_smart_data_ok w1 p s1 q d2 Hw1 Hroom1 Hsm1) as (Hw2 & Hroom2 & Hsm2). set (w2 := set_socks _ w1) in *.
  set (s2 := set_smart_data d2 s1) in *. wstep. eapply wp_sget; [apply Hsm2|]. cbn [smart_socket_data s2 set_smart_data].
  change (drop 4 d2) with (smart_text d). destruct (parse_smart_request_total (smart_text d) Hv) as [r Er].
  wstep. eapply wp_lift; [exact Er|].
  assert (peer s2 = Some q) as Hp2 by apply Hsm2.
  assert (socks w2 !! q = Some sq) as Hq2.
  { unfold w2. wcbn. rewrite lookup_insert_ne by done. unfold w1. wcbn. by rewrite lookup_insert_ne. }
  assert (wp (smart_aborts w s d) (q0 ← lift (deref (peer s2)); smart_remote p q0)
    (λ r w', hub_ok w' ∧ (0 ≤ r → lives w' q)) w2) as Hrem.
  { wstep. eapply wp_lift; [by rewrite Hp2|]. eapply wp_smart_remote; [done..| |].
    - change (smart_socket_data s2) with d2. unfold llen in *. rewrite length_drop. unfold d2. rewrite length_insert. lia.
    - intros t tr Ht Htr Hab. right. by exists t, tr. }
  destruct r as [| |[|b service] ser tid ty|]; [|wstep; split; [done|lia]|exact Hrem| |exact Hrem].
  { eapply wp_mono; [eapply wp_smart_fail; [done|apply Hsm2]|]. intros r w3 [-> ?]. split; [done|lia]. }
  wstep. eapply wp_lift; [by rewrite Hp2|]. wstep. eapply wp_sget; [exact Hq2|].
  eapply wp_smart_host; [done|done|exact Hfit|done|done| |by eapply Hov|by left]. intros Ek. rewrite Ek in Er. exact (Hkill ser tid ty Er).
Qed.
End enqueue.
End smart.
