(* ===== verification/Emulator.v ===== *)
(** * Emulators (adb/client/transport_local.cpp)

    Connecting to an emulator by its ports, and the map from ports to transports that keeps
    one from being registered twice.  [local_connect] is what the [host:emulator] request of
    the smart socket calls; its theorem is the contract [EmulatorSpec] that the request
    relies on.  The task that [register_transport] gives to the looper is the subject of
    Reconnect.v; the thread that polls and retries ports is not modelled. *)

From S2P Require Import Prelude Types TransportFd Strings SocketSpec Transport World Sockets SocketInv Listeners Adb AdbInv Services ServicesInv.

Section emulator.
Context `{OS}.
(** [getenv("ADBHOST")]. *)
Context (adbhost : option bytes).

Definition getEmulatorSerialString (console_port : Z) : bytes := txt "emulator-" ++ dec console_port.

Definition find_emulator_transport_by_adb_port (adb_port : Z) : M (option ptr) :=
  m ← gets local_transports; mret (m !! adb_port).
Definition find_emulator_transport_by_console_port (console_port : Z) : M (option ptr) :=
  find_transport_now (getEmulatorSerialString console_port).

(** [EmulatorConnection::Close]. *)
Definition EmulatorConnection_Close (local_port : Z) : M unit :=
  modify (λ w, set_emulators (delete local_port (local_transports w)) (next_transport_id w) w).

(** [init_socket_transport] of an emulator: is the port free?  Then it is taken. *)
Definition init_socket_transport (t : ptr) (adb_port : Z) : M bool :=
  existing_transport ← find_emulator_transport_by_adb_port adb_port;
  match existing_transport with
  | Some _ => mret false
  | None =>
      modify (λ w, set_emulators (<[adb_port := t]> (local_transports w)) (next_transport_id w) w) ;; mret true
  end.

Definition validate_transport_list (l : list ptr) (serial : bytes) : M bool :=
  ts ← list_transport_objects l;
  mret (forallb (λ x, negb (bool_decide (Transport.serial (snd x) = serial))) ts).

(** The transport after [SetConnection]; [new atransport] takes an address that is not in
    use. *)
Definition emulator_transport (id : Z) (serial : bytes) : atransport :=
  set_connection (Some (mkConnStatus false false))
    (set_type kTransportLocal (set_serial serial (new_transport id kCsOffline))).

(** [register_socket_transport] with [local] 1.  Where it fails the transport is deleted, and
    its connection, which was never started, closes the descriptor and nothing else. *)
Definition register_socket_transport (fd : Z) (serial : bytes) (port : Z) : M bool :=
  id ← gets next_transport_id;
  modify (λ w, set_emulators (local_transports w) (u64 (id + 1)) w) ;;
  t ← gets (λ w, fresh (dom (transports w)));
  let failed := _ ← emit (EvClose fd); mret false in
  free ← init_socket_transport t port;
  if negb free then failed else
  pending ← gets pending_list;
  new ← validate_transport_list pending serial;
  if negb new then failed else
  registered ← gets transport_list;
  new ← validate_transport_list registered serial;
  if negb new then failed else
  modify (λ w, set_transports (<[t := emulator_transport id serial]> (transports w)) w) ;;
  modify (λ w, set_transport_lists (transport_list w) (t :: pending_list w) w) ;;
  _ ← emit (EvRegister t);
  mret true.

Definition network_client (target : connect_target) : M (option Z) :=
  n ← emit (EvConnect target); mret (os_connect n target).

Definition local_connect_arbitrary_ports (console_port adb_port : Z) : M Z :=
  t ← find_emulator_transport_by_adb_port adb_port;
  known ← match t with
          | Some _ => mret true
          | None =>
              t ← find_emulator_transport_by_console_port console_port;
              mret (bool_decide (is_Some t))
          end;
  if known : bool then mret (-1) else
  fd ← match adbhost with
       | Some host => network_client (TcpHost host adb_port)
       | None => mret None
       end;
  fd ← match fd with
       | Some fd => mret (Some fd)
       | None => network_client (TcpLoopback adb_port)
       end;
  match fd with
  | Some fd =>
      ok ← register_socket_transport fd (getEmulatorSerialString console_port) adb_port;
      mret (if ok : bool then 0 else -1)
  | None => mret (-1)
  end.

(** [port - 1] is an [int]. *)
Definition local_connect (port : Z) : M bool :=
  lift (if port - 1 <? - 2 ^ 31 then Undef else Ok ()) ;;
  r ← local_connect_arbitrary_ports (port - 1) port;
  mret (r =? 0).

(** ** The contract *)

(** One more transport, which nothing refers to, and one more pending. *)
Lemma hub_ok_new w t tr :
  hub_ok w → transports w !! t = None → tr_ok tr → plain_props tr → disconnects_ tr = [] →
  hub_ok (set_transport_lists (transport_list w) (t :: pending_list w)
    (set_transports (<[t := tr]> (transports w)) w)).
Proof.
  intros [Hw [Hnd Hlt Hlr Hlf Hlw] Hli Hp] Hn Htr Hpl Hd.
  assert (∀ u, is_Some (transports w !! u) → is_Some (<[t := tr]> (transports w) !! u)) as Hmono.
  { intros u Hu. rewrite lookup_insert_is_Some. destruct (decide (t = u)); auto. }
  split.
  - assert (wf (set_transports (<[t := tr]> (transports w)) w)) as [].
    + apply wfx_transports; [done|intros; eapply Hmono, wf_transport; eauto|].
      intros u tu [[<- <-]|[_ Hu]]%lookup_insert_Some; [done|]. by eapply wf_conn.
    + by split.
  - split; wcbn; try done.
    + intros l u Hl Hu. by eapply Hmono, Hlt.
    + intros u tu p [[<- <-]|[_ Hu]]%lookup_insert_Some; [|by apply Hlr]. rewrite Hd. split; [by intros ?%elem_of_nil|].
      intros (l & Hl & _ & Hlu). destruct (Hlt l t Hl Hlu) as [? ?]. congruence.
  - intros u. wcbn. rewrite elem_of_app, elem_of_cons. intros Hu.
    destruct (decide (u = t)) as [->|]; [rewrite lookup_insert_eq; by eexists|].
    apply Hmono, Hli. rewrite elem_of_app. naive_solver.
  - intros u tu. wcbn. rewrite lookup_insert_Some. intros [[<- <-]|[_ Hu]]; [done|]. by eapply Hp.
Qed.

(** The map of ports, and the log, are nobody else's. *)
Lemma hub_ok_emulators w m i : hub_ok w → hub_ok (set_emulators m i w).
Proof. intros [[] [] ? ?]. split; [by split|by split|done..]. Qed.
Lemma hub_ok_log w c l : hub_ok w → hub_ok (set_log c l w).
Proof. intros [[] [] ? ?]. split; [by split|by split|done..]. Qed.

(** What connecting to an emulator leaves alone. *)
Definition quiet (w w' : world) : Prop :=
  hub_ok w' ∧ socks w' = socks w ∧ local_socket_next_id w' = local_socket_next_id w.

Lemma wp_register_socket_transport F w fd serial port :
  hub_ok w → wp F (register_socket_transport fd serial port) (λ _ w', quiet w w') w.
Proof.
  intros Hw. unfold register_socket_transport. repeat wstep. unfold init_socket_transport, find_emulator_transport_by_adb_port.
  repeat wstep. set (t := fresh _). assert (transports w !! t = None) as Ht by apply not_elem_of_dom, is_fresh.
  destruct (_ !! port); [repeat wstep; split_and!; [by apply hub_ok_log, hub_ok_emulators|done..]|].
  repeat wstep. cbn [negb]. repeat wstep. wcbn. unfold validate_transport_list at 1. repeat wstep.
  apply wp_list_transport_objects; [intros u Hu; apply Hw, elem_of_app; by right|]. intros ts. wstep.
  destruct (forallb _ ts); cbn [negb]; [|repeat wstep; split_and!; [by apply hub_ok_log, hub_ok_emulators, hub_ok_emulators|done..]].
  repeat wstep. wcbn. unfold validate_transport_list at 1. repeat wstep.
  apply wp_list_transport_objects; [intros u Hu; apply Hw, elem_of_app; by left|]. intros ts'. wstep.
  destruct (forallb _ ts'); cbn [negb]; [|repeat wstep; split_and!; [by apply hub_ok_log, hub_ok_emulators, hub_ok_emulators|done..]].
  repeat wstep. split_and!; [|done..]. apply hub_ok_log.
  apply (hub_ok_new (set_emulators _ _ (set_emulators _ _ w))); [by apply hub_ok_emulators, hub_ok_emulators|done|..]; try done.
  split_and!; by intros ?%elem_of_nil.
Qed.

Lemma wp_network_client F w target (Q : option Z → world → Prop) :
  (∀ o c l, Q o (set_log c l w)) → wp F (network_client target) Q w.
Proof. intros HQ. unfold network_client. repeat wstep. apply HQ. Qed.

Lemma wp_local_connect_arbitrary_ports F w console_port adb_port :
  hub_ok w → wp F (local_connect_arbitrary_ports console_port adb_port) (λ _ w', quiet w w') w.
Proof.
  intros Hw. unfold local_connect_arbitrary_ports, find_emulator_transport_by_adb_port. repeat wstep.
  destruct (_ !! adb_port); [repeat wstep; by split_and!|].
  wstep. apply wp_find_transport; [done|]. intros o _. wstep. case_bool_decide; [wstep; by split_and!|]. wstep.
  assert (∀ c l (fd : option Z), wp F (fd ← match fd with Some fd => mret (Some fd) | None => network_client (TcpLoopback adb_port) end;
    match fd with
    | Some fd => ok ← register_socket_transport fd (getEmulatorSerialString console_port) adb_port; mret (if ok : bool then 0 else -1)
    | None => mret (-1)
    end) (λ _ w', quiet w w') (set_log c l w)) as Hrest.
  { intros c l fd. assert (∀ c l (fd : option Z), wp F match fd with
      | Some fd => ok ← register_socket_transport fd (getEmulatorSerialString console_port) adb_port; mret (if ok : bool then 0 else -1)
      | None => mret (-1) end (λ _ w', quiet w w') (set_log c l w)) as Hreg.
    { intros c' l' [fd'|]; [|wstep; split_and!; [by apply hub_ok_log|done..]]. wstep.
      eapply wp_mono; [apply wp_register_socket_transport; by apply hub_ok_log|]. intros b w' Hq. wstep. exact Hq. }
    wstep. destruct fd as [fd|]; [wstep; apply (Hreg c l (Some fd))|]. apply wp_network_client. intros o' c' l'. apply (Hreg c' l' o'). }
  destruct adbhost.
  - apply wp_network_client. intros o' c' l'. apply Hrest.
  - wstep. specialize (Hrest (clock w) (trace w) None). by destruct w.
Qed.

(** [local_connect] does what the request for an emulator relies on. *)
#[global] Instance local_connect_spec : EmulatorSpec local_connect.
Proof.
  intros F w port Hw Hp. unfold local_connect. wstep. rewrite (proj2 (Z.ltb_ge _ _)) by lia. wstep. wstep.
  eapply wp_mono; [by apply wp_local_connect_arbitrary_ports|]. intros r w' Hq. wstep. exact Hq.
Qed.
End emulator.

(** ** Where the code falls short *)

(** [host:emulator:2147483648] computes a port below the least [int]. *)
Theorem emulator_port_overflows `{OS} adbhost w : local_connect adbhost (s32 (2 ^ 31)) w = Undef.
Proof. done. Qed.

(** An emulator with console port 5554 that was registered for another adb port and is still
    pending. *)
Definition pending_emulator : world :=
  set_transport_lists [] [1%positive]
    (set_transports {[1%positive := emulator_transport 1 (getEmulatorSerialString 5554)]} empty_world).

(** The port is taken before the serial number is compared with the pending ones.  When that
    fails the new transport is deleted, but the port stays taken by it: the map points to
    nothing, and every later attempt to connect to that port is refused, though nothing is
    registered for it and the pending emulator has gone. *)
Theorem emulator_port_lost :
  ∃ w, @local_connect quiet_os None 5555 pending_emulator = Ok (false, w) ∧
    local_transports w !! 5555 = Some 2%positive ∧ transports w !! 2%positive = None ∧
    @local_connect quiet_os None 5555 (set_transport_lists [] [] w) = Ok (false, set_transport_lists [] [] w).
Proof. eexists. split; [vm_compute; reflexivity|]. split_and!; vm_compute; reflexivity. Qed.

(** A free port: the emulator is registered, once. *)
Example emulator_connects :
  ∃ w, @local_connect quiet_os None 5555 empty_world = Ok (true, w) ∧
    trace w = [EvConnect (TcpLoopback 5555); EvRegister 1] ∧ pending_list w = [1%positive] ∧
    Transport.serial <$> transports w !! 1%positive = Some (txt "emulator-5554") ∧
    @local_connect quiet_os None 5555 w = Ok (false, w).
Proof. eexists. split; [vm_compute; reflexivity|]. split_and!; vm_compute; reflexivity. Qed.
