(* ===== verification/Requests.v ===== *)
(** * What a client's requests do

    The theorems about the smart socket and the services behind it, with the states that
    witness them.  The proofs rest on ServicesInv. *)

From S2P Require Import Prelude Types TransportFd Strings SocketSpec Transport World HostService Sockets SocketInv Listeners Adb AdbInv Services ServicesInv Emulator.

(** ** Requests in pieces *)

(** The bytes so far do not make a request yet, and are not an error either. *)
Definition incomplete (d : bytes) : bool :=
  (llen d <? 4) || ((0 <? unhex d 4) && (unhex d 4 <=? MAX_PAYLOAD) && (llen d <? unhex d 4 + 4)).

Section pieces.
Context `{OS} `{Uninit} `{Host} `{Protobuf}.
Context (gListenAll g_reject_kill_server : bool) (local_connect : Z → M bool) (smart : ptr → Block → M Z).

Abbreviation enqueue_smart := (smart_socket_enqueue gListenAll g_reject_kill_server local_connect smart).

(** One call of [enqueue] per block that arrives; the result of the last. *)
Fixpoint enqueue_each (p : ptr) (bs : list Block) : M Z :=
  match bs with
  | [] => mret 0
  | [b] => enqueue_smart p b
  | b :: bs => _ ← enqueue_smart p b; enqueue_each p bs
  end.

(** Storing what has arrived so far. *)
Definition enqueued (p : ptr) (d : bytes) (w : world) : world :=
  match socks w !! p with
  | Some s => set_socks (<[p := set_smart_data d s]> (socks w)) w
  | None => w
  end.

Lemma run_enqueue w p s b :
  socks w !! p = Some s →
  enqueue_smart p b w = smart_process gListenAll g_reject_kill_server local_connect smart p
    (enqueued p (smart_socket_data s ++ contents b) w).
Proof.
  intros Hs. unfold smart_socket_enqueue, supd, sget, modify, mbind, M_bind, enqueued. by rewrite Hs.
Qed.

Lemma enqueue_incomplete w p s b :
  socks w !! p = Some s → incomplete (smart_socket_data s ++ contents b) = true →
  enqueue_smart p b w = Ok (0, enqueued p (smart_socket_data s ++ contents b) w).
Proof.
  intros Hs Hi. rewrite (run_enqueue w p s b Hs). set (d := smart_socket_data s ++ contents b) in *.
  unfold smart_process, mbind, M_bind, sget, enqueued. rewrite Hs. wcbn. rewrite lookup_insert_eq.
  cbn [smart_socket_data set_smart_data]. unfold incomplete in Hi. destruct (llen d <? 4); [done|]. cbn [orb] in Hi.
  apply andb_true_iff in Hi as [[E1%Z.ltb_lt E2%Z.leb_le]%andb_true_iff E3].
  rewrite (proj2 (Z.eqb_neq _ _)), (proj2 (Z.ltb_ge _ _)) by lia. cbn [orb]. by rewrite E3.
Qed.

(** The call depends on what was stored and what arrives only through their concatenation. *)
Lemma enqueue_after w p s d b b' :
  socks w !! p = Some s → smart_socket_data s ++ contents b = d ++ contents b' →
  enqueue_smart p b' (enqueued p d w) = enqueue_smart p b w.
Proof.
  intros Hs E. rewrite (run_enqueue w p s b Hs), E. erewrite run_enqueue by (unfold enqueued; rewrite Hs; apply lookup_insert_eq).
  cbn [smart_socket_data set_smart_data]. unfold enqueued. rewrite Hs. wcbn. by rewrite lookup_insert_eq, insert_insert_eq.
Qed.

Lemma enqueue_each_whole bs : ∀ w p s whole,
  socks w !! p = Some s → bs ≠ [] → contents whole = concat (contents <$> bs) →
  (∀ k, (0 < k < length bs)%nat → incomplete (smart_socket_data s ++ concat (contents <$> take k bs)) = true) →
  enqueue_each p bs w = enqueue_smart p whole w.
Proof.
  induction bs as [|b bs IH]; intros w p s whole Hs Hne Hw Hi; [done|]. destruct bs as [|b' bs].
  - cbn [enqueue_each]. cbn in Hw. rewrite app_nil_r in Hw.
    rewrite <- (enqueue_after w p s (smart_socket_data s) whole b Hs) by by rewrite Hw.
    unfold enqueued. rewrite Hs. replace (set_smart_data (smart_socket_data s) s) with s by by destruct s.
    rewrite insert_id by done. by destruct w.
  - change (enqueue_each p (b :: b' :: bs)) with (_ ← enqueue_smart p b; enqueue_each p (b' :: bs)).
    unfold mbind, M_bind. rewrite (enqueue_incomplete w p s b Hs).
    2:{ specialize (Hi 1%nat ltac:(cbn; lia)). cbn in Hi. by rewrite app_nil_r in Hi. }
    set (d := smart_socket_data s ++ contents b). destruct (block_of_range_spec (concat (contents <$> b' :: bs))) as (rest & _ & _ & Er & _).
    rewrite <- (enqueue_after w p s d whole rest Hs); [|rewrite Hw, Er; unfold d; by rewrite fmap_cons, <- app_assoc].
    assert (socks (enqueued p d w) !! p = Some (set_smart_data d s)) as Hs' by (unfold enqueued; rewrite Hs; apply lookup_insert_eq).
    apply (IH _ p _ rest Hs'); [done|done|]. intros k Hk. cbn [smart_socket_data set_smart_data].
    specialize (Hi (S k) ltac:(cbn in *; lia)). cbn [take] in Hi. rewrite fmap_cons in Hi. cbn [concat] in Hi. unfold d. by rewrite <- app_assoc.
Qed.
End pieces.

(** ** Complete requests *)

Definition complete (d : bytes) : bool :=
  (4 <=? llen d) && (0 <? unhex d 4) && (unhex d 4 <=? MAX_PAYLOAD) && (unhex d 4 + 4 <=? llen d).

Lemma wp_fatal {A} (m : M A) w : wp True m (λ _ _, False) w → m w = Fatal.
Proof. unfold wp. destruct (m w) as [[? ?]| | | |]; done. Qed.

Section complete.
Context `{OS} `{Uninit} `{Host} `{Protobuf}.
Context (gListenAll g_reject_kill_server : bool) (local_connect : Z → M bool) (smart : ptr → Block → M Z).

Abbreviation enqueue_smart := (smart_socket_enqueue gListenAll g_reject_kill_server local_connect smart).

(** The state in which a complete request is looked at. *)
Definition received (p : ptr) (d : bytes) (w : world) : world :=
  enqueued p (<[Z.to_nat (unhex d 4 + 4) := x00]> d) w.

Lemma run_complete w p s b r :
  let d := smart_socket_data s ++ contents b in
  socks w !! p = Some s → complete d = true → parse_smart_request (smart_text d) = Ok r →
  enqueue_smart p b w =
    match r with
    | ReqFail => smart_fail p
    | ReqIgnored => mret (-1)
    | ReqHost ((_ :: _) as service) serial transport_id ty =>
        q ← lift (deref (peer s));
        sq ← sget q;
        result ← handle_host_request gListenAll g_reject_kill_server local_connect smart ty
          (match serial with [] => None | _ => Some serial end) transport_id (fd sq) p service;
        match result with
        | Handled => smart_fail p
        | SwitchedTransport => supd p (set_smart_data []) ;; mret 0
        | Unhandled => smart_service smart p q service serial transport_id
        end
    | _ => q ← lift (deref (peer s)); smart_remote p q
    end (received p d w).
Proof.
  intros d Hs Hc Hr. rewrite (run_enqueue gListenAll g_reject_kill_server local_connect smart w p s b Hs). fold d.
  apply andb_true_iff in Hc as [[[E1%Z.leb_le E2%Z.ltb_lt]%andb_true_iff E3%Z.leb_le]%andb_true_iff E4%Z.leb_le].
  unfold received, enqueued. rewrite Hs. unfold smart_process. unfold mbind, M_bind at 1, sget at 1. wcbn.
  rewrite lookup_insert_eq. cbn [smart_socket_data set_smart_data].
  rewrite (proj2 (Z.ltb_ge (llen d) 4)) by lia. cbv zeta.
  rewrite (proj2 (Z.eqb_neq _ _)), (proj2 (Z.ltb_ge MAX_PAYLOAD _)), (proj2 (Z.ltb_ge (llen d) _)) by lia. cbn [orb].
  unfold M_bind at 1, supd at 1, mbind, M_bind at 1, sget at 1. wcbn. rewrite lookup_insert_eq.
  unfold modify. wcbn. rewrite insert_insert_eq. cbn [smart_socket_data set_smart_data].
  unfold M_bind at 1, sget at 1. wcbn. rewrite lookup_insert_eq. unfold M_bind at 1, lift at 1. cbn [smart_socket_data set_smart_data].
  change (drop 4 (<[Z.to_nat (unhex d 4 + 4) := x00]> d)) with (smart_text d). rewrite Hr. cbn [peer set_smart_data].
  by repeat case_match.
Qed.
End complete.

(** ** Where a request aborts *)

Section abort.
Context `{OS} `{!OSLaws} `{Uninit} `{Host} `{Protobuf}.

(** Opening a stream whose name does not fit the device. *)
Lemma connect_too_long w q sq t tr dest :
  socks w !! q = Some sq → transport sq = Some t → peer sq = None → transports w !! t = Some tr →
  llen dest + 1 < 2 ^ 32 → Z.min MAX_PAYLOAD (max_payload tr) < llen dest + 1 →
  wp True (connect_to_remote q dest) (λ _ _, False) w.
Proof.
  intros Hq Ht Hp Htr Hlen Hlong. unfold connect_to_remote. do 2 wstep. wstep. eapply wp_lift; [by rewrite Ht|]. wstep.
  destruct (UpdateReverseConfig_result dest tr) as [[tr1 E]|E].
  2:{ unfold wp, tupd, tget, mbind, M_bind. rewrite Htr. unfold lift. by rewrite E. }
  destruct (UpdateReverseConfig_core dest tr tr1 E) as (_ & _ & Hm).
  eapply wp_tupd; [exact Htr|exact E|]. set (w1 := set_transports _ w). wstep.
  eapply wp_tget; [unfold w1; wcbn; apply lookup_insert_eq|]. wstep.
  assert (∀ w2 s2 arg1, socks w2 !! q = Some s2 → transport s2 = Some t → peer s2 = None → transports w2 = transports w1 →
    wp True (payload ← lift (block_of_range (dest ++ [x00])); limit ← get_max_payload q;
      lift (check (u32 (size_ payload) <=? limit)) ;;
      send_packet (mkPacket (mkMsg A_OPEN (s_id sq) arg1 (u32 (size_ payload)) 0 0) payload) t) (λ _ _, False) w2) as Hrest.
  { intros w2 s2 arg1 Hq2 Ht2 Hp2 ET. destruct (block_of_range_spec (dest ++ [x00])) as (b & Eb & _ & _ & Hsz).
    rewrite llen_app in Hsz. change (llen [x00]) with 1 in Hsz. pose proof (llen_nonneg dest).
    wstep. eapply wp_lift; [exact Eb|]. wstep. unfold get_max_payload. wstep. eapply wp_sget; [exact Hq2|].
    rewrite Ht2, Hp2. do 2 wstep. eapply wp_tget; [rewrite ET; unfold w1; wcbn; apply lookup_insert_eq|]. do 3 wstep.
    rewrite Hm, u32_small, (proj2 (Z.leb_gt _ _)) by lia. done. }
  destruct (delayed_ack_ tr1).
  - do 2 wstep. wstep. eapply wp_supd; [exact Hq|]. wstep. by eapply Hrest; [apply lookup_insert_eq|..].
  - wstep. by eapply Hrest.
Qed.
End abort.

(** ** Claims *)

Section claims.
Context `{OS} `{!OSLaws} `{Uninit} `{Host} `{Protobuf}.
Context (gListenAll g_reject_kill_server : bool).

(** C5. A request of a client, in any pieces, is handled by the smart socket without using a
    freed socket or transport; the calls back into the sockets end, the server's invariant
    holds afterwards, and when the result is not negative the client's socket is still there,
    as the caller relies on.  The request can only abort the server ([smart_aborts]) when the
    ids or the descriptors have run out, for an unknown [reverse:] request, or for a name that
    is too long for the selected device.  The conditions are these.  Three kinds of request
    are excluded: a [host:kill] that the server is not told to reject, since it ends the
    server on purpose; [host-serial:] followed by nothing but [vsock:], [tcp:vsock:] or
    [udp:vsock:], on which the parser reads behind the text ([vsock_only]); and
    [host:emulator:] with port 2^31, for which the port below overflows
    ([emulator_overflow]).  The text is shorter than 2^32.  The state is well formed
    ([hub_ok]), which includes that the product, model and device names of the transports
    contain no NUL; a device listing fits in 2^33 bytes ([listings_fit]), and no socket has so
    much queued, within 2^33 bytes of 2^64, that the length overflows ([queue_room]). *)
Theorem smart_socket_safe adbhost fuel w p s q data :
  let d := smart_socket_data s ++ contents data in
  hub_ok w → queue_room w → listings_fit w → is_smart w p s q → llen d < 2 ^ 32 →
  (∀ rest, smart_text d = txt "host-serial:" ++ rest → ¬ vsock_only rest) →
  (∀ ser tid ty, parse_smart_request (smart_text d) = Ok (ReqHost (txt "kill") ser tid ty) → g_reject_kill_server = true) →
  (∀ service ser tid ty, parse_smart_request (smart_text d) = Ok (ReqHost service ser tid ty) → ¬ emulator_overflow service) →
  wp (smart_aborts w s d) (smart_socket gListenAll g_reject_kill_server (Emulator.local_connect adbhost) (S fuel) p data)
    (λ r w', hub_ok w' ∧ (0 ≤ r → lives w' q)) w.
Proof. intros d **. apply wp_smart_socket_enqueue; [apply local_connect_spec|done..]. Qed.

Context (local_connect : Z → M bool).
Context (smart : ptr → Block → M Z).

(** How a request is cut into pieces does not matter: when every proper part of it is
    incomplete, giving the smart socket the pieces one by one has the same outcome, in the
    result and in the whole state, as giving it the bytes at once. *)
Theorem request_in_pieces w p s bs whole :
  socks w !! p = Some s → bs ≠ [] → contents whole = concat (contents <$> bs) →
  (∀ k, (0 < k < length bs)%nat → incomplete (smart_socket_data s ++ concat (contents <$> take k bs)) = true) →
  enqueue_each gListenAll g_reject_kill_server local_connect smart p bs w =
    smart_socket_enqueue gListenAll g_reject_kill_server local_connect smart p whole w.
Proof. apply enqueue_each_whole. Qed.

(** A client can end the server: the name of a service that it asks a device for, with
    the NUL behind it, is checked against the payload limit of the device only by a [CHECK]. *)
Theorem oversized_request_aborts w p s q t tr data :
  let d := smart_socket_data s ++ contents data in
  wf w → is_smart w p s q → transport s = Some t → transports w !! t = Some tr →
  ConnectionStateIsOnline (connection_state_ tr) = true → complete d = true → llen d < 2 ^ 32 →
  parse_smart_request (smart_text d) = Ok ReqDevice → max_payload tr < llen (smart_text d) + 1 →
  smart_socket_enqueue gListenAll g_reject_kill_server local_connect smart p data w = Fatal.
Proof.
  intros d Hw Hsm Ht Htr Hon Hc Hlen Hr Hlong. pose proof Hsm as (Hs & Hcs & Hp).
  destruct (smart_peer w p s q Hw Hsm) as (Hne & sq & Hq & _).
  rewrite (run_complete gListenAll g_reject_kill_server local_connect smart w p s data ReqDevice Hs Hc Hr).
  apply wp_fatal. fold d. unfold received, enqueued. rewrite Hs. set (d2 := <[_ := x00]> d).
  wstep. eapply wp_lift; [by rewrite Hp|]. unfold smart_remote. wstep. eapply wp_sget; [apply lookup_insert_eq|]. wstep.
  eapply wp_sget; [wcbn; rewrite lookup_insert_ne by done; exact Hq|]. wcbn. rewrite Ht. wstep. eapply wp_tget; [exact Htr|].
  rewrite Hon. cbn [negb]. wstep. eapply wp_supd; [wcbn; rewrite lookup_insert_ne by done; exact Hq|]. wstep.
  eapply wp_supd; [apply lookup_insert_eq|]. wstep. eapply wp_supd; [apply lookup_insert_eq|]. wstep.
  eapply wp_mono; [eapply connect_too_long; [apply lookup_insert_eq|done|done|exact Htr|..]|done].
  - assert (llen (drop 4 d2) ≤ llen d) by (unfold llen, d2; rewrite length_drop, length_insert; lia).
    unfold complete in Hc. apply andb_true_iff in Hc as [[[E1%Z.leb_le _]%andb_true_iff _]%andb_true_iff _].
    unfold llen, d2 in *. rewrite length_drop, length_insert in *. lia.
  - change (drop 4 d2) with (smart_text d). lia.
Qed.

(** A [host-transport-id:] request without a number, or without a command behind it, is
    never answered: the function reports that it has closed the connection, but it has not;
    both sockets stay, and nothing is written to the client. *)
Theorem bad_transport_id_never_answered w p s data junk :
  let d := smart_socket_data s ++ contents data in
  socks w !! p = Some s → complete d = true → smart_text d = txt "host-transport-id:" ++ junk →
  match ParseUint_sv (2 ^ 64 - 1) junk with
  | None => True
  | Some (_, rest) => StartsWith rest (txt ":") = false
  end →
  ∃ w', smart_socket_enqueue gListenAll g_reject_kill_server local_connect smart p data w = Ok (-1, w') ∧
    trace w' = trace w ∧ is_Some (socks w' !! p) ∧ ∀ q, q ≠ p → socks w' !! q = socks w !! q.
Proof.
  intros d Hs Hc Ht Hj. exists (received p d w).
  assert (parse_smart_request (smart_text d) = Ok ReqIgnored) as Hr.
  { rewrite Ht. unfold parse_smart_request.
    assert (ConsumePrefix (txt "host-transport-id:" ++ junk) (txt "host-serial:") = None) as -> by done.
    assert (ConsumePrefix (txt "host-transport-id:" ++ junk) (txt "host-transport-id:") = Some junk) as -> by apply ConsumePrefix_app.
    destruct (ParseUint_sv _ junk) as [[v rest]|]; [|done]. unfold ConsumePrefix. by rewrite Hj. }
  rewrite (run_complete gListenAll g_reject_kill_server local_connect smart w p s data ReqIgnored Hs Hc Hr). fold d.
  unfold received, enqueued. rewrite Hs. split_and!; [done|done|wcbn; rewrite lookup_insert_eq; by eexists|].
  intros q ?. wcbn. by rewrite lookup_insert_ne.
Qed.

(** The client is not told why a forward could not be set up: whatever the reason is that
    no device was found, the answer is FAIL with an empty text, because the lookup stores its
    message in a variable that hides the one that is sent. *)
Theorem forward_error_lost ty serial transport_id reply_fd p s service e w :
  StartsWith service (txt "forward:") || StartsWith service (txt "killforward:") = true →
  socks w !! p = Some s → transport s = None → acquire ty serial transport_id false w = Ok (None, e, w) →
  service ≠ txt "killforward-all" → service ≠ txt "list-forward" →
  os_write_exactly (clock w) reply_fd (txt "FAIL") = true →
  ∃ w', handle_forward_request gListenAll service (transport_acquirer ty serial transport_id p) reply_fd w = Ok (true, w') ∧
    trace w' = trace w ++ [EvReply reply_fd (txt "FAIL"); EvReply reply_fd (txt "0000")].
Proof.
  intros Hst Hs Ht Hacq Hk Hl Hok. unfold handle_forward_request. rewrite !bool_decide_eq_false_2 by done. rewrite Hst.
  unfold transport_acquirer, own_or_acquire. unfold mbind, M_bind, sget. rewrite Hs, Ht, Hacq.
  unfold SendFail, WriteFdExactly, emit, mret, M_ret, mbind, M_bind. rewrite Hok.
  eexists. split; [reflexivity|]. cbn. by rewrite <- app_assoc.
Qed.
End claims.

(** ** Waiting for a device *)

Section waiting.
Context `{Host}.
Context (snap : nat → list (ptr * atransport)) (hung_up : nat → bool) (serial : bytes) (transport_id : Z).

(** Neither decided nor given up at turn [k]. *)
Definition undecided (ty : TransportType) (states : list ConnectionState) (k : nat) : Prop :=
  hung_up k = false ∧ ∃ e, wait_turn ty serial transport_id states (snap k) = Ok (inr e).

Lemma wait_loop_skip ty states n : ∀ m fuel,
  (∀ k, (m ≤ k < m + n)%nat → undecided ty states k) →
  wait_loop (n + fuel) snap hung_up m ty serial transport_id states =
    wait_loop fuel snap hung_up (m + n) ty serial transport_id states.
Proof.
  induction n as [|n IH]; intros m fuel Hu; [by rewrite Nat.add_0_r|]. cbn [Nat.add wait_loop].
  destruct (Hu m) as [Hh [e He]]; [lia|]. rewrite He. rok. rewrite Hh.
  rewrite IH by (intros k Hk; apply Hu; lia). by rewrite Nat.add_succ_comm.
Qed.

(** What a turn reports, in terms of the transports that fit the request: several of them
    end the waiting, none of them or one that is not usable is a disconnect, and one that is
    usable is compared by its state. *)
Lemma wait_turn_spec ty m states l :
  transport_id = 0 → (∀ p, p ∈ l → acquire_matches ty (match serial with [] => None | _ => Some serial end) p.2 = Ok (m p.2)) →
  NoDup l.*1 →
  ∃ e, wait_turn ty serial transport_id states l = Ok
    match candidates m l with
    | [] => if bool_decide (kCsOffline ∈ states) then inl WaitOkay else inr e
    | [(a, t)] =>
        match acquire_state_error (connection_state_ t) with
        | Some e => if bool_decide (kCsOffline ∈ states) then inl WaitOkay else inr e
        | None => if existsb (wait_reached (Some t)) states then inl WaitOkay else inr e
        end
    | _ => inl (WaitFail e)
    end.
Proof.
  intros -> Hm Hnd. unfold wait_turn.
  set (ser := match serial with [] => None | _ => Some serial end) in *.
  destruct (acquire_one_transport_spec ty ser m l false Hm) as [[e He] _]. rewrite He. rok.
  assert (∀ states, existsb (wait_reached None) states = bool_decide (kCsOffline ∈ states)) as Hnone.
  { intros sts. induction sts as [|x sts IH]; [done|]. cbn [existsb]. rewrite IH. unfold wait_reached at 1.
    destruct (decide (x = kCsOffline)) as [->|Hx].
    - rewrite bool_decide_eq_true_2 by done. cbn. symmetry. apply bool_decide_eq_true_2. by left.
    - rewrite bool_decide_eq_false_2 by done. cbn. apply bool_decide_ext. set_solver. }
  destruct (candidates m l) as [|[a t] [|x r]] eqn:Ec.
  - exists e. cbn. by rewrite Hnone.
  - assert (head (filter (λ p, p.1 = a) l) = Some (a, t)) as Eh.
    { assert ((a, t) ∈ l) as Hin.
      { assert ((a, t) ∈ candidates m l) as Hin by (rewrite Ec; by left). unfold candidates in Hin.
        by apply list_elem_of_filter in Hin as [_ ?]. }
      clear -Hin Hnd. induction l as [|[a' t'] l IH]; [by apply elem_of_nil in Hin|]. cbn in Hnd. apply NoDup_cons in Hnd as [Hn Hnd].
      apply elem_of_cons in Hin as [[= -> ->]|Hin]; [by rewrite filter_cons_True|].
      rewrite filter_cons_False; [by apply IH|]. cbn. intros ->. apply Hn. by apply (list_elem_of_fmap_2 fst l (a, t)). }
    destruct (acquire_state_error _) as [e'|].
    + exists e'. cbn. by rewrite Hnone.
    + exists (txt "success"). cbn. by rewrite Eh.
  - eexists. reflexivity.
Qed.

Lemma wait_service_first spec ty states n reply fuel :
  parse_wait_spec spec = Ok (inr (ty, states)) → (∀ k, (k < n)%nat → undecided ty states k) →
  wait_turn ty serial transport_id states (snap n) = Ok (inl reply) →
  wait_service (S (n + fuel)) snap hung_up serial transport_id spec = Ok reply.
Proof.
  intros Hp Hu Hn. replace (S (n + fuel)) with (n + S fuel)%nat by lia. unfold wait_service. rewrite Hp. rok.
  rewrite wait_loop_skip by (intros k Hk; apply Hu; lia). cbn [wait_loop Nat.add]. rewrite Hn. by rok.
Qed.

(** A client that waits for a device is answered at the first turn that decides, whatever
    the device list did before, and as long as no turn decides and the client stays, it waits. *)
Theorem wait_service_answers spec ty states :
  parse_wait_spec spec = Ok (inr (ty, states)) →
  (∀ n reply fuel, (∀ k, (k < n)%nat → undecided ty states k) →
    wait_turn ty serial transport_id states (snap n) = Ok (inl reply) →
    wait_service (S (n + fuel)) snap hung_up serial transport_id spec = Ok reply) ∧
  ((∀ k, undecided ty states k) → ∀ fuel, wait_service fuel snap hung_up serial transport_id spec = NoFuel).
Proof.
  intros Hp. split.
  - intros n reply fuel. by apply wait_service_first.
  - intros Hu fuel. unfold wait_service. rewrite Hp. rok.
    rewrite <- (Nat.add_0_r fuel), wait_loop_skip by (intros k _; apply Hu). done.
Qed.
End waiting.

(** A client that waits for the only USB device to disconnect is told that it has as soon
    as the device is not usable: it may be offline or unauthorized and still plugged in. *)
Theorem disconnect_reported_while_attached `{Host} snap hung_up a t e fuel :
  candidates (λ tr, bool_decide (type tr = kTransportUsb)) (snap 0%nat) = [(a, t)] → NoDup (snap 0%nat).*1 →
  acquire_state_error (connection_state_ t) = Some e →
  wait_service (S fuel) snap hung_up [] 0 (txt "usb-disconnect") = Ok WaitOkay.
Proof.
  intros Hc Hnd He. destruct (wait_turn_spec [] 0 kTransportUsb (λ tr, bool_decide (type tr = kTransportUsb)) [kCsOffline] (snap 0%nat) eq_refl (λ _ _, eq_refl) Hnd) as [e' Ht].
  rewrite Hc, He in Ht. apply (wait_service_first snap hung_up [] 0 (txt "usb-disconnect") kTransportUsb [kCsOffline] 0 WaitOkay fuel eq_refl);
    [lia|exact Ht].
Qed.

(** ** Witnesses *)

(** A client that has just connected: its socket 2 and the smart socket 3, which holds [d]
    and may have selected the transport. *)
Definition client_socket : asocket :=
  set_fde (Some 1) (set_peer (Some 3%positive) (set_id 1 (set_fd 10
    (new_socket local_socket_enqueue_fn local_socket_ready_fn None local_socket_close_fn)))).
Definition client_smart (t : option ptr) (d : bytes) : asocket :=
  set_transport t (set_smart_data d (set_peer (Some 2%positive)
    (new_socket smart_socket_enqueue_fn smart_socket_ready_fn None smart_socket_close_fn))).
Definition one_client (t : option ptr) (d : bytes) : world :=
  set_lists [2%positive] [] (set_next_id 2 (set_next_ptr 4
    (set_socks {[2%positive := client_socket; 3%positive := client_smart t d]} one_transport))).

Lemma one_client_socks t d p s : socks (one_client t d) !! p = Some s →
  (p = 2%positive ∧ s = client_socket) ∨ (p = 3%positive ∧ s = client_smart t d).
Proof. cbn. rewrite lookup_insert_Some, lookup_singleton_Some. naive_solver. Qed.

Lemma one_client_wf t d : (t = None ∨ t = Some 1%positive) → wf (one_client t d).
Proof.
  intros Ht. assert (is_local client_socket) as Hl by by left.
  assert (¬ is_local (client_smart t d)) as Hr by by intros [].
  split.
  - intros p s [[-> ->]|[-> ->]]%one_client_socks; [|done]. split; [done|]. split_and!; try done; [by left|].
    by exists 1.
  - intros p s u [[-> ->]|[-> ->]]%one_client_socks _ Hu; [done|]. destruct Ht as [-> | ->]; [done|].
    injection Hu as <-. by eexists.
  - intros u tr. cbn. rewrite lookup_singleton_Some. intros [_ <-]. split; [by eexists|done].
  - intros p s r _ [[-> ->]|[-> ->]]%one_client_socks [= <-]; (split; [done|]); by eexists.
  - intros p s _ [[-> ->]|[-> ->]]%one_client_socks Hn; [done|]. by exists 2%positive, client_socket.
  - by intros p s [[-> ->]|[-> ->]]%one_client_socks.
  - intros p. cbn [local_socket_list one_client set_lists]. rewrite list_elem_of_singleton. split.
    + intros ->. by exists client_socket.
    + by intros (s & [[-> ->]|[-> ->]]%one_client_socks & ? & ?).
  - intros p. split; [by intros ?%elem_of_nil|]. by intros (s & [[-> ->]|[-> ->]]%one_client_socks & ? & ?).
  - intros p. split; [by intros ?%elem_of_nil|]. by intros (s & [[-> ->]|[-> ->]]%one_client_socks & ?).
  - apply NoDup_singleton.
  - by intros p s [[-> ->]|[-> ->]]%one_client_socks.
  - by intros p r s s' [[-> ->]|[-> ->]]%one_client_socks [[-> ->]|[-> ->]]%one_client_socks.
  - done.
  - by intros p s [[-> ->]|[-> ->]]%one_client_socks.
Qed.

Lemma one_client_hub t d : (t = None ∨ t = Some 1%positive) → hub_ok (one_client t d).
Proof.
  intros Ht. split; [by apply one_client_wf| | |].
  - eapply (listeners_ok_core one_transport); [apply listeners_ok_one|done|done|]. intros u. reflexivity.
  - intros u Hu. cbn in Hu. apply list_elem_of_singleton in Hu as ->. by eexists.
  - intros u tr. cbn. rewrite lookup_singleton_Some. intros [_ <-]. by split_and!; intros ?%elem_of_nil.
Qed.

(** The emulators of this host. *)
Definition local_emulators : Z → M bool := @Emulator.local_connect quiet_os None.

Definition block_of (s : bytes) : Block := mkBlock (Some s) (llen s) (llen s).

Lemma one_client_room t d : queue_room (one_client t d).
Proof. by intros p s [[-> ->]|[-> ->]]%one_client_socks. Qed.

Lemma one_client_listings t d : @listings_fit plain_host no_proto (one_client t d).
Proof. intros o ts E. vm_compute in E. injection E as <-. by destruct o; vm_compute. Qed.

(** The answer to [host:version]. *)
Lemma smart_socket_safe_witness :
  ∃ w', @smart_socket quiet_os zero_heap plain_host no_proto false false local_emulators 2 3 (block_of (txt "000chost:version"))
    (one_client None []) = Ok (-1, w') ∧ hub_ok w' ∧
    trace w' = [EvReply 10 (txt "OKAY"); EvReply 10 (txt "00040029"); EvDeferredClose 10].
Proof.
  pose proof (@smart_socket_safe quiet_os quiet_os_laws zero_heap plain_host no_proto false false None 1
    (one_client None []) 3 (client_smart None []) 2 (block_of (txt "000chost:version"))
    (one_client_hub None [] (or_introl eq_refl)) (one_client_room None []) (one_client_listings None [])
    (conj eq_refl (conj eq_refl eq_refl)) ltac:(vm_compute; reflexivity)) as E. fold local_emulators in E.
  destruct (@smart_socket quiet_os zero_heap plain_host no_proto false false local_emulators 2 3
    (block_of (txt "000chost:version")) (one_client None [])) as [[r w']| | | |] eqn:R;
    [|vm_compute in R; discriminate R..].
  exists w'. vm_compute in R. injection R as <- <-. split; [reflexivity|]. split; [|vm_compute; reflexivity].
  specialize (E ltac:(intros rest Er; vm_compute in Er; discriminate Er)).
  specialize (E ltac:(intros ser tid ty Er; vm_compute in Er; discriminate Er)).
  specialize (E ltac:(intros service ser tid ty Er (port & v & Ep & _); vm_compute in Er; injection Er as <- <- <- <-;
    vm_compute in Ep; discriminate Ep)).
  unfold wp in E. vm_compute smart_socket in E. exact (proj1 E).
Defined.

Lemma request_in_pieces_witness :
  @enqueue_each quiet_os zero_heap plain_host no_proto false false local_emulators (λ _ _, lift NoFuel) 3
    [block_of (txt "00"); block_of (txt "0chost:ver"); block_of (txt "sion")] (one_client None []) =
  @smart_socket_enqueue quiet_os zero_heap plain_host no_proto false false local_emulators (λ _ _, lift NoFuel) 3
    (block_of (txt "000chost:version")) (one_client None []).
Proof.
  apply (@request_in_pieces quiet_os zero_heap plain_host no_proto false false local_emulators (λ _ _, lift NoFuel)
    (one_client None []) 3 (client_smart None [])
    [block_of (txt "00"); block_of (txt "0chost:ver"); block_of (txt "sion")] (block_of (txt "000chost:version"))).
  - reflexivity.
  - discriminate.
  - vm_compute. reflexivity.
  - intros [|[|[|k]]] Hk; cbn in Hk; [lia|vm_compute; reflexivity..|lia].
Defined.

(** A device of the first protocol version takes packets of 4 KiB. *)
Definition small_device : world :=
  set_transports {[1%positive := set_version A_VERSION_MIN MAX_PAYLOAD_V1 (online_transport 1 (txt "dev"))]}
    (one_client (Some 1%positive) []).
Definition long_request : bytes := txt "1000" ++ txt "shell:" ++ replicate 4090 x61.

Lemma small_device_wf : wf small_device.
Proof.
  apply (wfx_transports ∅ (one_client (Some 1%positive) [])); [apply one_client_wf; by right|..].
  - intros p s t [[-> ->]|[-> ->]]%one_client_socks _ Ht; [done|]. injection Ht as <-. by eexists.
  - intros t tr Ht. apply lookup_singleton_Some in Ht as [_ <-]. split; [by eexists|done].
Qed.

Lemma oversized_request_aborts_witness :
  @smart_socket_enqueue quiet_os zero_heap plain_host no_proto false false local_emulators (λ _ _, lift NoFuel) 3
    (block_of long_request) small_device = Fatal.
Proof.
  apply (@oversized_request_aborts quiet_os quiet_os_laws zero_heap plain_host no_proto false false local_emulators (λ _ _, lift NoFuel)
    small_device 3 (client_smart (Some 1%positive) []) 2 1
    (set_version A_VERSION_MIN MAX_PAYLOAD_V1 (online_transport 1 (txt "dev"))) (block_of long_request));
    first [exact small_device_wf | by repeat split | vm_compute; reflexivity].
Defined.

Lemma bad_transport_id_never_answered_witness :
  ∃ w', @smart_socket_enqueue quiet_os zero_heap plain_host no_proto false false local_emulators (λ _ _, lift NoFuel) 3
    (block_of (txt "0016host-transport-id:x:ab")) (one_client None []) = Ok (-1, w') ∧
    trace w' = [] ∧ is_Some (socks w' !! 3%positive) ∧ socks w' !! 2%positive = Some client_socket.
Proof.
  destruct (@bad_transport_id_never_answered quiet_os zero_heap plain_host no_proto false false local_emulators (λ _ _, lift NoFuel)
    (one_client None []) 3 (client_smart None []) (block_of (txt "0016host-transport-id:x:ab")) (txt "x:ab"))
    as (w' & E & Et & Hp & Hq); [reflexivity|vm_compute; reflexivity|vm_compute; reflexivity|exact I|].
  exists w'. split; [exact E|]. split; [exact Et|]. split; [exact Hp|]. apply (Hq 2%positive). discriminate.
Defined.

(** No device is connected. *)
Definition deviceless : world := set_transport_lists [] [] (one_client None []).

Lemma forward_error_lost_witness :
  @acquire plain_host kTransportAny None 0 false deviceless = Ok (None, txt "no devices/emulators found", deviceless) ∧
  ∃ w', @handle_forward_request quiet_os false (txt "forward:tcp:1;tcp:2")
      (@transport_acquirer plain_host kTransportAny None 0 3) 10 deviceless = Ok (true, w') ∧
    trace w' = [EvReply 10 (txt "FAIL"); EvReply 10 (txt "0000")].
Proof.
  split; [vm_compute; reflexivity|].
  destruct (@forward_error_lost quiet_os plain_host false kTransportAny None 0 10 3 (client_smart None [])
    (txt "forward:tcp:1;tcp:2") (txt "no devices/emulators found") deviceless) as (w' & E & Et);
    [vm_compute; reflexivity|reflexivity|reflexivity|vm_compute; reflexivity|discriminate|discriminate|reflexivity|].
  exists w'. split; [exact E|exact Et].
Defined.

(** The device shows up at the third turn. *)
Definition late_device (n : nat) : list (ptr * atransport) :=
  match n with 0%nat | 1%nat => [] | _ => [(1%positive, online_transport 1 (txt "dev"))] end.

Lemma wait_service_answers_witness :
  @wait_service plain_host 3 late_device (λ _, false) [] 0 (txt "any-device") = Ok WaitOkay.
Proof.
  apply (proj1 (@wait_service_answers plain_host late_device (λ _, false) [] 0 (txt "any-device") kTransportAny [kCsDevice]
    eq_refl) 2%nat WaitOkay 0%nat).
  - intros [|[|k]] Hk; [split; [reflexivity|eexists; vm_compute; reflexivity]..|lia].
  - vm_compute. reflexivity.
Defined.
