(* ===== verification/Libadb.v ===== *)
(** * libadb: values and texts of the public API

    Models include/libadb/libadb.h (the enumerations, [Result], [Event]), the text
    tables of adb/lib/src/api/status.cpp and events.cpp, device_address.cpp, and the
    text helpers of device.cpp ([quote_arg], [parse_failure_code],
    [status_from_install_code], [resolve_install_kind], [package_name_from_output],
    [abort_message]) and of client.cpp ([normalize_address]).

    Each C++ [enum class] is an inductive type in a module of the enumeration's name, so
    that [Status.Canceled] reads like [Status::Canceled]; its numeric value is the
    position of the constructor.  Times are numbers of milliseconds.  The [double] of
    [TransferStats::mib_per_sec] is kept as the exact quotient it approximates. *)

From Stdlib Require Import QArith.Qreduction.
From S2P Require Import Prelude Strings.

#[local] Open Scope Z_scope.

(** ** Enumerations *)

Module Status.
Inductive status :=
  | Ok | InvalidArgument | NotInitialized | NotImplemented | Unsupported | Internal
  | ConnectFailed | ConnectTimeout | AuthRequired | Unauthorized | Offline | DeviceLost
  | ConnectionClosed
  | SlotBusy | SlotTimeout | DeviceBusy
  | CommandTimeout | StallTimeout | Canceled | IoError | LocalFileError | RemoteError
  | SignatureMismatch | VersionDowngrade | InsufficientStorage | InvalidApk | MissingSplit.
End Status.

Module Command.
Inductive command := Connect | Shell | Push | Pull | Install | Uninstall | ShellSession.
End Command.

Module Phase.
Inductive phase :=
  | None | Connecting | Prepare | CreateSession | Transfer | Commit | Finalize | Abandon.
End Phase.

Module EventType.
Inductive event_type :=
  | DeviceConnecting | DeviceConnected | DeviceAuthRequired | DeviceUnauthorized
  | DeviceDisconnected | DeviceLost
  | SlotWaiting | SlotAcquired | SlotTimeout
  | OperationStarted | OperationPhaseChanged | OperationProgress | OperationHeartbeat
  | OperationRetry | OperationOutput | OperationFinished | OperationTimeout
  | OperationCanceled | OperationFailed | OperationStats
  | ClientShutdown | InternalError.
End EventType.

Module InstallKind.
Inductive install_kind := Auto | Single | SplitSet | Bundle | MultiPackage.
End InstallKind.

Module ConflictPolicy.
Inductive conflict_policy := Fail | Reinstall | ReinstallKeepData.
End ConflictPolicy.

Module PackageNameSource.
Inductive package_name_source := Explicit | Auto | Both.
End PackageNameSource.

Module HealthCheckMode.
Inductive health_check_mode := None | Transport | Shell.
End HealthCheckMode.

#[global] Instance status_eq_dec : EqDecision Status.status.
Proof. solve_decision. Defined.
#[global] Instance command_eq_dec : EqDecision Command.command.
Proof. solve_decision. Defined.
#[global] Instance phase_eq_dec : EqDecision Phase.phase.
Proof. solve_decision. Defined.
#[global] Instance event_type_eq_dec : EqDecision EventType.event_type.
Proof. solve_decision. Defined.
#[global] Instance install_kind_eq_dec : EqDecision InstallKind.install_kind.
Proof. solve_decision. Defined.
#[global] Instance conflict_policy_eq_dec : EqDecision ConflictPolicy.conflict_policy.
Proof. solve_decision. Defined.
#[global] Instance package_name_source_eq_dec : EqDecision PackageNameSource.package_name_source.
Proof. solve_decision. Defined.
#[global] Instance health_check_mode_eq_dec : EqDecision HealthCheckMode.health_check_mode.
Proof. solve_decision. Defined.

Definition status_to_string (s : Status.status) : bytes :=
  match s with
  | Status.Ok => txt "Ok"
  | Status.InvalidArgument => txt "InvalidArgument"
  | Status.NotInitialized => txt "NotInitialized"
  | Status.NotImplemented => txt "NotImplemented"
  | Status.Unsupported => txt "Unsupported"
  | Status.Internal => txt "Internal"
  | Status.ConnectFailed => txt "ConnectFailed"
  | Status.ConnectTimeout => txt "ConnectTimeout"
  | Status.AuthRequired => txt "AuthRequired"
  | Status.Unauthorized => txt "Unauthorized"
  | Status.Offline => txt "Offline"
  | Status.DeviceLost => txt "DeviceLost"
  | Status.ConnectionClosed => txt "ConnectionClosed"
  | Status.SlotBusy => txt "SlotBusy"
  | Status.SlotTimeout => txt "SlotTimeout"
  | Status.DeviceBusy => txt "DeviceBusy"
  | Status.CommandTimeout => txt "CommandTimeout"
  | Status.StallTimeout => txt "StallTimeout"
  | Status.Canceled => txt "Canceled"
  | Status.IoError => txt "IoError"
  | Status.LocalFileError => txt "LocalFileError"
  | Status.RemoteError => txt "RemoteError"
  | Status.SignatureMismatch => txt "SignatureMismatch"
  | Status.VersionDowngrade => txt "VersionDowngrade"
  | Status.InsufficientStorage => txt "InsufficientStorage"
  | Status.InvalidApk => txt "InvalidApk"
  | Status.MissingSplit => txt "MissingSplit"
  end.

Definition command_to_string (c : Command.command) : bytes :=
  match c with
  | Command.Connect => txt "connect"
  | Command.Shell => txt "shell"
  | Command.Push => txt "push"
  | Command.Pull => txt "pull"
  | Command.Install => txt "install"
  | Command.Uninstall => txt "uninstall"
  | Command.ShellSession => txt "shell-session"
  end.

Definition install_kind_to_string (k : InstallKind.install_kind) : bytes :=
  match k with
  | InstallKind.Auto => txt "auto"
  | InstallKind.Single => txt "single"
  | InstallKind.SplitSet => txt "split-set"
  | InstallKind.Bundle => txt "bundle"
  | InstallKind.MultiPackage => txt "multi-package"
  end.

Definition phase_to_string (p : Phase.phase) : bytes :=
  match p with
  | Phase.None => txt "none"
  | Phase.Connecting => txt "connecting"
  | Phase.Prepare => txt "prepare"
  | Phase.CreateSession => txt "create-session"
  | Phase.Transfer => txt "transfer"
  | Phase.Commit => txt "commit"
  | Phase.Finalize => txt "finalize"
  | Phase.Abandon => txt "abandon"
  end.

Definition event_type_to_string (t : EventType.event_type) : bytes :=
  match t with
  | EventType.DeviceConnecting => txt "device-connecting"
  | EventType.DeviceConnected => txt "device-connected"
  | EventType.DeviceAuthRequired => txt "device-auth-required"
  | EventType.DeviceUnauthorized => txt "device-unauthorized"
  | EventType.DeviceDisconnected => txt "device-disconnected"
  | EventType.DeviceLost => txt "device-lost"
  | EventType.SlotWaiting => txt "slot-waiting"
  | EventType.SlotAcquired => txt "slot-acquired"
  | EventType.SlotTimeout => txt "slot-timeout"
  | EventType.OperationStarted => txt "operation-started"
  | EventType.OperationPhaseChanged => txt "operation-phase-changed"
  | EventType.OperationProgress => txt "operation-progress"
  | EventType.OperationHeartbeat => txt "operation-heartbeat"
  | EventType.OperationRetry => txt "operation-retry"
  | EventType.OperationOutput => txt "operation-output"
  | EventType.OperationFinished => txt "operation-finished"
  | EventType.OperationTimeout => txt "operation-timeout"
  | EventType.OperationCanceled => txt "operation-canceled"
  | EventType.OperationFailed => txt "operation-failed"
  | EventType.OperationStats => txt "operation-stats"
  | EventType.ClientShutdown => txt "client-shutdown"
  | EventType.InternalError => txt "internal-error"
  end.

(** [static_cast<unsigned>(type)]: the position in the enumeration. *)
Definition event_index (t : EventType.event_type) : Z :=
  match t with
  | EventType.DeviceConnecting => 0 | EventType.DeviceConnected => 1
  | EventType.DeviceAuthRequired => 2 | EventType.DeviceUnauthorized => 3
  | EventType.DeviceDisconnected => 4 | EventType.DeviceLost => 5
  | EventType.SlotWaiting => 6 | EventType.SlotAcquired => 7 | EventType.SlotTimeout => 8
  | EventType.OperationStarted => 9 | EventType.OperationPhaseChanged => 10
  | EventType.OperationProgress => 11 | EventType.OperationHeartbeat => 12
  | EventType.OperationRetry => 13 | EventType.OperationOutput => 14
  | EventType.OperationFinished => 15 | EventType.OperationTimeout => 16
  | EventType.OperationCanceled => 17 | EventType.OperationFailed => 18
  | EventType.OperationStats => 19 | EventType.ClientShutdown => 20
  | EventType.InternalError => 21
  end.
Definition event_bit (t : EventType.event_type) : Z := u64 (Z.shiftl 1 (event_index t)).

(** ** Results and events *)

Record TransferStats := mkStats {
  st_bytes : Z; st_bytes_on_wire : Z; st_duration : Z; mib_per_sec : Q
}.
Definition no_stats : TransferStats := mkStats 0 0 0 (inject_Z 0).

Record Result := mkResult {
  r_status : Status.status; exit_code : Z; r_error : bytes; remote_code : bytes;
  output : bytes; r_phase : Phase.phase; retries : Z; r_duration : Z; transfer : TransferStats
}.
Definition no_result : Result := mkResult Status.Ok 0 [] [] [] Phase.None 0 0 no_stats.
Definition ok (r : Result) : bool := bool_decide (r_status r = Status.Ok).

Record Event := mkEvent {
  ev_type : EventType.event_type; timestamp : Z; ev_serial : bytes; ev_op : Z;
  ev_command : Command.command; ev_phase : Phase.phase; ev_status : Status.status;
  ev_remote_code : bytes; bytes_done : Z; bytes_total : Z; ev_elapsed : Z; message : bytes;
  stats : TransferStats
}.
Definition blank_event : Event :=
  mkEvent EventType.InternalError 0 [] 0 Command.Connect Phase.None Status.Ok [] 0 0 0 [] no_stats.

(** [fill_transfer_stats]: the rate is computed only for a positive amount and time. *)
Definition fill_transfer_stats (result : Result) (bytes0 bytes_on_wire0 duration : Z) : Result :=
  let rate := if (0 <? bytes0) && (0 <? duration)
              then Qdiv (Qmake bytes0 (1024 * 1024)) (Qmake duration 1000)
              else mib_per_sec (transfer result) in
  mkResult (r_status result) (exit_code result) (r_error result) (remote_code result)
    (output result) (r_phase result) (retries result) (r_duration result)
    (mkStats bytes0 bytes_on_wire0 duration rate).

(** ** Device addresses *)

Record DeviceAddress := mkAddress { a_host : bytes; a_port : Z }.

Fixpoint drop_while (p : byte → bool) (s : bytes) : bytes :=
  match s with
  | [] => []
  | b :: s' => if p b then drop_while p s' else s
  end.
Definition blank (b : byte) : bool := bool_decide (b = x20) || bool_decide (b = x09).
Definition blank_end (b : byte) : bool :=
  blank b || bool_decide (b = x0d) || bool_decide (b = x0a).
Definition trim_blanks (text : bytes) : bytes :=
  reverse (drop_while blank_end (reverse (drop_while blank text))).

(** [std::from_chars] for a [uint32_t]: digits only, no sign; no value when there is no
    digit or the number does not fit. *)
Definition from_chars (s : bytes) : option (Z * bytes) :=
  match s with
  | b :: _ =>
      if isdigit b then
        let '(v, rest) := scan_digits 10 0 s in if v <? 2 ^ 32 then Some (v, rest) else None
      else None
  | [] => None
  end.

(** The port: all of the text, from 1 to 65535. *)
Definition parse_port (s : bytes) : option Z :=
  match from_chars s with
  | Some (value, []) => if (value =? 0) || (65535 <? value) then None else Some value
  | _ => None
  end.

Definition DeviceAddress_parse (text0 : bytes) : option DeviceAddress :=
  let text := trim_blanks text0 in
  match text with
  | [] => None
  | x5b :: _ =>
      match find text [x5d] 0 with
      | None => None
      | Some close =>
          if (close =? 1)%nat then None else
          let host_part := substr_to text 1 (Some close) in
          match drop (S close) text with
          | [] => Some (mkAddress host_part 0)
          | x3a :: rest => mkAddress host_part <$> parse_port rest
          | _ => None
          end
      end
  | _ =>
      match rfind text [x3a] with
      | None => Some (mkAddress text 0)
      | Some colon =>
          let host_part := take colon text in
          let port_part := drop (S colon) text in
          if bool_decide (host_part = []) || bool_decide (port_part = []) then None
          else mkAddress host_part <$> parse_port port_part
      end
  end.

Definition effective_port (a : DeviceAddress) (default_port : Z) : Z :=
  if a_port a =? 0 then default_port else a_port a.
Definition needs_brackets (host : bytes) : bool :=
  bool_decide (is_Some (find host [x3a] 0)) && negb (bool_decide (head host = Some x5b)).
Definition DeviceAddress_to_string (a : DeviceAddress) (default_port : Z) : bytes :=
  let b := needs_brackets (a_host a) in
  (if b then [x5b] else []) ++ a_host a ++ (if b then [x5d] else []) ++
  [x3a] ++ dec (effective_port a default_port).

Definition normalize_address (text : bytes) (default_port : Z) : bytes :=
  match DeviceAddress_parse text with
  | None => []
  | Some a => DeviceAddress_to_string a default_port
  end.

(** ** Texts of the package manager *)

Definition quote_arg (value : bytes) : bytes :=
  [x27] ++ concat ((λ c, if bool_decide (c = x27) then [x27; x5c; x27; x27] else [c]) <$> value) ++ [x27].

Definition parse_failure_code (out : bytes) : bytes :=
  match find out (txt "Failure") 0 with
  | None => []
  | Some failure_pos =>
      match find out (txt "[") failure_pos with
      | None => txt "FAILURE"
      | Some open =>
          let code_start := S open in
          match find_first_of out (txt ":] " ++ [x0d; x0a]) code_start with
          | None => txt "FAILURE"
          | Some fin =>
              if (fin =? code_start)%nat then txt "FAILURE"
              else substr_to out code_start (Some fin)
          end
      end
  end.

Definition status_from_install_code (code : bytes) : Status.status :=
  if bool_decide (code = []) then Status.RemoteError
  else if starts_with code (txt "INSTALL_PARSE_FAILED_") then Status.InvalidApk
  else if bool_decide (code = txt "INSTALL_FAILED_UPDATE_INCOMPATIBLE") then Status.SignatureMismatch
  else if bool_decide (code = txt "INSTALL_FAILED_VERSION_DOWNGRADE") then Status.VersionDowngrade
  else if bool_decide (code = txt "INSTALL_FAILED_INSUFFICIENT_STORAGE") then Status.InsufficientStorage
  else if bool_decide (code = txt "INSTALL_FAILED_INVALID_APK") then Status.InvalidApk
  else if bool_decide (code = txt "INSTALL_FAILED_MISSING_SPLIT") then Status.MissingSplit
  else Status.RemoteError.

Definition resolve_install_kind (requested : InstallKind.install_kind) (paths : list bytes)
    : InstallKind.install_kind :=
  match requested, paths with
  | InstallKind.Auto, [p] =>
      if EndsWithIgnoreCase p (txt ".apks") || EndsWithIgnoreCase p (txt ".zip")
      then InstallKind.Bundle else InstallKind.Single
  | InstallKind.Auto, _ => InstallKind.SplitSet
  | k, _ => k
  end.

(** The loop over the occurrences of one marker, and over the two markers. *)
Definition package_like (candidate : bytes) : bool :=
  bool_decide (x2e ∈ candidate) && bool_decide (x2f ∉ candidate) && (2 <? length candidate)%nat.
Definition package_seps : bytes := [x20; x09; x0d; x0a; x3a; x3b; x2c; x5d].
Fixpoint package_after (fuel : nat) (out marker : bytes) (pos : option nat) : option bytes :=
  match fuel, pos with
  | S fuel, Some p =>
      let start := (p + length marker)%nat in
      let candidate := substr_to out start (find_first_of out package_seps start) in
      if package_like candidate then Some candidate
      else package_after fuel out marker (find out marker start)
  | _, _ => None
  end.
Definition package_name_from_output (out : bytes) : bytes :=
  let scan m := package_after (S (length out)) out m (find out m 0) in
  match scan (txt "Package ") with
  | Some p => p
  | None => default [] (scan (txt "package "))
  end.

Definition abort_message (reason : Status.status) (what : bytes) : bytes :=
  match reason with
  | Status.StallTimeout => what ++ txt " stalled: no progress within the stall timeout"
  | Status.CommandTimeout => what ++ txt " exceeded the total transfer timeout"
  | Status.ConnectionClosed => what ++ txt " aborted: connections were closed"
  | Status.Canceled => what ++ txt " canceled"
  | _ => what ++ txt " aborted"
  end.

Definition device_lost_result (c : Command.command) : Result :=
  mkResult Status.DeviceLost 0 (txt "device is not connected (" ++ command_to_string c ++ txt ")")
    [] [] Phase.None 0 0 no_stats.

(** The shell line [Device::uninstall] runs. *)
Definition uninstall_command (keep_data : bool) (user_id : Z) (package : bytes) : bytes :=
  let args := (if keep_data then txt " -k" else []) ++
              (if 0 <=? user_id then txt " --user " ++ dec user_id else []) in
  let quoted := quote_arg package in
  txt "if command -v cmd >/dev/null 2>&1; then cmd package uninstall" ++ args ++ txt " " ++ quoted ++
  txt "; else pm uninstall" ++ args ++ txt " " ++ quoted ++ txt "; fi 2>&1".

(** ** Addresses survive printing *)

(** A host name or an address literal as [to_string] can print it: not empty, no leading
    blank or bracket, and an address with colons has no closing bracket. *)
Definition host_ok (h : bytes) : Prop :=
  match h with
  | [] => False
  | b :: _ => blank b = false ∧ b ≠ x5b ∧ (x3a ∈ h → x5d ∉ h)
  end.

Lemma trim_blanks_id b s c :
  blank b = false → blank_end c = false → trim_blanks (b :: s ++ [c]) = b :: s ++ [c].
Proof.
  intros Hb Hc. unfold trim_blanks. cbn [drop_while]. rewrite Hb.
  change (b :: s ++ [c]) with ((b :: s) ++ [c]). rewrite reverse_app.
  change (reverse [c] ++ reverse (b :: s)) with (c :: reverse (b :: s)).
  cbn [drop_while]. rewrite Hc. change (c :: reverse (b :: s)) with (reverse [c] ++ reverse (b :: s)).
  by rewrite <- reverse_app, reverse_involutive.
Qed.

Lemma dec_snoc n : 0 ≤ n → ∃ l c, dec n = l ++ [c] ∧ isdigit c = true.
Proof.
  intros Hn. destruct (dec_cons n Hn) as (b & l & E). pose proof (dec_digits n Hn) as Hd.
  destruct (exists_last (l := dec n)) as (l' & c & E'); [by rewrite E|].
  exists l', c. split; [done|]. rewrite E', Forall_app, Forall_singleton in Hd. tauto.
Qed.

Lemma blank_end_digit c : isdigit c = true → blank_end c = false.
Proof. byte_cases c. Qed.

Lemma trim_blanks_port b s n :
  blank b = false → 0 ≤ n → trim_blanks (b :: s ++ dec n) = b :: s ++ dec n.
Proof.
  intros Hb Hn. destruct (dec_snoc n Hn) as (l & c & -> & Hc).
  rewrite app_assoc. apply trim_blanks_id; [done|by apply blank_end_digit].
Qed.

Lemma parse_port_dec n : 0 < n ≤ 65535 → parse_port (dec n) = Some n.
Proof.
  intros Hn. unfold parse_port, from_chars. destruct (dec_cons n) as (b & l & E); [lia|].
  pose proof (dec_digits n ltac:(lia)) as Hd. pose proof (scan_dec n [] ltac:(lia) I) as Hs.
  rewrite app_nil_r in Hs. rewrite E in *. apply Forall_cons in Hd as [-> _]. rewrite Hs.
  rewrite (proj2 (Z.ltb_lt n (2 ^ 32))), (proj2 (Z.eqb_neq n 0)), (proj2 (Z.ltb_ge 65535 n)) by lia.
  done.
Qed.

Lemma find_byte s c t : c ∉ s → find (s ++ c :: t) [c] 0 = Some (length s).
Proof.
  intros Hc. unfold find. eapply find_from_first; try (rewrite ?length_app; simpl; lia).
  - unfold starts_with. rewrite drop_app_length. simpl. by rewrite bool_decide_eq_true_2.
  - intros j Hj Hl. rewrite lookup_app_l in Hl by lia. apply Hc. by eapply list_elem_of_lookup_2.
Qed.

Lemma find_from_none fuel : ∀ s c base,
  c ∉ drop base s → find_from fuel s [c] base = None.
Proof.
  induction fuel as [|fuel IH]; intros s c base Hc; [done|]. cbn [find_from].
  case_bool_decide as Hl; [done|]. destruct (starts_with _ _) eqn:E.
  - apply starts_with_lookup in E. destruct Hc. apply list_elem_of_lookup.
    exists 0%nat. by rewrite lookup_drop, Nat.add_0_r.
  - apply IH. intros Hin. apply Hc. apply list_elem_of_lookup in Hin as [i Hi].
    rewrite lookup_drop in Hi. apply list_elem_of_lookup. exists (S i). rewrite lookup_drop, <- Hi.
    f_equal. lia.
Qed.

Lemma find_byte_iff s c : is_Some (find s [c] 0) ↔ c ∈ s.
Proof.
  split.
  - intros [n Hn]. destruct (decide (c ∈ s)) as [|Hc]; [done|].
    unfold find in Hn. by rewrite find_from_none in Hn.
  - intros (l1 & l2 & -> & Hl)%list_elem_of_split_l. rewrite find_byte by done. eauto.
Qed.

Lemma rfind_byte s c t : c ∉ t → rfind (s ++ c :: t) [c] = Some (length s).
Proof.
  intros Hc. unfold rfind. apply rfind_upto_last; try (rewrite ?length_app; simpl; lia).
  - unfold starts_with. rewrite drop_app_length. simpl. by rewrite bool_decide_eq_true_2.
  - intros j Hj Hl. rewrite lookup_app_r in Hl by lia.
    destruct (j - length s)%nat as [|k] eqn:E; [lia|]. simpl in Hl.
    apply Hc. by eapply list_elem_of_lookup_2.
Qed.

Lemma parse_bracketed h p :
  h ≠ [] → x5d ∉ h → 0 < p ≤ 65535 →
  DeviceAddress_parse ([x5b] ++ h ++ [x5d] ++ [x3a] ++ dec p) = Some (mkAddress h p).
Proof.
  intros Hh Hb Hp. unfold DeviceAddress_parse. cbn [app].
  replace (h ++ x5d :: x3a :: dec p) with ((h ++ [x5d; x3a]) ++ dec p) by (by rewrite <- app_assoc).
  rewrite trim_blanks_port by (done || lia). rewrite <- app_assoc. cbn [app].
  change (x5b :: h ++ x5d :: x3a :: dec p) with ((x5b :: h) ++ x5d :: x3a :: dec p).
  rewrite find_byte by set_solver. cbn [app length].
  replace (S (length h) =? 1)%nat with false by (destruct h; done).
  cbv iota. replace (drop (S (S (length h))) (x5b :: h ++ x5d :: x3a :: dec p)) with (x3a :: dec p).
  2:{ change (drop (S (length h)) (h ++ x5d :: x3a :: dec p) = x3a :: dec p) || cbn [drop].
      rewrite drop_app_ge by lia. by replace (S (length h) - length h)%nat with 1%nat by lia. }
  rewrite parse_port_dec by done. cbn [substr_to]. change (drop 1 (x5b :: ?l)) with l.
  rewrite Nat.sub_1_r. change (pred (S ?n)) with n. by rewrite take_app_length.
Qed.

Lemma parse_unbracketed h p :
  host_ok h → 0 < p ≤ 65535 → DeviceAddress_parse (h ++ [x3a] ++ dec p) = Some (mkAddress h p).
Proof.
  destruct h as [|b h]; [done|]. intros (Hb & H5b & _) Hp. unfold DeviceAddress_parse. cbn [app].
  replace (h ++ x3a :: dec p) with ((h ++ [x3a]) ++ dec p) by (by rewrite <- app_assoc).
  rewrite trim_blanks_port by (done || lia). rewrite <- app_assoc. cbn [app].
  assert (rfind (b :: h ++ x3a :: dec p) [x3a] = Some (S (length h))) as Hr.
  { apply (rfind_byte (b :: h)). apply digits_no; [apply dec_digits; lia|done]. }
  rewrite Hr. change (take (S (length h)) (b :: h ++ x3a :: dec p)) with
    (b :: take (length h) (h ++ x3a :: dec p)). rewrite take_app_length.
  replace (drop (S (S (length h))) (b :: h ++ x3a :: dec p)) with (dec p).
  2:{ cbn [drop]. rewrite drop_app_ge by lia. by replace (S (length h) - length h)%nat with 1%nat by lia. }
  rewrite parse_port_dec by done. destruct (dec_cons p) as (c & l & ->); [lia|].
  destruct b; done.
Qed.

(** A printed device address is read back: [to_string] adds the default port and the
    brackets an address with colons needs, [parse] returns the same host and the effective
    port, and normalizing the printed text changes nothing, whatever the default port is. *)
Theorem DeviceAddress_roundtrip a default_port other_port :
  host_ok (a_host a) → 0 < effective_port a default_port ≤ 65535 →
  let text := DeviceAddress_to_string a default_port in
  DeviceAddress_parse text = Some (mkAddress (a_host a) (effective_port a default_port)) ∧
  normalize_address text other_port = text.
Proof.
  destruct a as [h q]. intros Hh Hp text. cbn [a_host] in *.
  assert (DeviceAddress_parse text = Some (mkAddress h (effective_port (mkAddress h q) default_port))) as E.
  { unfold text, DeviceAddress_to_string. cbn [a_host].
    destruct (needs_brackets h) eqn:En; cbn [app].
    - apply andb_true_iff in En as [En%bool_decide_eq_true%find_byte_iff _].
      apply (parse_bracketed h); [|destruct h; naive_solver|done]. by intros ->.
    - by apply (parse_unbracketed h). }
  split; [done|]. unfold normalize_address. rewrite E. unfold text, DeviceAddress_to_string.
  cbn [a_host]. do 4 f_equal. unfold effective_port in *. cbn [a_port] in *.
  destruct (q =? 0) eqn:Eq; rewrite ?Eq; [|done].
  by rewrite (proj2 (Z.eqb_neq default_port 0)) by lia.
Qed.

Lemma DeviceAddress_roundtrip_witness :
  normalize_address (txt "[fe80::1]:5555") 0 = txt "[fe80::1]:5555".
Proof.
  apply (DeviceAddress_roundtrip (mkAddress (txt "fe80::1") 0) 5555 0); [|vm_compute; split; congruence || done].
  split_and!; [done|done|]. intros _. apply (bool_decide_eq_true_1 (x5d ∉ txt "fe80::1")). vm_compute. done.
Defined.

(** ** Quoting *)

Lemma quote_arg_escape_ref s : quote_arg s = [x27] ++ escape_ref s ++ [x27].
Proof.
  unfold quote_arg. do 2 f_equal. induction s as [|b s IH]; [done|]. cbn [fmap list_fmap concat escape_ref].
  by rewrite IH.
Qed.

(** The client library's own quoting of a shell argument gives the same text as
    adb's [escape_arg], so a POSIX shell on the device reads exactly the argument back. *)
Theorem quote_arg_equals_escape_arg s : quote_arg s = escape_arg s ∧ sh_word false (quote_arg s) = Some s.
Proof.
  rewrite quote_arg_escape_ref. split.
  - unfold escape_arg. by rewrite escape_loop_ref by lia.
  - cbn [app sh_word]. apply sh_word_escape_ref.
Qed.

(** ** Searching the package manager's output *)

Lemma starts_with_length s pat : starts_with s pat = true → (length pat ≤ length s)%nat.
Proof.
  unfold starts_with. rewrite bool_decide_eq_true. intros E. rewrite <- E, length_take. lia.
Qed.

(** What [find] found is the first occurrence at or after [base]. *)
Lemma find_from_spec fuel : ∀ s pat base, (length s - base < fuel)%nat →
  match find_from fuel s pat base with
  | Some k => (base ≤ k)%nat ∧ (k + length pat ≤ length s)%nat ∧ starts_with (drop k s) pat = true ∧
      ∀ j, (base ≤ j < k)%nat → starts_with (drop j s) pat = false
  | None => ∀ j, (base ≤ j)%nat → (j + length pat ≤ length s)%nat → starts_with (drop j s) pat = false
  end.
Proof.
  induction fuel as [|fuel IH]; intros s pat base Hf; [lia|]. cbn [find_from].
  case_bool_decide as Hl; [intros; lia|]. destruct (starts_with (drop base s) pat) eqn:E.
  - split_and!; [lia..|done|intros; lia].
  - destruct (decide (length s - base = 0)%nat) as [H0|H0].
    + assert (length pat = 0)%nat as Hp by lia. destruct pat; [|done].
      unfold starts_with in E. cbn in E. rewrite bool_decide_eq_true_2 in E; done.
    + specialize (IH s pat (S base) ltac:(lia)).
      destruct (find_from fuel s pat (S base)) as [k|].
      * destruct IH as (? & ? & ? & Hj). split_and!; [lia..|done|]. intros j Hlt.
        destruct (decide (j = base)) as [->|]; [done|]. apply Hj. lia.
      * intros j Hb Hlt. destruct (decide (j = base)) as [->|]; [done|]. apply IH; lia.
Qed.

Lemma find_first_of_byte s ds c base : c ∈ ds → ∀ pre post,
  drop base s = pre ++ c :: post → Forall (λ b, b ∉ ds) pre →
  find_first_of s ds base = Some (base + length pre)%nat.
Proof.
  intros Hc pre post Hd Hp. unfold find_first_of. rewrite Hd.
  rewrite list_find_app_r by (by apply list_find_None). cbn [list_find].
  by rewrite decide_True by done.
Qed.

Definition code_seps : bytes := txt ":] " ++ [x0d; x0a].

(** The failure code of the package manager is extracted exactly: from an output with
    "Failure [CODE" followed by a colon, a bracket, a blank or a line end, whatever text
    without a capital F comes before, [parse_failure_code] returns CODE. *)
Theorem parse_failure_code_exact pre code c post :
  x46 ∉ pre → code ≠ [] → Forall (λ b, b ∉ code_seps) code → c ∈ code_seps →
  parse_failure_code (pre ++ txt "Failure [" ++ code ++ c :: post) = code.
Proof.
  intros Hpre Hne Hcode Hc. unfold parse_failure_code.
  set (out := pre ++ txt "Failure [" ++ code ++ c :: post).
  assert (length out = length pre + 9 + length code + S (length post))%nat as Hlen.
  { unfold out. rewrite !length_app. cbn. lia. }
  assert (find out (txt "Failure") 0 = Some (length pre)) as ->.
  { unfold find. change (txt "Failure") with (x46 :: txt "ailure").
    apply find_from_first; try (cbn; lia).
    - unfold out, starts_with. rewrite drop_app_length. done.
    - intros j Hj Hl. unfold out in Hl. rewrite lookup_app_l in Hl by lia.
      apply Hpre. by eapply list_elem_of_lookup_2. }
  assert (drop (length pre) out = txt "Failure [" ++ code ++ c :: post) as Hd
    by (unfold out; by rewrite drop_app_length).
  assert (find out (txt "[") (length pre) = Some (length pre + 8)%nat) as ->.
  { unfold find. change (txt "[") with [x5b]. apply find_from_first; try (cbn; lia).
    - rewrite <- drop_drop, Hd. done.
    - intros j Hj. replace j with (length pre + (j - length pre))%nat by lia.
      rewrite <- lookup_drop, Hd.
      assert (j - length pre < 8)%nat as Hk by lia. revert Hk. generalize (j - length pre)%nat.
      intros k Hk. do 8 (destruct k as [|k]; [cbn; congruence|]). lia. }
  assert (drop (S (length pre + 8)) out = code ++ c :: post) as Hd9.
  { replace (S (length pre + 8)) with (length pre + 9)%nat by lia. by rewrite <- drop_drop, Hd. }
  cbv zeta. rewrite (find_first_of_byte _ _ c _ Hc code post) by done.
  rewrite (proj2 (Nat.eqb_neq _ _)) by (destruct code; [done|cbn; lia]).
  unfold substr_to. rewrite Hd9.
  replace (S (length pre + 8) + length code - S (length pre + 8))%nat with (length code) by lia.
  by rewrite take_app_length.
Qed.

Lemma parse_failure_code_exact_witness :
  parse_failure_code (txt "Performing Streamed Install " ++ txt "Failure [" ++
    txt "INSTALL_FAILED_VERSION_DOWNGRADE" ++ x3a :: txt " Downgrade detected]") =
  txt "INSTALL_FAILED_VERSION_DOWNGRADE".
Proof.
  apply parse_failure_code_exact; [apply (bool_decide_eq_true_1 (_ ∉ _))|done|
    apply (bool_decide_eq_true_1 (Forall _ _))|apply (bool_decide_eq_true_1 (_ ∈ _))]; vm_compute; done.
Defined.

(** The candidate that follows an occurrence of a marker. *)
Definition candidate_at (out marker : bytes) (j : nat) : bytes :=
  let start := (j + length marker)%nat in
  substr_to out start (find_first_of out package_seps start).
Definition named_at (out marker : bytes) (j : nat) : Prop :=
  starts_with (drop j out) marker = true ∧ package_like (candidate_at out marker j) = true.

(** A marker whose first byte does not occur in it again: its occurrences do not overlap. *)
Definition no_overlap (marker : bytes) : Prop :=
  ∃ c m, marker = c :: m ∧ c ∉ m.

Lemma marker_apart out marker j k :
  no_overlap marker → starts_with (drop k out) marker = true →
  starts_with (drop j out) marker = true → (k < j)%nat → (k + length marker ≤ j)%nat.
Proof.
  intros (c & m & -> & Hc) Hk Hj Hlt. destruct (decide (k + length (c :: m) ≤ j)%nat) as [|Hn]; [done|].
  destruct Hc. apply starts_with_lookup in Hj. unfold starts_with in Hk.
  apply bool_decide_eq_true in Hk. apply list_elem_of_lookup.
  exists (j - k - 1)%nat.
  change (m !! (j - k - 1)%nat) with ((c :: m) !! S (j - k - 1)). rewrite <- Hk.
  rewrite lookup_take, decide_True by (cbn [length] in *; lia). rewrite lookup_drop, <- Hj. f_equal. lia.
Qed.

Lemma package_after_spec fuel out marker base :
  no_overlap marker → (length out - base < fuel)%nat →
  match package_after fuel out marker (find_from (S (length out)) out marker base) with
  | Some p => ∃ j, (base ≤ j)%nat ∧ named_at out marker j ∧ p = candidate_at out marker j
  | None => ∀ j, (base ≤ j)%nat → ¬ named_at out marker j
  end.
Proof.
  intros Hm. assert (0 < length marker)%nat as Hl by (destruct Hm as (c & m & -> & _); cbn; lia).
  revert base. induction fuel as [|fuel IH]; intros base Hf; [lia|].
  pose proof (find_from_spec (S (length out)) out marker base ltac:(lia)) as Hs.
  destruct (find_from _ out marker base) as [k|] eqn:E.
  - destruct Hs as (Hk & Hke & Hks & Hj). cbn [package_after]. cbv zeta.
    fold (candidate_at out marker k). destruct (package_like (candidate_at out marker k)) eqn:Hp.
    + exists k. done.
    + specialize (IH (k + length marker)%nat ltac:(lia)). unfold find.
      destruct (package_after fuel out marker _) as [p|].
      * destruct IH as (j & ? & ? & ?). exists j. split; [lia|done].
      * intros j Hb [Hn1 Hn2]. destruct (Nat.lt_trichotomy j k) as [Hlt|[->|Hgt]].
        -- by rewrite Hj in Hn1 by lia.
        -- congruence.
        -- apply (IH j); [|done]. by eapply marker_apart.
  - cbn [package_after]. intros j Hb [Hn _].
    assert (j + length marker ≤ length out)%nat as Hle.
    { apply starts_with_length in Hn. rewrite length_drop in Hn. lia. }
    by rewrite Hs in Hn.
Qed.

(** The name the library may uninstall on a signature conflict is taken from the
    package manager's text: [package_name_from_output] returns a word of the output that
    directly follows "Package " or "package ", contains a dot, no slash and at least three
    bytes, and it returns none exactly when the output has no such word. *)
Theorem package_name_from_output_correct out :
  let p := package_name_from_output out in
  let named m := ∃ j, named_at out m j ∧ p = candidate_at out m j in
  (p ≠ [] ∧ (named (txt "Package ") ∨ named (txt "package "))) ∨
  (p = [] ∧ ∀ j, ¬ named_at out (txt "Package ") j ∧ ¬ named_at out (txt "package ") j).
Proof.
  assert (∀ m, m = txt "Package " ∨ m = txt "package " → no_overlap m) as Hno.
  { intros m [-> | ->]; eexists _, _; (split; [reflexivity|]); apply (bool_decide_eq_true_1 (_ ∉ _)); done. }
  assert (∀ m j, named_at out m j → candidate_at out m j ≠ []) as Hne.
  { intros m j [_ Hl] E. by rewrite E in Hl. }
  cbv zeta. unfold package_name_from_output, find.
  pose proof (package_after_spec (S (length out)) out (txt "Package ") 0 (Hno _ (or_introl eq_refl)) ltac:(lia)) as H1.
  pose proof (package_after_spec (S (length out)) out (txt "package ") 0 (Hno _ (or_intror eq_refl)) ltac:(lia)) as H2.
  destruct (package_after _ out (txt "Package ") _) as [p|].
  { destruct H1 as (j & _ & Hn & ->). left. split; [by apply Hne|]. left. eauto. }
  destruct (package_after _ out (txt "package ") _) as [p|]; cbn [default].
  - destruct H2 as (j & _ & Hn & ->). left. split; [by apply Hne|]. right. eauto.
  - right. split; [done|]. intros j. split; [apply H1|apply H2]; lia.
Qed.
