(* ===== verification/EventBus.v ===== *)
(** * The event bus of libadb

    Models adb/lib/src/api/events.h and events.cpp: [EventBus], the queue with its
    overflow policy, the subscriptions and their combined mask, and the dispatcher
    thread.

    The bus is shared by the threads of the application and by the dispatcher threads.
    Each critical section of the code (the code between taking and releasing [mutex_]) is
    one function on the record [bus]; a thread is at one of the program points of [pc],
    and [step] says what one thread does next.  The steps of different threads interleave
    freely.  A wait on a condition variable is modelled with its sleeping state: a thread
    that finds its predicate false sleeps, and it looks again only after a notification
    or a spurious wake-up, so a lost wake-up would be visible.

    A handler is an element of an arbitrary type [H], an empty [std::function] is [None].
    What a handler does while it runs is chosen by the environment: it may call any
    function of the bus, and it returns or throws.  Identifiers and counters are 64 bits
    wide in the code and unbounded here: they count subscriptions, operations and lost
    events.

    [accepted] and [taken] are histories kept for the theorems only: the events that
    reached the critical section of [publish], and those a dispatcher took from the
    queue. *)

From S2P Require Import Prelude Strings Libadb.

Definition droppable (t : EventType.event_type) : bool :=
  bool_decide (t = EventType.OperationProgress) || bool_decide (t = EventType.OperationHeartbeat).

Section bus.
Context {H : Type}.

Record Subscriber := mkSubscriber { sub_id : Z; sub_mask : Z; sub_handler : option H }.

Record bus := mkBus {
  queue : list Event;
  subscribers : list Subscriber;
  next_id : Z;
  primary_id : Z;
  combined_mask : Z;
  queue_limit : Z;
  progress_interval : Z;
  dropped_total : Z;
  dropped_pending : Z;
  running : bool;
  dispatching : bool;
  dispatcher : option nat
}.

Definition set_bus_queue q b :=
  mkBus q (subscribers b) (next_id b) (primary_id b) (combined_mask b) (queue_limit b)
    (progress_interval b) (dropped_total b) (dropped_pending b) (running b) (dispatching b) (dispatcher b).
Definition set_subscribers l m n b :=
  mkBus (queue b) l n (primary_id b) m (queue_limit b)
    (progress_interval b) (dropped_total b) (dropped_pending b) (running b) (dispatching b) (dispatcher b).
Definition set_primary i b :=
  mkBus (queue b) (subscribers b) (next_id b) i (combined_mask b) (queue_limit b)
    (progress_interval b) (dropped_total b) (dropped_pending b) (running b) (dispatching b) (dispatcher b).
Definition set_limits n i b :=
  mkBus (queue b) (subscribers b) (next_id b) (primary_id b) (combined_mask b) n
    i (dropped_total b) (dropped_pending b) (running b) (dispatching b) (dispatcher b).
Definition set_dropped t p b :=
  mkBus (queue b) (subscribers b) (next_id b) (primary_id b) (combined_mask b) (queue_limit b)
    (progress_interval b) t p (running b) (dispatching b) (dispatcher b).
Definition set_running r d b :=
  mkBus (queue b) (subscribers b) (next_id b) (primary_id b) (combined_mask b) (queue_limit b)
    (progress_interval b) (dropped_total b) (dropped_pending b) r (dispatching b) d.
Definition set_dispatching v b :=
  mkBus (queue b) (subscribers b) (next_id b) (primary_id b) (combined_mask b) (queue_limit b)
    (progress_interval b) (dropped_total b) (dropped_pending b) (running b) v (dispatcher b).

Definition new_bus : bus := mkBus [] [] 1 0 0 10000 200 0 0 false false None.

(** ** Critical sections *)

Definition mask_of (l : list Subscriber) : Z :=
  fold_left (λ mask s, match sub_handler s with Some _ => Z.lor mask (sub_mask s) | None => mask end) l 0.
Definition recompute_mask_locked (b : bus) : bus :=
  set_subscribers (subscribers b) (mask_of (subscribers b)) (next_id b) b.

Definition subscribe_locked (h : H) (mask : Z) (b : bus) : Z * bus :=
  (next_id b, recompute_mask_locked
     (set_subscribers (subscribers b ++ [mkSubscriber (next_id b) mask (Some h)]) (combined_mask b)
        (next_id b + 1) b)).

Definition unsubscribe_locked (id : Z) (b : bus) : bus :=
  if id =? 0 then b else
  match list_find (λ s, sub_id s = id) (subscribers b) with
  | None => b
  | Some (i, _) =>
      let b := set_subscribers (delete i (subscribers b)) (combined_mask b) (next_id b) b in
      recompute_mask_locked (if primary_id b =? id then set_primary 0 b else b)
  end.

Definition wants (t : EventType.event_type) (b : bus) : bool :=
  negb (Z.land (combined_mask b) (event_bit t) =? 0).

Definition stamped (e : Event) (now : Z) : Event :=
  if timestamp e =? 0 then
    mkEvent (ev_type e) now (ev_serial e) (ev_op e) (ev_command e) (ev_phase e) (ev_status e)
      (ev_remote_code e) (bytes_done e) (bytes_total e) (ev_elapsed e) (message e) (stats e)
  else e.

(** The critical section of [publish]; [false] when the new event itself is lost, which is
    the one way out without a notification. *)
Definition publish_locked (e : Event) (b : bus) : bool * bus :=
  if (0 <? queue_limit b) && (queue_limit b <=? llen (queue b)) then
    let lose b := set_dropped (dropped_total b + 1) (dropped_pending b + 1) b in
    match list_find (λ x, droppable (ev_type x) = true) (queue b) with
    | Some (victim, _) =>
        (true, lose (set_bus_queue (delete victim (queue b) ++ [e]) b))
    | None =>
        if droppable (ev_type e) then (false, lose b)
        else (true, lose (set_bus_queue (tail (queue b) ++ [e]) b))
    end
  else (true, set_bus_queue (queue b ++ [e]) b).

Definition snapshot_for (t : EventType.event_type) (l : list Subscriber) : list Subscriber :=
  filter (λ s, is_Some (sub_handler s) ∧ Z.land (sub_mask s) (event_bit t) ≠ 0) l.

(** The dispatcher takes the front event, the report of lost events that is due, and a
    copy of the interested subscribers. *)
Definition take_event (b : bus) : option (Event * list Subscriber * Z * bus) :=
  match queue b with
  | [] => None
  | e :: q =>
      let due := (0 <? dropped_pending b) && bool_decide (q = []) in
      Some (e, snapshot_for (ev_type e) (subscribers b), if due then dropped_pending b else 0,
            set_dispatching true (set_bus_queue q
              (set_dropped (dropped_total b) (if due then 0 else dropped_pending b) b)))
  end.

Definition start_locked (new_thread : nat) (b : bus) : bus :=
  if running b then b else set_running true (Some new_thread) b.

Definition handler_error (e : Event) (what : option bytes) : Event :=
  mkEvent EventType.InternalError 0 (ev_serial e) (ev_op e) Command.Connect Phase.None Status.Internal
    [] 0 0 0
    (match what with
     | Some w => txt "event handler threw: " ++ w
     | None => txt "event handler threw an unknown exception"
     end) no_stats.

Definition overflow_error (report : Z) : Event :=
  mkEvent EventType.InternalError 0 [] 0 Command.Connect Phase.None Status.Internal [] report 0 0
    (txt "event queue overflow: " ++ dec report ++ txt " event(s) dropped") no_stats.

(** ** Threads *)

Inductive api :=
  | Publish (e : Event) (now : Z)
  | Subscribe (h : option H) (mask : Z)
  | Unsubscribe (id : Z)
  | SetPrimary (h : option H) (mask : Z)
  | SetQueueLimit (limit : Z)
  | SetProgressInterval (interval : Z)
  | Start
  | Stop
  | Drain.

(** Where a thread is; [k] is where it goes on when the call returns. *)
Inductive pc :=
  | Idle
  | PubLock (e : Event) (k : pc)
  | PubNotify (k : pc)
  | StartLock (k : pc)
  | PrimUnsub (old : Z) (h : option H) (mask : Z) (k : pc)
  | PrimSub (h : option H) (mask : Z) (k : pc)
  | PrimStore (id : Z) (k : pc)
  | StopNotify (worker : nat) (k : pc)
  | StopJoin (worker : nat) (k : pc)
  | DrainWait (k : pc)
  | DrainSleep (k : pc)
  | DTop
  | DSleep
  | DNext (e : Event) (todo : list Subscriber) (report : Z)
  | DBody (s : Subscriber) (e : Event) (todo : list Subscriber) (report : Z)
  | DFinish
  | Exited.

Record sys := mkSys {
  the_bus : bus;
  threads : gmap nat pc;
  next_tid : nat;
  terminated : bool;
  accepted : list Event;
  taken : list Event
}.
Definition with_bus b st :=
  mkSys b (threads st) (next_tid st) (terminated st) (accepted st) (taken st).
Definition at_pc t p st :=
  mkSys (the_bus st) (<[t := p]> (threads st)) (next_tid st) (terminated st) (accepted st) (taken st).

(** Moving to a new program point, after a critical section. *)
Definition goto t p b st := at_pc t p (with_bus b st).

Definition wake_queue (p : pc) : pc := match p with DSleep => DTop | p => p end.
Definition wake_drain (p : pc) : pc := match p with DrainSleep k => DrainWait k | p => p end.
Definition notify_all (wake : pc → pc) (st : sys) : sys :=
  mkSys (the_bus st) (wake <$> threads st) (next_tid st) (terminated st) (accepted st) (taken st).

(** [start()]: a second dispatcher thread is created when none runs.  Assigning to a
    [std::thread] that is still joinable ends the process. *)
Definition do_start (t : nat) (k : pc) (st : sys) : sys :=
  let b := the_bus st in
  if running b then at_pc t k st else
  mkSys (start_locked (next_tid st) b) (<[t := k]> (<[next_tid st := DTop]> (threads st)))
    (S (next_tid st)) (terminated st || bool_decide (is_Some (dispatcher b))) (accepted st) (taken st).

(** What a thread publishes is looked at first ([wants]) and queued by a later step. *)
Definition publish_begin (e : Event) (now : Z) (k : pc) (b : bus) : pc :=
  if wants (ev_type e) b then PubLock (stamped e now) k else k.

(** A call of the API, up to and including its first critical section. *)
Definition begin_call (t : nat) (c : api) (k : pc) (st : sys) : sys :=
  let b := the_bus st in
  match c with
  | Publish e now => at_pc t (publish_begin e now k b) st
  | Subscribe None _ => at_pc t k st
  | Subscribe (Some h) mask => goto t (StartLock k) (subscribe_locked h mask b).2 st
  | Unsubscribe id => goto t k (unsubscribe_locked id b) st
  | SetPrimary h mask => at_pc t (PrimUnsub (primary_id b) h mask k) st
  | SetQueueLimit limit => goto t k (set_limits limit (progress_interval b) b) st
  | SetProgressInterval interval => goto t k (set_limits (queue_limit b) interval b) st
  | Start => do_start t k st
  | Stop =>
      match running b, dispatcher b with
      | true, Some w => goto t (StopNotify w k) (set_running false None b) st
      | true, None => goto t k (set_running false None b) st
      | false, _ => at_pc t k st
      end
  | Drain => at_pc t (DrainWait k) st
  end.

Inductive action :=
  | Call (c : api)                                (** an application thread, or a handler, makes a call *)
  | Run (now : Z) (wake : option nat)             (** the next step of the code *)
  | Return                                        (** a handler returns *)
  | Throw (now : Z) (what : option bytes)         (** a handler throws *)
  | Wake.                                         (** a spurious wake-up *)

Definition drained (b : bus) : bool :=
  (bool_decide (queue b = []) && negb (dispatching b)) || negb (running b).

Definition sleeping (p : pc) : bool := match p with DSleep => true | _ => false end.

(** [notify_one] on [queue_cv_]: the scheduler names the sleeper that wakes; there is none
    only when nobody sleeps. *)
Definition notify_one (wake : option nat) (st : sys) : option sys :=
  match wake with
  | Some d =>
      match threads st !! d with
      | Some DSleep => Some (at_pc d DTop st)
      | _ => None
      end
  | None =>
      if bool_decide (map_Forall (λ _ p, sleeping p = false) (threads st)) then Some st else None
  end.

Definition take_step (t : nat) (st : sys) : sys :=
  let b := the_bus st in
  match take_event b with
  | Some (e, snapshot, report, b') =>
      mkSys b' (<[t := DNext e snapshot report]> (threads st)) (next_tid st) (terminated st)
        (accepted st) (taken st ++ [e])
  | None =>
      if running b then at_pc t DSleep st
      else at_pc t Exited (notify_all wake_drain st)
  end.

Definition enqueue_step (t : nat) (e : Event) (k : pc) (st : sys) : sys :=
  let '(queued, b') := publish_locked e (the_bus st) in
  mkSys b' (<[t := if queued then PubNotify k else k]> (threads st)) (next_tid st) (terminated st)
    (accepted st ++ [e]) (taken st).

Definition run_step (t : nat) (p : pc) (now : Z) (wake : option nat) (st : sys) : option sys :=
  let b := the_bus st in
  match p with
  | PubLock e k => Some (enqueue_step t e k st)
  | PubNotify k => at_pc t k <$> notify_one wake st
  | StartLock k => Some (do_start t k st)
  | PrimUnsub old h mask k => Some (goto t (PrimSub h mask k) (unsubscribe_locked old b) st)
  | PrimSub None _ k => Some (at_pc t k st)
  | PrimSub (Some h) mask k =>
      let '(id, b') := subscribe_locked h mask b in
      Some (goto t (StartLock (PrimStore id k)) b' st)
  | PrimStore id k => Some (goto t k (set_primary id b) st)
  | StopNotify w k => Some (at_pc t (StopJoin w k) (notify_all wake_drain (notify_all wake_queue st)))
  | StopJoin w k =>
      if bool_decide (w = t) then
        Some (mkSys b (threads st) (next_tid st) true (accepted st) (taken st))
      else match threads st !! w with
           | Some Exited => Some (at_pc t k st)
           | _ => None
           end
  | DrainWait k => Some (at_pc t (if drained b then k else DrainSleep k) st)
  | DTop => Some (take_step t st)
  | DNext e (s :: todo) report => Some (at_pc t (DBody s e todo report) st)
  | DNext e [] report =>
      Some (at_pc t (if 0 <? report then publish_begin (overflow_error report) now DFinish b else DFinish) st)
  | DFinish =>
      let st := goto t DTop (set_dispatching false b) st in
      Some (if bool_decide (queue b = []) then notify_all wake_drain st else st)
  | Idle | DrainSleep _ | DSleep | DBody _ _ _ _ | Exited => None
  end.

Definition step (t : nat) (a : action) (st : sys) : option sys :=
  if terminated st then None else
  match threads st !! t with
  | None => None
  | Some p =>
      match a, p with
      | Call c, (Idle | DBody _ _ _ _) => Some (begin_call t c p st)
      | Run now wake, _ => run_step t p now wake st
      | Return, DBody _ e todo report => Some (at_pc t (DNext e todo report) st)
      | Throw now what, DBody _ e todo report =>
          Some (at_pc t (publish_begin (handler_error e what) now (DNext e todo report) (the_bus st)) st)
      | Wake, DSleep => Some (at_pc t DTop st)
      | Wake, DrainSleep k => Some (at_pc t (DrainWait k) st)
      | _, _ => None
      end
  end.

Fixpoint run_trace (tr : list (nat * action)) (st : sys) : option sys :=
  match tr with
  | [] => Some st
  | (t, a) :: tr => st' ← step t a st; run_trace tr st'
  end.

(** The process starts with [n] application threads and no dispatcher. *)
Definition init (n : nat) : sys :=
  mkSys new_bus (list_to_map ((λ t, (t, Idle)) <$> seq 0 n)) n false [] [].

Inductive reachable (n : nat) : sys → Prop :=
  | reach_init : reachable n (init n)
  | reach_step st st' t a : reachable n st → step t a st = Some st' → reachable n st'.

End bus.
