(* ===== verification/EventBusInv.v ===== *)
(** * The event bus: what holds in every interleaving

    Theorems about the model of EventBus.v: the combined mask, the order of delivery to
    the handlers and the accounting of lost events; that no wake-up is lost; the overflow policy; that
    [stop()] drains the queue and returns, with the two ways it does not (a handler that
    throws on an internal error, a restart while it joins).

    The invariants [inv] and [awake] are proved step by step: one lemma per kind of step,
    then [inv_step] and [awake_step_sys] for [step], then induction over [reachable]. *)

From S2P Require Import Prelude Strings Libadb EventBus.

(** ** The combined mask *)

Section mask.
Context {H : Type}.
Implicit Types (b : @bus H) (l : list (@Subscriber H)).

Lemma event_bit_pow t : event_bit t = 2 ^ event_index t.
Proof. by destruct t. Qed.

Lemma event_index_range t : 0 ≤ event_index t < 22.
Proof. by destruct t. Qed.

Lemma land_event_bit m t : Z.land m (event_bit t) = 0 ↔ Z.testbit m (event_index t) = false.
Proof.
  rewrite event_bit_pow. pose proof (event_index_range t) as Hr. split.
  - intros E. apply (f_equal (λ z, Z.testbit z (event_index t))) in E.
    rewrite Z.land_spec, Z.pow2_bits_true, andb_true_r, Z.bits_0 in E by lia. done.
  - intros E. apply Z.bits_inj'. intros n Hn. rewrite Z.land_spec, Z.bits_0, Z.pow2_bits_eqb by lia.
    destruct (Z.eqb_spec (event_index t) n) as [<-|]; [by rewrite E|by rewrite andb_false_r].
Qed.

Definition interested (t : EventType.event_type) (s : @Subscriber H) : Prop :=
  is_Some (sub_handler s) ∧ Z.land (sub_mask s) (event_bit t) ≠ 0.

Lemma mask_of_testbit l i :
  0 ≤ i → Z.testbit (mask_of l) i = true ↔ ∃ s, s ∈ l ∧ is_Some (sub_handler s) ∧ Z.testbit (sub_mask s) i = true.
Proof.
  intros Hi. unfold mask_of.
  assert (∀ acc, Z.testbit (fold_left (λ mask s, match sub_handler s with
      Some _ => Z.lor mask (sub_mask s) | None => mask end) l acc) i = true ↔
    Z.testbit acc i = true ∨ ∃ s, s ∈ l ∧ is_Some (sub_handler s) ∧ Z.testbit (sub_mask s) i = true) as Hl.
  { induction l as [|s l IH]; intros acc; cbn [fold_left]; [set_solver|]. rewrite IH.
    destruct (sub_handler s) as [h|] eqn:E.
    - rewrite Z.lor_spec, orb_true_iff. setoid_rewrite elem_of_cons. naive_solver.
    - setoid_rewrite elem_of_cons. split; [naive_solver|].
      intros [?|(s' & [->|?] & [? ?] & ?)]; [by left|congruence|naive_solver]. }
  rewrite Hl, Z.bits_0. naive_solver.
Qed.

Lemma wants_interested t b :
  combined_mask b = mask_of (subscribers b) →
  wants t b = true ↔ ∃ s, s ∈ subscribers b ∧ interested t s.
Proof.
  intros Hm. unfold wants. rewrite negb_true_iff, Z.eqb_neq, land_event_bit, Hm, not_false_iff_true.
  rewrite mask_of_testbit by (pose proof (event_index_range t); lia).
  unfold interested. setoid_rewrite land_event_bit. by setoid_rewrite not_false_iff_true.
Qed.

Lemma snapshot_for_spec t l s : s ∈ snapshot_for t l ↔ s ∈ l ∧ interested t s.
Proof. unfold snapshot_for. rewrite list_elem_of_filter. unfold interested. tauto. Qed.
End mask.

(** ** The invariant *)

Section invariant.
Context {H : Type}.
Implicit Types (b : @bus H) (st : @sys H) (p : @pc H).

Record bus_ok b : Prop := {
  ok_mask : combined_mask b = mask_of (subscribers b);
  ok_ids : NoDup (sub_id <$> subscribers b);
  ok_fresh : ∀ s, s ∈ subscribers b → 0 < sub_id s < next_id b;
  ok_handlers : ∀ s, s ∈ subscribers b → is_Some (sub_handler s);
  ok_next : 0 < next_id b;
  ok_dispatcher : running b = bool_decide (is_Some (dispatcher b));
  ok_pending : 0 ≤ dropped_pending b ≤ dropped_total b
}.

Record hist_ok st : Prop := {
  ok_fifo : sublist (taken st ++ queue (the_bus st)) (accepted st);
  ok_count : llen (accepted st) = llen (taken st) + llen (queue (the_bus st)) + dropped_total (the_bus st)
}.

Lemma subscribe_ok h mask b : bus_ok b → bus_ok (subscribe_locked h mask b).2.
Proof.
  intros [Hm Hi Hf Hh Hn Hd Hp]. unfold subscribe_locked, recompute_mask_locked. split; cbn; try done.
  - rewrite fmap_app. apply NoDup_app. split_and!; [done| |apply NoDup_singleton].
    intros i (s & -> & Hs)%list_elem_of_fmap Hin. apply list_elem_of_singleton in Hin.
    specialize (Hf _ Hs). cbn in Hin. lia.
  - intros s [Hs|Hs]%elem_of_app; [specialize (Hf _ Hs); lia|].
    apply list_elem_of_singleton in Hs as ->. cbn. lia.
  - intros s [Hs|Hs]%elem_of_app; [by apply Hh|]. apply list_elem_of_singleton in Hs as ->. cbn. eauto.
  - lia.
Qed.

Lemma unsubscribe_ok id b : bus_ok b → bus_ok (unsubscribe_locked id b).
Proof.
  intros [Hm Hi Hf Hh Hn Hd Hp]. unfold unsubscribe_locked, recompute_mask_locked.
  destruct (id =? 0); [done|]. destruct (list_find _ _) as [[i s]|]; [|done].
  assert (sublist (delete i (subscribers b)) (subscribers b)) as Hsub by apply sublist_delete.
  assert (∀ x, x ∈ delete i (subscribers b) → x ∈ subscribers b) as Hin.
  { intros x Hx. eapply elem_of_submseteq; [exact Hx|by apply sublist_submseteq]. }
  cbv zeta. destruct (primary_id _ =? id); split; cbn; try done; try (by intros; eauto).
  all: by apply (sublist_NoDup _ _ Hi), fmap_sublist.
Qed.

(** [publish] keeps the queue a part of what was accepted, in order, and counts what is lost. *)
Lemma publish_fifo e b a acc :
  sublist (a ++ queue b) acc → sublist (a ++ queue (publish_locked e b).2) (acc ++ [e]).
Proof.
  intros Hs. unfold publish_locked.
  assert (∀ q, sublist q (queue b) → sublist (a ++ q ++ [e]) (acc ++ [e])) as Hq.
  { intros q Hq. rewrite app_assoc. apply sublist_app; [|done]. etrans; [|exact Hs].
    by apply sublist_app. }
  destruct (_ && _); [|by apply (Hq (queue b))].
  destruct (list_find _ _) as [[i x]|]; cbn.
  - apply Hq, sublist_delete.
  - destruct (droppable (ev_type e)); cbn.
    + etrans; [exact Hs|]. by apply sublist_inserts_r.
    + apply Hq. destruct (queue b); [done|]. by constructor.
Qed.

Lemma publish_count e b :
  llen (queue (publish_locked e b).2) + dropped_total (publish_locked e b).2 =
  llen (queue b) + dropped_total b + 1.
Proof.
  unfold publish_locked. destruct (_ && _) eqn:El; [|cbn; rewrite llen_app, llen_cons, llen_nil; lia].
  apply andb_true_iff in El as [El1%Z.ltb_lt El2%Z.leb_le].
  destruct (list_find _ _) as [[i x]|] eqn:E; cbn.
  - apply list_find_Some in E as (Hi & _). apply lookup_lt_Some in Hi.
    rewrite llen_app, llen_cons, llen_nil. unfold llen. rewrite length_delete by (by apply lookup_lt_is_Some).
    lia.
  - destruct (droppable (ev_type e)); cbn; [lia|]. destruct (queue b) eqn:Eq.
    + rewrite llen_nil in El2. lia.
    + cbn [tail]. rewrite llen_app, !llen_cons, llen_nil. lia.
Qed.

Lemma publish_ok e b : bus_ok b → bus_ok (publish_locked e b).2.
Proof.
  intros [Hm Hi Hf Hh Hn Hd Hp]. unfold publish_locked.
  repeat (destruct (_ && _) || destruct (list_find _ _) as [[? ?]|] || destruct (droppable _));
    split; cbn; try done; lia.
Qed.

Lemma take_event_ok b e l r b' : bus_ok b → take_event b = Some (e, l, r, b') →
  bus_ok b' ∧ queue b = e :: queue b' ∧ dropped_total b' = dropped_total b ∧
  l = snapshot_for (ev_type e) (subscribers b) ∧ 0 ≤ r ∧ r + dropped_pending b' = dropped_pending b.
Proof.
  intros [Hm Hi Hf Hh Hn Hd Hp] E. unfold take_event in E. destruct (queue b) as [|x q] eqn:Eq; [done|].
  injection E as <- <- <- <-. cbn.
  split_and!; [split; cbn; try done|done..| |]; destruct (_ && _); lia.
Qed.

(** Every thread that exists was created before the next one. *)
Definition tids_ok st : Prop := ∀ t p, threads st !! t = Some p → (t < next_tid st)%nat.

Record inv st : Prop := {
  inv_bus : bus_ok (the_bus st);
  inv_hist : hist_ok st;
  inv_tids : tids_ok st
}.

Lemma inv_at t p st : inv st → (t < next_tid st)%nat → inv (at_pc t p st).
Proof.
  intros [Hb Hh Ht] Hlt. split; [done| |].
  - destruct Hh. by split.
  - intros t' p' E. cbn in *. apply lookup_insert_Some in E as [[<- _]|[_ E]]; [done|]. by eapply Ht.
Qed.

(** A step that changes neither the queue nor the counters. *)
Lemma inv_with b st :
  inv st → bus_ok b → queue b = queue (the_bus st) → dropped_total b = dropped_total (the_bus st) →
  inv (with_bus b st).
Proof.
  intros [Hb [Hf Hc] Ht] Hb' Hq Hd. split; [done| |done]. split; cbn; by rewrite ?Hq, ?Hd.
Qed.

Lemma inv_notify_all wake st : inv st → inv (notify_all wake st).
Proof.
  intros [Hb [Hf Hc] Ht]. split; [done|by split|]. intros t p E. cbn in *.
  rewrite lookup_fmap in E. destruct (threads st !! t) eqn:E'; [|done]. by eapply Ht.
Qed.

Lemma subscribe_keeps h mask b :
  queue (subscribe_locked h mask b).2 = queue b ∧
  dropped_total (subscribe_locked h mask b).2 = dropped_total b.
Proof. done. Qed.

Lemma unsubscribe_keeps id b :
  queue (unsubscribe_locked id b) = queue b ∧ dropped_total (unsubscribe_locked id b) = dropped_total b.
Proof.
  unfold unsubscribe_locked. destruct (id =? 0); [done|]. destruct (list_find _ _) as [[? ?]|]; [|done].
  cbv zeta. by destruct (primary_id _ =? id).
Qed.

(** A change of the scalar settings keeps the registered subscribers sound. *)
Lemma scalar_ok b b' :
  bus_ok b → subscribers b' = subscribers b → combined_mask b' = combined_mask b → next_id b' = next_id b →
  running b' = bool_decide (is_Some (dispatcher b')) → dropped_pending b' = dropped_pending b →
  dropped_total b' = dropped_total b → bus_ok b'.
Proof. intros [Hm Hi Hf Hh Hn Hd Hp] E1 E2 E3 E4 E5 E6. split; rewrite ?E1, ?E2, ?E3, ?E5, ?E6; done. Qed.

Lemma inv_do_start t k st : inv st → (t < next_tid st)%nat → inv (do_start t k st).
Proof.
  intros Hi Ht. unfold do_start. destruct (running (the_bus st)) eqn:Er; [by apply inv_at|].
  destruct Hi as [Hb [Hf Hc] Hts]. unfold start_locked. rewrite Er. split; cbn.
  - by eapply scalar_ok.
  - by split.
  - intros t' p E. cbn in *. apply lookup_insert_Some in E as [[<- _]|[_ E]]; [lia|].
    apply lookup_insert_Some in E as [[<- _]|[_ E]]; [lia|]. apply Hts in E. lia.
Qed.

#[local] Hint Resolve inv_at inv_with inv_notify_all inv_do_start subscribe_ok unsubscribe_ok : bus.

Lemma inv_goto t p b st :
  inv st → (t < next_tid st)%nat → bus_ok b → queue b = queue (the_bus st) →
  dropped_total b = dropped_total (the_bus st) → inv (goto t p b st).
Proof. intros. unfold goto. apply inv_at; [|done]. by apply inv_with. Qed.

Lemma inv_begin_call t c k st : inv st → (t < next_tid st)%nat → inv (begin_call t c k st).
Proof.
  intros Hi Ht. pose proof (inv_bus _ Hi) as Hb. unfold begin_call.
  destruct c as [e now|[h|] mask|id|h mask|n|n| | |]; eauto with bus.
  - by apply inv_goto; eauto using subscribe_ok.
  - destruct (unsubscribe_keeps id (the_bus st)). apply inv_goto; eauto with bus.
  - apply inv_goto; try done. by apply (scalar_ok _ _ Hb); try apply Hb.
  - apply inv_goto; try done. by apply (scalar_ok _ _ Hb); try apply Hb.
  - destruct (running _); [|eauto with bus].
    destruct (dispatcher _); (apply inv_goto; try done); by apply (scalar_ok _ _ Hb).
Qed.

Lemma inv_take t st : inv st → (t < next_tid st)%nat → inv (take_step t st).
Proof.
  intros Hi Ht. unfold take_step. destruct (take_event _) as [[[[e l] r] b']|] eqn:E.
  - destruct Hi as [Hb [Hf Hc] Hts]. destruct (take_event_ok _ _ _ _ _ Hb E) as (Hb' & Hq & Hd & _).
    split; cbn; [done| |].
    + split; cbn; rewrite Hq in *; rewrite ?Hd.
      * by rewrite <- app_assoc.
      * rewrite llen_app, llen_cons, llen_nil in *. lia.
    + intros t' p' E'. cbn in *. apply lookup_insert_Some in E' as [[<- _]|[_ E']]; [done|]. by eapply Hts.
  - destruct (running _); eauto with bus.
Qed.

Lemma inv_enqueue t e k st : inv st → (t < next_tid st)%nat → inv (enqueue_step t e k st).
Proof.
  intros [Hb [Hf Hc] Hts] Ht. unfold enqueue_step.
  pose proof (publish_ok e _ Hb) as Hb'. pose proof (publish_count e (the_bus st)) as Hcount.
  pose proof (publish_fifo e _ _ _ Hf) as Hfifo. destruct (publish_locked e (the_bus st)) as [q b'].
  cbn in *. split; cbn; [done| |].
  - split; cbn; [done|]. rewrite llen_app, llen_cons, llen_nil. lia.
  - intros t' p' E'. cbn in *. apply lookup_insert_Some in E' as [[<- _]|[_ E']]; [done|]. by eapply Hts.
Qed.

Lemma inv_notify_one wake st st' : inv st → notify_one wake st = Some st' → inv st' ∧ next_tid st' = next_tid st.
Proof.
  intros Hi. unfold notify_one. destruct wake as [d|].
  - destruct (threads st !! d) as [[]|] eqn:E; try done. intros [= <-]. split; [|done].
    apply inv_at; [done|]. by eapply inv_tids.
  - case_bool_decide; [|done]. by intros [= <-].
Qed.

Lemma inv_run t p now wake st st' :
  inv st → threads st !! t = Some p → run_step t p now wake st = Some st' → inv st'.
Proof.
  intros Hi Hp E. pose proof (inv_tids _ Hi _ _ Hp) as Ht. pose proof (inv_bus _ Hi) as Hb.
  destruct p; cbn in E; try done; try (injection E as <-); eauto using inv_enqueue, inv_take with bus.
  - destruct (notify_one wake st) as [st1|] eqn:E1; [|done]. injection E as <-.
    destruct (inv_notify_one _ _ _ Hi E1) as [? Hn]. apply inv_at; [done|lia].
  - destruct (unsubscribe_keeps old (the_bus st)). apply inv_goto; eauto with bus.
  - destruct h as [h|]; injection E as <-; eauto with bus.
    by apply inv_goto; [..|exact (subscribe_ok h _ _ Hb)| |].
  - apply inv_goto; try done. by apply (scalar_ok _ _ Hb); try apply Hb.
  - case_bool_decide; [|destruct (threads st !! worker) as [[]|]; try done]; injection E as <-; [|eauto with bus].
    destruct Hi as [? [? ?] ?]. by split.
  - destruct todo; injection E as <-; eauto with bus.
  - assert (inv (goto t DTop (set_dispatching false (the_bus st)) st)).
    { apply inv_goto; try done. by apply (scalar_ok _ _ Hb); try apply Hb. }
    case_bool_decide; eauto with bus.
Qed.

Lemma inv_step t a st st' : inv st → step t a st = Some st' → inv st'.
Proof.
  intros Hi E. unfold step in E. destruct (terminated st); [done|].
  destruct (threads st !! t) as [p|] eqn:Hp; [|done]. pose proof (inv_tids _ Hi _ _ Hp) as Ht.
  destruct a; [| by eapply inv_run | |  |]; destruct p; try done; injection E as <-;
    eauto using inv_begin_call with bus.
Qed.

Lemma inv_init n : inv (init n).
Proof.
  split; cbn.
  - split; cbn; try done; try set_solver. constructor.
  - by split.
  - intros t p E. cbn in E. apply elem_of_list_to_map_2, list_elem_of_fmap in E as (t' & [= -> ->] & E).
    apply elem_of_seq in E. cbn. lia.
Qed.

Lemma reachable_inv n st : reachable n st → inv st.
Proof. induction 1; eauto using inv_init, inv_step. Qed.
End invariant.

Lemma run_trace_reachable {H} n tr : ∀ st st' : @sys H,
  reachable n st → run_trace tr st = Some st' → reachable n st'.
Proof.
  induction tr as [|[t a] tr IH]; intros st st' Hr E; cbn in E; [by injection E as <-|].
  destruct (step t a st) as [st1|] eqn:Es; [|done]. eapply IH; [|exact E]. by eapply reach_step.
Qed.

(** ** Delivery *)

Section delivery.
Context {H : Type}.
Implicit Types (b : @bus H) (st : @sys H) (p k : @pc H).

(** What is seen of a run from outside: a dispatcher takes the front event of the queue,
    with the subscribers registered at that moment, and a dispatcher calls a handler. *)
Inductive happening :=
  | Took (t : nat) (e : Event) (registered : list (@Subscriber H))
  | Called (t : nat) (s : @Subscriber H) (e : Event).

Definition happens (t : nat) (a : @action H) st : list happening :=
  match threads st !! t, a with
  | Some DTop, Run _ _ =>
      match queue (the_bus st) with e :: _ => [Took t e (subscribers (the_bus st))] | [] => [] end
  | Some (DNext e (s :: _) _), Run _ _ => [Called t s e]
  | _, _ => []
  end.

Fixpoint history (tr : list (nat * @action H)) st : list happening :=
  match tr with
  | [] => []
  | (t, a) :: tr => happens t a st ++ match step t a st with Some st' => history tr st' | None => [] end
  end.

Definition took (h : list happening) : list Event :=
  omap (λ x, match x with Took _ e _ => Some e | Called _ _ _ => None end) h.

(** The handler calls thread [t] made, in order. *)
Definition calls (t : nat) (h : list happening) : list (@Subscriber H * Event) :=
  omap (λ x, match x with Called t' s e => if decide (t' = t) then Some (s, e) else None | _ => None end) h.

(** The handler calls owed for the events thread [t] took: each event goes to every
    subscriber that was registered and interested then, in the order of registration. *)
#[local] Instance interested_dec e (s : @Subscriber H) : Decision (interested e s).
Proof. unfold interested. apply _. Defined.
Definition owed_by (t : nat) (x : happening) : list (@Subscriber H * Event) :=
  match x with
  | Took t' e registered => if decide (t' = t) then (., e) <$> filter (interested (ev_type e)) registered else []
  | Called _ _ _ => []
  end.
Definition owed (t : nat) (h : list happening) : list (@Subscriber H * Event) := h ≫= owed_by t.

(** The calls that a thread inside its loop has still to make. *)
Fixpoint pending p : list (@Subscriber H * Event) :=
  match p with
  | DNext e todo _ | DBody _ e todo _ => (., e) <$> todo
  | PubLock _ k | PubNotify k | StartLock k | PrimUnsub _ _ _ k | PrimSub _ _ k | PrimStore _ k
  | StopNotify _ k | StopJoin _ k | DrainWait k | DrainSleep k => pending k
  | Idle | DTop | DSleep | DFinish | Exited => []
  end.
Definition left_of (t : nat) st : list (@Subscriber H * Event) := default [] (pending <$> threads st !! t).

Lemma pending_publish e now k b : pending (publish_begin e now k b) = pending k.
Proof. unfold publish_begin. by destruct (wants _ _). Qed.

Lemma left_at t t' p st : left_of t (at_pc t' p st) = if decide (t' = t) then pending p else left_of t st.
Proof.
  unfold left_of. cbn. case_decide as E; [subst; by rewrite lookup_insert_eq|by rewrite lookup_insert_ne].
Qed.
Lemma left_goto t t' p b st : left_of t (goto t' p b st) = if decide (t' = t) then pending p else left_of t st.
Proof. exact (left_at t t' p (with_bus b st)). Qed.
Lemma left_notify t wake st : (∀ p, pending (wake p) = pending p) → left_of t (notify_all wake st) = left_of t st.
Proof. intros Hw. unfold left_of. cbn. rewrite lookup_fmap. destruct (threads st !! t); cbn; [apply Hw|done]. Qed.
Lemma pending_wake_queue p : pending (wake_queue p) = pending p.
Proof. by destruct p. Qed.
Lemma pending_wake_drain p : pending (wake_drain p) = pending p.
Proof. by destruct p. Qed.

Lemma left_start t t' k st :
  inv st → left_of t (do_start t' k st) = if decide (t' = t) then pending k else left_of t st.
Proof.
  intros Hi. unfold do_start. destruct (running _); [apply left_at|]. unfold left_of. cbn.
  case_decide as E; [subst; by rewrite lookup_insert_eq|]. rewrite lookup_insert_ne by done.
  destruct (decide (t = next_tid st)) as [->|]; [|by rewrite lookup_insert_ne].
  rewrite lookup_insert_eq. destruct (threads st !! next_tid st) eqn:E'; [|done].
  apply (inv_tids _ Hi) in E'. lia.
Qed.

Lemma left_begin t t' c k st :
  inv st → left_of t (begin_call t' c k st) = if decide (t' = t) then pending k else left_of t st.
Proof.
  intros Hi. unfold begin_call.
  destruct c as [e now|[h|] mask|id|h mask|n|n| | |]; rewrite ?left_goto, ?left_at, ?pending_publish; try done.
  - by apply left_start.
  - destruct (running _); [destruct (dispatcher _)|]; rewrite ?left_goto, ?left_at; done.
Qed.

(** What one step of thread [t'] does to the calls thread [t] has made and owes. *)
Definition balanced (t : nat) (h : list happening) st st' : Prop :=
  calls t h ++ left_of t st' = left_of t st ++ owed t h.

Lemma balanced_move t t' p p' st st' :
  threads st !! t' = Some p → pending p' = pending p →
  left_of t st' = (if decide (t' = t) then pending p' else left_of t st) → balanced t [] st st'.
Proof.
  intros Hp Ep El. unfold balanced, calls, owed. cbn. rewrite El, app_nil_r. case_decide as E; [|done].
  subst. unfold left_of. by rewrite Hp.
Qed.

Lemma balanced_take t t' now wake st :
  inv st → threads st !! t' = Some DTop → balanced t (happens t' (Run now wake) st) st (take_step t' st).
Proof.
  intros Hi Hp. unfold happens, take_step, take_event. rewrite Hp.
  destruct (queue (the_bus st)) as [|e q].
  - destruct (running _); eapply balanced_move; try exact Hp; rewrite ?left_at; try done.
    by rewrite left_notify by apply pending_wake_drain.
  - unfold balanced, calls, owed. cbn. rewrite app_nil_r. unfold left_of. cbn.
    destruct (decide (t' = t)) as [->|]; [|by rewrite lookup_insert_ne, app_nil_r].
    by rewrite lookup_insert_eq, Hp.
Qed.

Lemma balanced_notify_one t t' k wake st st' :
  threads st !! t' = Some (PubNotify k) → notify_one wake st = Some st' → balanced t [] st (at_pc t' k st').
Proof.
  intros Hp E. assert (left_of t st' = left_of t st) as El.
  { unfold notify_one in E. destruct wake as [d|].
    - destruct (threads st !! d) as [[]|] eqn:Ed; try done. injection E as <-. rewrite left_at. case_decide; [|done].
      subst. unfold left_of. by rewrite Ed.
    - case_bool_decide; [|done]. by injection E as <-. }
  eapply balanced_move; [exact Hp|reflexivity|]. by rewrite left_at, El.
Qed.

Lemma balanced_run t t' p now wake st st' :
  inv st → threads st !! t' = Some p → run_step t' p now wake st = Some st' →
  balanced t (happens t' (Run now wake) st) st st'.
Proof.
  intros Hi Hp E. assert (p = DTop ∨ p ≠ DTop) as [->|Hd] by (destruct p; naive_solver).
  { cbn in E. injection E as <-. by apply balanced_take. }
  destruct p; try done; unfold happens; rewrite Hp; cbn in E; try (injection E as <-);
    try (by eapply balanced_move; [exact Hp| |rewrite ?left_goto, ?left_at; reflexivity]).
  - unfold enqueue_step. destruct (publish_locked e (the_bus st)) as [queued b'].
    eapply balanced_move with (p' := if queued then PubNotify p else p); [exact Hp|by destruct queued|].
    apply (left_at t t' _ st).
  - destruct (notify_one wake st) as [st1|] eqn:E1; [|done]. injection E as <-. by eapply balanced_notify_one.
  - eapply balanced_move; [exact Hp| |by rewrite left_start]. done.
  - destruct h as [h|]; injection E as <-; (eapply balanced_move; [exact Hp| |rewrite ?left_goto, ?left_at; reflexivity]); done.
  - eapply balanced_move; [exact Hp| |rewrite left_at, !left_notify; [reflexivity|apply pending_wake_queue|apply pending_wake_drain]]. done.
  - case_bool_decide; [|destruct (threads st !! worker) as [[]|]; try done]; injection E as <-.
    + eapply balanced_move with (p' := StopJoin worker p); [exact Hp|done|]. case_decide; [|done]. subst. unfold left_of. cbn. by rewrite Hp.
    + eapply balanced_move; [exact Hp| |rewrite left_at; reflexivity]. done.
  - eapply balanced_move; [exact Hp| |rewrite left_at; reflexivity]. by destruct (drained _).
  - destruct todo as [|s todo]; injection E as <-.
    + eapply balanced_move; [exact Hp| |rewrite left_at; reflexivity]. destruct (0 <? report); [by rewrite pending_publish|done].
    + unfold balanced, calls, owed. cbn. rewrite app_nil_r, left_at. case_decide as E; [|done]. subst. unfold left_of. by rewrite Hp.
  - eapply balanced_move with (p' := DTop); [exact Hp|done|]. case_bool_decide; rewrite ?left_notify by apply pending_wake_drain; by rewrite left_goto.
Qed.

Lemma balanced_step t t' a st st' :
  inv st → step t' a st = Some st' → balanced t (happens t' a st) st st'.
Proof.
  intros Hi E. unfold step in E. destruct (terminated st); [done|].
  destruct (threads st !! t') as [p|] eqn:Hp; [|done].
  destruct a; [|by eapply balanced_run|..]; destruct p; try done; injection E as <-; unfold happens; rewrite Hp;
    (eapply balanced_move; [exact Hp| |rewrite ?left_begin, ?left_at by done; reflexivity]); rewrite ?pending_publish; done.
Qed.

Lemma taken_begin t c k st : taken (begin_call t c k st) = taken st.
Proof.
  unfold begin_call, do_start. destruct c as [e now|[h|] mask|id|h mask|n|n| | |]; try done; destruct (running _); try done.
  by destruct (dispatcher _).
Qed.

Lemma taken_run t p now wake st st' :
  threads st !! t = Some p → run_step t p now wake st = Some st' → taken st' = taken st ++ took (happens t (Run now wake) st).
Proof.
  intros Hp E. unfold happens, took. rewrite Hp. destruct p; cbn in E |- *; try done; try (injection E as <-); rewrite ?app_nil_r; try done.
  - unfold enqueue_step. by destruct (publish_locked e (the_bus st)).
  - destruct (notify_one wake st) as [st1|] eqn:E1; [|done]. injection E as <-. cbn.
    unfold notify_one in E1. destruct wake; [destruct (threads st !! n) as [[]|]|case_bool_decide]; by simplify_eq.
  - unfold do_start. by destruct (running _).
  - destruct h as [h|]; by injection E as <-.
  - case_bool_decide; [|destruct (threads st !! worker) as [[]|]; try done]; by injection E as <-.
  - unfold take_step, take_event. destruct (queue (the_bus st)); cbn; [|done].
    destruct (running _); cbn; by rewrite app_nil_r.
  - destruct todo; injection E as <-; cbn; by rewrite app_nil_r.
  - by case_bool_decide.
Qed.

Lemma took_step t a st st' : step t a st = Some st' → taken st' = taken st ++ took (happens t a st).
Proof.
  intros E. unfold step in E. destruct (terminated st); [done|].
  destruct (threads st !! t) as [p|] eqn:Hp; [|done]. unfold happens, took. rewrite Hp.
  destruct a as [c|now wake| | |]; [|by pose proof (taken_run _ _ _ _ _ _ Hp E) as R; unfold happens, took in R; rewrite Hp in R|..];
    destruct p; try done; injection E as <-; cbn; rewrite ?app_nil_r; try done; apply taken_begin.
Qed.

Lemma balanced_trace t tr : ∀ st st',
  inv st → run_trace tr st = Some st' → balanced t (history tr st) st st' ∧ taken st' = taken st ++ took (history tr st).
Proof.
  unfold balanced, calls, owed, took.
  induction tr as [|[t' a] tr IH]; intros st st' Hi E; cbn in E |- *; [injection E as <-; by rewrite !app_nil_r|].
  destruct (step t' a st) as [st1|] eqn:Es; [|done]. cbn in E.
  destruct (IH st1 st' (inv_step _ _ _ _ Hi Es) E) as [Hb Ht].
  pose proof (balanced_step t _ _ _ _ Hi Es) as H1. unfold balanced, calls, owed in H1.
  rewrite !omap_app, bind_app, <- app_assoc, Hb, app_assoc, H1, <- app_assoc, Ht, (took_step _ _ _ _ Es), <- app_assoc. done.
Qed.

(** C26. The event bus delivers every event it does not lose to the handlers, in order.
    After any interleaved run of application threads, handlers and dispatchers: the
    handler calls that a dispatcher thread has made, followed by those it still has to make
    for the event it is at, are exactly one call for each event it took from the queue and
    each subscriber that was registered and interested at that moment, in this order.  The events all
    dispatchers took, followed by the queue, are the accepted events in the order they
    were accepted, less the lost ones, and [dropped()] counts the lost ones.  An event
    is looked at ([wants]) exactly when a registered subscriber is interested.  The order of
    calls is that of one dispatcher thread: two dispatchers exist at once after a
    [stop()] that races with a [start()] ([stop_start_race]). *)
Theorem event_bus_fifo n tr st :
  run_trace tr (init n) = Some st →
  let h := history tr (init n) in
  (∀ t, calls t h ++ left_of t st = owed t h) ∧
  sublist (took h ++ queue (the_bus st)) (accepted st) ∧
  llen (accepted st) = llen (took h) + llen (queue (the_bus st)) + dropped_total (the_bus st) ∧
  (∀ ty, wants ty (the_bus st) = true ↔ ∃ s, s ∈ subscribers (the_bus st) ∧ interested ty s).
Proof.
  intros E. cbv zeta. assert (inv st) as Hi.
  { apply (reachable_inv n). eapply run_trace_reachable; [apply reach_init|exact E]. }
  destruct (balanced_trace 0 _ _ _ (inv_init n) E) as [_ Ht]. cbn in Ht. rewrite <- Ht.
  destruct Hi as [[] [] _]. split_and!; try done; [|intros t; by apply wants_interested].
  intros t. destruct (balanced_trace t _ _ _ (inv_init n) E) as [Hb _]. unfold balanced in Hb. rewrite Hb.
  unfold left_of. cbn. destruct (list_to_map _ !! t) as [p|] eqn:Ep; [|done].
  apply elem_of_list_to_map_2, list_elem_of_fmap in Ep as (t' & [= -> ->] & _). done.
Qed.
End delivery.

(** ** No wake-up is lost *)

Section wakeups.
Context {H : Type}.
Implicit Types (b : @bus H) (st : @sys H) (p k : @pc H) (m : gmap nat (@pc H)).

(** Threads that run [dispatch_loop], whatever call a handler is in the middle of. *)
Fixpoint disp p : bool :=
  match p with
  | Idle | Exited => false
  | DTop | DSleep | DNext _ _ _ | DBody _ _ _ _ | DFinish => true
  | PubLock _ k | PubNotify k | StartLock k | PrimUnsub _ _ _ k | PrimSub _ _ k | PrimStore _ k
  | StopNotify _ k | StopJoin _ k | DrainWait k | DrainSleep k => disp k
  end.
Definition pub_notifying p : bool := match p with PubNotify _ => true | _ => false end.
Definition stop_notifying p : bool := match p with StopNotify _ _ => true | _ => false end.
Definition drain_sleeping p : bool := match p with DrainSleep _ => true | _ => false end.

(** A thread that will look at the queue, or will wake one that does. *)
Definition attending p : bool := pub_notifying p || (disp p && negb (sleeping p)).

(** Where a call can return to. *)
Fixpoint cont_ok k : bool :=
  match k with
  | Idle | DBody _ _ _ _ | DNext _ _ _ | DFinish => true
  | PrimStore _ k => cont_ok k
  | _ => false
  end.
Definition pc_ok p : bool :=
  match p with
  | PubLock _ k | PubNotify k | StartLock k | PrimUnsub _ _ _ k | PrimSub _ _ k | PrimStore _ k
  | StopNotify _ k | StopJoin _ k | DrainWait k | DrainSleep k => cont_ok k
  | _ => true
  end.
Lemma cont_quiet k : cont_ok k = true → sleeping k = false ∧ drain_sleeping k = false ∧ pc_ok k = true.
Proof. by destruct k. Qed.

Record awake b m : Prop := {
  aw_conts : ∀ t p, m !! t = Some p → pc_ok p = true;
  aw_dispatcher : ∀ d, dispatcher b = Some d → ∃ p, m !! d = Some p ∧ disp p = true;
  aw_queue : queue b ≠ [] → running b = true → ∃ t p, m !! t = Some p ∧ attending p = true;
  aw_stop : running b = false → ∀ d, m !! d = Some DSleep → ∃ t p, m !! t = Some p ∧ stop_notifying p = true;
  aw_drain : drained b = true → ∀ d k, m !! d = Some (DrainSleep k) →
    ∃ t p, m !! t = Some p ∧ stop_notifying p = true
}.

(** A thread's step from [p] to [p'], in its most general form: each premise says why one
    part of the invariant survives it. *)
Lemma awake_move b b' m t p p' :
  awake b m → m !! t = Some p → pc_ok p' = true →
  running b' = running b → dispatcher b' = dispatcher b → (queue b' ≠ [] → queue b ≠ []) →
  (drained b' = true → drained b = true) ∨ (∀ d k, m !! d ≠ Some (DrainSleep k)) →
  disp p' = disp p ∨ (running b = false ∧ dispatcher b = None) →
  sleeping p' = false ∨ (queue b' = [] ∧ running b = true) →
  drain_sleeping p' = false ∨ drained b' = false →
  pub_notifying p = false ∨ (running b = true → ∃ t0 q, <[t := p']> m !! t0 = Some q ∧ attending q = true) →
  stop_notifying p = false ∨
    (∀ d q, m !! d = Some q → sleeping q = false ∧ drain_sleeping q = false) →
  awake b' (<[t := p']> m).
Proof.
  intros [H0 H1 H2 H3 H4] Hp Hok Er Ed Hq Hdr Hd Hsl Hds Hpn Hsn.
  assert (∀ d q, m !! d = Some q → sleeping q = true ∨ drain_sleeping q = true →
    (∃ t p, m !! t = Some p ∧ stop_notifying p = true) →
    ∃ t0 q, <[t := p']> m !! t0 = Some q ∧ stop_notifying q = true) as Hstop.
  { intros d q E Hs (t0 & q0 & E0 & Hq0). exists t0, q0. split; [|done]. rewrite lookup_insert_ne; [done|].
    intros ->. destruct Hsn as [?|Hn]; [congruence|]. destruct (Hn _ _ E). naive_solver congruence. }
  split.
  - intros t0 q E. apply lookup_insert_Some in E as [[_ <-]|[_ E]]; [done|by eapply H0].
  - intros d Hdd. rewrite Ed in Hdd. destruct (H1 d Hdd) as (q & E & Hqd).
    destruct (decide (t = d)) as [->|]; [|exists q; by rewrite lookup_insert_ne].
    exists p'. rewrite lookup_insert_eq. split; [done|]. destruct Hd as [|[_ ?]]; congruence.
  - intros Hqq Hr. rewrite Er in Hr. destruct (H2 (Hq Hqq) Hr) as (t0 & q & E & Hat).
    destruct Hpn as [Hpn|Hpn]; [|by apply Hpn].
    destruct (decide (t = t0)) as [->|]; [|exists t0, q; by rewrite lookup_insert_ne].
    exists t0, p'. rewrite lookup_insert_eq. split; [done|]. assert (q = p) as -> by congruence.
    destruct Hd as [Hd|[? _]]; [|congruence]. destruct Hsl as [Hsl|[? _]]; [|done].
    unfold attending in *. rewrite Hpn, Hd, Hsl in *. destruct (disp p); [by rewrite orb_true_r|done].
  - intros Hr d E. rewrite Er in Hr. apply lookup_insert_Some in E as [[-> ->]|[_ E]].
    + destruct Hsl as [|[_ ?]]; [done|congruence].
    + eapply Hstop; [exact E|by left|]. by eapply H3.
  - intros Hr d k E. apply lookup_insert_Some in E as [[-> ->]|[_ E]].
    + destruct Hds; [done|congruence].
    + destruct Hdr as [Hdr|Hno]; [|by destruct (Hno d k)]. eapply Hstop; [exact E|by right|]. eauto.
Qed.

(** The common case: the thread does not sleep, notifies nobody, and the queue does not grow. *)
Lemma awake_step b b' m t p p' :
  awake b m → m !! t = Some p → pc_ok p' = true →
  running b' = running b → dispatcher b' = dispatcher b → (queue b' ≠ [] → queue b ≠ []) →
  (drained b' = true → drained b = true) → disp p' = disp p →
  sleeping p' = false → drain_sleeping p' = false → pub_notifying p = false → stop_notifying p = false →
  awake b' (<[t := p']> m).
Proof. intros. eapply awake_move; eauto. Qed.

Lemma unsubscribe_same id b :
  running (unsubscribe_locked id b) = running b ∧ dispatcher (unsubscribe_locked id b) = dispatcher b ∧
  queue (unsubscribe_locked id b) = queue b ∧ drained (unsubscribe_locked id b) = drained b.
Proof.
  unfold unsubscribe_locked. destruct (id =? 0); [done|]. destruct (list_find _ _) as [[? ?]|]; [|done].
  cbv zeta. by destruct (primary_id _ =? id).
Qed.

Lemma publish_same_phase e b :
  running (publish_locked e b).2 = running b ∧ dispatcher (publish_locked e b).2 = dispatcher b ∧
  dispatching (publish_locked e b).2 = dispatching b ∧
  ((publish_locked e b).1 = true → queue (publish_locked e b).2 ≠ []) ∧
  ((publish_locked e b).1 = false → queue (publish_locked e b).2 = queue b).
Proof.
  unfold publish_locked.
  repeat (destruct (_ && _) || destruct (list_find _ _) as [[? ?]|] || destruct (droppable _)); cbn;
    split_and!; try done; intros _ ?%app_eq_nil; naive_solver.
Qed.

(** [enqueue]: the publisher that queued the event is about to notify. *)
Lemma awake_enqueue b m t e k :
  awake b m → m !! t = Some (PubLock e k) →
  let '(queued, b') := publish_locked e b in
  awake b' (<[t := if queued then PubNotify k else k]> m).
Proof.
  intros Ha Hp. pose proof (aw_conts _ _ Ha _ _ Hp) as Hk. apply cont_quiet in Hk as (Hsl & Hdr & Hok).
  pose proof (publish_same_phase e b) as (Er & Ed & Eg & Ht & Hf).
  destruct (publish_locked e b) as [queued b']. cbn in *. destruct queued.
  - specialize (Ht eq_refl). pose proof (aw_conts _ _ Ha _ _ Hp) as Hk. destruct Ha as [H0 H1 H2 H3 H4]. split.
    + intros t0 q E. apply lookup_insert_Some in E as [[_ <-]|[_ E]]; [done|by eapply H0].
    + intros d Hd. rewrite Ed in Hd. destruct (H1 d Hd) as (q & E & Hq).
      destruct (decide (t = d)) as [->|]; [|exists q; by rewrite lookup_insert_ne].
      exists (PubNotify k). rewrite lookup_insert_eq. split; [done|]. rewrite Hp in E. by injection E as <-.
    + intros _ _. exists t, (PubNotify k). by rewrite lookup_insert_eq.
    + intros Hr d E. apply lookup_insert_Some in E as [[_ [=]]|[_ E]]. rewrite Er in Hr.
      destruct (H3 Hr d E) as (t0 & q & E0 & Hq). exists t0, q. rewrite lookup_insert_ne; [done|].
      intros ->. rewrite Hp in E0. by injection E0 as <-.
    + intros Hr d k' E. apply lookup_insert_Some in E as [[_ [=]]|[_ E]].
      unfold drained in Hr. rewrite bool_decide_eq_false_2, Er in Hr by done.
      assert (drained b = true) as Hdb by (unfold drained; cbn in Hr; by rewrite Hr, orb_true_r).
      destruct (H4 Hdb d k' E) as (t0 & q & E0 & Hq). exists t0, q. rewrite lookup_insert_ne; [done|].
      intros ->. rewrite Hp in E0. by injection E0 as <-.
  - eapply awake_step; [exact Ha|exact Hp|..]; try done; [by rewrite Hf|].
    unfold drained. by rewrite Hf, Er, Eg.
Qed.

(** Waking everybody leaves nobody asleep, so nothing is pending. *)
Lemma disp_wake_queue p : disp (wake_queue p) = disp p.
Proof. by destruct p. Qed.
Lemma disp_wake_drain p : disp (wake_drain p) = disp p.
Proof. by destruct p. Qed.

Lemma awake_notify b m w :
  (w = wake_queue ∨ w = wake_drain) → awake b m → awake b (w <$> m).
Proof.
  intros Hw [H0 H1 H2 H3 H4].
  assert (∀ p, disp (w p) = disp p) as Hd by (destruct Hw as [-> | ->]; auto using disp_wake_queue, disp_wake_drain).
  assert (∀ p, attending p = true → attending (w p) = true) as Hat.
  { intros p. unfold attending. rewrite Hd. destruct Hw as [-> | ->]; by destruct p. }
  assert (∀ p, stop_notifying p = true → stop_notifying (w p) = true) as Hst.
  { intros p. destruct Hw as [-> | ->]; by destruct p. }
  assert (∀ P Q, (∀ p, P p = true → Q (w p) = true) →
    (∃ t p, m !! t = Some p ∧ P p = true) → ∃ t p, (w <$> m) !! t = Some p ∧ (Q p : bool) = true) as Hmap.
  { intros P Q HPQ (t & p & E & HP). exists t, (w p). rewrite lookup_fmap, E. split; [done|]. by apply HPQ. }
  split.
  - intros t p E. rewrite lookup_fmap in E. destruct (m !! t) as [q|] eqn:Eq; [|done]. injection E as <-.
    specialize (H0 _ _ Eq). destruct Hw as [-> | ->]; by destruct q.
  - intros d Hdd. destruct (H1 d Hdd) as (p & E & Hp). exists (w p). rewrite lookup_fmap, E.
    split; [done|]. by rewrite Hd.
  - intros Hq Hr. eapply Hmap; [exact Hat|]. by apply H2.
  - intros Hr d E. rewrite lookup_fmap in E. destruct (m !! d) as [p|] eqn:Ep; [|done]. injection E as E.
    eapply Hmap; [exact Hst|]. apply (H3 Hr d). destruct Hw as [-> | ->]; destruct p; try done.
  - intros Hr d k E. rewrite lookup_fmap in E. destruct (m !! d) as [p|] eqn:Ep; [|done]. injection E as E.
    eapply Hmap; [exact Hst|]. destruct Hw as [-> | ->]; destruct p; try done; injection E as ->; by eapply H4.
Qed.

Lemma awake_start b m n t p k :
  awake b m → m !! n = None → m !! t = Some p → cont_ok k = true → disp k = disp p → pub_notifying p = false →
  stop_notifying p = false → running b = false → awake (start_locked n b) (<[t := k]> (<[n := DTop]> m)).
Proof.
  intros [H0 H1 H2 H3 H4] Hn Hp Hk Hd Hpn Hsn Hr. apply cont_quiet in Hk as (Hsl & Hdr & Hok).
  unfold start_locked. rewrite Hr. assert (n ≠ t) as Hnt by congruence.
  eapply awake_step with (p := p); try done; [|by rewrite lookup_insert_ne]. split; cbn.
  - intros t0 q E. apply lookup_insert_Some in E as [[_ <-]|[_ E]]; [done|by eapply H0].
  - intros d [= <-]. exists DTop. by rewrite lookup_insert_eq.
  - intros _ _. exists n, DTop. by rewrite lookup_insert_eq.
  - done.
  - intros _ d k' E. apply lookup_insert_Some in E as [[_ [=]]|[_ E]].
    assert (drained b = true) as Hdb by (unfold drained; by rewrite Hr, orb_true_r).
    destruct (H4 Hdb d k' E) as (t0 & q & E0 & Hq). exists t0, q. rewrite lookup_insert_ne; [done|congruence].
Qed.

Lemma awake_stop b m t w k :
  awake b m → m !! t = Some k → cont_ok k = true → awake (set_running false None b) (<[t := StopNotify w k]> m).
Proof.
  intros [H0 H1 H2 H3 H4] Hp Hk.
  assert (∃ t0 q, <[t := StopNotify w k]> m !! t0 = Some q ∧ stop_notifying q = true) as Hst.
  { exists t, (StopNotify w k). by rewrite lookup_insert_eq. }
  split; try done. intros t0 q E. apply lookup_insert_Some in E as [[_ <-]|[_ E]]; [done|by eapply H0].
Qed.

(** After both [notify_all]s nobody sleeps. *)
Lemma awake_stop_notify b m t w k :
  awake b m → m !! t = Some (StopNotify w k) →
  awake b (<[t := StopJoin w k]> (wake_drain <$> (wake_queue <$> m))).
Proof.
  intros Ha Hp. pose proof (aw_conts _ _ Ha _ _ Hp) as Hk.
  eapply awake_move with (p := StopNotify w k); try done; try (by left).
  - apply awake_notify, awake_notify; [by right|by left|done].
  - by rewrite !lookup_fmap, Hp.
  - right. intros d q E. rewrite !lookup_fmap in E. destruct (m !! d) as [p|]; [|done].
    injection E as <-. by destruct p.
Qed.

Lemma awake_notify_one b m t k wake m' :
  awake b m → running b = bool_decide (is_Some (dispatcher b)) → m !! t = Some (PubNotify k) →
  match wake with
  | Some d => m !! d = Some DSleep ∧ m' = <[d := DTop]> m
  | None => map_Forall (λ _ p, sleeping p = false) m ∧ m' = m
  end →
  awake b (<[t := k]> m').
Proof.
  intros Ha Hrun Hp Hw. pose proof (aw_conts _ _ Ha _ _ Hp) as Hk. pose proof (cont_quiet _ Hk) as (Hsl & Hdr & Hok).
  assert (awake b m' ∧ m' !! t = Some (PubNotify k) ∧
    (running b = true → ∃ t0 q, <[t := k]> m' !! t0 = Some q ∧ attending q = true)) as (Ha' & Hp' & Hat).
  { destruct wake as [d|].
    - destruct Hw as [Hd ->]. assert (d ≠ t) by congruence. split_and!.
      + eapply awake_step; eauto.
      + by rewrite lookup_insert_ne.
      + intros _. exists d, DTop. by rewrite lookup_insert_ne, lookup_insert_eq.
    - destruct Hw as [Hall ->]. split_and!; [done..|]. intros Hr. rewrite Hrun, bool_decide_eq_true in Hr.
      destruct Hr as [d Hd]. destruct (aw_dispatcher _ _ Ha d Hd) as (q & E & Hq).
      destruct (decide (t = d)) as [->|].
      + exists d, k. rewrite lookup_insert_eq. split; [done|]. unfold attending. rewrite Hp in E.
        injection E as <-. cbn in Hq. rewrite Hq, Hsl. by rewrite orb_true_r.
      + exists d, q. rewrite lookup_insert_ne by done. split; [done|]. unfold attending.
        specialize (Hall _ _ E). cbn in Hall. rewrite Hq, Hall. by rewrite orb_true_r. }
  eapply awake_move; eauto.
Qed.
End wakeups.

Section no_lost_wakeup.
Context {H : Type}.
Implicit Types (b : @bus H) (st : @sys H) (p k : @pc H).

Definition sys_awake st : Prop := awake (the_bus st) (threads st).

Lemma fresh_tid st : inv st → threads st !! next_tid st = None.
Proof.
  intros Hi. destruct (threads st !! next_tid st) as [p|] eqn:E; [|done].
  apply (inv_tids _ Hi) in E. lia.
Qed.

Lemma publish_begin_quiet e now k b :
  cont_ok k = true →
  pc_ok (publish_begin e now k b) = true ∧ disp (publish_begin e now k b) = disp k ∧
  sleeping (publish_begin e now k b) = false ∧ drain_sleeping (publish_begin e now k b) = false.
Proof. intros Hk. unfold publish_begin. destruct (wants _ _); [done|]. by destruct k. Qed.

Lemma awake_do_start t p k st :
  inv st → sys_awake st → threads st !! t = Some p → cont_ok k = true → disp k = disp p →
  pub_notifying p = false → stop_notifying p = false → sys_awake (do_start t k st).
Proof.
  intros Hi Ha Hp Hk Hd Hpn Hsn. unfold do_start. pose proof (cont_quiet _ Hk) as (? & ? & ?).
  destruct (running (the_bus st)) eqn:Er.
  - eapply awake_step; eauto.
  - eapply awake_start; eauto using fresh_tid.
Qed.

Lemma awake_begin_call t c k st :
  inv st → sys_awake st → threads st !! t = Some k → cont_ok k = true →
  pub_notifying k = false → stop_notifying k = false → sys_awake (begin_call t c k st).
Proof.
  intros Hi Ha Hp Hk Hpn Hsn. pose proof (cont_quiet _ Hk) as (? & ? & ?).
  assert (∀ b' p', pc_ok p' = true → disp p' = disp k → sleeping p' = false → drain_sleeping p' = false →
    running b' = running (the_bus st) → dispatcher b' = dispatcher (the_bus st) →
    queue b' = queue (the_bus st) → drained b' = drained (the_bus st) → sys_awake (goto t p' b' st)) as Hgo.
  { intros b' p' ???? Er Ed Eq Edr. eapply awake_step; try done; cbn; by rewrite ?Eq, ?Edr. }
  destruct c as [e now|[h|] mask|id|h mask|n|n| | |]; cbn.
  - destruct (publish_begin_quiet e now k (the_bus st) Hk) as (? & ? & ? & ?). by apply (Hgo (the_bus st)).
  - by apply Hgo.
  - by apply (Hgo (the_bus st)).
  - destruct (unsubscribe_same id (the_bus st)) as (? & ? & ? & ?). by apply Hgo.
  - by apply (Hgo (the_bus st)).
  - by apply Hgo.
  - by apply Hgo.
  - by eapply awake_do_start.
  - destruct (running (the_bus st)) eqn:Er; [|by apply (Hgo (the_bus st))].
    pose proof (ok_dispatcher _ (inv_bus _ Hi)) as Hd. rewrite Er in Hd.
    destruct (dispatcher (the_bus st)) as [w|]; [by apply awake_stop|done].
  - by apply (Hgo (the_bus st)).
Qed.

Lemma awake_take t st :
  inv st → sys_awake st → threads st !! t = Some DTop → sys_awake (take_step t st).
Proof.
  intros Hi Ha Hp. unfold take_step. destruct (take_event (the_bus st)) as [[[[e l] r] b']|] eqn:E.
  - unfold take_event in E. destruct (queue (the_bus st)) as [|x q] eqn:Eq; [done|].
    injection E as <- <- <- <-. eapply awake_step; try done; cbn; [by rewrite Eq|].
    unfold drained. cbn. rewrite andb_false_r. cbn. intros ->. by rewrite orb_true_r.
  - assert (queue (the_bus st) = []) as Hq by (unfold take_event in E; by destruct (queue (the_bus st))).
    destruct (running (the_bus st)) eqn:Er.
    + eapply awake_move; try done; eauto.
    + eapply awake_move with (p := DTop); try done; eauto.
      * apply awake_notify; [by right|exact Ha].
      * cbn. by rewrite lookup_fmap, Hp.
      * right. split; [done|]. pose proof (ok_dispatcher _ (inv_bus _ Hi)) as Hd. rewrite Er in Hd.
        symmetry in Hd. apply bool_decide_eq_false in Hd. by apply eq_None_not_Some.
Qed.

Lemma awake_finish t st :
  sys_awake st → threads st !! t = Some DFinish →
  let st' := goto t DTop (set_dispatching false (the_bus st)) st in
  sys_awake (if bool_decide (queue (the_bus st) = []) then notify_all wake_drain st' else st').
Proof.
  intros Ha Hp. cbv zeta. unfold sys_awake. case_bool_decide as Hq; cbn.
  - rewrite fmap_insert. cbn. eapply awake_move with (p := DFinish) (b := the_bus st); try done; try (by left).
    + apply awake_notify; [by right|exact Ha].
    + by rewrite lookup_fmap, Hp.
    + right. intros d k E. rewrite lookup_fmap in E. destruct (threads st !! d) as [p|]; [|done].
      injection E as E. by destruct p.
  - eapply awake_step; try done. unfold drained. cbn. by rewrite bool_decide_eq_false_2 by done.
Qed.

Lemma awake_run t p now wake st st' :
  inv st → sys_awake st → threads st !! t = Some p → run_step t p now wake st = Some st' → sys_awake st'.
Proof.
  intros Hi Ha Hp E. pose proof (aw_conts _ _ Ha _ _ Hp) as Hok.
  destruct p; cbn in E; try done; try (pose proof (cont_quiet _ Hok) as (? & ? & ?)).
  - injection E as <-. unfold enqueue_step. pose proof (awake_enqueue _ _ _ _ _ Ha Hp) as He.
    destruct (publish_locked e (the_bus st)) as [q b']. exact He.
  - unfold notify_one in E. destruct wake as [d|].
    + destruct (threads st !! d) as [[]|] eqn:Ed; try done. injection E as <-.
      apply (awake_notify_one _ _ _ _ (Some d) _ Ha (ok_dispatcher _ (inv_bus _ Hi)) Hp). done.
    + case_bool_decide as Hall; [|done]. injection E as <-.
      apply (awake_notify_one _ _ _ _ None _ Ha (ok_dispatcher _ (inv_bus _ Hi)) Hp). done.
  - injection E as <-. by eapply awake_do_start.
  - injection E as <-. destruct (unsubscribe_same old (the_bus st)) as (E1 & E2 & E3 & E4).
    eapply awake_step; try done; cbn; rewrite ?E3, ?E4; done.
  - destruct h as [h|]; injection E as <-; by eapply awake_step.
  - injection E as <-. by eapply awake_step.
  - injection E as <-. by apply awake_stop_notify.
  - case_bool_decide; [injection E as <-; exact Ha|].
    destruct (threads st !! worker) as [[]|]; try done. injection E as <-. by eapply awake_step.
  - injection E as <-. destruct (drained (the_bus st)) eqn:Ed; [by eapply awake_step|].
    eapply awake_move; try done; eauto.
  - injection E as <-. by apply awake_take.
  - destruct todo as [|s todo]; injection E as <-; [|by eapply awake_step].
    destruct (0 <? report); [|by eapply awake_step].
    destruct (publish_begin_quiet (overflow_error report) now DFinish (the_bus st) eq_refl) as (? & ? & ? & ?).
    by eapply awake_step.
  - injection E as <-. by apply awake_finish.
Qed.

Lemma awake_step_sys t a st st' : inv st → sys_awake st → step t a st = Some st' → sys_awake st'.
Proof.
  intros Hi Ha E. unfold step in E. destruct (terminated st); [done|].
  destruct (threads st !! t) as [p|] eqn:Hp; [|done].
  destruct a; [|by eapply awake_run| | |].
  - destruct p; try done; injection E as <-; by apply awake_begin_call.
  - destruct p; try done; injection E as <-; by eapply awake_step.
  - destruct p; try done; injection E as <-.
    destruct (publish_begin_quiet (handler_error e what) now (DNext e todo report) (the_bus st) eq_refl)
      as (? & ? & ? & ?). by eapply awake_step.
  - destruct p; try done; injection E as <-; pose proof (aw_conts _ _ Ha _ _ Hp); by eapply awake_step.
Qed.

Lemma awake_init n : sys_awake (@init H n).
Proof.
  assert (∀ t p, threads (@init H n) !! t = Some p → p = Idle) as Hidle.
  { intros t p E. cbn in E. apply elem_of_list_to_map_2, list_elem_of_fmap in E as (t' & [= _ ->] & _). done. }
  split; cbn; try done.
  - by intros t p ->%Hidle.
  - intros _ d E%Hidle. done.
  - intros _ d k E%Hidle. done.
Qed.

Lemma reachable_awake n st : reachable n st → sys_awake st.
Proof. induction 1; eauto using awake_init, awake_step_sys, reachable_inv. Qed.

(** C33. No wake-up is lost.  In every reachable state: while the bus runs and the queue is
    not empty, some dispatcher is awake or some publisher is about to wake one; a dispatcher
    asleep on a stopped bus, or a [drain()] asleep although it may return, is about to be
    woken by the thread inside [stop()]. *)
Theorem event_bus_no_lost_wakeup n st :
  reachable n st →
  let b := the_bus st in
  let someone P := ∃ t p, threads st !! t = Some p ∧ P p = true in
  (queue b ≠ [] → running b = true → someone attending) ∧
  (running b = false → (∃ d, threads st !! d = Some DSleep) → someone stop_notifying) ∧
  (drained b = true → (∃ d k, threads st !! d = Some (DrainSleep k)) → someone stop_notifying).
Proof.
  intros Hr. destruct (reachable_awake _ _ Hr) as [_ _ H2 H3 H4]. cbv zeta. split_and!; [done| |].
  - intros Hrun [d E]. by eapply H3.
  - intros Hdr (d & k & E). by eapply H4.
Qed.
End no_lost_wakeup.

(** ** The overflow policy *)

Section overflow.
Context {H : Type}.
Implicit Types (b : @bus H).

Definition full b : Prop := 0 < queue_limit b ≤ llen (queue b).
Definition critical (e : Event) : Prop := droppable (ev_type e) = false.

(** The overflow policy of [publish].  Below the limit the event is appended.  At the
    limit exactly one event is lost and counted: the oldest progress or heartbeat event of
    the queue if there is one, else the new event if it is such an event, else the oldest
    event of the queue.  The queue never grows past the larger of its limit and its length. *)
Theorem publish_overflow_policy e b :
  let b' := (publish_locked e b).2 in
  (¬ full b → queue b' = queue b ++ [e] ∧ dropped_total b' = dropped_total b) ∧
  (full b → dropped_total b' = dropped_total b + 1 ∧ dropped_pending b' = dropped_pending b + 1 ∧
    ((∃ l v l', queue b = l ++ v :: l' ∧ Forall critical l ∧ ¬ critical v ∧ queue b' = l ++ l' ++ [e]) ∨
     (Forall critical (queue b) ∧ ¬ critical e ∧ queue b' = queue b) ∨
     (Forall critical (queue b) ∧ critical e ∧ ∃ v q, queue b = v :: q ∧ queue b' = q ++ [e]))) ∧
  (0 < queue_limit b → llen (queue b') ≤ Z.max (llen (queue b)) (queue_limit b)).
Proof.
  cbv zeta. unfold publish_locked, full. pose proof (publish_count e b) as Hc.
  destruct ((0 <? queue_limit b) && (queue_limit b <=? llen (queue b))) eqn:Ef.
  - apply andb_true_iff in Ef as [E1%Z.ltb_lt E2%Z.leb_le]. split; [lia|].
    assert (dropped_total (publish_locked e b).2 = dropped_total b + 1) as Hd.
    { unfold publish_locked. rewrite (proj2 (Z.ltb_lt _ _) E1), (proj2 (Z.leb_le _ _) E2). cbn [andb].
      destruct (list_find _ _) as [[? ?]|]; [|destruct (droppable _)]; done. }
    unfold publish_locked in Hc, Hd. rewrite (proj2 (Z.ltb_lt _ _) E1), (proj2 (Z.leb_le _ _) E2) in Hc, Hd.
    cbn [andb] in Hc, Hd. split; [intros _|intros _; lia].
    destruct (list_find _ _) as [[i v]|] eqn:El.
    + cbn. split_and!; [done..|]. left. apply list_find_Some in El as (Hl & Hv & Hlt).
      exists (take i (queue b)), v, (drop (S i) (queue b)). split_and!.
      * by rewrite take_drop_middle.
      * apply Forall_lookup. intros j y Hy. apply lookup_take_Some in Hy as [Hy ?].
        unfold critical. apply not_true_is_false. by eapply Hlt.
      * unfold critical. by rewrite Hv.
      * rewrite delete_take_drop. by rewrite <- app_assoc.
    + assert (Forall critical (queue b)) as Hcr.
      { apply list_find_None in El. eapply Forall_impl; [exact El|]. intros x Hx. by apply not_true_is_false. }
      destruct (droppable (ev_type e)) eqn:Ed; cbn; (split_and!; [done..|]).
      * right; left. split_and!; try done. unfold critical. by rewrite Ed.
      * right; right. split_and!; try done. destruct (queue b) as [|v q]; [|by exists v, q].
        rewrite llen_nil in E2. lia.
  - unfold publish_locked in Hc. rewrite Ef in Hc. cbn in *. rewrite llen_app, llen_cons, llen_nil in *.
    apply andb_false_iff in Ef as [Ef%Z.ltb_ge|Ef%Z.leb_gt]; 
      (split_and!; [done|intros; lia|intros; rewrite ?llen_app, ?llen_cons, ?llen_nil; lia]).
Qed.
End overflow.

(** ** Stopping *)

Section stopping.
Context {H : Type}.
Implicit Types (b : @bus H) (st : @sys H) (p k : @pc H).

(** What handlers do when nothing interferes: return, or throw the given exception. *)
Variable behave : @Subscriber H → Event → option (option bytes).

Definition own_action p : @action H :=
  match p with
  | DBody s e _ _ => match behave s e with None => Return | Some what => Throw 0 what end
  | _ => Run 0 None
  end.

(** A dispatcher running by itself until it leaves its loop. *)
Fixpoint run_alone (fuel : nat) (d : nat) st : option sys :=
  match threads st !! d with
  | Some Exited => Some st
  | Some p =>
      match fuel with
      | O => None
      | S fuel => st' ← step d (own_action p) st; run_alone fuel d st'
      end
  | None => None
  end.

Variable d : nat.

Definition ends st : Prop :=
  ∃ fuel st', run_alone fuel d st = Some st' ∧ threads st' !! d = Some Exited ∧
    queue (the_bus st') = [] ∧ terminated st' = false.

Lemma ends_step p st st' :
  threads st !! d = Some p → p ≠ Exited → step d (own_action p) st = Some st' → ends st' → ends st.
Proof.
  intros Hp Hne Hs (fuel & st'' & Hr & He). exists (S fuel), st''. split; [|done].
  cbn [run_alone]. rewrite Hp. destruct p; try done; rewrite Hs; exact Hr.
Qed.

Definition stopped st : Prop :=
  terminated st = false ∧ running (the_bus st) = false ∧
  map_Forall (λ _ p, sleeping p = false) (threads st).

Lemma stopped_at p st : stopped st → sleeping p = false → stopped (at_pc d p st).
Proof. intros (Ht & Hr & Hs) Hp. split_and!; [done..|]. by apply map_Forall_insert_2. Qed.

Lemma at_pc_at_pc p p' st : at_pc d p' (at_pc d p st) = at_pc d p' st.
Proof. unfold at_pc. cbn. by rewrite insert_insert_eq. Qed.

(** One [publish] by the dispatcher itself. *)
Definition published (e : Event) b b' : Prop := b' = b ∨ b' = (publish_locked e b).2.

Lemma publish_ends e k st :
  stopped st → cont_ok k = true →
  (∀ st', stopped st' → threads st' !! d = Some k → published (stamped e 0) (the_bus st) (the_bus st') → ends st') →
  ends (at_pc d (publish_begin e 0 k (the_bus st)) st).
Proof.
  intros Hst Hk Hend. destruct (cont_quiet _ Hk) as (Hsl & _). unfold publish_begin.
  destruct (wants _ _).
  2:{ apply Hend; [by apply stopped_at|apply lookup_insert_eq|by left]. }
  pose proof (publish_same_phase (stamped e 0) (the_bus st)) as (Er & _).
  eapply ends_step; [apply lookup_insert_eq|done| |].
  { unfold step. cbn. rewrite lookup_insert_eq. destruct Hst as (-> & _). cbn. reflexivity. }
  unfold enqueue_step. cbn. destruct (publish_locked (stamped e 0) (the_bus st)) as [queued b'] eqn:E.
  cbn in Er. rewrite insert_insert_eq. destruct queued.
  - set (st1 := mkSys b' (<[d := PubNotify k]> (threads st)) (next_tid st) (terminated st)
      (accepted st ++ [stamped e 0]) (taken st)).
    assert (stopped st1) as Hst1.
    { destruct Hst as (? & ? & ?). split_and!; cbn; [done|congruence|]. by apply map_Forall_insert_2. }
    apply (ends_step (PubNotify k) st1 (at_pc d k st1)); [apply lookup_insert_eq|done| |].
    + unfold step. rewrite (proj1 Hst1). cbn. rewrite lookup_insert_eq. cbn.
      by rewrite bool_decide_eq_true_2 by apply Hst1.
    + apply Hend; [by apply stopped_at|apply lookup_insert_eq|]. right. cbn. by rewrite E.
  - apply Hend; cbn.
    + destruct Hst as (? & ? & ?). split_and!; cbn; [done|congruence|]. by apply map_Forall_insert_2.
    + by rewrite lookup_insert_eq.
    + right. by rewrite E.
Qed.

Definition ordinary (e : Event) : Prop := ev_type e ≠ EventType.InternalError.
#[local] Instance ordinary_dec e : Decision (ordinary e).
Proof. unfold ordinary. apply _. Defined.
Definition ordinary_count b : nat := length (filter ordinary (queue b)).

Lemma published_ordinary e b b' :
  ¬ ordinary e → published e b b' → (ordinary_count b' ≤ ordinary_count b)%nat.
Proof.
  intros He [->| ->]; [done|]. unfold ordinary_count, publish_locked.
  assert (∀ q, sublist q (queue b) → length (filter ordinary (q ++ [e])) ≤ length (filter ordinary (queue b)))%nat as Hq.
  { intros q Hq. rewrite filter_app, filter_cons_False, filter_nil, app_nil_r by done.
    by apply sublist_length, filter_sublist_mono. }
  destruct (_ && _); [|by apply Hq].
  destruct (list_find _ _) as [[i x]|]; [by apply Hq, sublist_delete|].
  destruct (droppable _); [done|]. apply Hq. cbn. destruct (queue b); [done|]. by constructor.
Qed.

Lemma stamped_type e now : ev_type (stamped e now) = ev_type e.
Proof. unfold stamped. by destruct (_ =? _). Qed.

Lemma report_not_ordinary e now : ev_type e = EventType.InternalError → ¬ ordinary (stamped e now).
Proof. unfold ordinary. rewrite stamped_type. naive_solver. Qed.

(** Handlers may throw, but not on the report of an internal error. *)
Hypothesis errors_handled : ∀ s e, ¬ ordinary e → behave s e = None.

Lemma published_empty e b b' : queue b = [] → published e b b' → dropped_pending b' = dropped_pending b.
Proof.
  intros Hq [->| ->]; [done|]. unfold publish_locked.
  assert (llen (queue b) = 0) as -> by (by rewrite Hq).
  destruct (Z.ltb_spec 0 (queue_limit b)) as [Hl|Hl]; cbn [andb]; [|done].
  by rewrite (proj2 (Z.leb_gt (queue_limit b) 0) Hl).
Qed.

(** What one round did to the bus after taking [e] with the report [r]. *)
Definition round (e : Event) (r : Z) b b' : Prop :=
  (ordinary_count b' ≤ ordinary_count b)%nat ∧
  (¬ ordinary e → r = 0 → queue b' = queue b ∧ dropped_pending b' = dropped_pending b) ∧
  (¬ ordinary e → queue b = [] → 0 ≤ dropped_pending b → dropped_pending b' ≤ dropped_pending b).

Lemma finish_ends st :
  stopped st → threads st !! d = Some DFinish →
  (∀ st', stopped st' → threads st' !! d = Some DTop → queue (the_bus st') = queue (the_bus st) →
     dropped_pending (the_bus st') = dropped_pending (the_bus st) → ends st') → ends st.
Proof.
  intros Hst Hp Hend. eapply ends_step; [exact Hp|done| |].
  { unfold step. rewrite (proj1 Hst), Hp. cbn. reflexivity. }
  assert (stopped (goto d DTop (set_dispatching false (the_bus st)) st)) as Hst'.
  { destruct Hst as (? & ? & ?). split_and!; cbn; [done..|]. by apply map_Forall_insert_2. }
  case_bool_decide.
  - apply Hend; cbn; [|by rewrite lookup_fmap, lookup_insert_eq|done..].
    destruct Hst' as (? & ? & Hs). split_and!; cbn in *; [done..|]. intros t p E.
    rewrite lookup_fmap in E. destruct (<[d := DTop]> (threads st) !! t) as [q|] eqn:Eq; [|done].
    injection E as <-. specialize (Hs _ _ Eq). by destruct q.
  - apply Hend; cbn; [done|by rewrite lookup_insert_eq|done..].
Qed.

Lemma loop_ends e r todo : ∀ st,
  stopped st → threads st !! d = Some (DNext e todo r) →
  (∀ st', stopped st' → threads st' !! d = Some DTop → round e r (the_bus st) (the_bus st') → ends st') →
  ends st.
Proof.
  induction todo as [|s todo IH]; intros st Hst Hp Hend.
  - eapply ends_step; [exact Hp|done| |].
    { unfold step. rewrite (proj1 Hst), Hp. cbn. reflexivity. }
    assert (∀ st1, stopped st1 → threads st1 !! d = Some DFinish →
      round e r (the_bus st) (the_bus st1) → ends st1) as Hfin.
    { intros st1 Hst1 Hp1 (R1 & R2 & R3). apply (finish_ends st1); [done..|].
      intros st2 Hst2 Hp2 Eq Ep. apply Hend; [done..|].
      unfold round, ordinary_count in *. by rewrite Eq, Ep. }
    destruct (Z.ltb_spec 0 r) as [Hr|Hr].
    + apply publish_ends; [done..|]. intros st1 Hst1 Hp1 Hpub. apply Hfin; [done..|]. split_and!.
      * eapply published_ordinary; [|exact Hpub]. by apply report_not_ordinary.
      * lia.
      * intros _ Hq Hpen. apply (published_empty _ _ _ Hq) in Hpub. lia.
    + apply Hfin; [by apply stopped_at|apply lookup_insert_eq|]. by split_and!.
  - eapply ends_step; [exact Hp|done| |].
    { unfold step. rewrite (proj1 Hst), Hp. cbn. reflexivity. }
    set (st1 := at_pc d (DBody s e todo r) st).
    assert (stopped st1) as Hst1 by (by apply stopped_at).
    assert (threads st1 !! d = Some (DBody s e todo r)) as Hp1 by apply lookup_insert_eq.
    destruct (behave s e) as [what|] eqn:Eb.
    + eapply ends_step; [exact Hp1|done| |].
      { unfold step. rewrite (proj1 Hst1), Hp1. cbn. rewrite Eb. reflexivity. }
      apply (publish_ends (handler_error e what) (DNext e todo r) st1); [done..|]. intros st2 Hst2 Hp2 Hpub. apply (IH st2); [done..|].
      intros st3 Hst3 Hp3 (R1 & _ & _). apply Hend; [done..|].
      apply published_ordinary in Hpub; [|by apply report_not_ordinary]. cbn in Hpub. split_and!; [lia|..].
      * intros He. by rewrite errors_handled in Eb.
      * intros He. by rewrite errors_handled in Eb.
    + eapply ends_step; [exact Hp1|done| |].
      { unfold step. rewrite (proj1 Hst1), Hp1. cbn. rewrite Eb. reflexivity. }
      apply (IH (at_pc d (DNext e todo r) st1)); [by apply stopped_at|apply lookup_insert_eq|done].
Qed.

Lemma stopped_ends st : stopped st → threads st !! d = Some DTop → ends st.
Proof.
  remember (ordinary_count (the_bus st)) as A eqn:EA. revert st EA.
  induction (lt_wf A) as [A _ IHA].
  intros st EA. remember (if 0 <? dropped_pending (the_bus st) then 1%nat else 0%nat) as B eqn:EB. revert st EA EB.
  induction (lt_wf B) as [B _ IHB].
  intros st EA EB. remember (length (queue (the_bus st))) as C eqn:EC. revert st EA EB EC.
  induction (lt_wf C) as [C _ IHC]. intros st EA EB EC Hst Hp.
  assert (step d (own_action DTop) st = Some (take_step d st)) as Hs.
  { unfold step. by rewrite (proj1 Hst), Hp. }
  eapply ends_step; [exact Hp|done|exact Hs|]. clear Hs. unfold take_step, take_event.
  destruct (queue (the_bus st)) as [|e q] eqn:Eq.
  { rewrite (proj1 (proj2 Hst)). exists 0%nat, (at_pc d Exited (notify_all wake_drain st)). cbn.
    rewrite !lookup_insert_eq. split_and!; try done. apply Hst. }
  set (due := (0 <? dropped_pending (the_bus st)) && bool_decide (q = [])). cbv zeta.
  set (b1 := set_dispatching true _).
  set (r := if due then dropped_pending (the_bus st) else 0).
  match goal with |- ends ?s => set (st1 := s) end.
  assert (stopped st1) as Hst1.
  { destruct Hst as (? & ? & ?). split_and!; cbn; [done..|]. by apply map_Forall_insert_2. }
  apply (loop_ends e r (snapshot_for (ev_type e) (subscribers (the_bus st)))); [done|apply lookup_insert_eq|].
  intros st2 Hst2 Hp2 (R1 & R2 & R3).
  assert (ordinary_count b1 + (if decide (ordinary e) then 1 else 0) = A)%nat as HA.
  { rewrite EA. unfold ordinary_count. rewrite Eq, filter_cons. cbn. case_decide; cbn; lia. }
  change (the_bus st1) with b1 in *.
  destruct (decide (ordinary_count (the_bus st2) < A)%nat) as [Hlt|Hge].
  { by apply (IHA _ Hlt st2). }
  assert (¬ ordinary e) as He by (case_decide; [lia|done]). rewrite decide_False in HA by done.
  assert (A = ordinary_count (the_bus st2)) as EA2 by lia.
  destruct due eqn:Edue.
  - apply andb_true_iff in Edue as [Hpos%Z.ltb_lt Hqn%bool_decide_eq_true].
    specialize (R3 He Hqn). cbn in R3. rewrite (proj2 (Z.ltb_lt _ _) Hpos) in EB.
    apply (IHB 0%nat ltac:(lia) st2); [done| |done|done].
    by rewrite (proj2 (Z.ltb_ge _ _)) by lia.
  - destruct (R2 He eq_refl) as [Hq2 Hpen2]. cbn in Hq2, Hpen2.
    apply (IHC (length q)); [subst C; cbn; lia|done| |by rewrite Hq2|done|done].
    by rewrite Hpen2.
Qed.
End stopping.

(** ** Other threads while one runs *)

Section others.
Context {H : Type}.
Implicit Types (b : @bus H) (st : @sys H) (p k : @pc H).

(** A thread that waits in [join] is moved by nobody else. *)
Lemma joining_notify wake st t w k :
  (wake = wake_queue ∨ wake = wake_drain) → threads st !! t = Some (StopJoin w k) →
  threads (notify_all wake st) !! t = Some (StopJoin w k).
Proof. intros Hw E. cbn. rewrite lookup_fmap, E. by destruct Hw as [-> | ->]. Qed.

Lemma joining_at st t t' p w k :
  t ≠ t' → threads st !! t = Some (StopJoin w k) → threads (at_pc t' p st) !! t = Some (StopJoin w k).
Proof. intros Hne E. cbn. by rewrite lookup_insert_ne. Qed.

Lemma joining_goto st t t' p b w k :
  t ≠ t' → threads st !! t = Some (StopJoin w k) → threads (goto t' p b st) !! t = Some (StopJoin w k).
Proof. intros. by apply joining_at. Qed.

Lemma joining_do_start st t t' k' w k :
  t ≠ t' → inv st → threads st !! t = Some (StopJoin w k) →
  threads (do_start t' k' st) !! t = Some (StopJoin w k).
Proof.
  intros Hne Hi E. unfold do_start. destruct (running _); [by apply joining_at|]. cbn.
  rewrite lookup_insert_ne by done. rewrite lookup_insert_ne; [done|].
  intros <-. rewrite (fresh_tid _ Hi) in E. done.
Qed.

#[local] Hint Resolve joining_at joining_goto joining_do_start joining_notify : joins.

Lemma joining_step t' a st st' t w k :
  t ≠ t' → inv st → threads st !! t = Some (StopJoin w k) → step t' a st = Some st' →
  threads st' !! t = Some (StopJoin w k).
Proof.
  intros Hne Hi E Hs. unfold step in Hs. destruct (terminated st); [done|].
  destruct (threads st !! t') as [p|] eqn:Hp; [|done]. destruct a.
  - assert (threads (begin_call t' c p st) !! t = Some (StopJoin w k)) as Hc.
    { destruct c as [| [|] | | | | | | |]; cbn [begin_call]; eauto with joins.
      destruct (running (the_bus st)); [destruct (dispatcher (the_bus st))|]; eauto with joins. }
    destruct p; try done; by injection Hs as <-.
  - destruct p; cbn in Hs; try done; try (solve [injection Hs as <-; eauto 9 with joins]).
    + injection Hs as <-. unfold enqueue_step. destruct (publish_locked _ _). cbn. by rewrite lookup_insert_ne.
    + unfold notify_one in Hs. destruct wake as [d|].
      * destruct (threads st !! d) as [[]|] eqn:Ed; try done. injection Hs as <-.
        apply joining_at; [done|]. apply joining_at; [congruence|done].
      * case_bool_decide; [|done]. injection Hs as <-. by apply joining_at.
    + destruct h; injection Hs as <-; by apply joining_at.
    + case_bool_decide; [by injection Hs as <-|].
      destruct (threads st !! worker) as [[]|]; try done. injection Hs as <-. by apply joining_at.
    + injection Hs as <-. unfold take_step. destruct (take_event _) as [[[[? ?] ?] ?]|]; cbn.
      * by rewrite lookup_insert_ne.
      * destruct (running (the_bus st)); eauto 6 with joins.
    + destruct todo; injection Hs as <-; by apply joining_at.
    + injection Hs as <-. case_bool_decide; eauto 6 with joins.
  - destruct p; try done; injection Hs as <-; by apply joining_at.
  - destruct p; try done; injection Hs as <-; by apply joining_at.
  - destruct p; try done; injection Hs as <-; by apply joining_at.
Qed.

Lemma joining_alone behave d fuel : ∀ st st' t w k,
  t ≠ d → inv st → threads st !! t = Some (StopJoin w k) → run_alone behave fuel d st = Some st' →
  threads st' !! t = Some (StopJoin w k).
Proof.
  induction fuel as [|fuel IH]; intros st st' t w k Hne Hi E Hr; cbn [run_alone] in Hr;
    destruct (threads st !! d) as [p|] eqn:Hp; try done.
  - destruct p; try done. by injection Hr as <-.
  - assert (p = Exited ∨ p ≠ Exited) as [-> |Hpe] by (destruct p; auto); [by injection Hr as <-|].
    destruct (step d (own_action behave p) st) as [st1|] eqn:Es.
    + eapply IH; [exact Hne| | |].
      * by eapply inv_step.
      * by eapply joining_step.
      * destruct p; try done; by rewrite Es in Hr.
    + destruct p; try done; by rewrite Es in Hr.
Qed.
End others.

(** [stop()] returns.  Once the bus is stopped and a thread waits in [join], the
    dispatcher it waits for, running by itself, delivers what is queued and leaves its loop
    after finitely many steps with an empty queue, and the join then succeeds; handlers may
    throw and the queue may overflow meanwhile, as long as no handler throws when it is
    given an [InternalError]. *)
Theorem stop_drains_queue {H} (behave : @Subscriber H → Event → option (option bytes)) n st t d k :
  reachable n st → stopped st → threads st !! t = Some (StopJoin d k) → threads st !! d = Some DTop →
  (∀ s e, ev_type e = EventType.InternalError → behave s e = None) →
  ∃ fuel st', run_alone behave fuel d st = Some st' ∧ queue (the_bus st') = [] ∧
    step t (Run 0 None) st' = Some (at_pc t k st').
Proof.
  intros Hr Hst Ht Hd Hb.
  destruct (stopped_ends behave d) with (st := st) as (fuel & st' & Hrun & He & Hq & Hterm); try done.
  { intros s e He. apply Hb. destruct (decide (ev_type e = EventType.InternalError)); [done|].
    by destruct He. }
  exists fuel, st'. split_and!; [done..|]. assert (t ≠ d) as Hne by congruence.
  assert (threads st' !! t = Some (StopJoin d k)) as Ht'.
  { eapply joining_alone; eauto using reachable_inv. }
  unfold step. rewrite Hterm, Ht'. cbn. rewrite bool_decide_eq_false_2 by done. by rewrite He.
Qed.

(** ** Traces *)

(** A bus restarted while [stop()] joins. *)
Section restart.
Context {H : Type}.
Implicit Types (st : @sys H) (p k : @pc H).

Definition no_stop (tr : list (nat * @action H)) : Prop := ∀ t, (t, Call Stop) ∉ tr.

Lemma publish_begin_disp e now k (b : @bus H) : disp (publish_begin e now k b) = disp k.
Proof. unfold publish_begin. by destruct (wants _ _). Qed.

Lemma disp_notify wake d p st :
  (wake = wake_queue ∨ wake = wake_drain) → threads st !! d = Some p → disp p = true →
  ∃ p', threads (notify_all wake st) !! d = Some p' ∧ disp p' = true.
Proof.
  intros Hw E Hd. exists (wake p). cbn. rewrite lookup_fmap, E. split; [done|].
  destruct Hw as [-> | ->]; by rewrite ?disp_wake_queue, ?disp_wake_drain.
Qed.

Definition alive d st : Prop := ∃ p, threads st !! d = Some p ∧ disp p = true.

Lemma alive_at d t p st : alive d st → (t = d → disp p = true) → alive d (at_pc t p st).
Proof.
  intros (q & E & Hq) Hp. destruct (decide (t = d)) as [->|].
  - exists p. cbn. rewrite lookup_insert_eq. auto.
  - exists q. cbn. by rewrite lookup_insert_ne.
Qed.

Lemma alive_notify wake d st : (wake = wake_queue ∨ wake = wake_drain) → alive d st → alive d (notify_all wake st).
Proof. intros Hw (p & E & Hp). by eapply disp_notify. Qed.

(** While the bus runs, no dispatcher leaves its loop. *)
Lemma alive_step d t a st st' :
  running (the_bus st) = true → a ≠ Call Stop → alive d st → step t a st = Some st' →
  running (the_bus st') = true ∧ alive d st'.
Proof.
  intros Hrun Ha Hd Hs. unfold step in Hs. destruct (terminated st); [done|].
  destruct (threads st !! t) as [p|] eqn:Hp; [|done].
  assert (t = d → disp p = true) as Hown.
  { intros ->. destruct Hd as (q & E & Hq). congruence. }
  assert (∀ b q, running b = true → (disp q = disp p) → running (the_bus (goto t q b st)) = true ∧
    alive d (goto t q b st)) as Hgo.
  { intros b q Hb Hq. split; [done|]. apply alive_at; [done|]. by rewrite Hq. }
  assert (∀ q, disp q = disp p → running (the_bus (at_pc t q st)) = true ∧ alive d (at_pc t q st)) as Hat.
  { intros q Hq. by apply (Hgo (the_bus st)). }
  assert (∀ k, disp k = disp p → running (the_bus (do_start t k st)) = true ∧ alive d (do_start t k st)) as Hst.
  { intros k Hk. unfold do_start. rewrite Hrun. by apply Hat. }
  destruct a.
  - assert (running (the_bus (begin_call t c p st)) = true ∧ alive d (begin_call t c p st)) as Hc.
    { destruct c as [| [|] | | | | | | |]; cbn [begin_call];
        try first [by apply Hat | by apply Hgo | by apply Hst | done].
      - apply Hat, publish_begin_disp.
      - apply Hgo; [|done]. by destruct (unsubscribe_same id (the_bus st)) as [-> _]. }
    destruct p; try done; by injection Hs as <-.
  - destruct p; cbn in Hs; try done; try (injection Hs as <-; first [by apply Hat | by apply Hgo | by apply Hst]).
    + injection Hs as <-. unfold enqueue_step. pose proof (publish_same_phase e (the_bus st)) as (Er & _).
      destruct (publish_locked _ _) as [q b']. cbn in Er. split; [cbn; congruence|].
      apply (alive_at d t _ (mkSys b' (threads st) _ _ _ _)); [done|]. intros E. destruct q; by apply Hown.
    + unfold notify_one in Hs. destruct wake as [d'|].
      * destruct (threads st !! d') as [[]|] eqn:Ed; try done. injection Hs as <-. split; [done|].
        apply alive_at; [|done]. by apply alive_at.
      * case_bool_decide; [|done]. injection Hs as <-. by apply Hat.
    + injection Hs as <-. apply Hgo; [|done]. by destruct (unsubscribe_same old (the_bus st)) as [-> _].
    + destruct h; injection Hs as <-; [by apply Hgo|by apply Hat].
    + injection Hs as <-. split; [done|]. apply alive_at; [|done]. apply alive_notify; [by right|].
      by apply alive_notify; [left|].
    + case_bool_decide; [injection Hs as <-; done|].
      destruct (threads st !! worker) as [[]|]; try done. injection Hs as <-. by apply Hat.
    + injection Hs as <-. apply Hat. by destruct (drained _).
    + injection Hs as <-. unfold take_step, take_event. destruct (queue (the_bus st)) as [|e q]; cbn.
      * rewrite Hrun. by apply Hat.
      * split; [done|]. by apply (alive_at d t _ (mkSys (the_bus st) (threads st) 0 false [] [])).
    + destruct todo; injection Hs as <-; [|by apply Hat]. apply Hat.
      destruct (0 <? report); by rewrite ?publish_begin_disp.
    + injection Hs as <-. case_bool_decide; [|by apply Hgo]. split; [done|].
      apply alive_notify; [by right|]. by apply (Hgo (set_dispatching false (the_bus st))).
  - destruct p; try done; injection Hs as <-; by apply Hat.
  - destruct p; try done; injection Hs as <-. apply Hat. by rewrite publish_begin_disp.
  - destruct p; try done; injection Hs as <-; by apply Hat.
Qed.

Lemma rejoined_forever tr : ∀ st st' t d k,
  no_stop tr → inv st → running (the_bus st) = true → t ≠ d → alive d st →
  threads st !! t = Some (StopJoin d k) → run_trace tr st = Some st' →
  threads st' !! t = Some (StopJoin d k).
Proof.
  induction tr as [|[t' a] tr IH]; intros st st' t d k Hns Hi Hrun Hne Hal Ht E; cbn in E.
  { by injection E as <-. }
  destruct (step t' a st) as [st1|] eqn:Es; [|done].
  assert (a ≠ Call Stop) as Ha by (intros ->; apply (Hns t'), elem_of_cons; by left).
  destruct (alive_step d t' a st st1 Hrun Ha Hal Es) as [Hrun1 Hal1].
  eapply IH; [|by eapply inv_step|exact Hrun1|exact Hne|exact Hal1| |exact E].
  - intros t0 Hin. apply (Hns t0), elem_of_cons. by right.
  - destruct (decide (t = t')) as [<-|Hnt]; [|exact (joining_step _ _ _ _ _ _ _ Hnt Hi Ht Es)].
    unfold step in Es. destruct (terminated st); [done|]. rewrite Ht in Es.
    destruct a; try done. cbn in Es. rewrite bool_decide_eq_false_2 in Es by done.
    destruct Hal as (p & Ep & Hp). rewrite Ep in Es. by destruct p.
Qed.
End restart.

(** Thread 0 stops the bus while thread 1 subscribes. *)
Definition race_trace : list (nat * @action nat) :=
  [ (0, Call (Subscribe (Some 7) (2 ^ 64 - 1)%Z)); (0, Run 0%Z None); (2, Run 0%Z None);
    (0, Call Stop); (0, Run 0%Z None);
    (1, Call (Subscribe (Some 8) (2 ^ 64 - 1)%Z)); (1, Run 0%Z None);
    (2, Run 0%Z None); (3, Run 0%Z None);
    (1, Call (Publish blank_event 5%Z)); (1, Run 0%Z None); (1, Run 0%Z (Some 2));
    (1, Call (Publish blank_event 6%Z)); (1, Run 0%Z None); (1, Run 0%Z (Some 3));
    (2, Run 0%Z None); (2, Run 0%Z None); (3, Run 0%Z None); (3, Run 0%Z None) ]%nat.

Definition race_state : @sys nat := default (init 2) (run_trace race_trace (init 2)).

(** ** A handler that fails on errors *)

Section endless.
Context {H : Type}.
Implicit Types (b : @bus H) (st : @sys H) (p k : @pc H).
Variable behave : @Subscriber H → Event → option (option bytes).
Variable s : @Subscriber H.
Variable d : nat.

Definition internal (e : Event) : Prop := ev_type e = EventType.InternalError.
Hypothesis always_throws : ∀ e, internal e → behave s e ≠ None.

Definition has_error b : Prop := ∃ e, e ∈ queue b ∧ internal e.

Lemma publish_has_error e b : internal e → has_error (publish_locked e b).2 ∧ (publish_locked e b).1 = true.
Proof.
  intros He. assert (droppable (ev_type e) = false) as Hd by (by rewrite He).
  unfold publish_locked. destruct (_ && _); [destruct (list_find _ _) as [[? ?]|]; [|rewrite Hd]|]; cbn;
    (split; [|done]); exists e; (split; [|done]); apply elem_of_app; right; by apply list_elem_of_singleton.
Qed.

(** What the dispatcher is about to do keeps an internal error in the queue. *)
Definition failing st : Prop :=
  match threads st !! d with
  | Some DTop | Some DFinish | Some (PubNotify (DNext _ _ _)) | Some (PubNotify DFinish) => has_error (the_bus st)
  | Some (DNext e todo _) => has_error (the_bus st) ∨ (internal e ∧ s ∈ todo)
  | Some (DBody s' e todo _) => has_error (the_bus st) ∨ (internal e ∧ (s' = s ∨ s ∈ todo))
  | Some (PubLock e (DNext _ _ _)) | Some (PubLock e DFinish) => internal e
  | _ => False
  end.

Definition registered b : Prop :=
  s ∈ subscribers b ∧ interested EventType.InternalError s ∧ wants EventType.InternalError b = true.

Lemma publish_registered e b : registered b → registered (publish_locked e b).2.
Proof.
  unfold publish_locked, registered, wants.
  repeat (destruct (_ && _) || destruct (list_find _ _) as [[? ?]|] || destruct (droppable _)); done.
Qed.

Definition endless st : Prop := stopped st ∧ registered (the_bus st) ∧ failing st.

Lemma endless_at p st st' :
  stopped st → registered (the_bus st') → running (the_bus st') = running (the_bus st) →
  terminated st' = terminated st → threads st' = <[d := p]> (threads st) → sleeping p = false →
  (threads st' !! d = Some p → failing st') → endless st'.
Proof.
  intros (Ht & Hr & Hs) Hreg Er Et Eth Hp Hf. split; [|split; [done|apply Hf; by rewrite Eth, lookup_insert_eq]].
  split; [congruence|split; [congruence|]]. rewrite Eth. by apply map_Forall_insert_2.
Qed.

Lemma stamped_internal e now : internal e → internal (stamped e now).
Proof. unfold internal. by rewrite stamped_type. Qed.

Lemma endless_publish e k st :
  stopped st → registered (the_bus st) → internal e → (k = DFinish ∨ ∃ e0 todo r, k = DNext e0 todo r) →
  endless (at_pc d (publish_begin e 0 k (the_bus st)) st).
Proof.
  intros Hst Hreg He Hk. unfold publish_begin. rewrite He, (proj2 (proj2 Hreg)).
  eapply (endless_at _ st); try done. unfold failing. cbn. intros ->.
  destruct Hk as [->|(e0 & todo & r & ->)]; by apply stamped_internal.
Qed.

Lemma endless_step st p :
  endless st → threads st !! d = Some p →
  p ≠ Exited ∧ ∃ st', step d (own_action behave p) st = Some st' ∧ endless st'.
Proof.
  intros (Hst & Hreg & Hf) Hp. unfold failing in Hf. rewrite Hp in Hf. unfold step.
  rewrite (proj1 Hst), Hp. destruct p; try done; (split; [done|]); cbn.
  - assert (internal e) as He by (by destruct p). destruct (publish_has_error e (the_bus st) He) as [Hq Hq1].
    eexists. split; [reflexivity|]. unfold enqueue_step. pose proof (publish_registered e _ Hreg) as Hreg'.
    pose proof (publish_same_phase e (the_bus st)) as (Er & _).
    destruct (publish_locked e (the_bus st)) as [q b']. cbn in *. subst q.
    eapply (endless_at _ st); try done. unfold failing. cbn. intros ->. by destruct p.
  - rewrite bool_decide_eq_true_2 by apply Hst. eexists. split; [reflexivity|].
    eapply (endless_at _ st); try done; [by destruct p|]. unfold failing. cbn. intros ->.
    destruct p; try done. by left.
  - eexists. split; [reflexivity|]. unfold take_step, take_event. destruct Hf as (e & He & Hin).
    destruct (queue (the_bus st)) as [|e1 q] eqn:Eq; [by apply elem_of_nil in He|].
    eapply (endless_at _ st); try done. unfold failing. cbn. intros ->.
    apply elem_of_cons in He as [->|He]; [right|left; by exists e].
    split; [done|]. rewrite Hin. apply snapshot_for_spec. split; apply Hreg.
  - destruct todo as [|s1 todo].
    + eexists. split; [reflexivity|]. destruct (0 <? report).
      * apply endless_publish; [done..|by left].
      * eapply (endless_at _ st); try done. unfold failing. cbn. intros ->.
        destruct Hf as [|[_ Hin]]; [done|by apply elem_of_nil in Hin].
    + eexists. split; [reflexivity|]. eapply (endless_at _ st); try done. unfold failing. cbn. intros ->.
      rewrite elem_of_cons in Hf. naive_solver.
  - destruct (behave s0 e) as [what|] eqn:Eb; (eexists; split; [reflexivity|]).
    + apply endless_publish; [done..|right; eauto].
    + eapply (endless_at _ st); try done. unfold failing. cbn. intros ->.
      destruct Hf as [|[He [->|Hin]]]; [by left| |by right]. by apply always_throws in He.
  - eexists. split; [reflexivity|].
    assert (endless (goto d DTop (set_dispatching false (the_bus st)) st)) as Hend.
    { eapply (endless_at _ st); try done. unfold failing. cbn. by intros ->. }
    case_bool_decide as Hq; [|done]. destruct Hf as (e & He & _). rewrite Hq in He. by apply elem_of_nil in He.
Qed.

Lemma endless_forever fuel : ∀ st, endless st → run_alone behave fuel d st = None.
Proof.
  induction fuel as [|fuel IH]; intros st He; cbn [run_alone];
    destruct (threads st !! d) as [p|] eqn:Hp; try done;
    destruct (endless_step st p He Hp) as (Hne & st' & Hs & He').
  - by destruct p.
  - destruct p; try done; rewrite Hs; by apply IH.
Qed.
End endless.

(** A handler that throws on an [InternalError] makes [stop()] wait for ever.  The
    exception of the handler is published as a new [InternalError], which the same handler
    receives in the next round: once such an event is queued on a stopped bus, the
    dispatcher never leaves its loop, whatever the number of its steps. *)
Theorem throwing_error_handler_never_stops {H} (behave : @Subscriber H → Event → option (option bytes)) n st d s :
  reachable n st → stopped st → threads st !! d = Some DTop → has_error (the_bus st) →
  s ∈ subscribers (the_bus st) → interested EventType.InternalError s →
  (∀ e, internal e → behave s e ≠ None) →
  ∀ fuel, run_alone behave fuel d st = None.
Proof.
  intros Hr Hst Hd He Hs Hin Hb fuel. apply (endless_forever behave s d Hb).
  destruct (inv_bus _ (reachable_inv _ _ Hr)) as [Hm _ _ _ _ _ _].
  split; [done|split; [split_and!; [done|done|apply wants_interested; eauto]|]].
  unfold failing. by rewrite Hd.
Qed.

(** ** Concrete runs *)

Definition all_events : Z := 2 ^ 64 - 1.
Definition event_of (t : EventType.event_type) : Event :=
  mkEvent t 1 [] 0 Command.Connect Phase.None Status.Ok [] 0 0 0 [] no_stats.

(** One subscriber, one dispatcher (thread 1) asleep. *)
Definition idle_trace : list (nat * @action nat) :=
  [ (0%nat, Call (Subscribe (Some 7%nat) all_events)); (0%nat, Run 0 None); (1%nat, Run 0 None) ].

(** An event is queued while the dispatcher sleeps; the publisher has not notified yet. *)
Definition wake_trace : list (nat * @action nat) :=
  idle_trace ++ [ (0%nat, Call (Publish (event_of EventType.ClientShutdown) 0)); (0%nat, Run 0 None) ].

(** Two critical events on a queue for one. *)
Definition critical_trace : list (nat * @action nat) :=
  [ (0%nat, Call (Subscribe (Some 7%nat) all_events)); (0%nat, Run 0 None); (0%nat, Call (SetQueueLimit 1));
    (0%nat, Call (Publish (event_of EventType.OperationFinished) 0)); (0%nat, Run 0 None); (0%nat, Run 0 None);
    (0%nat, Call (Publish (event_of EventType.OperationFailed) 0)); (0%nat, Run 0 None); (0%nat, Run 0 None) ].

(** An event is queued, then the bus is stopped before the dispatcher looks. *)
Definition stop_trace : list (nat * @action nat) :=
  [ (0%nat, Call (Subscribe (Some 7%nat) all_events)); (0%nat, Run 0 None);
    (0%nat, Call (Publish (event_of EventType.InternalError) 0)); (0%nat, Run 0 None); (0%nat, Run 0 None);
    (0%nat, Call Stop); (0%nat, Run 0 None) ].

(** [shutdown()] with a subscriber that stays registered, then [initialize()] without a
    primary handler, then an event. *)
Definition restart_trace : list (nat * @action nat) :=
  [ (0%nat, Call (Subscribe (Some 7%nat) all_events)); (0%nat, Run 0 None);
    (0%nat, Call Drain); (0%nat, Run 0 None);
    (0%nat, Call Stop); (0%nat, Run 0 None); (1%nat, Run 0 None); (0%nat, Run 0 None);
    (0%nat, Call (SetQueueLimit 10000)); (0%nat, Call (SetProgressInterval 200));
    (0%nat, Call (SetPrimary None all_events)); (0%nat, Run 0 None); (0%nat, Run 0 None);
    (0%nat, Call (Publish (event_of EventType.DeviceConnected) 0)); (0%nat, Run 0 None); (0%nat, Run 0 None) ].

Definition after (n : nat) (tr : list (nat * @action nat)) : @sys nat :=
  default (init n) (run_trace tr (init n)).

Lemma after_reachable n tr : is_Some (run_trace tr (init n)) → reachable n (after n tr).
Proof.
  intros [st E]. unfold after. rewrite E. cbn. eapply run_trace_reachable; [apply reach_init|exact E].
Qed.

(** Two subscribers, only the second interested in both events: the dispatcher has called
    both handlers for the first event and the second one for the second event. *)
Definition delivery_trace : list (nat * @action nat) :=
  [ (0%nat, Call (Subscribe (Some 7%nat) (event_bit EventType.DeviceConnected))); (0%nat, Run 0 None);
    (0%nat, Call (Subscribe (Some 8%nat) all_events)); (0%nat, Run 0 None);
    (0%nat, Call (Publish (event_of EventType.DeviceConnected) 0)); (0%nat, Run 0 None); (0%nat, Run 0 None);
    (0%nat, Call (Publish (event_of EventType.ClientShutdown) 0)); (0%nat, Run 0 None); (0%nat, Run 0 None);
    (1%nat, Run 0 None); (1%nat, Run 0 None); (1%nat, Return); (1%nat, Run 0 None); (1%nat, Return); (1%nat, Run 0 None);
    (1%nat, Run 0 None); (1%nat, Run 0 None); (1%nat, Run 0 None) ].

Lemma event_bus_fifo_witness :
  let h := history delivery_trace (init 1) in
  calls 1 h = owed 1 h ∧
  (λ c, (sub_handler c.1, ev_type c.2)) <$> calls 1 h =
    [(Some 7%nat, EventType.DeviceConnected); (Some 8%nat, EventType.DeviceConnected); (Some 8%nat, EventType.ClientShutdown)].
Proof.
  split; [|by vm_compute].
  assert (run_trace delivery_trace (init 1) = Some (after 1 delivery_trace)) as E by (by vm_compute).
  pose proof (proj1 (event_bus_fifo 1 delivery_trace _ E) 1%nat) as Hc.
  replace (left_of 1 (after 1 delivery_trace)) with (@nil (@Subscriber nat * Event)) in Hc by (by vm_compute).
  by rewrite app_nil_r in Hc.
Defined.

Lemma event_bus_no_lost_wakeup_witness :
  threads (after 1 wake_trace) !! 1%nat = Some DSleep ∧
  ∃ t p, threads (after 1 wake_trace) !! t = Some p ∧ attending p = true.
Proof.
  split; [by vm_compute|]. apply (event_bus_no_lost_wakeup 1); [|by vm_compute..].
  apply after_reachable. vm_compute. eauto.
Defined.

Lemma stopped_stop_trace : stopped (after 1 stop_trace).
Proof. split_and!; [done..|]. apply (bool_decide_unpack _). vm_compute. done. Qed.

Lemma stop_drains_queue_witness :
  ∃ fuel st', run_alone (λ _ _, None) fuel 1 (after 1 stop_trace) = Some st' ∧ queue (the_bus st') = [] ∧
    step 0 (Run 0 None) st' = Some (at_pc 0 Idle st').
Proof.
  apply (stop_drains_queue _ 1 _ 0 1 Idle); try done; [|apply stopped_stop_trace|by vm_compute..].
  apply after_reachable. vm_compute. eauto.
Defined.

Lemma throwing_error_handler_never_stops_witness :
  run_alone (λ _ _, Some None) 1000 1 (after 1 stop_trace) = None.
Proof.
  apply (throwing_error_handler_never_stops _ 1 _ 1 (mkSubscriber 1 all_events (Some 7%nat)));
    [apply after_reachable; vm_compute; eauto|apply stopped_stop_trace|by vm_compute|..]; try done.
  - exists (event_of EventType.InternalError). split; [|done].
    assert (queue (the_bus (after 1 stop_trace)) = [event_of EventType.InternalError]) as ->
      by (by vm_compute). by apply list_elem_of_singleton.
  - assert (subscribers (the_bus (after 1 stop_trace)) = [mkSubscriber 1 all_events (Some 7%nat)]) as ->
      by (by vm_compute). by apply list_elem_of_singleton.
Defined.

(** A restart during [stop()] leaves two dispatchers and a [stop()] that never returns.
    Thread 0 stops the bus and joins dispatcher 2; before dispatcher 2 looks again, thread 1
    subscribes, which starts dispatcher 3.  The same handler then runs in both dispatchers at
    once, and thread 0 stays in [join] in every continuation in which nobody stops the bus
    again. *)
Theorem stop_start_race :
  reachable 2 race_state ∧
  (∃ s e e' todo todo', threads race_state !! 2%nat = Some (DBody s e todo 0) ∧
     threads race_state !! 3%nat = Some (DBody s e' todo' 0)) ∧
  ∀ tr st', no_stop tr → run_trace tr race_state = Some st' →
    threads st' !! 0%nat = Some (StopJoin 2 Idle).
Proof.
  assert (reachable 2 race_state) as Hr by (apply after_reachable; vm_compute; eauto).
  split_and!; [done|do 5 eexists; split; by vm_compute|]. intros tr st' Hns E.
  eapply (rejoined_forever tr race_state); [done|by eapply reachable_inv|by vm_compute|done| |by vm_compute|done].
  eexists. split; by vm_compute.
Qed.

(** Critical events can be lost.  With a queue for one event, the event that an
    operation finished is published and accepted, and the next critical event throws it out
    of the queue before the dispatcher took it. *)
Theorem critical_event_lost :
  let st := after 1 critical_trace in
  let e := event_of EventType.OperationFinished in
  reachable 1 st ∧ critical e ∧ head (accepted st) = Some e ∧ Forall (λ x, ev_type x ≠ ev_type e) (taken st ++ queue (the_bus st)) ∧
  dropped_total (the_bus st) = 1.
Proof.
  split_and!; try (by vm_compute); [apply after_reachable; vm_compute; eauto|].
  vm_compute. constructor; [done|constructor].
Qed.

(** After a shutdown and a new initialization without a primary handler, the subscribers
    that are still registered get nothing: an event they are interested in is queued, but
    the bus is not running and no thread dispatches. *)
Theorem restarted_bus_does_not_dispatch :
  let st := after 1 restart_trace in
  reachable 1 st ∧ wants EventType.DeviceConnected (the_bus st) = true ∧
  queue (the_bus st) = [event_of EventType.DeviceConnected] ∧ running (the_bus st) = false ∧
  map_Forall (λ _ p, disp p = false) (threads st).
Proof.
  split_and!; try (by vm_compute); [apply after_reachable; vm_compute; eauto|].
  apply (bool_decide_unpack _). by vm_compute.
Qed.
