(* ===== verification/Client.v ===== *)
(** * Connections of libadb: slots, the device registry, connect and close

    Models the connection side of adb/lib/src/api/client.cpp ([SlotPool],
    [Client::connect], [Client::set_max_connections]), [Device::Impl::close] of device.cpp,
    and the registry of adb/lib/src/AdbManager.cpp ([hasDevice], [connectDevice],
    [disconnectDevice]).

    The process is a set of application threads that connect, close devices and change the
    limit at any time.  A thread is at one of the points of [point]; [cstep] performs one
    critical section, and the steps of different threads interleave freely.  A wait for a
    slot is a sleeping point that a notification, a spurious wake-up or the end of the time
    limit leaves.

    An [AdbDevice] is created by the [Device::Impl] that connects and is named by it.
    Whether the transport can be started and whether the device comes online is chosen by
    the environment; events and log lines are not recorded here. *)

From S2P Require Import Prelude Strings Libadb.

Record impl := mkImpl {
  address_key : bytes;
  i_device : bool;       (** [device] points to an AdbDevice *)
  i_closed : bool;
  release_slot : bool;   (** [release_slot] is not empty *)
  close_mutex : bool;
  handed : bool          (** [connect] has returned it: other threads may close it *)
}.

Definition set_i_device i := mkImpl (address_key i) true (i_closed i) (release_slot i) (close_mutex i) (handed i).
Definition set_i_closed i := mkImpl (address_key i) (i_device i) true (release_slot i) (close_mutex i) (handed i).
Definition set_release v i := mkImpl (address_key i) (i_device i) (i_closed i) v (close_mutex i) (handed i).
Definition set_mutex v i := mkImpl (address_key i) (i_device i) (i_closed i) (release_slot i) v (handed i).

Definition set_handed i := mkImpl (address_key i) (i_device i) (i_closed i) (release_slot i) (close_mutex i) true.

(** Where a thread is. *)
Inductive point :=
  | PIdle
  | PLookup (serial : bytes) (timeout : option Z)     (** before [hasDevice]; [None] is [ms::max()] *)
  | PAcquire (serial : bytes) (timeout : option Z)
  | PSleep (serial : bytes) (timeout : option Z)      (** in [cv_.wait] or [cv_.wait_for] *)
  | PRetry (serial : bytes) (timeout : option Z) (expired : bool)
  | PHold (serial : bytes)                            (** has a slot, no Impl yet *)
  | PConnect (i : nat)
  | POnline (i : nat)                                 (** in [wait_until_online] *)
  | PClose (i : nat)                                  (** before [close_mutex] is taken *)
  | PDisconnect (i : nat)
  | PRelease (i : nat)
  | PGive (i : nat)                                   (** [release()] was moved out and is called *)
  | PNotify (i : nat)
  | PUnlock (i : nat)
  | PNotifyAll.

Record client := mkClient {
  initialized : bool;
  default_port : Z;
  slot_limit : Z;
  slot_active : Z;
  devices : gmap bytes nat;
  impls : gmap nat impl;
  next_impl : nat;
  points : gmap nat point;
  statuses : gmap nat Status.status
}.

Definition c_at t p c :=
  mkClient (initialized c) (default_port c) (slot_limit c) (slot_active c) (devices c) (impls c) (next_impl c)
    (<[t := p]> (points c)) (statuses c).
Definition c_slots l a c :=
  mkClient (initialized c) (default_port c) l a (devices c) (impls c) (next_impl c) (points c) (statuses c).
Definition c_devices d c :=
  mkClient (initialized c) (default_port c) (slot_limit c) (slot_active c) d (impls c) (next_impl c) (points c) (statuses c).
Definition c_impl i v c :=
  mkClient (initialized c) (default_port c) (slot_limit c) (slot_active c) (devices c) (<[i := v]> (impls c))
    (next_impl c) (points c) (statuses c).
Definition c_status t s c :=
  mkClient (initialized c) (default_port c) (slot_limit c) (slot_active c) (devices c) (impls c) (next_impl c)
    (points c) (<[t := s]> (statuses c)).

(** ** SlotPool *)

Definition has_room (c : client) : bool := (slot_limit c =? 0) || (slot_active c <? slot_limit c).

(** The slot is taken; the thread goes on with it. *)
Definition acquired t serial c :=
  c_at t (PHold serial) (c_slots (slot_limit c) (slot_active c + 1) c).

(** [acquire] up to its wait. *)
Definition acquire_step t serial timeout c :=
  if has_room c then acquired t serial c else
  match timeout with
  | Some ms => if ms <=? 0 then c_at t PIdle (c_status t Status.SlotBusy c) else c_at t (PSleep serial timeout) c
  | None => c_at t (PSleep serial timeout) c
  end.

(** After a wake-up: the predicate decides, also when the time is over. *)
Definition retry_step t serial timeout (expired : bool) c :=
  if has_room c then acquired t serial c
  else if expired then c_at t PIdle (c_status t Status.SlotTimeout c)
  else c_at t (PSleep serial timeout) c.

Definition release_locked c :=
  c_slots (slot_limit c) (if 0 <? slot_active c then slot_active c - 1 else slot_active c) c.

Definition wake_slot (p : point) : point :=
  match p with PSleep serial timeout => PRetry serial timeout false | p => p end.
Definition slot_asleep (p : point) : bool := match p with PSleep _ _ => true | _ => false end.

Definition slot_notify_one (wake : option nat) c : option client :=
  match wake with
  | Some t =>
      match points c !! t with
      | Some (PSleep serial timeout) => Some (c_at t (PRetry serial timeout false) c)
      | _ => None
      end
  | None => if bool_decide (map_Forall (λ _ p, slot_asleep p = false) (points c)) then Some c else None
  end.
Definition slot_notify_all c :=
  mkClient (initialized c) (default_port c) (slot_limit c) (slot_active c) (devices c) (impls c) (next_impl c)
    (wake_slot <$> points c) (statuses c).

(** ** AdbManager's registry *)

(** [connectDevice(address, listener, &busy)] for a new device [i]: [None] when busy. *)
Definition connectDevice (address : bytes) (i : nat) (started : bool) c : option (bool * client) :=
  match devices c !! address with
  | Some _ => None
  | None => Some (started, if started then c_devices (<[address := i]> (devices c)) c else c)
  end.

(** [disconnectDevice(address, device)]: only the device that is registered. *)
Definition disconnectDevice (address : bytes) (i : nat) c : client :=
  if bool_decide (devices c !! address = Some i) then c_devices (delete address (devices c)) c else c.

(** ** connect and close *)

(** The Impl of a new connection: it owns the slot from here on. *)
Definition create_impl t serial c :=
  mkClient (initialized c) (default_port c) (slot_limit c) (slot_active c) (devices c)
    (<[next_impl c := mkImpl serial false false true false false]> (impls c)) (S (next_impl c))
    (<[t := PConnect (next_impl c)]> (points c)) (statuses c).

(** A refused or failed start marks the Impl closed; its destructor then calls [close()]. *)
Definition connect_step t i v (started : bool) c :=
  match connectDevice (address_key v) i started c with
  | None => c_at t (PClose i) (c_status t Status.DeviceBusy (c_impl i (set_i_closed v) c))
  | Some (true, c') => c_at t (POnline i) (c_impl i (set_i_device v) c')
  | Some (false, c') => c_at t (PClose i) (c_status t Status.ConnectFailed (c_impl i (set_i_closed v) c'))
  end.

(** Anything but [Ok] closes the connection; otherwise the caller gets the device. *)
Definition online_step t i v (waited : Status.status) c :=
  if bool_decide (waited = Status.Ok) then c_at t PIdle (c_status t waited (c_impl i (set_handed v) c))
  else c_at t (PClose i) (c_status t waited c).

(** [close()]: [closed.exchange(true)] decides whether the device is disconnected; the
    slot is given back in both cases. *)
Definition close_step t i v c :=
  if i_closed v then c_at t (PRelease i) (c_impl i (set_mutex true v) c)
  else c_at t (PDisconnect i) (c_impl i (set_i_closed (set_mutex true v)) c).

Definition disconnect_step t i v c :=
  c_at t (PRelease i) (if i_device v then disconnectDevice (address_key v) i c else c).

Definition release_step t i v c :=
  if release_slot v then c_at t (PGive i) (c_impl i (set_release false v) c) else c_at t (PUnlock i) c.

Inductive call :=
  | Connect (address : bytes) (slot_timeout : option Z)
  | Close (i : nat)
  | SetMaxConnections (limit : Z).

Inductive move :=
  | Begin (k : call)
  | Go (started : bool) (waited : Status.status) (wake : option nat)
      (** whether the transport can be started, and what [wait_until_online] returns *)
  | Expire                                    (** the time limit of a wait ends *)
  | Spurious.

Definition begin (t : nat) (k : call) (c : client) : client :=
  match k with
  | Connect address timeout =>
      if negb (initialized c) then c_status t Status.NotInitialized c else
      let serial := normalize_address address (default_port c) in
      if bool_decide (serial = []) then c_status t Status.InvalidArgument c
      else c_at t (PLookup serial timeout) c
  | Close i => c_at t (PClose i) c
  | SetMaxConnections limit => c_at t PNotifyAll (c_slots (u64 limit) (slot_active c) c)
  end.

Definition on_impl (i : nat) (c : client) (f : impl → client) : option client := f <$> impls c !! i.

Definition go (t : nat) (p : point) (started : bool) (waited : Status.status) (wake : option nat) (c : client) : option client :=
  match p with
  | PIdle | PSleep _ _ => None
  | PLookup serial timeout =>
      Some (if bool_decide (is_Some (devices c !! serial)) then c_at t PIdle (c_status t Status.DeviceBusy c)
            else c_at t (PAcquire serial timeout) c)
  | PAcquire serial timeout => Some (acquire_step t serial timeout c)
  | PRetry serial timeout expired => Some (retry_step t serial timeout expired c)
  | PHold serial => Some (create_impl t serial c)
  | PConnect i => on_impl i c (λ v, connect_step t i v started c)
  | POnline i =>
      on_impl i c (λ v, online_step t i v waited c)
  | PClose i =>
      v ← impls c !! i;
      if close_mutex v then None else Some (close_step t i v c)
  | PDisconnect i => on_impl i c (λ v, disconnect_step t i v c)
  | PRelease i => on_impl i c (λ v, release_step t i v c)
  | PGive i => Some (c_at t (PNotify i) (release_locked c))
  | PNotify i => c_at t (PUnlock i) <$> slot_notify_one wake c
  | PUnlock i => on_impl i c (λ v, c_at t PIdle (c_impl i (set_mutex false v) c))
  | PNotifyAll => Some (c_at t PIdle (slot_notify_all c))
  end.

Definition cstep (t : nat) (m : move) (c : client) : option client :=
  match points c !! t with
  | None => None
  | Some p =>
      match m, p with
      | Begin (Close i), PIdle =>
          v ← impls c !! i;
          if handed v then Some (begin t (Close i) c) else None
      | Begin k, PIdle => Some (begin t k c)
      | Go started waited wake, _ => go t p started waited wake c
      | Expire, PSleep serial (Some ms) => Some (c_at t (PRetry serial (Some ms) true) c)
      | Spurious, PSleep serial timeout => Some (c_at t (PRetry serial timeout false) c)
      | _, _ => None
      end
  end.

Definition client_init (threads port limit : Z) : client :=
  mkClient true port (u64 limit) 0 ∅ ∅ 0 (list_to_map ((λ t, (t, PIdle)) <$> seq 0 (Z.to_nat threads))) ∅.

Inductive creachable (threads port limit : Z) : client → Prop :=
  | creach_init : creachable threads port limit (client_init threads port limit)
  | creach_step c c' t m :
      creachable threads port limit c → cstep t m c = Some c' → creachable threads port limit c'.
