(* ===== verification/ClientInv.v ===== *)
(** * Connections of libadb: what holds in every interleaving

    Theorems about the model of Client.v.  [slots_ok] relates the counter of the slot pool
    to the threads and connections that own a slot and says that free slots are announced
    to sleepers; [reg_ok] relates the registry of addresses to the open connections.  Both
    are kept by every step ([ok_cstep]). *)

From S2P Require Import Prelude Strings Libadb Client.

(** ** The slots *)

(** A thread that has a slot in its hands; an Impl owns one through [release_slot]. *)
Definition holds (p : point) : bool := match p with PHold _ | PGive _ => true | _ => false end.
Definition awake_waiter (p : point) : bool := match p with PRetry _ _ _ => true | _ => false end.
Definition notifying (p : point) : bool := match p with PNotify _ => true | _ => false end.
Definition notifying_all (p : point) : bool := match p with PNotifyAll => true | _ => false end.

(** While a thread sleeps for a slot, every free slot has a wake-up on its way. *)
Definition room_waits (c : client) : Prop :=
  0 < mcount slot_asleep (points c) →
  0 < mcount notifying_all (points c) ∨
  (0 < slot_limit c ∧
   slot_limit c - slot_active c ≤ mcount notifying (points c) + mcount awake_waiter (points c)).

Record slots_ok (c : client) : Prop := {
  so_active : slot_active c = mcount holds (points c) + mcount release_slot (impls c);
  so_limit : 0 ≤ slot_limit c;
  so_room : room_waits c
}.

(** Counting the threads after thread [t] moved from the point [H] names. *)
Ltac counts H :=
  cbn [points impls slot_active slot_limit c_at c_slots c_status c_impl c_devices] in *;
  rewrite ?(mcount_insert _ _ _ _ _ H) in *;
  cbn [holds slot_asleep awake_waiter notifying notifying_all Z.b2z] in *.

Ltac nonneg c :=
  pose proof (mcount_nonneg holds (points c)); pose proof (mcount_nonneg release_slot (impls c));
  pose proof (mcount_nonneg slot_asleep (points c)); pose proof (mcount_nonneg notifying_all (points c));
  pose proof (mcount_nonneg notifying (points c)); pose proof (mcount_nonneg awake_waiter (points c)).

(** A thread moves between two points that neither hold, wait for nor give a slot. *)
Definition plain_point (p : point) : bool :=
  negb (holds p || slot_asleep p || awake_waiter p || notifying p || notifying_all p).

Lemma slots_move c c' t p p' :
  slots_ok c → points c !! t = Some p → plain_point p = true → plain_point p' = true →
  points c' = <[t := p']> (points c) → slot_active c' = slot_active c → slot_limit c' = slot_limit c →
  mcount release_slot (impls c') = mcount release_slot (impls c) → slots_ok c'.
Proof.
  intros [Ha Hl Hr] Hp H1 H2 Ep Ea El Ei. unfold plain_point in *. rewrite negb_true_iff, !orb_false_iff in *.
  destruct H1 as ((((h1 & h2) & h3) & h4) & h5), H2 as ((((h1' & h2') & h3') & h4') & h5').
  split; unfold room_waits in *; rewrite ?Ep, ?Ea, ?El, ?Ei, ?(mcount_insert _ _ _ _ _ Hp),
    ?h1, ?h2, ?h3, ?h4, ?h5, ?h1', ?h2', ?h3', ?h4', ?h5', ?Z.sub_0_r, ?Z.add_0_r; try done.
Qed.

(** The part of the state the slots depend on. *)
Lemma slots_ext c c' :
  slots_ok c → points c' = points c → impls c' = impls c → slot_active c' = slot_active c →
  slot_limit c' = slot_limit c → slots_ok c'.
Proof. intros [Ha Hl Hr] E1 E2 E3 E4. split; unfold room_waits; rewrite ?E1, ?E2, ?E3, ?E4; done. Qed.

Lemma slots_acquired c t p serial :
  slots_ok c → points c !! t = Some p → (∃ s o, p = PAcquire s o) ∨ (∃ s o e, p = PRetry s o e) →
  has_room c = true → slots_ok (acquired t serial c).
Proof.
  intros [Ha Hl Hr] Hp Hc Hroom. nonneg c. apply orb_true_iff in Hroom. rewrite Z.eqb_eq, Z.ltb_lt in Hroom.
  unfold acquired. split; unfold room_waits in *; destruct Hc as [(s & o & ->)|(s & o & e & ->)]; counts Hp; lia.
Qed.

Lemma slots_sleep c t p serial timeout :
  slots_ok c → points c !! t = Some p → (∃ s o, p = PAcquire s o) ∨ (∃ s o e, p = PRetry s o e) →
  has_room c = false → slots_ok (c_at t (PSleep serial timeout) c).
Proof.
  intros [Ha Hl Hr] Hp Hc Hroom. nonneg c. apply orb_false_iff in Hroom. rewrite Z.eqb_neq, Z.ltb_ge in Hroom.
  destruct Hc as [(s & o & ->)|(s & o & e & ->)].
  - split; unfold room_waits in *; counts Hp; lia.
  - pose proof (mcount_pos awake_waiter _ _ _ Hp eq_refl). split; unfold room_waits in *; counts Hp; lia.
Qed.

Lemma slots_give_up c t s o e st :
  slots_ok c → points c !! t = Some (PRetry s o e) → has_room c = false →
  slots_ok (c_at t PIdle (c_status t st c)).
Proof.
  intros [Ha Hl Hr] Hp Hroom. nonneg c. apply orb_false_iff in Hroom. rewrite Z.eqb_neq, Z.ltb_ge in Hroom.
  pose proof (mcount_pos awake_waiter _ _ _ Hp eq_refl). split; unfold room_waits in *; counts Hp; lia.
Qed.

Lemma slots_create c t serial :
  slots_ok c → points c !! t = Some (PHold serial) → impls c !! next_impl c = None →
  slots_ok (create_impl t serial c).
Proof.
  intros [Ha Hl Hr] Hp Hf. unfold create_impl. split; unfold room_waits in *; counts Hp; try lia.
  rewrite mcount_fresh by done. cbn. lia.
Qed.

Lemma slots_release c t i v :
  slots_ok c → points c !! t = Some (PRelease i) → impls c !! i = Some v → slots_ok (release_step t i v c).
Proof.
  intros Hs Hp Hv. unfold release_step. destruct (release_slot v) eqn:Er; [|by apply (slots_move c _ t (PRelease i) (PUnlock i))].
  destruct Hs as [Ha Hl Hr]. split; unfold room_waits in *; counts Hp; try lia.
  rewrite (mcount_insert _ _ _ _ _ Hv), Er. cbn. lia.
Qed.

Lemma slots_give c t i :
  slots_ok c → points c !! t = Some (PGive i) → slots_ok (c_at t (PNotify i) (release_locked c)).
Proof.
  intros [Ha Hl Hr] Hp. nonneg c. pose proof (mcount_pos holds _ _ _ Hp eq_refl) as Hpos.
  unfold release_locked. rewrite (proj2 (Z.ltb_lt 0 (slot_active c))) by lia.
  split; unfold room_waits in *; counts Hp; lia.
Qed.

Lemma slots_notify c t i wake c1 :
  slots_ok c → points c !! t = Some (PNotify i) → slot_notify_one wake c = Some c1 →
  slots_ok (c_at t (PUnlock i) c1).
Proof.
  intros [Ha Hl Hr] Hp E. nonneg c. unfold slot_notify_one in E. destruct wake as [d|].
  - destruct (points c !! d) as [[]|] eqn:Ed; try done. injection E as <-.
    assert (d ≠ t) as Hne by congruence.
    assert (<[d := PRetry serial timeout false]> (points c) !! t = Some (PNotify i)) as Hp'
      by (by rewrite lookup_insert_ne).
    split; unfold room_waits in *; counts Hp'; rewrite ?(mcount_insert _ _ _ _ _ Ed);
      cbn [holds slot_asleep awake_waiter notifying notifying_all Z.b2z] in *; lia.
  - case_bool_decide as Hall; [|done]. injection E as <-. apply mcount_none in Hall.
    split; unfold room_waits in *; counts Hp; lia.
Qed.

Lemma slots_notify_all c t :
  slots_ok c → points c !! t = Some PNotifyAll → slots_ok (c_at t PIdle (slot_notify_all c)).
Proof.
  intros [Ha Hl Hr] Hp. unfold slot_notify_all.
  assert ((wake_slot <$> points c) !! t = Some PNotifyAll) as Hp' by (by rewrite lookup_fmap, Hp).
  split; unfold room_waits; counts Hp'; try lia.
  - rewrite (mcount_fmap holds holds) by (by intros []). lia.
  - rewrite (mcount_fmap slot_asleep (λ _, false)) by (by intros []).
    rewrite (mcount_none (λ _ : point, false)) by (by intros ? ?). lia.
Qed.

(** ** The registry *)

(** The Impl a thread works on. *)
Definition refs (p : point) : option nat :=
  match p with
  | PConnect i | POnline i | PClose i | PDisconnect i | PRelease i | PGive i | PNotify i | PUnlock i => Some i
  | _ => None
  end.

(** What a program point knows of that Impl. *)
Definition point_ok (m : gmap nat impl) (p : point) : Prop :=
  match p with
  | PConnect i => ∃ v, m !! i = Some v ∧ i_device v = false ∧ i_closed v = false ∧ handed v = false
  | PDisconnect i => ∃ v, m !! i = Some v ∧ i_closed v = true
  | POnline i | PClose i | PRelease i | PGive i | PNotify i | PUnlock i => is_Some (m !! i)
  | _ => True
  end.

Definition open (c : client) (i : nat) (v : impl) : Prop :=
  impls c !! i = Some v ∧ i_device v = true ∧ i_closed v = false.

Record reg_ok (c : client) : Prop := {
  ro_fresh : ∀ i v, impls c !! i = Some v → (i < next_impl c)%nat;
  ro_points : ∀ t p, points c !! t = Some p → point_ok (impls c) p;
  ro_private : ∀ i v t t' p p', impls c !! i = Some v → handed v = false →
    points c !! t = Some p → refs p = Some i → points c !! t' = Some p' → refs p' = Some i → t = t';
  ro_registered : ∀ a i, devices c !! a = Some i →
    ∃ v, impls c !! i = Some v ∧ address_key v = a ∧ i_device v = true ∧
      (i_closed v = false ∨ ∃ t, points c !! t = Some (PDisconnect i));
  ro_open : ∀ i v, open c i v → devices c !! address_key v = Some i
}.

(** A thread moves on; the registry and the Impls stay. *)
Lemma reg_move c c' t p p' :
  reg_ok c → points c !! t = Some p → (∀ i, p ≠ PDisconnect i) → (refs p' = None ∨ refs p' = refs p) →
  point_ok (impls c) p' →
  points c' = <[t := p']> (points c) → impls c' = impls c → devices c' = devices c →
  next_impl c' = next_impl c → reg_ok c'.
Proof.
  intros [R1 R2 R3 R4 R5] Hp Hd Href Hok Ep Ei Ed En. split; rewrite ?Ei, ?En.
  - done.
  - intros t0 q E. rewrite Ep in E. apply lookup_insert_Some in E as [[_ <-]|[_ E]]; eauto.
  - intros i v t1 t2 p1 p2 Hv Hh E1 H1 E2 H2. rewrite Ep in E1, E2.
    assert (∀ t0 q, <[t := p']> (points c) !! t0 = Some q → refs q = Some i →
      ∃ q', points c !! t0 = Some q' ∧ refs q' = Some i) as Hold.
    { intros t0 q E Hq. apply lookup_insert_Some in E as [[<- <-]|[_ E]]; [|by eauto].
      exists p. split; [done|]. destruct Href as [Href|Href]; congruence. }
    destruct (Hold _ _ E1 H1) as (q1 & F1 & G1), (Hold _ _ E2 H2) as (q2 & F2 & G2). by eapply R3.
  - intros a i Ha. rewrite Ed in Ha. destruct (R4 a i Ha) as (v & Hv & Hk & Hdv & Hc).
    exists v. split_and!; try done. destruct Hc as [|[t0 E0]]; [by left|]. right. exists t0.
    rewrite Ep, lookup_insert_ne; [done|]. intros <-. rewrite Hp in E0. injection E0 as ->. by destruct (Hd i).
  - intros i v [Hv Ho]. rewrite Ed. apply R5. split; [by rewrite Ei in Hv|done].
Qed.

(** A thread updates the Impl it works on; the registry stays. *)
Lemma reg_impl c c' t p p' i v v' :
  reg_ok c → points c !! t = Some p → refs p = Some i → (∀ i, p ≠ PDisconnect i) →
  impls c !! i = Some v → (refs p' = Some i ∨ refs p' = None) → point_ok (<[i := v']> (impls c)) p' →
  address_key v' = address_key v → i_device v' = i_device v →
  (i_closed v = true → i_closed v' = true) → (handed v' = false → handed v = false) →
  (i_closed v = false → i_closed v' = true → i_device v = true → p' = PDisconnect i) →
  points c' = <[t := p']> (points c) → impls c' = <[i := v']> (impls c) → devices c' = devices c →
  next_impl c' = next_impl c → reg_ok c'.
Proof.
  intros [R1 R2 R3 R4 R5] Hp Hr Hd Hv Hr' Hok Hk Hdv Hcl Hh Hnew Ep Ei Ed En.
  assert (∀ j, is_Some (impls c !! j) → is_Some (<[i := v']> (impls c) !! j)) as Hsome.
  { intros j Hj. destruct (decide (i = j)) as [->|]; [by rewrite lookup_insert_eq|by rewrite lookup_insert_ne]. }
  split; rewrite ?Ei, ?En.
  - intros j u E. apply lookup_insert_Some in E as [[<- _]|[_ E]]; eauto.
  - intros t0 q E. rewrite Ep in E. apply lookup_insert_Some in E as [[_ <-]|[Hne E]]; [done|].
    specialize (R2 _ _ E). destruct q; cbn in *; try done; try (by apply Hsome).
    + destruct R2 as (u & Hu & ? & ? & ?). exists u. rewrite lookup_insert_ne; [done|]. intros <-.
      assert (u = v) as -> by congruence. by destruct Hne; eapply R3.
    + destruct R2 as (u & Hu & ?). destruct (decide (i = i0)) as [<-|].
      * exists v'. rewrite lookup_insert_eq. split; [done|]. apply Hcl. congruence.
      * exists u. by rewrite lookup_insert_ne.
  - intros j u t1 t2 p1 p2 Hu Hhu E1 H1 E2 H2. rewrite Ep in E1, E2.
    assert (∃ w, impls c !! j = Some w ∧ handed w = false) as (w & Hw & Hhw).
    { apply lookup_insert_Some in Hu as [[<- <-]|[_ Hu]]; eauto. }
    assert (∀ t0 q, <[t := p']> (points c) !! t0 = Some q → refs q = Some j →
      ∃ q', points c !! t0 = Some q' ∧ refs q' = Some j) as Hold.
    { intros t0 q E Hq. apply lookup_insert_Some in E as [[<- <-]|[_ E]]; [|by eauto].
      exists p. split; [done|]. destruct Hr'; congruence. }
    destruct (Hold _ _ E1 H1) as (q1 & F1 & G1), (Hold _ _ E2 H2) as (q2 & F2 & G2). by eapply R3.
  - intros a j Ha. rewrite Ed in Ha. destruct (R4 a j Ha) as (u & Hu & Hka & Hdu & Hc).
    assert ((∃ t0, points c !! t0 = Some (PDisconnect j)) → ∃ t0, points c' !! t0 = Some (PDisconnect j)) as Hkeep.
    { intros [t0 E0]. exists t0. rewrite Ep, lookup_insert_ne; [done|]. intros <-. rewrite Hp in E0.
      injection E0 as ->. by destruct (Hd j). }
    destruct (decide (i = j)) as [<-|Hne].
    + assert (u = v) as -> by congruence. exists v'. rewrite lookup_insert_eq. split_and!; try congruence.
      destruct Hc as [Hc|Hc]; [|right; by apply Hkeep].
      destruct (i_closed v') eqn:Ec; [|by left]. right. exists t. rewrite Ep, lookup_insert_eq. f_equal. auto.
    + exists u. rewrite lookup_insert_ne by done. split_and!; try done. destruct Hc; auto.
  - intros j u (Hu & Hdu & Hcu). rewrite Ed. rewrite Ei in Hu.
    apply lookup_insert_Some in Hu as [[<- <-]|[_ Hu]]; [|by apply R5].
    rewrite Hk. apply R5. split_and!; [done|congruence|]. destruct (i_closed v) eqn:E; [|done].
    rewrite Hcl in Hcu by done. done.
Qed.

(** A new device is registered under an address that was free. *)
Lemma reg_connect c t i v :
  reg_ok c → points c !! t = Some (PConnect i) → impls c !! i = Some v → devices c !! address_key v = None →
  reg_ok (c_at t (POnline i) (c_impl i (set_i_device v) (c_devices (<[address_key v := i]> (devices c)) c))).
Proof.
  intros [R1 R2 R3 R4 R5] Hp Hv Hfree.
  destruct (R2 _ _ Hp) as (v0 & Hv0 & Hd & Hc & Hh). assert (v0 = v) as -> by congruence. clear Hv0.
  split; cbn.
  - intros j u E. apply lookup_insert_Some in E as [[<- _]|[_ E]]; eauto.
  - intros t0 q E. apply lookup_insert_Some in E as [[_ <-]|[Hne E]]; [cbn; by rewrite lookup_insert_eq|].
    specialize (R2 _ _ E).
    assert (refs q ≠ Some i) as Hq by (intros Hq; by destruct Hne; eapply R3).
    destruct q; cbn in *; try done; rewrite lookup_insert_ne by congruence; done.
  - intros j u t1 t2 p1 p2 Hu Hhu E1 H1 E2 H2.
    assert (∃ w, impls c !! j = Some w ∧ handed w = false) as (w & Hw & Hhw).
    { apply lookup_insert_Some in Hu as [[<- <-]|[_ Hu]]; eauto. }
    assert (∀ t0 q, <[t := POnline i]> (points c) !! t0 = Some q → refs q = Some j →
      ∃ q', points c !! t0 = Some q' ∧ refs q' = Some j) as Hold.
    { intros t0 q E Hq. apply lookup_insert_Some in E as [[<- <-]|[_ E]]; [|by eauto]. by eexists. }
    destruct (Hold _ _ E1 H1) as (q1 & F1 & G1), (Hold _ _ E2 H2) as (q2 & F2 & G2). by eapply R3.
  - intros a j Ha. apply lookup_insert_Some in Ha as [[<- <-]|[Hne Ha]].
    { exists (set_i_device v). rewrite lookup_insert_eq. split_and!; try done. by left. }
    destruct (R4 a j Ha) as (u & Hu & Hka & Hdu & Hcu).
    assert (j ≠ i) by (intros ->; congruence). exists u. rewrite lookup_insert_ne by done. split_and!; try done.
    destruct Hcu as [|[t0 E0]]; [by left|]. right. exists t0. rewrite lookup_insert_ne; [done|congruence].
  - intros j u (Hu & Hdu & Hcu). cbn in Hu. apply lookup_insert_Some in Hu as [[<- <-]|[Hne Hu]].
    { by rewrite lookup_insert_eq. }
    assert (devices c !! address_key u = Some j) as Hj by (by apply R5).
    rewrite lookup_insert_ne; [done|]. congruence.
Qed.

Lemma reg_disconnect c t i v :
  reg_ok c → points c !! t = Some (PDisconnect i) → impls c !! i = Some v → reg_ok (disconnect_step t i v c).
Proof.
  intros [R1 R2 R3 R4 R5] Hp Hv. destruct (R2 _ _ Hp) as (v0 & Hv0 & Hc).
  assert (v0 = v) as -> by congruence. clear Hv0.
  set (d' := devices (disconnect_step t i v c)).
  assert (∀ a j, d' !! a = Some j → devices c !! a = Some j ∧ j ≠ i) as Hsub.
  { intros a j. unfold d', disconnect_step, disconnectDevice. cbn. destruct (i_device v) eqn:Ed; cbn.
    - case_bool_decide as Hb; cbn.
      + intros E. apply lookup_delete_Some in E as [Hne E]. split; [done|]. intros ->.
        destruct (R4 _ _ E) as (u & Hu & Hk & _). assert (u = v) as -> by congruence. done.
      + intros E. split; [done|]. intros ->. destruct (R4 _ _ E) as (u & Hu & Hk & _).
        assert (u = v) as -> by congruence. by subst a.
    - intros E. split; [done|]. intros ->. destruct (R4 _ _ E) as (u & Hu & _ & Hdu & _). congruence. }
  assert (∀ a j, devices c !! a = Some j → j ≠ i → d' !! a = Some j) as Hkeep.
  { intros a j E Hne. unfold d', disconnect_step, disconnectDevice. cbn. destruct (i_device v); cbn; [|done].
    case_bool_decide as Hb; cbn; [|done]. rewrite lookup_delete_ne; [done|]. congruence. }
  assert (impls (disconnect_step t i v c) = impls c ∧ next_impl (disconnect_step t i v c) = next_impl c ∧
    points (disconnect_step t i v c) = <[t := PRelease i]> (points c)) as (Ei & En & Ep).
  { unfold disconnect_step, disconnectDevice. destruct (i_device v); [case_bool_decide|]; done. }
  split; rewrite ?Ei, ?En.
  - done.
  - intros t0 q E. rewrite Ep in E. apply lookup_insert_Some in E as [[_ <-]|[_ E]]; [by eexists|eauto].
  - intros j u t1 t2 p1 p2 Hu Hhu E1 H1 E2 H2. rewrite Ep in E1, E2.
    assert (∀ t0 q, <[t := PRelease i]> (points c) !! t0 = Some q → refs q = Some j →
      ∃ q', points c !! t0 = Some q' ∧ refs q' = Some j) as Hold.
    { intros t0 q E Hq. apply lookup_insert_Some in E as [[<- <-]|[_ E]]; [|by eauto]. by eexists. }
    destruct (Hold _ _ E1 H1) as (q1 & F1 & G1), (Hold _ _ E2 H2) as (q2 & F2 & G2). by eapply R3.
  - intros a j [Ha Hne]%Hsub. destruct (R4 a j Ha) as (u & Hu & Hka & Hdu & Hcu). exists u. split_and!; try done.
    destruct Hcu as [|[t0 E0]]; [by left|]. right. exists t0. rewrite Ep, lookup_insert_ne; [done|congruence].
  - intros j u (Hu & Hdu & Hcu). rewrite Ei in Hu. apply Hkeep; [by apply R5|]. intros ->. congruence.
Qed.

Lemma reg_create c t serial :
  reg_ok c → points c !! t = Some (PHold serial) → reg_ok (create_impl t serial c).
Proof.
  intros [R1 R2 R3 R4 R5] Hp. set (n := next_impl c).
  assert (impls c !! n = None) as Hn.
  { destruct (impls c !! n) eqn:E; [|done]. apply R1 in E. unfold n in E. lia. }
  assert (∀ t0 q, points c !! t0 = Some q → refs q ≠ Some n) as Hno.
  { intros t0 q E Hq. specialize (R2 _ _ E).
    destruct q; cbn in *; try done; injection Hq as ->; destruct R2 as [? ?]; naive_solver. }
  split; cbn.
  - intros j u E. apply lookup_insert_Some in E as [[<- _]|[_ E]]; [unfold n; lia|]. apply R1 in E. lia.
  - intros t0 q E. apply lookup_insert_Some in E as [[_ <-]|[_ E]].
    + eexists. by rewrite lookup_insert_eq.
    + specialize (Hno _ _ E). specialize (R2 _ _ E).
      destruct q; cbn in *; try done; rewrite lookup_insert_ne by (fold n; congruence); done.
  - intros j u t1 t2 p1 p2 Hu Hhu E1 H1 E2 H2.
    destruct (decide (j = n)) as [->|Hjn].
    + assert (∀ t0 q, <[t := PConnect n]> (points c) !! t0 = Some q → refs q = Some n → t0 = t) as Ht.
      { intros t0 q E Hq. apply lookup_insert_Some in E as [[<- _]|[_ E]]; [done|]. by destruct (Hno _ _ E). }
      rewrite (Ht _ _ E1 H1), (Ht _ _ E2 H2). done.
    + rewrite lookup_insert_ne in Hu by done.
      assert (∀ t0 q, <[t := PConnect n]> (points c) !! t0 = Some q → refs q = Some j → points c !! t0 = Some q) as Hold.
      { intros t0 q E Hq. apply lookup_insert_Some in E as [[<- <-]|[_ E]]; [|done]. cbn in Hq. congruence. }
      by eapply R3; eauto.
  - intros a j Ha. destruct (R4 a j Ha) as (u & Hu & Hka & Hdu & Hcu). exists u.
    rewrite lookup_insert_ne by (fold n; congruence). split_and!; try done.
    destruct Hcu as [|[t0 E0]]; [by left|]. right. exists t0. rewrite lookup_insert_ne; [done|congruence].
  - intros j u (Hu & Hdu & Hcu). cbn in Hu. apply lookup_insert_Some in Hu as [[<- <-]|[_ Hu]]; [done|].
    by apply R5.
Qed.

Lemma reg_notify_all c : reg_ok c → reg_ok (slot_notify_all c).
Proof.
  intros [R1 R2 R3 R4 R5].
  assert (∀ t q, (wake_slot <$> points c) !! t = Some q → ∃ p, points c !! t = Some p ∧ q = wake_slot p) as Hold.
  { intros t q E. rewrite lookup_fmap in E. destruct (points c !! t) as [p|]; [|done]. injection E as <-. eauto. }
  assert (∀ p, refs (wake_slot p) = refs p) as Hrefs by (by intros []).
  split; cbn; try done.
  - intros t q E. destruct (Hold _ _ E) as (p & Ep & ->). specialize (R2 _ _ Ep). by destruct p.
  - intros i v t1 t2 p1 p2 Hv Hh E1 H1 E2 H2.
    destruct (Hold _ _ E1) as (q1 & F1 & ->), (Hold _ _ E2) as (q2 & F2 & ->).
    rewrite Hrefs in H1, H2. by eapply R3.
  - intros a i Ha. destruct (R4 a i Ha) as (v & Hv & Hk & Hd & Hc). exists v. split_and!; try done.
    destruct Hc as [|[t E]]; [by left|]. right. exists t. by rewrite lookup_fmap, E.
Qed.

Record client_ok (c : client) : Prop := { co_slots : slots_ok c; co_reg : reg_ok c }.

(** A step that moves a thread and nothing else. *)
Lemma ok_move c c' t p p' :
  client_ok c → points c !! t = Some p → plain_point p = true → plain_point p' = true →
  (∀ i, p ≠ PDisconnect i) → (refs p' = None ∨ refs p' = refs p) → point_ok (impls c) p' →
  points c' = <[t := p']> (points c) → impls c' = impls c → devices c' = devices c →
  next_impl c' = next_impl c → slot_active c' = slot_active c → slot_limit c' = slot_limit c → client_ok c'.
Proof.
  intros [Hs Hr] Hp H1 H2 Hd Href Hok Ep Ei Ed En Ea El. split.
  - eapply slots_move; eauto. by rewrite Ei.
  - by eapply reg_move.
Qed.

(** A step that updates the Impl a thread works on, without touching its slot. *)
Lemma ok_impl c c' t p p' i v v' :
  client_ok c → points c !! t = Some p → plain_point p = true → plain_point p' = true →
  refs p = Some i → (∀ i, p ≠ PDisconnect i) →
  impls c !! i = Some v → (refs p' = Some i ∨ refs p' = None) → point_ok (<[i := v']> (impls c)) p' →
  address_key v' = address_key v → i_device v' = i_device v → release_slot v' = release_slot v →
  (i_closed v = true → i_closed v' = true) → (handed v' = false → handed v = false) →
  (i_closed v = false → i_closed v' = true → i_device v = true → p' = PDisconnect i) →
  points c' = <[t := p']> (points c) → impls c' = <[i := v']> (impls c) → devices c' = devices c →
  next_impl c' = next_impl c → slot_active c' = slot_active c → slot_limit c' = slot_limit c → client_ok c'.
Proof.
  intros [Hs Hr] Hp H1 H2 Href Hd Hv Href' Hok Hk Hdv Hrel Hcl Hh Hnew Ep Ei Ed En Ea El. split.
  - eapply slots_move; eauto. rewrite Ei, (mcount_insert _ _ _ _ _ Hv), Hrel. lia.
  - by eapply reg_impl.
Qed.

Lemma ok_connect c t i v started :
  client_ok c → points c !! t = Some (PConnect i) → impls c !! i = Some v → client_ok (connect_step t i v started c).
Proof.
  intros Hc Hp Hv. destruct (ro_points _ (co_reg _ Hc) _ _ Hp) as (v0 & Hv0 & Hd & Hcl & Hh).
  assert (v0 = v) as -> by congruence. clear Hv0.
  assert (∀ st, client_ok (c_at t (PClose i) (c_status t st (c_impl i (set_i_closed v) c)))) as Hfail.
  { intros st. eapply (ok_impl c _ t (PConnect i) (PClose i) i v (set_i_closed v)); try done; [by left| |congruence].
    cbn. by rewrite lookup_insert_eq. }
  unfold connect_step, connectDevice. destruct (devices c !! address_key v) eqn:E; [apply Hfail|].
  destruct started; [|apply Hfail]. split; [|apply reg_connect; [apply Hc|done..]].
  eapply (slots_move c _ t (PConnect i) (POnline i)); try done; [apply Hc|].
  cbn. rewrite (mcount_insert _ _ _ _ _ Hv). cbn. lia.
Qed.

Lemma ok_close c t i v :
  client_ok c → points c !! t = Some (PClose i) → impls c !! i = Some v → client_ok (close_step t i v c).
Proof.
  intros Hc Hp Hv. unfold close_step. destruct (i_closed v) eqn:E.
  - eapply (ok_impl c _ t (PClose i) (PRelease i) i v (set_mutex true v)); try done; [by left| |congruence].
    cbn. by rewrite lookup_insert_eq.
  - eapply (ok_impl c _ t (PClose i) (PDisconnect i) i v (set_i_closed (set_mutex true v))); try done; [by left|].
    eexists. by rewrite lookup_insert_eq.
Qed.

(** Side conditions of the two lemmas above and of [reg_move]. *)
Ltac easy_move := try done; auto; try (by left); try (by right); try (cbn; congruence).

Lemma ok_go t p started waited wake c c' :
  client_ok c → points c !! t = Some p → go t p started waited wake c = Some c' → client_ok c'.
Proof.
  intros Hc Hp E. pose proof Hc as [Hs Hr]. pose proof (ro_points _ Hr _ _ Hp) as Hok.
  destruct p; cbn in E; try done.
  - injection E as <-. case_bool_decide; [apply (ok_move c _ t (PLookup serial timeout) PIdle)|
      apply (ok_move c _ t (PLookup serial timeout) (PAcquire serial timeout))]; easy_move.
  - injection E as <-. unfold acquire_step. destruct (has_room c) eqn:Ero.
    { split; [by eapply slots_acquired; eauto|]. apply (reg_move c _ t (PAcquire serial timeout) (PHold serial)); easy_move. }
    assert (client_ok (c_at t (PSleep serial timeout) c)).
    { split; [by eapply slots_sleep; eauto|].
      apply (reg_move c _ t (PAcquire serial timeout) (PSleep serial timeout)); easy_move. }
    destruct timeout as [ms|]; [|done]. destruct (ms <=? 0); [|done].
    apply (ok_move c _ t (PAcquire serial (Some ms)) PIdle); easy_move.
  - injection E as <-. unfold retry_step. destruct (has_room c) eqn:Ero.
    { split; [by eapply slots_acquired; eauto 6|]. apply (reg_move c _ t (PRetry serial timeout expired) (PHold serial)); easy_move. }
    destruct expired.
    + split; [by eapply slots_give_up; eauto|]. apply (reg_move c _ t (PRetry serial timeout true) PIdle); easy_move.
    + split; [by eapply slots_sleep; eauto 6|].
      apply (reg_move c _ t (PRetry serial timeout false) (PSleep serial timeout)); easy_move.
  - injection E as <-. split; [|by apply reg_create]. apply slots_create; [done..|].
    destruct (impls c !! next_impl c) eqn:E; [|done]. apply (ro_fresh _ Hr) in E. lia.
  - unfold on_impl in E. destruct (impls c !! i) as [v|] eqn:Ev; [|done]. injection E as <-. by apply ok_connect.
  - unfold on_impl in E. destruct (impls c !! i) as [v|] eqn:Ev; [|done]. injection E as <-.
    unfold online_step. case_bool_decide.
    + apply (ok_impl c _ t (POnline i) PIdle i v (set_handed v)); easy_move.
    + apply (ok_move c _ t (POnline i) (PClose i)); easy_move.
  - destruct (impls c !! i) as [v|] eqn:Ev; [|done]. cbn in E. destruct (close_mutex v); [done|].
    injection E as <-. by apply ok_close.
  - unfold on_impl in E. destruct (impls c !! i) as [v|] eqn:Ev; [|done]. injection E as <-.
    split; [|by apply reg_disconnect].
    apply (slots_move c _ t (PDisconnect i) (PRelease i)); try done;
      unfold disconnect_step, disconnectDevice; destruct (i_device v); try case_bool_decide; done.
  - unfold on_impl in E. destruct (impls c !! i) as [v|] eqn:Ev; [|done]. injection E as <-.
    split; [by apply slots_release|]. unfold release_step. destruct (release_slot v).
    + apply (reg_impl c _ t (PRelease i) (PGive i) i v (set_release false v)); easy_move.
      cbn. by rewrite lookup_insert_eq.
    + apply (reg_move c _ t (PRelease i) (PUnlock i)); easy_move.
  - injection E as <-. split; [by apply slots_give|]. apply (reg_move c _ t (PGive i) (PNotify i)); easy_move.
  - destruct (slot_notify_one wake c) as [c1|] eqn:E1; [|done]. injection E as <-.
    split; [by eapply slots_notify|]. unfold slot_notify_one in E1. destruct wake as [d|].
    + destruct (points c !! d) as [[]|] eqn:Ed; try done. injection E1 as <-.
      apply (reg_move (c_at d (PRetry serial timeout false) c) _ t (PNotify i) (PUnlock i)); easy_move.
      * apply (reg_move c _ d (PSleep serial timeout) (PRetry serial timeout false)); easy_move.
      * cbn. rewrite lookup_insert_ne; [done|congruence].
    + case_bool_decide; [|done]. injection E1 as <-.
      apply (reg_move c _ t (PNotify i) (PUnlock i)); easy_move.
  - unfold on_impl in E. destruct (impls c !! i) as [v|] eqn:Ev; [|done]. injection E as <-.
    apply (ok_impl c _ t (PUnlock i) PIdle i v (set_mutex false v)); easy_move.
  - injection E as <-. split; [by apply slots_notify_all|].
    apply (reg_move (slot_notify_all c) _ t PNotifyAll PIdle); easy_move; [by apply reg_notify_all|].
    cbn. by rewrite lookup_fmap, Hp.
Qed.

Lemma ok_begin t k c :
  client_ok c → points c !! t = Some PIdle →
  match k with Close i => is_Some (impls c !! i) ∧ (∀ v, impls c !! i = Some v → handed v = true) | _ => True end →
  client_ok (begin t k c).
Proof.
  intros Hc Hp Hk. destruct k as [address timeout|i|limit]; cbn.
  - assert (∀ s, client_ok (c_status t s c)) as Hst.
    { intros s. destruct Hc as [[] []]. by split; split. }
    destruct (negb _); [apply Hst|]. case_bool_decide; [apply Hst|].
    apply (ok_move c _ t PIdle (PLookup (normalize_address address (default_port c)) timeout)); easy_move.
  - destruct Hk as [Hi Hh]. destruct Hc as [Hs [R1 R2 R3 R4 R5]].
    split; [by apply (slots_move c _ t PIdle (PClose i))|]. split; cbn; try done.
    + intros t0 q E. apply lookup_insert_Some in E as [[_ <-]|[_ E]]; eauto.
    + intros j v t1 t2 p1 p2 Hv Hhv E1 H1 E2 H2.
      assert (j ≠ i) as Hne by (intros ->; rewrite (Hh _ Hv) in Hhv; done).
      apply lookup_insert_Some in E1 as [[<- <-]|[_ E1]]; [cbn in H1; congruence|].
      apply lookup_insert_Some in E2 as [[<- <-]|[_ E2]]; [cbn in H2; congruence|]. by eapply R3.
    + intros a j Ha. destruct (R4 a j Ha) as (v & Hv & Hka & Hd & Hcl). exists v. split_and!; try done.
      destruct Hcl as [|[t0 E0]]; [by left|]. right. exists t0. rewrite lookup_insert_ne; [done|congruence].
  - destruct Hc as [[Ha Hl Hw] Hr]. split.
    + nonneg c. split; unfold room_waits in *; counts Hp; [lia|apply u64_range|lia].
    + apply (reg_move c _ t PIdle PNotifyAll); easy_move.
Qed.

Lemma ok_cstep t m c c' : client_ok c → cstep t m c = Some c' → client_ok c'.
Proof.
  intros Hc E. unfold cstep in E. destruct (points c !! t) as [p|] eqn:Hp; [|done].
  destruct m as [k|started waited wake| |]; [|by eapply ok_go| |].
  - destruct k as [address timeout|i|limit].
    + destruct p; try done. injection E as <-. exact (ok_begin t (Connect address timeout) c Hc Hp I).
    + destruct p; try done. destruct (impls c !! i) as [v|] eqn:Ev; [|done]. cbn in E.
      destruct (handed v) eqn:Eh; [|done]. injection E as <-. apply (ok_begin t (Close i)); [done..|].
      split; [by eexists|]. intros v' Hv'. congruence.
    + destruct p; try done. injection E as <-. exact (ok_begin t (SetMaxConnections limit) c Hc Hp I).
  - destruct p; try done. destruct timeout as [ms|]; [|done]. injection E as <-.
    destruct Hc as [[Ha Hl Hw] Hr]. split.
    + nonneg c. split; unfold room_waits in *; counts Hp; lia.
    + by apply (reg_move c _ t (PSleep serial (Some ms)) (PRetry serial (Some ms) true)); easy_move.
  - destruct p; try done. injection E as <-. destruct Hc as [[Ha Hl Hw] Hr]. split.
    + nonneg c. split; unfold room_waits in *; counts Hp; lia.
    + by apply (reg_move c _ t (PSleep serial timeout) (PRetry serial timeout false)); easy_move.
Qed.

Lemma client_init_idle threads port limit t p :
  points (client_init threads port limit) !! t = Some p → p = PIdle.
Proof. intros E. apply elem_of_list_to_map_2, list_elem_of_fmap in E as (t' & [= _ ->] & _). done. Qed.

Lemma ok_init threads port limit : client_ok (client_init threads port limit).
Proof.
  assert (∀ P, P PIdle = false → mcount P (points (client_init threads port limit)) = 0) as Hz.
  { intros P HP. apply mcount_none. intros t p ->%client_init_idle. done. }
  split; split.
  - cbn [slot_active impls client_init]. by rewrite Hz, mcount_empty.
  - apply u64_range.
  - intros Hlt. rewrite Hz in Hlt; done.
  - done.
  - by intros t p ->%client_init_idle.
  - done.
  - done.
  - by intros i v (E & _).
Qed.

Lemma creachable_ok threads port limit c : creachable threads port limit c → client_ok c.
Proof. induction 1; eauto using ok_init, ok_cstep. Qed.

(** ** Properties *)

(** Only [acquire] takes a slot, and only when there is room. *)
Lemma cstep_grows t m c c' :
  cstep t m c = Some c' → slot_active c < slot_active c' →
  has_room c = true ∧ slot_active c' = slot_active c + 1.
Proof.
  intros E Hlt.
  unfold cstep in E. destruct (points c !! t) as [p|] eqn:Hp; [|done].
  destruct m as [k|started waited wake| |].
  - destruct k as [address timeout|i|l]; destruct p; try done; cbn in E.
    + injection E as <-. exfalso. revert Hlt. repeat (destruct (negb _) || case_bool_decide); cbn; lia.
    + destruct (impls c !! i) as [v|]; [|done]. cbn in E. destruct (handed v); [|done]. injection E as <-. cbn in Hlt. lia.
    + injection E as <-. cbn in Hlt. lia.
  - destruct p; cbn in E; try done; unfold on_impl in E;
      try (destruct (impls c !! i) as [v|]; [|done]; cbn in E).
    + injection E as <-. exfalso. revert Hlt. case_bool_decide; cbn; lia.
    + injection E as <-. revert Hlt. unfold acquire_step. destruct (has_room c); [done|].
      destruct timeout as [ms|]; [destruct (ms <=? 0)|]; cbn; lia.
    + injection E as <-. revert Hlt. unfold retry_step. destruct (has_room c); [done|].
      destruct expired; cbn; lia.
    + injection E as <-. cbn in Hlt. lia.
    + injection E as <-. exfalso. revert Hlt. unfold connect_step, connectDevice.
      destruct (devices c !! _); [|destruct started]; cbn; lia.
    + injection E as <-. exfalso. revert Hlt. unfold online_step. case_bool_decide; cbn; lia.
    + destruct (close_mutex v); [done|]. injection E as <-. exfalso. revert Hlt. unfold close_step.
      destruct (i_closed v); cbn; lia.
    + injection E as <-. exfalso. revert Hlt. unfold disconnect_step, disconnectDevice.
      destruct (i_device v); [case_bool_decide|]; cbn; lia.
    + injection E as <-. exfalso. revert Hlt. unfold release_step. destruct (release_slot v); cbn; lia.
    + injection E as <-. exfalso. revert Hlt. unfold release_locked. cbn. destruct (0 <? slot_active c); lia.
    + unfold slot_notify_one in E. destruct wake as [d|].
      * destruct (points c !! d) as [[]|]; try done. injection E as <-. cbn in Hlt. lia.
      * case_bool_decide; [|done]. injection E as <-. cbn in Hlt. lia.
    + injection E as <-. cbn in Hlt. lia.
    + injection E as <-. cbn in Hlt. lia.
  - destruct p; try done. destruct timeout; [|done]. injection E as <-. cbn in Hlt. lia.
  - destruct p; try done. injection E as <-. cbn in Hlt. lia.
Qed.

(** C29. Connection slots are never leaked, lost or given back twice.  In every state that
    any interleaving of connects, closes and limit changes can reach, the counter of active
    slots is the number of threads that hold a slot plus the number of connections that
    still own one; and a step that takes a slot leaves the counter within the limit, unless
    there is none. *)
Theorem slots_accounted threads port limit c :
  creachable threads port limit c →
  slot_active c = mcount holds (points c) + mcount release_slot (impls c) ∧
  ∀ t m c', cstep t m c = Some c' → slot_active c < slot_active c' →
    slot_limit c = 0 ∨ slot_active c' ≤ slot_limit c.
Proof.
  intros Hr. pose proof (creachable_ok _ _ _ _ Hr) as Hc. split; [apply Hc|].
  intros t m c' E Hlt. destruct (cstep_grows _ _ _ _ E Hlt) as [Hroom ->].
  unfold has_room in Hroom. rewrite orb_true_iff, Z.eqb_eq, Z.ltb_lt in Hroom. lia.
Qed.

(** One connection per address.  In every reachable state two open connections have
    different addresses, every open connection is the one registered under its address, and
    an address that is still registered belongs to an open connection or to one that some
    thread is disconnecting right now: a closed connection does not block its address. *)
Theorem one_connection_per_address threads port limit c :
  creachable threads port limit c →
  (∀ i j v w, open c i v → open c j w → address_key v = address_key w → i = j) ∧
  (∀ i v, open c i v → devices c !! address_key v = Some i) ∧
  (∀ a i, devices c !! a = Some i →
     (∃ v, open c i v ∧ address_key v = a) ∨ ∃ t, points c !! t = Some (PDisconnect i)).
Proof.
  intros Hr. destruct (co_reg _ (creachable_ok _ _ _ _ Hr)) as [_ _ _ R4 R5]. split_and!; [|done|].
  - intros i j v w Hi%R5 Hj%R5 E. rewrite E in Hi. congruence.
  - intros a i Ha. destruct (R4 a i Ha) as (v & Hv & Hk & Hd & [Hc|Hc]); [|by right].
    left. exists v. by split.
Qed.

(** No thread waits for a slot in vain.  In every reachable state in which a thread
    sleeps for a slot, either somebody who changed the limit is about to wake all sleepers,
    or there is a limit and each free slot has a thread that was already woken, or a wake-up
    that is on its way. *)
Theorem free_slots_are_announced threads port limit c :
  creachable threads port limit c → room_waits c.
Proof. intros Hr. apply (co_slots _ (creachable_ok _ _ _ _ Hr)). Qed.

(** ** Concrete runs *)

Fixpoint run_moves (l : list (nat * move)) (c : client) : option client :=
  match l with
  | [] => Some c
  | (t, m) :: l => c' ← cstep t m c; run_moves l c'
  end.

Lemma run_moves_reachable threads port limit l : ∀ c c',
  creachable threads port limit c → run_moves l c = Some c' → creachable threads port limit c'.
Proof.
  induction l as [|[t m] l IH]; intros c c' Hr E; cbn in E; [by injection E as <-|].
  destruct (cstep t m c) as [c1|] eqn:Es; [|done]. eapply IH; [|exact E]. by eapply creach_step.
Qed.

(** Thread 0 connects to one address; thread 1 waits for the only slot; thread 0 closes. *)
Definition proceed : move := Go true Status.Ok None.
Definition wait_run : list (nat * move) :=
  [ (0%nat, Begin (Connect (txt "10.0.0.1") None)); (0%nat, proceed); (0%nat, proceed); (0%nat, proceed);
    (0%nat, proceed); (0%nat, proceed);
    (1%nat, Begin (Connect (txt "10.0.0.2") None)); (1%nat, proceed); (1%nat, proceed);
    (0%nat, Begin (Close 0)); (0%nat, proceed); (0%nat, proceed); (0%nat, proceed); (0%nat, proceed) ].
Definition wait_state : client := default (client_init 2 5555 1) (run_moves wait_run (client_init 2 5555 1)).

Lemma wait_state_reachable : creachable 2 5555 1 wait_state.
Proof.
  apply (run_moves_reachable 2 5555 1 wait_run (client_init 2 5555 1)); [apply creach_init|by vm_compute].
Qed.

Lemma slots_accounted_witness : slot_active wait_state = 0.
Proof. rewrite (proj1 (slots_accounted 2 5555 1 wait_state wait_state_reachable)). by vm_compute. Defined.

(** Thread 0 has connected. *)
Definition connected_state : client :=
  default (client_init 2 5555 1) (run_moves (take 6 wait_run) (client_init 2 5555 1)).
Lemma connected_state_reachable : creachable 2 5555 1 connected_state.
Proof.
  apply (run_moves_reachable 2 5555 1 (take 6 wait_run) (client_init 2 5555 1)); [apply creach_init|by vm_compute].
Qed.
Definition connected_impl : impl := mkImpl (txt "10.0.0.1:5555") true false true false true.

Lemma one_connection_per_address_witness :
  open connected_state 0 connected_impl ∧ devices connected_state !! txt "10.0.0.1:5555" = Some 0%nat.
Proof.
  assert (open connected_state 0 connected_impl) as Ho by (split_and!; by vm_compute).
  split; [done|]. apply (one_connection_per_address 2 5555 1 connected_state connected_state_reachable) in Ho. exact Ho.
Defined.

Lemma free_slots_are_announced_witness :
  points wait_state !! 1%nat = Some (PSleep (txt "10.0.0.2:5555") None) ∧
  slot_limit wait_state - slot_active wait_state = 1 ∧
  slot_limit wait_state - slot_active wait_state
    ≤ mcount notifying (points wait_state) + mcount awake_waiter (points wait_state).
Proof.
  split_and!; [by vm_compute..|].
  destruct (free_slots_are_announced 2 5555 1 wait_state wait_state_reachable) as [H|[_ H]];
    [by vm_compute|by vm_compute in H|exact H].
Defined.
