(* ===== verification/Workers.v ===== *)
(** * Work on many devices

    Models [AdbManager::runOnDevices] of adb/lib/src/AdbManager.cpp: a number of worker threads
    take the addresses one after the other from a shared index, run the task for each, and
    are joined in the order of their creation.

    The state is that of one call.  A worker is about to take an index, runs the task, or has
    returned; a task that throws is caught, so that it ends like any other.  [taken] is the
    history of the addresses that tasks were run for, by their index. *)

From S2P Require Import Prelude.

Inductive worker := Fetch | Task (index : nat) | Returned.

Record job := mkJob {
  next_index : nat;
  workers : list worker;
  joined : nat;
  taken : list nat
}.

Section job.
(** The number of addresses, and [max_threads_]. *)
Context (size max_threads : nat).

Definition workers_count : nat :=
  if bool_decide (max_threads = 0%nat) || (size <? max_threads)%nat then size else max_threads.

(** The lambda of a worker, up to the task. *)
Definition fetch_add (k : nat) (j : job) : job :=
  let index := next_index j in
  if (size <=? index)%nat
  then mkJob (S index) (<[k := Returned]> (workers j)) (joined j) (taken j)
  else mkJob (S index) (<[k := Task index]> (workers j)) (joined j) (taken j ++ [index]).

Inductive move :=
  | Spawn                            (** the caller starts the next worker *)
  | Take (k : nat)                   (** worker [k] takes an index *)
  | End (k : nat) (threw : bool)     (** the task of worker [k] returns or throws *)
  | Join.                            (** the caller joins the next worker *)

Definition advance (m : move) (j : job) : option job :=
  match m with
  | Spawn =>
      if (length (workers j) <? workers_count)%nat
      then Some (mkJob (next_index j) (workers j ++ [Fetch]) (joined j) (taken j)) else None
  | Take k => match workers j !! k with Some Fetch => Some (fetch_add k j) | _ => None end
  | End k _ =>
      match workers j !! k with
      | Some (Task _) => Some (mkJob (next_index j) (<[k := Fetch]> (workers j)) (joined j) (taken j))
      | _ => None
      end
  | Join =>
      match workers j !! joined j with
      | Some Returned =>
          if bool_decide (length (workers j) = workers_count)
          then Some (mkJob (next_index j) (workers j) (S (joined j)) (taken j)) else None
      | _ => None
      end
  end.

Fixpoint proceed (tr : list move) (j : job) : option job :=
  match tr with
  | [] => Some j
  | m :: tr => j' ← advance m j; proceed tr j'
  end.

(** The call begins; without addresses, or without a task, it returns at once. *)
Definition started : job := mkJob 0 [] 0 [].
Definition runOnDevices_returned (has_task : bool) (j : job) : bool :=
  bool_decide (size = 0%nat) || negb has_task || bool_decide (joined j = workers_count).

(** ** The invariant *)

Record job_ok (j : job) : Prop := {
  j_taken : taken j = seq 0 (next_index j `min` size);
  j_done : Returned ∈ workers j → (size ≤ next_index j)%nat;
  j_running : ∀ k i, workers j !! k = Some (Task i) → (i < next_index j `min` size)%nat;
  j_distinct : ∀ k k' i, workers j !! k = Some (Task i) → workers j !! k' = Some (Task i) → k = k';
  j_count : (joined j ≤ length (workers j) ≤ workers_count)%nat;
  j_joined : ∀ k, (k < joined j)%nat → workers j !! k = Some Returned;
  j_spawned : (0 < joined j)%nat → length (workers j) = workers_count
}.

Lemma started_ok : job_ok started.
Proof. split; cbn; try done; try lia. intros H. by apply elem_of_nil in H. Qed.

Lemma fetch_ok k j : job_ok j → workers j !! k = Some Fetch → job_ok (fetch_add k j).
Proof.
  intros Hj Hk. unfold fetch_add.
  pose proof (lookup_lt_Some _ _ _ Hk) as Hlen.
  assert (∀ w u x, <[k := w]> (workers j) !! u = Some x → u = k ∧ x = w ∨ u ≠ k ∧ workers j !! u = Some x) as Hins.
  { intros w u x. rewrite list_lookup_insert_Some. naive_solver. }
  destruct (Nat.leb_spec size (next_index j)) as [Hge|Hlt]; split; cbn [next_index workers joined taken]; rewrite ?length_insert; try apply Hj.
  - rewrite (j_taken _ Hj). f_equal. lia.
  - lia.
  - intros u i [[_ H]|[_ H]]%Hins; [done|]. pose proof (j_running _ Hj _ _ H). lia.
  - intros u v i [[_ H]|[_ H]]%Hins [[_ H']|[_ H']]%Hins; try done. by eapply j_distinct.
  - intros u Hu. rewrite list_lookup_insert_ne; [by apply Hj|]. intros <-. rewrite (j_joined _ Hj k Hu) in Hk. done.
  - rewrite (j_taken _ Hj). replace (S (next_index j) `min` size)%nat with (S (next_index j)) by lia.
    rewrite seq_S. repeat f_equal. lia.
  - intros [x Hx]%list_elem_of_lookup. apply Hins in Hx as [[_ H]|[_ H]]; [done|].
    assert (Returned ∈ workers j) as Hin by (apply list_elem_of_lookup; eauto). apply (j_done _ Hj) in Hin. lia.
  - intros u i [[_ [= ->]]|[_ H]]%Hins; [lia|]. pose proof (j_running _ Hj _ _ H). lia.
  - intros u v i [[-> [= ->]]|[Hu H]]%Hins [[-> H']|[Hv H']]%Hins; try done.
    + apply (j_running _ Hj) in H'. lia.
    + injection H' as ->. apply (j_running _ Hj) in H. lia.
    + by eapply j_distinct.
  - intros u Hu. rewrite list_lookup_insert_ne; [by apply Hj|]. intros <-. rewrite (j_joined _ Hj k Hu) in Hk. done.
Qed.

Lemma advance_ok m j j' : job_ok j → advance m j = Some j' → job_ok j'.
Proof.
  intros Hj. destruct m as [|k|k threw|]; cbn [advance].
  - destruct (Nat.ltb_spec (length (workers j)) workers_count) as [Hlt|]; [|done]. intros [= <-]. split; cbn [next_index workers joined taken]; try apply Hj.
    + rewrite elem_of_app, list_elem_of_singleton. intros [H|H]; [by apply Hj|done].
    + intros k i [H|[_ H]]%lookup_app_Some; [by eapply j_running|]. apply list_lookup_singleton_Some in H as [_ H]. done.
    + intros k k' i [H|[_ H]]%lookup_app_Some [H'|[_ H']]%lookup_app_Some;
        try (by apply list_lookup_singleton_Some in H as [_ H]); try (by apply list_lookup_singleton_Some in H' as [_ H']).
      by eapply j_distinct.
    + rewrite length_app. pose proof (j_count _ Hj). cbn. lia.
    + intros k Hk. apply lookup_app_l_Some, (j_joined _ Hj k Hk).
    + intros H. pose proof (j_spawned _ Hj H). lia.
  - destruct (workers j !! k) as [[]|] eqn:Hk; try done. intros [= <-]. by apply fetch_ok.
  - destruct (workers j !! k) as [[|i|]|] eqn:Hk; try done. intros [= <-].
    pose proof (lookup_lt_Some _ _ _ Hk) as Hlen.
    assert (∀ u x, <[k := Fetch]> (workers j) !! u = Some x → u = k ∧ x = Fetch ∨ u ≠ k ∧ workers j !! u = Some x) as Hins.
    { intros u x. rewrite list_lookup_insert_Some. naive_solver. }
    split; cbn [next_index workers joined taken]; rewrite ?length_insert; try apply Hj.
    + intros [x Hx]%list_elem_of_lookup. apply Hins in Hx as [[_ H]|[_ H]]; [done|].
      apply (j_done _ Hj), list_elem_of_lookup. eauto.
    + intros u y [[_ H]|[_ H]]%Hins; [done|]. by eapply j_running.
    + intros u v y [[_ H]|[_ H]]%Hins [[_ H']|[_ H']]%Hins; try done. by eapply j_distinct.
    + intros u Hu. rewrite list_lookup_insert_ne; [by apply Hj|]. intros <-. rewrite (j_joined _ Hj k Hu) in Hk. done.
  - destruct (workers j !! joined j) as [[]|] eqn:Hk; try done. case_bool_decide as Hc; [|done]. intros [= <-].
    split; cbn [next_index workers joined taken]; try apply Hj; [|intros k Hlt|done].
    + apply lookup_lt_Some in Hk. lia.
    + destruct (decide (k = joined j)) as [->|]; [done|]. apply Hj. lia.
Qed.

Lemma proceed_ok tr j j' : job_ok j → proceed tr j = Some j' → job_ok j'.
Proof.
  revert j. induction tr as [|m tr IH]; intros j Hj; cbn; [by intros [= <-]|].
  destruct (advance m j) as [j1|] eqn:E; [|done]. cbn. apply IH. by eapply advance_ok.
Qed.

(** ** Termination *)

Definition worker_rank (w : worker) : nat := match w with Fetch => 1 | Task _ => 2 | Returned => 0 end.

(** The steps that are left at most. *)
Definition steps_left (j : job) : nat :=
  2 * (size - next_index j) + sum_list_with worker_rank (workers j) + 2 * (workers_count - length (workers j)) + (workers_count - joined j).

Lemma rank_insert k w w' l :
  l !! k = Some w → (sum_list_with worker_rank (<[k := w']> l) + worker_rank w = sum_list_with worker_rank l + worker_rank w')%nat.
Proof.
  revert k. induction l as [|x l IH]; intros [|k]; csimpl; [done|done| |]; [intros [= ->]; lia|]. intros Hk%IH. lia.
Qed.

Lemma advance_decreases m j j' : job_ok j → advance m j = Some j' → (steps_left j' < steps_left j)%nat.
Proof.
  intros Hj. unfold steps_left. destruct m as [|k|k threw|]; cbn [advance].
  - destruct (Nat.ltb_spec (length (workers j)) workers_count); [|done]. intros [= <-]. cbn [next_index workers joined].
    rewrite sum_list_with_app, length_app. cbn. lia.
  - destruct (workers j !! k) as [[]|] eqn:Hk; try done. intros [= <-]. unfold fetch_add.
    destruct (Nat.leb_spec size (next_index j)); cbn [next_index workers joined]; rewrite length_insert.
    + pose proof (rank_insert k _ Returned _ Hk). cbn [worker_rank] in *. lia.
    + pose proof (rank_insert k _ (Task (next_index j)) _ Hk). cbn [worker_rank] in *. lia.
  - destruct (workers j !! k) as [[]|] eqn:Hk; try done. intros [= <-]. cbn [next_index workers joined]. rewrite length_insert.
    pose proof (rank_insert k _ Fetch _ Hk). cbn [worker_rank] in *. lia.
  - destruct (workers j !! joined j) as [[]|] eqn:Hk; try done. case_bool_decide as Hc; [|done]. intros [= <-]. cbn [next_index workers joined].
    apply lookup_lt_Some in Hk. lia.
Qed.

Lemma proceed_bounded tr j j' : job_ok j → proceed tr j = Some j' → (length tr + steps_left j' ≤ steps_left j)%nat.
Proof.
  revert j. induction tr as [|m tr IH]; intros j Hj; cbn [proceed length]; [by intros [= <-]|].
  destruct (advance m j) as [j1|] eqn:E; [|done]. cbn [mbind option_bind]. intros Hr. pose proof (advance_decreases _ _ _ Hj E).
  pose proof (IH j1 (advance_ok _ _ _ Hj E) Hr). lia.
Qed.

Lemma advance_progress j : job_ok j → joined j ≠ workers_count → ∃ m j', advance m j = Some j'.
Proof.
  intros Hj Hn. pose proof (j_count _ Hj) as Hc. destruct (decide (length (workers j) = workers_count)) as [Hl|Hl].
  - destruct (lookup_lt_is_Some_2 (workers j) (joined j)) as [w Hw]; [lia|]. destruct w.
    + exists (Take (joined j)). cbn [advance]. rewrite Hw. eauto.
    + exists (End (joined j) false). cbn [advance]. rewrite Hw. eauto.
    + exists Join. cbn [advance]. rewrite Hw, bool_decide_true by done. eauto.
  - exists Spawn. cbn [advance]. rewrite (proj2 (Nat.ltb_lt _ _)) by lia. eauto.
Qed.

(** C36. Every device is worked on once: at any time, with the threads interleaved in any way and the tasks throwing or
    not, the addresses taken so far are the first ones of the list, each once, no two workers run the same,
    and there are no more workers than max_threads_ allows or addresses are given;
    when the call returns, the task has been run for every address and none is running. *)
Theorem every_device_once tr j :
  proceed tr started = Some j →
  taken j = seq 0 (next_index j `min` size) ∧
  (∀ k k' i, workers j !! k = Some (Task i) → workers j !! k' = Some (Task i) → k = k') ∧
  (length (workers j) ≤ size)%nat ∧ (max_threads ≠ 0%nat → (length (workers j) ≤ max_threads)%nat) ∧
  (runOnDevices_returned true j = true → taken j = seq 0 size ∧ ∀ k w, workers j !! k = Some w → w = Returned).
Proof.
  intros Hr. pose proof (proceed_ok _ _ _ started_ok Hr) as Hj. pose proof (j_count _ Hj) as Hc.
  assert (workers_count ≤ size ∧ (max_threads ≠ 0 → workers_count ≤ max_threads) ∧ (size ≠ 0 → workers_count ≠ 0))%nat as (Hw & Hm & Hz).
  { unfold workers_count. case_bool_decide; cbn [orb]; [split_and!; lia|]. destruct (Nat.ltb_spec size max_threads); split_and!; lia. }
  split_and!; [apply Hj|apply Hj|lia|lia|]. unfold runOnDevices_returned. rewrite orb_false_r, orb_true_iff, !bool_decide_eq_true. intros Hd. split.
  - rewrite (j_taken _ Hj). f_equal. destruct Hd as [->|Hd]; [lia|]. destruct (decide (size = 0%nat)) as [->|Hs]; [lia|].
    enough (size ≤ next_index j)%nat by lia. apply (j_done _ Hj), list_elem_of_lookup.
    exists 0%nat. apply (j_joined _ Hj). specialize (Hz Hs). lia.
  - intros k w Hk. pose proof (lookup_lt_Some _ _ _ Hk). rewrite (j_joined _ Hj) in Hk by lia. by injection Hk as <-.
Qed.

(** The call returns: it takes at most two steps for each address and three for each worker, however the threads
    interleave, and as long as it has not returned some thread can go on, provided that every task ends. *)
Theorem every_device_terminates tr j :
  proceed tr started = Some j →
  (length tr ≤ 2 * size + 3 * workers_count)%nat ∧ (runOnDevices_returned true j = true ∨ ∃ m j', advance m j = Some j').
Proof.
  intros Hr. pose proof (proceed_bounded _ _ _ started_ok Hr) as Hb. pose proof (proceed_ok _ _ _ started_ok Hr) as Hj. split.
  - unfold steps_left in Hb. cbn in Hb. lia.
  - destruct (decide (joined j = workers_count)) as [E|]; [left|right; by apply advance_progress].
    unfold runOnDevices_returned. by rewrite (bool_decide_true _ E), orb_true_r.
Qed.
End job.

(** Three addresses and two workers; the first task throws. *)
Definition demo_moves : list move :=
  [Spawn; Take 0; Spawn; Take 1; End 1 false; End 0 true; Take 1; Take 0; End 1 false; Join; Take 1; Join].

Lemma every_device_once_witness :
  let j := default started (proceed 3 2 demo_moves started) in
  taken j = seq 0 (next_index j `min` 3) ∧
  (∀ k k' i, workers j !! k = Some (Task i) → workers j !! k' = Some (Task i) → k = k') ∧
  (length (workers j) ≤ 3)%nat ∧ (2%nat ≠ 0%nat → (length (workers j) ≤ 2)%nat) ∧
  (runOnDevices_returned 3 2 true j = true → taken j = seq 0 3 ∧ ∀ k w, workers j !! k = Some w → w = Returned).
Proof. intros j. apply (every_device_once 3 2 demo_moves j). reflexivity. Defined.

Lemma every_device_terminates_witness :
  let j := default started (proceed 3 2 demo_moves started) in
  (length demo_moves ≤ 2 * 3 + 3 * workers_count 3 2)%nat ∧ (runOnDevices_returned 3 2 true j = true ∨ ∃ m j', advance 3 2 m j = Some j').
Proof. intros j. apply (every_device_terminates 3 2 demo_moves j). reflexivity. Defined.
