(* ===== verification/Device.v ===== *)
(** * libadb: the operations of one device

    Models adb/lib/src/api/device.cpp: [FacadeListener] with the callbacks that
    adb/lib/src/AdbDevice.cpp makes, [TransferDeadline] and the abort test of
    [make_observer], the phases and time limits of an installation ([monitor_install],
    [run_install_attempt]) and [Device::install] with its retries.

    Time is a number of milliseconds.  What a function reads from the clock, from other
    threads and from the device is an argument: one [tick] per round of [monitor_install],
    one [attempt_env] per run of the package manager.  Log lines are not modelled; the
    events of the operation that carry its phase and its heartbeat are the [notes] of the
    monitor. *)

From S2P Require Import Prelude Strings Transport Libadb.

(** ** FacadeListener *)

Record listener := mkListener {
  l_serial : bytes; l_online : bool; l_auth_required : bool; l_failed : bool; l_error : bytes
}.
Definition new_listener (serial : bytes) : listener := mkListener serial false false false [].

(** The event a callback publishes: its type, status and text. *)
Definition device_event : Type := EventType.event_type * Status.status * bytes.

Definition first_error (l : listener) (text : bytes) : bytes :=
  if bool_decide (l_error l = []) then text else l_error l.

Definition onConnectionStateChanged (serial : bytes) (state : ConnectionState) (l0 : listener)
    : listener * option device_event :=
  let l := mkListener (if bool_decide (serial = []) then l_serial l0 else serial)
             (l_online l0) (l_auth_required l0) (l_failed l0) (l_error l0) in
  match state with
  | kCsDevice => (mkListener (l_serial l) true false (l_failed l) (l_error l), None)
  | kCsUnauthorized =>
      (mkListener (l_serial l) (l_online l) true (l_failed l) (l_error l),
       Some (EventType.DeviceUnauthorized, Status.Unauthorized, txt "device is unauthorized"))
  | kCsNoPerm =>
      let text := txt "insufficient permissions to talk to the device" in
      (mkListener (l_serial l) (l_online l) (l_auth_required l) true (first_error l text),
       Some (EventType.DeviceLost, Status.ConnectFailed, text))
  | kCsOffline | kCsDetached =>
      if l_online l then
        let text := txt "device went offline" in
        (mkListener (l_serial l) false (l_auth_required l) true (first_error l text),
         Some (EventType.DeviceLost, Status.DeviceLost, text))
      else (l, None)
  | _ => (l, None)
  end.

Definition onAuthRequired (l : listener) : listener * option device_event :=
  (mkListener (l_serial l) (l_online l) true (l_failed l) (l_error l),
   Some (EventType.DeviceAuthRequired, Status.AuthRequired,
         txt "authorization required: accept the RSA key on the device")).

Definition onError (msg : bytes) (l : listener) : listener * option device_event :=
  (mkListener (l_serial l) (l_online l) (l_auth_required l) true msg,
   Some (EventType.InternalError, Status.Internal, msg)).

Definition take_error (l : listener) : bytes * listener :=
  (l_error l, mkListener (l_serial l) (l_online l) (l_auth_required l) (l_failed l) []).

(** The callbacks of [AdbDevice]: [initiateConnection] (at once, and when its thread has an
    answer), [close] and [notifyError]. *)
Inductive callback :=
  | Connecting (serial : bytes)
  | Connected (actual_serial : bytes)
  | Detached (serial : bytes)
  | Failed (msg : bytes).

Definition apply_callback (cb : callback) (l : listener) : listener :=
  match cb with
  | Connecting serial => (onConnectionStateChanged serial kCsConnecting l).1
  | Connected serial => (onConnectionStateChanged serial kCsDevice l).1
  | Detached serial => (onConnectionStateChanged serial kCsDetached l).1
  | Failed msg => (onError msg l).1
  end.

(** [wait_until_online]: the callbacks that arrive before the time is over. *)
Definition wait_pred (l : listener) : bool := l_online l || l_failed l || l_auth_required l.
Fixpoint wait_until_online (cbs : list callback) (l : listener) : Status.status :=
  match wait_pred l, cbs with
  | false, cb :: cbs => wait_until_online cbs (apply_callback cb l)
  | signaled, _ =>
      if l_online l then Status.Ok
      else if l_auth_required l then Status.AuthRequired
      else if l_failed l then Status.ConnectFailed
      else if signaled then Status.ConnectFailed else Status.ConnectTimeout
  end.

(** ** Transfers *)

Record TransferTimeout := mkTransferTimeout { total : Z; stall : Z }.
Record TransferDeadline := mkDeadline {
  d_timeout : TransferTimeout; d_start : Z; last_progress : Z; d_reason : Status.status
}.

Definition touch (now : Z) (d : TransferDeadline) : TransferDeadline :=
  mkDeadline (d_timeout d) (d_start d) now (d_reason d).

Definition expired (now : Z) (d : TransferDeadline) : Status.status :=
  if (0 <? total (d_timeout d)) && (total (d_timeout d) <=? now - d_start d) then Status.CommandTimeout
  else if (0 <? stall (d_timeout d)) && (stall (d_timeout d) <=? now - last_progress d) then Status.StallTimeout
  else Status.Ok.

Definition set_reason (r : Status.status) (d : TransferDeadline) : TransferDeadline :=
  mkDeadline (d_timeout d) (d_start d) (last_progress d) r.

(** [should_abort] of [make_observer]; [cancel] is the status of a cancelled operation. *)
Definition should_abort (cancel : option Status.status) (now : Z) (d : TransferDeadline) : bool * TransferDeadline :=
  if negb (bool_decide (d_reason d = Status.Ok)) then (true, d) else
  match cancel with
  | Some s => (true, set_reason s d)
  | None =>
      let reason := expired now d in
      if bool_decide (reason = Status.Ok) then (false, d) else (true, set_reason reason d)
  end.

(** A transfer: blocks arrive ([touch]) and the sender asks whether to stop. *)
Inductive transfer_event := Block (now : Z) | Ask (now : Z) (cancel : option Status.status).
Definition event_time (e : transfer_event) : Z := match e with Block now | Ask now _ => now end.
Fixpoint watch (es : list transfer_event) (d : TransferDeadline) : TransferDeadline :=
  match es with
  | [] => d
  | Block now :: es => watch es (touch now d)
  | Ask now cancel :: es =>
      let '(abort, d') := should_abort cancel now d in if abort then d' else watch es d'
  end.

(** ** Watching an installation *)

Record InstallTimeout := mkInstallTimeout {
  prepare : Z; create_session : Z; it_transfer : TransferTimeout; commit : Z;
  commit_healthcheck : HealthCheckMode.health_check_mode;
  commit_healthcheck_interval : Z; commit_healthcheck_failures : Z
}.
Definition default_install_timeout : InstallTimeout :=
  mkInstallTimeout 60000 30000 (mkTransferTimeout 0 30000) (15 * 60000) HealthCheckMode.Transport 10000 3.

Inductive note := PhaseNote (p : Phase.phase) | Heartbeat.

Record monitor := mkMonitor {
  m_phase : Phase.phase; m_abort : bool; m_reason : Status.status; m_message : bytes;
  health_failures : Z; commit_started : Z; last_health : Z; notes : list note
}.
Definition new_monitor : monitor := mkMonitor Phase.CreateSession false Status.Ok [] 0 (-1) 0 [].

(** What one round of the loop reads. *)
Record tick := mkTick {
  t_done : bool; t_cancel : option Status.status; t_now : Z;
  t_transferring : bool; t_last_progress : Z;
  t_transport : bool; t_online : bool; t_shell_ok : bool
}.

Definition health_check_ok (mode : HealthCheckMode.health_check_mode) (k : tick) : bool :=
  match mode with
  | HealthCheckMode.None => true
  | HealthCheckMode.Transport => t_transport k && t_online k
  | HealthCheckMode.Shell => t_transport k && t_shell_ok k
  end.

Definition abandon (reason : Status.status) (text : bytes) (m : monitor) : monitor :=
  mkMonitor (m_phase m) true reason text (health_failures m) (commit_started m) (last_health m) (notes m).
Definition enter_transfer (m : monitor) : monitor :=
  if bool_decide (m_phase m = Phase.Transfer) then m else
  mkMonitor Phase.Transfer (m_abort m) (m_reason m) (m_message m) (health_failures m) (commit_started m)
    (last_health m) (notes m ++ [PhaseNote Phase.Transfer]).
Definition enter_commit (now : Z) (m : monitor) : monitor :=
  if bool_decide (m_phase m = Phase.Commit) then m else
  mkMonitor Phase.Commit (m_abort m) (m_reason m) (m_message m) (health_failures m) now now
    (notes m ++ [PhaseNote Phase.Commit]).
Definition checked (now : Z) (healthy : bool) (m : monitor) : monitor :=
  mkMonitor (m_phase m) (m_abort m) (m_reason m) (m_message m)
    (if healthy then 0 else health_failures m + 1) (commit_started m) now
    (if healthy then notes m ++ [Heartbeat] else notes m).

(** The commit phase of one round; [true] when the loop ends. *)
Definition commit_round (tmo : InstallTimeout) (k : tick) (m0 : monitor) : bool * monitor :=
  let now := t_now k in
  let m := enter_commit now m0 in
  if (0 <? commit tmo) && (commit tmo <=? now - commit_started m) then
    (true, abandon Status.CommandTimeout (txt "pm install-commit did not finish in time") m)
  else if bool_decide (commit_healthcheck tmo = HealthCheckMode.None) || (commit_healthcheck_interval tmo <=? 0)
  then (false, m)
  else if now - last_health m <? commit_healthcheck_interval tmo then (false, m)
  else
    let healthy := health_check_ok (commit_healthcheck tmo) k in
    let m := checked now healthy m in
    if negb healthy && (commit_healthcheck_failures tmo <=? health_failures m) then
      (true, abandon Status.DeviceLost (txt "device stopped responding while committing") m)
    else (false, m).

Definition transfer_round (tmo : InstallTimeout) (k : tick) (m0 : monitor) : bool * monitor :=
  let m := enter_transfer m0 in
  let tt := it_transfer tmo in
  if (0 <? total tt) && (total tt <=? t_now k) then
    (true, abandon Status.CommandTimeout (txt "install transfer exceeded the total timeout") m)
  else if (0 <? stall tt) && (stall tt <=? t_now k - t_last_progress k) then
    (true, abandon Status.StallTimeout (txt "install transfer stalled") m)
  else (false, m).

Definition monitor_round (tmo : InstallTimeout) (k : tick) (m : monitor) : bool * monitor :=
  if t_done k then (true, m) else
  match t_cancel k with
  | Some s =>
      (true, abandon s (if bool_decide (m_phase m = Phase.Commit)
                        then txt "install canceled while committing: the device keeps installing"
                        else txt "install canceled") m)
  | None =>
      if negb (t_transferring k) then
        if (0 <? create_session tmo) && (create_session tmo <=? t_now k)
        then (true, abandon Status.CommandTimeout (txt "pm install-create did not respond in time") m)
        else (false, m)
      else if bool_decide (m_phase m = Phase.Commit) || (1000 <=? t_now k - t_last_progress k)
      then commit_round tmo k m
      else transfer_round tmo k m
  end.

(** The rounds until the installation is done or given up; the list ends when the worker
    has finished. *)
Fixpoint monitor_install (tmo : InstallTimeout) (ks : list tick) (m : monitor) : monitor :=
  match ks with
  | [] => m
  | k :: ks => let '(stop, m') := monitor_round tmo k m in if stop then m' else monitor_install tmo ks m'
  end.

(** ** One run of the package manager *)

Record attempt_env := mkAttempt {
  e_ticks : list tick; e_install_ok : bool; e_output : bytes;
  e_payload : Z; e_on_wire : Z; e_duration : Z; e_transfer_duration : Z
}.

Definition with_outcome (status : Status.status) (code : Z) (error remote : bytes) (ph : Phase.phase) (r : Result) : Result :=
  mkResult status code error remote (output r) ph (retries r) (r_duration r) (transfer r).

Definition run_install_attempt (tmo : InstallTimeout) (apk_size : Z) (e : attempt_env) : Result :=
  let m := monitor_install tmo (e_ticks e) new_monitor in
  let ok := e_install_ok e && bool_decide (m_reason m = Status.Ok) in
  let payload := if 0 <? e_payload e then e_payload e else apk_size in
  let r := fill_transfer_stats
             (mkResult Status.Ok 0 [] [] (e_output e) Phase.None 0 (e_duration e) no_stats)
             payload (e_on_wire e) (e_transfer_duration e) in
  if ok then with_outcome Status.Ok 0 [] [] Phase.Finalize r
  else if negb (bool_decide (m_reason m = Status.Ok)) then
    with_outcome (m_reason m) (-1) (m_message m) [] (m_phase m) r
  else
    let code := parse_failure_code (e_output e) in
    with_outcome (status_from_install_code code) 1
      (if bool_decide (code = []) then txt "install failed" else code) code Phase.Commit r.

(** ** install *)

Record InstallOptions := mkInstallOptions {
  reinstall : bool; allow_downgrade : bool; grant_permissions : bool; extra_args : list bytes;
  kind : InstallKind.install_kind; on_conflict : ConflictPolicy.conflict_policy;
  package_name_source : PackageNameSource.package_name_source; package_name : bytes;
  allow_downgrade_retry : bool; user_id : Z
}.

(** What [install] asks of the device. *)
Inductive device_call := Attempt (flags : list bytes) | Uninstall (package : bytes).

Definition pm_flags (o : InstallOptions) : list bytes :=
  (if reinstall o then [txt "-r"] else []) ++
  (if allow_downgrade o then [txt "-d"] else []) ++
  (if grant_permissions o then [txt "-g"] else []) ++
  (if 0 <=? user_id o then [txt "--user"; dec (user_id o)] else []) ++
  extra_args o.

(** The package to remove on a signature conflict. *)
Definition conflict_package (o : InstallOptions) (out : bytes) : bytes :=
  if negb (bool_decide (package_name_source o = PackageNameSource.Explicit)) &&
     (bool_decide (package_name o = []) || bool_decide (package_name_source o = PackageNameSource.Auto))
  then
    let detected := package_name_from_output out in
    if bool_decide (detected = []) then package_name o else detected
  else package_name o.

Definition bump_retries (r : Result) : Result :=
  mkResult (r_status r) (exit_code r) (r_error r) (remote_code r) (output r) (r_phase r) (retries r + 1)
    (r_duration r) (transfer r).
Definition set_error (e : bytes) (r : Result) : Result :=
  mkResult (r_status r) (exit_code r) e (remote_code r) (output r) (r_phase r) (retries r) (r_duration r) (transfer r).
Definition set_r_status (s : Status.status) (r : Result) : Result :=
  mkResult s (exit_code r) (r_error r) (remote_code r) (output r) (r_phase r) (retries r) (r_duration r) (transfer r).
Definition set_duration (d : Z) (r : Result) : Result :=
  mkResult (r_status r) (exit_code r) (r_error r) (remote_code r) (output r) (r_phase r) (retries r) d (transfer r).

Section install.
(** The device and the machine: is it online, the size of a local file, the files of an
    unpacked bundle and the time that took, the n-th run of the package manager with the
    given flags, the answer to an uninstall, and whether the operation is cancelled when it
    is asked for the n-th time. *)
Variable is_online : bool.
Variable file_size : bytes → Z.
Variable expandApks : list bytes → list bytes.
Variable unpack_time : Z.
Variable pm_run : nat → list bytes → attempt_env.
Variable uninstall : bytes → Result.
Variable canceled : nat → bool.
Variable elapsed : Z.

Definition fail (status : Status.status) (ph : Phase.phase) (msg : bytes) : Result :=
  mkResult status 0 msg [] [] ph 0 elapsed no_stats.

(** The second attempt after a refused downgrade. *)
Definition downgrade_retry (tmo : InstallTimeout) (size : Z) (o : InstallOptions) (flags : list bytes) (r : Result)
    : Result * list device_call :=
  if bool_decide (r_status r = Status.VersionDowngrade) && allow_downgrade_retry o &&
     negb (allow_downgrade o) && negb (canceled 0)
  then
    let retry_flags := txt "-d" :: flags in
    (bump_retries (run_install_attempt tmo size (pm_run 1 retry_flags)), [Attempt retry_flags])
  else (r, []).

(** Removing the package and installing again after a signature conflict. *)
Definition conflict_retry (tmo : InstallTimeout) (size : Z) (o : InstallOptions) (flags : list bytes) (r : Result)
    : Result * list device_call :=
  if bool_decide (r_status r = Status.SignatureMismatch) &&
     bool_decide (on_conflict o = ConflictPolicy.Reinstall) && negb (canceled 1)
  then
    let package := conflict_package o (output r) in
    if bool_decide (package = []) then
      let r := set_error (txt "signature mismatch: package name is unknown, set InstallOptions::package_name") r in
      (if bool_decide (package_name_source o = PackageNameSource.Explicit)
       then set_r_status Status.InvalidArgument r else r, [])
    else
      let removed := uninstall package in
      if negb (ok removed) then
        (set_error (txt "signature mismatch: cannot uninstall " ++ package ++ txt ": " ++ r_error removed) r,
         [Uninstall package])
      else
        (bump_retries (run_install_attempt tmo size (pm_run 2 flags)), [Uninstall package; Attempt flags])
  else (r, []).

(** The attempts, once the files are known. *)
Definition install_files (tmo : InstallTimeout) (files : list bytes) (o : InstallOptions) : Result * list device_call :=
  let size := u64 (foldr (λ f acc, file_size f + acc) 0 files) in
  let flags := pm_flags o in
  let r0 := run_install_attempt tmo size (pm_run 0 flags) in
  let '(r1, c1) := downgrade_retry tmo size o flags r0 in
  let '(r2, c2) := conflict_retry tmo size o flags r1 in
  (set_duration elapsed r2, Attempt flags :: c1 ++ c2).

Definition missing_file (paths : list bytes) : option bytes :=
  snd <$> list_find (λ p, file_size p = 0) paths.

Definition install (tmo : InstallTimeout) (paths : list bytes) (o : InstallOptions) : Result * list device_call :=
  if bool_decide (paths = []) then (fail Status.InvalidArgument Phase.Prepare (txt "no files to install"), [])
  else if bool_decide (on_conflict o = ConflictPolicy.ReinstallKeepData) then
    (fail Status.NotImplemented Phase.Prepare
       (txt "ConflictPolicy::ReinstallKeepData is reserved and not implemented"), [])
  else if negb is_online then (device_lost_result Command.Install, [])
  else
    let k := resolve_install_kind (kind o) paths in
    match missing_file paths with
    | Some path => (fail Status.LocalFileError Phase.Prepare (txt "file not found or empty: " ++ path), [])
    | None =>
        if bool_decide (k = InstallKind.Single) && (1 <? length paths)%nat then
          (fail Status.InvalidArgument Phase.Prepare (txt "InstallKind::Single expects exactly one file"), [])
        else if bool_decide (k = InstallKind.Bundle) then
          let files := expandApks paths in
          if bool_decide (files = []) then
            (fail Status.InvalidApk Phase.Prepare
               (txt "cannot expand bundle (.apks/.zip): no apk inside or unzip failed"), [])
          else if (0 <? prepare tmo) && (prepare tmo <? unpack_time) then
            (fail Status.CommandTimeout Phase.Prepare
               (txt "unpacking the bundle took longer than InstallTimeout::prepare"), [])
          else install_files tmo files o
        else install_files tmo paths o
    end.
End install.
