(* ===== verification/DeviceInv.v ===== *)
(** * libadb: what the device operations promise

    Theorems about the model of Device.v: what [connect] can report, that transfers are
    given up only for the reason they report, what the installation monitor can and cannot
    detect, and what [install] may do to the device. *)

From S2P Require Import Prelude Strings Transport Libadb Device.

(** ** Connecting *)

Lemma wait_no_auth cbs : ∀ l, l_auth_required l = false → wait_until_online cbs l ≠ Status.AuthRequired ∧
  (wait_until_online cbs l = Status.Ok ∨ wait_until_online cbs l = Status.ConnectFailed ∨
   wait_until_online cbs l = Status.ConnectTimeout).
Proof.
  induction cbs as [|cb cbs IH]; intros l Ha; cbn [wait_until_online].
  - rewrite Ha. destruct (wait_pred l), (l_online l), (l_failed l); naive_solver.
  - destruct (wait_pred l) eqn:Ew.
    + rewrite Ha. destruct (l_online l), (l_failed l); naive_solver.
    + apply IH. destruct cb; cbn; try done. unfold onConnectionStateChanged. cbn. by destruct (l_online l).
Qed.

(** [connect] never reports that the device waits for its key to be accepted: whatever
    callbacks the device object makes before the time is over, [wait_until_online] answers
    [Ok], [ConnectFailed] or [ConnectTimeout].  No caller of [onAuthRequired] exists, and no
    state that asks for authorization is passed on. *)
Theorem connect_never_reports_auth cbs serial :
  let s := wait_until_online cbs (new_listener serial) in
  s = Status.Ok ∨ s = Status.ConnectFailed ∨ s = Status.ConnectTimeout.
Proof. by apply wait_no_auth. Qed.

(** ** Transfers *)

(** The time of the last block, or of the progress before the first event. *)
Fixpoint last_block (es : list transfer_event) (t0 : Z) : Z :=
  match es with
  | [] => t0
  | Block now :: es => last_block es now
  | Ask _ _ :: es => last_block es t0
  end.

Definition cancel_status_ok (s : option Status.status) : Prop :=
  s = None ∨ s = Some Status.Canceled ∨ s = Some Status.ConnectionClosed.

Lemma watch_reason es : ∀ d,
  d_reason d = Status.Ok → d_reason (watch es d) ≠ Status.Ok →
  ∃ pre now cancel post, es = pre ++ Ask now cancel :: post ∧
    match cancel with
    | Some s => d_reason (watch es d) = s
    | None =>
        let tt := d_timeout d in
        (d_reason (watch es d) = Status.CommandTimeout ∧ 0 < total tt ≤ now - d_start d) ∨
        (d_reason (watch es d) = Status.StallTimeout ∧ 0 < stall tt ≤ now - last_block pre (last_progress d))
    end.
Proof.
  induction es as [|e es IH]; intros d Hok Hne; [done|]. destruct e as [now|now cancel]; cbn [watch] in *.
  - destruct (IH (touch now d) Hok Hne) as (pre & now' & cancel & post & -> & Hc).
    exists (Block now :: pre), now', cancel, post. split; [done|]. exact Hc.
  - unfold should_abort in *. rewrite Hok in *. cbn [negb bool_decide decide status_eq_dec] in *.
    destruct cancel as [s|].
    + exists [], now, (Some s), es. done.
    + rewrite bool_decide_eq_true_2 in * by done. cbn [negb] in *. cbv zeta in *.
      case_bool_decide as He.
      * destruct (IH d Hok Hne) as (pre & now' & cancel & post & -> & Hc).
        exists (Ask now None :: pre), now', cancel, post. split; [done|]. exact Hc.
      * exists [], now, None, es. split; [done|]. cbn [d_reason set_reason last_block]. unfold expired in *.
        destruct ((0 <? total (d_timeout d)) && _) eqn:E1.
        { apply andb_true_iff in E1 as [?%Z.ltb_lt ?%Z.leb_le]. left. by split. }
        destruct ((0 <? stall (d_timeout d)) && _) eqn:E2; [|done].
        apply andb_true_iff in E2 as [?%Z.ltb_lt ?%Z.leb_le]. right. by split.
Qed.

(** A transfer is only given up for the reason it reports.  A watched transfer that is
    stopped with [StallTimeout] was asked at a moment at which no block had arrived for the
    whole stall time; one stopped with [CommandTimeout] had run for the whole total time;
    otherwise it was cancelled. *)
Theorem transfer_abort_has_cause es d :
  d_reason d = Status.Ok → Forall (λ e, match e with Ask _ c => cancel_status_ok c | _ => True end) es →
  (d_reason (watch es d) = Status.StallTimeout →
     ∃ pre now post, es = pre ++ Ask now None :: post ∧
       0 < stall (d_timeout d) ≤ now - last_block pre (last_progress d)) ∧
  (d_reason (watch es d) = Status.CommandTimeout →
     ∃ pre now post, es = pre ++ Ask now None :: post ∧ 0 < total (d_timeout d) ≤ now - d_start d).
Proof.
  intros Hok Hall.
  assert (d_reason (watch es d) ≠ Status.Ok → ∃ pre now cancel post, es = pre ++ Ask now cancel :: post ∧
    cancel_status_ok cancel ∧ match cancel with
    | Some s => d_reason (watch es d) = s
    | None =>
        let tt := d_timeout d in
        (d_reason (watch es d) = Status.CommandTimeout ∧ 0 < total tt ≤ now - d_start d) ∨
        (d_reason (watch es d) = Status.StallTimeout ∧ 0 < stall tt ≤ now - last_block pre (last_progress d))
    end) as Hw.
  { intros Hne. destruct (watch_reason es d Hok Hne) as (pre & now & cancel & post & -> & Hc).
    exists pre, now, cancel, post. split_and!; try done. apply Forall_app in Hall as [_ Hall].
    by apply Forall_cons in Hall as [? _]. }
  split; intros E; rewrite E in Hw; destruct Hw as (pre & now & cancel & post & -> & Hc & Hr); try done;
    destruct cancel as [s|]; cbn in Hr;
    try (destruct Hc as [?|[?|?]]; congruence);
    destruct Hr as [[? ?]|[? ?]]; try done; eauto.
Qed.

Lemma transfer_abort_has_cause_witness :
  let d := mkDeadline (mkTransferTimeout 0 30000) 0 0 Status.Ok in
  ∃ pre now post, [Ask 10 None; Block 20; Ask 30030 None] = pre ++ Ask now None :: post ∧
    0 < 30000 ≤ now - last_block pre 0.
Proof.
  intros d. apply (transfer_abort_has_cause [Ask 10 None; Block 20; Ask 30030 None] d); [done| |done].
  repeat constructor.
Defined.

(** ** Installing: the monitor *)

Definition tick_ok (k : tick) : Prop := cancel_status_ok (t_cancel k).

(** The reason of a round's result. *)
Ltac rs := cbn [fst snd m_reason abandon checked]; (split; first [done | congruence | intros; congruence]).

Lemma monitor_not_stalled tmo ks : ∀ m,
  1000 ≤ stall (it_transfer tmo) → Forall tick_ok ks → m_reason m = Status.Ok →
  m_reason (monitor_install tmo ks m) ≠ Status.StallTimeout.
Proof.
  induction ks as [|k ks IH]; intros m Hs Hks Hm; [cbn; congruence|]. cbn [monitor_install].
  apply Forall_cons in Hks as [Hk Hks].
  assert (m_reason (monitor_round tmo k m).2 ≠ Status.StallTimeout ∧
    ((monitor_round tmo k m).1 = false → m_reason (monitor_round tmo k m).2 = Status.Ok)) as [H1 H2].
  { unfold monitor_round. destruct (t_done k); [rs|].
    destruct (t_cancel k) as [s|] eqn:Ec.
    { cbn. split; [|done]. unfold tick_ok in Hk. rewrite Ec in Hk. destruct Hk as [?|[?|?]]; congruence. }
    destruct (negb (t_transferring k)); [destruct (_ && _); cbn; split; congruence|].
    destruct (_ || _) eqn:Eor.
    - clear Eor.
      assert (m_reason (enter_commit (t_now k) m) = Status.Ok) as He by (unfold enter_commit; by case_bool_decide).
      unfold commit_round. cbv zeta. destruct (_ && _); [rs|]. destruct (_ || _); [rs|].
      destruct (_ <? _); [rs|]. destruct (negb _ && _); rs.
    - apply orb_false_iff in Eor as [_ El%Z.leb_gt].
      assert (m_reason (enter_transfer m) = Status.Ok) as He by (unfold enter_transfer; by case_bool_decide).
      unfold transfer_round. cbv zeta. destruct (_ && (total _ <=? _)); [rs|].
      destruct (Z.leb_spec (stall (it_transfer tmo)) (t_now k - t_last_progress k)); [lia|].
      rewrite andb_false_r. rs. }
  destruct (monitor_round tmo k m) as [[] m']; cbn in *; [done|]. apply IH; auto.
Qed.

(** The stall limit of an installation never fires.  A second without progress already
    counts as the commit phase, so with any stall limit of a second or more (the default is
    thirty) no sequence of observations makes the monitor report [StallTimeout]: a dead
    channel is treated as a long commit. *)
Theorem install_stall_never_detected tmo ks :
  1000 ≤ stall (it_transfer tmo) → Forall tick_ok ks →
  m_reason (monitor_install tmo ks new_monitor) ≠ Status.StallTimeout.
Proof. intros. by apply monitor_not_stalled. Qed.

(** No byte moves for ten minutes after the first block. *)
Definition stalled_tick (now : Z) : tick := mkTick false None now true 500 true true true.

Lemma install_stall_never_detected_witness :
  let m := monitor_install default_install_timeout (stalled_tick <$> [600; 2000; 60000; 600000]) new_monitor in
  m_reason m ≠ Status.StallTimeout ∧ m_phase m = Phase.Commit ∧ m_reason m = Status.Ok.
Proof.
  split; [|by vm_compute]. apply install_stall_never_detected; [done|].
  repeat constructor.
Defined.

Definition unhealthy (tmo : InstallTimeout) (k : tick) : Prop :=
  health_check_ok (commit_healthcheck tmo) k = false.
#[global] Instance unhealthy_dec tmo k : Decision (unhealthy tmo k).
Proof. unfold unhealthy. apply _. Defined.

(** One round counts at most one failure, and only an unhealthy one. *)
Lemma round_failures tmo k m :
  health_failures m ≤ health_failures (monitor_round tmo k m).2 ≤ health_failures m + (if decide (unhealthy tmo k) then 1 else 0) ∨
  health_failures (monitor_round tmo k m).2 = 0.
Proof.
  assert (0 ≤ if decide (unhealthy tmo k) then 1 else 0) by (case_decide; lia).
  assert (∀ now, health_failures (enter_commit now m) = health_failures m) as Hc
    by (intros; unfold enter_commit; by case_bool_decide).
  assert (health_failures (enter_transfer m) = health_failures m) as Ht by (unfold enter_transfer; by case_bool_decide).
  unfold monitor_round, commit_round, transfer_round. cbv zeta.
  destruct (t_done k); [left; cbn; lia|]. destruct (t_cancel k); [left; cbn; lia|].
  destruct (negb (t_transferring k)); [destruct (_ && _); left; cbn; lia|].
  destruct (_ || _).
  - destruct (_ && _); [left; cbn [snd health_failures abandon]; rewrite Hc; lia|].
    destruct (_ || _); [left; cbn [snd]; rewrite Hc; lia|].
    destruct (_ <? _); [left; cbn [snd]; rewrite Hc; lia|].
    destruct (health_check_ok (commit_healthcheck tmo) k) eqn:E; cbn [negb andb].
    + right. done.
    + rewrite decide_True by done. left.
      destruct (_ <=? _); cbn [snd health_failures abandon checked]; rewrite Hc; lia.
  - destruct (_ && _); [left; cbn [snd health_failures abandon]; rewrite Ht; lia|].
    destruct (_ && _); left; cbn [snd health_failures abandon]; rewrite Ht; lia.
Qed.

(** A round that gives the device up has just counted enough failures. *)
Lemma round_lost tmo k m :
  tick_ok k → m_reason m = Status.Ok → m_reason (monitor_round tmo k m).2 = Status.DeviceLost →
  commit_healthcheck_failures tmo ≤ health_failures (monitor_round tmo k m).2.
Proof.
  assert (∀ now, m_reason (enter_commit now m) = m_reason m) as Hc
    by (intros; unfold enter_commit; by case_bool_decide).
  assert (m_reason (enter_transfer m) = m_reason m) as Ht by (unfold enter_transfer; by case_bool_decide).
  intros Hk Hm. unfold monitor_round, commit_round, transfer_round. cbv zeta.
  destruct (t_done k); [cbn; congruence|].
  destruct (t_cancel k) as [s|] eqn:Ec.
  { cbn. intros ->. unfold tick_ok in Hk. rewrite Ec in Hk. destruct Hk as [?|[?|?]]; congruence. }
  destruct (negb (t_transferring k)); [destruct (_ && _); cbn; congruence|].
  destruct (_ || _).
  - destruct (_ && _); [done|]. destruct (_ || _); [cbn [snd]; rewrite Hc; congruence|].
    destruct (_ <? _); [cbn [snd]; rewrite Hc; congruence|].
    destruct (health_check_ok (commit_healthcheck tmo) k); cbn [negb andb].
    + cbn [snd m_reason checked]. rewrite Hc. congruence.
    + destruct (_ <=? _) eqn:El; [by apply Z.leb_le in El|]. cbn [snd m_reason checked]. rewrite Hc. congruence.
  - destruct (_ && _); [done|]. destruct (_ && _); [done|]. cbn [snd]. rewrite Ht. congruence.
Qed.

Lemma round_goes_on tmo k m :
  m_reason m = Status.Ok → (monitor_round tmo k m).1 = false → m_reason (monitor_round tmo k m).2 = Status.Ok.
Proof.
  assert (∀ now, m_reason (enter_commit now m) = m_reason m) as Hc
    by (intros; unfold enter_commit; by case_bool_decide).
  assert (m_reason (enter_transfer m) = m_reason m) as Ht by (unfold enter_transfer; by case_bool_decide).
  intros Hm. unfold monitor_round, commit_round, transfer_round. cbv zeta.
  destruct (t_done k); [done|]. destruct (t_cancel k); [done|].
  destruct (negb (t_transferring k)); [by destruct (_ && _)|]. destruct (_ || _).
  - destruct (_ && _); [done|]. destruct (_ || _); [cbn [snd]; congruence|].
    destruct (_ <? _); [cbn [snd]; congruence|]. destruct (negb _ && _); [done|].
    cbn [snd m_reason checked]. rewrite Hc. congruence.
  - destruct (_ && _); [done|]. destruct (_ && _); [done|]. cbn [snd]. congruence.
Qed.

Definition unhealthy_count (tmo : InstallTimeout) (ks : list tick) : Z := llen (filter (unhealthy tmo) ks).

Lemma unhealthy_cons tmo k ks :
  unhealthy_count tmo (k :: ks) = (if decide (unhealthy tmo k) then 1 else 0) + unhealthy_count tmo ks.
Proof. unfold unhealthy_count. rewrite filter_cons. case_decide; rewrite ?llen_cons; lia. Qed.

Lemma lost_needs_failures tmo ks : ∀ m,
  Forall tick_ok ks → m_reason m = Status.Ok → 0 ≤ health_failures m →
  m_reason (monitor_install tmo ks m) = Status.DeviceLost →
  commit_healthcheck_failures tmo ≤ health_failures m + unhealthy_count tmo ks.
Proof.
  induction ks as [|k ks IH]; intros m Hks Hm H0; [cbn; congruence|].
  apply Forall_cons in Hks as [Hk Hks]. cbn [monitor_install]. rewrite unhealthy_cons.
  pose proof (round_failures tmo k m) as Hf. pose proof (round_lost tmo k m Hk Hm) as Hl.
  pose proof (round_goes_on tmo k m Hm) as Hg.
  assert (0 ≤ if decide (unhealthy tmo k) then 1 else 0) by (case_decide; lia).
  assert (0 ≤ unhealthy_count tmo ks) by apply llen_nonneg.
  assert (0 ≤ health_failures (monitor_round tmo k m).2) as Hnn by lia.
  destruct (monitor_round tmo k m) as [[] m']; cbn [fst snd] in *; intros E.
  - specialize (Hl E). lia.
  - specialize (IH m' Hks (Hg eq_refl) Hnn E). lia.
Qed.

(** A device is declared lost during a commit only after the configured number of failed
    health checks: when the monitor gives up with [DeviceLost], at least that many rounds
    found the device unhealthy. *)
Theorem device_lost_needs_failed_checks tmo ks :
  Forall tick_ok ks → m_reason (monitor_install tmo ks new_monitor) = Status.DeviceLost →
  commit_healthcheck_failures tmo ≤ unhealthy_count tmo ks.
Proof. intros Hks E. by apply (lost_needs_failures tmo ks new_monitor) in E. Qed.

Definition dead_tick (now : Z) : tick := mkTick false None now true 500 false false false.

Lemma device_lost_needs_failed_checks_witness :
  3 ≤ unhealthy_count default_install_timeout (dead_tick <$> [2000; 12000; 22000; 32000]).
Proof. apply (device_lost_needs_failed_checks default_install_timeout); [repeat constructor|by vm_compute]. Defined.

(** ** Installing: the attempts *)

Definition is_attempt (c : device_call) : Prop := match c with Attempt _ => True | _ => False end.
#[global] Instance is_attempt_dec c : Decision (is_attempt c).
Proof. destruct c; apply _. Defined.
Definition attempts (cs : list device_call) : Z := llen (filter is_attempt cs).

Lemma attempt_retries tmo size e : retries (run_install_attempt tmo size e) = 0.
Proof. unfold run_install_attempt. cbv zeta. destruct (_ && _); [done|]. by destruct (negb _). Qed.

Section install_theorems.
Variable is_online : bool.
Variable file_size : bytes → Z.
Variable expandApks : list bytes → list bytes.
Variable unpack_time : Z.
Variable pm_run : nat → list bytes → attempt_env.
Variable uninstall : bytes → Result.
Variable canceled : nat → bool.
Variable elapsed : Z.
#[local] Abbreviation do_install :=
  (install is_online file_size expandApks unpack_time pm_run uninstall canceled elapsed).
#[local] Abbreviation do_install_files := (install_files file_size pm_run uninstall canceled elapsed).

(** [install] asks nothing of the device, or it runs the attempts on some files. *)
Lemma install_cases tmo paths o :
  (do_install tmo paths o).2 = [] ∧ retries (do_install tmo paths o).1 = 0 ∨
  ∃ files, do_install tmo paths o = do_install_files tmo files o.
Proof.
  unfold install.
  case_bool_decide; [by left|]. case_bool_decide; [by left|]. destruct (negb is_online); [by left|]. cbv zeta.
  destruct (missing_file _ _); [by left|]. destruct (_ && _); [by left|].
  case_bool_decide; [|right; by eexists]. case_bool_decide; [by left|].
  destruct (_ && _); [by left|]. right. by eexists.
Qed.

(** The conflict branch: when it removes a package, and which. *)
Lemma conflict_retry_cases tmo size o flags r :
  let '(r', cs) := conflict_retry pm_run uninstall canceled tmo size o flags r in
  (cs = [] ∧ retries r' = retries r) ∨
  (∃ p, p ≠ [] ∧ p = conflict_package o (output r) ∧ r_status r = Status.SignatureMismatch ∧
     on_conflict o = ConflictPolicy.Reinstall ∧
     (cs = [Uninstall p] ∧ retries r' = retries r ∨ cs = [Uninstall p; Attempt flags] ∧ retries r' = 1)).
Proof.
  unfold conflict_retry. destruct (_ && _) eqn:E; [|by left].
  rewrite !andb_true_iff, !bool_decide_eq_true in E. destruct E as ((Es & Ec) & _). cbv zeta.
  case_bool_decide; [left; by case_bool_decide|]. destruct (negb _);
    right; exists (conflict_package o (output r)); split_and!; try done; [by left|right].
  split; [done|]. cbn [retries bump_retries]. by rewrite attempt_retries.
Qed.

Lemma downgrade_retry_cases tmo size o flags r :
  downgrade_retry pm_run canceled tmo size o flags r = (r, []) ∨
  (r_status r = Status.VersionDowngrade ∧
   downgrade_retry pm_run canceled tmo size o flags r =
     (bump_retries (run_install_attempt tmo size (pm_run 1 (txt "-d" :: flags))), [Attempt (txt "-d" :: flags)])).
Proof.
  unfold downgrade_retry. destruct (_ && _) eqn:E; [|by left]. right. split; [|done].
  rewrite !andb_true_iff, !bool_decide_eq_true in E. tauto.
Qed.

Lemma conflict_package_source o out p :
  p ≠ [] → p = conflict_package o out →
  p = package_name o ∨ (package_name_source o ≠ PackageNameSource.Explicit ∧ p = package_name_from_output out).
Proof.
  intros Hp ->. unfold conflict_package. destruct (_ && _) eqn:E; [|by left]. cbv zeta.
  apply andb_true_iff in E as [E _]. apply negb_true_iff, bool_decide_eq_false in E.
  case_bool_decide; [by left|by right].
Qed.

(** The result that the conflict branch looks at is one of the attempts. *)
Definition an_attempt (tmo : InstallTimeout) (r : Result) : Prop :=
  ∃ size n flags, r = run_install_attempt tmo size (pm_run n flags) ∨
    r = bump_retries (run_install_attempt tmo size (pm_run n flags)).

(** A package is removed only on request.  [install] uninstalls a package only with
    [ConflictPolicy::Reinstall], after an attempt that ended in a signature conflict; the
    package is the one the caller named or, unless only the caller's name may be used, the
    one found in the package manager's text of that attempt; and it removes at most one. *)
Theorem install_uninstalls_only_on_request tmo paths o p :
  Uninstall p ∈ (do_install tmo paths o).2 →
  on_conflict o = ConflictPolicy.Reinstall ∧ p ≠ [] ∧
  (∃ r, an_attempt tmo r ∧ r_status r = Status.SignatureMismatch ∧
     (p = package_name o ∨
      (package_name_source o ≠ PackageNameSource.Explicit ∧ p = package_name_from_output (output r)))) ∧
  ∀ q, Uninstall q ∈ (do_install tmo paths o).2 → q = p.
Proof.
  destruct (install_cases tmo paths o) as [[-> _]|[files ->]]; [by intros ?%elem_of_nil|].
  unfold install_files. cbv zeta.
  set (size := u64 _). set (flags := pm_flags o).
  set (r0 := run_install_attempt tmo size (pm_run 0 flags)).
  assert (an_attempt tmo (downgrade_retry pm_run canceled tmo size o flags r0).1 ∧
    ∀ q, Uninstall q ∉ (downgrade_retry pm_run canceled tmo size o flags r0).2) as [Ha Hn].
  { destruct (downgrade_retry_cases tmo size o flags r0) as [-> | [_ ->]]; cbn.
    - split; [exists size, 0%nat, flags; by left|]. intros q. by intros ?%elem_of_nil.
    - split; [exists size, 1%nat, (txt "-d" :: flags); by right|]. intros q. by intros ?%list_elem_of_singleton. }
  destruct (downgrade_retry pm_run canceled tmo size o flags r0) as [r1 c1]. cbn [fst snd] in *.
  pose proof (conflict_retry_cases tmo size o flags r1) as Hc.
  destruct (conflict_retry pm_run uninstall canceled tmo size o flags r1) as [r2 c2]. cbn [snd].
  assert (∀ q, Uninstall q ∈ Attempt flags :: c1 ++ c2 → Uninstall q ∈ c2) as Hin.
  { intros q Hq. apply elem_of_cons in Hq as [?|Hq]; [done|].
    apply elem_of_app in Hq as [Hq|?]; [by destruct (Hn q)|done]. }
  destruct Hc as [[-> _]|(p0 & Hp0 & Ep & Es & Eo & Hcs)].
  { intros Hq%Hin. by apply elem_of_nil in Hq. }
  assert (∀ q, Uninstall q ∈ c2 → q = p0) as Hone.
  { intros q Hq. destruct Hcs as [[-> _]|[-> _]]; set_solver. }
  intros Hq. apply Hin, Hone in Hq as ->. split; [done|]. split; [done|]. split.
  - exists r1. split; [done|]. split; [done|]. by apply conflict_package_source.
  - intros q Hq%Hin. by apply Hone.
Qed.

(** How often an installation is tried, and what it reports.  [install] runs the
    package manager at most three times, and [Result::retries] is 1 as soon as there was
    more than one run, however many there were. *)
Theorem install_retries_is_a_flag tmo paths o :
  let '(r, cs) := do_install tmo paths o in
  0 ≤ attempts cs ≤ 3 ∧ retries r = (if 1 <? attempts cs then 1 else 0).
Proof.
  destruct (install_cases tmo paths o) as [[Hcs Hr]|[files ->]].
  { destruct (do_install tmo paths o) as [r cs]. cbn in *. subst cs. done. }
  unfold install_files. cbv zeta.
  set (size := u64 _). set (flags := pm_flags o).
  set (r0 := run_install_attempt tmo size (pm_run 0 flags)).
  assert (retries r0 = 0) as H0 by apply attempt_retries.
  assert (let '(r1, c1) := downgrade_retry pm_run canceled tmo size o flags r0 in
    (c1 = [] ∧ retries r1 = 0) ∨ (∃ f, c1 = [Attempt f]) ∧ retries r1 = 1) as Hd.
  { destruct (downgrade_retry_cases tmo size o flags r0) as [-> | [_ ->]]; [by left|].
    right. split; [by eexists|]. cbn [retries bump_retries]. by rewrite attempt_retries. }
  destruct (downgrade_retry pm_run canceled tmo size o flags r0) as [r1 c1].
  pose proof (conflict_retry_cases tmo size o flags r1) as Hc.
  destruct (conflict_retry pm_run uninstall canceled tmo size o flags r1) as [r2 c2].
  cbn [retries set_duration].
  destruct Hd as [[-> Hr1]|[[f ->] Hr1]];
    (destruct Hc as [[-> ->]|(p & _ & _ & _ & _ & [[-> ->]|[-> ->]])]; rewrite ?Hr1; by vm_compute).
Qed.
End install_theorems.

(** The first run refuses the downgrade, the second finds another signature, the third
    succeeds. *)
Definition pm_says (out : bytes) (succeeds : bool) : attempt_env := mkAttempt [] succeeds out 10 10 1 1.
Definition three_runs (n : nat) (_ : list bytes) : attempt_env :=
  match n with
  | O => pm_says (txt "Failure [INSTALL_FAILED_VERSION_DOWNGRADE]") false
  | S O => pm_says (txt "Failure [INSTALL_FAILED_UPDATE_INCOMPATIBLE: Package com.example.app signatures do not match]") false
  | _ => pm_says (txt "Success") true
  end.
Definition retry_options : InstallOptions :=
  mkInstallOptions true false false [] InstallKind.Auto ConflictPolicy.Reinstall PackageNameSource.Auto []
    true (-1).
Definition example_install : Result * list device_call :=
  install true (λ _, 10) (λ l, l) 0 three_runs (λ _, no_result) (λ _, false) 5 default_install_timeout
    [txt "app.apk"] retry_options.

(** Two retries are reported as one.  A downgrade refused by the device is retried with
    "-d", that attempt meets a signature conflict and the package is removed and installed
    again: three runs of the package manager, success, and [Result::retries] is 1. *)
Theorem install_two_retries_reported_as_one :
  example_install.2 =
    [ Attempt [txt "-r"]; Attempt [txt "-d"; txt "-r"]; Uninstall (txt "com.example.app"); Attempt [txt "-r"] ] ∧
  r_status example_install.1 = Status.Ok ∧ retries example_install.1 = 1.
Proof. split_and!; by vm_compute. Qed.

Lemma install_uninstalls_only_on_request_witness :
  on_conflict retry_options = ConflictPolicy.Reinstall ∧ txt "com.example.app" ≠ [].
Proof.
  destruct (install_uninstalls_only_on_request true (λ _, 10) (λ l, l) 0 three_runs (λ _, no_result) (λ _, false) 5
    default_install_timeout [txt "app.apk"] retry_options (txt "com.example.app")) as (H1 & H2 & _); [|by split].
  change (Uninstall (txt "com.example.app") ∈ example_install.2).
  assert (example_install.2 =
    [Attempt [txt "-r"]; Attempt [txt "-d"; txt "-r"]; Uninstall (txt "com.example.app"); Attempt [txt "-r"]]) as ->
    by (by vm_compute).
  do 2 right. left.
Defined.
