(* ===== verification/Operations.v ===== *)
(** * libadb: operations, cancellation and the asynchronous pool

    Models the second half of adb/lib/src/api/events.cpp ([ProgressThrottle],
    [OperationRegistry], [PendingCancelFlag], [OperationContext]) with events.h
    ([CancelFlag]), operation_impl.h ([Operation::Impl]), operation.cpp ([AsyncPool],
    [Operation], [BatchOperation]) and the task that [start_async] of device.cpp submits.

    A [CancelFlag] is shared through [shared_ptr] by the handle of an operation, the
    registry and the running operation: the flags are a heap [flags], and a [shared_ptr] is
    an address in it.  [g_pending_cancel_flag] is thread local, so the state of one thread
    carries its own.

    The pool is a set of threads, as in EventBus.v: a step is one critical section.  A wait
    on the pool's condition variable is a step that is not enabled until its predicate
    holds: notifications are not modelled, so a wake-up that the code forgot to send would
    not be seen here (for the event bus it would, see EventBus.v). *)

From S2P Require Import Prelude Strings Libadb.

(** ** ProgressThrottle *)

Record throttle := mkThrottle { th_last : Z; th_first : bool }.
Definition new_throttle : throttle := mkThrottle 0 true.

Definition allow (interval now : Z) (force : bool) (t : throttle) : bool * throttle :=
  if force || th_first t || (interval <=? 0) || (interval <=? now - th_last t)
  then (true, mkThrottle now false) else (false, t).

(** The times at which a sequence of progress reports gets through. *)
Fixpoint let_through (interval : Z) (calls : list (Z * bool)) (t : throttle) : list (Z * bool) :=
  match calls with
  | [] => []
  | (now, force) :: calls =>
      let '(ok, t') := allow interval now force t in
      (if ok then [(now, force)] else []) ++ let_through interval calls t'
  end.

(** ** Cancellation *)

Record CancelFlag := mkFlag { f_canceled : bool; f_operation_id : Z; f_connection_closed : bool }.
Definition new_flag : CancelFlag := mkFlag false 0 false.
Definition triggered (f : CancelFlag) : bool := f_canceled f || f_connection_closed f.
Definition flag_status (f : CancelFlag) : Status.status :=
  if f_connection_closed f then Status.ConnectionClosed else Status.Canceled.

Definition set_canceled (f : CancelFlag) : CancelFlag := mkFlag true (f_operation_id f) (f_connection_closed f).
Definition set_closed (f : CancelFlag) : CancelFlag := mkFlag (f_canceled f) (f_operation_id f) true.
Definition set_op_id (id : Z) (f : CancelFlag) : CancelFlag := mkFlag (f_canceled f) id (f_connection_closed f).

Record ops_state := mkOps {
  flags : gmap nat CancelFlag;
  next_flag : nat;
  operations : gmap Z (bytes * nat);     (** [OperationRegistry::operations_] *)
  op_counter : Z;                        (** [next_operation_id] *)
  pending : option nat                   (** [g_pending_cancel_flag] of this thread *)
}.
Definition with_flags fl s := mkOps fl (next_flag s) (operations s) (op_counter s) (pending s).
Definition with_operations o s := mkOps (flags s) (next_flag s) o (op_counter s) (pending s).
Definition with_pending p s := mkOps (flags s) (next_flag s) (operations s) (op_counter s) p.

Definition registry_add (id : Z) (serial : bytes) (flag : nat) (s : ops_state) : ops_state :=
  with_operations (<[id := (serial, flag)]> (operations s)) s.
Definition registry_remove (id : Z) (s : ops_state) : ops_state :=
  with_operations (delete id (operations s)) s.

Definition registry_cancel (id : Z) (s : ops_state) : bool * ops_state :=
  match operations s !! id with
  | None => (false, s)
  | Some (_, flag) => (true, with_flags (alter set_canceled flag (flags s)) s)
  end.

(** The loop over the registry: the flags of the chosen operations are updated in place. *)
Definition mark (chosen : bytes → bool) (upd : CancelFlag → CancelFlag) (o : gmap Z (bytes * nat))
    (fl : gmap nat CancelFlag) : gmap nat CancelFlag :=
  map_fold (λ _ e fl, if chosen e.1 then alter upd e.2 fl else fl) fl o.
Definition affected (chosen : bytes → bool) (o : gmap Z (bytes * nat)) : Z :=
  Z.of_nat (size (filter (λ kv, chosen kv.2.1 = true) o)).

Definition registry_cancel_all (s : ops_state) : Z * ops_state :=
  (Z.of_nat (size (operations s)), with_flags (mark (λ _, true) set_canceled (operations s) (flags s)) s).
Definition registry_cancel_serial (serial : bytes) (s : ops_state) : Z * ops_state :=
  let chosen x := bool_decide (x = serial) in
  (affected chosen (operations s), with_flags (mark chosen set_canceled (operations s) (flags s)) s).
Definition registry_close (serial : bytes) (s : ops_state) : Z * ops_state :=
  let chosen x := bool_decide (serial = []) || bool_decide (x = serial) in
  (affected chosen (operations s), with_flags (mark chosen set_closed (operations s) (flags s)) s).

(** [PendingCancelFlag]: the constructor returns what its destructor puts back. *)
Definition pending_enter (flag : nat) (s : ops_state) : option nat * ops_state :=
  (pending s, with_pending (Some flag) s).
Definition pending_leave (previous : option nat) (s : ops_state) : ops_state := with_pending previous s.

(** [OperationContext]: the flag is the argument, else the pending one (which is taken),
    else a new one. *)
Record context := mkContext { c_id : Z; c_command : Command.command; c_serial : bytes; c_flag : nat }.

Definition choose_flag (arg : option nat) (s : ops_state) : nat * ops_state :=
  match arg with
  | Some f => (f, s)
  | None =>
      match pending s with
      | Some f => (f, with_pending None s)
      | None =>
          (next_flag s, mkOps (<[next_flag s := new_flag]> (flags s)) (S (next_flag s)) (operations s)
                          (op_counter s) None)
      end
  end.

Definition context_create (command : Command.command) (serial : bytes) (arg : option nat) (s : ops_state)
    : context * ops_state :=
  let id := op_counter s + 1 in
  let '(flag, s1) := choose_flag arg (mkOps (flags s) (next_flag s) (operations s) id (pending s)) in
  let s2 := with_flags (alter (set_op_id id) flag (flags s1)) s1 in
  (mkContext id command serial flag, registry_add id serial flag s2).
Definition context_destroy (c : context) (s : ops_state) : ops_state := registry_remove (c_id c) s.
Definition context_canceled (c : context) (s : ops_state) : bool :=
  match flags s !! c_flag c with Some f => triggered f | None => false end.

(** A new handle: [Operation::Impl] makes its own flag. *)
Definition handle_create (s : ops_state) : nat * ops_state :=
  (next_flag s, mkOps (<[next_flag s := new_flag]> (flags s)) (S (next_flag s)) (operations s) (op_counter s) (pending s)).
Definition handle_cancel (flag : nat) (s : ops_state) : ops_state :=
  with_flags (alter set_canceled flag (flags s)) s.

(** The events [OperationContext::finish] publishes for subscribers of everything. *)
Definition finish_type (s : Status.status) : EventType.event_type :=
  match s with
  | Status.Ok => EventType.OperationFinished
  | Status.Canceled | Status.ConnectionClosed => EventType.OperationCanceled
  | Status.CommandTimeout | Status.StallTimeout | Status.ConnectTimeout | Status.SlotTimeout =>
      EventType.OperationTimeout
  | _ => EventType.OperationFailed
  end.
Definition finish_event (t : EventType.event_type) (c : context) (r : Result) : Event :=
  mkEvent t 0 (c_serial c) (c_id c) (c_command c) (r_phase r) (r_status r) (remote_code r)
    (st_bytes (transfer r)) (st_bytes (transfer r)) (r_duration r) (r_error r) (transfer r).
Definition stats_event (c : context) (r : Result) : Event :=
  mkEvent EventType.OperationStats 0 (c_serial c) (c_id c) (c_command c) (r_phase r) (r_status r) []
    (st_bytes (transfer r)) (st_bytes (transfer r)) (r_duration r) [] (transfer r).
Definition context_finish (wants : EventType.event_type → bool) (c : context) (r : Result) : list Event :=
  (if wants (finish_type (r_status r)) then [finish_event (finish_type (r_status r)) c r] else []) ++
  (if (0 <? st_bytes (transfer r)) && wants EventType.OperationStats then [stats_event c r] else []).

(** ** The asynchronous pool *)

(** [Operation::Impl], as far as waiting for it goes. *)
Record operation := mkOperation { finished : bool; o_result : Result }.

Inductive worker_pc :=
  | AIdle                              (** an application thread *)
  | ASubmit (op : nat)                 (** in [submit], before the lock *)
  | AConfigure (op : nat)              (** [submit] unlocked to call [configure(4)] *)
  | APush (op : nat)
  | AJoin (workers : list nat)         (** in [stop()] *)
  | WTop
  | WTask (op : nat)                   (** runs the task of an operation *)
  | WDone (op : nat) (r : Result)      (** the device is no longer busy with it, the handle is not completed yet *)
  | WExited.

Record pool := mkPool {
  p_running : bool;
  tasks : list nat;
  workers : list nat;
  athreads : gmap nat worker_pc;
  next_thread : nat;
  handles : gmap nat operation;
  next_handle : nat;
  async_active : Z
}.
Definition p_at t p s :=
  mkPool (p_running s) (tasks s) (workers s) (<[t := p]> (athreads s)) (next_thread s) (handles s) (next_handle s)
    (async_active s).
Definition p_tasks l s :=
  mkPool (p_running s) l (workers s) (athreads s) (next_thread s) (handles s) (next_handle s) (async_active s).
Definition p_handle op v s :=
  mkPool (p_running s) (tasks s) (workers s) (athreads s) (next_thread s) (<[op := v]> (handles s)) (next_handle s) (async_active s).
Definition p_active a s :=
  mkPool (p_running s) (tasks s) (workers s) (athreads s) (next_thread s) (handles s) (next_handle s) a.

(** [configure]: grows the pool to [n] workers. *)
Fixpoint add_workers (n : nat) (s : pool) : pool :=
  match n with
  | O => s
  | S n =>
      add_workers n (mkPool (p_running s) (tasks s) (workers s ++ [next_thread s])
        (<[next_thread s := WTop]> (athreads s)) (S (next_thread s)) (handles s) (next_handle s) (async_active s))
  end.
Definition configure (threads : nat) (s : pool) : pool :=
  let n := Nat.max 1 threads in
  add_workers (n - length (workers s))
    (mkPool true (tasks s) (workers s) (athreads s) (next_thread s) (handles s) (next_handle s) (async_active s)).

Inductive pool_act :=
  | StartAsync                         (** [start_async]: a new operation is submitted *)
  | Configure (threads : nat)
  | StopPool
  | RunPool
  | TaskReturns (r : Result)
  | TaskThrows.

(** [complete] *)
Definition complete (r : Result) : operation := mkOperation true r.

Definition pool_step (t : nat) (a : pool_act) (s : pool) : option pool :=
  match athreads s !! t with
  | None => None
  | Some p =>
      match a, p with
      | StartAsync, AIdle =>
          Some (mkPool (p_running s) (tasks s) (workers s) (<[t := ASubmit (next_handle s)]> (athreads s))
                  (next_thread s) (<[next_handle s := mkOperation false no_result]> (handles s))
                  (S (next_handle s)) (async_active s + 1))
      | Configure n, AIdle => Some (p_at t AIdle (configure n s))
      | StopPool, AIdle =>
          if negb (p_running s) && bool_decide (workers s = []) then Some s
          else Some (mkPool false [] [] (<[t := AJoin (workers s)]> (athreads s)) (next_thread s) (handles s)
                       (next_handle s) (async_active s))
      | RunPool, ASubmit op =>
          if negb (p_running s) || bool_decide (workers s = []) then Some (p_at t (AConfigure op) s)
          else Some (p_at t AIdle (p_tasks (tasks s ++ [op]) s))
      | RunPool, AConfigure op => Some (p_at t (APush op) (configure 4 s))
      | RunPool, APush op => Some (p_at t AIdle (p_tasks (tasks s ++ [op]) s))
      | RunPool, AJoin [] => Some (p_at t AIdle s)
      | RunPool, AJoin (w :: ws) =>
          match athreads s !! w with Some WExited => Some (p_at t (AJoin ws) s) | _ => None end
      | RunPool, WTop =>
          match tasks s with
          | op :: l => Some (p_at t (WTask op) (p_tasks l s))
          | [] => if p_running s then None else Some (p_at t WExited s)
          end
      | TaskReturns r, WTask op => Some (p_at t (WDone op r) (p_active (async_active s - 1) s))
      | RunPool, WDone op r => Some (p_at t WTop (p_handle op (complete r) s))
      | TaskThrows, WTask op => Some (p_at t WTop s)
      | _, _ => None
      end
  end.

(** [Operation::wait()] without a time limit can return. *)
Definition can_wait (s : pool) (op : nat) : bool :=
  match handles s !! op with Some o => finished o | None => false end.

(** [BatchOperation]: over the handles of its operations. *)
Definition batch_done (s : pool) (ops : list nat) : bool := forallb (can_wait s) ops.
Definition batch_finished (s : pool) (ops : list nat) : Z := llen (filter (λ op, can_wait s op = true) ops).
Definition batch_results (s : pool) (ops : list nat) (addresses : list bytes) : gmap bytes Result :=
  fold_left (λ acc oa,
    match handles s !! oa.1 with
    | Some o => if finished o then match acc !! oa.2 with Some _ => acc | None => <[oa.2 := o_result o]> acc end else acc
    | None => acc
    end) (zip ops addresses) ∅.

Definition pool_init (threads : nat) : pool :=
  mkPool false [] [] (list_to_map ((λ t, (t, AIdle)) <$> seq 0 threads)) threads ∅ 0 0.

Fixpoint run_pool (l : list (nat * pool_act)) (s : pool) : option pool :=
  match l with
  | [] => Some s
  | (t, a) :: l => s' ← pool_step t a s; run_pool l s'
  end.

(** ** What the threads of the process can do to the flags

    Every access to the registry, to a flag and to the pending flag, as one step. *)

Inductive ops_act :=
  | OCreate (command : Command.command) (serial : bytes) (arg : option nat)
  | ODestroy (c : context)
  | OCancel (id : Z)
  | OCancelAll
  | OCancelSerial (serial : bytes)
  | OClose (serial : bytes)
  | OHandle
  | OHandleCancel (flag : nat)
  | OEnter (flag : nat)
  | OLeave (previous : option nat).

Definition ops_step (a : ops_act) (s : ops_state) : ops_state :=
  match a with
  | OCreate command serial arg => (context_create command serial arg s).2
  | ODestroy c => context_destroy c s
  | OCancel id => (registry_cancel id s).2
  | OCancelAll => (registry_cancel_all s).2
  | OCancelSerial serial => (registry_cancel_serial serial s).2
  | OClose serial => (registry_close serial s).2
  | OHandle => (handle_create s).2
  | OHandleCancel flag => handle_cancel flag s
  | OEnter flag => (pending_enter flag s).2
  | OLeave previous => pending_leave previous s
  end.

(** Addresses from [next_flag] on are free. *)
Definition flags_fresh (s : ops_state) : Prop := ∀ p, (next_flag s ≤ p)%nat → flags s !! p = None.

Definition ops_init : ops_state := mkOps ∅ 0 ∅ 0 None.
