(* ===== verification/OperationsInv.v ===== *)
(** * Operations: what cancellation and the pool guarantee

    Progress reports are spaced by the interval; a cancellation sets exactly the flags of the
    operations it names, and a set flag stays set, so a handle that is cancelled before its
    task starts is seen by the operation.  In the pool every operation is in one place: in
    the queue, with the thread that submits it or with the worker that runs it.  Without
    [stop()] and without an exception nothing is lost; with them the operation can never
    finish. *)

From S2P Require Import Prelude Strings Libadb Operations.

(** ** Progress *)

(** Every report that is not forced comes at least [interval] after the one before it. *)
Fixpoint spaced (interval last : Z) (l : list (Z * bool)) : Prop :=
  match l with
  | [] => True
  | (now, force) :: l => (force = true ∨ interval ≤ now - last) ∧ spaced interval now l
  end.

Lemma let_through_spaced interval calls t :
  0 < interval → th_first t = false → spaced interval (th_last t) (let_through interval calls t).
Proof.
  intros Hi. revert t. induction calls as [|[now force] calls IH]; intros t Ht; [done|].
  cbn [let_through]. unfold allow. rewrite Ht, orb_false_r.
  replace (interval <=? 0) with false by lia. rewrite orb_false_r.
  destruct (force || (interval <=? now - th_last t)) eqn:E; cbn; [|by apply IH].
  split; [|exact (IH (mkThrottle now false) eq_refl)].
  apply orb_true_iff in E as [->|E]; [by left|right; lia].
Qed.

Lemma let_through_forced interval calls t :
  filter (λ c, c.2 = true) (let_through interval calls t) = filter (λ c, c.2 = true) calls.
Proof.
  revert t. induction calls as [|[now force] calls IH]; intros t; [done|].
  cbn [let_through]. unfold allow. destruct force; cbn [orb].
  - cbn [app]. rewrite !filter_cons_True by done. by rewrite IH.
  - rewrite (filter_cons_False _ (now, false) calls) by (cbn; congruence).
    destruct (_ || _); cbn [app]; [rewrite filter_cons_False by (cbn; congruence)|]; apply IH.
Qed.

(** A transfer reports its progress at most once per interval: the first report always
    gets through, later ones that are not forced come at least the interval after the one
    before them, and no forced report (the one for 100 %) is ever dropped. *)
Theorem progress_throttled interval now force calls :
  0 < interval →
  ∃ rest, let_through interval ((now, force) :: calls) new_throttle = (now, force) :: rest ∧
    spaced interval now rest ∧
    filter (λ c, c.2 = true) rest = filter (λ c, c.2 = true) calls.
Proof.
  intros Hi. exists (let_through interval calls (mkThrottle now false)). split.
  - cbn [let_through]. unfold allow, new_throttle. cbn [th_first]. by rewrite orb_true_r.
  - split; [exact (let_through_spaced interval calls (mkThrottle now false) Hi eq_refl) | apply let_through_forced].
Qed.

Lemma progress_throttled_witness :
  0 < 200 ∧ ∃ rest,
    let_through 200 [(1000, false); (1100, false); (1250, false); (1260, true)] new_throttle = (1000, false) :: rest ∧
    spaced 200 1000 rest ∧ filter (λ c, c.2 = true) rest = [(1260, true)].
Proof.
  split; [lia|]. apply (progress_throttled 200 1000 false [(1100, false); (1250, false); (1260, true)]). lia.
Defined.

(** ** Cancellation *)

(** Some chosen operation of the registry has the flag at [p]. *)
Definition names (chosen : bytes → bool) (o : gmap Z (bytes * nat)) (p : nat) : Prop :=
  ∃ id serial, o !! id = Some (serial, p) ∧ chosen serial = true.

Lemma mark_spec chosen upd o fl p :
  (∀ f, upd (upd f) = upd f) →
  (names chosen o p ∧ mark chosen upd o fl !! p = upd <$> fl !! p) ∨
  (¬ names chosen o p ∧ mark chosen upd o fl !! p = fl !! p).
Proof.
  intros Hupd. unfold mark.
  apply (map_fold_weak_ind (λ fl' o,
    (names chosen o p ∧ fl' !! p = upd <$> fl !! p) ∨ (¬ names chosen o p ∧ fl' !! p = fl !! p))).
  - right. split; [intros (id & sr & H & _); by rewrite lookup_empty in H | done].
  - intros id [sr q] m fl' Hm IH. cbn [fst snd].
    assert (names chosen (<[id:=(sr, q)]> m) p ↔ (q = p ∧ chosen sr = true) ∨ names chosen m p) as Hn.
    { split.
      - intros (id' & sr' & H & Hc). destruct (decide (id' = id)) as [->|].
        + rewrite lookup_insert_eq in H. simplify_eq. by left.
        + rewrite lookup_insert_ne in H by done. right. by exists id', sr'.
      - intros [[-> Hc]|(id' & sr' & H & Hc)].
        + exists id, sr. by rewrite lookup_insert_eq.
        + exists id', sr'. rewrite lookup_insert_ne by (intros ->; congruence). done. }
    destruct (chosen sr) eqn:Ec.
    + destruct (decide (q = p)) as [->|Hq].
      * left. split; [apply Hn; by left|]. rewrite lookup_alter_eq.
        destruct IH as [[_ ->]|[_ ->]]; destruct (fl !! p); cbn; by rewrite ?Hupd.
      * rewrite lookup_alter_ne by done. destruct IH as [[? ?]|[Hnn ?]]; [left|right]; split; try done.
        -- apply Hn; by right.
        -- rewrite Hn. naive_solver.
    + destruct IH as [[? ?]|[Hnn ?]]; [left|right]; split; try done.
      * apply Hn; by right.
      * rewrite Hn. naive_solver.
Qed.

(** [OperationRegistry::cancel_serial] sets [canceled] in the flags of exactly the live
    operations of that device, leaves every other flag as it is, changes nothing else, and
    returns how many operations it named; [close] does the same with [connection_closed],
    for all devices when its argument is empty. *)
Theorem registry_marks_exactly serial s p :
  let '(n, s1) := registry_cancel_serial serial s in
  let '(m, s2) := registry_close serial s in
  let mine sr := bool_decide (sr = serial) in
  let closed sr := bool_decide (serial = []) || mine sr in
  operations s1 = operations s ∧ operations s2 = operations s ∧
  n = affected mine (operations s) ∧ m = affected closed (operations s) ∧
  (names mine (operations s) p → flags s1 !! p = set_canceled <$> flags s !! p) ∧
  (¬ names mine (operations s) p → flags s1 !! p = flags s !! p) ∧
  (names closed (operations s) p → flags s2 !! p = set_closed <$> flags s !! p) ∧
  (¬ names closed (operations s) p → flags s2 !! p = flags s !! p).
Proof.
  unfold registry_cancel_serial, registry_close. cbn.
  pose proof (mark_spec (λ x, bool_decide (x = serial)) set_canceled (operations s) (flags s) p (λ _, eq_refl)).
  pose proof (mark_spec (λ x, bool_decide (serial = []) || bool_decide (x = serial)) set_closed
    (operations s) (flags s) p (λ _, eq_refl)).
  repeat split; try done; naive_solver.
Qed.

(** *** A set flag stays set *)

Definition canceled_at (s : ops_state) (p : nat) : Prop := ∃ f, flags s !! p = Some f ∧ f_canceled f = true.

Lemma alter_canceled upd (fl : gmap nat CancelFlag) q p f :
  (∀ g, f_canceled g = true → f_canceled (upd g) = true) →
  fl !! p = Some f → f_canceled f = true → ∃ f', alter upd q fl !! p = Some f' ∧ f_canceled f' = true.
Proof.
  intros Hu Hf Hc. destruct (decide (q = p)) as [->|].
  - rewrite lookup_alter_eq, Hf. cbn. eauto.
  - rewrite lookup_alter_ne by done. eauto.
Qed.

Lemma mark_canceled chosen upd o fl p f :
  (∀ g, upd (upd g) = upd g) → (∀ g, f_canceled g = true → f_canceled (upd g) = true) →
  fl !! p = Some f → f_canceled f = true → ∃ f', mark chosen upd o fl !! p = Some f' ∧ f_canceled f' = true.
Proof.
  intros Hi Hu Hf Hc. destruct (mark_spec chosen upd o fl p Hi) as [[_ ->]|[_ ->]]; rewrite Hf; cbn; eauto.
Qed.

Lemma fresh_canceled s p f (g : CancelFlag) :
  flags_fresh s → flags s !! p = Some f → (<[next_flag s := g]> (flags s)) !! p = Some f.
Proof. intros Hf Hp. rewrite lookup_insert_ne; [done|]. intros <-. by rewrite Hf in Hp by lia. Qed.

Lemma choose_flag_canceled arg s p :
  flags_fresh s → canceled_at s p → canceled_at (choose_flag arg s).2 p.
Proof.
  intros Hf (f & Hp & Hc). unfold choose_flag. destruct arg; [by exists f|].
  destruct (pending s); [by exists f|]. exists f. split; [by apply fresh_canceled | done].
Qed.

Lemma ops_step_canceled a s p :
  flags_fresh s → canceled_at s p → canceled_at (ops_step a s) p.
Proof.
  intros Hf Hs. pose proof Hs as (f & Hp & Hc). destruct a; cbn; try (by exists f).
  - unfold context_create.
    pose proof (choose_flag_canceled arg
      (mkOps (flags s) (next_flag s) (operations s) (op_counter s + 1) (pending s)) p Hf Hs) as (f1 & Hp1 & Hc1).
    destruct (choose_flag _ _) as [q s1]. by apply (alter_canceled _ _ _ _ f1).
  - unfold registry_cancel. destruct (operations s !! id) as [[]|]; [|by exists f].
    by apply (alter_canceled _ _ _ _ f).
  - by apply (mark_canceled _ _ _ _ _ f).
  - by apply (mark_canceled _ _ _ _ _ f).
  - by apply (mark_canceled _ _ _ _ _ f).
  - exists f. split; [by apply fresh_canceled | done].
  - by apply (alter_canceled _ _ _ _ f).
Qed.

Lemma alter_fresh upd (fl : gmap nat CancelFlag) q n :
  (∀ p, (n ≤ p)%nat → fl !! p = None) → ∀ p, (n ≤ p)%nat → alter upd q fl !! p = None.
Proof. intros H p Hp. rewrite lookup_alter_None. by apply H. Qed.

Lemma mark_fresh chosen upd o fl n :
  (∀ p, (n ≤ p)%nat → fl !! p = None) → ∀ p, (n ≤ p)%nat → mark chosen upd o fl !! p = None.
Proof.
  intros H. unfold mark. apply (map_fold_weak_ind (λ fl' _, ∀ p, (n ≤ p)%nat → fl' !! p = None)); [done|].
  intros id [sr q] m fl' _ IH. cbn. destruct (chosen sr); [by apply alter_fresh | done].
Qed.

Lemma new_flag_fresh (fl : gmap nat CancelFlag) n g :
  (∀ p, (n ≤ p)%nat → fl !! p = None) → ∀ p, (S n ≤ p)%nat → <[n := g]> fl !! p = None.
Proof. intros H p Hp. rewrite lookup_insert_ne by lia. apply H. lia. Qed.

Lemma choose_flag_fresh arg s : flags_fresh s → flags_fresh (choose_flag arg s).2.
Proof.
  intros H. unfold choose_flag. destruct arg; [done|]. destruct (pending s); [done|].
  exact (new_flag_fresh _ _ _ H).
Qed.

Lemma ops_step_fresh a s : flags_fresh s → flags_fresh (ops_step a s).
Proof.
  intros H. destruct a; cbn; try done.
  - unfold context_create.
    pose proof (choose_flag_fresh arg
      (mkOps (flags s) (next_flag s) (operations s) (op_counter s + 1) (pending s)) H) as H1.
    destruct (choose_flag _ _) as [q s1]. exact (alter_fresh _ _ _ _ H1).
  - unfold registry_cancel. destruct (operations s !! id) as [[]|]; [exact (alter_fresh _ _ _ _ H) | done].
  - exact (mark_fresh _ _ _ _ _ H).
  - exact (mark_fresh _ _ _ _ _ H).
  - exact (mark_fresh _ _ _ _ _ H).
  - exact (new_flag_fresh _ _ _ H).
  - exact (alter_fresh _ _ _ _ H).
Qed.

Definition run_ops (l : list ops_act) (s : ops_state) : ops_state := fold_left (λ s a, ops_step a s) l s.

Lemma run_ops_fresh l s : flags_fresh s → flags_fresh (run_ops l s).
Proof. revert s. induction l as [|a l IH]; intros s H; [done|]. apply IH, ops_step_fresh, H. Qed.

Lemma run_ops_canceled l s p : flags_fresh s → canceled_at s p → canceled_at (run_ops l s) p.
Proof.
  revert s. induction l as [|a l IH]; intros s H Hc; [done|].
  apply IH; [by apply ops_step_fresh | by apply ops_step_canceled].
Qed.

Lemma canceled_at_context c s : canceled_at s (c_flag c) → context_canceled c s = true.
Proof. intros (f & Hf & Hc). unfold context_canceled, triggered. by rewrite Hf, Hc. Qed.

Lemma context_takes_pending command serial s p :
  pending s = Some p → c_flag (context_create command serial None s).1 = p.
Proof. intros H. unfold context_create, choose_flag. cbn. by rewrite H. Qed.

(** [Operation::cancel()] works before the worker has taken the task: whatever the
    threads of the process do between the cancellation and the start of the task and
    afterwards, the operation that the task opens is cancelled, from its first check to its
    last. *)
Theorem cancel_before_start_is_seen s p f before after command serial :
  flags_fresh s → flags s !! p = Some f →
  let s1 := (pending_enter p (run_ops before (handle_cancel p s))).2 in
  let '(c, s2) := context_create command serial None s1 in
  c_flag c = p ∧ context_canceled c (run_ops after s2) = true.
Proof.
  intros Hf Hp. cbn zeta. set (s1 := (pending_enter _ _).2).
  assert (flags_fresh s1) as Hf1 by exact (run_ops_fresh before _ (ops_step_fresh (OHandleCancel p) s Hf)).
  assert (canceled_at s1 p) as Hc1.
  { unfold s1. destruct (run_ops_canceled before (handle_cancel p s) p) as (f1 & ? & ?).
    - exact (ops_step_fresh (OHandleCancel p) s Hf).
    - exists (set_canceled f). split; [|done]. cbn. by rewrite lookup_alter_eq, Hp.
    - by exists f1. }
  pose proof (ops_step_fresh (OCreate command serial None) s1 Hf1) as Hf2.
  pose proof (ops_step_canceled (OCreate command serial None) s1 p Hf1 Hc1) as Hc2.
  unfold ops_step in Hf2, Hc2. destruct (context_create command serial None s1) as [c s2] eqn:E.
  cbn [snd] in Hf2, Hc2.
  assert (c_flag c = p) as <-.
  { pose proof (context_takes_pending command serial s1 p eq_refl) as Hp2. by rewrite E in Hp2. }
  split; [done|]. apply canceled_at_context, run_ops_canceled; [exact Hf2 | exact Hc2].
Qed.

Lemma cancel_before_start_is_seen_witness :
  let s := (handle_create ops_init).2 in
  flags_fresh s ∧ flags s !! 0%nat = Some new_flag ∧
  let s1 := (pending_enter 0 (run_ops [OCreate Command.Shell [] None] (handle_cancel 0 s))).2 in
  let '(c, s2) := context_create Command.Push [] None s1 in
  c_flag c = 0%nat ∧ context_canceled c (run_ops [OCancelAll] s2) = true.
Proof.
  assert (flags_fresh (handle_create ops_init).2) as Hf.
  { intros p Hp. cbn in Hp |- *. rewrite lookup_insert_ne by lia. done. }
  split; [done|]. split; [done|].
  exact (cancel_before_start_is_seen (handle_create ops_init).2 0 new_flag [OCreate Command.Shell [] None] [OCancelAll]
    Command.Push [] Hf eq_refl).
Defined.

(** The uninstallation that [Device::install] runs inside itself is a second operation
    with a flag of its own, because the first one has already taken the pending flag:
    cancelling the installation, through its id or through its handle, is not seen by it. *)
Theorem nested_operation_not_canceled s p f serial :
  flags_fresh s → flags s !! p = Some f → pending s = Some p →
  let '(outer, s1) := context_create Command.Install serial None s in
  let '(inner, s2) := context_create Command.Uninstall serial None s1 in
  let '(found, s3) := registry_cancel (c_id outer) s2 in
  let s4 := handle_cancel p s3 in
  found = true ∧ context_canceled outer s4 = true ∧ context_canceled inner s4 = false.
Proof.
  intros Hf Hp Hpend. assert (p < next_flag s)%nat as Hlt.
  { destruct (decide (p < next_flag s)%nat); [done|]. rewrite Hf in Hp by lia. done. }
  unfold context_create, choose_flag. cbn. rewrite Hpend. cbn. unfold registry_cancel. cbn.
  rewrite lookup_insert_ne, lookup_insert_eq by lia. cbn. unfold context_canceled. cbn.
  split; [done|]. split.
  - rewrite !lookup_alter_eq. rewrite lookup_alter_ne, lookup_insert_ne, lookup_alter_eq, Hp by lia. done.
  - rewrite !(lookup_alter_ne _ _ p) by lia. rewrite lookup_alter_eq, lookup_insert_eq. done.
Qed.

Lemma nested_operation_not_canceled_witness :
  let s := (pending_enter 0 (handle_create ops_init).2).2 in
  let '(outer, s1) := context_create Command.Install [] None s in
  let '(inner, s2) := context_create Command.Uninstall [] None s1 in
  let '(found, s3) := registry_cancel (c_id outer) s2 in
  let s4 := handle_cancel 0 s3 in
  found = true ∧ context_canceled outer s4 = true ∧ context_canceled inner s4 = false.
Proof.
  assert (flags_fresh (pending_enter 0 (handle_create ops_init).2).2) as Hf.
  { intros p Hp. cbn in Hp |- *. rewrite lookup_insert_ne by lia. done. }
  exact (nested_operation_not_canceled (pending_enter 0 (handle_create ops_init).2).2 0 new_flag [] Hf eq_refl eq_refl).
Defined.

(** ** The pool *)

(** The operation a thread carries. *)
Definition holds (op : nat) (p : worker_pc) : bool :=
  match p with
  | ASubmit o | AConfigure o | APush o | WTask o | WDone o _ => bool_decide (o = op)
  | _ => false
  end.
Definition queued (op : nat) (l : list nat) : Z := llen (filter (λ o, o = op) l).
(** In how many places an operation is. *)
Definition place (op : nat) (s : pool) : Z := queued op (tasks s) + mcount (holds op) (athreads s).

Lemma queued_nonneg op l : 0 ≤ queued op l.
Proof. apply llen_nonneg. Qed.
Lemma queued_cons op o l : queued op (o :: l) = Z.b2z (bool_decide (o = op)) + queued op l.
Proof.
  unfold queued. rewrite filter_cons. case_decide as E.
  - rewrite bool_decide_true by done. by rewrite llen_cons.
  - by rewrite bool_decide_false.
Qed.
Lemma queued_app op l o : queued op (l ++ [o]) = queued op l + Z.b2z (bool_decide (o = op)).
Proof.
  unfold queued. rewrite filter_app, llen_app, filter_cons, filter_nil.
  case_decide as E; [rewrite bool_decide_true by done | rewrite bool_decide_false by done]; done.
Qed.
Lemma queued_pos op l : op ∈ l ↔ 0 < queued op l.
Proof.
  induction l as [|o l IH]; [split; [by intros ?%elem_of_nil | done]|].
  rewrite elem_of_cons, IH, queued_cons. pose proof (queued_nonneg op l).
  case_bool_decide as E; cbn; split; intros; naive_solver lia.
Qed.

(** Thread numbers and operation numbers from the next ones on are free. *)
Definition pool_fresh (s : pool) : Prop :=
  (∀ t, (next_thread s ≤ t)%nat → athreads s !! t = None) ∧
  (∀ op, (next_handle s ≤ op)%nat → handles s !! op = None ∧ place op s = 0).

Lemma add_workers_spec n s :
  (∀ t, (next_thread s ≤ t)%nat → athreads s !! t = None) →
  let s' := add_workers n s in
  (∀ t, (next_thread s' ≤ t)%nat → athreads s' !! t = None) ∧ tasks s' = tasks s ∧
  handles s' = handles s ∧ next_handle s' = next_handle s ∧ async_active s' = async_active s ∧
  p_running s' = p_running s ∧ length (workers s') = (length (workers s) + n)%nat ∧
  (∀ P, mcount P (athreads s') = mcount P (athreads s) + Z.of_nat n * Z.b2z (P WTop)) ∧
  (∀ t p, athreads s !! t = Some p → athreads s' !! t = Some p).
Proof.
  revert s. induction n as [|n IH]; intros s Hs; [split_and!; try done; intros; cbn; lia|]. cbn [add_workers].
  set (s1 := mkPool _ _ _ _ _ _ _ _). destruct (IH s1) as (H1 & H2 & H3 & H4 & H5 & H6 & H9 & H7 & H8).
  { intros t Ht. cbn in Ht |- *. rewrite lookup_insert_ne by lia. apply Hs. lia. }
  split_and!; try done.
  - rewrite H9. cbn. rewrite length_app. cbn. lia.
  - intros P. rewrite H7. cbn [athreads s1]. rewrite mcount_fresh by (apply Hs; lia). lia.
  - intros t p Ht. apply H8. cbn. rewrite lookup_insert_ne; [done|]. intros <-. by rewrite Hs in Ht by lia.
Qed.

Lemma configure_spec n s :
  (∀ t, (next_thread s ≤ t)%nat → athreads s !! t = None) →
  let s' := configure n s in
  (∀ t, (next_thread s' ≤ t)%nat → athreads s' !! t = None) ∧ tasks s' = tasks s ∧
  handles s' = handles s ∧ next_handle s' = next_handle s ∧ async_active s' = async_active s ∧
  p_running s' = true ∧ (1 ≤ length (workers s'))%nat ∧
  (∀ P, mcount P (athreads s') = mcount P (athreads s)
     + Z.of_nat (Nat.max 1 n - length (workers s)) * Z.b2z (P WTop)) ∧
  (∀ t p, athreads s !! t = Some p → athreads s' !! t = Some p).
Proof.
  intros Hs. destruct (add_workers_spec (Nat.max 1 n - length (workers s))
    (mkPool true (tasks s) (workers s) (athreads s) (next_thread s) (handles s) (next_handle s) (async_active s)) Hs)
    as (H1 & H2 & H3 & H4 & H5 & H6 & H9 & H7 & H8).
  unfold configure. split_and!; try done. rewrite H9. cbn [workers]. lia.
Qed.

(** What a step does to the place of an operation. *)
Definition entered (op : nat) (a : pool_act) (s : pool) : Z :=
  match a with StartAsync => Z.b2z (bool_decide (next_handle s = op)) | _ => 0 end.
Definition gone (op : nat) (a : pool_act) (p : worker_pc) (s : pool) : Z :=
  match a, p with
  | StopPool, _ => if negb (p_running s) && bool_decide (workers s = []) then 0 else queued op (tasks s)
  | RunPool, WDone o _ | TaskThrows, WTask o => Z.b2z (bool_decide (o = op))
  | _, _ => 0
  end.

Lemma pool_step_effect t a s s' :
  pool_fresh s → pool_step t a s = Some s' →
  ∃ p, athreads s !! t = Some p ∧
  (∀ op, place op s' = place op s + entered op a s - gone op a p s) ∧
  (∀ t, (next_thread s' ≤ t)%nat → athreads s' !! t = None) ∧
  match a with
  | StartAsync => next_handle s' = S (next_handle s) ∧ async_active s' = async_active s + 1 ∧
                  handles s' = <[next_handle s := mkOperation false no_result]> (handles s)
  | TaskReturns r => (∃ op, p = WTask op) ∧ next_handle s' = next_handle s ∧ async_active s' = async_active s - 1 ∧
                     handles s' = handles s
  | RunPool => next_handle s' = next_handle s ∧ async_active s' = async_active s ∧
               handles s' = match p with WDone op r => <[op := complete r]> (handles s) | _ => handles s end
  | TaskThrows => (∃ op, p = WTask op) ∧ next_handle s' = next_handle s ∧ async_active s' = async_active s ∧
                  handles s' = handles s
  | _ => next_handle s' = next_handle s ∧ async_active s' = async_active s ∧ handles s' = handles s
  end.
Proof.
  intros [Ht Hh] H. unfold pool_step in H.
  destruct (athreads s !! t) as [p|] eqn:Ep; [|done]. exists p. split; [done|].
  assert (∀ p' t', (next_thread s ≤ t')%nat → <[t := p']> (athreads s) !! t' = None) as Hins.
  { intros p' t' Hle. rewrite lookup_insert_ne; [by apply Ht|]. intros <-. by rewrite Ht in Ep. }
  destruct a as [|n| | |r|].
  - destruct p; try done. injection H as <-. split_and!; try done; [|apply Hins].
    intros op. unfold place, entered, gone. cbn. rewrite (mcount_insert _ _ _ _ _ Ep). cbn. lia.
  - destruct p; try done. injection H as <-.
    destruct (configure_spec n s Ht) as (H1 & H2 & H3 & H4 & H5 & _ & _ & H7 & H8).
    unfold p_at. cbn. split_and!; try done.
    + intros op. unfold place, entered, gone. cbn. rewrite H2, (mcount_insert _ _ _ _ _ (H8 _ _ Ep)), H7. cbn. lia.
    + intros t' Hle. rewrite lookup_insert_ne; [by apply H1|]. intros <-. specialize (H8 _ _ Ep). by rewrite H1 in H8.
  - destruct p; try done. unfold gone. destruct (_ && _); injection H as <-.
    + split_and!; try done. intros op. cbn. lia.
    + split_and!; try done; [|apply Hins].
      intros op. unfold place. cbn. rewrite (mcount_insert _ _ _ _ _ Ep). cbn. unfold queued. cbn. rewrite llen_nil. lia.
  - destruct p as [|o|o|o|[|w ws]| |o|o r|]; try done.
    + destruct (_ || _); injection H as <-; split_and!; try done; try apply Hins; intros op; unfold place, gone; cbn;
        rewrite (mcount_insert _ _ _ _ _ Ep), ?queued_app; cbn; lia.
    + injection H as <-.
      destruct (configure_spec 4 s Ht) as (H1 & H2 & H3 & H4 & H5 & _ & _ & H7 & H8).
      generalize dependent (configure 4 s). intros c H1 H2 H3 H4 H5 H7 H8.
      unfold p_at. cbn [next_handle async_active handles athreads next_thread]. split_and!; try done.
      * intros op. unfold place, gone. cbn. rewrite H2, (mcount_insert _ _ _ _ _ (H8 _ _ Ep)), H7. cbn. lia.
      * intros t' Hle. rewrite lookup_insert_ne; [by apply H1|]. intros <-. specialize (H8 _ _ Ep). by rewrite H1 in H8.
    + injection H as <-. split_and!; try done; try apply Hins. intros op. unfold place, gone. cbn.
      rewrite (mcount_insert _ _ _ _ _ Ep), queued_app. cbn. lia.
    + injection H as <-. split_and!; try done; try apply Hins. intros op. unfold place, gone. cbn.
      rewrite (mcount_insert _ _ _ _ _ Ep). cbn. lia.
    + destruct (athreads s !! w) as [[]|]; try done. injection H as <-. split_and!; try done; try apply Hins.
      intros op. unfold place, gone. cbn. rewrite (mcount_insert _ _ _ _ _ Ep). cbn. lia.
    + destruct (tasks s) as [|o l] eqn:El.
      * destruct (p_running s); [done|]. injection H as <-. split_and!; try done; try apply Hins.
        intros op. unfold place, gone. cbn. rewrite (mcount_insert _ _ _ _ _ Ep). cbn. lia.
      * injection H as <-. split_and!; try done; try apply Hins.
        intros op. unfold place, gone. cbn. rewrite (mcount_insert _ _ _ _ _ Ep), El, queued_cons. cbn. lia.
    + injection H as <-. split_and!; try done; try apply Hins. intros op. unfold place, gone. cbn.
      rewrite (mcount_insert _ _ _ _ _ Ep). cbn. lia.
  - destruct p; try done. injection H as <-. split_and!; try done; try apply Hins; [|by exists op].
    intros o. unfold place, entered, gone. cbn. rewrite (mcount_insert _ _ _ _ _ Ep). cbn. lia.
  - destruct p; try done. injection H as <-. split_and!; try done; try apply Hins; [|by exists op].
    intros o. unfold place, entered, gone. cbn. rewrite (mcount_insert _ _ _ _ _ Ep). cbn. lia.
Qed.

(** *** One place per operation *)

Definition pool_inv (s : pool) : Prop :=
  (∀ t, (next_thread s ≤ t)%nat → athreads s !! t = None) ∧
  ∀ op, match handles s !! op with
        | None => (next_handle s ≤ op)%nat ∧ place op s = 0
        | Some o => (op < next_handle s)%nat ∧ if finished o then place op s = 0 else place op s ≤ 1
        end.

Lemma place_nonneg op s : 0 ≤ place op s.
Proof. unfold place. pose proof (queued_nonneg op (tasks s)). pose proof (mcount_nonneg (holds op) (athreads s)). lia. Qed.

Lemma pool_inv_fresh s : pool_inv s → pool_fresh s.
Proof.
  intros [Ht Hh]. split; [done|]. intros op Hop. specialize (Hh op). destruct (handles s !! op); [lia|]. by destruct Hh.
Qed.

Lemma held_place t op s p : athreads s !! t = Some p → holds op p = true → 0 < place op s.
Proof.
  intros Ht Hp. unfold place. pose proof (mcount_pos (holds op) _ _ _ Ht Hp). pose proof (queued_nonneg op (tasks s)). lia.
Qed.

(** The operation of a task that ends is unfinished and nowhere else. *)
Lemma pool_inv_task t op p s :
  pool_inv s → athreads s !! t = Some p → holds op p = true →
  ∃ o, handles s !! op = Some o ∧ finished o = false ∧ place op s = 1 ∧ (op < next_handle s)%nat.
Proof.
  intros [_ Hh] Ht Hheld. pose proof (held_place t op s _ Ht Hheld) as Hp. specialize (Hh op).
  destruct (handles s !! op) as [o|]; [|lia]. exists o. destruct (finished o); [lia|]. split_and!; try done; lia.
Qed.

Lemma holds_done op r : holds op (WDone op r) = true.
Proof. by apply bool_decide_true. Qed.
Lemma holds_task op : holds op (WTask op) = true.
Proof. by apply bool_decide_true. Qed.

(** The workers between the two steps that end an operation. *)
Definition is_done (p : worker_pc) : bool := match p with WDone _ _ => true | _ => false end.

Lemma done_count_step t a s s' p :
  pool_fresh s → athreads s !! t = Some p → pool_step t a s = Some s' →
  mcount is_done (athreads s') = mcount is_done (athreads s) + Z.b2z (match a with TaskReturns _ => true | _ => false end) - Z.b2z (is_done p).
Proof.
  intros [Ht _] Ep H. unfold pool_step in H. rewrite Ep in H.
  destruct a as [|n| | |r|]; destruct p as [|o|o|o|[|w ws]| |o|o r0|]; try done; repeat case_match; try done; injection H as <-;
    try (destruct (configure_spec n s Ht) as (_ & _ & _ & _ & _ & _ & _ & H7 & H8));
    try (destruct (configure_spec 4 s Ht) as (_ & _ & _ & _ & _ & _ & _ & H7 & H8));
    unfold p_at; cbn [athreads p_tasks p_handle p_active]; rewrite ?(mcount_insert _ _ _ _ _ Ep), ?(mcount_insert _ _ _ _ _ (H8 _ _ Ep)), ?H7;
    cbn [is_done Z.b2z]; lia.
Qed.

Lemma entered_next op a s : (op < next_handle s)%nat → entered op a s = 0.
Proof. intros H. destruct a; cbn; try done. rewrite bool_decide_false by lia. done. Qed.

Lemma gone_nonneg op a p s : 0 ≤ gone op a p s.
Proof.
  pose proof (queued_nonneg op (tasks s)). destruct a, p; cbn; try done; try (destruct (_ && _); lia);
    destruct (bool_decide _); done.
Qed.

Lemma pool_step_inv t a s s' : pool_inv s → pool_step t a s = Some s' → pool_inv s'.
Proof.
  intros Hinv H. pose proof (pool_inv_fresh s Hinv) as Hfr. pose proof Hinv as [_ Hh].
  destruct (pool_step_effect t a s s' Hfr H) as (p & Hp & Hpl & Ht' & Ha). split; [done|].
  intros op. specialize (Hpl op). specialize (Hh op).
  pose proof (place_nonneg op s'). pose proof (gone_nonneg op a p s).
  assert (handles s' = handles s → next_handle s' = next_handle s → a ≠ StartAsync →
    match handles s' !! op with
    | None => (next_handle s' ≤ op)%nat ∧ place op s' = 0
    | Some o => (op < next_handle s')%nat ∧ if finished o then place op s' = 0 else place op s' ≤ 1
    end) as Hkeep.
  { intros -> -> Hna. assert (entered op a s = 0) as He by (by destruct a).
    destruct (handles s !! op) as [o|]; [destruct (finished o)|]; destruct Hh; split; try done; lia. }
  destruct a as [|n| | |r|]; try (by destruct Ha as (? & ? & ?); apply Hkeep); try (by destruct Ha as (_ & ? & _ & ?); apply Hkeep).
  - destruct Ha as (-> & _ & ->). destruct (decide (next_handle s = op)) as [<-|Hne].
    + rewrite lookup_insert_eq. cbn [finished]. destruct Hfr as [_ Hfr]. destruct (Hfr (next_handle s)) as [_ Hz]; [lia|].
      cbn in Hpl. rewrite bool_decide_true in Hpl by done. cbn in Hpl. lia.
    + rewrite lookup_insert_ne by done. cbn in Hpl. rewrite bool_decide_false in Hpl by done. cbn in Hpl.
      destruct (handles s !! op) as [o|]; [destruct (finished o)|]; destruct Hh; split; lia.
  - destruct Ha as (Hnext & _ & Hhs). destruct (is_done p) eqn:Ed; [|apply Hkeep; by destruct p].
    destruct p as [| | | | | | |op0 r|]; try done. rewrite Hnext, Hhs.
    destruct (pool_inv_task t op0 _ s Hinv Hp (holds_done op0 r)) as (o0 & Ho & Hfin & Hone & Hlt).
    cbn in Hpl. destruct (decide (op0 = op)) as [->|Hne].
    + rewrite lookup_insert_eq. cbn. rewrite bool_decide_true in Hpl by done. cbn in Hpl. lia.
    + rewrite lookup_insert_ne by done. rewrite bool_decide_false in Hpl by done. cbn in Hpl.
      destruct (handles s !! op) as [o|]; [destruct (finished o)|]; destruct Hh; split; lia.
Qed.

Lemma run_pool_inv l s s' : pool_inv s → run_pool l s = Some s' → pool_inv s'.
Proof.
  revert s. induction l as [|[t a] l IH]; intros s Hs H; [by injection H as <-|]. cbn in H.
  destruct (pool_step t a s) as [s1|] eqn:E; [|done]. exact (IH s1 (pool_step_inv _ _ _ _ Hs E) H).
Qed.

Lemma pool_init_lookup n t p : athreads (pool_init n) !! t = Some p → p = AIdle ∧ (t < n)%nat.
Proof.
  cbn. intros H. apply elem_of_list_to_map_2, list_elem_of_fmap in H as (t' & H & Hin). simplify_eq.
  apply elem_of_seq in Hin. split; [done|lia].
Qed.
Lemma pool_init_mcount n P : P AIdle = false → mcount P (athreads (pool_init n)) = 0.
Proof. intros HP. apply mcount_none. intros t p H. by apply pool_init_lookup in H as [-> _]. Qed.

Lemma pool_init_inv n : pool_inv (pool_init n).
Proof.
  split.
  - intros t Ht. destruct (athreads (pool_init n) !! t) eqn:E; [|done]. apply pool_init_lookup in E. cbn in Ht. lia.
  - intros op. cbn [handles pool_init]. rewrite lookup_empty. split; [cbn; lia|]. unfold place.
    rewrite pool_init_mcount by done. done.
Qed.

(** *** An operation that is nowhere never finishes *)

Definition stranded (op : nat) (s : pool) : Prop :=
  place op s = 0 ∧ ∃ o, handles s !! op = Some o ∧ finished o = false.

Lemma stranded_step t a s s' op :
  pool_inv s → stranded op s → pool_step t a s = Some s' → stranded op s'.
Proof.
  intros Hinv [H0 (o & Ho & Hfin)] H.
  destruct (pool_step_effect t a s s' (pool_inv_fresh s Hinv) H) as (p & Hp & Hpl & _ & Ha).
  pose proof Hinv as [_ Hh]. specialize (Hh op). rewrite Ho, Hfin in Hh. destruct Hh as [Hlt _].
  specialize (Hpl op). rewrite entered_next in Hpl by done.
  pose proof (place_nonneg op s'). pose proof (gone_nonneg op a p s). split; [lia|]. exists o. split; [|done].
  destruct a as [|n| | |r|]; try (by destruct Ha as (_ & _ & ->)); try (by destruct Ha as (_ & _ & _ & ->)).
  - destruct Ha as (_ & _ & ->). rewrite lookup_insert_ne by lia. done.
  - destruct Ha as (_ & _ & ->). destruct p as [| | | | | | |op0 r|]; try done. rewrite lookup_insert_ne; [done|]. intros ->.
    destruct (pool_inv_task t op _ s Hinv Hp (holds_done op r)) as (? & _ & _ & ? & _). lia.
Qed.

Lemma stranded_forever l s s' op :
  pool_inv s → stranded op s → run_pool l s = Some s' → can_wait s' op = false.
Proof.
  revert s. induction l as [|[t a] l IH]; intros s Hinv Hst H.
  - injection H as <-. destruct Hst as (_ & o & Ho & Hf). unfold can_wait. by rewrite Ho.
  - cbn in H. destruct (pool_step t a s) as [s1|] eqn:E; [|done].
    exact (IH s1 (pool_step_inv _ _ _ _ Hinv E) (stranded_step _ _ _ _ _ Hinv Hst E) H).
Qed.

Lemma stop_strands t s s' op :
  pool_inv s → p_running s = true → op ∈ tasks s → pool_step t StopPool s = Some s' → stranded op s'.
Proof.
  intros Hinv Hr Hop H.
  destruct (pool_step_effect t _ s s' (pool_inv_fresh s Hinv) H) as (p & Hp & Hpl & _ & _ & _ & Hhs).
  apply queued_pos in Hop. pose proof Hinv as [_ Hh]. specialize (Hh op). specialize (Hpl op). cbn in Hpl.
  rewrite Hr in Hpl. cbn in Hpl. pose proof (place_nonneg op s'). pose proof (mcount_nonneg (holds op) (athreads s)).
  unfold stranded. rewrite Hhs. unfold place in Hh, Hpl at 2.
  destruct (handles s !! op) as [o|]; [|lia]. destruct (finished o) eqn:Ef; [lia|].
  split; [lia|]. by exists o.
Qed.

Lemma throw_strands t s s' op :
  pool_inv s → athreads s !! t = Some (WTask op) → pool_step t TaskThrows s = Some s' → stranded op s'.
Proof.
  intros Hinv Ht H. destruct (pool_inv_task t op _ s Hinv Ht (holds_task op)) as (o & Ho & Hf & H1 & _).
  destruct (pool_step_effect t _ s s' (pool_inv_fresh s Hinv) H) as (p & Hp & Hpl & _ & _ & _ & _ & Hhs).
  rewrite Ht in Hp. injection Hp as <-. specialize (Hpl op). cbn in Hpl. rewrite bool_decide_true in Hpl by done.
  cbn in Hpl. split; [lia|]. exists o. by rewrite Hhs.
Qed.

(** An operation that is still queued when [AsyncPool::stop] clears the queue, and one
    whose task throws, is never completed: [Operation::wait()] without a time limit does not
    return for it, whatever happens afterwards. *)
Theorem dropped_operation_never_finishes n l s t a s' op :
  run_pool l (pool_init n) = Some s →
  (a = StopPool ∧ p_running s = true ∧ op ∈ tasks s) ∨ (a = TaskThrows ∧ athreads s !! t = Some (WTask op)) →
  pool_step t a s = Some s' →
  ∀ l' s'', run_pool l' s' = Some s'' → can_wait s'' op = false.
Proof.
  intros Hl Ha H l' s'' H'. pose proof (run_pool_inv _ _ _ (pool_init_inv n) Hl) as Hinv.
  apply (stranded_forever l' s' s'' op (pool_step_inv _ _ _ _ Hinv H)); [|done].
  destruct Ha as [(-> & Hr & Hop)|[-> Ht]]; [by apply (stop_strands t s) | by apply (throw_strands t s)].
Qed.

Lemma dropped_operation_never_finishes_witness :
  ∃ s s', run_pool [(0, Configure 1); (0, StartAsync); (0, RunPool)]%nat (pool_init 1) = Some s ∧
    pool_step 0 StopPool s = Some s' ∧ (∀ l' s'', run_pool l' s' = Some s'' → can_wait s'' 0 = false).
Proof.
  eexists _, _. split; [reflexivity|]. split; [reflexivity|].
  apply (dropped_operation_never_finishes 1 [(0, Configure 1); (0, StartAsync); (0, RunPool)]%nat _ 0 StopPool _ 0
    eq_refl); [|reflexivity].
  left. split_and!; [done|done|]. cbn. by apply list_elem_of_singleton.
Defined.

(** *** Without [stop()] and exceptions nothing is lost *)

Definition is_worker (p : worker_pc) : bool := match p with WTop | WTask _ | WDone _ _ => true | _ => false end.
Definition is_push (p : worker_pc) : bool := match p with APush _ => true | _ => false end.
Definition is_stopping (p : worker_pc) : bool := match p with AJoin _ | WExited => true | _ => false end.
Definition unfinished (o : operation) : bool := negb (finished o).

Record running_inv (s : pool) : Prop := {
  ri_running : p_running s = true ↔ 0 < mcount is_worker (athreads s);
  ri_workers : workers s ≠ [] → p_running s = true;
  ri_tasks : tasks s ≠ [] → p_running s = true;
  ri_push : 0 < mcount is_push (athreads s) → p_running s = true;
  ri_stopping : mcount is_stopping (athreads s) = 0;
  ri_placed : ∀ op o, handles s !! op = Some o → finished o = false → place op s = 1;
  ri_active : async_active s = mcount unfinished (handles s) - mcount is_done (athreads s)
}.

Definition gentle (a : pool_act) : bool := match a with StopPool | TaskThrows => false | _ => true end.

Lemma configure_running n s t p p' :
  pool_fresh s → running_inv s → athreads s !! t = Some p → is_worker p = false → is_worker p' = false →
  is_stopping p = false → is_stopping p' = false →
  let s' := p_at t p' (configure n s) in
  p_running s' = true ∧ 0 < mcount is_worker (athreads s') ∧ mcount is_stopping (athreads s') = 0.
Proof.
  intros [Hf _] Hr Hp Hw Hw' Hs Hs'.
  destruct (configure_spec n s Hf) as (H1 & H2 & H3 & H4 & H5 & H6 & H9 & H7 & H8).
  cbn [p_at athreads p_running]. rewrite !(mcount_insert _ _ _ _ _ (H8 _ _ Hp)), !H7, Hw, Hw', Hs, Hs'. cbn.
  destruct Hr as [Hrun Hwk _ _ Hst _ _]. split_and!; [done| |lia].
  pose proof (mcount_nonneg is_worker (athreads s)).
  destruct (workers s) as [|w ws] eqn:E; [cbn; lia|].
  assert (0 < mcount is_worker (athreads s)) by (by apply Hrun, Hwk). lia.
Qed.

(** The parts of the invariant that look at the threads and the queue. *)
Definition threads_ok (s : pool) : Prop :=
  (p_running s = true ↔ 0 < mcount is_worker (athreads s)) ∧
  (workers s ≠ [] → p_running s = true) ∧ (tasks s ≠ [] → p_running s = true) ∧
  (0 < mcount is_push (athreads s) → p_running s = true) ∧ mcount is_stopping (athreads s) = 0.

Lemma threads_ok_step t a s s' :
  pool_fresh s → running_inv s → gentle a = true → pool_step t a s = Some s' → threads_ok s'.
Proof.
  intros Hfr Hr Ha H. pose proof Hr as [Hrun Hwk Htk Hpu Hst _ _]. unfold pool_step in H.
  destruct (athreads s !! t) as [p|] eqn:Ep; [|done].
  assert (is_stopping p = false) as Hsp.
  { destruct (is_stopping p) eqn:E; [|done]. pose proof (mcount_pos is_stopping _ _ _ Ep E). lia. }
  assert (is_worker p = true → p_running s = true) as Hpw.
  { intros E. pose proof (mcount_pos is_worker _ _ _ Ep E). by apply Hrun. }
  assert (is_push p = true → p_running s = true) as Hpp.
  { intros E. pose proof (mcount_pos is_push _ _ _ Ep E). by apply Hpu. }
  assert (p_running s = true → 0 < mcount is_worker (athreads s)) as Hrun1 by apply Hrun.
  unfold threads_ok.
  destruct a as [|n| | |r|]; try done.
  - destruct p; try done. injection H as <-. cbn. rewrite !(mcount_insert _ _ _ _ _ Ep). cbn.
    rewrite !Z.sub_0_r, !Z.add_0_r. by split_and!.
  - destruct p; try done. injection H as <-.
    destruct (configure_running n s t AIdle AIdle Hfr Hr Ep) as (H1 & H2 & H3); done.
  - destruct p as [|o|o|o|ws| |o|o r|]; try done.
    + destruct (negb (p_running s) || _) eqn:E; injection H as <-; cbn; rewrite !(mcount_insert _ _ _ _ _ Ep); cbn;
        rewrite !Z.sub_0_r, !Z.add_0_r; [by split_and!|].
      apply orb_false_iff in E as [E _]. apply negb_false_iff in E. rewrite E in *. by split_and!.
    + injection H as <-.
      destruct (configure_running 4 s t (AConfigure o) (APush o) Hfr Hr Ep) as (H1 & H2 & H3); done.
    + injection H as <-. specialize (Hpp eq_refl). specialize (Hrun1 Hpp).
      cbn. rewrite !(mcount_insert _ _ _ _ _ Ep), Hpp. cbn. split_and!; try done; lia.
    + specialize (Hpw eq_refl). specialize (Hrun1 Hpw). rewrite Hpw in H.
      destruct (tasks s) as [|o l] eqn:El; [done|]. injection H as <-.
      cbn. rewrite !(mcount_insert _ _ _ _ _ Ep), Hpw. cbn. split_and!; try done; lia.
    + specialize (Hpw eq_refl). specialize (Hrun1 Hpw). injection H as <-.
      cbn. rewrite !(mcount_insert _ _ _ _ _ Ep), Hpw. cbn. split_and!; try done; lia.
  - destruct p; try done. injection H as <-. specialize (Hpw eq_refl). specialize (Hrun1 Hpw). cbn.
    rewrite !(mcount_insert _ _ _ _ _ Ep), Hpw. cbn. split_and!; try done; lia.
Qed.

Lemma running_step t a s s' :
  pool_inv s → running_inv s → gentle a = true → pool_step t a s = Some s' → running_inv s'.
Proof.
  intros Hinv Hr Ha H. pose proof (pool_inv_fresh s Hinv) as Hfr.
  destruct (threads_ok_step t a s s' Hfr Hr Ha H) as (? & ? & ? & ? & ?). constructor; try done.
  - intros op o Ho Hfin. destruct (pool_step_effect t a s s' Hfr H) as (p & Hp & Hpl & _ & Hh). specialize (Hpl op).
    destruct a as [|n| | |r|]; try done.
    + destruct Hh as (_ & _ & Hh). rewrite Hh in Ho. destruct (decide (next_handle s = op)) as [<-|Hne].
      * destruct Hfr as [_ Hfr]. destruct (Hfr (next_handle s)) as [_ Hz]; [lia|]. cbn in Hpl.
        rewrite bool_decide_true in Hpl by done. cbn in Hpl. lia.
      * rewrite lookup_insert_ne in Ho by done. cbn in Hpl. rewrite bool_decide_false in Hpl by done. cbn in Hpl.
        pose proof (ri_placed s Hr op o Ho Hfin). lia.
    + destruct Hh as (_ & _ & Hh). rewrite Hh in Ho. pose proof (ri_placed s Hr op o Ho Hfin). cbn in Hpl. lia.
    + destruct Hh as (_ & _ & Hh). rewrite Hh in Ho.
      destruct (is_done p) eqn:Ed; [|destruct p; try done; pose proof (ri_placed s Hr op o Ho Hfin); cbn in Hpl; lia].
      destruct p as [| | | | | | |op0 r|]; try done. destruct (decide (op0 = op)) as [->|Hne].
      * rewrite lookup_insert_eq in Ho. by injection Ho as <-.
      * rewrite lookup_insert_ne in Ho by done. cbn in Hpl. rewrite bool_decide_false in Hpl by done. cbn in Hpl.
        pose proof (ri_placed s Hr op o Ho Hfin). lia.
    + destruct Hh as (_ & _ & _ & Hh). rewrite Hh in Ho. pose proof (ri_placed s Hr op o Ho Hfin). cbn in Hpl. lia.
  - destruct (pool_step_effect t a s s' Hfr H) as (p & Hp & _ & _ & Hh). pose proof (ri_active s Hr) as Hact.
    rewrite (done_count_step t a s s' p Hfr Hp H). unfold pool_step in H. rewrite Hp in H.
    destruct a as [|n| | |r|]; try done.
    + destruct Hh as (_ & -> & ->). destruct Hfr as [_ Hfr]. destruct (Hfr (next_handle s)) as [Hn _]; [lia|].
      rewrite mcount_fresh by done. destruct p; try done. cbn. lia.
    + destruct Hh as (_ & -> & ->). destruct p; try done. cbn. lia.
    + destruct Hh as (_ & -> & ->). destruct (is_done p) eqn:Ed; [|destruct p; try done; cbn; lia].
      destruct p as [| | | | | | |op0 r|]; try done.
      destruct (pool_inv_task t op0 _ s Hinv Hp (holds_done op0 r)) as (o & Ho & Hf & _ & _).
      rewrite (mcount_insert _ _ _ _ _ Ho). unfold unfinished at 2 3. rewrite Hf. cbn. lia.
    + destruct Hh as ((op0 & ->) & _ & -> & ->). cbn. lia.
Qed.

Lemma running_init n : running_inv (pool_init n).
Proof.
  constructor; try done.
  - rewrite pool_init_mcount by done. done.
  - rewrite pool_init_mcount by done. done.
  - by rewrite pool_init_mcount.
  - by rewrite pool_init_mcount.
Qed.

Lemma run_pool_running l s s' :
  pool_inv s → running_inv s → forallb (λ ta, gentle ta.2) l = true → run_pool l s = Some s' →
  pool_inv s' ∧ running_inv s'.
Proof.
  revert s. induction l as [|[t a] l IH]; intros s Hs Hr Hg H; [by injection H as <-|]. cbn in H, Hg.
  apply andb_true_iff in Hg as [Ha Hg]. destruct (pool_step t a s) as [s1|] eqn:E; [|done].
  apply (IH s1); try done; [by apply (pool_step_inv t a s) | by apply (running_step t a s)].
Qed.

(** No thread of the pool has anything to do and no task is running. *)
Definition is_task (p : worker_pc) : bool := match p with WTask _ => true | _ => false end.
Definition quiet (s : pool) : bool :=
  forallb (λ tp, match pool_step tp.1 RunPool s with None => negb (is_task tp.2) | Some _ => false end)
    (map_to_list (athreads s)).

Lemma quiet_thread s t p :
  quiet s = true → athreads s !! t = Some p → pool_step t RunPool s = None ∧ is_task p = false.
Proof.
  unfold quiet. rewrite forallb_forall. intros Hq Hp. specialize (Hq (t, p)). cbn in Hq.
  rewrite <- list_elem_of_In, elem_of_map_to_list in Hq. specialize (Hq Hp).
  destruct (pool_step t RunPool s); [done|]. by destruct (is_task p).
Qed.

(** C35. As long as [stop()] is not called and no task throws, the pool loses no operation:
    whenever its threads have come to rest, every operation that was started is finished
    (each [wait()] returns) and no device is reported busy. *)
Theorem pool_completes_all n l s :
  run_pool l (pool_init n) = Some s → forallb (λ ta, gentle ta.2) l = true → quiet s = true →
  (∀ op o, handles s !! op = Some o → can_wait s op = true) ∧ async_active s = 0.
Proof.
  intros Hl Hg Hq. destruct (run_pool_running _ _ _ (pool_init_inv n) (running_init n) Hg Hl) as [Hinv Hr].
  assert (tasks s = []) as Htk.
  { destruct (tasks s) as [|o k] eqn:E; [done|]. exfalso.
    assert (0 < mcount is_worker (athreads s)) as Hw by (apply (ri_running s Hr), (ri_tasks s Hr); by rewrite E).
    rewrite mcount_none in Hw; [lia|]. intros t p Hp. destruct (quiet_thread s t p Hq Hp) as [Hn Ht].
    unfold pool_step in Hn. rewrite Hp, E in Hn. by destruct p. }
  assert (∀ op, place op s = 0) as Hpl.
  { intros op. unfold place. rewrite Htk, mcount_none; [done|]. intros t p Hp. destruct (quiet_thread s t p Hq Hp) as [Hn Ht].
    unfold pool_step in Hn. rewrite Hp in Hn. destruct p; try done.
    by destruct (_ || _) in Hn. }
  assert (∀ op o, handles s !! op = Some o → finished o = true) as Hall.
  { intros op o Ho. destruct (finished o) eqn:Ef; [done|]. pose proof (ri_placed s Hr op o Ho Ef) as H1.
    rewrite Hpl in H1. done. }
  split.
  - intros op o Ho. unfold can_wait. rewrite Ho. by apply (Hall op).
  - rewrite (ri_active s Hr), !mcount_none; [done| |].
    + intros t p Hp. destruct (quiet_thread s t p Hq Hp) as [Hn _]. unfold pool_step in Hn. rewrite Hp in Hn. by destruct p.
    + intros op o Ho. unfold unfinished. by rewrite (Hall op).
Qed.

Definition pool_demo : list (nat * pool_act) :=
  [(0, StartAsync); (0, RunPool); (0, RunPool); (0, RunPool); (1, RunPool); (1, TaskReturns no_result); (1, RunPool)]%nat.

Lemma pool_completes_all_witness :
  ∃ s, run_pool pool_demo (pool_init 1) = Some s ∧ (∀ op o, handles s !! op = Some o → can_wait s op = true) ∧
    async_active s = 0.
Proof.
  assert (quiet <$> run_pool pool_demo (pool_init 1) = Some true) as Hq by (vm_compute; reflexivity).
  destruct (run_pool pool_demo (pool_init 1)) as [s|] eqn:E; [|discriminate Hq].
  exists s. split; [done|]. apply (pool_completes_all 1 pool_demo s E); [reflexivity|].
  by injection Hq.
Defined.

(** [stop()] takes the workers and unlocks before they have seen that they must end; if
    another thread configures the pool in between ([submit] does so when it finds the pool
    stopped), the old workers see a running pool again and go on waiting.  [stop()] is then
    stuck in [join()]: no thread of the pool can make a step. *)
Theorem stop_configure_race :
  ∃ s, run_pool [(0, Configure 1); (0, StopPool); (1, Configure 1)]%nat (pool_init 2) = Some s ∧
    athreads s !! 0%nat = Some (AJoin [2%nat]) ∧ athreads s !! 2%nat = Some WTop ∧
    ∀ t, pool_step t RunPool s = None.
Proof.
  eexists. split; [reflexivity|]. split; [reflexivity|]. split; [reflexivity|].
  intros t. destruct t as [|[|[|[|t]]]]; try reflexivity. unfold pool_step. cbn.
  rewrite !lookup_insert_ne by lia. done.
Qed.
