(* ===== verification/Paths.v ===== *)
(** * Paths

    Models the path functions of libbase file.cpp ([Basename], [Dirname], copied there from
    bionic), [mkdirs] of adb_utils.cpp, and the path helpers of
    adb/lib/src/file_sync_client.cpp: [ensure_trailing_separators], [IsDotOrDotDot],
    [is_root_dir], [copyinfo] and the walk over the parents of a remote directory.

    A pointer into the path is an index.  The proofs at the end are about where a copied
    file ends up and about the walk to the root. *)

From S2P Require Import Prelude Strings.

Definition slash : byte := x2f.
Definition PATH_MAX : Z := 4096.

(** ** libbase *)

(** [while (endp > path && *endp == '/') endp--;] *)
Fixpoint skip_slashes (path : bytes) (endp : nat) : nat :=
  match endp with
  | O => O
  | S e => if bool_decide (path !! endp = Some slash) then skip_slashes path e else endp
  end.
(** [while (endp > path && *endp != '/') endp--;] *)
Fixpoint skip_name (path : bytes) (endp : nat) : nat :=
  match endp with
  | O => O
  | S e => if bool_decide (path !! endp = Some slash) then endp else skip_name path e
  end.
(** [while (startp > path && *(startp - 1) != '/') startp--;] *)
Fixpoint base_start (path : bytes) (startp : nat) : nat :=
  match startp with
  | O => O
  | S e => if bool_decide (path !! e = Some slash) then startp else base_start path e
  end.

(** A result that does not fit into the buffer is returned as the empty string. *)
Definition fits (s : bytes) : bytes := if PATH_MAX - 1 <? llen s then [] else s.

Definition Basename (path : bytes) : bytes :=
  match path with
  | [] => txt "."
  | _ =>
      let endp := skip_slashes path (length path - 1) in
      if bool_decide (endp = 0%nat) && bool_decide (path !! 0%nat = Some slash) then txt "/" else
      let startp := base_start path endp in
      fits (take (endp - startp + 1) (drop startp path))
  end.

Definition Dirname (path : bytes) : bytes :=
  match path with
  | [] => txt "."
  | _ =>
      let endp := skip_name path (skip_slashes path (length path - 1)) in
      if bool_decide (endp = 0%nat) then
        if bool_decide (path !! 0%nat = Some slash) then txt "/" else txt "."
      else
        (* do endp--; while (endp > path && *endp == '/'); *)
        fits (take (S (skip_slashes path (endp - 1))) path)
  end.

(** ** adb_utils.cpp: mkdirs *)

(** The file system of the host, as far as directories go. *)
Class DirFS := {
  fs : Type;
  fs_isdir : fs → bytes → bool;             (** [stat] succeeds and is a directory *)
  fs_mkdir : fs → bytes → bool * fs         (** [adb_mkdir(path, 0775)] *)
}.
Class DirFSLaws `{DirFS} := {
  mkdir_isdir : ∀ w path w', fs_mkdir w path = (true, w') → fs_isdir w' path = true;
  mkdir_keeps : ∀ w path ok w' q, fs_mkdir w path = (ok, w') → fs_isdir w q = true → fs_isdir w' q = true
}.

Fixpoint mkdirs `{DirFS} (fuel : nat) (path : bytes) (w : fs) : res (bool * fs) :=
  match fuel with
  | O => NoFuel
  | S fuel =>
      if fs_isdir w path then Ok (true, w) else
      let parent := Dirname path in
      if bool_decide (parent = path) then Ok (false, w) else
      '(ok, w) ← mkdirs fuel parent w;
      if negb ok then Ok (false, w) else
      let '(made, w) := fs_mkdir w path in
      if made then Ok (true, w) else Ok (fs_isdir w path, w)
  end.

(** ** file_sync_client.cpp *)

(** [s.back()] of an empty string is undefined. *)
Definition push_separator (s : bytes) : res bytes :=
  match last s with
  | None => Undef
  | Some c => Ok (if bool_decide (c = slash) then s else s ++ [slash])
  end.
Definition ensure_trailing_separators (lpath rpath : bytes) : res (bytes * bytes) :=
  l ← push_separator lpath; r ← push_separator rpath; Ok (l, r).

Definition IsDotOrDotDot (name : bytes) : bool :=
  bool_decide (name = txt ".") || bool_decide (name = txt "..").

Definition is_root_dir (path : bytes) : bool := forallb (λ c, bool_decide (c = slash)) path.

(** File types. *)
Definition S_IFMT : Z := 61440.
Definition S_IFDIR : Z := 16384.
Definition S_IFREG : Z := 32768.
Definition S_IFLNK : Z := 40960.
Definition S_IFBLK : Z := 24576.
Definition S_IFCHR : Z := 8192.
Definition is_type (t mode : Z) : bool := Z.land mode S_IFMT =? t.
Definition S_ISDIR := is_type S_IFDIR.
Definition S_ISREG := is_type S_IFREG.
Definition S_ISLNK := is_type S_IFLNK.
Definition should_pull_file (mode : Z) : bool := S_ISREG mode || is_type S_IFBLK mode || is_type S_IFCHR mode.
Definition should_push_file (mode : Z) : bool := S_ISREG mode || S_ISLNK mode.

Record copyinfo := mkCopy {
  ci_lpath : bytes; ci_rpath : bytes; ci_time : Z; ci_mode : Z; ci_size : Z; ci_skip : bool
}.
Definition new_copyinfo (local_path remote_path name : bytes) (mode : Z) : res copyinfo :=
  '(l, r) ← ensure_trailing_separators local_path remote_path;
  let l := l ++ name in
  let r := r ++ name in
  '(l, r) ← (if S_ISDIR mode then ensure_trailing_separators l r else Ok (l, r));
  Ok (mkCopy l r 0 mode 0 false).
Definition set_skip (c : copyinfo) : copyinfo :=
  mkCopy (ci_lpath c) (ci_rpath c) (ci_time c) (ci_mode c) (ci_size c) true.
Definition set_attrs (time size : Z) (c : copyinfo) : copyinfo :=
  mkCopy (ci_lpath c) (ci_rpath c) time (ci_mode c) size (ci_skip c).

(** [for (path = rpath; !is_root_dir(path); path = Dirname(path)) list.push_back(path);]
    the result is the reversed list. *)
Fixpoint parent_dirs (fuel : nat) (path : bytes) (acc : list bytes) : res (list bytes) :=
  match fuel with
  | O => NoFuel
  | S fuel => if is_root_dir path then Ok acc else parent_dirs fuel (Dirname path) (path :: acc)
  end.

(** ** The walk over the parents *)

Lemma skip_slashes_le path n : (skip_slashes path n ≤ n)%nat.
Proof. induction n as [|n IH]; [done|]. cbn [skip_slashes]. case_bool_decide; lia. Qed.
Lemma skip_name_le path n : (skip_name path n ≤ n)%nat.
Proof. induction n as [|n IH]; [done|]. cbn [skip_name]. case_bool_decide; lia. Qed.

Lemma llen_fits s : llen s < PATH_MAX → fits s = s.
Proof. unfold fits. intros. rewrite (proj2 (Z.ltb_ge _ _)) by lia. done. Qed.

(** What [Dirname] returns: a dot, a slash, nothing, or a proper prefix. *)
Lemma Dirname_cases path :
  Dirname path = txt "." ∧ (path = [] ∨ path !! 0%nat ≠ Some slash) ∨
  Dirname path = txt "/" ∧ path !! 0%nat = Some slash ∨
  ∃ n, (0 < n < length path)%nat ∧ Dirname path = fits (take n path).
Proof.
  unfold Dirname. destruct path as [|b path]; [left; split; [done|by left]|]. set (p := b :: path).
  pose proof (skip_slashes_le p (length p - 1)) as He. set (e := skip_slashes p (length p - 1)) in *.
  pose proof (skip_name_le p e).
  case_bool_decide as E; [case_bool_decide as E0; [right; left; done | left; split; [done|by right]]|].
  right; right. exists (S (skip_slashes p (skip_name p e - 1))). split; [|done].
  pose proof (skip_slashes_le p (skip_name p e - 1)). cbn [length p] in *. lia.
Qed.

Lemma is_root_dir_head path b : path !! 0%nat = Some b → is_root_dir path = true → b = slash.
Proof.
  destruct path as [|c path]; [done|]. cbn. intros [= ->] H. apply andb_true_iff in H as [H _].
  by apply bool_decide_eq_true in H.
Qed.

(** A walk that starts at an absolute path gets shorter with every step. *)
Lemma Dirname_absolute path :
  path !! 0%nat = Some slash → is_root_dir path = false →
  (length (Dirname path) < length path)%nat ∧ (is_root_dir (Dirname path) = true ∨ Dirname path !! 0%nat = Some slash).
Proof.
  intros Hh Hr. assert (1 < length path)%nat as Hl.
  { destruct path as [|c [|d path]]; [done| |cbn; lia]. cbn in Hh, Hr. injection Hh as ->. done. }
  destruct (Dirname_cases path) as [[_ [->|Hn]]|[[-> _]|(n & Hn & ->)]]; [done|done|cbn; split; [lia|by left]|].
  unfold fits. destruct (_ <? _); [cbn; split; [lia|by left]|]. rewrite length_take. split; [lia|]. right.
  rewrite lookup_take. case_decide; [done|lia].
Qed.

(** One that starts at a relative path never gets to a root. *)
Lemma Dirname_relative path b :
  path !! 0%nat = Some b → b ≠ slash → llen path < PATH_MAX →
  ∃ c, Dirname path !! 0%nat = Some c ∧ c ≠ slash ∧ llen (Dirname path) < PATH_MAX.
Proof.
  intros Hh Hb Hl. destruct (Dirname_cases path) as [[-> _]|[[_ Hs]|(n & Hn & ->)]].
  - by exists x2e.
  - congruence.
  - assert (llen (take n path) < PATH_MAX) as Ht by (unfold llen in *; rewrite length_take; lia).
    rewrite llen_fits by done. exists b. split_and!; [|done|done]. rewrite lookup_take. case_decide; [done|lia].
Qed.

(** The list goes from the outermost directory to the path itself. *)
Fixpoint parents_linked (l : list bytes) : Prop :=
  match l with
  | a :: (b :: _) as l' => a = Dirname b ∧ parents_linked l'
  | _ => True
  end.

Lemma parent_dirs_ok fuel : ∀ path acc,
  (is_root_dir path = true ∨ path !! 0%nat = Some slash) → (length path < fuel)%nat →
  Forall (λ d, is_root_dir d = false) acc → parents_linked acc →
  match acc with a :: _ => path = Dirname a | [] => True end →
  ∃ pre, parent_dirs fuel path acc = Ok (pre ++ acc) ∧ parents_linked (pre ++ acc) ∧
    Forall (λ d, is_root_dir d = false) (pre ++ acc) ∧
    (is_root_dir path = false → last pre = Some path) ∧
    match pre ++ acc with a :: _ => is_root_dir (Dirname a) = true | [] => is_root_dir path = true end.
Proof.
  induction fuel as [|fuel IH]; intros path acc Hp Hf Hacc Hl Hh; [lia|]. cbn [parent_dirs].
  destruct (is_root_dir path) eqn:Er.
  { exists []. split_and!; try done. cbn. destruct acc as [|a acc]; [done|]. by rewrite <- Hh. }
  destruct Hp as [?|Hp]; [congruence|]. destruct (Dirname_absolute path Hp Er) as [Hd Hd'].
  destruct (IH (Dirname path) (path :: acc)) as (pre & E & H1 & H2 & H3 & H4).
  - done.
  - lia.
  - by constructor.
  - cbn. destruct acc; [done|]. by split.
  - done.
  - exists (pre ++ [path]). rewrite <- !app_assoc. cbn [app]. split_and!; try done; [by rewrite last_snoc|].
    destruct pre as [|a pre]; [done|exact H4].
Qed.

(** Before a directory is pushed, the directories above it are collected by walking up
    to the root.  For an absolute path the walk ends and gives exactly the chain of parents
    below the root, outermost first and the directory itself last; for a relative path it
    never ends, however long it runs. *)
Theorem parent_dirs_walk path b :
  path !! 0%nat = Some b → llen path < PATH_MAX →
  (b = slash → is_root_dir path = false →
     ∃ l, parent_dirs (S (length path)) path [] = Ok l ∧ parents_linked l ∧ last l = Some path ∧
       Forall (λ d, is_root_dir d = false) l ∧ ∃ a, head l = Some a ∧ is_root_dir (Dirname a) = true) ∧
  (b ≠ slash → ∀ fuel acc, parent_dirs fuel path acc = NoFuel).
Proof.
  intros Hh Hl. split.
  - intros -> Hr. destruct (parent_dirs_ok (S (length path)) path []) as (pre & E & H1 & H2 & H3 & H4); try done.
    + by right.
    + lia.
    + rewrite app_nil_r in *. exists pre. split_and!; try done; [by apply H3|].
      destruct pre as [|a pre]; [by specialize (H3 Hr)|]. by exists a.
  - intros Hb fuel. revert path b Hh Hb Hl. induction fuel as [|fuel IH]; intros path b Hh Hb Hl acc; [done|].
    cbn [parent_dirs]. destruct (is_root_dir path) eqn:Er; [by apply (is_root_dir_head path b) in Er|].
    destruct (Dirname_relative path b Hh Hb Hl) as (c & Hc & Hcs & Hcl). by apply (IH _ c).
Qed.

Lemma parent_dirs_walk_witness :
  (∃ l, parent_dirs (S (length (txt "/data/local/"))) (txt "/data/local/") [] = Ok l ∧ parents_linked l ∧
     last l = Some (txt "/data/local/") ∧ Forall (λ d, is_root_dir d = false) l ∧
     ∃ a, head l = Some a ∧ is_root_dir (Dirname a) = true) ∧
  (∀ fuel acc, parent_dirs fuel (txt "photos/") acc = NoFuel).
Proof.
  split.
  - by apply (parent_dirs_walk (txt "/data/local/") slash).
  - by apply (parent_dirs_walk (txt "photos/") x70).
Defined.

(** ** mkdirs *)

Section mkdirs_proofs.
Context `{DirFSLaws}.

Lemma mkdirs_ends fuel : ∀ path w,
  (S (length path) < fuel)%nat ∨ (path = txt "." ∧ (0 < fuel)%nat) → ∃ ok w', mkdirs fuel path w = Ok (ok, w').
Proof.
  induction fuel as [|fuel IH]; intros path w Hf; [lia|]. cbn [mkdirs].
  destruct (fs_isdir w path); [eauto|]. case_bool_decide as Ed; [eauto|].
  assert ((S (length (Dirname path)) < fuel)%nat ∨ (Dirname path = txt "." ∧ (0 < fuel)%nat)) as Hd.
  { destruct Hf as [Hf|[-> _]]; [|by destruct Ed].
    destruct (Dirname_cases path) as [[E H2]|[[E H2]|(n & Hn & E)]]; rewrite E in *.
    - right. split; [done|lia].
    - left. cbn. destruct path as [|a [|b path]]; [done| |cbn in Hf; lia]. cbn in H2. injection H2 as ->. by destruct Ed.
    - left. unfold fits. destruct (_ <? _); [cbn; lia|]. rewrite length_take. lia. }
  destruct (IH (Dirname path) w Hd) as (ok & w' & ->). cbn. destruct ok; cbn; [|eauto].
  destruct (fs_mkdir w' path) as [[] w'']; eauto.
Qed.

(** [mkdirs] returns on every path; when it returns true the directory exists, and no
    directory that was there is lost. *)
Theorem mkdirs_makes path w :
  ∃ ok w', mkdirs (S (S (length path))) path w = Ok (ok, w') ∧ (ok = true → fs_isdir w' path = true) ∧
    ∀ q, fs_isdir w q = true → fs_isdir w' q = true.
Proof.
  destruct (mkdirs_ends (S (S (length path))) path w) as (ok & w' & E); [lia|]. exists ok, w'. split; [done|].
  generalize dependent (S (S (length path))). intros fuel. revert path w ok w'.
  induction fuel as [|fuel IH]; intros path w ok w' E; [done|]. cbn [mkdirs] in E.
  destruct (fs_isdir w path) eqn:Ei; [by injection E as <- <-|].
  case_bool_decide; [by injection E as <- <-|].
  destruct (mkdirs fuel (Dirname path) w) as [[ok1 w1]| | | |] eqn:E1; try done. cbn in E.
  destruct (IH _ _ _ _ E1) as [_ Hk]. destruct ok1; cbn in E; [|by injection E as <- <-].
  destruct (fs_mkdir w1 path) as [made w2] eqn:Em.
  assert (∀ q, fs_isdir w q = true → fs_isdir w2 q = true) by eauto using mkdir_keeps.
  destruct made; injection E as <- <-; split; eauto using mkdir_isdir.
Qed.
End mkdirs_proofs.

(** ** Where copies go *)

(** A name that stays in its directory. *)
Definition safe_name (name : bytes) : Prop := slash ∉ name ∧ name ≠ txt "." ∧ name ≠ txt "..".
(** The path of a directory below [root], which ends in a slash. *)
Definition subdir (root : bytes) (comps : list bytes) : bytes := root ++ concat ((λ c, c ++ [slash]) <$> comps).

Definition dir_below (root d : bytes) : Prop := ∃ comps, Forall safe_name comps ∧ d = subdir root comps.
Definition file_below (root f : bytes) : Prop :=
  ∃ comps name, Forall safe_name comps ∧ safe_name name ∧ f = subdir root comps ++ name.

Lemma subdir_snoc root comps c : subdir root (comps ++ [c]) = subdir root comps ++ c ++ [slash].
Proof. unfold subdir. rewrite fmap_app, concat_app. cbn. by rewrite app_nil_r, app_assoc. Qed.

Lemma dir_below_refl root : dir_below root root.
Proof. exists []. split; [done|]. unfold subdir. cbn. by rewrite app_nil_r. Qed.

Lemma dir_below_trans root d d' : dir_below root d → dir_below d d' → dir_below root d'.
Proof.
  intros (c1 & H1 & ->) (c2 & H2 & ->). exists (c1 ++ c2). split; [by apply Forall_app|].
  unfold subdir. by rewrite fmap_app, concat_app, app_assoc.
Qed.
Lemma file_below_trans root d f : dir_below root d → file_below d f → file_below root f.
Proof.
  intros (c1 & H1 & ->) (c2 & n & H2 & Hn & ->). exists (c1 ++ c2), n. split; [by apply Forall_app|]. split; [done|].
  unfold subdir. by rewrite fmap_app, concat_app, !app_assoc.
Qed.

Lemma last_snoc_slash (s : bytes) : last s = Some slash → ∃ t, s = t ++ [slash].
Proof. intros H. apply last_Some in H as [t ->]. by exists t. Qed.

Lemma push_separator_last s s' : push_separator s = Ok s' → last s' = Some slash.
Proof.
  unfold push_separator. destruct (last s) as [c|] eqn:E; [|done]. case_bool_decide; intros [= <-]; [by subst|].
  apply last_snoc.
Qed.
Lemma push_separator_id s : last s = Some slash → push_separator s = Ok s.
Proof. intros H. unfold push_separator. rewrite H. by rewrite bool_decide_eq_true_2. Qed.

Lemma last_cons_slash (d name : bytes) b : name ≠ [] → last (d ++ name) = Some b → b ∈ name.
Proof.
  intros Hn H. destruct name as [|c name _] using rev_ind; [done|]. rewrite app_assoc, last_snoc in H. set_solver.
Qed.

(** The entry for something in a directory whose path ends in a slash. *)
Lemma new_copyinfo_below d r name mode ci :
  last d = Some slash → safe_name name → new_copyinfo d r name mode = Ok ci →
  ci_mode ci = mode ∧
  if S_ISDIR mode then dir_below d (ci_lpath ci) ∧ last (ci_lpath ci) = Some slash
  else file_below d (ci_lpath ci).
Proof.
  intros Hd Hn E. unfold new_copyinfo, ensure_trailing_separators in E. rewrite (push_separator_id d Hd) in E.
  destruct (push_separator r) as [r'| | | |]; try done. cbn in E. destruct (S_ISDIR mode) eqn:Em.
  - destruct (push_separator (d ++ name)) as [d'| | | |] eqn:Ed; try done. cbn in E.
    destruct (push_separator (r' ++ name)) as [r''| | | |]; try done. cbn in E. injection E as <-. cbn.
    split; [done|]. split; [|by eapply push_separator_last].
    destruct (decide (name = [])) as [->|Hne].
    + rewrite app_nil_r, (push_separator_id d Hd) in Ed. injection Ed as <-. apply dir_below_refl.
    + unfold push_separator in Ed. destruct (last (d ++ name)) as [b|] eqn:El; [|done].
      apply (last_cons_slash d name b Hne) in El. case_bool_decide as Eb; [subst b; by destruct Hn|].
      injection Ed as <-. exists [name]. split; [by constructor|]. unfold subdir. cbn. by rewrite app_nil_r, app_assoc.
  - injection E as <-. cbn. split; [done|]. exists [], name. split_and!; try done. unfold subdir. cbn. by rewrite app_nil_r.
Qed.
