(* ===== verification/Installer.v ===== *)
(** * Installing packages

    Models the part of adb/lib/src/adb_install.cpp that libadb uses, and adb/lib/src/AdbInstaller.cpp:
    the install sessions of the package manager (pm) on the device, for the splits of one package
    ([install_multiple_app]) and for several packages ([install_multi_package]), and the
    unpacking of bundles before and after.

    What the program does outside is the log of [event]s; what it is told is [InstallEnv], and
    may depend on all that was done before.  The files on the host do not change
    during a call.  [error_exit] ends the process. *)

From S2P Require Import Prelude Strings Paths.

Inductive event :=
  | ECmd (args : list bytes)      (** a command for the device *)
  | EData (file : bytes)          (** a file is copied to the command sent last *)
  | EStatus (text : bytes)        (** [report_status] *)
  | EMkdir (dir : bytes)
  | ESystem (cmd : bytes)         (** a command of the host's shell *)
  | EShell (cmd : bytes)          (** a command of the device's shell *)
  | ESession (id : Z).            (** history: a session of the package manager was opened *)

Class InstallEnv := {
  has_cmd : bool;                                 (** the features of the device *)
  has_abb_exec : bool;
  stat_size : bytes → option Z;                   (** [stat] *)
  can_open : bytes → bool;
  connects : list event → bool;                   (** whether the last command could be sent *)
  copies : list event → bool;                     (** whether [copy_to_file] succeeded *)
  says : list event → bytes;                      (** what the device answers *)
  incremental : list bytes → bool → bool → Z;     (** [install_app_incremental] *)
  env_incremental : option bytes;                 (** ADB_INSTALL_DEFAULT_INCREMENTAL *)
  shell_code : list event → Z;                    (** the result of [send_shell_command] *)
  system_ok : list event → bool;
  listing : bytes → list bytes;                   (** the names in a directory *)
  now : list event → Z
}.

(** [None] is the end of the process. *)
Definition IM (A : Type) : Type := list event → option A * list event.
#[global] Instance im_ret : MRet IM := λ A a log, (Some a, log).
#[global] Instance im_bind : MBind IM := λ A B f m log,
  match m log with (Some a, log) => f a log | (None, log) => (None, log) end.
Definition error_exit {A} : IM A := λ log, (None, log).
Definition emit (e : event) : IM unit := λ log, (Some (), log ++ [e]).
Definition told {A} (f : list event → A) : IM A := λ log, (Some (f log), log).
Definition report_status (text : bytes) : IM unit := emit (EStatus text).

Definition EXIT_SUCCESS : Z := 0.
Definition EXIT_FAILURE : Z := 1.

(** [copy_to_file], when there is no terminal: what was read each time ([None] is an error), what [write] returned,
    and whether the observer wants to stop; the result and what went out. *)
Fixpoint copy_to_file (reads : list (option bytes)) (writes : list Z) (aborts : list bool) : bool * bytes :=
  match reads with
  | [] => (true, [])
  | None :: _ => (false, [])
  | Some [] :: _ => (true, [])
  | Some d :: reads =>
      let out := ltake (hd 0 writes) d in
      if hd false aborts then (false, out)
      else let '(ok, rest) := copy_to_file reads (tail writes) (tail aborts) in (ok, out ++ rest)
  end.

Section install.
Context `{InstallEnv}.

(** ** Commands and their status *)

(** The option is whether a connection was made. *)
Definition send_command (args : list bytes) : IM bool := _ ← emit (ECmd args); told connects.

(** The service that a command is sent to. *)
Definition service_string (args : list bytes) : bytes :=
  if has_abb_exec then txt "abb_exec:" ++ Join args [x00] else Join args (txt " ").

Definition BUFSIZ : Z := 8192.
(** [read_status_line], and the C string that it leaves in the buffer. *)
Definition read_status_line : IM bytes := a ← told says; mret (c_str (ltake (BUFSIZ - 1) a)).

Definition is_success (buf : bytes) : bool := StartsWith buf (txt "Success").

(** [strtol(s, nullptr, 10)] as an int. *)
Definition strtol10 (s : bytes) : Z :=
  match strto 10 (drop_while_space s) with
  | None => 0
  | Some (neg, v, _) => s32 (if neg : bool then Z.max (- 2 ^ 63) (- v) else Z.min (2 ^ 63 - 1) v)
  end.

(** The session id between the last brackets, or -1, and the buffer, in which the closing
    bracket is overwritten. *)
Definition session_id_of (buf : bytes) : Z * bytes :=
  if is_success buf then
    match rfind buf (txt "["), rfind buf (txt "]") with
    | Some st, Some en =>
        (strtol10 (if (st <? en)%nat then take (en - S st) (drop (S st) buf) else drop (S st) buf), take en buf)
    | _, _ => (-1, buf)
    end
  else (-1, buf).

Definition pass_option (o : bytes) : bytes := if has_abb_exec then o else escape_arg o.

(** ** One package *)

Definition is_apex (f : bytes) : bool := EndsWithIgnoreCase f (txt ".apex").
Definition is_split (f : bytes) : bool :=
  EndsWithIgnoreCase f (txt ".apk") || EndsWithIgnoreCase f (txt ".dm") || EndsWithIgnoreCase f (txt ".fsv_sig").

(** The files at the end of the arguments, which are given in reverse order, and their size. *)
Fixpoint scan_apks (r files : list bytes) (total : Z) : IM (list bytes * list bytes * Z) :=
  match r with
  | [] => mret (files, [], total)
  | f :: r' =>
      if is_apex f then error_exit else
      if is_split f then
        match stat_size f with
        | None => error_exit
        | Some n => scan_apks r' (f :: files) (u64 (total + n))
        end
      else mret (files, r, total)
  end.

(** One file for a session: whether it arrived. *)
Definition write_file (install_cmd session name file : bytes) (report : bool) : IM bool :=
  match stat_size file with
  | None => mret false
  | Some n =>
      if negb (can_open file) then mret false else
      ok ← send_command [install_cmd; txt "install-write"; txt "-S"; dec n; session; name; txt "-"];
      if negb ok then mret false else
      _ ← emit (EData file);
      ok ← told copies;
      if negb ok then mret false else
      buf ← read_status_line;
      if is_success buf then mret true
      else if report then _ ← report_status buf; mret false else mret false
  end.

(** The files of the session, up to the first that fails. *)
Fixpoint write_files (install_cmd session : bytes) (files : list bytes) : IM bool :=
  match files with
  | [] => mret true
  | f :: files =>
      ok ← write_file install_cmd session (Basename f) f true;
      if ok : bool then write_files install_cmd session files else mret false
  end.

Definition finalize (install_cmd session : bytes) (success : bool) : IM Z :=
  ok ← send_command [install_cmd; if success then txt "install-commit" else txt "install-abandon"; session];
  if negb ok then mret EXIT_FAILURE else
  buf ← read_status_line;
  if negb success then mret EXIT_FAILURE else
  _ ← report_status buf;
  mret (if is_success buf then EXIT_SUCCESS else EXIT_FAILURE).

Definition streamed_cmd : bytes :=
  if has_abb_exec then txt "package" else if has_cmd then txt "exec:cmd package" else txt "exec:pm".

Definition install_multiple_app_streamed (argv : list bytes) : IM Z :=
  '(files, rest, total) ← scan_apks (reverse argv) [] 0;
  if bool_decide (files = []) then error_exit else
  ok ← send_command ([streamed_cmd; txt "install-create"; txt "-S"; dec total] ++ (pass_option <$> reverse rest));
  if negb ok then mret EXIT_FAILURE else
  buf ← read_status_line;
  let '(session_id, buf) := session_id_of buf in
  if session_id <? 0 then _ ← report_status buf; mret EXIT_FAILURE else
  _ ← emit (ESession session_id);
  success ← write_files streamed_cmd (dec session_id) files;
  finalize streamed_cmd (dec session_id) success.

(** ** Several packages *)

Definition is_package (f : bytes) : bool := EndsWithIgnoreCase f (txt ".apk") || is_apex f.

(** The packages at the end of the arguments, in reverse order. *)
Fixpoint scan_packages (r packages : list bytes) : list bytes * list bytes :=
  match r with
  | [] => (packages, [])
  | f :: r' => if is_package f then scan_packages r' (f :: packages) else (packages, r)
  end.

Fixpoint write_splits (install_cmd session : bytes) (i : Z) (splits : list bytes) : IM bool :=
  match splits with
  | [] => mret true
  | f :: splits =>
      ok ← write_file install_cmd session (dec i ++ txt "_" ++ Basename f) f false;
      if ok : bool then write_splits install_cmd session i splits else mret false
  end.

Definition splits_of (file : bytes) : list bytes := match Split file (txt ":") with Ok l => l | _ => [] end.

(** The session of each package: whether all are complete, and the sessions that exist. *)
Fixpoint child_sessions (install_cmd : bytes) (args : bytes → list bytes) (i : Z) (files : list bytes) (ids : list Z) :
    IM (bool * list Z) :=
  match files with
  | [] => mret (true, ids)
  | f :: files =>
      ok ← send_command (args f);
      if negb ok then mret (false, ids) else
      buf ← read_status_line;
      let '(id, buf) := session_id_of buf in
      if id <? 0 then
        _ ← report_status (txt "adb: failed to create multi-package session" ++ [x0a]);
        _ ← report_status buf; mret (false, ids)
      else
        _ ← emit (ESession id);
        _ ← report_status (txt "Created child session ID " ++ dec id ++ txt "." ++ [x0a]);
        ok ← write_splits install_cmd (dec id) i (splits_of f);
        if ok : bool then child_sessions install_cmd args (i + 1) files (ids ++ [id]) else mret (false, ids ++ [id])
  end.

(** The arguments that are passed on to install-commit. *)
Fixpoint commit_options (o : list bytes) : list bytes :=
  match o with
  | a :: ((v :: o') as rest) =>
      if bool_decide (a = txt "--staged-ready-timeout") then a :: v :: commit_options o' else commit_options rest
  | _ => []
  end.

Fixpoint abandon_all (install_cmd : bytes) (ids : list Z) : IM unit :=
  match ids with
  | [] => mret ()
  | id :: ids =>
      _ ← report_status (txt "Attempting to abandon session ID " ++ dec id ++ [x0a]);
      _ ← send_command [install_cmd; txt "install-abandon"; dec id];
      abandon_all install_cmd ids
  end.

(** The sessions are linked to their parent. *)
Definition add_sessions (install_cmd parent : bytes) (ids : list Z) : IM bool :=
  let args := [install_cmd; txt "install-add-session"; parent] ++ (dec <$> ids) in
  ok ← send_command args;
  if negb ok then mret false else
  buf ← read_status_line;
  if is_success buf then mret true else
  _ ← report_status (txt "adb: failed to link sessions (" ++ Join args (txt " ") ++ txt ")" ++ [x0a]);
  _ ← report_status buf; mret false.

Definition finalize_multi_package (install_cmd : bytes) (options : list bytes) (parent : Z) (success : bool) (ids : list Z) : IM Z :=
  let args := if success then [install_cmd; txt "install-commit"] ++ commit_options options ++ [dec parent]
              else [install_cmd; txt "install-abandon"; dec parent] in
  ok ← send_command args;
  if negb ok then mret EXIT_FAILURE else
  buf ← read_status_line;
  _ ← (if is_success buf then report_status buf
       else _ ← report_status (txt "adb: failed to finalize session" ++ [x0a]); report_status buf);
  if is_success buf && success then mret EXIT_SUCCESS else
  _ ← abandon_all install_cmd (ids ++ [parent]); mret EXIT_FAILURE.

(** [argv] begins with the name of the command. *)
Definition install_multi_package (argv : list bytes) : IM Z :=
  let '(files, rest) := scan_packages (reverse argv) [] in
  if bool_decide (files = []) then error_exit else
  if negb has_cmd then
    _ ← report_status (txt "adb: multi-package install is not supported on this device" ++ [x0a]); mret EXIT_FAILURE
  else
  let install_cmd := if has_abb_exec then txt "package" else txt "exec:cmd package" in
  let options := tail (reverse rest) in
  let staged := if existsb is_apex files then [txt "--staged"] else [] in
  ok ← send_command ([install_cmd; txt "install-create"; txt "--multi-package"] ++ (pass_option <$> options) ++ staged);
  if negb ok then mret EXIT_FAILURE else
  buf ← read_status_line;
  let '(parent, buf) := session_id_of buf in
  if parent <? 0 then
    _ ← report_status (txt "adb: failed to create multi-package session" ++ [x0a]);
    _ ← report_status buf; mret EXIT_FAILURE
  else
  _ ← emit (ESession parent);
  _ ← report_status (txt "Created parent session ID " ++ dec parent ++ txt "." ++ [x0a]);
  let args f := [install_cmd; txt "install-create"] ++ (pass_option <$> options) ++ staged ++
                (if is_apex f then [txt "--apex"] else []) in
  '(ok, ids) ← child_sessions install_cmd args (llen rest) files [];
  ok ← (if ok : bool then add_sessions install_cmd (dec parent) ids else mret false);
  finalize_multi_package install_cmd options parent ok ids.

(** ** The way to install *)

Inductive InstallMode := INSTALL_DEFAULT | INSTALL_PUSH | INSTALL_STREAM | INSTALL_INCREMENTAL.
Inductive CmdlineOption := ONone | OEnable | ODisable.
#[global] Instance mode_eq : EqDecision InstallMode.
Proof. solve_decision. Defined.
#[global] Instance option_eq : EqDecision CmdlineOption.
Proof. solve_decision. Defined.

Definition best_install_mode : InstallMode := if has_cmd then INSTALL_STREAM else INSTALL_PUSH.

(** [ParseBool(s) == kFalse]. *)
Definition ParseBool_false (s : bytes) : bool :=
  bool_decide (s ∈ [txt "0"; txt "n"; txt "no"; txt "off"; txt "false"]).

(** The options of the host that choose the mode, and the arguments that are left. *)
Fixpoint parse_install_mode (argv : list bytes) (mode : InstallMode) (req : CmdlineOption) (wait : bool) :
    list bytes * InstallMode * CmdlineOption * bool :=
  match argv with
  | [] => ([], mode, req, wait)
  | a :: argv =>
      if bool_decide (a = txt "--streaming") then parse_install_mode argv INSTALL_STREAM req wait
      else if bool_decide (a = txt "--no-streaming") then parse_install_mode argv INSTALL_PUSH req wait
      else if (6 <=? length a)%nat && StartsWith (txt "--incremental") a then parse_install_mode argv mode OEnable wait
      else if (9 <=? length a)%nat && StartsWith (txt "--no-incremental") a then parse_install_mode argv mode ODisable wait
      else if bool_decide (a = txt "--wait") then parse_install_mode argv mode req true
      else let '(rest, mode, req, wait) := parse_install_mode argv mode req wait in (a :: rest, mode, req, wait)
  end.

(** [calculate_install_mode] without fast deploy: the mode and what to fall back to. *)
Definition calculate_install_mode (mode : InstallMode) (req : CmdlineOption) : IM (InstallMode * option InstallMode) :=
  if bool_decide (mode ≠ INSTALL_DEFAULT) then
    if bool_decide (req = OEnable) then error_exit else mret (mode, None)
  else if bool_decide (req = OEnable) && negb has_abb_exec then error_exit else
  let req := if bool_decide (req = ONone) && negb has_abb_exec then ODisable else req in
  let req := if bool_decide (req = ONone) && match env_incremental with Some v => ParseBool_false v | None => false end
             then ODisable else req in
  req ← (if bool_decide (req = ONone) then
           ok ← send_command [txt "settings"; txt "get"; txt "enable_adb_incremental_install_default"];
           if negb ok then mret req else
           buf ← read_status_line; mret (if ParseBool_false buf then ODisable else req)
         else mret req);
  mret (match req with
        | OEnable => (INSTALL_INCREMENTAL, None)
        | ONone => (INSTALL_INCREMENTAL, Some best_install_mode)
        | ODisable => (best_install_mode, None)
        end).

Definition run_install_mode (argv : list bytes) (wait : bool) (mode : InstallMode) (silent : bool) : IM Z :=
  match mode with
  | INSTALL_PUSH | INSTALL_STREAM => install_multiple_app_streamed argv
  | INSTALL_INCREMENTAL => mret (incremental argv wait silent)
  | INSTALL_DEFAULT => error_exit
  end.

Definition install_multiple_app (argv : list bytes) : IM Z :=
  let '(argv, mode, req, wait) := parse_install_mode (tail argv) INSTALL_DEFAULT ONone false in
  '(primary, fallback) ← calculate_install_mode mode req;
  if (bool_decide (primary = INSTALL_STREAM) || bool_decide (default INSTALL_PUSH fallback = INSTALL_STREAM)) &&
     bool_decide (best_install_mode = INSTALL_PUSH)
  then error_exit else
  res ← run_install_mode argv wait primary (bool_decide (is_Some fallback));
  if negb (res =? 0) && bool_decide (default primary fallback ≠ primary)
  then run_install_mode argv wait (default primary fallback) false else mret res.

(** ** Removing a package *)

Definition send_shell_command (cmd : bytes) : IM Z := _ ← emit (EShell cmd); told shell_code.

Definition shell_words (argv : list bytes) : bytes := concat ((λ a, txt " " ++ escape_arg a) <$> argv).

Definition uninstall_app (argv : list bytes) : IM Z :=
  if has_cmd then
    if bool_decide (txt "-k" ∈ argv) then mret EXIT_FAILURE
    else send_shell_command (txt "cmd package" ++ shell_words argv)
  else
    if bool_decide (txt "-k" ∈ tail argv) then mret EXIT_FAILURE
    else send_shell_command (txt "pm" ++ shell_words argv).

(** ** AdbInstaller *)

Definition kApksTempPrefix : bytes := txt "/tmp/libadb_apks_".
Definition system (cmd : bytes) : IM bool := _ ← emit (ESystem cmd); told system_ok.
Definition rm_rf (dir : bytes) : bytes := txt "rm -rf '" ++ dir ++ txt "'".
Definition unzip_command (path dir : bytes) : bytes :=
  txt "unzip -q -o '" ++ path ++ txt "' -d '" ++ dir ++ txt "' >/dev/null 2>&1".

Definition is_bundle (path : bytes) : bool := EndsWithIgnoreCase path (txt ".apks") || EndsWithIgnoreCase path (txt ".zip").
Definition is_base (name : bytes) : bool :=
  bool_decide (name = txt "base.apk") || StartsWithIgnoreCase name (txt "base-master").

(** The bytewise order of [std::string]. *)
Fixpoint bytes_le (a b : bytes) : bool :=
  match a, b with
  | [], _ => true
  | _ :: _, [] => false
  | x :: a, y :: b => (bval x <? bval y) || ((bval x =? bval y) && bytes_le a b)
  end.
Fixpoint insert_sorted (a : bytes) (l : list bytes) : list bytes :=
  match l with [] => [a] | b :: l' => if bytes_le a b then a :: l else b :: insert_sorted a l' end.
Definition sort_names (l : list bytes) : list bytes := foldr insert_sorted [] l.

(** The packages in an unpacked bundle: the last base found, then the others in order. *)
Definition bundle_files (dir : bytes) : list bytes :=
  let apks := filter (λ n, EndsWithIgnoreCase n (txt ".apk") = true) (listing dir) in
  let path n := dir ++ txt "/" ++ n in
  option_list (path <$> last (filter (λ n, is_base n = true) apks)) ++
  sort_names (path <$> filter (λ n, is_base n = false) apks).

Fixpoint expandApks (inputs result : list bytes) : IM (list bytes) :=
  match inputs with
  | [] => mret result
  | path :: inputs =>
      if negb (is_bundle path) then expandApks inputs (result ++ [path]) else
      t ← told now;
      let dir := kApksTempPrefix ++ dec t in
      _ ← emit (EMkdir dir);
      ok ← system (unzip_command path dir);
      if negb ok then _ ← system (rm_rf dir); mret [] else
      match bundle_files dir with
      | [] => _ ← system (rm_rf dir); mret []
      | files => expandApks inputs (result ++ files)
      end
  end.

(** The directories of the files whose path begins with the prefix, each once. *)
Fixpoint expanded_dirs (paths dirs : list bytes) : list bytes :=
  match paths with
  | [] => dirs
  | path :: paths =>
      if negb (StartsWith path kApksTempPrefix) then expanded_dirs paths dirs else
      match rfind path (txt "/") with
      | None => expanded_dirs paths dirs
      | Some k =>
          let dir := take k path in
          expanded_dirs paths (if bool_decide (dir ∈ dirs) then dirs else dirs ++ [dir])
      end
  end.
Fixpoint remove_dirs (dirs : list bytes) : IM unit :=
  match dirs with [] => mret () | d :: dirs => _ ← system (rm_rf d); remove_dirs dirs end.
Definition cleanupExpanded (paths : list bytes) : IM unit := remove_dirs (expanded_dirs paths []).

Definition AdbInstaller_install (paths flags : list bytes) (multi_package : bool) : IM bool :=
  apk_paths ← expandApks paths [];
  if bool_decide (apk_paths = []) then mret false else
  res ← (if multi_package then install_multi_package (txt "install-multi-package" :: flags ++ apk_paths)
         else install_multiple_app (txt "install-multiple" :: flags ++ apk_paths));
  _ ← cleanupExpanded apk_paths;
  mret (res =? 0).

Definition AdbInstaller_uninstall (args : list bytes) : IM bool :=
  if bool_decide (args = []) then mret false else
  res ← uninstall_app (txt "uninstall" :: args); mret (res =? 0).
End install.
