(* ===== verification/InstallerInv.v ===== *)
(** * What an installation does on the device

    Theorems about Installer.v: which commands a call sends, in which order, and what becomes of
    the sessions that it opens. *)

From S2P Require Import Prelude Strings Paths Installer.

(** The commands and the sessions in a log. *)
Definition cmds (log : list event) : list (list bytes) := omap (λ e, match e with ECmd a => Some a | _ => None end) log.
Definition sessions (log : list event) : list Z := omap (λ e, match e with ESession id => Some id | _ => None end) log.

Lemma cmds_app l l' : cmds (l ++ l') = cmds l ++ cmds l'.
Proof. apply omap_app. Qed.
Lemma sessions_app l l' : sessions (l ++ l') = sessions l ++ sessions l'.
Proof. apply omap_app. Qed.

Lemma im_run {A B} (m : IM A) (f : A → IM B) log a log' : m log = (Some a, log') → (m ≫= f) log = f a log'.
Proof. intros E. unfold mbind, im_bind. by rewrite E. Qed.

Section proofs.
Context `{InstallEnv}.

(** The status that the device reports for what was done. *)
Definition reported (log : list event) : bytes := c_str (ltake (BUFSIZ - 1) (says log)).

Lemma send_run args log : send_command args log = (Some (connects (log ++ [ECmd args])), log ++ [ECmd args]).
Proof. done. Qed.
Lemma status_run log : read_status_line log = (Some (reported log), log).
Proof. done. Qed.
Lemma emit_run e log : emit e log = (Some (), log ++ [e]).
Proof. done. Qed.
Lemma told_run {A} (f : list event → A) log : told f log = (Some (f log), log).
Proof. done. Qed.

(** Runs the next step of a computation. *)
Ltac run :=
  repeat first
    [ rewrite (im_run _ _ _ _ _ (send_run _ _)) | rewrite (im_run _ _ _ _ _ (status_run _))
    | rewrite (im_run _ _ _ _ _ (emit_run _ _)) | rewrite (im_run _ _ _ _ _ (told_run _ _)) ];
  rewrite <- ?app_assoc; cbn [app].

Definition write_cmd (install_cmd session name file : bytes) : list bytes :=
  [install_cmd; txt "install-write"; txt "-S"; dec (default 0 (stat_size file)); session; name; txt "-"].

Lemma sum_reverse (f : bytes → Z) l : foldr (λ x, Z.add (f x)) 0 (reverse l) = foldr (λ x, Z.add (f x)) 0 l.
Proof.
  assert (∀ l l', foldr (λ x, Z.add (f x)) 0 (l ++ l') = foldr (λ x, Z.add (f x)) 0 l + foldr (λ x, Z.add (f x)) 0 l') as Happ.
  { intros l1 l2. induction l1; cbn; lia. }
  induction l as [|x l IH]; [done|]. rewrite reverse_cons, Happ, IH. cbn. lia.
Qed.

(** Between the logs [log] and [whole], the file [f] was announced for the session, copied, and acknowledged. *)
Definition acked (log whole : list event) (ic sid name f : bytes) : Prop :=
  ∃ l, log `prefix_of` l ∧ l `prefix_of` whole ∧ last (cmds l) = Some (write_cmd ic sid name f) ∧ last l = Some (EData f) ∧
    copies l = true ∧ is_success (reported l) = true.
(** It was not: it cannot be read, or the command could not be sent, or the copy failed, or the device refused it. *)
Definition not_acked (log whole : list event) (ic sid name f : bytes) : Prop :=
  stat_size f = None ∨ can_open f = false ∨
  ∃ l, log `prefix_of` l ∧ l `prefix_of` whole ∧
    (last l = Some (ECmd (write_cmd ic sid name f)) ∧ connects l = false ∨
     last l = Some (EData f) ∧ (copies l = false ∨ is_success (reported l) = false)).

Lemma acked_mono log log' whole whole' ic sid name f :
  log' `prefix_of` log → whole `prefix_of` whole' → acked log whole ic sid name f → acked log' whole' ic sid name f.
Proof. intros H1 H2 (l & H3 & H4 & Hl). exists l. split_and!; try apply Hl; by etrans. Qed.
Lemma not_acked_mono log log' whole whole' ic sid name f :
  log' `prefix_of` log → whole `prefix_of` whole' → not_acked log whole ic sid name f → not_acked log' whole' ic sid name f.
Proof.
  intros H1 H2 [?|[?|(l & H3 & H4 & Hl)]]; [by left|by right; left|]. right; right. exists l. split_and!; [by etrans..|done].
Qed.

(** A file is announced with its size and then sent, or not announced at all. *)
Lemma write_file_run ic sid name f report log :
  ∃ ok evs, write_file ic sid name f report log = (Some ok, log ++ evs) ∧ sessions evs = [] ∧
    (cmds evs = [] ∨ cmds evs = [write_cmd ic sid name f]) ∧
    (if ok : bool then cmds evs = [write_cmd ic sid name f] ∧ acked log (log ++ evs) ic sid name f
     else not_acked log (log ++ evs) ic sid name f).
Proof.
  unfold write_file, not_acked, acked, write_cmd. destruct (stat_size f) as [n|]; [|exists false, []; rewrite app_nil_r; naive_solver].
  destruct (can_open f); cbn [negb]; [|exists false, []; rewrite app_nil_r; naive_solver]. run. cbn [default].
  set (w := [ic; txt "install-write"; txt "-S"; dec n; sid; name; txt "-"]).
  destruct (connects _) eqn:Ec; cbn [negb].
  2: { eexists false, _. split_and!; [done..|by right|]. right; right. exists (log ++ [ECmd w]).
       split_and!; [by apply prefix_app_r|done|left; by rewrite last_snoc]. }
  run. destruct (copies _) eqn:Ecp; cbn [negb].
  2: { eexists false, _. split_and!; [done..|by right|]. right; right. exists (log ++ [ECmd w; EData f]).
       split_and!; [by apply prefix_app_r|done|right; rewrite last_app; by auto]. }
  run. destruct (is_success _) eqn:Es.
  - eexists true, _. split_and!; [done..|by right|done|]. exists (log ++ [ECmd w; EData f]).
    split_and!; [by apply prefix_app_r|done|by rewrite cmds_app, last_app|by rewrite last_app|done..].
  - destruct report; unfold report_status; run; eexists false, _; (split_and!; [done..|by right|]); right; right;
      exists (log ++ [ECmd w; EData f]); (split_and!; [by apply prefix_app_r| |right; rewrite last_app; by auto]); [|done].
    apply prefix_app. by eexists [_].
Qed.

Lemma write_files_run ic sid files log :
  ∃ ok k evs, write_files ic sid files log = (Some ok, log ++ evs) ∧ sessions evs = [] ∧ (k ≤ length files)%nat ∧
    cmds evs = take k ((λ f, write_cmd ic sid (Basename f) f) <$> files) ∧
    (if ok : bool then k = length files ∧ (∀ f, f ∈ files → acked log (log ++ evs) ic sid (Basename f) f)
     else ∃ f, f ∈ files ∧ not_acked log (log ++ evs) ic sid (Basename f) f).
Proof.
  revert log. induction files as [|f files IH]; intros log; cbn [write_files].
  - exists true, 0%nat, []. rewrite app_nil_r. split_and!; try done. by intros f ?%elem_of_nil.
  - destruct (write_file_run ic sid (Basename f) f true log) as (ok & evs & Hw & Hs & Hc & Hok). rewrite (im_run _ _ _ _ _ Hw). destruct ok.
    + destruct (IH (log ++ evs)) as (ok & k & evs' & -> & Hs' & Hk & Hc' & Hok'). destruct Hok as [Hc1 Hd].
      exists ok, (S k), (evs ++ evs'). rewrite app_assoc, sessions_app, cmds_app, Hs, Hs', Hc1, Hc'. split_and!; [done..|cbn; lia|done|].
      assert (log `prefix_of` log ++ evs) by (by apply prefix_app_r). assert (log ++ evs `prefix_of` (log ++ evs) ++ evs') by (by apply prefix_app_r).
      destruct ok.
      * destruct Hok' as [-> Hall]. split; [done|]. intros g [->|Hg]%elem_of_cons; [by eapply acked_mono; [reflexivity| |exact Hd]|by eapply acked_mono; [| |apply Hall]].
      * destruct Hok' as (g & Hg & Hf). exists g. split; [by right|]. by eapply not_acked_mono; [| |exact Hf].
    + destruct Hc as [Hc|Hc]; [exists false, 0%nat, evs|exists false, 1%nat, evs]; rewrite Hc; split_and!; try done; try (cbn; lia); exists f; (split; [by left|done]).
Qed.

(** Nothing is sent before the arguments have been looked at; the process may end there. *)
Lemma scan_apks_run r files total log :
  scan_apks r files total log = (None, log) ∨
  ∃ apks rest total', scan_apks r files total log = (Some (reverse apks ++ files, rest, total'), log) ∧ r = apks ++ rest ∧
    Forall (λ f, is_split f = true ∧ is_Some (stat_size f)) apks ∧ (0 ≤ total < 2 ^ 64 → total' = u64 (total + foldr (λ f, Z.add (default 0 (stat_size f))) 0 apks)).
Proof.
  revert files total. induction r as [|f r IH]; intros files total; cbn [scan_apks].
  { right. exists [], [], total. split_and!; [done..|]. intros Ht. cbn. rewrite Z.add_0_r. by rewrite u64_small. }
  destruct (is_apex f); [by left|]. destruct (is_split f) eqn:Ef.
  2: { right. exists [], (f :: r), total. split_and!; [done..|]. intros Ht. cbn. rewrite Z.add_0_r. by rewrite u64_small. }
  destruct (stat_size f) as [n|] eqn:En; [|by left].
  destruct (IH (f :: files) (u64 (total + n))) as [->|(apks & rest & total' & -> & -> & Hall & Ht)]; [by left|right].
  exists (f :: apks), rest, total'. split_and!; [by rewrite reverse_cons, <- app_assoc|done|constructor; [by rewrite En|done]|].
  intros Hr. rewrite (Ht (u64_range _)). cbn. rewrite En. cbn. unfold u64. rewrite Zplus_mod_idemp_l. f_equal. lia.
Qed.

Definition finalize_cmd (install_cmd session : bytes) (success : bool) : list bytes :=
  [install_cmd; if success then txt "install-commit" else txt "install-abandon"; session].

(** A command that was sent and acknowledged. *)
Definition accepted (log : list event) (args : list bytes) : Prop :=
  connects (log ++ [ECmd args]) = true ∧ is_success (reported (log ++ [ECmd args])) = true.

Lemma finalize_run ic sid ok log :
  ∃ code post, finalize ic sid ok log = (Some code, log ++ ECmd (finalize_cmd ic sid ok) :: post) ∧ sessions post = [] ∧ cmds post = [] ∧
    (code = EXIT_SUCCESS ↔ ok = true ∧ accepted log (finalize_cmd ic sid ok)).
Proof.
  unfold finalize, finalize_cmd, accepted. run. destruct (connects _); cbn [negb]; [|eexists EXIT_FAILURE, []; split; [done|]; naive_solver]. run.
  destruct ok; cbn [negb]; [|eexists EXIT_FAILURE, []; split; [done|]; naive_solver]. unfold report_status. run.
  eexists _, [_]. split; [done|]. split; [done|]. split; [done|]. destruct (is_success _); naive_solver.
Qed.


(** ** Several packages *)

Definition split_name (i : Z) (f : bytes) : bytes := dec i ++ txt "_" ++ Basename f.

Lemma write_splits_run ic sid i splits log :
  ∃ ok evs, write_splits ic sid i splits log = (Some ok, log ++ evs) ∧ sessions evs = [] ∧
    (ok = true → ∀ f, f ∈ splits → acked log (log ++ evs) ic sid (split_name i f) f).
Proof.
  revert log. induction splits as [|f splits IH]; intros log; cbn [write_splits].
  { exists true, []. rewrite app_nil_r. split_and!; [done..|]. by intros _ f ?%elem_of_nil. }
  fold (split_name i f). destruct (write_file_run ic sid (split_name i f) f false log) as (ok & evs & Hw & Hs & _ & Hok).
  rewrite (im_run _ _ _ _ _ Hw). destruct ok; [|by exists false, evs]. destruct Hok as [_ Hd].
  destruct (IH (log ++ evs)) as (ok & evs' & -> & Hs' & Hall). exists ok, (evs ++ evs'). rewrite app_assoc, sessions_app, Hs, Hs'. split_and!; [done..|].
  assert (log `prefix_of` log ++ evs) by (by apply prefix_app_r). assert (log ++ evs `prefix_of` (log ++ evs) ++ evs') by (by apply prefix_app_r).
  intros E g [->|Hg]%elem_of_cons; [by eapply acked_mono; [reflexivity| |exact Hd]|by eapply acked_mono; [| |apply Hall]].
Qed.

(** The sessions [ids] hold the splits of the packages [files], acknowledged one by one. *)
Definition filled (log whole : list event) (ic : bytes) (i : Z) (files : list bytes) (ids : list Z) : Prop :=
  length ids = length files ∧ ∀ (j : nat) f id, files !! j = Some f → ids !! j = Some id →
    ∀ g, g ∈ splits_of f → acked log whole ic (dec id) (split_name (i + Z.of_nat j) g) g.

Lemma filled_cons log whole ic i f files id ids :
  (∀ g, g ∈ splits_of f → acked log whole ic (dec id) (split_name i g) g) → filled log whole ic (i + 1) files ids →
  filled log whole ic i (f :: files) (id :: ids).
Proof.
  intros Hf [Hlen Hall]. split; [by cbn; rewrite Hlen|]. intros [|j] f' id' Hf' Hid g Hg; cbn in Hf', Hid.
  - injection Hf' as <-. injection Hid as <-. rewrite Z.add_0_r. by apply Hf.
  - replace (i + Z.of_nat (S j)) with (i + 1 + Z.of_nat j) by lia. by eapply Hall.
Qed.
Lemma filled_mono log log' whole whole' ic i files ids :
  log' `prefix_of` log → whole `prefix_of` whole' → filled log whole ic i files ids → filled log' whole' ic i files ids.
Proof. intros H1 H2 [Hlen Hall]. split; [done|]. intros. eapply acked_mono; eauto. Qed.

(** The list of sessions that is kept is that of the sessions that were opened. *)
Lemma child_sessions_run ic args i files ids log :
  ∃ ok new evs, child_sessions ic args i files ids log = (Some (ok, ids ++ new), log ++ evs) ∧ sessions evs = new ∧
    (ok = true → filled log (log ++ evs) ic i files new).
Proof.
  revert i ids log. induction files as [|f files IH]; intros i ids log; cbn [child_sessions].
  { exists true, [], []. by rewrite !app_nil_r. }
  run. destruct (connects _); cbn [negb]; [|eexists false, [], _; by rewrite app_nil_r]. run.
  destruct (session_id_of _) as [id buf]. destruct (Z.ltb_spec id 0).
  { unfold report_status. run. eexists false, [], _. by rewrite app_nil_r. }
  unfold report_status. run. set (opened := [ECmd (args f); ESession id; _]).
  destruct (write_splits_run ic (dec id) i (splits_of f) (log ++ opened)) as (ok & evs & Hw & Hs & Hsp).
  rewrite (im_run _ _ _ _ _ Hw). destruct ok.
  - destruct (IH (i + 1) (ids ++ [id]) ((log ++ opened) ++ evs)) as (ok & new & evs' & -> & Hs' & Hok).
    exists ok, (id :: new), (opened ++ evs ++ evs'). rewrite !app_assoc, <- (app_assoc ids).
    split; [done|]. rewrite !sessions_app, Hs, Hs'. split; [done|]. intros E.
    assert (log `prefix_of` log ++ opened) by (by apply prefix_app_r).
    assert (log `prefix_of` (log ++ opened) ++ evs) by (etrans; [done|by apply prefix_app_r]).
    apply filled_cons; [|by eapply filled_mono; [| |apply Hok]].
    intros g Hg. eapply acked_mono; [| |by apply Hsp]; [done|by apply prefix_app_r].
  - exists false, [id], (opened ++ evs). rewrite app_assoc. split; [done|]. rewrite sessions_app, Hs. done.
Qed.

Definition add_cmd (install_cmd : bytes) (parent : Z) (ids : list Z) : list bytes :=
  [install_cmd; txt "install-add-session"; dec parent] ++ (dec <$> ids).
Definition abandon_cmd (install_cmd : bytes) (id : Z) : list bytes := [install_cmd; txt "install-abandon"; dec id].
Definition commit_cmd (install_cmd : bytes) (options : list bytes) (parent : Z) : list bytes :=
  [install_cmd; txt "install-commit"] ++ commit_options options ++ [dec parent].

Lemma add_sessions_run ic parent ids log :
  ∃ ok post, add_sessions ic (dec parent) ids log = (Some ok, log ++ ECmd (add_cmd ic parent ids) :: post) ∧ sessions post = [] ∧ cmds post = [] ∧
    (ok = true ↔ accepted log (add_cmd ic parent ids)).
Proof.
  unfold add_sessions, add_cmd, accepted. run. destruct (connects _); cbn [negb]; [|by eexists false, []; naive_solver]. run.
  destruct (is_success _); [by eexists true, []|]. unfold report_status. run. by eexists false, [_; _]; naive_solver.
Qed.

Lemma abandon_all_run ic ids log :
  ∃ evs, abandon_all ic ids log = (Some (), log ++ evs) ∧ sessions evs = [] ∧ cmds evs = abandon_cmd ic <$> ids.
Proof.
  revert log. induction ids as [|id ids IH]; intros log; cbn [abandon_all]; [exists []; by rewrite app_nil_r|].
  unfold report_status. fold (abandon_cmd ic id). run. destruct (IH (log ++ [EStatus (txt "Attempting to abandon session ID " ++ dec id ++ [x0a]); ECmd (abandon_cmd ic id)]))
    as (evs & E & Hs & Hc). eexists. split; [rewrite E, <- app_assoc; done|]. by rewrite sessions_app, cmds_app, Hs, Hc.
Qed.

Lemma finalize_multi_run ic options parent (ok : bool) ids log :
  let first := if ok then commit_cmd ic options parent else abandon_cmd ic parent in
  ∃ code post, finalize_multi_package ic options parent ok ids log = (Some code, log ++ ECmd first :: post) ∧ sessions post = [] ∧
    (code = EXIT_SUCCESS ↔ ok = true ∧ accepted log first) ∧
    cmds post = (if bool_decide (code = EXIT_SUCCESS) || negb (connects (log ++ [ECmd first])) then [] else abandon_cmd ic <$> ids ++ [parent]).
Proof.
  intros first. unfold finalize_multi_package, accepted. fold (commit_cmd ic options parent) (abandon_cmd ic parent). fold first. run.
  destruct (connects _) eqn:Ec; cbn [negb].
  2: { eexists EXIT_FAILURE, []. split_and!; [done..|naive_solver|done]. }
  run. set (st := is_success _).
  assert (∃ evs, (if st then report_status (reported (log ++ [ECmd first])) else
      _ ← report_status (txt "adb: failed to finalize session" ++ [x0a]); report_status (reported (log ++ [ECmd first]))) (log ++ [ECmd first])
      = (Some (), (log ++ [ECmd first]) ++ evs) ∧ sessions evs = [] ∧ cmds evs = []) as (evs & Hr & Hs & Hc).
  { destruct st; unfold report_status; [by eexists [_]|]. rewrite (im_run _ _ _ _ _ (emit_run _ _)), emit_run.
    eexists [_; _]. by rewrite <- (app_assoc _ [_] [_]). }
  rewrite (im_run _ _ _ _ _ Hr). destruct (st && ok) eqn:E.
  - exists EXIT_SUCCESS, evs. rewrite <- app_assoc. apply andb_prop in E as [? ->]. by split_and!.
  - destruct (abandon_all_run ic (ids ++ [parent]) ((log ++ [ECmd first]) ++ evs)) as (evs' & Ha & Hs' & Hc'). rewrite (im_run _ _ _ _ _ Ha).
    exists EXIT_FAILURE, (evs ++ evs'). rewrite <- !app_assoc. split; [done|]. rewrite !sessions_app, !cmds_app, Hs, Hc, Hs', Hc'.
    split_and!; try done. split; [done|]. intros (-> & _ & E'). by rewrite E' in E.
Qed.

Definition multi_cmd : bytes := if has_abb_exec then txt "package" else txt "exec:cmd package".

Lemma scan_packages_spec r packages files rest :
  scan_packages r packages = (files, rest) →
  ∃ pk, files = reverse pk ++ packages ∧ r = pk ++ rest ∧ Forall (λ f, is_package f = true) pk.
Proof.
  revert packages. induction r as [|f r IH]; intros packages; cbn [scan_packages]; [intros [= <- <-]; by exists []|].
  destruct (is_package f) eqn:Ef; [|intros [= <- <-]; by exists []].
  intros (pk & -> & -> & Hall)%IH. exists (f :: pk). split_and!; [by rewrite reverse_cons, <- app_assoc|done|by constructor].
Qed.

Lemma link_run (ok : bool) parent ids log :
  ∃ linked evs, (if ok then add_sessions multi_cmd (dec parent) ids else mret false) log = (Some linked, log ++ evs) ∧ sessions evs = [] ∧
    (linked = true → ok = true ∧ accepted log (add_cmd multi_cmd parent ids) ∧
       ∃ post, evs = ECmd (add_cmd multi_cmd parent ids) :: post ∧ cmds post = []).
Proof.
  destruct ok; [|exists false, []; by rewrite app_nil_r].
  destruct (add_sessions_run multi_cmd parent ids log) as (linked & post & -> & Hs & Hc & Hok). eexists linked, _. split_and!; [done..|].
  intros E. split_and!; [done|by apply Hok|eauto].
Qed.

(** C28. An installation of several packages leaves no session behind.  Whatever the device answers and whatever fails
    on the host, a call ends the process before anything is sent, or fails without having opened a
    session, or opens a parent session and sessions for packages, in this order.  In the last case one command
    ends the parent: the commit, only after a session for every package was opened, every split
    of it was copied and acknowledged, and the link of these sessions to the
    parent was the command before and was acknowledged; otherwise the abandonment.  The call
    succeeds exactly when this command is the commit and the device acknowledged it, and then it is the last command.  If the call fails, and that command
    could be sent, the commands that follow it are install-abandon for every child and for the parent; if
    that very command could not be sent, nothing follows it. *)
Theorem multi_package_sessions argv log :
  install_multi_package argv log = (None, log) ∨
  ∃ code evs options packages, install_multi_package argv log = (Some code, log ++ evs) ∧
    argv = options ++ packages ∧ Forall (λ f, is_package f = true) packages ∧
    (code = EXIT_FAILURE ∧ sessions evs = [] ∨
     ∃ parent ids linked before after, sessions evs = parent :: ids ∧
       let first := if linked : bool then commit_cmd multi_cmd (tail options) parent else abandon_cmd multi_cmd parent in
       evs = before ++ ECmd first :: after ∧
       (code = EXIT_SUCCESS ↔ linked = true ∧ accepted (log ++ before) first) ∧
       (linked = true → filled log (log ++ before) multi_cmd (llen options) packages ids ∧
          ∃ pre post, before = pre ++ ECmd (add_cmd multi_cmd parent ids) :: post ∧ cmds post = [] ∧
            accepted (log ++ pre) (add_cmd multi_cmd parent ids)) ∧
       cmds after = (if bool_decide (code = EXIT_SUCCESS) || negb (connects (log ++ before ++ [ECmd first])) then []
                     else abandon_cmd multi_cmd <$> ids ++ [parent])).
Proof.
  unfold install_multi_package. destruct (scan_packages (reverse argv) []) as [files rest] eqn:Es.
  apply scan_packages_spec in Es as (pk & -> & Er & Hall). rewrite app_nil_r. case_bool_decide as Hf; [by left|]. right.
  assert (argv = reverse rest ++ reverse pk) as Hargv by (by rewrite <- reverse_app, <- Er, reverse_involutive).
  apply Forall_reverse in Hall.
  destruct has_cmd; cbn [negb]; [|unfold report_status; run; eexists EXIT_FAILURE, _, (reverse rest), (reverse pk); split_and!; [done..|by left]].
  fold multi_cmd. set (create := [multi_cmd; txt "install-create"; txt "--multi-package"] ++ _). run. fold create.
  destruct (connects _); cbn [negb]; [|eexists EXIT_FAILURE, _, (reverse rest), (reverse pk); split_and!; [done..|by left]].
  run. destruct (session_id_of _) as [parent buf]. destruct (Z.ltb_spec parent 0).
  { unfold report_status. run. eexists EXIT_FAILURE, _, (reverse rest), (reverse pk). split_and!; [done..|by left]. }
  unfold report_status. run. set (opened := [ECmd create; ESession parent; _]).
  lazymatch goal with |- context [child_sessions multi_cmd ?args ?i ?fs ?ids] =>
    destruct (child_sessions_run multi_cmd args i fs ids (log ++ opened)) as (ok & ids' & evs & Hc & Hs & Hok) end.
  rewrite (im_run _ _ _ _ _ Hc), app_nil_l.
  destruct (link_run ok parent ids' ((log ++ opened) ++ evs)) as (linked & evs1 & Hl & Hs1 & Hl1). rewrite (im_run _ _ _ _ _ Hl).
  destruct (finalize_multi_run multi_cmd (tail (reverse rest)) parent linked ids' (((log ++ opened) ++ evs) ++ evs1))
    as (code & post & -> & Hs2 & Hcode & Hafter).
  set (first := if linked then _ else _) in *.
  exists code, ((opened ++ evs ++ evs1) ++ ECmd first :: post), (reverse rest), (reverse pk). rewrite !app_assoc in *. split_and!; [done..|].
  right. exists parent, ids', linked, (opened ++ evs ++ evs1), post. cbv zeta. fold first. rewrite !app_assoc in *.
  split_and!; try done.
  - rewrite !sessions_app, Hs, Hs1. change (sessions (ECmd first :: post)) with (sessions post). by rewrite Hs2, !app_nil_r.
  - intros E. destruct (Hl1 E) as (-> & Hacc & post' & -> & Hp). split.
    + unfold llen. rewrite length_reverse. eapply filled_mono; [| |by apply Hok]; by apply prefix_app_r.
    + exists (opened ++ evs), post'. by rewrite !app_assoc.
Qed.

End proofs.

(** ** Bundles *)

Section bundles.
Context `{InstallEnv}.

(** The file [name] of the unpacked bundle in [dir]. *)
Definition in_dir (dir name : bytes) : bytes := dir ++ txt "/" ++ name.

Lemma insert_sorted_in a l g : g ∈ insert_sorted a l → g = a ∨ g ∈ l.
Proof.
  induction l as [|b l IH]; cbn; [rewrite list_elem_of_singleton; by left|]. case_match; rewrite !elem_of_cons; naive_solver.
Qed.
Lemma sort_names_in l g : g ∈ sort_names l → g ∈ l.
Proof.
  induction l as [|a l IH]; [done|]. intros [->|Hg]%insert_sorted_in; [by left|right; by apply IH].
Qed.

Lemma bundle_file dir f : f ∈ bundle_files dir → ∃ n, n ∈ listing dir ∧ f = in_dir dir n.
Proof.
  unfold bundle_files, in_dir.
  rewrite elem_of_app. intros [Hf|Hf].
  - destruct (last _) as [n|] eqn:El; cbn in Hf; [|by apply elem_of_nil in Hf]. apply list_elem_of_singleton in Hf as ->.
    apply last_Some_elem_of, list_elem_of_filter in El as [_ El]. apply list_elem_of_filter in El as [_ El]. eauto.
  - apply sort_names_in, list_elem_of_fmap in Hf as (n & -> & Hn). apply list_elem_of_filter in Hn as [_ Hn]. apply list_elem_of_filter in Hn as [_ Hn]. eauto.
Qed.

(** Every directory that was made is that of a file in the result, unless the result is empty. *)
Definition covered (evs : list event) (out : list bytes) : Prop :=
  ∀ d, EMkdir d ∈ evs → StartsWith d kApksTempPrefix = true ∧ ∃ n, n ∈ listing d ∧ in_dir d n ∈ out.

Lemma expand_run inputs result log :
  ∃ out evs, expandApks inputs result log = (Some out, log ++ evs) ∧ (out = [] ∨ (∀ f, f ∈ result → f ∈ out) ∧ covered evs out).
Proof.
  revert result log. induction inputs as [|path inputs IH]; intros result log; cbn [expandApks].
  { exists result, []. rewrite app_nil_r. split; [done|]. right. split; [done|]. by intros d ?%elem_of_nil. }
  destruct (is_bundle path); cbn [negb].
  2: { destruct (IH (result ++ [path]) log) as (out & evs & -> & [->|[Hr Hc]]); [by exists [], evs; split; [|left]|].
       exists out, evs. split; [done|]. right. split; [|done]. intros f Hf. apply Hr, elem_of_app. by left. }
  rewrite (im_run _ _ _ _ _ (told_run _ _)). set (dir := kApksTempPrefix ++ _). unfold system.
  rewrite (im_run _ _ _ _ _ (emit_run _ _)).
  erewrite im_run; [|rewrite (im_run _ _ _ _ _ (emit_run _ _)); apply told_run]. rewrite <- app_assoc. cbn [app].
  destruct (system_ok _); cbn [negb].
  2: { erewrite im_run; [|rewrite (im_run _ _ _ _ _ (emit_run _ _)); apply told_run]. rewrite <- app_assoc. eexists [], _. split; [done|by left]. }
  destruct (bundle_files dir) as [|g files] eqn:Eb.
  { erewrite im_run; [|rewrite (im_run _ _ _ _ _ (emit_run _ _)); apply told_run]. rewrite <- app_assoc. eexists [], _. split; [done|by left]. }
  destruct (IH (result ++ g :: files) (log ++ [EMkdir dir; ESystem (unzip_command path dir)])) as (out & evs & -> & Hout).
  eexists out, _. rewrite <- app_assoc. split; [done|]. destruct Hout as [->|[Hr Hc]]; [by left|right]. split.
  - intros f Hf. apply Hr, elem_of_app. by left.
  - intros d [Hd|Hd]%elem_of_app; [|by apply Hc]. rewrite !elem_of_cons, elem_of_nil in Hd. destruct Hd as [[= ->]|[[=]|[]]].
    split; [by unfold StartsWith, dir; rewrite take_app_length, bool_decide_true|].
    destruct (bundle_file dir g) as (n & Hn & Hg); [rewrite Eb; by left|]. exists n. split; [done|]. apply Hr, elem_of_app. right. rewrite <- Hg. by left.
Qed.

Lemma expanded_dirs_keep paths dirs d : d ∈ dirs → d ∈ expanded_dirs paths dirs.
Proof.
  revert dirs. induction paths as [|p paths IH]; intros dirs Hd; cbn; [done|]. case_match; [by apply IH|]. case_match; [|by apply IH].
  apply IH. case_bool_decide; [done|]. apply elem_of_app. by left.
Qed.

Lemma expanded_dirs_in paths dirs p k :
  p ∈ paths → StartsWith p kApksTempPrefix = true → rfind p (txt "/") = Some k → take k p ∈ expanded_dirs paths dirs.
Proof.
  intros Hp Hs Hk. revert dirs. induction Hp as [p paths|p q paths Hp IH]; intros dirs; cbn [expanded_dirs].
  - rewrite Hs, Hk. cbn [negb]. apply expanded_dirs_keep. case_bool_decide; [done|]. apply elem_of_app. right. by left.
  - case_match; [by apply IH|]. case_match; by apply IH.
Qed.

Lemma remove_dirs_run dirs log : ∃ evs, remove_dirs dirs log = (Some (), log ++ evs) ∧ ∀ d, d ∈ dirs → ESystem (rm_rf d) ∈ evs.
Proof.
  revert log. induction dirs as [|d dirs IH]; intros log; cbn [remove_dirs]; [exists []; rewrite app_nil_r; split; [done|by intros ? ?%elem_of_nil]|].
  unfold system. erewrite im_run; [|rewrite (im_run _ _ _ _ _ (emit_run _ _)); apply told_run].
  destruct (IH (log ++ [ESystem (rm_rf d)])) as (evs & -> & Hall). eexists. rewrite <- app_assoc. split; [done|].
  intros e [->|He]%elem_of_cons; apply elem_of_app; [left; by left|right; auto].
Qed.

(** The names in a directory have no slash. *)
Class InstallLaws : Prop := { listing_names : ∀ d n, n ∈ listing d → slash ∉ n }.

Lemma rfind_in_dir d n : slash ∉ n → rfind (in_dir d n) (txt "/") = Some (length d).
Proof.
  intros Hn. unfold rfind, in_dir. apply (rfind_upto_last _ [] slash).
  - rewrite !length_app. lia.
  - rewrite !length_app. cbn. lia.
  - rewrite drop_app_length. done.
  - intros j Hj Hl. rewrite lookup_app_r in Hl by lia. destruct (j - length d)%nat as [|m] eqn:Em; [lia|]. cbn in Hl.
    apply Hn, list_elem_of_lookup. eauto.
Qed.

Lemma in_dir_prefix d n : StartsWith d kApksTempPrefix = true → StartsWith (in_dir d n) kApksTempPrefix = true.
Proof.
  unfold StartsWith, in_dir. rewrite !bool_decide_eq_true. intros E. rewrite take_app_le; [done|].
  apply (f_equal length) in E. rewrite length_take in E. lia.
Qed.

(** Unpacked bundles are removed again: when the packages could be unpacked and the installation returned, each
    temporary directory that was made has been removed afterwards, whether the installation
    succeeded or not. *)
Theorem bundles_removed `{!InstallLaws} paths flags multi log out log1 b log2 :
  expandApks paths [] log = (Some out, log ++ log1) → out ≠ [] →
  AdbInstaller_install paths flags multi log = (Some b, log2) →
  ∀ d, EMkdir d ∈ log1 → ESystem (rm_rf d) ∈ log2.
Proof.
  intros He Hne Hi d Hd. destruct (expand_run paths [] log) as (out' & evs & E & Ho). rewrite He in E. injection E as <- E.
  apply (app_inv_head log) in E as <-. destruct Ho as [|[_ Hc]]; [done|]. destruct (Hc d Hd) as (Hp & n & Hn & Hin).
  unfold AdbInstaller_install in Hi. rewrite (im_run _ _ _ _ _ He) in Hi. rewrite bool_decide_false in Hi by done.
  unfold mbind, im_bind in Hi. match type of Hi with (let (_, _) := ?m in _) = _ => destruct m as [[res|] log3]; [|done] end.
  unfold cleanupExpanded in Hi. destruct (remove_dirs_run (expanded_dirs out []) log3) as (evs2 & Hr & Hall). rewrite Hr in Hi. injection Hi as _ <-.
  apply elem_of_app. right. apply Hall. rewrite <- (take_app_length d (txt "/" ++ n)).
  apply expanded_dirs_in; [done|by apply in_dir_prefix|]. by apply rfind_in_dir, (listing_names d).
Qed.
End bundles.

(** ** Runs *)

(** A device that answers every command with success and session 42, and a host with two files in every directory, on
    which commands of the shell succeed as long as [good] says so. *)
Definition demo_env (good : list event → bool) : InstallEnv := {|
  has_cmd := true; has_abb_exec := true; stat_size _ := Some 100; can_open _ := true; connects _ := true; copies _ := true;
  says _ := txt "Success: created install session [42]"; incremental _ _ _ := 1; env_incremental := Some (txt "0"); shell_code _ := 0;
  system_ok := good; listing _ := [txt "config.en.apk"; txt "base.apk"]; now log := llen log
|}.

Lemma demo_laws good : @InstallLaws (demo_env good).
Proof. split. intros d n Hn. cbn in Hn. rewrite !elem_of_cons, elem_of_nil in Hn. by destruct Hn as [->|[->|[]]]; vm_compute; set_solver. Qed.

Definition all_good : InstallEnv := demo_env (λ _, true).
(** The second bundle cannot be unpacked. *)
Definition second_bad : InstallEnv := demo_env (λ log, (length log <? 4)%nat).

Lemma bundles_removed_witness :
  ∀ d, EMkdir d ∈ ((@expandApks all_good [txt "app.apks"] [] []).2) →
    ESystem (rm_rf d) ∈ ((@AdbInstaller_install all_good [txt "app.apks"] [txt "-r"] true []).2).
Proof.
  apply (@bundles_removed all_good (demo_laws _) [txt "app.apks"] [txt "-r"] true []
           [txt "/tmp/libadb_apks_0/base.apk"; txt "/tmp/libadb_apks_0/config.en.apk"] _ true); [vm_compute; reflexivity|done|vm_compute; reflexivity].
Defined.

(** A device that refuses to link sessions. *)
Definition no_links : InstallEnv := {|
  has_cmd := true; has_abb_exec := true; stat_size _ := Some 100; can_open _ := true; connects _ := true; copies _ := true;
  says log := match last (cmds log) with
              | Some (_ :: a :: _) => if bool_decide (a = txt "install-add-session") then txt "Failure" else txt "Success: created install session [42]"
              | _ => txt "Failure"
              end;
  incremental _ _ _ := 1; env_incremental := None; shell_code _ := 0; system_ok _ := true; listing _ := []; now log := llen log
|}.

(** An installation of two packages succeeds, and the same call on a device that refuses the link abandons all three sessions. *)
Lemma multi_package_runs :
  let argv := [txt "install-multi-package"; txt "-r"; txt "a.apk"; txt "b.apk"] in
  (@install_multi_package all_good argv []).1 = Some EXIT_SUCCESS ∧
  sessions (@install_multi_package all_good argv []).2 = [42; 42; 42] ∧
  last (cmds (@install_multi_package all_good argv []).2) = Some (commit_cmd (txt "package") [txt "-r"] 42) ∧
  (@install_multi_package no_links argv []).1 = Some EXIT_FAILURE ∧
  take 4 (reverse (cmds (@install_multi_package no_links argv []).2)) = replicate 4 (abandon_cmd (txt "package") 42).
Proof. split_and!; vm_compute; reflexivity. Qed.

(** Two splits are written and committed; when the device answers nothing, nothing but install-create is sent. *)
Lemma streamed_session_runs :
  (@install_multiple_app_streamed all_good [txt "-r"; txt "a.apk"; txt "b.apk"] []).1 = Some EXIT_SUCCESS ∧
  cmds (@install_multiple_app_streamed all_good [txt "-r"; txt "a.apk"; txt "b.apk"] []).2 =
    [ [txt "package"; txt "install-create"; txt "-S"; txt "200"; txt "-r"];
      [txt "package"; txt "install-write"; txt "-S"; txt "100"; txt "42"; txt "a.apk"; txt "-"];
      [txt "package"; txt "install-write"; txt "-S"; txt "100"; txt "42"; txt "b.apk"; txt "-"];
      [txt "package"; txt "install-commit"; txt "42"] ].
Proof. split; vm_compute; reflexivity. Qed.


Lemma multi_package_sessions_witness :
  let argv := [txt "install-multi-package"; txt "-r"; txt "a.apk"; txt "b.apk"] in
  ∃ evs parent ids options packages before after, @install_multi_package all_good argv [] = (Some EXIT_SUCCESS, evs) ∧
    argv = options ++ packages ∧ sessions evs = parent :: ids ∧ length ids = length packages ∧
    evs = before ++ ECmd (commit_cmd (@multi_cmd all_good) (tail options) parent) :: after ∧
    @accepted all_good before (commit_cmd (@multi_cmd all_good) (tail options) parent).
Proof.
  intros argv. pose proof (proj1 multi_package_runs) as Hr. fold argv in Hr.
  destruct (@multi_package_sessions all_good argv []) as [E|(code & evs & options & packages & E & Ha & _ & Hc)];
    rewrite E in Hr |- *; [discriminate Hr|]. injection Hr as ->.
  destruct Hc as [[[=] _]|(parent & ids & linked & before & after & Hs & -> & Hok & Hl & _)].
  destruct (proj1 Hok eq_refl) as [-> Hacc]. destruct (Hl eq_refl) as [[Hlen _] _].
  by eexists _, parent, ids, options, packages, before, after.
Defined.

(** What a POSIX shell sees outside single quotes. *)
Fixpoint unquoted (q : bool) (s : bytes) : bytes :=
  match s with
  | [] => []
  | b :: s => if bool_decide (b = x27) then unquoted (negb q) s else if q then unquoted q s else b :: unquoted q s
  end.

(** The name of a bundle is put between quotes as it is: one that has a quote in it runs a command on the host. *)
Theorem bundle_name_runs_command :
  unquoted false (unzip_command (txt "x';reboot;'.apks") (txt "/tmp/d")) = txt "unzip -q -o ;reboot; -d  >/dev/null 2>&1".
Proof. vm_compute. reflexivity. Qed.

(** When a bundle cannot be unpacked, the directories of the bundles before it are left behind. *)
Theorem failed_bundle_leaves_directories :
  ∃ log, @AdbInstaller_install second_bad [txt "a.apks"; txt "b.apks"] [] false [] = (Some false, log) ∧
    EMkdir (txt "/tmp/libadb_apks_0") ∈ log ∧ ESystem (rm_rf (txt "/tmp/libadb_apks_0")) ∉ log.
Proof.
  eexists. split; [vm_compute; reflexivity|]. split; [by left|]. rewrite !elem_of_cons, elem_of_nil. intros Hin.
  repeat (destruct Hin as [Hin|Hin]; [vm_compute in Hin; discriminate Hin|]). done.
Qed.

(** A package that the caller keeps in a directory whose name begins like that of a temporary one is removed after its
    installation, with the directory. *)
Theorem callers_directory_removed :
  ESystem (rm_rf (txt "/tmp/libadb_apks_mine")) ∈ (@AdbInstaller_install all_good [txt "/tmp/libadb_apks_mine/app.apk"] [] true []).2.
Proof. apply list_elem_of_In. vm_compute. repeat (first [left; reflexivity|right]). Qed.

(** ** Data *)

(** When every write takes all it is given, the copy is exact. *)
Lemma copy_to_file_exact ds :
  Forall (λ d, d ≠ []) ds → copy_to_file (Some <$> ds) (llen <$> ds) [] = (true, concat ds).
Proof.
  induction 1 as [|d ds Hd _ IH]; [done|]. destruct d as [|b d]; [done|]. cbn [fmap list_fmap copy_to_file hd tail].
  rewrite IH. cbn [concat]. by rewrite ltake_ge by done.
Qed.

(** A write that fails or is short is not noticed: the copy is reported as complete. *)
Theorem short_copy_unnoticed : copy_to_file [Some (txt "abcd"); Some (txt "ef")] [2; -1] [] = (true, txt "ab").
Proof. vm_compute. reflexivity. Qed.

(** Without abb the name of the file is part of a command line of the device, and is not quoted. *)
Definition no_abb : InstallEnv := {|
  has_cmd := true; has_abb_exec := false; stat_size _ := Some 100; can_open _ := true; connects _ := true; copies _ := true;
  says _ := txt "Success: created install session [42]"; incremental _ _ _ := 1; env_incremental := None; shell_code _ := 0;
  system_ok _ := true; listing _ := []; now log := llen log
|}.
Theorem file_name_runs_command :
  ∃ args, args ∈ cmds (@install_multiple_app_streamed no_abb [txt "-r"; txt "/home/u/a;reboot;.apk"] []).2 ∧
    unquoted false (@service_string no_abb args) = txt "exec:cmd package install-write -S 100 42 a;reboot;.apk -".
Proof.
  exists (@write_cmd no_abb (txt "exec:cmd package") (txt "42") (txt "a;reboot;.apk") (txt "/home/u/a;reboot;.apk")).
  split; [|vm_compute; reflexivity]. apply list_elem_of_In. vm_compute. right. left. reflexivity.
Qed.

(** ** Retries *)

Lemma expand_plain `{InstallEnv} paths result log :
  Forall (λ p, is_bundle p = false) paths → expandApks paths result log = (Some (result ++ paths), log).
Proof.
  intros Hp. revert result. induction Hp as [|p paths Hb _ IH]; intros result; cbn [expandApks]; [by rewrite app_nil_r|].
  rewrite Hb. cbn [negb]. by rewrite IH, <- app_assoc.
Qed.

Lemma install_removes_directory `{InstallEnv} paths flags multi log b log' d n :
  Forall (λ p, is_bundle p = false) paths → in_dir d n ∈ paths → StartsWith d kApksTempPrefix = true → slash ∉ n →
  AdbInstaller_install paths flags multi log = (Some b, log') → ESystem (rm_rf d) ∈ log'.
Proof.
  intros Hp Hin Hd Hn Hi. unfold AdbInstaller_install in Hi. rewrite (im_run _ _ _ _ _ (expand_plain paths [] log Hp)) in Hi. cbn [app] in Hi.
  rewrite bool_decide_false in Hi by (intros ->; by apply elem_of_nil in Hin).
  unfold mbind, im_bind in Hi. match type of Hi with (let (_, _) := ?m in _) = _ => destruct m as [[res|] log3]; [|done] end.
  unfold cleanupExpanded in Hi. destruct (remove_dirs_run (expanded_dirs paths []) log3) as (evs2 & Hr & Hall). rewrite Hr in Hi. injection Hi as _ <-.
  apply elem_of_app. right. apply Hall. rewrite <- (take_app_length d (txt "/" ++ n)).
  apply expanded_dirs_in; [done|by apply in_dir_prefix|by apply rfind_in_dir].
Qed.

(** A second attempt to install a bundle ends the process: Device::install unpacks a bundle once and makes up to three attempts with
    its files, but each attempt removes the directory of the files when it is over; the next one does not
    find them, and a file that cannot be found ends the process of the application
    (after a signature conflict, when the old package has been removed already). *)
Theorem bundle_retry_ends_process (first second : InstallEnv) dir name flags options log b log' :
  StartsWith dir kApksTempPrefix = true → slash ∉ name → is_bundle (in_dir dir name) = false →
  is_apex (in_dir dir name) = false → is_split (in_dir dir name) = true →
  @AdbInstaller_install first [in_dir dir name] flags false log = (Some b, log') →
  (ESystem (rm_rf dir) ∈ log' → @stat_size second (in_dir dir name) = None) →
  ESystem (rm_rf dir) ∈ log' ∧
  @install_multiple_app_streamed second (options ++ [in_dir dir name]) log' = (None, log').
Proof.
  intros Hd Hn Hb Ha Hsp Hi Hgone. assert (ESystem (rm_rf dir) ∈ log') as Hrm.
  { apply (@install_removes_directory first [in_dir dir name] flags false log b log' dir name); [by constructor|by left|done..]. }
  split; [done|]. unfold install_multiple_app_streamed. rewrite reverse_app. cbn [reverse rev_append app].
  unfold mbind, im_bind. cbn [scan_apks]. by rewrite Ha, Hsp, (Hgone Hrm).
Qed.

(** The host after the directory was removed. *)
Definition files_gone : InstallEnv := {|
  has_cmd := true; has_abb_exec := true; stat_size _ := None; can_open _ := false; connects _ := true; copies _ := true;
  says _ := []; incremental _ _ _ := 1; env_incremental := None; shell_code _ := 0; system_ok _ := true; listing _ := []; now log := llen log
|}.

Lemma bundle_retry_ends_process_witness :
  let log' := (@AdbInstaller_install all_good [in_dir (txt "/tmp/libadb_apks_0") (txt "base.apk")] [txt "-r"] false []).2 in
  ESystem (rm_rf (txt "/tmp/libadb_apks_0")) ∈ log' ∧
  @install_multiple_app_streamed files_gone ([txt "-d"; txt "-r"] ++ [in_dir (txt "/tmp/libadb_apks_0") (txt "base.apk")]) log' = (None, log').
Proof.
  intros log'. apply (bundle_retry_ends_process all_good files_gone (txt "/tmp/libadb_apks_0") (txt "base.apk") [txt "-r"] [txt "-d"; txt "-r"] [] true log');
    [vm_compute; reflexivity| |vm_compute; reflexivity..|done].
  apply (bool_decide_eq_true_1 (slash ∉ txt "base.apk")). vm_compute. reflexivity.
Defined.
