(* ===== verification/IncrementalUtils.v ===== *)
(** * Blocks, signatures and priorities of incremental installation

    Models adb/client/incremental_utils.cpp and .h: the size of the hash tree of a file, the
    headers of its signature, and the blocks of a package that a device needs first.

    A file that is read with [pread] is the answer to a length and an offset, a descriptor that
    is read in order is its content and its position.  The zip library is the list of
    entries that it finds. *)

From S2P Require Import Prelude Strings.

Definition kBlockSize : Z := 4096.
Definition kDigestSize : Z := 32.
Definition kMaxSignatureSize : Z := 8096.
Definition kHashesPerBlock : Z := kBlockSize / kDigestSize.

(** Two's complement reading of a 16-bit and of a 64-bit pattern. *)
Definition s16 (z : Z) : Z := let w := z mod 2 ^ 16 in if w <? 2 ^ 15 then w else w - 2 ^ 16.
Definition s64 (z : Z) : Z := let w := u64 z in if w <? 2 ^ 63 then w else w - 2 ^ 64.
#[global] Arguments s16 : simpl never.
#[global] Arguments s64 : simpl never.

(** ** The hash tree *)

(** The loop of [verity_tree_blocks_for_file]: the levels above [count] blocks. *)
Fixpoint hash_levels (fuel : nat) (count total : Z) : res Z :=
  match fuel with
  | O => NoFuel
  | S fuel =>
      if 1 <? count then
        let count := (count + kHashesPerBlock - 1) / kHashesPerBlock in
        hash_levels fuel count (total + count)
      else Ok total
  end.

Definition verity_tree_blocks_for_file (fileSize : Z) : res Z :=
  if fileSize =? 0 then Ok 0
  else let count := 1 + (fileSize - 1) / kBlockSize in hash_levels (S (Z.to_nat (Z.log2 count))) count 0.

Definition verity_tree_size_for_file (fileSize : Z) : res Z :=
  n ← verity_tree_blocks_for_file fileSize; Ok (n * kBlockSize).

(** ** The headers of a signature *)

Record sigfd := mkSigfd { content : bytes; position : Z }.

(** [ReadFdExactly] on a regular file: what was read, and whether it was all. *)
Definition read_exactly (len : Z) (fd : sigfd) : bytes * bool * sigfd :=
  let d := ltake len (ldrop (position fd) (content fd)) in
  (d, llen d =? len, mkSigfd (content fd) (position fd + llen d)).

Definition read_int32 (fd : sigfd) : Z * sigfd :=
  let '(d, ok, fd) := read_exactly 4 fd in
  (match of_le32 d with Some z => if ok then s32 z else -1 | None => -1 end, fd).

Definition seek (n : Z) (fd : sigfd) : Z * sigfd :=
  let p := position fd + n in if p <? 0 then (-1, fd) else (p, mkSigfd (content fd) p).

Definition skip_int (fd : sigfd) : sigfd := (seek 4 fd).2.

Definition append_int (fd : sigfd) (acc : bytes) : bytes * sigfd :=
  let '(v, fd) := read_int32 fd in (acc ++ le32 (u32 v), fd).

(** The bytes so far and the room left; [None] is [false].  A field that is cut short leaves zeros. *)
Definition append_bytes_with_size (fd : sigfd) (acc : bytes) (bytes_left : Z) : option (bytes * Z) * sigfd :=
  let '(size, fd) := read_int32 fd in
  if size <? 0 then (None, fd)
  else if bytes_left <? size then (None, fd)
  else if size =? 0 then (Some (acc, bytes_left), fd)
  else
    let '(d, _, fd) := read_exactly size fd in
    (Some (acc ++ le32 (u32 size) ++ d ++ replicate (Z.to_nat (size - llen d)) x00, bytes_left - size), fd).

Definition skip_bytes_with_size (fd : sigfd) : Z * sigfd :=
  let '(size, fd) := read_int32 fd in
  if size <? 0 then (-1, fd) else let '(p, fd) := seek size fd in (s32 p, fd).

Definition read_id_sig_headers (fd : sigfd) : bytes * Z * sigfd :=
  let '(signature, fd) := append_int fd [] in
  let max_size := kMaxSignatureSize - 4 in
  match append_bytes_with_size fd signature max_size with
  | (None, fd) => ([], 0, fd)
  | (Some (signature, max_size), fd) =>
      match append_bytes_with_size fd signature max_size with
      | (None, fd) => ([], 0, fd)
      | (Some (signature, _), fd) => let '(tree_size, fd) := read_int32 fd in (signature, tree_size, fd)
      end
  end.

Definition skip_id_sig_headers (fd : sigfd) : Z * Z :=
  let fd := skip_int fd in
  let '(_, fd) := skip_bytes_with_size fd in
  let '(offset, fd) := skip_bytes_with_size fd in
  let '(tree_size, _) := read_int32 fd in
  (offset + 4, tree_size).

(** ** The blocks a package needs first *)

Definition offsetToBlockIndex (offset : Z) : Z := s32 (Z.shiftr (Z.land offset (Z.lnot (kBlockSize - 1))) 12).

(** [pread]: a length and an offset give the bytes, or an error. *)
Definition preader : Type := Z → Z → option bytes.
Definition pread_of (content : bytes) : preader := λ len off,
  if off <? 0 then None else Some (ltake len (ldrop off content)).

Fixpoint le_value (l : bytes) : Z := match l with [] => 0 | b :: l => bval b + 256 * le_value l end.

(** [valueAt] of an integer of [n] bytes: all ones when it cannot be read. *)
Definition valueAt (n : Z) (fd : preader) (offset : Z) : Z :=
  match fd n offset with
  | Some d => if llen d =? n then
                let v := le_value d in if v <? 2 ^ (8 * n - 1) then v else v - 2 ^ (8 * n)
              else -1
  | None => -1
  end.

(** [appendBlocks]: [resize] to less than nothing throws, and a smaller vector is then written
    behind its end. *)
Definition appendBlocks (start count : Z) (blocks : list Z) : res (list Z) :=
  if count =? 1 then Ok (blocks ++ [start])
  else if 0 <=? count then Ok (blocks ++ seqZ start count)
  else if llen blocks + count <? 0 then Fatal else Undef.

Fixpoint unduplicate_loop (v seen : list Z) : list Z :=
  match v with
  | [] => []
  | t :: v => if bool_decide (t ∈ seen) then unduplicate_loop v seen else t :: unduplicate_loop v (t :: seen)
  end.
Definition unduplicate (v : list Z) : list Z := unduplicate_loop v [].

Definition kZipEocdRecMinSize : Z := 22.
Definition kZipEocdRecSig : Z := 0x06054b50.

(** The end record with a comment of [commentLen] bytes. *)
Definition eocd_at (fd : preader) (maxEocdOffset commentLen : Z) : bool :=
  (valueAt 4 fd (maxEocdOffset - commentLen) =? kZipEocdRecSig) &&
  (valueAt 2 fd (maxEocdOffset - commentLen + 20) =? commentLen).

(** The search from the end of the file; [commentLen] is an [int16_t]. *)
Fixpoint eocd_loop (fuel : nat) (fd : preader) (fileSize commentLen : Z) : res Z :=
  match fuel with
  | O => NoFuel
  | S fuel =>
      if commentLen <? fileSize then
        if eocd_at fd (fileSize - kZipEocdRecMinSize) commentLen then Ok (fileSize - kZipEocdRecMinSize - commentLen)
        else eocd_loop fuel fd fileSize (s16 (commentLen + 1))
      else Ok (-1)
  end.

Definition CentralDirOffset (fuel : nat) (fd : preader) (fileSize : Z) : res Z :=
  eocdOffset ← eocd_loop fuel fd fileSize 0;
  if eocdOffset <? 0 then Ok (-1) else Ok (eocdOffset - valueAt 4 fd (eocdOffset + 12)).

Definition kApkSigBlockMinSize : Z := 32.
Definition kApkSigBlockFooterSize : Z := 24.
Definition APK_SIG_BLOCK_MAGIC_HI : Z := 0x3234206b636f6c42.
Definition APK_SIG_BLOCK_MAGIC_LO : Z := 0x20676953204b5041.

Definition SignerBlockOffset (fuel : nat) (fd : preader) (fileSize : Z) : res Z :=
  cdOffset ← CentralDirOffset fuel fd fileSize;
  if cdOffset <? 0 then Ok (-1)
  else if (cdOffset <? kApkSigBlockMinSize) || negb (valueAt 8 fd (cdOffset - 16) =? APK_SIG_BLOCK_MAGIC_LO)
          || negb (valueAt 8 fd (cdOffset - 8) =? APK_SIG_BLOCK_MAGIC_HI) then Ok (-1)
  else
    let signerSizeInFooter := valueAt 4 fd (cdOffset - kApkSigBlockFooterSize) in
    let signerBlockOffset := cdOffset - signerSizeInFooter - 8 in
    if signerBlockOffset <? 0 then Ok (-1)
    else if negb (signerSizeInFooter =? valueAt 4 fd signerBlockOffset) then Ok (-1)
    else Ok signerBlockOffset.

Definition kNumBlocksInEocdSearch : Z := 64 * 1024 / kBlockSize + 1.

Definition ZipPriorityBlocks (signerBlockOffset fileSize : Z) : res (list Z) :=
  let signerBlockIndex := offsetToBlockIndex signerBlockOffset in
  let lastBlockIndex := offsetToBlockIndex fileSize in
  let numPriorityBlocks := lastBlockIndex - signerBlockIndex + 1 in
  blocks ←
    (if kNumBlocksInEocdSearch <? numPriorityBlocks then
       blocks ← appendBlocks (lastBlockIndex - kNumBlocksInEocdSearch + 1) kNumBlocksInEocdSearch [];
       appendBlocks signerBlockIndex (numPriorityBlocks - kNumBlocksInEocdSearch) blocks
     else appendBlocks signerBlockIndex numPriorityBlocks []);
  appendBlocks 0 1 blocks.

(** An entry of the archive, as the zip library reports it. *)
Record ZipEntry := mkEntry {
  entry_name : bytes;
  offset : Z;
  stored : bool;                 (** [method == kCompressStored] *)
  uncompressed_length : Z;
  compressed_length : Z;
  has_data_descriptor : bool
}.

Definition matcher (name : bytes) : bool :=
  (StartsWith name (txt "lib/") && EndsWith name (txt ".so")) ||
  bool_decide (name ∈ [txt "resources.arsc"; txt "AndroidManifest.xml"; txt "classes.dex"]).

Definition entry_end (e : ZipEntry) : Z :=
  s64 (offset e + (if stored e then uncompressed_length e else compressed_length e)
       + (if has_data_descriptor e then 16 else 0)).

Fixpoint entry_blocks (entries : list ZipEntry) (blocks : list Z) : res (list Z) :=
  match entries with
  | [] => Ok blocks
  | e :: entries =>
      if negb (matcher (entry_name e)) then entry_blocks entries blocks
      else
        let startBlockIndex := offsetToBlockIndex (offset e) in
        let count := if bool_decide (entry_name e = txt "classes.dex") then 2
                     else offsetToBlockIndex (entry_end e) - startBlockIndex + 1 in
        blocks ← appendBlocks startBlockIndex count blocks; entry_blocks entries blocks
  end.

(** [None]: the archive could not be opened. *)
Definition InstallationPriorityBlocks (zip : option (list ZipEntry)) : res (list Z) :=
  match zip with None => Ok [] | Some entries => entry_blocks entries [] end.

Definition PriorityBlocksForFile (fuel : nat) (filepath : bytes) (fd : preader) (zip : option (list ZipEntry))
    (fileSize : Z) : res (list Z) :=
  if negb (EndsWithIgnoreCase filepath (txt ".apk")) then Ok []
  else
    signerOffset ← SignerBlockOffset fuel fd fileSize;
    if signerOffset <? 0 then Ok []
    else
      blocks ← ZipPriorityBlocks signerOffset fileSize;
      more ← InstallationPriorityBlocks zip;
      Ok (unduplicate (blocks ++ more)).
