(* ===== verification/IncrementalSig.v ===== *)
(** * Trees, signatures and priorities: theorems

    The size of the hash tree, the headers of a signature, the search for the end record of an
    archive, and the blocks sent first. *)

From S2P Require Import Prelude Strings IncrementalUtils.

(** ** The hash tree *)

(** The blocks of the levels of the tree over [n] blocks, leaves first. *)
Fixpoint tree_levels (fuel : nat) (n : Z) : list Z :=
  match fuel with
  | O => []
  | S fuel => if 1 <? n then let m := (n + 127) / 128 in m :: tree_levels fuel m else []
  end.

Lemma level_shrinks n : 1 < n → 1 ≤ (n + 127) / 128 ∧ (n + 127) / 128 ≤ n / 2.
Proof. intros. Z.div_mod_to_equations. lia. Qed.

Lemma level_log n : 1 < n → (Z.to_nat (Z.log2 ((n + 127) / 128)) < Z.to_nat (Z.log2 n))%nat.
Proof.
  intros Hn. pose proof (level_shrinks n Hn) as [H1 H2].
  assert (Z.log2 (n / 2) = Z.log2 n - 1) as E.
  { rewrite <- Z.div2_div, Z.div2_spec, Z.log2_shiftr by lia. pose proof (Z.log2_pos n). lia. }
  pose proof (Z.log2_le_mono _ _ H2). pose proof (Z.log2_nonneg ((n + 127) / 128)). pose proof (Z.log2_pos n). lia.
Qed.

Lemma hash_levels_run fuel n total : 0 < n → (Z.to_nat (Z.log2 n) < fuel)%nat →
  hash_levels fuel n total = Ok (total + foldr Z.add 0 (tree_levels fuel n)).
Proof.
  revert n total. induction fuel as [|fuel IH]; intros n total Hn Hf; [lia|]. cbn [hash_levels tree_levels].
  destruct (Z.ltb_spec 1 n) as [H1|]; [|cbn; f_equal; lia]. change kHashesPerBlock with 128.
  pose proof (level_shrinks n H1). pose proof (level_log n H1). replace (n + 128 - 1) with (n + 127) by lia.
  rewrite IH by lia. cbn [foldr]. f_equal. lia.
Qed.

Lemma tree_levels_nonneg fuel n : 0 < n → 0 ≤ foldr Z.add 0 (tree_levels fuel n).
Proof.
  revert n. induction fuel as [|fuel IH]; intros n Hn; cbn; [lia|]. destruct (Z.ltb_spec 1 n) as [H1|]; cbn; [|lia].
  pose proof (level_shrinks n H1). specialize (IH ((n + 127) / 128)). lia.
Qed.

(** The tree over more than one block has its leaves, and whole levels above them. *)
Lemma tree_blocks n : 0 < n → ∃ above, 0 ≤ above ∧
  verity_tree_blocks_for_file n =
    Ok (if n <=? kBlockSize then 0 else above + ((n + 4095) / 4096 + 127) / 128).
Proof.
  intros Hn. unfold verity_tree_blocks_for_file. destruct (Z.eqb_spec n 0); [lia|].
  change kBlockSize with 4096. replace (1 + (n - 1) / 4096) with ((n + 4095) / 4096) by (Z.div_mod_to_equations; lia).
  set (c := (n + 4095) / 4096). assert (0 < c) by (subst c; Z.div_mod_to_equations; lia).
  rewrite hash_levels_run by lia. cbn [tree_levels]. destruct (Z.ltb_spec 1 c) as [H1|].
  - eexists (foldr Z.add 0 (tree_levels (Z.to_nat (Z.log2 c)) ((c + 127) / 128))). pose proof (level_shrinks c H1).
    split; [apply tree_levels_nonneg; lia|]. destruct (Z.leb_spec n 4096); [subst c; Z.div_mod_to_equations; lia|].
    cbn [foldr]. f_equal. lia.
  - exists 0. split; [done|]. destruct (Z.leb_spec n 4096); [done|]. subst c. Z.div_mod_to_equations. lia.
Qed.

(** The tree is smaller than the file. *)
Lemma tree_levels_small fuel n : 0 < n → foldr Z.add 0 (tree_levels fuel n) ≤ n - 1.
Proof.
  revert n. induction fuel as [|fuel IH]; intros n Hn; cbn; [lia|]. destruct (Z.ltb_spec 1 n) as [H1|]; cbn; [|lia].
  pose proof (level_shrinks n H1) as [H2 H3]. specialize (IH ((n + 127) / 128) ltac:(lia)).
  assert (2 * (n / 2) ≤ n) by (Z.div_mod_to_equations; lia). lia.
Qed.

Lemma tree_small n t : 0 < n → verity_tree_blocks_for_file n = Ok t → t < (n + 4095) / 4096.
Proof.
  intros Hn. unfold verity_tree_blocks_for_file. destruct (Z.eqb_spec n 0); [lia|]. change kBlockSize with 4096.
  replace (1 + (n - 1) / 4096) with ((n + 4095) / 4096) by (Z.div_mod_to_equations; lia).
  set (c := (n + 4095) / 4096). assert (0 < c) by (subst c; Z.div_mod_to_equations; lia).
  rewrite hash_levels_run by lia. pose proof (tree_levels_small (S (Z.to_nat (Z.log2 c))) c ltac:(lia)) as Hl.
  set (x := foldr _ _ _) in *. intros E. assert (0 + x = t) by congruence. lia.
Qed.

(** ** Signatures *)

Lemma s32_small z : - 2 ^ 31 ≤ z < 2 ^ 31 → s32 z = z.
Proof. unfold s32, u32. intros. destruct (Z.ltb_spec (z mod 2 ^ 32) (2 ^ 31)); Z.div_mod_to_equations; lia. Qed.

Lemma ldrop_pre {A} (n : Z) (pre post : list A) : llen pre = n → ldrop n (pre ++ post) = post.
Proof. intros <-. by rewrite ldrop_app_ge, Z.sub_diag, ldrop_0 by lia. Qed.

Lemma ltake_pre {A} (n : Z) (pre post : list A) : llen pre = n → ltake n (pre ++ post) = pre.
Proof. intros <-. rewrite ltake_app_ge, Z.sub_diag, ltake_0 by lia. apply app_nil_r. Qed.

Lemma read_exactly_here pre d post n : llen d = n →
  read_exactly n (mkSigfd (pre ++ d ++ post) (llen pre)) = (d, true, mkSigfd (pre ++ d ++ post) (llen pre + n)).
Proof.
  intros E. unfold read_exactly. cbn [position content]. rewrite ldrop_pre, ltake_pre by done.
  by rewrite E, Z.eqb_refl.
Qed.

Lemma read_int32_here pre z post : - 2 ^ 31 ≤ z < 2 ^ 31 →
  read_int32 (mkSigfd (pre ++ le32 (u32 z) ++ post) (llen pre)) = (z, mkSigfd (pre ++ le32 (u32 z) ++ post) (llen pre + 4)).
Proof.
  intros Hz. unfold read_int32. rewrite read_exactly_here by done.
  rewrite <- (app_nil_r (le32 (u32 z))) at 1. rewrite of_le32_le32 by apply u32_range.
  f_equal. transitivity (s32 z); [|by apply s32_small]. unfold s32, u32. by rewrite Zmod_mod.
Qed.

(** A signature: the version, the hashing and the signing information, and the tree. *)
Definition sized (d : bytes) : bytes := le32 (u32 (llen d)) ++ d.
Definition signature_file (version : Z) (hashing signing tree : bytes) : bytes :=
  le32 (u32 version) ++ sized hashing ++ sized signing ++ sized tree.

Lemma skip_sized pre d post : llen pre + 4 + llen d < 2 ^ 31 →
  skip_bytes_with_size (mkSigfd (pre ++ sized d ++ post) (llen pre)) =
    (llen pre + 4 + llen d, mkSigfd (pre ++ sized d ++ post) (llen pre + 4 + llen d)).
Proof.
  intros Hb. pose proof (llen_nonneg d). pose proof (llen_nonneg pre). unfold skip_bytes_with_size, sized.
  rewrite <- app_assoc, read_int32_here by lia. destruct (Z.ltb_spec (llen d) 0); [lia|].
  unfold seek. cbn [position content]. destruct (Z.ltb_spec (llen pre + 4 + llen d) 0); [lia|].
  rewrite s32_small by lia. done.
Qed.

Lemma append_sized pre d post acc left : d ≠ [] → llen d ≤ left → left < 2 ^ 31 →
  append_bytes_with_size (mkSigfd (pre ++ sized d ++ post) (llen pre)) acc left =
    (Some (acc ++ sized d, left - llen d), mkSigfd (pre ++ sized d ++ post) (llen pre + 4 + llen d)).
Proof.
  intros Hd Hl Hb. pose proof (llen_nonneg d). assert (0 < llen d) by (destruct d; [done|]; rewrite llen_cons in *; pose proof (llen_nonneg d); lia).
  unfold append_bytes_with_size, sized. rewrite <- app_assoc, read_int32_here by lia.
  destruct (Z.ltb_spec (llen d) 0); [lia|]. destruct (Z.ltb_spec left (llen d)); [lia|]. destruct (Z.eqb_spec (llen d) 0); [lia|].
  rewrite (app_assoc pre). replace (llen pre + 4) with (llen (pre ++ le32 (u32 (llen d)))) by by rewrite llen_app, llen_le32.
  rewrite read_exactly_here by done. rewrite llen_app, llen_le32, Z.sub_diag, app_nil_r, <- !app_assoc. done.
Qed.

(** The headers of a signature are read as they were written, by the client that passes them to the device
    and by the server that looks for the tree behind them: for any version, any hashing and
    signing information that are not empty and fit, and any tree, both find the size of the
    tree and where it begins, and the client gets exactly the bytes before it. *)
Theorem signature_headers version hashing signing tree :
  let file := signature_file version hashing signing tree in
  - 2 ^ 31 ≤ version < 2 ^ 31 →
  hashing ≠ [] → signing ≠ [] → llen hashing + llen signing ≤ kMaxSignatureSize - 4 → llen tree < 2 ^ 31 →
  ∃ start, ldrop start file = tree ∧
    skip_id_sig_headers (mkSigfd file 0) = (start, llen tree) ∧
    read_id_sig_headers (mkSigfd file 0) =
      (le32 (u32 version) ++ sized hashing ++ sized signing, llen tree, mkSigfd file start).
Proof.
  intros file Hv Hh Hs Hl Ht. pose proof (llen_nonneg hashing). pose proof (llen_nonneg signing). pose proof (llen_nonneg tree).
  unfold kMaxSignatureSize in Hl. set (v := le32 (u32 version)). set (p1 := v ++ sized hashing). set (p2 := p1 ++ sized signing).
  assert (llen v = 4) as Ev by done.
  assert (llen p1 = 8 + llen hashing) as E1 by (subst p1; unfold sized; rewrite !llen_app, llen_le32, Ev; lia).
  assert (llen p2 = 12 + llen hashing + llen signing) as E2 by (subst p2; unfold sized; rewrite !llen_app, llen_le32; lia).
  assert (file = v ++ sized hashing ++ (sized signing ++ sized tree)) as F1 by done.
  assert (file = p1 ++ sized signing ++ sized tree) as F2 by by rewrite F1, app_assoc.
  assert (file = p2 ++ le32 (u32 (llen tree)) ++ tree) as F3 by (rewrite F2, app_assoc; done).
  exists (16 + llen hashing + llen signing). split_and!.
  - rewrite F3, app_assoc. apply ldrop_pre. rewrite llen_app, llen_le32. lia.
  - unfold skip_id_sig_headers. change (skip_int (mkSigfd file 0)) with (mkSigfd file (llen v)). rewrite F1, skip_sized by lia. rewrite <- F1, Ev.
    replace (4 + 4 + llen hashing) with (llen p1) by lia. rewrite F2, skip_sized by lia. rewrite <- F2.
    replace (llen p1 + 4 + llen signing) with (llen p2) by lia. rewrite F3, read_int32_here by lia. f_equal. lia.
  - unfold read_id_sig_headers, append_int. change (mkSigfd file 0) with (mkSigfd ([] ++ v ++ (sized hashing ++ sized signing ++ sized tree)) (llen (@nil byte))).
    unfold v. rewrite read_int32_here by done. fold v. cbn [app]. change (llen [] + 4) with (llen v).
    fold p1. rewrite append_sized by (done || unfold kMaxSignatureSize; lia). rewrite <- F1.
    replace (llen v + 4 + llen hashing) with (llen p1) by lia. rewrite F2, append_sized by (done || unfold kMaxSignatureSize; lia).
    rewrite <- F2. replace (llen p1 + 4 + llen signing) with (llen p2) by lia. rewrite F3, read_int32_here by lia.
    rewrite <- F3. replace (llen p2 + 4) with (16 + llen hashing + llen signing) by lia. by rewrite <- !app_assoc.
Qed.

Lemma signature_headers_witness : ∃ start,
  ldrop start (signature_file 2 (txt "sha") (txt "key") (txt "tree")) = txt "tree" ∧
  skip_id_sig_headers (mkSigfd (signature_file 2 (txt "sha") (txt "key") (txt "tree")) 0) = (start, 4) ∧
  read_id_sig_headers (mkSigfd (signature_file 2 (txt "sha") (txt "key") (txt "tree")) 0) =
    (le32 2 ++ sized (txt "sha") ++ sized (txt "key"), 4, mkSigfd (signature_file 2 (txt "sha") (txt "key") (txt "tree")) start).
Proof. apply (signature_headers 2 (txt "sha") (txt "key") (txt "tree")); vm_compute; done || by split. Defined.

(** A field with no bytes loses its size as well, so that what the device is given is not what is in the file. *)
Theorem empty_field_dropped :
  read_id_sig_headers (mkSigfd (signature_file 2 [] (txt "key") []) 0) =
    (le32 2 ++ sized (txt "key"), 0, mkSigfd (signature_file 2 [] (txt "key") []) 19).
Proof. done. Qed.

(** ** The end record of an archive *)

Definition le16 (z : Z) : bytes := [zbyte z; zbyte (Z.shiftr z 8)].

Definition signed (n v : Z) : Z := if v <? 2 ^ (8 * n - 1) then v else v - 2 ^ (8 * n).

Lemma valueAt_here pre d post n : llen d = n → valueAt n (pread_of (pre ++ d ++ post)) (llen pre) = signed n (le_value d).
Proof.
  intros E. unfold valueAt, pread_of. destruct (Z.ltb_spec (llen pre) 0); [pose proof (llen_nonneg pre); lia|].
  rewrite ldrop_pre, ltake_pre by done. by rewrite E, Z.eqb_refl.
Qed.

Lemma le_value_le32 z : 0 ≤ z < 2 ^ 32 → le_value (le32 z) = z.
Proof.
  intros Hz. pose proof (of_le32_le32 z [] Hz) as E. rewrite app_nil_r in E. unfold le32, of_le32 in E. simplify_eq.
  unfold le32, le_value. rewrite <- E at 5. change (2 ^ 8) with 256. change (2 ^ 16) with 65536. change (2 ^ 24) with 16777216. lia.
Qed.

Lemma le_value_le16 z : 0 ≤ z < 2 ^ 16 → le_value (le16 z) = z.
Proof.
  intros Hz. unfold le16, le_value. rewrite !bval_zbyte. unfold u8. rewrite !Z.shiftr_div_pow2 by lia. change (2 ^ 8) with 256.
  change (2 ^ 16) with 65536 in Hz. Z.div_mod_to_equations. lia.
Qed.

Lemma s16_small z : - 2 ^ 15 ≤ z < 2 ^ 15 → s16 z = z.
Proof. unfold s16. intros. destruct (Z.ltb_spec (z mod 2 ^ 16) (2 ^ 15)); Z.div_mod_to_equations; lia. Qed.

Lemma s16_range z : - 2 ^ 15 ≤ s16 z < 2 ^ 15.
Proof. unfold s16. destruct (Z.ltb_spec (z mod 2 ^ 16) (2 ^ 15)); Z.div_mod_to_equations; lia. Qed.

Lemma eocd_loop_found fd size n c fuel :
  0 ≤ c → c + Z.of_nat n < 2 ^ 15 → c + Z.of_nat n < size → (n < fuel)%nat →
  eocd_at fd (size - kZipEocdRecMinSize) (c + Z.of_nat n) = true →
  (∀ c', c ≤ c' < c + Z.of_nat n → eocd_at fd (size - kZipEocdRecMinSize) c' = false) →
  eocd_loop fuel fd size c = Ok (size - kZipEocdRecMinSize - (c + Z.of_nat n)).
Proof.
  revert c fuel. induction n as [|n IH]; intros c fuel Hc H1 H2 Hf Hat Hno; (destruct fuel as [|fuel]; [lia|]);
    cbn [eocd_loop]; (destruct (Z.ltb_spec c size); [|lia]).
  - replace (c + Z.of_nat 0) with c in * by lia. by rewrite Hat.
  - rewrite Hno by lia. rewrite s16_small by lia. replace (c + Z.of_nat (S n)) with (c + 1 + Z.of_nat n) in * by lia.
    apply IH; try lia; [done|]. intros. apply Hno. lia.
Qed.

(** C39. The search for the end record of an archive never ends when there is none: the
    length of the comment is counted in an [int16_t], which wraps around before it reaches the size of any file
    of 32768 bytes or more.  A file with the extension of a package and no end record makes
    the server, and with it the installation, hang. *)
Theorem eocd_scan_never_ends fuel fd fileSize :
  2 ^ 15 ≤ fileSize → (∀ off, valueAt 4 fd off ≠ kZipEocdRecSig) → CentralDirOffset fuel fd fileSize = NoFuel.
Proof.
  intros Hs Hno. unfold CentralDirOffset. assert (∀ c, - 2 ^ 15 ≤ c < 2 ^ 15 → eocd_loop fuel fd fileSize c = NoFuel) as E.
  { induction fuel as [|fuel IH]; intros c Hc; [done|]. cbn [eocd_loop]. destruct (Z.ltb_spec c fileSize); [|lia].
    unfold eocd_at. destruct (Z.eqb_spec (valueAt 4 fd (fileSize - kZipEocdRecMinSize - c)) kZipEocdRecSig) as [E|]; [by apply Hno in E|].
    apply IH, s16_range. }
  by rewrite E by lia.
Qed.

Lemma valueAt_zeros n (len : nat) off : 0 < n → valueAt n (pread_of (replicate len x00)) off = 0 ∨ valueAt n (pread_of (replicate len x00)) off = -1.
Proof.
  intros Hn. unfold valueAt, pread_of. destruct (off <? 0); [by right|].
  assert (∀ l, Forall (eq x00) l → le_value l = 0) as Hz by (induction 1 as [|b l <- _ IH]; [done|]; cbn [le_value]; by rewrite IH).
  case_match; [|by right]. left. rewrite Hz.
  - destruct (Z.ltb_spec 0 (2 ^ (8 * n - 1))); [done|]. pose proof (Z.pow_pos_nonneg 2 (8 * n - 1)). lia.
  - unfold ltake, ldrop. apply Forall_take, Forall_drop, Forall_replicate. done.
Qed.

Lemma eocd_scan_never_ends_witness : CentralDirOffset 1000000 (pread_of (replicate 40000 x00)) 40000 = NoFuel.
Proof.
  apply (eocd_scan_never_ends 1000000 (pread_of (replicate 40000 x00)) 40000); [done|]. intros off.
  destruct (valueAt_zeros 4 40000 off) as [-> | ->]; done.
Defined.

(** ** Packages *)

(** The end record, and the block with the signatures of a package. *)
Definition end_record (disks cd place comment : bytes) : bytes :=
  le32 kZipEocdRecSig ++ disks ++ le32 (llen cd) ++ place ++ le16 (llen comment) ++ comment.
Definition block_size (pairs : bytes) : bytes := le32 (llen pairs + 24) ++ le32 0.
Definition signing_block (pairs : bytes) : bytes := block_size pairs ++ pairs ++ block_size pairs ++ txt "APK Sig Block 42".

Record apk := mkApk { entries : bytes; pairs : bytes; cd : bytes; disks : bytes; place : bytes; comment : bytes }.
Definition apk_bytes (a : apk) : bytes :=
  entries a ++ signing_block (pairs a) ++ cd a ++ end_record (disks a) (cd a) (place a) (comment a).

Definition apk_ok (a : apk) : Prop :=
  llen (disks a) = 8 ∧ llen (place a) = 4 ∧ llen (cd a) < 2 ^ 31 ∧ llen (pairs a) + 24 < 2 ^ 31 ∧
  llen (comment a) < 2 ^ 15 ∧
  (∀ c, 0 ≤ c < llen (comment a) →
     eocd_at (pread_of (apk_bytes a)) (llen (apk_bytes a) - kZipEocdRecMinSize) c = false).

Lemma value32 pre z post : 0 ≤ z < 2 ^ 31 → valueAt 4 (pread_of (pre ++ le32 z ++ post)) (llen pre) = z.
Proof.
  intros Hz. rewrite valueAt_here, le_value_le32 by (done || lia). unfold signed.
  destruct (Z.ltb_spec z (2 ^ (8 * 4 - 1))); lia.
Qed.

Lemma value16 pre z post : 0 ≤ z < 2 ^ 15 → valueAt 2 (pread_of (pre ++ le16 z ++ post)) (llen pre) = z.
Proof.
  intros Hz. rewrite valueAt_here, le_value_le16 by (done || lia). unfold signed.
  destruct (Z.ltb_spec z (2 ^ (8 * 2 - 1))); lia.
Qed.

Lemma llen_signing_block p : llen (signing_block p) = llen p + 32.
Proof. unfold signing_block, block_size. rewrite !llen_app, !llen_le32. change (llen (txt "APK Sig Block 42")) with 16. lia. Qed.

Lemma apk_central_dir a fuel : apk_ok a → (2 ^ 15 ≤ Z.of_nat fuel) →
  CentralDirOffset fuel (pread_of (apk_bytes a)) (llen (apk_bytes a)) = Ok (llen (entries a ++ signing_block (pairs a))).
Proof.
  intros (Hd & Hp & Hc & Hb & Hm & Hno) Hf. pose proof (llen_nonneg (cd a)). pose proof (llen_nonneg (comment a)).
  set (pre := entries a ++ signing_block (pairs a)). set (e := pre ++ cd a). pose proof (llen_nonneg e) as He0.
  assert (llen e = llen pre + llen (cd a)) as He by apply llen_app. pose proof (llen_nonneg pre).
  assert (apk_bytes a = e ++ le32 kZipEocdRecSig ++ (disks a ++ le32 (llen (cd a)) ++ place a ++ le16 (llen (comment a)) ++ comment a)) as F1
    by (unfold apk_bytes, end_record, e, pre; by rewrite <- !app_assoc).
  assert (apk_bytes a = (e ++ le32 kZipEocdRecSig ++ disks a) ++ le32 (llen (cd a)) ++ (place a ++ le16 (llen (comment a)) ++ comment a)) as F2
    by (rewrite F1; by rewrite <- !app_assoc).
  assert (apk_bytes a = (e ++ le32 kZipEocdRecSig ++ disks a ++ le32 (llen (cd a)) ++ place a) ++ le16 (llen (comment a)) ++ comment a) as F3
    by (rewrite F1; by rewrite <- !app_assoc).
  assert (llen (apk_bytes a) = llen e + 22 + llen (comment a)) as HL.
  { rewrite F1, !llen_app, !llen_le32. change (llen (le16 (llen (comment a)))) with 2. lia. }
  assert (llen (apk_bytes a) - kZipEocdRecMinSize - llen (comment a) = llen e) as Eo by (unfold kZipEocdRecMinSize; lia).
  unfold CentralDirOffset. rewrite (eocd_loop_found _ _ (length (comment a)) 0); fold (llen (comment a)); rewrite ?Z.add_0_l; try lia; first last.
  - intros c Hc'. apply Hno. unfold llen in *. lia.
  - unfold eocd_at. rewrite Eo. rewrite F1 at 1. rewrite value32 by done. rewrite Z.eqb_refl. rewrite F3.
    replace (llen e + 20) with (llen (e ++ le32 kZipEocdRecSig ++ disks a ++ le32 (llen (cd a)) ++ place a))
      by (rewrite !llen_app, !llen_le32; lia). rewrite value16 by lia. apply Z.eqb_refl.
  - unfold llen in *. lia.
  - rewrite Eo. cbn. destruct (Z.ltb_spec (llen e) 0); [lia|]. rewrite F2.
    replace (llen e + 12) with (llen (e ++ le32 kZipEocdRecSig ++ disks a)) by (rewrite !llen_app, !llen_le32; lia).
    rewrite value32 by lia. f_equal. lia.
Qed.

Lemma apk_signer_block a fuel : apk_ok a → (2 ^ 15 ≤ Z.of_nat fuel) →
  SignerBlockOffset fuel (pread_of (apk_bytes a)) (llen (apk_bytes a)) = Ok (llen (entries a)).
Proof.
  intros Ha Hf. pose proof Ha as (_ & _ & _ & Hb & _). unfold SignerBlockOffset. rewrite apk_central_dir by done. cbn [mbind res_bind].
  set (e := entries a). set (p := pairs a). set (rest := cd a ++ end_record (disks a) (cd a) (place a) (comment a)).
  pose proof (llen_nonneg e). pose proof (llen_nonneg p : 0 ≤ llen p). change (pairs a) with p in Hb.
  assert (llen (e ++ signing_block p) = llen e + llen p + 32) as El by (rewrite llen_app, llen_signing_block; lia).
  fold e p. rewrite El. assert (apk_bytes a = e ++ le32 (llen p + 24) ++ (le32 0 ++ p ++ block_size p ++ txt "APK Sig Block 42" ++ rest)) as F1
    by (unfold apk_bytes, signing_block, rest, block_size; by rewrite <- !app_assoc).
  set (f := e ++ block_size p ++ p).
  assert (apk_bytes a = f ++ le32 (llen p + 24) ++ (le32 0 ++ txt "APK Sig Block 42" ++ rest)) as F2
    by (rewrite F1; unfold f, block_size; by rewrite <- !app_assoc).
  assert (apk_bytes a = (f ++ block_size p) ++ txt "APK Sig " ++ txt "Block 42" ++ rest) as F3
    by (rewrite F2; unfold block_size; by rewrite <- !app_assoc).
  assert (apk_bytes a = (f ++ block_size p ++ txt "APK Sig ") ++ txt "Block 42" ++ rest) as F4
    by (rewrite F3; by rewrite <- !app_assoc).
  assert (llen f = llen e + llen p + 8) as Ef by (unfold f, block_size; rewrite !llen_app, !llen_le32; lia).
  destruct (Z.ltb_spec (llen e + llen p + 32) 0); [lia|].
  replace (llen e + llen p + 32 - 16) with (llen (f ++ block_size p)) by (unfold block_size; rewrite !llen_app, !llen_le32; lia).
  rewrite F3 at 1. rewrite valueAt_here by done. change (signed 8 (le_value (txt "APK Sig ")) =? APK_SIG_BLOCK_MAGIC_LO) with true.
  replace (llen e + llen p + 32 - 8) with (llen (f ++ block_size p ++ txt "APK Sig "))
    by (unfold block_size; rewrite !llen_app, !llen_le32; change (llen (txt "APK Sig ")) with 8; lia).
  rewrite F4 at 1. rewrite valueAt_here by done. change (signed 8 (le_value (txt "Block 42")) =? APK_SIG_BLOCK_MAGIC_HI) with true.
  unfold kApkSigBlockMinSize, kApkSigBlockFooterSize. destruct (Z.ltb_spec (llen e + llen p + 32) 32); [lia|]. cbn [negb orb].
  replace (llen e + llen p + 32 - 24) with (llen f) by lia. 
  assert (valueAt 4 (pread_of (apk_bytes a)) (llen f) = llen p + 24) as V1 by (rewrite F2; apply value32; lia).
  assert (valueAt 4 (pread_of (apk_bytes a)) (llen e) = llen p + 24) as V2 by (rewrite F1; apply value32; lia). rewrite V1.
  replace (llen e + llen p + 32 - (llen p + 24) - 8) with (llen e) by lia. destruct (Z.ltb_spec (llen e) 0); [lia|].
  by rewrite V2, Z.eqb_refl.
Qed.

(** ** Which blocks come first *)

Lemma offset_block o : 0 ≤ o < 2 ^ 43 → offsetToBlockIndex o = o / 4096.
Proof.
  intros Ho. unfold offsetToBlockIndex. change (Z.lnot (kBlockSize - 1)) with (Z.lnot (Z.ones 12)).
  rewrite <- Z.ldiff_land, Z.ldiff_ones_r, Z.shiftr_shiftl_l, Z.sub_diag, Z.shiftl_0_r, Z.shiftr_div_pow2 by lia.
  change (2 ^ 12) with 4096. apply s32_small. Z.div_mod_to_equations. lia.
Qed.

Lemma appendBlocks_run start n l : 0 ≤ n → appendBlocks start n l = Ok (l ++ seqZ start n).
Proof.
  intros Hn. unfold appendBlocks. destruct (Z.eqb_spec n 1) as [->|]; [by rewrite seqZ_cons, seqZ_nil by lia; cbn; rewrite Z.add_0_r || done|].
  destruct (Z.leb_spec 0 n); [done|lia].
Qed.

Lemma unduplicate_loop_spec v seen :
  NoDup (unduplicate_loop v seen) ∧ ∀ x, x ∈ unduplicate_loop v seen ↔ x ∈ v ∧ x ∉ seen.
Proof.
  revert seen. induction v as [|t v IH]; intros seen; cbn.
  - split; [constructor|]. intros x. split; [by intros ?%elem_of_nil|by intros [?%elem_of_nil _]].
  - case_bool_decide as Ht.
    + destruct (IH seen) as [Hn Hi]. split; [done|]. intros x. rewrite Hi, elem_of_cons. naive_solver.
    + destruct (IH (t :: seen)) as [Hn Hi]. split.
      * constructor; [|done]. rewrite Hi, elem_of_cons. naive_solver.
      * intros x. rewrite !elem_of_cons, Hi, elem_of_cons. destruct (decide (x = t)); naive_solver.
Qed.

(** The blocks from the signatures to the end of the file, those of the search for the end record first,
    and the first block. *)
Lemma zip_priority signer size : 0 ≤ signer ≤ size → size < 2 ^ 43 →
  ∃ l, ZipPriorityBlocks signer size = Ok l ∧
    (∀ k, k ∈ l ↔ k = 0 ∨ signer / 4096 ≤ k ≤ size / 4096) ∧
    (17 < size / 4096 - signer / 4096 + 1 → take 17 l = seqZ (size / 4096 - 16) 17).
Proof.
  intros Hs Hb. unfold ZipPriorityBlocks. rewrite !offset_block by lia. change kNumBlocksInEocdSearch with 17.
  assert (signer / 4096 ≤ size / 4096) as Hle by (apply Z.div_le_mono; lia).
  destruct (Z.ltb_spec 17 (size / 4096 - signer / 4096 + 1)).
  - rewrite appendBlocks_run by lia. cbn [mbind res_bind]. rewrite appendBlocks_run by lia. cbn [mbind res_bind].
    rewrite appendBlocks_run by lia. eexists. split; [done|]. split.
    + intros k. rewrite !elem_of_app, !elem_of_seqZ, elem_of_nil. lia.
    + intros _. rewrite app_nil_l, <- app_assoc. rewrite take_app_le by (rewrite length_seqZ; lia).
      rewrite take_ge by (rewrite length_seqZ; lia). f_equal. lia.
  - rewrite appendBlocks_run by lia. cbn [mbind res_bind]. rewrite appendBlocks_run by lia. eexists. split; [done|]. split; [|lia].
    intros k. rewrite !elem_of_app, !elem_of_seqZ, elem_of_nil. lia.
Qed.

(** An entry lies in a file below the limit of the code. *)
Definition entry_ok (e : ZipEntry) : Prop :=
  0 ≤ offset e ∧ 0 ≤ uncompressed_length e ∧ 0 ≤ compressed_length e ∧
  offset e + uncompressed_length e + compressed_length e + 16 < 2 ^ 43.

(** The blocks of an entry that the device needs to install the package. *)
Definition entry_range (e : ZipEntry) (k : Z) : Prop :=
  matcher (entry_name e) = true ∧ offset e / 4096 ≤ k ∧
  k ≤ if bool_decide (entry_name e = txt "classes.dex") then offset e / 4096 + 1 else entry_end e / 4096.

Lemma s64_small z : 0 ≤ z < 2 ^ 63 → s64 z = z.
Proof. unfold s64, u64. intros. rewrite Z.mod_small by lia. destruct (Z.ltb_spec z (2 ^ 63)); lia. Qed.

Lemma entry_blocks_run es l : Forall entry_ok es →
  ∃ l', entry_blocks es l = Ok l' ∧ ∀ k, k ∈ l' ↔ k ∈ l ∨ ∃ e, e ∈ es ∧ entry_range e k.
Proof.
  intros Hok. revert l. induction Hok as [|e es He _ IH]; intros l.
  { exists l. split; [done|]. intros k. split; [by left|]. by intros [|(? & ?%elem_of_nil & _)]. }
  cbn [entry_blocks]. destruct (matcher (entry_name e)) eqn:Em; cbn [negb].
  - destruct He as (H1 & H2 & H3 & H4).
    assert (offset e ≤ entry_end e ∧ entry_end e < 2 ^ 43) as [E1 E2]
      by (unfold entry_end; rewrite s64_small by (destruct (stored e), (has_data_descriptor e); lia); destruct (stored e), (has_data_descriptor e); lia).
    rewrite !offset_block by lia. pose proof (Z.div_le_mono _ _ 4096 ltac:(lia) E1).
    set (n := if bool_decide _ then _ else _).
    assert (0 ≤ n) by (subst n; case_bool_decide; lia). rewrite appendBlocks_run by done. cbn [mbind res_bind].
    destruct (IH (l ++ seqZ (offset e / 4096) n)) as (l' & -> & Hl'). exists l'. split; [done|]. intros k.
    assert (k ∈ seqZ (offset e / 4096) n ↔ entry_range e k) as Hk.
    { rewrite elem_of_seqZ. unfold entry_range. rewrite Em. subst n. case_bool_decide; intuition lia. }
    rewrite Hl', elem_of_app, Hk. setoid_rewrite elem_of_cons. naive_solver.
  - destruct (IH l) as (l' & -> & Hl'). exists l'. split; [done|]. intros k. rewrite Hl'. setoid_rewrite elem_of_cons.
    unfold entry_range. naive_solver congruence.
Qed.

(** The blocks of a package that are sent first: for a package with a signature block, a central
    directory and a comment of less than 32768 bytes that does not look like an end record, the search
    ends, finds the signature block, and gives, each once and none negative, the first block, every block
    from the signatures to the end of the file, and the blocks of the entries that the installation needs. *)
Theorem priority_blocks_exact a fuel path zip :
  apk_ok a → 2 ^ 15 ≤ Z.of_nat fuel → llen (apk_bytes a) < 2 ^ 43 → EndsWithIgnoreCase path (txt ".apk") = true →
  Forall entry_ok zip →
  ∃ l, PriorityBlocksForFile fuel path (pread_of (apk_bytes a)) (Some zip) (llen (apk_bytes a)) = Ok l ∧ NoDup l ∧
    Forall (Z.le 0) l ∧
    ∀ k, k ∈ l ↔ k = 0 ∨ llen (entries a) / 4096 ≤ k ≤ llen (apk_bytes a) / 4096 ∨ ∃ e, e ∈ zip ∧ entry_range e k.
Proof.
  intros Ha Hf Hb He Hz. unfold PriorityBlocksForFile. rewrite He, apk_signer_block by done. cbn [mbind res_bind negb].
  pose proof (llen_nonneg (entries a)). destruct (Z.ltb_spec (llen (entries a)) 0); [lia|].
  destruct (zip_priority (llen (entries a)) (llen (apk_bytes a))) as (l1 & -> & H1 & _); [|done|].
  { unfold apk_bytes. rewrite llen_app. pose proof (llen_nonneg (signing_block (pairs a) ++ cd a ++ end_record (disks a) (cd a) (place a) (comment a))). lia. }
  cbn [mbind res_bind InstallationPriorityBlocks]. destruct (entry_blocks_run zip [] Hz) as (l2 & -> & H2). cbn [mbind res_bind].
  destruct (unduplicate_loop_spec (l1 ++ l2) []) as [Hn Hi]. eexists. split; [done|]. split; [done|].
  assert (∀ k, k ∈ unduplicate (l1 ++ l2) ↔ k = 0 ∨ llen (entries a) / 4096 ≤ k ≤ llen (apk_bytes a) / 4096 ∨ ∃ e, e ∈ zip ∧ entry_range e k) as Hk.
  { intros k. unfold unduplicate. rewrite Hi, elem_of_app, H1, H2, !elem_of_nil. naive_solver. }
  split; [|done]. apply Forall_forall. intros k [->|[[? _]|(e & He' & _ & ? & _)]]%Hk; [done| |].
  - pose proof (Z.div_pos (llen (entries a)) 4096). lia.
  - rewrite Forall_forall in Hz. apply Hz in He' as [? _]. pose proof (Z.div_pos (offset e) 4096). lia.
Qed.

Definition demo_apk : apk := mkApk (txt "entries") [] (txt "dir") (replicate 8 x00) (replicate 4 x00) (txt "hi").
Definition demo_entry : ZipEntry := mkEntry (txt "classes.dex") 0 true 5 5 false.

Lemma demo_apk_ok : apk_ok demo_apk.
Proof.
  split_and!; try done. intros c Hc. change (llen (comment demo_apk)) with 2 in Hc.
  assert (c = 0 ∨ c = 1) as [-> | ->] by lia; by vm_compute.
Qed.

Lemma priority_blocks_exact_witness : ∃ l,
  PriorityBlocksForFile (Z.to_nat 32768) (txt "a.apk") (pread_of (apk_bytes demo_apk)) (Some [demo_entry])
    (llen (apk_bytes demo_apk)) = Ok l ∧ NoDup l ∧ Forall (Z.le 0) l ∧
  ∀ k, k ∈ l ↔ k = 0 ∨ llen (entries demo_apk) / 4096 ≤ k ≤ llen (apk_bytes demo_apk) / 4096 ∨
                ∃ e, e ∈ [demo_entry] ∧ entry_range e k.
Proof.
  apply (priority_blocks_exact demo_apk (Z.to_nat 32768) (txt "a.apk") [demo_entry]).
  - exact demo_apk_ok.
  - lia.
  - by vm_compute.
  - by vm_compute.
  - repeat constructor; vm_compute; done.
Defined.

(** The tree of a file of one block is empty, and that of 129 blocks has two leaves and a root. *)
Example tree_sizes : verity_tree_blocks_for_file 4096 = Ok 0 ∧ verity_tree_blocks_for_file 4097 = Ok 1 ∧
  verity_tree_blocks_for_file (129 * 4096) = Ok 3.
Proof. done. Qed.
