(* ===== verification/Incremental.v ===== *)
(** * The server of an incremental installation

    Models adb/client/incremental_server.cpp: the server reads the requests of the device out of the
    output of the installation, and sends the blocks of the files and of their hash trees, those
    asked for first and the others ahead of the requests.

    [reads] counts the calls of [pread], whose answers may change with it.  What was given to
    [WriteFdExactly] is the list of the chunks; [wire] says which of these writes fail, and what
    reached the device is [device].  What is passed on is [output].  [answers] is what
    [poll] and [read] return; a call with no answer left has not returned, so that the
    turn has not finished.  The counters for the trace line are left out. *)

From S2P Require Import Prelude Strings IncrementalUtils.

Definition kCompressedSizeMax : Z := 3891.
Definition kTypeData : Z := 0.
Definition kTypeHash : Z := 1.
Definition kCompressionNone : Z := 0.
Definition kCompressionLZ4 : Z := 1.
Definition kChunkFlushSize : Z := 31 * kBlockSize.
(** The size of [pendingBlocksBuffer_], which begins with the header of a chunk. *)
Definition pending_room : Z := kChunkFlushSize + 2 * kBlockSize.
Definition sizeof_ChunkHeader : Z := 4.
Definition kReadBufferSize : Z := 128 * 1024.
Definition INCR : Z := 0x494e4352.
Definition SERVING_COMPLETE : Z := 0.
Definition BLOCK_MISSING : Z := 1.
Definition PREFETCH : Z := 2.
Definition DESTROY : Z := 3.
Definition kPrefetchBlocksPerIteration : Z := 128.

Definition roundDownToBlockOffset (val : Z) : Z := Z.land val (Z.lnot (kBlockSize - 1)).
Definition roundUpToBlockOffset (val : Z) : Z := roundDownToBlockOffset (val + kBlockSize - 1).
Definition numBytesToNumBlocks (n : Z) : Z := s32 (Z.quot (roundUpToBlockOffset n) kBlockSize).
Definition blockIndexToOffset (blockIdx : Z) : Z := blockIdx * kBlockSize.

(** ** Big-endian integers *)

Definition be16 (z : Z) : bytes := [zbyte (Z.shiftr z 8); zbyte z].
Definition be32 (z : Z) : bytes := [zbyte (Z.shiftr z 24); zbyte (Z.shiftr z 16); zbyte (Z.shiftr z 8); zbyte z].
Definition of_be (l : bytes) : Z := foldl (λ n b, 256 * n + bval b) 0 l.

Record RequestCommand := mkRequest { request_type : Z; file_id : Z; block_idx : Z }.

(** [ResponseHeader] and the bytes of it. *)
Record ResponseHeader := mkHeader {
  h_file_id : Z; h_block_type : Z; h_compression_type : Z; h_block_idx : Z; h_block_size : Z
}.
Definition header_bytes (h : ResponseHeader) : bytes :=
  be16 (h_file_id h) ++ [zbyte (h_block_type h); zbyte (h_compression_type h)] ++
  be32 (h_block_idx h) ++ be16 (h_block_size h).

(** ** Files *)

Record File := mkFile {
  filepath : bytes;
  id : Z;
  fsize : Z;
  fd_ : nat → preader;
  priority_blocks_ : list Z;
  tree_fd_ : option (nat → preader);
  tree_offset_ : Z;
  sentBlocks : list bool;
  sentBlocksCount : Z;
  sentTreeBlocks : list bool
}.

(** The constructor, whose parameter [id] is an [int16_t]; a negative number of blocks makes
    [resize] throw. *)
Definition new_File (fuel : nat) (path : bytes) (i size : Z) (fd : nat → preader) (zip : option (list ZipEntry))
    (tree_offset : Z) (tree_fd : option (nat → preader)) : res File :=
  let n := numBytesToNumBlocks size in
  t ← verity_tree_blocks_for_file size;
  if (n <? 0) || (t <? 0) then Fatal
  else
    priority ← PriorityBlocksForFile fuel path (fd O) zip size;
    Ok (mkFile path (s16 i) size fd priority tree_fd tree_offset
          (replicate (Z.to_nat n) false) 0 (replicate (Z.to_nat t) false)).

Definition ReadDataBlock (f : File) (now : nat) (blockIdx : Z) : option bytes :=
  fd_ f now kBlockSize (blockIndexToOffset blockIdx).
Definition hasTree (f : File) : bool := bool_decide (is_Some (tree_fd_ f)).
Definition ReadTreeBlock (f : File) (now : nat) (blockIdx : Z) : option bytes :=
  match tree_fd_ f with
  | Some fd => fd now kBlockSize (tree_offset_ f + blockIndexToOffset blockIdx)
  | None => None
  end.

Definition set_sent (i : Z) (f : File) : File :=
  mkFile (filepath f) (id f) (fsize f) (fd_ f) (priority_blocks_ f) (tree_fd_ f) (tree_offset_ f)
    (lset i true (sentBlocks f)) (sentBlocksCount f + 1) (sentTreeBlocks f).
Definition set_tree_sent (i : Z) (f : File) : File :=
  mkFile (filepath f) (id f) (fsize f) (fd_ f) (priority_blocks_ f) (tree_fd_ f) (tree_offset_ f)
    (sentBlocks f) (sentBlocksCount f) (lset i true (sentTreeBlocks f)).

(** ** The state of the server *)

Record PrefetchState := mkPrefetch {
  pf_file : Z;                   (** the position of the file *)
  overallIndex : Z;
  overallEnd : Z;
  priorityIndex : Z
}.

(** The two constructors. *)
Definition new_PrefetchState (i : Z) (f : File) (start count : Z) : PrefetchState :=
  mkPrefetch i start (Z.min (s32 (start + count)) (llen (sentBlocks f))) 0.
Definition prefetch_all (i : Z) (f : File) : PrefetchState := new_PrefetchState i f 0 (llen (sentBlocks f)).

Definition prefetch_done (f : File) (p : PrefetchState) : bool :=
  let overallSent := overallEnd p <=? overallIndex p in
  match priority_blocks_ f with
  | [] => overallSent
  | _ => overallSent && (llen (priority_blocks_ f) <=? priorityIndex p)
  end.

(** What [poll] says when it is not 1, and what [read] returns (nothing: the end or an error). *)
Inductive answer := APoll (r : Z) | ARead (d : bytes).

Record Server := mkServer {
  files_ : list File;
  buffer_ : bytes;
  prefetches_ : list PrefetchState;
  pendingBlocks_ : bytes;        (** what is in the buffer behind the header of the chunk *)
  servingComplete_ : bool;
  prefetchedFiles : gset Z;      (** these two are variables of [Serve] *)
  doneSent : bool;
  answers : list answer;
  reads : nat;
  chunks : list bytes;           (** given to [WriteFdExactly] *)
  output : bytes;
  wire : nat → option Z          (** which of these writes fail, and after how many bytes *)
}.

Definition set_files v s := mkServer v (buffer_ s) (prefetches_ s) (pendingBlocks_ s) (servingComplete_ s)
  (prefetchedFiles s) (doneSent s) (answers s) (reads s) (chunks s) (output s) (wire s).
Definition set_prefetches v s := mkServer (files_ s) (buffer_ s) v (pendingBlocks_ s) (servingComplete_ s)
  (prefetchedFiles s) (doneSent s) (answers s) (reads s) (chunks s) (output s) (wire s).
Definition set_pending v s := mkServer (files_ s) (buffer_ s) (prefetches_ s) v (servingComplete_ s)
  (prefetchedFiles s) (doneSent s) (answers s) (reads s) (chunks s) (output s) (wire s).
Definition set_complete s := mkServer (files_ s) (buffer_ s) (prefetches_ s) (pendingBlocks_ s) true
  (prefetchedFiles s) (doneSent s) (answers s) (reads s) (chunks s) (output s) (wire s).
Definition set_prefetched v s := mkServer (files_ s) (buffer_ s) (prefetches_ s) (pendingBlocks_ s)
  (servingComplete_ s) v (doneSent s) (answers s) (reads s) (chunks s) (output s) (wire s).
Definition set_done s := mkServer (files_ s) (buffer_ s) (prefetches_ s) (pendingBlocks_ s) (servingComplete_ s)
  (prefetchedFiles s) true (answers s) (reads s) (chunks s) (output s) (wire s).
Definition set_input b a o s := mkServer (files_ s) b (prefetches_ s) (pendingBlocks_ s) (servingComplete_ s)
  (prefetchedFiles s) (doneSent s) a (reads s) (chunks s) o (wire s).
Definition tick s := mkServer (files_ s) (buffer_ s) (prefetches_ s) (pendingBlocks_ s) (servingComplete_ s)
  (prefetchedFiles s) (doneSent s) (answers s) (S (reads s)) (chunks s) (output s) (wire s).
Definition add_chunk c s := mkServer (files_ s) (buffer_ s) (prefetches_ s) (pendingBlocks_ s) (servingComplete_ s)
  (prefetchedFiles s) (doneSent s) (answers s) (reads s) (chunks s ++ [c]) (output s) (wire s).

Definition SV (A : Type) : Type := Server → res (A * Server).
#[global] Instance sv_ret : MRet SV := λ A a s, Ok (a, s).
#[global] Instance sv_bind : MBind SV := λ A B f m s, '(a, s) ← m s; f a s.
Definition gets {A} (f : Server → A) : SV A := λ s, Ok (f s, s).
Definition modify (f : Server → Server) : SV unit := λ s, Ok (tt, f s).
Definition lift {A} (r : res A) : SV A := λ s, a ← r; Ok (a, s).

(** [files_[fileId]]. *)
Definition file_at (i : Z) : SV File := fs ← gets files_; lift (deref (lget fs i)).
Definition modify_file (i : Z) (g : File → File) : SV unit :=
  f ← file_at i; modify (λ s, set_files (lset i (g f) (files_ s)) s).

(** ** Sending *)

Definition WriteFdExactly (data : bytes) : SV bool := λ s,
  Ok (bool_decide (wire s (length (chunks s)) = None), add_chunk data s).

(** A failure to write is reported on stderr and otherwise ignored. *)
Definition Flush : SV unit :=
  p ← gets pendingBlocks_;
  if bool_decide (p = []) then mret tt
  else _ ← WriteFdExactly (be32 (llen p) ++ p); modify (set_pending []).

(** The bytes that reached the device: a chunk whose write failed did so in part. *)
Definition device (s : Server) : bytes :=
  concat (imap (λ n c, match wire s n with None => c | Some k => ltake k c end) (chunks s)).

(** [std::copy_n] into the buffer, which is undefined past its end. *)
Definition Send (data : bytes) (flush : bool) : SV unit :=
  p ← gets pendingBlocks_;
  let p := p ++ data in
  if pending_room <? sizeof_ChunkHeader + llen p then lift Undef
  else
    _ ← modify (set_pending p);
    if flush || (kChunkFlushSize <? sizeof_ChunkHeader + llen p) then Flush else mret tt.

(** One call of [pread]. *)
Definition pread {A} (f : nat → A) : SV A := now ← gets reads; _ ← modify tick; mret (f now).

Definition SendTreeBlock (fileId fileBlockIdx blockIdx : Z) : SV bool :=
  f ← file_at fileId;
  d ← pread (λ now, ReadTreeBlock f now blockIdx);
  match d with
  | None | Some [] => mret false
  | Some d =>
      _ ← Send (header_bytes (mkHeader fileId kTypeHash kCompressionNone blockIdx (s16 (llen d))) ++ d) false;
      mret true
  end.

(** The blocks above the leaves, from [i] on. *)
Fixpoint send_nodes (fileId blockIdx : Z) (nodes : list Z) : SV bool :=
  match nodes with
  | [] => mret true
  | i :: nodes =>
      ok ← SendTreeBlock fileId blockIdx i;
      if negb ok then mret false
      else
        f ← file_at fileId;
        _ ← lift (deref (lget (sentTreeBlocks f) i));
        _ ← modify_file fileId (set_tree_sent i);
        send_nodes fileId blockIdx nodes
  end.

Definition leaf_count (f : File) : Z := Z.quot (numBytesToNumBlocks (fsize f) + kHashesPerBlock - 1) kHashesPerBlock.
Definition leaf_offset (f : File) : Z := llen (sentTreeBlocks f) - leaf_count f.

Definition SendTreeBlocksForDataBlock (fileId blockIdx : Z) : SV bool :=
  f ← file_at fileId;
  if negb (hasTree f) then mret true
  else
    let leaf_nodes_offset := leaf_offset f in
    let leaf_idx := leaf_nodes_offset + Z.quot blockIdx kHashesPerBlock in
    sent ← lift (deref (lget (sentTreeBlocks f) leaf_idx));
    if (sent : bool) then mret true
    else
      ok ← SendTreeBlock fileId blockIdx leaf_idx;
      if negb ok then mret false
      else
        _ ← modify_file fileId (set_tree_sent leaf_idx);
        if leaf_nodes_offset =? 0 then mret true
        else
          f ← file_at fileId;
          root ← lift (deref (lget (sentTreeBlocks f) 0));
          if (root : bool) then mret true else send_nodes fileId blockIdx (seqZ 0 leaf_nodes_offset).

Inductive SendResult := Sent | Skipped | SendError.

(** [LZ4_compress_default] gives nothing when it fails. *)
Class LZ4 := { LZ4_compress : bytes → bytes }.

Section server.
Context `{LZ4}.

(** The header and the data of a block, compressed when that saves enough. *)
Definition data_response (fileId blockIdx : Z) (raw : bytes) : bytes :=
  let compressed := LZ4_compress raw in
  let compressedSize := s16 (llen compressed) in
  if (0 <? compressedSize) && (compressedSize <? kCompressedSizeMax)
  then header_bytes (mkHeader fileId kTypeData kCompressionLZ4 blockIdx compressedSize) ++ ltake compressedSize compressed
  else header_bytes (mkHeader fileId kTypeData kCompressionNone blockIdx (s16 (llen raw))) ++ raw.

Definition SendDataBlock (fileId blockIdx : Z) (flush : bool) : SV SendResult :=
  f ← file_at fileId;
  if llen (sentBlocks f) <=? blockIdx then mret Skipped
  else
    sent ← lift (deref (lget (sentBlocks f) blockIdx));
    if (sent : bool) then mret Skipped
    else
      ok ← SendTreeBlocksForDataBlock fileId blockIdx;
      if negb ok then mret SendError
      else
        d ← pread (λ now, ReadDataBlock f now blockIdx);
        match d with
        | None => mret SendError
        | Some raw =>
            _ ← modify_file fileId (set_sent blockIdx);
            _ ← Send (data_response fileId blockIdx raw) flush;
            mret Sent
        end.

Definition SendDone : SV unit := Send (header_bytes (mkHeader (-1) 0 0 0 0)) true.

(** ** Sending ahead *)

(** The loops of [RunPrefetching]: the blocks [idxs], of which the first is at position [i], while
    there are [blocks] to send. *)
Fixpoint send_each (fileId : Z) (idxs : list Z) (i blocks : Z) : SV (Z * Z) :=
  match idxs with
  | [] => mret (i, blocks)
  | b :: idxs =>
      if 0 <? blocks then
        r ← SendDataBlock fileId b false;
        send_each fileId idxs (i + 1) (match r with Sent => blocks - 1 | _ => blocks end)
      else mret (i, blocks)
  end.

(** One turn of the loop of [RunPrefetching], on the first of the queue. *)
Definition prefetch_front (p : PrefetchState) (rest : list PrefetchState) (blocks : Z) : SV Z :=
  f ← file_at (pf_file p);
  '(pi, blocks) ← send_each (id f) (ldrop (priorityIndex p) (priority_blocks_ f)) (priorityIndex p) blocks;
  '(oi, blocks) ← send_each (id f) (seqZ (overallIndex p) (overallEnd p - overallIndex p)) (overallIndex p) blocks;
  let p := mkPrefetch (pf_file p) oi (overallEnd p) pi in
  _ ← modify (set_prefetches (if prefetch_done f p then rest else p :: rest));
  mret blocks.

Fixpoint prefetch_loop (fuel : nat) (blocks : Z) : SV unit :=
  match fuel with
  | O => lift NoFuel
  | S fuel =>
      q ← gets prefetches_;
      match q with
      | [] => mret tt
      | p :: rest => if 0 <? blocks then blocks ← prefetch_front p rest blocks; prefetch_loop fuel blocks else mret tt
      end
  end.

Definition RunPrefetching : SV unit :=
  q ← gets prefetches_; prefetch_loop (S (S (length q))) kPrefetchBlocksPerIteration.

(** ** Requests *)

(** The search for the magic number: the bytes before it, and whether it is there. *)
Fixpoint find_magic (b : bytes) : Z * bool :=
  match b with
  | b0 :: ((b1 :: b2 :: b3 :: _ :: _) as rest) =>
      if of_be [b0; b1; b2; b3] =? INCR then (0, true)
      else let '(n, found) := find_magic rest in (1 + n, found)
  | _ => (0, false)
  end.

Inductive skip_result := SkipFail | SkipNone | SkipGot (d : bytes).

Definition sizeof_RequestCommand : Z := 8.

(** The result, the buffer, the rest of the answers and what was passed on.  When [read] fails, the
    buffer has been enlarged for it and is passed on with the zeros at its end. *)
Fixpoint SkipToRequest (blocking complete : bool) (buf : bytes) (ins : list answer) (out : bytes)
    : res (skip_result * bytes * list answer * bytes) :=
  let '(bcur, magic_found) := find_magic buf in
  let out := out ++ ltake bcur buf in
  let buf := ldrop bcur buf in
  if magic_found && (sizeof_RequestCommand + 4 <=? llen buf)
  then Ok (SkipGot (ltake sizeof_RequestCommand (ldrop 4 buf)), ldrop (sizeof_RequestCommand + 4) buf, ins, out)
  else match ins with
       | [] => NoFuel
       | APoll r :: ins =>
           let out := out ++ buf in
           if (r <? 0) || (blocking && complete) then Ok (SkipFail, buf, ins, out) else Ok (SkipNone, buf, ins, out)
       | ARead [] :: ins => Ok (SkipFail, buf, ins, out ++ buf ++ replicate (Z.to_nat (kReadBufferSize - llen buf)) x00)
       | ARead d :: ins => SkipToRequest blocking complete (buf ++ d) ins out
       end.

Definition decode_request (d : bytes) : RequestCommand :=
  mkRequest (s16 (of_be (ltake 2 d))) (s16 (of_be (ltake 2 (ldrop 2 d)))) (s32 (of_be (ltake 4 (ldrop 4 d)))).

Definition ReadRequest (blocking : bool) : SV (option RequestCommand) := λ s,
  '(r, buf, ins, out) ← SkipToRequest blocking (servingComplete_ s) (buffer_ s) (answers s) (output s);
  Ok (match r with
      | SkipFail => Some (mkRequest DESTROY 0 0)
      | SkipNone => None
      | SkipGot d => Some (decode_request d)
      end, set_input buf ins out s).

(** The [switch] of [Serve]; [true] is its [return]. *)
Definition handle_request (r : RequestCommand) : SV bool :=
  let fileId := file_id r in
  let blockIdx := block_idx r in
  if request_type r =? DESTROY then mret true
  else if request_type r =? SERVING_COMPLETE then _ ← modify set_complete; mret false
  else if request_type r =? BLOCK_MISSING then
    n ← gets (λ s, s16 (llen (files_ s)));
    if (fileId <? 0) || (n <=? fileId) || (blockIdx <? 0) then mret false
    else
      f ← file_at fileId;
      if s32 (llen (sentBlocks f)) <=? blockIdx then mret false
      else
        res ← SendDataBlock fileId blockIdx true;
        match res with
        | Sent =>
            f ← file_at fileId;
            _ ← modify (λ s, set_prefetches (new_PrefetchState fileId f (blockIdx + 1) 7 :: prefetches_ s) s);
            mret false
        | _ => mret false
        end
  else if request_type r =? PREFETCH then
    if fileId <? 0 then mret false
    else
      seen ← gets prefetchedFiles;
      if bool_decide (fileId ∈ seen) then mret false
      else
        _ ← modify (set_prefetched ({[fileId]} ∪ seen));
        f ← file_at fileId;
        _ ← modify (λ s, set_prefetches (prefetches_ s ++ [prefetch_all fileId f]) s);
        mret false
  else mret false.

Definition all_sent (s : Server) : bool :=
  forallb (λ f, sentBlocksCount f =? s32 (llen (sentBlocks f))) (files_ s).

(** The part of a turn before the request: the end is announced, and what is pending goes out
    before the server waits. *)
Definition announce : SV unit :=
  s ← gets (λ s, s);
  _ ← (if negb (doneSent s) && bool_decide (prefetches_ s = []) && all_sent s
       then _ ← SendDone; modify set_done else mret tt);
  if bool_decide (prefetches_ s = []) then Flush else mret tt.

(** One turn of the loop of [Serve]; [true] is its [return]. *)
Definition serve_turn : SV bool :=
  _ ← announce;
  blocking ← gets (λ s, bool_decide (prefetches_ s = []));
  request ← ReadRequest blocking;
  stop ← (match request with Some r => handle_request r | None => mret false end);
  if (stop : bool) then mret true else _ ← RunPrefetching; mret false.

Fixpoint serve_loop (fuel : nat) : SV unit :=
  match fuel with
  | O => lift NoFuel
  | S fuel => stop ← serve_turn; if (stop : bool) then mret tt else serve_loop fuel
  end.

(** [Serve]; [okay] is whether the handshake went out. *)
Definition Serve (fuel : nat) (okay : bool) : SV bool :=
  if negb okay then mret false else _ ← serve_loop fuel; mret true.

End server.

(** ** Starting the server *)

(** What the host has under a path: the size, the file, the archive in it, and the signature. *)
Record HostFile := mkHost {
  hf_size : Z;
  hf_fd : nat → preader;
  hf_zip : option (list ZipEntry);
  hf_signature : option (bytes * (nat → preader))
}.

(** [None] is [error_exit]: the hash tree has the wrong size. *)
Definition open_signature (h : HostFile) : res (option (option (nat → preader) * Z)) :=
  match hf_signature h with
  | None => Ok (Some (None, 0))
  | Some (d, fd) =>
      let '(tree_offset, tree_size) := skip_id_sig_headers (mkSigfd d 0) in
      expected ← verity_tree_size_for_file (hf_size h);
      Ok (if tree_size =? expected then Some (Some fd, tree_offset) else None)
  end.

(** The loop of [serve] over its arguments, of which the first is number [i]; the constructor
    of the file narrows the [int]. *)
Fixpoint open_files (fuel : nat) (host : bytes → option HostFile) (i : Z) (paths : list bytes) : res (option (list File)) :=
  match paths with
  | [] => Ok (Some [])
  | path :: paths =>
      match host path with
      | None => Ok None
      | Some h =>
          sig ← open_signature h;
          match sig with
          | None => Ok None
          | Some (tree_fd, tree_offset) =>
              f ← new_File fuel path i (hf_size h) (hf_fd h) (hf_zip h) tree_offset tree_fd;
              rest ← open_files fuel host (i + 1) paths;
              Ok (option_map (cons f) rest)
          end
      end
  end.

Definition new_Server (files : list File) (ins : list answer) (fate : nat → option Z) : Server :=
  mkServer files [] [] [] false ∅ false ins 0 [] [] fate.

(** [serve]; [None] is [error_exit]. *)
Definition serve `{LZ4} (fuel scan : nat) (host : bytes → option HostFile) (paths : list bytes) (okay : bool)
    (ins : list answer) (fate : nat → option Z) : res (option (bool * Server)) :=
  if bool_decide (paths = []) then Ok None
  else
    files ← open_files scan host 0 paths;
    match files with
    | None => Ok None
    | Some fs => r ← Serve fuel okay (new_Server fs ins fate); Ok (Some r)
    end.
