(* ===== verification/IncrementalClient.v ===== *)
(** * The client of an incremental installation

    Models adb/client/incremental.cpp: reading and checking the signatures, the command that starts
    the installation, the process of the server, and waiting for the result; and
    how the client and the server agree about the files.

    The files of the host are those of Incremental.v.  Base64 is a function of OpenSSL and an
    argument. *)

From S2P Require Import Prelude Strings Libadb Paths IncrementalUtils IncrementalSig Incremental.

(** [read_signature]: no descriptor, a descriptor and no valid signature, or both. *)
Inductive signature_read := NoSignature | Invalid | Valid (signature : bytes).

Definition read_signature (h : HostFile) : res signature_read :=
  match hf_signature h with
  | None => Ok NoSignature
  | Some (d, _) =>
      let '(signature, tree_size, _) := read_id_sig_headers (mkSigfd d 0) in
      if bool_decide (signature = []) then Ok Invalid
      else if kMaxSignatureSize <? llen signature then Ok Invalid
      else
        expected ← verity_tree_size_for_file (hf_size h);
        Ok (if tree_size =? expected then Valid signature else Invalid)
  end.

(** [EVP_EncodedLength] and [EVP_EncodeBlock]. *)
Class Base64 := { EncodedLength : Z → bool; EncodeBlock : bytes → bytes }.

Section client.
Context `{Base64}.

(** Whether there is a descriptor, and the signature in base64. *)
Definition read_and_encode_signature (h : HostFile) : res (bool * bytes) :=
  s ← read_signature h;
  Ok (match s with
      | NoSignature => (false, [])
      | Invalid => (true, [])
      | Valid signature => (true, if EncodedLength (llen signature) then EncodeBlock signature else [])
      end).

Definition file_desc (file : bytes) (size i : Z) (signature : bytes) : bytes :=
  Basename file ++ txt ":" ++ dec size ++ txt ":" ++ dec i ++ txt ":" ++ signature ++ txt ":1".

(** The loop of [start_install]; [None]: it gives up. *)
Fixpoint file_descs (host : bytes → option HostFile) (i : Z) (files : list bytes) : res (option (list bytes)) :=
  match files with
  | [] => Ok (Some [])
  | file :: files =>
      match host file with
      | None => Ok None
      | Some h =>
          '(fd, signature) ← read_and_encode_signature h;
          if fd && bool_decide (signature = []) then Ok None
          else
            rest ← file_descs host (i + 1) files;
            Ok (option_map (cons (file_desc file (hf_size h) i signature)) rest)
      end
  end.

(** The arguments of the command for the device. *)
Definition start_install (host : bytes → option HostFile) (files passthrough_args : list bytes) : res (option (list bytes)) :=
  descs ← file_descs host 0 files;
  Ok (option_map (λ d, [txt "package"; txt "install-incremental"] ++ passthrough_args ++ d) descs).

Fixpoint can_install (host : bytes → option HostFile) (files : list bytes) : res bool :=
  match files with
  | [] => Ok true
  | file :: files =>
      match host file with
      | None => Ok false
      | Some h =>
          if EndsWithIgnoreCase file (txt ".apk") then
            s ← read_signature h;
            match s with NoSignature => Ok false | _ => can_install host files end
          else can_install host files
      end
  end.

(** ** Waiting for the result *)

Inductive Result := Success | Failure | NoResult.

Definition maxMessageSize : Z := 256.
Definition failure_msg_head : bytes := txt "Failure [".

Definition failed (text : bytes) : bool :=
  match find text failure_msg_head 0 with
  | None => false
  | Some begin =>
      (maxMessageSize <=? llen text) ||
      match rfind text (txt "]") with Some e => (begin + length failure_msg_head <=? e)%nat | None => false end
  end.

(** What [read] returned each time; nothing is the end or an error. *)
Fixpoint wait_for_installation (text : bytes) (reads : list bytes) : Result :=
  match reads with
  | [] | [] :: _ => NoResult
  | d :: reads =>
      let text := text ++ d in
      if bool_decide (is_Some (find text (txt "Success") 0)) then Success
      else if failed text then Failure
      else wait_for_installation text reads
  end.

(** What becomes of the server's process. *)
Inductive install_end := NotStarted | Killed | Serving.

(** [install]: whether the command could be sent, the pair of sockets made and the process started, and what it wrote. *)
Definition install (host : bytes → option HostFile) (files passthrough_args : list bytes) (connected : list bytes → bool)
    (paired launched : bool) (reads : list bytes) : res install_end :=
  args ← start_install host files passthrough_args;
  match args with
  | None => Ok NotStarted
  | Some args =>
      if negb (connected args) then Ok NotStarted
      else if negb paired then Ok NotStarted
      else if negb launched then Ok NotStarted
      else match wait_for_installation [] reads with Success => Ok Serving | _ => Ok Killed end
  end.

(** ** The client and the server *)

Lemma read_int32_pos fd : 0 ≤ position fd →
  let '(v, fd') := read_int32 fd in
  content fd' = content fd ∧
  (v = -1 ∨ position fd' = position fd + 4 ∧ position fd + 4 ≤ llen (content fd)).
Proof.
  intros Hp. unfold read_int32, read_exactly. set (d := ltake 4 _). destruct (of_le32 d) as [z|] eqn:E; [|split; [done|by left]].
  destruct (Z.eqb_spec (llen d) 4) as [El|]; [|split; [done|by left]]. split; [done|]. right. cbn [position]. split; [lia|].
  subst d. unfold ltake, ldrop, llen in El. rewrite length_take, length_drop in El. unfold llen. lia.
Qed.

Lemma read_int32_end fd : 0 ≤ position fd → llen (content fd) ≤ position fd → (read_int32 fd).1 = -1.
Proof.
  intros Hp Hl. unfold read_int32, read_exactly. by rewrite (llen_ldrop_ge (position fd)) by done.
Qed.

(** A field is skipped as it is read, or there is nothing left behind it. *)
Lemma append_skip fd acc room acc' room' fd' : 0 ≤ position fd → append_bytes_with_size fd acc room = (Some (acc', room'), fd') →
  0 ≤ position fd' ∧ ((skip_bytes_with_size fd).2 = fd' ∨ (read_int32 fd').1 = -1).
Proof.
  intros Hp. unfold append_bytes_with_size, skip_bytes_with_size. pose proof (read_int32_pos fd Hp) as Hr.
  destruct (read_int32 fd) as [v fd1]. destruct Hr as [Hc Hr]. destruct (Z.ltb_spec v 0); [done|]. destruct Hr as [->|[Hp1 Hl]]; [lia|].
  destruct (room <? v); [done|]. assert (seek v fd1 = (position fd1 + v, mkSigfd (content fd1) (position fd1 + v))) as ->
    by (unfold seek; destruct (Z.ltb_spec (position fd1 + v) 0); [lia|done]).
  destruct (Z.eqb_spec v 0) as [->|].
  - intros [= <- <- <-]. split; [lia|]. left. cbn. rewrite Z.add_0_r. by destruct fd1.
  - unfold read_exactly. intros [= <- <- <-]. cbn [position snd]. set (d := ltake v _). pose proof (llen_nonneg d). split; [lia|].
    destruct (decide (llen d = v)) as [->|Hne]; [by left|]. right. apply read_int32_end; cbn; [lia|].
    subst d. unfold ltake, ldrop, llen in *. rewrite length_take, length_drop in *. lia.
Qed.

(** The server finds the size of the tree that the client found. *)
Lemma headers_agree d signature tree fd : read_id_sig_headers (mkSigfd d 0) = (signature, tree, fd) → signature ≠ [] → 0 ≤ tree →
  (skip_id_sig_headers (mkSigfd d 0)).2 = tree.
Proof.
  unfold read_id_sig_headers, append_int, skip_id_sig_headers. pose proof (read_int32_pos (mkSigfd d 0) ltac:(done)) as H1.
  destruct (read_int32 (mkSigfd d 0)) as [v fd0] eqn:E0. destruct H1 as [Hc0 H1]. cbn [content position] in *.
  assert (0 ≤ position fd0 ∧ (fd0 = skip_int (mkSigfd d 0) ∨ (read_int32 fd0).1 = -1)) as [Hp0 H0].
  { unfold read_int32, read_exactly in E0. cbn [content position] in E0. rewrite ldrop_0 in E0. pose proof (llen_nonneg (ltake 4 d)).
    assert (fd0 = mkSigfd d (0 + llen (ltake 4 d))) as -> by congruence. split; [cbn; lia|]. destruct (decide (llen (ltake 4 d) = 4)) as [->|Hne]; [by left|].
    right. apply read_int32_end; cbn; [lia|]. unfold ltake, llen in *. rewrite length_take in *. lia. }
  destruct (append_bytes_with_size fd0 ([] ++ le32 (u32 v)) (kMaxSignatureSize - 4)) as [[[a1 r1]|] fd1] eqn:E1; [|by intros [= <- _ _]].
  destruct (append_bytes_with_size fd1 a1 r1) as [[[a2 r2]|] fd2] eqn:E2; [|by intros [= <- _ _]].
  destruct (read_int32 fd2) as [t fd3] eqn:E3. intros [= <- <- <-] _ Ht.
  assert (∀ g a r x, (read_int32 g).1 = -1 → append_bytes_with_size g a r ≠ (Some x, fd1) ∧ append_bytes_with_size g a r ≠ (Some x, fd2)) as Hfail.
  { intros g a r x Hg. unfold append_bytes_with_size. destruct (read_int32 g) as [w g']. cbn in Hg. subst w. done. }
  destruct H0 as [H0|H0]; [|by apply (Hfail fd0 _ _ _) in E1]. subst fd0. destruct (append_skip _ _ _ _ _ _ Hp0 E1) as [Hp1 [H2|H2]]; [|by apply Hfail in E2].
  destruct (append_skip _ _ _ _ _ _ Hp1 E2) as [Hp2 [H3|H3]]; [|rewrite E3 in H3; cbn in H3; lia].
  destruct (skip_bytes_with_size (skip_int (mkSigfd d 0))) as [o1 g1]. cbn in H2. subst g1.
  destruct (skip_bytes_with_size fd1) as [o2 g2]. cbn in H3. subst g2. by rewrite E3.
Qed.

Lemma tree_size_nonneg n t : 0 ≤ n → verity_tree_size_for_file n = Ok t → 0 ≤ t.
Proof.
  intros Hn. unfold verity_tree_size_for_file. destruct (decide (n = 0)) as [->|]; [by intros [= <-]|].
  destruct (tree_blocks n) as (above & Ha & ->); [lia|]. cbn [mbind res_bind]. unfold kBlockSize. intros [= <-].
  destruct (n <=? 4096); [done|]. assert (0 ≤ ((n + 4095) / 4096 + 127) / 128) by (repeat (apply Z.div_pos || apply Z.add_nonneg_nonneg); lia). lia.
Qed.

(** A signature that the client accepts is accepted by the server. *)
Lemma open_accepts h signature : 0 ≤ hf_size h → read_signature h = Ok (Valid signature) →
  ∃ fd offset, open_signature h = Ok (Some (Some fd, offset)).
Proof.
  intros Hs. unfold read_signature, open_signature. destruct (hf_signature h) as [[d fd]|]; [|done].
  destruct (read_id_sig_headers (mkSigfd d 0)) as [[sg tree] fd'] eqn:E. case_bool_decide as Hsg; [done|].
  destruct (kMaxSignatureSize <? llen sg); [done|]. intros (expected & Ee & Hv)%bind_Ok_inv. destruct (Z.eqb_spec tree expected) as [->|]; [|done].
  pose proof (headers_agree _ _ _ _ E Hsg (tree_size_nonneg _ _ Hs Ee)) as Ht. destruct (skip_id_sig_headers (mkSigfd d 0)) as [off t]. cbn in Ht. subst t.
  rewrite Ee. cbn [mbind res_bind]. rewrite Z.eqb_refl. eauto.
Qed.

(** What the client passes on of a file, and what the server opens of it. *)
Lemma signatures_agree h fd sg : 0 ≤ hf_size h → read_and_encode_signature h = Ok (fd, sg) → fd && bool_decide (sg = []) = false →
  ∃ tree_fd offset, open_signature h = Ok (Some (tree_fd, offset)) ∧ (is_Some tree_fd ↔ sg ≠ []).
Proof.
  intros Hs. unfold read_and_encode_signature. intros (r & Er & E)%bind_Ok_inv Hfd. destruct r; cbn in E; simplify_eq.
  - unfold read_signature in Er. unfold open_signature. destruct (hf_signature h) as [[d g]|] eqn:Eh.
    + exfalso. clear Hfd. destruct (read_id_sig_headers _) as [[sg t] ?]. case_bool_decide; [done|]. destruct (kMaxSignatureSize <? llen sg); [done|]. apply bind_Ok_inv in Er as (? & _ & Er). by destruct (_ =? _).
    + exists None, 0. split; [done|]. split; [by intros [? ?]|done].
  - destruct (open_accepts h signature Hs Er) as (g & off & ->). exists (Some g), off. split; [done|].
    cbn [andb] in Hfd. apply bool_decide_eq_false_1 in Hfd. split; [done|eauto].
Qed.

Lemma file_descs_agree host scan files : (∀ p h, host p = Some h → 0 ≤ hf_size h) → ∀ i descs, 0 ≤ i → i + llen files ≤ 2 ^ 15 →
  file_descs host i files = Ok (Some descs) →
  open_files scan host i files ≠ Ok None ∧
  ∀ fs, open_files scan host i files = Ok (Some fs) → length fs = length files ∧
    ∀ k f, fs !! k = Some f → files !! k = Some (filepath f) ∧ id f = i + Z.of_nat k ∧
      ∃ sg, descs !! k = Some (file_desc (filepath f) (fsize f) (id f) sg) ∧ (hasTree f = true ↔ sg ≠ []).
Proof.
  intros Hs. induction files as [|p files IH]; intros i descs Hi0 Hi E; cbn [file_descs open_files] in *.
  { split; [done|]. intros fs [= <-]. split; [done|]. by intros k f ?. }
  destruct (host p) as [h|] eqn:Eh; [|done]. apply bind_Ok_inv in E as ([fd sg] & Er & E). destruct (fd && bool_decide (sg = [])) eqn:Efd; [done|].
  apply bind_Ok_inv in E as (rest & Erest & E). destruct rest as [rest|]; [|done]. cbn in E. simplify_eq.
  destruct (signatures_agree h fd sg (Hs p h Eh) Er Efd) as (tree_fd & off & -> & Htree). cbn [mbind res_bind].
  rewrite llen_cons in Hi. pose proof (llen_nonneg files). destruct (IH (i + 1) rest ltac:(lia) ltac:(lia) Erest) as [Hno Hyes].
  destruct (new_File scan p i (hf_size h) (hf_fd h) (hf_zip h) off tree_fd) as [f| | | |] eqn:Ef; try done. cbn [res_bind].
  destruct (open_files scan host (i + 1) files) as [[fs|]| | | |]; try done. cbn [res_bind option_map]. split; [done|]. intros fs' [= <-].
  destruct (Hyes fs eq_refl) as [Hl Hall]. split; [cbn; lia|]. intros [|k] g Hk; cbn in Hk.
  - simplify_eq. unfold new_File in Ef. apply bind_Ok_inv in Ef as (t & _ & Ef). destruct (_ || _); [done|]. apply bind_Ok_inv in Ef as (pr & _ & Ef). simplify_eq.
    cbn. rewrite s16_small by lia. split; [done|]. split; [lia|]. exists sg. split; [done|]. unfold hasTree. cbn. by rewrite bool_decide_eq_true.
  - destruct (Hall k g Hk) as (? & ? & sg' & ? & ?). split; [done|]. split; [lia|]. by exists sg'.
Qed.

(** C21. The client and the server agree about the files: when the client starts an
    installation of at most 2^15 files, the server does not refuse a file for its signature,
    and each file that it opens has the number, the name and the size under which the device
    was told of it; the device was given a signature exactly for the files of which the server
    sends the tree.  (The server keeps the number in 16 bits, so with more files it would not
    be the client's, see [file_number_wraps]; sizes are not negative.) *)
Theorem client_server_agree host scan files passthrough_args args :
  (∀ p h, host p = Some h → 0 ≤ hf_size h) → llen files ≤ 2 ^ 15 → start_install host files passthrough_args = Ok (Some args) →
  open_files scan host 0 files ≠ Ok None ∧
  ∀ fs, open_files scan host 0 files = Ok (Some fs) → length fs = length files ∧
    ∀ k f, fs !! k = Some f → files !! k = Some (filepath f) ∧ id f = Z.of_nat k ∧
      ∃ sg, args !! (2 + length passthrough_args + k)%nat = Some (file_desc (filepath f) (fsize f) (id f) sg) ∧
            (hasTree f = true ↔ sg ≠ []).
Proof.
  intros Hs Hfew. unfold start_install. intros (descs & Ed & E)%bind_Ok_inv. destruct descs as [descs|]; [|done]. cbn in E. simplify_eq.
  destruct (file_descs_agree host scan files Hs 0 descs ltac:(lia) ltac:(lia) Ed) as [Hno Hyes]. split; [done|]. intros fs Hfs. destruct (Hyes fs Hfs) as [Hl Hall].
  split; [done|]. intros k f Hk. destruct (Hall k f Hk) as (Hp & Hi & sg & Hsg & Ht). split; [done|]. split; [lia|]. exists sg. split; [|done].
  change (([txt "package"; txt "install-incremental"] ++ passthrough_args ++ descs) !! (2 + length passthrough_args + k)%nat = Some (file_desc (filepath f) (fsize f) (id f) sg)).
  rewrite lookup_app_r by (cbn; lia). rewrite lookup_app_r by (cbn; lia). rewrite <- Hsg. f_equal. cbn. lia.
Qed.

End client.

(** ** The result *)

Definition contains (s pat : bytes) : Prop := ∃ a b, s = a ++ pat ++ b.

Lemma starts_with_true s pat : starts_with s pat = true ↔ ∃ b, s = pat ++ b.
Proof.
  unfold starts_with. rewrite bool_decide_eq_true. split.
  - intros E. exists (drop (length pat) s). rewrite <- E at 1. by rewrite take_drop.
  - intros (b & ->). by rewrite take_app_length.
Qed.

Lemma find_contains s pat : is_Some (find s pat 0) ↔ contains s pat.
Proof.
  unfold find. pose proof (find_from_spec (S (length s)) s pat 0 ltac:(lia)) as Hf. destruct (find_from _ s pat 0) as [k|].
  - destruct Hf as (_ & Hk & (b & Hb)%starts_with_true & _). split; [|eauto]. intros _. exists (take k s), b. by rewrite <- Hb, take_drop.
  - split; [by intros [? ?]|]. intros (a & b & ->). exfalso. specialize (Hf (length a) ltac:(lia)). rewrite !length_app in Hf.
    specialize (Hf ltac:(lia)). rewrite drop_app_length in Hf. assert (starts_with (pat ++ b) pat = true) by (apply starts_with_true; eauto). congruence.
Qed.

Lemma contains_app s t pat : contains s pat → contains (s ++ t) pat.
Proof. intros (a & b & ->). exists a, (b ++ t). by rewrite <- !app_assoc. Qed.

Lemma rfind_after s c k : s !! k = Some c → ∃ e, rfind s [c] = Some e ∧ (k ≤ e)%nat.
Proof.
  intros Hk. pose proof (lookup_lt_Some _ _ _ Hk) as Hl. unfold rfind.
  assert (∀ n, (k ≤ n)%nat → ∃ e, rfind_upto s [c] n = Some e ∧ (k ≤ e)%nat) as Hn; [|apply Hn; lia].
  assert (starts_with (drop k s) [c] && bool_decide (k + length [c] ≤ length s)%nat = true) as Hs.
  { rewrite (drop_S _ _ _ Hk), bool_decide_eq_true_2 by (cbn; lia). rewrite andb_true_r. apply starts_with_true. by eexists. }
  induction n as [|n IH]; intros Hkn; cbn [rfind_upto].
  - assert (k = 0%nat) as -> by lia. rewrite Hs. eauto.
  - destruct (starts_with (drop (S n) s) [c] && _) eqn:E; [exists (S n); split; [done|lia]|]. apply IH.
    destruct (decide (k = S n)) as [->|]; [congruence|lia].
Qed.

Lemma failed_false s : ¬ contains s failure_msg_head → failed s = false.
Proof. intros Hn. unfold failed. destruct (find s failure_msg_head 0) eqn:E; [|done]. destruct Hn. apply find_contains. by rewrite E. Qed.

Lemma failed_true a m b : failed (a ++ failure_msg_head ++ m ++ txt "]" ++ b) = true.
Proof.
  set (s := a ++ _). unfold failed, find. pose proof (find_from_spec (S (length s)) s failure_msg_head 0 ltac:(lia)) as Hf.
  destruct (find_from _ s _ 0) as [k|].
  - destruct Hf as (_ & _ & _ & Hmin). destruct (rfind_after s x5d (length (a ++ failure_msg_head ++ m))) as (e & Ee & He).
    { subst s. rewrite !app_assoc, <- (app_assoc _ (txt "]")). rewrite lookup_app_r by done. by rewrite Nat.sub_diag. }
    change (txt "]") with [x5d]. rewrite Ee. apply orb_true_iff. right. apply Nat.leb_le. rewrite !length_app in He.
    assert (k ≤ length a)%nat; [|lia]. destruct (decide (k ≤ length a)%nat); [done|]. specialize (Hmin (length a) ltac:(lia)).
    subst s. rewrite drop_app_length in Hmin. assert (starts_with (failure_msg_head ++ m ++ txt "]" ++ b) failure_msg_head = true) by (apply starts_with_true; eauto). congruence.
  - exfalso. specialize (Hf (length a) ltac:(lia)). subst s. rewrite drop_app_length in Hf. rewrite !length_app in Hf. specialize (Hf ltac:(lia)).
    assert (starts_with (failure_msg_head ++ m ++ txt "]" ++ b) failure_msg_head = true) by (apply starts_with_true; eauto). congruence.
Qed.

(** The loop, for a text that is not decided yet. *)
Lemma wait_loop ds : ∀ text, Forall (λ d, d ≠ []) ds → ¬ contains text (txt "Success") → failed text = false →
  let all := text ++ concat ds in
  (contains all (txt "Success") → ¬ contains all failure_msg_head → wait_for_installation text ds = Success) ∧
  (¬ contains all (txt "Success") → failed all = true → wait_for_installation text ds = Failure) ∧
  (¬ contains all (txt "Success") → ¬ contains all failure_msg_head → wait_for_installation text ds = NoResult).
Proof.
  induction ds as [|d ds IH]; intros text Hds Hs Hf; cbn zeta; cbn [concat].
  { rewrite app_nil_r. split_and!; [done|congruence|done]. }
  apply Forall_cons_1 in Hds as [Hd Hds]. cbn [wait_for_installation]. destruct d as [|x d]; [done|]. set (dd := x :: d) in *. rewrite app_assoc.
  destruct (decide (is_Some (find (text ++ dd) (txt "Success") 0))) as [Hsucc|Hno].
  - rewrite bool_decide_eq_true_2 by done. apply find_contains in Hsucc. apply (contains_app _ (concat ds)) in Hsucc. tauto.
  - rewrite bool_decide_eq_false_2 by done. rewrite find_contains in Hno. destruct (failed (text ++ dd)) eqn:Ef.
    + split_and!; [|done|]; intros _ Hh; rewrite failed_false in Ef; try done; intros ?%(contains_app _ (concat ds)); done.
    + by apply IH.
Qed.

(** The result of an installation is read from the output of the server however it is cut into pieces: an output with
    Success in it and no failure is a success, one with no Success and a whole failure message is a
    failure, and one with neither is no result, which ends the server as a failure does. *)
Theorem installation_result ds : Forall (λ d, d ≠ []) ds →
  (contains (concat ds) (txt "Success") → ¬ contains (concat ds) failure_msg_head → wait_for_installation [] ds = Success) ∧
  (∀ a m b, concat ds = a ++ failure_msg_head ++ m ++ txt "]" ++ b → ¬ contains (concat ds) (txt "Success") → wait_for_installation [] ds = Failure) ∧
  (¬ contains (concat ds) (txt "Success") → ¬ contains (concat ds) failure_msg_head → wait_for_installation [] ds = NoResult).
Proof.
  intros Hds. destruct (wait_loop ds [] Hds) as (H1 & H2 & H3); [|done|].
  { intros (a & b & E). by destruct a. }
  cbn [app] in *. split_and!; [done| |done]. intros a m b E Hn. apply H2; [done|]. rewrite E. apply failed_true.
Qed.

Lemma installation_result_witness :
  wait_for_installation [] [txt "Fail"; txt "ure [INSTALL_FAILED"; txt "]"] = Failure.
Proof.
  apply (installation_result [txt "Fail"; txt "ure [INSTALL_FAILED"; txt "]"] ltac:(by repeat (constructor; [done|])))
    with (a := []) (m := txt "INSTALL_FAILED") (b := []).
  - done.
  - intros Hc. apply find_contains in Hc as [k Hk]. by vm_compute in Hk.
Defined.

(** A failure whose message mentions a name with Success in it is taken for a success, so that the server goes on and the
    client reports that the package was installed. *)
Theorem failure_read_as_success :
  wait_for_installation [] [txt "Failure [INSTALL_FAILED_UPDATE_INCOMPATIBLE: Package com.example.SuccessStory]"] = Success.
Proof. vm_compute. reflexivity. Qed.
