(* ===== verification/IncrementalInv.v ===== *)
(** * The server of an incremental installation: safety and what arrives

    What the server writes, read back as the device does, and the invariant of the server that
    every turn keeps. *)

From S2P Require Import Prelude Strings IncrementalUtils IncrementalSig Incremental.

(** ** Integers on the wire *)

Lemma num_blocks n : 0 ≤ n < 2 ^ 42 → numBytesToNumBlocks n = (n + 4095) / 4096.
Proof.
  intros Hn. unfold numBytesToNumBlocks, roundUpToBlockOffset, roundDownToBlockOffset. change kBlockSize with 4096.
  change (Z.lnot (4096 - 1)) with (Z.lnot (Z.ones 12)). rewrite <- Z.ldiff_land, Z.ldiff_ones_r by lia.
  rewrite Z.shiftl_mul_pow2, Z.shiftr_div_pow2 by lia. change (2 ^ 12) with 4096. replace (n + 4096 - 1) with (n + 4095) by lia.
  rewrite Z.quot_mul by lia. apply s32_small. Z.div_mod_to_equations. lia.
Qed.

Lemma of_be16 z : of_be (be16 z) = z mod 2 ^ 16.
Proof.
  unfold be16, of_be. cbn [foldl]. rewrite !bval_zbyte. unfold u8. rewrite !Z.shiftr_div_pow2 by lia.
  change (2 ^ 8) with 256. change (2 ^ 16) with 65536. Z.div_mod_to_equations. lia.
Qed.

Lemma of_be32 z : of_be (be32 z) = u32 z.
Proof.
  unfold be32, of_be, u32. cbn [foldl]. rewrite !bval_zbyte. unfold u8. rewrite !Z.shiftr_div_pow2 by lia.
  change (2 ^ 8) with 256. change (2 ^ 16) with 65536. change (2 ^ 24) with 16777216. change (2 ^ 32) with 4294967296.
  Z.div_mod_to_equations. lia.
Qed.

Lemma s16_be16 z : - 2 ^ 15 ≤ z < 2 ^ 15 → s16 (of_be (be16 z)) = z.
Proof. intros. rewrite of_be16. transitivity (s16 z); [unfold s16; by rewrite Zmod_mod|by apply s16_small]. Qed.

Lemma s32_be32 z : - 2 ^ 31 ≤ z < 2 ^ 31 → s32 (of_be (be32 z)) = z.
Proof. intros. rewrite of_be32. transitivity (s32 z); [unfold s32, u32; by rewrite Zmod_mod|by apply s32_small]. Qed.

(** ** Responses, as the device reads them *)

Record response := mkResp { head : ResponseHeader; payload : bytes }.
Definition resp_bytes (r : response) : bytes := header_bytes (head r) ++ payload r.
Definition stream (rs : list response) : bytes := concat (resp_bytes <$> rs).

Definition resp_ok (r : response) : Prop :=
  - 2 ^ 15 ≤ h_file_id (head r) < 2 ^ 15 ∧ 0 ≤ h_block_type (head r) < 2 ∧ 0 ≤ h_compression_type (head r) < 2 ∧
  0 ≤ h_block_idx (head r) < 2 ^ 31 ∧ h_block_size (head r) = llen (payload r) ∧ llen (payload r) ≤ kBlockSize.

Definition decode_header (b : bytes) : ResponseHeader :=
  mkHeader (s16 (of_be (ltake 2 b))) (of_be (ltake 1 (ldrop 2 b))) (of_be (ltake 1 (ldrop 3 b)))
    (s32 (of_be (ltake 4 (ldrop 4 b)))) (s16 (of_be (ltake 2 (ldrop 8 b)))).

Fixpoint parse_responses (fuel : nat) (b : bytes) : option (list response) :=
  match fuel with
  | O => None
  | S fuel =>
      if bool_decide (b = []) then Some []
      else if llen b <? 10 then None
      else
        let h := decode_header b in
        let n := h_block_size h in
        if (n <? 0) || (llen b <? 10 + n) then None
        else cons (mkResp h (ltake n (ldrop 10 b))) <$> parse_responses fuel (ldrop (10 + n) b)
  end.

Fixpoint parse_chunks (fuel : nat) (b : bytes) : option (list response) :=
  match fuel with
  | O => None
  | S fuel =>
      if bool_decide (b = []) then Some []
      else if llen b <? 4 then None
      else
        let n := s32 (of_be (ltake 4 b)) in
        if (n <? 0) || (llen b <? 4 + n) then None
        else
          rs ← parse_responses (S (Z.to_nat n)) (ltake n (ldrop 4 b));
          rest ← parse_chunks fuel (ldrop (4 + n) b);
          Some (rs ++ rest)
  end.

(** What the device makes of all the bytes it was sent. *)
Definition received (b : bytes) : option (list response) := parse_chunks (S (length b)) b.

Lemma decode_header_bytes r post : resp_ok r → decode_header (header_bytes (head r) ++ post) = head r.
Proof.
  intros (H1 & H2 & H3 & H4 & H5 & H6). destruct r as [[i t c k n] d]. cbn in *.
  assert (∀ z, 0 ≤ z < 2 → of_be [zbyte z] = z) as Hb.
  { intros z Hz. unfold of_be. cbn [foldl]. rewrite bval_zbyte. unfold u8. rewrite Z.mod_small by lia. lia. }
  unfold decode_header. change (mkHeader (s16 (of_be (be16 i))) (of_be [zbyte t]) (of_be [zbyte c]) (s32 (of_be (be32 k))) (s16 (of_be (be16 n))) = mkHeader i t c k n).
  pose proof (llen_nonneg d). unfold kBlockSize in H6. rewrite !s16_be16, s32_be32, !Hb by lia. done.
Qed.

Lemma llen_resp r : llen (resp_bytes r) = 10 + llen (payload r).
Proof. unfold resp_bytes. rewrite llen_app. done. Qed.

Lemma parse_responses_stream rs fuel : Forall resp_ok rs → (length (stream rs) < fuel)%nat →
  parse_responses fuel (stream rs) = Some rs.
Proof.
  intros Hok. revert fuel. induction Hok as [|r rs Hr _ IH]; intros fuel Hf; (destruct fuel as [|fuel]; [lia|]); [done|].
  cbn [parse_responses]. unfold stream in *. cbn [fmap list_fmap concat] in *. pose proof (llen_resp r) as Hl.
  pose proof (llen_nonneg (payload r)). set (rest := concat (resp_bytes <$> rs)) in *. rewrite length_app in Hf.
  rewrite bool_decide_eq_false_2 by (intros [E _]%app_nil; by rewrite E in Hl). pose proof (llen_nonneg rest).
  assert (decode_header (resp_bytes r ++ rest) = head r) as E
    by (unfold resp_bytes; rewrite <- app_assoc; by apply decode_header_bytes).
  rewrite E. assert (h_block_size (head r) = llen (payload r)) as -> by apply Hr. rewrite llen_app, Hl.
  destruct (Z.ltb_spec (10 + llen (payload r) + llen rest) 10); [lia|]. destruct (Z.ltb_spec (llen (payload r)) 0); [lia|].
  destruct (Z.ltb_spec (10 + llen (payload r) + llen rest) (10 + llen (payload r))); [lia|]. cbn [orb].
  rewrite (ldrop_pre (10 + llen (payload r))) by done. rewrite IH by (unfold llen in Hl; lia).
  unfold resp_bytes. rewrite <- app_assoc, ldrop_pre, ltake_pre by done. by destruct r.
Qed.

(** A chunk of whole responses. *)
Definition chunk (g : list response) : bytes := be32 (llen (stream g)) ++ stream g.

Lemma parse_chunks_run gs fuel : Forall (Forall resp_ok) gs → Forall (λ g, llen (stream g) < 2 ^ 31) gs →
  (length (concat (chunk <$> gs)) < fuel)%nat → parse_chunks fuel (concat (chunk <$> gs)) = Some (concat gs).
Proof.
  intros Hok Hl. revert fuel. induction gs as [|g gs IH]; intros fuel Hf; (destruct fuel as [|fuel]; [lia|]); [done|].
  apply Forall_cons_1 in Hok as [Hg Hok]. apply Forall_cons_1 in Hl as [Hgl Hl].
  cbn [parse_chunks fmap list_fmap concat] in *. rewrite length_app in Hf. set (rest := concat (chunk <$> gs)) in *.
  pose proof (llen_nonneg (stream g)). pose proof (llen_nonneg rest).
  assert (llen (chunk g) = 4 + llen (stream g)) as Hc by (unfold chunk; by rewrite llen_app).
  rewrite bool_decide_eq_false_2 by (intros [E _]%app_nil; rewrite E in Hc; unfold llen at 1 in Hc; cbn in Hc; lia).
  rewrite llen_app, Hc. destruct (Z.ltb_spec (4 + llen (stream g) + llen rest) 4); [lia|].
  assert (ltake 4 (chunk g ++ rest) = be32 (llen (stream g))) as -> by (unfold chunk; rewrite <- app_assoc; by apply ltake_pre).
  rewrite s32_be32 by lia. destruct (Z.ltb_spec (llen (stream g)) 0); [lia|].
  destruct (Z.ltb_spec (4 + llen (stream g) + llen rest) (4 + llen (stream g))); [lia|]. cbn [orb].
  rewrite (ldrop_pre (4 + llen (stream g))) by done.
  assert (ltake (llen (stream g)) (ldrop 4 (chunk g ++ rest)) = stream g) as ->
    by (unfold chunk; rewrite <- app_assoc, (ldrop_pre 4 (be32 _)) by done; by apply ltake_pre).
  rewrite parse_responses_stream by (done || (unfold llen; lia)). cbn [mbind option_bind].
  rewrite IH by (done || (unfold llen in Hc; lia)). done.
Qed.

(** ** What was written *)

(** The chunks written and the bytes pending are the responses [rs], whole, and there is room for another one. *)
Definition wrote (p : bytes) (c : list bytes) (rs : list response) : Prop :=
  Forall resp_ok rs ∧ sizeof_ChunkHeader + llen p ≤ kChunkFlushSize ∧
  ∃ gs last, rs = concat gs ++ last ∧ c = chunk <$> gs ∧ p = stream last ∧
    Forall (λ g, llen (stream g) < 2 ^ 31) gs.

Lemma stream_app a b : stream (a ++ b) = stream a ++ stream b.
Proof. unfold stream. by rewrite fmap_app, concat_app. Qed.

Lemma wrote_received c rs : wrote [] c rs → received (concat c) = Some rs.
Proof.
  intros (Hok & _ & gs & last & -> & -> & Hp & Hl). destruct last as [|r last].
  - rewrite app_nil_r in *. unfold received. rewrite parse_chunks_run; [done| |done|lia].
    clear Hl Hp. induction gs as [|g gs IH]; [constructor|]. cbn in Hok. apply Forall_app in Hok as []. constructor; auto.
  - unfold stream in Hp. by cbn in Hp.
Qed.

Lemma sv_run {A B} (m : SV A) (f : A → SV B) s a s' : m s = Ok (a, s') → (m ≫= f) s = f a s'.
Proof. unfold mbind, sv_bind. by intros ->. Qed.

Lemma sv_gets {A B} (g : Server → A) (f : A → SV B) s : (gets g ≫= f) s = f (g s) s.
Proof. done. Qed.

Lemma sv_modify {B} g (f : unit → SV B) s : (modify g ≫= f) s = f tt (g s).
Proof. done. Qed.

Lemma sv_ok {A B} (r : res A) (f : A → SV B) s a : r = Ok a → (lift r ≫= f) s = f a s.
Proof. by intros ->. Qed.

Ltac sv := repeat first
  [ rewrite sv_gets | rewrite sv_modify | rewrite (sv_run _ _ _ _ _ eq_refl) ].

(** The state after some blocks were sent: only the files, the reads, the buffer and the chunks change. *)
Definition upd (s : Server) (fs : list File) (n : nat) (p : bytes) (c : list bytes) : Server :=
  mkServer fs (buffer_ s) (prefetches_ s) p (servingComplete_ s) (prefetchedFiles s) (doneSent s) (answers s) n c (output s) (wire s).

Lemma Flush_run s rs : wrote (pendingBlocks_ s) (chunks s) rs →
  ∃ c, Flush s = Ok (tt, upd s (files_ s) (reads s) [] c) ∧ wrote [] c rs.
Proof.
  intros (Hok & Hr & gs & last & E & Hc & Hp & Hl). unfold Flush. sv. case_bool_decide as Hnil.
  - exists (chunks s). split; [unfold upd; rewrite <- Hnil; by destruct s|]. split; [done|]. split; [done|].
    exists gs, last. split_and!; congruence || done.
  - sv. eexists. split; [done|]. split; [done|]. split; [done|]. exists (gs ++ [last]), []. cbn.
    rewrite concat_app, fmap_app, Hc, Hp, E. cbn. rewrite !app_nil_r. split_and!; try done.
    apply Forall_app. split; [done|]. constructor; [|constructor]. rewrite <- Hp. unfold kChunkFlushSize, sizeof_ChunkHeader, kBlockSize in Hr. lia.
Qed.

Lemma Send_run s rs r flush : resp_ok r → wrote (pendingBlocks_ s) (chunks s) rs →
  ∃ p c, Send (resp_bytes r) flush s = Ok (tt, upd s (files_ s) (reads s) p c) ∧ wrote p c (rs ++ [r]) ∧ (flush = true → p = []).
Proof.
  intros Hr (Hok & Hroom & gs & last & E & Hc & Hp & Hl). unfold Send. sv. pose proof (llen_resp r) as El.
  assert (llen (payload r) ≤ kBlockSize) as Hb by apply Hr. rewrite llen_app. set (n := sizeof_ChunkHeader + _).
  assert (n ≤ kChunkFlushSize + 10 + kBlockSize) as Hn by (subst n; lia).
  destruct (Z.ltb_spec pending_room n) as [H1|_]; [unfold pending_room, kBlockSize in *; lia|]. sv.
  set (s' := set_pending _ s).
  assert (Forall resp_ok (rs ++ [r])) as Hok' by (apply Forall_app; split; [done|]; by constructor).
  assert (rs ++ [r] = concat gs ++ (last ++ [r])) as E' by (rewrite E; by rewrite <- app_assoc).
  assert (pendingBlocks_ s ++ resp_bytes r = stream (last ++ [r])) as Hp'
    by (rewrite stream_app, Hp; unfold stream at 3; cbn; by rewrite app_nil_r).
  assert (llen (stream (last ++ [r])) < 2 ^ 31) as Hsz.
  { rewrite <- Hp', llen_app. unfold n, kChunkFlushSize, kBlockSize, sizeof_ChunkHeader in *. lia. }
  destruct (flush || (kChunkFlushSize <? n)) eqn:Ef.
  - unfold Flush. sv. rewrite bool_decide_eq_false_2.
    2: { intros [_ En]%app_nil. rewrite En in El. unfold llen at 1 in El. cbn in El. pose proof (llen_nonneg (payload r)). lia. }
    sv. eexists _, _. split; [done|]. split; [|done]. split; [done|]. split; [done|]. exists (gs ++ [last ++ [r]]), [].
    rewrite concat_app, fmap_app, app_nil_r, E'. cbn [fmap list_fmap concat]. rewrite app_nil_r, <- Hc. split_and!; try done.
    + unfold s', chunk. cbn -[resp_bytes]. by rewrite Hp'.
    + apply Forall_app. split; [done|]. by constructor.
  - apply orb_false_iff in Ef as [-> Ef]. eexists _, _. split; [by destruct s|]. split; [|done]. split; [done|].
    apply Z.ltb_ge in Ef. split; [by rewrite llen_app|]. by exists gs, (last ++ [r]).
Qed.

(** ** Files *)

Definition nblocks (f : File) : Z := (fsize f + 4095) / 4096.

(** A file as [serve] opens it: the tables have the sizes of the file and of its tree, and [pread] gives no more than it is
    asked for.  A file of a single block has no signature: see [signed_single_block] for the
    other case. *)
Record file_ok (i : Z) (f : File) : Prop := {
  ok_id : id f = i;
  ok_size : 0 ≤ fsize f < 2 ^ 42;
  ok_blocks : llen (sentBlocks f) = nblocks f;
  ok_tree : verity_tree_blocks_for_file (fsize f) = Ok (llen (sentTreeBlocks f));
  ok_signed : hasTree f = true → fsize f = 0 ∨ kBlockSize < fsize f;
  ok_priority : Forall (Z.le 0) (priority_blocks_ f);
  ok_data : ∀ now off d, fd_ f now kBlockSize off = Some d → llen d ≤ kBlockSize;
  ok_hash : ∀ fd now off d, tree_fd_ f = Some fd → fd now kBlockSize off = Some d → llen d ≤ kBlockSize
}.

(** Every block of the tree can be read. *)
Definition tree_readable (f : File) : Prop :=
  hasTree f = true → ∀ now t, 0 ≤ t < llen (sentTreeBlocks f) → ∃ d, ReadTreeBlock f now t = Some d ∧ d ≠ [].

Definition leaf_of (f : File) (k : Z) : Z := leaf_offset f + Z.quot k kHashesPerBlock.

Lemma nblocks_bound i f : file_ok i f → 0 ≤ nblocks f < 2 ^ 31.
Proof. intros [_ H _ _ _ _ _ _]. unfold nblocks. Z.div_mod_to_equations. lia. Qed.

Lemma leaf_range i f k : file_ok i f → hasTree f = true → 0 ≤ k < nblocks f →
  0 ≤ leaf_offset f ≤ leaf_of f k ∧ leaf_of f k < llen (sentTreeBlocks f) < 2 ^ 31.
Proof.
  intros Hf Ht Hk. pose proof (nblocks_bound _ _ Hf) as Hn. destruct Hf as [_ Hs Hb Htree Hsig _ _ _]. apply Hsig in Ht.
  unfold kBlockSize in *. assert (4096 < fsize f) as Hsz by (destruct Ht as [E|?]; [unfold nblocks in Hk; rewrite E in Hk; change ((0 + 4095) / 4096) with 0 in Hk; lia|done]).
  destruct (tree_blocks (fsize f)) as (above & Ha & E); [lia|]. rewrite Htree in E. unfold kBlockSize in E. destruct (Z.leb_spec (fsize f) 4096); [lia|].
  injection E as E. unfold leaf_of, leaf_offset, leaf_count. rewrite num_blocks by lia. change kHashesPerBlock with 128. fold (nblocks f) in *.
  rewrite !Z.quot_div_nonneg by lia. replace (nblocks f + 128 - 1) with (nblocks f + 127) by lia. rewrite E.
  assert (above + (nblocks f + 127) / 128 < 2 ^ 31).
  { pose proof (tree_small (fsize f)) as Hts. rewrite Htree in Hts. specialize (Hts _ ltac:(lia) eq_refl). fold (nblocks f) in Hts. lia. }
  Z.div_mod_to_equations. lia.
Qed.

(** ** Hash blocks *)

Definition data_key (r : response) : option (Z * Z) :=
  if (h_block_type (head r) =? kTypeData) && (0 <=? h_file_id (head r)) then Some (h_file_id (head r), h_block_idx (head r)) else None.
Definition hash_key (r : response) : option (Z * Z) :=
  if h_block_type (head r) =? kTypeHash then Some (h_file_id (head r), h_block_idx (head r)) else None.
Definition data_keys (rs : list response) : list (Z * Z) := omap data_key rs.
Definition hash_keys (rs : list response) : list (Z * Z) := omap hash_key rs.

Lemma data_keys_app a b : data_keys (a ++ b) = data_keys a ++ data_keys b.
Proof. apply omap_app. Qed.
Lemma hash_keys_app a b : hash_keys (a ++ b) = hash_keys a ++ hash_keys b.
Proof. apply omap_app. Qed.

Definition hash_resp (i t : Z) (d : bytes) : response := mkResp (mkHeader i kTypeHash kCompressionNone t (llen d)) d.

(** A response with a block of the tree of a file. *)
Definition hash_of (i : Z) (f : File) (r : response) : Prop :=
  ∃ t d now, r = hash_resp i t d ∧ ReadTreeBlock f now t = Some d.

Lemma hashes_no_data i f rs : Forall (hash_of i f) rs → data_keys rs = [].
Proof. induction 1 as [|r rs (t & d & n & -> & _) _ IH]; [done|]. exact IH. Qed.

Definition with_tree (v : list bool) (f : File) : File :=
  mkFile (filepath f) (id f) (fsize f) (fd_ f) (priority_blocks_ f) (tree_fd_ f) (tree_offset_ f)
    (sentBlocks f) (sentBlocksCount f) v.

Lemma with_tree_same f : with_tree (sentTreeBlocks f) f = f.
Proof. by destruct f. Qed.

Lemma lget_lset_eq {A} i (x y : A) l : lget l i = Some y → lget (lset i x l) i = Some x.
Proof.
  intros E. pose proof (lget_Some_range _ _ _ E) as Hr. unfold llen in Hr. unfold lget, lset. rewrite bool_decide_eq_true_2 by lia.
  apply list_lookup_insert_eq. lia.
Qed.

Lemma lget_lset_ne {A} i j (x : A) l : 0 ≤ i → i ≠ j → lget (lset i x l) j = lget l j.
Proof. intros Hi Hj. unfold lget, lset. case_bool_decide; [|done]. apply list_lookup_insert_ne. lia. Qed.

Lemma lset_lset {A} i (x y : A) l : lset i x (lset i y l) = lset i x l.
Proof. apply list_insert_insert_eq. Qed.

Lemma lset_same {A} i (x : A) l : lget l i = Some x → lset i x l = l.
Proof. unfold lget, lset. case_bool_decide; [|done]. apply list_insert_id. Qed.

Lemma file_at_run s i f : lget (files_ s) i = Some f → file_at i s = Ok (f, s).
Proof. intros E. unfold file_at. sv. unfold lift. by rewrite E. Qed.

Lemma modify_file_run s i f g : lget (files_ s) i = Some f →
  modify_file i g s = Ok (tt, upd s (lset i (g f) (files_ s)) (reads s) (pendingBlocks_ s) (chunks s)).
Proof. intros E. unfold modify_file. rewrite (sv_run _ _ _ _ _ (file_at_run _ _ _ E)). done. Qed.

Lemma tree_read_small i f now t d : file_ok i f → ReadTreeBlock f now t = Some d → llen d ≤ kBlockSize.
Proof. intros [_ _ _ _ _ _ _ H]. unfold ReadTreeBlock. destruct (tree_fd_ f) eqn:E; [|done]. by apply H. Qed.

Lemma SendTreeBlock_run s rs i f k t : lget (files_ s) i = Some f → file_ok i f → llen (files_ s) < 2 ^ 15 →
  0 ≤ t < 2 ^ 31 → wrote (pendingBlocks_ s) (chunks s) rs →
  ∃ b n p c new, SendTreeBlock i k t s = Ok (b, upd s (files_ s) n p c) ∧ wrote p c (rs ++ new) ∧
    Forall (hash_of i f) new ∧
    if b then (i, t) ∈ hash_keys new else new = [] ∧ ∀ d, ReadTreeBlock f (reads s) t = Some d → d = [].
Proof.
  intros Hf Hok Hn Ht Hw. pose proof (lget_Some_range _ _ _ Hf) as Hi. unfold SendTreeBlock.
  rewrite (sv_run _ _ _ _ _ (file_at_run _ _ _ Hf)). unfold pread.
  rewrite (sv_run _ _ _ (ReadTreeBlock f (reads s) t) (tick s)) by done.
  destruct (ReadTreeBlock f (reads s) t) as [[|b d]|] eqn:E.
  - exists false, (S (reads s)), (pendingBlocks_ s), (chunks s), []. rewrite app_nil_r. split_and!; try done. naive_solver.
  - set (dd := b :: d) in *. pose proof (tree_read_small _ _ _ _ _ Hok E) as Hl. pose proof (llen_nonneg dd). unfold kBlockSize in Hl.
    rewrite s16_small by lia. change (header_bytes _ ++ dd) with (resp_bytes (hash_resp i t dd)).
    destruct (Send_run (tick s) rs (hash_resp i t dd) false) as (p & c & Hs & Hw' & _);
      [unfold resp_ok, kBlockSize; cbn; unfold kTypeHash, kCompressionNone; lia|done|].
    rewrite (sv_run _ _ _ _ _ Hs). exists true, (S (reads s)), p, c, [hash_resp i t dd]. split_and!; try done.
    + constructor; [|constructor]. by exists t, dd, (reads s).
    + by left.
  - exists false, (S (reads s)), (pendingBlocks_ s), (chunks s), []. rewrite app_nil_r. split_and!; done.
Qed.

(** What sending the blocks of the tree does to the table of a file. *)
Record tree_step (i : Z) (f : File) (v : list bool) (new : list response) : Prop := {
  ts_len : llen v = llen (sentTreeBlocks f);
  ts_keep : ∀ t, lget (sentTreeBlocks f) t = Some true → lget v t = Some true;
  ts_new : ∀ t, lget v t = Some true → lget (sentTreeBlocks f) t = Some true ∨ (i, t) ∈ hash_keys new;
  ts_hash : Forall (hash_of i f) new
}.

Lemma tree_step_refl i f : tree_step i f (sentTreeBlocks f) [].
Proof. split; auto. Qed.

Lemma tree_step_trans i f v new v' new' : tree_step i f v new → tree_step i (with_tree v f) v' new' → tree_step i f v' (new ++ new').
Proof.
  intros [A1 A2 A3 A4] [B1 B2 B3 B4]. cbn in *. split; [lia|naive_solver| |apply Forall_app; done].
  intros t [Hv|Hh]%B3; rewrite hash_keys_app, elem_of_app; [destruct (A3 _ Hv); auto|auto].
Qed.

Lemma tree_step_one i f t b new : lget (sentTreeBlocks f) t = Some b → Forall (hash_of i f) new → (i, t) ∈ hash_keys new →
  tree_step i f (lset t true (sentTreeBlocks f)) new.
Proof.
  intros E Hh Hk. pose proof (lget_Some_range _ _ _ E). split; [apply llen_lset| | |done]; intros u Hu; destruct (decide (t = u)) as [->|].
  - by eapply lget_lset_eq.
  - by rewrite lget_lset_ne by lia.
  - auto.
  - rewrite lget_lset_ne in Hu by lia. auto.
Qed.

Lemma file_ok_tree i f v : file_ok i f → llen v = llen (sentTreeBlocks f) → file_ok i (with_tree v f).
Proof. intros [] E. split; try done. cbn. by rewrite E. Qed.

Lemma upd_upd s a n p c a' n' p' c' : upd (upd s a n p c) a' n' p' c' = upd s a' n' p' c'.
Proof. done. Qed.

Lemma send_nodes_run nodes : ∀ s rs i f k, lget (files_ s) i = Some f → file_ok i f → llen (files_ s) < 2 ^ 15 →
  Forall (λ t, 0 ≤ t < llen (sentTreeBlocks f) ∧ t < 2 ^ 31) nodes → wrote (pendingBlocks_ s) (chunks s) rs →
  ∃ b v n p c new, send_nodes i k nodes s = Ok (b, upd s (lset i (with_tree v f) (files_ s)) n p c) ∧ wrote p c (rs ++ new) ∧
    tree_step i f v new ∧ (b = true → ∀ t, t ∈ nodes → lget v t = Some true) ∧ (hasTree f = true → tree_readable f → b = true).
Proof.
  induction nodes as [|t nodes IH]; intros s rs i f k Hf Hok Hn Hts Hw.
  { exists true, (sentTreeBlocks f), (reads s), (pendingBlocks_ s), (chunks s), []. rewrite with_tree_same, lset_same, app_nil_r by done.
    split_and!; try done; [by destruct s|apply tree_step_refl|by intros _ t ?%elem_of_nil]. }
  apply Forall_cons_1 in Hts as [[Ht Htb] Hts]. cbn [send_nodes].
  destruct (SendTreeBlock_run s rs i f k t) as (b & n & p & c & new & Hs & Hw' & Hh & Hb); [done..|lia|done|].
  rewrite (sv_run _ _ _ _ _ Hs). destruct b; cbn [negb].
  2: { destruct Hb as [-> Hb]. exists false, (sentTreeBlocks f), n, p, c, []. rewrite with_tree_same, lset_same by done.
       split_and!; try done; [apply tree_step_refl|]. intros Htree Hr. destruct (Hr Htree (reads s) t Ht) as (d & Hd & Hne). by apply Hb in Hd. }
  rewrite (sv_run _ _ _ _ _ (file_at_run (upd s (files_ s) n p c) i f Hf)).
  destruct (lget_is_Some (sentTreeBlocks f) t Ht) as (x & Hx). rewrite (sv_ok _ _ _ x) by (by rewrite Hx).
  rewrite (sv_run _ _ _ _ _ (modify_file_run (upd s (files_ s) n p c) i f _ Hf)). cbn [files_ upd reads pendingBlocks_ chunks].
  rewrite upd_upd. set (v := lset t true (sentTreeBlocks f)). change (set_tree_sent t f) with (with_tree v f).
  assert (tree_step i f v new) as Hst by by eapply tree_step_one.
  destruct (IH (upd s (lset i (with_tree v f) (files_ s)) n p c) (rs ++ new) i (with_tree v f) k) as (b & v' & n' & p' & c' & new' & -> & Hw2 & Hst2 & Hall & Hr).
  - by eapply lget_lset_eq.
  - apply file_ok_tree; [done|apply Hst].
  - cbn. by rewrite llen_lset.
  - cbn. by rewrite (ts_len _ _ _ _ Hst).
  - done.
  - cbn [files_ upd] in *. rewrite lset_lset, upd_upd. exists b, v', n', p', c', (new ++ new'). rewrite app_assoc. split_and!; try done.
    + by eapply tree_step_trans.
    + intros -> u [->|Hu]%elem_of_cons; [|by apply Hall]. apply (ts_keep _ _ _ _ Hst2). cbn. by eapply lget_lset_eq.
    + intros Htree Hr'. apply Hr; [done|]. intros _ now u Hu. cbn in Hu. rewrite (ts_len _ _ _ _ Hst) in Hu. by apply Hr'.
Qed.

(** The tree in the table of a file: when something of it was sent, all above the leaves was. *)
Definition tree_inv (i : Z) (f : File) (rs : list response) : Prop :=
  (∀ t, lget (sentTreeBlocks f) t = Some true → (i, t) ∈ hash_keys rs) ∧
  ((∃ t, lget (sentTreeBlocks f) t = Some true) → ∀ t, 0 ≤ t < leaf_offset f → lget (sentTreeBlocks f) t = Some true).

(** The blocks of the tree that the device needs to check block [k]. *)
Definition needed (f : File) (k t : Z) : Prop := t = leaf_of f k ∨ 0 ≤ t < leaf_offset f.

Lemma leaf_offset_tree f v : llen v = llen (sentTreeBlocks f) → leaf_offset (with_tree v f) = leaf_offset f.
Proof. unfold leaf_offset, leaf_count. cbn. by intros ->. Qed.

Lemma tree_inv_intro i f v rs new k : tree_inv i f rs → tree_step i f v new →
  (∀ t, needed f k t → lget v t = Some true) →
  tree_inv i (with_tree v f) (rs ++ new) ∧ ∀ t, needed f k t → (i, t) ∈ hash_keys (rs ++ new).
Proof.
  intros [H1 H2] Hst Hall. assert (∀ t, lget v t = Some true → (i, t) ∈ hash_keys (rs ++ new)) as Hin.
  { intros t [?%H1|]%(ts_new _ _ _ _ Hst); rewrite hash_keys_app, elem_of_app; auto. }
  split; [|auto]. split; [done|]. intros _ t. rewrite leaf_offset_tree by apply Hst. intros Ht. apply Hall. by right.
Qed.

(** The outcome of sending what block [k] needs of the tree. *)
Definition tree_sent (i : Z) (f : File) (k : Z) (rs : list response) (b : bool) (v : list bool) (new : list response) : Prop :=
  tree_step i f v new ∧
  (tree_readable f → tree_inv i f rs → b = true ∧ tree_inv i (with_tree v f) (rs ++ new) ∧
     (hasTree f = true → ∀ t, needed f k t → (i, t) ∈ hash_keys (rs ++ new))).

Lemma tree_sent_all i f k rs v new : tree_step i f v new → (tree_inv i f rs → ∀ t, needed f k t → lget v t = Some true) →
  tree_sent i f k rs true v new.
Proof. intros Hst Hall. split; [done|]. intros _ Hi. split; [done|]. destruct (tree_inv_intro i f v rs new k Hi Hst (Hall Hi)). auto. Qed.

(** After the leaf: the blocks above the leaves, unless the first of them was sent. *)
Lemma tree_above_run s rs i f v new k : lget (files_ s) i = Some (with_tree v f) → file_ok i f → llen (files_ s) < 2 ^ 15 →
  hasTree f = true → 0 < leaf_offset f < llen (sentTreeBlocks f) → llen (sentTreeBlocks f) < 2 ^ 31 → leaf_offset f ≤ leaf_of f k →
  lget v (leaf_of f k) = Some true → tree_step i f v new → (∀ t, t ≠ leaf_of f k → lget v t = lget (sentTreeBlocks f) t) →
  wrote (pendingBlocks_ s) (chunks s) (rs ++ new) →
  ∃ b v' n p c new', (g ← file_at i; root ← lift (deref (lget (sentTreeBlocks g) 0));
      if (root : bool) then mret true else send_nodes i k (seqZ 0 (leaf_offset f))) s =
        Ok (b, upd s (lset i (with_tree v' f) (files_ s)) n p c) ∧ wrote p c (rs ++ new') ∧ tree_sent i f k rs b v' new'.
Proof.
  intros Hf Hok Hn Htree Ho Hb Hlo Hleaf Hst Hsame Hw. rewrite (sv_run _ _ _ _ _ (file_at_run s i _ Hf)). cbn [sentTreeBlocks with_tree].
  destruct (lget_is_Some v 0) as (root & Hroot); [rewrite (ts_len _ _ _ _ Hst); lia|]. rewrite (sv_ok _ _ _ root) by (by rewrite Hroot).
  destruct root.
  { exists true, v, (reads s), (pendingBlocks_ s), (chunks s), new. rewrite lset_same by done. split_and!; [by destruct s|done|].
    apply tree_sent_all; [done|]. intros Hi t [->|Ht]; [done|]. apply (ts_keep _ _ _ _ Hst), Hi; [|done]. exists 0. by rewrite <- Hsame by lia. }
  destruct (send_nodes_run (seqZ 0 (leaf_offset f)) s (rs ++ new) i (with_tree v f) k) as (b & v' & n' & p' & c' & new' & -> & Hw2 & Hst2 & Hall & Hr).
  - done.
  - apply file_ok_tree; [done|apply Hst].
  - done.
  - apply Forall_forall. intros t Ht%elem_of_seqZ. cbn. rewrite (ts_len _ _ _ _ Hst). lia.
  - done.
  - exists b, v', n', p', c', (new ++ new'). rewrite app_assoc. split_and!; try done.
    split; [by eapply tree_step_trans|]. intros Hread Hi. assert (b = true) as ->.
    { apply Hr; [done|]. intros _ now u Hu. cbn in Hu. rewrite (ts_len _ _ _ _ Hst) in Hu. by apply Hread. }
    eapply tree_sent_all; [by eapply tree_step_trans| |done|done].
    intros _ t [->|Ht]; [by apply (ts_keep _ _ _ _ Hst2)|]. apply Hall; [done|]. apply elem_of_seqZ. lia.
Qed.

Lemma tree_blocks_run s rs i f k : lget (files_ s) i = Some f → file_ok i f → llen (files_ s) < 2 ^ 15 →
  0 ≤ k < nblocks f → wrote (pendingBlocks_ s) (chunks s) rs →
  ∃ b v n p c new, SendTreeBlocksForDataBlock i k s = Ok (b, upd s (lset i (with_tree v f) (files_ s)) n p c) ∧
    wrote p c (rs ++ new) ∧ tree_sent i f k rs b v new.
Proof.
  intros Hf Hok Hn Hk Hw. unfold SendTreeBlocksForDataBlock. rewrite (sv_run _ _ _ _ _ (file_at_run _ _ _ Hf)).
  assert (upd s (lset i (with_tree (sentTreeBlocks f) f) (files_ s)) (reads s) (pendingBlocks_ s) (chunks s) = s) as Es
    by (rewrite with_tree_same, lset_same by done; by destruct s).
  destruct (hasTree f) eqn:Htree; cbn [negb].
  2: { exists true, (sentTreeBlocks f), (reads s), (pendingBlocks_ s), (chunks s), []. rewrite Es, app_nil_r.
       split_and!; [done..|]. split; [apply tree_step_refl|]. rewrite with_tree_same, app_nil_r. intros _ Hi. split_and!; [done..|congruence]. }
  pose proof (leaf_range _ _ _ Hok Htree Hk) as (Ho & Hl). fold (leaf_of f k).
  destruct (lget_is_Some (sentTreeBlocks f) (leaf_of f k)) as (x & Hx); [lia|]. rewrite (sv_ok _ _ _ x) by (by rewrite Hx).
  destruct x.
  { exists true, (sentTreeBlocks f), (reads s), (pendingBlocks_ s), (chunks s), []. rewrite Es, app_nil_r. split_and!; [done..|].
    apply tree_sent_all; [apply tree_step_refl|]. intros Hi t [->|Ht]; [done|]. apply Hi; [by eexists|done]. }
  destruct (SendTreeBlock_run s rs i f k (leaf_of f k)) as (b & n & p & c & new & Hs & Hw' & Hh & Hb); [done..|lia|done|].
  rewrite (sv_run _ _ _ _ _ Hs). destruct b; cbn [negb].
  2: { destruct Hb as [-> Hb]. exists false, (sentTreeBlocks f), n, p, c, []. rewrite with_tree_same, lset_same by done.
       split_and!; [done..|]. split; [apply tree_step_refl|]. intros Hr. destruct (Hr Htree (reads s) (leaf_of f k)) as (d & Hd & Hne); [lia|]. by apply Hb in Hd. }
  rewrite (sv_run _ _ _ _ _ (modify_file_run (upd s (files_ s) n p c) i f _ Hf)). cbn [files_ upd reads pendingBlocks_ chunks].
  rewrite upd_upd. set (v := lset (leaf_of f k) true (sentTreeBlocks f)). change (set_tree_sent (leaf_of f k) f) with (with_tree v f).
  assert (tree_step i f v new) as Hst by by eapply tree_step_one.
  assert (lget v (leaf_of f k) = Some true) as Hleaf by by eapply lget_lset_eq.
  destruct (Z.eqb_spec (leaf_offset f) 0) as [E0|].
  { exists true, v, n, p, c, new. split_and!; [done..|]. apply tree_sent_all; [done|]. intros _ t [->|]; [done|lia]. }
  set (s1 := upd s (lset i (with_tree v f) (files_ s)) n p c).
  assert (lget (files_ s1) i = Some (with_tree v f)) as Hf1 by by eapply lget_lset_eq.
  destruct (tree_above_run s1 rs i f v new k) as (b & v' & n' & p' & c' & new' & E & Hw2 & Hts); try done; [cbn; by rewrite llen_lset|lia..| |].
  - intros t Ht. apply lget_lset_ne; [lia|done].
  - exists b, v', n', p', c', new'. split_and!; [|done..]. cbn [files_ upd s1] in E. rewrite lset_lset in E. exact E.
Qed.

(** ** Data blocks *)

(** What the server relies on of LZ4: the room given is enough, and the device gets back what was
    compressed. *)
Class LZ4Laws `{LZ4} := {
  LZ4_decompress : bytes → option bytes;
  lz4_bound d : llen d ≤ kBlockSize → llen (LZ4_compress d) ≤ kBlockSize + 32;
  lz4_roundtrip d : LZ4_compress d ≠ [] → LZ4_decompress (LZ4_compress d) = Some d
}.

Section server.
Context `{!LZ4} `{!LZ4Laws}.

Definition data_resp (i k : Z) (raw : bytes) : response :=
  let z := LZ4_compress raw in
  if (0 <? llen z) && (llen z <? kCompressedSizeMax) then mkResp (mkHeader i kTypeData kCompressionLZ4 k (llen z)) z
  else mkResp (mkHeader i kTypeData kCompressionNone k (llen raw)) raw.

(** What the device takes a response for. *)
Definition block_data (r : response) : option bytes :=
  if h_compression_type (head r) =? kCompressionLZ4 then LZ4_decompress (payload r) else Some (payload r).

Lemma data_resp_data i k raw : block_data (data_resp i k raw) = Some raw.
Proof.
  unfold data_resp, block_data. destruct (Z.ltb_spec 0 (llen (LZ4_compress raw))) as [Hz|]; [|done]. cbn [andb].
  destruct (_ <? kCompressedSizeMax); [|done]. apply lz4_roundtrip. intros E. by rewrite E in Hz.
Qed.

Lemma data_resp_key i k raw : 0 ≤ i → data_key (data_resp i k raw) = Some (i, k).
Proof.
  intros Hi. unfold data_resp, data_key. destruct ((0 <? llen (LZ4_compress raw)) && _); cbn; (destruct (Z.leb_spec 0 i); [done|lia]).
Qed.

Lemma data_resp_hash i k raw : hash_key (data_resp i k raw) = None.
Proof. unfold data_resp, hash_key. by destruct ((0 <? llen (LZ4_compress raw)) && _). Qed.

Lemma data_response_bytes i k raw : llen raw ≤ kBlockSize → data_response i k raw = resp_bytes (data_resp i k raw).
Proof.
  intros Hr. pose proof (lz4_bound _ Hr) as Hz. unfold kBlockSize in *. pose proof (llen_nonneg raw). pose proof (llen_nonneg (LZ4_compress raw)).
  unfold data_response, data_resp. rewrite !s16_small by lia. destruct (_ && _); [|done]. by rewrite ltake_ge by lia.
Qed.

Lemma data_resp_ok i k raw : 0 ≤ i < 2 ^ 15 → 0 ≤ k < 2 ^ 31 → llen raw ≤ kBlockSize → resp_ok (data_resp i k raw).
Proof.
  intros Hi Hk Hr. unfold data_resp, resp_ok, kBlockSize, kCompressedSizeMax in *.
  destruct (Z.ltb_spec (llen (LZ4_compress raw)) 3891); (destruct (Z.ltb_spec 0 (llen (LZ4_compress raw))); cbn;
    unfold kTypeData, kCompressionLZ4, kCompressionNone; lia).
Qed.

(** The outcomes of [SendDataBlock] for block [k] of file [i]. *)
Inductive outcome (i k : Z) (f : File) (rs : list response) : SendResult → File → list response → Prop :=
  | out_skipped : nblocks f ≤ k ∨ lget (sentBlocks f) k = Some true → outcome i k f rs Skipped f []
  | out_error v new : lget (sentBlocks f) k = Some false → tree_step i f v new →
      (tree_readable f → tree_inv i f rs → tree_inv i (with_tree v f) (rs ++ new) ∧ ∃ now, ReadDataBlock f now k = None) →
      outcome i k f rs SendError (with_tree v f) new
  | out_sent v new raw now : lget (sentBlocks f) k = Some false → tree_step i f v new → ReadDataBlock f now k = Some raw →
      (tree_readable f → tree_inv i f rs → tree_inv i (with_tree v f) (rs ++ new) ∧
         (hasTree f = true → ∀ t, needed f k t → (i, t) ∈ hash_keys (rs ++ new))) →
      outcome i k f rs Sent (set_sent k (with_tree v f)) (new ++ [data_resp i k raw]).

Lemma SendDataBlock_run s rs i f k flush : lget (files_ s) i = Some f → file_ok i f → llen (files_ s) < 2 ^ 15 → 0 ≤ k →
  wrote (pendingBlocks_ s) (chunks s) rs →
  ∃ r f' n p c new, SendDataBlock i k flush s = Ok (r, upd s (lset i f' (files_ s)) n p c) ∧ wrote p c (rs ++ new) ∧
    outcome i k f rs r f' new ∧ (r = Skipped → n = reads s ∧ p = pendingBlocks_ s ∧ c = chunks s) ∧ (r = Sent → flush = true → p = []).
Proof.
  intros Hf Hok Hn Hk Hw. pose proof (lget_Some_range _ _ _ Hf) as Hi. unfold SendDataBlock.
  rewrite (sv_run _ _ _ _ _ (file_at_run _ _ _ Hf)). pose proof (ok_blocks _ _ Hok) as Hb. pose proof (nblocks_bound _ _ Hok).
  assert (∀ b, outcome i k f rs Skipped f [] → ∃ r f' n p c new,
    (mret Skipped : SV SendResult) s = Ok (r, upd s (lset i f' (files_ s)) n p c) ∧ wrote p c (rs ++ new) ∧
    outcome i k f rs r f' new ∧ (r = Skipped → n = reads s ∧ p = pendingBlocks_ s ∧ c = chunks s) ∧ (r = Sent → b = true → p = [])) as Hskip.
  { intros b Ho. exists Skipped, f, (reads s), (pendingBlocks_ s), (chunks s), []. rewrite lset_same, app_nil_r by done. by destruct s. }
  destruct (Z.leb_spec (llen (sentBlocks f)) k); [apply Hskip; constructor; lia|].
  destruct (lget_is_Some (sentBlocks f) k) as (x & Hx); [lia|]. rewrite (sv_ok _ _ _ x) by (by rewrite Hx).
  destruct x; [apply Hskip; constructor; auto|]. clear Hskip.
  destruct (tree_blocks_run s rs i f k) as (b & v & n & p & c & new & Hs & Hw' & (Hst & Hinv)); [done..|lia|done|].
  rewrite (sv_run _ _ _ _ _ Hs). destruct b; cbn [negb].
  2: { exists SendError, (with_tree v f), n, p, c, new. split_and!; try done. constructor; try done. intros Hr Hi'. by destruct (Hinv Hr Hi') as [? _]. }
  set (s1 := upd s (lset i (with_tree v f) (files_ s)) n p c). unfold pread.
  rewrite (sv_run _ _ s1 (ReadDataBlock f n k) (tick s1)) by done. destruct (ReadDataBlock f n k) as [raw|] eqn:E.
  2: { exists SendError, (with_tree v f), (S n), p, c, new. split_and!; try done. constructor; try done. intros Hr Hi'.
       destruct (Hinv Hr Hi') as (_ & ? & _). split; [done|]. by exists n. }
  assert (llen raw ≤ kBlockSize) as Hraw by by eapply (ok_data _ _ Hok).
  assert (lget (files_ (tick s1)) i = Some (with_tree v f)) as Hf1 by by eapply lget_lset_eq.
  rewrite (sv_run _ _ _ _ _ (modify_file_run (tick s1) i _ _ Hf1)). cbn [files_ tick s1 upd reads pendingBlocks_ chunks]. rewrite lset_lset.
  rewrite data_response_bytes by done.
  destruct (Send_run (upd (tick s1) (lset i (set_sent k (with_tree v f)) (files_ s)) (S n) p c) (rs ++ new) (data_resp i k raw) flush)
    as (p' & c' & Hs' & Hw2 & Hfl); [apply data_resp_ok; done || lia|done|].
  rewrite (sv_run _ _ _ _ _ Hs'). exists Sent, (set_sent k (with_tree v f)), (S n), p', c', (new ++ [data_resp i k raw]).
  rewrite app_assoc. split_and!; try done. econstructor; try done. intros Hr Hi'. by destruct (Hinv Hr Hi') as (_ & ? & ?).
Qed.

End server.
