(* ===== verification/IncrementalServe.v ===== *)
(** * The server of an incremental installation: every turn

    The invariant of the server over all turns, that no turn goes wrong but for one kind of request, and
    that the device has every file when it is told so. *)

From S2P Require Import Prelude Strings IncrementalUtils IncrementalSig Incremental IncrementalInv.

(** ** Counting *)

Definition count_true (l : list bool) : Z := foldr (λ b n, (if b : bool then 1 else 0) + n) 0 l.

Lemma count_true_cons b l : count_true (b :: l) = (if b then 1 else 0) + count_true l.
Proof. done. Qed.

Lemma count_true_bound l : 0 ≤ count_true l ≤ llen l.
Proof. induction l as [|[] l IH]; rewrite ?count_true_cons, ?llen_cons; [done|lia..]. Qed.

Lemma count_true_set l k : lget l k = Some false → count_true (lset k true l) = count_true l + 1.
Proof.
  unfold lget, lset. case_bool_decide; [|done]. generalize (Z.to_nat k) as n. clear. induction l as [|b l IH]; intros [|n] E; try done.
  - cbn in E. simplify_eq. cbn [insert list_insert]. rewrite !count_true_cons. lia.
  - cbn in E. cbn [insert list_insert]. rewrite !count_true_cons. change (list_insert n true l) with (<[n:=true]> l). rewrite IH by done. lia.
Qed.

Lemma count_true_all l : count_true l = llen l ↔ ∀ k, 0 ≤ k < llen l → lget l k = Some true.
Proof.
  split.
  - induction l as [|b l IH]; intros Hc k Hk; [unfold llen in Hk; cbn in Hk; lia|]. rewrite llen_cons in Hc, Hk. rewrite count_true_cons in Hc. pose proof (count_true_bound l).
    destruct b; [|lia]. unfold lget. rewrite bool_decide_eq_true_2 by lia. destruct (decide (k = 0)) as [->|]; [done|].
    specialize (IH ltac:(lia) (k - 1) ltac:(lia)). unfold lget in IH. rewrite bool_decide_eq_true_2 in IH by lia.
    replace (Z.to_nat k) with (S (Z.to_nat (k - 1))) by lia. done.
  - induction l as [|b l IH]; intros Hall; [done|]. rewrite llen_cons in Hall |- *. pose proof (llen_nonneg l).
    pose proof (Hall 0 ltac:(lia)) as H0. change (Some b = Some true) in H0. simplify_eq. rewrite count_true_cons, IH; [lia|].
    intros k Hk. specialize (Hall (k + 1) ltac:(lia)). unfold lget in *. rewrite bool_decide_eq_true_2 in * by lia.
    by replace (Z.to_nat (k + 1)) with (S (Z.to_nat k)) in Hall by lia.
Qed.

(** ** The invariant *)

(** A file as it was opened. *)
Definition reset (f : File) : File :=
  mkFile (filepath f) (id f) (fsize f) (fd_ f) (priority_blocks_ f) (tree_fd_ f) (tree_offset_ f)
    (replicate (length (sentBlocks f)) false) 0 (replicate (length (sentTreeBlocks f)) false).

Definition complete (f : File) : Prop := sentBlocksCount f = llen (sentBlocks f).

Definition done_resp : response := mkResp (mkHeader (-1) 0 0 0 0) [].

Section server.
Context `{!LZ4} `{!LZ4Laws}.

(** The table of file [i] is right about the responses [rs]. *)
Record file_inv (rs : list response) (i : Z) (f : File) : Prop := {
  fi_ok : file_ok i f;
  fi_count : sentBlocksCount f = count_true (sentBlocks f);
  fi_sent k : lget (sentBlocks f) k = Some true ↔ (i, k) ∈ data_keys rs
}.

(** Every data block in [rs] is a block of its file. *)
Definition served (fs : list File) (r : response) : Prop :=
  ∀ i k, data_key r = Some (i, k) → ∃ f now raw, lget fs i = Some f ∧ ReadDataBlock f now k = Some raw ∧ r = data_resp i k raw.

(** Every data block comes after the blocks of the tree that are needed to check it. *)
Definition hashes_first (fs : list File) (rs : list response) : Prop :=
  ∀ pre r post i k f t, rs = pre ++ r :: post → data_key r = Some (i, k) → lget fs i = Some f → hasTree f = true →
    needed f k t → (i, t) ∈ hash_keys pre.

Definition trees_readable (fs : list File) : Prop := ∀ f, f ∈ fs → tree_readable f.

(** The tables of the files [fl], which were opened as [fs], after the responses [rs]. *)
Record core (fs fl : list File) (rs : list response) : Prop := {
  co_few : llen fs < 2 ^ 15;
  co_reset : reset <$> fl = fs;
  co_file i f : lget fl i = Some f → file_inv rs i f;
  co_once : NoDup (data_keys rs);
  co_served : Forall (served fs) rs;
  co_hashes : trees_readable fs → (∀ i f, lget fl i = Some f → tree_inv i f rs) ∧ hashes_first fs rs
}.

Record inv (fs : list File) (s : Server) (rs : list response) : Prop := {
  inv_out : wrote (pendingBlocks_ s) (chunks s) rs;
  inv_core : core fs (files_ s) rs;
  inv_done : doneSent s = true → pendingBlocks_ s = [] ∧ done_resp ∈ rs ∧ ∀ f, f ∈ files_ s → complete f
}.

Lemma lget_fmap {A B} (g : A → B) l i : lget (g <$> l) i = g <$> lget l i.
Proof. unfold lget. case_bool_decide; [|done]. apply list_lookup_fmap. Qed.

Lemma lget_elem {A} (l : list A) i x : lget l i = Some x → x ∈ l.
Proof. unfold lget. case_bool_decide; [|done]. apply list_elem_of_lookup_2. Qed.

Lemma elem_lget {A} (l : list A) x : x ∈ l → ∃ i, lget l i = Some x.
Proof.
  intros [n Hn]%list_elem_of_lookup. exists (Z.of_nat n). unfold lget. rewrite bool_decide_eq_true_2 by lia. by rewrite Nat2Z.id.
Qed.

Lemma reset_lset fs i f f' : lget fs i = Some f → reset f' = reset f → reset <$> lset i f' fs = reset <$> fs.
Proof.
  intros Hf E. unfold lset. rewrite list_fmap_insert, E. apply list_insert_id. unfold lget in Hf. case_bool_decide; [|done].
  by rewrite list_lookup_fmap, Hf.
Qed.

Lemma inv_length fs s rs : inv fs s rs → llen (files_ s) = llen fs.
Proof. intros [_ Hc _]. rewrite <- (co_reset _ _ _ Hc). unfold llen. by rewrite length_fmap. Qed.

Lemma reset_tree f v : llen v = llen (sentTreeBlocks f) → reset (with_tree v f) = reset f.
Proof. unfold llen. intros E. unfold reset. cbn. do 2 f_equal. lia. Qed.

Lemma reset_sent f k : reset (set_sent k f) = reset f.
Proof. unfold reset, set_sent, lset. cbn. by rewrite length_insert. Qed.

(** A complete file has every block sent. *)
Lemma complete_all rs i f k : file_inv rs i f → complete f → 0 ≤ k < llen (sentBlocks f) → lget (sentBlocks f) k = Some true.
Proof. intros [_ Hc _] Hf. unfold complete in Hf. rewrite Hc in Hf. by apply count_true_all. Qed.

Lemma needed_reset f k t : needed (reset f) k t ↔ needed f k t.
Proof. unfold needed, leaf_of, leaf_offset, leaf_count, reset, llen. cbn. by rewrite !length_replicate. Qed.

Lemma readable_reset f : tree_readable (reset f) ↔ tree_readable f.
Proof. unfold tree_readable, hasTree, ReadTreeBlock, reset, llen. cbn. by rewrite !length_replicate. Qed.

Lemma core_length fs fl rs : core fs fl rs → llen fl = llen fs.
Proof. intros Hc. rewrite <- (co_reset _ _ _ Hc). unfold llen. by rewrite length_fmap. Qed.

Lemma core_reset_file fs fl rs i f : core fs fl rs → lget fl i = Some f → lget fs i = Some (reset f).
Proof. intros Hc Hf. by rewrite <- (co_reset _ _ _ Hc), lget_fmap, Hf. Qed.

Lemma core_readable fs fl rs i f : core fs fl rs → lget fl i = Some f → trees_readable fs → tree_readable f.
Proof. intros Hc Hf Hr. apply readable_reset, Hr. eapply lget_elem, core_reset_file; done. Qed.

Lemma tree_inv_mono i f rs new : tree_inv i f rs → tree_inv i f (rs ++ new).
Proof. intros [H1 H2]. split; [|done]. intros t Ht. rewrite hash_keys_app, elem_of_app. left. by apply H1. Qed.

Lemma lget_lset_inv {A} i j (x y z : A) l : lget l i = Some y → lget (lset i x l) j = Some z → (j = i ∧ z = x) ∨ (j ≠ i ∧ lget l j = Some z).
Proof.
  intros Hy Hz. pose proof (lget_Some_range _ _ _ Hy). destruct (decide (j = i)) as [->|].
  - left. rewrite (lget_lset_eq _ _ _ _ Hy) in Hz. by simplify_eq.
  - right. by rewrite lget_lset_ne in Hz by lia.
Qed.

(** A data block at the end comes after its hashes if they were sent before. *)
Lemma hashes_first_snoc fs rs new :
  hashes_first fs rs →
  (∀ r pre post i k f t, new = pre ++ r :: post → data_key r = Some (i, k) → lget fs i = Some f → hasTree f = true →
     needed f k t → (i, t) ∈ hash_keys (rs ++ pre)) →
  hashes_first fs (rs ++ new).
Proof.
  intros H1 H2 pre r post i k f t E Hk Hf Ht Hn. apply app_eq_inv in E as [(l & -> & E)|(l & -> & E)].
  - destruct l as [|r' l]; cbn in E.
    + rewrite app_nil_r in *. rewrite <- (app_nil_r pre). by eapply (H2 r [] post).
    + simplify_eq. by eapply (H1 pre r' l).
  - symmetry in E. destruct l as [|r' l]; cbn in E; simplify_eq.
    + by eapply (H2 r [] post); rewrite ?app_nil_r.
    + by eapply (H2 r (r' :: l) post).
Qed.

Lemma core_tree fs fl rs i f v new : core fs fl rs → lget fl i = Some f → tree_step i f v new →
  (trees_readable fs → tree_inv i (with_tree v f) (rs ++ new)) → core fs (lset i (with_tree v f) fl) (rs ++ new).
Proof.
  intros Hc Hf Hst Hti. pose proof (hashes_no_data _ _ _ (ts_hash _ _ _ _ Hst)) as Hnd. split.
  - apply Hc.
  - rewrite (reset_lset fl i f); [apply Hc|done|apply reset_tree, Hst].
  - intros j g [[-> ->]|[Hne Hg]]%(lget_lset_inv i j _ f); [| |done];
      [pose proof (co_file _ _ _ Hc i f Hf) as []|pose proof (co_file _ _ _ Hc j g Hg) as []]; split; try done.
    + apply file_ok_tree; [done|apply Hst].
    + intros k. rewrite data_keys_app, Hnd, app_nil_r. done.
    + intros k. rewrite data_keys_app, Hnd, app_nil_r. done.
  - rewrite data_keys_app, Hnd, app_nil_r. apply Hc.
  - apply Forall_app. split; [apply Hc|]. apply Forall_forall. intros r Hr j k E. exfalso.
    assert ((j, k) ∈ data_keys new) as Hin by (apply list_elem_of_omap; eauto). rewrite Hnd in Hin. by apply elem_of_nil in Hin.
  - intros Hr. destruct (co_hashes _ _ _ Hc Hr) as [H1 H2]. split.
    + intros j g [[-> ->]|[Hne Hg]]%(lget_lset_inv i j _ f); [by apply Hti|by apply tree_inv_mono, H1|done].
    + apply hashes_first_snoc; [done|]. intros r pre post j k g t E Hk. exfalso.
      assert ((j, k) ∈ data_keys new) as Hin by (apply list_elem_of_omap; exists r; split; [rewrite E; set_solver|done]).
      rewrite Hnd in Hin. by apply elem_of_nil in Hin.
Qed.

Lemma core_sent fs fl rs i f k now raw : core fs fl rs → lget fl i = Some f → lget (sentBlocks f) k = Some false →
  ReadDataBlock f now k = Some raw →
  (trees_readable fs → hasTree f = true → ∀ t, needed f k t → (i, t) ∈ hash_keys rs) →
  core fs (lset i (set_sent k f) fl) (rs ++ [data_resp i k raw]).
Proof.
  intros Hc Hf Hk Hraw Hneed. pose proof (lget_Some_range _ _ _ Hf) as Hi. pose proof (lget_Some_range _ _ _ Hk) as Hkr.
  assert (data_keys [data_resp i k raw] = [(i, k)]) as Hkey by (unfold data_keys; cbn; by rewrite data_resp_key by lia).
  pose proof (co_file _ _ _ Hc i f Hf) as [Fok Fc Fs]. pose proof (core_reset_file _ _ _ _ _ Hc Hf) as Hrf. split.
  - apply Hc.
  - rewrite (reset_lset fl i f); [apply Hc|done|apply reset_sent].
  - intros j g [[-> ->]|[Hne Hg]]%(lget_lset_inv i j _ f); [| |done].
    + destruct Fok. split; [split; try done; cbn; by rewrite llen_lset| |].
      * cbn. rewrite count_true_set by done. lia.
      * intros m. cbn. rewrite data_keys_app, Hkey, elem_of_app, list_elem_of_singleton. destruct (decide (m = k)) as [->|Hm].
        -- rewrite (lget_lset_eq _ _ _ _ Hk). naive_solver.
        -- rewrite lget_lset_ne by lia. rewrite Fs. naive_solver.
    + pose proof (co_file _ _ _ Hc j g Hg) as [Gok Gc Gs]. split; [done..|]. intros m.
      rewrite data_keys_app, Hkey, elem_of_app, list_elem_of_singleton, Gs. naive_solver.
  - rewrite data_keys_app, Hkey. apply NoDup_app. split_and!; [apply Hc| |apply NoDup_singleton].
    intros p Hp ->%list_elem_of_singleton. apply Fs in Hp. congruence.
  - apply Forall_app. split; [apply Hc|]. constructor; [|constructor]. intros j m E. rewrite data_resp_key in E by lia. simplify_eq.
    by exists (reset f), now, raw.
  - intros Hr. destruct (co_hashes _ _ _ Hc Hr) as [H1 H2]. split.
    + intros j g [[-> ->]|[Hne Hg]]%(lget_lset_inv i j _ f); [|by apply tree_inv_mono, H1|done]. apply tree_inv_mono. exact (H1 i f Hf).
    + apply hashes_first_snoc; [done|]. intros r pre post j m g t E Em Hg Ht Hn.
      assert (r = data_resp i k raw ∧ pre = []) as [-> ->].
      { destruct pre as [|x pre]; cbn in E; [by simplify_eq|]. injection E as _ E. by destruct pre. }
      rewrite data_resp_key in Em by lia. simplify_eq. rewrite app_nil_r. apply Hneed; [done|done|]. by apply needed_reset.
Qed.

(** ** One block *)

Definition sent_in (s : Server) (i k : Z) : Prop := ∃ f, lget (files_ s) i = Some f ∧ lget (sentBlocks f) k = Some true.
Definition unsent (fl : list File) : Z := foldr (λ f n, llen (sentBlocks f) - sentBlocksCount f + n) 0 fl.

(** All data can be read. *)
Definition readable (fs : list File) : Prop :=
  trees_readable fs ∧ ∀ f, f ∈ fs → ∀ now k, 0 ≤ k → ReadDataBlock f now k ≠ None.

Lemma unsent_cons f fl : unsent (f :: fl) = llen (sentBlocks f) - sentBlocksCount f + unsent fl.
Proof. done. Qed.

Lemma unsent_lset fl i f f' : lget fl i = Some f →
  unsent (lset i f' fl) = unsent fl - (llen (sentBlocks f) - sentBlocksCount f) + (llen (sentBlocks f') - sentBlocksCount f').
Proof.
  unfold lget, lset. case_bool_decide; [|done]. generalize (Z.to_nat i). clear. induction fl as [|g fl IH]; intros [|n] E; try done.
  - cbn in E. simplify_eq. change (<[0%nat:=f']> (f :: fl)) with (f' :: fl). rewrite !unsent_cons. lia.
  - cbn in E. change (<[S n:=f']> (g :: fl)) with (g :: <[n:=f']> fl). rewrite !unsent_cons, (IH n E). lia.
Qed.

(** What happened from [s] to [s'] to the blocks: none is unsent again, and [n] were sent. *)
Record progress (fs : list File) (n : Z) (s s' : Server) : Prop := {
  pr_keep i k : sent_in s i k → sent_in s' i k;
  pr_count : unsent (files_ s') = unsent (files_ s) - n
}.

Lemma progress_refl fs s : progress fs 0 s s.
Proof. split; [done|lia]. Qed.

Lemma progress_trans fs n m a b c : progress fs n a b → progress fs m b c → progress fs (n + m) a c.
Proof. intros [H1 H2] [H3 H4]. split; [auto|lia]. Qed.

Lemma SendDataBlock_inv fs s rs i f k flush : inv fs s rs → lget (files_ s) i = Some f → 0 ≤ k →
  ∃ r fl n p c new, SendDataBlock i k flush s = Ok (r, upd s fl n p c) ∧ inv fs (upd s fl n p c) (rs ++ new) ∧
    progress fs (match r with Sent => 1 | _ => 0 end) s (upd s fl n p c) ∧
    (readable fs → k < nblocks f → sent_in (upd s fl n p c) i k).
Proof.
  intros [Hw Hc Hd] Hf Hk. pose proof (co_file _ _ _ Hc _ _ Hf) as Hfi. pose proof (core_length _ _ _ Hc) as Hlen.
  destruct (SendDataBlock_run s rs i f k flush) as (r & f' & n & p & c & new & Hs & Hw' & Ho & Hskip & _);
    [done|apply Hfi|rewrite Hlen; apply Hc|done|done|]. exists r, (lset i f' (files_ s)), n, p, c, new. split; [done|].
  assert (∀ b, lget (sentBlocks f) k = Some b → lget (sentBlocks f) k = Some false → doneSent s = false) as Hnd.
  { intros b _ Hb. destruct (doneSent s); [|done]. destruct (Hd eq_refl) as (_ & _ & Hall). pose proof (Hall f (lget_elem _ _ _ Hf)) as Hcf.
    pose proof (lget_Some_range _ _ _ Hb). by rewrite (complete_all rs i f k) in Hb. }
  destruct Ho as [Hor|v new Hb Hst Hti|v new raw now Hb Hst Hraw Hti].
  - destruct (Hskip eq_refl) as (-> & -> & ->). rewrite lset_same, app_nil_r by done.
    assert (upd s (files_ s) (reads s) (pendingBlocks_ s) (chunks s) = s) as -> by by destruct s.
    split_and!; [done|apply progress_refl|]. intros _ Hlt. exists f. split; [done|]. destruct Hor; [lia|done].
  - split_and!.
    + split; [done| |]; cbn.
      * apply core_tree; [done..|]. intros Hr. apply Hti; [by eapply core_readable|]. by apply (co_hashes _ _ _ Hc).
      * by rewrite (Hnd _ Hb).
    + split; cbn; [|rewrite (unsent_lset _ _ f) by done; cbn; lia]. intros j m (g & Hg & Hm). destruct (decide (j = i)) as [->|].
      * exists (with_tree v f). cbn. rewrite (lget_lset_eq _ _ _ _ Hf). split; [done|]. cbn. congruence.
      * exists g. cbn. pose proof (lget_Some_range _ _ _ Hf). by rewrite lget_lset_ne by lia.
    + intros [Hr Hdr] _. exfalso. destruct (Hti (core_readable _ _ _ _ _ Hc Hf Hr)) as (_ & now & Hnone); [by apply (co_hashes _ _ _ Hc)|].
      eapply (Hdr (reset f)); [by eapply lget_elem, core_reset_file|exact Hk|exact Hnone].
  - rewrite app_assoc in *. assert (lget (lset i (with_tree v f) (files_ s)) i = Some (with_tree v f)) as Hf1 by by eapply lget_lset_eq.
    split_and!.
    + split; [done| |]; cbn; [|by rewrite (Hnd _ Hb)]. rewrite <- (lset_lset i _ (with_tree v f)). eapply core_sent; [|exact Hf1|done|done|].
      * apply core_tree; [done..|]. intros Hr. apply Hti; [by eapply core_readable|]. by apply (co_hashes _ _ _ Hc).
      * intros Hr Htree t Hn. eapply (proj2 (Hti (core_readable _ _ _ _ _ Hc Hf Hr) (proj1 (co_hashes _ _ _ Hc Hr) _ _ Hf))); [done|].
        unfold needed, leaf_of in *. by rewrite leaf_offset_tree in Hn by apply Hst.
    + split; cbn; [|rewrite (unsent_lset _ _ f) by done; cbn; rewrite llen_lset; lia]. intros j m (g & Hg & Hm). destruct (decide (j = i)) as [->|].
      * exists (set_sent k (with_tree v f)). cbn. rewrite (lget_lset_eq _ _ _ _ Hf). split; [done|]. cbn.
        pose proof (lget_Some_range _ _ _ Hb). simplify_eq. rewrite lget_lset_ne by (lia || congruence). congruence.
      * exists g. cbn. pose proof (lget_Some_range _ _ _ Hf). by rewrite lget_lset_ne by lia.
    + intros _ _. eexists. cbn. rewrite (lget_lset_eq _ _ _ _ Hf). split; [done|]. by eapply lget_lset_eq.
Qed.

(** ** Sending ahead *)

Definition moved (s : Server) (q : list PrefetchState) (fl : list File) (n : nat) (p : bytes) (c : list bytes) : Server :=
  set_prefetches q (upd s fl n p c).

(** An entry of the queue is about blocks of a file. *)
Definition prefetch_ok (fs : list File) (p : PrefetchState) : Prop :=
  ∃ f, lget fs (pf_file p) = Some f ∧ 0 ≤ overallIndex p ∧ overallEnd p ≤ nblocks f ∧ 0 ≤ priorityIndex p.

Lemma core_file_at fs fl rs i f : core fs fl rs → lget fs i = Some f → ∃ g, lget fl i = Some g ∧ f = reset g.
Proof. intros Hc Hf. rewrite <- (co_reset _ _ _ Hc), lget_fmap in Hf. destruct (lget fl i) as [g|]; [|done]. cbn in Hf. simplify_eq. eauto. Qed.

Lemma progress_files fs n s s' : files_ s = files_ s' → n = 0 → progress fs n s s'.
Proof. intros E ->. split; [unfold sent_in; by rewrite E|rewrite E; lia]. Qed.

Lemma send_each_inv fs i f idxs : ∀ s rs j blocks, inv fs s rs → lget fs i = Some f → Forall (Z.le 0) idxs → 0 ≤ blocks →
  ∃ j' blocks' fl n p c new, let s' := upd s fl n p c in
    send_each i idxs j blocks s = Ok (j', blocks', s') ∧ inv fs s' (rs ++ new) ∧ progress fs (blocks - blocks') s s' ∧
    0 ≤ blocks' ≤ blocks ∧ j ≤ j' ≤ j + llen idxs ∧ (0 < blocks' → j' = j + llen idxs) ∧
    (readable fs → ∀ x, x ∈ ltake (j' - j) idxs → x < nblocks f → sent_in s' i x).
Proof.
  induction idxs as [|x idxs IH]; intros s rs j blocks Hi Hf Hidx Hb; cbn [send_each].
  { exists j, blocks, (files_ s), (reads s), (pendingBlocks_ s), (chunks s), []. rewrite app_nil_r, Z.sub_diag.
    assert (upd s (files_ s) (reads s) (pendingBlocks_ s) (chunks s) = s) as -> by by destruct s.
    change (llen (@nil Z)) with 0. split_and!; try done; try lia; [by apply progress_files; [|lia]|intros _ x; unfold ltake; rewrite take_nil; by intros ?%elem_of_nil]. }
  apply Forall_cons_1 in Hidx as [Hx Hidx]. rewrite llen_cons. pose proof (llen_nonneg idxs). destruct (Z.ltb_spec 0 blocks).
  2: { exists j, blocks, (files_ s), (reads s), (pendingBlocks_ s), (chunks s), []. rewrite app_nil_r, !Z.sub_diag.
       assert (upd s (files_ s) (reads s) (pendingBlocks_ s) (chunks s) = s) as -> by by destruct s.
       split_and!; try done; try lia; [apply progress_refl|by intros _ y ?%elem_of_nil]. }
  destruct (core_file_at _ _ _ _ _ (inv_core _ _ _ Hi) Hf) as (g & Hg & ->).
  destruct (SendDataBlock_inv fs s rs i g x false) as (r & fl & n & p & c & new & Hs & Hi1 & Hp1 & Hr1); [done..|].
  rewrite (sv_run _ _ _ _ _ Hs). set (s1 := upd s fl n p c) in *. set (blocks1 := match r with Sent => _ | _ => _ end).
  destruct (IH s1 (rs ++ new) (j + 1) blocks1) as (j' & blocks' & fl' & n' & p' & c' & new' & Hs2 & Hi2 & Hp2 & Hb2 & Hj2 & Hfull & Hr2);
    [done..|destruct r; subst blocks1; lia|].
  cbn zeta in *. change (upd s1 fl' n' p' c') with (upd s fl' n' p' c') in *.
  exists j', blocks', fl', n', p', c', (new ++ new'). rewrite app_assoc. split_and!; try done.
  - replace (blocks - blocks') with (match r with Sent => 1 | _ => 0 end + (blocks1 - blocks')) by (destruct r; subst blocks1; lia).
    by eapply progress_trans.
  - lia.
  - destruct r; subst blocks1; lia.
  - lia.
  - lia.
  - intros. rewrite Hfull by done. lia.
  - intros Hread y Hy Hlt. replace (j' - j) with (Z.succ (j' - (j + 1))) in Hy by lia. unfold ltake in Hy. rewrite Z2Nat.inj_succ in Hy by lia.
    cbn in Hy. apply elem_of_cons in Hy as [->|Hy]; [|by apply Hr2]. apply (pr_keep _ _ _ _ Hp2). by apply Hr1.
Qed.

Definition queued (q : list PrefetchState) (i k : Z) : Prop :=
  ∃ p, p ∈ q ∧ pf_file p = i ∧ overallIndex p ≤ k < overallEnd p.

Lemma inv_prefetches fs s rs q : inv fs s rs → inv fs (set_prefetches q s) rs.
Proof. intros [H1 H2 H3]. by split. Qed.

Lemma ltake_seqZ n a m : 0 ≤ n ≤ m → ltake n (seqZ a m) = seqZ a n.
Proof.
  intros Hn. replace m with (n + (m - n)) by lia. rewrite seqZ_app by lia. apply ltake_pre. unfold llen. rewrite length_seqZ. lia.
Qed.

Lemma prefetch_done_end f p : prefetch_done f p = true → overallEnd p ≤ overallIndex p.
Proof. unfold prefetch_done. destruct (priority_blocks_ f); [by intros ?%Z.leb_le|]. by intros [?%Z.leb_le _]%andb_prop. Qed.

Lemma prefetch_done_intro f p : overallEnd p ≤ overallIndex p → llen (priority_blocks_ f) ≤ priorityIndex p → prefetch_done f p = true.
Proof. intros H1%Z.leb_le H2%Z.leb_le. unfold prefetch_done. rewrite H1, H2. by destruct (priority_blocks_ f). Qed.

Lemma prefetch_front_inv fs s rs p rest blocks : inv fs s rs → prefetch_ok fs p → 0 < blocks → Forall (prefetch_ok fs) rest →
  ∃ blocks' q fl n pd c new, let s' := moved s q fl n pd c in
    prefetch_front p rest blocks s = Ok (blocks', s') ∧ inv fs s' (rs ++ new) ∧ progress fs (blocks - blocks') s s' ∧
    0 ≤ blocks' ≤ blocks ∧ Forall (prefetch_ok fs) q ∧ (0 < blocks' → q = rest) ∧
    (readable fs → ∀ i k, queued (p :: rest) i k → sent_in s' i k ∨ queued q i k).
Proof.
  intros Hi (f & Hf & Hoi & Hoe & Hpi) Hb Hrest. destruct (core_file_at _ _ _ _ _ (inv_core _ _ _ Hi) Hf) as (g & Hg & ->).
  pose proof (co_file _ _ _ (inv_core _ _ _ Hi) _ _ Hg) as [Gok _ _]. unfold prefetch_front.
  rewrite (sv_run _ _ _ _ _ (file_at_run _ _ _ Hg)), (ok_id _ _ Gok).
  destruct (send_each_inv fs (pf_file p) (reset g) (ldrop (priorityIndex p) (priority_blocks_ g)) s rs (priorityIndex p) blocks)
    as (pi & b1 & fl1 & n1 & p1 & c1 & new1 & Hs1 & Hi1 & Hp1 & Hb1 & Hj1 & Hfull1 & _); [done..|apply Forall_drop, Gok|lia|].
  rewrite (sv_run _ _ _ _ _ Hs1). set (s1 := upd s fl1 n1 p1 c1) in *.
  destruct (send_each_inv fs (pf_file p) (reset g) (seqZ (overallIndex p) (overallEnd p - overallIndex p)) s1 (rs ++ new1) (overallIndex p) b1)
    as (oi & b2 & fl2 & n2 & p2 & c2 & new2 & Hs2 & Hi2 & Hp2 & Hb2 & Hj2 & Hfull2 & Hread);
    [done..|apply Forall_forall; intros x Hx%elem_of_seqZ; lia|lia|].
  rewrite (sv_run _ _ _ _ _ Hs2). change (upd s1 fl2 n2 p2 c2) with (upd s fl2 n2 p2 c2) in *. sv.
  assert (llen (seqZ (overallIndex p) (overallEnd p - overallIndex p)) = Z.max 0 (overallEnd p - overallIndex p)) as El
    by (unfold llen; rewrite length_seqZ; lia). rewrite El in Hj2, Hfull2.
  set (p' := mkPrefetch (pf_file p) oi (overallEnd p) pi). set (q := if prefetch_done g p' then rest else p' :: rest).
  exists b2, q, fl2, n2, p2, c2, (new1 ++ new2). rewrite app_assoc. split_and!; try done.
  - by apply inv_prefetches.
  - replace (blocks - b2) with ((blocks - b1) + (b1 - b2) + 0) by lia. eapply progress_trans; [by eapply progress_trans|]. by apply progress_files.
  - lia.
  - lia.
  - subst q. destruct (prefetch_done g p'); [done|]. constructor; [|done]. exists (reset g). split_and!; try done; cbn; lia.
  - intros H2. subst q. rewrite prefetch_done_intro; [done| |]; cbn.
    + rewrite Hfull2 by done. lia.
    + rewrite Hfull1 by lia. pose proof (llen_nonneg (priority_blocks_ g)).
      destruct (Z.le_gt_cases (priorityIndex p) (llen (priority_blocks_ g))); [rewrite llen_ldrop by lia; lia|].
      pose proof (llen_nonneg (ldrop (priorityIndex p) (priority_blocks_ g))). lia.
  - intros Hr i k (p0 & [->|Hin]%elem_of_cons & <- & Hk).
    2: { right. exists p0. split; [|done]. subst q. destruct (prefetch_done g p'); [done|by apply list_elem_of_further]. }
    destruct (Z.lt_ge_cases k oi) as [Hlt|Hge].
    + left. apply Hread; [done| |lia]. rewrite ltake_seqZ by lia. apply elem_of_seqZ. lia.
    + right. subst q. destruct (prefetch_done g p') eqn:Ed; [apply prefetch_done_end in Ed; cbn in Ed; lia|].
      exists p'. split; [by left|]. cbn. lia.
Qed.

(** What a turn of the loop, or the whole of it, does to the blocks that are waited for. *)
Definition keeps_queued (fs : list File) (s s' : Server) : Prop :=
  readable fs → ∀ i k, queued (prefetches_ s) i k → sent_in s' i k ∨ queued (prefetches_ s') i k.

Lemma prefetch_loop_inv fs fuel : ∀ s rs blocks, inv fs s rs → Forall (prefetch_ok fs) (prefetches_ s) → 0 ≤ blocks →
  (length (prefetches_ s) + (if Z.eqb blocks 0%Z then 0 else 1) < fuel)%nat →
  ∃ blocks' q fl n pd c new, let s' := moved s q fl n pd c in
    prefetch_loop fuel blocks s = Ok (tt, s') ∧ inv fs s' (rs ++ new) ∧ progress fs (blocks - blocks') s s' ∧
    0 ≤ blocks' ≤ blocks ∧ Forall (prefetch_ok fs) q ∧ (q = [] ∨ blocks' = 0) ∧ keeps_queued fs s s'.
Proof.
  induction fuel as [|fuel IH]; intros s rs blocks Hi Hq Hb Hf; [lia|]. cbn [prefetch_loop]. sv.
  assert (moved s (prefetches_ s) (files_ s) (reads s) (pendingBlocks_ s) (chunks s) = s) as Es by by destruct s.
  destruct (prefetches_ s) as [|p rest] eqn:Eq.
  { exists blocks, [], (files_ s), (reads s), (pendingBlocks_ s), (chunks s), []. cbn zeta. rewrite Es, app_nil_r.
    split_and!; try done; try lia; [by apply progress_files; [|lia]|by left|]. intros _ i k ?. right. by rewrite Eq in *. }
  destruct (Z.ltb_spec 0 blocks) as [Hpos|].
  2: { exists blocks, (p :: rest), (files_ s), (reads s), (pendingBlocks_ s), (chunks s), []. cbn zeta. rewrite Es, app_nil_r.
       split_and!; try done; try lia; [by apply progress_files; [|lia]|]. intros _ i k ?. by right. }
  apply Forall_cons_1 in Hq as [Hp Hrest].
  destruct (prefetch_front_inv fs s rs p rest blocks) as (b1 & q1 & fl1 & n1 & p1 & c1 & new1 & Hs1 & Hi1 & Hp1 & Hb1 & Hq1 & Hr1 & Hk1); [done..|].
  rewrite (sv_run _ _ _ _ _ Hs1). cbn zeta in *. set (s1 := moved s q1 fl1 n1 p1 c1) in *.
  destruct (Z.eqb_spec blocks 0); [lia|]. cbn [length] in Hf.
  assert (∃ b2 q2 fl2 n2 p2 c2 new2, let s' := moved s1 q2 fl2 n2 p2 c2 in
    prefetch_loop fuel b1 s1 = Ok (tt, s') ∧ inv fs s' ((rs ++ new1) ++ new2) ∧ progress fs (b1 - b2) s1 s' ∧
    0 ≤ b2 ≤ b1 ∧ Forall (prefetch_ok fs) q2 ∧ (q2 = [] ∨ b2 = 0) ∧ keeps_queued fs s1 s')
    as (b2 & q2 & fl2 & n2 & p2 & c2 & new2 & Hs2 & Hi2 & Hp2 & Hb2 & Hq2 & Hr2 & Hk2).
  { destruct (Z.eqb_spec b1 0) as [E0|].
    - destruct fuel as [|fuel]; [lia|]. exists 0, (prefetches_ s1), (files_ s1), (reads s1), (pendingBlocks_ s1), (chunks s1), []. cbn zeta.
      assert (moved s1 (prefetches_ s1) (files_ s1) (reads s1) (pendingBlocks_ s1) (chunks s1) = s1) as -> by by destruct s1.
      rewrite app_nil_r, E0. split_and!; try done; [|apply progress_refl|by right|intros _ i k ?; by right].
      cbn [prefetch_loop]. sv. by destruct (prefetches_ s1).
    - apply IH; try done; [lia|]. change (prefetches_ s1) with q1. rewrite Hr1 by lia. destruct (Z.eqb_spec b1 0); lia. }
  cbn zeta in *. change (moved s1 q2 fl2 n2 p2 c2) with (moved s q2 fl2 n2 p2 c2) in *.
  exists b2, q2, fl2, n2, p2, c2, (new1 ++ new2). rewrite app_assoc. split_and!; try done; try lia.
  - replace (blocks - b2) with ((blocks - b1) + (b1 - b2)) by lia. by eapply progress_trans.
  - intros Hr i k Hin. rewrite Eq in Hin. destruct (Hk1 Hr i k Hin) as [?|?]; [left; by apply (pr_keep _ _ _ _ Hp2)|by apply Hk2].
Qed.

Lemma RunPrefetching_inv fs s rs : inv fs s rs → Forall (prefetch_ok fs) (prefetches_ s) →
  ∃ m q fl n pd c new, let s' := moved s q fl n pd c in
    RunPrefetching s = Ok (tt, s') ∧ inv fs s' (rs ++ new) ∧ progress fs m s s' ∧ 0 ≤ m ∧
    Forall (prefetch_ok fs) q ∧ (q = [] ∨ m = kPrefetchBlocksPerIteration) ∧ keeps_queued fs s s'.
Proof.
  intros Hi Hq. unfold RunPrefetching. sv.
  destruct (prefetch_loop_inv fs (S (S (length (prefetches_ s)))) s rs kPrefetchBlocksPerIteration)
    as (b & q & fl & n & p & c & new & Hs & Hi' & Hp & Hb & Hq' & Hr & Hk); [done..|cbn; lia|].
  exists (kPrefetchBlocksPerIteration - b), q, fl, n, p, c, new. split_and!; try done; [lia|]. destruct Hr as [->| ->]; [by left|right; lia].
Qed.

(** ** Turns *)

(** Every block of a file that was asked for is sent or waited for. *)
Definition wanted (fs : list File) (s : Server) : Prop :=
  readable fs → ∀ i f k, i ∈ prefetchedFiles s → lget fs i = Some f → 0 ≤ k < nblocks f →
    sent_in s i k ∨ queued (prefetches_ s) i k.

(** The state between two turns. *)
Definition server_ok (fs : list File) (s : Server) : Prop :=
  (∃ rs, inv fs s rs) ∧ Forall (prefetch_ok fs) (prefetches_ s) ∧ wanted fs s.

Lemma core_marker fs fl rs r : data_key r = None → core fs fl rs → core fs fl (rs ++ [r]).
Proof.
  intros Hk Hc. assert (data_keys (rs ++ [r]) = data_keys rs) as E
    by (rewrite data_keys_app; unfold data_keys at 2; cbn; rewrite Hk; apply app_nil_r). split; [apply Hc|apply Hc| | | |].
  - intros i f Hf. pose proof (co_file _ _ _ Hc i f Hf) as []. split; [done..|]. by rewrite E.
  - rewrite E. apply Hc.
  - apply Forall_app. split; [apply Hc|]. constructor; [|constructor]. intros i k. by rewrite Hk.
  - intros Hr. destruct (co_hashes _ _ _ Hc Hr) as [H1 H2]. split; [intros i f Hf; by apply tree_inv_mono, H1|].
    apply hashes_first_snoc; [done|]. intros r' pre post i k f t E' Hk'.
    destruct pre as [|x pre]; cbn in E'; [simplify_eq; congruence|]. injection E' as _ E'. by destruct pre.
Qed.

Definition announced (s : Server) (d : bool) (p : bytes) (c : list bytes) : Server :=
  mkServer (files_ s) (buffer_ s) (prefetches_ s) p (servingComplete_ s) (prefetchedFiles s) d (answers s) (reads s) c (output s) (wire s).

Lemma inv_small fs s rs f : inv fs s rs → f ∈ files_ s → s32 (llen (sentBlocks f)) = llen (sentBlocks f).
Proof.
  intros Hi (i & Hf)%elem_lget. pose proof (co_file _ _ _ (inv_core _ _ _ Hi) _ _ Hf) as [Hok _ _].
  pose proof (nblocks_bound _ _ Hok). rewrite (ok_blocks _ _ Hok). apply s32_small. lia.
Qed.

Lemma all_sent_complete fs s rs : inv fs s rs → all_sent s = true ↔ ∀ f, f ∈ files_ s → complete f.
Proof.
  intros Hi. unfold all_sent. rewrite forallb_forall. setoid_rewrite <- list_elem_of_In. unfold complete.
  split; intros Hall f Hf; specialize (Hall f Hf); rewrite (inv_small _ _ _ _ Hi Hf) in *; lia.
Qed.

Lemma announce_inv fs s rs : inv fs s rs →
  ∃ d p c new, announce s = Ok (tt, announced s d p c) ∧ inv fs (announced s d p c) (rs ++ new) ∧
    (doneSent s = true → d = true) ∧
    (prefetches_ s = [] → (∀ f, f ∈ files_ s → complete f) → d = true).
Proof.
  intros Hi. unfold announce. sv. pose proof (all_sent_complete _ _ _ Hi) as Hall.
  destruct (negb (doneSent s) && bool_decide (prefetches_ s = []) && all_sent s) eqn:E.
  - apply andb_prop in E as [[_ Hq%bool_decide_eq_true_1]%andb_prop Hs]. unfold SendDone.
    destruct (Send_run s rs done_resp true) as (p & c & Hsend & Hw & Hp); [done|apply Hi|].
    change (resp_bytes done_resp) with (header_bytes (mkHeader (-1) 0 0 0 0)) in Hsend.
    rewrite (sv_run _ _ s tt (set_done (upd s (files_ s) (reads s) p c))) by by rewrite (sv_run _ _ _ _ _ Hsend).
    rewrite bool_decide_eq_true_2 by done. rewrite (Hp eq_refl) in *.
    exists true, [], c, [done_resp]. split_and!; try done. split; cbn; [done|apply core_marker; [done|apply Hi]|].
    intros _. split_and!; [done|rewrite elem_of_app; right; by left|by apply Hall].
  - rewrite (sv_run _ _ s tt s) by done. assert (announced s (doneSent s) (pendingBlocks_ s) (chunks s) = s) as Es by by destruct s.
    case_bool_decide as Hq.
    + destruct (Flush_run s rs (inv_out _ _ _ Hi)) as (c & -> & Hw). exists (doneSent s), [], c, []. rewrite app_nil_r. split_and!; try done.
      * split; [done|apply Hi|]. cbn. intros Hd. destruct (inv_done _ _ _ Hi Hd) as (_ & ? & ?). done.
      * intros _ Hc. apply Hall in Hc. rewrite Hc, andb_true_r in E. by destruct (doneSent s).
    + exists (doneSent s), (pendingBlocks_ s), (chunks s), []. by rewrite app_nil_r, Es.
Qed.

(** A request to prefetch a file that the server does not have. *)
Definition bad_prefetch (fs : list File) (s : Server) (r : RequestCommand) : bool :=
  (request_type r =? PREFETCH) && (llen fs <=? file_id r) && negb (bool_decide (file_id r ∈ prefetchedFiles s)).

Lemma server_ok_intro fs s rs : inv fs s rs → Forall (prefetch_ok fs) (prefetches_ s) → wanted fs s → server_ok fs s.
Proof. intros Hi Hq Hw. split; [by exists rs|done]. Qed.

Lemma handle_missing fs s i k f : server_ok fs s → lget (files_ s) i = Some f → 0 ≤ k →
  ∃ s', (res ← SendDataBlock i k true;
         match res with
         | Sent => f ← file_at i;
                   _ ← modify (λ s, set_prefetches (new_PrefetchState i f (k + 1) 7 :: prefetches_ s) s); mret false
         | _ => mret false
         end) s = Ok (false, s') ∧ server_ok fs s'.
Proof.
  intros ((rs & Hi) & Hq & Hw) Hf Hk. destruct (SendDataBlock_inv fs s rs i f k true) as (r & fl & n & p & c & new & Hs & Hi' & Hp & _); [done..|].
  rewrite (sv_run _ _ _ _ _ Hs). set (s1 := upd s fl n p c) in *.
  assert (server_ok fs s1) as Hok1.
  { eapply server_ok_intro; [done|done|]. intros Hr j g m Hj Hg Hm. destruct (Hw Hr j g m Hj Hg Hm); [left; by apply (pr_keep _ _ _ _ Hp)|by right]. }
  destruct r; [|by exists s1..]. destruct (core_file_at fs (files_ s1) (rs ++ new) i (reset f)) as (g & Hg & Eg);
    [apply Hi'|eapply core_reset_file; [apply Hi|done]|]. rewrite (sv_run _ _ _ _ _ (file_at_run s1 i g Hg)). sv. eexists. split; [done|].
  destruct Hok1 as (_ & Hq1 & Hw1). eapply server_ok_intro; [by apply inv_prefetches| |].
  - constructor; [|done]. exists (reset g). pose proof (co_file _ _ _ (inv_core _ _ _ Hi') _ _ Hg) as [Gok _ _].
    split; [by eapply core_reset_file; [apply Hi'|]|]. cbn. rewrite (ok_blocks _ _ Gok). change (nblocks (reset g)) with (nblocks g). lia.
  - intros Hr j h m Hj Hh Hm. destruct (Hw1 Hr j h m Hj Hh Hm) as [?|(e & He & ?)]; [by left|right]. exists e. split; [by apply list_elem_of_further|done].
Qed.

Lemma handle_request_inv fs s r : server_ok fs s →
  if bad_prefetch fs s r then handle_request r s = Undef
  else ∃ b s', handle_request r s = Ok (b, s') ∧ server_ok fs s'.
Proof.
  intros Hok. pose proof Hok as ((rs & Hi) & Hq & Hw). pose proof (inv_length _ _ _ Hi) as Hlen. pose proof (co_few _ _ _ (inv_core _ _ _ Hi)) as Hfew.
  unfold bad_prefetch, handle_request. destruct (Z.eqb_spec (request_type r) DESTROY) as [->|]; [by eexists _, _|].
  destruct (Z.eqb_spec (request_type r) SERVING_COMPLETE) as [->|]; [eexists _, _; split; [done|by split; [exists rs; destruct Hi; split|]]|].
  destruct (Z.eqb_spec (request_type r) BLOCK_MISSING) as [->|].
  { cbn [andb Z.eqb BLOCK_MISSING PREFETCH Pos.eqb]. sv. rewrite Hlen, s16_small by (pose proof (llen_nonneg fs); lia).
    destruct ((file_id r <? 0) || (llen fs <=? file_id r) || (block_idx r <? 0)) eqn:E; [by eexists _, _|].
    apply orb_false_iff in E as [[?%Z.ltb_ge ?%Z.leb_gt]%orb_false_iff ?%Z.ltb_ge].
    destruct (lget_is_Some (files_ s) (file_id r)) as (f & Hf); [lia|]. rewrite (sv_run _ _ _ _ _ (file_at_run _ _ _ Hf)).
    rewrite (inv_small _ _ _ _ Hi (lget_elem _ _ _ Hf)). destruct (Z.leb_spec (llen (sentBlocks f)) (block_idx r)); [by eexists _, _|].
    destruct (handle_missing fs s (file_id r) (block_idx r) f) as (s' & -> & ?); [done..|]. by eexists _, _. }
  destruct (Z.eqb_spec (request_type r) PREFETCH) as [Ep|]; cbn [andb]; [|by eexists _, _].
  destruct (Z.ltb_spec (file_id r) 0).
  { destruct (Z.leb_spec (llen fs) (file_id r)); [pose proof (llen_nonneg fs); lia|]. cbn [andb]. by eexists _, _. }
  sv. case_bool_decide as Hin; cbn [negb]; [rewrite andb_false_r; by eexists _, _|]. rewrite andb_true_r. sv.
  set (s1 := set_prefetched _ s). destruct (Z.leb_spec (llen fs) (file_id r)).
  { unfold file_at, mbind, sv_bind, gets, lift. cbn. destruct (lget (files_ s) (file_id r)) as [f|] eqn:E; [|done].
    apply lget_Some_range in E. lia. }
  destruct (lget_is_Some (files_ s) (file_id r)) as (f & Hf); [lia|]. rewrite (sv_run _ _ _ _ _ (file_at_run s1 _ f Hf)). sv.
  eexists _, _. split; [done|]. pose proof (co_file _ _ _ (inv_core _ _ _ Hi) _ _ Hf) as [Fok _ _]. pose proof (nblocks_bound _ _ Fok).
  pose proof (core_reset_file _ _ _ _ _ (inv_core _ _ _ Hi) Hf) as Hrf.
  set (e := prefetch_all (file_id r) f). assert (overallIndex e = 0 ∧ overallEnd e = nblocks f) as [E1 E2].
  { unfold e, prefetch_all, new_PrefetchState. cbn -[Z.min]. rewrite (ok_blocks _ _ Fok), s32_small by lia. lia. }
  eapply (server_ok_intro _ _ rs); [by destruct Hi; split| |].
  - cbn. apply Forall_app. split; [done|]. constructor; [|constructor]. exists (reset f). split; [done|]. rewrite E1, E2. cbn. done.
  - intros Hr j h m Hj Hh Hm. cbn in Hj |- *. apply elem_of_union in Hj as [->%elem_of_singleton|Hj].
    + right. exists e. split; [apply elem_of_app; right; by left|]. split; [done|]. rewrite E1, E2.
      rewrite Hrf in Hh. simplify_eq. exact Hm.
    + destruct (Hw Hr j h m Hj Hh Hm) as [?|(e' & He & ?)]; [by left|right]. exists e'. split; [apply elem_of_app; by left|done].
Qed.

Lemma SkipToRequest_total blocking done ins buf out :
  (∃ r, SkipToRequest blocking done buf ins out = Ok r) ∨ SkipToRequest blocking done buf ins out = NoFuel.
Proof.
  revert buf out. induction ins as [|a ins IH]; intros buf out; cbn [SkipToRequest]; destruct (find_magic buf) as [n m];
    (destruct (m && _); [by left; eexists|]); [by right|].
  destruct a as [r|[|b d]]; [destruct (_ || _); by left; eexists|by left; eexists|apply IH].
Qed.

Lemma server_ok_input fs s b a o : server_ok fs s → server_ok fs (set_input b a o s).
Proof. intros ((rs & []) & ? & ?). split; [by exists rs; split|done]. Qed.

Lemma server_ok_announced fs s : server_ok fs s → ∃ d p c, announce s = Ok (tt, announced s d p c) ∧ server_ok fs (announced s d p c).
Proof.
  intros ((rs & Hi) & Hq & Hw). destruct (announce_inv fs s rs Hi) as (d & p & c & new & E & Hi' & _). exists d, p, c.
  split; [done|]. split; [by eexists|done].
Qed.

Lemma RunPrefetching_ok fs s : server_ok fs s → ∃ s', RunPrefetching s = Ok (tt, s') ∧ server_ok fs s'.
Proof.
  intros ((rs & Hi) & Hq & Hw). destruct (RunPrefetching_inv fs s rs Hi Hq) as (m & q & fl & n & p & c & new & E & Hi' & Hp & _ & Hq' & _ & Hk).
  cbn zeta in *. eexists. split; [done|]. eapply server_ok_intro; [done|done|]. intros Hr i f k Hin Hf Hk'.
  destruct (Hw Hr i f k Hin Hf Hk') as [?|?]; [left; by apply (pr_keep _ _ _ _ Hp)|by apply Hk].
Qed.

(** What a turn does after the request was read. *)
Lemma turn_tail fs s r : server_ok fs s →
  let m := (stop ← (match r with Some r => handle_request r | None => mret false end);
            if (stop : bool) then mret true else _ ← RunPrefetching; mret false) in
  if match r with Some r => bad_prefetch fs s r | None => false end then m s = Undef
  else ∃ b s', m s = Ok (b, s') ∧ server_ok fs s'.
Proof.
  intros Hok. cbn zeta. assert (∀ s', server_ok fs s' → ∃ s'', ((_ ← RunPrefetching; mret false) : SV bool) s' = Ok (false, s'') ∧ server_ok fs s'') as Hrun.
  { intros s' Hs'. destruct (RunPrefetching_ok fs s' Hs') as (s'' & E & ?). exists s''. by rewrite (sv_run _ _ _ _ _ E). }
  destruct r as [r|].
  - pose proof (handle_request_inv fs s r Hok) as Hh. destruct (bad_prefetch fs s r); [unfold mbind, sv_bind; by rewrite Hh|].
    destruct Hh as (b & s' & E & Hs'). rewrite (sv_run _ _ _ _ _ E). destruct b; [by eexists _, _|]. destruct (Hrun s' Hs') as (s'' & ? & ?). by eexists _, _.
  - rewrite (sv_run _ _ _ _ _ eq_refl). destruct (Hrun s Hok) as (s'' & ? & ?). by eexists _, _.
Qed.

Lemma serve_turn_ok fs s : server_ok fs s →
  match SkipToRequest (bool_decide (prefetches_ s = [])) (servingComplete_ s) (buffer_ s) (answers s) (output s) with
  | Ok (r, _, _, _) =>
      if match r with SkipGot d => bad_prefetch fs s (decode_request d) | _ => false end then serve_turn s = Undef
      else ∃ b s', serve_turn s = Ok (b, s') ∧ server_ok fs s'
  | r => r = NoFuel ∧ serve_turn s = NoFuel
  end.
Proof.
  intros Hok. destruct (server_ok_announced fs s Hok) as (d & p & c & E & Hok1). unfold serve_turn.
  rewrite (sv_run _ _ _ _ _ E). sv. cbn [prefetches_ announced].
  pose proof (SkipToRequest_total (bool_decide (prefetches_ s = [])) (servingComplete_ s) (answers s) (buffer_ s) (output s)) as Ht.
  destruct (SkipToRequest _ _ _ _ _) as [[[[r buf] ins] out]| | | |] eqn:Es; try (by destruct Ht as [[? ?]|?]);
    [|split; [done|]; unfold mbind at 1, sv_bind, ReadRequest; cbn [servingComplete_ buffer_ answers output announced]; by rewrite Es].
  set (req := match r with SkipFail => Some (mkRequest DESTROY 0 0) | SkipNone => None | SkipGot d => Some (decode_request d) end).
  assert (ReadRequest (bool_decide (prefetches_ s = [])) (announced s d p c) = Ok (req, set_input buf ins out (announced s d p c))) as Er
    by (unfold ReadRequest; cbn [servingComplete_ buffer_ answers output announced]; by rewrite Es).
  rewrite (sv_run _ _ _ _ _ Er). pose proof (turn_tail fs _ req (server_ok_input _ _ buf ins out Hok1)) as Htail. cbn zeta in Htail.
  by destruct r.
Qed.

End server.
