(* ===== verification/IncrementalEnd.v ===== *)
(** * The server of an incremental installation: what it achieves

    Theorems about every state that the server can reach, with runs that show what it does not
    intend. *)

From S2P Require Import Prelude Strings IncrementalUtils IncrementalSig Incremental IncrementalInv IncrementalServe.

(** The files as they were opened. *)
Definition opened (fs : list File) : Prop :=
  llen fs < 2 ^ 15 ∧ ∀ i f, lget fs i = Some f → file_ok i f ∧ reset f = f.

Section server.
Context `{!LZ4} `{!LZ4Laws}.

(** The states of the server: before the first turn, and after any turn. *)
Inductive reach (fs : list File) : Server → Prop :=
  | reach_start ins fate : reach fs (new_Server fs ins fate)
  | reach_turn s b s' : reach fs s → serve_turn s = Ok (b, s') → reach fs s'.

Fixpoint turns (n : nat) (s : Server) : res Server :=
  match n with
  | O => Ok s
  | S n => '(b, s) ← serve_turn s; if (b : bool) then Ok s else turns n s
  end.

Lemma reach_turns fs n s s' : reach fs s → turns n s = Ok s' → reach fs s'.
Proof.
  revert s. induction n as [|n IH]; intros s Hr E; cbn in E; [by simplify_eq|].
  destruct (serve_turn s) as [[b s1]| | | |] eqn:Et; try done. cbn in E.
  assert (reach fs s1) by by eapply reach_turn. destruct b; [by simplify_eq|by eapply IH].
Qed.

Lemma lget_replicate_false n k : lget (replicate n false) k ≠ Some true.
Proof. unfold lget. case_bool_decide; [|done]. intros [E _]%lookup_replicate. done. Qed.

Lemma count_true_false n : count_true (replicate n false) = 0.
Proof. induction n as [|n IH]; [done|]. cbn [replicate]. rewrite count_true_cons. lia. Qed.

Lemma start_ok fs ins fate : opened fs → server_ok fs (new_Server fs ins fate).
Proof.
  intros [Hn Hf]. assert (∀ i f, lget fs i = Some f → file_inv [] i f ∧ tree_inv i f []) as Hall.
  { intros i f Hi. destruct (Hf i f Hi) as [Hok Er]. split.
    - split; [done|rewrite <- Er; cbn; by rewrite count_true_false|]. intros k. rewrite <- Er. cbn.
      split; [by intros ?%lget_replicate_false|by intros ?%elem_of_nil].
    - split; [intros t Ht|intros [t Ht]]; rewrite <- Er in Ht; by apply lget_replicate_false in Ht. }
  split; [|split; [constructor|intros _ i f k ?%elem_of_empty; done]].
  exists []. split; cbn; [split_and!; [done..|by exists [], []]| |done]. split; try done.
  - apply list_eq. intros i. rewrite list_lookup_fmap. destruct (fs !! i) as [f|] eqn:E; [|done]. cbn. f_equal.
    apply (Hf (Z.of_nat i)). unfold lget. rewrite bool_decide_eq_true_2 by lia. by rewrite Nat2Z.id.
  - intros i f Hi. by apply Hall.
  - constructor.
  - intros _. split; [intros i f Hi; by apply Hall|]. intros pre r post i k f t E. by destruct pre.
Qed.

Lemma reach_ok fs s : opened fs → reach fs s → server_ok fs s.
Proof.
  intros Ho. induction 1 as [ins fate|s b s' _ IH E]; [by apply start_ok|]. pose proof (serve_turn_ok fs s IH) as Ht.
  destruct (SkipToRequest _ _ _ _ _) as [[[[r buf] ins] out]| | | |]; try (destruct Ht; congruence).
  destruct (match r with SkipGot d => _ | _ => _ end); [congruence|]. destruct Ht as (b' & s1 & E' & ?). rewrite E in E'. by simplify_eq.
Qed.

(** C17. The server of an incremental installation is memory safe with files as [opened] has
    them: fewer than 2^15 files of fewer than 2^42 bytes, of which those of a single block are
    not signed (such a file cannot be served, see [signed_single_block]), and [pread] gives no
    more than it is asked for.  In every state that the server can reach, whatever the device
    sends, in whatever pieces, whatever the files answer and whichever writes fail, a turn ends
    and leaves the server in order, or waits for the device; no table is read or written out of
    range, and the buffer with its room for two blocks is never overrun.  The one exception
    among the requests is one to prefetch a file that the server does not have, which is not
    checked and is undefined behaviour. *)
Theorem serving_safe fs s : opened fs → reach fs s →
  match SkipToRequest (bool_decide (prefetches_ s = [])) (servingComplete_ s) (buffer_ s) (answers s) (output s) with
  | Ok (r, _, _, _) =>
      if match r with SkipGot d => bad_prefetch fs s (decode_request d) | _ => false end then serve_turn s = Undef
      else ∃ b s', serve_turn s = Ok (b, s') ∧ sizeof_ChunkHeader + llen (pendingBlocks_ s') ≤ kChunkFlushSize
  | r => r = NoFuel ∧ serve_turn s = NoFuel
  end.
Proof.
  intros Ho Hr. pose proof (serve_turn_ok fs s (reach_ok fs s Ho Hr)) as Ht.
  destruct (SkipToRequest _ _ _ _ _) as [[[[r buf] ins] out]| | | |]; try done.
  destruct (match r with SkipGot d => _ | _ => _ end); [done|]. destruct Ht as (b & s' & E & (rs & Hi) & _).
  exists b, s'. split; [done|]. apply (inv_out _ _ _ Hi).
Qed.

(** ** What the device has *)

(** The content of file [i], put together from the responses. *)
Definition find_block (rs : list response) (i k : Z) : option response :=
  List.find (λ r, bool_decide (data_key r = Some (i, k))) rs.
Definition assemble (rs : list response) (i n : Z) : option bytes :=
  @concat byte <$> mapM (λ k, find_block rs i k ≫= block_data) (seqZ 0 n).

(** The file has this content while it is served, as far as it can be read. *)
Definition holds (content : bytes) (f : File) : Prop :=
  fsize f = llen content ∧
  ∀ now k raw, ReadDataBlock f now k = Some raw → raw = ltake kBlockSize (ldrop (k * kBlockSize) content).

Lemma find_block_some rs i k : (i, k) ∈ data_keys rs → ∃ r, find_block rs i k = Some r ∧ r ∈ rs ∧ data_key r = Some (i, k).
Proof.
  intros (r & Hr & Hk)%list_elem_of_omap. unfold find_block. destruct (List.find _ rs) as [r'|] eqn:E.
  - apply find_some in E as [Hin He]. exists r'. split_and!; [done|by apply list_elem_of_In|by apply bool_decide_eq_true_1 in He].
  - apply list_elem_of_In in Hr. apply (find_none _ _ E) in Hr. by rewrite bool_decide_eq_true_2 in Hr.
Qed.

Lemma mapM_blocks (g : Z → option bytes) (content : bytes) n a :
  0 ≤ a → (∀ k, a ≤ k < a + Z.of_nat n → g k = Some (ltake kBlockSize (ldrop (k * kBlockSize) content))) →
  llen content ≤ (a + Z.of_nat n) * kBlockSize →
  @concat byte <$> mapM g (seqZ a (Z.of_nat n)) = Some (ldrop (a * kBlockSize) content).
Proof.
  revert a. induction n as [|n IH]; intros a Ha Hg Hl.
  - cbn. rewrite llen_ldrop_ge by lia. done.
  - rewrite seqZ_cons by lia. cbn [mapM list_fmap]. rewrite Hg by lia. cbn [mbind option_bind].
    replace (Z.pred (Z.of_nat (S n))) with (Z.of_nat n) by lia. specialize (IH (Z.succ a)).
    assert (@concat byte <$> mapM g (seqZ (Z.succ a) (Z.of_nat n)) = Some (ldrop (Z.succ a * kBlockSize) content)) as E
      by (apply IH; [lia|intros; apply Hg; lia|lia]).
    destruct (mapM g (seqZ (Z.succ a) (Z.of_nat n))) as [l|]; [|done]. cbn in E |- *. f_equal. injection E as ->.
    replace (Z.succ a * kBlockSize) with (a * kBlockSize + kBlockSize) by lia.
    rewrite <- ldrop_ldrop by (unfold kBlockSize; lia). apply ltake_ldrop.
Qed.

Lemma assemble_all fs s rs i f content : inv fs s rs → lget fs i = Some f → (∀ g, g ∈ files_ s → complete g) → holds content f →
  assemble rs i (nblocks f) = Some content.
Proof.
  intros Hi Hf Hall [Hsz Hread]. destruct (core_file_at _ _ _ _ _ (inv_core _ _ _ Hi) Hf) as (g & Hg & ->).
  pose proof (co_file _ _ _ (inv_core _ _ _ Hi) _ _ Hg) as Hgi. pose proof Hgi as [Gok _ Gs]. pose proof (nblocks_bound _ _ Gok).
  change (nblocks (reset g)) with (nblocks g). change (fsize (reset g)) with (fsize g) in Hsz.
  unfold assemble. rewrite <- (Z2Nat.id (nblocks g)) by lia. transitivity (Some (ldrop (0 * kBlockSize) content)); [|done].
  apply mapM_blocks; [done| |].
  - intros k Hk. destruct (find_block_some rs i k) as (r & -> & Hr & Hkey).
    { apply Gs. eapply complete_all; [done|by apply Hall, (lget_elem _ _ _ Hg)|]. rewrite (ok_blocks _ _ Gok). lia. }
    cbn [mbind option_bind]. pose proof (co_served _ _ _ (inv_core _ _ _ Hi)) as Hs. rewrite Forall_forall in Hs.
    destruct (Hs r Hr i k Hkey) as (f' & now & raw & Hf' & Hraw & ->). rewrite Hf in Hf'. simplify_eq.
    rewrite data_resp_data. f_equal. by eapply Hread.
  - rewrite <- Hsz, Z2Nat.id by lia. unfold nblocks, kBlockSize. Z.div_mod_to_equations. lia.
Qed.

(** No write has failed so far. *)
Definition intact (s : Server) : Prop := ∀ n, (n < length (chunks s))%nat → wire s n = None.

Lemma device_intact s : intact s → device s = concat (chunks s).
Proof.
  intros Hi. unfold device. f_equal. apply list_eq. intros n. rewrite list_lookup_imap. destruct (chunks s !! n) as [c|] eqn:E; [|done].
  cbn. by rewrite (Hi n) by by eapply lookup_lt_Some.
Qed.

(** What the device has when the end was sent and no write failed. *)
Lemma arrived fs s : opened fs → reach fs s → doneSent s = true → intact s →
  ∃ rs, received (device s) = Some rs ∧ done_resp ∈ rs ∧ NoDup (data_keys rs) ∧
    (∀ i f content, lget fs i = Some f → holds content f → assemble rs i (nblocks f) = Some content).
Proof.
  intros Ho Hr Hd Hin. destruct (reach_ok fs s Ho Hr) as ((rs & Hi) & _). destruct (inv_done _ _ _ Hi Hd) as (Hp & Hdone & Hall).
  exists rs. rewrite device_intact by done. split_and!; [|done|apply (inv_core _ _ _ Hi)|].
  - apply wrote_received. rewrite <- Hp. apply Hi.
  - intros i f content Hf Hh. by eapply assemble_all.
Qed.

(** C16. When the device is told that everything was sent, and no write to it has failed, it
    has everything: in every state that the server can reach in which it has sent the end, the
    bytes that the device got, read chunk by chunk and block by block, have the end in them and
    every block of every file exactly once, and the blocks put together and decompressed are
    the files, byte for byte; however the requests came, and whichever reads failed before.
    The files are as [opened] has them (fewer than 2^15, each of fewer than 2^42 bytes, those of a
    single block not signed) and do not change while they are served ([holds]).  A write that
    fails is ignored by the server, which then announces the end although the device lacks
    blocks: see [failed_write_announced]. *)
Theorem files_arrive fs s : opened fs → reach fs s → doneSent s = true → intact s →
  ∃ rs, received (device s) = Some rs ∧ done_resp ∈ rs ∧ NoDup (data_keys rs) ∧
    ∀ i f content, lget fs i = Some f → holds content f → assemble rs i (nblocks f) = Some content.
Proof. apply arrived. Qed.

(** What was written so far is whole responses. *)
Lemma wrote_prefix p c rs : wrote p c rs → ∃ front last, received (concat c) = Some front ∧ rs = front ++ last ∧ p = stream last.
Proof.
  intros (Hok & _ & gs & last & -> & -> & -> & Hl). exists (concat gs), last. split_and!; [|done..].
  apply Forall_app in Hok as [Hok _]. unfold received. rewrite parse_chunks_run; [done| |done|lia].
  clear Hl. induction gs as [|g gs IH]; [constructor|]. cbn in Hok. apply Forall_app in Hok as []. constructor; auto.
Qed.

(** C19. No block is used before it can be checked: in every state that the server can reach, if the trees can be read,
    each data block of a signed file in the chunks given to the connection comes after the hash block of its
    leaf and after all the hash blocks above the leaves; and no data block is there twice.  Up to the
    first write that fails, these chunks are what the device receives. *)
Theorem hashes_precede_data fs s : opened fs → reach fs s → trees_readable fs →
  ∃ rs, received (concat (chunks s)) = Some rs ∧ hashes_first fs rs ∧ NoDup (data_keys rs).
Proof.
  intros Ho Hr Ht. destruct (reach_ok fs s Ho Hr) as ((rs & Hi) & _). destruct (wrote_prefix _ _ _ (inv_out _ _ _ Hi)) as (front & last & E & -> & _).
  exists front. pose proof (inv_core _ _ _ Hi) as Hc. split_and!; [done| |].
  - destruct (co_hashes _ _ _ Hc Ht) as [_ Hh]. intros pre r post i k f t ->. eapply (Hh pre r (post ++ last)). by rewrite <- app_assoc.
  - pose proof (co_once _ _ _ Hc) as Hn. rewrite data_keys_app in Hn. by apply NoDup_app in Hn as [? _].
Qed.

(** ** Everything is sent in the end *)

(** There is no request in the buffer. *)
Definition quiet (b : bytes) : Prop := ∃ m, find_magic b = (0, m) ∧ (m = true → llen b < 12).

Lemma quiet_poll b blocking done ins out : quiet b →
  SkipToRequest blocking done b (APoll 0 :: ins) out =
    Ok (if blocking && done then SkipFail else SkipNone, b, ins, (out ++ []) ++ b).
Proof.
  intros (m & E & Hm). cbn [SkipToRequest]. rewrite E, ltake_0, ldrop_0.
  destruct (m && (sizeof_RequestCommand + 4 <=? llen b)) eqn:Ef.
  - apply andb_prop in Ef as [-> Hl%Z.leb_le]. unfold sizeof_RequestCommand in Hl. specialize (Hm eq_refl). lia.
  - cbn [Z.ltb Z.compare orb]. by destruct (blocking && done).
Qed.

Lemma unsent_nonneg fs s rs : inv fs s rs → 0 ≤ unsent (files_ s).
Proof.
  intros Hi. assert (∀ f, f ∈ files_ s → sentBlocksCount f ≤ llen (sentBlocks f)) as Hall.
  { intros f (i & Hf)%elem_lget. pose proof (co_file _ _ _ (inv_core _ _ _ Hi) _ _ Hf) as [_ -> _]. apply count_true_bound. }
  clear Hi. induction (files_ s) as [|f fl IH]; [done|]. rewrite unsent_cons. pose proof (Hall f (list_elem_of_here _ _)).
  specialize (IH (λ g Hg, Hall g (list_elem_of_further _ _ _ Hg))). lia.
Qed.

Lemma wanted_complete fs s rs : inv fs s rs → wanted fs s → readable fs → prefetches_ s = [] →
  (∀ i, 0 ≤ i < llen fs → i ∈ prefetchedFiles s) → ∀ f, f ∈ files_ s → complete f.
Proof.
  intros Hi Hw Hr Hq Hall f (i & Hf)%elem_lget. pose proof (co_file _ _ _ (inv_core _ _ _ Hi) _ _ Hf) as [Fok Fc _].
  unfold complete. rewrite Fc. apply count_true_all. intros k Hk. rewrite (ok_blocks _ _ Fok) in Hk.
  pose proof (core_reset_file _ _ _ _ _ (inv_core _ _ _ Hi) Hf) as Hrf.
  destruct (Hw Hr i (reset f) k) as [(g & Hg & ?)|(e & He & _)]; [|done|done| |].
  - apply Hall. by apply lget_Some_range in Hrf.
  - congruence.
  - rewrite Hq in He. by apply elem_of_nil in He.
Qed.

(** A turn in which the device says nothing. *)
Lemma silent_turn fs s ins : server_ok fs s → readable fs → quiet (buffer_ s) → answers s = APoll 0 :: ins →
  (∀ i, 0 ≤ i < llen fs → i ∈ prefetchedFiles s) →
  ∃ b s', serve_turn s = Ok (b, s') ∧ server_ok fs s' ∧ buffer_ s' = buffer_ s ∧ answers s' = ins ∧
    prefetchedFiles s' = prefetchedFiles s ∧ (doneSent s = true ∨ prefetches_ s = [] → doneSent s' = true) ∧
    (prefetches_ s ≠ [] → b = false ∧ (prefetches_ s' = [] ∨ unsent (files_ s') = unsent (files_ s) - 128)).
Proof.
  intros ((rs & Hi) & Hq & Hw) Hr Hb Ha Hall. destruct (announce_inv fs s rs Hi) as (d & p & c & new & E & Hi1 & Hd1 & Hd2).
  assert (doneSent s = true ∨ prefetches_ s = [] → d = true) as Hd.
  { intros [?|He]; [auto|]. apply Hd2; [done|]. by eapply wanted_complete. }
  unfold serve_turn. rewrite (sv_run _ _ _ _ _ E). sv. cbn [prefetches_ announced].
  set (bl := bool_decide (prefetches_ s = [])).
  set (s1 := set_input (buffer_ s) ins ((output s ++ []) ++ buffer_ s) (announced s d p c)).
  set (req := if bl && servingComplete_ s then Some (mkRequest DESTROY 0 0) else None).
  assert (ReadRequest bl (announced s d p c) = Ok (req, s1)) as Er.
  { unfold ReadRequest. cbn [servingComplete_ buffer_ answers output announced]. rewrite Ha, quiet_poll by done.
    unfold req, s1. by destruct (bl && servingComplete_ s). }
  rewrite (sv_run _ _ _ _ _ Er). assert (inv fs s1 (rs ++ new)) as Hi2 by by destruct Hi1; split.
  destruct (bl && servingComplete_ s) eqn:Eb; unfold req.
  { apply andb_prop in Eb as [Ebl _]. unfold bl in Ebl. apply bool_decide_eq_true_1 in Ebl.
    exists true, s1. split_and!; try done. by split; [eexists|]. }
  rewrite (sv_run _ _ _ _ _ eq_refl). cbn match.
  destruct (RunPrefetching_inv fs s1 (rs ++ new) Hi2 Hq) as (m & q & fl & n & p' & c' & new' & Es & Hi3 & Hp & Hm & Hq3 & Hend & Hk).
  cbn zeta in *. rewrite (sv_run _ _ _ _ _ Es). eexists false, _. split; [done|]. split_and!; try done.
  - eapply server_ok_intro; [done|done|]. intros Hr' i f k Hin Hf Hk'.
    destruct (Hw Hr' i f k Hin Hf Hk') as [?|?]; [left; by apply (pr_keep _ _ _ _ Hp)|by apply Hk].
  - intros _. split; [done|]. destruct Hend as [->|Em]; [by left|right]. rewrite (pr_count _ _ _ _ Hp), Em. done.
Qed.

Lemma all_announced fs s n : readable fs → server_ok fs s →
  (∀ i, 0 ≤ i < llen fs → i ∈ prefetchedFiles s) → quiet (buffer_ s) → answers s = replicate n (APoll 0) →
  unsent (files_ s) / kPrefetchBlocksPerIteration + 2 ≤ Z.of_nat n →
  ∃ s', turns n s = Ok s' ∧ doneSent s' = true.
Proof.
  intros Hr Hok. change kPrefetchBlocksPerIteration with 128.
  assert (∀ n s, server_ok fs s → (∀ i, 0 ≤ i < llen fs → i ∈ prefetchedFiles s) → quiet (buffer_ s) → answers s = replicate n (APoll 0) →
    doneSent s = true ∨ (if bool_decide (prefetches_ s = []) then 1 else unsent (files_ s) / 128 + 2) ≤ Z.of_nat n →
    ∃ s', turns n s = Ok s' ∧ doneSent s' = true) as Hmain.
  { clear s n Hok. induction n as [|n IH]; intros s Hok Hall Hb Ha Hn.
    - destruct Hn as [?|Hn]; [by exists s|]. destruct Hok as ((rs & Hi) & _). pose proof (unsent_nonneg _ _ _ Hi).
      pose proof (Z.div_pos (unsent (files_ s)) 128). case_bool_decide; lia.
    - destruct (silent_turn fs s (replicate n (APoll 0)) Hok Hr Hb Ha Hall) as (b & s1 & E & Hok1 & Hb1 & Ha1 & Hp1 & Hd1 & Hprog).
      cbn [turns]. rewrite E. cbn [mbind res_bind]. destruct b.
      + exists s1. split; [done|]. apply Hd1. destruct (decide (prefetches_ s = [])) as [|Hne]; [by right|]. by destruct (Hprog Hne).
      + apply IH; [done|by rewrite Hp1|by rewrite Hb1|done|]. destruct (decide (prefetches_ s = [])) as [Hq|Hne]; [left; auto|].
        destruct Hn as [?|Hn]; [left; auto|]. rewrite bool_decide_eq_false_2 in Hn by done. right. destruct Hok1 as ((rs & Hi) & _).
        pose proof (unsent_nonneg _ _ _ Hi). destruct (Hprog Hne) as [_ [->|Hu]].
        * rewrite bool_decide_eq_true_2 by done. destruct Hok as ((rs' & Hi') & _). pose proof (unsent_nonneg _ _ _ Hi').
          pose proof (Z.div_pos (unsent (files_ s)) 128). lia.
        * case_bool_decide; Z.div_mod_to_equations; lia. }
  intros Hall Hb Ha Hn. apply Hmain; try done. right. destruct Hok as ((rs & Hi) & _). pose proof (unsent_nonneg _ _ _ Hi).
  pose proof (Z.div_pos (unsent (files_ s)) 128). case_bool_decide; lia.
Qed.

(** C18. Everything is sent and announced in the end, and in time, while the device is silent.
    Take any state that the server can reach after the device has asked to prefetch every file,
    with no request left in the buffer, and suppose that from there on every poll returns
    without input, all data and trees can be read, and the files are as [opened] has them
    (those of a single block not signed).  Then the server sends the rest in turns of 128 blocks
    and announces the end after at most two more turns; and if no write to the device has
    failed, the device then has every file, byte for byte. *)
Theorem everything_is_sent fs s n : opened fs → reach fs s → readable fs →
  (∀ i, 0 ≤ i < llen fs → i ∈ prefetchedFiles s) → quiet (buffer_ s) → answers s = replicate n (APoll 0) →
  unsent (files_ s) / kPrefetchBlocksPerIteration + 2 ≤ Z.of_nat n →
  ∃ s', turns n s = Ok s' ∧ doneSent s' = true ∧
    (intact s' → ∃ rs, received (device s') = Some rs ∧ done_resp ∈ rs ∧
       ∀ i f content, lget fs i = Some f → holds content f → assemble rs i (nblocks f) = Some content).
Proof.
  intros Ho Hreach Hr Hall Hb Ha Hn. destruct (all_announced fs s n Hr (reach_ok fs s Ho Hreach) Hall Hb Ha Hn) as (s' & E & Hd).
  exists s'. split; [done|]. split; [done|]. intros Hi. destruct (arrived fs s' Ho) as (rs & ? & ? & _ & ?); try done; [by eapply reach_turns|].
  by exists rs.
Qed.

End server.

(** ** Requests in the output of the installation *)

(** The first request in the output: the text before it, its bytes, and the rest. *)
Definition next_request (b : bytes) : option (bytes * bytes * bytes) :=
  let '(n, found) := find_magic b in
  let r := ldrop n b in
  if found && (12 <=? llen r) then Some (ltake n b, ltake 8 (ldrop 4 r), ldrop 12 r) else None.

Lemma find_magic_step x b : find_magic (x :: b) =
  if 5 <=? llen (x :: b) then
    if of_be (ltake 4 (x :: b)) =? INCR then (0, true) else (1 + (find_magic b).1, (find_magic b).2)
  else (0, false).
Proof.
  destruct b as [|b1 [|b2 [|b3 [|b4 b]]]]; try done.
  rewrite !llen_cons. pose proof (llen_nonneg b). destruct (Z.leb_spec 5 (1 + (1 + (1 + (1 + (1 + llen b)))))); [|lia].
  change (ltake 4 (x :: b1 :: b2 :: b3 :: b4 :: b)) with [x; b1; b2; b3].
  change (find_magic (x :: b1 :: b2 :: b3 :: b4 :: b)) with
    (if of_be [x; b1; b2; b3] =? INCR then (0, true) else let '(n, found) := find_magic (b1 :: b2 :: b3 :: b4 :: b) in (1 + n, found)).
  destruct (of_be [x; b1; b2; b3] =? INCR); [done|]. by destruct (find_magic (b1 :: b2 :: b3 :: b4 :: b)).
Qed.

Lemma find_magic_range b : 0 ≤ (find_magic b).1 ≤ llen b.
Proof.
  induction b as [|x b IH]; [done|]. rewrite find_magic_step. destruct (5 <=? _); [|rewrite llen_cons; pose proof (llen_nonneg b); cbn; lia].
  rewrite llen_cons. destruct (_ =? _); cbn; [pose proof (llen_nonneg b)|]; lia.
Qed.

Lemma ldrop_cons {A} n (x : A) l : 0 ≤ n → ldrop (1 + n) (x :: l) = ldrop n l.
Proof. intros. unfold ldrop. by replace (Z.to_nat (1 + n)) with (S (Z.to_nat n)) by lia. Qed.

Lemma ltake_cons {A} n (x : A) l : 0 ≤ n → ltake (1 + n) (x :: l) = x :: ltake n l.
Proof. intros. unfold ltake. by replace (Z.to_nat (1 + n)) with (S (Z.to_nat n)) by lia. Qed.

(** The search does not depend on where the data was cut. *)
Lemma find_magic_app b d :
  find_magic (b ++ d) = ((find_magic b).1 + (find_magic (ldrop (find_magic b).1 b ++ d)).1, (find_magic (ldrop (find_magic b).1 b ++ d)).2).
Proof.
  induction b as [|x b IH]; [cbn [find_magic fst]; rewrite ldrop_0, Z.add_0_l; apply surjective_pairing|]. rewrite (find_magic_step x b).
  destruct (Z.leb_spec 5 (llen (x :: b))) as [Hl|]; [|cbn [fst]; rewrite ldrop_0, Z.add_0_l; apply surjective_pairing].
  destruct (of_be (ltake 4 (x :: b)) =? INCR) eqn:E; [cbn [fst]; rewrite ldrop_0, Z.add_0_l; apply surjective_pairing|]. cbn [fst snd].
  pose proof (find_magic_range b). rewrite ldrop_cons by lia. cbn [app]. rewrite find_magic_step.
  change (x :: b ++ d) with ((x :: b) ++ d). rewrite ltake_app_le by lia. rewrite E, llen_app. pose proof (llen_nonneg d).
  destruct (Z.leb_spec 5 (llen (x :: b) + llen d)); [|lia]. rewrite IH. cbn [fst snd]. f_equal. lia.
Qed.

Lemma next_request_app b d : let n := (find_magic b).1 in
  next_request (b ++ d) = (λ '(t, q, r), (ltake n b ++ t, q, r)) <$> next_request (ldrop n b ++ d).
Proof.
  cbn zeta. unfold next_request. rewrite (find_magic_app b d). pose proof (find_magic_range b) as Hn.
  set (n := (find_magic b).1) in *. pose proof (find_magic_range (ldrop n b ++ d)).
  destruct (find_magic (ldrop n b ++ d)) as [n' m']. cbn [fst snd] in *.
  assert (ldrop (n + n') (b ++ d) = ldrop n' (ldrop n b ++ d)) as E by (rewrite <- ldrop_app_le, ldrop_ldrop by lia; done).
  rewrite E. destruct (m' && _); [|done]. cbn. do 3 f_equal.
  rewrite <- (ltake_ldrop n b) at 1. rewrite <- app_assoc. rewrite ltake_app_ge by (rewrite llen_ltake; lia). do 2 f_equal.
  rewrite llen_ltake by lia. lia.
Qed.

Lemma next_request_here b d : let n := (find_magic b).1 in
  (find_magic b).2 = true → 12 <= llen (ldrop n b) →
  next_request (b ++ d) = Some (ltake n b, ltake 8 (ldrop 4 (ldrop n b)), ldrop 12 (ldrop n b) ++ d).
Proof.
  cbn zeta. intros Hm Hl. pose proof (find_magic_range b) as Hn. set (n := (find_magic b).1) in *.
  assert (find_magic (b ++ d) = (n, true)) as E.
  { rewrite find_magic_app. fold n. pose proof (find_magic_app b []) as E0. fold n in E0. rewrite !app_nil_r in E0.
    assert (find_magic (ldrop n b) = (0, true)) as E1.
    { destruct (find_magic b) as [k m] eqn:Eb. cbn in n, Hm. subst n m. destruct (find_magic (ldrop k b)) as [k' m']. cbn in E0. simplify_eq. f_equal. lia. }
    destruct (ldrop n b) as [|x r] eqn:Ed; [done|]. rewrite find_magic_step in E1.
    destruct (Z.leb_spec 5 (llen (x :: r))); [|done]. destruct (of_be (ltake 4 (x :: r)) =? INCR) eqn:Ei; [|cbn in E1; simplify_eq; pose proof (find_magic_range r); lia].
    cbn [app]. rewrite find_magic_step. change (x :: r ++ d) with ((x :: r) ++ d). rewrite ltake_app_le, Ei, llen_app by lia.
    pose proof (llen_nonneg d). destruct (Z.leb_spec 5 (llen (x :: r) + llen d)); [|lia]. cbn. f_equal. lia. }
  unfold next_request. rewrite E, ldrop_app_le, llen_app by lia. pose proof (llen_nonneg d).
  destruct (Z.leb_spec 12 (llen (ldrop n b) + llen d)); [|lia]. cbn [andb]. rewrite ltake_app_le, !ldrop_app_le by lia.
  rewrite ltake_app_le by (rewrite llen_ldrop; lia). done.
Qed.

(** C20. Requests are found in the output of the installation however it is cut into pieces: the server takes
    the first request of the whole output, with the text before it passed on and the rest
    kept, and when there is none yet it passes on all the text; for any pieces, any
    bytes that were kept, and any answers after them. *)
Theorem requests_in_pieces ds : ∀ blocking complete buf out rest, Forall (λ d, d ≠ []) ds →
  match next_request (buf ++ concat ds) with
  | Some (text, request, others) => ∃ kept later,
      SkipToRequest blocking complete buf ((ARead <$> ds) ++ rest) out = Ok (SkipGot request, kept, (ARead <$> later) ++ rest, out ++ text) ∧
      kept ++ concat later = others
  | None => ∃ kept,
      SkipToRequest blocking complete buf ((ARead <$> ds) ++ APoll 0 :: rest) out =
        Ok (if blocking && complete then SkipFail else SkipNone, kept, rest, out ++ buf ++ concat ds)
  end.
Proof.
  induction ds as [|d ds IH]; intros blocking complete buf out rest Hds.
  - cbn [concat fmap list_fmap app]. rewrite app_nil_r. unfold next_request. destruct (find_magic buf) as [n m] eqn:E.
    pose proof (find_magic_range buf) as Hn. rewrite E in Hn. cbn in Hn.
    destruct (m && (12 <=? llen (ldrop n buf))) eqn:Em.
    + exists (ldrop 12 (ldrop n buf)), []. split; [|by rewrite app_nil_r]. destruct rest; cbn [SkipToRequest fmap list_fmap app]; rewrite E;
        change (sizeof_RequestCommand + 4) with 12; rewrite Em; done.
    + exists (ldrop n buf). cbn [SkipToRequest]. rewrite E. change (sizeof_RequestCommand + 4) with 12. rewrite Em. cbn [Z.ltb Z.compare orb].
      rewrite <- app_assoc, ltake_ldrop. by destruct (blocking && complete).
  - apply Forall_cons_1 in Hds as [Hd Hds]. cbn [concat fmap list_fmap app]. destruct (find_magic buf) as [n m] eqn:E.
    pose proof (find_magic_range buf) as Hn. rewrite E in Hn. cbn in Hn.
    destruct (m && (12 <=? llen (ldrop n buf))) eqn:Em.
    + apply andb_prop in Em as [-> Hl%Z.leb_le]. rewrite next_request_here by (rewrite E; done). rewrite E. cbn [fst].
      exists (ldrop 12 (ldrop n buf)), (d :: ds). split; [|done]. cbn [SkipToRequest]. rewrite E. change (sizeof_RequestCommand + 4) with 12.
      destruct (Z.leb_spec 12 (llen (ldrop n buf))); [done|lia].
    + rewrite (next_request_app buf). rewrite E. cbn [fst]. destruct d as [|x d]; [done|]. set (dd := x :: d) in *.
      specialize (IH blocking complete (ldrop n buf ++ dd) (out ++ ltake n buf)). rewrite <- app_assoc in IH.
      assert (∀ ins, SkipToRequest blocking complete buf (ARead dd :: ins) out =
                     SkipToRequest blocking complete (ldrop n buf ++ dd) ins (out ++ ltake n buf)) as Estep
        by (intros ins; cbn [SkipToRequest]; rewrite E; change (sizeof_RequestCommand + 4) with 12; by rewrite Em).
      destruct (next_request (ldrop n buf ++ dd ++ concat ds)) as [[[t q] r]|]; cbn [fmap option_fmap option_map].
      * destruct (IH rest Hds) as (kept & later & E1 & E2). exists kept, later. rewrite Estep, E1. split; [|done]. by rewrite <- app_assoc.
      * destruct (IH rest Hds) as (kept & E1). exists kept. rewrite Estep, E1. do 2 f_equal. rewrite <- !app_assoc. f_equal.
        rewrite (app_assoc (ltake n buf)), ltake_ldrop. done.
Qed.
