(* ===== verification/IncrementalDemo.v ===== *)
(** * The server of an incremental installation: from the files on the host to its end

    What [serve] opens satisfies the assumptions of the theorems, and runs of the whole server. *)

From S2P Require Import Prelude Strings IncrementalUtils IncrementalSig Incremental IncrementalClient IncrementalInv IncrementalServe IncrementalEnd.

(** ** Opening the files *)

Lemma le_value_bound l : 0 ≤ le_value l < 256 ^ llen l.
Proof.
  induction l as [|b l IH]; [done|]. cbn [le_value]. rewrite llen_cons, Z.pow_add_r by (done || apply llen_nonneg).
  pose proof (bval_range b). change (256 ^ 1) with 256. change (2 ^ 8) with 256 in *. lia.
Qed.

Lemma valueAt_bound fd off : - 2 ^ 31 ≤ valueAt 4 fd off < 2 ^ 31.
Proof.
  unfold valueAt. destruct (fd 4 off) as [d|]; [|lia]. destruct (Z.eqb_spec (llen d) 4) as [E|]; [|lia].
  pose proof (le_value_bound d) as H. rewrite E in H. change (256 ^ 4) with (2 ^ 32) in H. change (8 * 4 - 1) with 31. change (8 * 4) with 32.
  destruct (Z.ltb_spec (le_value d) (2 ^ 31)); lia.
Qed.

Lemma eocd_loop_bound fuel fd size : ∀ c o, - 2 ^ 15 ≤ c → eocd_loop fuel fd size c = Ok o → 0 ≤ size → o ≤ size + 2 ^ 15.
Proof.
  induction fuel as [|fuel IH]; intros c o Hc E Hs; [done|]. cbn [eocd_loop] in E. destruct (c <? size); [|simplify_eq; lia].
  destruct (eocd_at _ _ _); [unfold kZipEocdRecMinSize in E; simplify_eq; lia|]. eapply IH; [|done|done]. apply s16_range.
Qed.

Lemma SignerBlockOffset_bound fuel fd size o : SignerBlockOffset fuel fd size = Ok o → 0 ≤ size < 2 ^ 42 → o < 2 ^ 43.
Proof.
  unfold SignerBlockOffset, CentralDirOffset. intros (c & E & H)%bind_Ok_inv Hs. apply bind_Ok_inv in E as (e & Ee & E).
  apply eocd_loop_bound in Ee; [|lia..]. pose proof (valueAt_bound fd (e + 12)). destruct (e <? 0); simplify_eq; [cbn in H; by simplify_eq|].
  set (c := e - _) in *. destruct (c <? 0); [by simplify_eq|]. destruct (_ || _ || _); [by simplify_eq|].
  pose proof (valueAt_bound fd (c - kApkSigBlockFooterSize)). set (o' := c - _ - 8) in *. destruct (o' <? 0); [by simplify_eq|].
  destruct (negb _); [by simplify_eq|]. assert (o' = o) by congruence. subst o' c. lia.
Qed.

Lemma appendBlocks_nonneg start n l l' : appendBlocks start n l = Ok l' → 0 ≤ start → Forall (Z.le 0) l → Forall (Z.le 0) l'.
Proof.
  unfold appendBlocks. intros E Hs Hl. destruct (n =? 1); [simplify_eq; apply Forall_app; split; [done|by constructor]|].
  destruct (0 <=? n); [|by destruct (_ <? 0)]. simplify_eq. apply Forall_app. split; [done|]. apply Forall_forall. intros x Hx%elem_of_seqZ. lia.
Qed.

Lemma PriorityBlocks_nonneg fuel path fd zip size l : PriorityBlocksForFile fuel path fd zip size = Ok l →
  0 ≤ size < 2 ^ 42 → (∀ es, zip = Some es → Forall entry_ok es) → Forall (Z.le 0) l.
Proof.
  unfold PriorityBlocksForFile. destruct (negb _); [intros; simplify_eq; constructor|].
  intros (o & Eo & E)%bind_Ok_inv Hs Hz. apply SignerBlockOffset_bound in Eo; [|done]. destruct (Z.ltb_spec o 0); [simplify_eq; constructor|].
  apply bind_Ok_inv in E as (b & Eb & E). apply bind_Ok_inv in E as (m & Em & E). simplify_eq.
  apply Forall_forall. intros x [Hx _]%(proj2 (unduplicate_loop_spec (b ++ m) [])). revert x Hx. apply Forall_forall, Forall_app. split.
  - unfold ZipPriorityBlocks in Eb. rewrite !offset_block in Eb by lia. apply bind_Ok_inv in Eb as (b1 & Eb1 & Eb).
    pose proof (Z.div_pos o 4096). eapply appendBlocks_nonneg; [done..|]. change kNumBlocksInEocdSearch with 17 in Eb1.
    destruct (Z.ltb_spec 17 (size / 4096 - o / 4096 + 1)).
    + apply bind_Ok_inv in Eb1 as (b2 & Eb2 & Eb1). eapply appendBlocks_nonneg; [done|lia|]. by eapply appendBlocks_nonneg; [done|lia|].
    + by eapply appendBlocks_nonneg; [done|lia|].
  - destruct zip as [es|]; cbn in Em; [|simplify_eq; constructor]. destruct (entry_blocks_run es [] (Hz es eq_refl)) as (l' & El & Hl).
    rewrite El in Em. simplify_eq. apply Forall_forall. intros x [?%elem_of_nil|(e & He & _ & Hx & _)]%Hl; [done|].
    specialize (Hz es eq_refl). rewrite Forall_forall in Hz. destruct (Hz e He) as [? _]. pose proof (Z.div_pos (offset e) 4096). lia.
Qed.

(** The files of the host: [pread] gives no more than it is asked for, and a file of a single block has no signature. *)
Record host_ok (h : HostFile) : Prop := {
  ho_size : 0 ≤ hf_size h < 2 ^ 42;
  ho_data now off d : hf_fd h now kBlockSize off = Some d → llen d ≤ kBlockSize;
  ho_zip es : hf_zip h = Some es → Forall entry_ok es;
  ho_hash d fd now off r : hf_signature h = Some (d, fd) → fd now kBlockSize off = Some r → llen r ≤ kBlockSize;
  ho_signed : hf_signature h ≠ None → hf_size h = 0 ∨ kBlockSize < hf_size h
}.

Lemma new_File_ok fuel path i h fd off f : host_ok h → 0 ≤ i < 2 ^ 15 → new_File fuel path i (hf_size h) (hf_fd h) (hf_zip h) off fd = Ok f →
  (∀ g, fd = Some g → ∃ d, hf_signature h = Some (d, g)) → file_ok i f ∧ reset f = f.
Proof.
  intros [Hs Hd Hz Hh Hsig] Hi E Hfd. unfold new_File in E. apply bind_Ok_inv in E as (t & Et & E).
  destruct ((numBytesToNumBlocks (hf_size h) <? 0) || (t <? 0)) eqn:Eg; [done|].
  apply orb_false_iff in Eg as [Hn%Z.ltb_ge Ht%Z.ltb_ge]. apply bind_Ok_inv in E as (pr & Ep & E). simplify_eq.
  split; [|unfold reset; cbn; by rewrite !length_replicate]. split; cbn; try done.
  - apply s16_small. lia.
  - unfold llen, nblocks. cbn. rewrite length_replicate, Z2Nat.id, num_blocks by done. done.
  - unfold llen. by rewrite length_replicate, Z2Nat.id by done.
  - intros Htree. apply Hsig. unfold hasTree in Htree. apply bool_decide_eq_true_1 in Htree as [g Hg]. cbn in Hg.
    destruct (Hfd g Hg) as (d & ->). done.
  - by eapply PriorityBlocks_nonneg.
  - intros g now o r -> Hr. destruct (Hfd g eq_refl) as (d & Ed). by eapply Hh.
Qed.

Lemma open_files_ok fuel host paths : (∀ p h, host p = Some h → host_ok h) → ∀ i fs, 0 ≤ i → i + llen paths ≤ 2 ^ 15 →
  open_files fuel host i paths = Ok (Some fs) → llen fs = llen paths ∧ ∀ j f, lget fs j = Some f → file_ok (i + j) f ∧ reset f = f.
Proof.
  intros Hh. induction paths as [|p paths IH]; intros i fs Hi0 Hi E; cbn [open_files] in E.
  { simplify_eq. split; [done|]. intros j f Hj. apply lget_Some_range in Hj. unfold llen in Hj. cbn in Hj. lia. }
  destruct (host p) as [h|] eqn:Ep; [|done]. apply bind_Ok_inv in E as (sig & Esig & E). destruct sig as [[fd off]|]; [|done].
  apply bind_Ok_inv in E as (f & Ef & E). apply bind_Ok_inv in E as (rest & Er & E). destruct rest as [rest|]; [|done]. cbn in E. simplify_eq.
  rewrite llen_cons in Hi. pose proof (llen_nonneg paths). destruct (IH (i + 1) rest ltac:(lia) ltac:(lia) Er) as [Hl Hrest]. rewrite !llen_cons, Hl. split; [done|]. intros j g Hj. pose proof (lget_Some_range _ _ _ Hj) as Hjr.
  unfold lget in Hj. rewrite bool_decide_eq_true_2 in Hj by lia. destruct (decide (j = 0)) as [->|Hj0].
  - change (Some f = Some g) in Hj. simplify_eq. rewrite Z.add_0_r. apply (new_File_ok _ _ i _ _ _ _ (Hh _ _ Ep) ltac:(lia) Ef). intros g0 ->. unfold open_signature in Esig.
    destruct (hf_signature h) as [[d fd]|]; [|by simplify_eq]. destruct (skip_id_sig_headers _) as [o sz]. apply bind_Ok_inv in Esig as (x & _ & Esig).
    destruct (sz =? x); simplify_eq. by exists d.
  - replace (Z.to_nat j) with (S (Z.to_nat (j - 1))) in Hj by lia. cbn in Hj. replace (i + j) with (i + 1 + (j - 1)) by lia. apply Hrest.
    unfold lget. by rewrite bool_decide_eq_true_2 by lia.
Qed.

(** ** The whole server *)

Section server.
Context `{!LZ4} `{!LZ4Laws}.

(** The next request is one to prefetch a file that the server does not have. *)
Definition asks_unknown (fs : list File) (s : Server) : Prop :=
  ∃ d buf ins out, SkipToRequest (bool_decide (prefetches_ s = [])) (servingComplete_ s) (buffer_ s) (answers s) (output s)
      = Ok (SkipGot d, buf, ins, out) ∧ bad_prefetch fs s (decode_request d) = true.

Lemma serve_loop_outcome fs fuel : opened fs → ∀ s, reach fs s →
  match serve_loop fuel s with
  | Ok (_, s') => reach fs s'
  | NoFuel => True
  | Undef => ∃ s', reach fs s' ∧ asks_unknown fs s'
  | _ => False
  end.
Proof.
  intros Ho. induction fuel as [|fuel IH]; intros s Hr; [done|]. cbn [serve_loop]. pose proof (serve_turn_ok fs s (reach_ok fs s Ho Hr)) as Ht.
  destruct (SkipToRequest _ _ _ _ _) as [[[[r buf] ins] out]| | | |] eqn:Es;
    try (destruct Ht as [Hx Ht]; try done; unfold mbind, sv_bind; by rewrite Ht).
  destruct (match r with SkipGot d => bad_prefetch fs s (decode_request d) | _ => false end) eqn:Eb.
  - unfold mbind, sv_bind. rewrite Ht. cbn. exists s. split; [done|]. destruct r; try done. by eexists _, _, _, _.
  - destruct Ht as (b & s' & Et & _). rewrite (sv_run _ _ _ _ _ Et). assert (reach fs s') by by eapply reach_turn.
    destruct b; [done|by apply IH].
Qed.

(** The whole of serve: with any files on the host of which those of a single block are not signed, any
    device and any order of events, it ends the process with a message, returns, or goes on;
    it never aborts, and never runs into undefined behaviour unless the device asks to
    prefetch a file that does not exist; and the states it is in are those of the other theorems. *)
Theorem serve_outcome fuel scan host paths okay ins fate :
  (∀ p h, host p = Some h → host_ok h) → llen paths < 2 ^ 15 →
  match open_files scan host 0 paths with
  | Ok (Some fs) =>
      opened fs ∧
      match serve fuel scan host paths okay ins fate with
      | Ok (Some (b, s)) => b = okay ∧ reach fs s
      | Ok None => paths = []
      | NoFuel => True
      | Undef => ∃ s, reach fs s ∧ asks_unknown fs s
      | _ => False
      end
  | _ => True
  end.
Proof.
  intros Hh Hl. destruct (open_files scan host 0 paths) as [[fs|]| | | |] eqn:E; try done.
  destruct (open_files_ok _ _ paths Hh 0 fs ltac:(lia) ltac:(lia) E) as [Hlen Hfs]. assert (opened fs) as Ho by (split; [lia|exact Hfs]). split; [done|].
  unfold serve. case_bool_decide as Hp; [done|]. rewrite E. cbn [mbind res_bind]. unfold Serve. destruct okay; cbn [negb].
  - pose proof (serve_loop_outcome fs fuel Ho (new_Server fs ins fate) (reach_start fs ins fate)) as Hs. unfold mbind at 2, sv_bind.
    destruct (serve_loop fuel (new_Server fs ins fate)) as [[u s]| | | |]; cbn; done.
  - cbn. split; [done|]. apply reach_start.
Qed.

End server.

(** ** Runs *)

(** A codec that knows zeros only. *)
Definition zeros (d : bytes) : Prop := d = replicate (length d) x00 ∧ llen d ≤ kBlockSize.
#[local] Instance demo_lz4 : LZ4 := {| LZ4_compress d := if bool_decide (zeros d) then be32 (llen d) else [] |}.
#[local] Program Instance demo_lz4_laws : LZ4Laws :=
  {| LZ4_decompress z := Some (replicate (Z.to_nat (of_be z)) x00) |}.
Next Obligation. intros d _. cbn. case_bool_decide; done. Qed.
Next Obligation.
  intros d. cbn. case_bool_decide as Hz; [|done]. intros _. destruct Hz as [E Hl]. rewrite of_be32. unfold u32. pose proof (llen_nonneg d).
  unfold kBlockSize in Hl. rewrite Z.mod_small by lia. unfold llen. rewrite Nat2Z.id. by rewrite <- E.
Qed.

Definition request (t f k : Z) : bytes := be32 INCR ++ be16 t ++ be16 f ++ be32 k.

Definition text_data : bytes := concat (replicate 600 (txt "0123456789")).
Definition zero_data : bytes := replicate 9000 x00.
Definition demo_signature : bytes := signature_file 2 (txt "sha") (txt "key") (replicate 4096 x54).

Definition plain (d : bytes) : HostFile := mkHost (llen d) (λ _, pread_of d) None None.
Definition signed_file (d sig : bytes) : HostFile := mkHost (llen d) (λ _, pread_of d) None (Some (sig, λ _, pread_of sig)).

Definition demo_host (p : bytes) : option HostFile :=
  if bool_decide (p = txt "text") then Some (signed_file text_data demo_signature)
  else if bool_decide (p = txt "zero") then Some (plain zero_data) else None.

Definition demo_files : list File :=
  match open_files 10 demo_host 0 [txt "text"; txt "zero"] with Ok (Some fs) => fs | _ => [] end.

Lemma demo_open : open_files 10 demo_host 0 [txt "text"; txt "zero"] = Ok (Some demo_files).
Proof.
  unfold demo_files. assert (match open_files 10 demo_host 0 [txt "text"; txt "zero"] with Ok (Some _) => true | _ => false end = true) as E
    by by vm_compute. by destruct (open_files 10 demo_host 0 [txt "text"; txt "zero"]) as [[]| | | |].
Qed.

Lemma pread_small d len off r : 0 ≤ len → pread_of d len off = Some r → llen r ≤ len.
Proof. unfold pread_of. intros Hl. destruct (off <? 0); [done|]. intros [= <-]. unfold llen, ltake. rewrite length_take. lia. Qed.

Lemma demo_host_ok p h : demo_host p = Some h → host_ok h.
Proof.
  unfold demo_host. repeat case_bool_decide; [|intros; simplify_eq..|done].
  - intros [= <-]. split; [by vm_compute| |done| |right; by vm_compute].
    + intros now off d. cbn [hf_fd signed_file]. by apply pread_small.
    + intros d fd now off r [= <- <-]. by apply pread_small.
  - split; [by vm_compute| |done|done|done]. intros now off d. cbn [hf_fd plain]. by apply pread_small.
Qed.

Lemma demo_opened : opened demo_files.
Proof. destruct (open_files_ok _ _ [txt "text"; txt "zero"] demo_host_ok 0 _ ltac:(lia) ltac:(by vm_compute) demo_open) as [Hl Hf]. by split; [rewrite Hl|]. Qed.

Definition demo_input (n : nat) : list answer :=
  ARead (txt "Installing" ++ request PREFETCH 1 0 ++ txt "INC") :: ARead (txt "R" ++ ldrop 4 (request PREFETCH 0 0)) :: replicate n (APoll 0).

(** The state after some turns. *)
Definition after (n : nat) (s : Server) : Server := match turns n s with Ok s' => s' | _ => s end.

Lemma after_reach fs n s : reach fs s → reach fs (after n s).
Proof. intros Hr. unfold after. destruct (turns n s) eqn:E; try done. by eapply reach_turns. Qed.

(** Every write succeeds. *)
Definition no_failure (n : nat) : option Z := None.

Definition demo_start (n : nat) : Server := new_Server demo_files (demo_input n) no_failure.

Definition facts (f : File) : (nat → preader) * Z * option (nat → preader) * Z * Z :=
  (fd_ f, fsize f, tree_fd_ f, tree_offset_ f, llen (sentTreeBlocks f)).

Lemma demo_first : facts <$> lget demo_files 0 = Some (λ _, pread_of text_data, llen text_data, Some (λ _, pread_of demo_signature), 22, 1).
Proof. vm_compute. reflexivity. Qed.

Lemma demo_second : facts <$> lget demo_files 1 = Some (λ _, pread_of zero_data, llen zero_data, None, 0, 1).
Proof. vm_compute. reflexivity. Qed.

Lemma facts_inv (o : option File) f fd n t k m : facts <$> o = Some (fd, n, t, k, m) → o = Some f →
  fd_ f = fd ∧ fsize f = n ∧ tree_fd_ f = t ∧ tree_offset_ f = k ∧ llen (sentTreeBlocks f) = m.
Proof. intros E ->. change (Some (facts f) = Some (fd, n, t, k, m)) in E. unfold facts in E. by injection E. Qed.

Lemma holds_pread d f : fd_ f = (λ _, pread_of d) → fsize f = llen d → holds d f.
Proof.
  intros Ef Es. split; [done|]. intros now k raw. unfold ReadDataBlock, blockIndexToOffset. rewrite Ef. unfold pread_of.
  destruct (_ <? 0); [done|]. by intros [= <-].
Qed.

Lemma files_arrive_witness : ∃ rs, received (device (after 5 (demo_start 3))) = Some rs ∧ done_resp ∈ rs ∧ NoDup (data_keys rs) ∧
  ∀ i f content, lget demo_files i = Some f → holds content f → assemble rs i (nblocks f) = Some content.
Proof.
  apply (files_arrive demo_files (after 5 (demo_start 3))).
  - exact demo_opened.
  - apply after_reach, reach_start.
  - by vm_compute.
  - intros n _. assert (wire (after 5 (demo_start 3)) = no_failure) as -> by by vm_compute. reflexivity.
Defined.

(** What the device puts together from the bytes of the run. *)
Example demo_assembled :
  (rs ← received (device (after 5 (demo_start 3))); t ← assemble rs 0 2; z ← assemble rs 1 3; Some (t, z)) = Some (text_data, zero_data).
Proof. vm_compute. reflexivity. Qed.

Lemma demo_readable : readable demo_files.
Proof.
  assert (∀ f, f ∈ demo_files → (∃ d, fd_ f = λ _, pread_of d) ∧ (tree_fd_ f = None ∨
    tree_fd_ f = Some (λ _, pread_of demo_signature) ∧ tree_offset_ f = 22 ∧ llen (sentTreeBlocks f) = 1)) as Hall.
  { intros f (i & Hf)%elem_lget. pose proof (lget_Some_range _ _ _ Hf) as Hi. assert (llen demo_files = 2) as El by by vm_compute. rewrite El in Hi.
    assert (i = 0 ∨ i = 1) as [-> | ->] by lia.
    - destruct (facts_inv _ _ _ _ _ _ _ demo_first Hf) as (? & _ & ? & ? & ?). eauto 6.
    - destruct (facts_inv _ _ _ _ _ _ _ demo_second Hf) as (? & _ & ? & _). eauto. }
  assert (llen demo_signature = 22 + 4096) as Hs by by vm_compute. split.
  - intros f Hf Ht now t Hr. destruct (Hall f Hf) as (_ & [E|(E & Eo & El)]); [unfold hasTree in Ht; by rewrite E in Ht|].
    unfold ReadTreeBlock, blockIndexToOffset, kBlockSize. rewrite E, Eo. rewrite El in Hr. assert (t = 0) as -> by lia. unfold pread_of. cbn [Z.mul Z.add Z.ltb Z.compare].
    eexists. split; [reflexivity|]. intros Ee. apply (f_equal llen) in Ee. rewrite llen_ltake, llen_nil in Ee; [done|]. rewrite llen_ldrop; lia.
  - intros f Hf now k Hk. destruct (Hall f Hf) as ((d & E) & _). unfold ReadDataBlock, blockIndexToOffset, kBlockSize. rewrite E. unfold pread_of.
    destruct (Z.ltb_spec (k * 4096) 0); [lia|done].
Qed.

Lemma hashes_precede_data_witness : ∃ rs, received (concat (chunks (after 5 (demo_start 3)))) = Some rs ∧ hashes_first demo_files rs ∧ NoDup (data_keys rs).
Proof.
  apply (hashes_precede_data demo_files (after 5 (demo_start 3))).
  - exact demo_opened.
  - apply after_reach, reach_start.
  - exact (proj1 demo_readable).
Defined.

Lemma everything_is_sent_witness : ∃ s', turns 3 (after 2 (demo_start 3)) = Ok s' ∧ doneSent s' = true ∧
  (intact s' → ∃ rs, received (device s') = Some rs ∧ done_resp ∈ rs ∧
     ∀ i f content, lget demo_files i = Some f → holds content f → assemble rs i (nblocks f) = Some content).
Proof.
  apply (everything_is_sent demo_files (after 2 (demo_start 3)) 3).
  - exact demo_opened.
  - apply after_reach, reach_start.
  - exact demo_readable.
  - intros i Hi. assert (llen demo_files = 2) as El by by vm_compute. rewrite El in Hi.
    assert (i = 0 ∨ i = 1) as [-> | ->] by lia; (refine (bool_decide_eq_true_1 _ _); by vm_compute).
  - exists false. assert (buffer_ (after 2 (demo_start 3)) = []) as -> by by vm_compute. done.
  - by vm_compute.
  - by vm_compute.
Defined.

Lemma serving_safe_witness : ∃ b s', serve_turn (demo_start 3) = Ok (b, s') ∧ sizeof_ChunkHeader + llen (pendingBlocks_ s') ≤ kChunkFlushSize.
Proof.
  pose proof (serving_safe demo_files (demo_start 3) demo_opened (reach_start demo_files _ _)) as Hs.
  assert (match SkipToRequest (bool_decide (prefetches_ (demo_start 3) = [])) (servingComplete_ (demo_start 3)) (buffer_ (demo_start 3))
    (answers (demo_start 3)) (output (demo_start 3)) with Ok (SkipGot d, _, _, _) => negb (bad_prefetch demo_files (demo_start 3) (decode_request d)) | _ => false end = true) as E
    by by vm_compute.
  destruct (SkipToRequest _ _ _ _ _) as [[[[r ?] ?] ?]| | | |]; try discriminate. destruct r as [| |d]; try discriminate.
  destruct (bad_prefetch _ _ _); [discriminate|exact Hs].
Defined.

Lemma serve_outcome_witness : opened demo_files ∧
  match serve 20 10 demo_host [txt "text"; txt "zero"] true (demo_input 3) no_failure with
  | Ok (Some (b, s)) => b = true ∧ reach demo_files s
  | Ok None => [txt "text"; txt "zero"] = []
  | NoFuel => True
  | Undef => ∃ s, reach demo_files s ∧ asks_unknown demo_files s
  | _ => False
  end.
Proof.
  pose proof (serve_outcome 20 10 demo_host [txt "text"; txt "zero"] true (demo_input 3) no_failure demo_host_ok) as Hs.
  rewrite demo_open in Hs. apply Hs. by vm_compute.
Defined.

Lemma requests_in_pieces_witness : ∃ kept later,
  SkipToRequest false false (txt "a") ((ARead <$> [txt "bIN"; txt "CR" ++ ldrop 4 (request PREFETCH 1 0) ++ txt "x"]) ++ []) [] =
    Ok (SkipGot (ldrop 4 (request PREFETCH 1 0)), kept, (ARead <$> later) ++ [], txt "ab") ∧ kept ++ concat later = txt "x".
Proof.
  apply (requests_in_pieces [txt "bIN"; txt "CR" ++ ldrop 4 (request PREFETCH 1 0) ++ txt "x"] false false (txt "a") [] []).
  by repeat (constructor; [done|]).
Defined.

(** ** What the server does not intend *)

(** A request to prefetch a file behind the last one is undefined behaviour: [files_[fileId]] is not checked, as it is
    for a missing block. *)
Theorem unknown_file_prefetched :
  serve 5 10 demo_host [txt "text"; txt "zero"] true [ARead (request PREFETCH 2 0)] no_failure = Undef.
Proof. vm_compute. reflexivity. Qed.

(** A file of a single block with a signature cannot be served: its tree is empty, which [open_signature] accepts, and
    the position of its leaf is -1, so that the first block sent reads [sentTreeBlocks[-1]], for any file of 1 to 4096 bytes
    and whatever asked for the block. *)
Theorem signed_single_block s i f flush `{!LZ4} :
  lget (files_ s) i = Some f → 0 < fsize f ≤ kBlockSize → hasTree f = true →
  sentBlocks f = [false] → verity_tree_blocks_for_file (fsize f) = Ok (llen (sentTreeBlocks f)) →
  SendDataBlock i 0 flush s = Undef.
Proof.
  intros Hf Hs Ht Hb Hv. unfold SendDataBlock. rewrite (sv_run _ _ _ _ _ (file_at_run _ _ _ Hf)), Hb.
  change (llen [false] <=? 0) with false. cbn match. rewrite (sv_ok _ _ _ false) by done. cbn match.
  unfold mbind, sv_bind at 1. unfold SendTreeBlocksForDataBlock at 1. rewrite (sv_run _ _ _ _ _ (file_at_run _ _ _ Hf)), Ht. cbn [negb].
  assert (leaf_offset f = -1) as ->; [|done]. destruct (tree_blocks (fsize f)) as (above & _ & E); [lia|]. rewrite Hv in E.
  destruct (Z.leb_spec (fsize f) kBlockSize); [|lia]. injection E as E. unfold leaf_offset, leaf_count. rewrite E, num_blocks by (unfold kBlockSize in *; lia).
  unfold kBlockSize in *. replace ((fsize f + 4095) / 4096) with 1 by (Z.div_mod_to_equations; lia). done.
Qed.

Definition small_host (p : bytes) : option HostFile := Some (signed_file (txt "small") (signature_file 2 (txt "sha") (txt "key") [])).
Definition small_file : File :=
  match open_files 10 small_host 0 [txt "small"] with
  | Ok (Some (f :: _)) => f
  | _ => mkFile [] 0 0 (λ _ _ _, None) [] None 0 [] 0 []
  end.

Lemma signed_single_block_witness : SendDataBlock 0 0 false (new_Server [small_file] [] no_failure) = Undef.
Proof. apply (signed_single_block (new_Server [small_file] [] no_failure) 0 small_file false); vm_compute; done || by split. Defined.

(** The whole server on that file. *)
Example small_file_not_served : serve 5 10 small_host [txt "small"] true [ARead (request PREFETCH 0 0)] no_failure = Undef.
Proof. vm_compute. reflexivity. Qed.

(** A block of the tree that could not be read once is forgotten: the leaf before it is marked as sent, so that the next block
    under the same leaf is sent although the root of the tree never was. *)
Definition broken_host (p : bytes) : option HostFile :=
  Some (mkHost (130 * 4096) (λ _ _ _, Some (replicate 4096 x41)) None
    (Some (signature_file 2 (txt "sha") (txt "key") (replicate (Z.to_nat (3 * 4096)) x54),
           λ _ _ off, if off =? 22 then None else Some (replicate 4096 x54)))).
Definition broken_files : list File := match open_files 10 broken_host 0 [txt "big"] with Ok (Some fs) => fs | _ => [] end.

Theorem failed_hash_forgotten :
  (rs ← received (concat (chunks (after 2 (new_Server broken_files [ARead (request BLOCK_MISSING 0 0); ARead (request BLOCK_MISSING 0 1)] no_failure))));
   Some (data_keys rs, hash_keys rs)) = Some ([(0, 1)], [(0, 1)]).
Proof. vm_compute. reflexivity. Qed.

(** A write that fails is forgotten: the blocks of the chunk stay marked as sent, and the end is announced although the
    device lacks them and does not get them when it asks for them.  Here the first chunk is lost, and with it all of the
    second file, which the device then asks for again. *)
Definition lossy_start : Server :=
  new_Server demo_files (demo_input 1 ++ [ARead (request BLOCK_MISSING 1 0)] ++ replicate 2 (APoll 0)) (λ n, if bool_decide (n = 0%nat) then Some 0 else None).

Theorem failed_write_announced :
  doneSent (after 6 lossy_start) = true ∧ answers (after 6 lossy_start) = [] ∧
  (rs ← received (device (after 6 lossy_start)); Some (data_keys rs, last rs)) = Some ([(0, 0); (0, 1)], Some done_resp) ∧
  ((λ f, (sentBlocksCount f, sentBlocks f)) <$> files_ (after 6 lossy_start)) = [(2, [true; true]); (3, [true; true; true])].
Proof. split_and!; vm_compute; reflexivity. Qed.

(** The number of a file is kept in 16 bits: the file after 2^15 others gets a negative one. *)
Theorem file_number_wraps scan path h f :
  new_File scan path (2 ^ 15) (hf_size h) (hf_fd h) (hf_zip h) 0 None = Ok f → id f = - 2 ^ 15.
Proof.
  unfold new_File. intros (t & _ & E)%bind_Ok_inv. destruct (_ || _); [done|]. by apply bind_Ok_inv in E as (pr & _ & [= <-]).
Qed.

(** Text that is kept because it could be the beginning of a request is passed on again at every poll. *)
Theorem text_passed_on_again : output (after 3 (new_Server demo_files [ARead (txt "Done"); APoll 0; APoll 0; APoll 0] no_failure)) = txt "DoneDoneDone".
Proof. vm_compute. reflexivity. Qed.

(** When the connection is closed, the text that is left is passed on with zeros up to the size of the buffer. *)
Theorem zeros_at_the_end b : llen b ≤ 4 → ∃ ins, SkipToRequest true false b [ARead []] [] =
  Ok (SkipFail, b, ins, b ++ replicate (Z.to_nat (kReadBufferSize - llen b)) x00).
Proof.
  intros Hb. assert (find_magic b = (0, false)) as E.
  { destruct b as [|b0 [|b1 [|b2 [|b3 [|b4 b]]]]]; try done. rewrite !llen_cons in Hb. pose proof (llen_nonneg b). lia. }
  exists []. cbn [SkipToRequest]. rewrite E, ltake_0, ldrop_0. reflexivity.
Qed.

(** ** A client and a server *)

#[local] Instance demo_base64 : Base64 := {| EncodedLength _ := true; EncodeBlock d := txt "sig" ++ d |}.

Definition demo_args : list bytes :=
  match start_install demo_host [txt "text"; txt "zero"] [txt "-r"] with Ok (Some a) => a | _ => [] end.

Lemma client_server_agree_witness :
  open_files 10 demo_host 0 [txt "text"; txt "zero"] ≠ Ok None ∧
  ∀ fs, open_files 10 demo_host 0 [txt "text"; txt "zero"] = Ok (Some fs) → length fs = 2%nat ∧
    ∀ k f, fs !! k = Some f → [txt "text"; txt "zero"] !! k = Some (filepath f) ∧ id f = Z.of_nat k ∧
      ∃ sg, demo_args !! (3 + k)%nat = Some (file_desc (filepath f) (fsize f) (id f) sg) ∧ (hasTree f = true ↔ sg ≠ []).
Proof.
  apply (client_server_agree demo_host 10 [txt "text"; txt "zero"] [txt "-r"] demo_args).
  - intros p h Hh. apply (ho_size _ (demo_host_ok p h Hh)).
  - by vm_compute.
  - vm_compute. reflexivity.
Defined.
