(* ===== verification/SyncWire.v ===== *)
(** * The sync protocol: messages

    Models adb/file_sync_protocol.h: the message ids, and the packed structures that the
    client and the device exchange.  A structure is described by the widths of its fields
    and by how a record is taken apart into them; encoding and decoding, and the fact that
    they are inverse to each other, come from the class, which translates no code of its own,
    and are proved once. *)

From S2P Require Import Prelude.

(** ** Ids *)

Definition MKID (a b c d : byte) : Z :=
  Z.lor (bval a) (Z.lor (Z.shiftl (bval b) 8) (Z.lor (Z.shiftl (bval c) 16) (Z.shiftl (bval d) 24))).
Definition id_of (s : String.string) : Z :=
  match txt s with [a; b; c; d] => MKID a b c d | _ => 0 end.

Definition ID_LSTAT_V1 : Z := id_of "STAT".
Definition ID_STAT_V2 : Z := id_of "STA2".
Definition ID_LSTAT_V2 : Z := id_of "LST2".
Definition ID_LIST_V1 : Z := id_of "LIST".
Definition ID_LIST_V2 : Z := id_of "LIS2".
Definition ID_DENT_V1 : Z := id_of "DENT".
Definition ID_DENT_V2 : Z := id_of "DNT2".
Definition ID_SEND_V1 : Z := id_of "SEND".
Definition ID_SEND_V2 : Z := id_of "SND2".
Definition ID_RECV_V1 : Z := id_of "RECV".
Definition ID_RECV_V2 : Z := id_of "RCV2".
Definition ID_DONE : Z := id_of "DONE".
Definition ID_DATA : Z := id_of "DATA".
Definition ID_OKAY : Z := id_of "OKAY".
Definition ID_FAIL : Z := id_of "FAIL".
Definition ID_QUIT : Z := id_of "QUIT".

Definition kSyncFlagNone : Z := 0.
Definition kSyncFlagBrotli : Z := 1.
Definition kSyncFlagLZ4 : Z := 2.
Definition kSyncFlagZstd : Z := 4.
Definition kSyncFlagDryRun : Z := 0x80000000.

Inductive CompressionType := CNone | CAny | CBrotli | CLZ4 | CZstd.
#[global] Instance CompressionType_eq_dec : EqDecision CompressionType.
Proof. solve_decision. Defined.

Definition SYNC_DATA_MAX : Z := 64 * 1024.

(** ** Structures *)

Inductive field := U32 | U64 | I64.

Definition width (f : field) : Z := match f with U32 => 4 | U64 | I64 => 8 end.
Definition le64 (z : Z) : bytes := le32 (u32 z) ++ le32 (Z.shiftr (u64 z) 32).
Definition s64 (z : Z) : Z := if z <? 2 ^ 63 then z else z - 2 ^ 64.
Definition field_bytes (f : field) (z : Z) : bytes :=
  match f with U32 => le32 z | U64 | I64 => le64 z end.
Definition of_le64 (l : bytes) : option Z :=
  lo ← of_le32 l; hi ← of_le32 (drop 4 l); Some (lo + 2 ^ 32 * hi).
Definition field_value (f : field) (l : bytes) : option Z :=
  match f with
  | U32 => of_le32 l
  | U64 => of_le64 l
  | I64 => s64 <$> of_le64 l
  end.
Definition field_ok (f : field) (z : Z) : Prop :=
  match f with
  | U32 => 0 ≤ z < 2 ^ 32
  | U64 => 0 ≤ z < 2 ^ 64
  | I64 => - 2 ^ 63 ≤ z < 2 ^ 63
  end.

Fixpoint encode_fields (fmt : list field) (vs : list Z) : bytes :=
  match fmt, vs with f :: fmt, v :: vs => field_bytes f v ++ encode_fields fmt vs | _, _ => [] end.
Fixpoint decode_fields (fmt : list field) (l : bytes) : option (list Z) :=
  match fmt with
  | [] => Some []
  | f :: fmt =>
      v ← field_value f l;
      vs ← decode_fields fmt (drop (Z.to_nat (width f)) l);
      Some (v :: vs)
  end.

(** A packed structure. *)
Class Wire (A : Type) := {
  format : list field;
  to_fields : A → list Z;
  of_fields : list Z → option A;
  of_to_fields : ∀ a, of_fields (to_fields a) = Some a;
  to_of_fields : ∀ vs a, of_fields vs = Some a → to_fields a = vs;
  length_to_fields : ∀ a, length (to_fields a) = length format
}.
#[global] Arguments format A {_}.
Definition sizeof (A : Type) `{Wire A} : Z := foldr (λ f n, width f + n) 0 (format A).
Definition encode `{Wire A} (a : A) : bytes := encode_fields (format A) (to_fields a).
Definition decode `{Wire A} (l : bytes) : option A := decode_fields (format A) l ≫= of_fields.
Definition wire_ok `{Wire A} (a : A) : Prop := Forall2 field_ok (format A) (to_fields a).

(** The laws of a structure hold by taking the record and the list of fields apart. *)
Ltac wire_laws :=
  lazymatch goal with
  | |- ∀ _ _, _ → _ =>
      let vs := fresh in let E := fresh in
      intros vs ? E; repeat (destruct vs as [|? vs]; try discriminate E); by injection E as <-
  | |- _ => let r := fresh in intros r; first [by destruct r | destruct r as [r ?]; by destruct r]
  end.

Record SyncRequest := mkRequest { rq_id : Z; path_length : Z }.
Record sync_stat_v1 := mkStat1 { s1_id : Z; s1_mode : Z; s1_size : Z; s1_mtime : Z }.
Record sync_stat_v2 := mkStat2 {
  s2_id : Z; s2_error : Z; s2_dev : Z; s2_ino : Z; s2_mode : Z; s2_nlink : Z; s2_uid : Z; s2_gid : Z;
  s2_size : Z; s2_atime : Z; s2_mtime : Z; s2_ctime : Z
}.
Record sync_dent_v1 := mkDent1 { d1_id : Z; d1_mode : Z; d1_size : Z; d1_mtime : Z; d1_namelen : Z }.
Record sync_dent_v2 := mkDent2 { d2_stat : sync_stat_v2; d2_namelen : Z }.
Record sync_send_v2 := mkSend2 { sd_id : Z; sd_mode : Z; sd_flags : Z }.
Record sync_recv_v2 := mkRecv2 { rv_id : Z; rv_flags : Z }.
Record sync_data := mkData { dt_id : Z; dt_size : Z }.
Record sync_status := mkStatus { st_id : Z; msglen : Z }.

Definition stat_v2_format : list field := [U32; U32; U64; U64; U32; U32; U32; U32; U64; I64; I64; I64].
Definition stat_v2_fields (s : sync_stat_v2) : list Z :=
  [s2_id s; s2_error s; s2_dev s; s2_ino s; s2_mode s; s2_nlink s; s2_uid s; s2_gid s; s2_size s; s2_atime s;
   s2_mtime s; s2_ctime s].

#[global] Instance SyncRequest_wire : Wire SyncRequest.
Proof.
  refine {|
    format := [U32; U32];
    to_fields := λ r, [rq_id r; path_length r];
    of_fields := λ l, match l with [a; b] => Some (mkRequest a b) | _ => None end
  |}; wire_laws.
Defined.
#[global] Instance stat_v1_wire : Wire sync_stat_v1.
Proof.
  refine {|
    format := [U32; U32; U32; U32];
    to_fields := λ r, [s1_id r; s1_mode r; s1_size r; s1_mtime r];
    of_fields := λ l, match l with [a; b; c; d] => Some (mkStat1 a b c d) | _ => None end
  |}; wire_laws.
Defined.
#[global] Instance stat_v2_wire : Wire sync_stat_v2.
Proof.
  refine {|
    format := stat_v2_format;
    to_fields := stat_v2_fields;
    of_fields := λ l, match l with
                   | [a; b; c; d; e; f; g; h; i; j; k; m] => Some (mkStat2 a b c d e f g h i j k m)
                   | _ => None
                   end
  |}; wire_laws.
Defined.
#[global] Instance dent_v1_wire : Wire sync_dent_v1.
Proof.
  refine {|
    format := [U32; U32; U32; U32; U32];
    to_fields := λ r, [d1_id r; d1_mode r; d1_size r; d1_mtime r; d1_namelen r];
    of_fields := λ l, match l with [a; b; c; d; e] => Some (mkDent1 a b c d e) | _ => None end
  |}; wire_laws.
Defined.
Definition dent_v2_of (l : list Z) : option sync_dent_v2 :=
  match l with
  | [a; b; c; d; e; f; g; h; i; j; k; m; n] => Some (mkDent2 (mkStat2 a b c d e f g h i j k m) n)
  | _ => None
  end.
#[global] Instance dent_v2_wire : Wire sync_dent_v2.
Proof.
  refine {|
    format := stat_v2_format ++ [U32];
    to_fields := λ r, stat_v2_fields (d2_stat r) ++ [d2_namelen r];
    of_fields := dent_v2_of
  |}; wire_laws.
Defined.
#[global] Instance send_v2_wire : Wire sync_send_v2.
Proof.
  refine {|
    format := [U32; U32; U32];
    to_fields := λ r, [sd_id r; sd_mode r; sd_flags r];
    of_fields := λ l, match l with [a; b; c] => Some (mkSend2 a b c) | _ => None end
  |}; wire_laws.
Defined.
#[global] Instance recv_v2_wire : Wire sync_recv_v2.
Proof.
  refine {|
    format := [U32; U32];
    to_fields := λ r, [rv_id r; rv_flags r];
    of_fields := λ l, match l with [a; b] => Some (mkRecv2 a b) | _ => None end
  |}; wire_laws.
Defined.
#[global] Instance data_wire : Wire sync_data.
Proof.
  refine {|
    format := [U32; U32];
    to_fields := λ r, [dt_id r; dt_size r];
    of_fields := λ l, match l with [a; b] => Some (mkData a b) | _ => None end
  |}; wire_laws.
Defined.
#[global] Instance status_wire : Wire sync_status.
Proof.
  refine {|
    format := [U32; U32];
    to_fields := λ r, [st_id r; msglen r];
    of_fields := λ l, match l with [a; b] => Some (mkStatus a b) | _ => None end
  |}; wire_laws.
Defined.

(** ** Round trip *)

Lemma llen_le64 z : llen (le64 z) = 8.
Proof. unfold le64. by rewrite llen_app, !llen_le32. Qed.

Lemma llen_field_bytes f z : llen (field_bytes f z) = width f.
Proof. destruct f; cbn; [apply llen_le32 | apply llen_le64 | apply llen_le64]. Qed.

Lemma of_le64_le64 z k : 0 ≤ z < 2 ^ 64 → of_le64 (le64 z ++ k) = Some z.
Proof.
  intros Hz. unfold of_le64, le64. rewrite <- app_assoc, of_le32_le32 by apply u32_range.
  cbn [mbind option_bind]. rewrite drop_app_length' by (pose proof (llen_le32 (u32 z)); unfold llen in *; lia).
  rewrite u64_small, Z.shiftr_div_pow2 by lia.
  rewrite of_le32_le32 by (split; [apply Z.div_pos|apply Z.div_lt_upper_bound]; lia).
  cbn [mbind option_bind]. f_equal. unfold u32. pose proof (Z.div_mod z (2 ^ 32)). lia.
Qed.

Lemma u64_s64 z : - 2 ^ 63 ≤ z < 2 ^ 63 → s64 (u64 z) = z.
Proof.
  intros Hz. unfold s64, u64. destruct (Z.ltb_spec (z mod 2 ^ 64) (2 ^ 63)).
  - destruct (decide (0 ≤ z)); [by rewrite Z.mod_small by lia|].
    assert (z mod 2 ^ 64 = z + 2 ^ 64) by (symmetry; apply (Z.mod_unique _ _ (-1)); lia). lia.
  - destruct (decide (0 ≤ z)); [rewrite Z.mod_small in * by lia; lia|].
    assert (z mod 2 ^ 64 = z + 2 ^ 64) by (symmetry; apply (Z.mod_unique _ _ (-1)); lia). lia.
Qed.

Lemma le64_u64 z : le64 (u64 z) = le64 z.
Proof.
  unfold le64. rewrite (u64_small (u64 z)) by apply u64_range. f_equal. f_equal.
  unfold u32, u64. apply Z.mod_mod_divide. exists (2 ^ 32). lia.
Qed.

Lemma field_value_bytes f z k : field_ok f z → field_value f (field_bytes f z ++ k) = Some z.
Proof.
  destruct f; cbn [field_ok field_value field_bytes]; intros Hz.
  - by apply of_le32_le32.
  - by apply of_le64_le64.
  - rewrite <- le64_u64, of_le64_le64 by apply u64_range. cbn. by rewrite u64_s64.
Qed.

Lemma decode_encode_fields fmt vs k :
  Forall2 field_ok fmt vs → decode_fields fmt (encode_fields fmt vs ++ k) = Some vs.
Proof.
  induction 1 as [|f v fmt vs Hf Hv IH]; [done|]. cbn [encode_fields decode_fields].
  rewrite <- app_assoc, field_value_bytes by done. cbn [mbind option_bind].
  rewrite drop_app_length' by (pose proof (llen_field_bytes f v); unfold llen in *; lia).
  by rewrite IH.
Qed.

Lemma llen_encode_fields fmt vs :
  length vs = length fmt → llen (encode_fields fmt vs) = foldr (λ f n, width f + n) 0 fmt.
Proof.
  revert vs. induction fmt as [|f fmt IH]; intros [|v vs] Hl; try done.
  cbn [encode_fields foldr]. rewrite llen_app, llen_field_bytes, IH by (cbn in Hl; lia). done.
Qed.

Section wire_laws.
Context `{Wire A}.
Implicit Types a : A.

Lemma decode_encode a k : wire_ok a → decode (encode a ++ k) = Some a.
Proof. intros Ha. unfold decode, encode. rewrite decode_encode_fields by done. apply of_to_fields. Qed.

Lemma decode_encode_nil a : wire_ok a → decode (encode a) = Some a.
Proof. intros Ha. pose proof (decode_encode a [] Ha) as E. by rewrite app_nil_r in E. Qed.

Lemma llen_encode a : llen (encode a) = sizeof A.
Proof. apply llen_encode_fields, length_to_fields. Qed.
End wire_laws.

(** The structures as they are on the wire, byte for byte. *)
Lemma sync_layouts a b c d e f g h i j k m n :
  encode (mkRequest a b) = le32 a ++ le32 b ∧ encode (mkData a b) = le32 a ++ le32 b ∧ encode (mkStatus a b) = le32 a ++ le32 b ∧
  encode (mkRecv2 a b) = le32 a ++ le32 b ∧ encode (mkSend2 a b c) = le32 a ++ le32 b ++ le32 c ∧
  encode (mkStat1 a b c d) = le32 a ++ le32 b ++ le32 c ++ le32 d ∧
  encode (mkDent1 a b c d e) = le32 a ++ le32 b ++ le32 c ++ le32 d ++ le32 e ∧
  encode (mkDent2 (mkStat2 a b c d e f g h i j k m) n) =
    le32 a ++ le32 b ++ le64 c ++ le64 d ++ le32 e ++ le32 f ++ le32 g ++ le32 h ++ le64 i ++ le64 j ++ le64 k ++ le64 m ++ le32 n.
Proof. split_and!; unfold encode; cbn [encode_fields field_bytes format to_fields]; by rewrite ?app_nil_r. Qed.
