(* ===== verification/Codec.v ===== *)
(** * Compression of file data

    Models adb/compression_utils.h: the encoders and decoders that the sync client puts
    between a file and the connection.  Each keeps the data it was given in an [IOVector],
    whose model in Types.v is used as it is.  The compression libraries are not part of the
    sources: [LZ4F], [Brotli] and [Zstd] are the functions the code calls.

    An encoder or decoder is a record of operations, as the virtual functions of the code.
    [EncoderLaws] and [DecoderLaws] say how the sync client uses them and what it relies on:
    the client's theorems are proved against the laws, and the coders without compression
    and with LZ4 are shown to satisfy them. *)

From S2P Require Import Prelude Types SyncWire.

Inductive EncodeResult := EncError | EncDone | EncNeedInput | EncMoreOutput.
Inductive DecodeResult := DecError | DecDone | DecNeedInput | DecMoreOutput.

(** The members of [Encoder] and [Decoder], and what a subclass adds. *)
Record coder (L : Type) := mkCoder { finished_ : bool; input_buffer_ : IOVector; lib : L }.
Arguments mkCoder {L}.
Arguments finished_ {L}.
Arguments input_buffer_ {L}.
Arguments lib {L}.

Record Encoder := mkEncoder {
  enc : Type;
  enc_new : res enc;
  enc_append : bytes → enc → res enc;
  enc_finish : enc → res enc;
  enc_encode : enc → res (EncodeResult * bytes * enc)
}.
Record Decoder := mkDecoder {
  dec_t : Type;
  dec_new : res dec_t;
  dec_append : bytes → dec_t → res dec_t;
  dec_finish : dec_t → res dec_t;
  dec_decode : dec_t → res (DecodeResult * bytes * dec_t)
}.

Section codec.
Context `{Uninit}.

Definition coder_append {L} (d : bytes) (c : coder L) : res (coder L) :=
  blk ← block_of_range d;
  v ← append (input_buffer_ c) blk;
  Ok (mkCoder (finished_ c) v (lib c)).
Definition coder_finish {L} (c : coder L) : res (coder L) :=
  if finished_ c then Fatal else Ok (mkCoder true (input_buffer_ c) (lib c)).
Definition new_coder {L} (l : L) : coder L := mkCoder false empty_iov l.

(** What [front_data] and [front_size] make available to a library. *)
Definition front (v : IOVector) : res bytes :=
  n ← front_size v; d ← front_data v; Ok (match d with Some d => ltake n d | None => [] end).

(** ** No compression *)

(** The copy loop of [NullEncoder] and [NullDecoder]. *)
Fixpoint null_copy (fuel : nat) (available_out : Z) (v : IOVector) (out : bytes) : res (IOVector * bytes) :=
  match fuel with
  | O => NoFuel
  | S fuel =>
      if (0 <? available_out) && negb (empty v) then
        n ← front_size v;
        let len := Z.min available_out n in
        d ← front v;
        v' ← drop_front len v;
        null_copy fuel (available_out - len) v' (out ++ ltake len d)
      else Ok (v, out)
  end.

Definition NullEncoder_Encode (c : coder unit) : res (EncodeResult * bytes * coder unit) :=
  '(v, out) ← null_copy (S (Z.to_nat (size (input_buffer_ c)))) SYNC_DATA_MAX (input_buffer_ c) [];
  let c' := mkCoder (finished_ c) v () in
  if empty v then Ok (if finished_ c then EncDone else EncNeedInput, out, c') else Ok (EncMoreOutput, out, c').
Definition NullEncoder : Encoder :=
  mkEncoder (coder unit) (Ok (new_coder ())) coder_append coder_finish NullEncoder_Encode.

Definition NullDecoder_Decode (c : coder unit) : res (DecodeResult * bytes * coder unit) :=
  '(v, out) ← null_copy (S (Z.to_nat (size (input_buffer_ c)))) SYNC_DATA_MAX (input_buffer_ c) [];
  let c' := mkCoder (finished_ c) v () in
  if empty v then Ok (if finished_ c then DecDone else DecNeedInput, out, c') else Ok (DecMoreOutput, out, c').
Definition NullDecoder : Decoder :=
  mkDecoder (coder unit) (Ok (new_coder ())) coder_append coder_finish NullDecoder_Decode.

(** ** LZ4 *)

(** The functions of lz4frame.h; [None] is an error code.  [lz4_decompress ctx room src]
    gives the hint (0 at the end of a frame), the bytes taken and the bytes produced. *)
Class LZ4F := {
  lz4_c : Type;
  lz4_d : Type;
  lz4_create_c : option lz4_c;
  lz4_create_d : option lz4_d;
  lz4_begin : lz4_c → option (bytes * lz4_c);
  lz4_update : lz4_c → bytes → option (bytes * lz4_c);
  lz4_end : lz4_c → option (bytes * lz4_c);
  lz4_decompress : lz4_d → Z → bytes → option (Z * Z * bytes * lz4_d)
}.

Section lz4.
Context `{LZ4F}.

Record lz4_encoder := mkLz4E { le_ctx : lz4_c; lz4_finalized_ : bool; output_buffer_ : IOVector }.

Definition LZ4Encoder_new : res (coder lz4_encoder) :=
  match lz4_create_c with
  | None => Fatal
  | Some ctx =>
      match lz4_begin ctx with
      | None => Fatal
      | Some (header, ctx) =>
          blk ← block_of_range header;
          v ← append empty_iov blk;
          Ok (new_coder (mkLz4E ctx false v))
      end
  end.

Definition OutputReady (l : lz4_encoder) : bool := (SYNC_DATA_MAX <=? size (output_buffer_ l)) || lz4_finalized_ l.

(** The part that compresses the front of the input; [None] is an error. *)
Definition lz4_compress_front (c : coder lz4_encoder) : res (option (coder lz4_encoder)) :=
  d ← front (input_buffer_ c);
  if llen d =? 0 then Ok (Some c) else
  if lz4_finalized_ (lib c) then Ok None else
  let available_in := Z.min (llen d) 65536 in
  match lz4_update (le_ctx (lib c)) (ltake available_in d) with
  | None => Ok None
  | Some (out, ctx) =>
      v ← drop_front available_in (input_buffer_ c);
      blk ← block_of_range out;
      o ← append (output_buffer_ (lib c)) blk;
      Ok (Some (mkCoder (finished_ c) v (mkLz4E ctx (lz4_finalized_ (lib c)) o)))
  end.
Definition lz4_finalize (c : coder lz4_encoder) : res (option (coder lz4_encoder)) :=
  if finished_ c && negb (lz4_finalized_ (lib c)) then
    match lz4_end (le_ctx (lib c)) with
    | None => Ok None
    | Some (out, ctx) =>
        blk ← block_of_range out;
        o ← append (output_buffer_ (lib c)) blk;
        Ok (Some (mkCoder (finished_ c) (input_buffer_ c) (mkLz4E ctx true o)))
    end
  else Ok (Some c).
Definition lz4_output (c : coder lz4_encoder) : res (bytes * coder lz4_encoder) :=
  let l := lib c in
  if OutputReady l then
    '(taken, o) ← take_front (Z.min SYNC_DATA_MAX (size (output_buffer_ l))) (output_buffer_ l);
    '(blk, _) ← coalesce_move taken;
    Ok (contents blk, mkCoder (finished_ c) (input_buffer_ c) (mkLz4E (le_ctx l) (lz4_finalized_ l) o))
  else Ok ([], c).

Definition LZ4Encoder_Encode (c : coder lz4_encoder) : res (EncodeResult * bytes * coder lz4_encoder) :=
  r1 ← lz4_compress_front c;
  match r1 with
  | None => Ok (EncError, [], c)
  | Some c1 =>
      r2 ← lz4_finalize c1;
      match r2 with
      | None => Ok (EncError, [], c1)
      | Some c2 =>
          '(out, c3) ← lz4_output c2;
          let l := lib c3 in
          if lz4_finalized_ l && empty (output_buffer_ l) then Ok (EncDone, out, c3)
          else if OutputReady l then Ok (EncMoreOutput, out, c3) else Ok (EncNeedInput, out, c3)
      end
  end.
Definition LZ4Encoder : Encoder :=
  mkEncoder (coder lz4_encoder) LZ4Encoder_new coder_append coder_finish LZ4Encoder_Encode.

Record lz4_decoder := mkLz4D { ld_ctx : lz4_d; lz4_done_ : bool }.
Definition LZ4Decoder_new : res (coder lz4_decoder) :=
  match lz4_create_d with None => Fatal | Some ctx => Ok (new_coder (mkLz4D ctx false)) end.

Definition LZ4Decoder_Decode (c : coder lz4_decoder) : res (DecodeResult * bytes * coder lz4_decoder) :=
  d ← front (input_buffer_ c);
  match lz4_decompress (ld_ctx (lib c)) SYNC_DATA_MAX d with
  | None => Ok (DecError, [], c)
  | Some (rc, consumed, out, ctx) =>
      v ← drop_front consumed (input_buffer_ c);
      if (rc =? 0) && negb (empty v) then
        Ok (DecError, [], mkCoder (finished_ c) v (mkLz4D ctx (lz4_done_ (lib c))))
      else
        let c' := mkCoder (finished_ c) v (mkLz4D ctx ((rc =? 0) || lz4_done_ (lib c))) in
        if finished_ c then
          Ok (if empty v && lz4_done_ (lib c') then DecDone else DecMoreOutput, out, c')
        else Ok (DecNeedInput, out, c')
  end.
Definition LZ4Decoder : Decoder :=
  mkDecoder (coder lz4_decoder) LZ4Decoder_new coder_append coder_finish LZ4Decoder_Decode.
End lz4.

(** ** Brotli *)

Inductive BrotliResult := BrSuccess | BrNeedsInput | BrNeedsOutput | BrError.
Class Brotli := {
  br_c : Type;
  br_d : Type;
  br_create_c : br_c;
  br_create_d : br_d;
  (** [finish] is the operation; taken and produced bytes *)
  br_compress : br_c → bool → bytes → Z → option (Z * bytes * br_c);
  br_finished : br_c → bool;
  br_decompress : br_d → bytes → Z → BrotliResult * Z * bytes * br_d
}.

Section brotli.
Context `{Brotli}.

Definition BrotliDecoder_Decode (c : coder br_d) : res (DecodeResult * bytes * coder br_d) :=
  d ← front (input_buffer_ c);
  let '(r, consumed, out, ctx) := br_decompress (lib c) d SYNC_DATA_MAX in
  v ← drop_front consumed (input_buffer_ c);
  let c' := mkCoder (finished_ c) v ctx in
  Ok (match r with
      | BrSuccess => if finished_ c then DecDone else DecNeedInput
      | BrNeedsInput => DecNeedInput
      | BrNeedsOutput => DecMoreOutput
      | BrError => DecError
      end, out, c').
Definition BrotliDecoder : Decoder :=
  mkDecoder (coder br_d) (Ok (new_coder br_create_d)) coder_append coder_finish BrotliDecoder_Decode.

(** [output_block_] up to what is in it. *)
Record brotli_encoder := mkBrE { be_ctx : br_c; output_block_ : bytes }.

Fixpoint brotli_loop (fuel : nat) (c : coder brotli_encoder) : res (EncodeResult * bytes * coder brotli_encoder) :=
  match fuel with
  | O => NoFuel
  | S fuel =>
      d ← front (input_buffer_ c);
      match br_compress (be_ctx (lib c)) (finished_ c) d (SYNC_DATA_MAX - llen (output_block_ (lib c))) with
      | None => Ok (EncError, [], c)
      | Some (consumed, out, ctx) =>
          v ← drop_front consumed (input_buffer_ c);
          let block := output_block_ (lib c) ++ out in
          if br_finished ctx then Ok (EncDone, block, mkCoder (finished_ c) v (mkBrE ctx []))
          else if SYNC_DATA_MAX - llen block =? 0 then
            Ok (EncMoreOutput, block, mkCoder (finished_ c) v (mkBrE ctx []))
          else if empty v then Ok (EncNeedInput, [], mkCoder (finished_ c) v (mkBrE ctx block))
          else brotli_loop fuel (mkCoder (finished_ c) v (mkBrE ctx block))
      end
  end.
Definition BrotliEncoder_Encode (c : coder brotli_encoder) :=
  brotli_loop (S (Z.to_nat (size (input_buffer_ c)))) c.
Definition BrotliEncoder : Encoder :=
  mkEncoder (coder brotli_encoder) (Ok (new_coder (mkBrE br_create_c []))) coder_append coder_finish
    BrotliEncoder_Encode.
End brotli.

(** ** Zstandard *)

(** [None] is an error code; the result, the bytes taken and the bytes produced. *)
Class Zstd := {
  zs_c : Type;
  zs_d : Type;
  zs_create_c : option zs_c;
  zs_create_d : option zs_d;
  zs_compress : zs_c → bool → bytes → Z → option (Z * Z * bytes * zs_c);
  zs_decompress : zs_d → bytes → Z → option (Z * Z * bytes * zs_d)
}.

Section zstd.
Context `{Zstd}.

Definition ZstdDecoder_Decode (c : coder (zs_d * bool)) : res (DecodeResult * bytes * coder (zs_d * bool)) :=
  d ← front (input_buffer_ c);
  match zs_decompress (lib c).1 d SYNC_DATA_MAX with
  | None => Ok (DecError, [], c)
  | Some (rc, consumed, out, ctx) =>
      v ← drop_front consumed (input_buffer_ c);
      if (rc =? 0) && negb (empty v) then Ok (DecError, [], mkCoder (finished_ c) v (ctx, (lib c).2))
      else
        let zstd_done := (rc =? 0) || (lib c).2 in
        let c' := mkCoder (finished_ c) v (ctx, zstd_done) in
        if finished_ c then Ok (if empty v && zstd_done then DecDone else DecMoreOutput, out, c')
        else Ok (DecNeedInput, out, c')
  end.
Definition ZstdDecoder : Decoder :=
  mkDecoder (coder (zs_d * bool))
    (match zs_create_d with None => Fatal | Some ctx => Ok (new_coder (ctx, false)) end)
    coder_append coder_finish ZstdDecoder_Decode.

Definition ZstdEncoder_Encode (c : coder zs_c) : res (EncodeResult * bytes * coder zs_c) :=
  d ← front (input_buffer_ c);
  match zs_compress (lib c) (finished_ c) d SYNC_DATA_MAX with
  | None => Ok (EncError, [], c)
  | Some (rc, consumed, out, ctx) =>
      v ← drop_front consumed (input_buffer_ c);
      let c' := mkCoder (finished_ c) v ctx in
      if rc =? 0 then
        if finished_ c then Ok (if empty v then EncDone else EncError, out, c')
        else Ok (if empty v then EncNeedInput else EncMoreOutput, out, c')
      else Ok (EncMoreOutput, out, c')
  end.
Definition ZstdEncoder : Encoder :=
  mkEncoder (coder zs_c) (match zs_create_c with None => Fatal | Some ctx => Ok (new_coder ctx) end)
    coder_append coder_finish ZstdEncoder_Encode.
End zstd.
End codec.
