(* ===== verification/CodecInv.v ===== *)
(** * Compression of file data: laws

    What the sync client relies on when it feeds a file through an [Encoder] or a stream
    through a [Decoder], stated as the classes [EncoderLaws] and [DecoderLaws] over a
    relation between the data and its encoding.  The coders without compression satisfy
    them with equality as that relation.

    An encoder that was given data is drained by calling [Encode] until it asks for input
    or is done; [drains] says that this ends and what comes out. *)

From S2P Require Import Prelude Types SyncWire Codec.

Definition block_sized (d : bytes) : Prop := 0 < llen d ≤ SYNC_DATA_MAX.

(** ** Laws *)

Section laws.
Context (E : Encoder) (idle : bytes → bytes → enc E → Prop) (code : bytes → bytes → Prop).

(** [drains f i o e outs r]: from [e], which was given [i] and has produced [o], the calls
    of [Encode] give the blocks [outs]; then the encoder needs input again ([r = Some e']),
    or is done, and what it has produced encodes [i].  [f] tells whether it was finished. *)
Inductive drains : bool → bytes → bytes → enc E → list bytes → option (enc E) → Prop :=
  | drains_more f i o e out e' outs r :
      enc_encode E e = Ok (EncMoreOutput, out, e') → llen out ≤ SYNC_DATA_MAX →
      drains f i (o ++ out) e' outs r → drains f i o e (out :: outs) r
  | drains_input i o e out e' :
      enc_encode E e = Ok (EncNeedInput, out, e') → llen out ≤ SYNC_DATA_MAX → idle i (o ++ out) e' →
      drains false i o e [out] (Some e')
  | drains_done i o e out e' :
      enc_encode E e = Ok (EncDone, out, e') → llen out ≤ SYNC_DATA_MAX → code i (o ++ out) →
      drains true i o e [out] None.
End laws.

(** [code d c]: the device takes [c] for an encoding of [d].  Files stay below 1 TiB, so that
    no length of a buffer overflows. *)
Class EncoderLaws (E : Encoder) (code : bytes → bytes → Prop) := {
  enc_idle : bytes → bytes → enc E → Prop;
  enc_new_ok : ∃ e, enc_new E = Ok e ∧ enc_idle [] [] e;
  enc_append_ok : ∀ i o e d, enc_idle i o e → block_sized d → llen (i ++ d) < 2 ^ 40 →
    ∃ e' outs r, enc_append E d e = Ok e' ∧ drains E enc_idle code false (i ++ d) o e' outs (Some r);
  enc_finish_ok : ∀ i o e, enc_idle i o e →
    llen i < 2 ^ 40 → ∃ e' outs, enc_finish E e = Ok e' ∧ drains E enc_idle code true i o e' outs None
}.

Section dec_laws.
Context (D : Decoder) (idle : bytes → bytes → dec_t D → Prop).

(** The same for a decoder: [i] was given to it, [o] has come out. *)
Inductive ddrains : bool → bytes → bytes → dec_t D → list bytes → option (dec_t D) → Prop :=
  | ddrains_more f i o d out d' outs r :
      dec_decode D d = Ok (DecMoreOutput, out, d') → ddrains f i (o ++ out) d' outs r → ddrains f i o d (out :: outs) r
  | ddrains_input i o d out d' :
      dec_decode D d = Ok (DecNeedInput, out, d') → idle i (o ++ out) d' → ddrains false i o d [out] (Some d')
  | ddrains_done i o d out d' : dec_decode D d = Ok (DecDone, out, d') → ddrains true i o d [out] None.
End dec_laws.

(** A decoder has to cope with the blocks of an encoding, cut in any way; [i] and [c] below
    are a part and the whole of one. *)
Class DecoderLaws (D : Decoder) (code : bytes → bytes → Prop) := {
  dec_idle : bytes → bytes → dec_t D → Prop;
  dec_new_ok : ∃ d, dec_new D = Ok d ∧ dec_idle [] [] d;
  dec_append_ok : ∀ x c i b rest o d, code x c → c = i ++ b ++ rest → dec_idle i o d → llen b ≤ SYNC_DATA_MAX →
    ∃ d' outs r, dec_append D b d = Ok d' ∧ ddrains D dec_idle false (i ++ b) o d' outs (Some r);
  dec_finish_ok : ∀ x c o d, code x c → dec_idle c o d →
    ∃ d' outs, dec_finish D d = Ok d' ∧ ddrains D dec_idle true c o d' outs None ∧ o ++ concat outs = x
}.

(** ** The input buffer *)

Section null.
Context `{Uninit}.

Lemma front_wf_empty : front_wf empty_iov.
Proof. split; [apply iov_wf_empty|done]. Qed.

Lemma empty_view v : iov_wf v → empty v = bool_decide (view v = []).
Proof.
  intros Hv. unfold empty. rewrite (size_view v Hv). case_bool_decide as E.
  - by rewrite E.
  - apply Z.eqb_neq. intros E'. by apply llen_0 in E'.
Qed.

Lemma view_nil_chain v : front_wf v → view v = [] → chain_length_ v = 0.
Proof.
  intros [Hv Hf] E. pose proof (view_nil_live v Hv E) as El. destruct Hv as [_ (_ & _ & -> & _)]. by rewrite El.
Qed.

Lemma front_nil v : front_wf v → view v = [] → front v = Ok [].
Proof. intros Hv E. unfold front, front_size, front_data. by rewrite (proj2 Hv) by (by apply view_nil_live, E; apply Hv). Qed.

Lemma front_live v b bs :
  iov_wf v → live v = b :: bs →
  front_size v = Ok (size_ b - begin_offset_ v) ∧ front v = Ok (ldrop (begin_offset_ v) (contents b)).
Proof.
  intros Hv El. unfold front, front_size, front_data.
  pose proof (live_chain v b bs El) as Hc. pose proof (live_lget v b bs Hv El) as Hg.
  destruct (front_facts v b bs Hv El) as (Hb & Hbo & Hsz & _ & _ & Hl & _).
  destruct (chain_ v) as [|c cs]; [done|]. rewrite Hg. cbn [deref]. rok.
  rewrite u64_small by lia. by rewrite ltake_ge by lia.
Qed.

(** The front of a buffer is a nonempty prefix of its bytes. *)
Lemma front_spec v :
  front_wf v →
  ∃ n d, front_size v = Ok n ∧ front v = Ok d ∧ llen d = n ∧ (∃ rest, view v = d ++ rest) ∧ (view v ≠ [] → d ≠ []).
Proof.
  intros [Hv Hf]. destruct (live v) as [|b bs] eqn:El.
  - unfold front, front_size, front_data. rewrite (Hf eq_refl), (live_nil_view v El). exists 0, []. split_and!; try done. by exists [].
  - destruct (front_live v b bs Hv El) as [-> ->]. destruct (front_facts v b bs Hv El) as (_ & Hbo & _ & _ & _ & Hl & _).
    exists (size_ b - begin_offset_ v), (ldrop (begin_offset_ v) (contents b)). split_and!; try done.
    + exists (bytes_of bs). by apply view_cons.
    + intros _ E. rewrite E in Hl. change (llen []) with 0 in Hl. lia.
Qed.

Lemma llen_data_max : SYNC_DATA_MAX = 65536.
Proof. done. Qed.

(** The copy loop moves as much as there is room for. *)
Lemma null_copy_spec fuel : ∀ room v out,
  front_wf v → 0 ≤ room ≤ SYNC_DATA_MAX → (Z.to_nat (llen (view v)) < fuel)%nat →
  ∃ v', null_copy fuel room v out = Ok (v', out ++ ltake room (view v)) ∧ front_wf v' ∧ view v' = ldrop room (view v).
Proof.
  induction fuel as [|fuel IH]; intros room v out Hv Hr Hf; [lia|]. cbn [null_copy].
  rewrite (empty_view v) by apply Hv. destruct (Z.ltb_spec 0 room); cbn [andb].
  2:{ assert (room = 0) as -> by lia. rewrite ltake_0, ldrop_0, app_nil_r. eauto. }
  case_bool_decide as Ev; cbn [negb].
  { rewrite Ev. exists v. unfold ltake, ldrop. rewrite take_nil, drop_nil, app_nil_r. done. }
  destruct (front_spec v Hv) as (n & d & -> & -> & Hn & [rest Hd] & Hne). rok. specialize (Hne Ev).
  assert (0 < n) by (pose proof (llen_nonneg d); destruct (decide (llen d = 0)) as [E0|]; [by apply llen_0 in E0|lia]).
  pose proof (llen_nonneg rest). rewrite llen_data_max in Hr.
  assert (llen (view v) = n + llen rest) as Hlv by (rewrite Hd, llen_app; lia).
  destruct (drop_front_spec v (Z.min room n) Hv) as (v' & -> & Hv' & Hvv & _); [lia|lia|]. rok.
  destruct (IH (room - Z.min room n) v' (out ++ ltake (Z.min room n) d)) as (v'' & -> & Hv'' & Hvv''); [done|rewrite llen_data_max; lia| |].
  { rewrite Hvv, llen_ldrop by lia. lia. }
  exists v''. split; [|split; [done|]].
  - f_equal. f_equal. rewrite <- app_assoc. f_equal. rewrite Hvv. destruct (decide (room ≤ n)).
    + rewrite Z.min_l, Z.sub_diag, ltake_0, app_nil_r by lia. rewrite Hd, ltake_app_le by lia. done.
    + rewrite Z.min_r by lia. rewrite Hd, (ltake_app_ge room) by lia. rewrite ltake_ge by lia. f_equal.
      rewrite ldrop_app_ge by lia. rewrite Hn, Z.sub_diag, ldrop_0. done.
  - rewrite Hvv'', Hvv, ldrop_ldrop by lia. f_equal. lia.
Qed.

(** ** No compression *)

Definition null_idle (i o : bytes) (c : coder unit) : Prop :=
  i = o ∧ finished_ c = false ∧ front_wf (input_buffer_ c) ∧ view (input_buffer_ c) = [].

(** Appending a block to an empty buffer. *)
Lemma coder_append_idle {L} (c : coder L) d :
  front_wf (input_buffer_ c) → view (input_buffer_ c) = [] → llen d ≤ SYNC_DATA_MAX →
  ∃ v, coder_append d c = Ok (mkCoder (finished_ c) v (lib c)) ∧ front_wf v ∧ view v = d ∧ front v = Ok d.
Proof.
  intros Hv E Hd. unfold coder_append. destruct (block_of_range_spec d) as (b & -> & Hb & Hc & Hs). rok.
  destruct (append_wf (input_buffer_ c) b) as (v & -> & Hw & Hvv & _ & _ & _ & Hlive & Hf); [apply Hv|done| |].
  { rewrite (view_nil_chain _ Hv E), Hs. rewrite llen_data_max in Hd. lia. }
  rok. rewrite E, Hc in Hvv. exists v. split_and!; [done|auto|done|].
  destruct (decide (llen d = 0)) as [E0|]; [apply llen_0 in E0 as ->; apply front_nil; auto|]. pose proof (llen_nonneg d).
  specialize (Hlive ltac:(lia)). rewrite (view_nil_live _ (proj1 Hv) E) in Hlive. destruct (front_live v b [] Hw Hlive) as [_ ->].
  rewrite (view_cons v b [] Hw Hlive), app_nil_r in Hvv. by rewrite Hvv.
Qed.

(** One call drains a buffer that holds at most one block. *)
Lemma null_copy_all v :
  front_wf v → llen (view v) ≤ SYNC_DATA_MAX →
  ∃ v', null_copy (S (Z.to_nat (size v))) SYNC_DATA_MAX v [] = Ok (v', view v) ∧ front_wf v' ∧ view v' = [] ∧ empty v' = true.
Proof.
  intros Hv Hl. destruct (null_copy_spec (S (Z.to_nat (size v))) SYNC_DATA_MAX v []) as (v' & -> & Hv' & Hvv); [done|done| |].
  { rewrite (size_view v) by apply Hv. lia. }
  rewrite ltake_ge, llen_ldrop_ge in * by done. exists v'. split_and!; try done.
  rewrite empty_view by apply Hv'. by rewrite bool_decide_eq_true_2.
Qed.

#[global] Instance NullEncoder_laws : EncoderLaws NullEncoder eq.
Proof.
  refine {| enc_idle := null_idle : bytes → bytes → enc NullEncoder → Prop |}.
  - eexists; split; [done|]. by split_and!.
  - intros i o c d (<- & Hf & Hv & E) [Hd Hm] _. destruct (coder_append_idle c d Hv E Hm) as (v & Ha & Hvv & Hvd & _).
    destruct (null_copy_all v Hvv) as (v' & Hc & Hv' & Hvn & He); [by rewrite Hvd|].
    eexists _, _, _. split; [exact Ha|]. eapply drains_input.
    + cbn [enc_encode NullEncoder]. unfold NullEncoder_Encode. cbn [input_buffer_ finished_]. rewrite Hc. rok.
      rewrite He, Hf, Hvd. done.
    + done.
    + by split_and!.
  - intros i o c (<- & Hf & Hv & E) _.
    destruct (null_copy_all (input_buffer_ c) Hv) as (v' & Hc & Hv' & Hvn & He); [by rewrite E|].
    eexists _, _. split; [cbn; unfold coder_finish; by rewrite Hf|]. eapply drains_done.
    + cbn [enc_encode NullEncoder]. unfold NullEncoder_Encode. cbn [input_buffer_ finished_]. rewrite Hc. rok.
      rewrite He, E. done.
    + done.
    + by rewrite app_nil_r.
Defined.

#[global] Instance NullDecoder_laws : DecoderLaws NullDecoder eq.
Proof.
  refine {| dec_idle := null_idle : bytes → bytes → dec_t NullDecoder → Prop |}.
  - eexists; split; [done|]. by split_and!.
  - intros x s i b rest o c _ _ (<- & Hf & Hv & E) Hb. destruct (coder_append_idle c b Hv E Hb) as (v & Ha & Hvv & Hvd & _).
    destruct (null_copy_all v Hvv) as (v' & Hc & Hv' & Hvn & He); [by rewrite Hvd|].
    eexists _, _, _. split; [exact Ha|]. eapply ddrains_input.
    + cbn [dec_decode NullDecoder]. unfold NullDecoder_Decode. cbn [input_buffer_ finished_]. rewrite Hc. rok.
      rewrite He, Hf, Hvd. done.
    + by split_and!.
  - intros x s o c <- (<- & Hf & Hv & E).
    destruct (null_copy_all (input_buffer_ c) Hv) as (v' & Hc & Hv' & Hvn & He); [by rewrite E|].
    eexists _, _. split; [cbn; unfold coder_finish; by rewrite Hf|]. split.
    + eapply ddrains_done. cbn [dec_decode NullDecoder]. unfold NullDecoder_Decode. cbn [input_buffer_ finished_].
      rewrite Hc. rok. rewrite He, E. done.
    + cbn. by rewrite app_nil_r.
Defined.
End null.

(** ** LZ4 *)

(** What lz4frame.h promises: the calls succeed, produce a bounded number of bytes
    ([LZ4F_compressBound] of a 64 KiB block is far below 1 MiB), and what a compression
    context has produced at the end is a frame for the data it was given. *)
Class LZ4FLaws `{LZ4F} (lz4_frame : bytes → bytes → Prop) := {
  lz4_st : lz4_c → bytes → bytes → Prop;
  lz4_begin_ok : ∃ ctx h ctx', lz4_create_c = Some ctx ∧ lz4_begin ctx = Some (h, ctx') ∧ lz4_st ctx' [] h ∧ llen h ≤ 2 ^ 20;
  lz4_update_ok : ∀ ctx i o d, lz4_st ctx i o → 0 < llen d ≤ 65536 →
    ∃ out ctx', lz4_update ctx d = Some (out, ctx') ∧ lz4_st ctx' (i ++ d) (o ++ out) ∧ llen out ≤ 2 ^ 20;
  lz4_end_ok : ∀ ctx i o, lz4_st ctx i o →
    ∃ out ctx', lz4_end ctx = Some (out, ctx') ∧ lz4_frame i (o ++ out) ∧ llen out ≤ 2 ^ 20
}.

Section lz4_proofs.
Context `{Uninit} `{LZ4FLaws lz4_frame}.

(** What [Encode] does once the input is compressed. *)
Definition lz4_rest (c : coder lz4_encoder) : res (EncodeResult * bytes * coder lz4_encoder) :=
  '(out, c3) ← lz4_output c;
  let l := lib c3 in
  if lz4_finalized_ l && empty (output_buffer_ l) then Ok (EncDone, out, c3)
  else if OutputReady l then Ok (EncMoreOutput, out, c3) else Ok (EncNeedInput, out, c3).

(** Nothing is left to compress, and a finished encoder has written the end of the frame. *)
Definition settled (c : coder lz4_encoder) : Prop :=
  front_wf (input_buffer_ c) ∧ view (input_buffer_ c) = [] ∧ finished_ c = lz4_finalized_ (lib c) ∧
  front_wf (output_buffer_ (lib c)).

Lemma settled_encode c : settled c → LZ4Encoder_Encode c = lz4_rest c.
Proof.
  intros (Hv & E & Hf & _). unfold LZ4Encoder_Encode, lz4_compress_front. rewrite (front_nil _ Hv E). rok.
  change (llen [] =? 0) with true. cbv iota. rok. unfold lz4_finalize. rewrite Hf.
  by destruct (lz4_finalized_ (lib c)).
Qed.

(** The output buffer's view after a call, and what the call returns. *)
Lemma lz4_rest_spec c :
  settled c →
  let w := view (output_buffer_ (lib c)) in
  let ready := (SYNC_DATA_MAX <=? llen w) || finished_ c in
  let n := if ready then Z.min SYNC_DATA_MAX (llen w) else 0 in
  ∃ c' r, lz4_rest c = Ok (r, ltake n w, c') ∧ settled c' ∧ finished_ c' = finished_ c ∧ le_ctx (lib c') = le_ctx (lib c) ∧
    view (output_buffer_ (lib c')) = ldrop n w ∧
    chain_length_ (output_buffer_ (lib c')) ≤ chain_length_ (output_buffer_ (lib c)) ∧
    r = if finished_ c && bool_decide (ldrop n w = []) then EncDone
        else if (SYNC_DATA_MAX <=? llen (ldrop n w)) || finished_ c then EncMoreOutput else EncNeedInput.
Proof.
  intros (Hv & E & Hf & Ho) w ready n. unfold lz4_rest, lz4_output, OutputReady. rewrite (size_view _ (proj1 Ho)), <- Hf.
  fold w. fold ready. pose proof (llen_nonneg w). pose proof llen_data_max. subst n. destruct ready; cbv iota.
  - destruct (take_front_chain_spec (output_buffer_ (lib c)) (Z.min SYNC_DATA_MAX (llen w)) Ho) as (t & o' & Ht & Htw & Ho' & Htv & Hov & Hcl); [fold w; lia|].
    rewrite Ht. rok. destruct (coalesce_move_spec t (proj1 Htw)) as (b & t' & -> & _ & Hb & _). rok. cbn [lib finished_ output_buffer_ lz4_finalized_].
    rewrite (size_view _ (proj1 Ho')), (empty_view _ (proj1 Ho')), Hov, Hb, Htv. fold w.
    eexists (mkCoder (finished_ c) (input_buffer_ c) (mkLz4E (le_ctx (lib c)) (lz4_finalized_ (lib c)) o')), _.
    split; [|split; [by split_and!|split_and!; [done|done|done|done|reflexivity]]].
    cbn [lib finished_ output_buffer_ lz4_finalized_]. rewrite Hf. by repeat case_match.
  - rok. rewrite (size_view _ (proj1 Ho)), (empty_view _ (proj1 Ho)), <- Hf. fold w.
    eexists c, _. split; [|split; [by split_and!|split_and!; [done|done| |done|reflexivity]]].
    + rewrite ltake_0, ldrop_0. fold w. by repeat case_match.
    + by rewrite ldrop_0.
Qed.

Definition lz4_idle (i o : bytes) (c : coder lz4_encoder) : Prop :=
  settled c ∧ finished_ c = false ∧ lz4_st (le_ctx (lib c)) i (o ++ view (output_buffer_ (lib c))) ∧
  chain_length_ (output_buffer_ (lib c)) ≤ 2 ^ 20 * (1 + llen i).

(** The output is handed out a block at a time. *)
Lemma lz4_settled_drains n : ∀ c e i o,
  settled c → LZ4Encoder_Encode e = lz4_rest c → (length (view (output_buffer_ (lib c))) < n)%nat →
  (if finished_ c then lz4_frame i (o ++ view (output_buffer_ (lib c)))
   else lz4_st (le_ctx (lib c)) i (o ++ view (output_buffer_ (lib c))) ∧
        chain_length_ (output_buffer_ (lib c)) ≤ 2 ^ 20 * (1 + llen i)) →
  ∃ outs r, drains LZ4Encoder lz4_idle lz4_frame (finished_ c) i o e outs (if finished_ c then None else Some r).
Proof.
  induction n as [|n IH]; intros c e i o Hs He Hn Hst; [lia|].
  destruct (lz4_rest_spec c Hs) as (c' & r & Hr & Hs' & Hf' & Hctx & Hw' & Hcl & Hres).
  set (w := view (output_buffer_ (lib c))) in *.
  set (k := if (SYNC_DATA_MAX <=? llen w) || finished_ c then Z.min SYNC_DATA_MAX (llen w) else 0) in *.
  pose proof (llen_nonneg w). pose proof llen_data_max.
  assert (0 ≤ k ≤ llen w ∧ k ≤ SYNC_DATA_MAX) as Hk by (unfold k; destruct (_ || _); lia).
  assert (o ++ w = (o ++ ltake k w) ++ ldrop k w) as Hsplit by (by rewrite <- app_assoc, ltake_ldrop).
  assert (llen (ltake k w) ≤ SYNC_DATA_MAX) as Hl by (rewrite llen_ltake; lia).
  destruct (finished_ c && bool_decide (ldrop k w = [])) eqn:Hd.
  { apply andb_true_iff in Hd as [Hf Hd]. apply bool_decide_eq_true in Hd. rewrite Hf in *. exists [ltake k w], c'.
    eapply drains_done; [cbn; rewrite He, Hr, Hres; reflexivity|done|]. rewrite Hsplit, Hd, app_nil_r in Hst. done. }
  destruct ((SYNC_DATA_MAX <=? llen (ldrop k w)) || finished_ c) eqn:Hm.
  - destruct (IH c' c' i (o ++ ltake k w)) as (outs & r' & Hdr); [done|by apply settled_encode| | |].
    + rewrite Hw'. assert (0 < k).
      { unfold k in *. destruct ((SYNC_DATA_MAX <=? llen w) || finished_ c) eqn:Hy.
        - destruct (decide (llen w = 0)) as [E0|]; [|lia]. apply llen_0 in E0.
          rewrite E0 in Hd, Hy. rewrite bool_decide_eq_true_2 in Hd by (unfold ldrop; by rewrite drop_nil).
          destruct (finished_ c); [done|]. done.
        - rewrite ldrop_0 in Hm. congruence. }
      unfold ldrop. rewrite length_drop. unfold llen in *. lia.
    + rewrite Hf', Hw', Hctx, <- Hsplit. destruct (finished_ c); [done|]. split; [apply Hst|lia].
    + rewrite Hf' in Hdr. exists (ltake k w :: outs), r'. eapply drains_more; [cbn; rewrite He, Hr, Hres; reflexivity|done..].
  - apply orb_false_iff in Hm as [Hm Hf]. rewrite Hf in *. exists [ltake k w], c'.
    eapply drains_input; [cbn; rewrite He, Hr, Hres; reflexivity|done|]. destruct Hst as [Hst Hc]. split_and!; try done.
    + rewrite Hctx, Hw', <- Hsplit. done.
    + lia.
Qed.

(** Appending to the output buffer. *)
Lemma append_range v d :
  front_wf v → chain_length_ v ≤ 2 ^ 62 → llen d ≤ 2 ^ 20 →
  ∃ b v', block_of_range d = Ok b ∧ append v b = Ok v' ∧ front_wf v' ∧ view v' = view v ++ d ∧
    chain_length_ v' = chain_length_ v + llen d.
Proof.
  intros Hv Hc Hd. destruct (block_of_range_spec d) as (b & Hb & Hok & Hbc & Hs).
  destruct (append_wf v b) as (v' & Ha & _ & Hvv & Hcl & _ & _ & _ & Hf); [apply Hv|done|lia|].
  exists b, v'. split_and!; [done|done|auto|by rewrite Hvv, Hbc|lia].
Qed.

Lemma LZ4Encoder_new_idle : ∃ e, LZ4Encoder_new = Ok e ∧ lz4_idle [] [] e.
Proof.
  destruct lz4_begin_ok as (ctx & h & ctx' & Ec & Eb & Hst & Hh). unfold LZ4Encoder_new. rewrite Ec, Eb.
  destruct (append_range empty_iov h) as (b & v & -> & Ha & Hv & Hvv & Hc); [apply front_wf_empty|done|done|]. rok.
  rewrite Ha. rok. eexists; split; [done|]. split_and!; cbn.
  - split_and!; try done.
  - done.
  - rewrite Hvv. done.
  - rewrite Hc. change (chain_length_ empty_iov) with 0. change (llen []) with 0. lia.
Qed.

(** A block is compressed in one piece. *)
Lemma lz4_append_drains i o c d :
  lz4_idle i o c → block_sized d → llen (i ++ d) < 2 ^ 40 →
  ∃ c' outs r, coder_append d c = Ok c' ∧ drains LZ4Encoder lz4_idle lz4_frame false (i ++ d) o c' outs (Some r).
Proof.
  intros ((Hv & E & Hf & Ho) & Hnf & Hst & Hcl) [Hd Hm] Hi. rewrite llen_app in Hi. pose proof (llen_nonneg i).
  rewrite llen_data_max in Hm. destruct (coder_append_idle c d Hv E Hm) as (v & -> & Hvv & Hvd & Hfr).
  destruct (lz4_update_ok _ _ _ d Hst ltac:(lia)) as (out & ctx' & Hu & Hst' & Hout).
  destruct (drop_front_spec v (llen d) Hvv) as (v' & Hdf & Hv' & Hvn & _); [rewrite Hvd; lia|lia|].
  rewrite Hvd, llen_ldrop_ge in Hvn by lia.
  destruct (append_range (output_buffer_ (lib c)) out Ho) as (b & ov & Hb & Ha & Hov & Hovv & Hoc); [lia|done|].
  set (c2 := mkCoder false v' (mkLz4E ctx' false ov)).
  destruct (lz4_settled_drains (S (length (view ov))) c2 (mkCoder (finished_ c) v (lib c)) (i ++ d) o) as (outs & r & Hdr).
  - by split_and!.
  - unfold LZ4Encoder_Encode, lz4_compress_front. cbn [input_buffer_ lib finished_]. rewrite Hfr. rok.
    destruct (Z.eqb_spec (llen d) 0); [lia|]. rewrite <- Hf, Hnf, Z.min_l, ltake_ge by lia. rewrite Hu, Hdf. rok.
    rewrite Hb. rok. rewrite Ha. rok. done.
  - cbn. lia.
  - cbn [c2 finished_ lib output_buffer_ le_ctx]. rewrite Hovv, app_assoc, llen_app. split; [done|lia].
  - eexists _, _, _. split; [done|exact Hdr].
Qed.

Lemma lz4_finish_drains i o c :
  lz4_idle i o c → llen i < 2 ^ 40 →
  ∃ c' outs, coder_finish c = Ok c' ∧ drains LZ4Encoder lz4_idle lz4_frame true i o c' outs None.
Proof.
  intros ((Hv & E & Hf & Ho) & Hnf & Hst & Hcl) Hi. unfold coder_finish. rewrite Hnf.
  destruct (lz4_end_ok _ _ _ Hst) as (out & ctx' & Hu & Hfr & Hout). pose proof (llen_nonneg i).
  destruct (append_range (output_buffer_ (lib c)) out Ho) as (b & ov & Hb & Ha & Hov & Hovv & Hoc); [lia|done|].
  set (c2 := mkCoder true (input_buffer_ c) (mkLz4E ctx' true ov)).
  destruct (lz4_settled_drains (S (length (view ov))) c2 (mkCoder true (input_buffer_ c) (lib c)) i o) as (outs & r & Hdr).
  - by split_and!.
  - unfold LZ4Encoder_Encode, lz4_compress_front. cbn [input_buffer_ lib finished_]. rewrite (front_nil _ Hv E). rok.
    change (llen [] =? 0) with true. cbv iota. rok. unfold lz4_finalize. cbn [finished_ lib]. rewrite <- Hf, Hnf. cbn [andb negb].
    rewrite Hu, Hb. rok. rewrite Ha. rok. done.
  - cbn. lia.
  - cbn [c2 finished_ lib output_buffer_]. rewrite Hovv, app_assoc. done.
  - eexists _, _. split; [done|exact Hdr].
Qed.

#[global] Instance LZ4Encoder_laws : EncoderLaws LZ4Encoder lz4_frame := {|
  enc_idle := lz4_idle : bytes → bytes → enc LZ4Encoder → Prop;
  enc_new_ok := LZ4Encoder_new_idle;
  enc_append_ok := lz4_append_drains;
  enc_finish_ok := lz4_finish_drains
|}.
End lz4_proofs.
