(* ===== verification/Sync.v ===== *)
(** * The client side of the sync protocol

    Models adb/lib/src/file_sync_client.cpp: [SyncConnection] and the functions that push
    and pull files over it, with the observer of sync_progress.h and the errno table of
    sysdeps/errno.cpp.

    A function of the code is a computation of [SM]: it reads and changes the connection,
    may end the process or be undefined.  What the kernel and other processes decide (the
    answers of [stat], [read], [write], [poll] and so on) comes from [SyncEnv], whose
    functions see everything that was asked before, so no two questions need to have the
    same answer.  What the transfer does to local files is recorded in [sc_hist].  The
    terminal output of [LinePrinter] is not modelled, except for the messages, which are
    kept in [sc_log].

    [fuel] bounds every loop whose number of turns is not bounded by the model's data; a
    loop that runs out gives [NoFuel]. *)

From S2P Require Import Prelude Types Strings Transport World Io Paths SyncWire Codec.

(** ** Errors *)

Definition ENOENT : Z := 2.
Definition EIO : Z := 5.
Definition ENAMETOOLONG : Z := 36.
Definition ENOPROTOOPT : Z := 92.
Definition ENOTSUP : Z := 95.
Definition ECONNRESET : Z := 104.

(** The errors that have a value on the wire; on Linux it is the value itself. *)
Definition ERRNO_VALUES : list Z :=
  [13; 17; 14; 27; 4; 22; 5; 21; 40; 24; 36; 23; 2; 12; 28; 20; 75; 1; 30; 26].
Definition errno_from_wire (error : Z) : Z := if bool_decide (error ∈ ERRNO_VALUES) then error else EIO.

(** ** Files *)

(** [struct stat] as far as it is filled in. *)
Record stat := mkStat {
  st_dev : Z; st_ino : Z; st_mode : Z; st_nlink : Z; st_uid : Z; st_gid : Z; st_size : Z;
  st_atime : Z; st_mtime : Z; st_ctime : Z
}.
Definition zero_stat : stat := mkStat 0 0 0 0 0 0 0 0 0 0.

(** What the transfer has asked of the system, in order.  Questions without an effect are
    all [SAsk]. *)
Inductive sys :=
  | SAsk
  | SCreat (path : bytes) (ok : bool)
  | SWrite (path : bytes) (data : bytes) (ok : bool)
  | SUnlink (path : bytes) (ok : bool)
  | SUtime (path : bytes) (time : Z)
  | SChmod (path : bytes) (mode : Z)
  | SMkdir (path : bytes) (ok : bool)
  | SShell (cmd : bytes).

Record SyncProgressObserver := mkObserver {
  on_progress : bool;
  on_wire_bytes : bool;
  should_abort : option (list sys → bool)
}.

(** An error is [inl errno].  [e_send n] is how the sending of [n] bytes ends: all sent, or
    so many and an error; [e_open] gives what successive reads of the file return. *)
Class SyncEnv := {
  g_sync_observer : option SyncProgressObserver;
  e_send : list sys → Z → option (Z * Z);
  e_recv_errno : list sys → Z;
  e_poll_none : list sys → bool;
  e_stat : list sys → bytes → Z + stat;
  e_lstat : list sys → bytes → Z + stat;
  e_readlink : list sys → bytes → Z + bytes;
  e_open : list sys → bytes → Z + list (Z + bytes);
  e_opendir : list sys → bytes → Z + list bytes;
  e_unlink : list sys → bytes → bool;
  e_creat : list sys → bytes → option Z;
  e_write : list sys → bytes → bytes → option Z;
  e_utime : list sys → bytes → Z → Z;
  e_chmod : list sys → bytes → Z → Z;
  e_umask : Z;
  e_isdir : list sys → bytes → bool;
  e_mkdir : list sys → bytes → bool;
  strerror : Z → bytes
}.

(** ** The connection *)

Record TransferLedger := mkLedger {
  files_transferred : Z; files_skipped : Z; bytes_transferred : Z; bytes_expected : Z; expect_multiple_files : bool
}.
Definition Reset (l : TransferLedger) : TransferLedger := mkLedger 0 0 0 0 (expect_multiple_files l).
Definition add_bytes (n : Z) (l : TransferLedger) : TransferLedger :=
  mkLedger (files_transferred l) (files_skipped l) (u64 (bytes_transferred l + n)) (bytes_expected l) (expect_multiple_files l).
Definition add_files (n : Z) (l : TransferLedger) : TransferLedger :=
  mkLedger (u64 (files_transferred l + n)) (files_skipped l) (bytes_transferred l) (bytes_expected l) (expect_multiple_files l).
Definition add_skipped (n : Z) (l : TransferLedger) : TransferLedger :=
  mkLedger (files_transferred l) (u64 (files_skipped l + n)) (bytes_transferred l) (bytes_expected l) (expect_multiple_files l).
Definition set_expected (n : Z) (multiple : bool) (l : TransferLedger) : TransferLedger :=
  mkLedger (files_transferred l) (files_skipped l) (bytes_transferred l) n multiple.

(** The flags the constructor sets from the features. *)
Record capabilities := mkCaps {
  have_stat_v2_ : bool; have_ls_v2_ : bool; have_sendrecv_v2_ : bool; have_sendrecv_v2_brotli_ : bool;
  have_sendrecv_v2_lz4_ : bool; have_sendrecv_v2_zstd_ : bool; have_sendrecv_v2_dry_run_send_ : bool
}.

Record sync := mkSync {
  sc_caps : capabilities;
  sc_features : option (list bytes);              (** [features_] *)
  sc_in : list bytes;                             (** what the device sends, in pieces *)
  sc_out : bytes;                                 (** what was sent to it *)
  deferred_acknowledgements_ : list (bytes * bytes);
  acknowledgement_buffer_ : bytes;
  current_ledger_ : TransferLedger;
  global_ledger_ : TransferLedger;
  sc_errno : Z;
  sc_hist : list sys;
  sc_log : list bytes;
  sc_progress : list (bytes * Z * Z);             (** calls of [on_progress] *)
  sc_wire : Z                                     (** the sum of the calls of [on_wire_bytes] *)
}.

Definition max : Z := SYNC_DATA_MAX.

Definition with_in v s :=
  mkSync (sc_caps s) (sc_features s) v (sc_out s) (deferred_acknowledgements_ s) (acknowledgement_buffer_ s)
    (current_ledger_ s) (global_ledger_ s) (sc_errno s) (sc_hist s) (sc_log s) (sc_progress s) (sc_wire s).
Definition with_out v s :=
  mkSync (sc_caps s) (sc_features s) (sc_in s) v (deferred_acknowledgements_ s) (acknowledgement_buffer_ s)
    (current_ledger_ s) (global_ledger_ s) (sc_errno s) (sc_hist s) (sc_log s) (sc_progress s) (sc_wire s).
Definition with_acks v s :=
  mkSync (sc_caps s) (sc_features s) (sc_in s) (sc_out s) v (acknowledgement_buffer_ s)
    (current_ledger_ s) (global_ledger_ s) (sc_errno s) (sc_hist s) (sc_log s) (sc_progress s) (sc_wire s).
Definition with_buf v s :=
  mkSync (sc_caps s) (sc_features s) (sc_in s) (sc_out s) (deferred_acknowledgements_ s) v
    (current_ledger_ s) (global_ledger_ s) (sc_errno s) (sc_hist s) (sc_log s) (sc_progress s) (sc_wire s).
Definition with_ledgers c g s :=
  mkSync (sc_caps s) (sc_features s) (sc_in s) (sc_out s) (deferred_acknowledgements_ s) (acknowledgement_buffer_ s)
    c g (sc_errno s) (sc_hist s) (sc_log s) (sc_progress s) (sc_wire s).
Definition with_errno v s :=
  mkSync (sc_caps s) (sc_features s) (sc_in s) (sc_out s) (deferred_acknowledgements_ s) (acknowledgement_buffer_ s)
    (current_ledger_ s) (global_ledger_ s) v (sc_hist s) (sc_log s) (sc_progress s) (sc_wire s).
Definition with_hist v s :=
  mkSync (sc_caps s) (sc_features s) (sc_in s) (sc_out s) (deferred_acknowledgements_ s) (acknowledgement_buffer_ s)
    (current_ledger_ s) (global_ledger_ s) (sc_errno s) v (sc_log s) (sc_progress s) (sc_wire s).
Definition with_log v s :=
  mkSync (sc_caps s) (sc_features s) (sc_in s) (sc_out s) (deferred_acknowledgements_ s) (acknowledgement_buffer_ s)
    (current_ledger_ s) (global_ledger_ s) (sc_errno s) (sc_hist s) v (sc_progress s) (sc_wire s).
Definition with_observed p n s :=
  mkSync (sc_caps s) (sc_features s) (sc_in s) (sc_out s) (deferred_acknowledgements_ s) (acknowledgement_buffer_ s)
    (current_ledger_ s) (global_ledger_ s) (sc_errno s) (sc_hist s) (sc_log s) p n.

Definition kFeature (name : String.string) (features : list bytes) : bool := CanUseFeature features (txt name).
Definition capabilities_of (features : list bytes) : capabilities :=
  mkCaps (kFeature "stat_v2" features) (kFeature "ls_v2" features) (kFeature "sendrecv_v2" features)
    (kFeature "sendrecv_v2_brotli" features) (kFeature "sendrecv_v2_lz4" features)
    (kFeature "sendrecv_v2_zstd" features) (kFeature "sendrecv_v2_dry_run_send" features).
(** The constructor; [pieces] is what the device will send. *)
Definition new_SyncConnection (features : list bytes) (pieces : list bytes) (hist : list sys) : sync :=
  mkSync (capabilities_of features) None pieces [] [] [] (mkLedger 0 0 0 0 false) (mkLedger 0 0 0 0 false) 0 hist [] [] 0.

Definition ResolveCompressionType (k : capabilities) (compression : CompressionType) : CompressionType :=
  if bool_decide (compression = CAny) then
    if have_sendrecv_v2_zstd_ k then CZstd
    else if have_sendrecv_v2_lz4_ k then CLZ4
    else if have_sendrecv_v2_brotli_ k then CBrotli
    else CNone
  else compression.

(** ** Computations *)

Definition SM (A : Type) : Type := sync → res (A * sync).
#[global] Instance SM_ret : MRet SM := λ A a s, Ok (a, s).
#[global] Instance SM_bind : MBind SM := λ A B f m s, match m s with
  | Ok (a, s') => f a s'
  | Fatal => Fatal
  | Undef => Undef
  | Exit => Exit
  | NoFuel => NoFuel
  end.
Definition lift {A} (r : res A) : SM A := λ s, a ← r; Ok (a, s).
Definition geti {A} (f : sync → A) : SM A := λ s, Ok (f s, s).
Definition upd (f : sync → sync) : SM unit := λ s, Ok ((), f s).
Definition ends {A} (r : res (A * sync)) : SM A := λ _, r.

Fixpoint mfor {A} (l : list A) (f : A → SM unit) : SM unit :=
  match l with
  | [] => mret ()
  | a :: l => _ ← f a; mfor l f
  end.
(** A loop over a list whose body may return from the function. *)
Fixpoint mwhile {A} (l : list A) (f : A → SM bool) : SM bool :=
  match l with
  | [] => mret true
  | a :: l => ok ← f a; if ok : bool then mwhile l f else mret false
  end.

Section sync.
Context `{SyncEnv} `{Uninit} `{LZ4F} `{Brotli} `{Zstd}.

Definition did (e : sys) : SM unit := upd (λ s, with_hist (sc_hist s ++ [e]) s).
Definition ask {A} (f : list sys → A) : SM A := h ← geti sc_hist; _ ← did SAsk; mret (f h).
Definition set_errno (e : Z) : SM unit := upd (with_errno e).

(** A system call that gives a value or an error. *)
Definition ask_errno {A} (f : list sys → Z + A) : SM (option A) :=
  r ← ask f;
  match r with
  | inl e => _ ← set_errno e; mret None
  | inr a => mret (Some a)
  end.

Definition sc_Print (s : bytes) : SM unit := upd (λ sc, with_log (sc_log sc ++ [s]) sc).
Definition sc_Error (s : bytes) : SM unit := sc_Print (txt "adb: error: " ++ s).
Definition sc_Warning (s : bytes) : SM unit := sc_Print (txt "adb: warning: " ++ s).
Definition error_text : SM bytes := e ← geti sc_errno; mret (strerror e).
Definition quote (s : bytes) : bytes := txt "'" ++ s ++ txt "'".

(** The usual way out: a message and [false]. *)
Definition fail (s : bytes) : SM bool := _ ← sc_Error s; mret false.
(** ... with [strerror(errno)] at its end. *)
Definition fail_errno (s : bytes) : SM bool := e ← error_text; fail (s ++ txt ": " ++ e).

Definition sync_should_abort : SM bool :=
  match g_sync_observer with
  | Some o => match should_abort o with Some f => ask f | None => mret false end
  | None => mret false
  end.
Definition wire_bytes (n : Z) : SM unit :=
  match g_sync_observer with
  | Some o => if on_wire_bytes o then upd (λ s, with_observed (sc_progress s) (sc_wire s + n) s) else mret ()
  | None => mret ()
  end.

(** [ReadFdExactly] and [WriteFdExactly] on the connection. *)
Definition read_exactly (n : Z) : SM (option bytes) :=
  pieces ← geti sc_in;
  let '(ok, d, rest) := ReadFdExactly n pieces in
  _ ← upd (with_in rest);
  if ok : bool then mret (Some d) else e ← ask e_recv_errno; _ ← set_errno e; mret None.
Definition write_exactly (data : bytes) : SM bool :=
  r ← ask (λ h, e_send h (llen data));
  match r with
  | None => _ ← upd (λ s, with_out (sc_out s ++ data) s); mret true
  | Some (k, e) => _ ← upd (λ s, with_out (sc_out s ++ ltake k data) s); _ ← set_errno e; mret false
  end.
Definition read_struct (A : Type) `{Wire A} : SM (option A) :=
  r ← read_exactly (sizeof A);
  match r with
  | None => mret None
  | Some d => match decode d with Some a => mret (Some a) | None => lift Undef end
  end.

(** ** Bookkeeping *)

Definition NewTransfer : SM unit := upd (λ s, with_ledgers (Reset (current_ledger_ s)) (global_ledger_ s) s).
Definition both (f : TransferLedger → TransferLedger) : SM unit :=
  upd (λ s, with_ledgers (f (current_ledger_ s)) (f (global_ledger_ s)) s).
Definition RecordBytesTransferred (n : Z) : SM unit := both (add_bytes n).
Definition RecordFilesTransferred (n : Z) : SM unit := both (add_files n).
Definition RecordFilesSkipped (n : Z) : SM unit := both (add_skipped n).
Definition RecordFileSent (from to : bytes) : SM unit :=
  _ ← RecordFilesTransferred 1;
  upd (λ s, with_acks (deferred_acknowledgements_ s ++ [(from, to)]) s).
Definition ReportProgress (file : bytes) (copied total : Z) : SM unit :=
  match g_sync_observer with
  | Some o => if on_progress o then upd (λ s, with_observed (sc_progress s ++ [(file, copied, total)]) (sc_wire s) s)
              else mret ()
  | None => mret ()
  end.
Definition ComputeExpectedTotalBytes (file_list : list copyinfo) : SM unit :=
  let total := foldl (λ n ci, if ci_skip ci then n else u64 (n + ci_size ci)) 0 file_list in
  upd (λ s, with_ledgers (set_expected total true (current_ledger_ s)) (global_ledger_ s) s).
Definition SetExpectedTotalBytes (n : Z) : SM unit :=
  upd (λ s, with_ledgers (set_expected (u64 n) false (current_ledger_ s)) (global_ledger_ s) s).

(** ** Requests *)

Definition path_too_long (what : String.string) (n : Z) : SM bool :=
  _ ← sc_Error (txt what ++ txt " failed: path too long: " ++ dec n);
  _ ← set_errno ENAMETOOLONG;
  mret false.

Definition SendRequest (rid : Z) (path : bytes) : SM bool :=
  if 1024 <? llen path then path_too_long "SendRequest" (llen path)
  else write_exactly (encode (mkRequest rid (llen path)) ++ path).

(** The switch over the compression type. *)
Definition compression_flag (compression : CompressionType) : res Z :=
  match compression with
  | CNone => Ok kSyncFlagNone
  | CBrotli => Ok kSyncFlagBrotli
  | CLZ4 => Ok kSyncFlagLZ4
  | CZstd => Ok kSyncFlagZstd
  | CAny => Fatal
  end.

Definition SendSend2 (path : bytes) (mode : Z) (compression : CompressionType) (dry_run : bool) : SM bool :=
  if 1024 <? llen path then path_too_long "SendRequest" (llen path) else
  flags ← lift (compression_flag compression);
  let flags := if dry_run then Z.lor flags kSyncFlagDryRun else flags in
  write_exactly (encode (mkRequest ID_SEND_V2 (llen path)) ++ path ++ encode (mkSend2 ID_SEND_V2 mode flags)).

Definition SendRecv2 (path : bytes) (compression : CompressionType) : SM bool :=
  if 1024 <? llen path then path_too_long "SendRequest" (llen path) else
  flags ← lift (compression_flag compression);
  write_exactly (encode (mkRequest ID_RECV_V2 (llen path)) ++ path ++ encode (mkRecv2 ID_RECV_V2 flags)).

Definition SendStat (path : bytes) : SM bool :=
  k ← geti sc_caps;
  if have_stat_v2_ k then SendRequest ID_STAT_V2 path else _ ← set_errno ENOTSUP; mret false.
Definition SendLstat (path : bytes) : SM bool :=
  k ← geti sc_caps;
  SendRequest (if have_stat_v2_ k then ID_LSTAT_V2 else ID_LSTAT_V1) path.

(** The second part is the filled structure, also when the result is [false]. *)
Definition FinishStat : SM (bool * stat) :=
  k ← geti sc_caps;
  if have_stat_v2_ k then
    r ← read_struct sync_stat_v2;
    match r with
    | None => ends Fatal
    | Some m =>
        if negb (s2_id m =? ID_LSTAT_V2) && negb (s2_id m =? ID_STAT_V2) then ends Fatal else
        if negb (s2_error m =? 0) then _ ← set_errno (errno_from_wire (s32 (s2_error m))); mret (false, zero_stat) else
        mret (true, mkStat (s2_dev m) (s2_ino m) (s2_mode m) (s2_nlink m) (s2_uid m) (s2_gid m)
          (s64 (s2_size m)) (s2_atime m) (s2_mtime m) (s2_ctime m))
    end
  else
    r ← read_struct sync_stat_v1;
    match r with
    | None => ends Fatal
    | Some m =>
        if negb (s1_id m =? ID_LSTAT_V1) then ends Fatal else
        if (s1_mode m =? 0) && (s1_size m =? 0) && (s1_mtime m =? 0) then
          _ ← set_errno ENOPROTOOPT; mret (false, zero_stat)
        else mret (true, mkStat 0 0 (s1_mode m) 0 0 0 (s1_size m) 0 (s1_mtime m) (s1_mtime m))
    end.

(** ** Directory listings *)

Record dent := mkDent { de_id : Z; de_mode : Z; de_size : Z; de_time : Z; de_namelen : Z }.
Definition read_dent (v2 : bool) : SM (option dent) :=
  if v2 then
    r ← read_struct sync_dent_v2;
    mret ((λ d, let m := d2_stat d in
       mkDent (s2_id m) (s2_mode m) (s2_size m) (u64 (s2_mtime m)) (d2_namelen d)) <$> r)
  else
    r ← read_struct sync_dent_v1;
    mret ((λ d, mkDent (d1_id d) (d1_mode d) (d1_size d) (d1_mtime d) (d1_namelen d)) <$> r).

(** The callback works on a state of its own. *)
Fixpoint FinishLsImpl {A} (fuel : nat) (v2 : bool) (callback : Z → Z → Z → bytes → A → SM A) (a : A) : SM (bool * A) :=
  match fuel with
  | O => ends NoFuel
  | S fuel =>
      r ← read_dent v2;
      match r with
      | None => mret (false, a)
      | Some d =>
          if de_id d =? ID_DONE then mret (true, a) else
          if negb (de_id d =? (if v2 then ID_DENT_V2 else ID_DENT_V1)) then mret (false, a) else
          if 255 <? de_namelen d then mret (false, a) else
          n ← read_exactly (de_namelen d);
          match n with
          | None => mret (false, a)
          | Some buf =>
              let name := c_str buf in
              if bool_decide (slash ∈ name) then mret (false, a) else
              a ← callback (de_mode d) (de_size d) (de_time d) name a;
              FinishLsImpl fuel v2 callback a
          end
      end
  end.
Definition SendLs (path : bytes) : SM bool :=
  k ← geti sc_caps; SendRequest (if have_ls_v2_ k then ID_LIST_V2 else ID_LIST_V1) path.
Definition FinishLs {A} (callback : Z → Z → Z → bytes → A → SM A) (a : A) : SM (bool * A) :=
  k ← geti sc_caps; fuel ← geti (λ s, fd_fuel (sc_in s)); FinishLsImpl fuel (have_ls_v2_ k) callback a.

(** ** Sending a file *)

(** The buffer has [msglen + 1] bytes, which is a [uint32_t]: there is no [buf[0]] when the sum
    wraps to zero. *)
Definition ReportCopyFailure (from to : bytes) (msglen : Z) : SM bool :=
  let what := txt "failed to copy " ++ quote from ++ txt " to " ++ quote to in
  if u32 (msglen + 1) =? 0 then ends Undef else
  r ← read_exactly msglen;
  match r with
  | None => fail_errno (what ++ txt "; failed to read reason (!)")
  | Some buf => fail (what ++ txt ": remote " ++ c_str buf)
  end.

Definition WriteOrDie (from to data : bytes) : SM bool :=
  ok ← write_exactly data;
  if ok : bool then _ ← wire_bytes (llen data); mret true else
  let what := txt "failed to copy " ++ quote from ++ txt " to " ++ quote to in
  e ← geti sc_errno;
  _ ← (if e =? ECONNRESET then
         r ← read_struct sync_status;
         match r with
         | None => fail_errno (what ++ txt ": no response")
         | Some m =>
             if negb (st_id m =? ID_FAIL) then fail (what ++ txt ": not ID_FAIL: " ++ dec (s32 (st_id m)))
             else ReportCopyFailure from to (msglen m)
         end
       else if bool_decide (g_sync_observer = None) then fail_errno (dec (llen data) ++ txt "-byte write failed")
       else mret false);
  match g_sync_observer with None => ends Exit | Some _ => mret false end.

(** What is left of a local file that is being read, and one [adb_read] of it. *)
Definition reader : Type := list (Z + bytes).
Definition file_read (n : Z) (f : reader) : Z + (bytes * reader) :=
  match f with
  | [] => inr ([], [])
  | inl e :: f => inl e
  | inr c :: f => if llen c <=? n then inr (c, f) else inr (ltake n c, inr (ldrop n c) :: f)
  end.

Definition encoder_for (compression : CompressionType) : res Encoder :=
  match compression with
  | CNone => Ok NullEncoder
  | CBrotli => Ok BrotliEncoder
  | CLZ4 => Ok LZ4Encoder
  | CZstd => Ok ZstdEncoder
  | CAny => Fatal
  end.

Definition data_packet (d : bytes) : bytes := encode (mkData ID_DATA (llen d)) ++ d.

(** The inner loop of [SendLargeFile]: [None] when the function returns [false], otherwise
    whether it goes on [sending]. *)
Fixpoint encode_loop (fuel : nat) (E : Encoder) (lpath rpath : bytes) (e : enc E) : SM (option (bool * enc E)) :=
  match fuel with
  | O => ends NoFuel
  | S fuel =>
      '(result, output, e) ← lift (enc_encode E e);
      match result with
      | EncError => _ ← fail (txt "compressing " ++ quote lpath ++ txt " locally failed"); mret None
      | _ =>
          ok ← (if llen output =? 0 then mret true
                else if SYNC_DATA_MAX <? llen output then ends Undef
                else WriteOrDie lpath rpath (data_packet output));
          if negb ok then mret None else
          match result with
          | EncDone => mret (Some (false, e))
          | EncNeedInput => mret (Some (true, e))
          | _ => encode_loop fuel E lpath rpath e
          end
      end
  end.

Fixpoint send_loop (fuel : nat) (E : Encoder) (lpath rpath : bytes) (total_size copied : Z) (lfd : reader) (e : enc E)
    : SM bool :=
  match fuel with
  | O => ends NoFuel
  | S fuel =>
      abort ← sync_should_abort;
      if abort : bool then mret false else
      match file_read SYNC_DATA_MAX lfd with
      | inl err => _ ← set_errno err; fail_errno (txt "reading " ++ quote lpath ++ txt " locally failed")
      | inr (d, lfd) =>
          '(e, copied) ← (if llen d =? 0 then e ← lift (enc_finish E e); mret (e, copied)
                          else
                            e ← lift (enc_append E d e);
                            _ ← RecordBytesTransferred (llen d);
                            let copied := u64 (copied + llen d) in
                            _ ← ReportProgress rpath copied total_size;
                            mret (e, copied));
          r ← encode_loop fuel E lpath rpath e;
          match r with
          | None => mret false
          | Some (false, _) => mret true
          | Some (true, e) => send_loop fuel E lpath rpath total_size copied lfd e
          end
      end
  end.

(** The end of a file: [ID_DONE] with the time. *)
Definition send_done (lpath rpath : bytes) (mtime : Z) : SM bool :=
  _ ← RecordFileSent lpath rpath;
  WriteOrDie lpath rpath (encode (mkData ID_DONE mtime)).

(** [stat] and [adb_open] of the local file; [None] after an error message. *)
Definition open_local (lpath : bytes) : SM (option (Z * reader)) :=
  st ← ask_errno (λ h, e_stat h (c_str lpath));
  match st with
  | None => _ ← fail_errno (txt "cannot stat " ++ quote (c_str lpath)); mret None
  | Some st =>
      f ← ask_errno (λ h, e_open h (c_str lpath));
      match f with
      | None => _ ← fail_errno (txt "opening " ++ quote (c_str lpath) ++ txt " locally failed"); mret None
      | Some f => mret (Some (u64 (st_size st), f))
      end
  end.

Fixpoint legacy_send_loop (fuel : nat) (lpath rpath : bytes) (total_size copied : Z) (lfd : reader) : SM bool :=
  match fuel with
  | O => ends NoFuel
  | S fuel =>
      abort ← sync_should_abort;
      if abort : bool then mret false else
      match file_read max lfd with
      | inl err => _ ← set_errno err; fail_errno (txt "reading " ++ quote lpath ++ txt " locally failed")
      | inr (d, lfd) =>
          if llen d =? 0 then mret true else
          ok ← WriteOrDie lpath rpath (data_packet d);
          if negb ok then mret false else
          _ ← RecordBytesTransferred (llen d);
          let copied := u64 (copied + llen d) in
          _ ← ReportProgress rpath copied total_size;
          legacy_send_loop fuel lpath rpath total_size copied lfd
      end
  end.

(** [StringPrintf("%s,%d", path.c_str(), mode)] *)
Definition path_and_mode (path : bytes) (mode : Z) : bytes := c_str path ++ txt "," ++ dec (s32 mode).

Definition SendLargeFileLegacy (fuel : nat) (path : bytes) (mode : Z) (lpath rpath : bytes) (mtime : Z) : SM bool :=
  ok ← SendRequest ID_SEND_V1 (path_and_mode path mode);
  if negb ok then fail_errno (txt "failed to send ID_SEND_V1 message " ++ quote (path_and_mode path mode)) else
  f ← open_local lpath;
  match f with
  | None => mret false
  | Some (total_size, lfd) =>
      ok ← legacy_send_loop fuel lpath rpath total_size 0 lfd;
      if ok : bool then send_done lpath rpath mtime else mret false
  end.

Definition SendLargeFile (fuel : nat) (path : bytes) (mode : Z) (lpath rpath : bytes) (mtime : Z)
    (compression : CompressionType) (dry_run : bool) : SM bool :=
  k ← geti sc_caps;
  if dry_run && negb (have_sendrecv_v2_dry_run_send_ k) then fail (txt "dry-run not supported by the device") else
  if negb (have_sendrecv_v2_ k) then SendLargeFileLegacy fuel path mode lpath rpath mtime else
  let compression := ResolveCompressionType k compression in
  ok ← SendSend2 path mode compression dry_run;
  if negb ok then fail_errno (txt "failed to send ID_SEND_V2 message " ++ quote (c_str path)) else
  f ← open_local lpath;
  match f with
  | None => mret false
  | Some (total_size, lfd) =>
      E ← lift (encoder_for compression);
      e ← lift (enc_new E);
      ok ← send_loop fuel E lpath rpath total_size 0 lfd e;
      if ok : bool then send_done lpath rpath mtime else mret false
  end.

(** The three messages of a small file, sent with one write. *)
Definition small_file (pm : bytes) (data : bytes) (mtime : Z) : bytes :=
  encode (mkRequest ID_SEND_V1 (llen pm)) ++ pm ++ encode (mkRequest ID_DATA (u32 (llen data))) ++ data ++
  encode (mkRequest ID_DONE mtime).

Definition SendSmallFile (fuel : nat) (path : bytes) (mode : Z) (lpath rpath : bytes) (mtime : Z) (data : bytes)
    (dry_run : bool) : SM bool :=
  if dry_run then SendLargeFile fuel path mode lpath rpath mtime CNone dry_run else
  let pm := path_and_mode path mode in
  if 1024 <? llen pm then path_too_long "SendSmallFile" (llen pm) else
  ok ← WriteOrDie lpath rpath (small_file pm data mtime);
  if negb ok then mret false else
  _ ← RecordFileSent lpath rpath;
  _ ← RecordBytesTransferred (llen data);
  _ ← ReportProgress rpath (llen data) (llen data);
  mret true.

(** ** Acknowledgements *)

Definition max_deferred_acks : Z := 128.
Inductive ReadStatus := ReadSuccess | ReadFailure | TryLater.

(** One [adb_read] from the connection; [[]] at the end or after an error. *)
Definition conn_read (n : Z) : SM bytes :=
  pieces ← geti sc_in;
  match pieces with
  | [] => mret []
  | c :: cs => _ ← upd (with_in (if llen c <=? n then cs else ldrop n c :: cs)); mret (ltake n c)
  end.

(** The lambda of the same name. *)
Fixpoint read_until_amount (fuel : nat) (should_block : bool) (amount : Z) : SM ReadStatus :=
  match fuel with
  | O => ends NoFuel
  | S fuel =>
      buf ← geti acknowledgement_buffer_;
      if amount <=? llen buf then mret ReadSuccess else
      later ← (if should_block then mret false else ask e_poll_none);
      if later : bool then mret TryLater else
      d ← conn_read (amount - llen buf);
      if llen d =? 0 then _ ← sc_Error (txt "failed to read copy response"); mret ReadFailure else
      _ ← upd (with_buf (buf ++ d));
      if negb should_block && (llen (buf ++ d) <? amount) then mret TryLater
      else read_until_amount fuel should_block amount
  end.
Definition read_ack (should_block : bool) (amount : Z) : SM ReadStatus :=
  read_until_amount (S (Z.to_nat amount)) should_block amount.

Definition CopyDone : SM unit := upd (λ s, with_acks (tail (deferred_acknowledgements_ s)) s).
Definition ReportDeferredCopyFailure (msg : bytes) : SM unit :=
  acks ← geti deferred_acknowledgements_;
  match acks with
  | [] => ends Undef
  | (from, to) :: acks =>
      _ ← sc_Error (txt "failed to copy " ++ quote from ++ txt " to " ++ quote to ++ txt ": remote " ++ c_str msg);
      upd (with_acks acks)
  end.

(** [%#x] *)
Definition fmt_x (n : Z) : bytes := if n =? 0 then txt "0" else txt "0x" ++ hex_loop 8 n [].

(** One turn of the loop: [None] to go on, otherwise the result. *)
Definition ack_turn (read_all : bool) : SM (option bool) :=
  acks ← geti deferred_acknowledgements_;
  let should_block := read_all || (max_deferred_acks <=? llen acks) in
  r ← read_ack should_block (sizeof sync_status);
  match r with
  | TryLater => mret (Some true)
  | ReadFailure => mret (Some false)
  | ReadSuccess =>
      buf ← geti acknowledgement_buffer_;
      match decode buf : option sync_status with
      | None => lift Undef
      | Some hdr =>
          if st_id hdr =? ID_OKAY then
            _ ← upd (with_buf []);
            if negb (msglen hdr =? 0) then
              _ ← sc_Error (txt "received ID_OKAY with msg_len (" ++ dec (msglen hdr) ++ txt " != 0"); mret (Some false)
            else _ ← CopyDone; mret None
          else if negb (st_id hdr =? ID_FAIL) then
            _ ← sc_Error (txt "unexpected response from daemon: id = " ++ fmt_x (st_id hdr)); mret (Some false)
          else if SYNC_DATA_MAX <? msglen hdr then
            _ ← sc_Error (txt "too-long message length from daemon: msglen = " ++ dec (msglen hdr)); mret (Some false)
          else
            r ← read_ack should_block (sizeof sync_status + msglen hdr);
            match r with
            | TryLater => mret (Some true)
            | ReadFailure => mret (Some false)
            | ReadSuccess =>
                buf ← geti acknowledgement_buffer_;
                _ ← ReportDeferredCopyFailure (ldrop (sizeof sync_status) buf);
                _ ← upd (with_buf []);
                mret (Some false)
            end
      end
  end.
Fixpoint ack_loop (fuel : nat) (read_all : bool) : SM bool :=
  match fuel with
  | O => ends NoFuel
  | S fuel =>
      acks ← geti deferred_acknowledgements_;
      match acks with
      | [] => mret true
      | _ => r ← ack_turn read_all; match r with Some b => mret b | None => ack_loop fuel read_all end
      end
  end.
(** Each turn that goes on takes one acknowledgement from the queue. *)
Definition ReadAcknowledgements (read_all : bool) : SM bool :=
  n ← geti (λ s, length (deferred_acknowledgements_ s)); ack_loop (S n) read_all.

(** ** Single files *)

Definition sync_ls {A} (path : bytes) (func : Z → Z → Z → bytes → A → SM A) (a : A) : SM (bool * A) :=
  ok ← SendLs path; if ok : bool then FinishLs func a else mret (false, a).
(** When the request is not sent the structure is not written. *)
Definition sync_stat (path : bytes) : SM (bool * option stat) :=
  ok ← SendStat path; if ok : bool then '(ok, st) ← FinishStat; mret (ok, Some st) else mret (false, None).
Definition sync_lstat (path : bytes) : SM (bool * option stat) :=
  ok ← SendLstat path; if ok : bool then '(ok, st) ← FinishStat; mret (ok, Some st) else mret (false, None).

(** The mode of a link whose target is (or is not) a directory; its size is dropped. *)
Definition resolve_link (isdir : bool) (st : stat) : stat :=
  let mode := Z.lor (Z.land (st_mode st) (Z.lnot S_IFMT)) (if isdir then S_IFDIR else S_IFREG) in
  mkStat (st_dev st) (st_ino st) mode (st_nlink st) (st_uid st) (st_gid st) 0 (st_atime st) (st_mtime st) (st_ctime st).

(** [Some] when the result is [true]. *)
Definition sync_stat_fallback (path : bytes) : SM (option stat) :=
  r ← sync_stat path;
  match r with
  | (true, Some st) => mret (Some st)
  | _ =>
      e ← geti sc_errno;
      if negb (e =? ENOTSUP) then mret None else
      r ← sync_lstat path;
      match r with
      | (true, Some st) =>
          if S_ISLNK (st_mode st) then
            '(isdir, _) ← sync_lstat (path ++ [slash]);
            mret (Some (resolve_link isdir st))
          else mret (Some st)
      | _ => mret None
      end
  end.

(** [ReadFdToString] of the rest of a file. *)
Fixpoint ReadFdToString (f : reader) : Z + bytes :=
  match f with
  | [] => inr []
  | inl e :: _ => inl e
  | inr c :: f => if llen c =? 0 then inr [] else match ReadFdToString f with inl e => inl e | inr d => inr (c ++ d) end
  end.
Definition ReadFileToString (path : bytes) : SM (option bytes) :=
  f ← ask_errno (λ h, e_open h (c_str path));
  match f with
  | None => mret None
  | Some f => match ReadFdToString f with
              | inl e => _ ← set_errno e; mret None
              | inr d => mret (Some d)
              end
  end.

Definition sync_send (fuel : nat) (lpath rpath : bytes) (mtime mode : Z) (sync : bool) (compression : CompressionType)
    (dry_run : bool) : SM bool :=
  let mtime := u32 mtime in
  same ← (if sync then
            '(ok, st) ← sync_lstat rpath;
            mret (match st with Some st => ok && (st_mtime st =? mtime) | None => false end)
          else mret false);
  if same : bool then _ ← RecordFilesSkipped 1; mret true else
  if S_ISLNK mode then
    r ← ask_errno (λ h, e_readlink h (c_str lpath));
    match r with
    | None => fail_errno (txt "readlink " ++ quote (c_str lpath) ++ txt " failed")
    | Some target =>
        ok ← SendSmallFile fuel rpath mode lpath rpath mtime (ltake (PATH_MAX - 1) target ++ [x00]) dry_run;
        if ok : bool then ReadAcknowledgements sync else mret false
    end
  else
    st ← ask_errno (λ h, e_stat h (c_str lpath));
    match st with
    | None => fail_errno (txt "failed to stat local file " ++ quote (c_str lpath))
    | Some st =>
        if st_size st <? SYNC_DATA_MAX then
          data ← ReadFileToString lpath;
          match data with
          | None => fail_errno (txt "failed to read all of " ++ quote (c_str lpath))
          | Some data =>
              ok ← SendSmallFile fuel rpath mode lpath rpath mtime data dry_run;
              if ok : bool then ReadAcknowledgements sync else mret false
          end
        else
          ok ← SendLargeFile fuel rpath mode lpath rpath mtime compression dry_run;
          if ok : bool then ReadAcknowledgements sync else mret false
    end.

(** ** Receiving a file *)

(** [adb_unlink], whose result nobody looks at. *)
Definition unlink (path : bytes) : SM unit := h ← geti sc_hist; did (SUnlink path (e_unlink h path)).
Definition creat (path : bytes) : SM bool :=
  h ← geti sc_hist;
  match e_creat h path with
  | None => _ ← did (SCreat path true); mret true
  | Some e => _ ← did (SCreat path false); _ ← set_errno e; mret false
  end.
Definition write_file (path data : bytes) : SM bool :=
  h ← geti sc_hist;
  match e_write h path data with
  | None => _ ← did (SWrite path data true); mret true
  | Some e => _ ← did (SWrite path data false); _ ← set_errno e; mret false
  end.
(** Removing the file before [return false]. *)
Definition unlink_fail (lpath : bytes) : SM bool := _ ← unlink lpath; mret false.

Definition too_large (size : Z) : bytes :=
  txt "msg.data.size too large: " ++ dec size ++ txt " (max " ++ dec max ++ txt ")".

Fixpoint recv_v1_loop (fuel : nat) (rpath lpath name : bytes) (expected_size copied : Z) : SM bool :=
  match fuel with
  | O => ends NoFuel
  | S fuel =>
      abort ← sync_should_abort;
      if abort : bool then unlink_fail lpath else
      r ← read_struct sync_data;
      match r with
      | None => unlink_fail lpath
      | Some m =>
          if dt_id m =? ID_DONE then mret true else
          if negb (dt_id m =? ID_DATA) then
            _ ← unlink lpath; _ ← ReportCopyFailure rpath lpath (dt_size m); mret false
          else if max <? dt_size m then _ ← sc_Error (too_large (dt_size m)); unlink_fail lpath
          else
            d ← read_exactly (dt_size m);
            match d with
            | None => unlink_fail lpath
            | Some d =>
                _ ← wire_bytes (dt_size m + sizeof sync_data);
                ok ← write_file lpath d;
                if negb ok then _ ← fail_errno (txt "cannot write " ++ quote lpath); unlink_fail lpath else
                let copied := u64 (copied + dt_size m) in
                _ ← RecordBytesTransferred (dt_size m);
                _ ← ReportProgress name copied expected_size;
                recv_v1_loop fuel rpath lpath name expected_size copied
            end
      end
  end.

Definition sync_recv_v1 (fuel : nat) (rpath lpath : bytes) (name : option bytes) (expected_size : Z) : SM bool :=
  ok ← SendRequest ID_RECV_V1 rpath;
  if negb ok then mret false else
  _ ← unlink lpath;
  ok ← creat lpath;
  if negb ok then fail_errno (txt "cannot create " ++ quote lpath) else
  ok ← recv_v1_loop fuel rpath lpath (default rpath name) expected_size 0;
  if ok : bool then _ ← RecordFilesTransferred 1; mret true else mret false.

Definition decoder_for (compression : CompressionType) : res Decoder :=
  match compression with
  | CNone => Ok NullDecoder
  | CBrotli => Ok BrotliDecoder
  | CLZ4 => Ok LZ4Decoder
  | CZstd => Ok ZstdDecoder
  | CAny => Fatal
  end.

(** What the inner loop of [sync_recv_v2] ends with: the result of the function, or the
    decoder that needs more input. *)
Fixpoint decode_loop (fuel : nat) (D : Decoder) (lpath name : bytes) (expected_size copied : Z) (d : dec_t D)
    : SM (bool + (dec_t D * Z)) :=
  match fuel with
  | O => ends NoFuel
  | S fuel =>
      '(result, output, d) ← lift (dec_decode D d);
      match result with
      | DecError => _ ← sc_Error (txt "decompress failed"); _ ← unlink lpath; mret (inl false)
      | _ =>
          ok ← (if llen output =? 0 then mret true else write_file lpath output);
          if negb ok then _ ← fail_errno (txt "cannot write " ++ quote lpath); _ ← unlink lpath; mret (inl false) else
          let copied := u64 (copied + llen output) in
          _ ← RecordBytesTransferred (llen output);
          _ ← ReportProgress name copied expected_size;
          match result with
          | DecNeedInput => mret (inr (d, copied))
          | DecDone => _ ← RecordFilesTransferred 1; mret (inl true)
          | _ => decode_loop fuel D lpath name expected_size copied d
          end
      end
  end.

(** What one message does to the decoder: [None] when the function returns [false]. *)
Definition recv_v2_message (D : Decoder) (rpath lpath : bytes) (d : dec_t D) : SM (option (dec_t D)) :=
  abort ← sync_should_abort;
  if abort : bool then _ ← unlink lpath; mret None else
  r ← read_struct sync_data;
  match r with
  | None => _ ← unlink lpath; mret None
  | Some m =>
      if dt_id m =? ID_DONE then d ← lift (dec_finish D d); mret (Some d)
      else if negb (dt_id m =? ID_DATA) then
        _ ← unlink lpath; _ ← ReportCopyFailure rpath lpath (dt_size m); mret None
      else if max <? dt_size m then _ ← sc_Error (too_large (dt_size m)); _ ← unlink lpath; mret None
      else
        b ← read_exactly (dt_size m);
        match b with
        | None => _ ← unlink lpath; mret None
        | Some b =>
            _ ← wire_bytes (dt_size m + sizeof sync_data);
            d ← lift (dec_append D b d);
            mret (Some d)
        end
  end.

Fixpoint recv_v2_loop (fuel : nat) (D : Decoder) (rpath lpath name : bytes) (expected_size copied : Z) (d : dec_t D)
    : SM bool :=
  match fuel with
  | O => ends NoFuel
  | S fuel =>
      r ← recv_v2_message D rpath lpath d;
      match r with
      | None => mret false
      | Some d =>
          r ← decode_loop fuel D lpath name expected_size copied d;
          match r with
          | inl ok => mret ok
          | inr (d, copied) => recv_v2_loop fuel D rpath lpath name expected_size copied d
          end
      end
  end.

Definition sync_recv_v2 (fuel : nat) (rpath lpath : bytes) (name : option bytes) (expected_size : Z)
    (compression : CompressionType) : SM bool :=
  k ← geti sc_caps;
  let compression := ResolveCompressionType k compression in
  ok ← SendRecv2 rpath compression;
  if negb ok then mret false else
  _ ← unlink lpath;
  ok ← creat lpath;
  if negb ok then fail_errno (txt "cannot create " ++ quote lpath) else
  D ← lift (decoder_for compression);
  d ← lift (dec_new D);
  recv_v2_loop fuel D rpath lpath (default rpath name) expected_size 0 d.

Definition sync_recv (fuel : nat) (rpath lpath : bytes) (name : option bytes) (expected_size : Z)
    (compression : CompressionType) : SM bool :=
  k ← geti sc_caps;
  if have_sendrecv_v2_ k then sync_recv_v2 fuel rpath lpath name expected_size compression
  else sync_recv_v1 fuel rpath lpath name expected_size.

(** ** Directories *)

(** [%o] *)
Fixpoint oct_loop (fuel : nat) (n : Z) (acc : bytes) : bytes :=
  match fuel with
  | O => acc
  | S fuel => let acc := zbyte (48 + n mod 8) :: acc in if n / 8 =? 0 then acc else oct_loop fuel (n / 8) acc
  end.
Definition skip_warning (path : bytes) (mode : Z) : SM unit :=
  sc_Warning (txt "skipping special file " ++ quote path ++ txt " (mode = 0o" ++ oct_loop 11 mode [] ++ txt ")").

(** The entries of one directory; subdirectories are kept for later. *)
Fixpoint scan_entries (lpath rpath : bytes) (names : list bytes) (dirlist file_list : list copyinfo)
    : SM (list copyinfo * list copyinfo) :=
  match names with
  | [] => mret (dirlist, file_list)
  | name :: names =>
      if IsDotOrDotDot name then scan_entries lpath rpath names dirlist file_list else
      st ← ask_errno (λ h, e_lstat h (lpath ++ name));
      match st with
      | None =>
          _ ← fail_errno (txt "cannot lstat " ++ quote (lpath ++ name));
          scan_entries lpath rpath names dirlist file_list
      | Some st =>
          ci ← lift (new_copyinfo lpath rpath name (st_mode st));
          if S_ISDIR (st_mode st) then scan_entries lpath rpath names (dirlist ++ [ci]) file_list
          else
            ci ← (if should_push_file (st_mode st) then mret ci
                  else _ ← skip_warning lpath (st_mode st); mret (set_skip ci));
            scan_entries lpath rpath names dirlist (file_list ++ [set_attrs (st_mtime st) (u64 (st_size st)) ci])
      end
  end.

(** The lists are filled in place; the result of the recursive calls is not looked at. *)
Fixpoint local_build_list (fuel : nat) (file_list : list copyinfo) (directory_list : list bytes) (lpath rpath : bytes)
    : SM (bool * list copyinfo * list bytes) :=
  match fuel with
  | O => ends NoFuel
  | S fuel =>
      names ← ask_errno (λ h, e_opendir h lpath);
      match names with
      | None => _ ← fail_errno (txt "cannot open " ++ quote lpath); mret (false, file_list, directory_list)
      | Some names =>
          '(dirlist, file_list) ← scan_entries lpath rpath names [] file_list;
          (fix recurse (dirs : list copyinfo) (fl : list copyinfo) (dl : list bytes) : SM (bool * list copyinfo * list bytes) :=
             match dirs with
             | [] => mret (true, fl, dl)
             | ci :: dirs =>
                 '(_, fl, dl) ← local_build_list fuel fl (dl ++ [ci_rpath ci]) (ci_lpath ci) (ci_rpath ci);
                 recurse dirs fl dl
             end) dirlist file_list directory_list
      end
  end.

(** The [mkdir] commands for old devices: each line stays below 32 KiB. *)
Fixpoint mkdir_commands (dirs : list bytes) (cmd : bytes) : SM bool :=
  match dirs with
  | [] => _ ← (if bool_decide (cmd = txt "mkdir") then mret () else did (SShell cmd)); mret true
  | dir :: dirs =>
      let escaped := escape_arg dir in
      if 16384 <? llen escaped then fail (txt "path too long: " ++ escaped) else
      cmd ← (if 32768 <? llen cmd + llen escaped then _ ← did (SShell cmd); mret (txt "mkdir") else mret cmd);
      mkdir_commands dirs (cmd ++ txt " " ++ escaped)
  end.

(** [const FeatureSet& Features() const { return *features_; }] *)
Definition Features : SM (list bytes) := f ← geti sc_features; lift (deref f).

(** The answers to the [lstat] requests, in the order of the list. *)
Fixpoint compare_stats (file_list : list copyinfo) : SM (list copyinfo) :=
  match file_list with
  | [] => mret []
  | ci :: file_list =>
      '(ok, st) ← FinishStat;
      let same := ok && (st_size st =? s64 (ci_size ci)) && (st_mtime st =? ci_time ci) in
      rest ← compare_stats file_list;
      mret ((if same then set_skip ci else ci) :: rest)
  end.
Definition check_timestamps_of (file_list : list copyinfo) : SM (option (list copyinfo)) :=
  ok ← mwhile file_list (λ ci,
         ok ← SendLstat (ci_rpath ci); if ok : bool then mret true else fail (txt "failed to send lstat"));
  if ok : bool then l ← compare_stats file_list; mret (Some l) else mret None.

Definition copy_local_dir_remote (fuel : nat) (lpath rpath : bytes) (check_timestamps list_only : bool)
    (compression : CompressionType) (dry_run : bool) : SM bool :=
  _ ← NewTransfer;
  '(lpath, rpath) ← lift (ensure_trailing_separators lpath rpath);
  directory_list ← lift (parent_dirs fuel rpath []);
  '(ok, file_list, directory_list) ← local_build_list fuel [] directory_list lpath rpath;
  if negb ok then mret false else
  f1 ← Features;
  ok ← (if negb (kFeature "fixed_push_mkdir" f1) && kFeature "shell_v2" f1 then mkdir_commands directory_list (txt "mkdir")
        else mret true);
  if negb ok then mret false else
  checked ← (if check_timestamps then check_timestamps_of file_list else mret (Some file_list));
  match checked with
  | None => mret false
  | Some file_list =>
      _ ← ComputeExpectedTotalBytes file_list;
      ok ← mwhile file_list (λ ci,
             if ci_skip ci then mret true
             else if list_only then
               _ ← sc_Print (txt "would push: " ++ ci_lpath ci ++ txt " -> " ++ ci_rpath ci); mret true
             else sync_send fuel (ci_lpath ci) (ci_rpath ci) (ci_time ci) (ci_mode ci) false compression dry_run);
      if negb ok then mret false else
      _ ← RecordFilesSkipped (llen (filter (λ ci, ci_skip ci = true) file_list));
      ReadAcknowledgements true
  end.

(** The callback of [remote_build_list]: directories, links and files. *)
Definition remote_entry (rpath lpath : bytes) (mode size time : Z) (name : bytes)
    (acc : list copyinfo * list copyinfo * list copyinfo) : SM (list copyinfo * list copyinfo * list copyinfo) :=
  let '(dirlist, linklist, file_list) := acc in
  if IsDotOrDotDot name then mret acc else
  ci ← lift (new_copyinfo lpath rpath name mode);
  if S_ISDIR mode then mret (dirlist ++ [ci], linklist, file_list)
  else if S_ISLNK mode then mret (dirlist, linklist ++ [ci], file_list)
  else
    ci ← (if should_pull_file (ci_mode ci) then mret ci
          else _ ← skip_warning (ci_rpath ci) (ci_mode ci); mret (set_skip ci));
    mret (dirlist, linklist, file_list ++ [set_attrs (s64 time) size ci]).

Fixpoint resolve_links (links dirlist file_list : list copyinfo) : SM (list copyinfo * list copyinfo) :=
  match links with
  | [] => mret (dirlist, file_list)
  | ci :: links =>
      st ← sync_stat_fallback (ci_rpath ci);
      match st with
      | None =>
          e ← error_text;
          _ ← sc_Warning (txt "stat failed for path " ++ ci_rpath ci ++ txt ": " ++ e);
          resolve_links links dirlist file_list
      | Some st =>
          if S_ISDIR (st_mode st) then resolve_links links (dirlist ++ [ci]) file_list
          else resolve_links links dirlist (file_list ++ [ci])
      end
  end.

(** The directories are taken from the back. *)
Fixpoint remote_build_list (fuel : nat) (file_list : list copyinfo) (rpath lpath : bytes) : SM (bool * list copyinfo) :=
  match fuel with
  | O => ends NoFuel
  | S fuel =>
      ci ← lift (new_copyinfo (Dirname lpath) (Dirname rpath) (Basename lpath) S_IFDIR);
      '(ok, (dirlist, linklist, file_list)) ← sync_ls rpath (remote_entry rpath lpath) ([], [], file_list ++ [ci]);
      if negb ok then mret (false, file_list) else
      '(dirlist, file_list) ← resolve_links linklist dirlist file_list;
      (fix recurse (dirs : list copyinfo) (fl : list copyinfo) : SM (bool * list copyinfo) :=
         match dirs with
         | [] => mret (true, fl)
         | current :: dirs =>
             '(ok, fl) ← remote_build_list fuel fl (ci_rpath current) (ci_lpath current);
             if negb ok then mret (false, fl) else recurse dirs fl
         end) (rev dirlist) file_list
  end.

(** Returns zero on success. *)
Definition set_time_and_mode (lpath : bytes) (time mode : Z) : SM Z :=
  h ← geti sc_hist;
  let r1 := e_utime h lpath time in
  _ ← did (SUtime lpath time);
  h ← geti sc_hist;
  let mode := Z.land mode (Z.lnot e_umask) in
  let r2 := e_chmod h lpath mode in
  _ ← did (SChmod lpath mode);
  mret (if r1 =? 0 then r2 else r1).

(** [mkdirs] on the system of the transfer. *)
#[local] Instance sync_dirs : DirFS := {|
  fs := list sys;
  fs_isdir := e_isdir;
  fs_mkdir := λ h p, let ok := e_mkdir h p in (ok, h ++ [SMkdir p ok])
|}.
Definition sync_mkdirs (path : bytes) : SM bool :=
  h ← geti sc_hist;
  '(ok, h) ← lift (mkdirs (S (S (length path))) path h);
  _ ← upd (with_hist h);
  mret ok.

(** One entry of the list that is not skipped. *)
Definition pull_entry (fuel : nat) (copy_attrs : bool) (compression : CompressionType) (ci : copyinfo) : SM bool :=
  if S_ISDIR (ci_mode ci) then
    ok ← sync_mkdirs (ci_lpath ci);
    if ok : bool then mret true else fail_errno (txt "failed to create directory " ++ quote (ci_lpath ci))
  else
    ok ← sync_recv fuel (c_str (ci_rpath ci)) (c_str (ci_lpath ci)) None (ci_size ci) compression;
    if negb ok then mret false else
    if copy_attrs then r ← set_time_and_mode (c_str (ci_lpath ci)) (ci_time ci) (ci_mode ci); mret (r =? 0)
    else mret true.

Definition copy_remote_dir_local (fuel : nat) (rpath lpath : bytes) (copy_attrs : bool) (compression : CompressionType)
    : SM bool :=
  _ ← NewTransfer;
  '(lpath, rpath) ← lift (ensure_trailing_separators lpath rpath);
  '(ok, file_list) ← remote_build_list fuel [] rpath lpath;
  if negb ok then mret false else
  _ ← ComputeExpectedTotalBytes file_list;
  ok ← mwhile file_list (λ ci, if ci_skip ci then mret true else pull_entry fuel copy_attrs compression ci);
  if negb ok then mret false else
  _ ← RecordFilesSkipped (llen (filter (λ ci, ci_skip ci = true) file_list));
  mret true.

(** ** The entry points *)

(** [~SyncConnection] *)
Definition destroy : SM unit :=
  ok ← SendRequest ID_QUIT [];
  if ok : bool then
    d ← conn_read 16;
    _ ← lift (ReadOrderlyShutdown (RdData d));
    mret ()
  else mret ().
(** The connection is used, and taken down, only when the descriptor is valid. *)
Definition with_connection (fd : Z) (body : SM (bool * Z)) : SM (bool * Z) :=
  if fd <? 0 then mret (false, 0) else r ← body; _ ← destroy; mret r.

(** [dst[strlen(dst) - 1]] of an empty string is out of range. *)
Definition ends_with_slash (dst : bytes) : res bool :=
  match last dst with None => Undef | Some c => Ok (bool_decide (c = slash)) end.

Definition push_src (fuel : nat) (dst : bytes) (dst_exists dst_isdir sync : bool) (compression : CompressionType)
    (dry_run : bool) (src_path : bytes) : SM (option bool) :=
  st ← ask_errno (λ h, e_stat h src_path);
  match st with
  | None => _ ← fail_errno (txt "cannot stat " ++ quote src_path); mret (Some false)
  | Some st =>
      if S_ISDIR (st_mode st) then
        if dst_exists && negb dst_isdir then
          _ ← fail (txt "target " ++ quote dst ++ txt " is not a directory"); mret None
        else
          dst_dir ← (if dst_exists then d ← lift (push_separator dst); mret (d ++ Basename src_path) else mret dst);
          ok ← copy_local_dir_remote fuel src_path dst_dir sync false compression dry_run;
          mret (Some ok)
      else if negb (should_push_file (st_mode st)) then _ ← skip_warning src_path (st_mode st); mret (Some true)
      else
        dst_path ← (if dst_isdir then d ← lift (push_separator dst); mret (d ++ Basename src_path) else mret dst);
        _ ← NewTransfer;
        _ ← SetExpectedTotalBytes (st_size st);
        ok ← sync_send fuel src_path (c_str dst_path) (st_mtime st) (st_mode st) sync compression dry_run;
        mret (Some ok)
  end.

(** The loop over the sources: [None] when the function returns [false] at once. *)
Fixpoint each_src (f : bytes → SM (option bool)) (srcs : list bytes) (success : bool) : SM (option bool) :=
  match srcs with
  | [] => mret (Some success)
  | src :: srcs =>
      r ← f src;
      match r with None => mret None | Some ok => each_src f srcs (success && ok) end
  end.

(** The result and what is stored through [bytes_transferred]. *)
Definition do_sync_push_fd (fuel : nat) (fd : Z) (srcs : list bytes) (dst : bytes) (sync : bool) (compression : CompressionType)
    (dry_run : bool) : SM (bool * Z) :=
  with_connection fd (
    st ← sync_stat_fallback dst;
    e ← geti sc_errno;
    let dst_exists := bool_decide (is_Some st) in
    let dst_isdir := match st with Some st => S_ISDIR (st_mode st) | None => false end in
    if negb dst_exists && negb ((e =? ENOENT) || (e =? ENOPROTOOPT)) then
      _ ← fail_errno (txt "stat failed when trying to push to " ++ dst); mret (false, 0)
    else
      refused ← (if dst_isdir then mret false
                 else if (1 <? length srcs)%nat then
                   _ ← fail (txt "target " ++ quote dst ++ txt " is not a directory"); mret true
                 else
                   b ← lift (ends_with_slash dst);
                   if b && dst_exists then
                     _ ← fail (txt "failed to access " ++ quote dst ++ txt ": Not a directory"); mret true
                   else mret false);
      if refused : bool then mret (false, 0) else
      r ← each_src (push_src fuel dst dst_exists dst_isdir sync compression dry_run) srcs true;
      match r with
      | None => mret (false, 0)
      | Some success =>
          ok ← ReadAcknowledgements true;
          n ← geti (λ s, Sync.bytes_transferred (global_ledger_ s));
          mret (success && ok, n)
      end).

Definition pull_src (fuel : nat) (dst : bytes) (dst_exists dst_isdir copy_attrs : bool) (compression : CompressionType)
    (name : option bytes) (src_path : bytes) : SM (option bool) :=
  st ← sync_stat_fallback src_path;
  match st with
  | None =>
      e ← geti sc_errno;
      _ ← (if e =? ENOPROTOOPT then fail (txt "remote object " ++ quote src_path ++ txt " does not exist")
           else fail_errno (txt "failed to stat remote object " ++ quote src_path));
      mret (Some false)
  | Some st =>
      if S_ISDIR (st_mode st) then
        if dst_exists && negb dst_isdir then
          _ ← fail (txt "target " ++ quote dst ++ txt " is not a directory"); mret None
        else
          dst_dir ← (if dst_exists then d ← lift (push_separator dst); mret (d ++ Basename src_path) else mret dst);
          ok ← copy_remote_dir_local fuel src_path dst_dir copy_attrs compression;
          mret (Some ok)
      else if negb (should_pull_file (st_mode st)) then _ ← skip_warning src_path (st_mode st); mret (Some true)
      else
        let dst_path := if dst_isdir then c_str (dst ++ [slash] ++ Basename src_path) else dst in
        _ ← NewTransfer;
        _ ← SetExpectedTotalBytes (st_size st);
        ok ← sync_recv fuel src_path dst_path name (u64 (st_size st)) compression;
        if negb ok then mret (Some false) else
        if copy_attrs then r ← set_time_and_mode dst_path (st_mtime st) (st_mode st); mret (Some (r =? 0))
        else mret (Some true)
  end.

Definition do_sync_pull_fd (fuel : nat) (fd : Z) (srcs : list bytes) (dst : bytes) (copy_attrs : bool)
    (compression : CompressionType) (name : option bytes) : SM (bool * Z) :=
  with_connection fd (
    st ← ask_errno (λ h, e_stat h dst);
    e ← geti sc_errno;
    let dst_exists := bool_decide (is_Some st) in
    let dst_isdir := match st with Some st => S_ISDIR (st_mode st) | None => false end in
    usable ← (if dst_exists then mret true
              else if (length srcs =? 1)%nat && (e =? ENOENT) then
                parent ← ask_errno (λ h, e_stat h (Dirname dst));
                match parent with
                | None => fail_errno (txt "cannot create file/directory " ++ quote dst)
                | Some _ => mret true
                end
              else fail_errno (txt "failed to access " ++ quote dst));
    if negb usable then mret (false, 0) else
    refused ← (if dst_isdir then mret false
               else if (1 <? length srcs)%nat then
                 _ ← fail (txt "target " ++ quote dst ++ txt " is not a directory"); mret true
               else
                 b ← lift (ends_with_slash dst);
                 if b && dst_exists then
                   _ ← fail (txt "failed to access " ++ quote dst ++ txt ": Not a directory"); mret true
                 else mret false);
    if refused : bool then mret (false, 0) else
    r ← each_src (pull_src fuel dst dst_exists dst_isdir copy_attrs compression name) srcs true;
    match r with
    | None => mret (false, 0)
    | Some success => n ← geti (λ s, Sync.bytes_transferred (global_ledger_ s)); mret (success, n)
    end).
End sync.
