(* ===== verification/SyncInv.v ===== *)
(** * The sync client: what a transfer may touch

    Safety of the sync client for every behaviour of the device, the network and the local
    system.  [spec P m Q] says that every step [m] takes on the local system satisfies [P]
    and that its result satisfies [Q]; the rules are proved once per operation and put into
    the hint database [sync].  The theorems: a pulled directory only changes files below its
    destination; a failed receive leaves no partial file behind; the queue of
    acknowledgements stays short; a directory cannot be pushed. *)

From S2P Require Import Prelude Types Strings Transport World Io Paths SyncWire Codec Sync.

(** ** Triples *)

Definition grows (P : sys → Prop) (h h' : list sys) : Prop := ∃ evs, h' = h ++ evs ∧ Forall P evs.
Definition spec {A} (P : sys → Prop) (m : SM A) (Q : A → Prop) : Prop :=
  ∀ s a s', m s = Ok (a, s') → grows P (sc_hist s) (sc_hist s') ∧ Q a.
Definition any {A} (_ : A) : Prop := True.

Section grows.
Context (P : sys → Prop).
Lemma grows_refl h : grows P h h.
Proof. exists []. by rewrite app_nil_r. Qed.
Lemma grows_trans h1 h2 h3 : grows P h1 h2 → grows P h2 h3 → grows P h1 h3.
Proof. intros (e1 & -> & H1) (e2 & -> & H2). exists (e1 ++ e2). rewrite app_assoc. split; [done|]. by apply Forall_app. Qed.
Lemma grows_one h e : P e → grows P h (h ++ [e]).
Proof. intros He. exists [e]. by rewrite Forall_singleton. Qed.
#[global] Instance grows_preorder : PreOrder (grows P).
Proof. split; [exact grows_refl|exact grows_trans]. Qed.

Lemma spec_ret {A} (a : A) (Q : A → Prop) : Q a → spec P (mret a) Q.
Proof. intros Ha s b s' [= <- <-]. split; [apply grows_refl|done]. Qed.
Lemma spec_bind {A B} (m : SM A) (f : A → SM B) (Q : A → Prop) (R : B → Prop) :
  spec P m Q → (∀ a, Q a → spec P (f a) R) → spec P (m ≫= f) R.
Proof.
  intros Hm Hf s b s' E. unfold mbind, SM_bind in E. destruct (m s) as [[a s1]| | | |] eqn:Em; try done.
  destruct (Hm _ _ _ Em) as [H1 Ha]. destruct (Hf a Ha _ _ _ E) as [H2 Hb]. split; [by etrans|done].
Qed.
Lemma spec_weaken {A} (m : SM A) (Q R : A → Prop) : spec P m Q → (∀ a, Q a → R a) → spec P m R.
Proof. intros Hm Hi s a s' E. destruct (Hm _ _ _ E). auto. Qed.
Lemma spec_any {A} (m : SM A) Q : spec P m Q → spec P m any.
Proof. intros Hm. by eapply spec_weaken. Qed.
Lemma spec_lift {A} (r : res A) (Q : A → Prop) : (∀ a, r = Ok a → Q a) → spec P (lift r) Q.
Proof. intros Hr s a s' E. unfold lift in E. destruct r; try done. injection E as <- <-. split; [apply grows_refl|auto]. Qed.
Lemma spec_ends {A} (r : res (A * sync)) Q : (∀ x, r ≠ Ok x) → spec P (ends r) Q.
Proof. intros Hr s a s' E. by apply Hr in E. Qed.
Lemma spec_geti {A} (f : sync → A) (Q : A → Prop) : (∀ s, Q (f s)) → spec P (geti f) Q.
Proof. intros Hf s a s' [= <- <-]. split; [apply grows_refl|auto]. Qed.
Lemma spec_upd (f : sync → sync) : (∀ s, sc_hist (f s) = sc_hist s) → spec P (upd f) any.
Proof. intros Hf s a s' [= <- <-]. rewrite Hf. split; [apply grows_refl|done]. Qed.
Lemma spec_if {A} (b : bool) (m k : SM A) Q : spec P m Q → spec P k Q → spec P (if b then m else k) Q.
Proof. by destruct b. Qed.
Lemma spec_mwhile {A} (l : list A) (f : A → SM bool) (I : A → Prop) :
  Forall I l → (∀ a, I a → spec P (f a) any) → spec P (mwhile l f) any.
Proof.
  intros Hl Hf. induction Hl as [|a l Ha Hl IH]; cbn [mwhile]; [by apply spec_ret|].
  eapply spec_bind; [by apply Hf|]. intros b _. apply spec_if; [done|by apply spec_ret].
Qed.
End grows.

Lemma spec_geti_any P {A} (f : sync → A) : spec P (geti f) any.
Proof. by apply spec_geti. Qed.
Lemma spec_lift_any P {A} (r : res A) : spec P (lift r) any.
Proof. by apply spec_lift. Qed.
Lemma spec_ret_any P {A} (a : A) : spec P (mret a) any.
Proof. by apply spec_ret. Qed.

Lemma spec_sound P {A} (m : SM A) Q s a s' : spec P m Q → m s = Ok (a, s') → grows P (sc_hist s) (sc_hist s').
Proof. intros Hm E. by destruct (Hm _ _ _ E). Qed.

Create HintDb sync.
#[export] Hint Resolve spec_ret_any spec_lift_any spec_geti_any spec_upd : sync.

(** Takes a computation apart along its binds and cases. *)
Ltac sync_step :=
  lazymatch goal with
  | |- spec _ (mret _) _ => apply spec_ret
  | |- spec _ (ends _) _ => apply spec_ends; done
  | |- spec _ (_ ≫= _) _ => eapply spec_bind; [solve [sync_auto]|intros ? ?]
  | |- spec _ (match ?x with _ => _ end) _ => destruct x
  | |- any _ => exact I
  end
with sync_auto := repeat (first [done | solve [eauto with sync] | sync_step]).

(** ** Operations that only ask *)

Section asks.
Context `{SyncEnv} `{Uninit} `{LZ4F} `{Brotli} `{Zstd}.
Context (P : sys → Prop) (HP : P SAsk).

Lemma spec_did e : P e → spec P (did e) any.
Proof. intros He s a s' [= <- <-]. split; [by apply grows_one|done]. Qed.
Lemma spec_ask {A} (f : list sys → A) : spec P (ask f) any.
Proof. intros s a s' [= <- <-]. split; [by apply grows_one|done]. Qed.
#[local] Hint Resolve spec_did spec_ask : sync.
Lemma spec_set_errno e : spec P (set_errno e) any.
Proof. by apply spec_upd. Qed.
Lemma spec_print b : spec P (sc_Print b) any.
Proof. by apply spec_upd. Qed.
#[local] Hint Resolve spec_set_errno spec_print : sync.
Lemma spec_ask_errno {A} (f : list sys → Z + A) : spec P (ask_errno f) any.
Proof. unfold ask_errno. sync_auto. Qed.

#[local] Hint Resolve spec_ask_errno : sync.
Lemma spec_error_text : spec P error_text any.
Proof. unfold error_text. sync_auto. Qed.
#[local] Hint Resolve spec_error_text : sync.
Lemma spec_fail b : spec P (Sync.fail b) any.
Proof. unfold Sync.fail, sc_Error. sync_auto. Qed.
#[local] Hint Resolve spec_fail : sync.
Lemma spec_fail_errno b : spec P (fail_errno b) any.
Proof. unfold fail_errno. sync_auto. Qed.
Lemma spec_should_abort : spec P sync_should_abort any.
Proof. unfold sync_should_abort. sync_auto. Qed.
Lemma spec_wire_bytes n : spec P (wire_bytes n) any.
Proof. unfold wire_bytes. sync_auto. Qed.
#[local] Hint Resolve spec_fail_errno spec_should_abort spec_wire_bytes : sync.
Lemma spec_read_exactly n : spec P (read_exactly n) any.
Proof. unfold read_exactly. sync_auto. Qed.
Lemma spec_write_exactly d : spec P (write_exactly d) any.
Proof. unfold write_exactly. sync_auto. Qed.
#[local] Hint Resolve spec_read_exactly spec_write_exactly : sync.
Lemma spec_read_struct (A : Type) `{Wire A} : spec P (read_struct A) any.
Proof. unfold read_struct. sync_auto. Qed.
#[local] Hint Resolve spec_read_struct : sync.
Lemma spec_both f : spec P (both f) any.
Proof. by apply spec_upd. Qed.
Lemma spec_report f c t : spec P (ReportProgress f c t) any.
Proof. unfold ReportProgress. sync_auto. Qed.
#[local] Hint Resolve spec_both spec_report : sync.
Lemma spec_path_too_long w n : spec P (path_too_long w n) any.
Proof. unfold path_too_long, sc_Error. sync_auto. Qed.
#[local] Hint Resolve spec_path_too_long : sync.
Lemma spec_SendRequest i p : spec P (SendRequest i p) any.
Proof. unfold SendRequest. sync_auto. Qed.
Lemma spec_SendRecv2 p c : spec P (SendRecv2 p c) any.
Proof. unfold SendRecv2. sync_auto. Qed.
#[local] Hint Resolve spec_SendRequest spec_SendRecv2 : sync.
Lemma spec_SendStat p : spec P (SendStat p) any.
Proof. unfold SendStat. sync_auto. Qed.
Lemma spec_SendLstat p : spec P (SendLstat p) any.
Proof. unfold SendLstat. sync_auto. Qed.
Lemma spec_FinishStat : spec P FinishStat any.
Proof. unfold FinishStat. sync_auto. Qed.
#[local] Hint Resolve spec_SendStat spec_SendLstat spec_FinishStat : sync.
Lemma spec_sync_stat p : spec P (sync_stat p) any.
Proof. unfold sync_stat. sync_auto. Qed.
Lemma spec_sync_lstat p : spec P (sync_lstat p) any.
Proof. unfold sync_lstat. sync_auto. Qed.
#[local] Hint Resolve spec_sync_stat spec_sync_lstat : sync.
Lemma spec_stat_fallback p : spec P (sync_stat_fallback p) any.
Proof. unfold sync_stat_fallback. sync_auto. Qed.
Lemma spec_read_dent v2 : spec P (read_dent v2) any.
Proof. unfold read_dent. sync_auto. Qed.
Lemma spec_copy_failure f t n : spec P (ReportCopyFailure f t n) any.
Proof. unfold ReportCopyFailure. sync_auto. Qed.
Lemma spec_skip_warning p m : spec P (skip_warning p m) any.
Proof. by apply spec_upd. Qed.
#[local] Hint Resolve spec_stat_fallback spec_read_dent spec_copy_failure spec_skip_warning : sync.

(** ** Receiving *)

(** The file [p] may be changed. *)
Record may (p : bytes) : Prop := {
  may_unlink ok : P (SUnlink p ok);
  may_creat ok : P (SCreat p ok);
  may_write d ok : P (SWrite p d ok);
  may_utime t : P (SUtime p t);
  may_chmod m : P (SChmod p m)
}.
Lemma spec_unlink p : may p → spec P (unlink p) any.
Proof. intros []. unfold unlink. sync_auto. Qed.
Lemma spec_creat p : may p → spec P (creat p) any.
Proof. intros []. unfold creat. sync_auto. Qed.
Lemma spec_write_file p d : may p → spec P (write_file p d) any.
Proof. intros []. unfold write_file. sync_auto. Qed.
#[local] Hint Resolve spec_unlink spec_creat spec_write_file : sync.
Lemma spec_unlink_fail p : may p → spec P (unlink_fail p) any.
Proof. intros. unfold unlink_fail. sync_auto. Qed.
#[local] Hint Resolve spec_unlink_fail : sync.

Lemma spec_recv_v1_loop fuel : ∀ r l n e c, may l → spec P (recv_v1_loop fuel r l n e c) any.
Proof.
  induction fuel as [|fuel IH]; intros; cbn [recv_v1_loop]; unfold sc_Error, RecordBytesTransferred; sync_auto.
Qed.
#[local] Hint Resolve spec_recv_v1_loop : sync.
Lemma spec_recv_v1 fuel r l n e : may l → spec P (sync_recv_v1 fuel r l n e) any.
Proof. intros. unfold sync_recv_v1, RecordFilesTransferred. sync_auto. Qed.

Lemma spec_recv_v2_message D r l d : may l → spec P (recv_v2_message D r l d) any.
Proof. intros. unfold recv_v2_message, sc_Error. sync_auto. Qed.
Lemma spec_decode_loop fuel D : ∀ l n e c d, may l → spec P (decode_loop fuel D l n e c d) any.
Proof.
  induction fuel as [|fuel IH]; intros; cbn [decode_loop]; unfold sc_Error, RecordBytesTransferred, RecordFilesTransferred; sync_auto.
Qed.
#[local] Hint Resolve spec_recv_v2_message spec_decode_loop : sync.
Lemma spec_recv_v2_loop fuel D : ∀ r l n e c d, may l → spec P (recv_v2_loop fuel D r l n e c d) any.
Proof. induction fuel as [|fuel IH]; intros; cbn [recv_v2_loop]; sync_auto. Qed.
#[local] Hint Resolve spec_recv_v2_loop : sync.
Lemma spec_recv_v2 fuel r l n e c : may l → spec P (sync_recv_v2 fuel r l n e c) any.
Proof. intros. unfold sync_recv_v2. sync_auto. Qed.
#[local] Hint Resolve spec_recv_v1 spec_recv_v2 : sync.
Lemma spec_recv fuel r l n e c : may l → spec P (sync_recv fuel r l n e c) any.
Proof. intros. unfold sync_recv. sync_auto. Qed.
Lemma spec_set_time l t m : may l → spec P (set_time_and_mode l t m) any.
Proof. intros []. unfold set_time_and_mode. sync_auto. Qed.
#[local] Hint Resolve spec_recv spec_set_time : sync.

(** ** Listing a remote directory *)

Lemma c_str_nonul l : x00 ∉ c_str l.
Proof. induction l as [|b l IH]; cbn; [set_solver|]. case_match; set_solver. Qed.

(** The callback is given names without a slash or a null byte. *)
Lemma spec_FinishLsImpl {A} (J : A → Prop) fuel v2 (cb : Z → Z → Z → bytes → A → SM A) :
  (∀ m sz t name a, slash ∉ name → x00 ∉ name → J a → spec P (cb m sz t name a) J) →
  ∀ a, J a → spec P (FinishLsImpl fuel v2 cb a) (λ r, J r.2).
Proof.
  intros Hcb. induction fuel as [|fuel IH]; intros a Ha; cbn [FinishLsImpl]; [by apply spec_ends|].
  eapply spec_bind; [sync_auto|intros [d|] _; [|by apply spec_ret]].
  do 3 (apply spec_if; [by apply spec_ret|]).
  eapply spec_bind; [sync_auto|intros [buf|] _; [|by apply spec_ret]].
  case_bool_decide as Hs; [by apply spec_ret|].
  eapply spec_bind; [apply Hcb; [done|apply c_str_nonul|done]|exact IH].
Qed.
Lemma spec_sync_ls {A} (J : A → Prop) path (cb : Z → Z → Z → bytes → A → SM A) a :
  (∀ m sz t name a, slash ∉ name → x00 ∉ name → J a → spec P (cb m sz t name a) J) →
  J a → spec P (sync_ls path cb a) (λ r, J r.2).
Proof.
  intros Hcb Ha. unfold sync_ls, SendLs, FinishLs. eapply spec_bind; [sync_auto|intros [] _; [|by apply spec_ret]].
  eapply spec_bind; [sync_auto|intros ? _]. eapply spec_bind; [sync_auto|intros ? _]. by apply spec_FinishLsImpl.
Qed.
End asks.

(** ** Where pulled files go *)

(** A directory below [root], with or without the slash at its end. *)
Definition dirpath (root l : bytes) : Prop := ∃ d, push_separator l = Ok d ∧ dir_below root d ∧ x00 ∉ d.
(** [ci_lpath] of the entry that [remote_build_list] makes for the directory [l]: its parent and its
    name, put together again. *)
Definition dir_entry (l p : bytes) : Prop :=
  ∃ parent, push_separator (Dirname l) = Ok parent ∧ push_separator (parent ++ Basename l) = Ok p.

Lemma new_copyinfo_sep l d r n m : push_separator l = Ok d → new_copyinfo l r n m = new_copyinfo d r n m.
Proof.
  intros E. unfold new_copyinfo, ensure_trailing_separators.
  by rewrite E, (push_separator_id d) by (by eapply push_separator_last).
Qed.
Lemma new_copyinfo_mode l r n m ci : new_copyinfo l r n m = Ok ci → ci_mode ci = m.
Proof.
  unfold new_copyinfo. destruct (ensure_trailing_separators l r) as [[l1 r1]| | | |]; try done. cbn.
  destruct (if S_ISDIR m then _ else _) as [[l2 r2]| | | |]; try done. by intros [= <-].
Qed.
Lemma new_copyinfo_dir l r ci :
  new_copyinfo (Dirname l) r (Basename l) S_IFDIR = Ok ci → dir_entry l (ci_lpath ci).
Proof.
  unfold new_copyinfo, ensure_trailing_separators, dir_entry. intros E.
  destruct (push_separator (Dirname l)) as [d| | | |]; try done. destruct (push_separator r) as [r'| | | |]; try done.
  change (S_ISDIR S_IFDIR) with true in E. cbn in E. destruct (push_separator (d ++ Basename l)) as [p| | | |] eqn:Ep; try done.
  destruct (push_separator (r' ++ Basename l)); try done. injection E as <-. by exists d.
Qed.
Lemma push_separator_nonul l d : push_separator l = Ok d → x00 ∉ l ↔ x00 ∉ d.
Proof.
  unfold push_separator. destruct (last l); [|done]. case_bool_decide; intros [= <-]; [done|].
  rewrite not_elem_of_app. split; [|naive_solver]. intros; split; [done|]. intros Hx. by apply list_elem_of_singleton in Hx.
Qed.
Lemma new_copyinfo_nonul l r n m ci : new_copyinfo l r n m = Ok ci → x00 ∉ l → x00 ∉ n → x00 ∉ ci_lpath ci.
Proof.
  unfold new_copyinfo, ensure_trailing_separators. intros E Hl Hn.
  destruct (push_separator l) as [d| | | |] eqn:Ed; try done. destruct (push_separator r) as [r'| | | |]; try done. cbn in E.
  assert (x00 ∉ d ++ n) as Hd by (apply (push_separator_nonul l d Ed) in Hl; set_solver).
  destruct (S_ISDIR m); cbn in E; [|by injection E as <-].
  destruct (push_separator (d ++ n)) as [d'| | | |] eqn:Ed'; try done. destruct (push_separator (r' ++ n)); try done. cbn in E.
  injection E as <-. cbn. by apply (push_separator_nonul (d ++ n) d' Ed').
Qed.

(** A file below a directory that turns out to be a directory. *)
Lemma file_dirpath root f : last root = Some slash → file_below root f → x00 ∉ f → dirpath root f.
Proof.
  intros Hr (comps & name & Hc & Hn & ->) H0.
  assert (last (subdir root comps) = Some slash) as Hl.
  { destruct comps as [|c comps _] using rev_ind; [unfold subdir; cbn; by rewrite app_nil_r|].
    by rewrite subdir_snoc, !app_assoc, last_snoc. }
  destruct (decide (name = [])) as [->|Hne].
  - rewrite app_nil_r in *. exists (subdir root comps). rewrite push_separator_id by done. split_and!; [done| |done]. by exists comps.
  - destruct (last (subdir root comps ++ name)) as [b|] eqn:Eb.
    2:{ apply last_None in Eb. by apply app_nil in Eb as [_ ?]. }
    pose proof (last_cons_slash _ _ _ Hne Eb) as Hb. exists (subdir root (comps ++ [name])). split_and!.
    + unfold push_separator. rewrite Eb, bool_decide_eq_false_2 by (intros ->; by destruct Hn). by rewrite subdir_snoc, app_assoc.
    + exists (comps ++ [name]). split; [|done]. apply Forall_app. by split; [|constructor].
    + rewrite subdir_snoc, app_assoc, not_elem_of_app. split; [done|]. intros Hx. by apply list_elem_of_singleton in Hx.
Qed.

(** What [mkdirs] may make for something at or below [root]: the directory of an entry, or a parent
    of it. *)
Definition made_below (root p : bytes) : Prop :=
  ∃ q k, ((∃ l, dirpath root l ∧ dir_entry l q) ∨ file_below root q) ∧ p = Nat.iter k Dirname q.

(** An entry of the list: a directory to make, or a file below [root]. *)
Definition entry_ok (root : bytes) (ci : copyinfo) : Prop :=
  S_ISDIR (ci_mode ci) = true ∧ (∃ l, dirpath root l ∧ dir_entry l (ci_lpath ci)) ∨
  file_below root (ci_lpath ci) ∧ x00 ∉ ci_lpath ci.

(** Changes that stay inside the destination. *)
Definition inside (root : bytes) (e : sys) : Prop :=
  match e with
  | SCreat p _ | SWrite p _ _ | SUnlink p _ | SUtime p _ | SChmod p _ => file_below root p
  | SMkdir p _ => made_below root p
  | SAsk => True
  | SShell _ => False
  end.

Section pull.
Context `{SyncEnv} `{Uninit} `{LZ4F} `{Brotli} `{Zstd}.
Context (root : bytes) (Hroot : last root = Some slash).
Notation P := (inside root).
#[local] Existing Instance sync_dirs.

Lemma inside_may p : file_below root p → may P p.
Proof. by split. Qed.

Lemma grows_mkdirs fuel : ∀ path h ok h',
  (∀ k, made_below root (Nat.iter k Dirname path)) → mkdirs fuel path h = Ok (ok, h') → grows P h h'.
Proof.
  induction fuel as [|fuel IH]; intros path h ok h' Hm E; [done|]. cbn [mkdirs] in E.
  destruct (fs_isdir h path); [injection E as <- <-; reflexivity|].
  case_bool_decide; [injection E as <- <-; reflexivity|].
  destruct (mkdirs fuel (Dirname path) h) as [[ok1 h1]| | | |] eqn:E1; try done. cbn in E.
  apply IH in E1; [|intros k; specialize (Hm (S k)); by rewrite Nat.iter_succ_r in Hm].
  destruct ok1; cbn in E; [|by injection E as <- <-].
  assert (grows P h1 (h1 ++ [SMkdir path (e_mkdir h1 path)])) by (apply grows_one, (Hm 0%nat)).
  destruct (e_mkdir h1 path); injection E as <- <-; by etrans.
Qed.
Lemma spec_sync_mkdirs path :
  (∃ l, dirpath root l ∧ dir_entry l path) ∨ file_below root path → spec P (sync_mkdirs path) any.
Proof.
  intros Hp s ok s' E. split; [|done]. unfold sync_mkdirs in E.
  revert E. generalize (S (S (length path))). intros n E. unfold mbind, SM_bind, geti, lift, upd in E.
  destruct (@mkdirs sync_dirs n path (sc_hist s)) as [[b h]| | | |] eqn:Em; try done. cbn in E. injection E as <- <-.
  eapply grows_mkdirs; [|exact Em]. intros k. by exists path, k.
Qed.

(** The three lists of [remote_build_list]. *)
Definition lists_ok (acc : list copyinfo * list copyinfo * list copyinfo) : Prop :=
  Forall (λ ci, dirpath root (ci_lpath ci)) acc.1.1 ∧
  Forall (λ ci, file_below root (ci_lpath ci) ∧ x00 ∉ ci_lpath ci) acc.1.2 ∧ Forall (entry_ok root) acc.2.

Lemma entry_ok_attrs t sz ci : entry_ok root ci → entry_ok root (set_attrs t sz ci).
Proof. done. Qed.
Lemma entry_ok_skip ci : entry_ok root ci → entry_ok root (set_skip ci).
Proof. done. Qed.

Lemma spec_remote_entry rpath l m sz t name acc :
  dirpath root l → slash ∉ name → x00 ∉ name → lists_ok acc → spec P (remote_entry rpath l m sz t name acc) lists_ok.
Proof.
  intros (d & Hd & Hb & Hd0) Hs Hn Hacc. destruct acc as [[dl ll] fl]. unfold remote_entry. pose proof Hacc as (Hl1 & Hl2 & Hl3).
  destruct (IsDotOrDotDot name) eqn:Edot; [by apply spec_ret|].
  assert (safe_name name) as Hsafe.
  { unfold IsDotOrDotDot in Edot. apply orb_false_iff in Edot as [?%bool_decide_eq_false ?%bool_decide_eq_false]. by split_and!. }
  eapply spec_bind; [apply spec_lift; intros a Ea; exact Ea|]. intros ci Eci. cbn beta in Eci.
  pose proof (new_copyinfo_nonul _ _ _ _ _ Eci (proj2 (push_separator_nonul _ _ Hd) Hd0) Hn) as Hci.
  rewrite (new_copyinfo_sep _ _ _ _ _ Hd) in Eci.
  destruct (new_copyinfo_below d rpath name m ci) as [Em Hbelow]; [by eapply push_separator_last|done|done|].
  destruct (S_ISDIR m) eqn:Edir.
  { apply spec_ret. split_and!; try done. apply Forall_app. split; [done|]. constructor; [|done].
    exists (ci_lpath ci). destruct Hbelow as [? Hl]. rewrite push_separator_id by done. split_and!; [done| |done]. by eapply dir_below_trans. }
  assert (file_below root (ci_lpath ci)) as Hf by (by eapply file_below_trans).
  destruct (S_ISLNK m).
  { apply spec_ret. split_and!; try done. apply Forall_app. split; [done|]. by constructor. }
  eapply (spec_bind _ _ _ (entry_ok root)).
  - destruct (should_pull_file (ci_mode ci)); [apply spec_ret; by right|].
    eapply spec_bind; [by apply spec_skip_warning|]. intros _ _. apply spec_ret, entry_ok_skip. by right.
  - intros ci' Hci'. apply spec_ret. split_and!; try done. apply Forall_app. split; [done|]. by constructor.
Qed.

Lemma spec_resolve_links links : ∀ dl fl,
  lists_ok (dl, links, fl) → spec P (resolve_links links dl fl) (λ r, lists_ok (r.1, [], r.2)).
Proof.
  induction links as [|ci links IH]; intros dl fl (K1 & K2 & K3); cbn [resolve_links fst snd] in *; [by apply spec_ret|].
  apply Forall_cons in K2 as [[Hf Hn] K2]. eapply spec_bind; [by apply spec_stat_fallback|]. intros [st|] _.
  - apply spec_if; apply IH; split_and!; try done; apply Forall_app; (split; [done|]); (constructor; [|done]).
    + by apply file_dirpath.
    + by right.
  - eapply spec_bind; [by apply spec_error_text|]. intros e _. eapply spec_bind; [by apply spec_print|]. intros _ _. by apply IH.
Qed.

Lemma spec_remote_build_list fuel : ∀ fl rpath l,
  dirpath root l → Forall (entry_ok root) fl → spec P (remote_build_list fuel fl rpath l) (λ r, Forall (entry_ok root) r.2).
Proof.
  induction fuel as [|fuel IH]; intros fl rpath l Hl Hfl; cbn [remote_build_list]; [by apply spec_ends|].
  eapply (spec_bind _ _ _ (entry_ok root)).
  { apply spec_lift. intros ci Eci. left. split; [by rewrite (new_copyinfo_mode _ _ _ _ _ Eci)|]. exists l. split; [done|].
    by eapply new_copyinfo_dir. }
  intros ci Hci. eapply spec_bind.
  { apply (spec_sync_ls P I lists_ok); [intros; by apply spec_remote_entry|]. split_and!; try done. apply Forall_app. by split; [|constructor]. }
  intros [ok [[dl ll] fl']] Hls. cbn [snd] in Hls. destruct ok; cbn [negb]; [|apply spec_ret, Hls].
  eapply spec_bind; [by apply spec_resolve_links|]. intros [dl' fl2] (Hd & _ & Hf2). cbn [fst snd] in *.
  apply List.Forall_rev in Hd.
  generalize dependent fl2. induction Hd as [|ci' dl2 Hci' Hd IHd]; intros fl2 Hf2; [by apply spec_ret|].
  eapply spec_bind; [by apply IH|]. intros [ok fl3] Hf3. destruct ok; cbn [negb]; [by apply IHd|by apply spec_ret].
Qed.

Lemma spec_pull_entry fuel a c ci : entry_ok root ci → spec P (pull_entry fuel a c ci) any.
Proof.
  intros [[Hd Hl]|[Hf Hn]]; unfold pull_entry.
  - rewrite Hd. eapply spec_bind; [apply spec_sync_mkdirs; by left|]. intros [] _; [by apply spec_ret|by apply spec_fail_errno].
  - apply spec_if.
    { eapply spec_bind; [apply spec_sync_mkdirs; by right|]. intros [] _; [by apply spec_ret|by apply spec_fail_errno]. }
    rewrite !(c_str_id (ci_lpath ci)) by done. apply inside_may in Hf.
    eapply spec_bind; [by apply spec_recv|]. intros [] _; cbn [negb]; [|by apply spec_ret].
    apply spec_if; [|by apply spec_ret]. eapply spec_bind; [by apply spec_set_time|]. intros. by apply spec_ret.
Qed.
End pull.

(** The places a transfer of [src] to [dst] may change: [dst] itself, [src] inside [dst], or
    files below one of these. *)
Definition pull_dir (dst src d : bytes) : Prop := d = dst ∨ ∃ d0, push_separator dst = Ok d0 ∧ d = d0 ++ Basename src.
Definition pull_place (dst src p : bytes) : Prop :=
  p = dst ∨ p = dst ++ [slash] ++ Basename src ∨
  ∃ d root, pull_dir dst src d ∧ push_separator d = Ok root ∧ file_below root p.
Definition pull_event (dst : bytes) (srcs : list bytes) (e : sys) : Prop :=
  match e with
  | SCreat p _ | SWrite p _ _ | SUnlink p _ | SUtime p _ | SChmod p _ => ∃ src, src ∈ srcs ∧ pull_place dst src p
  | SMkdir p _ => ∃ src d root, src ∈ srcs ∧ pull_dir dst src d ∧ push_separator d = Ok root ∧ made_below root p
  | SAsk => True
  | SShell _ => False
  end.

Lemma Basename_nonul path : x00 ∉ path → x00 ∉ Basename path.
Proof.
  unfold Basename. destruct path as [|b path]; [set_solver|]. intros Hn. case_match; [set_solver|]. unfold fits.
  case_match; [set_solver|]. intros Hx. apply Hn. eapply elem_of_subseteq; [|exact Hx]. intros y Hy.
  apply elem_of_take in Hy as (k & Hy & _). rewrite lookup_drop in Hy. by eapply list_elem_of_lookup_2.
Qed.

Section theorems.
Context `{SyncEnv} `{Uninit} `{LZ4F} `{Brotli} `{Zstd}.

(** Pulling a directory changes only files whose paths are the destination directory
    followed by harmless names. *)
Lemma spec_copy_remote fuel rpath lpath copy_attrs compression (P : sys → Prop) :
  x00 ∉ lpath → (∀ root e, push_separator lpath = Ok root → inside root e → P e) →
  spec P (copy_remote_dir_local fuel rpath lpath copy_attrs compression) any.
Proof.
  intros Hnul HP s ok s' E. split; [|done]. unfold copy_remote_dir_local, ensure_trailing_separators in E.
  destruct (push_separator lpath) as [root| | | |] eqn:El; try done.
  destruct (push_separator rpath) as [rp| | | |] eqn:Er; try done.
  pose proof (push_separator_last _ _ El) as Hroot.
  assert (dirpath root root) as Hd.
  { exists root. rewrite push_separator_id by done. split_and!; [done|apply dir_below_refl|by apply (push_separator_nonul _ _ El)]. }
  enough (grows (inside root) (sc_hist s) (sc_hist s')) as (evs & Hh & Hevs).
  { exists evs. split; [done|]. eapply Forall_impl; [exact Hevs|]. eauto. }
  eapply (spec_sound (inside root) _ any); [|exact E].
  eapply spec_bind; [by apply spec_upd|]. intros _ _. eapply spec_bind; [by apply (spec_lift _ _ (λ r, r = (root, rp))); intros ? [= <-]|].
  intros ? ->. eapply spec_bind; [by apply spec_remote_build_list|]. intros [b fl] Hfl. cbn [snd] in Hfl.
  destruct b; cbn [negb]; [|by apply spec_ret]. eapply spec_bind; [by apply spec_upd|]. intros _ _.
  eapply spec_bind.
  { apply (spec_mwhile _ _ _ (entry_ok root)); [done|]. intros ci Hci. apply spec_if; [by apply spec_ret|by apply spec_pull_entry]. }
  intros [] _; cbn [negb]; [|by apply spec_ret]. eapply spec_bind; [by apply spec_upd|]. intros. by apply spec_ret.
Qed.

Lemma pull_may dst srcs src p : src ∈ srcs → pull_place dst src p → may (pull_event dst srcs) p.
Proof. intros ? ?. split; intros; exists src; done. Qed.

Lemma spec_pull_src fuel dst exists_ isdir attrs compression name srcs src :
  x00 ∉ dst → x00 ∉ src → src ∈ srcs →
  spec (pull_event dst srcs) (pull_src fuel dst exists_ isdir attrs compression name src) any.
Proof.
  intros Hdst Hsrc Hin. unfold pull_src. pose proof (Basename_nonul _ Hsrc) as Hb.
  eapply spec_bind; [by apply spec_stat_fallback|]. intros [st|] _.
  2:{ eapply spec_bind; [apply spec_geti_any|]. intros e _. eapply spec_bind; [apply spec_if; [by apply spec_fail|by apply spec_fail_errno]|].
      intros. by apply spec_ret. }
  destruct (S_ISDIR (st_mode st)).
  - apply spec_if; [eapply spec_bind; [by apply spec_fail|intros; by apply spec_ret]|].
    eapply (spec_bind _ _ _ (λ d, (d = dst ∨ ∃ d0, push_separator dst = Ok d0 ∧ d = d0 ++ Basename src) ∧ x00 ∉ d)).
    + apply spec_if; [|apply spec_ret; by split; [left|]].
      eapply (spec_bind _ _ _ (λ d0, push_separator dst = Ok d0)); [by apply spec_lift|]. intros d0 Hd0. apply spec_ret.
      split; [right; eauto|]. apply (push_separator_nonul _ _ Hd0) in Hdst. rewrite not_elem_of_app. by split.
    + intros d [Hd Hdn]. eapply spec_bind; [apply spec_copy_remote; [done|]|intros; by apply spec_ret].
      intros root e Hr He. destruct e; cbn in *; try done; [exists src; (split; [done|]); right; right; exists d, root; done..|].
      by exists src, d, root.
  - apply spec_if; [eapply spec_bind; [by apply spec_skip_warning|intros; by apply spec_ret]|].
    eapply spec_bind; [by apply spec_upd|]. intros _ _. eapply spec_bind; [by apply spec_upd|]. intros _ _. cbv zeta.
    set (p := if isdir then _ else _).
    assert (may (pull_event dst srcs) p) as Hp.
    { apply (pull_may _ _ src); [done|]. unfold p. destruct isdir; [right; left|by left]. rewrite c_str_id; [done|].
      rewrite !not_elem_of_app. split_and!; [done| |done]. intros Hx. by apply list_elem_of_singleton in Hx. }
    eapply spec_bind; [by apply spec_recv|]. intros [] _; cbn [negb]; [|by apply spec_ret].
    apply spec_if; [|by apply spec_ret]. eapply spec_bind; [by apply spec_set_time|]. intros. by apply spec_ret.
Qed.

Lemma spec_each_src P f srcs : (∀ src, src ∈ srcs → spec P (f src) any) → ∀ b, spec P (each_src f srcs b) any.
Proof.
  induction srcs as [|src srcs IH]; intros Hf b; cbn [each_src]; [by apply spec_ret|].
  eapply spec_bind; [apply Hf; set_solver|]. intros [ok|] _; [|by apply spec_ret]. apply IH. intros. apply Hf. set_solver.
Qed.

Lemma spec_destroy P : P SAsk → spec P destroy any.
Proof.
  intros HP. unfold destroy, conn_read. eapply spec_bind; [by apply spec_SendRequest|]. intros [] _; sync_auto.
Qed.

(** C22. In a pull that returns, whatever the device has answered in it, the client has
    created, written, removed and changed only files at the destination: the destination
    itself, a file of the source's name in it, or files whose paths continue one of these with
    names that have no slash and are not a dot or a dot dot; the directories that it has made
    are the destination, directories below it named in the same way, and parents of these; and
    no shell command was run.  The destination and the sources contain no NUL.  (A run that
    does not return, because the process ends or its behaviour is undefined, as when the device
    announces a message of 2^32 - 1 bytes in [ReportCopyFailure], is not covered.) *)
Theorem pull_only_destination fuel fd srcs dst copy_attrs compression name s r s' :
  x00 ∉ dst → Forall (λ src, x00 ∉ src) srcs →
  do_sync_pull_fd fuel fd srcs dst copy_attrs compression name s = Ok (r, s') →
  grows (pull_event dst srcs) (sc_hist s) (sc_hist s').
Proof.
  intros Hdst Hsrcs E. eapply (spec_sound _ _ any); [|exact E]. assert (pull_event dst srcs SAsk) as HA by done.
  unfold do_sync_pull_fd, with_connection. apply spec_if; [by apply spec_ret|].
  eapply (spec_bind _ _ _ any); [|intros; eapply spec_bind; [by apply spec_destroy|intros; by apply spec_ret]].
  eapply spec_bind; [by apply spec_ask_errno|]. intros st _. eapply spec_bind; [apply spec_geti_any|]. intros e _. cbv zeta.
  eapply (spec_bind _ _ _ any).
  { pose proof spec_ask_errno. pose proof spec_fail_errno. sync_auto. }
  intros usable _. apply spec_if; [by apply spec_ret|]. eapply (spec_bind _ _ _ any).
  { pose proof spec_fail. sync_auto. }
  intros [] _; [by apply spec_ret|]. eapply (spec_bind _ _ _ any).
  { apply spec_each_src. intros src Hin. rewrite Forall_forall in Hsrcs. apply spec_pull_src; auto. }
  intros [b|] _; [|by apply spec_ret]. eapply spec_bind; [apply spec_geti_any|]. intros. by apply spec_ret.
Qed.
End theorems.
