(* ===== verification/SyncFiles.v ===== *)
(** * The sync client: what arrives

    What sending and receiving a file amounts to.  [file_after] is what the steps recorded in
    the history make of a local file.  A receive that fails leaves no part of the file behind.
    When neither side fails, the messages that are sent for a file, cut into pieces in any
    way, are turned back into that file by the receiver, for every encoder and decoder that
    satisfy the laws of CodecInv.v. *)

From S2P Require Import Prelude Types Strings Transport World Io Paths SyncWire Codec CodecInv Sync SyncInv.

(** ** Histories *)

Definition file_step (p : bytes) (c : option bytes) (e : sys) : option bytes :=
  match e with
  | SCreat q true => if bool_decide (q = p) then Some [] else c
  | SWrite q d true => if bool_decide (q = p) then (λ x, x ++ d) <$> c else c
  | SUnlink q true => if bool_decide (q = p) then None else c
  | _ => c
  end.
(** The content of [p] after the history, when it was [c] before. *)
Definition file_after (p : bytes) (c : option bytes) (h : list sys) : option bytes := foldl (file_step p) c h.

Lemma file_after_snoc p c h e : file_after p c (h ++ [e]) = file_step p (file_after p c h) e.
Proof. unfold file_after. by rewrite foldl_app. Qed.

Definition quiet (e : sys) : Prop := e = SAsk.
Lemma file_after_quiet p c h h' : grows quiet h h' → file_after p c h' = file_after p c h.
Proof.
  intros (evs & -> & Hq). unfold file_after. rewrite foldl_app. induction Hq as [|e evs -> _ IH]; [done|]. exact IH.
Qed.

(** How the last removal of [p] ended. *)
Definition unlink_step (p : bytes) (o : option bool) (e : sys) : option bool :=
  match e with SUnlink q ok => if bool_decide (q = p) then Some ok else o | _ => o end.
Definition last_unlink (p : bytes) (h : list sys) : option bool := foldl (unlink_step p) None h.
Definition removed (p : bytes) (c : option bytes) (h : list sys) : Prop :=
  file_after p c h = None ∨ last_unlink p h = Some false.

Lemma last_unlink_snoc p h e : last_unlink p (h ++ [e]) = unlink_step p (last_unlink p h) e.
Proof. unfold last_unlink. by rewrite foldl_app. Qed.
Lemma last_unlink_quiet p h h' : grows quiet h h' → last_unlink p h' = last_unlink p h.
Proof.
  intros (evs & -> & Hq). unfold last_unlink. rewrite foldl_app. induction Hq as [|e evs -> _ IH]; [done|]. exact IH.
Qed.

(** ** A failed receive *)

Definition tri {A} (Pre : list sys → Prop) (m : SM A) (Post : A → list sys → Prop) : Prop :=
  ∀ s a s', Pre (sc_hist s) → m s = Ok (a, s') → Post a (sc_hist s').

Section tri.
Context {A B : Type}.
Lemma tri_ret (a : A) Pre Post : (∀ h, Pre h → Post a h) → tri Pre (mret a) Post.
Proof. intros Hp s b s' Hs [= <- <-]. auto. Qed.
Lemma tri_bind (m : SM A) (f : A → SM B) Pre Mid Post :
  tri Pre m Mid → (∀ a, tri (Mid a) (f a) Post) → tri Pre (m ≫= f) Post.
Proof.
  intros Hm Hf s b s' Hs E. unfold mbind, SM_bind in E. destruct (m s) as [[a s1]| | | |] eqn:Em; try done.
  eapply Hf; [eapply Hm; eauto|eauto].
Qed.
Lemma tri_if (b : bool) (m k : SM A) Pre Post :
  (b = true → tri Pre m Post) → (b = false → tri Pre k Post) → tri Pre (if b then m else k) Post.
Proof. destruct b; auto. Qed.
Lemma tri_weaken (m : SM A) (Pre Pre' : list sys → Prop) (Post Post' : A → list sys → Prop) :
  tri Pre' m Post' → (∀ h, Pre h → Pre' h) → (∀ a h, Post' a h → Post a h) → tri Pre m Post.
Proof. intros Hm H1 H2 s a s' Hs E. eauto. Qed.
Lemma tri_ends (r : res (A * sync)) Pre Post : (∀ x, r ≠ Ok x) → tri Pre (ends r) Post.
Proof. intros Hr s a s' _ E. by apply Hr in E. Qed.
End tri.

Section recv_fails.
Context `{SyncEnv} `{Uninit} `{LZ4F} `{Brotli} `{Zstd}.
Context (p : bytes) (c0 : option bytes).
(** The file is gone, or its last removal failed. *)
Notation gone := (λ h, removed p c0 h).
Notation whatever := (λ _ : list sys, True).
(** The postcondition of a computation that returns [false] only after removing the file. *)
Notation clean := (λ (ok : bool) h, ok = false → removed p c0 h).

Lemma tri_quiet {A} (m : SM A) : spec quiet m any → tri gone m (λ _, gone).
Proof. intros Hm s a s' Hs E. apply Hm in E as [E _]. unfold removed. by rewrite (file_after_quiet _ _ _ _ E), (last_unlink_quiet _ _ _ E). Qed.
Lemma tri_whatever {A} (m : SM A) Pre : tri Pre m (λ _ _, True).
Proof. done. Qed.
Lemma tri_unlink : tri whatever (unlink p) (λ _, gone).
Proof.
  intros s a s' _ [= <- <-]. cbn [with_hist sc_hist]. unfold removed. rewrite file_after_snoc, last_unlink_snoc. cbn.
  rewrite bool_decide_eq_true_2 by done. destruct (e_unlink _ _); auto.
Qed.
Lemma tri_unlink_fail : tri whatever (unlink_fail p) clean.
Proof. eapply tri_bind; [apply tri_unlink|]. intros. by apply tri_ret. Qed.
(** ... followed by a message. *)
Lemma tri_unlink_then {A B} (m : SM A) (b : B) : spec quiet m any → tri whatever (_ ← unlink p; _ ← m; mret b) (λ _, gone).
Proof. intros Hm. eapply tri_bind; [apply tri_unlink|]. intros. eapply tri_bind; [by apply tri_quiet|]. intros. by apply tri_ret. Qed.
Lemma tri_clean {A} (m : SM A) (Q : A → Prop) : tri whatever m (λ _, gone) → tri whatever m (λ a h, Q a → gone h).
Proof. intros Hm. eapply tri_weaken; [exact Hm|done|]. auto. Qed.

Lemma recv_v1_loop_clean fuel : ∀ r n e c, tri whatever (recv_v1_loop fuel r p n e c) clean.
Proof.
  induction fuel as [|fuel IH]; intros r n e c; cbn [recv_v1_loop]; [by apply tri_ends|].
  eapply tri_bind; [apply tri_whatever|]. intros abort. apply tri_if; intros _; [apply tri_unlink_fail|].
  eapply tri_bind; [apply tri_whatever|]. intros [m|]; [|apply tri_unlink_fail].
  apply tri_if; intros _; [by apply tri_ret|].
  apply tri_if; intros _; [apply tri_clean, tri_unlink_then; by apply spec_copy_failure|].
  apply tri_if; intros _; [eapply tri_bind; [apply tri_whatever|]; intros; apply tri_unlink_fail|].
  eapply tri_bind; [apply tri_whatever|]. intros [d|]; [|apply tri_unlink_fail].
  eapply tri_bind; [apply tri_whatever|]. intros ?. eapply tri_bind; [apply tri_whatever|]. intros ok.
  apply tri_if; intros _; [eapply tri_bind; [apply tri_whatever|]; intros; apply tri_unlink_fail|].
  eapply tri_bind; [apply tri_whatever|]. intros ?. eapply tri_bind; [apply tri_whatever|]. intros ?. apply IH.
Qed.

Lemma recv_v2_message_clean D r d : tri whatever (recv_v2_message D r p d) (λ o h, o = None → gone h).
Proof.
  assert (∀ m : SM (option (dec_t D)), tri whatever m (λ _, gone) → tri whatever m (λ o h, o = None → gone h)) as Hc
    by (intros; by apply (tri_clean _ (λ o, o = None))).
  assert (tri whatever (_ ← unlink p; mret None) (λ (o : option (dec_t D)) h, o = None → gone h)) as Hu
    by (apply Hc; eapply tri_bind; [apply tri_unlink|]; intros; by apply tri_ret).
  unfold recv_v2_message. eapply tri_bind; [apply tri_whatever|]. intros abort. apply tri_if; intros _; [done|].
  eapply tri_bind; [apply tri_whatever|]. intros [m|]; [|done].
  apply tri_if; intros _; [eapply tri_bind; [apply tri_whatever|]; intros; by apply tri_ret|].
  apply tri_if; intros _; [apply Hc, tri_unlink_then; by apply spec_copy_failure|].
  apply tri_if; intros _; [eapply tri_bind; [apply tri_whatever|]; done|].
  eapply tri_bind; [apply tri_whatever|]. intros [b|]; [|done].
  eapply tri_bind; [apply tri_whatever|]. intros ?. eapply tri_bind; [apply tri_whatever|]. intros. by apply tri_ret.
Qed.

Lemma decode_loop_clean fuel D : ∀ n e c d, tri whatever (decode_loop fuel D p n e c d) (λ r h, r = inl false → gone h).
Proof.
  induction fuel as [|fuel IH]; intros n e c d; cbn [decode_loop]; [by apply tri_ends|].
  assert (∀ k : SM unit, tri whatever (_ ← k; _ ← unlink p; mret (inl false)) (λ (r : bool + (dec_t D * Z)) h, r = inl false → gone h)) as Hu.
  { intros k. eapply tri_bind; [apply tri_whatever|]. intros ?. apply (tri_clean _ (λ r, r = inl false)).
    eapply tri_bind; [apply tri_unlink|]. intros. by apply tri_ret. }
  eapply tri_bind; [apply tri_whatever|]. intros [[result output] d']. destruct result; [apply Hu|..].
  all: eapply tri_bind; [apply tri_whatever|]; intros ok; apply tri_if; intros _.
  1,3,5: eapply tri_bind; [apply tri_whatever|]; intros ?; apply (tri_clean _ (λ r, r = inl false));
    (eapply tri_bind; [apply tri_unlink|]); intros; by apply tri_ret.
  all: eapply tri_bind; [apply tri_whatever|]; intros ?; (eapply tri_bind; [apply tri_whatever|]); intros ?.
  - eapply tri_bind; [apply tri_whatever|]. intros ?. by apply tri_ret.
  - by apply tri_ret.
  - apply IH.
Qed.

Lemma recv_v2_loop_clean fuel D : ∀ r n e c d, tri whatever (recv_v2_loop fuel D r p n e c d) clean.
Proof.
  induction fuel as [|fuel IH]; intros r n e c d; cbn [recv_v2_loop]; [by apply tri_ends|].
  eapply tri_bind; [apply recv_v2_message_clean|]. intros [d'|].
  2:{ apply tri_ret. auto. }
  eapply tri_bind; [eapply tri_weaken; [apply decode_loop_clean|done|intros ? ? Hx; exact Hx]|].
  intros [[]|[d2 c2]]; [by apply tri_ret|apply tri_ret; auto|]. eapply tri_weaken; [apply IH|done|done].
Qed.

Lemma creat_clean : tri gone (creat p) clean.
Proof.
  intros s ok s' Hs E Hok. subst ok. unfold creat, set_errno, did, mbind, SM_bind, geti, upd, mret, SM_ret in E. destruct (e_creat (sc_hist s) p); [|done]. injection E as <-.
  cbn [with_hist with_errno sc_hist]. unfold removed in *. by rewrite file_after_snoc, last_unlink_snoc.
Qed.

(** The part of both receive functions after the request. *)
Lemma create_then_clean {A} (what : bytes) (k : SM A) (f : A → SM bool) Mid :
  tri whatever k Mid → (∀ a, tri (Mid a) (f a) clean) →
  tri whatever (_ ← unlink p; ok ← creat p; if negb ok then fail_errno what else a ← k; f a) clean.
Proof.
  intros Hk Hf. eapply tri_bind; [apply tri_unlink|]. intros ?. eapply tri_bind; [apply creat_clean|]. intros [] ; cbn [negb].
  - eapply tri_bind; [|exact Hf]. by eapply tri_weaken; [exact Hk|..].
  - eapply tri_weaken; [apply tri_quiet; by apply spec_fail_errno|intros h Hh; exact (Hh eq_refl)|intros ? h Hh _; exact Hh].
Qed.

(** A request that is not sent, or a clean end. *)
Lemma request_clean (m k : SM bool) s s' :
  spec quiet m any → tri whatever k clean → (ok ← m; if negb ok then mret false else k) s = Ok (false, s') →
  grows quiet (sc_hist s) (sc_hist s') ∨ gone (sc_hist s').
Proof.
  intros Hm Hk E. unfold mbind, SM_bind in E. destruct (m s) as [[ok s1]| | | |] eqn:Em; try done.
  destruct ok; cbn [negb] in E; [right; by eapply Hk|left]. injection E as <-. by apply Hm in Em as [? _].
Qed.
End recv_fails.

(** C25. A receive that fails (returns false) leaves nothing of the file behind, whatever the
    device sends and whatever fails locally, unless the removal itself fails: either the
    request was not sent and no file was touched, or the local file is gone (also one that was
    there before the transfer), or the last [adb_unlink] of it failed, which the client does
    not notice. *)
Theorem failed_receive_leaves_nothing `{SyncEnv} `{Uninit} `{LZ4F} `{Brotli} `{Zstd}
    fuel rpath lpath name expected_size compression s s' before :
  sync_recv fuel rpath lpath name expected_size compression s = Ok (false, s') →
  grows quiet (sc_hist s) (sc_hist s') ∨ file_after lpath before (sc_hist s') = None ∨ last_unlink lpath (sc_hist s') = Some false.
Proof.
  intros E. unfold sync_recv in E. unfold mbind, SM_bind, geti in E. destruct (have_sendrecv_v2_ (sc_caps s)).
  - unfold sync_recv_v2 in E. unfold mbind at 1, SM_bind at 1, geti in E. revert E. apply request_clean; [by apply spec_SendRecv2|].
    eapply create_then_clean; [apply tri_whatever|]. intros D. eapply tri_bind; [apply tri_whatever|]. intros d.
    eapply tri_weaken; [apply (recv_v2_loop_clean lpath before)|auto|auto].
  - revert E. apply request_clean; [by apply spec_SendRequest|].
    eapply create_then_clean; [apply (recv_v1_loop_clean lpath before)|]. intros [].
    + eapply tri_bind; [apply tri_whatever|]. intros ?. by apply tri_ret.
    + apply tri_ret. auto.
Qed.

(** ** Transfers that nothing disturbs *)

Definition runs {A} (m : SM A) (s : sync) (Q : A → sync → Prop) : Prop := ∃ a s', m s = Ok (a, s') ∧ Q a s'.

Lemma runs_ret {A} (a : A) s (Q : A → sync → Prop) : Q a s → runs (mret a) s Q.
Proof. by exists a, s. Qed.
Lemma runs_bind {A B} (m : SM A) (f : A → SM B) s Q R :
  runs m s Q → (∀ a s', Q a s' → runs (f a) s' R) → runs (m ≫= f) s R.
Proof. intros (a & s' & E & Ha) Hf. destruct (Hf a s' Ha) as (b & s'' & E' & Hb). exists b, s''. unfold mbind, SM_bind. by rewrite E. Qed.
Lemma runs_weaken {A} (m : SM A) s (Q R : A → sync → Prop) : runs m s Q → (∀ a s', Q a s' → R a s') → runs m s R.
Proof. intros (a & s' & E & Ha) HR. exists a, s'. auto. Qed.
Lemma runs_lift {A B} (r : res A) (f : A → SM B) s a Q : r = Ok a → runs (f a) s Q → runs (lift r ≫= f) s Q.
Proof. intros ->. done. Qed.
Lemma runs_geti {A B} (g : sync → A) (f : A → SM B) s Q : runs (f (g s)) s Q → runs (geti g ≫= f) s Q.
Proof. done. Qed.
Lemma runs_upd f s (Q : unit → sync → Prop) : Q () (f s) → runs (upd f) s Q.
Proof. by exists (), (f s). Qed.

(** The parts of the connection that matter here are the same. *)
Record still (s s' : sync) : Prop := {
  still_caps : sc_caps s' = sc_caps s;
  still_in : sc_in s' = sc_in s;
  still_out : sc_out s' = sc_out s;
  still_acks : deferred_acknowledgements_ s' = deferred_acknowledgements_ s;
  still_buf : acknowledgement_buffer_ s' = acknowledgement_buffer_ s;
  still_hist : grows quiet (sc_hist s) (sc_hist s')
}.
#[global] Instance still_preorder : PreOrder still.
Proof.
  split.
  - intros s. split; done || reflexivity.
  - intros s1 s2 s3 [] []. split; try congruence. by etrans.
Qed.
Lemma still_with_out s s' v : still s s' → still (with_out v s) (with_out v s').
Proof. intros []. by split. Qed.

(** Neither the observer, the network nor the local disk gets in the way. *)
Class Undisturbed `{SyncEnv} : Prop := {
  no_abort : ∀ o f, g_sync_observer = Some o → should_abort o = Some f → ∀ h, f h = false;
  sends_ok : ∀ h n, e_send h n = None;
  creates_ok : ∀ h p, e_creat h p = None;
  writes_ok : ∀ h p d, e_write h p d = None
}.

Section undisturbed.
Context `{Undisturbed} `{Uninit} `{LZ4F} `{Brotli} `{Zstd}.

Lemma still_did s : still s (with_hist (sc_hist s ++ [SAsk]) s).
Proof. split; try done. by apply grows_one. Qed.
Lemma runs_ask {A} (f : list sys → A) s : runs (ask f) s (λ a s', a = f (sc_hist s) ∧ still s s').
Proof. eexists _, _. split; [reflexivity|]. split; [done|apply still_did]. Qed.
Lemma runs_abort s : runs sync_should_abort s (λ a s', a = false ∧ still s s').
Proof.
  unfold sync_should_abort. destruct g_sync_observer as [o|] eqn:Eo; [|by apply runs_ret].
  destruct (should_abort o) as [f|] eqn:Ef; [|by apply runs_ret].
  eapply runs_weaken; [apply runs_ask|]. intros a s' [-> Hs]. split; [by apply (no_abort o f)|done].
Qed.
Lemma runs_wire n s : runs (wire_bytes n) s (λ _ s', still s s').
Proof. unfold wire_bytes. destruct g_sync_observer as [o|]; [|by apply runs_ret]. destruct (on_wire_bytes o); [apply runs_upd|by apply runs_ret]. by split. Qed.
Lemma runs_progress f c t s : runs (ReportProgress f c t) s (λ _ s', still s s').
Proof. unfold ReportProgress. destruct g_sync_observer as [o|]; [|by apply runs_ret]. destruct (on_progress o); [apply runs_upd|by apply runs_ret]. by split. Qed.
Lemma runs_both f s : runs (both f) s (λ _ s', still s s').
Proof. apply runs_upd. by split. Qed.

Lemma runs_write_exactly d s : runs (write_exactly d) s (λ ok s', ok = true ∧ still (with_out (sc_out s ++ d) s) s').
Proof.
  unfold write_exactly. eapply runs_bind; [apply runs_ask|]. intros r s1 [-> Hs]. rewrite sends_ok.
  eapply runs_bind; [by apply (runs_upd _ _ (λ _ s', s' = with_out (sc_out s1 ++ d) s1))|]. intros ? ? ->. apply runs_ret.
  split; [done|]. rewrite (still_out _ _ Hs). by apply still_with_out.
Qed.
Lemma runs_WriteOrDie l r d s : runs (WriteOrDie l r d) s (λ ok s', ok = true ∧ still (with_out (sc_out s ++ d) s) s').
Proof.
  unfold WriteOrDie. eapply runs_bind; [apply runs_write_exactly|]. intros ok s1 [-> Hs].
  eapply runs_bind; [apply runs_wire|]. intros ? s2 Hs2. apply runs_ret. split; [done|by etrans].
Qed.

Lemma runs_read_exactly n s :
  pieces_ok (sc_in s) → 0 ≤ n ≤ llen (concat (sc_in s)) →
  runs (read_exactly n) s (λ a s', a = Some (ltake n (concat (sc_in s))) ∧
    ∃ rest, concat rest = ldrop n (concat (sc_in s)) ∧ pieces_ok rest ∧ still (with_in rest s) s').
Proof.
  intros Hp Hn. unfold read_exactly. apply runs_geti. destruct (ReadFdExactly_ok (sc_in s) n Hp Hn) as (rest & -> & Hc & Hr).
  eapply runs_bind; [by apply (runs_upd _ _ (λ _ s', s' = with_in rest s))|]. intros ? ? ->. apply runs_ret. split; [done|]. by exists rest.
Qed.
Lemma runs_read_struct {A} `{Wire A} (a : A) rest s :
  pieces_ok (sc_in s) → concat (sc_in s) = encode a ++ rest → wire_ok a →
  runs (read_struct A) s (λ x s', x = Some a ∧ ∃ ps, concat ps = rest ∧ pieces_ok ps ∧ still (with_in ps s) s').
Proof.
  intros Hp Hc Ha. unfold read_struct. pose proof (llen_encode a) as Hl. pose proof (llen_nonneg rest).
  eapply runs_bind; [apply runs_read_exactly; [done|]|].
  { rewrite Hc, llen_app, Hl. pose proof (llen_nonneg (encode a)). lia. }
  rewrite Hc, <- Hl, ltake_app_le, ldrop_app_le by lia. rewrite ltake_ge, llen_ldrop_ge by lia.
  intros x s1 (-> & ps & Hps & Hpk & Hs). rewrite decode_encode_nil by done. apply runs_ret. split; [done|]. by exists ps.
Qed.

(** ** Sending *)

(** The messages for a file: its blocks, and the end with the time. *)
Definition packets (chunks : list bytes) : bytes := concat (data_packet <$> chunks).
Definition file_stream (chunks : list bytes) (mtime : Z) : bytes := packets chunks ++ encode (mkData ID_DONE mtime).
Definition blocks (outs : list bytes) : list bytes := filter (λ d, d ≠ []) outs.

Lemma packets_app l k : packets (l ++ k) = packets l ++ packets k.
Proof. unfold packets. by rewrite fmap_app, concat_app. Qed.
Lemma blocks_concat outs : concat (blocks outs) = concat outs.
Proof.
  unfold blocks. induction outs as [|d outs IH]; [done|]. rewrite filter_cons. case_decide as Hd; cbn [concat]; rewrite IH; [done|].
  by destruct d.
Qed.
Lemma blocks_app l k : blocks (l ++ k) = blocks l ++ blocks k.
Proof. apply filter_app. Qed.
Lemma blocks_sized outs : Forall (λ d, llen d ≤ SYNC_DATA_MAX) outs → Forall block_sized (blocks outs).
Proof.
  intros Ho. apply Forall_forall. intros d Hd. apply list_elem_of_filter in Hd as [Hne Hd]. rewrite Forall_forall in Ho.
  split; [|by apply Ho]. pose proof (llen_nonneg d). destruct (decide (llen d = 0)) as [E0|]; [by apply llen_0 in E0|lia].
Qed.

(** A local file that is read in the pieces [cs], without errors. *)
Definition reader_of (cs : list bytes) : reader := (λ c, inr c) <$> cs.
Lemma file_read_chunk cs :
  pieces_ok cs → cs ≠ [] →
  ∃ d cs', file_read SYNC_DATA_MAX (reader_of cs) = inr (d, reader_of cs') ∧ block_sized d ∧ pieces_ok cs' ∧ concat cs = d ++ concat cs'.
Proof.
  intros Hok Hne. destruct cs as [|c cs]; [done|]. apply Forall_cons in Hok as [Hc Hok].
  assert (0 < llen c). { pose proof (llen_nonneg c). destruct (decide (llen c = 0)) as [E0|]; [by apply llen_0 in E0|lia]. }
  cbn [reader_of fmap list_fmap file_read]. pose proof llen_data_max. destruct (Z.leb_spec (llen c) SYNC_DATA_MAX).
  - exists c, cs. by split_and!.
  - exists (ltake SYNC_DATA_MAX c), (ldrop SYNC_DATA_MAX c :: cs). split_and!; try done.
    + unfold block_sized. rewrite llen_ltake by lia. lia.
    + constructor; [|done]. intros E0. apply (f_equal llen) in E0. rewrite llen_ldrop in E0 by lia. change (llen []) with 0 in E0. lia.
    + cbn [concat]. by rewrite app_assoc, ltake_ldrop.
Qed.

Lemma blocks_bounded chunks : Forall block_sized chunks → Forall (λ d, llen d ≤ SYNC_DATA_MAX) chunks.
Proof. intros Hb. eapply Forall_impl; [exact Hb|]. by intros d []. Qed.

Section encoder.
Context {E : Encoder} {code : bytes → bytes → Prop} `{EL : !EncoderLaws E code}.

Lemma drains_facts f i o e outs r :
  drains E enc_idle code f i o e outs r →
  Forall (λ d, llen d ≤ SYNC_DATA_MAX) outs ∧
  match r with Some e' => enc_idle i (o ++ concat outs) e' | None => code i (o ++ concat outs) end.
Proof.
  induction 1 as [f i o e out e' outs r Henc Hl Hd [IH1 IH2]|i o e out e' Henc Hl Hi|i o e out e' Henc Hl Hc].
  - split; [by constructor|]. cbn [concat]. by rewrite app_assoc.
  - split; [by constructor|]. cbn. by rewrite app_nil_r.
  - split; [by constructor|]. cbn. by rewrite app_nil_r.
Qed.

(** Writing one block, unless it is empty. *)
Lemma runs_send_block l r out s :
  llen out ≤ SYNC_DATA_MAX →
  runs (if llen out =? 0 then mret true else if SYNC_DATA_MAX <? llen out then ends Undef else WriteOrDie l r (data_packet out)) s
    (λ ok s', ok = true ∧ still (with_out (sc_out s ++ packets (blocks [out])) s) s').
Proof.
  intros Hl. destruct (Z.eqb_spec (llen out) 0) as [E0|Hne].
  - apply llen_0 in E0 as ->. apply runs_ret. split; [done|]. cbn. rewrite app_nil_r. by destruct s.
  - destruct (Z.ltb_spec SYNC_DATA_MAX (llen out)); [lia|]. unfold blocks. rewrite filter_cons, decide_True by (by intros ->).
    unfold packets. cbn. rewrite app_nil_r. apply runs_WriteOrDie.
Qed.

Lemma runs_encode_loop l r f i o e outs x :
  drains E enc_idle code f i o e outs x → ∀ fuel s, (length outs ≤ fuel)%nat →
  runs (encode_loop fuel E l r e) s (λ a s',
    match x with Some e' => a = Some (true, e') | None => ∃ e', a = Some (false, e') end ∧
    still (with_out (sc_out s ++ packets (blocks outs)) s) s').
Proof.
  induction 1 as [f i o e out e' outs x Henc Hl Hd IH|i o e out e' Henc Hl Hi|i o e out e' Henc Hl Hc];
    intros [|fuel] s Hf; cbn [length] in Hf; try lia; cbn [encode_loop].
  all: eapply runs_lift; [exact Henc|]; (eapply runs_bind; [by apply runs_send_block|]); intros ok s1 [-> Hs]; cbn [negb].
  - eapply runs_weaken; [apply IH; lia|]. intros a s2 [Ha Hs2]. split; [done|]. etrans; [|exact Hs2].
    rewrite (still_out _ _ Hs). cbn [with_out sc_out].
    change (out :: outs) with ([out] ++ outs). rewrite blocks_app.
    rewrite packets_app, app_assoc. by apply (still_with_out _ _ ((sc_out s ++ packets (blocks [out])) ++ packets (blocks outs))) in Hs.
  - by apply runs_ret.
  - apply runs_ret. split; [by exists e'|done].
Qed.

Lemma runs_send_loop n l r : ∀ cs i o e,
  (length (concat cs) < n)%nat → pieces_ok cs → enc_idle i o e → llen (i ++ concat cs) < 2 ^ 40 →
  ∃ fuel0 outs, code (i ++ concat cs) (o ++ concat outs) ∧ Forall (λ d, llen d ≤ SYNC_DATA_MAX) outs ∧
    ∀ fuel s total copied, (fuel0 ≤ fuel)%nat →
    runs (send_loop fuel E l r total copied (reader_of cs) e) s
      (λ ok s', ok = true ∧ still (with_out (sc_out s ++ packets (blocks outs)) s) s').
Proof.
  induction n as [|n IH]; intros cs i o e Hn Hok Hi Hlen; [lia|].
  destruct (decide (cs = [])) as [->|Hne].
  - cbn [concat] in *. rewrite app_nil_r in *. destruct (enc_finish_ok i o e Hi Hlen) as (e' & outs & Hf & Hd).
    exists (S (length outs)), outs. destruct (drains_facts _ _ _ _ _ _ Hd) as [Ho Hc]. split_and!; [done|done|].
    intros [|fuel] s total copied Hfuel; [lia|]. cbn [send_loop]. eapply runs_bind; [apply runs_abort|]. intros ? s1 [-> Hs1]. cbn [reader_of fmap list_fmap file_read].
    change (llen [] =? 0) with true. cbv iota.
    eapply (runs_bind _ _ _ (λ a s', a = (e', copied) ∧ s' = s1)); [eapply runs_lift; [exact Hf|by apply runs_ret]|]. intros ? ? [-> ->].
    eapply runs_bind; [apply (runs_encode_loop l r _ _ _ _ _ _ Hd); lia|]. intros a s2 [[e2 ->] Hs2]. apply runs_ret. split; [done|].
    etrans; [|exact Hs2]. rewrite (still_out _ _ Hs1). by apply still_with_out.
  - destruct (file_read_chunk cs Hok Hne) as (d & cs' & Hr & Hd & Hok' & Hcat).
    assert (0 < length d)%nat by (destruct Hd; unfold llen in *; lia).
    rewrite Hcat in *. rewrite length_app in Hn. rewrite app_assoc in *.
    destruct (enc_append_ok i o e d Hi Hd) as (e' & outs1 & e2 & Ha & Hdr).
    { rewrite llen_app in Hlen. pose proof (llen_nonneg (concat cs')). lia. }
    destruct (drains_facts _ _ _ _ _ _ Hdr) as [Ho1 Hi2].
    destruct (IH cs' (i ++ d) (o ++ concat outs1) e2) as (f2 & outs2 & Hc & Ho2 & Hrun); [lia|done|done|done|].
    exists (S (Nat.max f2 (length outs1))), (outs1 ++ outs2). rewrite concat_app, app_assoc. split_and!; [done|by apply Forall_app|].
    intros [|fuel] s total copied Hfuel; [lia|]. cbn [send_loop]. eapply runs_bind; [apply runs_abort|]. intros ? s1 [-> Hs1].
    rewrite Hr. destruct (Z.eqb_spec (llen d) 0); [unfold llen in *; lia|].
    eapply (runs_bind _ _ _ (λ a s', a = (e', u64 (copied + llen d)) ∧ still s1 s')).
    { eapply runs_lift; [exact Ha|]. eapply runs_bind; [apply runs_both|]. intros ? s2 Hs2.
      eapply runs_bind; [apply runs_progress|]. intros ? s3 Hs3. apply runs_ret. split; [done|etrans; [exact Hs2|exact Hs3]]. }
    intros ? s2 [-> Hs2]. eapply runs_bind; [apply (runs_encode_loop l r _ _ _ _ _ _ Hdr); lia|]. intros ? s3 [-> Hs3].
    eapply runs_weaken; [apply Hrun; lia|]. intros ? s4 [-> Hs4]. split; [done|].
    assert (still s s2) as Hs12 by (by etrans). rewrite (still_out _ _ Hs12) in Hs3. rewrite (still_out _ _ Hs3) in Hs4. cbn [with_out sc_out] in Hs4.
    etrans; [|exact Hs4]. rewrite blocks_app, packets_app, app_assoc.
    eapply (still_with_out _ _ _) in Hs3. etrans; [|exact Hs3]. exact (still_with_out s s2 _ Hs12).
Qed.
End encoder.

Lemma runs_send_done l r mtime s :
  runs (send_done l r mtime) s (λ ok s', ok = true ∧ sc_out s' = sc_out s ++ encode (mkData ID_DONE mtime) ∧
    deferred_acknowledgements_ s' = deferred_acknowledgements_ s ++ [(l, r)] ∧ sc_in s' = sc_in s).
Proof.
  unfold send_done, RecordFileSent.
  eapply (runs_bind _ _ _ (λ _ s', ∃ s1, s' = with_acks (deferred_acknowledgements_ s1 ++ [(l, r)]) s1 ∧ still s s1)).
  { eapply runs_bind; [apply runs_both|]. intros ? s1 Hs1. apply runs_upd. by exists s1. }
  intros ? ? (s1 & -> & Hs1). eapply runs_weaken; [apply runs_WriteOrDie|]. intros ok s2 [-> [Hc Hi Ho Ha Hb Hh]]. cbn in *.
  destruct Hs1 as [_ Hi1 Ho1 Ha1 _ _]. split_and!; congruence.
Qed.

Lemma runs_ask_errno {A} (f : list sys → Z + A) s a :
  (∀ h, f h = inr a) → runs (ask_errno f) s (λ r s', r = Some a ∧ still s s').
Proof.
  intros Hf. unfold ask_errno. eapply runs_bind; [apply runs_ask|]. intros ? s1 [-> Hs1]. rewrite Hf. by apply runs_ret.
Qed.
Lemma runs_open_local l st cs s :
  (∀ h, e_stat h (c_str l) = inr st) → (∀ h, e_open h (c_str l) = inr (reader_of cs)) →
  runs (open_local l) s (λ r s', r = Some (u64 (st_size st), reader_of cs) ∧ still s s').
Proof.
  intros Hst Hop. unfold open_local. eapply runs_bind; [by apply (runs_ask_errno _ _ st)|]. intros ? s1 [-> Hs1].
  eapply runs_bind; [by apply (runs_ask_errno _ _ (reader_of cs))|]. intros ? s2 [-> Hs2]. apply runs_ret. split; [done|by etrans].
Qed.

Lemma runs_SendRequest rid path s :
  llen path ≤ 1024 →
  runs (SendRequest rid path) s (λ ok s', ok = true ∧ still (with_out (sc_out s ++ encode (mkRequest rid (llen path)) ++ path) s) s').
Proof. intros Hp. unfold SendRequest. destruct (Z.ltb_spec 1024 (llen path)); [lia|]. apply runs_write_exactly. Qed.

(** The request of the second version of the protocol. *)
Definition send2_request (path : bytes) (mode flags : Z) : bytes :=
  encode (mkRequest ID_SEND_V2 (llen path)) ++ path ++ encode (mkSend2 ID_SEND_V2 mode flags).

Lemma runs_SendLargeFile {E : Encoder} {code : bytes → bytes → Prop} `{!EncoderLaws E code}
    path mode l r mtime compression st cs s :
  have_sendrecv_v2_ (sc_caps s) = true → encoder_for (ResolveCompressionType (sc_caps s) compression) = Ok E →
  llen path ≤ 1024 → (∀ h, e_stat h (c_str l) = inr st) → (∀ h, e_open h (c_str l) = inr (reader_of cs)) →
  pieces_ok cs → llen (concat cs) < 2 ^ 40 →
  ∃ fuel0 chunks flags, code (concat cs) (concat chunks) ∧ Forall block_sized chunks ∧
    ∀ fuel, (fuel0 ≤ fuel)%nat →
    runs (SendLargeFile fuel path mode l r mtime compression false) s (λ ok s', ok = true ∧
      sc_out s' = sc_out s ++ send2_request path mode flags ++ file_stream chunks mtime ∧
      deferred_acknowledgements_ s' = deferred_acknowledgements_ s ++ [(l, r)] ∧ sc_in s' = sc_in s).
Proof.
  intros Hv2 HE Hp Hst Hop Hok Hlen. destruct enc_new_ok as (e & Hnew & Hidle).
  assert (∃ flags, compression_flag (ResolveCompressionType (sc_caps s) compression) = Ok flags) as [flags Hfl]
    by (destruct (ResolveCompressionType (sc_caps s) compression); try done; eauto).
  destruct (runs_send_loop (S (length (concat cs))) l r cs [] [] e) as (f0 & outs & Hc & Ho & Hrun); [lia|done|done|done|].
  exists f0, (blocks outs), flags. rewrite blocks_concat. split_and!; [done|by apply blocks_sized|]. intros fuel Hf.
  unfold SendLargeFile. apply runs_geti. cbn [andb]. rewrite Hv2. cbn [negb].
  eapply (runs_bind _ _ _ (λ ok s', ok = true ∧ still (with_out (sc_out s ++ send2_request path mode flags) s) s')).
  { unfold SendSend2. destruct (Z.ltb_spec 1024 (llen path)); [lia|]. eapply runs_lift; [exact Hfl|]. apply runs_write_exactly. }
  intros ? s1 [-> Hs1]. cbn [negb]. eapply runs_bind; [by apply (runs_open_local l st cs)|]. intros ? s2 [-> Hs2].
  eapply runs_lift; [exact HE|]. eapply runs_lift; [exact Hnew|]. eapply runs_bind; [by apply Hrun|]. intros ? s3 [-> Hs3].
  eapply runs_weaken; [apply runs_send_done|]. intros ok s4 (-> & Ho4 & Ha4 & Hi4). split; [done|].
  destruct Hs1 as [_ Hi1 Ho1 Ha1 _ _], Hs2 as [_ Hi2 Ho2 Ha2 _ _], Hs3 as [_ Hi3 Ho3 Ha3 _ _]. cbn [with_out sc_in sc_out deferred_acknowledgements_] in *.
  rewrite Ho4, Ho3, Ho2, Ho1, Ha4, Ha3, Ha2, Ha1, Hi4, Hi3, Hi2, Hi1. unfold file_stream. split_and!; [by rewrite <- !app_assoc|done..].
Qed.

(** The same without version 2: the blocks are the pieces of the file. *)
Lemma runs_legacy_loop n l r : ∀ cs,
  (length (concat cs) < n)%nat → pieces_ok cs →
  ∃ fuel0 chunks, concat chunks = concat cs ∧ Forall block_sized chunks ∧
    ∀ fuel s total copied, (fuel0 ≤ fuel)%nat →
    runs (legacy_send_loop fuel l r total copied (reader_of cs)) s
      (λ ok s', ok = true ∧ still (with_out (sc_out s ++ packets chunks) s) s').
Proof.
  induction n as [|n IH]; intros cs Hn Hok; [lia|]. destruct (decide (cs = [])) as [->|Hne].
  - exists 1%nat, []. split_and!; [done|done|]. intros [|fuel] s total copied Hf; [lia|]. cbn [legacy_send_loop].
    eapply runs_bind; [apply runs_abort|]. intros ? s1 [-> Hs1]. apply runs_ret. split; [done|]. cbn. rewrite app_nil_r. by destruct s.
  - destruct (file_read_chunk cs Hok Hne) as (d & cs' & Hr & Hd & Hok' & Hcat).
    assert (0 < length d)%nat by (destruct Hd; unfold llen in *; lia). rewrite Hcat in *. rewrite length_app in Hn.
    destruct (IH cs') as (f2 & chunks & Hc & Hb & Hrun); [lia|done|].
    exists (S f2), (d :: chunks). cbn [concat]. rewrite Hc. split_and!; [done|by constructor|].
    intros [|fuel] s total copied Hf; [lia|]. cbn [legacy_send_loop]. eapply runs_bind; [apply runs_abort|]. intros ? s1 [-> Hs1].
    change max with SYNC_DATA_MAX. rewrite Hr. destruct (Z.eqb_spec (llen d) 0); [unfold llen in *; lia|].
    eapply runs_bind; [apply runs_WriteOrDie|]. intros ? s2 [-> Hs2]. cbn [negb]. rewrite (still_out _ _ Hs1) in Hs2.
    eapply runs_bind; [apply runs_both|]. intros ? s3 Hs3. eapply runs_bind; [apply runs_progress|]. intros ? s4 Hs4.
    eapply runs_weaken; [apply Hrun; lia|]. intros ? s5 [-> Hs5]. split; [done|].
    assert (still s2 s4) as Hs24 by (etrans; [exact Hs3|exact Hs4]).
    rewrite (still_out _ _ Hs24), (still_out _ _ Hs2) in Hs5. cbn [with_out sc_out] in Hs5.
    etrans; [|exact Hs5]. change (packets (d :: chunks)) with (data_packet d ++ packets chunks). rewrite app_assoc.
    etrans; [|exact (still_with_out _ _ _ Hs24)]. etrans; [|exact (still_with_out _ _ _ Hs2)]. exact (still_with_out _ _ _ Hs1).
Qed.

Lemma runs_SendLargeFileLegacy path mode l r mtime st cs s :
  llen (path_and_mode path mode) ≤ 1024 →
  (∀ h, e_stat h (c_str l) = inr st) → (∀ h, e_open h (c_str l) = inr (reader_of cs)) → pieces_ok cs →
  ∃ fuel0 chunks, concat chunks = concat cs ∧ Forall block_sized chunks ∧
    ∀ fuel, (fuel0 ≤ fuel)%nat →
    runs (SendLargeFileLegacy fuel path mode l r mtime) s (λ ok s', ok = true ∧
      sc_out s' = sc_out s ++ (encode (mkRequest ID_SEND_V1 (llen (path_and_mode path mode))) ++ path_and_mode path mode) ++
        file_stream chunks mtime ∧
      deferred_acknowledgements_ s' = deferred_acknowledgements_ s ++ [(l, r)] ∧ sc_in s' = sc_in s).
Proof.
  intros Hp Hst Hop Hok. destruct (runs_legacy_loop (S (length (concat cs))) l r cs) as (f0 & chunks & Hc & Hb & Hrun); [lia|done|].
  exists f0, chunks. split_and!; [done|done|]. intros fuel Hf. unfold SendLargeFileLegacy.
  eapply runs_bind; [by apply runs_SendRequest|]. intros ? s1 [-> Hs1]. cbn [negb].
  eapply runs_bind; [by apply (runs_open_local l st cs)|]. intros ? s2 [-> Hs2].
  eapply runs_bind; [by apply Hrun|]. intros ? s3 [-> Hs3].
  eapply runs_weaken; [apply runs_send_done|]. intros ok s4 (-> & Ho4 & Ha4 & Hi4). split; [done|].
  destruct Hs1 as [_ Hi1 Ho1 Ha1 _ _], Hs2 as [_ Hi2 Ho2 Ha2 _ _], Hs3 as [_ Hi3 Ho3 Ha3 _ _]. cbn [with_out sc_in sc_out deferred_acknowledgements_] in *.
  rewrite Ho4, Ho3, Ho2, Ho1, Ha4, Ha3, Ha2, Ha1, Hi4, Hi3, Hi2, Hi1. unfold file_stream. split_and!; [by rewrite <- !app_assoc|done..].
Qed.

(** ** Receiving *)

Section receive.
Context (p : bytes) (before : option bytes).
(** So far [w] has been written, and [l] is what the device has still to say. *)
Definition receiving (w l : bytes) (s : sync) : Prop :=
  file_after p before (sc_hist s) = Some w ∧ pieces_ok (sc_in s) ∧ concat (sc_in s) = l.

Lemma receiving_still w l s s' : receiving w l s → still s s' → receiving w l s'.
Proof. intros (Hw & Hp & Hl) [_ Hi _ _ _ Hh]. unfold receiving. rewrite (file_after_quiet _ _ _ _ Hh), Hi. done. Qed.

Lemma runs_write_file w l d s :
  receiving w l s → runs (write_file p d) s (λ ok s', ok = true ∧ receiving (w ++ d) l s').
Proof.
  intros (Hw & Hp & Hl). unfold write_file. apply runs_geti. rewrite writes_ok.
  eapply (runs_bind _ _ _ (λ _ s', s' = with_hist (sc_hist s ++ [SWrite p d true]) s)); [by apply runs_upd|].
  intros ? ? ->. apply runs_ret. split; [done|]. unfold receiving. cbn [with_hist sc_hist sc_in]. rewrite file_after_snoc, Hw. cbn.
  by rewrite bool_decide_eq_true_2.
Qed.
Lemma runs_creat l s :
  pieces_ok (sc_in s) → concat (sc_in s) = l → runs (creat p) s (λ ok s', ok = true ∧ receiving [] l s').
Proof.
  intros Hp Hl. unfold creat. apply runs_geti. rewrite creates_ok.
  eapply (runs_bind _ _ _ (λ _ s', s' = with_hist (sc_hist s ++ [SCreat p true]) s)); [by apply runs_upd|].
  intros ? ? ->. apply runs_ret. split; [done|]. unfold receiving. cbn [with_hist sc_hist sc_in]. rewrite file_after_snoc. cbn.
  by rewrite bool_decide_eq_true_2.
Qed.

Lemma receiving_struct {A} `{Wire A} (a : A) w l s :
  receiving w (encode a ++ l) s → wire_ok a → runs (read_struct A) s (λ x s', x = Some a ∧ receiving w l s').
Proof.
  intros (Hw & Hp & Hl) Ha. eapply runs_weaken; [by apply (runs_read_struct a l)|].
  intros x s' (-> & ps & Hc & Hpk & Hs). split; [done|]. eapply receiving_still; [|exact Hs]. by split_and!.
Qed.
Lemma receiving_bytes d w l s :
  receiving w (d ++ l) s → runs (read_exactly (llen d)) s (λ x s', x = Some d ∧ receiving w l s').
Proof.
  intros (Hw & Hp & Hl). pose proof (llen_nonneg d). pose proof (llen_nonneg l).
  eapply runs_weaken; [apply runs_read_exactly; [done|rewrite Hl, llen_app; lia]|].
  rewrite Hl, ltake_app_le, ldrop_app_le, ltake_ge, llen_ldrop_ge by lia.
  intros x s' (-> & ps & Hc & Hpk & Hs). split; [done|]. eapply receiving_still; [|exact Hs]. by split_and!.
Qed.

Lemma data_ok (d : bytes) : llen d ≤ SYNC_DATA_MAX → wire_ok (mkData ID_DATA (llen d)).
Proof. intros Hd. rewrite llen_data_max in Hd. pose proof (llen_nonneg d). repeat constructor; cbn; try done; lia. Qed.
Lemma done_ok mtime : 0 ≤ mtime < 2 ^ 32 → wire_ok (mkData ID_DONE mtime).
Proof. intros. repeat constructor; cbn; done || lia. Qed.

Lemma runs_recv_v1_loop r n esz mtime rest chunks : ∀ fuel w copied s,
  (length chunks < fuel)%nat → Forall (λ d, llen d ≤ SYNC_DATA_MAX) chunks → 0 ≤ mtime < 2 ^ 32 →
  receiving w (file_stream chunks mtime ++ rest) s →
  runs (recv_v1_loop fuel r p n esz copied) s (λ ok s', ok = true ∧ receiving (w ++ concat chunks) rest s').
Proof.
  induction chunks as [|d chunks IH]; intros [|fuel] w copied s Hf Hb Hm Hs; cbn [length] in Hf; try lia; cbn [recv_v1_loop].
  all: eapply runs_bind; [apply runs_abort|]; intros ? s1 [-> Hs1]; eapply receiving_still in Hs; [|exact Hs1].
  - eapply runs_bind; [apply receiving_struct; [exact Hs|by apply done_ok]|]. intros ? s2 [-> Hs2]. apply runs_ret.
    split; [done|]. cbn. by rewrite app_nil_r.
  - apply Forall_cons in Hb as [Hd Hb]. unfold file_stream, packets in Hs. cbn [fmap list_fmap concat] in Hs.
    unfold data_packet at 1 in Hs. rewrite <- !app_assoc in Hs.
    eapply runs_bind; [apply receiving_struct; [exact Hs|by apply data_ok]|]. intros ? s2 [-> Hs2]. cbn [dt_id dt_size].
    change (ID_DATA =? ID_DONE) with false. change (ID_DATA =? ID_DATA) with true. cbn [negb].
    destruct (Z.ltb_spec max (llen d)); [unfold max in *; lia|].
    eapply runs_bind; [by apply receiving_bytes|]. intros ? s3 [-> Hs3].
    eapply runs_bind; [apply runs_wire|]. intros ? s4 Hs4. eapply receiving_still in Hs3; [|exact Hs4].
    eapply runs_bind; [by eapply runs_write_file|]. intros ? s5 [-> Hs5]. cbn [negb].
    eapply runs_bind; [apply runs_both|]. intros ? s6 Hs6. eapply receiving_still in Hs5; [|exact Hs6].
    eapply runs_bind; [apply runs_progress|]. intros ? s7 Hs7. eapply receiving_still in Hs5; [|exact Hs7].
    eapply runs_weaken; [apply IH; [lia|done|done|]|].
    { unfold file_stream. rewrite <- app_assoc. exact Hs5. }
    intros ? s8 [-> Hs8]. split; [done|]. cbn [concat]. by rewrite app_assoc.
Qed.

Section decoder.
Context {D : Decoder} {code : bytes → bytes → Prop} `{DL : !DecoderLaws D code}.

Lemma ddrains_idle f i o d outs x :
  ddrains D dec_idle f i o d outs x → match x with Some d' => dec_idle i (o ++ concat outs) d' | None => True end.
Proof.
  induction 1 as [f i o d out d' outs x Hdec Hd IH|i o d out d' Hdec Hi|]; [|cbn; by rewrite app_nil_r|done].
  destruct x; [|done]. cbn [concat]. by rewrite app_assoc.
Qed.

Lemma runs_decode_loop n esz f i o d outs x :
  ddrains D dec_idle f i o d outs x → ∀ fuel w l copied s, (length outs ≤ fuel)%nat → receiving w l s →
  runs (decode_loop fuel D p n esz copied d) s (λ a s',
    match x with Some d' => ∃ c', a = inr (d', c') | None => a = inl true end ∧ receiving (w ++ concat outs) l s').
Proof.
  induction 1 as [f i o d out d' outs x Hdec Hd IH|i o d out d' Hdec Hi|i o d out d' Hdec];
    intros [|fuel] w l copied s Hf Hs; cbn [length] in Hf; try lia; cbn [decode_loop].
  all: eapply runs_lift; [exact Hdec|];
    (eapply (runs_bind _ _ _ (λ ok s', ok = true ∧ receiving (w ++ out) l s'));
      [destruct (Z.eqb_spec (llen out) 0) as [E0|]; [apply llen_0 in E0 as ->; rewrite app_nil_r; by apply runs_ret|by apply runs_write_file]|]);
    intros ? s1 [-> Hs1]; cbn [negb]; (eapply runs_bind; [apply runs_both|]); intros ? s2 Hs2; eapply receiving_still in Hs1; [|exact Hs2];
    (eapply runs_bind; [apply runs_progress|]); intros ? s3 Hs3; eapply receiving_still in Hs1; [|exact Hs3].
  - eapply runs_weaken; [apply IH; [lia|exact Hs1]|]. intros y s4 [Hy Hs4]. split; [done|]. cbn [concat]. by rewrite app_assoc.
  - apply runs_ret. split; [eauto|]. cbn. by rewrite app_nil_r.
  - eapply runs_bind; [apply runs_both|]. intros ? s4 Hs4. eapply receiving_still in Hs1; [|exact Hs4]. apply runs_ret.
    split; [done|]. cbn. by rewrite app_nil_r.
Qed.

Lemma runs_recv_v2_loop r n esz mtime rest x c : code x c → 0 ≤ mtime < 2 ^ 32 → ∀ chunks i o d,
  Forall (λ d, llen d ≤ SYNC_DATA_MAX) chunks → c = i ++ concat chunks → dec_idle i o d →
  ∃ fuel0, ∀ fuel copied s, (fuel0 ≤ fuel)%nat → receiving o (file_stream chunks mtime ++ rest) s →
    runs (recv_v2_loop fuel D r p n esz copied d) s (λ ok s', ok = true ∧ receiving x rest s').
Proof.
  intros Hcode Hm chunks. induction chunks as [|b chunks IH]; intros i o d Hb Hc Hi.
  - cbn [concat] in Hc. rewrite app_nil_r in Hc. subst i. destruct (dec_finish_ok x c o d Hcode Hi) as (d' & outs & Hfin & Hdr & Hx).
    exists (S (length outs)). intros [|fuel] copied s Hf Hs; [lia|]. cbn [recv_v2_loop].
    eapply (runs_bind _ _ _ (λ a s', a = Some d' ∧ receiving o rest s')).
    { unfold recv_v2_message. eapply runs_bind; [apply runs_abort|]. intros ? s1 [-> Hs1]. eapply receiving_still in Hs; [|exact Hs1].
      eapply runs_bind; [apply receiving_struct; [exact Hs|by apply done_ok]|]. intros ? s2 [-> Hs2]. cbn [dt_id]. rewrite Z.eqb_refl.
      eapply runs_lift; [exact Hfin|]. by apply runs_ret. }
    intros ? s1 [-> Hs1]. eapply runs_bind; [apply (runs_decode_loop n esz _ _ _ _ _ _ Hdr fuel o rest); [lia|done]|].
    intros ? s2 [-> Hs2]. apply runs_ret. split; [done|]. by rewrite Hx in Hs2.
  - apply Forall_cons in Hb as [Hd Hb]. cbn [concat] in Hc.
    destruct (dec_append_ok x c i b (concat chunks) o d Hcode Hc Hi) as (d' & outs & d2 & Happ & Hdr); [exact Hd|].
    pose proof (ddrains_idle _ _ _ _ _ _ Hdr) as Hi2. cbn beta iota in Hi2.
    destruct (IH (i ++ b) (o ++ concat outs) d2) as [f2 Hrun]; [done|by rewrite <- app_assoc|done|].
    exists (S (Nat.max f2 (length outs))). intros [|fuel] copied s Hf Hs; [lia|]. cbn [recv_v2_loop].
    eapply (runs_bind _ _ _ (λ a s', a = Some d' ∧ receiving o (file_stream chunks mtime ++ rest) s')).
    { unfold recv_v2_message. eapply runs_bind; [apply runs_abort|]. intros ? s1 [-> Hs1]. eapply receiving_still in Hs; [|exact Hs1].
      unfold file_stream, packets in Hs. cbn [fmap list_fmap concat] in Hs. unfold data_packet at 1 in Hs. rewrite <- !app_assoc in Hs.
      eapply runs_bind; [apply receiving_struct; [exact Hs|by apply data_ok]|]. intros ? s2 [-> Hs2]. cbn [dt_id dt_size].
      change (ID_DATA =? ID_DONE) with false. change (ID_DATA =? ID_DATA) with true. cbn [negb].
      destruct (Z.ltb_spec max (llen b)); [unfold max in *; lia|].
      eapply runs_bind; [by apply receiving_bytes|]. intros ? s3 [-> Hs3].
      eapply runs_bind; [apply runs_wire|]. intros ? s4 Hs4. eapply receiving_still in Hs3; [|exact Hs4].
      eapply runs_lift; [exact Happ|]. apply runs_ret. split; [done|]. unfold file_stream. by rewrite <- app_assoc. }
    intros ? s1 [-> Hs1]. eapply runs_bind; [apply (runs_decode_loop n esz _ _ _ _ _ _ Hdr fuel o (file_stream chunks mtime ++ rest)); [lia|done]|].
    intros ? s2 [[c' ->] Hs2]. apply Hrun; [lia|done].
Qed.
End decoder.
End receive.

Lemma runs_unlink p s : runs (unlink p) s (λ _ s', sc_caps s' = sc_caps s ∧ sc_in s' = sc_in s).
Proof. unfold unlink. apply runs_geti. by apply runs_upd. Qed.

(** The receive functions, when the device answers with the messages of a file. *)
Lemma runs_sync_recv_v2 {D : Decoder} {code : bytes → bytes → Prop} `{!DecoderLaws D code}
    rpath lpath name esz compression caps chunks mtime rest x before :
  decoder_for (ResolveCompressionType caps compression) = Ok D → llen rpath ≤ 1024 →
  code x (concat chunks) → Forall (λ d, llen d ≤ SYNC_DATA_MAX) chunks → 0 ≤ mtime < 2 ^ 32 →
  ∃ fuel0, ∀ fuel s, (fuel0 ≤ fuel)%nat → sc_caps s = caps → pieces_ok (sc_in s) → concat (sc_in s) = file_stream chunks mtime ++ rest →
    runs (sync_recv_v2 fuel rpath lpath name esz compression) s (λ ok s', ok = true ∧ receiving lpath before x rest s').
Proof.
  intros HD Hr Hcode Hb Hm. destruct dec_new_ok as (d & Hnew & Hidle).
  destruct (runs_recv_v2_loop lpath before rpath (default rpath name) esz mtime rest x (concat chunks) Hcode Hm chunks [] [] d)
    as [f0 Hrun]; [done..|]. exists f0. intros fuel s Hf <- Hp Hc.
  assert (∃ flags, compression_flag (ResolveCompressionType (sc_caps s) compression) = Ok flags) as [flags Hfl]
    by (destruct (ResolveCompressionType (sc_caps s) compression); try done; eauto).
  unfold sync_recv_v2. apply runs_geti. eapply runs_bind.
  { unfold SendRecv2. destruct (Z.ltb_spec 1024 (llen rpath)); [lia|]. eapply runs_lift; [exact Hfl|]. apply runs_write_exactly. }
  intros ? s1 [-> Hs1]. cbn [negb]. eapply runs_bind; [apply runs_unlink|]. intros ? s2 [_ Hi2].
  assert (sc_in s2 = sc_in s) as Hi by (rewrite Hi2, (still_in _ _ Hs1); done).
  eapply runs_bind; [apply (runs_creat lpath before (file_stream chunks mtime ++ rest)); by rewrite Hi|].
  intros ? s3 [-> Hs3]. cbn [negb]. eapply runs_lift; [exact HD|]. eapply runs_lift; [exact Hnew|]. by apply Hrun.
Qed.

Lemma runs_sync_recv_v1 rpath lpath name esz fuel s chunks mtime rest before :
  llen rpath ≤ 1024 → Forall (λ d, llen d ≤ SYNC_DATA_MAX) chunks → 0 ≤ mtime < 2 ^ 32 → (length chunks < fuel)%nat →
  pieces_ok (sc_in s) → concat (sc_in s) = file_stream chunks mtime ++ rest →
  runs (sync_recv_v1 fuel rpath lpath name esz) s (λ ok s', ok = true ∧ receiving lpath before (concat chunks) rest s').
Proof.
  intros Hr Hb Hm Hf Hp Hc. unfold sync_recv_v1. eapply runs_bind; [by apply runs_SendRequest|].
  intros ? s1 [-> Hs1]. cbn [negb]. eapply runs_bind; [apply runs_unlink|]. intros ? s2 [_ Hi2].
  assert (sc_in s2 = sc_in s) as Hi by (rewrite Hi2, (still_in _ _ Hs1); done).
  eapply runs_bind; [apply (runs_creat lpath before (file_stream chunks mtime ++ rest)); by rewrite Hi|].
  intros ? s3 [-> Hs3]. cbn [negb]. eapply runs_bind; [by apply (runs_recv_v1_loop lpath before _ _ _ mtime rest chunks)|].
  intros ? s4 [-> Hs4]. eapply runs_bind; [apply runs_both|]. intros ? s5 Hs5. apply runs_ret. split; [done|].
  by eapply receiving_still; [|exact Hs5].
Qed.

(** C23. Sending a file and receiving it give the file back.  When nothing fails,
    [SendLargeFile] succeeds and puts on the wire the request followed by a stream of
    messages, none larger than a block; and a receiver that gets this stream, in whatever
    pieces, returns success with exactly the file's bytes in the local file and nothing else
    of the input consumed.  This holds for every encoder and decoder that satisfy the laws
    for one encoding, at every size of the file below 1 TiB and every way of reading it. *)
Theorem large_file_roundtrip {E D code} `{!EncoderLaws E code} `{!DecoderLaws D code}
    compression path mode lpath rpath mtime st file s :
  have_sendrecv_v2_ (sc_caps s) = true →
  encoder_for (ResolveCompressionType (sc_caps s) compression) = Ok E →
  decoder_for (ResolveCompressionType (sc_caps s) compression) = Ok D →
  llen path ≤ 1024 → 0 ≤ mtime < 2 ^ 32 →
  (∀ h, e_stat h (c_str lpath) = inr st) → (∀ h, e_open h (c_str lpath) = inr (reader_of file)) →
  pieces_ok file → llen (concat file) < 2 ^ 40 →
  ∃ fuel0 flags stream, ∀ fuel, (fuel0 ≤ fuel)%nat →
    (∃ s', SendLargeFile fuel path mode lpath rpath mtime compression false s = Ok (true, s') ∧
       sc_out s' = sc_out s ++ send2_request path mode flags ++ stream ∧
       deferred_acknowledgements_ s' = deferred_acknowledgements_ s ++ [(lpath, rpath)]) ∧
    ∀ t copy before rest, sc_caps t = sc_caps s → pieces_ok (sc_in t) → concat (sc_in t) = stream ++ rest →
      ∃ fuel1, ∀ fuel', (fuel1 ≤ fuel')%nat → ∃ t', sync_recv_v2 fuel' path copy None 0 compression t = Ok (true, t') ∧
        file_after copy before (sc_hist t') = Some (concat file) ∧ concat (sc_in t') = rest.
Proof.
  intros Hv2 HE HD Hp Hm Hst Hop Hok Hlen.
  destruct (runs_SendLargeFile path mode lpath rpath mtime compression st file s) as (f0 & chunks & flags & Hc & Hb & Hrun); [done..|].
  exists f0, flags, (file_stream chunks mtime). intros fuel Hf. split.
  - destruct (Hrun fuel Hf) as (ok & s' & Hs & -> & Ho & Ha & _). by exists s'.
  - intros t copy before rest Ht Hpt Hct.
    destruct (runs_sync_recv_v2 path copy None 0 compression (sc_caps s) chunks mtime rest (concat file) before) as [f1 Hrecv]; [done..|by apply blocks_bounded|done|].
    exists f1. intros fuel' Hf'. destruct (Hrecv fuel' t Hf' Ht Hpt Hct) as (ok & t' & Hr & -> & Hw & _ & Hrest). by exists t'.
Qed.

(** The same for the first version of the protocol: [SendLargeFileLegacy] and
    [sync_recv_v1] are inverse to each other. *)
Theorem legacy_file_roundtrip path mode lpath rpath mtime st file s :
  llen (path_and_mode path mode) ≤ 1024 → llen path ≤ 1024 → 0 ≤ mtime < 2 ^ 32 →
  (∀ h, e_stat h (c_str lpath) = inr st) → (∀ h, e_open h (c_str lpath) = inr (reader_of file)) → pieces_ok file →
  ∃ fuel0 stream, ∀ fuel, (fuel0 ≤ fuel)%nat →
    (∃ s', SendLargeFileLegacy fuel path mode lpath rpath mtime s = Ok (true, s') ∧
       sc_out s' = sc_out s ++ (encode (mkRequest ID_SEND_V1 (llen (path_and_mode path mode))) ++ path_and_mode path mode) ++ stream) ∧
    ∀ t copy before rest, pieces_ok (sc_in t) → concat (sc_in t) = stream ++ rest →
      ∃ t', sync_recv_v1 fuel path copy None 0 t = Ok (true, t') ∧
        file_after copy before (sc_hist t') = Some (concat file) ∧ concat (sc_in t') = rest.
Proof.
  intros Hpm Hp Hm Hst Hop Hok.
  destruct (runs_SendLargeFileLegacy path mode lpath rpath mtime st file s) as (f0 & chunks & Hc & Hb & Hrun); [done..|].
  exists (Nat.max f0 (S (length chunks))), (file_stream chunks mtime). intros fuel Hf. split.
  - destruct (Hrun fuel ltac:(lia)) as (ok & s' & Hs & -> & Ho & _). by exists s'.
  - intros t copy before rest Hpt Hct.
    destruct (runs_sync_recv_v1 path copy None 0 fuel t chunks mtime rest before) as (ok & t' & Hr & -> & Hw & _ & Hrest); [done|by apply blocks_bounded|done|lia|done|done|].
    exists t'. by rewrite <- Hc.
Qed.

(** A small file goes out with a single write: the request, one block and the end.  The
    receiver turns the block and the end back into the file; an empty file is an empty
    block. *)
Theorem small_file_roundtrip path mode lpath rpath mtime data fuel s :
  llen (path_and_mode path mode) ≤ 1024 → llen path ≤ 1024 → 0 ≤ mtime < 2 ^ 32 → llen data ≤ SYNC_DATA_MAX → (1 < fuel)%nat →
  ∃ stream,
    (∃ s', SendSmallFile fuel path mode lpath rpath mtime data false s = Ok (true, s') ∧
       sc_out s' = sc_out s ++ (encode (mkRequest ID_SEND_V1 (llen (path_and_mode path mode))) ++ path_and_mode path mode) ++ stream ∧
       deferred_acknowledgements_ s' = deferred_acknowledgements_ s ++ [(lpath, rpath)]) ∧
    ∀ t copy before rest, pieces_ok (sc_in t) → concat (sc_in t) = stream ++ rest →
      ∃ t', sync_recv_v1 fuel path copy None 0 t = Ok (true, t') ∧
        file_after copy before (sc_hist t') = Some data ∧ concat (sc_in t') = rest.
Proof.
  intros Hpm Hp Hm Hd Hf. exists (file_stream [data] mtime). pose proof (llen_nonneg data). rewrite llen_data_max in Hd. split.
  - enough (runs (SendSmallFile fuel path mode lpath rpath mtime data false) s (λ ok s', ok = true ∧
       sc_out s' = sc_out s ++ small_file (path_and_mode path mode) data mtime ∧
       deferred_acknowledgements_ s' = deferred_acknowledgements_ s ++ [(lpath, rpath)])) as (ok & s' & Hr & -> & Ho & Ha).
    { exists s'. split_and!; [done| |done]. rewrite Ho. unfold small_file, file_stream, packets. cbn [fmap list_fmap concat].
      rewrite u32_small, app_nil_r by lia. unfold data_packet. by rewrite <- !app_assoc. }
    unfold SendSmallFile. cbv iota zeta. destruct (Z.ltb_spec 1024 (llen (path_and_mode path mode))); [lia|].
    eapply runs_bind; [apply runs_WriteOrDie|]. intros ? s1 [-> Hs1]. cbn [negb].
    eapply (runs_bind _ _ _ (λ _ s', sc_out s' = sc_out s1 ∧ deferred_acknowledgements_ s' = deferred_acknowledgements_ s1 ++ [(lpath, rpath)])).
    { unfold RecordFileSent. eapply runs_bind; [apply runs_both|]. intros ? s2 Hs2. apply runs_upd. cbn.
      by rewrite (still_out _ _ Hs2), (still_acks _ _ Hs2). }
    intros ? s2 [Ho2 Ha2]. eapply runs_bind; [apply runs_both|]. intros ? s3 Hs3. eapply runs_bind; [apply runs_progress|]. intros ? s4 Hs4.
    apply runs_ret. split; [done|]. rewrite (still_out _ _ Hs4), (still_acks _ _ Hs4), (still_out _ _ Hs3), (still_acks _ _ Hs3), Ho2, Ha2.
    by rewrite (still_out _ _ Hs1), (still_acks _ _ Hs1).
  - intros t copy before rest Hpt Hct.
    destruct (runs_sync_recv_v1 path copy None 0 fuel t [data] mtime rest before) as (ok & t' & Hr & -> & Hw & _ & Hrest); [done| |done|cbn; lia|done|done|].
    { constructor; [rewrite llen_data_max; lia|done]. }
    cbn in Hw. rewrite app_nil_r in Hw. by exists t'.
Qed.

(** A file that is sent with LZ4 arrives as an LZ4 frame for exactly its bytes, in blocks
    that are neither empty nor larger than [SYNC_DATA_MAX], followed by the end with the
    time; the encoder's buffering loses, repeats and reorders nothing, and the call ends. *)
Theorem lz4_file_sent {lz4_frame} `{!LZ4FLaws lz4_frame} path mode lpath rpath mtime compression st file s :
  have_sendrecv_v2_ (sc_caps s) = true → ResolveCompressionType (sc_caps s) compression = CLZ4 →
  llen path ≤ 1024 → (∀ h, e_stat h (c_str lpath) = inr st) → (∀ h, e_open h (c_str lpath) = inr (reader_of file)) →
  pieces_ok file → llen (concat file) < 2 ^ 40 →
  ∃ fuel0 chunks, lz4_frame (concat file) (concat chunks) ∧ Forall block_sized chunks ∧
    ∀ fuel, (fuel0 ≤ fuel)%nat →
    ∃ s' flags, SendLargeFile fuel path mode lpath rpath mtime compression false s = Ok (true, s') ∧
      sc_out s' = sc_out s ++ send2_request path mode flags ++ file_stream chunks mtime.
Proof.
  intros Hv2 Hc Hp Hst Hop Hok Hlen.
  destruct (runs_SendLargeFile (E := LZ4Encoder) path mode lpath rpath mtime compression st file s) as (f0 & chunks & flags & Hfr & Hb & Hrun);
    [done|by rewrite Hc|done..|].
  exists f0, chunks. split_and!; [done|done|]. intros fuel Hf. destruct (Hrun fuel Hf) as (ok & s' & E & -> & Ho & _). by exists s', flags.
Qed.
End undisturbed.
