(* ===== verification/SyncAcks.v ===== *)
(** * The sync client: acknowledgements

    The device answers each file that was sent with [ID_OKAY], or with [ID_FAIL] and a
    reason.  [ReadAcknowledgements] matches the answers with the queue of files while it
    avoids to block, so that an answer may be read in several calls.  [ack_ref] is what it is
    meant to compute, on the whole input at once. *)

From S2P Require Import Prelude Types Strings Transport World Io Paths SyncWire Codec Sync.

(** ** Reference *)

(** A part of an answer that was read before. *)
Definition partial_ack (buf : bytes) : Prop :=
  llen buf ≤ sizeof sync_status ∨
  ∃ hdr, decode buf = Some hdr ∧ st_id hdr = ID_FAIL ∧ msglen hdr ≤ SYNC_DATA_MAX ∧ llen buf ≤ sizeof sync_status + msglen hdr.

Definition no_response : bytes := txt "failed to read copy response".
Definition copy_failed (from to msg : bytes) : bytes :=
  txt "failed to copy " ++ quote from ++ txt " to " ++ quote to ++ txt ": remote " ++ c_str msg.

(** The result, the files that are still open, and the message, for the answers in [l]. *)
Fixpoint ack_ref (acks : list (bytes * bytes)) (l : bytes) : bool * list (bytes * bytes) * option bytes :=
  match acks with
  | [] => (true, [], None)
  | (from, to) :: acks' =>
      match decode l : option sync_status with
      | None => (false, acks, Some no_response)
      | Some hdr =>
          let rest := ldrop (sizeof sync_status) l in
          if st_id hdr =? ID_OKAY then
            if msglen hdr =? 0 then ack_ref acks' rest
            else (false, acks, Some (txt "received ID_OKAY with msg_len (" ++ dec (msglen hdr) ++ txt " != 0"))
          else if negb (st_id hdr =? ID_FAIL) then
            (false, acks, Some (txt "unexpected response from daemon: id = " ++ fmt_x (st_id hdr)))
          else if SYNC_DATA_MAX <? msglen hdr then
            (false, acks, Some (txt "too-long message length from daemon: msglen = " ++ dec (msglen hdr)))
          else if llen rest <? msglen hdr then (false, acks, Some no_response)
          else (false, acks', Some (copy_failed from to (ltake (msglen hdr) rest)))
      end
  end.

(** ** Reading *)

Lemma decode_status_short l : llen l < 8 → (decode l : option sync_status) = None.
Proof. intros Hl. do 8 (destruct l as [|? l]; [done|]). unfold llen in Hl. cbn [length] in Hl. lia. Qed.
Lemma decode_status_some l : 8 ≤ llen l → ∃ hdr, decode l = Some hdr ∧ ∀ k, decode (ltake 8 l ++ k) = Some hdr.
Proof.
  intros Hl. do 8 (destruct l as [|? l]; [unfold llen in Hl; cbn [length] in Hl; lia|]). by eexists.
Qed.
Lemma decode_status_msglen l (hdr : sync_status) : decode l = Some hdr → 0 ≤ msglen hdr < 2 ^ 32.
Proof.
  intros E. destruct (decide (llen l < 8)); [by rewrite decode_status_short in E|].
  do 4 (destruct l as [|? l]; [unfold llen in *; cbn [length] in *; lia|]).
  destruct l as [|c0 [|c1 [|c2 [|c3 l]]]]; [unfold llen in *; cbn [length] in *; lia..|].
  injection E as <-. exact (of_le32_range [c0; c1; c2; c3] _ eq_refl).
Qed.
Lemma sizeof_status : sizeof sync_status = 8.
Proof. done. Qed.

Section acks.
Context `{SyncEnv}.

Lemma read_block_ok fuel n : ∀ s,
  pieces_ok (sc_in s) → llen (acknowledgement_buffer_ s) ≤ n ≤ llen (acknowledgement_buffer_ s ++ concat (sc_in s)) →
  (Z.to_nat (n - llen (acknowledgement_buffer_ s)) < fuel)%nat →
  ∃ ps, read_until_amount fuel true n s =
      Ok (ReadSuccess, with_buf (ltake n (acknowledgement_buffer_ s ++ concat (sc_in s))) (with_in ps s)) ∧
    pieces_ok ps ∧ concat ps = ldrop n (acknowledgement_buffer_ s ++ concat (sc_in s)).
Proof.
  induction fuel as [|fuel IH]; intros s Hp Hn Hf; [lia|]. cbn [read_until_amount].
  unfold mbind, SM_bind, geti. destruct (Z.leb_spec n (llen (acknowledgement_buffer_ s))) as [Hle|Hgt].
  { exists (sc_in s). assert (n = llen (acknowledgement_buffer_ s)) as -> by lia.
    rewrite ltake_app_le, ltake_ge, ldrop_app_le, llen_ldrop_ge by lia. split_and!; [|done|done]. by destruct s. }
  unfold conn_read, mbind, SM_bind, geti, mret, SM_ret, upd. cbv iota. set (buf := acknowledgement_buffer_ s) in *.
  rewrite llen_app in Hn. destruct (sc_in s) as [|c cs] eqn:Ein; [change (llen (concat [])) with 0 in Hn; lia|].
  apply Forall_cons in Hp as [Hc Hcs]. cbn [concat] in *. rewrite llen_app in Hn.
  assert (0 < llen c). { pose proof (llen_nonneg c). destruct (decide (llen c = 0)) as [E0|]; [by apply llen_0 in E0|lia]. }
  set (k := Z.min (n - llen buf) (llen c)). pose proof (llen_nonneg buf).
  assert (ltake (n - llen buf) c = ltake k c) as ->.
  { unfold k. destruct (decide (n - llen buf ≤ llen c)); [by rewrite Z.min_l by lia|]. rewrite Z.min_r, !ltake_ge by lia. done. }
  assert (llen (ltake k c) = k) as Hk by (apply llen_ltake; lia). rewrite Hk. destruct (Z.eqb_spec k 0); [lia|]. cbn [negb andb].
  set (s1 := with_buf (buf ++ ltake k c) (with_in (if llen c <=? n - llen buf then cs else ldrop (n - llen buf) c :: cs) s)).
  assert (acknowledgement_buffer_ s1 ++ concat (sc_in s1) = buf ++ c ++ concat cs) as Hall.
  { cbn [s1 with_buf with_in acknowledgement_buffer_ sc_in]. rewrite <- app_assoc. f_equal. destruct (Z.leb_spec (llen c) (n - llen buf)).
    - by rewrite ltake_ge by lia.
    - replace k with (n - llen buf) by lia. cbn [concat]. by rewrite app_assoc, ltake_ldrop. }
  destruct (IH s1) as (ps & E & Hps & Hcat).
  - cbn [s1 with_buf with_in sc_in]. destruct (Z.leb_spec (llen c) (n - llen buf)); [done|]. constructor; [|done].
    intros E0. apply (f_equal llen) in E0. rewrite llen_ldrop in E0 by lia. change (llen []) with 0 in E0. lia.
  - rewrite Hall, !llen_app. cbn [s1 with_buf with_in acknowledgement_buffer_]. rewrite llen_app, Hk. lia.
  - cbn [s1 with_buf with_in acknowledgement_buffer_]. rewrite llen_app, Hk. lia.
  - rewrite Hall in E, Hcat. exists ps. split_and!; done.
Qed.

Lemma read_block_short fuel n : ∀ s,
  pieces_ok (sc_in s) → llen (acknowledgement_buffer_ s ++ concat (sc_in s)) < n →
  (Z.to_nat (n - llen (acknowledgement_buffer_ s)) < fuel)%nat →
  ∃ buf ps, read_until_amount fuel true n s =
      Ok (ReadFailure, with_log (sc_log s ++ [txt "adb: error: " ++ no_response]) (with_buf buf (with_in ps s))).
Proof.
  induction fuel as [|fuel IH]; intros s Hp Hn Hf; [lia|]. cbn [read_until_amount].
  unfold mbind, SM_bind, geti. set (buf := acknowledgement_buffer_ s) in *. rewrite llen_app in Hn.
  pose proof (llen_nonneg (concat (sc_in s))). destruct (Z.leb_spec n (llen buf)) as [Hle|Hgt]; [lia|].
  unfold conn_read, mbind, SM_bind, geti, mret, SM_ret, upd. cbv iota.
  destruct (sc_in s) as [|c cs] eqn:Ein.
  { exists buf, []. cbn. unfold buf. rewrite <- Ein. by destruct s. }
  apply Forall_cons in Hp as [Hc Hcs]. cbn [concat] in *. rewrite llen_app in Hn. pose proof (llen_nonneg (concat cs)).
  assert (0 < llen c). { pose proof (llen_nonneg c). destruct (decide (llen c = 0)) as [E0|]; [by apply llen_0 in E0|lia]. }
  rewrite ltake_ge, (proj2 (Z.leb_le _ _)) by lia. destruct (Z.eqb_spec (llen c) 0); [lia|]. cbn [negb andb].
  destruct (IH (with_buf (buf ++ c) (with_in cs s))) as (b & ps & E); cbn [with_buf with_in acknowledgement_buffer_ sc_in]; [done| | |].
  - rewrite !llen_app. lia.
  - rewrite llen_app. lia.
  - exists b, ps. exact E.
Qed.

(** What the header read leaves: the same input, with the header in the buffer. *)
Lemma read_header s :
  pieces_ok (sc_in s) → partial_ack (acknowledgement_buffer_ s) → 8 ≤ llen (acknowledgement_buffer_ s ++ concat (sc_in s)) →
  ∃ hdr buf ps, read_ack true (sizeof sync_status) s = Ok (ReadSuccess, with_buf buf (with_in ps s)) ∧
    pieces_ok ps ∧ buf ++ concat ps = acknowledgement_buffer_ s ++ concat (sc_in s) ∧
    decode buf = Some hdr ∧ decode (acknowledgement_buffer_ s ++ concat (sc_in s)) = Some hdr ∧
    (llen buf = 8 ∨ st_id hdr = ID_FAIL ∧ llen buf ≤ 8 + msglen hdr) ∧ 8 ≤ llen buf.
Proof.
  intros Hp Hpart Hl. rewrite sizeof_status. set (buf := acknowledgement_buffer_ s) in *. pose proof (llen_nonneg buf).
  destruct (decide (llen buf ≤ 8)) as [Hs|Hs].
  - destruct (read_block_ok (S (Z.to_nat 8)) 8 s) as (ps & E & Hps & Hc); [done|fold buf; lia|fold buf; lia|].
    destruct (decode_status_some (buf ++ concat (sc_in s)) Hl) as (hdr & Hd & Hd8).
    exists hdr, (ltake 8 (buf ++ concat (sc_in s))), ps. split; [exact E|]. split; [done|]. rewrite Hc, ltake_ldrop. split; [done|].
    rewrite llen_ltake by lia. specialize (Hd8 []). rewrite app_nil_r in Hd8. split_and!; try done. by left.
  - destruct Hpart as [?|(hdr & Hd & Hid & _ & Hlb)]; [rewrite sizeof_status in *; lia|]. rewrite sizeof_status in Hlb.
    destruct (decode_status_some buf) as (hdr' & Hd' & Hd8); [lia|]. assert (hdr' = hdr) as -> by congruence.
    exists hdr, buf, (sc_in s). split.
    { unfold read_ack. cbn [read_until_amount]. unfold mbind at 1, SM_bind at 1, geti. fold buf. rewrite (proj2 (Z.leb_le _ _)) by lia.
      unfold buf. by destruct s. }
    specialize (Hd8 (ldrop 8 buf ++ concat (sc_in s))). rewrite app_assoc, ltake_ldrop in Hd8. split_and!; [done..|by right|lia].
Qed.

Definition log_of (m : option bytes) : list bytes := match m with Some t => [txt "adb: error: " ++ t] | None => [] end.

Lemma ack_loop_ref acks : ∀ fuel s,
  deferred_acknowledgements_ s = acks → (length acks < fuel)%nat → pieces_ok (sc_in s) → partial_ack (acknowledgement_buffer_ s) →
  let '(ok, open, m) := ack_ref acks (acknowledgement_buffer_ s ++ concat (sc_in s)) in
  ∃ s', ack_loop fuel true s = Ok (ok, s') ∧ deferred_acknowledgements_ s' = open ∧ sc_log s' = sc_log s ++ log_of m.
Proof.
  induction acks as [|[from to] acks IH]; intros [|fuel] s Ha Hf Hp Hpart; cbn [length] in Hf; try lia.
  { exists s. cbn [ack_loop]. unfold mbind, SM_bind, geti. rewrite Ha. cbn. by rewrite app_nil_r. }
  set (l := acknowledgement_buffer_ s ++ concat (sc_in s)) in *. cbn [ack_loop ack_ref]. unfold mbind at 1, SM_bind at 1, geti at 1.
  rewrite Ha. unfold ack_turn. unfold mbind, SM_bind, geti. cbn [orb].
  destruct (decide (llen l < 8)) as [Hs|Hs].
  { rewrite (decode_status_short l Hs). destruct (read_block_short (S (Z.to_nat (sizeof sync_status))) (sizeof sync_status) s) as (b & ps & E).
    - done.
    - by rewrite sizeof_status.
    - pose proof (llen_nonneg (acknowledgement_buffer_ s)). rewrite sizeof_status. lia.
    - unfold read_ack. rewrite E. eexists. split; [reflexivity|]. cbn. by rewrite Ha. }
  destruct (read_header s Hp Hpart) as (hdr & buf & ps & -> & Hps & Hall & Hdb & Hdl & Hcase & Hb8); [fold l; lia|].
  fold l in Hall, Hdl. rewrite Hdl. cbn [with_buf with_in acknowledgement_buffer_]. rewrite Hdb.
  pose proof (decode_status_msglen _ _ Hdb) as Hml.
  destruct (Z.eqb_spec (st_id hdr) ID_OKAY) as [Hok|Hnok].
  { assert (llen buf = 8) as H8 by (destruct Hcase as [?|[Hx _]]; [done|rewrite Hok in Hx; by vm_compute in Hx]). unfold upd.
    destruct (Z.eqb_spec (msglen hdr) 0) as [Hm|Hm]; cbn [negb].
    - assert (ldrop (sizeof sync_status) l = concat ps) as Hl.
      { rewrite <- Hall, sizeof_status, ldrop_app_ge, H8, Z.sub_diag, ldrop_0 by lia. done. }
      rewrite Hl. unfold CopyDone, upd, mret, SM_ret.
      specialize (IH fuel (with_acks acks (with_buf [] (with_in ps s)))). cbn [app with_acks with_buf with_in acknowledgement_buffer_ sc_in deferred_acknowledgements_ sc_log] in *.
      rewrite Ha. cbn [tail]. apply IH; [done|lia|done|]. left. done.
    - eexists. split; [reflexivity|]. cbn. by rewrite Ha. }
  destruct (Z.eqb_spec (st_id hdr) ID_FAIL) as [Hfail|Hnfail]; cbn [negb].
  2:{ eexists. split; [reflexivity|]. cbn. by rewrite Ha. }
  destruct (Z.ltb_spec SYNC_DATA_MAX (msglen hdr)) as [Hbig|Hfit].
  { eexists. split; [reflexivity|]. cbn. by rewrite Ha. }
  set (s1 := with_buf buf (with_in ps s)).
  assert (llen l = 8 + llen (ldrop 8 l)) as Hll by (rewrite llen_ldrop by lia; lia).
  rewrite sizeof_status. destruct (Z.ltb_spec (llen (ldrop 8 l)) (msglen hdr)) as [Hshort|Hlong].
  - destruct (read_block_short (S (Z.to_nat (8 + msglen hdr))) (8 + msglen hdr) s1) as (b & ps2 & E).
    + done.
    + cbn [s1 with_buf with_in acknowledgement_buffer_ sc_in]. rewrite Hall. lia.
    + cbn [s1 with_buf with_in acknowledgement_buffer_]. lia.
    + unfold read_ack. rewrite E. eexists. split; [reflexivity|]. cbn. by rewrite Ha.
  - destruct (read_block_ok (S (Z.to_nat (8 + msglen hdr))) (8 + msglen hdr) s1) as (ps2 & E & _ & _).
    + done.
    + cbn [s1 with_buf with_in acknowledgement_buffer_ sc_in]. rewrite Hall. destruct Hcase as [?|[_ ?]]; lia.
    + cbn [s1 with_buf with_in acknowledgement_buffer_]. lia.
    + cbn [s1 with_buf with_in acknowledgement_buffer_ sc_in] in E. rewrite Hall in E. unfold read_ack. fold s1. rewrite E.
      unfold ReportDeferredCopyFailure. unfold mbind, SM_bind, geti.
      cbn [s1 with_buf with_in acknowledgement_buffer_ deferred_acknowledgements_]. rewrite Ha.
      eexists. split; [reflexivity|]. cbn [with_buf with_acks with_log deferred_acknowledgements_ sc_log with_in s1 log_of]. split; [done|].
      do 2 f_equal. f_equal. unfold copy_failed. rewrite ldrop_ltake by lia. by rewrite Z.add_simpl_l.
Qed.

(** C24. When it waits for all answers, [ReadAcknowledgements] computes [ack_ref] of the
    input: whatever pieces the answers come in, and also when a part of an answer was read
    by an earlier call, it returns success exactly when the device sent [ID_OKAY] for every
    open file; the first other answer is reported against the file it belongs to, and ends
    the call.  It never waits for more than the answers that are due. *)
Theorem ReadAcknowledgements_ref s :
  pieces_ok (sc_in s) → partial_ack (acknowledgement_buffer_ s) →
  let '(ok, open, m) := ack_ref (deferred_acknowledgements_ s) (acknowledgement_buffer_ s ++ concat (sc_in s)) in
  ∃ s', ReadAcknowledgements true s = Ok (ok, s') ∧ deferred_acknowledgements_ s' = open ∧ sc_log s' = sc_log s ++ log_of m.
Proof. intros Hp Hpart. apply (ack_loop_ref (deferred_acknowledgements_ s) _ s); [done|lia|done|done]. Qed.

(** ** For every behaviour of the device *)

Lemma read_facts fuel block n : ∀ s r s',
  read_until_amount fuel block n s = Ok (r, s') →
  deferred_acknowledgements_ s' = deferred_acknowledgements_ s ∧ (block = true → r ≠ TryLater) ∧
  (r = ReadSuccess → n ≤ llen (acknowledgement_buffer_ s')) ∧
  (llen (acknowledgement_buffer_ s) ≤ n → llen (acknowledgement_buffer_ s') ≤ n) ∧
  (n ≤ llen (acknowledgement_buffer_ s) → r = ReadSuccess ∧ s' = s) ∧
  ∃ d, acknowledgement_buffer_ s' = acknowledgement_buffer_ s ++ d.
Proof.
  assert (∀ s : sync, ∃ d, acknowledgement_buffer_ s = acknowledgement_buffer_ s ++ d) as Hnil by (intros; exists []; by rewrite app_nil_r).
  induction fuel as [|fuel IH]; intros s r s' E; [done|]. cbn [read_until_amount] in E.
  unfold mbind, SM_bind, geti in E. set (buf := acknowledgement_buffer_ s) in *.
  destruct (Z.leb_spec n (llen buf)) as [Hle|Hgt]; [injection E as <- <-; by split_and!|].
  destruct ((if block then mret false else ask e_poll_none) s) as [[later s1]| | | |] eqn:E1; try done.
  assert (sc_in s1 = sc_in s ∧ deferred_acknowledgements_ s1 = deferred_acknowledgements_ s ∧ acknowledgement_buffer_ s1 = buf ∧
    (block = true → later = false)) as (Hi1 & Ha1 & Hb1 & Hl).
  { destruct block; injection E1 as <- <-; done. }
  destruct later.
  { injection E as <- <-. rewrite Hb1. split_and!; try done; [intros Hb; by specialize (Hl Hb)|lia|]. exists []. by rewrite app_nil_r. }
  unfold conn_read, sc_Error, sc_Print, mbind, SM_bind, geti, upd, mret, SM_ret in E. rewrite Hi1 in E. destruct (sc_in s) as [|c cs].
  { injection E as <- <-. cbn [with_log acknowledgement_buffer_ deferred_acknowledgements_]. rewrite Hb1. split_and!; try done; [lia|]. exists []. by rewrite app_nil_r. }
  set (d := ltake (n - llen buf) c) in E. assert (llen d ≤ n - llen buf) as Hd by (unfold d, llen, ltake in *; rewrite length_take; lia).
  destruct (Z.eqb_spec (llen d) 0).
  { injection E as <- <-. cbn [with_log with_in acknowledgement_buffer_ deferred_acknowledgements_]. rewrite Hb1. split_and!; try done; [lia|]. exists []. by rewrite app_nil_r. }
  destruct (negb block && (llen (buf ++ d) <? n)) eqn:Et.
  { injection E as <- <-. cbn [with_buf with_in acknowledgement_buffer_ deferred_acknowledgements_].
    apply andb_true_iff in Et as [Et ?%Z.ltb_lt]. split_and!; [done|by intros ->|done|lia|lia|by exists d]. }
  apply IH in E as (K1 & K2 & K3 & K4 & _ & k & K5). cbn [with_buf with_in acknowledgement_buffer_ deferred_acknowledgements_] in *.
  split_and!; [congruence|done|done|rewrite llen_app in K4; lia|lia|exists (d ++ k); by rewrite app_assoc].
Qed.

(** One turn: the queue loses at most its first element, and success without a further turn
    means that the answer is not there yet. *)
Lemma ack_turn_facts read_all s r s' :
  ack_turn read_all s = Ok (r, s') → partial_ack (acknowledgement_buffer_ s) →
  match r with
  | None => deferred_acknowledgements_ s' = tail (deferred_acknowledgements_ s) ∧ acknowledgement_buffer_ s' = []
  | Some true => deferred_acknowledgements_ s' = deferred_acknowledgements_ s ∧ read_all = false ∧
      llen (deferred_acknowledgements_ s) < max_deferred_acks ∧ partial_ack (acknowledgement_buffer_ s')
  | Some false => True
  end.
Proof.
  intros E Hpart. unfold ack_turn in E. unfold mbind at 1 2, SM_bind at 1 2, geti at 1 in E.
  set (block := read_all || (max_deferred_acks <=? llen (deferred_acknowledgements_ s))) in *.
  assert (block = false → read_all = false ∧ llen (deferred_acknowledgements_ s) < max_deferred_acks) as Hbl.
  { unfold block. intros [? ?%Z.leb_gt]%orb_false_iff. done. }
  destruct (read_ack block (sizeof sync_status) s) as [[r1 s1]| | | |] eqn:E1; try done.
  apply read_facts in E1 as (Ha1 & Ht1 & Hs1 & Hle1 & Hid1 & d1 & Hb1). rewrite sizeof_status in *.
  assert (llen (acknowledgement_buffer_ s) ≤ 8 ∧ llen (acknowledgement_buffer_ s1) ≤ 8 ∨
    r1 = ReadSuccess ∧ s1 = s ∧ ∃ hdr, decode (acknowledgement_buffer_ s) = Some hdr ∧ llen (acknowledgement_buffer_ s) ≤ 8 + msglen hdr) as Hcase.
  { destruct (decide (llen (acknowledgement_buffer_ s) ≤ 8)); [left; auto|]. right.
    destruct Hpart as [?|(hdr & Hd & _ & _ & ?)]; rewrite sizeof_status in *; [lia|]. destruct Hid1 as [-> ->]; [lia|]. eauto. }
  destruct r1; [|by injection E as <- <-|].
  2:{ injection E as <- <-. destruct block eqn:Eb; [by destruct (Ht1 eq_refl)|]. destruct (Hbl eq_refl) as [-> ?]. split_and!; try done.
      destruct Hcase as [[_ ?]|[? _]]; [by left|done]. }
  specialize (Hs1 eq_refl). unfold mbind at 1, SM_bind at 1, geti at 1 in E.
  destruct (decode_status_some _ Hs1) as (hdr & Hd1 & Hd8). rewrite Hd1 in E.
  destruct (st_id hdr =? ID_OKAY).
  { unfold mbind, SM_bind, upd in E. destruct (negb (msglen hdr =? 0)); [by injection E as <- <-|]. injection E as <- <-. cbn. by rewrite Ha1. }
  destruct (Z.eqb_spec (st_id hdr) ID_FAIL) as [Hf|]; cbn [negb] in E; [|by injection E as <- <-].
  destruct (Z.ltb_spec SYNC_DATA_MAX (msglen hdr)); [by injection E as <- <-|].
  unfold mbind at 1, SM_bind at 1 in E. destruct (read_ack block (8 + msglen hdr) s1) as [[r2 s2]| | | |] eqn:E2; try done.
  apply read_facts in E2 as (Ha2 & Ht2 & _ & Hle2 & _ & d2 & Hb2). destruct r2.
  - unfold mbind at 1 2, SM_bind at 1 2, geti at 1 in E. destruct (ReportDeferredCopyFailure _ s2) as [[[] s3]| | | |]; try done.
    by injection E as <- <-.
  - by injection E as <- <-.
  - injection E as <- <-. destruct block eqn:Eb; [by destruct (Ht2 eq_refl)|]. destruct (Hbl eq_refl) as [-> ?].
    split_and!; [congruence|done|done|]. right. exists hdr. rewrite sizeof_status. pose proof (decode_status_msglen _ _ Hd1). split_and!; [|done|done|].
    + specialize (Hd8 (ldrop 8 (acknowledgement_buffer_ s1) ++ d2)). by rewrite app_assoc, ltake_ldrop, <- Hb2 in Hd8.
    + apply Hle2. destruct Hcase as [[_ ?]|(_ & -> & hdr' & Hd' & ?)]; [lia|]. congruence.
Qed.

(** For every behaviour of the device and of the network, a call that returns success
    leaves fewer than 128 files without an answer, and none when it was told to wait for all
    of them; files leave the queue from the front only, and what was read of an unfinished
    answer is kept in a state from which the next call goes on. *)
Theorem acknowledgements_bounded read_all s s' :
  ReadAcknowledgements read_all s = Ok (true, s') → partial_ack (acknowledgement_buffer_ s) →
  llen (deferred_acknowledgements_ s') < max_deferred_acks ∧ (read_all = true → deferred_acknowledgements_ s' = []) ∧
  (∃ answered, deferred_acknowledgements_ s = answered ++ deferred_acknowledgements_ s') ∧
  partial_ack (acknowledgement_buffer_ s').
Proof.
  unfold ReadAcknowledgements. unfold mbind, SM_bind, geti. generalize (S (length (deferred_acknowledgements_ s))). intros fuel.
  revert s. induction fuel as [|fuel IH]; intros s E Hpart; [done|]. cbn [ack_loop] in E. unfold mbind at 1, SM_bind at 1, geti at 1 in E.
  destruct (deferred_acknowledgements_ s) as [|a acks] eqn:Ea.
  { injection E as <-. rewrite Ea. split_and!; [done|done|by exists []|done]. }
  unfold mbind, SM_bind in E. destruct (ack_turn read_all s) as [[r s1]| | | |] eqn:E1; try done.
  apply ack_turn_facts in E1; [|done]. destruct r as [[]|].
  - injection E as <-. destruct E1 as (Ha & -> & Hl & Hp). rewrite Ha, Ea in *. split_and!; [done|done|by exists []|done].
  - done.
  - destruct E1 as [Ha Hb]. rewrite Ea in Ha. cbn [tail] in Ha.
    destruct (IH s1 E) as (K1 & K2 & [answered K3] & K4); [left; by rewrite Hb|].
    split_and!; [done|done| |done]. exists (a :: answered). cbn. by rewrite <- K3, Ha.
Qed.
End acks.
