(* ===== verification/SyncErrors.v ===== *)
(** * The sync client: answers, errors and what cannot work

    The answers to [stat] requests, with the two ways they can end badly, and three
    behaviours of the client that no device or file system can avoid: a directory is never
    pushed, a compressed stream that stops too early keeps the receiver busy for ever, and a
    second end of a stream ends the process. *)

From S2P Require Import Prelude Types Strings Transport World Io Paths SyncWire Codec CodecInv Sync SyncInv SyncFiles.

(** ** Running a computation *)

Lemma run_bind {A B} (m : SM A) (f : A → SM B) s a s' : m s = Ok (a, s') → (m ≫= f) s = f a s'.
Proof. unfold mbind, SM_bind. by intros ->. Qed.
Lemma run_lift {A B} (r : res A) (f : A → SM B) s a : r = Ok a → (lift r ≫= f) s = f a s.
Proof. by intros ->. Qed.
Lemma run_geti {A B} (g : sync → A) (f : A → SM B) s : (geti g ≫= f) s = f (g s) s.
Proof. done. Qed.
Lemma run_bind_inv {A B} (m : SM A) (f : A → SM B) s b s' :
  (m ≫= f) s = Ok (b, s') → ∃ a s1, m s = Ok (a, s1) ∧ f a s1 = Ok (b, s').
Proof. unfold mbind, SM_bind. destruct (m s) as [[a s1]| | | |]; try done. eauto. Qed.
Lemma run_lift_inv {A B} (r : res A) (f : A → SM B) s b s' :
  (lift r ≫= f) s = Ok (b, s') → ∃ a, r = Ok a ∧ f a s = Ok (b, s').
Proof. intros E. apply run_bind_inv in E as (a & s1 & E & E'). unfold lift in E. destruct r; try done. injection E as <- <-. eauto. Qed.

(** ** Stat *)

Section stat.
Context `{SyncEnv}.

Lemma read_short n s : pieces_ok (sc_in s) → llen (concat (sc_in s)) < n → ∃ s', read_exactly n s = Ok (None, s').
Proof.
  intros Hp Hn. unfold read_exactly, mbind, SM_bind, geti. rewrite (ReadFdExactly_short _ _ Hp Hn). by eexists.
Qed.

Lemma errno_from_wire_not e : errno_from_wire e ≠ ENOTSUP ∧ errno_from_wire e ≠ ENOPROTOOPT.
Proof.
  unfold errno_from_wire. case_bool_decide as Hin; [|done]. split; intros ->; unfold ERRNO_VALUES in Hin;
    repeat (apply elem_of_cons in Hin as [Hin|Hin]; [done|]); by apply elem_of_nil in Hin.
Qed.

(** The answer to a [stat] request of the second version.  A well-formed answer is taken
    from the input, whatever pieces it comes in and no byte more; it gives its fields, or
    fails with an error that is never one of the two that [sync_stat_fallback] and the pull
    of a missing file look for.  When the connection ends before the answer is complete, or
    the answer has another id, the process is aborted. *)
Theorem FinishStat_v2 s m rest :
  have_stat_v2_ (sc_caps s) = true → pieces_ok (sc_in s) → wire_ok m →
  (concat (sc_in s) = encode m ++ rest → s2_id m = ID_STAT_V2 ∨ s2_id m = ID_LSTAT_V2 →
     ∃ ok st s', FinishStat s = Ok ((ok, st), s') ∧ concat (sc_in s') = rest ∧ sc_out s' = sc_out s ∧
       (ok = true ↔ s2_error m = 0) ∧
       (ok = true → st_mode st = s2_mode m ∧ st_size st = s64 (s2_size m) ∧ st_mtime st = s2_mtime m) ∧
       (ok = false → sc_errno s' ≠ ENOTSUP ∧ sc_errno s' ≠ ENOPROTOOPT)) ∧
  (concat (sc_in s) = encode m ++ rest → s2_id m ≠ ID_STAT_V2 → s2_id m ≠ ID_LSTAT_V2 → FinishStat s = Fatal) ∧
  (llen (concat (sc_in s)) < sizeof sync_stat_v2 → FinishStat s = Fatal).
Proof.
  intros Hv2 Hp Hm. unfold FinishStat. rewrite !run_geti, Hv2. split_and!.
  - intros Hc Hid. destruct (runs_read_struct m rest s Hp Hc Hm) as (x & s1 & E & -> & ps & Hps & Hpk & Hs).
    rewrite (run_bind _ _ _ _ _ E).
    assert (negb (s2_id m =? ID_LSTAT_V2) && negb (s2_id m =? ID_STAT_V2) = false) as ->.
    { destruct Hid as [-> | ->]; [by rewrite Z.eqb_refl, andb_false_r|by rewrite Z.eqb_refl]. }
    assert (concat (sc_in s1) = rest ∧ sc_out s1 = sc_out s) as [Hr Ho] by (destruct Hs as [_ -> -> _ _ _]; done).
    destruct (Z.eqb_spec (s2_error m) 0) as [E0|E0]; cbn [negb].
    + eexists true, _, s1. split; [reflexivity|]. by split_and!.
    + eexists false, _, _. split; [reflexivity|]. split_and!; try done. intros _. apply errno_from_wire_not.
  - intros Hc Hn1 Hn2. destruct (runs_read_struct m rest s Hp Hc Hm) as (x & s1 & E & -> & _).
    rewrite (run_bind _ _ _ _ _ E). by rewrite (proj2 (Z.eqb_neq _ _) Hn1), (proj2 (Z.eqb_neq _ _) Hn2).
  - intros Hs. destruct (read_short _ s Hp Hs) as [s' E]. rewrite (run_bind (read_struct sync_stat_v2) _ s None s'); [done|].
    unfold read_struct. by rewrite (run_bind _ _ _ _ _ E).
Qed.
End stat.

(** ** Directories *)

Definition keeps_features {A} (m : SM A) : Prop := ∀ s a s', m s = Ok (a, s') → sc_features s' = sc_features s.

Section features.
Context `{SyncEnv} `{Uninit} `{LZ4F} `{Brotli} `{Zstd}.

Lemma keeps_ret {A} (a : A) : keeps_features (mret a).
Proof. by intros s b s' [= <- <-]. Qed.
Lemma keeps_bind {A B} (m : SM A) (f : A → SM B) : keeps_features m → (∀ a, keeps_features (f a)) → keeps_features (m ≫= f).
Proof.
  intros Hm Hf s b s' E. unfold mbind, SM_bind in E. destruct (m s) as [[a s1]| | | |] eqn:Em; try done.
  rewrite (Hf _ _ _ _ E). by eapply Hm.
Qed.
Lemma keeps_lift {A} (r : res A) : keeps_features (lift r).
Proof. intros s a s' E. unfold lift in E. destruct r; try done. by injection E as <- <-. Qed.
Lemma keeps_ask_errno {A} (f : list sys → Z + A) : keeps_features (ask_errno f).
Proof. intros s a s' E. unfold ask_errno, ask, mbind, SM_bind, geti in E. cbn in E. destruct (f (sc_hist s)); by injection E as <- <-. Qed.
Lemma keeps_fail_errno b : keeps_features (fail_errno b).
Proof. by intros s a s' [= <- <-]. Qed.
Lemma keeps_skip_warning p m : keeps_features (skip_warning p m).
Proof. by intros s a s' [= <- <-]. Qed.

Lemma keeps_scan l r names : ∀ dl fl, keeps_features (scan_entries l r names dl fl).
Proof.
  induction names as [|name names IH]; intros dl fl; cbn [scan_entries]; [apply keeps_ret|].
  destruct (IsDotOrDotDot name); [apply IH|]. apply keeps_bind; [apply keeps_ask_errno|]. intros [st|].
  - apply keeps_bind; [apply keeps_lift|]. intros ci. destruct (S_ISDIR (st_mode st)); [apply IH|].
    apply keeps_bind; [|intros; apply IH]. destruct (should_push_file (st_mode st)); [apply keeps_ret|].
    apply keeps_bind; [apply keeps_skip_warning|intros; apply keeps_ret].
  - apply keeps_bind; [apply keeps_fail_errno|intros; apply IH].
Qed.
Lemma keeps_build fuel : ∀ fl dl l r, keeps_features (local_build_list fuel fl dl l r).
Proof.
  induction fuel as [|fuel IH]; intros fl dl l r; [done|]. cbn [local_build_list].
  apply keeps_bind; [apply keeps_ask_errno|]. intros [names|]; [|apply keeps_bind; [apply keeps_fail_errno|intros; apply keeps_ret]].
  apply keeps_bind; [apply keeps_scan|]. intros [dirs fl1]. revert fl1 dl. induction dirs as [|ci dirs IHd]; intros fl1 dl; [apply keeps_ret|].
  apply keeps_bind; [apply IH|]. intros [[b fl2] dl2]. apply IHd.
Qed.

(** On a connection as the constructor leaves it, a directory is never pushed: the
    attempt returns [false] when the local directory cannot be opened, and as soon as the
    list of its files is complete it reads the features of the device through a null
    pointer.  It never returns success. *)
Theorem directory_push_undefined fuel lpath rpath check_timestamps list_only compression dry_run features pieces h :
  let s := new_SyncConnection features pieces h in
  let push := copy_local_dir_remote fuel lpath rpath check_timestamps list_only compression dry_run in
  (∀ ok s', push s = Ok (ok, s') → ok = false) ∧
  (∀ l r dirs lists s', ensure_trailing_separators lpath rpath = Ok (l, r) → parent_dirs fuel r [] = Ok dirs →
     local_build_list fuel [] dirs l r s = Ok (true, lists.1, lists.2, s') → push s = Undef).
Proof.
  intros s push. unfold push, copy_local_dir_remote.
  split.
  - intros ok s' E. apply run_bind_inv in E as (a & s0 & [= <- <-] & E).
    apply run_lift_inv in E as ([l r] & _ & E). apply run_lift_inv in E as (dirs & _ & E).
    apply run_bind_inv in E as ([[b fl] dl] & s1 & Hb & E). apply keeps_build in Hb.
    destruct b; cbn [negb] in E; [|by injection E as <- <-]. apply run_bind_inv in E as (f1 & s2 & E & _).
    unfold Features in E. rewrite run_geti, Hb in E. done.
  - intros l r dirs [fl dl] s' Hsep Hd Hb. rewrite (run_bind _ _ _ () s) by done. rewrite (run_lift _ _ _ _ Hsep), (run_lift _ _ _ _ Hd).
    rewrite (run_bind _ _ _ _ _ Hb). apply keeps_build in Hb. cbn [fst snd negb].
    unfold mbind at 1, SM_bind at 1, Features. by rewrite run_geti, Hb.
Qed.
End features.

(** ** Streams that end too early, or twice *)

Section streams.
Context `{SyncEnv} `{Uninit} `{LZ4F} `{Brotli} `{Zstd}.

(** A decoder that neither takes input nor gives output, and is not done. *)
Lemma decode_loop_stuck D (d : dec_t D) :
  dec_decode D d = Ok (DecMoreOutput, [], d) → ∀ fuel l n esz copied s, decode_loop fuel D l n esz copied d s = NoFuel.
Proof.
  intros Hd fuel. induction fuel as [|fuel IH]; intros l n esz copied s; [done|]. cbn [decode_loop]. rewrite (run_lift _ _ _ _ Hd).
  change (llen [] =? 0) with true. cbv iota. rewrite (run_bind _ _ s true s) by done. cbn [negb].
  rewrite (run_bind (RecordBytesTransferred _) _ _ () _) by reflexivity.
  unfold ReportProgress, mbind, SM_bind. destruct g_sync_observer as [o|]; [destruct (on_progress o)|]; apply IH.
Qed.

(** An LZ4 or Zstandard stream that is cut short, followed by [ID_DONE], makes the
    receiver loop for ever: at the end of the stream the decoder reports more output until
    the library has seen the end of the frame, which never comes, and the loop around it
    looks neither at the connection nor at the observer that could stop it. *)
Theorem truncated_stream_never_ends fuel lpath name esz copied s :
  (∀ (c : coder lz4_decoder) hint,
     finished_ c = true → chain_ (input_buffer_ c) = [] → size (input_buffer_ c) = 0 → lz4_done_ (lib c) = false → hint ≠ 0 →
     lz4_decompress (ld_ctx (lib c)) SYNC_DATA_MAX [] = Some (hint, 0, [], ld_ctx (lib c)) →
     decode_loop fuel LZ4Decoder lpath name esz copied c s = NoFuel) ∧
  (∀ (c : coder (zs_d * bool)) hint,
     finished_ c = true → chain_ (input_buffer_ c) = [] → size (input_buffer_ c) = 0 → (lib c).2 = false → hint ≠ 0 →
     zs_decompress (lib c).1 [] SYNC_DATA_MAX = Some (hint, 0, [], (lib c).1) →
     decode_loop fuel ZstdDecoder lpath name esz copied c s = NoFuel).
Proof.
  split; intros [fin v lib0] hint Hf Hc Hs Hd Hh Hl; apply decode_loop_stuck; cbn in *.
  - unfold LZ4Decoder_Decode, front, front_size, front_data. cbn [input_buffer_ lib]. rewrite Hc. rok. change (ltake 0 []) with (@nil byte). rewrite Hl.
    unfold drop_front. rewrite Z.eqb_refl. rok. rewrite (proj2 (Z.eqb_neq _ _) Hh). cbn [andb orb finished_ lib lz4_done_]. rewrite Hf, Hd, andb_false_r.
    by destruct lib0; cbn in *; subst.
  - unfold ZstdDecoder_Decode, front, front_size, front_data. cbn [input_buffer_ lib]. rewrite Hc. rok. change (ltake 0 []) with (@nil byte). rewrite Hl.
    unfold drop_front. rewrite Z.eqb_refl. rok. rewrite (proj2 (Z.eqb_neq _ _) Hh). cbn [andb orb finished_ lib]. rewrite Hf, Hd, andb_false_r.
    by destruct lib0; cbn in *; subst.
Qed.

(** A Brotli stream that is cut short and followed by [ID_DONE] twice ends the process:
    after the first end the decoder asks for more input and the loop goes on, and the second
    one is a fatal error in [Finish], before the check whose message it was to give. *)
Theorem second_done_aborts (c : coder br_d) fuel rpath lpath name esz copied mtime rest s :
  finished_ c = true → pieces_ok (sc_in s) → concat (sc_in s) = encode (mkData ID_DONE mtime) ++ rest → 0 ≤ mtime < 2 ^ 32 →
  (∀ o f, g_sync_observer = Some o → should_abort o = Some f → ∀ h, f h = false) →
  (∀ d ctx, front (input_buffer_ c) = Ok d → br_decompress (lib c) d SYNC_DATA_MAX = (BrNeedsInput, 0, [], ctx) →
     ∃ c', dec_decode BrotliDecoder c = Ok (DecNeedInput, [], c') ∧ finished_ c' = true) ∧
  recv_v2_loop (S fuel) BrotliDecoder rpath lpath name esz copied c s = Fatal.
Proof.
  intros Hf Hp Hc Hm Hab. split.
  - intros d ctx Hd Hbr. eexists. split; [|]. { cbn. unfold BrotliDecoder_Decode. rewrite Hd. rok. rewrite Hbr. unfold drop_front. rewrite Z.eqb_refl. rok. reflexivity. }
    done.
  - cbn [recv_v2_loop].
    assert (recv_v2_message BrotliDecoder rpath lpath c s = Fatal) as E; [|unfold mbind, SM_bind; by rewrite E].
    unfold recv_v2_message.
    assert (∃ s1, sync_should_abort s = Ok (false, s1) ∧ sc_in s1 = sc_in s) as (s1 & E & Hi).
    { unfold sync_should_abort. destruct g_sync_observer as [o|] eqn:Eo; [|by exists s].
      destruct (should_abort o) as [f|] eqn:Ef; [|by exists s]. unfold ask. rewrite run_geti. eexists. cbn. by rewrite (Hab o f eq_refl Ef). }
    rewrite (run_bind _ _ _ _ _ E).
    assert (∃ s2, read_struct sync_data s1 = Ok (Some (mkData ID_DONE mtime), s2)) as [s2 E2].
    { destruct (runs_read_struct (mkData ID_DONE mtime) rest s1) as (x & s2 & E2 & -> & _); [by rewrite Hi|by rewrite Hi|by apply done_ok|]. eauto. }
    rewrite (run_bind _ _ _ _ _ E2). cbn [dt_id]. rewrite Z.eqb_refl. unfold mbind, SM_bind, lift. cbn. unfold coder_finish. by rewrite Hf.
Qed.
End streams.
