(* ===== verification/SyncDemo.v ===== *)
(** * The sync client: a concrete transfer

    A host on which nothing fails, with one local file, and small answers of a device: the
    theorems about the sync client are applied to them, with their hypotheses evaluated. *)

From S2P Require Import Prelude Types Strings Transport World Io Paths SyncWire Codec CodecInv Sync SyncInv SyncFiles SyncAcks SyncErrors.

(** Libraries that copy, and whose streams never end. *)
#[local] Instance demo_heap : Uninit := zero_heap.
#[local] Instance demo_lz4 : LZ4F := {|
  lz4_c := unit; lz4_d := unit; lz4_create_c := Some (); lz4_create_d := Some ();
  lz4_begin := λ c, Some ([], c); lz4_update := λ c d, Some (d, c); lz4_end := λ c, Some ([], c);
  lz4_decompress := λ c _ d, Some (1, llen d, d, c)
|}.
#[local] Instance demo_brotli : Brotli := {|
  br_c := unit; br_d := unit; br_create_c := (); br_create_d := ();
  br_compress := λ c _ d _, Some (llen d, d, c); br_finished := λ _, false;
  br_decompress := λ c d _, (BrNeedsInput, 0, [], c)
|}.
#[local] Instance demo_zstd : Zstd := {|
  zs_c := unit; zs_d := unit; zs_create_c := Some (); zs_create_d := Some ();
  zs_compress := λ c _ d _, Some (0, llen d, d, c); zs_decompress := λ c d _, Some (1, llen d, d, c)
|}.
#[local] Instance demo_lz4_laws : LZ4FLaws eq.
Proof.
  refine {| lz4_st := λ _ i o, i = o |}.
  - by exists (), [], ().
  - intros [] i o d -> Hd. exists d, (). split_and!; try done. lia.
  - intros [] i o ->. exists [], (). split_and!; try done. by rewrite app_nil_r.
Defined.

Definition demo_file : list bytes := [txt "hello "; txt "world"].
Definition demo_stat : stat := mkStat 0 0 33188 1 0 0 11 0 1000 0.
#[local] Instance demo_env : SyncEnv := {|
  g_sync_observer := Some (mkObserver true true None);
  e_send := λ _ _, None; e_recv_errno := λ _, 0; e_poll_none := λ _, false;
  e_stat := λ _ p, if bool_decide (p = txt "out") then inl ENOENT else inr demo_stat;
  e_lstat := λ _ _, inr demo_stat; e_readlink := λ _ _, inl 22;
  e_open := λ _ _, inr (reader_of demo_file); e_opendir := λ _ _, inr [];
  e_unlink := λ _ _, true; e_creat := λ _ _, None; e_write := λ _ _ _, None; e_utime := λ _ _ _, 0; e_chmod := λ _ _ _, 0; e_umask := 18;
  e_isdir := λ _ _, true; e_mkdir := λ _ _, true; strerror := λ _, txt "error"
|}.
#[local] Instance demo_undisturbed : Undisturbed.
Proof. split; try done. by intros o f [= <-] [=]. Qed.

Definition demo_features : list bytes := [txt "stat_v2"; txt "sendrecv_v2"].
Definition demo_sync (pieces : list bytes) : sync := new_SyncConnection demo_features pieces [].

(** The device answers [stat] and sends the file in two blocks. *)
Definition demo_answer : sync_stat_v2 := mkStat2 ID_STAT_V2 0 0 0 33188 1 0 0 11 0 1000 0.
Definition demo_pieces : list bytes := [encode demo_answer; file_stream demo_file 1000].

Lemma pull_only_destination_witness :
  ∃ r s', do_sync_pull_fd 9 3 [txt "/sdcard/a"] (txt "out") true CNone None (demo_sync demo_pieces) = Ok (r, s') ∧
    r = (true, 11) ∧ grows (pull_event (txt "out") [txt "/sdcard/a"]) [] (sc_hist s').
Proof.
  eexists _, _. split; [vm_compute; reflexivity|]. split; [reflexivity|].
  eapply (pull_only_destination 9 3 [txt "/sdcard/a"] (txt "out") true CNone None (demo_sync demo_pieces)).
  - vm_compute. set_solver.
  - repeat constructor. vm_compute. set_solver.
  - vm_compute. reflexivity.
Defined.

Lemma failed_receive_leaves_nothing_witness :
  ∃ s', sync_recv 9 (txt "/a") (txt "out") None 0 CNone (demo_sync [encode (mkData ID_FAIL 2); txt "no"]) = Ok (false, s') ∧
    (grows quiet [] (sc_hist s') ∨ file_after (txt "out") (Some (txt "old")) (sc_hist s') = None ∨ last_unlink (txt "out") (sc_hist s') = Some false).
Proof.
  eexists. split; [vm_compute; reflexivity|].
  eapply (failed_receive_leaves_nothing 9 (txt "/a") (txt "out") None 0 CNone (demo_sync [encode (mkData ID_FAIL 2); txt "no"])).
  vm_compute. reflexivity.
Defined.

Lemma large_file_roundtrip_witness :
  ∃ fuel0 flags stream, ∀ fuel, (fuel0 ≤ fuel)%nat →
    (∃ s', SendLargeFile fuel (txt "/a") 33188 (txt "f") (txt "/a") 1000 CNone false (demo_sync []) = Ok (true, s') ∧
       sc_out s' = [] ++ send2_request (txt "/a") 33188 flags ++ stream ∧
       deferred_acknowledgements_ s' = [] ++ [(txt "f", txt "/a")]) ∧
    ∀ t copy before rest, sc_caps t = sc_caps (demo_sync []) → pieces_ok (sc_in t) → concat (sc_in t) = stream ++ rest →
      ∃ fuel1, ∀ fuel', (fuel1 ≤ fuel')%nat → ∃ t', sync_recv_v2 fuel' (txt "/a") copy None 0 CNone t = Ok (true, t') ∧
        file_after copy before (sc_hist t') = Some (txt "hello world") ∧ concat (sc_in t') = rest.
Proof.
  apply (large_file_roundtrip CNone (txt "/a") 33188 (txt "f") (txt "/a") 1000 demo_stat demo_file (demo_sync [])); try reflexivity.
  - vm_compute. congruence.
  - lia.
  - repeat constructor; discriminate.
Defined.

Lemma legacy_file_roundtrip_witness :
  ∃ fuel0 stream, ∀ fuel, (fuel0 ≤ fuel)%nat →
    (∃ s', SendLargeFileLegacy fuel (txt "/a") 33188 (txt "f") (txt "/a") 1000 (demo_sync []) = Ok (true, s') ∧
       sc_out s' = [] ++ (encode (mkRequest ID_SEND_V1 8) ++ txt "/a,33188") ++ stream) ∧
    ∀ t copy before rest, pieces_ok (sc_in t) → concat (sc_in t) = stream ++ rest →
      ∃ t', sync_recv_v1 fuel (txt "/a") copy None 0 t = Ok (true, t') ∧
        file_after copy before (sc_hist t') = Some (txt "hello world") ∧ concat (sc_in t') = rest.
Proof.
  apply (legacy_file_roundtrip (txt "/a") 33188 (txt "f") (txt "/a") 1000 demo_stat demo_file (demo_sync [])); try reflexivity.
  - vm_compute. congruence.
  - vm_compute. congruence.
  - lia.
  - repeat constructor; discriminate.
Defined.

Lemma small_file_roundtrip_witness :
  ∃ stream,
    (∃ s', SendSmallFile 2 (txt "/a") 33188 (txt "f") (txt "/a") 1000 (txt "hi") false (demo_sync []) = Ok (true, s') ∧
       sc_out s' = [] ++ (encode (mkRequest ID_SEND_V1 8) ++ txt "/a,33188") ++ stream ∧
       deferred_acknowledgements_ s' = [] ++ [(txt "f", txt "/a")]) ∧
    ∀ t copy before rest, pieces_ok (sc_in t) → concat (sc_in t) = stream ++ rest →
      ∃ t', sync_recv_v1 2 (txt "/a") copy None 0 t = Ok (true, t') ∧
        file_after copy before (sc_hist t') = Some (txt "hi") ∧ concat (sc_in t') = rest.
Proof.
  apply (small_file_roundtrip (txt "/a") 33188 (txt "f") (txt "/a") 1000 (txt "hi") 2 (demo_sync [])); try lia; vm_compute; congruence.
Defined.

(** Two files are open; the device accepts the first and refuses the second. *)
Definition demo_acks : sync :=
  with_acks [(txt "a", txt "/a"); (txt "b", txt "/b")]
    (demo_sync [txt "OK"; txt "AY" ++ le32 0 ++ txt "FAIL"; le32 4 ++ txt "full"]).

Lemma ReadAcknowledgements_ref_witness :
  ∃ s', ReadAcknowledgements true demo_acks = Ok (false, s') ∧ deferred_acknowledgements_ s' = [] ∧
    sc_log s' = [] ++ [txt "adb: error: failed to copy 'b' to '/b': remote full"].
Proof.
  apply (ReadAcknowledgements_ref demo_acks).
  - repeat constructor; discriminate.
  - left. vm_compute. congruence.
Defined.

Lemma acknowledgements_bounded_witness :
  ∃ s', ReadAcknowledgements false (with_acks [(txt "a", txt "/a")] (demo_sync [txt "OKA"])) = Ok (true, s') ∧
    llen (deferred_acknowledgements_ s') < max_deferred_acks ∧ (false = true → deferred_acknowledgements_ s' = []) ∧
    (∃ answered, [(txt "a", txt "/a")] = answered ++ deferred_acknowledgements_ s') ∧ partial_ack (acknowledgement_buffer_ s').
Proof.
  eexists. split; [vm_compute; reflexivity|].
  eapply (acknowledgements_bounded false (with_acks [(txt "a", txt "/a")] (demo_sync [txt "OKA"]))).
  - vm_compute. reflexivity.
  - left. vm_compute. congruence.
Defined.

Lemma FinishStat_v2_witness :
  (∃ ok st s', FinishStat (demo_sync demo_pieces) = Ok ((ok, st), s') ∧ concat (sc_in s') = file_stream demo_file 1000 ∧
     sc_out s' = [] ∧ (ok = true ↔ s2_error demo_answer = 0) ∧
     (ok = true → st_mode st = 33188 ∧ st_size st = 11 ∧ st_mtime st = 1000) ∧
     (ok = false → sc_errno s' ≠ ENOTSUP ∧ sc_errno s' ≠ ENOPROTOOPT)) ∧
  FinishStat (demo_sync [txt "STA2"]) = Fatal.
Proof.
  split.
  - apply (FinishStat_v2 (demo_sync demo_pieces) demo_answer (file_stream demo_file 1000)); try reflexivity.
    + repeat constructor; discriminate.
    + repeat constructor; cbn; done || lia.
    + by left.
  - apply (FinishStat_v2 (demo_sync [txt "STA2"]) demo_answer []); try reflexivity.
    + repeat constructor; discriminate.
    + repeat constructor; cbn; done || lia.
Defined.

Definition demo_coder : coder br_d := mkCoder true empty_iov br_create_d.
Lemma second_done_aborts_witness :
  (∀ d ctx, front empty_iov = Ok d → br_decompress (lib demo_coder) d SYNC_DATA_MAX = (BrNeedsInput, 0, [], ctx) →
     ∃ c', dec_decode BrotliDecoder demo_coder = Ok (DecNeedInput, [], c') ∧ finished_ c' = true) ∧
  recv_v2_loop 3 BrotliDecoder (txt "/a") (txt "out") (txt "/a") 0 0 demo_coder
    (demo_sync [encode (mkData ID_DONE 0)]) = Fatal.
Proof.
  apply (second_done_aborts demo_coder 2 (txt "/a") (txt "out") (txt "/a") 0 0 0 [] (demo_sync [encode (mkData ID_DONE 0)]));
    try reflexivity.
  - repeat constructor; discriminate.
  - lia.
  - by intros o f [= <-] [=].
Defined.

(** With a device that knows LZ4. *)
Definition demo_lz4_sync : sync := new_SyncConnection (txt "sendrecv_v2_lz4" :: demo_features) [] [].
Lemma lz4_file_sent_witness :
  ∃ fuel0 chunks, txt "hello world" = concat chunks ∧ Forall block_sized chunks ∧
    ∀ fuel, (fuel0 ≤ fuel)%nat →
    ∃ s' flags, SendLargeFile fuel (txt "/a") 33188 (txt "f") (txt "/a") 1000 CAny false demo_lz4_sync = Ok (true, s') ∧
      sc_out s' = [] ++ send2_request (txt "/a") 33188 flags ++ file_stream chunks 1000.
Proof.
  apply (lz4_file_sent (txt "/a") 33188 (txt "f") (txt "/a") 1000 CAny demo_stat demo_file demo_lz4_sync); try reflexivity.
  - vm_compute. congruence.
  - repeat constructor; discriminate.
Defined.
